(* ===== verification/_CoqProject ===== *)
-Q . S2P
Prelude.v
JsValue.v
JsText.v
Canonical.v
JsDate.v
Graph.v
Flow.v
FlowValidate.v
FlowRuntime.v
FlowSchema.v
FlowInvariant.v
FlowDemo.v
FlowSafety.v
FlowFindings.v
FlowProps.v
ActionPolicy.v
ActionPolicyProps.v
Conversation.v
ConversationLog.v
ConversationState.v
ConversationWorkers.v
ConversationContext.v
ConversationDemo.v
Mission.v
MissionGraph.v
MissionInvariant.v
MissionSafety.v
MissionDemo.v
Program.v
ProgramInvariant.v
ProgramHistory.v
ProgramSafety.v
ProgramDemo.v
TurnContract.v
TurnContractProps.v
TurnContractBinding.v
TurnContractDemo.v
SampleRanges.v
Audibility.v
AudibilityInvariant.v
AudibilityProps.v
AudibilityDemo.v
Governed.v
GovernedSystem.v
GovernedTrace.v
DeterministicStore.v
GovernedReplay.v
GovernedDemo.v
Doubles.v
HaccRuntime.v
HaccHistory.v
HaccSafety.v
HaccDemo.v
RealtimeAudibility.v
RealtimeAudibilityProps.v
RealtimeAudibilityScore.v
RealtimeAudibilityDemo.v
VoiceToolSchema.v
VoiceToolSchemaProps.v
VoiceToolSchemaDemo.v
ActionReconciliation.v
ActionReconciliationProps.v
ActionReconciliationCaches.v
ActionReconciliationPolicy.v
ActionReconciliationDemo.v
SpeechGate.v
SpeechGateProps.v
SpeechGateDemo.v
VoiceWorkers.v
VoiceWorkersProps.v
VoiceWorkerCoordinator.v
VoiceWorkerCoordinatorProps.v
VoiceWorkerBackend.v
VoiceWorkerBackendProps.v
VoiceWorkersDemo.v
