(* ===== verification/Prelude.v ===== *)
(** * Harsha's Amazing Call Center: a verification library

    The program runs long voice calls in which a language model acts through tools.
    What the model may do, say and be taken to have said is decided by deterministic
    kernels under src/web/lib, and these are what this library models and verifies.

    ** The program's parts and the files that model them

    - Call flows (flow.ts). A flow is a graph of nodes with nested steps, tool
      policies, output bindings and bound arguments. [Flow] has the data types, the
      structural schema and the queries; [FlowValidate] the validator
      [validateAgentFlow] and the normaliser [normalizeFlow]; [Graph] the queue loop of
      its reachability checks.
    - The flow runtime (flow-runtime.ts). The execution state of one call: active step,
      completed steps, attempts, outputs, capability epoch and the ledger of action
      receipts. [FlowRuntime] has every operation (select a topic, enter and complete a
      step, reserve, dispatch, settle, reconcile an action); [FlowSchema] the schema a
      stored state is parsed with.
    - The action policy kernel (action-policy-kernel.ts). Declarative policies that
      decide before and after a dispatch: [ActionPolicy].
    - The conversation kernel (conversation-kernel.ts). A hash-chained event log, the
      state folded from it (facts, goals, commitments, workers, deliveries) and the
      byte-bounded context shown to the model: [Conversation].
    - The mission runtime (mission-runtime.ts). Goals on a focus stack, facts,
      obligations and actions that are proposed, confirmed and settled: [Mission];
      [MissionGraph] is the search for dependency cycles of a definition.
    - The conversation program (conversation-program/schema.ts, reducer.ts). The event log
      of the second runtime: facts, goals with their capability frontier, reserved actions
      and receipts, workers, flow checkpoints, obligations and what was heard: [Program].
    - The turn contract (runtime-control/turn-contract.ts, canonical.ts). What the model
      may do and claim in the next turn, as a canonical payload with a hash that the host
      retains: [TurnContract].
    - The audibility ledger (audibility-v2/ledger.ts). What was generated, released and
      heard of every spoken response, and the grants of terminal claims: [SampleRanges]
      (sets of samples as ranges) and [Audibility] (events, reducer, evidence).
    - The governed effect runtime (governed-effect-runtime/types.ts, coordinator.ts). The
      coordinator that takes a proposed action through policy, reservation, the dispatch
      boundary, dispatch and settlement, and reconciles effects in doubt: [Governed]. Its
      asynchronous methods are programs of awaited calls; [GovernedSystem] interleaves any
      number of them over a store known by its contract (the class [EffectStoreLaws]), with
      lost answers, crashes and outside changes. [DeterministicStore] is the in-memory store
      (benchmark/v2/stress/effect-store.ts), an instance of that contract.
    - The second runtime's coordinator (hacc-runtime-v2/coordinator.ts, types.ts). It joins
      the conversation program, the ledger, the contract and the governed effect runtime:
      every request is a transaction on the snapshot of one conversation, bound to the hash
      of its contract: [HaccRuntime]. The contract projector is a parameter; the store runs
      a transaction once, under a lease, and publishes what it returns.
    - The audible state of a realtime session (realtime/audibility.ts). The first runtime's
      record, in milliseconds, of what was generated, queued and played of every response
      and what the provider keeps of it, with the scores of that divergence and the decision
      to commit consequential spans as heard: [RealtimeAudibility]. Fractions and weights are
      exact rationals; the locale order of span ids is a parameter.
    - Tool schemas (voice-tools/schema.ts). The normal form that the schemas of tools are
      pinned in, bounds on values of providers and integrations, and the digests that bind
      definitions and a call's catalogue: [VoiceToolSchema]. The Ajv validator is the class
      [VoiceToolSchema.Ajv]; values are plain JSON trees.
    - Action reconciliation (action-reconciliation.ts). Contracts that say which read-only
      query proves that an action whose response was lost was committed or is absent:
      [ActionReconciliation], on the receipts of [FlowRuntime] and the schemas of
      [VoiceToolSchema]. The module's caches are explicit state: a schema object is an
      identity with a content.
    - The outbound speech gate (realtime/outbound-speech-gate.ts). Generated audio is held
      until its response has ended and the evidence of what it says has passed the policy:
      [SpeechGate]. Finalising a response is asynchronous; its continuation at each await is a
      [Stage], and other operations run in between. The Unicode tables and the digest are the
      classes [UnicodeTables] and [Digest].
    - Voice workers (voice-workers/schema.ts, capability-manifest.ts, conversation-adapter.ts,
      coordinator.ts, store-coordinator-backend.ts). Long-running read-only work beside the
      call. [VoiceWorkers]: what a worker is spawned with and reports, the derived read-only
      authority, and both as conversation events. [VoiceWorkerCoordinator]: five operations
      under authority receipts and a journal of idempotency keys, as a [System] of
      interleaved tasks whose [Stage] says which answer each waits for. [VoiceWorkerBackend]:
      the effects of these operations on the store and the host, whose answers are a [World].
      Formats of texts (instants, UUIDs, URLs) are the class [VoiceWorkers.Formats].
    - Shared language: [JsValue] (values, number and string rendering, UTF-8 length),
      [JsText] (the renderings are injective), [Canonical] ([canonicalJson],
      [hashFlowValue]), [JsDate] (canonical ISO instants), [Doubles] (binary64 numbers, for
      durations that are quotients).

    The kernels share the canonical encoder and the hash; the validator's promise to the
    runtime is the class [FlowProps.FlowOk]; checkpoints of the flow state enter the
    conversation log and the conversation program as events; claims of a turn contract are
    backed by receipts, and the audibility ledger releases a claim only with a grant that
    names the contract; the governed effect coordinator asks the policy kernel before and
    after every dispatch; worker results enter the conversation log as deliveries; the second
    runtime calls all of these, and its theorems are proved from theirs.

    ** How code is represented

    A JS string is a list of UTF-16 code units; an object used as a map or a [Map] is an
    insertion-ordered association list ([obj]), and reading a property that may be
    inherited from [Object.prototype] is [get_property]. Finite numbers are the decimals
    that [Number::toString] prints; counters and sample positions are integers with the
    safe-integer tests of the source; durations in milliseconds that the source divides are
    its binary64 numbers, rounded at every operation. Operations that throw or return an error are functions
    into [result]; error texts are shortened. The clock, [randomUUID] and the verifiers that
    the host injects are arguments. SHA-256 is the class [Sha256] (a function whose values
    are 64 lower-case hexadecimal digits). A theorem that relies on hashes identifying content
    concludes with the content or with a collision; where digests are assumed to be digits,
    it names the two texts that collide.

    Histories of a component are runs of its operations with any arguments that the code
    accepts. Where a caller's discipline matters (a failed action settled without a result,
    a detour only to a goal that is not suspended), the theorem says what holds without it,
    and what the discipline adds.

    ** What the theorems show

    - [Canonical]: equal hashes mean equal content.
    - [FlowInvariant], [FlowSafety]: which reachable execution states satisfy the schema they
      are stored with, exactly, and that all those of disciplined callers do;
      the receipt ledger is a state machine; actions are dispatched at most once; limits,
      idempotency, retries and authority epochs hold in every reachable state; outputs and
      bound arguments are the receipts' values.
    - [FlowProps]: what validation guarantees, exactness of the reachability check,
      soundness of normalisation.
    - [ActionPolicyProps]: deny by default, actions allowed exactly when every condition of the
      policy holds on fresh facts and a fresh confirmation, confirmations bound to one
      proposal, results released only under unchanged authority.
    - [ConversationLog], [ConversationState], [ConversationWorkers],
      [ConversationContext]: the log is append-only and replay-safe, its head hash commits
      to the history, the folded facts are those of the authoritative events, worker
      deliveries are accepted once and only when current, and contexts fit their budget.
    - [MissionInvariant], [MissionSafety], [MissionGraph]: reachable missions pass their own
      integrity check, unless a detour to a suspended goal ended that goal, after which no
      operation changes them; receipts and proposals correspond; authority ends with the epoch;
      successes of idempotent actions are unique; the cycle search is exact and ends.
    - [ProgramInvariant], [ProgramHistory], [ProgramSafety]: built logs verify, are in parsed
      form and absorb replays; authority
      stays with the focused goal; effects settle once; workers depend on current facts;
      history is final; when goals complete and when they no longer can.
    - [TurnContractProps], [TurnContractBinding]: when a created contract is accepted again;
      success claims are backed by receipts; an effect in doubt leaves only read-only repair;
      the retained hash binds payload and freshness. The JSON encodings of its records are
      shown to determine them through the class [JsonInj].
    - [SampleRanges], [AudibilityInvariant], [AudibilityProps]: range lists are exactly sets
      of samples; heard audio was released and released audio was generated; released claims
      were granted; sealed playback is final; the projected evidence splits the released
      audio without remainder.
    - [GovernedSystem]: in every interleaving an effect is dispatched at most once per receipt
      and per scoped idempotency key, and only with an allowance of the policy kernel for its
      content. [GovernedTrace]: the calls of one execution are bounded, an effect that may
      have happened is settled on evidence only, by its execution or by its reconciliation,
      and results are on record.
      [DeterministicStore]: the store keeps the contract, settled receipts are final and
      reconciliation claims exclusive. [GovernedReplay]: a replay changes nothing.
    - [HaccHistory], [HaccSafety]: the stored snapshot is always the one its parts compile to;
      transactions only append, and only under the present contract; effects are dispatched on
      the terms of that contract and are accounted for in the program; a terminal claim that
      was heard had been released under grants that were current in the snapshot on which the
      release was committed, or in the ledger that the conversation was started with.
    - [RealtimeAudibilityProps]: the invariant of the audible state; playback only moves forward;
      events delivered again are harmless; content is committed exactly when it was heard, on
      the evidence of the events that say so. [RealtimeAudibilityScore]: what the scores
      measure, that rates are fractions and counts add up, and that reported leaks are real.
    - [VoiceToolSchemaProps]: a schema is admitted exactly when it is portable and bounded;
      its normal form is stable; the admission digest identifies a call's authority.
    - [ActionReconciliationProps]: one proof settles one invocation, in one way.
      [ActionReconciliationCaches]: the caches cannot be observed, and an evaluation always
      returns. [ActionReconciliationPolicy]: when a query is derived, and what an accepted
      catalogue guarantees.
    - [SpeechGateProps]: what is released is what was accepted, checked on the evidence the
      policy asks for; held audio is bounded; decisions are final, and a finalisation ends
      after at most five answers.
    - [VoiceWorkersProps]: worker hashes identify content; derived authority is exactly the
      read tools; which spawns and results become conversation events.
      [VoiceWorkerCoordinatorProps]: the backend is called on current authority and once per
      idempotency key, and all operations under a key have the one answer.
      [VoiceWorkerBackendProps]: calls and outcomes stay in the scope of the authority, and
      which outcomes the coordinator accepts, by a small logic of calls and results.
    - [VoiceWorkersDemo], [VoiceToolSchemaDemo], [ActionReconciliationDemo], [SpeechGateDemo],
      [HaccDemo], [RealtimeAudibilityDemo], [GovernedDemo], [FlowDemo], [ConversationDemo],
      [MissionDemo], [ProgramDemo], [TurnContractDemo], [AudibilityDemo], [FlowFindings]: concrete runs, the witnesses of the theorems, and the
      traces on which the code departs from its intent.

    ** Fuel

    Loops that are not structural take fuel with a proof that it is enough: the queue loop
    of [Graph] gets one round per queued or unreached vertex; the binary search of
    [boundedUtf8Text] one round per code unit; the cycle search of mission definitions one
    level per goal and one more for an undeclared id; decimal digits one step per bit.

    ** Not modelled

    Of the modelled files: signed continuation tokens of missions, [conversationProgramDigest],
    [slimInstructions] and [deriveFlowActionInvocationId], which need base64, HMAC or UUID
    formatting; of the second runtime, the commit observer and the evidence tap, which only
    receive what the model computes; of the voice workers, the list of recipes, the tool pack
    and the SQL store. Of the kernels: the signed flow capability grants and the
    adapters of the first runtime. Network, database, audio and model inference (realtime
    clients, providers, MCP, telephony, PostgreSQL stores), the user interface, and the
    benchmark harness are input and output around the kernels. *)

From Stdlib Require Export ZArith NArith Bool Lia String Ascii.
From stdpp Require Export base tactics list option strings numbers sorting sets gmap.


Declare Scope hacc_scope.
Delimit Scope hacc_scope with hacc.
Open Scope hacc_scope.

(** ** JavaScript strings

    A JS string is a sequence of UTF-16 code units; [js] embeds an ASCII
    literal of the source. *)

Abbreviation jstr := (list N).

Definition js (s : string) : jstr := N_of_ascii <$> list_ascii_of_string s.

Definition str_eqb (a b : jstr) : bool := bool_decide (a = b).
Infix "=?s" := str_eqb (at level 70) : hacc_scope.

(** The truthiness of [string | null | undefined]: only a present, non-empty
    string is truthy. *)
Definition truthy (s : option jstr) : option jstr :=
  match s with Some [] => None | _ => s end.

(** ** Fallible operations *)

Inductive result (E A : Type) : Type :=
| Ok (a : A)
| Err (e : E).
Arguments Ok {E A} _.
Arguments Err {E A} _.

Definition is_ok {E A} (r : result E A) : bool :=
  match r with Ok _ => true | Err _ => false end.

Definition bind_result {E A B} (r : result E A) (k : A -> result E B) : result E B :=
  match r with Ok a => k a | Err e => Err e end.

Notation "'let*' x ':=' r 'in' k" := (bind_result r (fun x => k))
  (at level 10, x pattern, r at level 100, k at level 200) : hacc_scope.

(** An early [return] of an error (or a [throw]) taken when the guard [b] holds. *)
Notation "'raise' e 'when' b ';;' k" := (if b then Err e else k)
  (at level 10, e at level 99, b at level 99, k at level 200) : hacc_scope.

(** ** Arrays and sets *)

Definition includes {A} {dec : EqDecision A} (x : A) (l : list A) : bool := bool_decide (x ∈ l).

(** [[...new Set(l)]]: first occurrences, in order. *)
Fixpoint uniq_from {A} {dec : EqDecision A} (seen l : list A) : list A :=
  match l with
  | [] => []
  | x :: l => if includes x seen then uniq_from seen l else x :: uniq_from (x :: seen) l
  end.
Definition uniq {A} {dec : EqDecision A} (l : list A) : list A := uniq_from [] l.

(** The values the loops [for (const x of xs) { if (seen.has(x)) ...; seen.add(x) }]
    report: the elements already present earlier in the list, with their indices. *)
Fixpoint repeats_from {A} {dec : EqDecision A} (i : nat) (seen l : list A) : list (nat * A) :=
  match l with
  | [] => []
  | x :: l =>
      (if includes x seen then [(i, x)] else []) ++ repeats_from (S i) (x :: seen) l
  end.
Definition repeats {A} {dec : EqDecision A} (l : list A) : list (nat * A) := repeats_from 0 [] l.

Definition nodupb {A} {dec : EqDecision A} (l : list A) : bool := bool_decide (NoDup l).

(** ** Objects used as records: insertion-ordered association lists *)

Abbreviation obj V := (list (jstr * V)).

Fixpoint own {V} (k : jstr) (o : obj V) : option V :=
  match o with
  | [] => None
  | (k', v) :: o => if k =?s k' then Some v else own k o
  end.

Definition has_own {V} (k : jstr) (o : obj V) : bool :=
  match own k o with Some _ => true | None => false end.

(** [o[k] = v]: an existing property keeps its place, a new one goes last. *)
Fixpoint put {V} (k : jstr) (v : V) (o : obj V) : obj V :=
  match o with
  | [] => [(k, v)]
  | (k', v') :: o => if k =?s k' then (k', v) :: o else (k', v') :: put k v o
  end.

Definition keys {V} (o : obj V) : list jstr := o.*1.

(** [{ ...base, [k1]: v1, ... }] *)
Definition spread {V} (base over : obj V) : obj V :=
  fold_left (fun acc kv => put kv.1 kv.2 acc) over base.

(** ** [Array.prototype.sort]: a stable sort by a strict comparison *)

Section Sorting.
Context {A : Type} (ltb : A -> A -> bool).

Fixpoint insert_by (x : A) (l : list A) : list A :=
  match l with
  | [] => [x]
  | y :: l' => if ltb y x then y :: insert_by x l' else x :: l
  end.

Fixpoint sort_by (l : list A) : list A :=
  match l with
  | [] => []
  | x :: l => insert_by x (sort_by l)
  end.
End Sorting.

(** ** Automation *)

Create HintDb hacc.

(** Case analysis on the scrutinee of a [match] or [if] of a hypothesis, used to
    walk through the guards of an operation. *)
Ltac split_guards H :=
  repeat (cbn [bind_result] in H;
    match type of H with
    | Err _ = Ok _ => discriminate H
    | Ok _ = Err _ => discriminate H
    | context [if ?b then _ else _] => destruct b eqn:?
    | context [match ?x with _ => _ end] => destruct x eqn:?
    end); try discriminate H.

(** Boolean guards as propositions. *)
Ltac to_prop :=
  repeat match goal with
  | H : (_ && _) = true |- _ => apply andb_true_iff in H as [? ?]
  | H : (_ || _) = false |- _ => apply orb_false_iff in H as [? ?]
  | H : negb _ = true |- _ => apply negb_true_iff in H
  | H : negb _ = false |- _ => apply negb_false_iff in H
  | H : bool_decide _ = true |- _ => apply bool_decide_eq_true_1 in H
  | H : bool_decide _ = false |- _ => apply bool_decide_eq_false_1 in H
  | H : str_eqb _ _ = true |- _ => apply bool_decide_eq_true_1 in H
  | H : str_eqb _ _ = false |- _ => apply bool_decide_eq_false_1 in H
  | H : includes _ _ = true |- _ => apply bool_decide_eq_true_1 in H
  | H : includes _ _ = false |- _ => apply bool_decide_eq_false_1 in H
  | H : (_ <? _)%Z = true |- _ => apply Z.ltb_lt in H
  | H : (_ <? _)%Z = false |- _ => apply Z.ltb_ge in H
  | H : (_ <=? _)%Z = true |- _ => apply Z.leb_le in H
  | H : (_ <=? _)%Z = false |- _ => apply Z.leb_gt in H
  | H : (_ =? _)%Z = true |- _ => apply Z.eqb_eq in H
  | H : (_ =? _)%Z = false |- _ => apply Z.eqb_neq in H
  end.

(** ** Lemmas on strings, sets and objects *)

Lemma str_eqb_eq a b : (a =?s b) = true <-> a = b.
Proof. apply bool_decide_eq_true. Qed.

Lemma str_eqb_refl a : (a =?s a) = true.
Proof. by apply str_eqb_eq. Qed.

Lemma str_eqb_neq a b : (a =?s b) = false <-> a <> b.
Proof. apply bool_decide_eq_false. Qed.

Lemma forallb_elem {A} (p : A -> bool) l : forallb p l = true <-> forall x, x ∈ l -> p x = true.
Proof. rewrite forallb_forall. by setoid_rewrite list_elem_of_In. Qed.

Lemma existsb_elem {A} (p : A -> bool) l : existsb p l = true <-> exists x, x ∈ l /\ p x = true.
Proof. rewrite existsb_exists. by setoid_rewrite list_elem_of_In. Qed.

Lemma existsb_elem_false {A} (p : A -> bool) l :
  existsb p l = false <-> forall x, x ∈ l -> p x = false.
Proof.
  rewrite <- not_true_iff_false, existsb_elem. setoid_rewrite <- not_true_iff_false. naive_solver.
Qed.

Lemma elem_of_filter_list {A} (p : A -> bool) l x :
  x ∈ List.filter p l <-> x ∈ l /\ p x = true.
Proof. by rewrite !list_elem_of_In, filter_In. Qed.

Lemma find_snoc {A} (p : A -> bool) l x :
  List.find p l = None -> p x = true -> List.find p (l ++ [x]) = Some x.
Proof.
  induction l as [|y l IH]; simpl; intros Hl Hx; [by rewrite Hx|].
  destruct (p y); [done|]. by apply IH.
Qed.

Lemma filter_nil_iff {A} (p : A -> bool) l : List.filter p l = [] <-> forall x, x ∈ l -> p x = false.
Proof.
  induction l as [|y l IH]; simpl; [set_solver|]. setoid_rewrite elem_of_cons.
  destruct (p y) eqn:E; [|rewrite IH; naive_solver].
  split; [done|]. intros H. rewrite H in E by (by left). done.
Qed.

Lemma elem_of_flat_map {A B} (f : A -> list B) (l : list A) y :
  y ∈ flat_map f l <-> exists x, x ∈ l /\ y ∈ f x.
Proof. rewrite list_elem_of_In, in_flat_map. by setoid_rewrite list_elem_of_In. Qed.

Lemma find_elem {A} (p : A -> bool) l x : List.find p l = Some x -> x ∈ l /\ p x = true.
Proof. intros [Hin Hp]%List.find_some. split; [by apply list_elem_of_In | done]. Qed.

Lemma find_none_elem {A} (p : A -> bool) l : List.find p l = None <-> forall x, x ∈ l -> p x = false.
Proof.
  induction l as [|y l IH]; simpl; [set_solver|]. setoid_rewrite elem_of_cons.
  destruct (p y) eqn:E; [|rewrite IH; naive_solver].
  split; [done|]. intros H. rewrite H in E by (by left). done.
Qed.

Section Sets.
Context {A : Type} {Adec : EqDecision A}.
Implicit Types (x : A) (l seen : list A).

Lemma includes_iff x l : includes x l = true <-> x ∈ l.
Proof. apply bool_decide_eq_true. Qed.

Lemma includes_false x l : includes x l = false <-> x ∉ l.
Proof. apply bool_decide_eq_false. Qed.

Lemma elem_of_uniq_from x seen l : x ∈ uniq_from seen l <-> x ∈ l /\ x ∉ seen.
Proof.
  revert seen; induction l as [|y l IH]; intros seen; simpl; [set_solver|].
  destruct (includes y seen) eqn:E; to_prop.
  - rewrite IH. set_solver.
  - rewrite elem_of_cons, IH. destruct (decide (x = y)); set_solver.
Qed.

Lemma elem_of_uniq x l : x ∈ uniq l <-> x ∈ l.
Proof. unfold uniq. rewrite elem_of_uniq_from. set_solver. Qed.

Lemma NoDup_uniq_from seen l : NoDup (uniq_from seen l).
Proof.
  revert seen; induction l as [|y l IH]; intros seen; simpl; [constructor|].
  destruct (includes y seen); [done|].
  constructor; [rewrite elem_of_uniq_from; set_solver | done].
Qed.

Lemma NoDup_uniq l : NoDup (uniq l).
Proof. apply NoDup_uniq_from. Qed.

(** Nothing to report means that the list has no duplicates. *)
Lemma repeats_from_nil i seen l :
  repeats_from i seen l = [] <-> NoDup l /\ (forall x, x ∈ l -> x ∉ seen).
Proof.
  revert i seen; induction l as [|y l IH]; intros i seen; simpl.
  { split; [intros _; split; [constructor | set_solver] | done]. }
  rewrite app_nil, IH, NoDup_cons. destruct (includes y seen) eqn:E; to_prop.
  - split; [intros [? _]; discriminate|]. intros [_ Hs]. exfalso.
    apply (Hs y); [left | done].
  - split; [intros (_ & Hnd & Hs); split_and!; set_solver | intros [[Hy Hnd] Hs]].
    split_and!; [done..|]. intros x Hx. specialize (Hs x). set_solver.
Qed.

Lemma repeats_nil l : repeats l = [] <-> NoDup l.
Proof. unfold repeats. rewrite repeats_from_nil. set_solver. Qed.
End Sets.

Section Objects.
Context {V : Type}.
Implicit Types (k : jstr) (v : V) (o : obj V).

Lemma own_put_eq k v o : own k (put k v o) = Some v.
Proof.
  induction o as [|[k' v'] o IH]; simpl; [by rewrite str_eqb_refl|].
  destruct (k =?s k') eqn:E; simpl; by rewrite E.
Qed.

Lemma own_put_ne k k' v o : k <> k' -> own k' (put k v o) = own k' o.
Proof.
  intros Hne. induction o as [|[k2 v2] o IH]; simpl.
  - by rewrite (proj2 (str_eqb_neq k' k)).
  - destruct (k =?s k2) eqn:E; simpl; [|by rewrite IH].
    apply str_eqb_eq in E as <-. by rewrite (proj2 (str_eqb_neq k' k)).
Qed.

Lemma own_put k k' v o :
  own k' (put k v o) = if k' =?s k then Some v else own k' o.
Proof.
  destruct (k' =?s k) eqn:E; to_prop; [subst; apply own_put_eq | by apply own_put_ne].
Qed.

Lemma own_is_Some k o : is_Some (own k o) <-> k ∈ keys o.
Proof.
  induction o as [|[k' v'] o IH]; simpl.
  - split; [by intros [? ?] | by intros ?%elem_of_nil].
  - rewrite elem_of_cons, <- IH.
    destruct (k =?s k') eqn:E; to_prop; naive_solver eauto.
Qed.

Lemma has_own_iff k o : has_own k o = true <-> k ∈ keys o.
Proof.
  rewrite <- own_is_Some. unfold has_own.
  destruct (own k o); [by split; eauto|]. split; [done | by intros [? ?]].
Qed.

Lemma has_own_false k o : has_own k o = false <-> k ∉ keys o.
Proof. rewrite <- has_own_iff. destruct (has_own k o); naive_solver. Qed.

Lemma own_elem_of k v o : own k o = Some v -> (k, v) ∈ o.
Proof.
  induction o as [|[k' v'] o IH]; simpl; [done|].
  destruct (k =?s k') eqn:E; to_prop; intros; simplify_eq; set_solver.
Qed.

Lemma elem_of_own k v o : NoDup (keys o) -> (k, v) ∈ o -> own k o = Some v.
Proof.
  induction o as [|[k' v'] o IH]; simpl; [set_solver|].
  rewrite NoDup_cons, elem_of_cons. intros [Hk Hnd] [Heq | Hin]; simplify_eq.
  - by rewrite str_eqb_refl.
  - destruct (k =?s k') eqn:E; to_prop; [|by apply IH]. subst.
    exfalso. apply Hk. apply list_elem_of_fmap. by exists (k', v).
Qed.

Lemma keys_put k v o :
  keys (put k v o) = if has_own k o then keys o else keys o ++ [k].
Proof.
  induction o as [|[k' v'] o IH]; simpl; [done|]. unfold has_own in *. simpl.
  destruct (k =?s k') eqn:E; simpl; [done|]. rewrite IH. by destruct (own k o).
Qed.

Lemma elem_of_keys_put k k' v o : k' ∈ keys (put k v o) <-> k' = k \/ k' ∈ keys o.
Proof.
  rewrite keys_put. destruct (has_own k o) eqn:E; [|set_solver].
  apply has_own_iff in E. split; [by right|]. by intros [->|].
Qed.

Lemma NoDup_keys_put k v o : NoDup (keys o) -> NoDup (keys (put k v o)).
Proof.
  intros Hnd. rewrite keys_put. destruct (has_own k o) eqn:E; [done|].
  apply has_own_false in E. apply NoDup_app. split_and!; [done | set_solver | apply NoDup_singleton].
Qed.

Lemma elem_of_put k v o kv : kv ∈ put k v o -> kv = (k, v) \/ kv ∈ o.
Proof.
  induction o as [|[k' v'] o IH]; simpl; [set_solver|].
  destruct (k =?s k') eqn:E; to_prop; subst; rewrite !elem_of_cons; naive_solver.
Qed.
End Objects.

Section SortLemmas.
Context {A : Type} (ltb : A -> A -> bool).
Implicit Types (x : A) (l : list A).

Lemma insert_by_perm x l : insert_by ltb x l ≡ₚ x :: l.
Proof.
  induction l as [|y l IH]; simpl; [done|]. destruct (ltb y x); [|done].
  rewrite IH. apply Permutation_swap.
Qed.

Lemma sort_by_perm l : sort_by ltb l ≡ₚ l.
Proof. induction l as [|x l IH]; simpl; [done|]. by rewrite insert_by_perm, IH. Qed.

Lemma elem_of_sort_by x l : x ∈ sort_by ltb l <-> x ∈ l.
Proof. by rewrite sort_by_perm. Qed.

(** Sorting commutes with maps that preserve the comparison. *)
Lemma sort_by_fmap {B} (ltb' : B -> B -> bool) (f : A -> B) l :
  (forall x y, ltb' (f x) (f y) = ltb x y) ->
  sort_by ltb' (f <$> l) = f <$> sort_by ltb l.
Proof.
  intros Hf.
  assert (forall x l, insert_by ltb' (f x) (f <$> l) = f <$> insert_by ltb x l) as Hi.
  { intros x l'. induction l' as [|y l' IH]; csimpl; [done|].
    rewrite Hf. destruct (ltb y x); csimpl; [by rewrite IH|done]. }
  induction l as [|x l IH]; csimpl; [done|]. by rewrite IH, Hi.
Qed.

Hypothesis ltb_trans : forall x y z, ltb x y = true -> ltb y z = true -> ltb x z = true.
Hypothesis ltb_irrefl : forall x, ltb x x = false.
Hypothesis ltb_total : forall x y, ltb x y = false -> ltb y x = false -> x = y.

Abbreviation strictly_sorted := (StronglySorted (fun x y => ltb x y = true)).

Lemma insert_by_sorted x l :
  x ∉ l -> strictly_sorted l -> strictly_sorted (insert_by ltb x l).
Proof.
  induction l as [|y l IH]; simpl; intros Hx Hs; [repeat constructor|].
  rewrite not_elem_of_cons in Hx. destruct Hx as [Hxy Hx].
  apply StronglySorted_inv in Hs as [Hs Hy]. destruct (ltb y x) eqn:E.
  - constructor; [by apply IH|]. rewrite insert_by_perm. by constructor.
  - assert (ltb x y = true) as Hlt.
    { destruct (ltb x y) eqn:E'; [done|]. exfalso. by apply Hxy, ltb_total. }
    constructor; [by constructor|]. constructor; [done|].
    eapply Forall_impl; [exact Hy|]. eauto.
Qed.

Lemma sort_by_sorted l : NoDup l -> strictly_sorted (sort_by ltb l).
Proof.
  induction 1 as [|x l Hx _ IH]; simpl; [constructor|].
  apply insert_by_sorted; [by rewrite elem_of_sort_by | done].
Qed.

Lemma strictly_sorted_unique l1 l2 :
  strictly_sorted l1 -> strictly_sorted l2 -> (forall x, x ∈ l1 <-> x ∈ l2) -> l1 = l2.
Proof.
  intros H1. revert l2. induction H1 as [|x l1 Hs IH Hx]; intros l2 H2 Heq.
  - destruct l2 as [|y l2]; [done|]. exfalso. specialize (Heq y). set_solver.
  - destruct H2 as [|y l2 Hs2 Hy]; [exfalso; specialize (Heq x); set_solver|].
    rewrite Forall_forall in Hx, Hy.
    assert (x = y) as <-.
    { pose proof (proj1 (Heq x) ltac:(left)) as E. apply elem_of_cons in E as [E|E]; [done|].
      pose proof (proj2 (Heq y) ltac:(left)) as E'. apply elem_of_cons in E' as [E'|E']; [done|].
      exfalso. specialize (Hx _ E'). specialize (Hy _ E).
      pose proof (ltb_trans _ _ _ Hx Hy). by rewrite ltb_irrefl in *. }
    assert (x ∉ l1) by (intros H; specialize (Hx _ H); by rewrite ltb_irrefl in *).
    assert (x ∉ l2) by (intros H'; specialize (Hy _ H'); by rewrite ltb_irrefl in *).
    f_equal. apply IH; [done|]. intros z. specialize (Heq z). rewrite !elem_of_cons in Heq.
    split; intros Hz; [destruct (proj1 Heq (or_intror Hz)) | destruct (proj2 Heq (or_intror Hz))];
      by subst || done.
Qed.
End SortLemmas.

Lemma NoDup_snoc {A} (l : list A) x : NoDup l -> x ∉ l -> NoDup (l ++ [x]).
Proof. intros. apply NoDup_app. split_and!; [done | set_solver | apply NoDup_singleton]. Qed.

Lemma truthy_Some o s : truthy o = Some s <-> o = Some s /\ s <> [].
Proof. destruct o as [[|]|]; simpl; naive_solver. Qed.

(** Dropping the entries of a subtree from the outputs keeps the other entries. *)
Lemma own_filter_keys {V} (p : jstr -> bool) k (o : obj V) :
  own k (List.filter (fun kv => p kv.1) o) = if p k then own k o else None.
Proof.
  induction o as [|[k' v] o IH]; simpl; [by destruct (p k)|].
  destruct (p k') eqn:Ep; simpl; destruct (k =?s k') eqn:E; to_prop; subst; rewrite ?Ep in *; try done.
Qed.

Lemma NoDup_filter_list {A} (p : A -> bool) (l : list A) : NoDup l -> NoDup (List.filter p l).
Proof.
  induction 1 as [|x l Hx _ IH]; simpl; [constructor|]. destruct (p x); [|done].
  constructor; [|done]. rewrite elem_of_filter_list. tauto.
Qed.

Lemma forallb_filter {A} (p q : A -> bool) l : forallb q l = true -> forallb q (List.filter p l) = true.
Proof. rewrite !forallb_elem. intros H x [Hx _]%elem_of_filter_list. auto. Qed.

#[export] Hint Resolve NoDup_keys_put NoDup_uniq : hacc.
