(* ===== verification/JsValue.v ===== *)
(** * JavaScript values

    The part of the language the components rely on: numbers with
    [Number::toString], strings with [JSON.stringify] quoting and UTF-8 length,
    and the values of type [unknown] that flow through the runtime.

    A finite number is represented by the decimal [(-1)^neg * s * 10^e] that
    [Number::toString] selects for it (the shortest decimal that reads back as
    the number), so two finite numbers are equal exactly when their
    representations are, the two zeroes apart. *)

From S2P Require Import Prelude.

Local Open Scope N_scope.

(** ** Decimal digits *)

Definition ch_0 : N := 48.
Definition ch_dot : N := 46.
Definition ch_minus : N := 45.
Definition ch_plus : N := 43.
Definition ch_e : N := 101.
Definition ch_quote : N := 34.
Definition ch_backslash : N := 92.

Fixpoint digits_go (fuel : nat) (n : N) : jstr :=
  match fuel with
  | O => []
  | S fuel => if n <? 10 then [ch_0 + n] else digits_go fuel (n / 10) ++ [ch_0 + n mod 10]
  end.
Definition digits (n : N) : jstr := digits_go (S (N.to_nat (N.log2 n))) n.

Definition undigits (l : jstr) : N := fold_left (fun a d => 10 * a + (d - ch_0)) l 0.

Definition is_digit (c : N) : bool := (48 <=? c) && (c <=? 57).

(** ** Numbers *)

Inductive jsnum : Type :=
| NaN
| Infinity (neg : bool)
| Finite (neg : bool) (s : N) (e : Z).

#[export] Instance jsnum_eq_dec : EqDecision jsnum.
Proof. solve_decision. Defined.

(** The representation is in normal form: no trailing zero in [s], one zero. *)
Definition num_ok (n : jsnum) : bool :=
  match n with
  | Finite _ s e => if s =? 0 then bool_decide (e = 0%Z) else negb (s mod 10 =? 0)
  | _ => true
  end.

Definition is_finite (n : jsnum) : bool :=
  match n with Finite _ _ _ => true | _ => false end.

(** [Object.is(value, -0)] *)
Definition is_neg_zero (n : jsnum) : bool :=
  match n with Finite true 0 _ => true | _ => false end.

(** Number::toString on a positive number of [k] digits, [n = e + k]. *)
Definition pos_to_string (s : N) (e : Z) : jstr :=
  let ds := digits s in
  let k := Z.of_nat (length ds) in
  let n := (e + k)%Z in
  if ((k <=? n) && (n <=? 21))%Z then ds ++ replicate (Z.to_nat (n - k)) ch_0
  else if ((0 <? n) && (n <=? 21))%Z then
    take (Z.to_nat n) ds ++ [ch_dot] ++ drop (Z.to_nat n) ds
  else if ((-6 <? n) && (n <=? 0))%Z then
    [ch_0; ch_dot] ++ replicate (Z.to_nat (- n)) ch_0 ++ ds
  else
    take 1 ds ++ (if (k =? 1)%Z then [] else [ch_dot] ++ drop 1 ds) ++
    [ch_e; if (0 <=? n - 1)%Z then ch_plus else ch_minus] ++ digits (Z.abs_N (n - 1)).

Definition num_to_string (n : jsnum) : jstr :=
  match n with
  | NaN => js "NaN"
  | Infinity neg => (if neg then [ch_minus] else []) ++ js "Infinity"
  | Finite neg s e =>
      if s =? 0 then [ch_0]
      else (if neg then [ch_minus] else []) ++ pos_to_string s e
  end.

(** Integers (revisions, epochs, counts, byte lengths) as numbers. *)
Fixpoint strip_zeros (fuel : nat) (s : N) (e : Z) : N * Z :=
  match fuel with
  | O => (s, e)
  | S fuel => if s mod 10 =? 0 then strip_zeros fuel (s / 10) (e + 1) else (s, e)
  end.
Definition num_of_Z (z : Z) : jsnum :=
  let s := Z.abs_N z in
  if s =? 0 then Finite false 0 0
  else let '(s', e) := strip_zeros (N.to_nat (N.log2 s)) s 0 in Finite (z <? 0)%Z s' e.

(** [<] on numbers, by cross-scaling the decimals; false when either is NaN. *)
Definition num_scaled (neg : bool) (s : N) (e m : Z) : Z :=
  ((if neg then -1 else 1) * Z.of_N s * 10 ^ (e - m))%Z.
Definition num_ltb (a b : jsnum) : bool :=
  match a, b with
  | NaN, _ | _, NaN => false
  | Infinity n, Infinity n' => n && negb n'
  | Infinity n, Finite _ _ _ => n
  | Finite _ _ _, Infinity n => negb n
  | Finite n s e, Finite n' s' e' =>
      let m := Z.min e e' in (num_scaled n s e m <? num_scaled n' s' e' m)%Z
  end.
Definition num_eqb (a b : jsnum) : bool :=
  match a, b with
  | Finite n s e, Finite n' s' e' =>
      let m := Z.min e e' in (num_scaled n s e m =? num_scaled n' s' e' m)%Z
  | Infinity n, Infinity n' => eqb n n'
  | _, _ => false
  end.

(** ** Strings *)

Definition is_lead (c : N) : bool := (0xD800 <=? c) && (c <=? 0xDBFF).
Definition is_trail (c : N) : bool := (0xDC00 <=? c) && (c <=? 0xDFFF).

Definition hex_digit (n : N) : N := if n <? 10 then ch_0 + n else 87 + n.
Definition hex4 (c : N) : jstr :=
  [hex_digit (c / 4096); hex_digit (c / 256 mod 16); hex_digit (c / 16 mod 16); hex_digit (c mod 16)].
Definition unicode_escape (c : N) : jstr := [ch_backslash; 117] ++ hex4 c.

(** The escapes of JSON.stringify for a code unit that is not a surrogate. *)
Definition escape_unit (c : N) : jstr :=
  if c =? 8 then [ch_backslash; 98]
  else if c =? 9 then [ch_backslash; 116]
  else if c =? 10 then [ch_backslash; 110]
  else if c =? 12 then [ch_backslash; 102]
  else if c =? 13 then [ch_backslash; 114]
  else if c =? ch_quote then [ch_backslash; ch_quote]
  else if c =? ch_backslash then [ch_backslash; ch_backslash]
  else if c <? 32 then unicode_escape c
  else [c].

Fixpoint quote_body (s : jstr) : jstr :=
  match s with
  | [] => []
  | c :: s' =>
      if is_lead c then
        match s' with
        | d :: s'' =>
            if is_trail d then c :: d :: quote_body s'' else unicode_escape c ++ quote_body s'
        | [] => unicode_escape c
        end
      else if is_trail c then unicode_escape c ++ quote_body s'
      else escape_unit c ++ quote_body s'
  end.

(** [JSON.stringify(s)] on a string. *)
Definition json_quote (s : jstr) : jstr := [ch_quote] ++ quote_body s ++ [ch_quote].

(** [Buffer.byteLength(s, "utf8")]: a lone surrogate is encoded as U+FFFD. *)
Fixpoint utf8_length (s : jstr) : Z :=
  match s with
  | [] => 0
  | c :: s' =>
      if is_lead c then
        match s' with
        | d :: s'' => if is_trail d then (4 + utf8_length s'')%Z else (3 + utf8_length s')%Z
        | [] => 3
        end
      else ((if (c <? 128)%N then 1 else if (c <? 2048)%N then 2 else 3) + utf8_length s')%Z
  end.

(** [l < r] on strings: lexicographic on code units. *)
Fixpoint str_ltb (a b : jstr) : bool :=
  match a, b with
  | _, [] => false
  | [], _ :: _ => true
  | x :: a, y :: b => if x =? y then str_ltb a b else x <? y
  end.
Definition str_le (a b : jstr) : Prop := str_ltb b a = false.
#[export] Instance str_le_dec : RelDecision str_le.
Proof. intros a b. unfold str_le. apply _. Defined.

(** ** Values of type [unknown]

    [JOther] stands for everything that is neither JSON nor [undefined]: functions,
    symbols, bigints, class instances and cyclic objects. *)

Inductive other : Type := OFunction | OSymbol | OBigint | OObject.

#[export] Instance other_eq_dec : EqDecision other.
Proof. solve_decision. Defined.

Inductive jsval : Type :=
| JUndefined
| JNull
| JBool (b : bool)
| JNum (n : jsnum)
| JStr (s : jstr)
| JArr (vs : list jsval)
| JObj (kvs : obj jsval)
| JOther (o : other).

Section JsvalInd.
Variable P : jsval -> Prop.
Hypothesis Hundef : P JUndefined.
Hypothesis Hnull : P JNull.
Hypothesis Hbool : forall b, P (JBool b).
Hypothesis Hnum : forall n, P (JNum n).
Hypothesis Hstr : forall s, P (JStr s).
Hypothesis Harr : forall vs, Forall P vs -> P (JArr vs).
Hypothesis Hobj : forall kvs, Forall (fun kv => P kv.2) kvs -> P (JObj kvs).
Hypothesis Hother : forall o, P (JOther o).

(** Induction that reaches the elements of arrays and the property values of objects. *)
Fixpoint jsval_ind' (v : jsval) : P v :=
  match v with
  | JUndefined => Hundef
  | JNull => Hnull
  | JBool b => Hbool b
  | JNum n => Hnum n
  | JStr s => Hstr s
  | JArr vs => Harr vs ((fix go l : Forall P l :=
      match l with
      | [] => Forall_nil_2 P
      | v :: l => Forall_cons_2 P v l (jsval_ind' v) (go l)
      end) vs)
  | JObj kvs => Hobj kvs ((fix go (l : obj jsval) : Forall (fun kv => P kv.2) l :=
      match l with
      | [] => Forall_nil_2 _
      | kv :: l => Forall_cons_2 (fun kv => P kv.2) kv l (jsval_ind' kv.2) (go l)
      end) kvs)
  | JOther o => Hother o
  end.
End JsvalInd.

(** Canonical array indices: ["0"], ["1"], ... are own properties, ["01"] is not. *)
Definition array_index (seg : jstr) : option nat :=
  if forallb is_digit seg && (seg =?s digits (undigits seg)) then Some (N.to_nat (undigits seg))
  else None.

(** [Object.prototype.hasOwnProperty.call(v, k)] and [v[k]] on an object or array. *)
Definition own_property (v : jsval) (k : jstr) : option jsval :=
  match v with
  | JObj kvs => own k kvs
  | JArr vs =>
      if k =?s js "length" then Some (JNum (num_of_Z (Z.of_nat (length vs))))
      else match array_index k with Some i => vs !! i | None => None end
  | _ => None
  end.

(** The properties every plain object inherits: [o[k]] finds them even when [k]
    is not an own property of [o]. *)
Definition object_prototype_keys : list jstr :=
  js <$> ["constructor"; "__defineGetter__"; "__defineSetter__"; "hasOwnProperty";
          "__lookupGetter__"; "__lookupSetter__"; "isPrototypeOf"; "propertyIsEnumerable";
          "toString"; "valueOf"; "__proto__"; "toLocaleString"]%string.

Inductive property (V : Type) : Type :=
| Own (v : V)
| Inherited
| Absent.
Arguments Own {V} _.
Arguments Inherited {V}.
Arguments Absent {V}.

(** [o[k]] on a record object. *)
Definition get_property {V} (o : obj V) (k : jstr) : property V :=
  match own k o with
  | Some v => Own v
  | None => if includes k object_prototype_keys then Inherited else Absent
  end.

(** ** [String.prototype.trim] *)

(** White space and line terminators. *)
Definition is_space (c : N) : bool :=
  includes c [9; 10; 11; 12; 13; 32; 160; 5760; 8232; 8233; 8239; 8287; 12288; 65279]%N ||
  ((8192 <=? c)%N && (c <=? 8202)%N).

Fixpoint trim_start (s : jstr) : jstr :=
  match s with
  | c :: r => if is_space c then trim_start r else s
  | [] => []
  end.
Definition trim (s : jstr) : jstr := reverse (trim_start (reverse (trim_start s))).
