(* ===== verification/JsText.v ===== *)
(** * Reading back what JSON.stringify writes

    Every finite number and every string is determined by its rendering: a
    decoder for each form, shown to invert the renderer. *)

From S2P Require Import Prelude JsValue.

Local Open Scope N_scope.

(** ** Digits *)

Lemma log2_div10 n : 10 <= n -> N.log2 (n / 10) < N.log2 n.
Proof.
  intros H. assert (n / 10 <= n / 2) as Hle by (apply N.div_le_compat_l; lia).
  apply N.log2_le_mono in Hle. rewrite <- N.div2_div, N.div2_spec, N.log2_shiftr in Hle.
  assert (1 <= N.log2 n) by (apply N.log2_le_pow2; lia). lia.
Qed.

Lemma digits_go_fuel fuel fuel' n :
  (N.to_nat (N.log2 n) < fuel)%nat -> (N.to_nat (N.log2 n) < fuel')%nat ->
  digits_go fuel n = digits_go fuel' n.
Proof.
  revert fuel' n; induction fuel as [|fuel IH]; intros [|fuel'] n H H'; try lia. simpl.
  destruct (n <? 10) eqn:E; [done|]. apply N.ltb_ge in E.
  pose proof (log2_div10 n E). f_equal. apply IH; lia.
Qed.

Lemma digits_eq n :
  digits n = if n <? 10 then [ch_0 + n] else digits (n / 10) ++ [ch_0 + n mod 10].
Proof.
  unfold digits at 1. simpl. destruct (n <? 10) eqn:E; [done|].
  apply N.ltb_ge in E. pose proof (log2_div10 n E). f_equal.
  apply digits_go_fuel; lia.
Qed.

Lemma digits_ind (P : N -> Prop) :
  (forall n, n < 10 -> P n) -> (forall n, 10 <= n -> P (n / 10) -> P n) -> forall n, P n.
Proof.
  intros H1 H2 n. induction n as [n IH] using (well_founded_induction N.lt_wf_0).
  destruct (N.lt_ge_cases n 10) as [?|?]; [by apply H1|].
  apply H2; [done|]. apply IH. apply N.div_lt; lia.
Qed.

Lemma undigits_snoc l d : undigits (l ++ [d]) = 10 * undigits l + (d - ch_0).
Proof. unfold undigits. by rewrite fold_left_app. Qed.

Lemma undigits_digits n : undigits (digits n) = n.
Proof.
  induction n as [n H | n H IH] using digits_ind; rewrite digits_eq.
  - rewrite (proj2 (N.ltb_lt n 10)) by done. unfold undigits, ch_0. simpl. lia.
  - rewrite (proj2 (N.ltb_ge n 10)) by done. rewrite undigits_snoc, IH.
    replace (ch_0 + n mod 10 - ch_0) with (n mod 10)
      by (generalize (n mod 10); clear; intros; unfold ch_0; lia).
    symmetry. by apply N.div_mod.
Qed.

Lemma digits_inj n m : digits n = digits m -> n = m.
Proof. intros H. by rewrite <- (undigits_digits n), H, undigits_digits. Qed.

Lemma digits_are_digits n : Forall (fun c => is_digit c = true) (digits n).
Proof.
  assert (forall k, k < 10 -> is_digit (ch_0 + k) = true) as Hd.
  { intros k Hk. unfold is_digit, ch_0. apply andb_true_iff.
    split; apply N.leb_le; lia. }
  induction n as [n H | n H IH] using digits_ind; rewrite digits_eq.
  - rewrite (proj2 (N.ltb_lt n 10)) by done. auto.
  - rewrite (proj2 (N.ltb_ge n 10)) by done. apply Forall_app; split; [done|].
    constructor; [|constructor]. apply Hd, N.mod_lt. done.
Qed.

Lemma digits_nonempty n : digits n <> [].
Proof. rewrite digits_eq. destruct (n <? 10); [done|]. by destruct (digits (n / 10)). Qed.

Lemma digits_head n : n <> 0 -> exists c l, digits n = c :: l /\ c <> ch_0.
Proof.
  induction n as [n H | n H IH] using digits_ind; intros Hn; rewrite digits_eq.
  - rewrite (proj2 (N.ltb_lt n 10)) by done. exists (ch_0 + n), []. split; [done|].
    unfold ch_0; lia.
  - rewrite (proj2 (N.ltb_ge n 10)) by done.
    destruct IH as (c & l & -> & Hc).
    { assert (1 <= n / 10) by (apply N.div_le_lower_bound; lia). lia. }
    exists c, (l ++ [ch_0 + n mod 10]). done.
Qed.

Lemma digits_last n : n mod 10 <> 0 -> exists l c, digits n = l ++ [c] /\ c <> ch_0.
Proof.
  intros Hn. rewrite digits_eq. destruct (n <? 10) eqn:E.
  - apply N.ltb_lt in E. exists [], (ch_0 + n). split; [done|].
    rewrite N.mod_small in Hn by done. unfold ch_0; lia.
  - exists (digits (n / 10)), (ch_0 + n mod 10). split; [done|]. unfold ch_0. lia.
Qed.

(** ** Splitting at a separator *)

Fixpoint split_at (c : N) (l : jstr) : jstr * option jstr :=
  match l with
  | [] => ([], None)
  | x :: l => if x =? c then ([], Some l) else let '(a, b) := split_at c l in (x :: a, b)
  end.

Lemma split_at_found c a b : c ∉ a -> split_at c (a ++ c :: b) = (a, Some b).
Proof.
  induction a as [|x a IH]; simpl; intros H; [by rewrite N.eqb_refl|].
  rewrite not_elem_of_cons in H. destruct H as [Hx Ha].
  rewrite (proj2 (N.eqb_neq x c)) by done. by rewrite IH.
Qed.

Lemma split_at_none c a : c ∉ a -> split_at c a = (a, None).
Proof.
  induction a as [|x a IH]; simpl; intros H; [done|].
  rewrite not_elem_of_cons in H. destruct H as [Hx Ha].
  rewrite (proj2 (N.eqb_neq x c)) by done. by rewrite IH.
Qed.

Abbreviation all_digits := (Forall (fun c => is_digit c = true)).

Lemma all_digits_not_elem c l : is_digit c = false -> all_digits l -> c ∉ l.
Proof. intros Hc Hl Hin. rewrite Forall_forall in Hl. apply Hl in Hin. congruence. Qed.

Lemma all_digits_zeros m : all_digits (replicate m ch_0).
Proof. by apply Forall_replicate. Qed.

#[export] Hint Resolve digits_are_digits all_digits_zeros Forall_take Forall_drop : hacc.
#[export] Hint Resolve Forall_app_2 Forall_cons_2 Forall_nil_2 : hacc.

(** ** Numbers: the decoder *)

Fixpoint strip_lead (l : jstr) : jstr :=
  match l with
  | c :: l' => if c =? ch_0 then strip_lead l' else l
  | [] => []
  end.

Definition strip_trail (l : jstr) : jstr := reverse (strip_lead (reverse l)).

Definition decode_exponent (x : option jstr) : Z :=
  match x with
  | Some (c :: ds) => if (c =? ch_minus)%N then - Z.of_N (undigits ds) else Z.of_N (undigits ds)
  | _ => 0
  end%Z.

(** Significant digits and decimal exponent of [i.fr] scaled by [10^ex]. *)
Definition decode_mantissa (i fr : jstr) (ex : Z) : jstr * Z :=
  let all := strip_lead (i ++ fr) in
  let sig := strip_trail all in
  (sig, ex - Z.of_nat (length fr) + Z.of_nat (length all - length sig))%Z.

Definition decode_pos (t : jstr) : jstr * Z :=
  let '(m, x) := split_at ch_e t in
  let '(i, f) := split_at ch_dot m in
  decode_mantissa i (default [] f) (decode_exponent x).

(** The four shapes of a rendered number: integer, fraction, and both with an
    exponent. *)
Lemma decode_pos_int i : all_digits i -> decode_pos i = decode_mantissa i [] 0.
Proof.
  intros Hi. unfold decode_pos.
  rewrite !split_at_none by (by apply all_digits_not_elem). done.
Qed.

Lemma decode_pos_frac i fr :
  all_digits i -> all_digits fr -> decode_pos (i ++ ch_dot :: fr) = decode_mantissa i fr 0.
Proof.
  intros Hi Hf. unfold decode_pos. rewrite split_at_none.
  - rewrite split_at_found by (by apply all_digits_not_elem). done.
  - rewrite elem_of_app, elem_of_cons. intros [H|[H|H]]; [|done|];
      by eapply all_digits_not_elem in H.
Qed.

Lemma decode_pos_exp i sg ds :
  all_digits i ->
  decode_pos (i ++ ch_e :: sg :: ds) = decode_mantissa i [] (decode_exponent (Some (sg :: ds))).
Proof.
  intros Hi. unfold decode_pos. rewrite split_at_found by (by apply all_digits_not_elem).
  by rewrite split_at_none by (by apply all_digits_not_elem).
Qed.

Lemma decode_pos_frac_exp i fr sg ds :
  all_digits i -> all_digits fr ->
  decode_pos (i ++ ch_dot :: fr ++ ch_e :: sg :: ds) =
  decode_mantissa i fr (decode_exponent (Some (sg :: ds))).
Proof.
  intros Hi Hf. unfold decode_pos.
  change (i ++ ch_dot :: fr ++ ch_e :: sg :: ds) with (i ++ (ch_dot :: fr) ++ ch_e :: sg :: ds).
  rewrite app_assoc, split_at_found.
  - by rewrite split_at_found by (by apply all_digits_not_elem).
  - rewrite elem_of_app, elem_of_cons. intros [H|[H|H]]; [|done|];
      by eapply all_digits_not_elem in H.
Qed.

Lemma strip_lead_zeros m l : strip_lead (replicate m ch_0 ++ l) = strip_lead l.
Proof. induction m as [|m IH]; simpl; [done|]. by rewrite IH. Qed.

Lemma strip_lead_id c l : c <> ch_0 -> strip_lead (c :: l) = c :: l.
Proof. intros H. simpl. by rewrite (proj2 (N.eqb_neq c ch_0)). Qed.

Lemma strip_trail_zeros l c m :
  c <> ch_0 -> strip_trail ((l ++ [c]) ++ replicate m ch_0) = l ++ [c].
Proof.
  intros H. unfold strip_trail.
  rewrite reverse_app, reverse_replicate, strip_lead_zeros, reverse_snoc.
  rewrite strip_lead_id by done. by rewrite reverse_cons, reverse_involutive.
Qed.

Lemma decode_exponent_digits x :
  decode_exponent (Some ((if (0 <=? x)%Z then ch_plus else ch_minus) :: digits (Z.abs_N x))) = x.
Proof.
  unfold decode_exponent. rewrite undigits_digits.
  destruct (0 <=? x)%Z eqn:E; to_prop; simpl; lia.
Qed.

Section DecodePos.
Variables (s : N) (e : Z).
Hypothesis Hs : s <> 0.
Hypothesis Hnorm : s mod 10 <> 0.

Lemma strip_digits_lead l : strip_lead (digits s ++ l) = digits s ++ l.
Proof. destruct (digits_head s Hs) as (c & l' & -> & Hc). by apply strip_lead_id. Qed.

Lemma strip_digits m : strip_trail (digits s ++ replicate m ch_0) = digits s.
Proof. destruct (digits_last s Hnorm) as (l & c & -> & Hc). by apply strip_trail_zeros. Qed.

Lemma strip_digits0 : strip_trail (digits s) = digits s.
Proof. pose proof (strip_digits 0) as H. by rewrite app_nil_r in H. Qed.

(** Leading zeros, the digits of [s], then [z] trailing zeros. *)
Lemma decode_mantissa_digits i fr m z ex :
  i ++ fr = replicate m ch_0 ++ digits s ++ replicate z ch_0 ->
  decode_mantissa i fr ex = (digits s, ex - Z.of_nat (length fr) + Z.of_nat z)%Z.
Proof.
  intros H. unfold decode_mantissa.
  rewrite H, strip_lead_zeros, strip_digits_lead, strip_digits, length_app, length_replicate.
  f_equal. lia.
Qed.

Lemma decode_pos_to_string : decode_pos (pos_to_string s e) = (digits s, e).
Proof.
  unfold pos_to_string. pose proof (digits_are_digits s) as Hd.
  pose proof (decode_mantissa_digits) as Hm.
  destruct (digits_head s Hs) as (c & l & Hcl & _).
  destruct ((_ <=? _) && (_ <=? 21))%Z eqn:E1; [|destruct ((0 <? _) && _)%Z eqn:E2;
    [|destruct ((-6 <? _) && _)%Z eqn:E3]]; to_prop.
  - rewrite decode_pos_int by auto with hacc.
    erewrite (Hm _ _ 0%nat) by apply app_nil_r. simpl. f_equal. lia.
  - cbn [app]. rewrite decode_pos_frac by auto with hacc.
    rewrite (Hm _ _ 0%nat 0%nat) by (simpl; by rewrite take_drop, app_nil_r).
    rewrite length_drop. f_equal. lia.
  - change ([ch_0; ch_dot] ++ ?l) with ([ch_0] ++ ch_dot :: l).
    rewrite decode_pos_frac by auto with hacc.
    rewrite (Hm _ _ (S (Z.to_nat (- (e + Z.of_nat (length (digits s)))))) 0%nat)
      by (simpl; by rewrite app_nil_r).
    rewrite length_app, length_replicate. f_equal. lia.
  - rewrite Hcl in *. apply Forall_cons in Hd as [Hc Hl].
    change (take 1 (c :: l)) with [c]. change (drop 1 (c :: l)) with l. cbn [length].
    destruct (_ =? 1)%Z eqn:E4; to_prop.
    + assert (l = []) as -> by (destruct l; simpl in *; [done | lia]).
      change ([c] ++ [] ++ [?a; ?b] ++ ?l) with ([c] ++ a :: b :: l).
      rewrite decode_pos_exp by auto with hacc. rewrite decode_exponent_digits.
      rewrite (Hm _ _ 0%nat 0%nat) by (simpl; by rewrite ?app_nil_r). simpl. f_equal. lia.
    + change ([c] ++ ([ch_dot] ++ l) ++ [?a; ?b] ++ ?r) with ([c] ++ ch_dot :: l ++ a :: b :: r).
      rewrite decode_pos_frac_exp by auto with hacc. rewrite decode_exponent_digits.
      rewrite (Hm _ _ 0%nat 0%nat) by (simpl; by rewrite ?app_nil_r). simpl. f_equal. lia.
Qed.
End DecodePos.

(** ** Numbers: a rendering determines its number *)

Definition is_num_char (c : N) : bool :=
  is_digit c || (c =? ch_minus) || (c =? ch_plus) || (c =? ch_dot) || (c =? ch_e).

Abbreviation num_chars := (Forall (fun c => is_num_char c = true)).

Lemma all_digits_num_chars l : all_digits l -> num_chars l.
Proof. intros H. eapply Forall_impl; [done|]. intros c Hc. unfold is_num_char. by rewrite Hc. Qed.

#[export] Hint Resolve all_digits_num_chars : hacc.

Lemma pos_to_string_chars s e : num_chars (pos_to_string s e).
Proof.
  unfold pos_to_string. repeat (case_match || simpl); auto 10 with hacc.
Qed.

Lemma num_to_string_chars n : is_finite n = true -> num_chars (num_to_string n).
Proof.
  destruct n as [|neg|neg s e]; try done. intros _. simpl.
  destruct (s =? 0); [auto with hacc|]. pose proof (pos_to_string_chars s e).
  destruct neg; simpl; auto with hacc.
Qed.

Lemma pos_to_string_head s e :
  s <> 0 -> exists c l, pos_to_string s e = c :: l /\ is_digit c = true.
Proof.
  intros Hs. destruct (digits_head s Hs) as (c & l & Hcl & _).
  pose proof (digits_are_digits s) as Hd. rewrite Hcl in Hd. apply Forall_cons in Hd as [Hc _].
  unfold pos_to_string. rewrite Hcl.
  destruct ((_ <=? _) && (_ <=? 21))%Z eqn:E1; [|destruct ((0 <? _) && _)%Z eqn:E2;
    [|destruct ((-6 <? _) && _)%Z eqn:E3]]; [|to_prop; destruct (Z.to_nat _) eqn:E; [lia|]|..];
    simpl; eauto.
Qed.

Lemma num_to_string_nonempty n : num_to_string n <> [].
Proof.
  destruct n as [|[]|neg s e]; try done. simpl. destruct (N.eqb_spec s 0); [done|].
  destruct (pos_to_string_head s e) as (c & l & -> & _); [done|]. by destruct neg.
Qed.

(** The rendering forgets only the sign of zero. *)
Definition drop_neg_zero (n : jsnum) : jsnum :=
  if is_neg_zero n then Finite false 0 0 else n.

Lemma drop_neg_zero_ok n :
  num_ok n = true -> is_finite n = true ->
  drop_neg_zero n = match n with
                    | Finite neg s e => if s =? 0 then Finite false 0 0 else n
                    | _ => n
                    end.
Proof.
  destruct n as [|neg|neg s e]; try done. simpl. unfold drop_neg_zero. simpl.
  destruct s; simpl; [intros H%bool_decide_eq_true _; subst; by destruct neg|].
  by destruct neg.
Qed.

Lemma pos_to_string_inj s e s' e' :
  s <> 0 -> s' <> 0 -> s mod 10 <> 0 -> s' mod 10 <> 0 ->
  pos_to_string s e = pos_to_string s' e' -> s = s' /\ e = e'.
Proof.
  intros ???? H. apply (f_equal decode_pos) in H. rewrite !decode_pos_to_string in H by done.
  injection H as H ->. by apply digits_inj in H.
Qed.

Lemma signed_not_zero (neg : bool) s e :
  s <> 0 -> s mod 10 <> 0 -> (if neg then [ch_minus] else []) ++ pos_to_string s e <> [ch_0].
Proof.
  intros Hs Hn H. destruct neg; [done|]. simpl in H.
  apply (f_equal decode_pos) in H. rewrite decode_pos_to_string in H by done.
  injection H as H _. by apply digits_nonempty in H.
Qed.

Lemma num_to_string_inj n m :
  num_ok n = true -> num_ok m = true -> is_finite n = true -> is_finite m = true ->
  num_to_string n = num_to_string m -> drop_neg_zero n = drop_neg_zero m.
Proof.
  intros Hn Hm Fn Fm H. rewrite !drop_neg_zero_ok by done.
  destruct n as [|?|neg s e], m as [|?|neg' s' e']; try done. simpl in *.
  destruct (N.eqb_spec s 0) as [->|Hs], (N.eqb_spec s' 0) as [->|Hs']; [done|..];
    to_prop; repeat match goal with H : (_ =? _) = false |- _ => apply N.eqb_neq in H end.
  - by apply eq_sym, signed_not_zero in H.
  - by apply signed_not_zero in H.
  - destruct (pos_to_string_head s e Hs) as (c & l & E & Hc).
    destruct (pos_to_string_head s' e' Hs') as (c' & l' & E' & Hc').
    assert (neg = neg') as <-.
    { rewrite E, E' in H. by destruct neg, neg'; simplify_eq/=. }
    apply app_inv_head in H. by apply pos_to_string_inj in H as [-> ->].
Qed.

(** ** Strings: the decoder *)

Definition unhex_digit (h : N) : N := if h <? 58 then h - 48 else h - 87.

Definition unhex4 (a b c d : N) : N :=
  unhex_digit a * 4096 + unhex_digit b * 256 + unhex_digit c * 16 + unhex_digit d.

Definition unescape (x : N) : N :=
  if x =? 98 then 8 else if x =? 116 then 9 else if x =? 110 then 10
  else if x =? 102 then 12 else if x =? 114 then 13 else x.

(** Reads the characters of a quoted string up to its closing quote. *)
Fixpoint unquote (t : jstr) : option (jstr * jstr) :=
  match t with
  | [] => None
  | x :: r =>
      if x =? ch_quote then Some ([], r)
      else if x =? ch_backslash then
        match r with
        | y :: r' =>
            if y =? 117 then
              match r' with
              | a :: b :: c :: d :: r'' => '(s, z) ← unquote r''; Some (unhex4 a b c d :: s, z)
              | _ => None
              end
            else '(s, z) ← unquote r'; Some (unescape y :: s, z)
        | [] => None
        end
      else '(s, z) ← unquote r; Some (x :: s, z)
  end.

Abbreviation units_ok := (Forall (fun c => c < 65536)).

Lemma unhex_hex n : n < 16 -> unhex_digit (hex_digit n) = n.
Proof.
  intros H. unfold unhex_digit, hex_digit, ch_0.
  destruct (N.ltb_spec n 10); case_match eqn:E;
    first [apply N.ltb_lt in E | apply N.ltb_ge in E]; lia.
Qed.

Lemma unhex4_hex4 c :
  c < 65536 -> unhex4 (hex_digit (c / 4096)) (hex_digit (c / 256 mod 16))
    (hex_digit (c / 16 mod 16)) (hex_digit (c mod 16)) = c.
Proof.
  intros H. unfold unhex4.
  rewrite !unhex_hex by (first [by apply N.mod_lt | apply N.Div0.div_lt_upper_bound; lia]).
  replace (c / 4096) with (c / 16 / 16 / 16) by (by rewrite !N.Div0.div_div).
  replace (c / 256) with (c / 16 / 16) by (by rewrite N.Div0.div_div).
  pose proof (N.div_mod c 16 ltac:(done)) as E1.
  pose proof (N.div_mod (c / 16) 16 ltac:(done)) as E2.
  pose proof (N.div_mod (c / 16 / 16) 16 ltac:(done)) as E3.
  rewrite E1 at 5. rewrite E2 at 4. rewrite E3 at 3.
  generalize (c / 16 / 16 / 16) (c / 16 / 16 mod 16) (c / 16 mod 16) (c mod 16). clear. lia.
Qed.

Lemma unquote_unicode c t :
  c < 65536 ->
  unquote (unicode_escape c ++ t) = '(s, z) ← unquote t; Some (c :: s, z).
Proof. intros H. simpl. by rewrite unhex4_hex4. Qed.

Lemma unquote_raw c t :
  c <> ch_quote -> c <> ch_backslash ->
  unquote (c :: t) = '(s, z) ← unquote t; Some (c :: s, z).
Proof.
  intros H1 H2. simpl. by rewrite (proj2 (N.eqb_neq c ch_quote)), (proj2 (N.eqb_neq c ch_backslash)).
Qed.

Lemma unquote_escape_unit c t :
  c < 65536 ->
  unquote (escape_unit c ++ t) = '(s, z) ← unquote t; Some (c :: s, z).
Proof.
  intros H. unfold escape_unit.
  repeat match goal with
  | |- context [?x =? ?y] => destruct (N.eqb_spec x y) as [->|?]; [done|]
  end.
  destruct (c <? 32); [by apply unquote_unicode | by apply unquote_raw].
Qed.

Lemma quote_body_cons c s :
  quote_body (c :: s) =
  if is_lead c then
    match s with
    | d :: s' => if is_trail d then c :: d :: quote_body s' else unicode_escape c ++ quote_body s
    | [] => unicode_escape c
    end
  else if is_trail c then unicode_escape c ++ quote_body s
  else escape_unit c ++ quote_body s.
Proof. by destruct s. Qed.

Lemma unquote_quote_body s r :
  units_ok s -> unquote (quote_body s ++ ch_quote :: r) = Some (s, r).
Proof.
  remember (length s) as n eqn:Hn. assert (length s <= n)%nat as Hle by lia. clear Hn.
  revert s Hle; induction n as [|n IH]; intros [|c s] Hle Hok; simpl in Hle; try done; try lia.
  apply Forall_cons in Hok as [Hc Hok]. rewrite quote_body_cons.
  destruct (is_lead c) eqn:Elead; [destruct s as [|d s]|]; [..|destruct (is_trail c)].
  - by rewrite unquote_unicode.
  - pose proof Hok as Hok'. apply Forall_cons in Hok' as [Hd Hok']. simpl in Hle.
    destruct (is_trail d) eqn:Etrail.
    + unfold is_lead, is_trail in *. to_prop.
      repeat match goal with H : (_ <=? _) = true |- _ => apply N.leb_le in H end.
      change ((c :: d :: ?l) ++ ?r) with (c :: d :: l ++ r).
      rewrite !unquote_raw by (unfold ch_quote, ch_backslash; lia).
      by rewrite IH by (done || lia).
    + rewrite <- app_assoc, unquote_unicode by done. by rewrite IH by (simpl; done || lia).
  - rewrite <- app_assoc, unquote_unicode by done. by rewrite IH by (done || lia).
  - rewrite <- app_assoc, unquote_escape_unit by done. by rewrite IH by (done || lia).
Qed.

Lemma json_quote_unique s s' r r' :
  units_ok s -> units_ok s' -> json_quote s ++ r = json_quote s' ++ r' -> s = s' /\ r = r'.
Proof.
  intros Hs Hs' H. unfold json_quote in H. rewrite <- !app_assoc in H. simpl in H.
  injection H as H. apply (f_equal unquote) in H. rewrite !unquote_quote_body in H by done.
  by injection H.
Qed.

(** ** A rendering followed by a delimiter can be read in one way only *)

Lemma num_chars_unique t t' r r' :
  num_chars t -> num_chars t' ->
  (forall c l, r = c :: l -> is_num_char c = false) ->
  (forall c l, r' = c :: l -> is_num_char c = false) ->
  t ++ r = t' ++ r' -> t = t' /\ r = r'.
Proof.
  intros Ht. revert t'. induction Ht as [|c t Hc Ht IH]; intros [|c' t'] Ht' Hr Hr' H; simpl in H.
  - done.
  - subst. apply Forall_cons in Ht' as [Hc' _]. specialize (Hr _ _ eq_refl). congruence.
  - subst. specialize (Hr' _ _ eq_refl). congruence.
  - injection H as -> H. apply Forall_cons in Ht' as [_ Ht'].
    destruct (IH t' Ht' Hr Hr' H) as [-> ->]. done.
Qed.

(** ** Integers as numbers *)

Lemma strip_zeros_spec fuel s e s' e' :
  strip_zeros fuel s e = (s', e') -> 0 < s -> s < 2 ^ N.of_nat (S fuel) ->
  (e <= e')%Z /\ s = s' * 10 ^ Z.to_N (e' - e) /\ s' mod 10 <> 0.
Proof.
  revert s e; induction fuel as [|fuel IH]; intros s e; cbn [strip_zeros].
  - intros [= <- <-] H0 H1. replace (2 ^ N.of_nat 1) with 2 in H1 by done.
    assert (s = 1) as -> by lia. rewrite Z.sub_diag. split_and!; [lia|done|done].
  - destruct (N.eqb_spec (s mod 10) 0) as [Em|Em].
    + intros H H0 H1. pose proof (N.div_mod s 10 ltac:(lia)) as Hs. rewrite Em in Hs.
      assert (2 ^ N.of_nat (S (S fuel)) = 2 * 2 ^ N.of_nat (S fuel)) as E2
        by (rewrite <- N.pow_succ_r'; f_equal; lia).
      apply IH in H as (He & Hd & Hm); [|lia|lia].
      split_and!; [lia| |done]. rewrite Hs, Hd, N.add_0_r.
      replace (e' - e)%Z with (Z.succ (e' - (e + 1)))%Z by lia.
      rewrite Z2N.inj_succ, N.pow_succ_r' by lia. lia.
    + intros [= <- <-] H0 H1. rewrite Z.sub_diag. split_and!; [lia|simpl; lia|done].
Qed.

Lemma num_of_Z_cases z :
  (z = 0%Z /\ num_of_Z z = Finite false 0 0) \/
  exists s e, num_of_Z z = Finite (z <? 0)%Z s e /\ (0 <= e)%Z /\ s mod 10 <> 0 /\
    Z.abs_N z = s * 10 ^ Z.to_N e.
Proof.
  unfold num_of_Z. destruct (N.eqb_spec (Z.abs_N z) 0) as [E|E]; [left; split; [lia|done]|right].
  destruct (strip_zeros _ _ _) as [s e] eqn:Es.
  apply strip_zeros_spec in Es as (He & Hs & Hm); [|lia|].
  - rewrite Z.sub_0_r in Hs. by exists s, e.
  - rewrite Nat2N.inj_succ, N2Nat.id. apply N.log2_spec. lia.
Qed.

Lemma num_of_Z_ok z : num_ok (num_of_Z z) = true.
Proof.
  destruct (num_of_Z_cases z) as [[_ ->]|(s & e & -> & _ & Hm & _)]; [done|]. cbn [num_ok].
  destruct (N.eqb_spec s 0) as [->|]; [done|]. by apply negb_true_iff, N.eqb_neq.
Qed.

Lemma num_of_Z_finite z : is_finite (num_of_Z z) = true.
Proof. by destruct (num_of_Z_cases z) as [[_ ->]|(s & e & -> & _)]. Qed.

Lemma drop_neg_zero_of_Z z : drop_neg_zero (num_of_Z z) = num_of_Z z.
Proof.
  destruct (num_of_Z_cases z) as [[_ ->]|(s & e & -> & _ & Hm & _)]; [done|].
  destruct s; [done|]. cbn. by destruct (z <? 0)%Z.
Qed.

Lemma num_of_Z_inj a b : num_of_Z a = num_of_Z b -> a = b.
Proof.
  intros E. destruct (num_of_Z_cases a) as [[Za Ea]|(s & e & Ea & _ & Hm & Ha)];
    destruct (num_of_Z_cases b) as [[Zb Eb]|(s' & e' & Eb & _ & Hm' & Hb)]; rewrite Ea, Eb in E.
  - congruence.
  - injection E as _ <- _. done.
  - injection E as _ -> _. done.
  - injection E as En <- <-. rewrite <- Ha in Hb.
    destruct (Z.ltb_spec a 0), (Z.ltb_spec b 0); try done; lia.
Qed.

(** ** Byte lengths *)

Lemma utf8_length_nonneg s : (0 <= utf8_length s)%Z.
Proof.
  induction s as [s IH] using (induction_ltof1 _ (@length N)). unfold ltof in IH.
  destruct s as [|c s]; [done|]. cbn [utf8_length]. pose proof (IH s ltac:(simpl; lia)).
  destruct (is_lead c); [|repeat case_match; lia].
  destruct s as [|d s]; [lia|]. pose proof (IH s ltac:(simpl; lia)). case_match; lia.
Qed.
