(* ===== verification/Canonical.v ===== *)
(** * Canonical JSON and hashes (src/web/lib/flow-runtime.ts)

    [canonicalJson], [hashFlowValue], [flowJsonBytes] and [valuesEqual]. SHA-256
    is a parameter of the model: an instance of [Sha256]. The theorems say which
    values are identified by the encoding (exactly those that differ in property
    order and in the sign of zero), hence which values an idempotency key or an
    evidence hash identifies when no two different encodings collide. *)

From S2P Require Import Prelude JsValue JsText.

(** ** The digest: [createHash("sha256").update(text).digest("hex")] *)

Class Sha256 := sha256 : jstr -> jstr.

Definition is_hex (c : N) : bool := is_digit c || ((97 <=? c)%N && (c <=? 102)%N).

(** [/^[a-f0-9]{64}$/] *)
Definition is_sha256 (s : jstr) : bool := (length s =? 64)%nat && forallb is_hex s.

Class Sha256Ok (H : Sha256) : Prop := sha256_hex : forall t, is_sha256 (sha256 t) = true.

(** Two different texts with one digest. *)
Definition collision {H : Sha256} : Prop := exists t t', t <> t' /\ sha256 t = sha256 t'.

(** ** The encoder *)

Definition ch_comma : N := 44.
Definition ch_colon : N := 58.

(** [Array.prototype.join(",")] *)
Fixpoint join (l : list jstr) : jstr :=
  match l with
  | [] => []
  | [x] => x
  | x :: l => x ++ ch_comma :: join l
  end.

Definition entry_text (e : jstr * jstr) : jstr := json_quote e.1 ++ ch_colon :: e.2.

Definition key_ltb {V} (a b : jstr * V) : bool := str_ltb a.1 b.1.

Definition bracket (o : N) (body : jstr) (c : N) : jstr := o :: body ++ [c].

(** [None] is the exception the source throws on a value that is not JSON. *)
Fixpoint canonicalJson (v : jsval) : option jstr :=
  match v with
  | JNull => Some (js "null")
  | JStr s => Some (json_quote s)
  | JBool b => Some (if b then js "true" else js "false")
  | JNum n =>
      if negb (is_finite n) then None
      else Some (if is_neg_zero n then js "0" else num_to_string n)
  | JArr vs => (fun items => bracket 91 (join items) 93) <$> mapM canonicalJson vs
  | JObj kvs =>
      (fun entries => bracket 123 (join (entry_text <$> sort_by key_ltb entries)) 125) <$>
      mapM (fun kv => pair kv.1 <$> canonicalJson kv.2) kvs
  | JUndefined | JOther _ => None
  end.

(** The values that can occur: numbers in normal form, 16-bit code units, one
    value per property name. *)
Fixpoint val_ok (v : jsval) : Prop :=
  match v with
  | JNum n => num_ok n = true
  | JStr s => units_ok s
  | JArr vs => (fix go l := match l with [] => True | v :: l => val_ok v /\ go l end) vs
  | JObj kvs =>
      NoDup (keys kvs) /\
      (fix go (l : obj jsval) :=
         match l with [] => True | kv :: l => (units_ok kv.1 /\ val_ok kv.2) /\ go l end) kvs
  | _ => True
  end.

(** Semantic content of a value: properties in key order, one zero. *)
Fixpoint norm (v : jsval) : jsval :=
  match v with
  | JNum n => JNum (drop_neg_zero n)
  | JArr vs => JArr (norm <$> vs)
  | JObj kvs => JObj (sort_by key_ltb ((fun kv => (kv.1, norm kv.2)) <$> kvs))
  | v => v
  end.

(** The same text without sorting: used on values already in normal form. *)
Fixpoint encode (v : jsval) : option jstr :=
  match v with
  | JNull => Some (js "null")
  | JStr s => Some (json_quote s)
  | JBool b => Some (if b then js "true" else js "false")
  | JNum n => if negb (is_finite n) then None else Some (num_to_string n)
  | JArr vs => (fun items => bracket 91 (join items) 93) <$> mapM encode vs
  | JObj kvs =>
      (fun entries => bracket 123 (join (entry_text <$> entries)) 125) <$>
      mapM (fun kv => pair kv.1 <$> encode kv.2) kvs
  | JUndefined | JOther _ => None
  end.

(** [flowJsonBytes], [hashFlowValue], [valuesEqual]. *)
Definition flowJsonBytes (v : jsval) : option Z := utf8_length <$> canonicalJson v.

Definition hashFlowValue `{Sha256} (v : jsval) : option jstr := sha256 <$> canonicalJson v.

(** [Object.is] on primitives; composite values are compared by identity, and the
    two sides of a comparison are never the same object. *)
Definition object_is (a b : jsval) : bool :=
  match a, b with
  | JUndefined, JUndefined | JNull, JNull => true
  | JBool x, JBool y => eqb x y
  | JNum x, JNum y => bool_decide (x = y)
  | JStr x, JStr y => x =?s y
  | _, _ => false
  end.

Definition valuesEqual `{Sha256} (left right : jsval) : bool :=
  match hashFlowValue left, hashFlowValue right with
  | Some l, Some r => l =?s r
  | _, _ => object_is left right
  end.

(** ** Lemmas *)

Lemma val_ok_arr vs : val_ok (JArr vs) <-> Forall val_ok vs.
Proof.
  induction vs as [|v vs IH]; simpl; [split; [constructor|done]|].
  rewrite Forall_cons. simpl in IH. tauto.
Qed.

Lemma val_ok_obj kvs :
  val_ok (JObj kvs) <->
  NoDup (keys kvs) /\ Forall (fun kv => units_ok kv.1 /\ val_ok kv.2) kvs.
Proof.
  simpl. apply and_iff_compat_l.
  induction kvs as [|kv kvs IH]; simpl; [split; [constructor|done]|].
  rewrite Forall_cons, IH. tauto.
Qed.

(** The same as a test. *)
Fixpoint val_okb (v : jsval) : bool :=
  let units s := forallb (fun c => (c <? 65536)%N) s in
  match v with
  | JNum n => num_ok n
  | JStr s => units s
  | JArr vs => forallb val_okb vs
  | JObj kvs => nodupb (keys kvs) && forallb (fun kv => units kv.1 && val_okb kv.2) kvs
  | _ => true
  end.

Lemma units_ok_forallb (p : N -> bool) s :
  (forall c, p c = true -> (c < 65536)%N) -> forallb p s = true -> units_ok s.
Proof. intros Hp Hs. rewrite forallb_elem in Hs. apply Forall_forall. auto. Qed.

Lemma val_okb_sound v : val_okb v = true -> val_ok v.
Proof.
  induction v as [| | |n|s|vs IH|kvs IH|o] using jsval_ind'; try done; intros H.
  - apply units_ok_forallb with (2 := H). intros c. apply N.ltb_lt.
  - apply val_ok_arr. cbn [val_okb] in H. rewrite forallb_elem in H. rewrite Forall_forall in *. auto.
  - apply val_ok_obj. cbn [val_okb] in H. to_prop. split; [by apply bool_decide_eq_true_1 in H|].
    rewrite forallb_elem in H0. rewrite Forall_forall in *. intros kv Hkv.
    specialize (H0 _ Hkv). to_prop. split; [|auto].
    apply units_ok_forallb with (2 := H0). intros c. apply N.ltb_lt.
Qed.

(** *** The string order *)

Lemma str_ltb_irrefl a : str_ltb a a = false.
Proof. induction a as [|x a IH]; simpl; [done|]. by rewrite N.eqb_refl. Qed.

Lemma str_ltb_trans a b c : str_ltb a b = true -> str_ltb b c = true -> str_ltb a c = true.
Proof.
  revert b c; induction a as [|x a IH]; intros [|y b] [|z c]; simpl; try done.
  destruct (N.eqb_spec x y) as [->|], (N.eqb_spec y z) as [->|]; intros H1 H2;
    rewrite ?N.eqb_refl, ?(proj2 (N.eqb_neq _ _)) by done; eauto.
  apply N.ltb_lt in H1, H2. rewrite (proj2 (N.eqb_neq x z)) by lia. apply N.ltb_lt; lia.
Qed.

Lemma str_ltb_total a b : str_ltb a b = false -> str_ltb b a = false -> a = b.
Proof.
  revert b; induction a as [|x a IH]; intros [|y b]; simpl; try done.
  rewrite (N.eqb_sym y x). destruct (N.eqb_spec x y) as [->|]; intros H1 H2.
  - f_equal. by apply IH.
  - apply N.ltb_ge in H1, H2. lia.
Qed.

Lemma sort_keys {V} (o : obj V) : keys (sort_by key_ltb o) = sort_by str_ltb (keys o).
Proof. symmetry. by apply sort_by_fmap. Qed.

(** Objects with the same properties have the same sorted form. *)
Lemma sort_by_key_unique {V} (o o' : obj V) :
  NoDup (keys o) -> o ≡ₚ o' -> sort_by key_ltb o = sort_by key_ltb o'.
Proof.
  intros Hnd Hp.
  assert (NoDup (keys o')) as Hnd' by (unfold keys; by rewrite <- Hp).
  assert (keys (sort_by key_ltb o) = keys (sort_by key_ltb o')) as Hk.
  { rewrite !sort_keys.
    apply (strictly_sorted_unique str_ltb str_ltb_trans str_ltb_irrefl str_ltb_total).
    1,2: by apply (sort_by_sorted str_ltb str_ltb_trans str_ltb_total).
    intros x. rewrite !elem_of_sort_by. unfold keys. by rewrite Hp. }
  assert (sort_by key_ltb o ≡ₚ sort_by key_ltb o') as Hq by (by rewrite !sort_by_perm).
  assert (NoDup (keys (sort_by key_ltb o))) as Hs by (unfold keys; by rewrite sort_by_perm).
  revert Hk Hq Hs. generalize (sort_by key_ltb o) (sort_by key_ltb o'). clear.
  intros l. induction l as [|[k v] l IH]; intros [|[k' v'] l'] Hk Hq Hnd; try done.
  cbn [keys fmap list_fmap fst] in Hk. injection Hk as <- Hk.
  assert ((k, v) ∈ (k, v') :: l') as Hin by (rewrite <- Hq; left).
  cbn [keys fmap list_fmap fst] in Hnd. apply NoDup_cons in Hnd as [Hkl Hnd].
  apply elem_of_cons in Hin as [[= <-]|Hin].
  - f_equal. apply IH; [done| |done]. by apply Permutation_cons_inv in Hq.
  - exfalso. apply Hkl. fold (keys l). unfold keys in Hk |- *. rewrite Hk.
    apply list_elem_of_fmap. by exists (k, v).
Qed.

(** *** The encoder is the unsorted encoder on the normal form *)

Lemma mapM_insert_by {V W} (f : jstr * V -> option (jstr * W)) x l :
  (forall y z, f y = Some z -> z.1 = y.1) ->
  mapM f (insert_by key_ltb x l) =
  y ← f x; ys ← mapM f l; Some (insert_by key_ltb y ys).
Proof.
  intros Hf. induction l as [|y l IH]; simpl; [by destruct (f x)|].
  destruct (f x) as [x'|] eqn:Ex; destruct (f y) as [y'|] eqn:Ey; simpl in *.
  - assert (key_ltb y' x' = key_ltb y x) as E
      by (unfold key_ltb; by rewrite (Hf _ _ Ex), (Hf _ _ Ey)).
    destruct (key_ltb y x) eqn:Eyx; simpl.
    + rewrite Ey, IH. simpl. destruct (mapM f l); simpl; [by rewrite E|done].
    + rewrite Ex, Ey. simpl. destruct (mapM f l); simpl; [by rewrite E|done].
  - destruct (key_ltb y x); simpl; rewrite ?Ex, ?Ey; done.
  - destruct (key_ltb y x); simpl; rewrite ?Ex, ?Ey; simpl; [by rewrite IH|done].
  - destruct (key_ltb y x); simpl; rewrite ?Ex, ?Ey; done.
Qed.

Lemma mapM_sort_by {V W} (f : jstr * V -> option (jstr * W)) l :
  (forall y z, f y = Some z -> z.1 = y.1) ->
  mapM f (sort_by key_ltb l) = sort_by key_ltb <$> mapM f l.
Proof.
  intros Hf. induction l as [|x l IH]; simpl; [done|].
  rewrite mapM_insert_by, IH by done. destruct (f x), (mapM f l); done.
Qed.

Lemma mapM_fmap_eq {A B C} (f : B -> option C) (g : A -> B) (h : A -> option C) l :
  Forall (fun x => f (g x) = h x) l -> mapM f (g <$> l) = mapM h l.
Proof. induction 1 as [|x l Hx _ IH]; [done|]. rewrite fmap_cons. simpl. by rewrite Hx, IH. Qed.

Lemma canonicalJson_norm v : canonicalJson v = encode (norm v).
Proof.
  induction v as [| | | n | | vs IH | kvs IH |] using jsval_ind'; simpl; try done.
  - unfold drop_neg_zero. destruct (is_neg_zero n) eqn:E; [|done].
    by destruct n as [|[]|[] [] ?].
  - f_equal. symmetry. apply mapM_fmap_eq. eapply Forall_impl; [exact IH|]. by intros v ->.
  - rewrite mapM_sort_by.
    + rewrite <- option_fmap_compose. f_equal. symmetry. apply mapM_fmap_eq.
      eapply Forall_impl; [exact IH|]. intros [k v] Hv. simpl in *. by rewrite Hv.
    + intros y z H. by apply fmap_Some in H as (t & _ & ->).
Qed.

(** *** Unique readability *)

Definition is_delim (c : N) : bool := (c =? ch_comma)%N || (c =? 93)%N || (c =? 125)%N.
Definition delim (r : jstr) : Prop := forall c l, r = c :: l -> is_delim c = true.

Lemma delim_not_num c : is_delim c = true -> is_num_char c = false.
Proof.
  unfold is_delim. intros H. apply orb_true_iff in H as [H|H]; [apply orb_true_iff in H as [H|H]|];
    apply N.eqb_eq in H as ->; done.
Qed.

Section JoinUnique.
Context {A : Type} (enc : A -> jstr -> Prop).
Variable close : N.
Hypothesis Hclose : is_delim close = true.
Hypothesis Hnotcomma : close <> ch_comma.
Hypothesis enc_head : forall x t, enc x t -> exists c l, t = c :: l /\ is_delim c = false.

Definition readable (x : A) : Prop :=
  forall y t t' r r', enc x t -> enc y t' -> delim r -> delim r' ->
    t ++ r = t' ++ r' -> x = y /\ r = r'.

Lemma join_cons t ts : join (t :: ts) = t ++ match ts with [] => [] | _ => ch_comma :: join ts end.
Proof. destruct ts; simpl; [by rewrite app_nil_r|done]. Qed.

Lemma join_tail_delim ts r :
  delim (match ts with [] => [] | _ => ch_comma :: join ts end ++ close :: r).
Proof. intros c l. destruct ts; simpl; intros [= <- _]; done. Qed.

Lemma join_unique xs ys ts ts' r r' :
  Forall readable xs -> Forall2 enc xs ts -> Forall2 enc ys ts' ->
  join ts ++ close :: r = join ts' ++ close :: r' -> xs = ys /\ r = r'.
Proof.
  intros HU H1. revert ys ts'. induction H1 as [|x t xs ts Hx H1 IH];
    intros ys ts' H2 H; destruct H2 as [|y t' ys ts' Hy H2].
  - by injection H as ->.
  - destruct (enc_head _ _ Hy) as (c & l & -> & Hc). rewrite join_cons in H. simpl in H.
    injection H as <- _. congruence.
  - destruct (enc_head _ _ Hx) as (c & l & -> & Hc). rewrite join_cons in H. simpl in H.
    injection H as <- _. congruence.
  - apply Forall_cons in HU as [Hr HU]. rewrite !join_cons, <- !app_assoc in H.
    destruct (Hr y t t' _ _ Hx Hy (join_tail_delim _ _) (join_tail_delim _ _) H) as [-> Ht].
    destruct H1 as [|x2 t2 xs ts ? H1], H2 as [|y2 t2' ys ts' ? H2]; cbn [app] in Ht.
    + by injection Ht as ->.
    + by injection Ht as E _.
    + by injection Ht as E _.
    + injection Ht as Ht. destruct (IH HU (y2 :: ys) (t2' :: ts')) as [-> ->];
        [by constructor|done|done].
Qed.
End JoinUnique.

(** Values in normal form, as [norm] produces them. *)
Fixpoint tidy (v : jsval) : Prop :=
  match v with
  | JNum n => num_ok n = true /\ drop_neg_zero n = n
  | JStr s => units_ok s
  | JArr vs => (fix go l := match l with [] => True | v :: l => tidy v /\ go l end) vs
  | JObj kvs =>
      (fix go (l : obj jsval) :=
         match l with [] => True | kv :: l => (units_ok kv.1 /\ tidy kv.2) /\ go l end) kvs
  | _ => True
  end.

Lemma tidy_arr vs : tidy (JArr vs) <-> Forall tidy vs.
Proof.
  induction vs as [|v vs IH]; simpl; [split; [constructor|done]|].
  rewrite Forall_cons. simpl in IH. tauto.
Qed.

Lemma tidy_obj kvs : tidy (JObj kvs) <-> Forall (fun kv => units_ok kv.1 /\ tidy kv.2) kvs.
Proof.
  simpl. induction kvs as [|kv kvs IH]; simpl; [split; [constructor|done]|].
  rewrite Forall_cons, IH. tauto.
Qed.

Lemma norm_tidy v : val_ok v -> tidy (norm v).
Proof.
  induction v as [| | | n | | vs IH | kvs IH |] using jsval_ind'; try done.
  - simpl. intros Hn. unfold drop_neg_zero. destruct (is_neg_zero n) eqn:E; [done|].
    by rewrite E.
  - rewrite val_ok_arr. intros Hok. cbn [norm]. rewrite tidy_arr, Forall_fmap.
    rewrite Forall_forall in IH, Hok |- *. intros v Hv. simpl. eauto.
  - rewrite val_ok_obj. intros [_ Hok]. cbn [norm]. rewrite tidy_obj, sort_by_perm, Forall_fmap.
    rewrite Forall_forall in IH, Hok |- *. intros kv Hkv. simpl.
    destruct (Hok kv Hkv). eauto.
Qed.

(** The first character of an encoding tells which kind of value follows. *)
Definition head_kind (c : N) : N := if is_num_char c then 0%N else c.
Definition value_kind (v : jsval) : N :=
  match v with
  | JNum _ => 0
  | JNull => 110
  | JBool b => if b then 116 else 102
  | JStr _ => 34
  | JArr _ => 91
  | _ => 123
  end%N.

Lemma encode_head v t :
  encode v = Some t -> exists c l, t = c :: l /\ head_kind c = value_kind v /\ is_delim c = false.
Proof.
  destruct v as [| |b|n|s|vs|kvs|]; simpl; intros H; try discriminate H.
  - injection H as <-. by eexists _, _.
  - injection H as <-. destruct b; by eexists _, _.
  - destruct (is_finite n) eqn:E; [|done]. simpl in H. injection H as <-.
    pose proof (num_to_string_chars n E) as Hc. pose proof (num_to_string_nonempty n) as Hne.
    destruct (num_to_string n) as [|c l]; [done|]. apply Forall_cons in Hc as [Hc _].
    exists c, l. unfold head_kind. rewrite Hc. split_and!; [done..|].
    destruct (is_delim c) eqn:Ed; [|done]. apply delim_not_num in Ed. congruence.
  - injection H as <-. by eexists _, _.
  - apply fmap_Some in H as (ts & _ & ->). by eexists _, _.
  - apply fmap_Some in H as (ts & _ & ->). by eexists _, _.
Qed.

Definition enc (v : jsval) (t : jstr) : Prop := encode v = Some t /\ tidy v.
Definition enc_entry (kv : jstr * jsval) (t : jstr) : Prop :=
  units_ok kv.1 /\ exists u, enc kv.2 u /\ t = entry_text (kv.1, u).

Lemma enc_arr vs t :
  enc (JArr vs) t -> exists ts, Forall2 enc vs ts /\ t = bracket 91 (join ts) 93.
Proof.
  intros [H Ht]. apply tidy_arr in Ht. cbn [encode] in H.
  apply fmap_Some in H as (ts & H & ->). exists ts. split; [|done].
  apply mapM_Some in H. clear -H Ht. induction H; [constructor|].
  apply Forall_cons in Ht as [? ?]. constructor; [done|auto].
Qed.

Lemma enc_obj kvs t :
  enc (JObj kvs) t -> exists ts, Forall2 enc_entry kvs ts /\ t = bracket 123 (join ts) 125.
Proof.
  intros [H Ht]. apply tidy_obj in Ht. cbn [encode] in H.
  apply fmap_Some in H as (es & H & ->). exists (entry_text <$> es). split; [|done].
  apply mapM_Some in H. apply Forall2_fmap_r. clear -H Ht. induction H as [|kv e kvs es He H IH];
    [constructor|]. apply Forall_cons in Ht as [[? ?] ?]. constructor; [|auto].
  apply fmap_Some in He as (u & Hu & ->). split; [done|]. exists u. done.
Qed.

Lemma enc_entry_readable kv : readable enc kv.2 -> readable enc_entry kv.
Proof.
  destruct kv as [k v]. intros HU [k' v'] t t' r r' (Hk & u & Hu & ->) (Hk' & u' & Hu' & ->) Hr Hr' H.
  unfold entry_text in H. cbn [fst snd] in *. rewrite <- !app_assoc in H.
  apply json_quote_unique in H as [-> H]; [|done..]. cbn [app] in H. injection H as H.
  by destruct (HU v' u u' r r' Hu Hu' Hr Hr' H) as [-> ->].
Qed.

Lemma bracket_app o b c r : bracket o b c ++ r = o :: (b ++ c :: r).
Proof. unfold bracket. simpl. by rewrite <- app_assoc. Qed.

(** Two encodings that start a common text are of the same kind. *)
Lemma enc_same_kind v w t t' r r' :
  enc v t -> enc w t' -> t ++ r = t' ++ r' -> value_kind v = value_kind w.
Proof.
  intros [Hv _] [Hw _] H.
  destruct (encode_head _ _ Hv) as (c & l & -> & <- & _).
  destruct (encode_head _ _ Hw) as (c' & l' & -> & <- & _). by injection H as ->.
Qed.

Lemma enc_num_readable n : readable enc (JNum n).
Proof.
  intros w t t' r r' Hv Hw Hr Hr' H. pose proof (enc_same_kind _ _ _ _ _ _ Hv Hw H) as Hk.
  destruct w as [| |[]|m| | | |]; try discriminate Hk.
  destruct Hv as [Hv [Hn Dn]], Hw as [Hw [Hm Dm]]. cbn [encode] in *.
  destruct (is_finite n) eqn:Fn; [|done]. destruct (is_finite m) eqn:Fm; [|done].
  injection Hv as <-. injection Hw as <-.
  destruct (num_chars_unique (num_to_string n) (num_to_string m) r r') as [Hnm ->];
    eauto using num_to_string_chars, delim_not_num.
  split; [|done]. f_equal. rewrite <- Dn, <- Dm. by apply num_to_string_inj.
Qed.

Lemma enc_head v t : enc v t -> exists c l, t = c :: l /\ is_delim c = false.
Proof. intros [H _]. destruct (encode_head _ _ H) as (c & l & ? & _ & ?). eauto. Qed.

Lemma enc_entry_head kv t : enc_entry kv t -> exists c l, t = c :: l /\ is_delim c = false.
Proof. intros (_ & u & _ & ->). by eexists _, _. Qed.

Lemma enc_readable v : readable enc v.
Proof.
  induction v as [| |b|n|s|vs IH|kvs IH|] using jsval_ind'; [| | |apply enc_num_readable|..];
    intros w t t' r r' Hv Hw Hr Hr' H; pose proof (enc_same_kind _ _ _ _ _ _ Hv Hw H) as Hk;
    try (by destruct Hv as [[=] _]);
    destruct w as [| |b'|m|s'|ws|kws|]; try (by destruct Hw as [[=] _]);
    try discriminate Hk; try (by destruct b); try (by destruct b').
  - destruct Hv as [[= <-] _], Hw as [[= <-] _]. by apply app_inv_head in H.
  - assert (b = b') as <- by (by destruct b, b').
    destruct Hv as [[= <-] _], Hw as [[= <-] _]. by apply app_inv_head in H.
  - destruct Hv as [[= <-] ?], Hw as [[= <-] ?].
    by apply json_quote_unique in H as [-> ->].
  - apply enc_arr in Hv as (ts & Hv & ->). apply enc_arr in Hw as (ts' & Hw & ->).
    rewrite !bracket_app in H. injection H as H.
    by destruct (join_unique enc 93 eq_refl ltac:(done) enc_head _ _ _ _ _ _ IH Hv Hw H) as [-> ->].
  - apply enc_obj in Hv as (ts & Hv & ->). apply enc_obj in Hw as (ts' & Hw & ->).
    rewrite !bracket_app in H. injection H as H.
    destruct (join_unique enc_entry 125 eq_refl ltac:(done) enc_entry_head
      kvs kws ts ts' r r') as [-> ->]; try done.
    eapply Forall_impl; [exact IH|]. apply enc_entry_readable.
Qed.

(** *** What the encoding identifies *)

(** Equal encodings exactly for values with the same content. *)
Lemma canonicalJson_inj v w t :
  val_ok v -> val_ok w -> canonicalJson v = Some t -> canonicalJson w = Some t ->
  norm v = norm w.
Proof.
  rewrite !canonicalJson_norm. intros Hv Hw Ev Ew.
  destruct (enc_readable (norm v) (norm w) t t [] []) as [? _]; [..|done|done];
    (by split; [|apply norm_tidy]) || done.
Qed.

Lemma canonicalJson_content v w : norm v = norm w -> canonicalJson v = canonicalJson w.
Proof. intros H. by rewrite !canonicalJson_norm, H. Qed.

(** Permuting the properties of an object does not change its content. *)
Lemma norm_permute kvs kvs' :
  NoDup (keys kvs) -> kvs ≡ₚ kvs' -> norm (JObj kvs) = norm (JObj kvs').
Proof.
  intros Hnd Hp. cbn [norm]. f_equal. apply sort_by_key_unique; [|by rewrite Hp].
  unfold keys. by rewrite <- list_fmap_compose.
Qed.

(** ** Fields of encoded objects *)

(** ASCII literals are made of code units. *)
Lemma js_units s : units_ok (js s).
Proof.
  unfold js. apply Forall_fmap, Forall_true. intros a. unfold compose.
  pose proof (N_ascii_bounded a). lia.
Qed.

Lemma own_perm {V} k (o o' : obj V) : NoDup (keys o) -> o ≡ₚ o' -> own k o = own k o'.
Proof.
  intros Hnd Hp. assert (NoDup (keys o')) as Hnd' by (unfold keys; by rewrite <- Hp).
  destruct (own k o) as [v|] eqn:E.
  - symmetry. apply elem_of_own; [done|]. rewrite <- Hp. by apply own_elem_of.
  - destruct (own k o') as [v|] eqn:E'; [|done]. apply own_elem_of in E'. rewrite <- Hp in E'.
    rewrite (elem_of_own _ _ _ Hnd E') in E. done.
Qed.

Lemma own_fmap {V W} (f : V -> W) k (o : obj V) :
  own k ((fun kv => (kv.1, f kv.2)) <$> o) = f <$> own k o.
Proof. induction o as [|[k' v] o IH]; csimpl; [done|]. by destruct (k =?s k'). Qed.

Lemma norm_own kvs kvs' k :
  NoDup (keys kvs) -> NoDup (keys kvs') -> norm (JObj kvs) = norm (JObj kvs') ->
  norm <$> own k kvs = norm <$> own k kvs'.
Proof.
  intros Hnd Hnd' E. cbn [norm] in E. injection E as E.
  rewrite <- !own_fmap. rewrite (own_perm k _ (sort_by key_ltb ((fun kv => (kv.1, norm kv.2)) <$> kvs))).
  - rewrite E. symmetry. apply own_perm; [|symmetry; apply sort_by_perm].
    unfold keys. by rewrite <- list_fmap_compose.
  - unfold keys. by rewrite <- list_fmap_compose.
  - symmetry. apply sort_by_perm.
Qed.

Lemma is_digit_bound c : is_digit c = true -> (c < 65536)%N.
Proof. unfold is_digit. intros [_ H%N.leb_le]%andb_true_iff. lia. Qed.

Lemma sha256_units s : is_sha256 s = true -> units_ok s.
Proof.
  intros [_ Hs]%andb_true_iff. eapply units_ok_forallb; [|exact Hs]. intros c.
  unfold is_hex. intros [?%is_digit_bound|[_ H%N.leb_le]%andb_true_iff]%orb_true_iff; [done|lia].
Qed.

(** Objects with the same property names have the same content only field by field. *)
Lemma norm_fields kvs kvs' :
  NoDup (keys kvs) -> keys kvs = keys kvs' -> norm (JObj kvs) = norm (JObj kvs') ->
  Forall2 (fun kv kv' => norm kv.2 = norm kv'.2) kvs kvs'.
Proof.
  intros Hnd Hk E. assert (NoDup (keys kvs')) as Hnd' by (by rewrite <- Hk).
  apply Forall2_same_length_lookup_2; [apply (f_equal length) in Hk; unfold keys in Hk; by rewrite !length_fmap in Hk|].
  intros i [k v] [k' v'] Hi Hi'. cbn [snd].
  assert (k' = k) as ->.
  { assert (keys kvs !! i = Some k) as Hl by (unfold keys; by rewrite list_lookup_fmap, Hi).
    rewrite Hk in Hl. unfold keys in Hl. rewrite list_lookup_fmap, Hi' in Hl. by injection Hl. }
  pose proof (norm_own _ _ k Hnd Hnd' E) as Ho.
  rewrite (elem_of_own k v kvs), (elem_of_own k v' kvs') in Ho by eauto using list_elem_of_lookup_2.
  by injection Ho.
Qed.

(** ** A concrete digest

    Executable stand-in used by the worked examples: a small rolling checksum of the
    text, as 64 hexadecimal digits. *)

Fixpoint hex_digits (width : nat) (n : N) : jstr :=
  match width with
  | O => []
  | S width => hex_digits width (n / 16) ++ [hex_digit (n mod 16)]
  end.

Definition demo_sha256 : Sha256 :=
  fun t => hex_digits 64 (fold_left (fun h c => (h * 31 + c + 1) mod 65521)%N t 0%N).

Lemma length_hex_digits width n : length (hex_digits width n) = width.
Proof.
  revert n; induction width as [|width IH]; intros n; simpl; [done|].
  rewrite length_app, IH. simpl. lia.
Qed.

Lemma hex_digit_is_hex n : (n < 16)%N -> is_hex (hex_digit n) = true.
Proof.
  intros H. unfold is_hex, hex_digit, is_digit, ch_0.
  destruct (N.ltb_spec n 10); apply orb_true_iff; [left|right]; apply andb_true_iff;
    split; apply N.leb_le; lia.
Qed.

#[export] Instance demo_sha256_ok : Sha256Ok demo_sha256.
Proof.
  intros t. unfold is_sha256, sha256, demo_sha256. rewrite length_hex_digits.
  rewrite Nat.eqb_refl. cbn [andb]. generalize (fold_left (fun h c => (h * 31 + c + 1) mod 65521)%N t 0%N).
  generalize 64%nat. intros width. induction width as [|width IH]; intros n; simpl; [done|].
  rewrite forallb_app, IH. simpl. by rewrite hex_digit_is_hex by (by apply N.mod_lt).
Qed.

(** ** The theorem *)

(** Values with one digest have one content, unless SHA-256 collides on their texts. *)
Lemma hashFlowValue_inj `{Sha256} v w h :
  val_ok v -> val_ok w -> hashFlowValue v = Some h -> hashFlowValue w = Some h ->
  norm v = norm w \/ collision.
Proof.
  unfold hashFlowValue. intros Hv Hw (t & Et & ->)%fmap_Some (t' & Et' & Eh)%fmap_Some.
  destruct (decide (t = t')) as [<-|Hne]; [left; by eapply canonicalJson_inj | right; by exists t, t'].
Qed.

(** Hashing a flow value identifies exactly its content: two JSON values
    receive the same [hashFlowValue] when they differ only in the order of object
    properties and the sign of zero, and otherwise only if SHA-256 collides on
    their two different canonical texts. *)
Theorem hashFlowValue_identity `{Sha256} (v w : jsval) (h : jstr) :
  val_ok v -> val_ok w -> hashFlowValue v = Some h ->
  (norm v = norm w -> hashFlowValue w = Some h) /\
  (hashFlowValue w = Some h -> norm v = norm w \/ collision).
Proof.
  intros Hv Hw Eh. split; [|by apply hashFlowValue_inj].
  intros Hn. unfold hashFlowValue in *. by rewrite <- (canonicalJson_content v w Hn).
Qed.

Lemma hashFlowValue_identity_witness :
  let v := JObj [(js "b", JNum (num_of_Z 1)); (js "a", JArr [JNull; JStr (js "x")])] in
  let w := JObj [(js "a", JArr [JNull; JStr (js "x")]); (js "b", JNum (num_of_Z 1))] in
  @hashFlowValue demo_sha256 v = @hashFlowValue demo_sha256 w.
Proof.
  intros v w. destruct (@hashFlowValue demo_sha256 v) as [h|] eqn:E; [|discriminate E].
  symmetry. refine (proj1 (@hashFlowValue_identity demo_sha256 v w h _ _ E) _).
  - apply val_ok_obj. split; [apply (bool_decide_unpack _); vm_compute; exact I|].
    repeat constructor.
  - apply val_ok_obj. split; [apply (bool_decide_unpack _); vm_compute; exact I|].
    repeat constructor.
  - reflexivity.
Defined.
