(* ===== verification/JsDate.v ===== *)
(** * Dates

    The parts of the JavaScript [Date] object that the sources use: the time value a
    canonical ISO-8601 text denotes. A text [s] is canonical when
    [new Date(Date.parse(s)).toISOString() === s]; [canonical_ms] is [Date.parse] on
    those texts and [None] on all others. *)

From S2P Require Import Prelude JsValue.

Local Open Scope Z_scope.

(** ** Proleptic Gregorian calendar, with day 0 on 1970-01-01 *)

Definition days_from_civil (y m d : Z) : Z :=
  let y := if m <=? 2 then y - 1 else y in
  let era := y / 400 in
  let yoe := y mod 400 in
  let doy := (153 * (if 2 <? m then m - 3 else m + 9) + 2) / 5 + d - 1 in
  let doe := yoe * 365 + yoe / 4 - yoe / 100 + doy in
  era * 146097 + doe - 719468.

Definition civil_from_days (days : Z) : Z * Z * Z :=
  let z := days + 719468 in
  let era := z / 146097 in
  let doe := z mod 146097 in
  let yoe := (doe - doe / 1460 + doe / 36524 - doe / 146096) / 365 in
  let doy := doe - (365 * yoe + yoe / 4 - yoe / 100) in
  let mp := (5 * doy + 2) / 153 in
  let d := doy - (153 * mp + 2) / 5 + 1 in
  let m := if mp <? 10 then mp + 3 else mp - 9 in
  let y := yoe + era * 400 in
  (if m <=? 2 then y + 1 else y, m, d).

(** ** Text *)

(** The last [width] decimal digits of [n]. *)
Fixpoint padded (width : nat) (n : Z) : jstr :=
  match width with
  | O => []
  | S width => padded width (n / 10) ++ [(ch_0 + Z.to_N (n mod 10))%N]
  end.

Definition year_text (y : Z) : jstr :=
  if (0 <=? y) && (y <=? 9999) then padded 4 y
  else (if y <? 0 then ch_minus else ch_plus) :: padded 6 (Z.abs y).

Definition MS_PER_DAY : Z := 86400000.

Definition toISOString (ms : Z) : jstr :=
  let '(y, m, d) := civil_from_days (ms / MS_PER_DAY) in
  let t := ms mod MS_PER_DAY in
  year_text y ++ js "-" ++ padded 2 m ++ js "-" ++ padded 2 d ++ js "T" ++
  padded 2 (t / 3600000) ++ js ":" ++ padded 2 (t / 60000 mod 60) ++ js ":" ++
  padded 2 (t / 1000 mod 60) ++ js "." ++ padded 3 (t mod 1000) ++ js "Z".

(** The number in the [n] characters from position [i]. *)
Definition number_at (s : jstr) (i n : nat) : Z := Z.of_N (undigits (take n (drop i s))).

(** The time value of a text laid out as [toISOString] does; the year takes [w]
    characters. *)
Definition read_fields (year : Z) (w : nat) (s : jstr) : Z :=
  days_from_civil year (number_at s (w + 1) 2) (number_at s (w + 4) 2) * MS_PER_DAY +
  number_at s (w + 7) 2 * 3600000 + number_at s (w + 10) 2 * 60000 +
  number_at s (w + 13) 2 * 1000 + number_at s (w + 16) 3.

Definition MAX_TIME : Z := 8640000000000000.

Definition canonical_ms (s : jstr) : option Z :=
  let ms :=
    match s with
    | c :: r =>
        if (c =? ch_minus)%N then read_fields (- number_at s 1 6) 7 s
        else if (c =? ch_plus)%N then read_fields (number_at s 1 6) 7 s
        else read_fields (number_at s 0 4) 4 s
    | [] => 0
    end in
  if (Z.abs ms <=? MAX_TIME) && (toISOString ms =?s s) then Some ms else None.

(** The value returned is the one whose canonical text was given. *)
Lemma canonical_ms_sound s ms : canonical_ms s = Some ms -> toISOString ms = s /\ Z.abs ms <= MAX_TIME.
Proof.
  unfold canonical_ms. destruct (_ && _) eqn:E; [|done]. intros [= <-].
  apply andb_true_iff in E as [Hle%Z.leb_le Heq%str_eqb_eq]. done.
Qed.

(** Leap days, the epoch, negative years and the limits of the time range. *)
Example canonical_ms_examples :
  canonical_ms (js "1970-01-01T00:00:00.000Z") = Some 0 /\
  canonical_ms (js "2026-01-05T10:00:00.000Z") = Some 1767607200000 /\
  canonical_ms (js "2024-02-29T23:59:59.999Z") = Some 1709251199999 /\
  canonical_ms (js "2023-02-29T00:00:00.000Z") = None /\
  canonical_ms (js "1969-12-31T23:59:59.999Z") = Some (-1) /\
  canonical_ms (js "-000001-01-01T00:00:00.000Z") = Some (-62198755200000) /\
  canonical_ms (js "+275760-09-13T00:00:00.000Z") = Some MAX_TIME /\
  canonical_ms (js "+275760-09-13T00:00:00.001Z") = None /\
  canonical_ms (js "2026-01-05") = None /\
  toISOString 1767607200000 = js "2026-01-05T10:00:00.000Z".
Proof. vm_compute. repeat split. Qed.
