(* ===== verification/Graph.v ===== *)
(** * Worklist reachability

    The queue loop that [validateAgentFlow] (src/web/lib/flow.ts) runs twice, over
    step paths and over graph nodes: a set of reached vertices and a queue; each
    round takes the first vertex of the queue and adds its unreached successors to
    both. The loop is bounded by fuel; [bfs_complete] and [bfs_sound] show that
    fuel for one round per queued or unreached vertex gives exactly the vertices
    reachable from the initial ones. *)

From S2P Require Import Prelude.

Section Bfs.
Context {A : Type} {Adec : EqDecision A}.
Variable succ : A -> list A.

(** The inner [for (const target of targets) if (!reachable.has(target)) ...]. *)
Fixpoint push_new (targets queue reached : list A) : list A * list A :=
  match targets with
  | [] => (queue, reached)
  | t :: targets =>
      if includes t reached then push_new targets queue reached
      else push_new targets (queue ++ [t]) (t :: reached)
  end.

(** The outer [while (queue.length)]. *)
Fixpoint bfs (fuel : nat) (queue reached : list A) : list A :=
  match fuel, queue with
  | S fuel, x :: queue =>
      let '(queue, reached) := push_new (succ x) queue reached in bfs fuel queue reached
  | _, _ => reached
  end.

Definition edge (x y : A) : Prop := y ∈ succ x.

Lemma push_new_spec targets queue reached :
  exists news,
    push_new targets queue reached = (queue ++ news, reverse news ++ reached) /\
    NoDup news /\
    (forall y, y ∈ news <-> y ∈ targets /\ y ∉ reached).
Proof.
  revert queue reached; induction targets as [|t targets IH]; intros queue reached; simpl.
  - exists []. rewrite app_nil_r. split_and!; [done|constructor|set_solver].
  - destruct (includes t reached) eqn:E; to_prop.
    + destruct (IH queue reached) as (news & -> & Hnd & Hin). exists news.
      split_and!; [done|done|]. intros y. rewrite Hin. set_solver.
    + destruct (IH (queue ++ [t]) (t :: reached)) as (news & -> & Hnd & Hin).
      exists (t :: news). split_and!.
      * rewrite <- app_assoc. simpl. by rewrite reverse_cons, <- app_assoc.
      * constructor; [rewrite Hin; set_solver|done].
      * intros y. rewrite elem_of_cons, Hin. destruct (decide (y = t)); set_solver.
Qed.

(** Invariant of the loop: the queue holds the reached vertices whose successors
    have not been scanned yet. *)
Definition scanned (queue reached : list A) : Prop :=
  forall x y, x ∈ reached -> x ∉ queue -> edge x y -> y ∈ reached.

Lemma bfs_round x queue reached queue' reached' :
  push_new (succ x) queue reached = (queue', reached') ->
  x ∈ reached -> queue ⊆ reached -> scanned (x :: queue) reached ->
  queue' ⊆ reached' /\ scanned queue' reached' /\ reached ⊆ reached' /\
  (forall y, y ∈ reached' -> y ∈ reached \/ edge x y).
Proof.
  intros H Hx Hq Hs. destruct (push_new_spec (succ x) queue reached) as (news & E & _ & Hin).
  rewrite H in E. injection E as -> ->. split_and!.
  - intros y. rewrite !elem_of_app, elem_of_reverse. set_solver.
  - intros a b. rewrite !elem_of_app, !elem_of_reverse. intros Ha Hn He.
    assert ((a ∉ queue) /\ (a ∉ news)) as [Hnq Hnn] by tauto.
    rewrite (Hin b). destruct (decide (b ∈ reached)) as [|Hb]; [by right|].
    destruct Ha as [Ha|Ha]; [done|]. destruct (decide (a = x)) as [->|Hax].
    + left. split; [exact He|done].
    + right. eapply Hs; [exact Ha| |exact He]. set_solver.
  - intros y. rewrite elem_of_app. by right.
  - intros y. rewrite elem_of_app, elem_of_reverse, Hin. intros [[??]|]; [by right|by left].
Qed.

(** Everything reported is reachable from a vertex of the initial set. *)
Lemma bfs_sound fuel queue reached y :
  queue ⊆ reached -> y ∈ bfs fuel queue reached -> exists x, x ∈ reached /\ rtc edge x y.
Proof.
  revert queue reached; induction fuel as [|fuel IH]; intros [|x queue] reached Hq Hy; simpl in Hy;
    try (by exists y; split; [|apply rtc_refl]).
  destruct (push_new _ _ _) as [queue' reached'] eqn:E.
  assert (x ∈ reached) as Hx by set_solver.
  destruct (push_new_spec (succ x) queue reached) as (news & E' & _ & Hin).
  rewrite E in E'. injection E' as -> ->.
  edestruct IH as (z & Hz & Hzy); [|exact Hy|].
  { intros a. rewrite !elem_of_app, elem_of_reverse. set_solver. }
  rewrite elem_of_app, elem_of_reverse, Hin in Hz. destruct Hz as [[Hz _]|Hz]; [|by exists z].
  exists x. split; [done|]. by eapply rtc_l.
Qed.

(** The initial set is contained in the result. *)
Lemma bfs_contains fuel queue reached : reached ⊆ bfs fuel queue reached.
Proof.
  revert queue reached; induction fuel as [|fuel IH]; intros [|x queue] reached; simpl; try done.
  destruct (push_new_spec (succ x) queue reached) as (news & -> & _).
  intros y Hy. apply IH. apply elem_of_app. by right.
Qed.

(** Enough fuel: one round per queued vertex and per vertex of the universe [U]
    not reached yet. *)
Definition unreached (U reached : list A) : list A :=
  List.filter (fun y => negb (includes y reached)) U.

Lemma unreached_news U reached news :
  NoDup news -> (forall y, y ∈ news -> y ∈ U /\ y ∉ reached) ->
  (length news + length (unreached U (reverse news ++ reached)) <= length (unreached U reached))%nat.
Proof.
  intros Hnd Hin.
  assert (forall l, unreached l (reverse news ++ reached) =
    List.filter (fun y => negb (includes y news)) (unreached l reached)) as Hf.
  { intros l. unfold unreached. induction l as [|y l IH]; simpl; [done|].
    destruct (includes y reached) eqn:E1; simpl; [|destruct (includes y news) eqn:E2; simpl].
    - rewrite (proj2 (includes_iff y _)); [done|]. to_prop. apply elem_of_app. by right.
    - rewrite (proj2 (includes_iff y _)); [done|]. to_prop. apply elem_of_app. left.
      by apply elem_of_reverse.
    - rewrite (proj2 (includes_false y _)); [simpl; by rewrite IH|]. to_prop.
      rewrite elem_of_app, elem_of_reverse. tauto. }
  rewrite Hf. assert (forall y, y ∈ news -> y ∈ unreached U reached) as Hsub.
  { intros y Hy. destruct (Hin y Hy) as [HU Hr]. unfold unreached.
    apply list_elem_of_In, filter_In. split; [by apply list_elem_of_In|].
    apply negb_true_iff. by apply includes_false. }
  revert Hsub. generalize (unreached U reached). clear -Hnd. intros l Hsub.
  assert (length (List.filter (fun y => includes y news) l) +
          length (List.filter (fun y => negb (includes y news)) l) = length l)%nat as <-.
  { clear. induction l as [|y l IH]; simpl; [done|]. destruct (includes y news); simpl; lia. }
  enough (length news <= length (List.filter (fun y => includes y news) l))%nat by lia.
  apply submseteq_length. apply NoDup_submseteq; [done|]. intros y Hy.
  apply list_elem_of_In, filter_In. split; [apply list_elem_of_In; auto|by apply includes_iff].
Qed.

Lemma bfs_complete fuel queue reached U :
  (forall x y, edge x y -> y ∈ U) ->
  (length queue + length (unreached U reached) <= fuel)%nat ->
  queue ⊆ reached -> scanned queue reached ->
  forall x y, x ∈ reached -> rtc edge x y -> y ∈ bfs fuel queue reached.
Proof.
  intros HU. revert queue reached; induction fuel as [|fuel IH]; intros [|x queue] reached Hf Hq Hs;
    simpl in Hf; try lia.
  - simpl. intros a b Ha Hab. induction Hab as [|a b c He _ IHab]; [done|].
    apply IHab. eapply Hs; [exact Ha|set_solver|exact He].
  - simpl. intros a b Ha Hab. induction Hab as [|a b c He _ IHab]; [done|].
    apply IHab. eapply Hs; [exact Ha|set_solver|exact He].
  - cbn [bfs]. destruct (push_new _ _ _) as [queue' reached'] eqn:E.
    assert (x ∈ reached) as Hx by set_solver.
    destruct (bfs_round x queue reached queue' reached' E Hx) as (Hq' & Hs' & Hsub & _);
      [set_solver|done|].
    intros a b Ha Hab. eapply (IH queue' reached'); [|done|done|by apply Hsub|exact Hab].
    destruct (push_new_spec (succ x) queue reached) as (news & E' & Hnd & Hin).
    rewrite E in E'. injection E' as -> ->. rewrite length_app.
    pose proof (unreached_news U reached news Hnd). unshelve epose proof (H _) as Hl.
    { intros y Hy. apply Hin in Hy as [He Hr]. split; [by eapply HU|done]. }
    lia.
Qed.
End Bfs.
