(* ===== verification/Flow.v ===== *)
(** * The call-flow model (src/web/lib/flow.ts)

    Data types of a flow, the queries the runtime asks of it, and the semantic
    validator [validateAgentFlow] with the structural normaliser [normalizeFlow].

    Optional array fields that every use reads through [?? []] are plain lists;
    other optional fields are options. A flow is taken after it has the static type
    [AgentFlow]; [AgentFlowSchema_ok] is the rest of the zod schema (patterns,
    bounds, refinements). *)

From S2P Require Import Prelude JsValue JsText Canonical Graph.

(** ** Patterns *)

Definition is_lower (c : N) : bool := (97 <=? c)%N && (c <=? 122)%N.
Definition is_upper (c : N) : bool := (65 <=? c)%N && (c <=? 90)%N.
Definition is_alnum (c : N) : bool := is_lower c || is_upper c || is_digit c.
Definition one_of (s : string) (c : N) : bool := includes c (js s).

(** [/^[a-z][a-z0-9_.-]{1,63}$/] *)
Definition TOOL_NAME (s : jstr) : bool :=
  match s with
  | c :: r =>
      is_lower c && (1 <=? length r)%nat && (length r <=? 63)%nat &&
      forallb (fun c => is_lower c || is_digit c || one_of "_.-" c) r
  | [] => false
  end.

(** [/^[A-Za-z0-9_-]{1,64}$/] *)
Definition FLOW_PATH_SEGMENT (s : jstr) : bool :=
  (1 <=? length s)%nat && (length s <=? 64)%nat && forallb (fun c => is_alnum c || one_of "_-" c) s.

(** [/^[A-Za-z_][A-Za-z0-9_-]{0,63}$/] *)
Definition ARGUMENT_NAME (s : jstr) : bool :=
  match s with
  | c :: r =>
      (is_lower c || is_upper c || one_of "_" c) && (length r <=? 63)%nat &&
      forallb (fun c => is_alnum c || one_of "_-" c) r
  | [] => false
  end.

Definition UNSAFE_OUTPUT_KEYS : list jstr :=
  js <$> ["__proto__"; "prototype"; "constructor"]%string.

(** ** Data *)

Inductive Operator : Type := OpEquals | OpNotEquals | OpExists | OpIn.

Record FlowCondition := {
  c_output : jstr;
  c_operator : Operator;
  c_value : option jsval;
}.

Record FlowTransition := {
  t_to : jstr;
  t_label : option jstr;
  t_when : option jstr;
  t_condition : option FlowCondition;
}.

Inductive ValueType : Type := VString | VNumber | VBoolean | VObject | VArray.

Record FlowOutputBinding := {
  ob_output : jstr;
  ob_tool : jstr;
  ob_result_path : jstr;
  ob_value_type : option ValueType;
}.

Record FlowBoundArgument := {
  ba_argument : jstr;
  ba_source_tool : jstr;
  ba_result_path : jstr;
}.

Inductive Idempotency : Type := IdNone | PerStep | PerArguments | PerCall | PerCallArguments.
Inductive Effect : Type := EffectRead | EffectWrite | EffectOpaque.

#[export] Instance idempotency_eq_dec : EqDecision Idempotency.
Proof. solve_decision. Defined.
#[export] Instance effect_eq_dec : EqDecision Effect.
Proof. solve_decision. Defined.

Record FlowActionPolicy := {
  ap_tool : jstr;
  ap_max_calls : option Z;
  ap_idempotency : option Idempotency;
  ap_effect : option Effect;
  ap_reconciliation : option jsval;
  ap_bound_arguments : list FlowBoundArgument;
}.

Record FlowStepFields := {
  s_id : jstr;
  s_label : jstr;
  s_instructions : jstr;
  s_context : option jstr;
  s_entry : option bool;
  s_tools : list jstr;
  s_required_outputs : list jstr;
  s_output_bindings : list FlowOutputBinding;
  s_action_policies : list FlowActionPolicy;
  s_success_criteria : list jstr;
  s_transitions : list FlowTransition;
  s_on_failure : option jstr;
  s_max_attempts : option Z;
  s_checkpoint : option bool;
}.

Inductive FlowStep : Type := mkFlowStep (fields : FlowStepFields) (steps : list FlowStep).

Definition fields_of (s : FlowStep) : FlowStepFields := let 'mkFlowStep f _ := s in f.
Definition steps_of (s : FlowStep) : list FlowStep := let 'mkFlowStep _ l := s in l.
Coercion fields_of : FlowStep >-> FlowStepFields.

Inductive NodeKind : Type :=
| KIncomingCall | KTopic | KFallback | KStart | KState | KTool | KDecision | KEnd.

#[export] Instance node_kind_eq_dec : EqDecision NodeKind.
Proof. solve_decision. Defined.

Record FlowNode := {
  n_id : jstr;
  n_label : jstr;
  n_kind : NodeKind;
  n_icon : option jstr;
  n_active : option bool;
  n_context : option jstr;
  n_steps : list FlowStep;
  n_support_number : option jstr;
  n_table : option jstr;
  n_tools : list jstr;
}.

Record FlowEdge := {
  e_from : jstr;
  e_to : jstr;
  e_label : option jstr;
  e_when : option jstr;
}.

Inductive ToolExposure : Type := Gateway | Direct.

#[export] Instance tool_exposure_eq_dec : EqDecision ToolExposure.
Proof. solve_decision. Defined.

Record AgentFlow := {
  f_schema_version : option Z;
  f_always_tools : option (list jstr);
  f_always_action_policies : list FlowActionPolicy;
  f_tool_exposure : option ToolExposure;
  f_max_step_entries : option Z;
  f_nodes : list FlowNode;
  f_edges : list FlowEdge;
}.

Definition is_v2 (flow : AgentFlow) : bool := bool_decide (f_schema_version flow = Some 2%Z).

(** ** The schema beyond the static types *)

Definition nonempty (s : jstr) : bool := (1 <=? length s)%nat.
Definition opt_all {A} (p : A -> bool) (o : option A) : bool :=
  match o with Some a => p a | None => true end.

Definition is_array (v : jsval) : bool := match v with JArr _ => true | _ => false end.

Definition FlowTransitionSchema_ok (t : FlowTransition) : bool :=
  nonempty (t_to t) && opt_all nonempty (t_label t) && opt_all nonempty (t_when t) &&
  opt_all (fun c =>
    nonempty (c_output c) &&
    match c_operator c with
    | OpExists => true
    | OpIn => match c_value c with Some v => is_array v | None => false end
    | _ => match c_value c with Some JUndefined | None => false | Some _ => true end
    end) (t_condition t).

Definition FlowBoundArgumentSchema_ok (b : FlowBoundArgument) : bool :=
  ARGUMENT_NAME (ba_argument b) && TOOL_NAME (ba_source_tool b) &&
  nonempty (ba_result_path b) && (length (ba_result_path b) <=? 512)%nat.

Definition FlowActionPolicySchema_ok (p : FlowActionPolicy) : bool :=
  TOOL_NAME (ap_tool p) && opt_all (fun m => (1 <=? m)%Z && (m <=? 100)%Z) (ap_max_calls p) &&
  opt_all (fun v => match v with JObj _ => true | _ => false end) (ap_reconciliation p) &&
  forallb FlowBoundArgumentSchema_ok (ap_bound_arguments p) &&
  (length (ap_bound_arguments p) <=? 64)%nat.

Definition FlowOutputBindingSchema_ok (b : FlowOutputBinding) : bool :=
  nonempty (ob_output b) && TOOL_NAME (ob_tool b) && nonempty (ob_result_path b).

Fixpoint FlowStepSchema_ok (s : FlowStep) : bool :=
  nonempty (s_id s) && nonempty (s_label s) && nonempty (s_instructions s) &&
  opt_all nonempty (s_context s) && forallb TOOL_NAME (s_tools s) &&
  forallb nonempty (s_required_outputs s) &&
  forallb FlowOutputBindingSchema_ok (s_output_bindings s) &&
  forallb FlowActionPolicySchema_ok (s_action_policies s) &&
  forallb nonempty (s_success_criteria s) && forallb FlowTransitionSchema_ok (s_transitions s) &&
  opt_all nonempty (s_on_failure s) &&
  opt_all (fun m => (1 <=? m)%Z && (m <=? 10)%Z) (s_max_attempts s) &&
  forallb FlowStepSchema_ok (steps_of s).

Definition FlowNodeSchema_ok (n : FlowNode) : bool :=
  forallb FlowStepSchema_ok (n_steps n) && forallb TOOL_NAME (n_tools n).

Definition AgentFlowSchema_ok (flow : AgentFlow) : bool :=
  opt_all (fun v => (v =? 1)%Z || (v =? 2)%Z) (f_schema_version flow) &&
  opt_all (forallb TOOL_NAME) (f_always_tools flow) &&
  forallb FlowActionPolicySchema_ok (f_always_action_policies flow) &&
  opt_all (fun m => (1 <=? m)%Z && (m <=? 10000)%Z) (f_max_step_entries flow) &&
  forallb FlowNodeSchema_ok (f_nodes flow) &&
  let version := default 1%Z (f_schema_version flow) in
  let exposure := default (if (version =? 2)%Z then Gateway else Direct) (f_tool_exposure flow) in
  negb (((version =? 2)%Z && bool_decide (exposure <> Gateway)) ||
        (negb (version =? 2)%Z && bool_decide (exposure <> Direct))).

(** ** Queries *)

Definition flowToolExposure (flow : AgentFlow) : ToolExposure :=
  default (if is_v2 flow then Gateway else Direct) (f_tool_exposure flow).

Definition DEFAULT_ALWAYS_TOOLS : list jstr :=
  js <$> ["contact_support"; "log_note"; "end_call"]%string.

Definition simple_policy (tool : string) (max_calls : Z) (mode : Idempotency) : FlowActionPolicy :=
  {| ap_tool := js tool; ap_max_calls := Some max_calls; ap_idempotency := Some mode;
     ap_effect := None; ap_reconciliation := None; ap_bound_arguments := [] |}.

Definition DEFAULT_ALWAYS_ACTION_POLICIES : list FlowActionPolicy :=
  [simple_policy "contact_support" 1 PerCall;
   simple_policy "log_note" 100 PerCallArguments;
   simple_policy "end_call" 1 PerCall].

Definition alwaysTools (flow : AgentFlow) : list jstr :=
  uniq (default DEFAULT_ALWAYS_TOOLS (f_always_tools flow)).

Definition alwaysActionPolicies (flow : AgentFlow) : list FlowActionPolicy :=
  let granted := alwaysTools flow in
  let explicit := spread [] ((fun p => (ap_tool p, p)) <$> f_always_action_policies flow) in
  List.filter (fun p => includes (ap_tool p) granted && negb (has_own (ap_tool p) explicit))
    DEFAULT_ALWAYS_ACTION_POLICIES ++ explicit.*2.

Record StepRef := {
  r_path : jstr;
  r_nodeId : jstr;
  r_step : FlowStep;
  r_ancestors : list FlowStep;
}.

Definition dotted (a b : jstr) : jstr := a ++ ch_dot :: b.

(** The [visit] closure of [listStepRefs] on one step. *)
Fixpoint visit (nodeId parentPath : jstr) (ancestors : list FlowStep) (step : FlowStep) : list StepRef :=
  let path := dotted parentPath (s_id (fields_of step)) in
  {| r_path := path; r_nodeId := nodeId; r_step := step; r_ancestors := ancestors |} ::
  match step with
  | mkFlowStep _ steps => flat_map (visit nodeId path (ancestors ++ [step])) steps
  end.

Definition listStepRefs (flow : AgentFlow) : list StepRef :=
  flat_map (fun node => flat_map (visit (n_id node) (n_id node) []) (n_steps node)) (f_nodes flow).

Definition findStep (flow : AgentFlow) (path : jstr) : option StepRef :=
  List.find (fun ref => r_path ref =?s path) (listStepRefs flow).

Definition findPolicy (tool : jstr) (l : list FlowActionPolicy) : option FlowActionPolicy :=
  List.find (fun p => ap_tool p =?s tool) l.

(** [a ?? b] *)
Definition coalesce {A} (a b : option A) : option A := match a with Some _ => a | None => b end.

Definition actionPolicyFor (flow : AgentFlow) (stepPath tool : jstr) : option FlowActionPolicy :=
  coalesce (ref ← findStep flow stepPath; findPolicy tool (s_action_policies (r_step ref)))
    (findPolicy tool (alwaysActionPolicies flow)).

(** Targets a step can hand over to. *)
Definition step_targets (step : FlowStep) : list jstr :=
  (t_to <$> s_transitions step) ++ option_list (truthy (s_on_failure step)).

Definition topic_roots (flow : AgentFlow) (nodeId : jstr) : list StepRef :=
  List.filter (fun ref => (r_nodeId ref =?s nodeId) && bool_decide (r_ancestors ref = []))
    (listStepRefs flow).

Definition topicEntryStepPaths (flow : AgentFlow) (nodeId : jstr) : list jstr :=
  let roots := topic_roots flow nodeId in
  if existsb (fun ref => bool_decide (s_entry (r_step ref) <> None)) roots then
    r_path <$> List.filter (fun ref => bool_decide (s_entry (r_step ref) = Some true)) roots
  else
    let targets := flat_map (fun ref => step_targets (r_step ref)) (listStepRefs flow) in
    r_path <$> List.filter (fun ref => negb (includes (r_path ref) targets)) roots.

Definition topicNodes (flow : AgentFlow) : list FlowNode :=
  let topics := List.filter (fun n => bool_decide (n_kind n = KTopic)) (f_nodes flow) in
  if is_v2 flow then
    List.filter (fun n => bool_decide (topicEntryStepPaths flow (n_id n) <> [])) topics
  else topics.

Definition fallbackNode (flow : AgentFlow) : option FlowNode :=
  List.find (fun n => bool_decide (n_kind n = KFallback)) (f_nodes flow).

(** ** The step tree

    [visit] lists exactly the steps reachable from the roots by [child_of]; facts
    about all steps are proved by induction along that relation. *)

Definition root_ref (node : FlowNode) (step : FlowStep) : StepRef :=
  {| r_path := dotted (n_id node) (s_id step); r_nodeId := n_id node; r_step := step;
     r_ancestors := [] |}.

Definition child_ref (ref : StepRef) (step : FlowStep) : StepRef :=
  {| r_path := dotted (r_path ref) (s_id step); r_nodeId := r_nodeId ref; r_step := step;
     r_ancestors := r_ancestors ref ++ [r_step ref] |}.

Definition child_of (ref ref' : StepRef) : Prop :=
  exists step, step ∈ steps_of (r_step ref) /\ ref' = child_ref ref step.

Section StepInduction.
Variable P : FlowStep -> Prop.
Hypothesis step_case : forall f steps, Forall P steps -> P (mkFlowStep f steps).

Fixpoint FlowStep_ind' (s : FlowStep) : P s :=
  match s with
  | mkFlowStep f steps =>
      step_case f steps
        ((fix go l : Forall P l :=
            match l with
            | [] => List.Forall_nil P
            | s :: l => List.Forall_cons P s l (FlowStep_ind' s) (go l)
            end) steps)
  end.
End StepInduction.

Lemma visit_spec nodeId parent anc step ref :
  ref ∈ visit nodeId parent anc step <->
  rtc child_of {| r_path := dotted parent (s_id step); r_nodeId := nodeId; r_step := step;
                  r_ancestors := anc |} ref.
Proof.
  revert parent anc. induction step as [f steps IH] using FlowStep_ind'. intros parent anc.
  cbn [visit]. rewrite elem_of_cons, elem_of_flat_map. rewrite Forall_forall in IH. split.
  - intros [->|(s & Hs & Hr)]; [apply rtc_refl|].
    apply IH in Hr; [|done]. eapply rtc_l; [|exact Hr]. by exists s.
  - intros Hr. apply rtc_inv in Hr as [->|(r' & (s & Hs & ->) & Hr)]; [by left|].
    right. exists s. split; [done|]. by apply IH.
Qed.

Lemma listStepRefs_spec flow ref :
  ref ∈ listStepRefs flow <->
  exists node step, node ∈ f_nodes flow /\ step ∈ n_steps node /\ rtc child_of (root_ref node step) ref.
Proof.
  unfold listStepRefs. rewrite elem_of_flat_map. setoid_rewrite elem_of_flat_map.
  setoid_rewrite visit_spec. naive_solver.
Qed.

(** Rule induction over the steps of a flow. *)
Lemma step_refs_ind (flow : AgentFlow) (P : StepRef -> Prop) :
  (forall node step, node ∈ f_nodes flow -> step ∈ n_steps node -> P (root_ref node step)) ->
  (forall ref step, ref ∈ listStepRefs flow -> P ref -> step ∈ steps_of (r_step ref) ->
     P (child_ref ref step)) ->
  forall ref, ref ∈ listStepRefs flow -> P ref.
Proof.
  intros Hroot Hchild ref (node & step & Hn & Hs & Hr)%listStepRefs_spec.
  refine (rtc_ind_r (R := child_of) P (root_ref node step) _ _ ref Hr); [by apply Hroot|].
  intros r r' Hr0 (s & Hs' & ->) Hp. apply Hchild; try done.
  apply listStepRefs_spec. by exists node, step.
Qed.

Lemma findStep_spec flow path ref :
  findStep flow path = Some ref -> ref ∈ listStepRefs flow /\ r_path ref = path.
Proof. intros [Hin Hp]%find_elem. split; [done | by apply str_eqb_eq]. Qed.

Lemma node_schema flow node :
  AgentFlowSchema_ok flow = true -> node ∈ f_nodes flow -> FlowNodeSchema_ok node = true.
Proof.
  unfold AgentFlowSchema_ok. intros Hok Hn. to_prop.
  by match goal with H : forallb FlowNodeSchema_ok _ = true |- _ => rewrite forallb_elem in H; apply H end.
Qed.

Lemma step_schema flow ref :
  AgentFlowSchema_ok flow = true -> ref ∈ listStepRefs flow ->
  FlowStepSchema_ok (r_step ref) = true /\
  Forall (fun s => FlowStepSchema_ok s = true) (r_ancestors ref).
Proof.
  intros Hok. revert ref. apply step_refs_ind.
  - intros node step Hn Hs. split; [|constructor].
    pose proof (node_schema _ _ Hok Hn) as [Hsteps _]%andb_true_iff.
    rewrite forallb_elem in Hsteps. by apply Hsteps.
  - intros ref step _ [Hs Ha] Hin. simpl. split; [|apply Forall_app; by repeat constructor].
    destruct (r_step ref) as [f steps]. cbn [FlowStepSchema_ok] in Hs.
    apply andb_true_iff in Hs as [_ Hs]. rewrite forallb_elem in Hs. by apply Hs.
Qed.

Lemma step_tools_names step :
  FlowStepSchema_ok step = true -> Forall (fun t => TOOL_NAME t = true) (s_tools step).
Proof.
  destruct step as [f steps]. cbn [FlowStepSchema_ok fields_of]. intros. to_prop.
  by apply Forall_forall, forallb_elem.
Qed.

Lemma alwaysTools_names flow tool :
  AgentFlowSchema_ok flow = true -> tool ∈ alwaysTools flow -> TOOL_NAME tool = true.
Proof.
  unfold AgentFlowSchema_ok, alwaysTools. rewrite elem_of_uniq. intros Hok Hin. to_prop.
  destruct (f_always_tools flow) as [l|]; simpl in Hin.
  - cbn [opt_all] in *. by match goal with
      H : forallb TOOL_NAME l = true |- _ => rewrite forallb_elem in H; apply H end.
  - assert (forallb TOOL_NAME DEFAULT_ALWAYS_TOOLS = true) as Hd by (vm_compute; reflexivity).
    rewrite forallb_elem in Hd. by apply Hd.
Qed.
