(* ===== verification/FlowValidate.v ===== *)
(** * Flow validation (src/web/lib/flow.ts: [validateAgentFlow], [normalizeFlow])

    Diagnostics are listed in the order the source pushes them. A message is a
    constructor with the values it interpolates. When the zod schema rejects the
    input, the source returns zod's issue list; here one [SchemaIssue] diagnostic
    stands for it. *)

From S2P Require Import Prelude JsValue JsText Canonical Graph Flow.

Inductive Level : Type := LError | LWarning.

#[export] Instance level_eq_dec : EqDecision Level.
Proof. solve_decision. Defined.

Inductive Message : Type :=
| SchemaIssue
| DuplicateNodeId (id : jstr)
| BadNodeId
| UnknownNode (id : jstr)
| EntryCount (n : nat)
| NoTopic
| DuplicateGlobalPolicy (tool : jstr)
| GlobalPolicyNotGranted (tool : jstr)
| BadReconciliation
| GlobalBoundArguments
| DuplicateStepPath (path : jstr)
| BadStepId
| TooDeep
| NestedEntry
| DuplicateRequiredOutput (output : jstr)
| UnsafeOutputKey (output : jstr)
| DuplicateOutputBinding (output : jstr)
| BindingToolNotGranted (tool : jstr)
| DuplicateActionPolicy (tool : jstr)
| PolicyToolNotGranted (tool : jstr)
| BoundArgumentsNeedV2
| DuplicateBoundArgument (argument : jstr)
| UnsafeBoundArgument (argument : jstr)
| BoundSourceNotGranted (tool : jstr)
| UnsafeResultPath (path : jstr)
| TransitionUnknown (to : jstr)
| TransitionUnsafeKey (output : jstr)
| ModelAuthoredBranch (output : jstr)
| FailureUnknown (target : jstr)
| TopicWithoutSteps
| TopicWithoutEntry
| StepUnreachable
| NodeUnreachable.

Record FlowDiagnostic := {
  d_level : Level;
  d_path : jstr;
  d_message : Message;
}.

Definition error_at (path : jstr) (m : Message) : FlowDiagnostic :=
  {| d_level := LError; d_path := path; d_message := m |}.
Definition warning_at (path : jstr) (m : Message) : FlowDiagnostic :=
  {| d_level := LWarning; d_path := path; d_message := m |}.

Definition push_if {A} (b : bool) (x : A) : list A := if b then [x] else [].

(** Dotted diagnostic paths such as [nodes.3.id]. *)
Definition nat_text (n : nat) : jstr := digits (N.of_nat n).
Definition at_path (parts : list jstr) : jstr :=
  match parts with
  | [] => []
  | p :: ps => fold_left dotted ps p
  end.

(** A loop over [list.entries()] that keeps a Set of the keys seen so far; the body
    is given the index, whether the key was seen before, and the element. *)
Fixpoint loop_seen {A B} (key : A -> jstr) (body : nat -> bool -> A -> list B)
    (i : nat) (seen : list jstr) (l : list A) : list B :=
  match l with
  | [] => []
  | x :: l => body i (includes (key x) seen) x ++ loop_seen key body (S i) (key x :: seen) l
  end.
Definition for_each {A B} (key : A -> jstr) (body : nat -> bool -> A -> list B) (l : list A) : list B :=
  loop_seen key body 0 [] l.

Definition unsafe_key (k : jstr) : bool := includes k UNSAFE_OUTPUT_KEYS.

(** [policy.reconciliation !== undefined && (!policy.effect || policy.effect === "read" ||
    !policy.idempotency || policy.idempotency === "none")] *)
Definition bad_reconciliation (p : FlowActionPolicy) : bool :=
  bool_decide (ap_reconciliation p <> None) &&
  (match ap_effect p with None | Some EffectRead => true | _ => false end ||
   match ap_idempotency p with None | Some IdNone => true | _ => false end).

(** [path.split(".")] *)
Fixpoint split_dots (s : jstr) : list jstr :=
  match s with
  | [] => [[]]
  | c :: s =>
      if (c =? ch_dot)%N then [] :: split_dots s
      else match split_dots s with
           | [] => [[c]]
           | seg :: segs => (c :: seg) :: segs
           end
  end.

(** [path.replace(/^\$\.?/, "")] *)
Definition strip_root (path : jstr) : jstr :=
  match path with
  | 36%N :: 46%N :: r => r
  | 36%N :: r => r
  | _ => path
  end.

Definition check_nodes (flow : AgentFlow) : list FlowDiagnostic :=
  for_each n_id (fun i dup node =>
    let path := at_path [js "nodes"; nat_text i; js "id"] in
    push_if dup (error_at path (DuplicateNodeId (n_id node))) ++
    push_if (is_v2 flow && negb (FLOW_PATH_SEGMENT (n_id node))) (error_at path BadNodeId))
    (f_nodes flow).

Definition check_edges (flow : AgentFlow) : list FlowDiagnostic :=
  let nodeIds := n_id <$> f_nodes flow in
  for_each e_from (fun i _ edge =>
    push_if (negb (includes (e_from edge) nodeIds))
      (error_at (at_path [js "edges"; nat_text i; js "from"]) (UnknownNode (e_from edge))) ++
    push_if (negb (includes (e_to edge) nodeIds))
      (error_at (at_path [js "edges"; nat_text i; js "to"]) (UnknownNode (e_to edge))))
    (f_edges flow).

Definition entry_nodes (flow : AgentFlow) : list FlowNode :=
  List.filter (fun n => bool_decide (n_kind n = KIncomingCall) || bool_decide (n_kind n = KStart))
    (f_nodes flow).
Definition is_topic (n : FlowNode) : bool := bool_decide (n_kind n = KTopic).

Definition check_entries (flow : AgentFlow) : list FlowDiagnostic :=
  push_if (negb (length (entry_nodes flow) =? 1)%nat)
    (error_at (js "nodes") (EntryCount (length (entry_nodes flow)))) ++
  push_if (negb (existsb is_topic (f_nodes flow))) (error_at (js "nodes") NoTopic).

Definition check_global_policies (flow : AgentFlow) : list FlowDiagnostic :=
  for_each ap_tool (fun i dup p =>
    let at_field f := at_path [js "always_action_policies"; nat_text i; js f] in
    push_if dup (error_at (at_field "tool") (DuplicateGlobalPolicy (ap_tool p))) ++
    push_if (negb (includes (ap_tool p) (alwaysTools flow)))
      (error_at (at_field "tool") (GlobalPolicyNotGranted (ap_tool p))) ++
    push_if (bad_reconciliation p) (error_at (at_field "reconciliation") BadReconciliation) ++
    push_if (bool_decide (ap_bound_arguments p <> []))
      (error_at (at_field "bound_arguments") GlobalBoundArguments))
    (f_always_action_policies flow).

(** Tools a step may use: global, topic, ancestors' and its own. *)
Definition step_granted (flow : AgentFlow) (ref : StepRef) : list jstr :=
  let node := List.find (fun n => n_id n =?s r_nodeId ref) (f_nodes flow) in
  alwaysTools flow ++ from_option n_tools [] node ++
  flat_map (fun a => s_tools (fields_of a)) (r_ancestors ref) ++ s_tools (r_step ref).

Definition check_required (ref : StepRef) : list FlowDiagnostic :=
  for_each (fun o => o) (fun i dup output =>
    let path := at_path [r_path ref; js "required_outputs"; nat_text i] in
    push_if dup (error_at path (DuplicateRequiredOutput output)) ++
    push_if (unsafe_key output) (error_at path (UnsafeOutputKey output)))
    (s_required_outputs (r_step ref)).

Definition check_bindings (granted : list jstr) (ref : StepRef) : list FlowDiagnostic :=
  for_each ob_output (fun i dup b =>
    let at_field f := at_path [r_path ref; js "output_bindings"; nat_text i; js f] in
    push_if dup (error_at (at_field "output") (DuplicateOutputBinding (ob_output b))) ++
    push_if (unsafe_key (ob_output b)) (error_at (at_field "output") (UnsafeOutputKey (ob_output b))) ++
    push_if (negb (includes (ob_tool b) granted))
      (error_at (at_field "tool") (BindingToolNotGranted (ob_tool b))))
    (s_output_bindings (r_step ref)).

Definition check_bound_arguments (granted : list jstr) (path : jstr) (p : FlowActionPolicy)
  : list FlowDiagnostic :=
  for_each ba_argument (fun i dup b =>
    let at_field f := at_path [path; js "bound_arguments"; nat_text i; js f] in
    let segments := if ba_result_path b =?s js "$" then []
                    else split_dots (strip_root (ba_result_path b)) in
    push_if dup (error_at (at_field "argument") (DuplicateBoundArgument (ba_argument b))) ++
    push_if (unsafe_key (ba_argument b))
      (error_at (at_field "argument") (UnsafeBoundArgument (ba_argument b))) ++
    push_if (negb (includes (ba_source_tool b) granted))
      (error_at (at_field "source.tool") (BoundSourceNotGranted (ba_source_tool b))) ++
    push_if (existsb (fun seg => bool_decide (seg = []) || unsafe_key seg) segments)
      (error_at (at_field "source.result_path") (UnsafeResultPath (ba_result_path b))))
    (ap_bound_arguments p).

Definition check_policies (flow : AgentFlow) (granted : list jstr) (ref : StepRef)
  : list FlowDiagnostic :=
  for_each ap_tool (fun i dup p =>
    let path := at_path [r_path ref; js "action_policies"; nat_text i] in
    push_if dup (error_at (dotted path (js "tool")) (DuplicateActionPolicy (ap_tool p))) ++
    push_if (negb (includes (ap_tool p) granted))
      (error_at (dotted path (js "tool")) (PolicyToolNotGranted (ap_tool p))) ++
    push_if (bad_reconciliation p) (error_at (dotted path (js "reconciliation")) BadReconciliation) ++
    push_if (bool_decide (ap_bound_arguments p <> []) && negb (is_v2 flow))
      (error_at (dotted path (js "bound_arguments")) BoundArgumentsNeedV2) ++
    check_bound_arguments granted path p)
    (s_action_policies (r_step ref)).

Definition check_transitions (stepPaths : list jstr) (ref : StepRef) : list FlowDiagnostic :=
  let path := dotted (r_path ref) (js "transitions") in
  let bindingOutputs := ob_output <$> s_output_bindings (r_step ref) in
  flat_map (fun t =>
    push_if (negb (includes (t_to t) stepPaths)) (error_at path (TransitionUnknown (t_to t))) ++
    match t_condition t with
    | None => []
    | Some c =>
        push_if (unsafe_key (c_output c)) (error_at path (TransitionUnsafeKey (c_output c))) ++
        push_if (negb (includes (c_output c) bindingOutputs))
          (warning_at path (ModelAuthoredBranch (c_output c)))
    end) (s_transitions (r_step ref)).

Definition check_failure (stepPaths : list jstr) (ref : StepRef) : list FlowDiagnostic :=
  match truthy (s_on_failure (r_step ref)) with
  | Some target =>
      push_if (negb (includes target stepPaths))
        (error_at (dotted (r_path ref) (js "on_failure")) (FailureUnknown target))
  | None => []
  end.

(** One iteration of [for (const ref of refs)]. *)
Definition check_ref (flow : AgentFlow) (stepPaths : list jstr) (dup : bool) (ref : StepRef)
  : list FlowDiagnostic :=
  let granted := step_granted flow ref in
  push_if dup (error_at (r_path ref) (DuplicateStepPath (r_path ref))) ++
  push_if (is_v2 flow && negb (FLOW_PATH_SEGMENT (s_id (r_step ref))))
    (error_at (dotted (r_path ref) (js "id")) BadStepId) ++
  push_if (8 <? S (length (r_ancestors ref)))%nat (error_at (r_path ref) TooDeep) ++
  push_if (bool_decide (r_ancestors ref <> []) && bool_decide (s_entry (r_step ref) <> None))
    (error_at (dotted (r_path ref) (js "entry")) NestedEntry) ++
  check_required ref ++ check_bindings granted ref ++ check_policies flow granted ref ++
  check_transitions stepPaths ref ++ check_failure stepPaths ref.

Definition check_steps (flow : AgentFlow) : list FlowDiagnostic :=
  let refs := listStepRefs flow in
  for_each r_path (fun _ dup ref => check_ref flow (r_path <$> refs) dup ref) refs.

(** Flow v2 only: every topic can be entered. *)
Definition check_topic (flow : AgentFlow) (node : FlowNode) : list FlowDiagnostic :=
  let path := at_path [js "nodes"; n_id node; js "steps"] in
  let roots := topic_roots flow (n_id node) in
  if bool_decide (roots = []) then [error_at path TopicWithoutSteps]
  else if bool_decide (topicEntryStepPaths flow (n_id node) <> []) then []
  else
    let inbound := existsb (fun ref =>
      negb (r_nodeId ref =?s n_id node) &&
      existsb (fun target => includes target (r_path <$> roots)) (step_targets (r_step ref)))
      (listStepRefs flow) in
    push_if (negb inbound) (error_at path TopicWithoutEntry).

(** Successors of a step in the reachability loop, restricted to existing paths. *)
Definition step_successors (flow : AgentFlow) (path : jstr) : list jstr :=
  match findStep flow path with
  | None => []
  | Some ref =>
      List.filter (fun target => includes target (r_path <$> listStepRefs flow))
        (((fun child => dotted (r_path ref) (s_id (fields_of child))) <$> steps_of (r_step ref)) ++
         step_targets (r_step ref))
  end.

Definition entry_queue (flow : AgentFlow) : list jstr :=
  flat_map (fun node => topicEntryStepPaths flow (n_id node)) (List.filter is_topic (f_nodes flow)).

(** One round per queued entry and per step is enough for the queue loop. *)
Definition reachableSteps (flow : AgentFlow) : list jstr :=
  let queue := entry_queue flow in
  bfs (step_successors flow) (length queue + length (listStepRefs flow)) queue queue.

Definition check_reachable (flow : AgentFlow) : list FlowDiagnostic :=
  flat_map (fun ref =>
    push_if (negb (includes (r_path ref) (reachableSteps flow)))
      (error_at (r_path ref) StepUnreachable)) (listStepRefs flow).

(** Graph reachability from the single entry node; only warnings. *)
Definition node_successors (flow : AgentFlow) (from : jstr) : list jstr :=
  e_to <$> List.filter (fun e => e_from e =?s from) (f_edges flow).

Definition reachableNodes (flow : AgentFlow) (entry : jstr) : list jstr :=
  bfs (node_successors flow) (S (length (f_edges flow))) [entry] [entry].

Definition check_graph (flow : AgentFlow) : list FlowDiagnostic :=
  match entry_nodes flow with
  | [entry] =>
      flat_map (fun node =>
        push_if (negb (includes (n_id node) (reachableNodes flow (n_id entry))))
          (warning_at (at_path [js "nodes"; n_id node]) NodeUnreachable)) (f_nodes flow)
  | _ => []
  end.

Definition validateAgentFlow (flow : AgentFlow) : option AgentFlow * list FlowDiagnostic :=
  if negb (AgentFlowSchema_ok flow) then (None, [error_at [] SchemaIssue])
  else
    (Some flow,
     check_nodes flow ++ check_edges flow ++ check_entries flow ++ check_global_policies flow ++
     check_steps flow ++
     (if is_v2 flow then
        flat_map (check_topic flow) (List.filter is_topic (f_nodes flow)) ++ check_reachable flow
      else []) ++
     check_graph flow).

Definition errors (ds : list FlowDiagnostic) : list FlowDiagnostic :=
  List.filter (fun d => bool_decide (d_level d = LError)) ds.

(** A flow the validator accepts: it parses and no diagnostic is an error. *)
Definition accepted (flow : AgentFlow) : bool :=
  let '(parsed, ds) := validateAgentFlow flow in
  bool_decide (errors ds = []) && match parsed with Some _ => true | None => false end.

(** ** Normalisation of builder-authored flows

    The source edits the node objects of its argument in place; the model returns
    the edited nodes. *)

Inductive FlowKind : Type := Inbound | Outbound.

Inductive NormalizeError : Type :=
| NeedsTopic
| Invalid (first_errors : list FlowDiagnostic).

Definition to_lower (c : N) : N := if is_upper c then (c + 32)%N else c.

(** [/call/i.test(label)] *)
Fixpoint mentions_call (s : jstr) : bool :=
  bool_decide (to_lower <$> take 4 s = js "call") ||
  match s with [] => false | _ :: s => mentions_call s end.

Definition set_kind (k : NodeKind) (n : FlowNode) : FlowNode :=
  {| n_id := n_id n; n_label := n_label n; n_kind := k; n_icon := n_icon n; n_active := n_active n;
     n_context := n_context n; n_steps := n_steps n; n_support_number := n_support_number n;
     n_table := n_table n; n_tools := n_tools n |}.

Definition set_label (l : jstr) (n : FlowNode) : FlowNode :=
  {| n_id := n_id n; n_label := l; n_kind := n_kind n; n_icon := n_icon n; n_active := n_active n;
     n_context := n_context n; n_steps := n_steps n; n_support_number := n_support_number n;
     n_table := n_table n; n_tools := n_tools n |}.

Definition without_steps (n : FlowNode) : FlowNode :=
  {| n_id := n_id n; n_label := n_label n; n_kind := n_kind n; n_icon := n_icon n;
     n_active := n_active n; n_context := None; n_steps := [];
     n_support_number := n_support_number n; n_table := n_table n; n_tools := n_tools n |}.

Definition plain_node (id label : jstr) (kind : NodeKind) : FlowNode :=
  {| n_id := id; n_label := label; n_kind := kind; n_icon := None; n_active := None;
     n_context := None; n_steps := []; n_support_number := None; n_table := None; n_tools := [] |}.

Definition retype (n : FlowNode) : FlowNode :=
  match n_kind n with
  | KStart => set_kind KIncomingCall n
  | KIncomingCall | KTopic | KFallback => n
  | _ => set_kind KTopic n
  end.

(** The entry node, created in front when the flow has none. *)
Definition with_entry (label : jstr) (nodes : list FlowNode) : FlowNode * nat * list FlowNode :=
  match list_find (fun n => n_kind n = KIncomingCall) nodes with
  | Some (i, n) => (n, i, nodes)
  | None => let n := plain_node (js "entry") label KIncomingCall in (n, 0%nat, n :: nodes)
  end.

(** Steps stashed on the entry node move to a topic node. *)
Definition main_node (entry : FlowNode) : FlowNode :=
  {| n_id := js "main"; n_label := js "Conversation"; n_kind := KTopic; n_icon := None;
     n_active := None; n_context := Some (default (js "The main body of this call.") (n_context entry));
     n_steps := n_steps entry; n_support_number := None; n_table := n_table entry; n_tools := [] |}.

Fixpoint connect (entry : jstr) (nodes : list FlowNode) (edges : list FlowEdge) : list FlowEdge :=
  match nodes with
  | [] => edges
  | n :: nodes =>
      if negb (n_id n =?s entry) && negb (existsb (fun e => e_to e =?s n_id n) edges)
      then connect entry nodes
             (edges ++ [{| e_from := entry; e_to := n_id n; e_label := None; e_when := None |}])
      else connect entry nodes edges
  end.

Definition normalizeFlow (input : AgentFlow) (kind : FlowKind) : result NormalizeError AgentFlow :=
  let entryLabel := match kind with Outbound => js "Outgoing call" | Inbound => js "Incoming call" end in
  let nodes := retype <$> List.filter (fun n => negb (bool_decide (n_kind n = KEnd))) (f_nodes input) in
  let '(entry0, i, nodes) := with_entry entryLabel nodes in
  let entry := if mentions_call (n_label entry0) then entry0 else set_label entryLabel entry0 in
  let nodes := if bool_decide (n_steps entry = []) then <[i := entry]> nodes
               else <[i := without_steps entry]> nodes ++ [main_node entry] in
  raise NeedsTopic when negb (existsb is_topic nodes) ;;
  let ids := n_id <$> nodes in
  let edges := connect (n_id entry) nodes
    (List.filter (fun e => includes (e_from e) ids && includes (e_to e) ids) (f_edges input)) in
  let flow := {| f_schema_version := f_schema_version input; f_always_tools := f_always_tools input;
    f_always_action_policies := f_always_action_policies input;
    f_tool_exposure := f_tool_exposure input; f_max_step_entries := f_max_step_entries input;
    f_nodes := nodes; f_edges := edges |} in
  let errs := errors (validateAgentFlow flow).2 in
  raise Invalid (take 5 errs) when bool_decide (errs <> []) ;;
  Ok flow.

(** ** Dotted paths *)

Lemma split_dots_nonempty s : (1 <= length (split_dots s))%nat.
Proof. destruct s as [|c s]; simpl; [lia|]. destruct (c =? ch_dot)%N; simpl; [lia|]. destruct (split_dots s); simpl; lia. Qed.

Lemma split_dots_dotted a b : split_dots (dotted a b) = split_dots a ++ split_dots b.
Proof.
  unfold dotted. induction a as [|c a IH]; cbn -[N.eqb]; [by rewrite N.eqb_refl|].
  rewrite IH. destruct (c =? ch_dot)%N; [done|].
  pose proof (split_dots_nonempty a). destruct (split_dots a); simpl in *; [lia|done].
Qed.

Lemma fold_dotted_length ps p :
  length (fold_left dotted ps p) = (length p + sum_list_with (fun q => S (length q)) ps)%nat.
Proof.
  revert p; induction ps as [|q ps IH]; intros p; csimpl; [lia|].
  rewrite IH. unfold dotted. rewrite length_app. simpl. lia.
Qed.

Lemma at_path_split s : at_path (split_dots s) = s.
Proof.
  assert (forall ps p c, fold_left dotted ps (c :: p) = c :: fold_left dotted ps p) as Hc.
  { induction ps as [|q ps IH]; intros p c; simpl; [done|]. unfold dotted at 2 4. simpl. apply IH. }
  induction s as [|c s IH]; simpl; [done|].
  pose proof (split_dots_nonempty s) as Hn. destruct (split_dots s) as [|p ps] eqn:E; [simpl in Hn; lia|].
  destruct (c =? ch_dot)%N eqn:Ec; simpl in *.
  - apply N.eqb_eq in Ec as ->. unfold dotted at 2. simpl. by rewrite Hc, IH.
  - by rewrite Hc, IH.
Qed.

Lemma path_prefix_shorter s n :
  (0 < n < length (split_dots s))%nat -> (length (at_path (take n (split_dots s))) < length s)%nat.
Proof.
  intros Hn. rewrite <- (at_path_split s) at 2. destruct (split_dots s) as [|p ps]; simpl in *; [lia|].
  destruct n as [|n]; [lia|]. simpl. rewrite !fold_dotted_length.
  rewrite <- (take_drop n ps) at 2. rewrite sum_list_with_app.
  destruct (drop n ps) as [|q qs] eqn:E; [|csimpl; lia].
  apply (f_equal length) in E. rewrite length_drop in E. simpl in E. lia.
Qed.

Lemma ref_segments flow ref :
  ref ∈ listStepRefs flow -> (length (r_ancestors ref) + 2 <= length (split_dots (r_path ref)))%nat.
Proof.
  revert ref. apply step_refs_ind.
  - intros node step _ _. simpl. rewrite split_dots_dotted, length_app.
    pose proof (split_dots_nonempty (n_id node)). pose proof (split_dots_nonempty (s_id step)). lia.
  - intros ref step _ IH _. simpl. rewrite split_dots_dotted, !length_app. simpl.
    pose proof (split_dots_nonempty (s_id step)). lia.
Qed.
