(* ===== verification/FlowRuntime.v ===== *)
(** * The flow runtime (src/web/lib/flow-runtime.ts)

    The execution state of one call and every operation on it. Operations return
    the next state or a [RuntimeError]; the human-readable text of an error is
    left out, its code and its list of allowed steps are kept. The clock value
    [now] is an argument. *)

From S2P Require Import Prelude JsValue JsText Canonical Graph Flow FlowValidate.

Local Open Scope Z_scope.

Definition MAX_FLOW_ACTION_RECEIPTS_PER_CALL : nat := 512.
Definition MAX_FLOW_ACTION_ARGUMENT_BYTES : Z := 32 * 1024.
Definition MAX_FLOW_ACTION_RESULT_BYTES : Z := 64 * 1024.
Definition MAX_FLOW_ACTION_ERROR_BYTES : Z := 16 * 1024.
Definition MAX_FLOW_HOT_STATE_BYTES : Z := 8 * 1024 * 1024.

(** [/^[A-Za-z0-9_-]{24}$/] *)
Definition FLOW_ACTION_INVOCATION_ID (s : jstr) : bool :=
  (length s =? 24)%nat && forallb (fun c => is_alnum c || one_of "_-" c) s.

(** ** State *)

Inductive ReceiptStatus : Type := Reserved | Succeeded | Failed | Indeterminate.
Inductive FlowStatus : Type := Routing | Active | Completed | FlowFailed.

#[export] Instance receipt_status_eq_dec : EqDecision ReceiptStatus.
Proof. solve_decision. Defined.
#[export] Instance flow_status_eq_dec : EqDecision FlowStatus.
Proof. solve_decision. Defined.

Record FlowActionReceipt := mkReceipt {
  a_id : jstr;
  a_idempotencyKey : jstr;
  a_step : jstr;
  a_tool : jstr;
  a_capabilityEpoch : Z;
  a_arguments : option (obj jsval);
  a_argumentsBytes : option Z;
  a_argumentsCompacted : bool;
  a_argumentsHash : jstr;
  a_invocationId : option jstr;
  a_providerInvocationId : option jstr;
  a_dispatchStartedAt : option jstr;
  a_dispatchAttempt : option Z;
  a_reconciliationProofId : option jstr;
  a_status : ReceiptStatus;
  a_result : option jsval;
  a_resultBytes : option Z;
  a_resultCompacted : bool;
  a_resultHash : option jstr;
  a_error : option jstr;
  a_reservedAt : jstr;
  a_settledAt : option jstr;
}.

Record FlowExecutionState := mkState {
  st_status : FlowStatus;
  st_nodeId : option jstr;
  st_currentStep : option jstr;
  st_completedSteps : list jstr;
  st_stepEntries : option Z;
  st_attempts : obj Z;
  st_outputs : obj (obj jsval);
  st_checkpoints : list (jstr * jstr);
  st_capabilityEpoch : Z;
  st_actionReceipts : list FlowActionReceipt;
  st_revision : Z;
  st_updatedAt : jstr;
}.

Record RuntimeError := mkError { code : string; allowed : option (list jstr) }.

Definition fail (c : string) : RuntimeError := mkError c None.
Definition fail_with (c : string) (a : list jstr) : RuntimeError := mkError c (Some a).

(** ** Serialised size of a state *)

Definition status_text (s : ReceiptStatus) : string :=
  match s with
  | Reserved => "reserved" | Succeeded => "succeeded" | Failed => "failed"
  | Indeterminate => "indeterminate"
  end.
Definition flow_status_text (s : FlowStatus) : string :=
  match s with
  | Routing => "routing" | Active => "active" | Completed => "completed" | FlowFailed => "failed"
  end.

Definition jnat (z : Z) : jsval := JNum (num_of_Z z).
Definition jtext (s : string) : jsval := JStr (js s).

(** An optional property is absent from the object when it is [None]. *)
Definition field (k : string) (v : jsval) : obj jsval := [(js k, v)].
Definition opt_field {A} (k : string) (f : A -> jsval) (o : option A) : obj jsval :=
  match o with Some a => field k (f a) | None => [] end.
Definition flag_field (k : string) (b : bool) : obj jsval := if b then field k (JBool true) else [].

Definition receipt_json (r : FlowActionReceipt) : jsval :=
  JObj (field "id" (JStr (a_id r)) ++ field "idempotencyKey" (JStr (a_idempotencyKey r)) ++
    field "step" (JStr (a_step r)) ++ field "tool" (JStr (a_tool r)) ++
    field "capabilityEpoch" (jnat (a_capabilityEpoch r)) ++
    opt_field "arguments" JObj (a_arguments r) ++ opt_field "argumentsBytes" jnat (a_argumentsBytes r) ++
    flag_field "argumentsCompacted" (a_argumentsCompacted r) ++
    field "argumentsHash" (JStr (a_argumentsHash r)) ++
    opt_field "invocationId" JStr (a_invocationId r) ++
    opt_field "providerInvocationId" JStr (a_providerInvocationId r) ++
    opt_field "dispatchStartedAt" JStr (a_dispatchStartedAt r) ++
    opt_field "dispatchAttempt" jnat (a_dispatchAttempt r) ++
    opt_field "reconciliationProofId" JStr (a_reconciliationProofId r) ++
    field "status" (jtext (status_text (a_status r))) ++
    opt_field "result" (fun v => v) (a_result r) ++ opt_field "resultBytes" jnat (a_resultBytes r) ++
    flag_field "resultCompacted" (a_resultCompacted r) ++
    opt_field "resultHash" JStr (a_resultHash r) ++ opt_field "error" JStr (a_error r) ++
    field "reservedAt" (JStr (a_reservedAt r)) ++ opt_field "settledAt" JStr (a_settledAt r)).

Definition nullable (o : option jstr) : jsval := match o with Some s => JStr s | None => JNull end.

Definition state_json (st : FlowExecutionState) : jsval :=
  JObj (field "version" (jnat 2) ++ field "status" (jtext (flow_status_text (st_status st))) ++
    field "nodeId" (nullable (st_nodeId st)) ++ field "currentStep" (nullable (st_currentStep st)) ++
    field "completedSteps" (JArr (JStr <$> st_completedSteps st)) ++
    opt_field "stepEntries" jnat (st_stepEntries st) ++
    field "attempts" (JObj ((fun kv => (kv.1, jnat kv.2)) <$> st_attempts st)) ++
    field "outputs" (JObj ((fun kv => (kv.1, JObj kv.2)) <$> st_outputs st)) ++
    field "checkpoints" (JArr ((fun c => JObj (field "step" (JStr c.1) ++ field "at" (JStr c.2)))
      <$> st_checkpoints st)) ++
    field "capabilityEpoch" (jnat (st_capabilityEpoch st)) ++
    field "actionReceipts" (JArr (receipt_json <$> st_actionReceipts st)) ++
    field "revision" (jnat (st_revision st)) ++ field "updatedAt" (JStr (st_updatedAt st))).

(** [None]: the state holds a value that is not JSON and the serialiser throws. *)
Definition flowStateStorageBytes (st : FlowExecutionState) : option Z := flowJsonBytes (state_json st).

Definition flowStateBudgetError (st : FlowExecutionState) : option RuntimeError :=
  if (MAX_FLOW_ACTION_RECEIPTS_PER_CALL <? length (st_actionReceipts st))%nat
  then Some (fail "flow_receipt_quota_exceeded")
  else match flowStateStorageBytes st with
       | Some bytes =>
           if MAX_FLOW_HOT_STATE_BYTES <? bytes then Some (fail "flow_state_storage_quota_exceeded")
           else None
       | None => Some (fail "exception")
       end.

(** ** State updates *)

(** [updateState(state, patch, now)]; the patch is a function on the state. *)
Definition updateState (st : FlowExecutionState) (patch : FlowExecutionState -> FlowExecutionState)
    (now : jstr) : FlowExecutionState :=
  let p := patch st in
  mkState (st_status p) (st_nodeId p) (st_currentStep p) (st_completedSteps p) (st_stepEntries p)
    (st_attempts p) (st_outputs p) (st_checkpoints p) (st_capabilityEpoch p) (st_actionReceipts p)
    (st_revision st + 1) now.

Definition bump_epoch (epoch : Z) (p : FlowExecutionState) : FlowExecutionState :=
  mkState (st_status p) (st_nodeId p) (st_currentStep p) (st_completedSteps p) (st_stepEntries p)
    (st_attempts p) (st_outputs p) (st_checkpoints p) epoch (st_actionReceipts p)
    (st_revision p) (st_updatedAt p).

Definition updateCapabilities (st : FlowExecutionState)
    (patch : FlowExecutionState -> FlowExecutionState) (now : jstr) : FlowExecutionState :=
  updateState st (fun s => bump_epoch (st_capabilityEpoch st + 1) (patch s)) now.

Definition rotateFlowCapabilityEpoch (st : FlowExecutionState) (now : jstr) : FlowExecutionState :=
  updateCapabilities st (fun s => s) now.

Definition set_receipts (rs : list FlowActionReceipt) (p : FlowExecutionState) : FlowExecutionState :=
  mkState (st_status p) (st_nodeId p) (st_currentStep p) (st_completedSteps p) (st_stepEntries p)
    (st_attempts p) (st_outputs p) (st_checkpoints p) (st_capabilityEpoch p) rs
    (st_revision p) (st_updatedAt p).

Definition set_position (status : FlowStatus) (node step : option jstr) (p : FlowExecutionState)
  : FlowExecutionState :=
  mkState status node step (st_completedSteps p) (st_stepEntries p)
    (st_attempts p) (st_outputs p) (st_checkpoints p) (st_capabilityEpoch p) (st_actionReceipts p)
    (st_revision p) (st_updatedAt p).

Definition createFlowExecutionState (now : jstr) : FlowExecutionState :=
  mkState Routing None None [] (Some 0) [] [] [] 0 [] 0 now.

(** ** Queries *)

Definition finished (st : FlowExecutionState) : bool :=
  bool_decide (st_status st = Completed) || bool_decide (st_status st = FlowFailed).

(** [state.currentStep && !state.completedSteps.includes(state.currentStep)] *)
Definition activeStep (st : FlowExecutionState) : option jstr :=
  match truthy (st_currentStep st) with
  | Some step => if includes step (st_completedSteps st) then None else Some step
  | None => None
  end.

Definition attempts_of (st : FlowExecutionState) (step : jstr) : Z := default 0 (own step (st_attempts st)).

Definition flowCapabilityScope (st : FlowExecutionState) : jstr * Z :=
  match activeStep st with
  | Some step => (step, attempts_of st step)
  | None =>
      if finished st then (js "$flow." ++ js (flow_status_text (st_status st)), 0)
      else match truthy (st_nodeId st) with
           | Some node => (js "$flow." ++ node, 0)
           | None => (js "$flow.routing", 0)
           end
  end.

Definition topic (flow : AgentFlow) (nodeId : option jstr) : option FlowNode :=
  List.find (fun n => bool_decide (Some (n_id n) = nodeId) &&
    (bool_decide (n_kind n = KTopic) || bool_decide (n_kind n = KFallback))) (f_nodes flow).

Definition directChildren (ref : StepRef) : list jstr :=
  (fun s => dotted (r_path ref) (s_id (fields_of s))) <$> steps_of (r_step ref).

Section WithHash.
Context `{Sha256}.

Definition transitionMatches (t : FlowTransition) (outputs : obj jsval) : bool :=
  match t_condition t with
  | None => true
  | Some c =>
      match own (c_output c) outputs with
      | None => false
      | Some actual =>
          let value := default JUndefined (c_value c) in
          match c_operator c with
          | OpExists => match actual with JUndefined | JNull => false | _ => true end
          | OpEquals => valuesEqual actual value
          | OpNotEquals => negb (valuesEqual actual value)
          | OpIn => match value with JArr vs => existsb (valuesEqual actual) vs | _ => false end
          end
      end
  end.

Definition successfulNextSteps (ref : StepRef) (outputs : obj jsval) : list jstr :=
  uniq (directChildren ref ++
        (t_to <$> List.filter (fun t => transitionMatches t outputs) (s_transitions (r_step ref)))).

Definition max_attempts (step : FlowStep) : Z := default 3 (s_max_attempts step).

Definition allowedStepPaths (flow : AgentFlow) (st : FlowExecutionState) : list jstr :=
  if finished st then []
  else match topic flow (st_nodeId st) with
  | None => []
  | Some node =>
      if bool_decide (n_kind node = KFallback) then []
      else match truthy (st_currentStep st) with
      | None => topicEntryStepPaths flow (n_id node)
      | Some step =>
          match findStep flow step with
          | None => []
          | Some current =>
              if includes (r_path current) (st_completedSteps st)
              then successfulNextSteps current (default [] (own (r_path current) (st_outputs st)))
              else if max_attempts (r_step current) <=? attempts_of st (r_path current)
                   then option_list (truthy (s_on_failure (r_step current)))
                   else []
          end
      end
  end.

Definition grantedTools (flow : AgentFlow) (st : FlowExecutionState) : list jstr :=
  if finished st then alwaysTools flow
  else
    let node_tools := from_option n_tools [] (topic flow (st_nodeId st)) in
    let step_tools :=
      match activeStep st with
      | None => []
      | Some step =>
          match findStep flow step with
          | None => []
          | Some ref => flat_map (fun a => s_tools (fields_of a)) (r_ancestors ref) ++ s_tools (r_step ref)
          end
      end in
    uniq (alwaysTools flow ++ node_tools ++ step_tools).

(** ** Routing *)

Definition selectFlowTopic (flow : AgentFlow) (st : FlowExecutionState) (nodeId : jstr) (now : jstr)
  : result RuntimeError FlowExecutionState :=
  raise fail "flow_finished" when finished st ;;
  match topic flow (Some nodeId) with
  | None => Err (fail "unknown_topic")
  | Some node =>
      raise fail "transition_only_topic" when
        bool_decide (n_kind node = KTopic) && is_v2 flow &&
        bool_decide (topicEntryStepPaths flow (n_id node) = []) ;;
      if bool_decide (st_status st = Active) && bool_decide (st_nodeId st = Some nodeId) then Ok st
      else
        raise fail_with "active_step_incomplete" (allowedStepPaths flow st) when
          bool_decide (st_status st = Active) && bool_decide (activeStep st <> None) ;;
        let pending := allowedStepPaths flow st in
        raise fail_with "pending_flow_transition" pending when
          bool_decide (st_status st = Active) && bool_decide (truthy (st_currentStep st) <> None) &&
          bool_decide (pending <> []) ;;
        Ok (updateCapabilities st (set_position Active (Some (n_id node)) None) now)
  end.

Record Entered := {
  en_state : FlowExecutionState;
  en_step : FlowStep;
  en_path : jstr;
  en_availableTools : list jstr;
  en_nextSteps : list jstr;
}.

Definition unsettled (r : FlowActionReceipt) : bool :=
  bool_decide (a_status r = Reserved) || bool_decide (a_status r = Indeterminate).

(** Receipts of a step that still need settlement or reconciliation. *)
Definition pending_receipts (st : FlowExecutionState) (step : jstr) : list FlowActionReceipt :=
  List.filter (fun r => (a_step r =?s step) && unsettled r) (st_actionReceipts st).

(** [ref.path.split(".").slice(0, n).join(".")] *)
Definition path_prefix (path : jstr) (n : nat) : jstr := at_path (take n (split_dots path)).

Definition ancestor_paths (ref : StepRef) : list jstr :=
  imap (fun i _ => path_prefix (r_path ref) (i + 2)) (r_ancestors ref).

(** [candidate === path || candidate.startsWith(`${path}.`)] *)
Definition in_subtree (path candidate : jstr) : bool :=
  (candidate =?s path) || bool_decide (take (S (length path)) candidate = path ++ [ch_dot]).

Definition total_entries (st : FlowExecutionState) : Z :=
  default (foldr Z.add 0 (st_attempts st).*2) (st_stepEntries st) + 1.

Definition enter_patch (path nodeId : jstr) (attempts total : Z) (s : FlowExecutionState)
  : FlowExecutionState :=
  mkState Active (Some nodeId) (Some path)
    (List.filter (fun c => negb (in_subtree path c)) (st_completedSteps s))
    (Some total) (put path attempts (st_attempts s))
    (List.filter (fun kv => negb (in_subtree path kv.1)) (st_outputs s))
    (List.filter (fun c => negb (in_subtree path c.1)) (st_checkpoints s))
    (st_capabilityEpoch s) (st_actionReceipts s) (st_revision s) (st_updatedAt s).

Definition enterFlowStep (flow : AgentFlow) (st : FlowExecutionState) (path : jstr) (now : jstr)
  : result RuntimeError Entered :=
  raise fail "flow_finished" when finished st ;;
  match findStep flow path with
  | None => Err (fail_with "unknown_step" (allowedStepPaths flow st))
  | Some ref =>
      raise fail_with "pending_action_evidence" [] when
        match activeStep st with
        | Some step => bool_decide (pending_receipts st step <> [])
        | None => false
        end ;;
      let allowed := allowedStepPaths flow st in
      let isRetry := bool_decide (st_currentStep st = Some path) &&
                     negb (includes path (st_completedSteps st)) in
      raise fail_with "wrong_topic" allowed when
        bool_decide (Some (r_nodeId ref) <> st_nodeId st) && negb (includes path allowed) ;;
      raise fail_with "step_not_reachable" allowed when negb isRetry && negb (includes path allowed) ;;
      raise fail_with "ancestor_step_incomplete" allowed when
        existsb (fun a => negb (includes a (st_completedSteps st))) (ancestor_paths ref) ;;
      let attempts := if isRetry then attempts_of st path + 1 else 1 in
      raise fail_with "attempt_limit"
          (match truthy (s_on_failure (r_step ref)) with Some f => [f] | None => allowed end) when
        max_attempts (r_step ref) <? attempts ;;
      let total := total_entries st in
      raise fail_with "flow_entry_limit" [] when
        match f_max_step_entries flow with
        | Some limit => negb (limit =? 0) && (limit <? total)
        | None => false
        end ;;
      let next := updateCapabilities st (enter_patch path (r_nodeId ref) attempts total) now in
      Ok {| en_state := next; en_step := r_step ref; en_path := path;
            en_availableTools := grantedTools flow next; en_nextSteps := allowedStepPaths flow next |}
  end.

(** ** Action admission *)

Record FlowActionReservation := {
  rs_state : FlowExecutionState;
  rs_receipt : FlowActionReceipt;
  rs_execute : bool;
  rs_replayed : bool;
}.

Definition actionIdempotencyKey (step : jstr) (attempt : Z) (tool : jstr) (mode : Idempotency)
    (argumentsHash receiptId : jstr) : option jstr :=
  hashFlowValue (JObj
    match mode with
    | PerCall => field "tool" (JStr tool)
    | PerCallArguments => field "tool" (JStr tool) ++ field "argumentsHash" (JStr argumentsHash)
    | PerStep => field "step" (JStr step) ++ field "attempt" (jnat attempt) ++ field "tool" (JStr tool)
    | PerArguments =>
        field "step" (JStr step) ++ field "attempt" (jnat attempt) ++ field "tool" (JStr tool) ++
        field "argumentsHash" (JStr argumentsHash)
    | IdNone =>
        field "step" (JStr step) ++ field "tool" (JStr tool) ++ field "receiptId" (JStr receiptId)
    end).

Record ReserveArgs := {
  ra_receiptId : jstr;
  ra_invocationId : jstr;
  ra_tool : jstr;
  ra_arguments : obj jsval;
  ra_capabilityEpoch : Z;
  ra_providerInvocationId : option jstr;
}.

Definition findReceipt (p : FlowActionReceipt -> bool) (st : FlowExecutionState)
  : option FlowActionReceipt := List.find p (st_actionReceipts st).

(** A prior receipt is returned without execution ownership. *)
Definition replay (st : FlowExecutionState) (r : FlowActionReceipt) : FlowActionReservation :=
  {| rs_state := st; rs_receipt := r; rs_execute := false;
     rs_replayed := bool_decide (a_status r = Succeeded) |}.

Definition active_ref (flow : AgentFlow) (st : FlowExecutionState) : option StepRef :=
  step ← activeStep st; findStep flow step.

(** The policy in force for a tool: the active step's, else the global one. *)
Definition policy_for (flow : AgentFlow) (ref : option StepRef) (tool : jstr)
  : option FlowActionPolicy :=
  coalesce (r ← ref; findPolicy tool (s_action_policies (r_step r)))
    (findPolicy tool (alwaysActionPolicies flow)).

Definition policy_mode (policy : option FlowActionPolicy) : Idempotency :=
  default IdNone (policy ≫= ap_idempotency).

Definition call_scoped (mode : Idempotency) : bool :=
  match mode with PerCall | PerCallArguments => true | _ => false end.

Definition not_failed (r : FlowActionReceipt) : bool := negb (bool_decide (a_status r = Failed)).

(** Receipts that count against [max_calls]. *)
Definition admitted (st : FlowExecutionState) (scoped : bool) (step tool : jstr)
  : list FlowActionReceipt :=
  List.filter (fun r =>
    (scoped || ((a_capabilityEpoch r =? st_capabilityEpoch st) && (a_step r =?s step))) &&
    (a_tool r =?s tool) && not_failed r) (st_actionReceipts st).

Definition new_receipt (st : FlowExecutionState) (args : ReserveArgs) (key step argumentsHash : jstr)
    (bytes : Z) (now : jstr) : FlowActionReceipt :=
  {| a_id := ra_receiptId args; a_idempotencyKey := key; a_step := step; a_tool := ra_tool args;
     a_capabilityEpoch := st_capabilityEpoch st; a_arguments := Some (ra_arguments args);
     a_argumentsBytes := Some bytes; a_argumentsCompacted := false; a_argumentsHash := argumentsHash;
     a_invocationId := Some (ra_invocationId args);
     a_providerInvocationId := truthy (ra_providerInvocationId args);
     a_dispatchStartedAt := None; a_dispatchAttempt := None; a_reconciliationProofId := None;
     a_status := Reserved; a_result := None; a_resultBytes := None; a_resultCompacted := false;
     a_resultHash := None; a_error := None; a_reservedAt := now; a_settledAt := None |}.

(** Admission once no identity of the request matches an existing receipt. *)
Definition admit_action (flow : AgentFlow) (st : FlowExecutionState) (args : ReserveArgs)
    (argumentsHash : jstr) (bytes : Z) (now : jstr) : result RuntimeError FlowActionReservation :=
  let '(step, attempt) := flowCapabilityScope st in
  let policy := policy_for flow (active_ref flow st) (ra_tool args) in
  let mode := policy_mode policy in
  let scoped := call_scoped mode in
  match actionIdempotencyKey step attempt (ra_tool args) mode argumentsHash (ra_receiptId args) with
  | None => Err (fail "exception")
  | Some key =>
      match findReceipt (fun r =>
        (scoped || (a_capabilityEpoch r =? st_capabilityEpoch st)) &&
        (a_idempotencyKey r =?s key) && not_failed r) st with
      | Some existing => Ok (replay st existing)
      | None =>
          raise fail "action_call_limit" when
            match policy ≫= ap_max_calls with
            | Some limit => limit <=? Z.of_nat (length (admitted st scoped step (ra_tool args)))
            | None => false
            end ;;
          raise fail "flow_receipt_quota_exceeded" when
            (MAX_FLOW_ACTION_RECEIPTS_PER_CALL <=? length (st_actionReceipts st))%nat ;;
          let receipt := new_receipt st args key step argumentsHash bytes now in
          let next := updateState st (set_receipts (st_actionReceipts st ++ [receipt])) now in
          match flowStateBudgetError next with
          | Some e => Err e
          | None => Ok {| rs_state := next; rs_receipt := receipt; rs_execute := true;
                          rs_replayed := false |}
          end
      end
  end.

Definition reserveFlowAction (flow : AgentFlow) (st : FlowExecutionState) (args : ReserveArgs)
    (now : jstr) : result RuntimeError FlowActionReservation :=
  raise fail "stale_capability" when negb (ra_capabilityEpoch args =? st_capabilityEpoch st) ;;
  raise fail "invalid_receipt" when bool_decide (ra_receiptId args = []) ;;
  raise fail "invalid_invocation_identity" when negb (FLOW_ACTION_INVOCATION_ID (ra_invocationId args)) ;;
  raise fail "invalid_invocation_identity" when
    match ra_providerInvocationId args with
    | Some p => (length p <? 1)%nat || (256 <? length p)%nat
    | None => false
    end ;;
  raise fail "unknown_step" when
    bool_decide (activeStep st <> None) && match active_ref flow st with Some _ => false | None => true end ;;
  raise fail_with "action_not_granted" (grantedTools flow st) when
    negb (includes (ra_tool args) (grantedTools flow st)) ;;
  match hashFlowValue (JObj (ra_arguments args)), flowJsonBytes (JObj (ra_arguments args)) with
  | Some argumentsHash, Some bytes =>
      raise fail "action_arguments_too_large" when MAX_FLOW_ACTION_ARGUMENT_BYTES <? bytes ;;
      let semanticIdentityMatches r :=
        (a_tool r =?s ra_tool args) && (a_argumentsHash r =?s argumentsHash) &&
        (a_step r =?s (flowCapabilityScope st).1) in
      let sameInvocation r := bool_decide (a_invocationId r = Some (ra_invocationId args)) in
      match findReceipt (fun r => a_id r =?s ra_receiptId args) st with
      | Some r =>
          raise fail "receipt_identity_conflict" when
            negb (sameInvocation r) || negb (semanticIdentityMatches r) ;;
          Ok (replay st r)
      | None =>
      match findReceipt sameInvocation st with
      | Some r =>
          raise fail "invocation_identity_conflict" when negb (semanticIdentityMatches r) ;;
          Ok (replay st r)
      | None =>
      match (match truthy (ra_providerInvocationId args) with
             | Some p => findReceipt (fun r => bool_decide (a_providerInvocationId r = Some p)) st
             | None => None
             end) with
      | Some r =>
          raise fail "invocation_identity_conflict" when
            negb (sameInvocation r) || negb (semanticIdentityMatches r) ;;
          Ok (replay st r)
      | None => admit_action flow st args argumentsHash bytes now
      end end end
  | _, _ => Err (fail "invalid_arguments")
  end.

(** ** Dispatch and settlement *)

Definition findIndex (id : jstr) (st : FlowExecutionState) : option (nat * FlowActionReceipt) :=
  list_find (fun r => a_id r = id) (st_actionReceipts st).

Definition replace_receipt (st : FlowExecutionState) (i : nat) (r : FlowActionReceipt) (now : jstr)
  : FlowExecutionState :=
  updateState st (set_receipts (<[i := r]> (st_actionReceipts st))) now.

Definition with_dispatch (at_ : jstr) (r : FlowActionReceipt) : FlowActionReceipt :=
  mkReceipt (a_id r) (a_idempotencyKey r) (a_step r) (a_tool r) (a_capabilityEpoch r) (a_arguments r)
    (a_argumentsBytes r) (a_argumentsCompacted r) (a_argumentsHash r) (a_invocationId r)
    (a_providerInvocationId r) (Some at_) (Some (default 0 (a_dispatchAttempt r) + 1))
    (a_reconciliationProofId r) (a_status r) (a_result r) (a_resultBytes r) (a_resultCompacted r)
    (a_resultHash r) (a_error r) (a_reservedAt r) (a_settledAt r).

Definition markFlowActionDispatchStarted (st : FlowExecutionState) (receiptId : jstr) (now : jstr)
  : result RuntimeError (FlowExecutionState * FlowActionReceipt) :=
  match findIndex receiptId st with
  | None => Err (fail "unknown_receipt")
  | Some (i, current) =>
      raise fail "receipt_not_dispatchable" when negb (bool_decide (a_status current = Reserved)) ;;
      raise fail "dispatch_already_started" when
        bool_decide (truthy (a_dispatchStartedAt current) <> None) ;;
      let receipt := with_dispatch now current in
      Ok (replace_receipt st i receipt now, receipt)
  end.

(** Outcome of a receipt: status, result evidence, error, proof, settlement time. *)
Definition with_outcome (status : ReceiptStatus) (res : option (jsval * jstr * Z)) (err : option jstr)
    (proof : option jstr) (now : jstr) (r : FlowActionReceipt) : FlowActionReceipt :=
  mkReceipt (a_id r) (a_idempotencyKey r) (a_step r) (a_tool r) (a_capabilityEpoch r) (a_arguments r)
    (a_argumentsBytes r) (a_argumentsCompacted r) (a_argumentsHash r) (a_invocationId r)
    (a_providerInvocationId r) (a_dispatchStartedAt r) (a_dispatchAttempt r)
    (coalesce proof (a_reconciliationProofId r)) status
    (coalesce ((fun x => x.1.1) <$> res) (a_result r)) (coalesce (snd <$> res) (a_resultBytes r))
    (a_resultCompacted r) (coalesce ((fun x => x.1.2) <$> res) (a_resultHash r))
    (coalesce err (a_error r)) (a_reservedAt r) (Some now).

Inductive Outcome : Type := OutSucceeded | OutFailed | OutIndeterminate.

Definition outcome_status (o : Outcome) : ReceiptStatus :=
  match o with
  | OutSucceeded => Succeeded | OutFailed => Failed | OutIndeterminate => Indeterminate
  end.

Record SettleArgs := {
  sa_receiptId : jstr;
  sa_outcome : Outcome;
  sa_result : option jsval;
  sa_error : option jstr;
}.

(** [args.result !== undefined] *)
Definition defined (o : option jsval) : option jsval :=
  match o with Some JUndefined => None | _ => o end.

(** Hash and size of a result; [None] when it cannot be serialised. *)
Definition result_evidence (v : jsval) : option (jsval * jstr * Z) :=
  h ← hashFlowValue v; b ← flowJsonBytes v; Some (v, h, b).

Definition budgeted {A} (next : FlowExecutionState) (a : A) : result RuntimeError (FlowExecutionState * A) :=
  match flowStateBudgetError next with
  | Some e => Err e
  | None => Ok (next, a)
  end.

Definition settle_with (st : FlowExecutionState) (i : nat) (current : FlowActionReceipt)
    (args : SettleArgs) (res : option (jsval * jstr * Z)) (now : jstr)
  : result RuntimeError (FlowExecutionState * FlowActionReceipt) :=
  raise fail "action_result_too_large" when
    match res with Some (_, _, bytes) => MAX_FLOW_ACTION_RESULT_BYTES <? bytes | None => false end ;;
  let status := outcome_status (sa_outcome args) in
  if negb (bool_decide (a_status current = Reserved)) then
    if bool_decide (a_status current = status) &&
       bool_decide (a_resultHash current = ((fun x => x.1.2) <$> res)) &&
       bool_decide (a_error current = truthy (sa_error args))
    then Ok (st, current)
    else Err (fail "receipt_settlement_conflict")
  else
    raise fail "dispatch_not_started" when
      (bool_decide (status = Succeeded) || bool_decide (status = Indeterminate)) &&
      bool_decide (truthy (a_dispatchStartedAt current) = None) ;;
    let receipt := with_outcome status res (truthy (sa_error args)) None now current in
    budgeted (replace_receipt st i receipt now) receipt.

Definition settleFlowAction (st : FlowExecutionState) (args : SettleArgs) (now : jstr)
  : result RuntimeError (FlowExecutionState * FlowActionReceipt) :=
  match findIndex (sa_receiptId args) st with
  | None => Err (fail "unknown_receipt")
  | Some (i, current) =>
      raise fail "action_error_too_large" when
        match sa_error args with
        | Some e => match flowJsonBytes (JObj (field "message" (JStr e))) with
                    | Some bytes => MAX_FLOW_ACTION_ERROR_BYTES <? bytes
                    | None => false
                    end
        | None => false
        end ;;
      match defined (sa_result args) with
      | None => settle_with st i current args None now
      | Some v =>
          match result_evidence v with
          | None => Err (fail "invalid_result")
          | Some e => settle_with st i current args (Some e) now
          end
      end
  end.

Definition promoteIndeterminateFlowAction (st : FlowExecutionState) (receiptId proofId : jstr)
    (result : jsval) (now : jstr) : Prelude.result RuntimeError (FlowExecutionState * FlowActionReceipt) :=
  match findIndex receiptId st with
  | None => Err (fail "unknown_receipt")
  | Some (i, current) =>
      raise fail "receipt_not_indeterminate" when negb (bool_decide (a_status current = Indeterminate)) ;;
      raise fail "receipt_dispatch_boundary_missing" when
        bool_decide (truthy (a_dispatchStartedAt current) = None) ;;
      match result_evidence result with
      | None => Err (fail "invalid_result")
      | Some e =>
          raise fail "action_result_too_large" when MAX_FLOW_ACTION_RESULT_BYTES <? e.2 ;;
          let receipt := with_outcome Succeeded (Some e) None (Some proofId) now current in
          budgeted (replace_receipt st i receipt now) receipt
      end
  end.

Definition absence_error : jstr :=
  js "authoritative read-back proved this invocation was not committed".
Definition stale_error : jstr :=
  js "dispatch owner expired after the action crossed the durable dispatch boundary".

Definition proveIndeterminateFlowActionAbsent (st : FlowExecutionState) (receiptId proofId : jstr)
    (now : jstr) : Prelude.result RuntimeError (FlowExecutionState * FlowActionReceipt) :=
  match findIndex receiptId st with
  | None => Err (fail "unknown_receipt")
  | Some (i, current) =>
      raise fail "receipt_not_indeterminate" when negb (bool_decide (a_status current = Indeterminate)) ;;
      raise fail "receipt_dispatch_boundary_missing" when
        bool_decide (truthy (a_dispatchStartedAt current) = None) ;;
      raise fail "invalid_reconciliation_proof" when bool_decide (proofId = []) ;;
      let receipt := with_outcome Failed None (Some absence_error) (Some proofId) now current in
      Ok (replace_receipt st i receipt now, receipt)
  end.

Definition is_stale (receiptIds : list jstr) (r : FlowActionReceipt) : bool :=
  includes (a_id r) receiptIds && bool_decide (a_status r = Reserved) &&
  bool_decide (truthy (a_dispatchStartedAt r) <> None).

Definition markStaleDispatchedActionsIndeterminate (st : FlowExecutionState) (receiptIds : list jstr)
    (now : jstr) : FlowExecutionState :=
  if existsb (is_stale receiptIds) (st_actionReceipts st)
  then updateState st (set_receipts ((fun r =>
         if is_stale receiptIds r then with_outcome Indeterminate None (Some stale_error) None now r else r)
         <$> st_actionReceipts st)) now
  else st.

(** ** Reading receipts *)

Definition UNSAFE_PATH_SEGMENTS : list jstr := UNSAFE_OUTPUT_KEYS.

Definition safeFlowOutputKey (key : jstr) : bool :=
  (0 <? length key)%nat && negb (includes key UNSAFE_PATH_SEGMENTS).

Definition path_segments (path : jstr) : list jstr :=
  if path =?s js "$" then []
  else List.filter (fun s => negb (bool_decide (s = []))) (split_dots (strip_root path)).

Fixpoint value_at (v : jsval) (segments : list jstr) : option jsval :=
  match segments with
  | [] => Some v
  | seg :: segments =>
      if includes seg UNSAFE_PATH_SEGMENTS then None
      else v' ← own_property v seg; value_at v' segments
  end.

(** [None] is [{ found: false }]. *)
Definition resultAtPath (result : jsval) (path : jstr) : option jsval :=
  value_at result (path_segments path).

Definition matchesValueType (v : jsval) (type : option ValueType) : bool :=
  match type, v with
  | None, _ => true
  | Some VArray, JArr _ => true
  | Some VObject, JObj _ => true
  | Some VObject, JOther OObject => true
  | Some VString, JStr _ => true
  | Some VNumber, JNum _ => true
  | Some VBoolean, JBool _ => true
  | _, _ => false
  end.

Record BoundArgumentEvidence := {
  be_argument : jstr;
  be_source_tool : jstr;
  be_source_step : jstr;
  be_source_receipt_id : jstr;
  be_source_receipt_result_hash : jstr;
  be_result_path : jstr;
}.

Record FlowBoundArgumentResolution := {
  br_modelArguments : obj jsval;
  br_effectiveArguments : obj jsval;
  br_evidence : list BoundArgumentEvidence;
}.

(** Receipts of the current step and epoch that can supply a bound argument. *)
Definition bound_candidates (st : FlowExecutionState) (step tool : jstr) : list FlowActionReceipt :=
  List.filter (fun r => bool_decide (a_status r = Succeeded) && (a_step r =?s step) &&
    (a_capabilityEpoch r =? st_capabilityEpoch st) && (a_tool r =?s tool)) (st_actionReceipts st).

(** One bound argument: its authoritative value and the receipt it comes from. *)
Definition resolve_binding (st : FlowExecutionState) (step : jstr) (b : FlowBoundArgument)
  : result RuntimeError (jsval * BoundArgumentEvidence) :=
  match bound_candidates st step (ba_source_tool b) with
  | _ :: _ :: _ => Err (fail "ambiguous_bound_argument_source")
  | [] =>
      if existsb (fun r => bool_decide (a_status r = Succeeded) && (a_tool r =?s ba_source_tool b))
           (st_actionReceipts st)
      then Err (fail "stale_bound_argument_source")
      else Err (fail "missing_bound_argument_source")
  | [receipt] =>
      match defined (a_result receipt), truthy (a_resultHash receipt) with
      | Some result, Some hash =>
          raise fail "missing_bound_argument_source" when a_resultCompacted receipt ;;
          match resultAtPath result (ba_result_path b) with
          | None => Err (fail "missing_bound_argument_output")
          | Some v =>
              match hashFlowValue v with
              | None => Err (fail "invalid_bound_argument_output")
              | Some _ =>
                  Ok (v, {| be_argument := ba_argument b; be_source_tool := ba_source_tool b;
                            be_source_step := step; be_source_receipt_id := a_id receipt;
                            be_source_receipt_result_hash := hash;
                            be_result_path := ba_result_path b |})
              end
          end
      | _, _ => Err (fail "missing_bound_argument_source")
      end
  end.

(** The [for (const binding of bindings)] loop. *)
Fixpoint resolve_bindings (st : FlowExecutionState) (step : jstr) (modelArguments : obj jsval)
    (seen : list jstr) (effective : obj jsval) (evidence : list BoundArgumentEvidence)
    (bindings : list FlowBoundArgument) : result RuntimeError FlowBoundArgumentResolution :=
  match bindings with
  | [] => Ok {| br_modelArguments := modelArguments; br_effectiveArguments := effective;
                br_evidence := evidence |}
  | b :: bindings =>
      raise fail "invalid_bound_argument_declaration" when includes (ba_argument b) seen ;;
      raise fail "bound_argument_override" when has_own (ba_argument b) modelArguments ;;
      let* (v, e) := resolve_binding st step b in
      resolve_bindings st step modelArguments (ba_argument b :: seen)
        (put (ba_argument b) v effective) (evidence ++ [e]) bindings
  end.

Definition resolveFlowBoundArguments (flow : AgentFlow) (st : FlowExecutionState) (tool : jstr)
    (modelArguments : obj jsval) : result RuntimeError FlowBoundArgumentResolution :=
  match activeStep st with
  | None => Err (fail "bound_argument_no_active_step")
  | Some step =>
      match findStep flow step with
      | None => Err (fail "unknown_step")
      | Some ref =>
          let bindings := from_option ap_bound_arguments []
                            (findPolicy tool (s_action_policies (r_step ref))) in
          resolve_bindings st step modelArguments [] modelArguments [] bindings
      end
  end.

(** ** Completing a step *)

(** Successful receipts of this step that can supply a bound output. *)
Definition output_candidates (st : FlowExecutionState) (ref : StepRef) (b : FlowOutputBinding)
  : list FlowActionReceipt :=
  let scoped := match findPolicy (ob_tool b) (s_action_policies (r_step ref)) ≫= ap_idempotency with
                | Some mode => call_scoped mode
                | None => false
                end in
  List.filter (fun r => bool_decide (a_status r = Succeeded) && (a_step r =?s r_path ref) &&
    (a_tool r =?s ob_tool b) && ((a_capabilityEpoch r =? st_capabilityEpoch st) || scoped))
    (st_actionReceipts st).

Definition bound_output (st : FlowExecutionState) (ref : StepRef) (supplied : obj jsval)
    (b : FlowOutputBinding) : result RuntimeError jsval :=
  match output_candidates st ref b with
  | _ :: _ :: _ => Err (fail "ambiguous_action_evidence")
  | [] => Err (fail "missing_action_evidence")
  | [receipt] =>
      match resultAtPath (default JUndefined (a_result receipt)) (ob_result_path b) with
      | None => Err (fail "missing_receipt_output")
      | Some v =>
          raise fail "receipt_output_type" when negb (matchesValueType v (ob_value_type b)) ;;
          raise fail "bound_output_mismatch" when
            match own (ob_output b) supplied with
            | Some s => negb (valuesEqual s v)
            | None => false
            end ;;
          Ok v
      end
  end.

Fixpoint verify_bindings (st : FlowExecutionState) (ref : StepRef) (supplied outputs : obj jsval)
    (bindings : list FlowOutputBinding) : result RuntimeError (obj jsval) :=
  match bindings with
  | [] => Ok outputs
  | b :: bindings =>
      let* v := bound_output st ref supplied b in
      verify_bindings st ref supplied (put (ob_output b) v outputs) bindings
  end.

Definition verifiedOutputs (st : FlowExecutionState) (ref : StepRef) (supplied : obj jsval)
  : result RuntimeError (obj jsval) :=
  verify_bindings st ref supplied supplied (s_output_bindings (r_step ref)).

(** [outputs[key] === undefined || outputs[key] === null]; an inherited property is
    neither. *)
Definition output_missing (outputs : obj jsval) (key : jstr) : bool :=
  match get_property outputs key with
  | Own JUndefined | Own JNull | Absent => true
  | _ => false
  end.

(** Removes replay payloads once a step is durably complete. *)
Definition compact_receipt (r : FlowActionReceipt) : FlowActionReceipt :=
  let bytes (o : option Z) (v : jsval) := coalesce o (flowJsonBytes v) in
  let args := a_arguments r in
  let res := defined (a_result r) in
  mkReceipt (a_id r) (a_idempotencyKey r) (a_step r) (a_tool r) (a_capabilityEpoch r) None
    (match args with Some a => bytes (a_argumentsBytes r) (JObj a) | None => a_argumentsBytes r end)
    (match args with Some _ => true | None => a_argumentsCompacted r end)
    (a_argumentsHash r) (a_invocationId r) (a_providerInvocationId r) (a_dispatchStartedAt r)
    (a_dispatchAttempt r) (a_reconciliationProofId r) (a_status r) None
    (match res with Some v => bytes (a_resultBytes r) v | None => a_resultBytes r end)
    (match res with Some _ => true | None => a_resultCompacted r end)
    (a_resultHash r) (a_error r) (a_reservedAt r) (a_settledAt r).

Definition compactable (step : jstr) (r : FlowActionReceipt) : bool :=
  (a_step r =?s step) &&
  (bool_decide (a_status r = Succeeded) || bool_decide (a_status r = Failed)).

Definition compactCompletedStepReceipts (rs : list FlowActionReceipt) (step : jstr)
  : list FlowActionReceipt :=
  (fun r => if compactable step r then compact_receipt r else r) <$> rs.

(** The state fields written by a completion. *)
Definition complete_patch (path : jstr) (outputs : obj jsval) (checkpoint : bool) (now : jstr)
    (s : FlowExecutionState) : FlowExecutionState :=
  mkState (st_status s) (st_nodeId s) (st_currentStep s)
    (uniq (st_completedSteps s ++ [path])) (st_stepEntries s) (st_attempts s)
    (put path outputs (st_outputs s))
    (st_checkpoints s ++ (if checkpoint then [(path, now)] else []))
    (st_capabilityEpoch s) (compactCompletedStepReceipts (st_actionReceipts s) path)
    (st_revision s) (st_updatedAt s).

(** [args.outputs ?? {}] and the test that it is an object. *)
Definition supplied_outputs (o : option jsval) : option (obj jsval) :=
  match o with
  | None | Some JUndefined | Some JNull => Some []
  | Some (JObj kvs) => Some kvs
  | Some _ => None
  end.

(** [Object.keys(supplied).find((key) => !safeFlowOutputKey(key))]; it is tested by
    truthiness. *)
Definition unsafe_output (supplied : obj jsval) : option jstr :=
  List.find (fun k => negb (safeFlowOutputKey k)) (keys supplied).

Record CompleteArgs := { ca_path : option jstr; ca_outputs : option jsval }.

Definition completeFlowStep (flow : AgentFlow) (st : FlowExecutionState) (args : CompleteArgs)
    (now : jstr) : result RuntimeError (FlowExecutionState * list jstr) :=
  match truthy (coalesce (ca_path args) (st_currentStep st)) with
  | None => Err (fail "not_active_step")
  | Some path =>
      raise fail "not_active_step" when bool_decide (Some path <> st_currentStep st) ;;
      if includes path (st_completedSteps st) then Ok (st, allowedStepPaths flow st)
      else match findStep flow path with
      | None => Err (fail "unknown_step")
      | Some ref =>
          raise fail "pending_action_evidence" when
            bool_decide (pending_receipts st (r_path ref) <> []) ;;
          match supplied_outputs (ca_outputs args) with
          | None => Err (fail "invalid_outputs")
          | Some supplied =>
              raise fail "invalid_outputs" when
                bool_decide (truthy (unsafe_output supplied) <> None) ;;
              raise fail "invalid_outputs" when bool_decide (hashFlowValue (JObj supplied) = None) ;;
              let* outputs := verifiedOutputs st ref supplied in
              raise fail "missing_outputs" when
                existsb (output_missing outputs) (s_required_outputs (r_step ref)) ;;
              let patch := complete_patch path outputs
                             (default false (s_checkpoint (r_step ref))) now in
              let nextSteps := allowedStepPaths flow (patch st) in
              let final s := if bool_decide (nextSteps = []) then set_position Completed (st_nodeId s) None s
                             else s in
              budgeted (updateCapabilities st (fun s => final (patch s)) now) nextSteps
          end
      end
  end.

(** ** What the model is shown *)

Inductive NextKind : Type := NFailure | NTransition | NChild | NEntry.

Record NextStep := {
  nx_path : jstr;
  nx_label : jstr;
  nx_context : option jstr;
  nx_kind : NextKind;
  nx_when : option jstr;
  nx_condition : option FlowCondition;
}.

Definition describeNextSteps (flow : AgentFlow) (st : FlowExecutionState) : list NextStep :=
  let current := step ← truthy (st_currentStep st); findStep flow step in
  (fun path =>
    let ref := findStep flow path in
    let transition := c ← current; List.find (fun t => t_to t =?s path) (s_transitions (r_step c)) in
    let failure := match current with
                   | Some c => bool_decide (s_on_failure (r_step c) = Some path) &&
                               negb (includes (r_path c) (st_completedSteps st))
                   | None => false
                   end in
    {| nx_path := path;
       nx_label := from_option (fun r => s_label (r_step r)) path ref;
       nx_context := ref ≫= (fun r => truthy (s_context (r_step r)));
       nx_kind := if failure then NFailure else
                  match transition, current with
                  | Some _, _ => NTransition
                  | None, Some _ => NChild
                  | None, None => NEntry
                  end;
       nx_when := match transition ≫= (fun t => truthy (t_when t)), failure with
                  | Some w, _ => Some w
                  | None, true =>
                      Some (js "the active step cannot succeed within " ++
                            num_to_string (num_of_Z (from_option (fun c => max_attempts (r_step c)) 3 current)) ++
                            js " attempts")
                  | None, false => None
                  end;
       nx_condition := transition ≫= t_condition |}) <$> allowedStepPaths flow st.

Record FlowSummary := {
  sm_status : FlowStatus;
  sm_topic : option jstr;
  sm_current_step : option jstr;
  sm_last_completed_step : option jstr;
  sm_instructions : option jstr;
  sm_success_criteria : list jstr;
  sm_required_outputs : list jstr;
  sm_available_tools : list jstr;
  sm_next_steps : list NextStep;
  sm_completed_steps : list jstr;
  sm_outputs : obj (obj jsval);
  sm_checkpoints : list (jstr * jstr);
  sm_capability_epoch : Z;
  sm_action_receipts : list (jstr * jstr * jstr * Z * ReceiptStatus * jstr * option jstr * jstr * option jstr);
  sm_revision : Z;
}.

Definition flowStateSummary (flow : AgentFlow) (st : FlowExecutionState) : FlowSummary :=
  let ref := step ← truthy (st_currentStep st); findStep flow step in
  let active := r ← ref; if includes (r_path r) (st_completedSteps st) then None else Some r in
  {| sm_status := st_status st;
     sm_topic := st_nodeId st;
     sm_current_step := r_path <$> active;
     sm_last_completed_step := match active with None => r_path <$> ref | Some _ => None end;
     sm_instructions := (fun r => s_instructions (r_step r)) <$> active;
     sm_success_criteria := from_option (fun r => s_success_criteria (r_step r)) [] active;
     sm_required_outputs := from_option (fun r => s_required_outputs (r_step r)) [] active;
     sm_available_tools := grantedTools flow st;
     sm_next_steps := describeNextSteps flow st;
     sm_completed_steps := st_completedSteps st;
     sm_outputs := st_outputs st;
     sm_checkpoints := st_checkpoints st;
     sm_capability_epoch := st_capabilityEpoch st;
     sm_action_receipts := (fun r => (a_id r, a_step r, a_tool r, a_capabilityEpoch r, a_status r,
       a_argumentsHash r, a_resultHash r, a_reservedAt r, a_settledAt r)) <$> st_actionReceipts st;
     sm_revision := st_revision st |}.
End WithHash.
