(* ===== verification/FlowSchema.v ===== *)
(** * The persisted-state schema (src/web/lib/flow-runtime.ts: [FlowExecutionStateSchema])

    The zod schema a stored execution state must satisfy, as an executable check,
    and the receipt-level facts it consists of. [z.iso.datetime()] belongs to zod and
    is a parameter: an instance of [IsoDatetime]. *)

From S2P Require Import Prelude JsValue JsText Canonical Graph Flow FlowValidate FlowRuntime.

Local Open Scope Z_scope.

Class IsoDatetime := iso_datetime : jstr -> bool.

Section Schema.
Context `{Sha256, IsoDatetime}.

(** [z.number().int().nonnegative()]: zod's [int] accepts safe integers only. *)
Definition MAX_SAFE_INT : Z := 2 ^ 53 - 1.
Definition non_negative (z : Z) : bool := (0 <=? z) && (z <=? MAX_SAFE_INT).

(** [FlowActionReceiptSchema] *)
Definition FlowActionReceiptSchema_ok (r : FlowActionReceipt) : bool :=
  nonempty (a_id r) && nonempty (a_idempotencyKey r) && nonempty (a_step r) && nonempty (a_tool r) &&
  non_negative (a_capabilityEpoch r) && opt_all non_negative (a_argumentsBytes r) &&
  is_sha256 (a_argumentsHash r) && opt_all FLOW_ACTION_INVOCATION_ID (a_invocationId r) &&
  opt_all (fun p => nonempty p && (length p <=? 256)%nat) (a_providerInvocationId r) &&
  opt_all iso_datetime (a_dispatchStartedAt r) && opt_all non_negative (a_dispatchAttempt r) &&
  opt_all nonempty (a_reconciliationProofId r) && opt_all non_negative (a_resultBytes r) &&
  opt_all is_sha256 (a_resultHash r) && iso_datetime (a_reservedAt r) &&
  opt_all iso_datetime (a_settledAt r).

(** Evidence recorded beside a payload: its hash, and its size when present. *)
Definition evidence_matches (v : jsval) (hash : option jstr) (bytes : option Z) : bool :=
  match hashFlowValue v, flowJsonBytes v with
  | Some h, Some b =>
      bool_decide (hash = Some h) && match bytes with Some b' => b' =? b | None => true end
  | _, _ => false
  end.

Definition arguments_refined (r : FlowActionReceipt) : bool :=
  match a_arguments r with
  | None =>
      a_argumentsCompacted r && bool_decide (a_argumentsBytes r <> None) && negb (unsettled r)
  | Some a =>
      evidence_matches (JObj a) (Some (a_argumentsHash r)) (a_argumentsBytes r) &&
      negb (a_argumentsCompacted r)
  end.

Definition result_refined (r : FlowActionReceipt) : bool :=
  let hasHash := match truthy (a_resultHash r) with Some _ => true | None => false end in
  match a_result r with
  | Some v => negb (a_resultCompacted r) && bool_decide (a_resultHash r <> None) &&
              evidence_matches v (a_resultHash r) (a_resultBytes r)
  | None =>
      if a_resultCompacted r then hasHash && bool_decide (a_status r = Succeeded)
      else bool_decide (a_resultHash r = None)
  end.

Definition dispatch_refined (r : FlowActionReceipt) : bool :=
  let attempts := default 0 (a_dispatchAttempt r) in
  match truthy (a_dispatchStartedAt r) with
  | Some _ => 1 <=? attempts
  | None => (attempts =? 0) &&
            negb (bool_decide (a_status r = Succeeded) || bool_decide (a_status r = Indeterminate))
  end.

Definition settlement_refined (r : FlowActionReceipt) : bool :=
  negb (eqb (bool_decide (a_status r = Reserved)) (bool_decide (a_settledAt r <> None))) &&
  match truthy (a_reconciliationProofId r) with
  | None => true
  | Some _ => (bool_decide (a_status r = Succeeded) || bool_decide (a_status r = Failed)) &&
              negb (bool_decide (a_status r = Failed) && bool_decide (a_result r <> None))
  end.

Definition receipt_ok (r : FlowActionReceipt) : bool :=
  FlowActionReceiptSchema_ok r && arguments_refined r && result_refined r &&
  dispatch_refined r && settlement_refined r.

Definition position_refined (st : FlowExecutionState) : bool :=
  match st_status st with
  | Routing => bool_decide (st_nodeId st = None) && bool_decide (st_currentStep st = None)
  | Active => bool_decide (st_nodeId st <> None)
  | Completed | FlowFailed => bool_decide (st_currentStep st = None)
  end.

Definition outputs_refined (st : FlowExecutionState) : bool :=
  forallb (fun step => has_own step (st_outputs st)) (st_completedSteps st) &&
  forallb (fun kv => includes kv.1 (st_completedSteps st) &&
                     match hashFlowValue (JObj kv.2) with Some _ => true | None => false end)
    (st_outputs st) &&
  forallb (fun c => includes c.1 (st_completedSteps st)) (st_checkpoints st).

Definition truthy_list (l : list (option jstr)) : list jstr := omap truthy l.

Definition identities_refined (st : FlowExecutionState) : bool :=
  nodupb (a_id <$> st_actionReceipts st) &&
  nodupb (truthy_list (a_invocationId <$> st_actionReceipts st)) &&
  nodupb (truthy_list (a_providerInvocationId <$> st_actionReceipts st)).

(** [values.find((value, index) => values.indexOf(value) !== index)]; the check on it
    is by truthiness. *)
Definition duplicate (l : list jstr) : option jstr := snd <$> head (repeats l).

Definition FlowExecutionStateSchema_ok (st : FlowExecutionState) : bool :=
  opt_all non_negative (st_stepEntries st) && forallb (fun kv => non_negative kv.2) (st_attempts st) &&
  forallb (fun c => iso_datetime c.2) (st_checkpoints st) && non_negative (st_capabilityEpoch st) &&
  non_negative (st_revision st) && iso_datetime (st_updatedAt st) &&
  bool_decide (truthy (duplicate (st_completedSteps st)) = None) && position_refined st && outputs_refined st &&
  identities_refined st && forallb receipt_ok (st_actionReceipts st).

(** ** The invariant

    What every operation preserves. It is the schema less the three checks the
    operations can violate ([persistable]), with every counter bounded by the revision,
    which each update increments. *)

(** The fields of a receipt that no operation changes. *)
Definition receipt_static (r : FlowActionReceipt) : bool :=
  nonempty (a_id r) && nonempty (a_idempotencyKey r) && nonempty (a_step r) && nonempty (a_tool r) &&
  is_sha256 (a_argumentsHash r) && opt_all FLOW_ACTION_INVOCATION_ID (a_invocationId r) &&
  opt_all (fun p => nonempty p && (length p <=? 256)%nat) (a_providerInvocationId r) &&
  iso_datetime (a_reservedAt r).

(** A recorded result has its hash and size; a compacted one keeps its hash. *)
Definition result_recorded (r : FlowActionReceipt) : bool :=
  match a_result r with
  | Some v => negb (a_resultCompacted r) && bool_decide (a_resultBytes r <> None) &&
              evidence_matches v (a_resultHash r) (a_resultBytes r)
  | None => eqb (a_resultCompacted r) (bool_decide (a_resultHash r <> None))
  end.

(** Only a success carries a result, and no proof id is empty. *)
Definition tidy (r : FlowActionReceipt) : Prop :=
  (a_status r <> Succeeded -> a_result r = None /\ a_resultCompacted r = false) /\
  a_reconciliationProofId r <> Some [].

Record receipt_good (strict : bool) (revision : Z) (r : FlowActionReceipt) : Prop := {
  rg_static : receipt_static r = true;
  rg_epoch : 0 <= a_capabilityEpoch r <= revision;
  rg_arguments : arguments_refined r = true;
  rg_argument_bytes : a_argumentsBytes r <> None;
  rg_sizes : opt_all non_negative (a_argumentsBytes r) && opt_all non_negative (a_resultBytes r) = true;
  rg_started : opt_all iso_datetime (a_dispatchStartedAt r) = true;
  rg_attempts : opt_all non_negative (a_dispatchAttempt r) = true;
  rg_dispatch : dispatch_refined r = true;
  rg_hash : opt_all is_sha256 (a_resultHash r) = true;
  rg_result : result_recorded r = true;
  rg_settled : opt_all iso_datetime (a_settledAt r) = true;
  rg_settlement : a_status r = Reserved <-> a_settledAt r = None;
  rg_open : unsettled r = true -> a_resultCompacted r = false /\ a_reconciliationProofId r = None;
  rg_tidy : strict = true -> tidy r;
}.

Record state_ok (strict : bool) (st : FlowExecutionState) : Prop := {
  ok_entries : exists n, st_stepEntries st = Some n /\ 0 <= n <= st_revision st;
  ok_attempts : Forall (fun kv => 0 <= kv.2 <= st_revision st) (st_attempts st);
  ok_checkpoint_times : forallb (fun c => iso_datetime c.2) (st_checkpoints st) = true;
  ok_epoch : 0 <= st_capabilityEpoch st <= st_revision st;
  ok_updated : iso_datetime (st_updatedAt st) = true;
  ok_completed : NoDup (st_completedSteps st);
  ok_position : position_refined st = true;
  ok_outputs : outputs_refined st = true;
  ok_ids : NoDup (a_id <$> st_actionReceipts st);
  ok_invocations : NoDup (truthy_list (a_invocationId <$> st_actionReceipts st));
  ok_providers : NoDup (truthy_list (a_providerInvocationId <$> st_actionReceipts st));
  ok_receipts : Forall (receipt_good strict (st_revision st)) (st_actionReceipts st);
}.

(** ** What the operations can violate

    A receipt loads again unless its result was compacted although it did not succeed,
    it was proved absent although it carries a result, or its proof id is empty. *)
Definition persistable (r : FlowActionReceipt) : Prop :=
  (a_resultCompacted r = true -> a_status r = Succeeded) /\
  (a_status r = Failed -> a_result r <> None -> a_reconciliationProofId r = None) /\
  a_reconciliationProofId r <> Some [].

Lemma tidy_persistable r : tidy r -> persistable r.
Proof.
  intros [Ht Hp]. split_and!; [|intros Hf Hr|done].
  - intros Hc. destruct (decide (a_status r = Succeeded)) as [|Hs]; [done|].
    destruct (Ht Hs). congruence.
  - destruct Hr. apply Ht. congruence.
Qed.

Lemma safe_between n z : 0 <= z <= n -> n <= MAX_SAFE_INT -> non_negative z = true.
Proof. intros ? ?. apply andb_true_iff. split; apply Z.leb_le; lia. Qed.

Lemma truthy_is_sha256 h : opt_all is_sha256 h = true -> truthy h = h.
Proof. by destruct h as [[|]|]. Qed.

(** The three checks, as the invariant leaves them. *)
Lemma fields_iff strict n r :
  receipt_good strict n r -> n <= MAX_SAFE_INT ->
  FlowActionReceiptSchema_ok r = true <-> a_reconciliationProofId r <> Some [].
Proof.
  intros [Hst He _ _ Hsz Hs Hat _ Hh _ Hse _ _ _] Hn. apply (safe_between _ _ He) in Hn.
  unfold FlowActionReceiptSchema_ok, receipt_static in *. to_prop.
  repeat match goal with H : ?b = true |- _ => rewrite H; clear H end. simpl.
  rewrite !andb_true_r. by destruct (a_reconciliationProofId r) as [[|]|].
Qed.

Lemma result_iff strict n r :
  receipt_good strict n r ->
  result_refined r = true <-> (a_resultCompacted r = true -> a_status r = Succeeded).
Proof.
  intros [_ _ _ _ _ _ _ _ Hh Hr _ _ _ _]. unfold result_refined, result_recorded in *.
  rewrite (truthy_is_sha256 _ Hh). destruct (a_result r) as [v|].
  - rewrite !andb_true_iff in Hr. destruct Hr as [[Hc _] Hev].
    rewrite Hev, (bool_decide_eq_true_2 (a_resultHash r <> None)).
    + to_prop. rewrite Hc. by split.
    + unfold evidence_matches in Hev. destruct (hashFlowValue v), (flowJsonBytes v); try done.
      to_prop. congruence.
  - apply eqb_prop in Hr. rewrite Hr. destruct (a_resultHash r); simpl; [|by split].
    rewrite bool_decide_eq_true. tauto.
Qed.

Lemma settlement_iff strict n r :
  receipt_good strict n r -> a_reconciliationProofId r <> Some [] ->
  settlement_refined r = true <->
  (a_status r = Failed -> a_result r <> None -> a_reconciliationProofId r = None).
Proof.
  intros [_ _ _ _ _ _ _ _ _ _ _ Hset Hop _] Hp. unfold settlement_refined, unsettled in *.
  assert (negb (eqb (bool_decide (a_status r = Reserved)) (bool_decide (a_settledAt r <> None))) = true)
    as -> by (destruct (a_settledAt r), (a_status r); naive_solver).
  destruct (a_reconciliationProofId r) as [[|c p]|]; [done| |by split]. simpl.
  destruct (a_status r); simpl in *; try (by destruct (Hop eq_refl)); [by split|].
  destruct (a_result r); simpl; split; naive_solver.
Qed.

Lemma receipt_good_iff strict n r :
  receipt_good strict n r -> n <= MAX_SAFE_INT -> receipt_ok r = true <-> persistable r.
Proof.
  intros Hg Hn. unfold receipt_ok, persistable. rewrite !andb_true_iff.
  rewrite (fields_iff _ _ _ Hg Hn), (result_iff _ _ _ Hg).
  rewrite (rg_arguments _ _ _ Hg), (rg_dispatch _ _ _ Hg).
  pose proof (settlement_iff _ _ _ Hg). tauto.
Qed.

(** A state that satisfies the invariant loads again exactly when its revision is a
    safe integer and every receipt is persistable. *)
Lemma state_ok_schema strict st :
  state_ok strict st ->
  FlowExecutionStateSchema_ok st = true <->
  st_revision st <= MAX_SAFE_INT /\ Forall persistable (st_actionReceipts st).
Proof.
  intros [(n & En & Hn) Hat Hcp He Hu Hc Hpos Ho Hi Hv Hp Hr].
  assert (truthy (duplicate (st_completedSteps st)) = None) as Hdup
    by (unfold duplicate; by rewrite (proj2 (repeats_nil _))).
  unfold FlowExecutionStateSchema_ok, identities_refined. rewrite !andb_true_iff, En. split.
  - intros (((((((_ & Hrev) & _) & _) & _) & _) & _) & Hrs). unfold non_negative in Hrev. to_prop.
    split; [done|]. rewrite forallb_elem in Hrs. rewrite Forall_forall in *. intros r Hin.
    eapply receipt_good_iff; eauto.
  - intros [Hrev Hrs]. pose proof (safe_between _ _ Hn Hrev). pose proof (safe_between _ _ He Hrev).
    split_and!; try done; try (by apply bool_decide_eq_true_2).
    + rewrite forallb_elem. rewrite Forall_forall in Hat. eauto using safe_between.
    + eapply safe_between; [|exact Hrev]. lia.
    + rewrite forallb_elem. rewrite Forall_forall in *. intros r Hin.
      eapply receipt_good_iff; eauto.
Qed.

(** ** Serialisable objects *)

Lemma canonicalJson_obj_some kvs :
  is_Some (canonicalJson (JObj kvs)) <-> Forall (fun kv => is_Some (canonicalJson kv.2)) kvs.
Proof.
  cbn [canonicalJson]. rewrite fmap_is_Some. split.
  - intros [es Hes]. apply mapM_Some in Hes. induction Hes as [|kv e kvs es He _ IH]; constructor; auto.
    apply fmap_Some in He as (t & Ht & _). by exists t.
  - intros Hall. apply mapM_is_Some. eapply Forall_impl; [exact Hall|].
    intros kv [t Ht]. cbn. rewrite Ht. by eexists.
Qed.

Lemma hash_some_iff v : is_Some (hashFlowValue v) <-> is_Some (canonicalJson v).
Proof. apply fmap_is_Some. Qed.

Lemma bytes_some_iff v : is_Some (flowJsonBytes v) <-> is_Some (canonicalJson v).
Proof. apply fmap_is_Some. Qed.

Lemma flowJsonBytes_nonneg v b : flowJsonBytes v = Some b -> 0 <= b.
Proof. intros (t & _ & ->)%fmap_Some. apply utf8_length_nonneg. Qed.

Lemma evidence_matches_intro v h b :
  hashFlowValue v = Some h -> flowJsonBytes v = Some b -> evidence_matches v (Some h) (Some b) = true.
Proof.
  intros Hh Hb. unfold evidence_matches. rewrite Hh, Hb. apply andb_true_iff. split.
  - by apply bool_decide_eq_true_2.
  - apply Z.eqb_refl.
Qed.

(** A state within its storage budget is serialisable, so every output record is. *)
Lemma budget_outputs_ok st :
  flowStateBudgetError st = None ->
  Forall (fun kv => is_Some (canonicalJson (JObj kv.2))) (st_outputs st).
Proof.
  unfold flowStateBudgetError, flowStateStorageBytes. destruct (_ <? _)%nat; [done|].
  destruct (flowJsonBytes (state_json st)) as [b|] eqn:E; [|done]. intros _.
  assert (is_Some (canonicalJson (state_json st))) as Hs by (apply bytes_some_iff; by exists b).
  unfold state_json in Hs. apply canonicalJson_obj_some in Hs.
  assert (is_Some (canonicalJson (JObj ((fun kv => (kv.1, JObj kv.2)) <$> st_outputs st)))) as Ho.
  { rewrite Forall_forall in Hs.
    apply (Hs (js "outputs", JObj ((fun kv => (kv.1, JObj kv.2)) <$> st_outputs st))).
    rewrite !elem_of_app. do 7 right. left. by left. }
  apply canonicalJson_obj_some in Ho. by rewrite Forall_fmap in Ho.
Qed.
End Schema.

#[export] Hint Resolve flowJsonBytes_nonneg evidence_matches_intro : hacc.
