(* ===== verification/FlowInvariant.v ===== *)
(** * Which reachable execution states satisfy the persisted-state schema

    [apply_op] runs one runtime operation (src/web/lib/flow-runtime.ts) as the store
    does, [reachable] closes [createFlowExecutionState] under it, and the theorem of
    this file says exactly when the schema a state is parsed with when it is loaded
    again ([FlowExecutionStateSchema]) holds in a reachable state. [op_ok] is what a
    caller has to respect for it to hold always: only a successful settlement carries a
    result, and a promotion names a proof. *)

From S2P Require Import Prelude JsValue JsText Canonical Graph Flow FlowValidate FlowRuntime FlowSchema.

Local Open Scope Z_scope.

Class IsoDatetimeOk `{IsoDatetime} := iso_nonempty : iso_datetime [] = false.

(** ** Operations as data *)

Inductive FlowOp : Type :=
| SelectTopic (nodeId : jstr)
| EnterStep (path : jstr)
| Reserve (args : ReserveArgs)
| Dispatch (receiptId : jstr)
| Settle (args : SettleArgs)
| Promote (receiptId proofId : jstr) (res : jsval)
| ProveAbsent (receiptId proofId : jstr)
| MarkStale (receiptIds : list jstr)
| Complete (args : CompleteArgs)
| Rotate.

Section Invariant.
Context `{HS : Sha256, HSok : !Sha256Ok HS, HI : IsoDatetime, HIok : !IsoDatetimeOk}.

Definition map_ok {E A B} (f : A -> B) (r : result E A) : result E B :=
  let* a := r in Ok (f a).

Definition apply_op (flow : AgentFlow) (st : FlowExecutionState) (op : FlowOp) (now : jstr)
  : result RuntimeError FlowExecutionState :=
  match op with
  | SelectTopic nodeId => selectFlowTopic flow st nodeId now
  | EnterStep path => map_ok en_state (enterFlowStep flow st path now)
  | Reserve args => map_ok rs_state (reserveFlowAction flow st args now)
  | Dispatch id => map_ok fst (markFlowActionDispatchStarted st id now)
  | Settle args => map_ok fst (settleFlowAction st args now)
  | Promote id proof res => map_ok fst (promoteIndeterminateFlowAction st id proof res now)
  | ProveAbsent id proof => map_ok fst (proveIndeterminateFlowActionAbsent st id proof now)
  | MarkStale ids => Ok (markStaleDispatchedActionsIndeterminate st ids now)
  | Complete args => map_ok fst (completeFlowStep flow st args now)
  | Rotate => Ok (rotateFlowCapabilityEpoch st now)
  end.

Definition op_ok (op : FlowOp) : bool :=
  match op with
  | Settle args =>
      match sa_outcome args with
      | OutSucceeded => true
      | _ => bool_decide (defined (sa_result args) = None)
      end
  | Promote _ proof _ => nonempty proof
  | _ => true
  end.

(** Every state some sequence of operations leads to from a fresh call. *)
Inductive reachable (flow : AgentFlow) : FlowExecutionState -> Prop :=
| reach_create now : iso_datetime now = true -> reachable flow (createFlowExecutionState now)
| reach_step st op now st' :
    reachable flow st -> iso_datetime now = true ->
    apply_op flow st op now = Ok st' -> reachable flow st'.

(** The states of calls whose operations all respect [op_ok]. *)
Inductive disciplined (flow : AgentFlow) : FlowExecutionState -> Prop :=
| disc_create now : iso_datetime now = true -> disciplined flow (createFlowExecutionState now)
| disc_step st op now st' :
    disciplined flow st -> iso_datetime now = true -> op_ok op = true ->
    apply_op flow st op now = Ok st' -> disciplined flow st'.

(** ** Receipts *)

Lemma iso_truthy now : iso_datetime now = true -> truthy (Some now) = Some now.
Proof. intros Hn. destruct now; [|done]. by rewrite iso_nonempty in Hn. Qed.

Lemma hash_is_sha256 v h : hashFlowValue v = Some h -> is_sha256 h = true.
Proof. intros (t & _ & ->)%fmap_Some. apply sha256_hex. Qed.

Lemma receipt_good_mono strict n m r : receipt_good strict n r -> n <= m -> receipt_good strict m r.
Proof. intros [] Hm. constructor; try done. lia. Qed.

Lemma unsettled_iff r : unsettled r = true <-> a_status r = Reserved \/ a_status r = Indeterminate.
Proof. unfold unsettled. by rewrite orb_true_iff, !bool_decide_eq_true. Qed.

(** Arguments stay with a receipt until it is settled. *)
Lemma arguments_open r r' :
  arguments_refined r = true -> unsettled r = true -> a_arguments r' = a_arguments r ->
  a_argumentsBytes r' = a_argumentsBytes r -> a_argumentsHash r' = a_argumentsHash r ->
  a_argumentsCompacted r' = a_argumentsCompacted r -> arguments_refined r' = true.
Proof.
  unfold arguments_refined. intros H Hu -> -> -> ->. destruct (a_arguments r); [done|].
  rewrite Hu in H. by rewrite andb_false_r in H.
Qed.

Lemma with_dispatch_good strict n now r :
  iso_datetime now = true -> receipt_good strict n r -> a_status r = Reserved ->
  truthy (a_dispatchStartedAt r) = None -> receipt_good strict n (with_dispatch now r).
Proof.
  intros Hn [] Hs Hd. pose proof (iso_truthy now Hn) as Ht.
  assert (default 0 (a_dispatchAttempt r) = 0) as Ea
    by (unfold dispatch_refined in rg_dispatch; rewrite Hd in rg_dispatch; by to_prop).
  constructor; try done; cbn -[truthy non_negative]; rewrite ?Ea; try done.
  unfold dispatch_refined. cbn -[truthy]. rewrite Ht. by rewrite Ea.
Qed.

(** The evidence of a result that [result_evidence] produces, within the size limit. *)
Definition result_fields_ok (res : option (jsval * jstr * Z)) : Prop :=
  match res with
  | None => True
  | Some (v, h, b) =>
      is_sha256 h = true /\ non_negative b = true /\ evidence_matches v (Some h) (Some b) = true
  end.

Lemma small_non_negative b limit : 0 <= b -> (limit <? b) = false -> limit <= MAX_SAFE_INT -> non_negative b = true.
Proof. intros ? ? ?. to_prop. eapply safe_between; [|done]. lia. Qed.

Lemma result_evidence_spec v e :
  result_evidence v = Some e -> (MAX_FLOW_ACTION_RESULT_BYTES <? e.2) = false ->
  result_fields_ok (Some e).
Proof.
  unfold result_evidence. destruct (hashFlowValue v) as [h'|] eqn:Eh; [|done]. cbn.
  destruct (flowJsonBytes v) as [b'|] eqn:Eb; [|done]. cbn -[Z.ltb]. intros [= <-] Hlim.
  split_and!; eauto using hash_is_sha256 with hacc.
  eapply small_non_negative; [|exact Hlim|done]. eauto with hacc.
Qed.

(** Settling or reconciling an unsettled receipt keeps the record of its result. *)
Lemma with_outcome_result strict n status res err proof now r :
  receipt_good strict n r -> unsettled r = true -> result_fields_ok res ->
  let r' := with_outcome status res err proof now r in
  result_recorded r' = true /\ opt_all is_sha256 (a_resultHash r') = true /\
  opt_all non_negative (a_resultBytes r') = true /\ a_resultCompacted r' = false.
Proof.
  intros [] Hu Hres. destruct (rg_open Hu) as [Ec _]. to_prop.
  unfold result_recorded in *. rewrite Ec in *. destruct res as [[[v h] b]|]; cbn -[evidence_matches] in *.
  - destruct Hres as (Hh & Hb & ->). by rewrite Ec.
  - by rewrite Ec.
Qed.

Lemma with_outcome_good strict n status res err proof now r :
  iso_datetime now = true -> receipt_good strict n r -> unsettled r = true -> status <> Reserved ->
  result_fields_ok res ->
  (status <> Failed -> truthy (a_dispatchStartedAt r) <> None) ->
  (proof <> None -> status <> Indeterminate) ->
  (strict = true -> (status = Succeeded \/ res = None) /\ proof <> Some []) ->
  receipt_good strict n (with_outcome status res err proof now r).
Proof.
  intros Hn Hg Hu Hst Hres Hd Hproof Hstrict.
  destruct (with_outcome_result _ _ status res err proof now _ Hg Hu Hres) as (Hr & Hh & Hb & Ec).
  pose proof Hg as []. destruct (rg_open Hu) as [_ Ep]. to_prop.
  constructor; try done.
  - by eapply arguments_open.
  - by apply andb_true_iff.
  - unfold dispatch_refined in *. cbn -[truthy Z.leb Z.eqb] in *.
    destruct (truthy (a_dispatchStartedAt r)); [done|]. to_prop. apply andb_true_iff.
    split; [by apply Z.eqb_eq|]. destruct status; try done; exfalso; by apply Hd.
  - intros [?|Hi]%unsettled_iff; [done|]. split; [done|]. simpl in *. rewrite Ep.
    destruct proof; [by destruct Hproof|done].
  - intros E. destruct (Hstrict E) as [Hs Hp], (rg_tidy E) as [Ht _]. split; simpl.
    + intros Hns. destruct Hs as [| ->]; [done|]. split; [|done]. simpl. apply Ht.
      intros Es. apply unsettled_iff in Hu as [|]; congruence.
    + rewrite Ep. by destruct proof.
Qed.

Lemma is_sha256_nonempty h : is_sha256 h = true -> nonempty h = true.
Proof. by destruct h. Qed.

Lemma evidence_defined v h bytes :
  evidence_matches v h bytes = true -> defined (Some v) = Some v /\ h <> None.
Proof.
  unfold evidence_matches. destruct (hashFlowValue v) eqn:E; [|done].
  destruct (flowJsonBytes v); [|done]. intros Hm. to_prop. subst. split; [|done].
  destruct v; try done.
Qed.

(** Compaction keeps hashes and sizes and drops payloads. *)
Lemma compact_receipt_good strict n r :
  receipt_good strict n r -> a_status r = Succeeded \/ a_status r = Failed ->
  receipt_good strict n (compact_receipt r).
Proof.
  intros [] Hst. assert (unsettled r = false) as Hu.
  { apply not_true_iff_false. rewrite unsettled_iff. destruct Hst as [->| ->]; naive_solver. }
  to_prop. destruct (a_argumentsBytes r) as [ab|] eqn:Ea; [|done].
  unfold arguments_refined, result_recorded in *.
  assert (defined (a_result r) = a_result r /\
          (a_result r <> None -> a_resultBytes r <> None /\ a_resultHash r <> None)) as [Edef Hrb].
  { destruct (a_result r) as [v|]; [|done]. to_prop.
    by destruct (evidence_defined v (a_resultHash r) (a_resultBytes r)). }
  change (unsettled r) with (unsettled (compact_receipt r)) in Hu.
  constructor; try done; cbn -[evidence_matches flowJsonBytes defined truthy non_negative];
    rewrite ?Edef, ?Ea, ?Hu.
  - destruct (a_arguments r); to_prop; [done|]. by rewrite H1.
  - by destruct (a_arguments r).
  - destruct (a_arguments r), (a_result r); apply andb_true_iff; split; try done;
      by destruct (a_resultBytes r), Hrb.
  - destruct (a_result r); [|done]. by rewrite bool_decide_eq_true_2 by by apply Hrb.
  - done.
  - intros E. destruct (rg_tidy E) as [Ht Hp]. split; [|done]. simpl. rewrite Edef.
    intros Hs. destruct (Ht Hs) as [-> ->]. done.
Qed.

Lemma new_receipt_good strict n st args key step h b now :
  iso_datetime now = true -> 0 <= st_capabilityEpoch st <= n -> nonempty step = true ->
  nonempty (ra_receiptId args) = true -> nonempty (ra_tool args) = true -> is_sha256 key = true ->
  FLOW_ACTION_INVOCATION_ID (ra_invocationId args) = true ->
  opt_all (fun p => nonempty p && (length p <=? 256)%nat) (ra_providerInvocationId args) = true ->
  hashFlowValue (JObj (ra_arguments args)) = Some h -> flowJsonBytes (JObj (ra_arguments args)) = Some b ->
  (MAX_FLOW_ACTION_ARGUMENT_BYTES <? b) = false ->
  receipt_good strict n (new_receipt st args key step h b now).
Proof.
  intros Hn He ? ? ? Hk ? ? Hh Hb Hlim. pose proof (evidence_matches_intro _ _ _ Hh Hb) as Hev.
  apply hash_is_sha256 in Hh. apply flowJsonBytes_nonneg in Hb.
  assert (non_negative b = true) by (by eapply small_non_negative).
  pose proof (is_sha256_nonempty _ Hk).
  assert (opt_all (fun p => nonempty p && (length p <=? 256)%nat)
            (truthy (ra_providerInvocationId args)) = true)
    by (by destruct (ra_providerInvocationId args) as [[]|]).
  constructor; try done; cbn -[non_negative evidence_matches].
  - unfold receipt_static. cbn -[nonempty is_sha256 truthy opt_all].
    by rewrite !andb_true_iff.
  - unfold arguments_refined. cbn -[evidence_matches]. by rewrite Hev.
  - by apply andb_true_iff.
Qed.

(** ** Receipt updates *)

Abbreviation invocations rs := (truthy_list (a_invocationId <$> rs)).
Abbreviation providers rs := (truthy_list (a_providerInvocationId <$> rs)).

(** Counters stay below a revision that grew. *)
Lemma receipts_mono strict n rs :
  Forall (receipt_good strict n) rs -> Forall (receipt_good strict (n + 1)) rs.
Proof. intros H. eapply Forall_impl; [exact H|]. intros r Hr. eapply receipt_good_mono; [done|lia]. Qed.

Lemma attempts_mono (n : Z) (l : list (jstr * Z)) :
  Forall (fun kv => 0 <= kv.2 <= n) l -> Forall (fun kv => 0 <= kv.2 <= n + 1) l.
Proof. intros H. eapply Forall_impl; [exact H|]. simpl. lia. Qed.

Lemma set_receipts_ok strict st rs now :
  state_ok strict st -> iso_datetime now = true -> NoDup (a_id <$> rs) -> NoDup (invocations rs) ->
  NoDup (providers rs) -> Forall (receipt_good strict (st_revision st)) rs ->
  state_ok strict (updateState st (set_receipts rs) now).
Proof.
  intros [(n & En & Hn') Ha] Hn Hi Hv Hp Hr. constructor; simpl; try done.
  - exists n. split; [done|lia].
  - by apply attempts_mono.
  - lia.
  - by apply receipts_mono.
Qed.

(** An update that keeps every identity keeps the state well formed. *)
Lemma same_identities_ok strict st rs now :
  state_ok strict st -> iso_datetime now = true ->
  Forall2 (fun r r' => a_id r' = a_id r /\ a_invocationId r' = a_invocationId r /\
                       a_providerInvocationId r' = a_providerInvocationId r /\
                       receipt_good strict (st_revision st) r')
    (st_actionReceipts st) rs ->
  state_ok strict (updateState st (set_receipts rs) now).
Proof.
  intros Hok Hn Hrs.
  assert ((a_id <$> rs) = (a_id <$> st_actionReceipts st) /\
          (a_invocationId <$> rs) = (a_invocationId <$> st_actionReceipts st) /\
          (a_providerInvocationId <$> rs) = (a_providerInvocationId <$> st_actionReceipts st) /\
          Forall (receipt_good strict (st_revision st)) rs) as (Ei & Ev & Ep & Hr).
  { clear -Hrs. induction Hrs as [|r r' l l' (E1 & E2 & E3 & ?) _ (IH1 & IH2 & IH3 & IH4)]; csimpl.
    - repeat split; constructor.
    - rewrite IH1, IH2, IH3, E1, E2, E3. repeat split; by constructor. }
  apply set_receipts_ok; rewrite ?Ei, ?Ev, ?Ep; try done; apply Hok.
Qed.

Lemma replace_receipt_ok strict st i r r' now :
  state_ok strict st -> iso_datetime now = true -> st_actionReceipts st !! i = Some r ->
  a_id r' = a_id r -> a_invocationId r' = a_invocationId r ->
  a_providerInvocationId r' = a_providerInvocationId r -> receipt_good strict (st_revision st) r' ->
  state_ok strict (replace_receipt st i r' now).
Proof.
  intros Hok Hn Hi ? ? ? ?. apply same_identities_ok; [done..|].
  apply Forall2_same_length_lookup. split; [by rewrite length_insert|].
  intros j x y Hx Hy. pose proof (ok_receipts _ _ Hok) as Hr. rewrite Forall_lookup in Hr.
  apply list_lookup_insert_Some in Hy as [(<- & <- & _) | (Hne & Hy)]; simplify_eq.
  - done.
  - specialize (Hr _ _ Hx). repeat (split; [done|]). exact Hr.
Qed.

Lemma findIndex_good strict st id i r :
  state_ok strict st -> findIndex id st = Some (i, r) ->
  st_actionReceipts st !! i = Some r /\ a_id r = id /\ receipt_good strict (st_revision st) r.
Proof.
  intros Hok (Hi & Hid & _)%list_find_Some. split_and!; [done..|].
  pose proof (ok_receipts _ _ Hok) as Hr. rewrite Forall_lookup in Hr. exact (Hr _ _ Hi).
Qed.

Lemma dispatch_preserves strict st id now st' r :
  state_ok strict st -> iso_datetime now = true -> markFlowActionDispatchStarted st id now = Ok (st', r) ->
  state_ok strict st'.
Proof.
  intros Hok Hn Hop. unfold markFlowActionDispatchStarted in Hop. split_guards Hop. to_prop.
  injection Hop as <- <-. edestruct findIndex_good as (Hi & _ & Hg); [done..|].
  eapply replace_receipt_ok; [done..|].
  apply with_dispatch_good; try done. by apply dec_stable.
Qed.

(** What [settle_with] needs from the evidence it is given. *)
Lemma settle_with_preserves strict st i current args res now st' r :
  state_ok strict st -> iso_datetime now = true -> st_actionReceipts st !! i = Some current ->
  receipt_good strict (st_revision st) current ->
  ((match res with Some (_, _, b) => MAX_FLOW_ACTION_RESULT_BYTES <? b | None => false end) = false ->
   result_fields_ok res) ->
  (strict = true -> sa_outcome args = OutSucceeded \/ res = None) ->
  settle_with st i current args res now = Ok (st', r) -> state_ok strict st'.
Proof.
  intros Hok Hn Hi Hg Hres Hstr Hop. unfold settle_with, budgeted in Hop.
  destruct (match res with Some _ => _ | None => _ end) eqn:Elim; [done|].
  destruct (negb _) eqn:Hst; [by split_guards Hop; simplify_eq|].
  destruct (_ && _) eqn:Hd in Hop; [done|].
  destruct (flowStateBudgetError _); [done|]. injection Hop as <- <-. to_prop.
  eapply replace_receipt_ok; [done..|]. apply with_outcome_good; try done; auto.
  - unfold unsettled. by rewrite Hst.
  - by destruct (sa_outcome args).
  - intros Hf Hnone. rewrite Hnone in Hd. by destruct (sa_outcome args).
  - intros E. split; [|done]. destruct (Hstr E) as [-> |]; auto.
Qed.

Lemma settle_preserves strict st args now st' r :
  state_ok strict st -> iso_datetime now = true -> (strict = true -> op_ok (Settle args) = true) ->
  settleFlowAction st args now = Ok (st', r) -> state_ok strict st'.
Proof.
  intros Hok Hn Hop H. unfold settleFlowAction in H.
  destruct (findIndex _ _) as [[i current]|] eqn:Ef; [|done].
  edestruct findIndex_good as (Hi & _ & Hg); [done..|].
  destruct (match sa_error args with Some _ => _ | None => _ end); [done|].
  destruct (defined (sa_result args)) as [v|] eqn:Ev.
  - destruct (result_evidence v) as [[[v' h] b]|] eqn:Ee; [|done].
    eapply (settle_with_preserves _ _ _ _ _ (Some (v', h, b))); [done..| | |done].
    { exact (result_evidence_spec v (v', h, b) Ee). }
    intros E. left. specialize (Hop E). simpl in Hop. rewrite Ev in Hop. by destruct (sa_outcome args).
  - eapply (settle_with_preserves _ _ _ _ _ None); try done. auto.
Qed.

Lemma promote_preserves strict st id proof v now st' r :
  state_ok strict st -> iso_datetime now = true -> (strict = true -> op_ok (Promote id proof v) = true) ->
  promoteIndeterminateFlowAction st id proof v now = Ok (st', r) -> state_ok strict st'.
Proof.
  intros Hok Hn Hop H. unfold promoteIndeterminateFlowAction, budgeted in H.
  split_guards H. to_prop. injection H as <- <-.
  edestruct findIndex_good as (Hi & _ & Hg); [done..|].
  eapply replace_receipt_ok; [done..|]. apply with_outcome_good; try done.
  - apply unsettled_iff. by right.
  - eapply result_evidence_spec; [done|]. by apply Z.ltb_ge.
  - intros E. split; [by left|]. specialize (Hop E). by destruct proof.
Qed.

Lemma prove_absent_preserves strict st id proof now st' r :
  state_ok strict st -> iso_datetime now = true ->
  proveIndeterminateFlowActionAbsent st id proof now = Ok (st', r) -> state_ok strict st'.
Proof.
  intros Hok Hn H. unfold proveIndeterminateFlowActionAbsent in H.
  split_guards H. to_prop. injection H as <- <-.
  edestruct findIndex_good as (Hi & _ & Hg); [done..|].
  eapply replace_receipt_ok; [done..|]. apply with_outcome_good; try done.
  - apply unsettled_iff. by right.
  - intros _. split; [by right|]. by destruct proof.
Qed.

Lemma stale_preserves strict st ids now :
  state_ok strict st -> iso_datetime now = true ->
  state_ok strict (markStaleDispatchedActionsIndeterminate st ids now).
Proof.
  intros Hok Hn. unfold markStaleDispatchedActionsIndeterminate. destruct (existsb _ _); [|done].
  apply same_identities_ok; [done..|]. pose proof (ok_receipts _ _ Hok) as Hr.
  apply Forall2_fmap_r, Forall_Forall2_diag. eapply Forall_impl; [exact Hr|].
  intros r Hg. unfold compose. destruct (is_stale ids r) eqn:Es; simpl; [|by split_and!].
  split_and!; [done..|]. unfold is_stale in Es. to_prop.
  apply with_outcome_good; try done; [|by auto]. apply unsettled_iff. by left.
Qed.

(** ** Reservations *)

Lemma grantedTools_names flow st tool :
  AgentFlowSchema_ok flow = true -> tool ∈ grantedTools flow st -> TOOL_NAME tool = true.
Proof.
  intros Hok. unfold grantedTools. destruct (finished st); [by apply alwaysTools_names|].
  rewrite elem_of_uniq, !elem_of_app. intros [?|[Hn|Hs]]; [by eapply alwaysTools_names| |].
  - unfold topic in Hn. destruct (List.find _ _) as [node|] eqn:Ef; simpl in Hn; [|set_solver].
    apply find_elem in Ef as [Hin _]. apply (node_schema _ _ Hok), andb_true_iff in Hin as [_ Hin].
    rewrite forallb_elem in Hin. by apply Hin.
  - destruct (activeStep st); [|set_solver]. destruct (findStep _ _) as [ref|] eqn:Ef; [|set_solver].
    apply findStep_spec in Ef as [Href _]. destruct (step_schema _ _ Hok Href) as [H1 H2].
    apply elem_of_app in Hs as [(a & Ha & Ht)%elem_of_flat_map|Hs].
    + rewrite Forall_forall in H2. specialize (H2 _ Ha). apply step_tools_names in H2.
      rewrite Forall_forall in H2. by apply H2.
    + apply step_tools_names in H1. rewrite Forall_forall in H1. by apply H1.
Qed.

Lemma tool_name_nonempty tool : TOOL_NAME tool = true -> nonempty tool = true.
Proof. by destruct tool. Qed.

Lemma activeStep_Some st step :
  activeStep st = Some step <->
  st_currentStep st = Some step /\ step <> [] /\ step ∉ st_completedSteps st.
Proof.
  unfold activeStep. destruct (truthy _) as [s|] eqn:E.
  - apply truthy_Some in E as [-> Hs]. destruct (includes _ _) eqn:Ei; to_prop; naive_solver.
  - split; [done|]. intros (E' & Hs & _). by rewrite (proj2 (truthy_Some _ _) (conj E' Hs)) in E.
Qed.

Lemma capability_scope_nonempty st : nonempty (flowCapabilityScope st).1 = true.
Proof.
  unfold flowCapabilityScope. destruct (activeStep st) as [s|] eqn:E.
  - apply activeStep_Some in E as (_ & Hs & _). by destruct s.
  - destruct (finished st); [done|]. by destruct (truthy (st_nodeId st)).
Qed.

Lemma elem_of_truthy_list x l : x ∈ truthy_list l -> Some x ∈ l.
Proof.
  unfold truthy_list. rewrite list_elem_of_omap. intros ([[|c s]|] & Hin & E); try done.
  simpl in E. by injection E as <-.
Qed.

(** Appending a receipt none of whose identities is taken. *)
Lemma NoDup_truthy_snoc l o :
  NoDup (truthy_list l) -> (forall s, truthy o = Some s -> Some s ∉ l) ->
  NoDup (truthy_list (l ++ [o])).
Proof.
  intros Hnd Ho. unfold truthy_list. rewrite omap_app. simpl.
  destruct (truthy o) as [s|] eqn:E; [|by rewrite app_nil_r].
  apply NoDup_snoc; [done|]. intros Hin. apply elem_of_truthy_list in Hin. by eapply Ho.
Qed.

Lemma admit_preserves strict flow st args h b now res :
  state_ok strict st -> iso_datetime now = true -> TOOL_NAME (ra_tool args) = true ->
  nonempty (ra_receiptId args) = true -> FLOW_ACTION_INVOCATION_ID (ra_invocationId args) = true ->
  opt_all (fun p => nonempty p && (length p <=? 256)%nat) (ra_providerInvocationId args) = true ->
  hashFlowValue (JObj (ra_arguments args)) = Some h -> flowJsonBytes (JObj (ra_arguments args)) = Some b ->
  (MAX_FLOW_ACTION_ARGUMENT_BYTES <? b) = false ->
  (forall r, r ∈ st_actionReceipts st ->
     a_id r <> ra_receiptId args /\ a_invocationId r <> Some (ra_invocationId args) /\
     (forall p, truthy (ra_providerInvocationId args) = Some p -> a_providerInvocationId r <> Some p)) ->
  admit_action flow st args h b now = Ok res -> state_ok strict (rs_state res).
Proof.
  intros Hok Hn Htool Hid Hinv Hprov Hh Hb Hlim Hfresh Hop. unfold admit_action in Hop.
  pose proof (capability_scope_nonempty st) as Hstep.
  destruct (flowCapabilityScope st) as [step attempt]. simpl in Hstep.
  destruct (actionIdempotencyKey _ _ _ _ _ _) as [key|] eqn:Ek; [|done].
  apply hash_is_sha256 in Ek. destruct (findReceipt _ _); [by injection Hop as <-|].
  destruct (match _ with Some _ => _ | None => false end); [done|].
  destruct (MAX_FLOW_ACTION_RECEIPTS_PER_CALL <=? _)%nat; [done|].
  destruct (flowStateBudgetError _); [done|]. injection Hop as <-. simpl.
  pose proof Hok as []. apply set_receipts_ok; rewrite ?fmap_app; simpl; try done.
  - apply NoDup_snoc; [done|]. intros (r & E & Hr)%list_elem_of_fmap. destruct (Hfresh r Hr) as (Hne & _). congruence.
  - apply NoDup_truthy_snoc; [done|]. intros s [[= <-] _]%truthy_Some (r & E & Hr)%list_elem_of_fmap.
    destruct (Hfresh r Hr) as (_ & Hne & _). congruence.
  - apply NoDup_truthy_snoc; [done|]. intros s [Es _]%truthy_Some (r & E & Hr)%list_elem_of_fmap.
    destruct (Hfresh r Hr) as (_ & _ & Hne). by eapply Hne.
  - apply Forall_app. split; [done|]. apply Forall_singleton.
    apply new_receipt_good; auto using tool_name_nonempty.
Qed.

Lemma reserve_preserves strict flow st args now res :
  AgentFlowSchema_ok flow = true -> state_ok strict st -> iso_datetime now = true ->
  reserveFlowAction flow st args now = Ok res -> state_ok strict (rs_state res).
Proof.
  intros Hflow Hok Hn Hop. unfold reserveFlowAction in Hop.
  destruct (negb (_ =? _)); [done|]. destruct (bool_decide (ra_receiptId args = [])) eqn:Eid; [done|].
  destruct (negb (FLOW_ACTION_INVOCATION_ID _)) eqn:Einv; [done|].
  destruct (match ra_providerInvocationId args with Some _ => _ | None => _ end) eqn:Ep; [done|].
  destruct (_ && _); [done|]. destruct (negb (includes _ _)) eqn:Eg; [done|].
  destruct (hashFlowValue _) as [h|] eqn:Eh; [|done].
  destruct (flowJsonBytes _) as [b|] eqn:Eb; [|done]. destruct (_ <? b) eqn:Elim; [done|].
  destruct (findReceipt _ _) eqn:E1; [by split_guards Hop; simplify_eq|].
  destruct (findReceipt _ _) eqn:E2 in Hop; [by split_guards Hop; simplify_eq|].
  destruct (match truthy _ with Some _ => _ | None => _ end) eqn:E3;
    [by split_guards Hop; simplify_eq|].
  to_prop. unfold findReceipt in *. rewrite find_none_elem in E1, E2.
  eapply admit_preserves; [done|done|by eapply grantedTools_names| |done| |done|done| | |exact Hop].
  - by destruct (ra_receiptId args).
  - destruct (ra_providerInvocationId args) as [p|]; simpl; [|done].
    apply orb_false_iff in Ep as [H1%Nat.ltb_ge H2%Nat.ltb_ge].
    apply andb_true_iff; split; by apply Nat.leb_le.
  - by apply Z.ltb_ge.
  - intros r Hr. specialize (E1 r Hr). specialize (E2 r Hr). to_prop. split_and!; [done..|].
    intros p Hp. rewrite Hp, find_none_elem in E3. specialize (E3 r Hr). by to_prop.
Qed.

(** ** Position changes *)

(** A capability update that keeps entries, attempts and receipts. *)
Lemma bumped_ok strict st patch now :
  state_ok strict st -> iso_datetime now = true ->
  let p := patch st in
  st_stepEntries p = st_stepEntries st -> st_attempts p = st_attempts st ->
  st_actionReceipts p = st_actionReceipts st ->
  forallb (fun c => iso_datetime c.2) (st_checkpoints p) = true -> NoDup (st_completedSteps p) ->
  position_refined p = true -> outputs_refined p = true ->
  state_ok strict (updateCapabilities st patch now).
Proof.
  intros [(n & En & ?) Ha] Hn p E1 E2 E3 ? ? ? ?. constructor; simpl; fold p; rewrite ?E1, ?E2, ?E3; try done.
  - exists n. split; [done|lia].
  - by apply attempts_mono.
  - lia.
  - by apply receipts_mono.
Qed.

Lemma select_preserves strict flow st id now st' :
  state_ok strict st -> iso_datetime now = true -> selectFlowTopic flow st id now = Ok st' -> state_ok strict st'.
Proof.
  intros Hok Hn Hop. unfold selectFlowTopic in Hop. split_guards Hop; simplify_eq; [done|].
  pose proof Hok as []. by apply bumped_ok.
Qed.

Lemma rotate_preserves strict st now :
  state_ok strict st -> iso_datetime now = true -> state_ok strict (rotateFlowCapabilityEpoch st now).
Proof. intros Hok Hn. pose proof Hok as []. by apply (bumped_ok _ _ (fun s => s)). Qed.

Lemma outputs_refined_iff st :
  outputs_refined st = true <->
  (forall step, step ∈ st_completedSteps st -> step ∈ keys (st_outputs st)) /\
  (forall k o, (k, o) ∈ st_outputs st ->
     k ∈ st_completedSteps st /\ is_Some (canonicalJson (JObj o))) /\
  (forall c, c ∈ st_checkpoints st -> c.1 ∈ st_completedSteps st).
Proof.
  unfold outputs_refined. rewrite !andb_true_iff, !forallb_elem. setoid_rewrite has_own_iff.
  setoid_rewrite includes_iff. rewrite Logic.and_assoc. apply and_iff_compat_l, and_iff_compat_r.
  split.
  - intros Hk k o Hin. specialize (Hk _ Hin). apply andb_true_iff in Hk as [Hc Hh].
    split; [by apply includes_iff|]. apply hash_some_iff. simpl in Hh.
    destruct (hashFlowValue (JObj o)) eqn:E; [by eexists | done].
  - intros Hk [k o] Hin. destruct (Hk _ _ Hin) as [Hc [h Hh]%hash_some_iff]. simpl.
    rewrite Hh, andb_true_r. by apply includes_iff.
Qed.

Lemma total_entries_bound strict st : state_ok strict st -> 0 <= total_entries st <= st_revision st + 1.
Proof. intros Hok. unfold total_entries. destruct (ok_entries _ _ Hok) as (n & -> & Hn). simpl. lia. Qed.

Lemma attempts_bound strict st step : state_ok strict st -> 0 <= attempts_of st step <= st_revision st.
Proof.
  intros Hok. pose proof (ok_epoch _ _ Hok).
  unfold attempts_of. destruct (own step (st_attempts st)) as [n|] eqn:E; simpl; [|lia].
  apply own_elem_of in E. pose proof (ok_attempts _ _ Hok) as Ha. rewrite Forall_forall in Ha.
  exact (Ha _ E).
Qed.

(** The guards of a successful entry and the state it produces. *)
Definition retries (st : FlowExecutionState) (path : jstr) : bool :=
  bool_decide (st_currentStep st = Some path) && negb (includes path (st_completedSteps st)).

Definition entry_attempt (st : FlowExecutionState) (path : jstr) : Z :=
  if retries st path then attempts_of st path + 1 else 1.

Lemma enter_spec flow st path now en :
  enterFlowStep flow st path now = Ok en ->
  exists ref,
    findStep flow path = Some ref /\ finished st = false /\
    (forall step, activeStep st = Some step -> pending_receipts st step = []) /\
    (retries st path = true \/ path ∈ allowedStepPaths flow st) /\
    (forall a, a ∈ ancestor_paths ref -> a ∈ st_completedSteps st) /\
    entry_attempt st path <= max_attempts (r_step ref) /\
    (forall limit, f_max_step_entries flow = Some limit -> limit <> 0 -> total_entries st <= limit) /\
    en_state en = updateCapabilities st
      (enter_patch path (r_nodeId ref) (entry_attempt st path) (total_entries st)) now /\
    en_step en = r_step ref /\ en_path en = path /\
    en_availableTools en = grantedTools flow (en_state en) /\
    en_nextSteps en = allowedStepPaths flow (en_state en).
Proof.
  unfold enterFlowStep. fold (retries st path). cbv zeta. fold (entry_attempt st path).
  destruct (finished st); [done|]. destruct (findStep flow path) as [ref|] eqn:Ef; [|done].
  destruct (match activeStep st with Some _ => _ | None => _ end) eqn:Ep; [done|].
  destruct (bool_decide (Some (r_nodeId ref) <> st_nodeId st) && _); [done|].
  destruct (negb (retries st path) && _) eqn:Er; [done|].
  destruct (existsb _ _) eqn:Ea; [done|]. destruct (max_attempts _ <? _) eqn:Em; [done|].
  destruct (match f_max_step_entries flow with Some _ => _ | None => _ end) eqn:El; [done|].
  intros [= <-]. exists ref. to_prop. split_and!; try done.
  - intros step E. rewrite E in Ep. to_prop. by apply dec_stable.
  - apply andb_false_iff in Er as [Er|Er]; to_prop; tauto.
  - intros a Hin. rewrite existsb_elem_false in Ea. specialize (Ea _ Hin). by to_prop.
  - intros limit E Hne. rewrite E in El. apply andb_false_iff in El as [El|El]; to_prop; [done|lia].
Qed.

Lemma enter_preserves strict flow st path now en :
  state_ok strict st -> iso_datetime now = true -> enterFlowStep flow st path now = Ok en ->
  state_ok strict (en_state en).
Proof.
  intros Hok Hn (ref & _ & _ & _ & _ & _ & _ & _ & -> & _)%enter_spec.
  pose proof Hok as [_ Hatt ? ? ? ? _ (Ho1 & Ho2 & Ho3)%outputs_refined_iff ? ? ? Hr].
  assert (0 <= entry_attempt st path <= st_revision st + 1) as Ha
    by (pose proof (attempts_bound _ st path Hok); unfold entry_attempt; destruct (retries _ _); lia).
  constructor; simpl; try done; auto using NoDup_filter_list, forallb_filter, receipts_mono; try lia.
  - exists (total_entries st). split; [done|]. by eapply total_entries_bound.
  - apply Forall_forall. intros kv [->|Hin]%elem_of_put; [done|].
    apply attempts_mono in Hatt. rewrite Forall_forall in Hatt. by apply Hatt.
  - apply outputs_refined_iff. cbn -[in_subtree keys canonicalJson]. split_and!.
    + intros step [Hs Hk]%elem_of_filter_list. rewrite <- own_is_Some.
      rewrite (own_filter_keys (fun k => negb (in_subtree path k))), Hk. by apply own_is_Some, Ho1.
    + intros k o [Hin Hk]%elem_of_filter_list. destruct (Ho2 _ _ Hin). rewrite elem_of_filter_list.
      by split_and!.
    + intros c [Hin Hk]%elem_of_filter_list. rewrite elem_of_filter_list. split; [by apply Ho3|done].
Qed.

(** The guards of a completion that changes the state. *)
Lemma complete_spec flow st args now st' next :
  completeFlowStep flow st args now = Ok (st', next) ->
  (exists path, st_currentStep st = Some path /\ path ∈ st_completedSteps st /\ st' = st /\
                next = allowedStepPaths flow st) \/
  exists path ref supplied outputs,
    activeStep st = Some path /\ findStep flow path = Some ref /\
    pending_receipts st path = [] /\
    supplied_outputs (ca_outputs args) = Some supplied /\
    truthy (unsafe_output supplied) = None /\
    verifiedOutputs st ref supplied = Ok outputs /\
    Forall (fun k => output_missing outputs k = false) (s_required_outputs (r_step ref)) /\
    let patch := complete_patch path outputs (default false (s_checkpoint (r_step ref))) now in
    let final s := if bool_decide (next = []) then set_position Completed (st_nodeId s) None s else s in
    next = allowedStepPaths flow (patch st) /\
    st' = updateCapabilities st (fun s => final (patch s)) now /\ flowStateBudgetError st' = None.
Proof.
  unfold completeFlowStep, budgeted. destruct (truthy _) as [path|] eqn:Ep; [|done].
  destruct (bool_decide (Some path <> _)) eqn:Ec; [done|]. to_prop. apply dec_stable in Ec.
  destruct (includes path _) eqn:Ei; to_prop; [intros [= <- <-]; left; by exists path|].
  destruct (findStep flow path) as [ref|] eqn:Ef; [|done].
  destruct (findStep_spec _ _ _ Ef) as [_ Epath].
  destruct (bool_decide (pending_receipts _ _ <> [])) eqn:Epe; [done|].
  destruct (supplied_outputs _) as [supplied|] eqn:Es; [|done].
  destruct (bool_decide (truthy _ <> None)) eqn:Ek; [done|]. destruct (bool_decide _) in |- *; [done|].
  destruct (verifiedOutputs _ _ _) as [outputs|] eqn:Ev; [|done]. cbn [bind_result].
  destruct (existsb _ _) eqn:Er in |- *; [done|]. cbv zeta.
  destruct (flowStateBudgetError _) eqn:Eb; [done|]. intros [= <- <-]. right. to_prop.
  rewrite existsb_elem_false in Er. apply dec_stable in Epe, Ek. rewrite Epath in Epe.
  exists path, ref, supplied, outputs. split_and!; try done.
  - apply activeStep_Some. split_and!; [done| |done]. by apply truthy_Some in Ep as [_ ?].
  - by apply Forall_forall.
Qed.

Lemma compact_list_ok strict st path rs :
  state_ok strict st -> rs = compactCompletedStepReceipts (st_actionReceipts st) path ->
  (a_id <$> rs) = (a_id <$> st_actionReceipts st) /\
  (a_invocationId <$> rs) = (a_invocationId <$> st_actionReceipts st) /\
  (a_providerInvocationId <$> rs) = (a_providerInvocationId <$> st_actionReceipts st) /\
  Forall (receipt_good strict (st_revision st)) rs.
Proof.
  intros Hok ->. unfold compactCompletedStepReceipts. rewrite <- !list_fmap_compose. split_and!.
  1-3: apply list_fmap_ext; intros i r _; simpl; by destruct (compactable path r).
  apply Forall_fmap. eapply Forall_impl; [exact (ok_receipts _ _ Hok)|].
  intros r Hg. simpl. destruct (compactable path r) eqn:Ec; [|done].
  unfold compactable in Ec. apply andb_true_iff in Ec as [_ Ec].
  apply compact_receipt_good; [done|]. apply orb_true_iff in Ec as [|]; to_prop; auto.
Qed.

(** The output, checkpoint and completion records after a completion. *)
Lemma complete_outputs_ok st path outputs (checkpoint : bool) now :
  outputs_refined st = true ->
  Forall (fun kv => is_Some (canonicalJson (JObj kv.2))) (put path outputs (st_outputs st)) ->
  forall st',
    st_completedSteps st' = uniq (st_completedSteps st ++ [path]) ->
    st_outputs st' = put path outputs (st_outputs st) ->
    st_checkpoints st' = st_checkpoints st ++ (if checkpoint then [(path, now)] else []) ->
    outputs_refined st' = true.
Proof.
  intros (Ho1 & Ho2 & Ho3)%outputs_refined_iff Hser st' Ec Eo Ek. rewrite Forall_forall in Hser.
  assert (forall x, x ∈ st_completedSteps st' <-> x ∈ st_completedSteps st \/ x = path) as Hc
    by (intros x; rewrite Ec, elem_of_uniq, elem_of_app, list_elem_of_singleton; done).
  apply outputs_refined_iff. rewrite Eo, Ek. setoid_rewrite Hc. setoid_rewrite elem_of_keys_put.
  split_and!.
  - intros step [Hs| ->]; auto.
  - intros k o Hin. split; [|by apply (Hser (k, o))].
    apply elem_of_put in Hin as [E|Hin]; [injection E as -> ->; by right|]. left. by eapply Ho2.
  - intros c [Hin|Hin]%elem_of_app; [left; by apply Ho3|]. destruct checkpoint; [|set_solver].
    apply list_elem_of_singleton in Hin as ->. by right.
Qed.

Lemma complete_preserves strict flow st args now st' next :
  state_ok strict st -> iso_datetime now = true -> completeFlowStep flow st args now = Ok (st', next) ->
  state_ok strict st'.
Proof.
  intros Hok Hn H. apply complete_spec in H as
    [(? & _ & _ & -> & _)|(path & ref & supplied & outputs & _ & _ & _ & _ & _ & _ & _ & Hst)]; [done|].
  cbv zeta in Hst. destruct Hst as (_ & Est & Hb%budget_outputs_ok).
  destruct (compact_list_ok _ st path _ Hok eq_refl) as (Ei & Ev & Ep & Hr).
  pose proof Hok as [(n & ? & ?) ? Hcp ? ? ? Hpos Ho ? ? ? ?].
  assert (forallb (fun c => iso_datetime c.2) (st_checkpoints st ++
    (if default false (s_checkpoint (r_step ref)) then [(path, now)] else [])) = true) as Hcp'.
  { rewrite forallb_app, Hcp. destruct (default _ _); [|done]. simpl. by rewrite Hn. }
  destruct (bool_decide (next = [])) eqn:En; subst st'; constructor; simpl in *;
    rewrite ?Ei, ?Ev, ?Ep; try done; try apply NoDup_uniq; try lia;
    auto using attempts_mono, receipts_mono;
    first [by eapply complete_outputs_ok | exists n; split; [done|lia]].
Qed.

(** ** The invariant *)

Lemma create_ok strict now : iso_datetime now = true -> state_ok strict (createFlowExecutionState now).
Proof. intros Hn. constructor; simpl; try done; try constructor; try lia. by exists 0. Qed.

Lemma map_ok_inv {E A B} (f : A -> B) (r : result E A) b :
  map_ok f r = Ok b -> exists a, r = Ok a /\ b = f a.
Proof. destruct r; simpl; intros; simplify_eq; eauto. Qed.

Lemma apply_op_preserves strict flow st op now st' :
  AgentFlowSchema_ok flow = true -> state_ok strict st -> iso_datetime now = true -> (strict = true -> op_ok op = true) ->
  apply_op flow st op now = Ok st' -> state_ok strict st'.
Proof.
  intros Hflow Hok Hn Hop Happ. destruct op; simpl in Happ;
    try (apply map_ok_inv in Happ as (a & Happ & ->)).
  - by eapply select_preserves.
  - by eapply enter_preserves.
  - by eapply reserve_preserves.
  - destruct a. by eapply dispatch_preserves.
  - destruct a. by eapply settle_preserves.
  - destruct a. by eapply promote_preserves.
  - destruct a. by eapply prove_absent_preserves.
  - injection Happ as <-. by apply stale_preserves.
  - destruct a. by eapply complete_preserves.
  - injection Happ as <-. by apply rotate_preserves.
Qed.

Lemma reachable_ok flow st :
  AgentFlowSchema_ok flow = true -> reachable flow st -> state_ok false st.
Proof.
  intros Hflow. induction 1; [by apply create_ok | by eapply apply_op_preserves].
Qed.

Lemma disciplined_ok flow st :
  AgentFlowSchema_ok flow = true -> disciplined flow st -> state_ok true st.
Proof.
  intros Hflow. induction 1; [by apply create_ok | by eapply apply_op_preserves].
Qed.

(** Runs operations in order, all at the same clock value. *)
Fixpoint run_ops (flow : AgentFlow) (st : FlowExecutionState) (ops : list FlowOp) (now : jstr)
  : result RuntimeError FlowExecutionState :=
  match ops with
  | [] => Ok st
  | op :: ops => let* st' := apply_op flow st op now in run_ops flow st' ops now
  end.

Lemma run_ops_reachable flow st ops now st' :
  reachable flow st -> iso_datetime now = true ->
  run_ops flow st ops now = Ok st' -> reachable flow st'.
Proof.
  intros Hr Hn. revert st Hr. induction ops as [|op ops IH]; intros st Hr Hrun; simpl in *.
  - by injection Hrun as <-.
  - destruct (apply_op flow st op now) as [st1|] eqn:E; [|done]. simpl in Hrun.
    eapply IH; [|exact Hrun]. by eapply reach_step.
Qed.


End Invariant.
