(* ===== verification/FlowDemo.v ===== *)
(** * A concrete flow and call

    A two-step refund flow the validator accepts, a clock check and a recorded call
    through it. The other files apply their theorems to this call. *)

From S2P Require Import Prelude JsValue JsText Canonical Graph Flow FlowValidate FlowRuntime FlowSchema.
From S2P Require Import FlowInvariant.

Local Open Scope Z_scope.

(** Accepts the 24-character timestamps [Date.prototype.toISOString] writes. *)
Definition demo_iso_check (s : jstr) : bool :=
  (length s =? 24)%nat && bool_decide (last s = Some 90%N).
Definition demo_iso : IsoDatetime := demo_iso_check.
#[local] Existing Instance demo_iso.
#[local] Existing Instance demo_sha256.
#[export] Instance demo_iso_ok : IsoDatetimeOk (H := demo_iso).
Proof. reflexivity. Qed.

Definition demo_now : jstr := js "2026-01-05T10:00:00.000Z".

Definition demo_policy : FlowActionPolicy := simple_policy "lookup_order" 1 PerCall.

(** The refunded order is the one the lookup returned. *)
Definition demo_refund_policy : FlowActionPolicy :=
  {| ap_tool := js "issue_refund"; ap_max_calls := Some 1; ap_idempotency := Some PerCall;
     ap_effect := Some EffectWrite; ap_reconciliation := None;
     ap_bound_arguments := [{| ba_argument := js "order"; ba_source_tool := js "lookup_order";
                               ba_result_path := js "$.id" |}] |}.

Definition demo_confirm : FlowStep :=
  mkFlowStep
    {| s_id := js "confirm"; s_label := js "Confirm"; s_instructions := js "Confirm the refund.";
       s_context := None; s_entry := None; s_tools := []; s_required_outputs := [];
       s_output_bindings := []; s_action_policies := []; s_success_criteria := [];
       s_transitions := []; s_on_failure := None; s_max_attempts := None;
       s_checkpoint := None |} [].

Definition demo_lookup : FlowStep :=
  mkFlowStep
    {| s_id := js "lookup"; s_label := js "Look up"; s_instructions := js "Find the order.";
       s_context := None; s_entry := Some true;
       s_tools := [js "lookup_order"; js "issue_refund"]; s_required_outputs := [js "order"];
       s_output_bindings := [{| ob_output := js "order"; ob_tool := js "lookup_order";
                                ob_result_path := js "$.id"; ob_value_type := Some VString |}];
       s_action_policies := [demo_policy; demo_refund_policy]; s_success_criteria := [];
       s_transitions := []; s_on_failure := None; s_max_attempts := Some 2;
       s_checkpoint := Some true |} [demo_confirm].

Definition demo_flow : AgentFlow :=
  {| f_schema_version := Some 2; f_always_tools := None; f_always_action_policies := [];
     f_tool_exposure := None; f_max_step_entries := Some 10;
     f_nodes :=
       [plain_node (js "entry") (js "Incoming call") KIncomingCall;
        {| n_id := js "refund"; n_label := js "Refund"; n_kind := KTopic; n_icon := None;
           n_active := None; n_context := None; n_steps := [demo_lookup];
           n_support_number := None; n_table := None; n_tools := [] |}];
     f_edges := [{| e_from := js "entry"; e_to := js "refund"; e_label := None; e_when := None |}] |}.

Definition demo_reserve : ReserveArgs :=
  {| ra_receiptId := js "receipt-1"; ra_invocationId := js "AAAAAAAAAAAAAAAAAAAAAAAA";
     ra_tool := js "lookup_order"; ra_arguments := [(js "phone", JStr (js "555"))];
     ra_capabilityEpoch := 2; ra_providerInvocationId := None |}.

Definition demo_settle : SettleArgs :=
  {| sa_receiptId := js "receipt-1"; sa_outcome := OutSucceeded;
     sa_result := Some (JObj [(js "id", JStr (js "A1"))]); sa_error := None |}.

Definition demo_ops : list FlowOp :=
  [SelectTopic (js "refund"); EnterStep (js "refund.lookup"); Reserve demo_reserve;
   Dispatch (js "receipt-1"); Settle demo_settle;
   Complete {| ca_path := None; ca_outputs := None |}; EnterStep (js "refund.lookup.confirm")].

(** The state after the first [n] operations of the call. *)
Definition demo_state (n : nat) : FlowExecutionState :=
  match run_ops demo_flow (createFlowExecutionState demo_now) (take n demo_ops) demo_now with
  | Ok st => st
  | Err _ => createFlowExecutionState demo_now
  end.

Lemma demo_reachable n : reachable demo_flow (demo_state n).
Proof.
  assert (iso_datetime demo_now = true) as Hn by reflexivity.
  unfold demo_state. destruct (run_ops _ _ _ _) as [st|] eqn:E; [|by apply reach_create].
  eapply run_ops_reachable; [by apply reach_create|exact Hn|exact E].
Qed.

(** The call completes: no operation is refused. *)
Example demo_call_runs :
  is_ok (run_ops demo_flow (createFlowExecutionState demo_now) demo_ops demo_now) = true /\
  accepted demo_flow = true.
Proof. vm_compute. split; reflexivity. Qed.

