(* ===== verification/FlowSafety.v ===== *)
(** * Safety of the flow runtime (src/web/lib/flow-runtime.ts)

    The receipt ledger as a state machine ([evolves]), and what follows from it for
    every operation and every reachable state: terminal receipts do not change,
    actions are dispatched at most once, call limits hold, tool grants change only
    with the capability epoch, steps are entered within their limits and after their
    ancestors, and bound outputs and arguments are the receipts' values. *)

From S2P Require Import Prelude JsValue JsText Canonical Graph Flow FlowValidate FlowRuntime FlowSchema.
From S2P Require Import FlowInvariant FlowDemo.

Local Open Scope Z_scope.

Section Ledger.
Context `{HS : Sha256, HSok : !Sha256Ok HS, HI : IsoDatetime, HIok : !IsoDatetimeOk}.

(** ** The receipt state machine *)

Definition terminal (r : FlowActionReceipt) : Prop := a_status r = Succeeded \/ a_status r = Failed.

(** What one operation may do to one receipt. *)
Inductive evolves (now : jstr) (r : FlowActionReceipt) : FlowActionReceipt -> Prop :=
| ev_same : evolves now r r
| ev_dispatch :
    a_status r = Reserved -> truthy (a_dispatchStartedAt r) = None -> evolves now r (with_dispatch now r)
| ev_settle status res err :
    a_status r = Reserved -> status <> Reserved ->
    (status <> Failed -> truthy (a_dispatchStartedAt r) <> None) ->
    evolves now r (with_outcome status res err None now r)
| ev_reconcile status res err proof :
    a_status r = Indeterminate -> status = Succeeded \/ status = Failed ->
    evolves now r (with_outcome status res err (Some proof) now r)
| ev_compact : terminal r -> evolves now r (compact_receipt r).

Lemma Forall2_evolves_refl now rs : Forall2 (evolves now) rs rs.
Proof. apply Forall_Forall2_diag, Forall_true. intros r. apply ev_same. Qed.

Lemma evolves_replace now st i r r' :
  st_actionReceipts st !! i = Some r -> evolves now r r' ->
  Forall2 (evolves now) (st_actionReceipts st) (st_actionReceipts (replace_receipt st i r' now)).
Proof.
  intros Hi He. simpl. rewrite <- (list_insert_id (st_actionReceipts st) i r) at 1 by done.
  apply Forall2_insert; [apply Forall2_evolves_refl | done].
Qed.

Lemma findIndex_lookup st id i r :
  findIndex id st = Some (i, r) -> st_actionReceipts st !! i = Some r /\ a_id r = id.
Proof. by intros (Hi & Hid & _)%list_find_Some. Qed.

(** ** What each operation does when it succeeds *)

Lemma settle_with_spec st i current args res now st' r :
  settle_with st i current args res now = Ok (st', r) ->
  (st' = st /\ r = current) \/
  a_status current = Reserved /\
  (outcome_status (sa_outcome args) <> Failed -> truthy (a_dispatchStartedAt current) <> None) /\
  r = with_outcome (outcome_status (sa_outcome args)) res (truthy (sa_error args)) None now current /\
  st' = replace_receipt st i r now.
Proof.
  unfold settle_with, budgeted. destruct (match res with Some _ => _ | None => _ end); [done|].
  destruct (negb _) eqn:Hst; [destruct (_ && _); [|done]; intros [= <- <-]; by left|].
  destruct (_ && _) eqn:Hd; [done|]. destruct (flowStateBudgetError _); [done|].
  intros [= <- <-]. right. to_prop. split_and!; try done.
  intros Hf Hnone. rewrite Hnone in Hd. by destruct (sa_outcome args).
Qed.

Lemma settle_spec st args now st' r :
  settleFlowAction st args now = Ok (st', r) ->
  exists i current, findIndex (sa_receiptId args) st = Some (i, current) /\
    ((st' = st /\ r = current) \/ exists res,
      a_status current = Reserved /\
      (outcome_status (sa_outcome args) <> Failed -> truthy (a_dispatchStartedAt current) <> None) /\
      r = with_outcome (outcome_status (sa_outcome args)) res (truthy (sa_error args)) None now current /\
      st' = replace_receipt st i r now).
Proof.
  unfold settleFlowAction. destruct (findIndex _ _) as [[i current]|]; [|done].
  intros H. exists i, current. split; [done|].
  assert (exists res, settle_with st i current args res now = Ok (st', r)) as [res Hs].
  { destruct (match sa_error args with Some _ => _ | None => _ end); [done|].
    destruct (defined _) as [v|]; [destruct (result_evidence v); [|done]|]; eauto. }
  apply settle_with_spec in Hs as [?|?]; eauto.
Qed.

(** Admission: everything a reservation that grants execution has checked. *)
Record admission (flow : AgentFlow) (st : FlowExecutionState) (args : ReserveArgs) (now : jstr)
    (res : FlowActionReservation) (h key : jstr) (b : Z) : Prop := {
  adm_epoch : ra_capabilityEpoch args = st_capabilityEpoch st;
  adm_granted : ra_tool args ∈ grantedTools flow st;
  adm_hash : hashFlowValue (JObj (ra_arguments args)) = Some h;
  adm_bytes : flowJsonBytes (JObj (ra_arguments args)) = Some b;
  adm_size : b <= MAX_FLOW_ACTION_ARGUMENT_BYTES;
  adm_fresh_id : Forall (fun r => a_id r <> ra_receiptId args) (st_actionReceipts st);
  adm_fresh_invocation :
    Forall (fun r => a_invocationId r <> Some (ra_invocationId args)) (st_actionReceipts st);
  adm_key : actionIdempotencyKey (flowCapabilityScope st).1 (flowCapabilityScope st).2 (ra_tool args)
    (policy_mode (policy_for flow (active_ref flow st) (ra_tool args))) h (ra_receiptId args) = Some key;
  adm_fresh_key : Forall (fun r =>
    call_scoped (policy_mode (policy_for flow (active_ref flow st) (ra_tool args))) ||
    (a_capabilityEpoch r =? st_capabilityEpoch st) = true ->
    a_idempotencyKey r = key -> a_status r = Failed) (st_actionReceipts st);
  adm_limit : forall limit, policy_for flow (active_ref flow st) (ra_tool args) ≫= ap_max_calls = Some limit ->
    Z.of_nat (length (admitted st
      (call_scoped (policy_mode (policy_for flow (active_ref flow st) (ra_tool args))))
      (flowCapabilityScope st).1 (ra_tool args))) < limit;
  adm_quota : (length (st_actionReceipts st) < MAX_FLOW_ACTION_RECEIPTS_PER_CALL)%nat;
  adm_receipt : rs_receipt res = new_receipt st args key (flowCapabilityScope st).1 h b now;
  adm_state : rs_state res =
    updateState st (set_receipts (st_actionReceipts st ++ [rs_receipt res])) now;
}.

Lemma admit_spec flow st args h b now res :
  admit_action flow st args h b now = Ok res ->
  (exists r, r ∈ st_actionReceipts st /\ res = replay st r) \/
  rs_execute res = true /\ exists key,
    actionIdempotencyKey (flowCapabilityScope st).1 (flowCapabilityScope st).2 (ra_tool args)
      (policy_mode (policy_for flow (active_ref flow st) (ra_tool args))) h (ra_receiptId args) = Some key /\
    Forall (fun r =>
      call_scoped (policy_mode (policy_for flow (active_ref flow st) (ra_tool args))) ||
      (a_capabilityEpoch r =? st_capabilityEpoch st) = true ->
      a_idempotencyKey r = key -> a_status r = Failed) (st_actionReceipts st) /\
    (forall limit, policy_for flow (active_ref flow st) (ra_tool args) ≫= ap_max_calls = Some limit ->
      Z.of_nat (length (admitted st
        (call_scoped (policy_mode (policy_for flow (active_ref flow st) (ra_tool args))))
        (flowCapabilityScope st).1 (ra_tool args))) < limit) /\
    (length (st_actionReceipts st) < MAX_FLOW_ACTION_RECEIPTS_PER_CALL)%nat /\
    rs_receipt res = new_receipt st args key (flowCapabilityScope st).1 h b now /\
    rs_state res = updateState st (set_receipts (st_actionReceipts st ++ [rs_receipt res])) now.
Proof.
  unfold admit_action. destruct (flowCapabilityScope st) as [step attempt] eqn:Es. cbn [fst snd].
  destruct (actionIdempotencyKey _ _ _ _ _ _) as [key|] eqn:Ek; [|done].
  destruct (findReceipt _ _) as [r|] eqn:Ef.
  { intros [= <-]. left. apply find_elem in Ef as [Hr _]. by exists r. }
  destruct (match _ ≫= ap_max_calls with Some _ => _ | None => _ end) eqn:El; [done|].
  destruct (MAX_FLOW_ACTION_RECEIPTS_PER_CALL <=? _)%nat eqn:Eq; [done|].
  destruct (flowStateBudgetError _); [done|]. intros [= <-]. right. split; [done|].
  exists key. unfold findReceipt in Ef. rewrite find_none_elem in Ef. split_and!; try done.
  - apply Forall_forall. intros r Hr Hsc Hkey. specialize (Ef r Hr). rewrite Hsc, Hkey, str_eqb_refl in Ef.
    simpl in Ef. unfold not_failed in Ef. by to_prop.
  - intros limit E. rewrite E in El. by to_prop.
  - by apply Nat.leb_gt.
Qed.

Lemma reserve_spec flow st args now res :
  reserveFlowAction flow st args now = Ok res ->
  ra_capabilityEpoch args = st_capabilityEpoch st /\
  ((exists r, r ∈ st_actionReceipts st /\ res = replay st r) \/
   rs_execute res = true /\ exists h key b, admission flow st args now res h key b).
Proof.
  unfold reserveFlowAction. destruct (negb (_ =? _)) eqn:Ee; [done|].
  destruct (bool_decide (ra_receiptId args = [])); [done|].
  destruct (negb (FLOW_ACTION_INVOCATION_ID _)); [done|].
  destruct (match ra_providerInvocationId args with Some _ => _ | None => _ end); [done|].
  destruct (_ && _); [done|]. destruct (negb (includes _ _)) eqn:Eg; [done|].
  destruct (hashFlowValue _) as [h|] eqn:Eh; [|done].
  destruct (flowJsonBytes _) as [b|] eqn:Eb; [|done]. destruct (_ <? b) eqn:Es; [done|].
  to_prop. intros Hop. split; [done|].
  assert (forall p r, findReceipt p st = Some r -> @Ok RuntimeError _ (replay st r) = Ok res ->
    exists r, r ∈ st_actionReceipts st /\ res = replay st r) as Hrep.
  { intros p r Hf. intros [= <-]. apply find_elem in Hf as [Hr _]. by exists r. }
  destruct (findReceipt _ _) as [r1|] eqn:E1;
    [destruct (_ || _) in Hop; [done|]; left; by apply (Hrep _ _ E1)|].
  destruct (findReceipt _ _) as [r2|] eqn:E2 in Hop;
    [destruct (negb _) in Hop; [done|]; left; by apply (Hrep _ _ E2)|].
  destruct (match truthy _ with Some _ => _ | None => _ end) as [r3|] eqn:E3 in Hop.
  { destruct (truthy _) in E3; [|done]. destruct (_ || _) in Hop; [done|].
    left. by apply (Hrep _ _ E3). }
  apply admit_spec in Hop as [?|(Hx & key & ? & ? & ? & ? & ? & ?)]; [by left|].
  right. split; [done|]. exists h, key, b. unfold findReceipt in E1, E2. rewrite find_none_elem in E1, E2.
  constructor; try done; apply Forall_forall; intros r Hr;
    [specialize (E1 r Hr) | specialize (E2 r Hr)]; by to_prop.
Qed.

(** ** The ledger under every operation *)

Lemma stale_evolves now st ids :
  Forall2 (evolves now) (st_actionReceipts st)
    (st_actionReceipts (markStaleDispatchedActionsIndeterminate st ids now)).
Proof.
  unfold markStaleDispatchedActionsIndeterminate.
  destruct (existsb _ _); [|apply Forall2_evolves_refl].
  apply Forall2_fmap_r, Forall_Forall2_diag, Forall_true. intros r. unfold compose.
  destruct (is_stale ids r) eqn:Es; [|apply ev_same]. unfold is_stale in Es. to_prop.
  by apply ev_settle.
Qed.

Lemma compact_evolves now rs path : Forall2 (evolves now) rs (compactCompletedStepReceipts rs path).
Proof.
  apply Forall2_fmap_r, Forall_Forall2_diag, Forall_true. intros r. simpl.
  destruct (compactable path r) eqn:Ec; [|apply ev_same]. apply ev_compact.
  unfold compactable in Ec. apply andb_true_iff in Ec as [_ Ec]. unfold terminal.
  apply orb_true_iff in Ec as [|]; to_prop; auto.
Qed.

(** Either an action is admitted, or the receipts only evolve in place. *)
Lemma apply_op_receipts flow st op now st' :
  apply_op flow st op now = Ok st' ->
  (exists args res h key b, op = Reserve args /\ admission flow st args now res h key b /\
     st' = rs_state res) \/
  Forall2 (evolves now) (st_actionReceipts st) (st_actionReceipts st').
Proof.
  destruct op; simpl; try (intros (a & Hop & ->)%map_ok_inv).
  - right. unfold selectFlowTopic in *. split_guards H; simplify_eq; apply Forall2_evolves_refl.
  - right. apply enter_spec in Hop as (ref & _ & _ & _ & _ & _ & _ & _ & -> & _). apply Forall2_evolves_refl.
  - apply reserve_spec in Hop as [_ [(r & _ & ->)|(_ & h & key & b & Ha)]].
    + right. apply Forall2_evolves_refl.
    + left. by exists args, a, h, key, b.
  - right. unfold markFlowActionDispatchStarted in Hop. split_guards Hop. to_prop. injection Hop as <-.
    edestruct findIndex_lookup as [Hi _]; [done|]. eapply evolves_replace; [done|].
    apply ev_dispatch; [done|]. by apply dec_stable.
  - right. destruct a as [st1 r]. apply settle_spec in Hop as
      (i & current & [Hi _]%findIndex_lookup & [[-> _]|(res & Hs & Hd & -> & ->)]);
      [apply Forall2_evolves_refl|]. eapply evolves_replace; [done|]. apply ev_settle; try done.
    by destruct (sa_outcome args).
  - right. unfold promoteIndeterminateFlowAction, budgeted in Hop. split_guards Hop. to_prop.
    injection Hop as <-. edestruct findIndex_lookup as [Hi _]; [done|].
    eapply evolves_replace; [done|]. apply ev_reconcile; [done | by left].
  - right. unfold proveIndeterminateFlowActionAbsent in Hop. split_guards Hop. to_prop.
    injection Hop as <-. edestruct findIndex_lookup as [Hi _]; [done|].
    eapply evolves_replace; [done|]. apply ev_reconcile; [done | by right].
  - intros [= <-]. right. by apply stale_evolves.
  - right. destruct a as [st1 nx]. apply complete_spec in Hop as
      [(? & _ & _ & -> & _)|(path & ref & supplied & outputs & _ & _ & _ & _ & _ & _ & _ & Hst)];
      [apply Forall2_evolves_refl|]. cbv zeta in Hst. destruct Hst as (_ & -> & _).
    destruct (bool_decide _); apply compact_evolves.
  - intros [= <-]. right. apply Forall2_evolves_refl.
Qed.

(** Fields an operation never changes. *)
Definition same_identity (r r' : FlowActionReceipt) : Prop :=
  a_id r' = a_id r /\ a_idempotencyKey r' = a_idempotencyKey r /\ a_step r' = a_step r /\
  a_tool r' = a_tool r /\ a_capabilityEpoch r' = a_capabilityEpoch r /\
  a_argumentsHash r' = a_argumentsHash r /\ a_invocationId r' = a_invocationId r /\
  a_providerInvocationId r' = a_providerInvocationId r /\ a_reservedAt r' = a_reservedAt r.

(** The verdict of a settled receipt. *)
Definition same_verdict (r r' : FlowActionReceipt) : Prop :=
  a_status r' = a_status r /\ a_resultHash r' = a_resultHash r /\ a_error r' = a_error r /\
  a_settledAt r' = a_settledAt r /\ a_dispatchStartedAt r' = a_dispatchStartedAt r /\
  a_reconciliationProofId r' = a_reconciliationProofId r.

Lemma evolves_identity now r r' : evolves now r r' -> same_identity r r'.
Proof. destruct 1; by split_and!. Qed.

Lemma evolves_terminal now r r' : evolves now r r' -> terminal r -> same_verdict r r'.
Proof. unfold terminal. destruct 1; intros Ht; try (by split_and!); destruct Ht; congruence. Qed.

Lemma evolves_not_failed now r r' : evolves now r r' -> not_failed r' = true -> not_failed r = true.
Proof.
  unfold not_failed. destruct 1 as [|Hs _|? ? ? Hs _ _|? ? ? ? Hs _|Ht]; try done; by rewrite Hs.
Qed.

(** C2. The receipt ledger is append-only: whatever operation succeeds, a receipt keeps
    its place and its identity, a settled receipt keeps its verdict for ever, and a
    status changes only from reserved, or from indeterminate to a terminal status. *)
Theorem receipt_ledger flow st op now st' i r :
  apply_op flow st op now = Ok st' -> st_actionReceipts st !! i = Some r ->
  exists r', st_actionReceipts st' !! i = Some r' /\ same_identity r r' /\
    (terminal r -> same_verdict r r') /\
    (a_status r' <> a_status r ->
     a_status r = Reserved \/ a_status r = Indeterminate /\ terminal r').
Proof.
  intros Hop Hi. assert (exists r', st_actionReceipts st' !! i = Some r' /\ evolves now r r') as (r' & Hi' & He).
  { apply apply_op_receipts in Hop as [(args & res & h & key & b & _ & Ha & ->)|Hev].
    - exists r. rewrite (adm_state _ _ _ _ _ _ _ _ Ha). simpl.
      rewrite lookup_app_l by (by eapply lookup_lt_Some). split; [done | apply ev_same].
    - destruct (Forall2_lookup_l _ _ _ _ _ Hev Hi) as (r' & ? & ?). by exists r'. }
  exists r'. split_and!; [done|..].
  - by eapply evolves_identity.
  - by eapply evolves_terminal.
  - unfold terminal. destruct He; simpl; try done; auto.
Qed.

(** ** Dispatch *)

Definition attempts_ok (r : FlowActionReceipt) : Prop :=
  default 0 (a_dispatchAttempt r) <= 1 /\
  (truthy (a_dispatchStartedAt r) = None -> default 0 (a_dispatchAttempt r) <= 0).

Lemma evolves_attempts now r r' :
  iso_datetime now = true -> evolves now r r' -> attempts_ok r -> attempts_ok r'.
Proof.
  unfold attempts_ok. intros Hn He [H1 H2]. destruct He; cbn -[truthy] in *; try done.
  rewrite iso_truthy by done. split; [|done]. specialize (H2 ltac:(done)). lia.
Qed.

(** An invariant of single receipts that reservations establish and evolution keeps
    holds of every receipt of every reachable state. *)
Lemma reachable_receipts flow st (P : FlowActionReceipt -> Prop) :
  (forall now r r', iso_datetime now = true -> evolves now r r' -> P r -> P r') ->
  (forall st args now res h key b, admission flow st args now res h key b -> P (rs_receipt res)) ->
  reachable flow st -> Forall P (st_actionReceipts st).
Proof.
  intros Hev Hadm. induction 1 as [now|st op now st' Hr IH Hn Hop]; [constructor|].
  apply apply_op_receipts in Hop as [(args & res & h & key & b & _ & Ha & ->)|He].
  - rewrite (adm_state _ _ _ _ _ _ _ _ Ha). apply Forall_app. split; [done|].
    apply Forall_singleton. by eapply Hadm.
  - apply Forall_lookup. intros i r' Hi. destruct (Forall2_lookup_r _ _ _ _ _ He Hi) as (r & Hi0 & He').
    rewrite Forall_lookup in IH. eauto.
Qed.

Lemma reachable_attempts flow st : reachable flow st -> Forall attempts_ok (st_actionReceipts st).
Proof.
  apply reachable_receipts; [eauto using evolves_attempts|].
  intros ? ? ? ? ? ? ? Ha. rewrite (adm_receipt _ _ _ _ _ _ _ _ Ha). unfold attempts_ok. simpl. lia.
Qed.

(** C3. In every reachable state an action has been dispatched at most once, and one
    that is recorded as succeeded or indeterminate has been dispatched exactly once. *)
Theorem dispatched_at_most_once flow st r :
  AgentFlowSchema_ok flow = true -> reachable flow st -> r ∈ st_actionReceipts st ->
  default 0 (a_dispatchAttempt r) <= 1 /\
  (a_status r = Succeeded \/ a_status r = Indeterminate ->
   a_dispatchStartedAt r <> None /\ a_dispatchAttempt r = Some 1).
Proof.
  intros Hf Hr Hin. pose proof (reachable_attempts _ _ Hr) as Ha. rewrite Forall_forall in Ha.
  destruct (Ha _ Hin) as [H1 _]. split; [done|]. intros Hs.
  pose proof (ok_receipts _ _ (reachable_ok _ _ Hf Hr)) as Hok. rewrite Forall_forall in Hok.
  pose proof (rg_dispatch _ _ _ (Hok _ Hin)) as Hrec. unfold dispatch_refined in Hrec.
  destruct (a_dispatchStartedAt r) as [[|c d]|]; cbn -[Z.leb Z.eqb] in *; to_prop;
    try (by destruct Hs; congruence).
  split; [done|]. destruct (a_dispatchAttempt r) as [n|]; simpl in *; [f_equal|]; lia.
Qed.

(** ** Call limits *)

(** The active-step contexts in which a tool may be granted: outside every step when it
    is granted always or by a topic, in a step also when the step or an ancestor grants it. *)
Definition may_grant (flow : AgentFlow) (tool : jstr) (ref : option StepRef) : bool :=
  includes tool (alwaysTools flow) || existsb (fun n => includes tool (n_tools n)) (f_nodes flow) ||
  match ref with
  | None => false
  | Some r => includes tool (flat_map (fun a => s_tools (fields_of a)) (r_ancestors r) ++ s_tools (r_step r))
  end.

(** The policies a reservation of a tool may be decided by. *)
Definition policies_for (flow : AgentFlow) (tool : jstr) : list (option FlowActionPolicy) :=
  (fun ref => policy_for flow ref tool) <$>
    List.filter (may_grant flow tool) (None :: (Some <$> listStepRefs flow)).

Lemma granted_may flow st tool :
  tool ∈ grantedTools flow st -> may_grant flow tool (active_ref flow st) = true.
Proof.
  unfold grantedTools, may_grant, active_ref. rewrite !orb_true_iff.
  destruct (finished st); [by left; left; apply includes_iff|].
  rewrite elem_of_uniq, !elem_of_app. intros [?|[Hn|Hs]]; [by left; left; apply includes_iff| |].
  - left; right. unfold topic in Hn. destruct (List.find _ _) as [node|] eqn:Ef; simpl in Hn; [|set_solver].
    apply find_elem in Ef as [Hin _]. apply existsb_elem. exists node. by rewrite includes_iff.
  - right. destruct (activeStep st) as [step|]; [|set_solver]. simpl.
    destruct (findStep flow step); [|set_solver]. by apply includes_iff.
Qed.

Lemma policy_in_force flow st tool :
  tool ∈ grantedTools flow st -> policy_for flow (active_ref flow st) tool ∈ policies_for flow tool.
Proof.
  intros Hg%granted_may. apply list_elem_of_fmap. exists (active_ref flow st). split; [done|].
  apply elem_of_filter_list. split; [|done]. unfold active_ref.
  destruct (activeStep st) as [step|]; simpl; [|by left].
  destruct (findStep flow step) as [ref|] eqn:Ef; simpl; [|by left].
  right. apply list_elem_of_fmap. exists ref. by apply findStep_spec in Ef as [Hin _].
Qed.

(** Receipts of a tool that have not failed. *)
Definition live_calls (tool : jstr) (rs : list FlowActionReceipt) : list FlowActionReceipt :=
  List.filter (fun r => (a_tool r =?s tool) && not_failed r) rs.

Lemma live_calls_evolves now tool rs rs' :
  Forall2 (evolves now) rs rs' -> (length (live_calls tool rs') <= length (live_calls tool rs))%nat.
Proof.
  unfold live_calls. induction 1 as [|r r' rs rs' He _ IH]; simpl; [lia|].
  destruct (evolves_identity _ _ _ He) as (_ & _ & _ & -> & _).
  destruct (a_tool r =?s tool); simpl; [|done].
  destruct (not_failed r') eqn:E; [rewrite (evolves_not_failed _ _ _ He E); simpl; lia|].
  destruct (not_failed r); simpl; lia.
Qed.

Lemma live_calls_app tool rs rs' : live_calls tool (rs ++ rs') = live_calls tool rs ++ live_calls tool rs'.
Proof. apply List.filter_app. Qed.

Lemma reachable_live_calls flow tool st (limit : nat) :
  (forall st args now res h key b,
     reachable flow st -> admission flow st args now res h key b -> ra_tool args = tool ->
     (length (live_calls tool (st_actionReceipts st)) < limit)%nat) ->
  reachable flow st -> (length (live_calls tool (st_actionReceipts st)) <= limit)%nat.
Proof.
  intros Hadm. induction 1 as [now|st op now st' Hr IH Hn Hop]; [simpl; lia|].
  apply apply_op_receipts in Hop as [(args & res & h & key & b & _ & Ha & ->)|He].
  - rewrite (adm_state _ _ _ _ _ _ _ _ Ha). simpl. rewrite live_calls_app, length_app.
    destruct (decide (ra_tool args = tool)) as [E|Hne].
    + specialize (Hadm _ _ _ _ _ _ _ Hr Ha E). rewrite (adm_receipt _ _ _ _ _ _ _ _ Ha).
      unfold live_calls at 2. simpl. rewrite E, str_eqb_refl. simpl. lia.
    + rewrite (adm_receipt _ _ _ _ _ _ _ _ Ha). unfold live_calls at 2. simpl.
      rewrite (proj2 (str_eqb_neq _ _) Hne). simpl. lia.
  - pose proof (live_calls_evolves _ tool _ _ He). lia.
Qed.

(** C4. A call limit holds for the whole call when it is call-scoped in every context:
    if every policy that decides a reservation of the tool, in each context of the flow
    that may grant it, is idempotent per call (or per call and arguments) and allows at
    most [limit] calls, then no reachable state has more than [limit] receipts of the
    tool that have not failed, across re-entered steps, topics and capability epochs.
    A context that grants the tool without such a policy is excluded by the hypothesis:
    there the runtime counts within one step admission, or not at all. *)
Theorem call_limit_holds flow tool (limit : nat) st :
  Forall (fun p => call_scoped (policy_mode p) = true /\
                   exists m, p ≫= ap_max_calls = Some m /\ m <= Z.of_nat limit)
    (policies_for flow tool) ->
  reachable flow st -> (length (live_calls tool (st_actionReceipts st)) <= limit)%nat.
Proof.
  intros Hpol. rewrite Forall_forall in Hpol. apply reachable_live_calls.
  intros st0 args now res h key b _ Ha Etool. subst tool.
  destruct (Hpol _ (policy_in_force flow st0 _ (adm_granted _ _ _ _ _ _ _ _ Ha))) as (Hsc & m & Hmax & Hm).
  pose proof (adm_limit _ _ _ _ _ _ _ _ Ha _ Hmax) as Hlt. rewrite Hsc in Hlt.
  apply Nat2Z.inj_lt. eapply Z.lt_le_trans; [exact Hlt|exact Hm].
Qed.

(** A tool that every policy makes idempotent per call has at most one receipt that
    has not failed in any reachable state: repeated requests, whatever their arguments,
    receipt ids and epochs, are answered from it. *)
Theorem per_call_once flow tool st :
  Forall (fun p => policy_mode p = PerCall) (policies_for flow tool) ->
  reachable flow st -> (length (live_calls tool (st_actionReceipts st)) <= 1)%nat.
Proof.
  intros Hpol. rewrite Forall_forall in Hpol.
  assert (forall st, reachable flow st -> Forall (fun r => a_tool r = tool ->
    hashFlowValue (JObj (field "tool" (JStr tool))) = Some (a_idempotencyKey r)) (st_actionReceipts st)) as Hkeys.
  { intros st0. apply reachable_receipts.
    - intros now r r' _ (_ & -> & _ & -> & _)%evolves_identity. done.
    - intros st1 args now res h key b [] Et. rewrite adm_receipt0 in *. simpl in *. subst tool.
      by rewrite (Hpol _ (policy_in_force flow st1 _ adm_granted0)) in adm_key0. }
  apply reachable_live_calls. intros st0 args now res h key b Hr Ha Etool. subst tool.
  destruct Ha. rewrite (Hpol _ (policy_in_force flow st0 _ adm_granted0)) in *. simpl in *.
  specialize (Hkeys _ Hr). unfold live_calls.
  rewrite (proj2 (filter_nil_iff _ _)); [simpl; lia|]. intros r Hin.
  rewrite Forall_forall in Hkeys, adm_fresh_key0. destruct (a_tool r =?s _) eqn:Et; [|done]. to_prop.
  unfold not_failed. rewrite (adm_fresh_key0 r Hin); [done|done|].
  apply (Hkeys r Hin) in Et. unfold actionIdempotencyKey in adm_key0. congruence.
Qed.

(** ** Capability epochs *)

(** What the tool grant and the active step depend on. *)
Definition position (st : FlowExecutionState) : FlowStatus * option jstr * option jstr * list jstr :=
  (st_status st, st_nodeId st, st_currentStep st, st_completedSteps st).

Lemma position_grants flow st st' :
  position st = position st' -> grantedTools flow st = grantedTools flow st' /\ activeStep st = activeStep st'.
Proof.
  unfold position. destruct st, st'; simpl. intros; simplify_eq. done.
Qed.

(** Operations on receipts leave everything else alone. *)
Definition receipts_only (st st' : FlowExecutionState) : Prop :=
  st' = st \/ exists rs now, st' = updateState st (set_receipts rs) now.

Lemma apply_op_frame flow st op now st' :
  apply_op flow st op now = Ok st' ->
  match op with
  | SelectTopic _ | EnterStep _ | Complete _ | Rotate => True
  | _ => receipts_only st st'
  end.
Proof.
  unfold receipts_only. destruct op; simpl; try done; try (intros (a & Hop & ->)%map_ok_inv).
  - apply reserve_spec in Hop as [_ [(r & _ & ->)|(_ & h & key & b & [])]]; [by left|].
    right. rewrite adm_state0. by do 2 eexists.
  - unfold markFlowActionDispatchStarted in Hop. split_guards Hop. injection Hop as <-.
    right. by do 2 eexists.
  - destruct a as [st1 r].
    apply settle_spec in Hop as (i & current & _ & [[-> _]|(res & _ & _ & _ & ->)]); [by left|].
    right. by do 2 eexists.
  - unfold promoteIndeterminateFlowAction, budgeted in Hop. split_guards Hop. injection Hop as <-.
    right. by do 2 eexists.
  - unfold proveIndeterminateFlowActionAbsent in Hop. split_guards Hop. injection Hop as <-.
    right. by do 2 eexists.
  - intros [= <-]. unfold markStaleDispatchedActionsIndeterminate.
    destruct (existsb _ _); [right; by do 2 eexists | by left].
Qed.

(** Completion leaves the status, or finishes the call. *)
Lemma complete_fields flow st args now st' next :
  completeFlowStep flow st args now = Ok (st', next) ->
  st' = st \/
  st_capabilityEpoch st' = st_capabilityEpoch st + 1 /\ st_attempts st' = st_attempts st /\
  st_stepEntries st' = st_stepEntries st /\
  exists path, activeStep st = Some path /\
    st_completedSteps st' = uniq (st_completedSteps st ++ [path]) /\
    (st_currentStep st' = Some path \/ st_currentStep st' = None).
Proof.
  intros [(? & _ & _ & -> & _)|(path & ref & supplied & outputs & Ha & _ & _ & _ & _ & _ & _ & Hst)]%complete_spec;
    [by left|]. cbv zeta in Hst. destruct Hst as (_ & -> & _). right.
  split_and!; try (by destruct (bool_decide _)). exists path. split; [done|].
  apply activeStep_Some in Ha as (Ha & _ & _). destruct (bool_decide _); simpl; auto.
Qed.

(** Each operation keeps the position and the epoch, or advances the epoch by one. *)
Lemma apply_op_epoch flow st op now st' :
  apply_op flow st op now = Ok st' ->
  (position st' = position st /\ st_capabilityEpoch st' = st_capabilityEpoch st) \/
  st_capabilityEpoch st' = st_capabilityEpoch st + 1.
Proof.
  intros Hop. pose proof (apply_op_frame _ _ _ _ _ Hop) as Hf.
  destruct op; try (destruct Hf as [->|(rs & t & ->)]; by left); simpl in Hop;
    try (apply map_ok_inv in Hop as (a & Hop & ->)).
  - unfold selectFlowTopic in Hop. split_guards Hop; simplify_eq; auto.
  - apply enter_spec in Hop as (ref & _ & _ & _ & _ & _ & _ & _ & -> & _). by right.
  - destruct a. apply complete_fields in Hop as [->|(? & _)]; auto.
  - injection Hop as <-. by right.
Qed.

(** Authority cannot outlive the state that granted it: if an operation changes the
    tools a call is granted or its active step, the capability epoch has advanced, and
    every reservation that still names the old epoch is refused as stale. *)
Theorem grants_follow_epoch flow st op now st' :
  apply_op flow st op now = Ok st' ->
  st_capabilityEpoch st <= st_capabilityEpoch st' <= st_capabilityEpoch st + 1 /\
  (grantedTools flow st' <> grantedTools flow st \/ activeStep st' <> activeStep st ->
   forall args later, ra_capabilityEpoch args = st_capabilityEpoch st ->
   reserveFlowAction flow st' args later = Err (fail "stale_capability")).
Proof.
  intros [[Hp He]|He]%apply_op_epoch.
  - split; [lia|]. apply (position_grants flow) in Hp as [-> ->]. by intros [].
  - split; [lia|]. intros _ args later Ha. unfold reserveFlowAction.
    by rewrite (proj2 (Z.eqb_neq _ _)) by lia.
Qed.

(** An admitted action was granted in the current epoch, is within its policy's
    limit, is new under all its identities, and is the only change to the state. *)
Theorem reserve_admits flow st args now res :
  reserveFlowAction flow st args now = Ok res -> rs_execute res = true ->
  ra_capabilityEpoch args = st_capabilityEpoch st /\ ra_tool args ∈ grantedTools flow st /\
  (forall r, r ∈ st_actionReceipts st ->
     a_id r <> ra_receiptId args /\ a_invocationId r <> Some (ra_invocationId args)) /\
  (forall limit, policy_for flow (active_ref flow st) (ra_tool args) ≫= ap_max_calls = Some limit ->
     Z.of_nat (length (admitted st
       (call_scoped (policy_mode (policy_for flow (active_ref flow st) (ra_tool args))))
       (flowCapabilityScope st).1 (ra_tool args))) < limit) /\
  a_status (rs_receipt res) = Reserved /\ a_dispatchStartedAt (rs_receipt res) = None /\
  hashFlowValue (JObj (ra_arguments args)) = Some (a_argumentsHash (rs_receipt res)) /\
  rs_state res = updateState st (set_receipts (st_actionReceipts st ++ [rs_receipt res])) now.
Proof.
  intros [He [(r & _ & ->)|(_ & h & key & b & [])]]%reserve_spec Hx; [done|].
  rewrite Forall_forall in adm_fresh_id0, adm_fresh_invocation0.
  split_and!; try done; [by auto|..]; by rewrite adm_receipt0.
Qed.

(** Reserving is idempotent: repeating a request that was admitted returns the same
    receipt without execution ownership and leaves the state alone, at any later
    instant of the same epoch and position. *)
Theorem reserve_idempotent flow st args now res later :
  reserveFlowAction flow st args now = Ok res -> rs_execute res = true ->
  reserveFlowAction flow (rs_state res) args later = Ok (replay (rs_state res) (rs_receipt res)).
Proof.
  intros Hop Hx. pose proof Hop as Hop'. apply reserve_spec in Hop' as [He [(r & _ & ->)|(_ & h & key & b & Ha)]];
    [done|].
  destruct Ha. set (st' := rs_state res) in *.
  assert (st_capabilityEpoch st' = st_capabilityEpoch st /\ activeStep st' = activeStep st /\
          grantedTools flow st' = grantedTools flow st /\
          flowCapabilityScope st' = flowCapabilityScope st /\
          st_actionReceipts st' = st_actionReceipts st ++ [rs_receipt res])
    as (E1 & E2 & E3 & E4 & E5) by (by rewrite adm_state0; split_and!).
  clearbody st'. revert Hop. unfold reserveFlowAction, active_ref. rewrite E1, E2, E3, E4.
  destruct (negb (_ =? _)); [done|]. destruct (bool_decide (ra_receiptId args = [])); [done|].
  destruct (negb (FLOW_ACTION_INVOCATION_ID _)); [done|].
  destruct (match ra_providerInvocationId args with Some _ => _ | None => _ end); [done|].
  destruct (_ && _); [done|]. destruct (negb (includes _ _)); [done|].
  rewrite adm_hash0, adm_bytes0. destruct (_ <? b); [done|]. intros _. unfold findReceipt. rewrite E5.
  rewrite (find_snoc _ _ (rs_receipt res)); rewrite ?adm_receipt0; simpl.
  - rewrite !str_eqb_refl. simpl. by rewrite bool_decide_eq_true_2 by done.
  - apply find_none_elem. intros r Hr. rewrite Forall_forall in adm_fresh_id0.
    apply str_eqb_neq. by apply adm_fresh_id0.
  - apply str_eqb_refl.
Qed.

(** ** Entering steps *)

(** Attempts recorded for a step are within the step's limit, entries within the flow's. *)
Definition entries_bounded (flow : AgentFlow) (st : FlowExecutionState) : Prop :=
  (forall path n ref, own path (st_attempts st) = Some n -> findStep flow path = Some ref ->
     n <= max_attempts (r_step ref)) /\
  (forall limit, f_max_step_entries flow = Some limit -> limit <> 0 ->
     exists n, st_stepEntries st = Some n /\ 0 <= n <= Z.max 0 limit).

Lemma apply_op_entries flow st op now st' :
  apply_op flow st op now = Ok st' ->
  (st_attempts st' = st_attempts st /\ st_stepEntries st' = st_stepEntries st) \/
  exists path en, op = EnterStep path /\ enterFlowStep flow st path now = Ok en /\ st' = en_state en.
Proof.
  intros Hop. pose proof (apply_op_frame _ _ _ _ _ Hop) as Hf.
  destruct op; try (destruct Hf as [->|(rs & t & ->)]; by left); simpl in Hop;
    try (apply map_ok_inv in Hop as (a & Hop & ->)).
  - unfold selectFlowTopic in Hop. split_guards Hop; simplify_eq; auto.
  - right. by exists path, a.
  - destruct a. apply complete_fields in Hop as [->|(_ & ? & ? & _)]; auto.
  - injection Hop as <-. by left.
Qed.

(** Retry and loop limits hold in every reachable state: no step has been entered
    more often in a row than its [max_attempts], and the number of step entries of
    the call never exceeds [max_step_entries]. *)
Theorem reachable_entries_bounded flow st :
  AgentFlowSchema_ok flow = true -> reachable flow st -> entries_bounded flow st.
Proof.
  intros Hflow Hr. induction Hr as [now|st op now st' Hr IH Hn Hop].
  { split; [done|]. intros limit _ _. exists 0. split; [done|lia]. }
  apply apply_op_entries in Hop as [[E1 E2]|(path & en & _ & Hen & ->)].
  { unfold entries_bounded. by rewrite E1, E2. }
  apply enter_spec in Hen as (ref & Hf & _ & _ & _ & _ & Hmax & Hlim & -> & _).
  destruct IH as [IH1 IH2]. split; simpl.
  - intros p n ref' Ho Hf'. rewrite own_put in Ho. destruct (p =?s path) eqn:E; to_prop.
    + subst p. simplify_eq. done.
    + by eapply IH1.
  - intros limit E Hne. exists (total_entries st). split; [done|].
    pose proof (total_entries_bound _ st (reachable_ok _ _ Hflow Hr)). specialize (Hlim _ E Hne). lia.
Qed.

Lemma in_subtree_length path a : in_subtree path a = true -> (length path <= length a)%nat.
Proof.
  unfold in_subtree. intros [->%str_eqb_eq|H]%orb_true_iff; [lia|]. apply bool_decide_eq_true_1 in H.
  apply (f_equal length) in H. rewrite length_take, length_app in H. cbn [length] in H. lia.
Qed.

Lemma ancestors_outside flow ref a :
  ref ∈ listStepRefs flow -> a ∈ ancestor_paths ref -> in_subtree (r_path ref) a = false.
Proof.
  intros Href Ha. apply not_true_iff_false. intros H%in_subtree_length.
  unfold ancestor_paths in Ha. apply list_elem_of_lookup in Ha as (i & Hi).
  rewrite list_lookup_imap in Hi. destruct (r_ancestors ref !! i) eqn:Ea; [|done]. injection Hi as <-.
  apply lookup_lt_Some in Ea. pose proof (ref_segments flow ref Href).
  pose proof (path_prefix_shorter (r_path ref) (i + 2) ltac:(lia)). unfold path_prefix in H. lia.
Qed.

Lemma apply_op_active flow st op now st' path :
  apply_op flow st op now = Ok st' -> activeStep st' = Some path ->
  (position st' = position st) \/
  exists en, enterFlowStep flow st path now = Ok en /\ st' = en_state en.
Proof.
  intros Hop Hact. pose proof (apply_op_frame _ _ _ _ _ Hop) as Hf.
  destruct op; try (destruct Hf as [->|(rs & t & ->)]; by left); simpl in Hop;
    try (apply map_ok_inv in Hop as (a & Hop & ->)).
  - unfold selectFlowTopic in Hop. split_guards Hop; simplify_eq; try (by left);
      by apply activeStep_Some in Hact as (? & _).
  - right. exists a. split; [|done]. pose proof (enter_spec _ _ _ _ _ Hop) as
      (ref & _ & _ & _ & _ & _ & _ & _ & E & _). apply activeStep_Some in Hact as (Hact & _).
    rewrite E in Hact. simpl in Hact. by injection Hact as ->.
  - destruct a. apply complete_fields in Hop as [->|(_ & _ & _ & p & _ & Ec & [E|E])]; [by left|..];
      apply activeStep_Some in Hact as (Hact & _ & Hn); simpl in *; [|congruence].
    rewrite Ec, elem_of_uniq, elem_of_app, list_elem_of_singleton in Hn. exfalso. apply Hn. right. congruence.
  - injection Hop as <-. by left.
Qed.

(** A nested step is only ever active after its ancestors: in every reachable state
    all ancestor paths of the active step are completed. *)
Theorem active_ancestors_completed flow st path ref a :
  reachable flow st -> activeStep st = Some path -> findStep flow path = Some ref ->
  a ∈ ancestor_paths ref -> a ∈ st_completedSteps st.
Proof.
  intros Hr. induction Hr as [now|st op now st' Hr IH Hn Hop]; [done|]. intros Hact Href Ha.
  destruct (apply_op_active _ _ _ _ _ _ Hop Hact) as [Hp|(en & Hen & ->)].
  - destruct (position_grants flow _ _ Hp) as [_ Ea]. rewrite Ea in Hact.
    injection Hp as _ _ _ ->. by apply IH.
  - apply enter_spec in Hen as (ref' & Hf & _ & _ & _ & Hanc & _ & _ & -> & _).
    simplify_eq. apply findStep_spec in Href as [Hin Hpath]. simpl.
    apply elem_of_filter_list. split; [by apply Hanc|].
    rewrite <- Hpath. by erewrite ancestors_outside.
Qed.

(** ** Receipts as the authority for outputs and arguments *)

Lemma verify_bindings_frame st ref supplied outputs bs o k :
  verify_bindings st ref supplied outputs bs = Ok o -> k ∉ (ob_output <$> bs) -> own k o = own k outputs.
Proof.
  revert outputs; induction bs as [|b bs IH]; intros outputs Hv Hk; simpl in Hv; [by simplify_eq|].
  destruct (bound_output st ref supplied b) as [v|]; [|done]. simpl in Hv.
  csimpl in Hk. rewrite not_elem_of_cons in Hk. destruct Hk as [Hne Hk].
  rewrite (IH _ Hv Hk). by apply own_put_ne.
Qed.

Lemma verify_bindings_bound st ref supplied outputs bs o b :
  verify_bindings st ref supplied outputs bs = Ok o -> NoDup (ob_output <$> bs) -> b ∈ bs ->
  exists v, bound_output st ref supplied b = Ok v /\ own (ob_output b) o = Some v.
Proof.
  revert outputs; induction bs as [|b0 bs IH]; intros outputs Hv Hnd Hin; [set_solver|]. simpl in Hv.
  destruct (bound_output st ref supplied b0) as [v|] eqn:Eb; [|done]. simpl in Hv.
  csimpl in Hnd. apply NoDup_cons in Hnd as [Hn Hnd]. apply elem_of_cons in Hin as [->|Hin].
  - exists v. split; [done|]. rewrite (verify_bindings_frame _ _ _ _ _ _ _ Hv Hn). apply own_put_eq.
  - by eapply IH.
Qed.

Lemma bound_output_spec st ref supplied b v :
  bound_output st ref supplied b = Ok v ->
  exists r, output_candidates st ref b = [r] /\
    resultAtPath (default JUndefined (a_result r)) (ob_result_path b) = Some v /\
    matchesValueType v (ob_value_type b) = true /\
    (forall s, own (ob_output b) supplied = Some s -> valuesEqual s v = true).
Proof.
  unfold bound_output. destruct (output_candidates st ref b) as [|r [|]]; try done.
  destruct (resultAtPath _ _) as [w|] eqn:Ew; [|done].
  destruct (negb (matchesValueType _ _)) eqn:Et; [done|].
  destruct (match own _ _ with Some _ => _ | None => _ end) eqn:Es; [done|].
  intros [= ->]. to_prop. exists r. split_and!; try done. intros s E. rewrite E in Es. by to_prop.
Qed.

(** A completed step's bound outputs are the tools' results, not the model's words:
    each binding has exactly one successful receipt of this step that may supply it,
    the recorded output is the value at the binding's path of that receipt's result,
    it has the declared type, and any value the model supplied for it agrees. *)
Theorem bound_outputs_authoritative flow st args now st' next path ref b :
  completeFlowStep flow st args now = Ok (st', next) ->
  activeStep st = Some path -> findStep flow path = Some ref ->
  NoDup (ob_output <$> s_output_bindings (r_step ref)) -> b ∈ s_output_bindings (r_step ref) ->
  exists r v o,
    output_candidates st ref b = [r] /\ a_status r = Succeeded /\ a_step r = path /\ a_tool r = ob_tool b /\
    resultAtPath (default JUndefined (a_result r)) (ob_result_path b) = Some v /\
    matchesValueType v (ob_value_type b) = true /\
    own path (st_outputs st') = Some o /\ own (ob_output b) o = Some v.
Proof.
  intros Hop Hact Hf Hnd Hb. apply activeStep_Some in Hact as Hact'. destruct Hact' as (Hcur & _ & Hnc).
  apply complete_spec in Hop as [(p & Hp & Hc & _)|(p & ref' & supplied & o & Ha & Hf' & _ & _ & _ & Hv & _ & Hst)];
    [congruence|]. rewrite Hact in Ha. injection Ha as <-. rewrite Hf in Hf'. injection Hf' as <-.
  cbv zeta in Hst. destruct Hst as (_ & -> & _).
  unfold verifiedOutputs in Hv.
  destruct (verify_bindings_bound _ _ _ _ _ _ _ Hv Hnd Hb) as (v & Hbo & Ho).
  apply bound_output_spec in Hbo as (r & Hc & Hr & Ht & _). exists r, v, o.
  assert (r ∈ output_candidates st ref b) as Hin by (rewrite Hc; by left).
  unfold output_candidates in Hin. apply elem_of_filter_list in Hin as [_ Hin].
  apply andb_true_iff in Hin as [Hin _]. to_prop. apply findStep_spec in Hf as [_ <-].
  split_and!; try done. destruct (bool_decide (next = [])); simpl; apply own_put_eq.
Qed.

Lemma resolve_binding_spec st step b v e :
  resolve_binding st step b = Ok (v, e) ->
  exists r result, bound_candidates st step (ba_source_tool b) = [r] /\ a_result r = Some result /\
    resultAtPath result (ba_result_path b) = Some v /\ be_source_receipt_id e = a_id r /\
    Some (be_source_receipt_result_hash e) = a_resultHash r.
Proof.
  unfold resolve_binding. destruct (bound_candidates st step _) as [|r [|]]; [by destruct (existsb _ _)| |done].
  destruct (defined (a_result r)) as [result|] eqn:Er; [|done].
  destruct (truthy (a_resultHash r)) as [h|] eqn:Eh; [|done]. destruct (a_resultCompacted r); [done|].
  destruct (resultAtPath _ _) as [w|] eqn:Ew; [|done]. destruct (hashFlowValue w); [|done].
  intros [= -> <-]. exists r, result. apply truthy_Some in Eh as [-> _]. split_and!; try done.
  destruct (a_result r) as [[]|]; naive_solver.
Qed.

Lemma resolve_bindings_spec st step margs bs : forall seen eff ev res,
  resolve_bindings st step margs seen eff ev bs = Ok res ->
  br_modelArguments res = margs /\ NoDup (ba_argument <$> bs) /\
  (forall b, b ∈ bs -> (ba_argument b ∉ seen) /\ (ba_argument b ∉ keys margs)) /\
  (forall k, k ∉ (ba_argument <$> bs) -> own k (br_effectiveArguments res) = own k eff) /\
  (forall b, b ∈ bs -> exists v e, resolve_binding st step b = Ok (v, e) /\ e ∈ br_evidence res /\
     own (ba_argument b) (br_effectiveArguments res) = Some v) /\
  (forall e, e ∈ ev -> e ∈ br_evidence res).
Proof.
  induction bs as [|b bs IH]; intros seen eff ev res; simpl.
  { intros [= <-]. split_and!; try done; [constructor|set_solver|set_solver]. }
  destruct (includes (ba_argument b) seen) eqn:Es; [done|].
  destruct (has_own (ba_argument b) margs) eqn:Em; [done|].
  destruct (resolve_binding st step b) as [[v e]|] eqn:Eb; [|done]. cbn [bind_result]. intros Hr.
  destruct (IH _ _ _ _ Hr) as (H1 & H2 & H3 & H4 & H5 & H6). to_prop. apply has_own_false in Em.
  assert (ba_argument b ∉ (ba_argument <$> bs)) as Hb.
  { intros (b' & Hb & Hin)%list_elem_of_fmap. destruct (H3 _ Hin) as [Hs _]. rewrite <- Hb in Hs. set_solver. }
  split_and!; csimpl; try done.
  - by constructor.
  - intros b' [->|Hin]%elem_of_cons; [done|]. destruct (H3 _ Hin). set_solver.
  - intros k Hk. rewrite H4 by set_solver. apply own_put_ne. set_solver.
  - intros b' [->|Hin]%elem_of_cons; [|by apply H5]. exists v, e. split_and!; [done|apply H6; set_solver|].
    rewrite H4 by done. apply own_put_eq.
  - intros e' He. apply H6. set_solver.
Qed.

(** Bound arguments come from receipts and cannot be overridden: the model's own
    arguments pass through unchanged, each bound argument is absent from them and is
    the value at the declared path of the result of the one successful receipt of
    the source tool in the active step and current epoch. *)
Theorem bound_arguments_authoritative flow st tool margs res step ref :
  resolveFlowBoundArguments flow st tool margs = Ok res ->
  activeStep st = Some step -> findStep flow step = Some ref ->
  let bs := from_option ap_bound_arguments [] (findPolicy tool (s_action_policies (r_step ref))) in
  (forall k, k ∉ (ba_argument <$> bs) -> own k (br_effectiveArguments res) = own k margs) /\
  (forall b, b ∈ bs -> (ba_argument b ∉ keys margs) /\
     exists r result v, r ∈ st_actionReceipts st /\ a_status r = Succeeded /\ a_step r = step /\
       a_capabilityEpoch r = st_capabilityEpoch st /\ a_tool r = ba_source_tool b /\
       a_result r = Some result /\ resultAtPath result (ba_result_path b) = Some v /\
       own (ba_argument b) (br_effectiveArguments res) = Some v).
Proof.
  intros Hr Hact Hf bs. unfold resolveFlowBoundArguments in Hr. rewrite Hact, Hf in Hr. fold bs in Hr.
  apply resolve_bindings_spec in Hr as (_ & _ & H3 & H4 & H5 & _). split; [done|].
  intros b Hb. split; [by apply H3|]. destruct (H5 _ Hb) as (v & e & Hres & _ & Ho).
  apply resolve_binding_spec in Hres as (r & result & Hc & Hres & Hv & _).
  assert (r ∈ bound_candidates st step (ba_source_tool b)) as Hin by (rewrite Hc; by left).
  unfold bound_candidates in Hin. apply elem_of_filter_list in Hin as [Hin Hp]. to_prop.
  exists r, result, v. by split_and!.
Qed.

(** ** Leaving a step *)

Lemma pending_terminal st step r :
  pending_receipts st step = [] -> r ∈ st_actionReceipts st -> a_step r = step -> terminal r.
Proof.
  unfold pending_receipts. rewrite filter_nil_iff. intros Hp Hin Hs. specialize (Hp _ Hin).
  rewrite (proj2 (str_eqb_eq _ _) Hs) in Hp. unfold unsettled, terminal in *. simpl in Hp. to_prop.
  destruct (a_status r); auto; done.
Qed.

(** A step is never left with open actions: whenever an operation on a reachable
    state ends the activity of a step, every receipt of that step is settled. *)
Theorem no_open_actions_left flow st op now st' step r :
  AgentFlowSchema_ok flow = true -> reachable flow st -> apply_op flow st op now = Ok st' ->
  activeStep st = Some step -> activeStep st' <> Some step ->
  r ∈ st_actionReceipts st -> a_step r = step -> terminal r.
Proof.
  intros Hflow Hr Hop Hact Hleft. apply pending_terminal.
  pose proof (apply_op_frame _ _ _ _ _ Hop) as Hf.
  assert (forall s, position s = position st -> activeStep s <> Some step -> False) as Hsame.
  { intros s Hp. by destruct (position_grants flow _ _ Hp) as [_ ->]. }
  destruct op; try (destruct Hf as [->|(rs & t & ->)]; exfalso; by eapply (Hsame _ eq_refl));
    simpl in Hop; try (apply map_ok_inv in Hop as (a & Hop & ->)).
  - exfalso. pose proof (ok_position _ _ (reachable_ok _ _ Hflow Hr)) as Hpos.
    apply activeStep_Some in Hact as Hact'. destruct Hact' as (Hcur & _).
    unfold position_refined in Hpos. unfold selectFlowTopic in Hop.
    rewrite Hact in Hop. destruct (st_status st); to_prop; try congruence; simpl in Hop.
    destruct (finished st); [done|]. split_guards Hop; simplify_eq; done.
  - by apply enter_spec in Hop as (ref & _ & _ & Hp & _); apply Hp.
  - destruct a. apply complete_spec in Hop as [(p & Hp & Hc & _)|(p & ref' & supplied & o & Ha & _ & Hp & _)].
    + apply activeStep_Some in Hact as (Hcur & _ & Hnc). congruence.
    + congruence.
  - injection Hop as <-. exfalso. by eapply (Hsame _ eq_refl).
Qed.
End Ledger.

(** ** Witnesses: the theorems at the recorded call *)

#[local] Existing Instance demo_iso.
#[local] Existing Instance demo_sha256.

Definition demo_receipt (n : nat) : FlowActionReceipt :=
  match st_actionReceipts (demo_state n) with
  | r :: _ => r
  | [] => new_receipt (demo_state 0) demo_reserve [] [] [] 0 []
  end.

Lemma receipt_ledger_witness :
  exists st' r', apply_op demo_flow (demo_state 5) (Complete {| ca_path := None; ca_outputs := None |})
      demo_now = Ok st' /\ st_actionReceipts st' !! 0%nat = Some r' /\ same_verdict (demo_receipt 5) r'.
Proof.
  destruct (apply_op demo_flow (demo_state 5) (Complete {| ca_path := None; ca_outputs := None |}) demo_now)
    as [st'|e] eqn:E; [|vm_compute in E; discriminate E].
  destruct (receipt_ledger _ _ _ _ _ 0%nat (demo_receipt 5) E) as (r' & Hi & _ & Hv & _);
    [vm_compute; reflexivity|].
  exists st', r'. split; [reflexivity|]. split; [exact Hi|]. apply Hv. left. vm_compute. reflexivity.
Defined.

Lemma dispatched_at_most_once_witness :
  a_dispatchAttempt (demo_receipt 5) = Some 1.
Proof.
  apply (dispatched_at_most_once demo_flow (demo_state 5) (demo_receipt 5)).
  - vm_compute. reflexivity.
  - apply demo_reachable.
  - apply list_elem_of_lookup. exists 0%nat. vm_compute. reflexivity.
  - left. vm_compute. reflexivity.
Defined.

(** A flow whose only step may look up one order per call. *)
Definition limit_step : FlowStep :=
  mkFlowStep
    {| s_id := js "lookup"; s_label := js "Look up"; s_instructions := js "Find the order.";
       s_context := None; s_entry := Some true; s_tools := [js "lookup_order"];
       s_required_outputs := []; s_output_bindings := [];
       s_action_policies := [simple_policy "lookup_order" 1 PerCallArguments];
       s_success_criteria := []; s_transitions := []; s_on_failure := None; s_max_attempts := None;
       s_checkpoint := None |} [].

Definition limit_flow : AgentFlow :=
  {| f_schema_version := Some 2; f_always_tools := None; f_always_action_policies := [];
     f_tool_exposure := None; f_max_step_entries := Some 10;
     f_nodes :=
       [plain_node (js "entry") (js "Incoming call") KIncomingCall;
        {| n_id := js "refund"; n_label := js "Refund"; n_kind := KTopic; n_icon := None;
           n_active := None; n_context := None; n_steps := [limit_step];
           n_support_number := None; n_table := None; n_tools := [] |}];
     f_edges := [{| e_from := js "entry"; e_to := js "refund"; e_label := None; e_when := None |}] |}.

Definition limit_state : FlowExecutionState :=
  match run_ops limit_flow (createFlowExecutionState demo_now) (take 5 demo_ops) demo_now with
  | Ok st => st
  | Err _ => createFlowExecutionState demo_now
  end.

Definition second_lookup : ReserveArgs :=
  {| ra_receiptId := js "receipt-2"; ra_invocationId := js "BBBBBBBBBBBBBBBBBBBBBBBB";
     ra_tool := js "lookup_order"; ra_arguments := [(js "phone", JStr (js "556"))];
     ra_capabilityEpoch := 2; ra_providerInvocationId := None |}.

Lemma limit_reachable : reachable limit_flow limit_state.
Proof.
  assert (iso_datetime demo_now = true) as Hn by reflexivity.
  unfold limit_state. destruct (run_ops _ _ _ _) as [st|] eqn:E; [|by apply reach_create].
  eapply run_ops_reachable; [by apply reach_create|exact Hn|exact E].
Qed.

(** The limit is reached, and the next call is refused on it. *)
Lemma call_limit_holds_witness :
  (length (live_calls (js "lookup_order") (st_actionReceipts limit_state)) <= 1)%nat /\
  length (live_calls (js "lookup_order") (st_actionReceipts limit_state)) = 1%nat /\
  reserveFlowAction limit_flow limit_state second_lookup demo_now = Err (fail "action_call_limit").
Proof.
  split; [|split; vm_compute; reflexivity].
  refine (call_limit_holds limit_flow (js "lookup_order") 1 limit_state _ limit_reachable).
  vm_compute. repeat constructor. exists 1. split; [reflexivity|]. vm_compute. discriminate.
Defined.

Lemma grants_follow_epoch_witness :
  exists st', apply_op demo_flow (demo_state 1) (EnterStep (js "refund.lookup")) demo_now = Ok st' /\
    forall args later, ra_capabilityEpoch args = 1 ->
    reserveFlowAction demo_flow st' args later = Err (fail "stale_capability").
Proof.
  destruct (apply_op demo_flow (demo_state 1) (EnterStep (js "refund.lookup")) demo_now)
    as [st'|e] eqn:E; [|vm_compute in E; discriminate E].
  exists st'. split; [reflexivity|]. intros args later Ha.
  refine (proj2 (grants_follow_epoch _ _ _ _ _ E) _ args later Ha).
  right. vm_compute in E. injection E as <-. vm_compute. discriminate.
Defined.

Lemma bound_outputs_authoritative_witness :
  exists st' next o, completeFlowStep demo_flow (demo_state 5) {| ca_path := None; ca_outputs := None |}
      demo_now = Ok (st', next) /\
    own (js "refund.lookup") (st_outputs st') = Some o /\ own (js "order") o = Some (JStr (js "A1")).
Proof.
  destruct (completeFlowStep demo_flow (demo_state 5) {| ca_path := None; ca_outputs := None |} demo_now)
    as [[st' next]|e] eqn:E; [|vm_compute in E; discriminate E].
  destruct (findStep demo_flow (js "refund.lookup")) as [ref|] eqn:Ef; [|vm_compute in Ef; discriminate Ef].
  pose proof (bound_outputs_authoritative _ _ _ _ _ _ (js "refund.lookup") ref
    {| ob_output := js "order"; ob_tool := js "lookup_order"; ob_result_path := js "$.id";
       ob_value_type := Some VString |} E) as Hb.
  vm_compute in Ef. injection Ef as <-.
  destruct Hb as (r & v & o & Hc & _ & _ & _ & Hr & _ & Ho & Hv).
  - vm_compute. reflexivity.
  - vm_compute. reflexivity.
  - apply (bool_decide_unpack _). vm_compute. exact I.
  - left.
  - exists st', next, o. split; [reflexivity|]. split; [exact Ho|].
    vm_compute in Hc. injection Hc as <-. vm_compute in Hr. injection Hr as <-. exact Hv.
Defined.

Lemma bound_arguments_authoritative_witness :
  exists res v, resolveFlowBoundArguments demo_flow (demo_state 5) (js "issue_refund")
      [(js "reason", JStr (js "late"))] = Ok res /\
    own (js "order") (br_effectiveArguments res) = Some v.
Proof.
  destruct (resolveFlowBoundArguments demo_flow (demo_state 5) (js "issue_refund")
    [(js "reason", JStr (js "late"))]) as [res|e] eqn:E; [|vm_compute in E; discriminate E].
  destruct (findStep demo_flow (js "refund.lookup")) as [ref|] eqn:Ef; [|vm_compute in Ef; discriminate Ef].
  pose proof (bound_arguments_authoritative _ _ _ _ _ (js "refund.lookup") ref E) as Hb.
  vm_compute in Ef. injection Ef as <-.
  destruct Hb as [_ Hb]; [vm_compute; reflexivity | vm_compute; reflexivity |].
  destruct (Hb {| ba_argument := js "order"; ba_source_tool := js "lookup_order";
                  ba_result_path := js "$.id" |}) as (_ & r & result & v & H); [left|].
  exists res, v. split; [reflexivity|]. apply H.
Defined.

