(* ===== verification/FlowFindings.v ===== *)
(** * Behaviours of the flow runtime that contradict its schema or documentation

    Each example runs the operations of src/web/lib/flow-runtime.ts on concrete
    states. The first three exhibit the exceptions of
    [FlowInvariant.reachable_schema]. *)

From S2P Require Import Prelude JsValue JsText Canonical Graph Flow FlowValidate FlowRuntime FlowSchema.
From S2P Require Import FlowInvariant FlowDemo.

Local Open Scope Z_scope.

#[local] Existing Instance demo_iso.
#[local] Existing Instance demo_sha256.

Definition note_reserve : ReserveArgs :=
  {| ra_receiptId := js "receipt-2"; ra_invocationId := js "BBBBBBBBBBBBBBBBBBBBBBBB";
     ra_tool := js "log_note"; ra_arguments := []; ra_capabilityEpoch := 4;
     ra_providerInvocationId := None |}.

Definition note_settle (outcome : Outcome) : SettleArgs :=
  {| sa_receiptId := js "receipt-2"; sa_outcome := outcome; sa_result := Some (JStr (js "partial"));
     sa_error := None |}.

(** The schema verdict on the state a sequence of operations leads to. *)
Definition schema_after (st : FlowExecutionState) (ops : list FlowOp) : result RuntimeError bool :=
  map_ok FlowExecutionStateSchema_ok (run_ops demo_flow st ops demo_now).

(** A failed action may be settled with a result; completing its step then marks that
    result as compacted, which the schema allows for successful receipts only. *)
Example failed_result_breaks_schema :
  schema_after (demo_state 7)
    [Reserve note_reserve; Dispatch (js "receipt-2"); Settle (note_settle OutFailed);
     Complete {| ca_path := None; ca_outputs := None |}] = Ok false /\
  schema_after (demo_state 7)
    [Reserve note_reserve; Dispatch (js "receipt-2"); Settle (note_settle OutFailed)] = Ok true.
Proof. split; vm_compute; reflexivity. Qed.

(** An indeterminate action may be settled with a result; proving it absent keeps that
    result on a failed receipt with a proof, which the schema refuses. *)
Example absent_with_result_breaks_schema :
  schema_after (demo_state 7)
    [Reserve note_reserve; Dispatch (js "receipt-2"); Settle (note_settle OutIndeterminate);
     ProveAbsent (js "receipt-2") (js "proof")] = Ok false.
Proof. vm_compute. reflexivity. Qed.

(** Promotion accepts an empty proof id, which the schema refuses; proving absence
    rejects it. *)
Example empty_proof_breaks_schema :
  schema_after (demo_state 7)
    [Reserve note_reserve; Dispatch (js "receipt-2"); MarkStale [js "receipt-2"];
     Promote (js "receipt-2") [] JNull] = Ok false /\
  schema_after (demo_state 7)
    [Reserve note_reserve; Dispatch (js "receipt-2"); MarkStale [js "receipt-2"];
     ProveAbsent (js "receipt-2") []] = Err (fail "invalid_reconciliation_proof").
Proof. split; vm_compute; reflexivity. Qed.

(** The required-output test reads inherited properties: an object without an output
    named [toString] passes when that output is required. *)
Example inherited_output_counts_as_supplied :
  output_missing [] (js "toString") = false /\ output_missing [] (js "order") = true.
Proof. split; vm_compute; reflexivity. Qed.

(** The unsafe-key test of a completion is by truthiness of the first unsafe key: an
    empty key is let through, and with it every unsafe key after it. *)
Example empty_key_hides_unsafe_key :
  let outputs := JObj [([], JNull); (js "__proto__", JNull)] in
  is_ok (completeFlowStep demo_flow (demo_state 7) {| ca_path := None; ca_outputs := Some outputs |}
           demo_now) = true /\
  completeFlowStep demo_flow (demo_state 7)
    {| ca_path := None; ca_outputs := Some (JObj [(js "__proto__", JNull)]) |} demo_now =
  Err (fail "invalid_outputs").
Proof. split; vm_compute; reflexivity. Qed.

(** A successful receipt without a result, bound with the path [$], gives an output
    that cannot be serialised: the completion throws instead of returning an error. *)
Definition root_binding_step : FlowStep :=
  mkFlowStep
    {| s_id := js "lookup"; s_label := js "Look up"; s_instructions := js "Find the order.";
       s_context := None; s_entry := Some true; s_tools := [js "lookup_order"];
       s_required_outputs := [];
       s_output_bindings := [{| ob_output := js "order"; ob_tool := js "lookup_order";
                                ob_result_path := js "$"; ob_value_type := None |}];
       s_action_policies := [demo_policy]; s_success_criteria := []; s_transitions := [];
       s_on_failure := None; s_max_attempts := None; s_checkpoint := None |} [].

Definition root_binding_flow : AgentFlow :=
  {| f_schema_version := Some 2; f_always_tools := None; f_always_action_policies := [];
     f_tool_exposure := None; f_max_step_entries := None;
     f_nodes :=
       [plain_node (js "entry") (js "Incoming call") KIncomingCall;
        {| n_id := js "refund"; n_label := js "Refund"; n_kind := KTopic; n_icon := None;
           n_active := None; n_context := None; n_steps := [root_binding_step];
           n_support_number := None; n_table := None; n_tools := [] |}];
     f_edges := [{| e_from := js "entry"; e_to := js "refund"; e_label := None; e_when := None |}] |}.

Example root_binding_without_result_throws :
  accepted root_binding_flow = true /\
  run_ops root_binding_flow (createFlowExecutionState demo_now)
    [SelectTopic (js "refund"); EnterStep (js "refund.lookup"); Reserve demo_reserve;
     Dispatch (js "receipt-1");
     Settle {| sa_receiptId := js "receipt-1"; sa_outcome := OutSucceeded; sa_result := None;
               sa_error := None |};
     Complete {| ca_path := None; ca_outputs := None |}] demo_now = Err (fail "exception").
Proof. split; vm_compute; reflexivity. Qed.
