(* ===== verification/FlowProps.v ===== *)
(** * What validation guarantees (src/web/lib/flow.ts, src/web/lib/flow-runtime.ts)

    [FlowOk] is the interface between the validator and the runtime: the facts about a
    flow that the runtime relies on. [accepted_FlowOk] shows that [validateAgentFlow]
    discharges it, and the runtime theorems here are proved against the interface.
    The rest of the file is about the validator and the normaliser themselves. *)

From S2P Require Import Prelude JsValue JsText Canonical Graph Flow FlowValidate FlowRuntime FlowSchema.
From S2P Require Import FlowInvariant FlowDemo FlowSafety.

(** ** The interface *)

Class FlowOk (flow : AgentFlow) : Prop := {
  fo_schema : AgentFlowSchema_ok flow = true;
  fo_nodes : NoDup (n_id <$> f_nodes flow);
  fo_paths : NoDup (r_path <$> listStepRefs flow);
  fo_depth : forall ref, ref ∈ listStepRefs flow -> (length (r_ancestors ref) < 8)%nat;
  fo_targets : forall ref target, ref ∈ listStepRefs flow -> target ∈ step_targets (r_step ref) ->
    target ∈ (r_path <$> listStepRefs flow);
  fo_bindings : forall ref, ref ∈ listStepRefs flow ->
    NoDup (ob_output <$> s_output_bindings (r_step ref));
  fo_binding_tools : forall ref b, ref ∈ listStepRefs flow ->
    b ∈ s_output_bindings (r_step ref) -> ob_tool b ∈ step_granted flow ref;
  fo_policy_tools : forall ref p, ref ∈ listStepRefs flow ->
    p ∈ s_action_policies (r_step ref) -> ap_tool p ∈ step_granted flow ref;
}.

(** ** Error-free diagnostics *)

Lemma errors_app a b : errors (a ++ b) = [] <-> errors a = [] /\ errors b = [].
Proof. unfold errors. rewrite List.filter_app. apply app_nil. Qed.

Lemma errors_flat_map {A} (f : A -> list FlowDiagnostic) l :
  errors (flat_map f l) = [] <-> forall x, x ∈ l -> errors (f x) = [].
Proof.
  induction l as [|y l IH]; simpl; [set_solver|]. rewrite errors_app, IH.
  setoid_rewrite elem_of_cons. naive_solver.
Qed.

Lemma errors_push_if (b : bool) path msg : errors (push_if b (error_at path msg)) = [] <-> b = false.
Proof. by destruct b. Qed.

Lemma loop_seen_errors {A} (key : A -> jstr) body l : forall i seen,
  errors (loop_seen key body i seen l) = [] ->
  (forall x, x ∈ l -> exists j dup, errors (body j dup x) = []) /\
  ((forall j x, errors (body j true x) <> []) -> NoDup (key <$> l) /\ forall x, x ∈ l -> key x ∉ seen).
Proof.
  induction l as [|y l IH]; intros i seen; simpl.
  { intros _. split; [set_solver|]. intros _. split; [constructor|set_solver]. }
  intros [Hy Hl]%errors_app. destruct (IH _ _ Hl) as [IH1 IH2]. split.
  - intros x [->|Hin]%elem_of_cons; eauto.
  - intros Hdup. destruct (IH2 Hdup) as [Hnd Hs]. destruct (includes (key y) seen) eqn:E.
    { by apply Hdup in Hy. }
    to_prop. csimpl. split.
    + constructor; [|done]. intros (x & Ex & Hx)%list_elem_of_fmap. specialize (Hs _ Hx). set_solver.
    + intros x [->|Hin]%elem_of_cons; [done|]. specialize (Hs _ Hin). set_solver.
Qed.

Lemma for_each_elem {A} (key : A -> jstr) body l x :
  errors (for_each key body l) = [] -> x ∈ l -> exists j dup, errors (body j dup x) = [].
Proof. intros H. by apply (loop_seen_errors key body l 0 []). Qed.

Lemma for_each_nodup {A} (key : A -> jstr) body l :
  errors (for_each key body l) = [] -> (forall j x, errors (body j true x) <> []) -> NoDup (key <$> l).
Proof. intros H Hd. by apply (loop_seen_errors key body l 0 []). Qed.

(** Splits a hypothesis that a concatenation of diagnostics has no errors. *)
Ltac split_errors :=
  repeat match goal with
  | H : errors (_ ++ _) = [] |- _ => apply errors_app in H as [? ?]
  | H : errors (push_if _ (error_at _ _)) = [] |- _ => apply errors_push_if in H
  end; to_prop.

Lemma accepted_checks flow :
  accepted flow = true ->
  AgentFlowSchema_ok flow = true /\ errors (check_nodes flow) = [] /\ errors (check_edges flow) = [] /\
  errors (check_entries flow) = [] /\ errors (check_global_policies flow) = [] /\
  errors (check_steps flow) = [] /\
  (is_v2 flow = true -> errors (check_reachable flow) = []).
Proof.
  unfold accepted, validateAgentFlow. destruct (AgentFlowSchema_ok flow); [simpl|done].
  intros. to_prop. split_errors. split_and!; try done. intros Hv. rewrite Hv in *. by split_errors.
Qed.

Lemma accepted_ref flow ref :
  accepted flow = true -> ref ∈ listStepRefs flow ->
  exists dup, errors (check_ref flow (r_path <$> listStepRefs flow) dup ref) = [].
Proof.
  intros (_ & _ & _ & _ & _ & Hs & _)%accepted_checks Hin.
  destruct (for_each_elem _ _ _ _ Hs Hin) as (_ & dup & He). by exists dup.
Qed.

Lemma check_transitions_ok paths ref t :
  errors (check_transitions paths ref) = [] -> t ∈ s_transitions (r_step ref) -> t_to t ∈ paths.
Proof.
  unfold check_transitions. rewrite errors_flat_map. intros H Hin. specialize (H _ Hin).
  by split_errors.
Qed.

Lemma check_failure_ok paths ref target :
  errors (check_failure paths ref) = [] -> truthy (s_on_failure (r_step ref)) = Some target -> target ∈ paths.
Proof. unfold check_failure. intros H E. rewrite E in H. by split_errors. Qed.

Lemma accepted_FlowOk flow : accepted flow = true -> FlowOk flow.
Proof.
  intros Hacc. pose proof (accepted_checks _ Hacc) as (Hs & Hn & _ & _ & _ & Hst & _).
  assert (forall ref, ref ∈ listStepRefs flow -> exists dup,
    errors (check_ref flow (r_path <$> listStepRefs flow) dup ref) = []) as Hr by (intros; by apply accepted_ref).
  constructor; try done.
  - eapply for_each_nodup; [exact Hn|]. done.
  - eapply for_each_nodup; [exact Hst|]. done.
  - intros ref Hin. destruct (Hr _ Hin) as (dup & He). unfold check_ref in He. split_errors.
    match goal with H : (8 <? _)%nat = false |- _ => apply Nat.ltb_ge in H end. lia.
  - intros ref target Hin Ht. destruct (Hr _ Hin) as (dup & He). unfold check_ref in He. split_errors.
    unfold step_targets in Ht. apply elem_of_app in Ht as [(t & -> & Ht)%list_elem_of_fmap|Ht].
    + by eapply check_transitions_ok.
    + destruct (truthy _) as [f|] eqn:Ef; simpl in Ht; [|set_solver].
      apply list_elem_of_singleton in Ht as ->. by eapply check_failure_ok.
  - intros ref Hin. destruct (Hr _ Hin) as (dup & He). unfold check_ref in He. split_errors.
    eapply for_each_nodup; [done|]. done.
  - intros ref b Hin Hb. destruct (Hr _ Hin) as (dup & He). unfold check_ref in He. split_errors.
    edestruct (@for_each_elem FlowOutputBinding) as (j & d & Hc); [done|exact Hb|]. cbv beta zeta in Hc. by split_errors.
  - intros ref p Hin Hp. destruct (Hr _ Hin) as (dup & He). unfold check_ref in He. split_errors.
    edestruct (@for_each_elem FlowActionPolicy) as (j & d & Hc); [done|exact Hp|]. cbv beta zeta in Hc. by split_errors.
Qed.

(** ** The runtime against the interface *)

Section Runtime.
Context `{HS : Sha256, HSok : !Sha256Ok HS, HI : IsoDatetime, HIok : !IsoDatetimeOk}.
Context (flow : AgentFlow) `{Hok : !FlowOk flow}.

Lemma findStep_unique ref : ref ∈ listStepRefs flow -> findStep flow (r_path ref) = Some ref.
Proof.
  intros Hin. unfold findStep. pose proof fo_paths as Hnd. induction (listStepRefs flow) as [|r l IH]; [set_solver|].
  csimpl in *. apply NoDup_cons in Hnd as [Hr Hnd]. destruct (r_path r =?s r_path ref) eqn:E; to_prop.
  - apply elem_of_cons in Hin as [->|Hin]; [done|]. exfalso. apply Hr. rewrite E.
    apply list_elem_of_fmap. by exists ref.
  - apply elem_of_cons in Hin as [->|Hin]; [done|]. by apply IH.
Qed.

Lemma path_resolves path : path ∈ (r_path <$> listStepRefs flow) -> is_Some (findStep flow path).
Proof. intros (ref & -> & Hin)%list_elem_of_fmap. exists ref. by apply findStep_unique. Qed.

Lemma entry_paths_resolve node path :
  path ∈ topicEntryStepPaths flow node -> path ∈ (r_path <$> listStepRefs flow).
Proof.
  unfold topicEntryStepPaths, topic_roots. intros Hin. destruct (existsb _ _);
    apply list_elem_of_fmap in Hin as (ref & -> & (Hr & _)%elem_of_filter_list);
    apply elem_of_filter_list in Hr as [Hr _]; apply list_elem_of_fmap; by exists ref.
Qed.

Lemma next_paths_resolve ref outputs path :
  ref ∈ listStepRefs flow -> path ∈ successfulNextSteps ref outputs -> path ∈ (r_path <$> listStepRefs flow).
Proof.
  intros Hin. unfold successfulNextSteps. rewrite elem_of_uniq, elem_of_app.
  intros [(s & -> & Hs)%list_elem_of_fmap|(t & -> & [Ht _]%elem_of_filter_list)%list_elem_of_fmap].
  - apply list_elem_of_fmap. exists (child_ref ref s). split; [done|].
    apply listStepRefs_spec in Hin as (node & step & Hn & Hst & Hr).
    apply listStepRefs_spec. exists node, step. split_and!; [done..|].
    eapply rtc_r; [exact Hr|]. by exists s.
  - eapply fo_targets; [exact Hin|]. unfold step_targets. apply elem_of_app. left.
    apply list_elem_of_fmap. by exists t.
Qed.

Lemma allowed_paths_listed st path :
  path ∈ allowedStepPaths flow st -> path ∈ (r_path <$> listStepRefs flow).
Proof.
  unfold allowedStepPaths. destruct (finished st); [set_solver|].
  destruct (topic flow _) as [node|]; [|set_solver]. destruct (bool_decide _); [set_solver|].
  destruct (truthy (st_currentStep st)) as [step|]; [|apply entry_paths_resolve].
  destruct (findStep flow step) as [cur|] eqn:Ef; [|set_solver].
  apply findStep_spec in Ef as [Hin _]. destruct (includes _ _); [by apply next_paths_resolve|].
  destruct (_ <=? _)%Z; [|set_solver]. intros Hp. eapply fo_targets; [exact Hin|].
  apply elem_of_app. by right.
Qed.

(** On a flow the validator accepts, the runtime never advertises a step it would
    refuse as unknown: in any state, each allowed next path names exactly one step, so
    entering it does not fail with [unknown_step]. *)
Theorem allowed_steps_resolve st path now e :
  path ∈ allowedStepPaths flow st ->
  (exists ref, findStep flow path = Some ref /\ r_path ref = path /\
     forall ref', ref' ∈ listStepRefs flow -> r_path ref' = path -> ref' = ref) /\
  (enterFlowStep flow st path now = Err e -> code e <> "unknown_step"%string).
Proof.
  intros Hp%allowed_paths_listed. destruct (path_resolves _ Hp) as [ref Href]. split.
  - exists ref. destruct (findStep_spec _ _ _ Href) as [Hin E]. split_and!; [done..|].
    intros ref' Hin' E'. apply findStep_unique in Hin'. congruence.
  - unfold enterFlowStep. rewrite Href. cbv zeta. intros H.
    destruct (finished st); [by simplify_eq|].
    repeat match type of H with context [if ?b then _ else _] => destruct b; [by simplify_eq|] end.
    done.
Qed.

(** The node of the active step. *)
Lemma active_node st path ref :
  reachable flow st -> activeStep st = Some path -> findStep flow path = Some ref ->
  st_nodeId st = Some (r_nodeId ref) /\ finished st = false.
Proof.
  intros Hr. induction Hr as [now|st op now st' Hr IH Hn Hop]; [done|]. intros Hact Href.
  destruct (apply_op_active _ _ _ _ _ _ Hop Hact) as [Hp|(en & Hen & ->)].
  - destruct (position_grants flow _ _ Hp) as [_ Ea]. rewrite Ea in Hact.
    unfold finished. injection Hp as -> -> _ _. by apply IH.
  - apply enter_spec in Hen as (ref' & Hf & _ & _ & _ & _ & _ & _ & -> & _). by simplify_eq.
Qed.

(** The tools a flow's policies and bindings speak about are granted when they
    matter: on an accepted flow, in every reachable state whose active step belongs to
    a topic or fallback node, each tool named by the step's action policies or output
    bindings is among the granted tools. *)
Theorem declared_tools_granted st path ref tool :
  reachable flow st -> activeStep st = Some path -> findStep flow path = Some ref ->
  topic flow (Some (r_nodeId ref)) <> None ->
  tool ∈ (ap_tool <$> s_action_policies (r_step ref)) ++ (ob_tool <$> s_output_bindings (r_step ref)) ->
  tool ∈ grantedTools flow st.
Proof.
  intros Hr Hact Href Htopic Htool. destruct (active_node _ _ _ Hr Hact Href) as [Hnode Hfin].
  destruct (findStep_spec _ _ _ Href) as [Hin _].
  assert (tool ∈ step_granted flow ref) as Hg.
  { apply elem_of_app in Htool as [(x & -> & Hx)%list_elem_of_fmap|(x & -> & Hx)%list_elem_of_fmap];
      [by eapply fo_policy_tools | by eapply fo_binding_tools]. }
  unfold grantedTools. rewrite Hfin, Hact, Href, Hnode, elem_of_uniq.
  destruct (topic flow (Some (r_nodeId ref))) as [node|] eqn:Et; [|done].
  assert (List.find (fun n => n_id n =?s r_nodeId ref) (f_nodes flow) = Some node) as En.
  { unfold topic in Et. pose proof fo_nodes as Hnd. induction (f_nodes flow) as [|n l IH]; [done|].
    csimpl in *. apply NoDup_cons in Hnd as [Hn Hnd].
    destruct (n_id n =?s r_nodeId ref) eqn:E; to_prop.
    - destruct (_ && _) in Et; [done|]. exfalso. apply Hn. apply find_elem in Et as [Hl Hb]. to_prop.
      rewrite E. apply list_elem_of_fmap. exists node. split; [congruence|done].
    - rewrite bool_decide_eq_false_2 in Et by congruence. by apply IH. }
  unfold step_granted in Hg. rewrite En in Hg. simpl in *. done.
Qed.
End Runtime.

(** ** The validator *)

(** What acceptance means: node ids and step paths are unique, there is exactly one
    entry node and at least one topic, edges join existing nodes, transitions and
    failure targets name existing steps, nesting is at most eight deep, and bindings
    and policies name granted tools. *)
Theorem accepted_wellformed flow :
  accepted flow = true ->
  FlowOk flow /\ length (entry_nodes flow) = 1%nat /\
  (exists n, n ∈ f_nodes flow /\ n_kind n = KTopic) /\
  (forall e, e ∈ f_edges flow -> (e_from e ∈ (n_id <$> f_nodes flow)) /\ (e_to e ∈ (n_id <$> f_nodes flow))).
Proof.
  intros Hacc. split; [by apply accepted_FlowOk|].
  apply accepted_checks in Hacc as (_ & _ & He & Hen & _). unfold check_entries in Hen. split_errors.
  split_and!.
  - by apply Nat.eqb_eq.
  - match goal with H : existsb is_topic _ = true |- _ => apply existsb_elem in H as (n & Hn & Ht) end.
    exists n. split; [done|]. unfold is_topic in Ht. by to_prop.
  - intros e Hin. destruct (for_each_elem _ _ _ _ He Hin) as (j & dup & Hc). cbv beta in Hc. by split_errors.
Qed.

Lemma unreached_length {A} `{EqDecision A} (U reached : list A) :
  (length (unreached U reached) <= length U)%nat.
Proof. unfold unreached. induction U as [|x U IH]; simpl; [lia|]. destruct (negb _); simpl; lia. Qed.

Lemma reachableSteps_exact flow path :
  path ∈ reachableSteps flow <->
  exists entry, entry ∈ entry_queue flow /\ rtc (edge (step_successors flow)) entry path.
Proof.
  unfold reachableSteps. split.
  - intros H. by apply bfs_sound in H.
  - intros (entry & He & Hr). eapply (bfs_complete _ _ _ _ (r_path <$> listStepRefs flow)); [| |done| |exact He|exact Hr].
    + intros x y. unfold edge, step_successors. destruct (findStep flow x); [|set_solver].
      intros [_ Hy]%elem_of_filter_list. by to_prop.
    + pose proof (unreached_length (r_path <$> listStepRefs flow) (entry_queue flow)) as Hl.
      rewrite length_fmap in Hl. lia.
    + intros x y Hx Hn. done.
Qed.

(** C5. The reachability check of a v2 flow is exact: the queue loop terminates within
    one round per queued entry and step, and the steps it leaves unmarked are exactly
    those no chain of children, transitions and failure targets reaches from an entry
    step of a topic. *)
Theorem unreachable_reported_exactly flow ref :
  ref ∈ listStepRefs flow ->
  error_at (r_path ref) StepUnreachable ∈ check_reachable flow <->
  ~ exists entry, entry ∈ entry_queue flow /\ rtc (edge (step_successors flow)) entry (r_path ref).
Proof.
  intros Hin. rewrite <- reachableSteps_exact. unfold check_reachable. rewrite elem_of_flat_map. split.
  - intros (ref' & Hin' & Hd). destruct (includes (r_path ref') _) eqn:E; simpl in Hd; [set_solver|].
    apply list_elem_of_singleton in Hd. injection Hd as ->. by to_prop.
  - intros Hn. exists ref. split; [done|]. rewrite (proj2 (includes_false _ _) Hn). simpl. by left.
Qed.

(** ** The normaliser *)

Lemma retype_kind n :
  n_kind n <> KEnd ->
  n_kind (retype n) = KIncomingCall \/ n_kind (retype n) = KTopic \/ n_kind (retype n) = KFallback.
Proof. unfold retype. destruct (n_kind n) eqn:E; simpl; rewrite ?E; auto; done. Qed.

(** Once connected, every node but the entry has an incoming edge. *)
Lemma connect_spec entry nodes : forall edges,
  (forall e, e ∈ edges -> e ∈ connect entry nodes edges) /\
  (forall n, n ∈ nodes -> n_id n <> entry -> exists e, e ∈ connect entry nodes edges /\ e_to e = n_id n).
Proof.
  induction nodes as [|n nodes IH]; intros edges; simpl; [split; [done|set_solver]|].
  destruct (negb (n_id n =?s entry) && negb _) eqn:E.
  - destruct (IH (edges ++ [{| e_from := entry; e_to := n_id n; e_label := None; e_when := None |}]))
      as [IH1 IH2]. split; [intros e He; apply IH1; set_solver|].
    intros n' [->|Hin]%elem_of_cons Hne; [|by apply IH2]. eexists. split; [apply IH1|].
    + apply elem_of_app. right. by left.
    + done.
  - destruct (IH edges) as [IH1 IH2]. split; [done|].
    intros n' [->|Hin]%elem_of_cons Hne; [|by apply IH2].
    rewrite (proj2 (str_eqb_neq _ _) Hne) in E. simpl in E. apply negb_false_iff in E.
    apply existsb_elem in E as (e & He & Ht). exists e. to_prop. split; [by apply IH1|done].
Qed.

Definition normal_kind (n : FlowNode) : Prop :=
  n_kind n = KIncomingCall \/ n_kind n = KTopic \/ n_kind n = KFallback.

Lemma with_entry_spec label nodes entry i nodes' :
  with_entry label nodes = (entry, i, nodes') -> Forall normal_kind nodes ->
  nodes' !! i = Some entry /\ n_kind entry = KIncomingCall /\ Forall normal_kind nodes'.
Proof.
  unfold with_entry. destruct (list_find _ _) as [[j n]|] eqn:E; intros [= <- <- <-] Hk.
  - apply list_find_Some in E as (Hj & Hn & _). done.
  - split_and!; [done..|]. constructor; [by left|done].
Qed.

(** The node list the normaliser builds around an entry at index [i]. *)
Lemma entry_nodes_built nodes i entry (nodes' : list FlowNode) :
  (i < length nodes)%nat -> n_kind entry = KIncomingCall -> Forall normal_kind nodes ->
  nodes' = (if bool_decide (n_steps entry = []) then <[i := entry]> nodes
            else <[i := without_steps entry]> nodes ++ [main_node entry]) ->
  Forall normal_kind nodes' /\
  exists e, nodes' !! i = Some e /\ n_id e = n_id entry /\ n_kind e = KIncomingCall /\ n_steps e = [].
Proof.
  intros Hlt Hk Hn ->. destruct (bool_decide _) eqn:E; to_prop.
  - split; [apply Forall_insert; [done|by left]|]. exists entry. by rewrite list_lookup_insert_eq.
  - split.
    + apply Forall_app. split; [apply Forall_insert; [done|by left]|]. apply Forall_singleton. right. by left.
    + exists (without_steps entry). rewrite lookup_app_l by (by rewrite length_insert).
      by rewrite list_lookup_insert_eq.
Qed.

Lemma single_entry flow e i n :
  length (entry_nodes flow) = 1%nat -> f_nodes flow !! i = Some e -> n_kind e = KIncomingCall ->
  n ∈ f_nodes flow -> n_kind n = KIncomingCall -> n = e.
Proof.
  intros Hl Hi Hk Hn Hkn.
  assert (e ∈ entry_nodes flow /\ n ∈ entry_nodes flow) as [He Hn'].
  { unfold entry_nodes. rewrite !elem_of_filter_list. apply list_elem_of_lookup_2 in Hi.
    rewrite Hk, Hkn. by split_and!. }
  destruct (entry_nodes flow) as [|a [|]]; try done.
  apply list_elem_of_singleton in He, Hn'. congruence.
Qed.

(** A normalised flow is valid and connected: it passes the validator without
    errors, its nodes are one step-free entry, topics and fallbacks, and every other
    node has an incoming edge. *)
Theorem normalizeFlow_sound input kind flow :
  normalizeFlow input kind = Ok flow ->
  accepted flow = true /\
  (forall n, n ∈ f_nodes flow -> normal_kind n) /\
  (forall n, n ∈ f_nodes flow -> n_kind n = KIncomingCall -> n_steps n = []) /\
  (forall n, n ∈ f_nodes flow -> n_kind n <> KIncomingCall ->
     exists e, e ∈ f_edges flow /\ e_to e = n_id n).
Proof.
  unfold normalizeFlow. destruct (with_entry _ _) as [[entry0 i] nodes1] eqn:Ew.
  apply with_entry_spec in Ew as (Hi & Hk & Hn).
  2: { apply Forall_fmap, Forall_forall. intros n [_ Hend]%elem_of_filter_list. to_prop. by apply retype_kind. }
  apply lookup_lt_Some in Hi.
  set (entry := if mentions_call _ then _ else _).
  assert (n_kind entry = KIncomingCall) as Hke by (unfold entry; destruct (mentions_call _); done).
  clearbody entry. set (nodes := if bool_decide (n_steps entry = []) then _ else _).
  destruct (entry_nodes_built nodes1 i entry nodes Hi Hke Hn eq_refl) as (Hkinds & e & He & Hid & Hkind & Hsteps).
  clearbody nodes. destruct (negb (existsb _ _)); [done|]. cbv zeta.
  set (edges := connect _ _ _). set (out := {| f_nodes := nodes |}).
  destruct (bool_decide (errors _ <> [])) eqn:Ev; [done|]. intros [= <-]. to_prop. apply dec_stable in Ev.
  assert (accepted out = true) as Hacc.
  { unfold accepted. destruct (validateAgentFlow out) as [[]] eqn:Eq; simpl in *; [by rewrite Ev|].
    unfold validateAgentFlow in Eq. destruct (negb _); [|done]. by injection Eq as <-. }
  rewrite Forall_forall in Hkinds. split_and!; [done|done|..].
  - intros n Hin Hkn. apply accepted_checks in Hacc as (_ & _ & _ & Hen & _). unfold check_entries in Hen.
    split_errors. match goal with H : (length _ =? 1)%nat = true |- _ => apply Nat.eqb_eq in H as Hl end.
    by rewrite (single_entry out e i n Hl He Hkind Hin Hkn).
  - intros n Hin Hkn. apply connect_spec; [done|]. rewrite <- Hid. intros Eid.
    pose proof (@fo_nodes out (accepted_FlowOk _ Hacc)) as Hnd.
    change (f_nodes out) with nodes in Hnd, Hin. apply list_elem_of_lookup in Hin as (j & Hj).
    assert (i = j) as <- by (eapply (NoDup_lookup _ _ _ (n_id n) Hnd); rewrite list_lookup_fmap;
      [rewrite He | rewrite Hj]; simpl; congruence).
    congruence.
Qed.

(** ** Witnesses *)

#[local] Existing Instance demo_iso.
#[local] Existing Instance demo_sha256.

Lemma demo_accepted : accepted demo_flow = true.
Proof. vm_compute. reflexivity. Qed.
#[local] Instance demo_FlowOk : FlowOk demo_flow := accepted_FlowOk _ demo_accepted.

Lemma declared_tools_granted_witness : js "issue_refund" ∈ grantedTools demo_flow (demo_state 2).
Proof.
  destruct (findStep demo_flow (js "refund.lookup")) as [ref|] eqn:E; [|vm_compute in E; discriminate E].
  apply (declared_tools_granted demo_flow _ (js "refund.lookup") ref);
    [apply demo_reachable | vm_compute; reflexivity | exact E |..];
    vm_compute in E; injection E as <-; [vm_compute; discriminate|].
  apply list_elem_of_lookup. exists 1%nat. vm_compute. reflexivity.
Defined.

Lemma unreachable_reported_exactly_witness :
  error_at (js "refund.lookup.confirm") StepUnreachable ∉ check_reachable demo_flow.
Proof.
  destruct (findStep demo_flow (js "refund.lookup.confirm")) as [ref|] eqn:E; [|vm_compute in E; discriminate E].
  destruct (findStep_spec _ _ _ E) as [Hin Hp]. intros H. rewrite <- Hp in H.
  apply (proj1 (unreachable_reported_exactly demo_flow ref Hin)) in H. apply H.
  exists (js "refund.lookup"). rewrite Hp. split.
  - apply list_elem_of_lookup. exists 0%nat. vm_compute. reflexivity.
  - apply rtc_once. apply list_elem_of_lookup. exists 0%nat. vm_compute. reflexivity.
Defined.
