(* ===== verification/ActionPolicy.v ===== *)
(** * The action policy kernel (src/web/lib/action-policy-kernel.ts)

    [evaluatePreDispatch] decides whether an action may be dispatched and
    [evaluatePostDispatch] whether its result may be used. A policy is taken with its
    static type; [ActionPolicySetSchema_ok] is the rest of the schema. An exception is
    [Err] with its text. JSON inputs have the static type [Json]; numbers that the
    code requires to be integers are integers here. *)

From S2P Require Import Prelude JsValue JsText Canonical JsDate Graph Flow FlowValidate FlowRuntime.

Local Open Scope Z_scope.

Module ActionPolicy.

(** ** Data *)

Inductive CmpOp : Type :=
| CExists | CEquals | CNotEquals | CIn | CLess | CLessEq | CGreater | CGreaterEq.

Inductive Authority : Type := ACaller | ATool | APolicy | AOperator | ASystem.

#[export] Instance authority_eq_dec : EqDecision Authority.
Proof. solve_decision. Defined.

Record ArgumentPredicate := {
  pa_path : jstr;
  pa_operator : CmpOp;
  pa_value : option jsval;
}.

Record FactPredicate := {
  pf_fact_id : jstr;
  pf_operator : CmpOp;
  pf_value : option jsval;
  pf_authorities : option (list Authority);
  pf_max_age_seconds : option Z;
}.

Inductive Predicate : Type :=
| PFact (p : FactPredicate)
| PArgument (p : ArgumentPredicate)
| PReceipt (action : jstr).

Record Confirmation := {
  cf_authorities : list Authority;
  cf_max_age_seconds : Z;
  cf_readback_fields : list jstr;
}.

Record ActionPolicyItem := {
  it_action : jstr;
  it_effect : Effect;
  it_require_all : list Predicate;
  it_deny_if_any : list Predicate;
  it_maximum_calls : option Z;
  it_confirmation : option Confirmation;
  it_postconditions : list ArgumentPredicate;
  it_visible_fields : list jstr;
}.

Record ActionPolicySet := {
  ps_id : jstr;
  ps_version : jstr;
  ps_actions : list ActionPolicyItem;
}.

Record PolicyFact := {
  fa_fact_id : jstr;
  fa_revision : Z;
  fa_value : jsval;
  fa_authority : Authority;
  fa_observed_at : jstr;
  fa_evidence_sha256 : jstr;
}.

Record PolicyReceipt := {
  pr_action : jstr;
  pr_status : ReceiptStatus;
  pr_receipt_sha256 : jstr;
}.

Record ConfirmationEvidence := {
  ce_proposal_digest : jstr;
  ce_challenge_digest : jstr;
  ce_authority : Authority;
  ce_confirmed_at : jstr;
  ce_evidence_sha256 : jstr;
  ce_state_revision : Z;
  ce_capability_epoch : Z;
}.

Record PreDispatchInput := {
  in_policy : ActionPolicySet;
  in_action : jstr;
  in_arguments : obj jsval;
  in_state_head_sha256 : jstr;
  in_state_revision : Z;
  in_capability_epoch : Z;
  in_facts : list PolicyFact;
  in_receipts : list PolicyReceipt;
  in_prior_call_count : Z;
  in_confirmation : option ConfirmationEvidence;
  in_now : jstr;
}.

Inductive Decision : Type := Allow | Deny | RequireConfirmation.

Record PreDispatchDecision := {
  pd_decision : Decision;
  pd_reason : jstr;
  pd_action : jstr;
  pd_effect : option Effect;
  pd_policy_digest : jstr;
  pd_state_head_sha256 : jstr;
  pd_state_revision : Z;
  pd_capability_epoch : Z;
  pd_arguments_sha256 : jstr;
  pd_proposal_digest : jstr;
  pd_challenge_digest : option jstr;
  pd_evidence_sha256 : list jstr;
  pd_decision_digest : jstr;
}.

(** ** Schema *)

(** [/^[a-z][a-z0-9_.:-]{1,127}$/] *)
Definition SAFE_ID (s : jstr) : bool :=
  match s with
  | c :: r => is_lower c && (1 <=? length r)%nat && (length r <=? 127)%nat &&
              forallb (fun c => is_lower c || is_digit c || one_of "_.:-" c) r
  | [] => false
  end.

Definition word (s : jstr) : bool :=
  (1 <=? length s)%nat && forallb (fun c => is_alnum c || one_of "_-" c) s.

(** [/^[A-Za-z0-9_-]+(?:\.[A-Za-z0-9_-]+){0,7}$/] *)
Definition PATH (s : jstr) : bool :=
  forallb word (split_dots s) && (length (split_dots s) <=? 8)%nat.

(** [JsonSchema]: finite numbers only. *)
Fixpoint JsonSchema_ok (v : jsval) : bool :=
  match v with
  | JNull | JBool _ | JStr _ => true
  | JNum n => is_finite n
  | JArr vs => forallb JsonSchema_ok vs
  | JObj kvs => forallb (fun kv => JsonSchema_ok kv.2) kvs
  | JUndefined | JOther _ => false
  end.

Definition is_number (v : option jsval) : bool := match v with Some (JNum _) => true | _ => false end.

Definition validateComparison (op : CmpOp) (value : option jsval) : bool :=
  match op with
  | CExists => true
  | CEquals | CNotEquals => bool_decide (is_Some value)
  | CIn => match value with Some v => is_array v | None => false end
  | CLess | CLessEq | CGreater | CGreaterEq => is_number value
  end.

Definition ArgumentPredicateSchema_ok (p : ArgumentPredicate) : bool :=
  PATH (pa_path p) && opt_all JsonSchema_ok (pa_value p) &&
  validateComparison (pa_operator p) (pa_value p).

Definition FactPredicateSchema_ok (p : FactPredicate) : bool :=
  SAFE_ID (pf_fact_id p) && opt_all JsonSchema_ok (pf_value p) &&
  opt_all (fun l => (1 <=? length l)%nat && (length l <=? 5)%nat) (pf_authorities p) &&
  opt_all (fun a => (0 <? a) && (a <=? 31536000)) (pf_max_age_seconds p) &&
  validateComparison (pf_operator p) (pf_value p).

Definition PredicateSchema_ok (p : Predicate) : bool :=
  match p with
  | PFact p => FactPredicateSchema_ok p
  | PArgument p => ArgumentPredicateSchema_ok p
  | PReceipt action => SAFE_ID action
  end.

Definition ConfirmationSchema_ok (c : Confirmation) : bool :=
  (1 <=? length (cf_authorities c))%nat && (length (cf_authorities c) <=? 2)%nat &&
  forallb (fun a => bool_decide (a = ACaller) || bool_decide (a = AOperator)) (cf_authorities c) &&
  (0 <? cf_max_age_seconds c) && (cf_max_age_seconds c <=? 3600) &&
  forallb PATH (cf_readback_fields c) && (length (cf_readback_fields c) <=? 16)%nat.

Definition ActionPolicySchema_ok (i : ActionPolicyItem) : bool :=
  SAFE_ID (it_action i) &&
  forallb PredicateSchema_ok (it_require_all i) && (length (it_require_all i) <=? 128)%nat &&
  forallb PredicateSchema_ok (it_deny_if_any i) && (length (it_deny_if_any i) <=? 128)%nat &&
  opt_all (fun m => (0 <? m) && (m <=? 10000)) (it_maximum_calls i) &&
  opt_all ConfirmationSchema_ok (it_confirmation i) &&
  forallb ArgumentPredicateSchema_ok (it_postconditions i) &&
  (length (it_postconditions i) <=? 128)%nat &&
  forallb (fun f => word f && (length f <=? 128)%nat) (it_visible_fields i) &&
  (length (it_visible_fields i) <=? 128)%nat.

Definition ActionPolicySetSchema_ok (p : ActionPolicySet) : bool :=
  SAFE_ID (ps_id p) && (1 <=? length (ps_version p))%nat && (length (ps_version p) <=? 128)%nat &&
  (1 <=? length (ps_actions p))%nat && (length (ps_actions p) <=? 1024)%nat &&
  forallb ActionPolicySchema_ok (ps_actions p) && nodupb (it_action <$> ps_actions p).

(** ** Digests *)

(** This module's [canonicalJson] writes a non-finite number as [null], as
    [JSON.stringify] does, and is the shared encoder otherwise. *)
Fixpoint nullify (v : jsval) : jsval :=
  match v with
  | JNum n => if is_finite n then v else JNull
  | JArr vs => JArr (nullify <$> vs)
  | JObj kvs => JObj ((fun kv => (kv.1, nullify kv.2)) <$> kvs)
  | _ => v
  end.

Definition policyJson (v : jsval) : option jstr := canonicalJson (nullify v).

Definition op_text (op : CmpOp) : string :=
  match op with
  | CExists => "exists" | CEquals => "equals" | CNotEquals => "not_equals" | CIn => "in"
  | CLess => "less_than" | CLessEq => "less_than_or_equal" | CGreater => "greater_than"
  | CGreaterEq => "greater_than_or_equal"
  end.
Definition authority_text (a : Authority) : string :=
  match a with
  | ACaller => "caller" | ATool => "tool" | APolicy => "policy" | AOperator => "operator"
  | ASystem => "system"
  end.
Definition effect_text (e : option Effect) : string :=
  match e with
  | Some EffectRead => "read" | Some EffectWrite => "write" | Some EffectOpaque => "opaque"
  | None => "unknown"
  end.
Definition decision_text (d : Decision) : string :=
  match d with
  | Allow => "allow" | Deny => "deny" | RequireConfirmation => "require_confirmation"
  end.

Definition authorities_json (l : list Authority) : jsval := JArr ((fun a => jtext (authority_text a)) <$> l).

Definition argument_json (p : ArgumentPredicate) : jsval :=
  JObj (field "kind" (jtext "argument") ++ field "path" (JStr (pa_path p)) ++
    field "operator" (jtext (op_text (pa_operator p))) ++ opt_field "value" (fun v => v) (pa_value p)).

Definition predicate_json (p : Predicate) : jsval :=
  match p with
  | PFact p =>
      JObj (field "kind" (jtext "fact") ++ field "fact_id" (JStr (pf_fact_id p)) ++
        field "operator" (jtext (op_text (pf_operator p))) ++
        opt_field "value" (fun v => v) (pf_value p) ++
        opt_field "authorities" authorities_json (pf_authorities p) ++
        opt_field "max_age_seconds" jnat (pf_max_age_seconds p))
  | PArgument p => argument_json p
  | PReceipt action =>
      JObj (field "kind" (jtext "receipt") ++ field "action" (JStr action) ++
        field "status" (jtext "succeeded"))
  end.

Definition confirmation_json (c : Confirmation) : jsval :=
  JObj (field "authorities" (authorities_json (cf_authorities c)) ++
    field "max_age_seconds" (jnat (cf_max_age_seconds c)) ++
    field "readback_fields" (JArr (JStr <$> cf_readback_fields c))).

Definition item_json (i : ActionPolicyItem) : jsval :=
  JObj (field "action" (JStr (it_action i)) ++ field "effect" (jtext (effect_text (Some (it_effect i)))) ++
    field "require_all" (JArr (predicate_json <$> it_require_all i)) ++
    field "deny_if_any" (JArr (predicate_json <$> it_deny_if_any i)) ++
    opt_field "maximum_calls" jnat (it_maximum_calls i) ++
    opt_field "confirmation" confirmation_json (it_confirmation i) ++
    field "postconditions" (JArr (argument_json <$> it_postconditions i)) ++
    field "provider_visible_result_fields" (JArr (JStr <$> it_visible_fields i))).

Definition policy_json (p : ActionPolicySet) : jsval :=
  JObj (field "schema_version" (jnat 1) ++ field "id" (JStr (ps_id p)) ++
    field "version" (JStr (ps_version p)) ++ field "actions" (JArr (item_json <$> ps_actions p)) ++
    field "default_decision" (jtext "deny")).

Section Kernel.
Context `{HS : Sha256}.

(** [sha256(domain, value)]; [None] when the value cannot be serialised. *)
Definition domain_sha256 (domain : string) (v : jsval) : option jstr :=
  (fun t => sha256 (js domain ++ 10%N :: t)) <$> policyJson v.

Definition MAX_POLICY_BYTES : Z := 512 * 1024.

Abbreviation throws := (Err (E := jstr)).

Definition require {A} (o : option A) : result jstr A :=
  match o with Some a => Ok a | None => throws (js "undefined is not valid canonical JSON") end.

(** [parsePolicy]; the schema's own error text stands for all its issues. *)
Definition parsePolicy (p : ActionPolicySet) : result jstr ActionPolicySet :=
  raise js "invalid policy" when negb (ActionPolicySetSchema_ok p) ;;
  let* text := require (policyJson (policy_json p)) in
  raise js "action policy set exceeds 512KB" when MAX_POLICY_BYTES <? utf8_length text ;;
  Ok p.

(** ** Predicates *)

(** [valueAtPath]: own properties of plain objects only. *)
Fixpoint value_at_segments (v : jsval) (segments : list jstr) : option jsval :=
  match segments with
  | [] => Some v
  | seg :: segments =>
      match v with
      | JObj kvs => v' ← own seg kvs; value_at_segments v' segments
      | _ => None
      end
  end.
Definition valueAtPath (root : jsval) (path : jstr) : option jsval :=
  defined (value_at_segments root (split_dots path)).

Definition same_json (a b : jsval) : bool :=
  match policyJson a, policyJson b with
  | Some t, Some t' => t =?s t'
  | _, _ => false
  end.

Definition num_leb (a b : jsnum) : bool := num_ltb a b || num_eqb a b.

Definition compare (actual : option jsval) (op : CmpOp) (expected : option jsval) : bool :=
  match op with
  | CExists => bool_decide (is_Some actual)
  | CEquals => match actual, expected with Some a, Some e => same_json a e | _, _ => false end
  | CNotEquals => match actual, expected with Some a, Some e => negb (same_json a e) | _, _ => false end
  | CIn => match actual, expected with
           | Some a, Some (JArr es) => existsb (same_json a) es
           | _, _ => false
           end
  | CLess | CLessEq | CGreater | CGreaterEq =>
      match actual, expected with
      | Some (JNum a), Some (JNum e) =>
          is_finite a && is_finite e &&
          match op with
          | CLess => num_ltb a e
          | CLessEq => num_leb a e
          | CGreater => num_ltb e a
          | _ => num_leb e a
          end
      | _, _ => false
      end
  end.

Definition findFact (id : jstr) (facts : list PolicyFact) : option PolicyFact :=
  List.find (fun f => fa_fact_id f =?s id) facts.

(** The outcome of a predicate and the evidence it looked at. *)
Definition evaluatePredicate (p : Predicate) (input : PreDispatchInput) (nowMs : Z) : bool * list jstr :=
  match p with
  | PArgument p =>
      (compare (valueAtPath (JObj (in_arguments input)) (pa_path p)) (pa_operator p) (pa_value p), [])
  | PReceipt action =>
      match List.find (fun r => (pr_action r =?s action) && bool_decide (pr_status r = Succeeded))
              (in_receipts input) with
      | Some r => (true, [pr_receipt_sha256 r])
      | None => (false, [])
      end
  | PFact p =>
      match findFact (pf_fact_id p) (in_facts input) with
      | None => (false, [])
      | Some fact =>
          if match pf_authorities p with Some l => negb (includes (fa_authority fact) l) | None => false end
          then (false, [])
          else
            let observed_ok :=
              match canonical_ms (fa_observed_at fact) with
              | Some ms =>
                  (ms <=? nowMs) &&
                  match pf_max_age_seconds p with
                  | Some age => negb (age * 1000 <? nowMs - ms)
                  | None => true
                  end
              | None => false
              end in
            if observed_ok
            then (compare (defined (Some (fa_value fact))) (pf_operator p) (pf_value p), [fa_evidence_sha256 fact])
            else (false, [fa_evidence_sha256 fact])
      end
  end.

(** ** Pre-dispatch *)

Definition decision_json (d : PreDispatchDecision) : jsval :=
  JObj (field "action" (JStr (pd_action d)) ++ field "effect" (jtext (effect_text (pd_effect d))) ++
    field "policy_digest" (JStr (pd_policy_digest d)) ++
    field "state_head_sha256" (JStr (pd_state_head_sha256 d)) ++
    field "state_revision" (jnat (pd_state_revision d)) ++
    field "capability_epoch" (jnat (pd_capability_epoch d)) ++
    field "arguments_sha256" (JStr (pd_arguments_sha256 d)) ++
    field "proposal_digest" (JStr (pd_proposal_digest d)) ++
    field "decision" (jtext (decision_text (pd_decision d))) ++ field "reason" (JStr (pd_reason d)) ++
    field "challenge_digest" (nullable (pd_challenge_digest d)) ++
    field "evidence_sha256" (JArr (JStr <$> pd_evidence_sha256 d))).

(** The fields of a decision that do not depend on the verdict. *)
Record Base := {
  ba_effect : option Effect;
  ba_policy_digest : jstr;
  ba_arguments_sha256 : jstr;
  ba_proposal_digest : jstr;
}.

Definition finishDecision (input : PreDispatchInput) (base : Base) (decision : Decision)
    (reason : string) (challenge : option jstr) (evidence : list jstr)
  : result jstr PreDispatchDecision :=
  let body digest :=
    {| pd_decision := decision; pd_reason := js reason; pd_action := in_action input;
       pd_effect := ba_effect base; pd_policy_digest := ba_policy_digest base;
       pd_state_head_sha256 := in_state_head_sha256 input;
       pd_state_revision := in_state_revision input;
       pd_capability_epoch := in_capability_epoch input;
       pd_arguments_sha256 := ba_arguments_sha256 base;
       pd_proposal_digest := ba_proposal_digest base; pd_challenge_digest := challenge;
       pd_evidence_sha256 := sort_by str_ltb (uniq evidence); pd_decision_digest := digest |} in
  let* digest := require (domain_sha256 "hacc/action-policy-decision/v1" (decision_json (body []))) in
  Ok (body digest).

Definition MAX_SAFE : Z := 9007199254740991.
Definition safe_count (z : Z) : bool := (0 <=? z) && (z <=? MAX_SAFE).

Definition proposal_json (input : PreDispatchInput) (policyDigest argumentsHash : jstr) : jsval :=
  JObj (field "policy_digest" (JStr policyDigest) ++ field "action" (JStr (in_action input)) ++
    field "arguments_sha256" (JStr argumentsHash) ++
    field "state_head_sha256" (JStr (in_state_head_sha256 input)) ++
    field "state_revision" (jnat (in_state_revision input)) ++
    field "capability_epoch" (jnat (in_capability_epoch input))).

Definition readback (arguments : obj jsval) (fields : list jstr) : obj jsval :=
  spread [] ((fun path => (path, default JNull (valueAtPath (JObj arguments) path))) <$> fields).

Definition challenge_json (input : PreDispatchInput) (c : Confirmation) (proposalDigest : jstr) : jsval :=
  JObj (field "proposal_digest" (JStr proposalDigest) ++
    field "readback" (JObj (readback (in_arguments input) (cf_readback_fields c)))).

(** [fresh] *)
Definition fresh_confirmation (c : Confirmation) (e : ConfirmationEvidence) (nowMs : Z) : bool :=
  match canonical_ms (ce_confirmed_at e) with
  | Some ms => (ms <=? nowMs) && (nowMs - ms <=? cf_max_age_seconds c * 1000)
  | None => false
  end.

(** [valid] *)
Definition confirmation_valid (input : PreDispatchInput) (c : Confirmation) (e : ConfirmationEvidence)
    (proposalDigest challengeDigest : jstr) (nowMs : Z) : bool :=
  fresh_confirmation c e nowMs && (ce_proposal_digest e =?s proposalDigest) &&
  (ce_challenge_digest e =?s challengeDigest) && (ce_state_revision e =? in_state_revision input) &&
  (ce_capability_epoch e =? in_capability_epoch input) &&
  includes (ce_authority e) (cf_authorities c) && is_sha256 (ce_evidence_sha256 e).

Definition findItem (action : jstr) (p : ActionPolicySet) : option ActionPolicyItem :=
  List.find (fun i => it_action i =?s action) (ps_actions p).

(** The verdict once the digests are known. *)
Definition decide_action (input : PreDispatchInput) (base : Base) (item : ActionPolicyItem) (nowMs : Z)
  : result jstr PreDispatchDecision :=
  let finish := finishDecision input base in
  let denied := (fun p => evaluatePredicate p input nowMs) <$> it_deny_if_any item in
  if existsb fst denied then finish Deny "deny_condition_matched" None (flat_map snd denied)
  else
    let required := (fun p => evaluatePredicate p input nowMs) <$> it_require_all item in
    let evidence := flat_map snd required in
    if existsb (fun r => negb r.1) required then finish Deny "required_evidence_missing" None evidence
    else if match it_maximum_calls item with
            | Some m => m <=? in_prior_call_count input
            | None => false
            end
    then finish Deny "call_limit_reached" None evidence
    else match it_confirmation item with
    | None => finish Allow "allowed" None evidence
    | Some c =>
        let* challenge := require (domain_sha256 "hacc/action-policy-confirmation-challenge/v1"
                            (challenge_json input c (ba_proposal_digest base))) in
        match in_confirmation input with
        | Some e =>
            if confirmation_valid input c e (ba_proposal_digest base) challenge nowMs
            then finish Allow "allowed" (Some challenge) (evidence ++ [ce_evidence_sha256 e])
            else finish RequireConfirmation "fresh_confirmation_required" (Some challenge) evidence
        | None => finish RequireConfirmation "fresh_confirmation_required" (Some challenge) evidence
        end
    end.

Definition evaluatePreDispatch (input : PreDispatchInput) : result jstr PreDispatchDecision :=
  raise js "invalid action policy state binding" when
    negb (is_sha256 (in_state_head_sha256 input) && safe_count (in_state_revision input) &&
          safe_count (in_capability_epoch input) && safe_count (in_prior_call_count input)) ;;
  match canonical_ms (in_now input) with
  | None => throws (js "policy evaluation time must be canonical ISO-8601")
  | Some nowMs =>
      let* policy := parsePolicy (in_policy input) in
      let* policyDigest := require (domain_sha256 "hacc/action-policy-set/v1" (policy_json policy)) in
      let* argumentsHash := require (domain_sha256 "hacc/action-policy-arguments/v1"
                                       (JObj (in_arguments input))) in
      let* proposalDigest := require (domain_sha256 "hacc/action-policy-proposal/v1"
                                        (proposal_json input policyDigest argumentsHash)) in
      let item := findItem (in_action input) policy in
      let base := {| ba_effect := it_effect <$> item; ba_policy_digest := policyDigest;
                     ba_arguments_sha256 := argumentsHash; ba_proposal_digest := proposalDigest |} in
      match item with
      | None => finishDecision input base Deny "action_not_governed" None []
      | Some item => decide_action input base item nowMs
      end
  end.

(** ** Post-dispatch *)

Inductive PostVerdict : Type := Accept | Reject | Quarantine | RequireReconciliation.

Record PostDispatchDecision := {
  po_decision : PostVerdict;
  po_reason : jstr;
  po_raw_result_sha256 : jstr;
  po_provider_result : option (obj jsval);
  po_decision_digest : jstr;
}.

Record PostDispatchInput := {
  pi_policy : ActionPolicySet;
  pi_pre_dispatch : PreDispatchDecision;
  pi_state_head_sha256 : jstr;
  pi_state_revision : Z;
  pi_capability_epoch : Z;
  pi_result : obj jsval;
}.

Definition verdict_text (v : PostVerdict) : string :=
  match v with
  | Accept => "accept" | Reject => "reject" | Quarantine => "quarantine"
  | RequireReconciliation => "require_reconciliation"
  end.

(** The [finish] closure. *)
Definition finishPost (input : PostDispatchInput) (rawHash : jstr) (verdict : PostVerdict)
    (reason : string) (provider : option (obj jsval)) : result jstr PostDispatchDecision :=
  let* digest := require (domain_sha256 "hacc/action-policy-post-decision/v1"
    (JObj (field "decision" (jtext (verdict_text verdict)) ++ field "reason" (jtext reason) ++
       field "raw_result_sha256" (JStr rawHash) ++
       field "pre_dispatch_digest" (JStr (pd_decision_digest (pi_pre_dispatch input))) ++
       field "current_state_head_sha256" (JStr (pi_state_head_sha256 input)) ++
       field "current_state_revision" (jnat (pi_state_revision input)) ++
       field "current_capability_epoch" (jnat (pi_capability_epoch input))))) in
  Ok {| po_decision := verdict; po_reason := js reason; po_raw_result_sha256 := rawHash;
        po_provider_result := provider; po_decision_digest := digest |}.

(** The fields of a result that the provider may see. *)
Definition visible (result : obj jsval) (fields : list jstr) : obj jsval :=
  spread [] (omap (fun f => (fun v => (f, v)) <$> own f result) fields).

Definition postconditions_failed (item : ActionPolicyItem) (result : obj jsval) : bool :=
  existsb (fun p => negb (compare (valueAtPath (JObj result) (pa_path p)) (pa_operator p) (pa_value p)))
    (it_postconditions item).

Definition evaluatePostDispatch (input : PostDispatchInput) : result jstr PostDispatchDecision :=
  let pre := pi_pre_dispatch input in
  let* policy := parsePolicy (pi_policy input) in
  let* policyDigest := require (domain_sha256 "hacc/action-policy-set/v1" (policy_json policy)) in
  let* rawHash := require (domain_sha256 "hacc/action-policy-result/v1" (JObj (pi_result input))) in
  let finish := finishPost input rawHash in
  match findItem (pd_action pre) policy, pd_decision pre with
  | Some item, Allow =>
      if negb (pd_policy_digest pre =?s policyDigest)
      then finish Quarantine "policy_changed_after_decision" None
      else if negb (pi_state_head_sha256 input =?s pd_state_head_sha256 pre) ||
              negb (pi_state_revision input =? pd_state_revision pre) ||
              negb (pi_capability_epoch input =? pd_capability_epoch pre)
      then finish Quarantine "authority_advanced_after_decision" None
      else if postconditions_failed item (pi_result input)
      then if bool_decide (it_effect item = EffectRead)
           then finish Reject "read_result_failed_postcondition" None
           else finish RequireReconciliation "effect_result_failed_postcondition" None
      else finish Accept "accepted" (Some (visible (pi_result input) (it_visible_fields item)))
  | _, _ => finish Quarantine "dispatch_was_not_allowed" None
  end.
End Kernel.

End ActionPolicy.
