(* ===== verification/ActionPolicyProps.v ===== *)
(** * Correctness of the action policy kernel

    Deny by default, sound allowances, confirmations bound to one proposal, and results
    released only while the authority that allowed them is current. *)

From S2P Require Import Prelude JsValue JsText Canonical JsDate Graph Flow FlowValidate FlowRuntime.
From S2P Require Import ActionPolicy.
Import ActionPolicy.

Local Open Scope Z_scope.

Section Props.
Context `{HS : Sha256}.

Lemma require_Ok {A} (o : option A) a : require o = Ok a <-> o = Some a.
Proof. destruct o; simpl; naive_solver. Qed.

Lemma bind_Ok {E A B} (r : result E A) (k : A -> result E B) b :
  bind_result r k = Ok b <-> exists a, r = Ok a /\ k a = Ok b.
Proof. destruct r; simpl; naive_solver. Qed.

Lemma parsePolicy_Ok p q : parsePolicy p = Ok q -> q = p /\ ActionPolicySetSchema_ok p = true.
Proof.
  unfold parsePolicy. destruct (ActionPolicySetSchema_ok p); [|done]. cbn [negb].
  intros (t & _ & Ht)%bind_Ok. destruct (_ <? _); [done|]. by injection Ht as <-.
Qed.

(** A finished decision records the verdict and the bindings it was given. *)
Lemma finishDecision_Ok input base dec reason challenge evidence d :
  finishDecision input base dec reason challenge evidence = Ok d ->
  pd_decision d = dec /\ pd_reason d = js reason /\ pd_action d = in_action input /\
  pd_effect d = ba_effect base /\ pd_policy_digest d = ba_policy_digest base /\
  pd_state_head_sha256 d = in_state_head_sha256 input /\
  pd_state_revision d = in_state_revision input /\ pd_capability_epoch d = in_capability_epoch input /\
  pd_arguments_sha256 d = ba_arguments_sha256 base /\
  pd_proposal_digest d = ba_proposal_digest base /\ pd_challenge_digest d = challenge.
Proof. unfold finishDecision. intros (digest & _ & [= <-])%bind_Ok. by split_and!. Qed.

(** The digests every decision starts from. *)
Record evaluated (input : PreDispatchInput) (nowMs : Z) (base : Base) : Prop := {
  ev_now : canonical_ms (in_now input) = Some nowMs;
  ev_schema : ActionPolicySetSchema_ok (in_policy input) = true;
  ev_policy : domain_sha256 "hacc/action-policy-set/v1" (policy_json (in_policy input)) =
    Some (ba_policy_digest base);
  ev_arguments : domain_sha256 "hacc/action-policy-arguments/v1" (JObj (in_arguments input)) =
    Some (ba_arguments_sha256 base);
  ev_proposal : domain_sha256 "hacc/action-policy-proposal/v1"
    (proposal_json input (ba_policy_digest base) (ba_arguments_sha256 base)) =
    Some (ba_proposal_digest base);
  ev_effect : ba_effect base = it_effect <$> findItem (in_action input) (in_policy input);
}.

Lemma evaluatePreDispatch_Ok input d :
  evaluatePreDispatch input = Ok d ->
  exists nowMs base, evaluated input nowMs base /\
    match findItem (in_action input) (in_policy input) with
    | None => finishDecision input base Deny "action_not_governed" None [] = Ok d
    | Some item => decide_action input base item nowMs = Ok d
    end.
Proof.
  unfold evaluatePreDispatch. destruct (negb _); [done|].
  destruct (canonical_ms _) as [nowMs|] eqn:En; [|done].
  intros (policy & [-> Hs]%parsePolicy_Ok & H)%bind_Ok.
  apply bind_Ok in H as (pdig & Hp%require_Ok & H). apply bind_Ok in H as (ah & Ha%require_Ok & H).
  apply bind_Ok in H as (prop & Hpr%require_Ok & H).
  exists nowMs, {| ba_effect := it_effect <$> findItem (in_action input) (in_policy input);
    ba_policy_digest := pdig; ba_arguments_sha256 := ah; ba_proposal_digest := prop |}.
  split; [by constructor|]. by destruct (findItem _ _).
Qed.

(** Every decision is finished with the same bindings. *)
Lemma decide_action_finish input base item nowMs d :
  decide_action input base item nowMs = Ok d ->
  exists dec reason challenge evidence, finishDecision input base dec reason challenge evidence = Ok d.
Proof.
  unfold decide_action. destruct (existsb fst _); [by eauto|].
  destruct (existsb (fun r => negb r.1) _); [by eauto|].
  destruct (match it_maximum_calls item with Some _ => _ | None => _ end); [by eauto|].
  destruct (it_confirmation item); [|by eauto]. intros (ch & _ & H)%bind_Ok.
  destruct (in_confirmation input); [destruct (confirmation_valid _ _ _ _ _ _)|]; eauto.
Qed.

(** ** What the policy asks for, stated on its own *)

(** What a comparison says. *)
Definition equal_json (a e : jsval) : Prop := exists t, policyJson a = Some t /\ policyJson e = Some t.

Definition ordered (r : jsnum -> jsnum -> Prop) (actual expected : option jsval) : Prop :=
  exists a e, actual = Some (JNum a) /\ expected = Some (JNum e) /\
    is_finite a = true /\ is_finite e = true /\ r a e.

Definition compares (actual : option jsval) (op : CmpOp) (expected : option jsval) : Prop :=
  match op with
  | CExists => actual <> None
  | CEquals => exists a e, actual = Some a /\ expected = Some e /\ equal_json a e
  | CNotEquals => exists a e, actual = Some a /\ expected = Some e /\ ~ equal_json a e
  | CIn => exists a es e, actual = Some a /\ expected = Some (JArr es) /\ e ∈ es /\ equal_json a e
  | CLess => ordered (fun a e => num_ltb a e = true) actual expected
  | CLessEq => ordered (fun a e => num_ltb a e = true \/ num_eqb a e = true) actual expected
  | CGreater => ordered (fun a e => num_ltb e a = true) actual expected
  | CGreaterEq => ordered (fun a e => num_ltb e a = true \/ num_eqb e a = true) actual expected
  end.

(** A fact predicate looks at the first fact of its name: one of an accepted authority, observed
    at a time that has come and is no longer ago than the predicate allows, with the value asked for. *)
Record fact_holds (p : FactPredicate) (facts : list PolicyFact) (nowMs : Z) (fact : PolicyFact) (ms : Z) : Prop := {
  fh_first : exists before after, facts = before ++ fact :: after /\
    Forall (fun f => fa_fact_id f <> pf_fact_id p) before;
  fh_name : fa_fact_id fact = pf_fact_id p;
  fh_authority : forall l, pf_authorities p = Some l -> fa_authority fact ∈ l;
  fh_observed : canonical_ms (fa_observed_at fact) = Some ms;
  fh_past : ms <= nowMs;
  fh_age : forall age, pf_max_age_seconds p = Some age -> nowMs - ms <= age * 1000;
  fh_value : compares (defined (Some (fa_value fact))) (pf_operator p) (pf_value p);
}.

Definition predicate_holds (input : PreDispatchInput) (nowMs : Z) (p : Predicate) : Prop :=
  match p with
  | PFact p => exists fact ms, fact_holds p (in_facts input) nowMs fact ms
  | PArgument p => compares (valueAtPath (JObj (in_arguments input)) (pa_path p)) (pa_operator p) (pa_value p)
  | PReceipt action => exists r, r ∈ in_receipts input /\ pr_action r = action /\ pr_status r = Succeeded
  end.

(** A confirmation for this proposal and its challenge, given at a time that has come and is
    no longer ago than the policy allows. *)
Record confirmed (input : PreDispatchInput) (c : Confirmation) (proposal : jstr) (nowMs : Z)
    (e : ConfirmationEvidence) (ms : Z) : Prop := {
  co_present : in_confirmation input = Some e;
  co_time : canonical_ms (ce_confirmed_at e) = Some ms;
  co_past : ms <= nowMs;
  co_age : nowMs - ms <= cf_max_age_seconds c * 1000;
  co_proposal : ce_proposal_digest e = proposal;
  co_challenge : domain_sha256 "hacc/action-policy-confirmation-challenge/v1"
    (challenge_json input c proposal) = Some (ce_challenge_digest e);
  co_revision : ce_state_revision e = in_state_revision input;
  co_epoch : ce_capability_epoch e = in_capability_epoch input;
  co_authority : ce_authority e ∈ cf_authorities c;
  co_evidence : is_sha256 (ce_evidence_sha256 e) = true;
}.

(** What an allowance establishes. *)
Record permits (input : PreDispatchInput) (item : ActionPolicyItem) (nowMs : Z) (proposal : jstr) : Prop := {
  pm_denied : forall p, p ∈ it_deny_if_any item -> ~ predicate_holds input nowMs p;
  pm_required : forall p, p ∈ it_require_all item -> predicate_holds input nowMs p;
  pm_calls : forall m, it_maximum_calls item = Some m -> in_prior_call_count input < m;
  pm_confirmed : forall c, it_confirmation item = Some c -> exists e ms, confirmed input c proposal nowMs e ms;
}.

Lemma same_json_iff a e : same_json a e = true <-> equal_json a e.
Proof.
  unfold same_json, equal_json. destruct (policyJson a) as [t|], (policyJson e) as [t'|]; [|naive_solver..].
  rewrite str_eqb_eq. naive_solver.
Qed.

Lemma ordered_iff (f : jsnum -> jsnum -> bool) (r : jsnum -> jsnum -> Prop) actual expected :
  (forall a e, f a e = true <-> r a e) ->
  match actual, expected with
  | Some (JNum a), Some (JNum e) => is_finite a && is_finite e && f a e
  | _, _ => false
  end = true <-> ordered r actual expected.
Proof.
  intros Hf. unfold ordered. split.
  - destruct actual as [[]|], expected as [[]|]; try done. rewrite !andb_true_iff, Hf. naive_solver.
  - intros (a & e & -> & -> & -> & -> & Hr). by apply Hf.
Qed.

Lemma compare_iff actual op expected : compare actual op expected = true <-> compares actual op expected.
Proof.
  destruct op; cbn [compare compares].
  - by rewrite bool_decide_eq_true, not_eq_None_Some.
  - destruct actual as [a|], expected as [e|]; [rewrite same_json_iff|..]; naive_solver.
  - destruct actual as [a|], expected as [e|]; [rewrite negb_true_iff, <- not_true_iff_false, same_json_iff|..]; naive_solver.
  - split.
    + destruct actual as [a|], expected as [[]|]; try done. rewrite existsb_elem. setoid_rewrite same_json_iff. naive_solver.
    + intros (a & es & e & -> & -> & He & Hs). apply existsb_elem. exists e. by rewrite same_json_iff.
  - by apply ordered_iff.
  - apply ordered_iff. intros a e. apply orb_true_iff.
  - by apply (ordered_iff (fun a e => num_ltb e a)).
  - apply (ordered_iff (fun a e => num_leb e a)). intros a e. apply orb_true_iff.
Qed.

Lemma find_first {A} (f : A -> bool) l x :
  List.find f l = Some x <-> exists before after, l = before ++ x :: after /\ Forall (fun y => f y = false) before /\ f x = true.
Proof.
  induction l as [|y l IH]; cbn [List.find].
  - split; [done|]. intros ([|] & after & ? & _); simplify_eq/=.
  - destruct (f y) eqn:Ey.
    + split; [intros [= ->]; exists [], l; by split_and!|]. intros ([|z before] & after & E & Hb & Hx); simplify_eq/=; [done|].
      apply Forall_cons in Hb as [? _]. congruence.
    + rewrite IH. split.
      * intros (before & after & -> & Hb & Hx). exists (y :: before), after. split_and!; [done|by constructor|done].
      * intros ([|z before] & after & E & Hb & Hx); simplify_eq/=; [congruence|]. apply Forall_cons in Hb as [_ Hb]. eauto 10.
Qed.

Lemma fact_iff p input nowMs :
  (evaluatePredicate (PFact p) input nowMs).1 = true <-> exists fact ms, fact_holds p (in_facts input) nowMs fact ms.
Proof.
  assert (forall fact, findFact (pf_fact_id p) (in_facts input) = Some fact <->
    (exists before after, in_facts input = before ++ fact :: after /\ Forall (fun f => fa_fact_id f <> pf_fact_id p) before) /\
    fa_fact_id fact = pf_fact_id p) as Hfind.
  { intros fact. unfold findFact. rewrite find_first. setoid_rewrite str_eqb_eq. setoid_rewrite str_eqb_neq. naive_solver. }
  cbn [evaluatePredicate]. split.
  - destruct (findFact _ _) as [fact|]; [|done]. destruct (proj1 (Hfind fact) eq_refl) as [Hfirst Hname].
    destruct (match pf_authorities p with Some _ => _ | None => _ end) eqn:Ea; [done|].
    destruct (canonical_ms _) as [ms|] eqn:Em; [|done]. destruct (_ && _) eqn:Eo; [|done]. cbn [fst].
    intros Hv%compare_iff. exists fact, ms. apply andb_true_iff in Eo as [Hp Hage]. to_prop. constructor; try done.
    + intros l El. rewrite El in Ea. by apply negb_false_iff, bool_decide_eq_true_1 in Ea.
    + intros age E. rewrite E in Hage. by apply negb_true_iff, Z.ltb_ge in Hage.
  - intros (fact & ms & [Hfirst Hname Hau Hob Hp Hage Hv]). rewrite (proj2 (Hfind fact)) by done.
    assert (match pf_authorities p with Some l => negb (includes (fa_authority fact) l) | None => false end = false) as ->.
    { destruct (pf_authorities p) as [l|]; [|done]. apply negb_false_iff, bool_decide_eq_true_2. by apply Hau. }
    rewrite Hob. assert ((ms <=? nowMs) && match pf_max_age_seconds p with
      | Some age => negb (age * 1000 <? nowMs - ms) | None => true end = true) as ->.
    { apply andb_true_iff. split; [by apply Z.leb_le|]. destruct (pf_max_age_seconds p) as [age|]; [|done].
      apply negb_true_iff, Z.ltb_ge. by apply Hage. }
    by apply compare_iff.
Qed.

Lemma predicate_iff p input nowMs : (evaluatePredicate p input nowMs).1 = true <-> predicate_holds input nowMs p.
Proof.
  destruct p as [p|p|action]; [apply fact_iff|apply compare_iff|]. cbn [evaluatePredicate predicate_holds].
  destruct (List.find _ _) as [r|] eqn:Ef.
  - apply find_elem in Ef as [Hr He]. to_prop. naive_solver.
  - rewrite find_none_elem in Ef. split; [done|]. intros (r & Hr & <- & Hs). specialize (Ef r Hr). cbn beta in Ef.
    by rewrite str_eqb_refl, Hs in Ef.
Qed.

Lemma confirmed_iff input c proposal challenge nowMs e :
  domain_sha256 "hacc/action-policy-confirmation-challenge/v1" (challenge_json input c proposal) = Some challenge ->
  in_confirmation input = Some e ->
  confirmation_valid input c e proposal challenge nowMs = true <-> exists ms, confirmed input c proposal nowMs e ms.
Proof.
  intros Hch He. unfold confirmation_valid, fresh_confirmation. split.
  - intros Hv. rewrite !andb_true_iff in Hv. destruct Hv as ((((((Hf & H1) & H2) & H3) & H4) & H5) & H6).
    destruct (canonical_ms _) as [ms|] eqn:Em; [|done]. to_prop. exists ms. by constructor; congruence || done.
  - intros (ms & [_ Em Hp Ha H1 H2 H3 H4 H5 H6]). rewrite Em, H1, H3, H4, H6, !str_eqb_refl, !Z.eqb_refl.
    rewrite H2 in Hch. injection Hch as ->. rewrite str_eqb_refl, !andb_true_r, !andb_true_iff.
    split_and!; try (by apply Z.leb_le). by apply bool_decide_eq_true_2.
Qed.

Lemma decide_action_iff input base item nowMs d :
  decide_action input base item nowMs = Ok d ->
  pd_decision d = Allow <-> permits input item nowMs (ba_proposal_digest base).
Proof.
  unfold decide_action. destruct (existsb fst _) eqn:Ed.
  { intros [-> _]%finishDecision_Ok. split; [done|]. intros [Hn _ _ _].
    apply existsb_elem in Ed as (o & (p & -> & Hp)%list_elem_of_fmap & Ht%predicate_iff). by destruct (Hn p). }
  destruct (existsb (fun r => negb r.1) _) eqn:Er.
  { intros [-> _]%finishDecision_Ok. split; [done|]. intros [_ Hr _ _].
    apply existsb_elem in Er as (o & (p & -> & Hp)%list_elem_of_fmap & Ht%negb_true_iff).
    apply Hr, predicate_iff in Hp. congruence. }
  destruct (match it_maximum_calls item with Some _ => _ | None => _ end) eqn:Em.
  { intros [-> _]%finishDecision_Ok. split; [done|]. intros [_ _ Hm _]. destruct (it_maximum_calls item) as [m|]; [|done].
    specialize (Hm m eq_refl). to_prop. lia. }
  rewrite existsb_elem_false in Ed, Er. setoid_rewrite list_elem_of_fmap in Ed. setoid_rewrite list_elem_of_fmap in Er.
  assert (forall p, p ∈ it_deny_if_any item -> ~ predicate_holds input nowMs p) as Hd.
  { intros p Hp Hh%predicate_iff. rewrite Ed in Hh; [done|]. by exists p. }
  assert (forall p, p ∈ it_require_all item -> predicate_holds input nowMs p) as Hr.
  { intros p Hp. apply predicate_iff, negb_false_iff, Er. by exists p. }
  assert (forall m, it_maximum_calls item = Some m -> in_prior_call_count input < m) as Hm.
  { intros m E. rewrite E in Em. by to_prop. }
  destruct (it_confirmation item) as [c|] eqn:Ec; [|intros [-> _]%finishDecision_Ok; split; [intros _; constructor; congruence||done|done]].
  intros (challenge & Hch%require_Ok & Hf)%bind_Ok.
  assert (permits input item nowMs (ba_proposal_digest base) <->
          exists e ms, confirmed input c (ba_proposal_digest base) nowMs e ms) as ->.
  { split; [intros [_ _ _ Hc]; by apply Hc|]. intros Hc. constructor; try done. intros c' E. by simplify_eq. }
  destruct (in_confirmation input) as [e|] eqn:Ee.
  - pose proof (confirmed_iff input c _ _ nowMs e Hch Ee) as Hi.
    destruct (confirmation_valid _ _ _ _ _ _); apply finishDecision_Ok in Hf as [-> _].
    + split; [|done]. intros _. exists e. by apply Hi.
    + split; [done|]. intros (e' & ms & Hc). pose proof (co_present _ _ _ _ _ _ Hc) as E. rewrite Ee in E. injection E as <-.
      discriminate (proj2 Hi). by exists ms.
  - apply finishDecision_Ok in Hf as [-> _]. split; [done|]. intros (e & ms & []). congruence.
Qed.

(** The item of an action in a valid policy, where actions have distinct names. *)
Lemma findItem_iff p action item :
  ActionPolicySetSchema_ok p = true ->
  findItem action p = Some item <-> item ∈ ps_actions p /\ it_action item = action.
Proof.
  unfold ActionPolicySetSchema_ok, findItem. intros Hs. to_prop. apply bool_decide_eq_true_1 in H0. revert H0.
  generalize (ps_actions p). intros l Hnd. split.
  - intros [Hin E]%find_elem. by to_prop.
  - intros [Hin E]. induction l as [|i l IH]; [by apply elem_of_nil in Hin|]. cbn [List.find].
    apply NoDup_cons in Hnd as [Hni Hnd]. apply elem_of_cons in Hin as [->|Hin].
    + by rewrite E, str_eqb_refl.
    + destruct (it_action i =?s action) eqn:Ei; [|by apply IH]. to_prop. destruct Hni. rewrite Ei, <- E.
      by apply list_elem_of_fmap_2.
Qed.

(** C20. An action is allowed exactly when the policy permits it: the policy is valid and has an item for the action,
    none of the item's deny predicates holds and all its required ones do (a fact predicate looks at the first
    fact of its name, which must be of an accepted authority, observed by now and within its maximal age, and have the
    value asked for), the call count is below the limit, and where the item asks for a confirmation one is present
    that was given by now and within its maximal age, for this very proposal and challenge, at the present revision
    and epoch, by an accepted authority and with a SHA-256 of its evidence. Whatever the verdict, the digests
    that a decision carries are those of this policy, these arguments and this state. *)
Theorem pre_dispatch_allow_sound input d :
  evaluatePreDispatch input = Ok d ->
  ActionPolicySetSchema_ok (in_policy input) = true /\
  domain_sha256 "hacc/action-policy-set/v1" (policy_json (in_policy input)) = Some (pd_policy_digest d) /\
  domain_sha256 "hacc/action-policy-arguments/v1" (JObj (in_arguments input)) = Some (pd_arguments_sha256 d) /\
  domain_sha256 "hacc/action-policy-proposal/v1"
    (proposal_json input (pd_policy_digest d) (pd_arguments_sha256 d)) = Some (pd_proposal_digest d) /\
  pd_action d = in_action input /\ pd_state_head_sha256 d = in_state_head_sha256 input /\
  pd_state_revision d = in_state_revision input /\ pd_capability_epoch d = in_capability_epoch input /\
  exists nowMs, canonical_ms (in_now input) = Some nowMs /\
    (pd_decision d = Allow <->
     exists item, item ∈ ps_actions (in_policy input) /\ it_action item = in_action input /\
       permits input item nowMs (pd_proposal_digest d)).
Proof.
  intros (nowMs & base & [Hnow Hs Hp Ha Hpr _] & Hd)%evaluatePreDispatch_Ok.
  pose proof (fun item => findItem_iff _ (in_action input) item Hs) as Hi.
  assert (exists dec reason challenge evidence, finishDecision input base dec reason challenge evidence = Ok d) as
    (? & ? & ? & ? & (_ & _ & E1 & _ & E2 & E3 & E4 & E5 & E6 & E7 & _)%finishDecision_Ok)
    by (destruct (findItem _ _); eauto using decide_action_finish).
  rewrite E2, E6, E7. split_and!; try done. exists nowMs. split; [done|].
  destruct (findItem (in_action input) (in_policy input)) as [item|] eqn:Ei.
  - rewrite (decide_action_iff _ _ _ _ _ Hd). destruct (proj1 (Hi item) eq_refl) as [Hin Hn]. split; [by exists item|].
    intros (item' & Hin' & Hn' & Hpm). assert (Some item = Some item') as [= ->] by by apply Hi. done.
  - apply finishDecision_Ok in Hd as [-> _]. split; [done|]. intros (item & Hin & Hn & _).
    discriminate (proj2 (Hi item)). by split.
Qed.

(** Deny by default: for an action the policy does not name the verdict is always a
    denial, and no evidence or confirmation changes it. *)
Theorem ungoverned_denied input d :
  evaluatePreDispatch input = Ok d -> findItem (in_action input) (in_policy input) = None ->
  pd_decision d = Deny /\ pd_reason d = js "action_not_governed" /\ pd_effect d = None.
Proof.
  intros (nowMs & base & He & Hd)%evaluatePreDispatch_Ok Hnone. rewrite Hnone in Hd.
  apply finishDecision_Ok in Hd as (H1 & H2 & _ & H4 & _). split_and!; [done..|].
  rewrite H4, (ev_effect _ _ _ He), Hnone. done.
Qed.

(** ** Digests identify what they cover *)

(** The texts that are hashed for two values in one domain differ and have one digest. *)
Definition domain_collides (domain : string) (v w : jsval) : Prop :=
  exists t t', policyJson v = Some t /\ policyJson w = Some t' /\ t <> t' /\
    sha256 (js domain ++ 10%N :: t) = sha256 (js domain ++ 10%N :: t').

Lemma domain_sha256_inj domain v w h :
  val_ok (nullify v) -> val_ok (nullify w) ->
  domain_sha256 domain v = Some h -> domain_sha256 domain w = Some h ->
  norm (nullify v) = norm (nullify w) \/ domain_collides domain v w.
Proof.
  unfold domain_sha256, policyJson. intros Hv Hw (t & Et & ->)%fmap_Some (t' & Et' & Eh)%fmap_Some.
  destruct (decide (t = t')) as [<-|Hne].
  - left. by eapply canonicalJson_inj.
  - right. by exists t, t'.
Qed.

Lemma is_lower_bound c : is_lower c = true -> (c < 65536)%N.
Proof. unfold is_lower. intros [_ H%N.leb_le]%andb_true_iff. lia. Qed.

Lemma SAFE_ID_units s : SAFE_ID s = true -> units_ok s.
Proof.
  destruct s as [|c r]; [done|]. simpl. intros. to_prop. constructor; [by apply is_lower_bound|].
  eapply units_ok_forallb; [|done]. intros x Hx. apply orb_true_iff in Hx as [Hx|Hx].
  - apply orb_true_iff in Hx as [?|?]; [by apply is_lower_bound | by apply is_digit_bound].
  - unfold one_of in Hx. to_prop. assert (forallb (fun c => c <? 65536)%N (js "_.:-") = true) as Hb by reflexivity.
    rewrite forallb_elem in Hb. by apply N.ltb_lt, Hb.
Qed.

Lemma nullify_jnat z : nullify (jnat z) = jnat z.
Proof. unfold jnat. cbn [nullify]. by rewrite num_of_Z_finite. Qed.

(** The fields of a proposal. *)
Definition proposal_fields (input : PreDispatchInput) (p a : jstr) : obj jsval :=
  [(js "policy_digest", JStr p); (js "action", JStr (in_action input)); (js "arguments_sha256", JStr a);
   (js "state_head_sha256", JStr (in_state_head_sha256 input));
   (js "state_revision", jnat (in_state_revision input));
   (js "capability_epoch", jnat (in_capability_epoch input))].

Lemma proposal_nullify input p a : nullify (proposal_json input p a) = JObj (proposal_fields input p a).
Proof.
  unfold proposal_json, proposal_fields, field. cbn [app nullify fmap list_fmap fst snd].
  by rewrite !nullify_jnat.
Qed.

Lemma proposal_keys input p a : NoDup (keys (proposal_fields input p a)).
Proof. apply (bool_decide_unpack _). vm_compute. exact I. Qed.

Lemma proposal_ok input p a :
  units_ok p -> units_ok a -> units_ok (in_action input) -> units_ok (in_state_head_sha256 input) ->
  val_ok (JObj (proposal_fields input p a)).
Proof.
  intros. apply val_ok_obj. split; [apply proposal_keys|]. unfold proposal_fields.
  repeat (apply Forall_cons; split; [split; [apply js_units|]|]); [..|apply Forall_nil; exact I];
    try exact (num_of_Z_ok _); done.
Qed.

Lemma domain_sha256_shape `{!Sha256Ok HS} domain v h : domain_sha256 domain v = Some h -> is_sha256 h = true.
Proof. intros (t & _ & ->)%fmap_Some. apply sha256_hex. Qed.

Lemma findItem_name input item :
  ActionPolicySetSchema_ok (in_policy input) = true ->
  findItem (in_action input) (in_policy input) = Some item -> units_ok (in_action input).
Proof.
  intros Hs [Hin Hn]%find_elem. to_prop. rewrite <- Hn. apply SAFE_ID_units.
  unfold ActionPolicySetSchema_ok in Hs. to_prop.
  match goal with H : forallb ActionPolicySchema_ok _ = true |- _ =>
    rewrite forallb_elem in H; specialize (H _ Hin); unfold ActionPolicySchema_ok in H end. by to_prop.
Qed.

(** Equal proposal digests mean equal proposals. *)
Lemma same_proposal `{!Sha256Ok HS} input input' p a p' a' h :
  is_sha256 p = true -> is_sha256 a = true -> is_sha256 p' = true -> is_sha256 a' = true ->
  units_ok (in_action input) -> units_ok (in_action input') ->
  is_sha256 (in_state_head_sha256 input) = true -> is_sha256 (in_state_head_sha256 input') = true ->
  domain_sha256 "hacc/action-policy-proposal/v1" (proposal_json input p a) = Some h ->
  domain_sha256 "hacc/action-policy-proposal/v1" (proposal_json input' p' a') = Some h ->
  (p = p' /\ a = a' /\ in_action input = in_action input' /\
   in_state_head_sha256 input = in_state_head_sha256 input' /\
   in_state_revision input = in_state_revision input' /\
   in_capability_epoch input = in_capability_epoch input') \/
  domain_collides "hacc/action-policy-proposal/v1" (proposal_json input p a) (proposal_json input' p' a').
Proof.
  intros Hp Ha Hp' Ha' Hact Hact' Hh Hh' Ed Ed'.
  assert (val_ok (nullify (proposal_json input p a)) /\ val_ok (nullify (proposal_json input' p' a')))
    as [Hv Hv'] by (rewrite !proposal_nullify; split; apply proposal_ok; auto using sha256_units).
  destruct (domain_sha256_inj _ _ _ _ Hv Hv' Ed Ed') as [E|?]; [|by right].
  left. rewrite !proposal_nullify in E.
  pose proof (fun k => norm_own _ _ k (proposal_keys input p a) (proposal_keys input' p' a') E) as Hk.
  pose proof (Hk (js "policy_digest")) as H1. pose proof (Hk (js "arguments_sha256")) as H2.
  pose proof (Hk (js "action")) as H3. pose proof (Hk (js "state_head_sha256")) as H4.
  pose proof (Hk (js "state_revision")) as H5. pose proof (Hk (js "capability_epoch")) as H6.
  clear Hk E. change (Some (JStr p) = Some (JStr p')) in H1. change (Some (JStr a) = Some (JStr a')) in H2.
  change (Some (JStr (in_action input)) = Some (JStr (in_action input'))) in H3.
  change (Some (JStr (in_state_head_sha256 input)) = Some (JStr (in_state_head_sha256 input'))) in H4.
  change (Some (norm (jnat (in_state_revision input))) = Some (norm (jnat (in_state_revision input')))) in H5.
  change (Some (norm (jnat (in_capability_epoch input))) =
          Some (norm (jnat (in_capability_epoch input')))) in H6.
  unfold jnat in H5, H6. cbn [norm] in H5, H6. rewrite !drop_neg_zero_of_Z in H5, H6.
  injection H1 as ->. injection H2 as ->. injection H3 as H3. injection H4 as H4.
  injection H5 as H5%num_of_Z_inj. injection H6 as H6%num_of_Z_inj. by split_and!.
Qed.

Lemma evaluatePreDispatch_head input d :
  evaluatePreDispatch input = Ok d -> is_sha256 (in_state_head_sha256 input) = true.
Proof.
  unfold evaluatePreDispatch. destruct (negb _) eqn:E; [done|]. intros _. by to_prop.
Qed.

(** An allowed action whose policy asks for a confirmation used one that names the
    proposal. *)
Lemma allow_uses_confirmation input d item c :
  evaluatePreDispatch input = Ok d -> pd_decision d = Allow ->
  findItem (in_action input) (in_policy input) = Some item -> it_confirmation item = Some c ->
  exists nowMs base e, evaluated input nowMs base /\ in_confirmation input = Some e /\
    ce_proposal_digest e = ba_proposal_digest base /\ pd_policy_digest d = ba_policy_digest base /\
    pd_arguments_sha256 d = ba_arguments_sha256 base.
Proof.
  intros (nowMs & base & He & Hd)%evaluatePreDispatch_Ok Hallow Hi Hc. rewrite Hi in Hd.
  pose proof Hd as (? & ? & ? & ? & (_ & _ & _ & _ & Hpd & _ & _ & _ & Harg & _)%finishDecision_Ok)%decide_action_finish.
  apply (decide_action_iff _ _ _ _ _ Hd) in Hallow as [_ _ _ Hcf]. destruct (Hcf c Hc) as (e & ms & []).
  exists nowMs, base, e. by split_and!.
Qed.

(** A confirmation authorises one proposal: if the same confirmation evidence lets
    two dispatches through, both are the same action with the same arguments under the
    same policy, state head, revision and epoch, unless the hashed texts of the two proposals, or those
    of their arguments, are a collision of SHA-256. *)
Theorem confirmation_binds_proposal `{!Sha256Ok HS} input input' d d' item item' c c' e :
  evaluatePreDispatch input = Ok d -> pd_decision d = Allow ->
  evaluatePreDispatch input' = Ok d' -> pd_decision d' = Allow ->
  findItem (in_action input) (in_policy input) = Some item -> it_confirmation item = Some c ->
  findItem (in_action input') (in_policy input') = Some item' -> it_confirmation item' = Some c' ->
  in_confirmation input = Some e -> in_confirmation input' = Some e ->
  val_ok (nullify (JObj (in_arguments input))) -> val_ok (nullify (JObj (in_arguments input'))) ->
  (in_action input = in_action input' /\
   norm (nullify (JObj (in_arguments input))) = norm (nullify (JObj (in_arguments input'))) /\
   in_state_head_sha256 input = in_state_head_sha256 input' /\
   in_state_revision input = in_state_revision input' /\
   in_capability_epoch input = in_capability_epoch input' /\
   pd_policy_digest d = pd_policy_digest d') \/
  domain_collides "hacc/action-policy-proposal/v1"
    (proposal_json input (pd_policy_digest d) (pd_arguments_sha256 d))
    (proposal_json input' (pd_policy_digest d') (pd_arguments_sha256 d')) \/
  domain_collides "hacc/action-policy-arguments/v1" (JObj (in_arguments input)) (JObj (in_arguments input')).
Proof.
  intros Hd Ha Hd' Ha' Hi Hc Hi' Hc' He He' Hv Hv'.
  destruct (allow_uses_confirmation _ _ _ _ Hd Ha Hi Hc) as (n & b & e1 & [] & E1 & Hp & Hpd & Harg).
  destruct (allow_uses_confirmation _ _ _ _ Hd' Ha' Hi' Hc') as (n' & b' & e2 & [] & E2 & Hp' & Hpd' & Harg').
  assert (e1 = e /\ e2 = e) as [-> ->] by (split; congruence).
  rewrite <- Hp in ev_proposal0. rewrite <- Hp' in ev_proposal1.
  destruct (same_proposal input input' _ _ _ _ _
    (domain_sha256_shape _ _ _ ev_policy0) (domain_sha256_shape _ _ _ ev_arguments0)
    (domain_sha256_shape _ _ _ ev_policy1) (domain_sha256_shape _ _ _ ev_arguments1)
    (findItem_name _ _ ev_schema0 Hi) (findItem_name _ _ ev_schema1 Hi')
    (evaluatePreDispatch_head _ _ Hd) (evaluatePreDispatch_head _ _ Hd') ev_proposal0 ev_proposal1)
    as [(E3 & E4 & E5 & E6 & E7 & E8)|?]; [|right; left; by rewrite Hpd, Hpd', Harg, Harg'].
  rewrite <- E4 in ev_arguments1.
  destruct (domain_sha256_inj _ _ _ _ Hv Hv' ev_arguments0 ev_arguments1) as [?|?]; [left|by right; right].
  split_and!; try done. congruence.
Qed.

(** ** Results *)

Lemma finishPost_Ok input raw verdict reason provider d :
  finishPost input raw verdict reason provider = Ok d ->
  po_decision d = verdict /\ po_reason d = js reason /\ po_provider_result d = provider.
Proof. unfold finishPost. intros (digest & _ & [= <-])%bind_Ok. done. Qed.

Lemma own_spread_nil {V} (l : obj V) : forall acc k v,
  own k (spread acc l) = Some v -> own k acc = Some v \/ (k, v) ∈ l.
Proof.
  unfold spread. induction l as [|[k0 v0] l IH]; intros acc k v; simpl; [by left|].
  intros [H|H]%IH; [|right; by right]. rewrite own_put in H. destruct (k =?s k0) eqn:E; [|by left].
  to_prop. subst. injection H as ->. right. by left.
Qed.

(** What the provider is shown. *)
Lemma visible_spec result fields k v :
  own k (visible result fields) = Some v -> k ∈ fields /\ own k result = Some v.
Proof.
  unfold visible. intros [H|H]%own_spread_nil; [done|]. apply list_elem_of_omap in H as (f & Hf & E).
  apply fmap_Some in E as (w & Hw & [= -> ->]). done.
Qed.

(** Results are released only under unchanged authority: a result is accepted only if
    the dispatch was allowed, the policy has the same digest, the state head, revision
    and epoch are those of the decision and every postcondition holds; and whatever the
    verdict, the provider sees nothing but declared fields with the result's values. *)
Theorem post_dispatch_sound input d :
  evaluatePostDispatch input = Ok d ->
  let pre := pi_pre_dispatch input in
  (po_decision d = Accept ->
   exists item, findItem (pd_action pre) (pi_policy input) = Some item /\ pd_decision pre = Allow /\
     domain_sha256 "hacc/action-policy-set/v1" (policy_json (pi_policy input)) = Some (pd_policy_digest pre) /\
     pi_state_head_sha256 input = pd_state_head_sha256 pre /\
     pi_state_revision input = pd_state_revision pre /\
     pi_capability_epoch input = pd_capability_epoch pre /\
     postconditions_failed item (pi_result input) = false) /\
  (forall shown k v, po_provider_result d = Some shown -> own k shown = Some v ->
     po_decision d = Accept /\ own k (pi_result input) = Some v /\
     exists item, findItem (pd_action pre) (pi_policy input) = Some item /\ k ∈ it_visible_fields item).
Proof.
  intros H pre. unfold evaluatePostDispatch in H. fold pre in H.
  apply bind_Ok in H as (policy & [-> Hs]%parsePolicy_Ok & H).
  apply bind_Ok in H as (dig & Hdig%require_Ok & H). apply bind_Ok in H as (raw & _ & H).
  destruct (findItem (pd_action pre) (pi_policy input)) as [item|] eqn:Ei.
  2: { apply finishPost_Ok in H as (-> & _ & ->). done. }
  destruct (pd_decision pre) eqn:Ed; try (apply finishPost_Ok in H as (-> & _ & ->); done).
  destruct (negb (_ =?s dig)) eqn:E1; [apply finishPost_Ok in H as (-> & _ & ->); done|].
  destruct (_ || _) eqn:E2; [apply finishPost_Ok in H as (-> & _ & ->); done|].
  destruct (postconditions_failed item _) eqn:E3;
    [destruct (bool_decide _); apply finishPost_Ok in H as (-> & _ & ->); done|].
  apply finishPost_Ok in H as (-> & _ & ->). to_prop. subst. split.
  - intros _. exists item. by split_and!.
  - intros shown k v [= <-] [Hk Hv]%visible_spec. split_and!; [done..|]. by exists item.
Qed.

(** An effect whose result breaks its postconditions is never silently dropped: if the
    dispatch was allowed and nothing changed since, a failed postcondition leads to
    reconciliation for a write or opaque effect and to rejection for a read. *)
Theorem failed_postcondition_verdict input d item :
  evaluatePostDispatch input = Ok d ->
  let pre := pi_pre_dispatch input in
  findItem (pd_action pre) (pi_policy input) = Some item -> pd_decision pre = Allow ->
  domain_sha256 "hacc/action-policy-set/v1" (policy_json (pi_policy input)) = Some (pd_policy_digest pre) ->
  pi_state_head_sha256 input = pd_state_head_sha256 pre ->
  pi_state_revision input = pd_state_revision pre -> pi_capability_epoch input = pd_capability_epoch pre ->
  postconditions_failed item (pi_result input) = true ->
  po_provider_result d = None /\
  po_decision d = (if bool_decide (it_effect item = EffectRead) then Reject else RequireReconciliation).
Proof.
  intros H pre Hi Hal Hdig Hh Hr He Hf. unfold evaluatePostDispatch in H. fold pre in H.
  apply bind_Ok in H as (policy & [-> _]%parsePolicy_Ok & H).
  apply bind_Ok in H as (dig & Hdig'%require_Ok & H). apply bind_Ok in H as (raw & _ & H).
  rewrite Hdig in Hdig'. injection Hdig' as <-.
  rewrite Hi, Hal, Hh, Hr, He, Hf, !str_eqb_refl, !Z.eqb_refl in H. simpl in H.
  destruct (bool_decide _); by apply finishPost_Ok in H as (-> & _ & ->).
Qed.
End Props.

(** ** Witnesses: a refund policy *)

#[local] Existing Instance demo_sha256.

(** The caller's identity, checked by a tool in the last ten minutes. *)
Definition identity_predicate : FactPredicate :=
  {| pf_fact_id := js "caller.verified"; pf_operator := CEquals; pf_value := Some (JBool true);
     pf_authorities := Some [ATool]; pf_max_age_seconds := Some 600 |}.

Definition refund_confirmation_policy : Confirmation :=
  {| cf_authorities := [ACaller]; cf_max_age_seconds := 300; cf_readback_fields := [js "amount"] |}.

Definition refund_item : ActionPolicyItem :=
  {| it_action := js "refund.issue"; it_effect := EffectWrite;
     it_require_all := [PReceipt (js "order.lookup"); PFact identity_predicate;
       PArgument {| pa_path := js "amount"; pa_operator := CLessEq; pa_value := Some (jnat 100) |}];
     it_deny_if_any := [PFact {| pf_fact_id := js "fraud.flag"; pf_operator := CEquals;
       pf_value := Some (JBool true); pf_authorities := None; pf_max_age_seconds := None |}];
     it_maximum_calls := Some 1;
     it_confirmation := Some refund_confirmation_policy;
     it_postconditions := [{| pa_path := js "status"; pa_operator := CEquals;
       pa_value := Some (jtext "ok") |}];
     it_visible_fields := [js "status"] |}.

Definition refund_policy : ActionPolicySet :=
  {| ps_id := js "refunds"; ps_version := js "1"; ps_actions := [refund_item] |}.

Definition refund_input (action : jstr) (e : option ConfirmationEvidence) : PreDispatchInput :=
  {| in_policy := refund_policy; in_action := action;
     in_arguments := [(js "amount", jnat 40)]; in_state_head_sha256 := replicate 64 97%N;
     in_state_revision := 3; in_capability_epoch := 2;
     in_facts := [{| fa_fact_id := js "caller.verified"; fa_revision := 1; fa_value := JBool true; fa_authority := ATool;
                     fa_observed_at := js "2026-01-05T09:55:00.000Z"; fa_evidence_sha256 := replicate 64 100%N |}];
     in_receipts := [{| pr_action := js "order.lookup"; pr_status := Succeeded;
                        pr_receipt_sha256 := replicate 64 98%N |}];
     in_prior_call_count := 0; in_confirmation := e; in_now := js "2026-01-05T10:00:00.000Z" |}.

(** The caller's answer to the challenge of the first evaluation. *)
Definition refund_confirmation : option ConfirmationEvidence :=
  match evaluatePreDispatch (refund_input (js "refund.issue") None) with
  | Ok d => challenge ← pd_challenge_digest d;
      Some {| ce_proposal_digest := pd_proposal_digest d; ce_challenge_digest := challenge;
              ce_authority := ACaller; ce_confirmed_at := js "2026-01-05T09:58:00.000Z";
              ce_evidence_sha256 := replicate 64 99%N; ce_state_revision := 3;
              ce_capability_epoch := 2 |}
  | Err _ => None
  end.

Definition refund_confirmed : PreDispatchInput := refund_input (js "refund.issue") refund_confirmation.

(** The result of the confirmed refund, judged in an unchanged state. *)
Definition refund_post (status : string) (pre : PreDispatchDecision) : PostDispatchInput :=
  {| pi_policy := refund_policy; pi_pre_dispatch := pre; pi_state_head_sha256 := replicate 64 97%N;
     pi_state_revision := 3; pi_capability_epoch := 2;
     pi_result := [(js "status", jtext status); (js "secret", jtext "x")] |}.

Definition allowed_d (d : PreDispatchDecision) : bool :=
  match pd_decision d with Allow => true | _ => false end.

Lemma refund_allowed :
  exists d, evaluatePreDispatch refund_confirmed = Ok d /\ pd_decision d = Allow /\
    pd_action d = js "refund.issue" /\
    domain_sha256 "hacc/action-policy-set/v1" (policy_json refund_policy) = Some (pd_policy_digest d) /\
    pd_state_head_sha256 d = replicate 64 97%N /\ pd_state_revision d = 3 /\ pd_capability_epoch d = 2 /\
    is_ok (evaluatePostDispatch (refund_post "ok" d)) = true /\
    is_ok (evaluatePostDispatch (refund_post "lost" d)) = true.
Proof.
  assert (match evaluatePreDispatch refund_confirmed with
          | Ok d => allowed_d d && (pd_action d =?s js "refund.issue") &&
              bool_decide (domain_sha256 "hacc/action-policy-set/v1" (policy_json refund_policy) =
                Some (pd_policy_digest d)) &&
              bool_decide (pd_state_head_sha256 d = replicate 64 97%N) &&
              (pd_state_revision d =? 3) && (pd_capability_epoch d =? 2) &&
              is_ok (evaluatePostDispatch (refund_post "ok" d)) &&
              is_ok (evaluatePostDispatch (refund_post "lost" d))
          | Err _ => false end = true) as H by (vm_compute; reflexivity).
  destruct (evaluatePreDispatch refund_confirmed) as [d|]; [|discriminate H].
  exists d. rewrite !andb_true_iff in H. destruct H as (((((((H1 & H2) & H3) & H4) & H5) & H6) & H7) & H8).
  split; [reflexivity|]. split; [by unfold allowed_d in H1; destruct (pd_decision d)|].
  split; [exact (bool_decide_eq_true_1 _ H2)|]. split; [exact (bool_decide_eq_true_1 _ H3)|].
  split; [exact (bool_decide_eq_true_1 _ H4)|]. split; [exact (proj1 (Z.eqb_eq _ _) H5)|].
  split; [exact (proj1 (Z.eqb_eq _ _) H6)|]. split; [exact H7 | exact H8].
Qed.

(** The refund was allowed on a confirmation that is at most 300 seconds old and a fact that is at most 600. *)
Lemma pre_dispatch_allow_sound_witness :
  exists d nowMs e ms fact ms', evaluatePreDispatch refund_confirmed = Ok d /\
    canonical_ms (in_now refund_confirmed) = Some nowMs /\
    confirmed refund_confirmed refund_confirmation_policy (pd_proposal_digest d) nowMs e ms /\ nowMs - ms <= 300 * 1000 /\
    fact_holds identity_predicate (in_facts refund_confirmed) nowMs fact ms' /\ nowMs - ms' <= 600 * 1000.
Proof.
  destruct refund_allowed as (d & E & Ha & _).
  destruct (pre_dispatch_allow_sound _ _ E) as (_ & _ & _ & _ & _ & _ & _ & _ & nowMs & Hn & Hiff).
  destruct (proj1 Hiff Ha) as (item & Hin & _ & [_ Hr _ Hc]). apply list_elem_of_singleton in Hin as ->.
  destruct (Hc refund_confirmation_policy eq_refl) as (e & ms & Hcf).
  destruct (Hr (PFact identity_predicate)) as (fact & ms' & Hf); [right; left|].
  exists d, nowMs, e, ms, fact, ms'. split; [exact E|]. split; [exact Hn|]. split; [exact Hcf|].
  split; [exact (co_age _ _ _ _ _ _ Hcf)|]. split; [exact Hf|]. exact (fh_age _ _ _ _ _ Hf 600 eq_refl).
Defined.

Lemma refund_ungoverned :
  exists d, evaluatePreDispatch (refund_input (js "account.close") None) = Ok d.
Proof.
  assert (is_ok (evaluatePreDispatch (refund_input (js "account.close") None)) = true) as H
    by (vm_compute; reflexivity).
  destruct (evaluatePreDispatch _) as [d|]; [by exists d | discriminate H].
Qed.

Lemma refund_confirmation_some : exists e, refund_confirmation = Some e.
Proof.
  assert (match refund_confirmation with Some _ => true | None => false end = true) as H
    by (vm_compute; reflexivity).
  destruct refund_confirmation as [e|]; [by exists e | discriminate H].
Qed.

Lemma refund_arguments_ok : val_ok (nullify (JObj (in_arguments refund_confirmed))).
Proof.
  apply val_ok_obj. split; [apply (bool_decide_unpack _); vm_compute; exact I|]. repeat constructor.
Qed.

Lemma confirmation_binds_proposal_witness :
  exists d, evaluatePreDispatch refund_confirmed = Ok d /\
   ((in_action refund_confirmed = in_action refund_confirmed /\
     pd_policy_digest d = pd_policy_digest d) \/
    domain_collides "hacc/action-policy-proposal/v1"
      (proposal_json refund_confirmed (pd_policy_digest d) (pd_arguments_sha256 d))
      (proposal_json refund_confirmed (pd_policy_digest d) (pd_arguments_sha256 d)) \/
    domain_collides "hacc/action-policy-arguments/v1" (JObj (in_arguments refund_confirmed)) (JObj (in_arguments refund_confirmed))).
Proof.
  destruct refund_allowed as (d & E & Ha & _). destruct refund_confirmation_some as (e & Ec).
  exists d. split; [exact E|].
  destruct (confirmation_binds_proposal refund_confirmed refund_confirmed d d refund_item refund_item
    _ _ e E Ha E Ha eq_refl eq_refl eq_refl eq_refl Ec Ec refund_arguments_ok refund_arguments_ok)
    as [(H1 & _ & _ & _ & _ & H6)|H];
    [left; split; [exact H1 | exact H6] | right; exact H].
Defined.

Lemma post_dispatch_sound_witness :
  exists pre d, evaluatePostDispatch (refund_post "ok" pre) = Ok d /\
    forall shown, po_provider_result d = Some shown -> own (js "secret") shown = None.
Proof.
  destruct refund_allowed as (pre & E & _ & Hact & _ & _ & _ & _ & Hok & _).
  destruct (evaluatePostDispatch (refund_post "ok" pre)) as [d|e] eqn:Ed; [|discriminate Hok].
  exists pre, d. split; [exact Ed|]. intros shown Es.
  destruct (own (js "secret") shown) as [v|] eqn:Eo; [|reflexivity].
  destruct (proj2 (post_dispatch_sound _ _ Ed) shown (js "secret") v Es Eo) as (_ & _ & item & Hi & Hk).
  cbn [pi_pre_dispatch refund_post] in Hi. rewrite Hact in Hi. injection Hi as <-.
  apply includes_iff in Hk. discriminate Hk.
Defined.

Lemma failed_postcondition_verdict_witness :
  exists pre d, evaluatePostDispatch (refund_post "lost" pre) = Ok d /\
    po_decision d = RequireReconciliation.
Proof.
  destruct refund_allowed as (pre & E & Ha & Hact & Hp & Hh & Hr & He & _ & Hok).
  destruct (evaluatePostDispatch (refund_post "lost" pre)) as [d|e] eqn:Ed; [|discriminate Hok].
  exists pre, d. split; [exact Ed|].
  refine (proj2 (failed_postcondition_verdict _ _ refund_item Ed _ Ha Hp (eq_sym Hh) (eq_sym Hr)
    (eq_sym He) _)).
  - cbn [pi_pre_dispatch refund_post]. rewrite Hact. reflexivity.
  - vm_compute. reflexivity.
Defined.
