(* ===== verification/Conversation.v ===== *)
(** * The conversation kernel (src/web/lib/conversation-kernel.ts)

    An append-only, hash-linked event log, the state folded from it and the
    byte-bounded context projected from that state. Throwing is [Err] with a short
    name of the error. A [Map] is an insertion-ordered association list. Fact values
    are JSON; the encoder is the shared [canonicalJson], with which this module's own
    copy agrees on JSON values. *)

From S2P Require Import Prelude JsValue JsText Canonical Graph Flow FlowValidate FlowRuntime.

Local Open Scope Z_scope.

Module Conversation.

Definition GENESIS_HASH : jstr := replicate 64 ch_0.

Definition MAX_EVENT_BYTES : Z := 32768.
Definition MAX_JSON_VALUE_BYTES : Z := 4096.
Definition MAX_ID_LENGTH : nat := 128.
Definition MAX_TEXT_LENGTH : nat := 4096.
Definition MAX_FACTS_PER_DELIVERY : nat := 32.
Definition MAX_ADVISORIES_PER_DELIVERY : nat := 16.
Definition MAX_DEPENDENCIES_PER_WORKER : nat := 64.
Definition MAX_ACTIVE_WORKERS_PER_GOAL : nat := 8.
Definition MAX_PROJECTED_TERMINAL_WORKERS_PER_GOAL : nat := 8.
Definition MAX_PROJECTED_WORKER_PURPOSE_BYTES : Z := 256.
Definition MAX_UNRESOLVED_FLOW_ACTIONS : nat := 64.
Definition MAX_INVARIANTS : nat := 64.
Definition MIN_CONTEXT_BYTES : Z := 256.
Definition MAX_CONTEXT_BYTES : Z := 65536.
Definition MAX_SAFE_INTEGER : Z := 9007199254740991.

(** ** Bounded text *)

(** The [while (lower < upper)] loop of [boundedUtf8Text]; each round at least halves
    the interval, so one round per character of the text is enough. *)
Fixpoint bisect (fuel : nat) (value : jstr) (maximum : Z) (lower upper : nat) : nat :=
  match fuel with
  | O => lower
  | S fuel =>
      if (lower <? upper)%nat then
        let middle := ((lower + upper + 1) / 2)%nat in
        if utf8_length (take middle value) <=? maximum
        then bisect fuel value maximum middle upper
        else bisect fuel value maximum lower (middle - 1)
      else lower
  end.

(** [.replace(/[\uD800-\uDBFF]$/, "")] *)
Definition drop_dangling (s : jstr) : jstr :=
  match last s with
  | Some c => if is_lead c then take (length s - 1) s else s
  | None => s
  end.

Definition boundedUtf8Text (value : jstr) (maximum : Z) : jstr :=
  if utf8_length value <=? maximum then value
  else drop_dangling (take (bisect (length value) value maximum 0 (length value)) value).

(** ** Events *)

Inductive AuthorityKind : Type := SystemOfRecord | HumanVerified | CryptographicAttestation.

Record AuthorityStamp := {
  as_kind : AuthorityKind;
  as_issuer : jstr;
  as_evidenceId : jstr;
  as_issuedAtMs : Z;
}.

Record FactDependency := { dp_key : jstr; dp_revision : Z }.
Record Invariant := { iv_invariantId : jstr; iv_text : jstr }.
Record WorkerFact := { wf_key : jstr; wf_value : jsval; wf_evidenceId : jstr }.
Record WorkerAdvisory := { wa_episodeId : jstr; wa_text : jstr }.

Record FlowCheckpoint := {
  cp_goalId : jstr;
  cp_runtimeDigest : jstr;
  cp_flowRevision : Z;
  cp_capabilityEpoch : Z;
  cp_status : FlowStatus;
  cp_nodeId : option jstr;
  cp_currentStep : option jstr;
  cp_completedStepCount : Z;
  cp_unresolvedActionIds : list jstr;
  cp_stateDigest : jstr;
}.

Record Delivery := {
  dl_deliveryId : jstr;
  dl_workerId : jstr;
  dl_goalId : jstr;
  dl_policyEpoch : Z;
  dl_dependencies : list FactDependency;
  dl_facts : list WorkerFact;
  dl_advisories : list WorkerAdvisory;
}.

Inductive WorkerStatus : Type :=
| WRunning | WCompleted | WCancelled | WFailed | WIndeterminate | WSuperseded.
Inductive FinishStatus : Type := FinFailed | FinCancelled | FinIndeterminate.
Inductive GoalStatus : Type := GActive | GCompleted | GSuspended.

#[export] Instance worker_status_eq_dec : EqDecision WorkerStatus.
Proof. solve_decision. Defined.
#[export] Instance goal_status_eq_dec : EqDecision GoalStatus.
Proof. solve_decision. Defined.

Inductive Payload : Type :=
| FactAsserted (key : jstr) (value : jsval) (authority : AuthorityStamp)
| FactCorrected (key : jstr) (value : jsval) (expectedRevision revision : Z) (authority : AuthorityStamp)
| GoalActivated (goalId description : jstr)
| GoalCompleted (goalId : jstr)
| GoalSuspended (goalId reason : jstr)
| GoalResumed (goalId : jstr)
| CommitmentOpened (commitmentId goalId description : jstr)
| CommitmentResolved (commitmentId resolution : jstr)
| PolicyAdvanced (epoch : Z) (invariants : list Invariant)
| FlowCheckpointRecorded (checkpoint : FlowCheckpoint)
| WorkerSpawned (workerId goalId purpose : jstr) (policyEpoch : Z) (dependencies : list FactDependency)
| WorkerCancelled (workerId reason : jstr)
| WorkerFinished (workerId : jstr) (status : FinishStatus) (reasonCode evidenceSha256 : jstr)
| WorkerResultDelivered (delivery : Delivery)
| AdvisoryRecorded (episodeId summary : jstr).

Record EventDraft := {
  dr_eventId : jstr;
  dr_occurredAtMs : Z;
  dr_payload : Payload;
}.

Record ConversationEvent := {
  ce_conversationId : jstr;
  ce_sequence : Z;
  ce_previousHash : jstr;
  ce_draft : EventDraft;
  ce_hash : jstr;
}.

Record ConversationLog := {
  lg_version : Z;
  lg_conversationId : jstr;
  lg_events : list ConversationEvent;
}.

(** ** Schema *)

(** [IdSchema]: [/^[A-Za-z0-9][A-Za-z0-9._:/-]*$/], at most 128 characters. *)
Definition IdSchema (s : jstr) : bool :=
  match s with
  | c :: r => is_alnum c && forallb (fun c => is_alnum c || one_of "._:/-" c) r &&
              (length s <=? MAX_ID_LENGTH)%nat
  | [] => false
  end.
Definition TextSchema (s : jstr) : bool := (1 <=? length s)%nat && (length s <=? MAX_TEXT_LENGTH)%nat.
Definition NonNegativeIntegerSchema (z : Z) : bool := (0 <=? z) && (z <=? MAX_SAFE_INTEGER).
Definition PositiveIntegerSchema (z : Z) : bool := (1 <=? z) && (z <=? MAX_SAFE_INTEGER).

(** [isJsonValue(value, 8 - depth)]: depth at most 8, at most 128 entries per level. *)
Fixpoint isJsonValue (levels : nat) (v : jsval) : bool :=
  match v with
  | JNull | JStr _ | JBool _ => true
  | JNum n => is_finite n
  | JArr vs =>
      (length vs <=? 128)%nat &&
      match levels with
      | S levels => forallb (isJsonValue levels) vs
      | O => bool_decide (vs = [])
      end
  | JObj kvs =>
      (length kvs <=? 128)%nat &&
      match levels with
      | S levels => forallb (fun kv => (length kv.1 <=? MAX_ID_LENGTH)%nat && isJsonValue levels kv.2) kvs
      | O => bool_decide (kvs = [])
      end
  | JUndefined | JOther _ => false
  end.

Definition JsonValueSchema (v : jsval) : bool :=
  isJsonValue 8 v &&
  match canonicalJson v with Some t => utf8_length t <=? MAX_JSON_VALUE_BYTES | None => false end.

Definition AuthorityStampSchema (a : AuthorityStamp) : bool :=
  IdSchema (as_issuer a) && IdSchema (as_evidenceId a) && NonNegativeIntegerSchema (as_issuedAtMs a).

Definition FactDependencySchema (d : FactDependency) : bool :=
  IdSchema (dp_key d) && PositiveIntegerSchema (dp_revision d).

Definition DependenciesSchema (l : list FactDependency) : bool :=
  forallb FactDependencySchema l && (length l <=? MAX_DEPENDENCIES_PER_WORKER)%nat && nodupb (dp_key <$> l).

Definition FlowCheckpointSchema (c : FlowCheckpoint) : bool :=
  IdSchema (cp_goalId c) && is_sha256 (cp_runtimeDigest c) && NonNegativeIntegerSchema (cp_flowRevision c) &&
  NonNegativeIntegerSchema (cp_capabilityEpoch c) && opt_all TextSchema (cp_nodeId c) &&
  opt_all TextSchema (cp_currentStep c) && NonNegativeIntegerSchema (cp_completedStepCount c) &&
  forallb IdSchema (cp_unresolvedActionIds c) &&
  (length (cp_unresolvedActionIds c) <=? MAX_UNRESOLVED_FLOW_ACTIONS)%nat && is_sha256 (cp_stateDigest c) &&
  nodupb (cp_unresolvedActionIds c) &&
  match cp_status c with
  | Routing => bool_decide (cp_nodeId c = None) && bool_decide (cp_currentStep c = None)
  | Active => bool_decide (cp_nodeId c <> None)
  | Completed | FlowFailed => bool_decide (cp_currentStep c = None)
  end.

Definition DeliverySchema (d : Delivery) : bool :=
  IdSchema (dl_deliveryId d) && IdSchema (dl_workerId d) && IdSchema (dl_goalId d) &&
  NonNegativeIntegerSchema (dl_policyEpoch d) && DependenciesSchema (dl_dependencies d) &&
  forallb (fun f => IdSchema (wf_key f) && JsonValueSchema (wf_value f) && IdSchema (wf_evidenceId f))
    (dl_facts d) && (length (dl_facts d) <=? MAX_FACTS_PER_DELIVERY)%nat && nodupb (wf_key <$> dl_facts d) &&
  forallb (fun a => IdSchema (wa_episodeId a) && TextSchema (wa_text a)) (dl_advisories d) &&
  (length (dl_advisories d) <=? MAX_ADVISORIES_PER_DELIVERY)%nat &&
  nodupb (wa_episodeId <$> dl_advisories d).

Definition PayloadSchema (p : Payload) : bool :=
  match p with
  | FactAsserted key value authority =>
      IdSchema key && JsonValueSchema value && AuthorityStampSchema authority
  | FactCorrected key value expected revision authority =>
      IdSchema key && JsonValueSchema value && PositiveIntegerSchema expected &&
      PositiveIntegerSchema revision && AuthorityStampSchema authority
  | GoalActivated goalId description => IdSchema goalId && TextSchema description
  | GoalCompleted goalId => IdSchema goalId
  | GoalSuspended goalId reason => IdSchema goalId && TextSchema reason
  | GoalResumed goalId => IdSchema goalId
  | CommitmentOpened id goalId description => IdSchema id && IdSchema goalId && TextSchema description
  | CommitmentResolved id resolution => IdSchema id && TextSchema resolution
  | PolicyAdvanced epoch invariants =>
      PositiveIntegerSchema epoch &&
      forallb (fun i => IdSchema (iv_invariantId i) && TextSchema (iv_text i)) invariants &&
      (length invariants <=? MAX_INVARIANTS)%nat && nodupb (iv_invariantId <$> invariants)
  | FlowCheckpointRecorded c => FlowCheckpointSchema c
  | WorkerSpawned workerId goalId purpose epoch deps =>
      IdSchema workerId && IdSchema goalId && TextSchema purpose && NonNegativeIntegerSchema epoch &&
      DependenciesSchema deps
  | WorkerCancelled workerId reason => IdSchema workerId && TextSchema reason
  | WorkerFinished workerId _ reasonCode evidence =>
      IdSchema workerId && IdSchema reasonCode && is_sha256 evidence
  | WorkerResultDelivered d => DeliverySchema d
  | AdvisoryRecorded episodeId summary => IdSchema episodeId && TextSchema summary
  end.

Definition EventDraftSchema (d : EventDraft) : bool :=
  IdSchema (dr_eventId d) && NonNegativeIntegerSchema (dr_occurredAtMs d) && PayloadSchema (dr_payload d).

Definition EventSchema (e : ConversationEvent) : bool :=
  EventDraftSchema (ce_draft e) && IdSchema (ce_conversationId e) && PositiveIntegerSchema (ce_sequence e) &&
  is_sha256 (ce_previousHash e) && is_sha256 (ce_hash e).

(** ** Events as JSON *)

Definition authority_kind_text (k : AuthorityKind) : string :=
  match k with
  | SystemOfRecord => "system_of_record" | HumanVerified => "human_verified"
  | CryptographicAttestation => "cryptographic_attestation"
  end.
Definition finish_text (s : FinishStatus) : string :=
  match s with FinFailed => "failed" | FinCancelled => "cancelled" | FinIndeterminate => "indeterminate" end.

Definition authority_json (a : AuthorityStamp) : jsval :=
  JObj (field "kind" (jtext (authority_kind_text (as_kind a))) ++ field "issuer" (JStr (as_issuer a)) ++
    field "evidenceId" (JStr (as_evidenceId a)) ++ field "issuedAtMs" (jnat (as_issuedAtMs a))).
Definition dependency_json (d : FactDependency) : jsval :=
  JObj (field "key" (JStr (dp_key d)) ++ field "revision" (jnat (dp_revision d))).
Definition invariant_json (i : Invariant) : jsval :=
  JObj (field "invariantId" (JStr (iv_invariantId i)) ++ field "text" (JStr (iv_text i))).

Definition checkpoint_fields (c : FlowCheckpoint) : obj jsval :=
  field "goalId" (JStr (cp_goalId c)) ++ field "runtimeDigest" (JStr (cp_runtimeDigest c)) ++
  field "flowRevision" (jnat (cp_flowRevision c)) ++ field "capabilityEpoch" (jnat (cp_capabilityEpoch c)) ++
  field "status" (jtext (flow_status_text (cp_status c))) ++ field "nodeId" (nullable (cp_nodeId c)) ++
  field "currentStep" (nullable (cp_currentStep c)) ++
  field "completedStepCount" (jnat (cp_completedStepCount c)) ++
  field "unresolvedActionIds" (JArr (JStr <$> cp_unresolvedActionIds c)) ++
  field "stateDigest" (JStr (cp_stateDigest c)).

Definition payload_json (p : Payload) : jsval :=
  let type t := field "type" (jtext t) in
  JObj match p with
  | FactAsserted key value authority =>
      type "fact.asserted" ++ field "key" (JStr key) ++ field "value" value ++ field "revision" (jnat 1) ++
      field "authority" (authority_json authority)
  | FactCorrected key value expected revision authority =>
      type "fact.corrected" ++ field "key" (JStr key) ++ field "value" value ++
      field "expectedRevision" (jnat expected) ++ field "revision" (jnat revision) ++
      field "authority" (authority_json authority)
  | GoalActivated goalId description =>
      type "goal.activated" ++ field "goalId" (JStr goalId) ++ field "description" (JStr description)
  | GoalCompleted goalId => type "goal.completed" ++ field "goalId" (JStr goalId)
  | GoalSuspended goalId reason =>
      type "goal.suspended" ++ field "goalId" (JStr goalId) ++ field "reason" (JStr reason)
  | GoalResumed goalId => type "goal.resumed" ++ field "goalId" (JStr goalId)
  | CommitmentOpened id goalId description =>
      type "commitment.opened" ++ field "commitmentId" (JStr id) ++ field "goalId" (JStr goalId) ++
      field "description" (JStr description)
  | CommitmentResolved id resolution =>
      type "commitment.resolved" ++ field "commitmentId" (JStr id) ++ field "resolution" (JStr resolution)
  | PolicyAdvanced epoch invariants =>
      type "policy.advanced" ++ field "epoch" (jnat epoch) ++
      field "invariants" (JArr (invariant_json <$> invariants))
  | FlowCheckpointRecorded c => type "flow.checkpoint_recorded" ++ checkpoint_fields c
  | WorkerSpawned workerId goalId purpose epoch deps =>
      type "worker.spawned" ++ field "workerId" (JStr workerId) ++ field "goalId" (JStr goalId) ++
      field "purpose" (JStr purpose) ++ field "policyEpoch" (jnat epoch) ++
      field "dependencies" (JArr (dependency_json <$> deps))
  | WorkerCancelled workerId reason =>
      type "worker.cancelled" ++ field "workerId" (JStr workerId) ++ field "reason" (JStr reason)
  | WorkerFinished workerId status reasonCode evidence =>
      type "worker.finished" ++ field "workerId" (JStr workerId) ++
      field "status" (jtext (finish_text status)) ++ field "reasonCode" (JStr reasonCode) ++
      field "evidenceSha256" (JStr evidence)
  | WorkerResultDelivered d =>
      type "worker.result_delivered" ++ field "deliveryId" (JStr (dl_deliveryId d)) ++
      field "workerId" (JStr (dl_workerId d)) ++ field "goalId" (JStr (dl_goalId d)) ++
      field "policyEpoch" (jnat (dl_policyEpoch d)) ++
      field "dependencyFactRevisions" (JArr (dependency_json <$> dl_dependencies d)) ++
      field "facts" (JArr ((fun f => JObj (field "key" (JStr (wf_key f)) ++ field "value" (wf_value f) ++
        field "evidenceId" (JStr (wf_evidenceId f)))) <$> dl_facts d)) ++
      field "advisories" (JArr ((fun a => JObj (field "episodeId" (JStr (wa_episodeId a)) ++
        field "text" (JStr (wa_text a)))) <$> dl_advisories d))
  | AdvisoryRecorded episodeId summary =>
      type "advisory.recorded" ++ field "episodeId" (JStr episodeId) ++ field "summary" (JStr summary)
  end.

Definition draft_fields (d : EventDraft) : obj jsval :=
  field "eventId" (JStr (dr_eventId d)) ++ field "occurredAtMs" (jnat (dr_occurredAtMs d)) ++
  field "payload" (payload_json (dr_payload d)).

(** The event without its hash. *)
Definition unsigned_fields (conversationId : jstr) (sequence : Z) (previousHash : jstr) (d : EventDraft)
  : obj jsval :=
  field "version" (jnat 1) ++ field "conversationId" (JStr conversationId) ++
  field "sequence" (jnat sequence) ++ field "previousHash" (JStr previousHash) ++ draft_fields d.

Definition event_unsigned (e : ConversationEvent) : jsval :=
  JObj (unsigned_fields (ce_conversationId e) (ce_sequence e) (ce_previousHash e) (ce_draft e)).

Definition event_json (e : ConversationEvent) : jsval :=
  JObj (unsigned_fields (ce_conversationId e) (ce_sequence e) (ce_previousHash e) (ce_draft e) ++
        field "hash" (JStr (ce_hash e))).

(** ** Folded state *)

Record AuthoritativeFact := {
  ft_key : jstr; ft_value : jsval; ft_revision : Z; ft_authority : AuthorityStamp; ft_sequence : Z
}.
Record Goal := {
  gl_goalId : jstr; gl_description : jstr; gl_activatedSequence : Z; gl_status : GoalStatus
}.
Record Commitment := {
  cm_commitmentId : jstr; cm_goalId : jstr; cm_description : jstr; cm_openedSequence : Z;
  cm_resolution : option jstr; cm_resolvedSequence : option Z
}.
Record Worker := {
  wk_workerId : jstr; wk_goalId : jstr; wk_purpose : jstr; wk_policyEpoch : Z;
  wk_dependencies : list FactDependency; wk_spawnedSequence : Z; wk_status : WorkerStatus
}.

Inductive DeliveryStatus : Type := DAccepted | DDeferred | DRejected | DDuplicate.
#[export] Instance delivery_status_eq_dec : EqDecision DeliveryStatus.
Proof. solve_decision. Defined.

Record DeliveryRecord := {
  dv_deliveryId : jstr; dv_workerId : jstr; dv_eventId : jstr; dv_status : DeliveryStatus;
  dv_reason : option string; dv_appliedSequence : option Z; dv_logicalHash : jstr
}.
Record AcceptedWorkerFact := {
  af_fact : WorkerFact; af_workerId : jstr; af_deliveryId : jstr; af_goalId : jstr; af_policyEpoch : Z;
  af_dependencies : list FactDependency; af_acceptedSequence : Z
}.
Record AdvisoryEpisode := {
  ad_episodeId : jstr; ad_text : jstr; ad_from_worker : bool; ad_sequence : Z
}.

(** [MutableState] *)
Record State := mkConv {
  s_facts : obj AuthoritativeFact;
  s_goals : obj Goal;
  s_currentGoalId : option jstr;
  s_commitments : obj Commitment;
  s_epoch : Z;
  s_invariants : list Invariant;
  s_flowCheckpoints : obj (FlowCheckpoint * Z);
  s_workers : obj Worker;
  s_deliveries : list DeliveryRecord;
  s_logicalDeliveries : obj (jstr * DeliveryStatus);
  s_acceptedWorkerFacts : list AcceptedWorkerFact;
  s_advisories : list AdvisoryEpisode;
}.

Definition emptyMutableState : State := mkConv [] [] None [] 0 [] [] [] [] [] [] [].

Definition set_facts f (s : State) : State :=
  mkConv f (s_goals s) (s_currentGoalId s) (s_commitments s) (s_epoch s) (s_invariants s)
    (s_flowCheckpoints s) (s_workers s) (s_deliveries s) (s_logicalDeliveries s)
    (s_acceptedWorkerFacts s) (s_advisories s).
Definition set_goals g current (s : State) : State :=
  mkConv (s_facts s) g current (s_commitments s) (s_epoch s) (s_invariants s)
    (s_flowCheckpoints s) (s_workers s) (s_deliveries s) (s_logicalDeliveries s)
    (s_acceptedWorkerFacts s) (s_advisories s).
Definition set_commitments c (s : State) : State :=
  mkConv (s_facts s) (s_goals s) (s_currentGoalId s) c (s_epoch s) (s_invariants s)
    (s_flowCheckpoints s) (s_workers s) (s_deliveries s) (s_logicalDeliveries s)
    (s_acceptedWorkerFacts s) (s_advisories s).
Definition set_policy e i (s : State) : State :=
  mkConv (s_facts s) (s_goals s) (s_currentGoalId s) (s_commitments s) e i
    (s_flowCheckpoints s) (s_workers s) (s_deliveries s) (s_logicalDeliveries s)
    (s_acceptedWorkerFacts s) (s_advisories s).
Definition set_checkpoints c (s : State) : State :=
  mkConv (s_facts s) (s_goals s) (s_currentGoalId s) (s_commitments s) (s_epoch s) (s_invariants s)
    c (s_workers s) (s_deliveries s) (s_logicalDeliveries s) (s_acceptedWorkerFacts s) (s_advisories s).
Definition set_workers w (s : State) : State :=
  mkConv (s_facts s) (s_goals s) (s_currentGoalId s) (s_commitments s) (s_epoch s) (s_invariants s)
    (s_flowCheckpoints s) w (s_deliveries s) (s_logicalDeliveries s) (s_acceptedWorkerFacts s)
    (s_advisories s).
Definition set_deliveries d l (s : State) : State :=
  mkConv (s_facts s) (s_goals s) (s_currentGoalId s) (s_commitments s) (s_epoch s) (s_invariants s)
    (s_flowCheckpoints s) (s_workers s) d l (s_acceptedWorkerFacts s) (s_advisories s).
Definition set_advice f a (s : State) : State :=
  mkConv (s_facts s) (s_goals s) (s_currentGoalId s) (s_commitments s) (s_epoch s) (s_invariants s)
    (s_flowCheckpoints s) (s_workers s) (s_deliveries s) (s_logicalDeliveries s) f a.

Definition with_goal_status (st : GoalStatus) (g : Goal) : Goal :=
  {| gl_goalId := gl_goalId g; gl_description := gl_description g;
     gl_activatedSequence := gl_activatedSequence g; gl_status := st |}.
Definition with_worker_status (st : WorkerStatus) (w : Worker) : Worker :=
  {| wk_workerId := wk_workerId w; wk_goalId := wk_goalId w; wk_purpose := wk_purpose w;
     wk_policyEpoch := wk_policyEpoch w; wk_dependencies := wk_dependencies w;
     wk_spawnedSequence := wk_spawnedSequence w; wk_status := st |}.

Definition set_worker_status (id : jstr) (st : WorkerStatus) (w : Worker) (s : State) : State :=
  set_workers (put id (with_worker_status st w) (s_workers s)) s.

Section Kernel.
Context `{HS : Sha256}.

Abbreviation error e := (Err (E := string) e%string).

(** ** Applying an event *)

Definition dependenciesMatch (expected actual : list FactDependency) : bool :=
  let normalize l := JArr (dependency_json <$> sort_by (fun a b => str_ltb (dp_key a) (dp_key b)) l) in
  match canonicalJson (normalize expected), canonicalJson (normalize actual) with
  | Some t, Some t' => t =?s t'
  | _, _ => false
  end.

(** [state.facts.get(key)?.revision !== revision], negated. *)
Definition is_current (s : State) (d : FactDependency) : bool :=
  bool_decide (ft_revision <$> own (dp_key d) (s_facts s) = Some (dp_revision d)).

Definition running_workers (s : State) (goalId : jstr) : list Worker :=
  List.filter (fun w => (wk_goalId w =?s goalId) && bool_decide (wk_status w = WRunning))
    (s_workers s).*2.

Definition activate_goal (s : State) (goalId description : jstr) (sequence : Z) : State :=
  let goals :=
    match current ← truthy (s_currentGoalId s); own current (s_goals s) with
    | Some prior =>
        if bool_decide (gl_status prior = GActive)
        then put (default [] (s_currentGoalId s)) (with_goal_status GSuspended prior) (s_goals s)
        else s_goals s
    | None => s_goals s
    end in
  set_goals (put goalId {| gl_goalId := goalId; gl_description := description;
    gl_activatedSequence := sequence; gl_status := GActive |} goals) (Some goalId) s.

(** The active goal named by an event, if it is the current one. *)
Definition active_goal (s : State) (goalId : jstr) : option Goal :=
  goal ← own goalId (s_goals s);
  if bool_decide (gl_status goal = GActive) && bool_decide (s_currentGoalId s = Some goalId)
  then Some goal else None.

Definition finish_status (s : FinishStatus) : WorkerStatus :=
  match s with FinFailed => WFailed | FinCancelled => WCancelled | FinIndeterminate => WIndeterminate end.

Definition refuse (status : DeliveryStatus) (reason : string) : DeliveryStatus * option string :=
  (status, Some reason).

(** The decision on a delivery that is not a replay of a terminal one. *)
Definition judge_delivery (s : State) (d : Delivery) (worker : option Worker)
  : DeliveryStatus * option string :=
  match worker with
  | None => refuse DRejected "worker is missing or not running"
  | Some w =>
      if negb (bool_decide (wk_status w = WRunning))
      then refuse DRejected "worker is missing or not running"
      else if negb (dl_goalId d =?s wk_goalId w)
      then refuse DRejected "delivery goal differs from its worker contract"
      else if bool_decide (gl_status <$> own (wk_goalId w) (s_goals s) = Some GSuspended)
      then refuse DDeferred "worker goal is suspended"
      else if negb (bool_decide (s_currentGoalId s = Some (dl_goalId d)))
      then refuse DRejected "worker goal is no longer active"
      else if negb (dl_policyEpoch d =? wk_policyEpoch w) || negb (dl_policyEpoch d =? s_epoch s)
      then refuse DRejected "policy epoch changed while worker was running"
      else if negb (dependenciesMatch (dl_dependencies d) (wk_dependencies w))
      then refuse DRejected "delivery dependency declaration differs from spawn contract"
      else if existsb (fun dep => negb (is_current s dep)) (wk_dependencies w)
      then refuse DRejected "an authoritative dependency fact changed while worker was running"
      else (DAccepted, None)
  end.

(** The effects of an accepted delivery beyond its record. *)
Definition accept_delivery (s : State) (d : Delivery) (w : Worker) (sequence : Z) : State :=
  set_advice
    (s_acceptedWorkerFacts s ++
     ((fun f => {| af_fact := f; af_workerId := dl_workerId d; af_deliveryId := dl_deliveryId d;
                   af_goalId := dl_goalId d; af_policyEpoch := dl_policyEpoch d;
                   af_dependencies := dl_dependencies d; af_acceptedSequence := sequence |}) <$> dl_facts d))
    (s_advisories s ++
     ((fun a => {| ad_episodeId := wa_episodeId a; ad_text := wa_text a; ad_from_worker := true;
                   ad_sequence := sequence |}) <$> dl_advisories d))
    (set_worker_status (dl_workerId d) WCompleted w s).

Definition record_delivery (s : State) (d : Delivery) (eventId : jstr) (status : DeliveryStatus)
    (reason : option string) (applied : option Z) (hash : jstr) : list DeliveryRecord :=
  s_deliveries s ++ [{| dv_deliveryId := dl_deliveryId d; dv_workerId := dl_workerId d;
    dv_eventId := eventId; dv_status := status; dv_reason := reason; dv_appliedSequence := applied;
    dv_logicalHash := hash |}].

Definition apply_delivery (s : State) (d : Delivery) (eventId : jstr) (sequence : Z) : result string State :=
  match hashFlowValue (payload_json (WorkerResultDelivered d)) with
  | None => error "exception"
  | Some hash =>
      let prior := own (dl_deliveryId d) (s_logicalDeliveries s) in
      raise "delivery replay changed content"%string when
        match prior with Some (h, _) => negb (h =?s hash) | None => false end ;;
      if match prior with Some (_, st) => negb (bool_decide (st = DDeferred)) | None => false end
      then Ok (set_deliveries (record_delivery s d eventId DDuplicate
                 (Some "logical delivery already reached a terminal decision"%string) None hash)
                 (s_logicalDeliveries s) s)
      else
        let worker := own (dl_workerId d) (s_workers s) in
        let '(status, reason) := judge_delivery s d worker in
        let applied := if bool_decide (status = DAccepted) then Some sequence else None in
        let s1 := set_deliveries (record_delivery s d eventId status reason applied hash)
                    (put (dl_deliveryId d) (hash, status) (s_logicalDeliveries s)) s in
        Ok match worker with
           | None => s1
           | Some w =>
               if bool_decide (status = DAccepted) then accept_delivery s1 d w sequence
               else if bool_decide (status = DRejected) && bool_decide (wk_status w = WRunning)
               then set_worker_status (dl_workerId d) WSuperseded w s1
               else s1
           end
  end.

Definition apply_checkpoint (s : State) (c : FlowCheckpoint) (sequence : Z) : result string State :=
  raise "flow checkpoint must bind to the current goal"%string when
    negb (bool_decide (s_currentGoalId s = Some (cp_goalId c))) ;;
  let next := set_checkpoints (put (cp_goalId c) (c, sequence) (s_flowCheckpoints s)) s in
  match own (cp_goalId c) (s_flowCheckpoints s) with
  | None => Ok next
  | Some (prior, _) =>
      raise "terminal flow checkpoint cannot advance"%string when
        bool_decide (cp_status prior = Completed) || bool_decide (cp_status prior = FlowFailed) ;;
      raise "flow runtime digest cannot change within a goal"%string when
        negb (cp_runtimeDigest c =?s cp_runtimeDigest prior) ;;
      raise "flow revision must advance monotonically"%string when
        cp_flowRevision c <=? cp_flowRevision prior ;;
      raise "flow capability epoch cannot move backwards"%string when
        cp_capabilityEpoch c <? cp_capabilityEpoch prior ;;
      Ok next
  end.

Definition spawn_worker (s : State) (workerId goalId purpose : jstr) (epoch : Z)
    (deps : list FactDependency) (sequence : Z) : result string State :=
  raise "worker already exists"%string when has_own workerId (s_workers s) ;;
  raise "worker must bind to the current goal"%string when
    negb (bool_decide (s_currentGoalId s = Some goalId)) ;;
  raise "worker must bind to the current policy epoch"%string when negb (epoch =? s_epoch s) ;;
  raise "goal cannot have more active workers"%string when
    (MAX_ACTIVE_WORKERS_PER_GOAL <=? length (running_workers s goalId))%nat ;;
  raise "worker dependency is not current"%string when existsb (fun d => negb (is_current s d)) deps ;;
  Ok (set_workers (put workerId {| wk_workerId := workerId; wk_goalId := goalId; wk_purpose := purpose;
        wk_policyEpoch := epoch; wk_dependencies := deps; wk_spawnedSequence := sequence;
        wk_status := WRunning |} (s_workers s)) s).

(** A running worker by id. *)
Definition running_worker (s : State) (id : jstr) : option Worker :=
  w ← own id (s_workers s); if bool_decide (wk_status w = WRunning) then Some w else None.

Definition applyEvent (s : State) (event : ConversationEvent) : result string State :=
  let sequence := ce_sequence event in
  match dr_payload (ce_draft event) with
  | FactAsserted key value authority =>
      raise "fact already exists; use fact.corrected"%string when has_own key (s_facts s) ;;
      Ok (set_facts (put key {| ft_key := key; ft_value := value; ft_revision := 1;
            ft_authority := authority; ft_sequence := sequence |} (s_facts s)) s)
  | FactCorrected key value expected revision authority =>
      match own key (s_facts s) with
      | None => error "cannot correct missing fact"
      | Some prior =>
          raise "fact correction revision is stale or non-contiguous"%string when
            negb (ft_revision prior =? expected) || negb (revision =? ft_revision prior + 1) ;;
          Ok (set_facts (put key {| ft_key := key; ft_value := value; ft_revision := revision;
                ft_authority := authority; ft_sequence := sequence |} (s_facts s)) s)
      end
  | GoalActivated goalId description =>
      raise "goal already exists"%string when has_own goalId (s_goals s) ;;
      Ok (activate_goal s goalId description sequence)
  | GoalCompleted goalId =>
      match active_goal s goalId with
      | None => error "goal is not the active goal"
      | Some goal => Ok (set_goals (put goalId (with_goal_status GCompleted goal) (s_goals s)) None s)
      end
  | GoalSuspended goalId _ =>
      match active_goal s goalId with
      | None => error "goal is not the active goal"
      | Some goal => Ok (set_goals (put goalId (with_goal_status GSuspended goal) (s_goals s)) None s)
      end
  | GoalResumed goalId =>
      match own goalId (s_goals s) with
      | None => error "goal is not suspended"
      | Some goal =>
          raise "goal is not suspended"%string when negb (bool_decide (gl_status goal = GSuspended)) ;;
          raise "cannot resume goal while another goal is active"%string when
            bool_decide (truthy (s_currentGoalId s) <> None) ;;
          Ok (set_goals (put goalId (with_goal_status GActive goal) (s_goals s)) (Some goalId) s)
      end
  | CommitmentOpened id goalId description =>
      raise "commitment already exists"%string when has_own id (s_commitments s) ;;
      raise "commitment references missing goal"%string when negb (has_own goalId (s_goals s)) ;;
      Ok (set_commitments (put id {| cm_commitmentId := id; cm_goalId := goalId;
            cm_description := description; cm_openedSequence := sequence; cm_resolution := None;
            cm_resolvedSequence := None |} (s_commitments s)) s)
  | CommitmentResolved id resolution =>
      match own id (s_commitments s) with
      | None => error "commitment is not open"
      | Some c =>
          raise "commitment is not open"%string when bool_decide (cm_resolution c <> None) ;;
          Ok (set_commitments (put id {| cm_commitmentId := cm_commitmentId c; cm_goalId := cm_goalId c;
                cm_description := cm_description c; cm_openedSequence := cm_openedSequence c;
                cm_resolution := Some resolution; cm_resolvedSequence := Some sequence |}
                (s_commitments s)) s)
      end
  | PolicyAdvanced epoch invariants =>
      raise "policy epoch must advance exactly once"%string when negb (epoch =? s_epoch s + 1) ;;
      Ok (set_policy epoch invariants s)
  | FlowCheckpointRecorded c => apply_checkpoint s c sequence
  | WorkerSpawned workerId goalId purpose epoch deps =>
      spawn_worker s workerId goalId purpose epoch deps sequence
  | WorkerCancelled workerId _ =>
      match running_worker s workerId with
      | None => error "worker is not running"
      | Some w => Ok (set_worker_status workerId WCancelled w s)
      end
  | WorkerFinished workerId status _ _ =>
      match running_worker s workerId with
      | None => error "worker is not running"
      | Some w => Ok (set_worker_status workerId (finish_status status) w s)
      end
  | WorkerResultDelivered d => apply_delivery s d (dr_eventId (ce_draft event)) sequence
  | AdvisoryRecorded episodeId summary =>
      Ok (set_advice (s_acceptedWorkerFacts s)
            (s_advisories s ++ [{| ad_episodeId := episodeId; ad_text := summary;
               ad_from_worker := false; ad_sequence := sequence |}]) s)
  end.

Fixpoint applyEvents (s : State) (events : list ConversationEvent) : result string State :=
  match events with
  | [] => Ok s
  | e :: events => let* s' := applyEvent s e in applyEvents s' events
  end.

(** ** The log *)

Definition eventHash (e : ConversationEvent) : option jstr := hashFlowValue (event_unsigned e).

Definition createConversationLog (conversationId : jstr) : result string ConversationLog :=
  raise "invalid id"%string when negb (IdSchema conversationId) ;;
  Ok {| lg_version := 1; lg_conversationId := conversationId; lg_events := [] |}.

(** The loop of [validateConversationLog]. *)
Fixpoint validate_events (conversationId : jstr) (sequence : Z) (previousHash : jstr)
    (seen : list jstr) (events : list ConversationEvent) : result string unit :=
  match events with
  | [] => Ok tt
  | e :: events =>
      raise "invalid event"%string when negb (EventSchema e) ;;
      raise "event belongs to another conversation"%string when
        negb (ce_conversationId e =?s conversationId) ;;
      raise "event has a non-contiguous sequence"%string when negb (ce_sequence e =? sequence) ;;
      raise "event breaks the hash chain"%string when negb (ce_previousHash e =?s previousHash) ;;
      raise "duplicate event id exists in the log"%string when includes (dr_eventId (ce_draft e)) seen ;;
      raise "event has an invalid hash"%string when negb (bool_decide (eventHash e = Some (ce_hash e))) ;;
      validate_events conversationId (sequence + 1) (ce_hash e) (dr_eventId (ce_draft e) :: seen) events
  end.

Definition validateConversationLog (log : ConversationLog) : result string unit :=
  raise "unsupported conversation log version"%string when negb (lg_version log =? 1) ;;
  raise "invalid id"%string when negb (IdSchema (lg_conversationId log)) ;;
  validate_events (lg_conversationId log) 1 GENESIS_HASH [] (lg_events log).

Definition headHash (events : list ConversationEvent) : jstr :=
  match last events with Some e => ce_hash e | None => GENESIS_HASH end.

Definition find_event (id : jstr) (events : list ConversationEvent) : option ConversationEvent :=
  List.find (fun e => dr_eventId (ce_draft e) =?s id) events.

(** The event a draft becomes at the end of [events]. *)
Definition seal (conversationId : jstr) (events : list ConversationEvent) (d : EventDraft)
  : option ConversationEvent :=
  let sequence := Z.of_nat (length events) + 1 in
  let previousHash := headHash events in
  hash ← hashFlowValue (JObj (unsigned_fields conversationId sequence previousHash d));
  Some {| ce_conversationId := conversationId; ce_sequence := sequence;
          ce_previousHash := previousHash; ce_draft := d; ce_hash := hash |}.

(** The loop over the drafts of [appendConversationEvents]. *)
Fixpoint append_drafts (conversationId : jstr) (s : State) (events : list ConversationEvent)
    (inputs : list EventDraft) : result string (list ConversationEvent) :=
  match inputs with
  | [] => Ok events
  | d :: inputs =>
      raise "invalid draft"%string when negb (EventDraftSchema d) ;;
      match find_event (dr_eventId d) events with
      | Some existing =>
          raise "conflicting replay for event"%string when
            negb (bool_decide (canonicalJson (JObj (draft_fields (ce_draft existing))) =
                               canonicalJson (JObj (draft_fields d)))) ;;
          append_drafts conversationId s events inputs
      | None =>
          match seal conversationId events d with
          | None => error "exception"
          | Some e =>
              raise "invalid event"%string when negb (EventSchema e) ;;
              raise "event exceeds maximum bytes"%string when
                match flowJsonBytes (event_json e) with
                | Some bytes => MAX_EVENT_BYTES <? bytes
                | None => true
                end ;;
              let* s' := applyEvent s e in
              append_drafts conversationId s' (events ++ [e]) inputs
          end
      end
  end.

(** The same log value is returned when nothing was appended; a log is a value here, so
    both cases are one. *)
Definition appendConversationEvents (log : ConversationLog) (inputs : list EventDraft)
  : result string ConversationLog :=
  let* _ := validateConversationLog log in
  let* s := applyEvents emptyMutableState (lg_events log) in
  let* events := append_drafts (lg_conversationId log) s (lg_events log) inputs in
  Ok {| lg_version := lg_version log; lg_conversationId := lg_conversationId log; lg_events := events |}.

Definition appendConversationEvent (log : ConversationLog) (input : EventDraft)
  : result string ConversationLog := appendConversationEvents log [input].

(** ** The folded view *)

Record ConversationState := {
  cs_facts : list AuthoritativeFact;
  cs_goals : list Goal;
  cs_currentGoal : option Goal;
  cs_commitments : list Commitment;
  cs_epoch : Z;
  cs_invariants : list Invariant;
  cs_flowCheckpoints : list (FlowCheckpoint * Z);
  cs_currentFlowCheckpoint : option (FlowCheckpoint * Z);
  cs_workers : list Worker;
  cs_deliveries : list DeliveryRecord;
  cs_acceptedWorkerFacts : list AcceptedWorkerFact;
  cs_advisories : list AdvisoryEpisode;
  cs_headHash : jstr;
  cs_eventCount : Z;
}.

Definition sortById {A} (getId : A -> jstr) (l : list A) : list A :=
  sort_by (fun a b => str_ltb (getId a) (getId b)) l.

Definition view (s : State) (events : list ConversationEvent) : ConversationState :=
  let goals := sortById gl_goalId (s_goals s).*2 in
  let checkpoints := sortById (fun c => cp_goalId c.1) (s_flowCheckpoints s).*2 in
  let current := truthy (s_currentGoalId s) in
  {| cs_facts := sortById ft_key (s_facts s).*2;
     cs_goals := goals;
     cs_currentGoal := id ← current; List.find (fun g => gl_goalId g =?s id) goals;
     cs_commitments := sortById cm_commitmentId (s_commitments s).*2;
     cs_epoch := s_epoch s;
     cs_invariants := s_invariants s;
     cs_flowCheckpoints := checkpoints;
     cs_currentFlowCheckpoint := id ← current; List.find (fun c => cp_goalId c.1 =?s id) checkpoints;
     cs_workers := sortById wk_workerId (s_workers s).*2;
     cs_deliveries := s_deliveries s;
     cs_acceptedWorkerFacts := s_acceptedWorkerFacts s;
     cs_advisories := s_advisories s;
     cs_headHash := headHash events;
     cs_eventCount := Z.of_nat (length events) |}.

Definition foldConversation (log : ConversationLog) : result string ConversationState :=
  let* _ := validateConversationLog log in
  let* s := applyEvents emptyMutableState (lg_events log) in
  Ok (view s (lg_events log)).

(** ** The projected context *)

Record ContextProjection := mkProjection {
  cx_policyEpoch : Z;
  cx_invariants : list Invariant;
  cx_facts : list AuthoritativeFact;
  cx_currentGoal : option Goal;
  cx_currentFlowCheckpoint : option FlowCheckpoint;
  cx_openCommitments : list Commitment;
  cx_workers : list (jstr * jstr * WorkerStatus);
  cx_omittedTerminalWorkerCount : Z;
  cx_acceptedWorkerFacts : list AcceptedWorkerFact;
  cx_advisories : list AdvisoryEpisode;
}.

Definition worker_status_text (s : WorkerStatus) : string :=
  match s with
  | WRunning => "running" | WCompleted => "completed" | WCancelled => "cancelled" | WFailed => "failed"
  | WIndeterminate => "indeterminate" | WSuperseded => "superseded"
  end.

Definition untrusted : jsval := jtext "untrusted_advisory".

Definition fact_item (f : AuthoritativeFact) : jsval :=
  JObj (field "key" (JStr (ft_key f)) ++ field "value" (ft_value f) ++ field "revision" (jnat (ft_revision f))).
Definition goal_item (g : Goal) : jsval :=
  JObj (field "goalId" (JStr (gl_goalId g)) ++ field "description" (JStr (gl_description g))).
Definition commitment_item (c : Commitment) : jsval :=
  JObj (field "commitmentId" (JStr (cm_commitmentId c)) ++ field "goalId" (JStr (cm_goalId c)) ++
    field "description" (JStr (cm_description c))).
Definition worker_item (w : jstr * jstr * WorkerStatus) : jsval :=
  JObj (field "workerId" (JStr w.1.1) ++ field "purpose" (JStr w.1.2) ++
    field "status" (jtext (worker_status_text w.2)) ++ field "purposeTrust" untrusted).
Definition worker_fact_item (f : AcceptedWorkerFact) : jsval :=
  JObj (field "key" (JStr (wf_key (af_fact f))) ++ field "value" (wf_value (af_fact f)) ++
    field "evidenceId" (JStr (wf_evidenceId (af_fact f))) ++ field "workerId" (JStr (af_workerId f)) ++
    field "valueTrust" untrusted ++ field "citationTrust" untrusted).
Definition advisory_item (a : AdvisoryEpisode) : jsval :=
  JObj (field "episodeId" (JStr (ad_episodeId a)) ++ field "text" (JStr (ad_text a)) ++
    field "source" (jtext (if ad_from_worker a then "worker" else "model")) ++ field "textTrust" untrusted).

Definition projection_json (p : ContextProjection) : jsval :=
  JObj (field "schemaVersion" (jnat 1) ++ field "policyEpoch" (jnat (cx_policyEpoch p)) ++
    field "invariants" (JArr (invariant_json <$> cx_invariants p)) ++
    field "authoritativeFacts" (JArr (fact_item <$> cx_facts p)) ++
    field "currentGoal" (from_option goal_item JNull (cx_currentGoal p)) ++
    field "currentFlowCheckpoint"
      (from_option (fun c => JObj (checkpoint_fields c)) JNull (cx_currentFlowCheckpoint p)) ++
    field "openCommitments" (JArr (commitment_item <$> cx_openCommitments p)) ++
    field "currentGoalWorkers" (JArr (worker_item <$> cx_workers p)) ++
    field "omittedTerminalWorkerCount" (jnat (cx_omittedTerminalWorkerCount p)) ++
    field "acceptedWorkerFacts" (JArr (worker_fact_item <$> cx_acceptedWorkerFacts p)) ++
    field "recentAdvisoryEpisodes" (JArr (advisory_item <$> cx_advisories p))).

Definition projectionBytes (p : ContextProjection) : option Z := flowJsonBytes (projection_json p).

Definition add_worker_fact (p : ContextProjection) (f : AcceptedWorkerFact) : ContextProjection :=
  mkProjection (cx_policyEpoch p) (cx_invariants p) (cx_facts p) (cx_currentGoal p)
    (cx_currentFlowCheckpoint p) (cx_openCommitments p) (cx_workers p) (cx_omittedTerminalWorkerCount p)
    (cx_acceptedWorkerFacts p ++ [f]) (cx_advisories p).
Definition add_advisory (p : ContextProjection) (a : AdvisoryEpisode) : ContextProjection :=
  mkProjection (cx_policyEpoch p) (cx_invariants p) (cx_facts p) (cx_currentGoal p)
    (cx_currentFlowCheckpoint p) (cx_openCommitments p) (cx_workers p) (cx_omittedTerminalWorkerCount p)
    (cx_acceptedWorkerFacts p) (cx_advisories p ++ [a]).

(** [tryOptionalMutation]: an item is kept when the projection still fits. *)
Fixpoint add_fitting {A} (add : ContextProjection -> A -> ContextProjection) (budget : Z)
    (p : ContextProjection) (items : list A) : result string ContextProjection :=
  match items with
  | [] => Ok p
  | x :: items =>
      match projectionBytes (add p x) with
      | None => error "exception"
      | Some bytes => add_fitting add budget (if budget <? bytes then p else add p x) items
      end
  end.

Definition newest_first {A} (sequence : A -> Z) (id : A -> jstr) (l : list A) : list A :=
  sort_by (fun a b => (sequence b <? sequence a) ||
    ((sequence a =? sequence b) && str_ltb (id a) (id b))) l.
Definition oldest_first {A} (sequence : A -> Z) (id : A -> jstr) (l : list A) : list A :=
  sort_by (fun a b => (sequence a <? sequence b) ||
    ((sequence a =? sequence b) && str_ltb (id a) (id b))) l.

Definition goal_workers (s : ConversationState) (running : bool) : list Worker :=
  match cs_currentGoal s with
  | None => []
  | Some g => List.filter (fun w => (wk_goalId w =?s gl_goalId g) &&
                eqb (bool_decide (wk_status w = WRunning)) running) (cs_workers s)
  end.

Definition project_worker (w : Worker) : jstr * jstr * WorkerStatus :=
  (wk_workerId w, boundedUtf8Text (wk_purpose w) MAX_PROJECTED_WORKER_PURPOSE_BYTES, wk_status w).

(** The mandatory control state. *)
Definition control_state (s : ConversationState) : ContextProjection :=
  let terminal := newest_first wk_spawnedSequence wk_workerId (goal_workers s false) in
  mkProjection (cs_epoch s) (cs_invariants s) (cs_facts s) (cs_currentGoal s)
    (fst <$> cs_currentFlowCheckpoint s)
    (oldest_first cm_openedSequence cm_commitmentId
      (List.filter (fun c => bool_decide (cm_resolution c = None)) (cs_commitments s)))
    (project_worker <$> (goal_workers s true ++ take MAX_PROJECTED_TERMINAL_WORKERS_PER_GOAL terminal))
    (Z.max 0 (Z.of_nat (length terminal) - Z.of_nat MAX_PROJECTED_TERMINAL_WORKERS_PER_GOAL))
    [] [].

(** An accepted worker fact that still holds under the current goal, epoch and facts. *)
Definition remains_current (s : ConversationState) (f : AcceptedWorkerFact) : bool :=
  bool_decide (Some (af_goalId f) = gl_goalId <$> cs_currentGoal s) && (af_policyEpoch f =? cs_epoch s) &&
  forallb (fun d => bool_decide
    (ft_revision <$> List.find (fun a => ft_key a =?s dp_key d) (cs_facts s) = Some (dp_revision d)))
    (af_dependencies f).

(** [latestWorkerFactByKey.values()] *)
Definition latest_worker_facts (s : ConversationState) : list AcceptedWorkerFact :=
  (spread [] ((fun f => (wf_key (af_fact f), f)) <$>
    List.filter (remains_current s) (cs_acceptedWorkerFacts s))).*2.

Inductive ProjectionError : Type :=
| BadBudget | EnvelopeTooLarge | TooManyWorkers | ContextOverflow (budget required : Z) | ProjectionThrows.

Record ProjectedContext := {
  px_value : ContextProjection;
  px_serialized : jstr;
  px_byteLength : Z;
}.

Definition empty_projection (epoch : Z) : ContextProjection := mkProjection epoch [] [] None None [] [] 0 [] [].

Definition projectConversationContext (s : ConversationState) (byteBudget : Z)
  : result ProjectionError ProjectedContext :=
  raise BadBudget when (byteBudget <? MIN_CONTEXT_BYTES) || (MAX_CONTEXT_BYTES <? byteBudget) ;;
  raise EnvelopeTooLarge when
    match projectionBytes (empty_projection (cs_epoch s)) with Some b => byteBudget <? b | None => true end ;;
  raise TooManyWorkers when (MAX_ACTIVE_WORKERS_PER_GOAL <? length (goal_workers s true))%nat ;;
  match projectionBytes (control_state s) with
  | None => Err ProjectionThrows
  | Some required =>
      raise ContextOverflow byteBudget required when byteBudget <? required ;;
      let optional :=
        let* p := add_fitting add_worker_fact byteBudget (control_state s)
          (newest_first af_acceptedSequence (fun f => wf_key (af_fact f)) (latest_worker_facts s)) in
        add_fitting add_advisory byteBudget p
          (newest_first ad_sequence ad_episodeId (cs_advisories s)) in
      match optional with
      | Err _ => Err ProjectionThrows
      | Ok p =>
          match canonicalJson (projection_json p) with
          | None => Err ProjectionThrows
          | Some t => Ok {| px_value := p; px_serialized := t; px_byteLength := utf8_length t |}
          end
      end
  end.
End Kernel.

End Conversation.
