(* ===== verification/ConversationLog.v ===== *)
(** * Integrity of the conversation log

    Appending preserves validity and extends the log, replays change nothing, and the
    head hash identifies the whole history. *)

From S2P Require Import Prelude JsValue JsText Canonical Graph Flow FlowValidate FlowRuntime.
From S2P Require Import Conversation.
Import Conversation.

Local Open Scope Z_scope.

Section Log.
Context `{HS : Sha256}.
Implicit Types (log : ConversationLog) (e : ConversationEvent) (d : EventDraft)
  (events : list ConversationEvent).

Definition valid_log log : Prop := validateConversationLog log = Ok tt.

Definition ids events : list jstr := (fun e => dr_eventId (ce_draft e)) <$> events.

(** One event in its place in the chain. *)
Definition linked (cid : jstr) (sequence : Z) (previous : jstr) e : Prop :=
  EventSchema e = true /\ ce_conversationId e = cid /\ ce_sequence e = sequence /\
  ce_previousHash e = previous /\ eventHash e = Some (ce_hash e).

Definition head_from (previous : jstr) events : jstr :=
  match last events with Some e => ce_hash e | None => previous end.

Lemma validate_cons cid sequence previous seen e events :
  validate_events cid sequence previous seen (e :: events) = Ok tt <->
  linked cid sequence previous e /\ (dr_eventId (ce_draft e) ∉ seen) /\
  validate_events cid (sequence + 1) (ce_hash e) (dr_eventId (ce_draft e) :: seen) events = Ok tt.
Proof.
  unfold linked. cbn [validate_events]. split.
  - intros H. split_guards H. to_prop. by split_and!.
  - intros ((H1 & H2 & H3 & H4 & H5) & H6 & H7).
    rewrite H1, H2, H3, H4, H5, !str_eqb_refl, Z.eqb_refl, (proj2 (includes_false _ _) H6). cbn [negb].
    rewrite bool_decide_eq_true_2 by done. exact H7.
Qed.

Lemma head_from_cons previous e events : head_from previous (e :: events) = head_from (ce_hash e) events.
Proof. unfold head_from. rewrite last_cons. by destruct (last events). Qed.

Lemma validate_snoc cid events e : forall sequence previous seen,
  validate_events cid sequence previous seen (events ++ [e]) = Ok tt <->
  validate_events cid sequence previous seen events = Ok tt /\
  linked cid (sequence + Z.of_nat (length events)) (head_from previous events) e /\
  (dr_eventId (ce_draft e) ∉ ids events) /\ (dr_eventId (ce_draft e) ∉ seen).
Proof.
  induction events as [|e0 events IH]; intros sequence previous seen.
  - simpl app. rewrite validate_cons. cbn [length Z.of_nat head_from last ids fmap list_fmap validate_events].
    rewrite Z.add_0_r. set_solver.
  - simpl app. rewrite !validate_cons, IH, head_from_cons. cbn [length ids fmap list_fmap].
    replace (sequence + 1 + Z.of_nat (length events)) with (sequence + Z.of_nat (S (length events))) by lia.
    rewrite !not_elem_of_cons. unfold ids. naive_solver.
Qed.

Lemma applyEvents_app s events events' :
  applyEvents s (events ++ events') = (let* s' := applyEvents s events in applyEvents s' events').
Proof.
  revert s; induction events as [|e events IH]; intros s; simpl; [done|].
  destruct (applyEvent s e); simpl; [apply IH | done].
Qed.

Lemma find_event_none id events : find_event id events = None <-> id ∉ ids events.
Proof.
  unfold find_event, ids. rewrite find_none_elem, list_elem_of_fmap. split.
  - intros H [e [-> He]]. specialize (H e He). by rewrite str_eqb_refl in H.
  - intros H e He. apply str_eqb_neq. intros <-. apply H. eauto.
Qed.

Lemma find_event_app id events new e :
  find_event id events = Some e -> find_event id (events ++ new) = Some e.
Proof.
  unfold find_event. induction events as [|e0 events IH]; simpl; [done|].
  destruct (_ =?s id); [done | apply IH].
Qed.

(** A draft is logged when the event under its id carries the same canonical content. *)
Definition logged events d : Prop :=
  exists e, find_event (dr_eventId d) events = Some e /\
    canonicalJson (JObj (draft_fields (ce_draft e))) = canonicalJson (JObj (draft_fields d)).

Lemma logged_app events new d : logged events d -> logged (events ++ new) d.
Proof. intros (e & He & Hc). exists e. split; [by apply find_event_app | done]. Qed.

(** What a successful run of the drafts' loop leaves. *)
Definition chain_ok cid events : Prop := validate_events cid 1 GENESIS_HASH [] events = Ok tt.

Lemma seal_linked cid events d e :
  seal cid events d = Some e -> EventSchema e = true ->
  linked cid (1 + Z.of_nat (length events)) (head_from GENESIS_HASH events) e /\ ce_draft e = d.
Proof.
  unfold seal. intros H Hs. apply bind_Some in H as (h & Hh & H). simplify_eq/=.
  split; [|done]. unfold linked, eventHash, event_unsigned, head_from, headHash in *. simpl.
  split_and!; try done; lia.
Qed.

(** The outcome of the drafts' loop: the chain grows at its end, the state keeps up with
    it, every draft is logged and every new event is one of the drafts. *)
Record appended cid events ds events' : Prop := {
  ap_chain : chain_ok cid events';
  ap_fold : is_ok (applyEvents emptyMutableState events') = true;
  ap_schema : forallb EventDraftSchema ds = true;
  ap_new : exists new, events' = events ++ new /\ sublist (ce_draft <$> new) ds;
  ap_logged : Forall (logged events') ds;
}.

Lemma append_drafts_spec cid ds : forall s events events',
  chain_ok cid events -> applyEvents emptyMutableState events = Ok s ->
  append_drafts cid s events ds = Ok events' -> appended cid events ds events'.
Proof.
  induction ds as [|d ds IH]; intros s events events' Hc Hs H; cbn [append_drafts] in H.
  { simplify_eq. constructor; [done | by rewrite Hs | done | exists []; by rewrite app_nil_r | done]. }
  destruct (EventDraftSchema d) eqn:Hd; [cbn [negb] in H | discriminate H].
  destruct (find_event (dr_eventId d) events) as [e0|] eqn:Hf.
  - split_guards H. to_prop. destruct (IH _ _ _ Hc Hs H) as [H1 H2 H3 (new & -> & Hn) H5].
    constructor; [done..| | |]; [by cbn [forallb]; rewrite Hd | exists new; by split; [|constructor]|].
    constructor; [|done]. apply logged_app. by exists e0.
  - destruct (seal cid events d) as [e|] eqn:Hseal; [|discriminate H].
    split_guards H. to_prop. destruct (applyEvent s e) as [s'|] eqn:Ha; cbn [bind_result] in H; [|discriminate H].
    destruct (seal_linked _ _ _ _ Hseal) as [Hl Hde]; [done|].
    apply find_event_none in Hf.
    assert (chain_ok cid (events ++ [e])) as Hc'.
    { apply validate_snoc. rewrite Hde. split_and!; [done | done | done | set_solver]. }
    assert (applyEvents emptyMutableState (events ++ [e]) = Ok s') as Hs'.
    { rewrite applyEvents_app, Hs. cbn [bind_result applyEvents]. by rewrite Ha. }
    destruct (IH _ _ _ Hc' Hs' H) as [H1 H2 H3 (new & -> & Hn) H5].
    constructor; [done..| | |]; [by cbn [forallb]; rewrite Hd | |].
    + exists (e :: new). rewrite <- app_assoc. split; [done|]. csimpl. rewrite Hde. by constructor.
    + constructor; [|done]. apply logged_app. exists e. rewrite Hde. split; [|done].
      apply find_snoc; [by apply find_event_none | rewrite Hde; apply str_eqb_refl].
Qed.

(** Drafts that are all logged already leave the events as they are. *)
Lemma append_logged cid ds : forall s events,
  forallb EventDraftSchema ds = true -> Forall (logged events) ds ->
  append_drafts cid s events ds = Ok events.
Proof.
  induction ds as [|d ds IH]; intros s events Hd Hl; cbn [append_drafts]; [done|].
  cbn [forallb] in Hd. to_prop. apply Forall_cons in Hl as [(e & He & Hc) Hl].
  rewrite H, He. cbn [negb]. rewrite bool_decide_eq_true_2 by done. by apply IH.
Qed.

Lemma valid_chain log : valid_log log -> chain_ok (lg_conversationId log) (lg_events log).
Proof. unfold valid_log, validateConversationLog. intros H. split_guards H. exact H. Qed.

Lemma valid_with_events log events :
  valid_log log -> chain_ok (lg_conversationId log) events ->
  valid_log {| lg_version := lg_version log; lg_conversationId := lg_conversationId log;
               lg_events := events |}.
Proof.
  unfold valid_log, validateConversationLog. simpl. intros H Hc. by split_guards H.
Qed.

Lemma append_Ok log ds log' :
  appendConversationEvents log ds = Ok log' ->
  valid_log log /\
  exists s, applyEvents emptyMutableState (lg_events log) = Ok s /\
    append_drafts (lg_conversationId log) s (lg_events log) ds = Ok (lg_events log') /\
    lg_version log' = lg_version log /\ lg_conversationId log' = lg_conversationId log.
Proof.
  unfold appendConversationEvents, valid_log. intros H.
  destruct (validateConversationLog log) as [[]|] eqn:Hv; cbn [bind_result] in H; [|discriminate H].
  destruct (applyEvents _ _) as [s|] eqn:Hs; cbn [bind_result] in H; [|discriminate H].
  destruct (append_drafts _ _ _ _) as [evs|] eqn:Ha; cbn [bind_result] in H; [|discriminate H].
  simplify_eq/=. split; [done|]. eauto 10.
Qed.

Lemma append_valid log ds log' :
  appendConversationEvents log ds = Ok log' ->
  valid_log log' /\ appended (lg_conversationId log) (lg_events log) ds (lg_events log').
Proof.
  intros (Hv & s & Hs & Ha & Hver & Hcid)%append_Ok.
  pose proof (append_drafts_spec _ _ _ _ _ (valid_chain _ Hv) Hs Ha) as Hap.
  split; [|done]. destruct log' as [v c es]. simpl in *. subst.
  apply (valid_with_events log es Hv), Hap.
Qed.

Lemma append_drafts_app cid ds ds' : forall s events,
  applyEvents emptyMutableState events = Ok s ->
  append_drafts cid s events (ds ++ ds') =
  (let* events' := append_drafts cid s events ds in
   let* s' := applyEvents emptyMutableState events' in append_drafts cid s' events' ds').
Proof.
  induction ds as [|d ds IH]; intros s events Hs.
  { cbn [app append_drafts bind_result]. by rewrite Hs. }
  cbn [app append_drafts]. destruct (negb (EventDraftSchema d)); [done|].
  destruct (find_event (dr_eventId d) events) as [e0|].
  - destruct (negb _); [done | by apply IH].
  - destruct (seal cid events d) as [e|]; [|done].
    destruct (negb _); [done|]. destruct (match flowJsonBytes _ with Some _ => _ | None => _ end); [done|].
    destruct (applyEvent s e) as [s'|] eqn:Ha; cbn [bind_result]; [|done].
    apply IH. rewrite applyEvents_app, Hs. cbn [bind_result applyEvents]. by rewrite Ha.
Qed.

(** ** Identity of the history *)

Lemma unsigned_keys cid n p d : NoDup (keys (unsigned_fields cid n p d)).
Proof. apply (bool_decide_unpack _). vm_compute. exact I. Qed.

(** An event's digest fixes its content, its position and its predecessor's digest. *)
Lemma linked_hash cid cid' n n' p p' e e' :
  linked cid n p e -> linked cid' n' p' e' -> ce_hash e = ce_hash e' ->
  val_ok (event_unsigned e) -> val_ok (event_unsigned e') ->
  (norm (event_unsigned e) = norm (event_unsigned e') /\ n = n' /\ p = p') \/ collision.
Proof.
  intros (_ & _ & Hn & Hp & He) (_ & _ & Hn' & Hp' & He') Hh Hv Hv'.
  rewrite <- Hh in He'. destruct (hashFlowValue_inj _ _ _ Hv Hv' He He') as [E|?]; [left|by right].
  split; [exact E|]. unfold event_unsigned in E.
  pose proof (fun k => norm_own _ _ k (unsigned_keys _ _ _ _) (unsigned_keys _ _ _ _) E) as Hk.
  pose proof (Hk (js "sequence")) as H1. pose proof (Hk (js "previousHash")) as H2. clear Hk E.
  change (Some (norm (jnat (ce_sequence e))) = Some (norm (jnat (ce_sequence e')))) in H1.
  change (Some (JStr (ce_previousHash e)) = Some (JStr (ce_previousHash e'))) in H2.
  unfold jnat in H1. cbn [norm] in H1. rewrite !drop_neg_zero_of_Z in H1.
  injection H1 as H1%num_of_Z_inj. injection H2 as H2. split; congruence.
Qed.

Lemma same_head_same_events cid cid' events : forall events',
  length events = length events' ->
  chain_ok cid events -> chain_ok cid' events' -> headHash events = headHash events' ->
  Forall (fun e => val_ok (event_unsigned e)) (events ++ events') ->
  Forall2 (fun e e' => norm (event_unsigned e) = norm (event_unsigned e')) events events' \/ collision.
Proof.
  induction events as [|e events IH] using rev_ind; intros events' Hlen Hc Hc' Hh Hv.
  { destruct events'; [by left | discriminate Hlen]. }
  destruct events' as [|e' events' _] using rev_ind; [rewrite length_app in Hlen; simpl in Hlen; lia|].
  rewrite !length_app in Hlen. simpl in Hlen.
  apply validate_snoc in Hc as (Hc & Hl & _), Hc' as (Hc' & Hl' & _).
  unfold headHash in Hh. rewrite !last_snoc in Hh. rewrite !Forall_app, !Forall_singleton in Hv.
  destruct Hv as [[Hv1 Hv2] [Hv3 Hv4]].
  destruct (linked_hash _ _ _ _ _ _ _ _ Hl Hl' Hh Hv2 Hv4) as [(E & _ & Hp)|?]; [|by right].
  destruct (IH events') as [H|?]; [lia | done..| by apply Forall_app | | by right].
  left. apply Forall2_app; [done | by repeat constructor].
Qed.

(** ** Theorems *)

(** Appending drafts to a log yields a valid log that folds again and extends the old
    one at its end: the earlier events are untouched, the new events carry drafts of the
    batch in the batch's order, and every draft of the batch is in the log under its
    event id with the same canonical content. *)
Theorem append_extends_log log ds log' :
  appendConversationEvents log ds = Ok log' ->
  valid_log log' /\ is_ok (foldConversation log') = true /\
  (exists new, lg_events log' = lg_events log ++ new /\ sublist (ce_draft <$> new) ds) /\
  Forall (logged (lg_events log')) ds.
Proof.
  intros [Hv [H1 H2 H3 H4 H5]]%append_valid. split_and!; [done | | done | done].
  unfold foldConversation. rewrite Hv. cbn [bind_result].
  destruct (applyEvents _ _); [done | discriminate H2].
Qed.

(** Replays are idempotent: once a batch has been appended, appending any of its
    drafts again, in any order and any number of times, returns the same log. *)
Theorem append_replay log ds log' ds' :
  appendConversationEvents log ds = Ok log' -> (forall d, d ∈ ds' -> d ∈ ds) ->
  appendConversationEvents log' ds' = Ok log'.
Proof.
  intros [Hv [H1 H2 H3 H4 H5]]%append_valid Hsub. unfold appendConversationEvents. rewrite Hv.
  cbn [bind_result]. destruct (applyEvents _ _) as [s|]; [cbn [bind_result] | discriminate H2].
  rewrite append_logged; [by destruct log' | |].
  - rewrite forallb_elem in *. auto.
  - rewrite Forall_forall in *. auto.
Qed.

(** A batch is the sequence of its parts: appending two batches at once gives the
    result, or the error, of appending them one after the other. *)
Theorem append_batch log ds ds' :
  appendConversationEvents log (ds ++ ds') =
  (let* log' := appendConversationEvents log ds in appendConversationEvents log' ds').
Proof.
  destruct (appendConversationEvents log ds) as [log'|err] eqn:E.
  - pose proof (append_valid _ _ _ E) as [Hv' _]. apply append_Ok in E as (Hv & s & Hs & Ha & Hver & Hcid).
    cbn [bind_result]. unfold appendConversationEvents. rewrite Hv, Hs, Hv'. cbn [bind_result].
    rewrite append_drafts_app, Ha by done. cbn [bind_result].
    rewrite Hver, Hcid. destruct (applyEvents emptyMutableState (lg_events log')); reflexivity.
  - cbn [bind_result]. unfold appendConversationEvents in *.
    destruct (validateConversationLog log); cbn [bind_result] in *; [|done].
    destruct (applyEvents _ _) as [s|] eqn:Hs; cbn [bind_result] in *; [|done].
    rewrite append_drafts_app by done. destruct (append_drafts _ _ _ ds); cbn [bind_result] in *; [discriminate E|].
    done.
Qed.

(** The head hash commits to the whole history: two valid non-empty logs with the same
    head hash have the same number of events, and the events agree pairwise in everything
    that is hashed (conversation, position, predecessor and draft, up to the order of
    object properties), unless SHA-256 collides. *)
Theorem head_hash_commits log log' :
  valid_log log -> valid_log log' -> lg_events log <> [] -> lg_events log' <> [] ->
  Forall (fun e => val_ok (event_unsigned e)) (lg_events log ++ lg_events log') ->
  headHash (lg_events log) = headHash (lg_events log') ->
  (length (lg_events log) = length (lg_events log') /\
   Forall2 (fun e e' => norm (event_unsigned e) = norm (event_unsigned e'))
     (lg_events log) (lg_events log')) \/ collision.
Proof.
  intros Hc%valid_chain Hc'%valid_chain Hne Hne' Hv Hh.
  enough (length (lg_events log) = length (lg_events log') \/ collision) as [Hlen|?]; [|by right|].
  { destruct (same_head_same_events _ _ _ _ Hlen Hc Hc' Hh Hv); [by left | by right]. }
  destruct (lg_events log) as [|e es _] using rev_ind; [done|].
  destruct (lg_events log') as [|e' es' _] using rev_ind; [done|].
  apply validate_snoc in Hc as (_ & Hl & _), Hc' as (_ & Hl' & _).
  unfold headHash in Hh. rewrite !last_snoc in Hh. rewrite !Forall_app, !Forall_singleton in Hv.
  destruct (linked_hash _ _ _ _ _ _ _ _ Hl Hl' Hh) as [(_ & Hn & _)|?]; [tauto.. | left | by right].
  rewrite !length_app. simpl. lia.
Qed.
End Log.
