(* ===== verification/ConversationState.v ===== *)
(** * The state folded from a conversation log

    Invariants of the fold over valid events, authoritative facts against a reference
    definition, and the admission of worker deliveries. *)

From S2P Require Import Prelude JsValue JsText Canonical Graph Flow FlowValidate FlowRuntime.
From S2P Require Import Conversation ConversationLog.
Import Conversation.

Local Open Scope Z_scope.

(** ** Values of maps under [set] *)

Section Put.
Context {V : Type}.
Implicit Types (k : jstr) (v : V) (o : obj V).

Lemma values_put_new k v o : own k o = None -> (put k v o).*2 = o.*2 ++ [v].
Proof.
  induction o as [|[k' v'] o IH]; simpl; [done|]. destruct (k =?s k'); [done|].
  intros H. simpl. f_equal. by apply IH.
Qed.

Lemma count_put (p : V -> bool) k v o :
  p v = false -> (length (List.filter p (put k v o).*2) <= length (List.filter p o.*2))%nat.
Proof.
  intros Hv. induction o as [|[k' v'] o IH]; csimpl; [by rewrite Hv|].
  destruct (k =?s k'); csimpl; [rewrite Hv; destruct (p v'); csimpl; lia|].
  destruct (p v'); csimpl; lia.
Qed.
End Put.

Section State.
Context `{HS : Sha256}.
Implicit Types (s : State) (e : ConversationEvent) (d : Delivery) (events : list ConversationEvent).

(** ** The invariant of the folded state *)

Record consistent s : Prop := {
  cn_goal_keys : NoDup (keys (s_goals s));
  cn_goal_ids : forall k g, own k (s_goals s) = Some g -> gl_goalId g = k /\ k <> [];
  cn_active : forall k g, own k (s_goals s) = Some g ->
    (gl_status g = GActive <-> s_currentGoalId s = Some k);
  cn_current : forall k, s_currentGoalId s = Some k -> is_Some (own k (s_goals s));
  cn_worker_keys : NoDup (keys (s_workers s));
  cn_running : forall goalId, (length (running_workers s goalId) <= MAX_ACTIVE_WORKERS_PER_GOAL)%nat;
}.

Lemma consistent_empty : consistent emptyMutableState.
Proof. constructor; simpl; try done; try constructor. intros. unfold MAX_ACTIVE_WORKERS_PER_GOAL. lia. Qed.

(** Operations that leave goals and workers alone keep the invariant. *)
Lemma consistent_frame s s' :
  s_goals s' = s_goals s -> s_currentGoalId s' = s_currentGoalId s -> s_workers s' = s_workers s ->
  consistent s -> consistent s'.
Proof. intros Eg Ec Ew []. constructor; unfold running_workers; rewrite ?Eg, ?Ec, ?Ew; done. Qed.

Lemma consistent_worker_status s id st w :
  st <> WRunning -> consistent s -> consistent (set_worker_status id st w s).
Proof.
  intros Hst []. constructor; try done; [by apply NoDup_keys_put|].
  intros goalId. etransitivity; [|apply (cn_running0 goalId)].
  apply count_put. simpl. by rewrite bool_decide_eq_false_2, andb_false_r.
Qed.

(** A goal's status changes and the current goal follows. *)
Lemma consistent_goal_status s id g st current :
  own id (s_goals s) = Some g ->
  (forall k, s_currentGoalId s = Some k -> k = id) ->
  (st = GActive <-> current = Some id) -> (forall k, current = Some k -> k = id) ->
  consistent s -> consistent (set_goals (put id (with_goal_status st g) (s_goals s)) current s).
Proof.
  intros Hg Hold Hst Hnew []. destruct (cn_goal_ids0 _ _ Hg) as [Hid Hne].
  constructor; simpl; try done; [by apply NoDup_keys_put| | |].
  - intros k g'. rewrite own_put. destruct (k =?s id) eqn:E; to_prop; [|by apply cn_goal_ids0].
    intros [= <-]. subst k. by split.
  - intros k g'. rewrite own_put. destruct (k =?s id) eqn:E; to_prop.
    + intros [= <-]. by subst k.
    + intros Hg'. rewrite (cn_active0 _ _ Hg'). split; intros H; [by apply Hold in H | by apply Hnew in H].
  - intros k Hk. rewrite (Hnew _ Hk), own_put_eq. eauto.
Qed.

Lemma consistent_activate s id description sequence :
  id <> [] -> own id (s_goals s) = None -> consistent s ->
  consistent (activate_goal s id description sequence).
Proof.
  intros Hne Hid Hc. unfold activate_goal.
  set (goals := match _ with Some _ => _ | None => s_goals s end).
  assert (NoDup (keys goals) /\ own id goals = None /\
    forall k g, own k goals = Some g -> gl_goalId g = k /\ k <> [] /\ gl_status g <> GActive)
    as (Hnd & Hid' & Hgs).
  { destruct Hc as [H1 H2 H3 H4 _ _]. unfold goals.
    destruct (s_currentGoalId s) as [c|] eqn:Ec; simpl.
    2:{ split_and!; [done..|]. intros k g Hg. destruct (H2 _ _ Hg).
        rewrite (H3 _ _ Hg). by split_and!. }
    destruct (H4 c eq_refl) as [prior Hp]. destruct (H2 _ _ Hp) as [Hpi Hpn].
    destruct c as [|c0 c]; [done|]. simpl. rewrite Hp. simpl.
    rewrite bool_decide_eq_true_2 by (by apply (H3 _ _ Hp)).
    split_and!; [by apply NoDup_keys_put | rewrite own_put_ne; [done|congruence]|].
    intros k g. rewrite own_put. destruct (k =?s c0 :: c) eqn:E; to_prop.
    - intros [= <-]. subst k. by split_and!.
    - intros Hg. destruct (H2 _ _ Hg). rewrite (H3 _ _ Hg). split_and!; [done..|congruence]. }
  destruct Hc as [H1 H2 H3 H4 H5 H6]. constructor; simpl; try done; [by apply NoDup_keys_put| | |].
  - intros k g. rewrite own_put. destruct (k =?s id) eqn:E; to_prop; [intros [= <-]; by subst k|].
    intros Hg. by destruct (Hgs _ _ Hg) as (? & ? & _).
  - intros k g. rewrite own_put. destruct (k =?s id) eqn:E; to_prop; [intros [= <-]; by subst k|].
    intros Hg. destruct (Hgs _ _ Hg) as (_ & _ & ?). split; [done|]. intros [= <-]. done.
  - intros k [= <-]. rewrite own_put_eq. eauto.
Qed.

Lemma consistent_spawn s id goalId purpose epoch deps sequence s' :
  spawn_worker s id goalId purpose epoch deps sequence = Ok s' -> consistent s -> consistent s'.
Proof.
  unfold spawn_worker. intros H []. split_guards H. simplify_eq. to_prop.
  assert (own id (s_workers s) = None) as Hid by (unfold has_own in *; by destruct (own id _)).
  constructor; try done; [by apply NoDup_keys_put|].
  intros goal. unfold running_workers in *. simpl. rewrite values_put_new by done.
  rewrite List.filter_app, length_app. specialize (cn_running0 goal). simpl.
  destruct (goalId =?s goal) eqn:E; simpl; [|lia]. to_prop. subst goal.
  match goal with H : (_ <=? _)%nat = false |- _ => apply Nat.leb_gt in H end. lia.
Qed.

Lemma consistent_delivery s d eventId sequence s' :
  apply_delivery s d eventId sequence = Ok s' -> consistent s -> consistent s'.
Proof.
  unfold apply_delivery. intros H Hc. destruct (hashFlowValue _) as [hash|]; [|discriminate H].
  destruct (match own _ (s_logicalDeliveries s) with Some (h, _) => _ | None => false end); [discriminate H|].
  destruct (match own _ (s_logicalDeliveries s) with Some (_, st) => _ | None => false end).
  { simplify_eq. by apply (consistent_frame s). }
  destruct (judge_delivery s d _) as [status reason]. simplify_eq. set (s1 := set_deliveries _ _ s).
  assert (consistent s1) as Hc1 by by apply (consistent_frame s).
  destruct (own (dl_workerId d) (s_workers s)) as [w|]; [|done].
  destruct (bool_decide (status = DAccepted)).
  - unfold accept_delivery. eapply consistent_frame; [..|apply consistent_worker_status; [|exact Hc1]]; done.
  - destruct (_ && _); [|done]. by apply consistent_worker_status.
Qed.

Lemma active_goal_spec s id g :
  active_goal s id = Some g ->
  own id (s_goals s) = Some g /\ gl_status g = GActive /\ s_currentGoalId s = Some id.
Proof.
  unfold active_goal. intros (g' & Hg & H)%bind_Some. destruct (_ && _) eqn:E; [|done].
  to_prop. simplify_eq. done.
Qed.

Lemma consistent_leave s id st g :
  st <> GActive -> active_goal s id = Some g -> consistent s ->
  consistent (set_goals (put id (with_goal_status st g) (s_goals s)) None s).
Proof.
  intros Hst (Hg & _ & Hcur)%active_goal_spec Hc.
  apply consistent_goal_status; [done | | done | done | done]. intros k Hk. congruence.
Qed.

Lemma IdSchema_nonempty id : IdSchema id = true -> id <> [].
Proof. by destruct id. Qed.

Lemma consistent_step s e s' :
  EventSchema e = true -> applyEvent s e = Ok s' -> consistent s -> consistent s'.
Proof.
  intros Hs H Hc. unfold EventSchema, EventDraftSchema in Hs. to_prop.
  unfold applyEvent in H.
  destruct (dr_payload (ce_draft e)) eqn:Hp; cbn [PayloadSchema] in *;
    try by (split_guards H; simplify_eq; apply (consistent_frame s)).
  - split_guards H. simplify_eq. to_prop.
    apply consistent_activate; [by apply IdSchema_nonempty | | done].
    unfold has_own in *. by destruct (own _ _).
  - destruct (active_goal s goalId) eqn:Ha; simplify_eq. by apply consistent_leave.
  - destruct (active_goal s goalId) eqn:Ha; simplify_eq. by apply consistent_leave.
  - split_guards H. simplify_eq. to_prop. apply consistent_goal_status; try done; [|naive_solver].
    intros k Hk. exfalso. destruct (cn_current _ Hc _ Hk) as [g' Hg'].
    destruct (cn_goal_ids _ Hc _ _ Hg') as [_ Hne].
    match goal with H : ~ (truthy _ <> None) |- _ => apply H end.
    by rewrite (proj2 (truthy_Some _ _) (conj Hk Hne)).
  - unfold apply_checkpoint in H. split_guards H; simplify_eq; by apply (consistent_frame s).
  - by eapply consistent_spawn.
  - unfold running_worker in H. split_guards H. simplify_eq. by apply consistent_worker_status.
  - split_guards H. simplify_eq. apply consistent_worker_status; [by destruct status | done].
  - by eapply consistent_delivery.
Qed.

Lemma fold_invariant (P : State -> Prop) :
  P emptyMutableState ->
  (forall s e s', EventSchema e = true -> applyEvent s e = Ok s' -> P s -> P s') ->
  forall events s, Forall (fun e => EventSchema e = true) events ->
  applyEvents emptyMutableState events = Ok s -> P s.
Proof.
  intros H0 Hstep events. induction events as [|e events IH] using rev_ind; intros s Hev H.
  { by injection H as <-. }
  rewrite Forall_app, Forall_singleton in Hev. destruct Hev as [Hev He]. rewrite applyEvents_app in H.
  destruct (applyEvents _ events) as [s1|] eqn:Hs; cbn [bind_result] in H; [|discriminate H].
  cbn [applyEvents] in H. destruct (applyEvent s1 e) as [s2|] eqn:Ha; [|discriminate H].
  injection H as <-. exact (Hstep _ _ _ He Ha (IH _ Hev eq_refl)).
Qed.

Lemma validate_schema cid events : forall sequence previous seen,
  validate_events cid sequence previous seen events = Ok tt -> Forall (fun e => EventSchema e = true) events.
Proof.
  induction events as [|e events IH]; intros sequence previous seen; [constructor|].
  intros [[Hs _] [_ Hv]]%validate_cons. constructor; [done|]. by eapply IH.
Qed.

Lemma fold_Ok log cs :
  foldConversation log = Ok cs ->
  Forall (fun e => EventSchema e = true) (lg_events log) /\
  exists s, applyEvents emptyMutableState (lg_events log) = Ok s /\ cs = view s (lg_events log).
Proof.
  unfold foldConversation. intros H.
  destruct (validateConversationLog log) as [[]|] eqn:Hv; cbn [bind_result] in H; [|discriminate H].
  split; [by eapply validate_schema, valid_chain|].
  destruct (applyEvents _ _) as [s|]; cbn [bind_result] in H; [|discriminate H].
  injection H as <-. eauto.
Qed.

(** ** Reading the view *)

Lemma elem_of_values {V} (v : V) (o : obj V) : NoDup (keys o) -> v ∈ o.*2 <-> exists k, own k o = Some v.
Proof.
  intros Hnd. rewrite list_elem_of_fmap. split.
  - intros [[k v'] [-> H]]. exists k. by apply elem_of_own.
  - intros [k H%own_elem_of]. by exists (k, v).
Qed.

(** Looking an entry up in the sorted values is looking its key up in the map. *)
Lemma find_view {V} (id : V -> jstr) (o : obj V) k :
  NoDup (keys o) -> (forall k v, own k o = Some v -> id v = k) ->
  List.find (fun v => id v =?s k) (sortById id o.*2) = own k o.
Proof.
  intros Hnd Hid. unfold sortById.
  assert (forall v, v ∈ sort_by (fun a b => str_ltb (id a) (id b)) o.*2 <-> own (id v) o = Some v) as Hel.
  { intros v. rewrite elem_of_sort_by, elem_of_values by done. split; [|by eauto].
    intros [k' H]. by rewrite (Hid _ _ H). }
  destruct (own k o) as [v|] eqn:E.
  - destruct (List.find _ _) as [v'|] eqn:F.
    + apply find_elem in F as [Hv' Hk]. to_prop. apply Hel in Hv'. congruence.
    + exfalso. rewrite find_none_elem in F. specialize (F v). rewrite (Hid _ _ E), str_eqb_refl in F.
      discriminate F. apply Hel. by rewrite (Hid _ _ E).
  - apply find_none_elem. intros v Hv%Hel. apply str_eqb_neq. congruence.
Qed.

Lemma ids_of_values {V} (id : V -> jstr) (o : obj V) :
  NoDup (keys o) -> (forall k v, own k o = Some v -> id v = k) -> id <$> o.*2 = keys o.
Proof.
  intros Hnd Hid. unfold keys. rewrite <- list_fmap_compose. apply list_fmap_ext.
  intros i [k v] Hi. simpl. apply Hid, elem_of_own; [done|]. by eapply list_elem_of_lookup_2.
Qed.

Lemma NoDup_view {V} (id : V -> jstr) (o : obj V) :
  NoDup (keys o) -> (forall k v, own k o = Some v -> id v = k) -> NoDup (id <$> sortById id o.*2).
Proof.
  intros Hnd Hid. rewrite <- (ids_of_values id o) in Hnd by done.
  unfold sortById. by rewrite sort_by_perm.
Qed.

Definition running_for (goalId : jstr) (w : Worker) : bool :=
  (wk_goalId w =?s goalId) && bool_decide (wk_status w = WRunning).

Lemma filter_perm {A} (p : A -> bool) l l' : l ≡ₚ l' -> List.filter p l ≡ₚ List.filter p l'.
Proof.
  induction 1 as [|x l l' _ IH|x y l|l1 l2 l3 _ IH1 _ IH2]; simpl; [done| | |by etrans].
  - destruct (p x); by rewrite IH.
  - destruct (p x), (p y); try done. apply Permutation_swap.
Qed.

Lemma running_bounded log cs goalId :
  foldConversation log = Ok cs ->
  (length (List.filter (running_for goalId) (cs_workers cs)) <= MAX_ACTIVE_WORKERS_PER_GOAL)%nat.
Proof.
  intros (Hev & s & Hs & ->)%fold_Ok.
  destruct (fold_invariant consistent consistent_empty consistent_step _ _ Hev Hs) as [_ _ _ _ _ H6].
  simpl. unfold sortById. rewrite (filter_perm _ _ _ (sort_by_perm _ _)). apply H6.
Qed.

(** C21. In the state folded from any valid log the goals have distinct ids, a goal is
    active exactly when it is the current goal, and no goal has more than eight running
    workers. *)
Theorem one_active_goal log cs :
  foldConversation log = Ok cs ->
  NoDup (gl_goalId <$> cs_goals cs) /\
  (forall g, g ∈ cs_goals cs -> (gl_status g = GActive <-> cs_currentGoal cs = Some g)) /\
  (forall g, cs_currentGoal cs = Some g -> g ∈ cs_goals cs) /\
  (forall goalId, (length (List.filter (running_for goalId) (cs_workers cs)) <= 8)%nat).
Proof.
  intros Hfold. pose proof (fun g => running_bounded _ _ g Hfold) as H6.
  apply fold_Ok in Hfold as (Hev & s & Hs & ->).
  destruct (fold_invariant consistent consistent_empty consistent_step _ _ Hev Hs) as [H1 H2 H3 H4 H5 _].
  assert (forall k g, own k (s_goals s) = Some g -> gl_goalId g = k) as Hid by (intros; by apply H2).
  split_and!; [..|exact H6]; simpl.
  - by apply NoDup_view.
  - intros g Hg. unfold sortById in Hg. rewrite elem_of_sort_by, elem_of_values in Hg by done.
    destruct Hg as [k Hg]. rewrite (H3 _ _ Hg). destruct (H2 _ _ Hg) as [Hk Hne]. split.
    + intros Hc. rewrite (proj2 (truthy_Some _ _) (conj Hc Hne)). simpl. by rewrite find_view.
    + intros (id & [Hc _]%truthy_Some & Hf)%bind_Some. rewrite find_view in Hf by done.
      rewrite <- Hk, (Hid _ _ Hf). done.
  - intros g (id & _ & Hf)%bind_Some. by apply find_elem in Hf as [Hf _].
Qed.

(** ** Authoritative facts and policy, read off the log *)

(** What an event writes to fact [k]. *)
Definition fact_write (k : jstr) e : option (jsval * AuthorityStamp * Z) :=
  match dr_payload (ce_draft e) with
  | FactAsserted key value authority
  | FactCorrected key value _ _ authority =>
      if key =?s k then Some (value, authority, ce_sequence e) else None
  | _ => None
  end.

(** The reference: the latest write, with the number of writes as its revision. *)
Definition authoritative (k : jstr) events : option AuthoritativeFact :=
  let writes := omap (fact_write k) events in
  (fun '(v, a, n) => {| ft_key := k; ft_value := v; ft_revision := Z.of_nat (length writes);
                        ft_authority := a; ft_sequence := n |}) <$> last writes.

Definition policy_write e : option (list Invariant) :=
  match dr_payload (ce_draft e) with PolicyAdvanced _ invariants => Some invariants | _ => None end.

Lemma applyEvent_frame s e s' :
  applyEvent s e = Ok s' ->
  ((forall k, fact_write k e = None) -> s_facts s' = s_facts s) /\
  (policy_write e = None -> s_epoch s' = s_epoch s /\ s_invariants s' = s_invariants s).
Proof.
  unfold applyEvent, fact_write, policy_write. intros H. destruct (dr_payload (ce_draft e)) eqn:Hp;
    try (split_guards H; simplify_eq; by split).
  - split_guards H. simplify_eq. split; [|done]. intros Hk. specialize (Hk key). by rewrite str_eqb_refl in Hk.
  - split_guards H. simplify_eq. split; [|done]. intros Hk. specialize (Hk key). by rewrite str_eqb_refl in Hk.
  - unfold apply_checkpoint in H. split_guards H; simplify_eq; by split.
  - unfold spawn_worker in H. split_guards H. simplify_eq. by split.
  - unfold apply_delivery in H. split_guards H; simplify_eq; by repeat case_match.
Qed.

Lemma omap_snoc {A B} (f : A -> option B) l x : omap f (l ++ [x]) = omap f l ++ option_list (f x).
Proof. by rewrite omap_app. Qed.

Lemma authoritative_skip k events e :
  fact_write k e = None -> authoritative k (events ++ [e]) = authoritative k events.
Proof. intros H. unfold authoritative. by rewrite omap_snoc, H, app_nil_r. Qed.

Lemma authoritative_write k events e v a n :
  fact_write k e = Some (v, a, n) ->
  authoritative k (events ++ [e]) =
  Some {| ft_key := k; ft_value := v; ft_authority := a; ft_sequence := n;
          ft_revision := default 0 (ft_revision <$> authoritative k events) + 1 |}.
Proof.
  intros H. unfold authoritative. rewrite omap_snoc, H. simpl. rewrite last_snoc, length_app. simpl.
  f_equal. f_equal. destruct (last (omap _ events)) as [[[v' a'] n']|] eqn:E; simpl; [lia|].
  apply last_None in E. rewrite E. done.
Qed.

(** The folded facts are the reference's, and so are the epoch and the invariants. *)
Definition authoritative_state events s : Prop :=
  NoDup (keys (s_facts s)) /\ (forall k, own k (s_facts s) = authoritative k events) /\
  s_epoch s = Z.of_nat (length (omap policy_write events)) /\
  s_invariants s = default [] (last (omap policy_write events)).

Lemma authoritative_fact_step s events e s' key value authority n :
  (forall k, fact_write k e = if key =?s k then Some (value, authority, n) else None) ->
  policy_write e = None ->
  s' = set_facts (put key {| ft_key := key; ft_value := value; ft_authority := authority; ft_sequence := n;
         ft_revision := default 0 (ft_revision <$> own key (s_facts s)) + 1 |} (s_facts s)) s ->
  authoritative_state events s -> authoritative_state (events ++ [e]) s'.
Proof.
  intros Hw Hpw -> (H1 & H2 & H3 & H4). split_and!; simpl; [by apply NoDup_keys_put | |
    by rewrite omap_snoc, Hpw, app_nil_r..].
  intros k. rewrite own_put. specialize (Hw k). destruct (k =?s key) eqn:E; to_prop.
  - subst. rewrite str_eqb_refl in Hw. by rewrite (authoritative_write _ _ _ _ _ _ Hw), H2.
  - rewrite (proj2 (str_eqb_neq key k)) in Hw by congruence. by rewrite (authoritative_skip _ _ _ Hw), H2.
Qed.

Lemma authoritative_step s events e s' :
  applyEvent s e = Ok s' -> authoritative_state events s -> authoritative_state (events ++ [e]) s'.
Proof.
  intros H HA. pose proof (applyEvent_frame _ _ _ H) as [Hf Hp]. unfold applyEvent in H.
  destruct (dr_payload (ce_draft e)) eqn:Hpay;
    try by (destruct HA as (H1 & H2 & H3 & H4); destruct Hp as [He Hi]; [by unfold policy_write; rewrite Hpay|];
      assert (forall k, fact_write k e = None) as Hn by (intros; unfold fact_write; by rewrite Hpay);
      assert (policy_write e = None) as Hn' by (unfold policy_write; by rewrite Hpay);
      unfold authoritative_state; rewrite (Hf Hn), He, Hi, omap_snoc, Hn', app_nil_r; split_and!; try done;
      intros k; rewrite authoritative_skip; done).
  - split_guards H. simplify_eq. unfold has_own in *. destruct (own key (s_facts s)) eqn:Ho; [done|].
    eapply authoritative_fact_step; [intros k; unfold fact_write; by rewrite Hpay
      | unfold policy_write; by rewrite Hpay | by rewrite Ho | done].
  - split_guards H. simplify_eq. to_prop. subst.
    eapply authoritative_fact_step; [intros k; unfold fact_write; by rewrite Hpay
      | unfold policy_write; by rewrite Hpay | | done].
    match goal with H : own key _ = Some _ |- _ => by rewrite H end.
  - split_guards H. simplify_eq. to_prop. destruct HA as (H1 & H2 & H3 & H4).
    assert (policy_write e = Some invariants) as Hpw by (unfold policy_write; by rewrite Hpay).
    split_and!; simpl; [done | | |].
    + intros k. rewrite authoritative_skip; [done|]. unfold fact_write. by rewrite Hpay.
    + rewrite omap_snoc, Hpw, length_app. simpl. lia.
    + rewrite omap_snoc, Hpw. simpl. by rewrite last_snoc.
Qed.

Lemma authoritative_fold events : forall s,
  applyEvents emptyMutableState events = Ok s -> authoritative_state events s.
Proof.
  induction events as [|e events IH] using rev_ind; intros s H.
  { injection H as <-. split_and!; [constructor | done..]. }
  rewrite applyEvents_app in H.
  destruct (applyEvents _ events) as [s1|]; cbn [bind_result] in H; [|discriminate H].
  cbn [applyEvents] in H. destruct (applyEvent s1 e) as [s2|] eqn:Ha; [|discriminate H].
  injection H as <-. apply (authoritative_step _ _ _ _ Ha), IH. done.
Qed.

(** C22. Only authoritative events write facts and policy: in the state folded from a valid
    log, the fact under a key is the latest value a fact event of the log gave it, with that
    event's authority and sequence number and with the number of its fact events as its
    revision; the policy epoch counts the policy events, and the invariants are those of the
    last one. Worker deliveries and advisories change none of them. *)
Theorem facts_are_authoritative log cs :
  foldConversation log = Ok cs ->
  (forall k, List.find (fun f => ft_key f =?s k) (cs_facts cs) = authoritative k (lg_events log)) /\
  cs_epoch cs = Z.of_nat (length (omap policy_write (lg_events log))) /\
  cs_invariants cs = default [] (last (omap policy_write (lg_events log))).
Proof.
  intros (_ & s & Hs & ->)%fold_Ok. destruct (authoritative_fold _ _ Hs) as (H1 & H2 & H3 & H4).
  split; [|by split]. intros k. simpl. rewrite find_view; [apply H2 | done |].
  intros k' v. rewrite H2. unfold authoritative. cbn zeta. destruct (last (omap (fact_write k') _)) as [[[? ?] ?]|]; simpl; [|done].
  by intros [= <-].
Qed.
End State.
