(* ===== verification/ConversationWorkers.v ===== *)
(** * Worker deliveries of a conversation

    When a delivery is accepted, what it was admitted against, and that it is accepted at
    most once. *)

From S2P Require Import Prelude JsValue JsText Canonical Graph Flow FlowValidate FlowRuntime.
From S2P Require Import Conversation ConversationLog ConversationState.
Import Conversation.

Local Open Scope Z_scope.

Section Workers.
Context `{HS : Sha256}.
Implicit Types (s : State) (e : ConversationEvent) (d : Delivery) (w : Worker).

(** ** Dependency declarations *)

Lemma id_char_bound c : is_alnum c || one_of "._:/-" c = true -> (c < 65536)%N.
Proof.
  intros H. destruct (N.ltb_spec c 65536); [done|]. exfalso.
  unfold is_alnum, is_digit, is_lower, is_upper, one_of in H.
  rewrite !orb_true_iff, !andb_true_iff, !N.leb_le, includes_iff in H.
  destruct H as [H|H]; [lia|]. apply (proj1 (Forall_forall _ _) (js_units "._:/-")) in H. lia.
Qed.

Lemma IdSchema_units id : IdSchema id = true -> units_ok id.
Proof.
  destruct id as [|c r]; [done|]. cbn [IdSchema]. intros H. to_prop. constructor.
  - apply id_char_bound. by rewrite H.
  - by apply units_ok_forallb with (1 := id_char_bound).
Qed.

Lemma dependency_ok dep : FactDependencySchema dep = true -> val_ok (dependency_json dep).
Proof.
  unfold FactDependencySchema. intros H. to_prop. apply val_ok_obj.
  split; [apply (bool_decide_unpack _); vm_compute; exact I|].
  repeat constructor; try apply js_units; [by apply IdSchema_units | apply num_of_Z_ok].
Qed.

Lemma dependency_inj a b : norm (dependency_json a) = norm (dependency_json b) -> a = b.
Proof.
  intros E. assert (forall dep, NoDup (keys (field "key" (JStr (dp_key dep)) ++ field "revision" (jnat (dp_revision dep)))))
    as Hnd by (intros; apply (bool_decide_unpack _); vm_compute; exact I).
  pose proof (norm_own _ _ (js "key") (Hnd a) (Hnd b) E) as H1.
  pose proof (norm_own _ _ (js "revision") (Hnd a) (Hnd b) E) as H2. clear E Hnd.
  change (Some (JStr (dp_key a)) = Some (JStr (dp_key b))) in H1.
  change (Some (norm (jnat (dp_revision a))) = Some (norm (jnat (dp_revision b)))) in H2.
  unfold jnat in H2. cbn [norm] in H2. rewrite !drop_neg_zero_of_Z in H2.
  injection H1 as H1. injection H2 as H2%num_of_Z_inj. destruct a, b. simpl in *. congruence.
Qed.

(** The textual comparison of two declarations compares them as sets. *)
Lemma dependenciesMatch_perm a b :
  DependenciesSchema a = true -> DependenciesSchema b = true -> dependenciesMatch a b = true -> a ≡ₚ b.
Proof.
  unfold dependenciesMatch, DependenciesSchema. intros Ha Hb H. to_prop.
  set (srt := sort_by (fun a b => str_ltb (dp_key a) (dp_key b))) in *.
  assert (forall l, forallb FactDependencySchema l = true -> val_ok (JArr (dependency_json <$> srt l))) as Hok.
  { intros l Hl. apply val_ok_arr, Forall_fmap, Forall_forall. intros x Hx. apply dependency_ok.
    unfold srt in Hx. rewrite elem_of_sort_by in Hx. rewrite forallb_elem in Hl. auto. }
  destruct (canonicalJson (JArr (dependency_json <$> srt a))) as [t|] eqn:Et; [|done].
  destruct (canonicalJson (JArr (dependency_json <$> srt b))) as [t'|] eqn:Et'; [|done].
  to_prop. subst t'. pose proof (canonicalJson_inj _ _ _ (Hok a ltac:(done)) (Hok b ltac:(done)) Et Et') as E.
  cbn [norm] in E. injection E as E. rewrite <- !list_fmap_compose in E.
  assert (Inj eq eq (norm ∘ dependency_json)) by (intros x y; apply dependency_inj).
  apply (inj (fmap _)) in E.
  rewrite <- (sort_by_perm (fun a b => str_ltb (dp_key a) (dp_key b)) a).
  rewrite <- (sort_by_perm (fun a b => str_ltb (dp_key a) (dp_key b)) b). fold srt. by rewrite E.
Qed.

(** ** What a step does to workers and deliveries *)

Definition worker_ok (k : jstr) w : Prop :=
  wk_workerId w = k /\ DependenciesSchema (wk_dependencies w) = true.

Definition deps_ok s : Prop := forall k w, own k (s_workers s) = Some w -> worker_ok k w.

Definition accepted s : list DeliveryRecord :=
  List.filter (fun r => bool_decide (dv_status r = DAccepted)) (s_deliveries s).

(** What holds of the state when a delivery is accepted. *)
Record admitted s d : Prop := {
  am_worker : exists w, own (dl_workerId d) (s_workers s) = Some w /\ wk_status w = WRunning /\
    wk_goalId w = dl_goalId d /\ wk_policyEpoch w = dl_policyEpoch d /\ wk_dependencies w ≡ₚ dl_dependencies d;
  am_goal : s_currentGoalId s = Some (dl_goalId d);
  am_epoch : dl_policyEpoch d = s_epoch s;
  am_deps : Forall (fun dep => ft_revision <$> own (dp_key dep) (s_facts s) = Some (dp_revision dep))
    (dl_dependencies d);
}.

Lemma judge_accepts s d w :
  deps_ok s -> DependenciesSchema (dl_dependencies d) = true -> own (dl_workerId d) (s_workers s) = Some w ->
  (judge_delivery s d (Some w)).1 = DAccepted -> admitted s d.
Proof.
  unfold judge_delivery, refuse. intros Hok Hd Hw H.
  destruct (bool_decide (wk_status w = WRunning)) eqn:E1; [|done]. cbn [negb] in H.
  destruct (dl_goalId d =?s wk_goalId w) eqn:E2; [|done]. cbn [negb] in H.
  destruct (bool_decide (gl_status <$> _ = _)) eqn:E3; [done|].
  destruct (bool_decide (s_currentGoalId s = _)) eqn:E4; [|done]. cbn [negb] in H.
  destruct (_ || _) eqn:E5; [done|]. destruct (dependenciesMatch _ _) eqn:E6; [|done]. cbn [negb] in H.
  destruct (existsb _ _) eqn:E7; [done|]. to_prop. rewrite existsb_elem_false in E7.
  assert (wk_dependencies w ≡ₚ dl_dependencies d) as Hp.
  { symmetry. apply dependenciesMatch_perm; [done | apply (Hok _ _ Hw) | done]. }
  constructor; [eauto 10 using eq_sym | done | done|]. rewrite <- Hp. apply Forall_forall. intros dep Hdep.
  specialize (E7 _ Hdep). unfold is_current in E7. by to_prop.
Qed.

Definition worker_facts d (sequence : Z) : list AcceptedWorkerFact :=
  (fun f => {| af_fact := f; af_workerId := dl_workerId d; af_deliveryId := dl_deliveryId d;
               af_goalId := dl_goalId d; af_policyEpoch := dl_policyEpoch d;
               af_dependencies := dl_dependencies d; af_acceptedSequence := sequence |}) <$> dl_facts d.

(** How one event moves the workers: nothing, a running worker reaches another status, or
    a new worker appears. *)
Inductive worker_step (o : obj Worker) : obj Worker -> Prop :=
| ws_same : worker_step o o
| ws_status id w st : own id o = Some w -> wk_status w = WRunning ->
    worker_step o (put id (with_worker_status st w) o)
| ws_new id w : own id o = None -> worker_ok id w -> worker_step o (put id w o).

(** The three outcomes of a delivery. *)
Inductive delivery_step s d (sequence : Z) s' (r : DeliveryRecord) : Prop :=
| ds_accept w h : dv_status r = DAccepted -> dv_appliedSequence r = Some sequence ->
    (judge_delivery s d (Some w)).1 = DAccepted ->
    own (dl_workerId d) (s_workers s) = Some w -> wk_status w = WRunning ->
    (forall h', own (dl_deliveryId d) (s_logicalDeliveries s) <> Some (h', DAccepted)) ->
    s_workers s' = put (dl_workerId d) (with_worker_status WCompleted w) (s_workers s) ->
    s_logicalDeliveries s' = put (dl_deliveryId d) (h, DAccepted) (s_logicalDeliveries s) ->
    s_acceptedWorkerFacts s' = s_acceptedWorkerFacts s ++ worker_facts d sequence ->
    delivery_step s d sequence s' r
| ds_refuse : dv_status r <> DAccepted -> worker_step (s_workers s) (s_workers s') ->
    (forall k h, own k (s_logicalDeliveries s) = Some (h, DAccepted) ->
       own k (s_logicalDeliveries s') = Some (h, DAccepted)) ->
    s_acceptedWorkerFacts s' = s_acceptedWorkerFacts s ->
    delivery_step s d sequence s' r.

Lemma judge_running s d w : (judge_delivery s d (Some w)).1 = DAccepted -> wk_status w = WRunning.
Proof. unfold judge_delivery, refuse. destruct (bool_decide _) eqn:E; [by to_prop | done]. Qed.

Lemma apply_delivery_spec s d eventId sequence s' :
  apply_delivery s d eventId sequence = Ok s' ->
  exists r, s_deliveries s' = s_deliveries s ++ [r] /\ dv_deliveryId r = dl_deliveryId d /\
    dv_workerId r = dl_workerId d /\ delivery_step s d sequence s' r.
Proof.
  unfold apply_delivery. intros H. destruct (hashFlowValue _) as [hash|]; [|discriminate H].
  destruct (match own _ (s_logicalDeliveries s) with Some (h, _) => _ | None => false end); [discriminate H|].
  destruct (match own _ (s_logicalDeliveries s) with Some (_, st) => _ | None => false end) eqn:Hprior.
  { simplify_eq. eexists. split_and!; [reflexivity | done | done |]. apply ds_refuse; try done. constructor. }
  assert (forall h', own (dl_deliveryId d) (s_logicalDeliveries s) <> Some (h', DAccepted)) as Hfresh.
  { intros h' E. by rewrite E in Hprior. }
  destruct (judge_delivery s d _) as [status reason] eqn:Hj. simplify_eq.
  assert (forall k h, own k (s_logicalDeliveries s) = Some (h, DAccepted) ->
    own k (put (dl_deliveryId d) (hash, status) (s_logicalDeliveries s)) = Some (h, DAccepted)) as Hkeep.
  { intros k h Hk. rewrite own_put_ne; [done|]. intros <-. by apply Hfresh in Hk. }
  destruct (own (dl_workerId d) (s_workers s)) as [w|] eqn:Hw.
  2:{ injection Hj as <- <-. eexists. split_and!; [reflexivity | done | done |].
      apply ds_refuse; try done. constructor. }
  destruct (bool_decide (status = DAccepted)) eqn:Ha; to_prop.
  - subst. assert ((judge_delivery s d (Some w)).1 = DAccepted) as Hj1 by (by rewrite Hj).
    eexists. split_and!; [reflexivity | done | done |].
    eapply (ds_accept _ _ _ _ _ w hash); try done. by eapply judge_running.
  - destruct (_ && bool_decide (wk_status w = WRunning)) eqn:Hr; to_prop;
      (eexists; split_and!; [reflexivity | done | done |]); apply ds_refuse; try done; by constructor.
Qed.

Lemma applyEvent_other s e s' :
  EventSchema e = true -> applyEvent s e = Ok s' ->
  (forall d, dr_payload (ce_draft e) <> WorkerResultDelivered d) ->
  s_deliveries s' = s_deliveries s /\ s_logicalDeliveries s' = s_logicalDeliveries s /\
  s_acceptedWorkerFacts s' = s_acceptedWorkerFacts s /\ worker_step (s_workers s) (s_workers s').
Proof.
  intros Hs H Hd. unfold EventSchema, EventDraftSchema in Hs. unfold applyEvent in H.
  destruct (dr_payload (ce_draft e)) eqn:Hp; cbn [PayloadSchema] in Hs; to_prop;
    try by (split_guards H; simplify_eq; split_and!; try done; constructor).
  - unfold apply_checkpoint in H. split_guards H; simplify_eq; split_and!; try done; constructor.
  - unfold spawn_worker in H. split_guards H. simplify_eq. split_and!; try done. constructor; [|done].
    unfold has_own in *. by destruct (own workerId _).
  - unfold running_worker in H. destruct (own workerId (s_workers s)) eqn:Ho; simpl in H; [|done].
    split_guards H. to_prop. simplify_eq. split_and!; try done. by constructor.
  - unfold running_worker in H. destruct (own workerId (s_workers s)) eqn:Ho; simpl in H; [|done].
    split_guards H. to_prop. simplify_eq. split_and!; try done. by constructor.
  - by destruct (Hd delivery).
Qed.

Lemma worker_step_keeps o o' k w :
  worker_step o o' -> own k o = Some w -> wk_status w <> WRunning -> own k o' = Some w.
Proof. intros [|id w' st H1 H2|id w' H1 H2] Hk Hw; [done|..]; rewrite own_put_ne; congruence. Qed.

Lemma worker_step_deps o o' :
  worker_step o o' ->
  (forall k w, own k o = Some w -> worker_ok k w) -> forall k w, own k o' = Some w -> worker_ok k w.
Proof.
  intros [|id w' st H1 H2|id w' H1 H2] Ho k w; [apply Ho|..]; rewrite own_put;
    (destruct (k =?s id) eqn:E; [intros [= <-]; to_prop; subst | apply Ho]); [apply (Ho _ _ H1) | done].
Qed.

(** ** The invariant of the deliveries *)

Definition backed s (f : AcceptedWorkerFact) : Prop :=
  exists r, r ∈ accepted s /\ dv_workerId r = af_workerId f /\ dv_deliveryId r = af_deliveryId f /\
    dv_appliedSequence r = Some (af_acceptedSequence f).

Record delivered s : Prop := {
  dn_deps : deps_ok s;
  dn_ids : NoDup (dv_deliveryId <$> accepted s);
  dn_workers : NoDup (dv_workerId <$> accepted s);
  dn_completed : forall r, r ∈ accepted s ->
    (exists w, own (dv_workerId r) (s_workers s) = Some w /\ wk_status w = WCompleted) /\
    (exists h, own (dv_deliveryId r) (s_logicalDeliveries s) = Some (h, DAccepted));
  dn_facts : Forall (backed s) (s_acceptedWorkerFacts s);
}.

Lemma delivered_empty : delivered emptyMutableState.
Proof.
  constructor; [done | apply NoDup_nil_2.. | by intros ? ?%elem_of_nil | apply Forall_nil_2].
Qed.

(** Steps that accept nothing. *)
Lemma delivered_frame s s' :
  accepted s' = accepted s -> s_acceptedWorkerFacts s' = s_acceptedWorkerFacts s ->
  worker_step (s_workers s) (s_workers s') ->
  (forall k h, own k (s_logicalDeliveries s) = Some (h, DAccepted) ->
     own k (s_logicalDeliveries s') = Some (h, DAccepted)) ->
  delivered s -> delivered s'.
Proof.
  intros Ea Ef Hw Hl [H1 H2 H3 H4 H5].
  constructor; unfold backed in *; rewrite ?Ea, ?Ef; try done;
    [exact (worker_step_deps _ _ Hw H1)|].
  intros r Hr. destruct (H4 r Hr) as [(w & Hwk & Hst) (h & Hh)]. split; [|eauto].
  exists w. split; [|done]. eapply worker_step_keeps; [done | done | by rewrite Hst].
Qed.

Lemma accepted_snoc s s' r :
  s_deliveries s' = s_deliveries s ++ [r] ->
  accepted s' = accepted s ++ (if bool_decide (dv_status r = DAccepted) then [r] else []).
Proof. unfold accepted. intros ->. by rewrite List.filter_app. Qed.

Lemma delivered_accept s d sequence s' r w h :
  s_deliveries s' = s_deliveries s ++ [r] -> dv_deliveryId r = dl_deliveryId d ->
  dv_workerId r = dl_workerId d -> dv_status r = DAccepted -> dv_appliedSequence r = Some sequence ->
  own (dl_workerId d) (s_workers s) = Some w -> wk_status w = WRunning ->
  (forall h', own (dl_deliveryId d) (s_logicalDeliveries s) <> Some (h', DAccepted)) ->
  s_workers s' = put (dl_workerId d) (with_worker_status WCompleted w) (s_workers s) ->
  s_logicalDeliveries s' = put (dl_deliveryId d) (h, DAccepted) (s_logicalDeliveries s) ->
  s_acceptedWorkerFacts s' = s_acceptedWorkerFacts s ++ worker_facts d sequence ->
  delivered s -> delivered s'.
Proof.
  intros Hd Hdi Hdw Hst Happ Hw Hrun Hfresh Ew El Ef [H1 H2 H3 H4 H5].
  pose proof (accepted_snoc _ _ _ Hd) as Ea. rewrite bool_decide_eq_true_2 in Ea by done.
  constructor; unfold backed, deps_ok in *; rewrite ?Ea, ?Ew, ?El, ?Ef, ?fmap_app.
  - apply (worker_step_deps (s_workers s)); [by constructor | done].
  - apply NoDup_snoc; [done|]. rewrite list_elem_of_fmap. intros (r' & E & Hr').
    destruct (H4 _ Hr') as [_ (h' & Hh')]. apply (Hfresh h'). rewrite <- Hdi, E. done.
  - apply NoDup_snoc; [done|]. rewrite list_elem_of_fmap. intros (r' & E & Hr').
    destruct (H4 _ Hr') as [(w' & Hw' & Hc) _]. rewrite <- E, Hdw, Hw in Hw'. congruence.
  - intros r' [Hr' | ->%list_elem_of_singleton]%elem_of_app.
    + destruct (H4 _ Hr') as [(w' & Hw' & Hc) (h' & Hh')]. split.
      * exists w'. split; [|done]. rewrite own_put_ne; [done|]. intros E. rewrite <- E, Hw in Hw'. congruence.
      * exists h'. rewrite own_put_ne; [done|]. intros E. rewrite <- E in Hh'. by apply Hfresh in Hh'.
    + rewrite Hdw, Hdi, !own_put_eq. eauto.
  - apply Forall_app. split.
    + eapply Forall_impl; [exact H5|]. intros f (r' & Hr' & ?). exists r'. split; [set_solver | done].
    + apply Forall_forall. intros f (x & -> & _)%list_elem_of_fmap. exists r. simpl. set_solver.
Qed.

Lemma delivered_step s e s' :
  EventSchema e = true -> applyEvent s e = Ok s' -> delivered s -> delivered s'.
Proof.
  intros Hs H HD.
  destruct (dr_payload (ce_draft e)) eqn:Hp;
    try by (destruct (applyEvent_other _ _ _ Hs H) as (E1 & E2 & E3 & E4); [intros; congruence|];
      apply (delivered_frame s); unfold accepted; rewrite ?E1, ?E2; done).
  unfold applyEvent in H. rewrite Hp in H.
  apply apply_delivery_spec in H as (r & Hr & Hdi & Hdw & [w h|Hne Hw Hl Hf]).
  - by eapply delivered_accept.
  - apply (delivered_frame s); try done. by rewrite (accepted_snoc _ _ _ Hr), bool_decide_eq_false_2, app_nil_r.
Qed.

(** ** Theorems *)

(** A worker's delivery is accepted at most once: among the accepted deliveries of a
    folded valid log no delivery id and no worker id occurs twice, the workers they name are
    completed, and every accepted worker fact stems from one of them. *)
Theorem delivery_accepted_once log cs :
  foldConversation log = Ok cs ->
  let acc := List.filter (fun r => bool_decide (dv_status r = DAccepted)) (cs_deliveries cs) in
  NoDup (dv_deliveryId <$> acc) /\ NoDup (dv_workerId <$> acc) /\
  (forall r, r ∈ acc -> exists w, w ∈ cs_workers cs /\ wk_status w = WCompleted /\
     List.find (fun w => wk_workerId w =?s dv_workerId r) (cs_workers cs) = Some w) /\
  (forall f, f ∈ cs_acceptedWorkerFacts cs -> exists r, r ∈ acc /\ dv_workerId r = af_workerId f /\
     dv_deliveryId r = af_deliveryId f /\ dv_appliedSequence r = Some (af_acceptedSequence f)).
Proof.
  intros (Hev & s & Hs & ->)%fold_Ok. simpl.
  destruct (fold_invariant delivered delivered_empty delivered_step _ _ Hev Hs) as [H1 H2 H3 H4 H5].
  destruct (fold_invariant consistent consistent_empty consistent_step _ _ Hev Hs) as [_ _ _ _ Hnd _].
  split_and!; [done | done | | by apply Forall_forall].
  intros r Hr. destruct (H4 r Hr) as [(w & Hw & Hc) _]. exists w.
  pose proof (find_view wk_workerId _ (dv_workerId r) Hnd (fun k v Hk => proj1 (H1 k v Hk))) as Hf.
  rewrite Hw in Hf.
  split_and!; [by apply find_elem in Hf as [? _] | done | done].
Qed.

(** Every accepted worker fact was current when it was admitted: it comes from a
    delivery event of the log, and in the state folded from the events before it the worker
    was running for the current goal under the current policy epoch, and each fact revision
    the delivery declares as a dependency was the authoritative one. *)
Theorem accepted_facts_were_current log cs f :
  foldConversation log = Ok cs -> f ∈ cs_acceptedWorkerFacts cs ->
  exists before e after d s, lg_events log = before ++ e :: after /\
    applyEvents emptyMutableState before = Ok s /\ dr_payload (ce_draft e) = WorkerResultDelivered d /\
    f ∈ worker_facts d (ce_sequence e) /\ admitted s d.
Proof.
  intros (Hev & s & Hs & ->)%fold_Ok. simpl. revert s Hev Hs.
  induction (lg_events log) as [|e events IH] using rev_ind; intros s Hev Hs Hf.
  { injection Hs as <-. by apply elem_of_nil in Hf. }
  rewrite Forall_app, Forall_singleton in Hev. destruct Hev as [Hev He]. rewrite applyEvents_app in Hs.
  destruct (applyEvents _ events) as [s1|] eqn:Hs1; cbn [bind_result] in Hs; [|discriminate Hs].
  cbn [applyEvents] in Hs. destruct (applyEvent s1 e) as [s2|] eqn:Ha; [|discriminate Hs].
  injection Hs as <-.
  assert (f ∈ s_acceptedWorkerFacts s1 -> exists before e' after d s, events ++ [e] = before ++ e' :: after /\
    applyEvents emptyMutableState before = Ok s /\ dr_payload (ce_draft e') = WorkerResultDelivered d /\
    f ∈ worker_facts d (ce_sequence e') /\ admitted s d) as Hold.
  { intros Hf1. destruct (IH s1 Hev eq_refl Hf1) as (b & e' & a & d & s0 & -> & H).
    exists b, e', (a ++ [e]), d, s0. by rewrite <- app_assoc. }
  destruct (dr_payload (ce_draft e)) eqn:Hp;
    try by (destruct (applyEvent_other _ _ _ He Ha) as (_ & _ & E & _); [intros; congruence|];
      apply Hold; rewrite <- E).
  unfold applyEvent in Ha. rewrite Hp in Ha.
  apply apply_delivery_spec in Ha as (r & _ & _ & _ & [w h Hst _ Hj Hw _ _ _ _ Ef|_ _ _ Ef]); rewrite Ef in Hf;
    [|by apply Hold].
  apply elem_of_app in Hf as [Hf|Hf]; [by apply Hold|].
  exists events, e, [], delivery, s1. split_and!; [done | done | done | done |].
  eapply judge_accepts; [|..|exact Hj]; [apply (fold_invariant delivered delivered_empty delivered_step _ _ Hev Hs1) | | done].
  unfold EventSchema, EventDraftSchema in He. rewrite Hp in He. cbn [PayloadSchema] in He.
  unfold DeliverySchema in He. by to_prop.
Qed.
End Workers.
