(* ===== verification/ConversationContext.v ===== *)
(** * The bounded context of a conversation

    Truncation of texts to a byte budget and the projection of the folded state into a
    context that fits its budget. *)

From S2P Require Import Prelude JsValue JsText Canonical Graph Flow FlowValidate FlowRuntime.
From S2P Require Import Conversation ConversationLog ConversationState.
Import Conversation.

Local Open Scope Z_scope.

(** ** Bounded text *)

Lemma utf8_length_prefix p q : utf8_length p <= utf8_length (p ++ q).
Proof.
  induction p as [p IH] using (induction_ltof1 _ (@length N)). unfold ltof in IH.
  destruct p as [|c p]; [apply utf8_length_nonneg|].
  pose proof (IH p ltac:(simpl; lia)) as H. cbn [app utf8_length].
  destruct (is_lead c); [|repeat case_match; lia].
  destruct p as [|d p].
  - destruct q as [|d q]; [done|]. cbn [app] in *. pose proof (utf8_length_nonneg q).
    pose proof (utf8_length_nonneg (d :: q)). case_match; lia.
  - cbn [app] in *. pose proof (IH p ltac:(simpl; lia)). case_match; lia.
Qed.

Lemma utf8_length_take n m s : (n <= m)%nat -> utf8_length (take n s) <= utf8_length (take m s).
Proof.
  intros H. replace (take n s) with (take n (take m s)) by (rewrite take_take; f_equal; lia).
  rewrite <- (take_drop n (take m s)) at 2. apply utf8_length_prefix.
Qed.

(** The search ends at the longest prefix that fits. *)
Lemma bisect_spec value maximum fuel : forall lower upper,
  (upper - lower <= fuel)%nat -> (lower <= upper)%nat ->
  utf8_length (take lower value) <= maximum ->
  (forall n, (upper < n)%nat -> (n <= length value)%nat -> maximum < utf8_length (take n value)) ->
  let r := bisect fuel value maximum lower upper in
  utf8_length (take r value) <= maximum /\ (lower <= r <= upper)%nat /\
  (forall n, (r < n)%nat -> (n <= length value)%nat -> maximum < utf8_length (take n value)).
Proof.
  induction fuel as [|fuel IH]; intros lower upper Hf Hle Hlo Hup; cbn [bisect].
  { replace upper with lower in * by lia. split_and!; [done | lia | lia | done]. }
  destruct (Nat.ltb_spec lower upper) as [Hlt|]; [|replace upper with lower in * by lia; split_and!; [done | lia | lia | done]].
  set (middle := ((lower + upper + 1) / 2)%nat).
  assert (lower < middle <= upper)%nat as Hm.
  { unfold middle. pose proof (Nat.div_mod_eq (lower + upper + 1) 2).
    pose proof (Nat.mod_upper_bound (lower + upper + 1) 2). lia. }
  destruct (Z.leb_spec (utf8_length (take middle value)) maximum) as [Hfit|Hbig].
  - destruct (IH middle upper) as (H1 & H2 & H3); [lia | lia | done | done |]. split_and!; [done | lia | lia | done].
  - destruct (IH lower (middle - 1)%nat) as (H1 & H2 & H3); [lia | lia | done | | split_and!; [done | lia | lia | done]].
    intros n Hn Hlen. eapply Z.lt_le_trans; [exact Hbig|]. apply utf8_length_take. lia.
Qed.

Lemma drop_dangling_prefix s : drop_dangling s `prefix_of` s.
Proof.
  unfold drop_dangling. destruct (last s) as [c|]; [|done]. destruct (is_lead c); [|done].
  exists (drop (length s - 1) s). by rewrite take_drop.
Qed.

(** A prefix that does not end inside a surrogate pair survives the clean-up. *)
Lemma drop_dangling_keeps p s :
  p `prefix_of` s -> (forall c, last p = Some c -> is_lead c = false) -> p `prefix_of` drop_dangling s.
Proof.
  intros [q ->] Hp. unfold drop_dangling. destruct (last (p ++ q)) as [c|] eqn:E; [|by exists q].
  destruct (is_lead c) eqn:Hl; [|by exists q].
  destruct q as [|x q].
  { rewrite app_nil_r in E. apply Hp in E. congruence. }
  rewrite length_app. simpl. replace (length p + S (length q) - 1)%nat with (length p + length q)%nat by lia.
  rewrite take_app_add. by eexists.
Qed.

(** [boundedUtf8Text] returns a text within the byte budget: the value itself when it
    fits, and otherwise its longest prefix that fits and does not end with half of a
    surrogate pair; the binary search always finds it. *)
Theorem bounded_text_spec value maximum :
  0 <= maximum ->
  let t := boundedUtf8Text value maximum in
  utf8_length t <= maximum /\ t `prefix_of` value /\
  (utf8_length value <= maximum -> t = value) /\
  (forall p, p `prefix_of` value -> utf8_length p <= maximum ->
     (forall c, last p = Some c -> is_lead c = false) -> p `prefix_of` t).
Proof.
  intros Hmax. unfold boundedUtf8Text. destruct (Z.leb_spec (utf8_length value) maximum) as [|Hbig]; [done|].
  destruct (bisect_spec value maximum (length value) 0 (length value)) as (H1 & H2 & H3); [lia | lia | done | lia|].
  set (r := bisect _ _ _ _ _) in *. pose proof (drop_dangling_prefix (take r value)) as Hd. simpl. split_and!.
  - destruct Hd as [q Hq]. pose proof (utf8_length_prefix (drop_dangling (take r value)) q) as H.
    rewrite <- Hq in H. lia.
  - etransitivity; [exact Hd|]. exists (drop r value). by rewrite take_drop.
  - lia.
  - intros p [q ->] Hp Hlead. apply drop_dangling_keeps; [|done].
    destruct (Nat.le_gt_cases (length p) r) as [Hle|Hgt].
    + rewrite take_app_ge by lia. by eexists.
    + exfalso. specialize (H3 (length p) Hgt). rewrite length_app, take_app_length in H3. lia.
Qed.

Lemma bounded_text_spec_witness :
  boundedUtf8Text [104%N; 0xD83D%N; 0xDE00%N; 105%N] 5 = [104%N; 0xD83D%N; 0xDE00%N] /\
  utf8_length (boundedUtf8Text [104%N; 0xD83D%N; 0xDE00%N; 105%N] 4) <= 4.
Proof. split; [reflexivity | apply bounded_text_spec; lia]. Defined.

(** ** Encodable projections *)

Definition encodable (v : jsval) : Prop := is_Some (canonicalJson v).

Lemma encodable_arr {A} (f : A -> jsval) (l : list A) :
  Forall (fun x => encodable (f x)) l -> encodable (JArr (f <$> l)).
Proof.
  intros H. unfold encodable. cbn [canonicalJson]. apply fmap_is_Some, mapM_is_Some, Forall_fmap.
  exact H.
Qed.

Lemma encodable_obj (kvs : obj jsval) : Forall (fun kv => encodable kv.2) kvs -> encodable (JObj kvs).
Proof.
  intros H. unfold encodable. cbn [canonicalJson]. apply fmap_is_Some, mapM_is_Some.
  eapply Forall_impl; [exact H|]. intros kv Hkv. by apply fmap_is_Some.
Qed.

Lemma encodable_str s : encodable (JStr s).
Proof. by eexists. Qed.

Lemma encodable_nat z : encodable (jnat z).
Proof. unfold encodable, jnat. cbn [canonicalJson]. rewrite num_of_Z_finite. by eexists. Qed.

Lemma encodable_nullable o : encodable (nullable o).
Proof. destruct o; by eexists. Qed.

Create HintDb encodable.
#[local] Hint Resolve encodable_str encodable_nat encodable_nullable : encodable.

Ltac encodable_fields := apply encodable_obj; repeat constructor; eauto with encodable.

Section Projection.
Context `{HS : Sha256}.
Implicit Types (s : State) (cs : ConversationState) (p : ContextProjection).

(** The values a projection may carry. *)
Definition projection_ok p : Prop :=
  Forall (fun f => encodable (ft_value f)) (cx_facts p) /\
  Forall (fun f => encodable (wf_value (af_fact f))) (cx_acceptedWorkerFacts p).

Lemma projection_encodable p : projection_ok p -> encodable (projection_json p).
Proof.
  intros [Hf Ha]. unfold projection_json. encodable_fields.
  - apply encodable_arr, Forall_true. intros i. encodable_fields.
  - apply encodable_arr. eapply Forall_impl; [exact Hf|]. intros f Hv. encodable_fields.
  - destruct (cx_currentGoal p); [cbn [from_option]; encodable_fields | by eexists].
  - destruct (cx_currentFlowCheckpoint p); [cbn [from_option]; encodable_fields | by eexists].
    apply encodable_arr, Forall_true. intros i. apply encodable_str.
  - apply encodable_arr, Forall_true. intros c. encodable_fields.
  - apply encodable_arr, Forall_true. intros w. encodable_fields.
  - apply encodable_arr. eapply Forall_impl; [exact Ha|]. intros f Hv. encodable_fields.
  - apply encodable_arr, Forall_true. intros a. encodable_fields.
Qed.

Lemma JsonValueSchema_encodable v : JsonValueSchema v = true -> encodable v.
Proof. unfold JsonValueSchema, encodable. intros H. to_prop. destruct (canonicalJson v); [by eexists | done]. Qed.

(** Facts and accepted worker facts carry schema-checked values. *)
Definition values_ok s : Prop :=
  Forall (fun kf => encodable (ft_value kf.2)) (s_facts s) /\
  Forall (fun f => encodable (wf_value (af_fact f))) (s_acceptedWorkerFacts s).

Lemma put_Forall {V} (P : V -> Prop) k v (o : obj V) :
  P v -> Forall (fun kv => P kv.2) o -> Forall (fun kv => P kv.2) (put k v o).
Proof.
  rewrite !Forall_forall. intros Hv Ho kv Hkv. apply elem_of_put in Hkv as [->|?]; [done | auto].
Qed.

Lemma values_ok_step s e s' :
  EventSchema e = true -> applyEvent s e = Ok s' -> values_ok s -> values_ok s'.
Proof.
  intros Hs H [Hf Ha]. unfold EventSchema, EventDraftSchema in Hs. unfold applyEvent in H.
  destruct (dr_payload (ce_draft e)) eqn:Hp; cbn [PayloadSchema] in Hs; to_prop;
    try by (split_guards H; simplify_eq; split).
  - split_guards H. simplify_eq. split; [|done].
    apply (put_Forall (fun f => encodable (ft_value f))); [by apply JsonValueSchema_encodable | done].
  - split_guards H. simplify_eq. split; [|done].
    apply (put_Forall (fun f => encodable (ft_value f))); [by apply JsonValueSchema_encodable | done].
  - unfold apply_checkpoint in H. split_guards H; simplify_eq; by split.
  - unfold spawn_worker in H. split_guards H. simplify_eq. by split.
  - assert (Forall (fun f => encodable (wf_value f)) (dl_facts delivery)) as Hd.
    { unfold DeliverySchema in *. to_prop. apply Forall_forall. intros f Hin.
      match goal with H : forallb _ (dl_facts _) = true |- _ => rewrite forallb_elem in H; specialize (H _ Hin) end.
      to_prop. by apply JsonValueSchema_encodable. }
    unfold apply_delivery in H. split_guards H; simplify_eq; repeat case_match; try (by split);
      (split; [done|]; cbn; apply Forall_app; split; [done | by apply Forall_fmap]).
Qed.

(** ** Adding optional items *)

(** The mandatory part of a projection. *)
Definition control_part p : ContextProjection :=
  mkProjection (cx_policyEpoch p) (cx_invariants p) (cx_facts p) (cx_currentGoal p)
    (cx_currentFlowCheckpoint p) (cx_openCommitments p) (cx_workers p) (cx_omittedTerminalWorkerCount p) [] [].

Lemma add_fitting_spec {A} (add : ContextProjection -> A -> ContextProjection) budget items
    (I : ContextProjection -> Prop) : forall p,
  (forall p x, x ∈ items -> I p -> I (add p x)) -> (forall p, I p -> projection_ok p) -> I p ->
  (exists b, projectionBytes p = Some b /\ b <= budget) ->
  exists p', add_fitting add budget p items = Ok p' /\ I p' /\
    exists b, projectionBytes p' = Some b /\ b <= budget.
Proof.
  induction items as [|x items IH]; intros p Hadd Hok HI Hb; cbn [add_fitting]; [by exists p|].
  assert (I (add p x)) as HI' by (apply Hadd; [left | done]).
  destruct (projection_encodable _ (Hok _ HI')) as [t Ht].
  unfold projectionBytes at 1, flowJsonBytes. rewrite Ht. cbn [fmap option_fmap option_map].
  destruct (Z.ltb_spec budget (utf8_length t)) as [|Hfit].
  - apply IH; [|done..]. intros; apply Hadd; [by right | done].
  - apply IH; [| done | done |]; [intros; apply Hadd; [by right | done]|].
    exists (utf8_length t). unfold projectionBytes, flowJsonBytes. by rewrite Ht.
Qed.

Lemma elem_of_spread {V} (l base : obj V) kv : kv ∈ spread base l -> kv ∈ base \/ kv ∈ l.
Proof.
  revert base; induction l as [|[k v] l IH]; intros base; cbn [spread fold_left]; [by left|].
  intros [H|H]%IH; [apply elem_of_put in H as [->|H]|]; set_solver.
Qed.

(** What an assembled projection contains. *)
Definition assembled cs p : Prop :=
  control_part p = control_state cs /\
  Forall (fun f => f ∈ cs_acceptedWorkerFacts cs /\ remains_current cs f = true) (cx_acceptedWorkerFacts p) /\
  Forall (fun a => a ∈ cs_advisories cs) (cx_advisories p).

Definition state_values_ok cs : Prop :=
  Forall (fun f => encodable (ft_value f)) (cs_facts cs) /\
  Forall (fun f => encodable (wf_value (af_fact f))) (cs_acceptedWorkerFacts cs).

Lemma assembled_ok cs p : state_values_ok cs -> assembled cs p -> projection_ok p.
Proof.
  intros [Hf Ha] (Hc & Hw & _). split.
  - apply (f_equal cx_facts) in Hc. simpl in Hc. by rewrite Hc.
  - rewrite Forall_forall in *. intros f Hin. apply Ha, Hw, Hin.
Qed.

Lemma elem_of_latest cs f :
  f ∈ latest_worker_facts cs -> f ∈ cs_acceptedWorkerFacts cs /\ remains_current cs f = true.
Proof.
  unfold latest_worker_facts. intros ([k f'] & -> & H)%list_elem_of_fmap.
  apply elem_of_spread in H as [H|H]; [by apply elem_of_nil in H|].
  apply list_elem_of_fmap in H as (f & E & H). injection E as _ ->. by apply elem_of_filter_list in H.
Qed.

Lemma fold_values_ok log cs : foldConversation log = Ok cs -> state_values_ok cs.
Proof.
  intros (Hev & s & Hs & ->)%fold_Ok.
  destruct (fold_invariant values_ok (conj (Forall_nil_2 _) (Forall_nil_2 _)) values_ok_step _ _ Hev Hs) as [Hf Ha].
  split; simpl; [|done]. unfold sortById. rewrite sort_by_perm. by apply Forall_fmap.
Qed.

Lemma goal_workers_bounded log cs :
  foldConversation log = Ok cs -> (length (goal_workers cs true) <= MAX_ACTIVE_WORKERS_PER_GOAL)%nat.
Proof.
  intros H. unfold goal_workers. destruct (cs_currentGoal cs) as [g|]; [|unfold MAX_ACTIVE_WORKERS_PER_GOAL; simpl; lia].
  etransitivity; [|apply (running_bounded _ _ (gl_goalId g) H)]. unfold running_for.
  rewrite (List.filter_ext _ (fun w => (wk_goalId w =?s gl_goalId g) && bool_decide (wk_status w = WRunning))); [done|].
  intros w. by destruct (bool_decide _).
Qed.

Lemma optional_items cs budget required :
  state_values_ok cs -> projectionBytes (control_state cs) = Some required -> required <= budget ->
  exists p,
    (let* p := add_fitting add_worker_fact budget (control_state cs)
       (newest_first af_acceptedSequence (fun f => wf_key (af_fact f)) (latest_worker_facts cs)) in
     add_fitting add_advisory budget p (newest_first ad_sequence ad_episodeId (cs_advisories cs))) = Ok p /\
    assembled cs p /\ exists b, projectionBytes p = Some b /\ b <= budget.
Proof.
  intros Hv Hr Hle. unfold newest_first.
  destruct (add_fitting_spec add_worker_fact budget (sort_by (fun a b => (af_acceptedSequence b <? af_acceptedSequence a) ||
    ((af_acceptedSequence a =? af_acceptedSequence b) && str_ltb (wf_key (af_fact a)) (wf_key (af_fact b))))
    (latest_worker_facts cs)) (assembled cs) (control_state cs)) as (p & Hp & HI & Hb).
  - intros p f [Hin Hc]%elem_of_sort_by%elem_of_latest (H1 & H2 & H3). split_and!; [done | | done].
    apply Forall_app. by split; [|constructor].
  - intros p. by apply assembled_ok.
  - by split_and!; [|constructor..].
  - by exists required.
  - rewrite Hp. cbn [bind_result]. apply add_fitting_spec; [|intros p'; by apply assembled_ok | done..].
    intros p' a Hin%elem_of_sort_by (H1 & H2 & H3). split_and!; [done | done |].
    apply Forall_app. by split; [|constructor].
Qed.

(** C23. Projecting the context of a valid log either yields a text within the byte budget
    whose control part is exactly the mandatory state, extended only with accepted worker
    facts that still hold and with recorded advisories; or reports that the mandatory state,
    or the empty envelope, is larger than the budget. The limit on active workers is never
    hit and nothing else is thrown. *)
Theorem context_fits_budget log cs budget :
  foldConversation log = Ok cs -> MIN_CONTEXT_BYTES <= budget <= MAX_CONTEXT_BYTES ->
  match projectConversationContext cs budget with
  | Ok ctx =>
      canonicalJson (projection_json (px_value ctx)) = Some (px_serialized ctx) /\
      px_byteLength ctx = utf8_length (px_serialized ctx) /\ px_byteLength ctx <= budget /\
      assembled cs (px_value ctx)
  | Err (ContextOverflow b required) =>
      b = budget /\ projectionBytes (control_state cs) = Some required /\ budget < required
  | Err EnvelopeTooLarge => exists b, projectionBytes (empty_projection (cs_epoch cs)) = Some b /\ budget < b
  | Err _ => False
  end.
Proof.
  intros Hfold Hb. pose proof (fold_values_ok _ _ Hfold) as Hv.
  assert (forall p, projection_ok p -> exists b, projectionBytes p = Some b) as Hbytes.
  { intros p Hp. destruct (projection_encodable p Hp) as [t Ht].
    exists (utf8_length t). unfold projectionBytes, flowJsonBytes. by rewrite Ht. }
  unfold projectConversationContext. unfold MIN_CONTEXT_BYTES, MAX_CONTEXT_BYTES in *.
  destruct (Z.ltb_spec budget 256); [lia|]. destruct (Z.ltb_spec 65536 budget); [lia|]. cbn [orb].
  destruct (Hbytes (empty_projection (cs_epoch cs))) as [b0 E0]; [by repeat constructor|]. rewrite E0.
  destruct (Z.ltb_spec budget b0); [by exists b0|].
  pose proof (goal_workers_bounded _ _ Hfold) as Hw. apply Nat.ltb_ge in Hw. rewrite Hw.
  destruct (Hbytes (control_state cs)) as [required Er]; [by split; [apply Hv | constructor]|]. rewrite Er.
  destruct (Z.ltb_spec budget required) as [|Hle]; [done|].
  destruct (optional_items cs budget required Hv Er Hle) as (p & -> & HI & b & Hpb & Hle').
  unfold projectionBytes, flowJsonBytes in Hpb. destruct (canonicalJson _) as [t|] eqn:Et; [|discriminate Hpb].
  injection Hpb as <-. by split_and!.
Qed.
End Projection.
