(* ===== verification/ConversationDemo.v ===== *)
(** * A worked conversation

    A billing call: the policy epoch and an authoritative fact are set, a goal is
    activated, a worker is spawned against the fact and delivers a result. *)

From S2P Require Import Prelude JsValue JsText Canonical Graph Flow FlowValidate FlowRuntime.
From S2P Require Import Conversation ConversationLog ConversationState.
From S2P Require Import ConversationWorkers ConversationContext.
Import Conversation.

Local Open Scope Z_scope.
#[local] Existing Instance demo_sha256.

Definition demo_authority : AuthorityStamp :=
  {| as_kind := SystemOfRecord; as_issuer := js "billing"; as_evidenceId := js "ev-1"; as_issuedAtMs := 10 |}.

Definition demo_draft (id : string) (p : Payload) : EventDraft :=
  {| dr_eventId := js id; dr_occurredAtMs := 20; dr_payload := p |}.

Definition demo_deps : list FactDependency := [{| dp_key := js "balance"; dp_revision := 1 |}].

Definition demo_balance (swap : bool) : jsval :=
  let cents := (js "cents", JNum (num_of_Z 1250)) in
  let due := (js "due", JStr (js "2026-08-01")) in
  JObj (if swap then [due; cents] else [cents; due]).

Definition demo_delivery : Delivery :=
  {| dl_deliveryId := js "d-1"; dl_workerId := js "w-1"; dl_goalId := js "goal-refund"; dl_policyEpoch := 1;
     dl_dependencies := demo_deps;
     dl_facts := [{| wf_key := js "invoice"; wf_value := JStr (js "inv-7"); wf_evidenceId := js "ev-7" |}];
     dl_advisories := [{| wa_episodeId := js "a-1"; wa_text := js "caller is calm" |}] |}.

Definition demo_setup (swap : bool) : list EventDraft :=
  [demo_draft "e1" (PolicyAdvanced 1 [{| iv_invariantId := js "inv-1"; iv_text := js "never read card numbers aloud" |}]);
   demo_draft "e2" (FactAsserted (js "balance") (demo_balance swap) demo_authority);
   demo_draft "e3" (GoalActivated (js "goal-refund") (js "refund the duplicate charge"))].

Definition demo_work : list EventDraft :=
  [demo_draft "e4" (WorkerSpawned (js "w-1") (js "goal-refund") (js "find the invoice") 1 demo_deps);
   demo_draft "e5" (WorkerResultDelivered demo_delivery)].

Definition demo_empty : ConversationLog :=
  {| lg_version := 1; lg_conversationId := js "call-1"; lg_events := [] |}.

Definition log_of (r : result string ConversationLog) : ConversationLog :=
  match r with Ok log => log | Err _ => demo_empty end.

Definition demo_log (swap : bool) : ConversationLog := log_of (appendConversationEvents demo_empty (demo_setup swap)).
Definition demo_done : ConversationLog := log_of (appendConversationEvents (demo_log false) demo_work).

Lemma is_ok_log r : is_ok r = true -> r = Ok (log_of r).
Proof. destruct r; [done | discriminate]. Qed.

Lemma demo_log_ok swap : appendConversationEvents demo_empty (demo_setup swap) = Ok (demo_log swap).
Proof. apply is_ok_log. destruct swap; vm_compute; reflexivity. Qed.

Lemma demo_done_ok : appendConversationEvents (demo_log false) demo_work = Ok demo_done.
Proof. apply is_ok_log. vm_compute. reflexivity. Qed.

Lemma demo_heads : headHash (lg_events (demo_log false)) = headHash (lg_events (demo_log true)).
Proof. vm_compute. reflexivity. Qed.

Lemma demo_lengths swap : length (lg_events (demo_log swap)) = 3%nat.
Proof. destruct swap; vm_compute; reflexivity. Qed.

Lemma demo_values_ok :
  Forall (fun e => val_ok (event_unsigned e)) (lg_events (demo_log false) ++ lg_events (demo_log true)).
Proof.
  apply Forall_forall. intros e He. apply val_okb_sound. revert e He.
  apply forallb_elem. vm_compute. reflexivity.
Qed.

Lemma head_hash_commits_witness :
  Forall2 (fun e e' => norm (event_unsigned e) = norm (event_unsigned e'))
    (lg_events (demo_log false)) (lg_events (demo_log true)) \/ collision.
Proof.
  assert (forall swap, lg_events (demo_log swap) <> []) as Hne.
  { intros swap E. pose proof (demo_lengths swap) as H. rewrite E in H. discriminate H. }
  destruct (head_hash_commits (demo_log false) (demo_log true)
    (proj1 (append_valid _ _ _ (demo_log_ok false))) (proj1 (append_valid _ _ _ (demo_log_ok true)))
    (Hne false) (Hne true) demo_values_ok demo_heads) as [[_ H]|H]; [left | right]; exact H.
Defined.

(** ** The folded call *)

Definition demo_state : ConversationState :=
  match foldConversation demo_done with Ok cs => cs | Err _ => view emptyMutableState [] end.

Lemma demo_fold : foldConversation demo_done = Ok demo_state.
Proof.
  assert (is_ok (foldConversation demo_done) = true) as H by (vm_compute; reflexivity).
  unfold demo_state. destruct (foldConversation demo_done); [done | discriminate H].
Qed.

Definition demo_invoice : AcceptedWorkerFact :=
  {| af_fact := {| wf_key := js "invoice"; wf_value := JStr (js "inv-7"); wf_evidenceId := js "ev-7" |};
     af_workerId := js "w-1"; af_deliveryId := js "d-1"; af_goalId := js "goal-refund"; af_policyEpoch := 1;
     af_dependencies := demo_deps; af_acceptedSequence := 5 |}.

Lemma demo_invoice_accepted : demo_invoice ∈ cs_acceptedWorkerFacts demo_state.
Proof.
  assert (cs_acceptedWorkerFacts demo_state = [demo_invoice]) as -> by (vm_compute; reflexivity). left.
Qed.

Lemma one_active_goal_witness :
  exists g, cs_currentGoal demo_state = Some g /\ gl_status g = GActive.
Proof.
  assert (is_Some (cs_currentGoal demo_state)) as [g Hg] by (vm_compute; eexists; reflexivity).
  exists g. split; [exact Hg|]. destruct (one_active_goal _ _ demo_fold) as (_ & H2 & H3 & _).
  exact (proj2 (H2 g (H3 g Hg)) Hg).
Defined.

Lemma facts_are_authoritative_witness :
  List.find (fun f => ft_key f =?s js "balance") (cs_facts demo_state) =
  authoritative (js "balance") (lg_events demo_done) /\ cs_epoch demo_state = 1.
Proof.
  destruct (facts_are_authoritative _ _ demo_fold) as (H1 & H2 & _).
  split; [exact (H1 (js "balance"))|]. rewrite H2. vm_compute. reflexivity.
Defined.

Lemma delivery_accepted_once_witness :
  exists r, dv_deliveryId r = js "d-1" /\ dv_workerId r = js "w-1" /\ dv_appliedSequence r = Some 5.
Proof.
  destruct (delivery_accepted_once _ _ demo_fold) as (_ & _ & _ & H).
  destruct (H demo_invoice demo_invoice_accepted) as (r & _ & H1 & H2 & H3).
  exists r. exact (conj H2 (conj H1 H3)).
Defined.

Lemma accepted_facts_were_current_witness :
  exists d s, demo_invoice ∈ worker_facts d 5 /\ admitted s d.
Proof.
  destruct (accepted_facts_were_current _ _ _ demo_fold demo_invoice_accepted)
    as (before & e & after & d & s & _ & _ & _ & H1 & H2).
  exists d, s. split; [|exact H2].
  apply list_elem_of_fmap in H1 as (f & E & Hf). apply list_elem_of_fmap. exists f. split; [|exact Hf].
  rewrite E. f_equal. injection E as _ _ _ _ _ _ ->. reflexivity.
Defined.

Lemma demo_projects : is_ok (projectConversationContext demo_state 4096) = true.
Proof. vm_compute. reflexivity. Qed.

Lemma context_fits_budget_witness :
  exists ctx, projectConversationContext demo_state 4096 = Ok ctx /\ px_byteLength ctx <= 4096.
Proof.
  pose proof (context_fits_budget demo_done demo_state 4096 demo_fold
    ltac:(unfold MIN_CONTEXT_BYTES, MAX_CONTEXT_BYTES; lia)) as H.
  pose proof demo_projects as Hok.
  destruct (projectConversationContext demo_state 4096) as [ctx|err]; [|discriminate Hok].
  destruct H as (_ & _ & H & _). exists ctx. exact (conj eq_refl H).
Defined.
