(* ===== verification/Mission.v ===== *)
(** * The mission runtime (src/web/lib/mission-runtime.ts)

    Goals on a focus stack, facts with authorities, obligations, and actions that are
    proposed, confirmed and settled under a capability epoch; every operation appends one
    event to a hash chain. A definition and a state are taken with their static types;
    [MissionDefinitionSchema_ok] is the rest of the schema. Throwing is [Err] with a short
    name of the error. Where the code falls back to the clock or to [randomUUID], the
    operation takes the time or the id it uses as an argument. *)

From S2P Require Import Prelude JsValue JsText Canonical JsDate Graph Flow FlowValidate FlowRuntime.

Local Open Scope Z_scope.

Module Mission.

(** ** Identifiers *)

Definition ranged (first rest : N -> bool) (low high : nat) (s : jstr) : bool :=
  match s with
  | c :: r => first c && forallb rest r && (low <=? length r)%nat && (length r <=? high)%nat
  | [] => false
  end.

Definition ID : jstr -> bool :=
  ranged is_lower (fun c => is_lower c || is_digit c || one_of "_.:-" c) 1 127.
Definition TOOL : jstr -> bool :=
  ranged is_lower (fun c => is_lower c || is_digit c || one_of "_.-" c) 1 95.
Definition EXTERNAL_ID : jstr -> bool :=
  ranged is_alnum (fun c => is_alnum c || one_of "._:-" c) 0 511.

Definition sized (low high : nat) (s : jstr) : bool := (low <=? length s)%nat && (length s <=? high)%nat.
Definition count_in {A} (low high : nat) (l : list A) : bool := (low <=? length l)%nat && (length l <=? high)%nat.

Definition blank (s : jstr) : bool := forallb is_space s.

(** ** Definition *)

Inductive Authority : Type := ByCaller | ByTool | ByPolicy | ByOperator | BySystem.
#[export] Instance authority_eq_dec : EqDecision Authority.
Proof. solve_decision. Defined.

Inductive Risk : Type := Read | Reversible | Consequential | Irreversible.
#[export] Instance risk_eq_dec : EqDecision Risk.
Proof. solve_decision. Defined.

Inductive FactOperator : Type := OpExists | OpEquals | OpNotEquals | OpIn.
Inductive Scope : Type := GoalScope | MissionScope.
Inductive Owner : Type := OwnAgent | OwnCaller | OwnHuman | OwnSystem.
Inductive Blocks : Type := BlocksGoal | BlocksMission | BlocksIrreversible.
#[export] Instance blocks_eq_dec : EqDecision Blocks.
Proof. solve_decision. Defined.
Inductive Idempotency : Type := PerArguments | PerGoal | NoIdempotency.
#[export] Instance idempotency_eq_dec : EqDecision Idempotency.
Proof. solve_decision. Defined.

Inductive MissionPredicate : Type :=
| FactPredicate (fact_id : jstr) (operator : FactOperator) (value : option jsval)
    (authorities : option (list Authority))
| ReceiptPredicate (action : jstr) (scope : Scope)
| ObligationPredicate (obligation_type : jstr) (scope : Scope).

Record ObligationTemplate := {
  ot_type : jstr; ot_description : jstr; ot_owner : Owner; ot_blocks : Blocks
}.
Record MissionConfirmation := {
  mc_prompt : jstr; mc_accepted_values : list jsval; mc_authorities : list Authority
}.
Record Saga := { sg_group : jstr; sg_compensation_action : option jstr }.

Record MissionCapability := {
  ca_name : jstr;
  ca_description : jstr;
  ca_risk : Risk;
  ca_goals : list jstr;
  ca_prerequisites : list MissionPredicate;
  ca_confirmation : option MissionConfirmation;
  ca_idempotency : Idempotency;
  ca_opens_obligations : list ObligationTemplate;
  ca_satisfies_obligation_types : list jstr;
  ca_saga : option Saga;
}.

Record MissionGoal := {
  go_id : jstr;
  go_label : jstr;
  go_entry : bool;
  go_required : bool;
  go_depends_on : list jstr;
  go_capabilities : list jstr;
  go_completion : list MissionPredicate;
  go_allowed_detours : list jstr;
}.

Record MissionDefinition := {
  md_id : jstr;
  md_version : jstr;
  md_label : jstr;
  md_global_capabilities : list jstr;
  md_goals : list MissionGoal;
  md_capabilities : list MissionCapability;
}.

(** ** Schema *)

Fixpoint MissionJsonSchema_ok (v : jsval) : bool :=
  match v with
  | JNull | JBool _ | JStr _ => true
  | JNum n => is_finite n
  | JArr vs => forallb MissionJsonSchema_ok vs
  | JObj kvs => forallb (fun kv => MissionJsonSchema_ok kv.2) kvs
  | JUndefined | JOther _ => false
  end.

Definition MissionPredicateSchema_ok (p : MissionPredicate) : bool :=
  match p with
  | FactPredicate fact_id operator value authorities =>
      ID fact_id && opt_all MissionJsonSchema_ok value && opt_all (count_in 1 5) authorities &&
      match operator, value with
      | OpExists, _ => true
      | _, None => false
      | OpIn, Some v => match v with JArr _ => true | _ => false end
      | _, Some _ => true
      end
  | ReceiptPredicate action _ => TOOL action
  | ObligationPredicate obligation_type _ => ID obligation_type
  end.

Definition MissionObligationTemplateSchema_ok (o : ObligationTemplate) : bool :=
  ID (ot_type o) && sized 1 1000 (ot_description o).

Definition MissionCapabilitySchema_ok (c : MissionCapability) : bool :=
  TOOL (ca_name c) && sized 1 2000 (ca_description c) &&
  forallb ID (ca_goals c) && count_in 1 256 (ca_goals c) &&
  forallb MissionPredicateSchema_ok (ca_prerequisites c) && count_in 0 256 (ca_prerequisites c) &&
  opt_all (fun f => sized 1 1000 (mc_prompt f) && forallb MissionJsonSchema_ok (mc_accepted_values f) &&
    count_in 1 32 (mc_accepted_values f) && count_in 1 2 (mc_authorities f) &&
    forallb (fun a => includes a [ByCaller; ByOperator]) (mc_authorities f)) (ca_confirmation c) &&
  forallb MissionObligationTemplateSchema_ok (ca_opens_obligations c) && count_in 0 64 (ca_opens_obligations c) &&
  forallb ID (ca_satisfies_obligation_types c) && count_in 0 64 (ca_satisfies_obligation_types c) &&
  opt_all (fun g => ID (sg_group g) && opt_all TOOL (sg_compensation_action g)) (ca_saga c).

Definition MissionGoalSchema_ok (g : MissionGoal) : bool :=
  ID (go_id g) && sized 1 256 (go_label g) &&
  forallb ID (go_depends_on g) && count_in 0 256 (go_depends_on g) &&
  forallb TOOL (go_capabilities g) && count_in 0 1024 (go_capabilities g) &&
  forallb MissionPredicateSchema_ok (go_completion g) && count_in 0 256 (go_completion g) &&
  forallb ID (go_allowed_detours g) && count_in 0 256 (go_allowed_detours g).

Definition find_goal (d : MissionDefinition) (id : jstr) : option MissionGoal :=
  List.find (fun g => go_id g =?s id) (md_goals d).
Definition find_capability (d : MissionDefinition) (name : jstr) : option MissionCapability :=
  List.find (fun c => ca_name c =?s name) (md_capabilities d).

(** The depth-first search for a dependency cycle: whether a goal on the current path is
    met again, with the goals visited so far. A path has no goal twice, so one round per
    goal and one for an undeclared id are enough. *)
Fixpoint visit (fuel : nat) (d : MissionDefinition) (visiting visited : list jstr) (goalId : jstr)
  : bool * list jstr :=
  match fuel with
  | O => (false, visited)
  | S fuel =>
      if includes goalId visiting then (true, visited)
      else if includes goalId visited then (false, visited)
      else
        let '(cyclic, visited) :=
          (fix some (l : list jstr) (visited : list jstr) : bool * list jstr :=
             match l with
             | [] => (false, visited)
             | dep :: l =>
                 let '(cyclic, visited) := visit fuel d (goalId :: visiting) visited dep in
                 if cyclic then (true, visited) else some l visited
             end) (from_option go_depends_on [] (find_goal d goalId)) visited in
        (cyclic, goalId :: visited)
  end.

(** Whether the search from the goals in order reports a cycle. *)
Fixpoint cyclic_from (d : MissionDefinition) (visited : list jstr) (l : list MissionGoal) : bool :=
  match l with
  | [] => false
  | g :: l =>
      let '(cyclic, visited) := visit (S (S (length (md_goals d)))) d [] visited (go_id g) in
      cyclic || cyclic_from d visited l
  end.

Definition goal_refined (d : MissionDefinition) (g : MissionGoal) : bool :=
  nodupb (go_depends_on g) && nodupb (go_capabilities g) && nodupb (go_allowed_detours g) &&
  forallb (fun dep => includes dep (go_id <$> md_goals d)) (go_depends_on g) &&
  forallb (fun t => includes t (go_id <$> md_goals d) && negb (t =?s go_id g)) (go_allowed_detours g) &&
  forallb (fun c => match find_capability d c with
                    | Some contract => includes (go_id g) (ca_goals contract)
                    | None => false
                    end) (go_capabilities g).

Definition capability_refined (d : MissionDefinition) (c : MissionCapability) : bool :=
  nodupb (ca_goals c) && nodupb (ot_type <$> ca_opens_obligations c) && nodupb (ca_satisfies_obligation_types c) &&
  forallb (fun g => includes g (go_id <$> md_goals d)) (ca_goals c) &&
  match truthy (s ← ca_saga c; sg_compensation_action s) with
  | None => true
  | Some compensation =>
      match find_capability d compensation with
      | None => false
      | Some contract => negb (bool_decide (ca_risk contract = Irreversible))
      end
  end.

Definition MissionDefinitionSchema_ok (d : MissionDefinition) : bool :=
  ID (md_id d) && sized 1 128 (md_version d) && sized 1 256 (md_label d) &&
  forallb TOOL (md_global_capabilities d) && count_in 0 1024 (md_global_capabilities d) &&
  forallb MissionGoalSchema_ok (md_goals d) && count_in 1 256 (md_goals d) &&
  forallb MissionCapabilitySchema_ok (md_capabilities d) && count_in 1 1024 (md_capabilities d) &&
  nodupb (go_id <$> md_goals d) && nodupb (ca_name <$> md_capabilities d) && nodupb (md_global_capabilities d) &&
  forallb (goal_refined d) (md_goals d) && negb (cyclic_from d [] (md_goals d)) &&
  forallb (capability_refined d) (md_capabilities d) &&
  forallb (fun name => includes name (ca_name <$> md_capabilities d)) (md_global_capabilities d).

(** ** State *)

Inductive GoalStatus : Type := Queued | GoalActive | Suspended | GoalCompleted | Abandoned.
#[export] Instance goal_status_eq_dec : EqDecision GoalStatus.
Proof. solve_decision. Defined.
Inductive ObligationStatus : Type := Open | Satisfied | Waived.
#[export] Instance obligation_status_eq_dec : EqDecision ObligationStatus.
Proof. solve_decision. Defined.
Inductive ProposalStatus : Type := Proposed | Authorized | Settled | Revoked | ProposalIndeterminate.
#[export] Instance proposal_status_eq_dec : EqDecision ProposalStatus.
Proof. solve_decision. Defined.
Inductive ReceiptStatus : Type := RSucceeded | RFailed | RIndeterminate | RCompensated.
#[export] Instance receipt_status_eq_dec : EqDecision ReceiptStatus.
Proof. solve_decision. Defined.
Inductive MissionStatus : Type := MissionActive | MissionCompleted | MissionFailed.
#[export] Instance mission_status_eq_dec : EqDecision MissionStatus.
Proof. solve_decision. Defined.

Record MissionFact := {
  mf_fact_id : jstr; mf_revision : Z; mf_value : jsval; mf_authority : Authority; mf_evidence_id : jstr;
  mf_recorded_at : jstr; mf_supersedes_revision : option Z
}.

Record MissionObligation := {
  ob_id : jstr;
  ob_type : jstr;
  ob_description : jstr;
  ob_owner : Owner;
  ob_blocks : Blocks;
  ob_scope_goal_id : option jstr;
  ob_source_receipt_id : option jstr;
  ob_compensation_action : option jstr;
  ob_status : ObligationStatus;
  ob_opened_revision : Z;
  ob_settled_revision : option Z;
  ob_evidence_id : option jstr;
}.

Record MissionProposal := {
  pr_id : jstr;
  pr_digest : jstr;
  pr_goal_id : jstr;
  pr_action : jstr;
  pr_arguments : obj jsval;
  pr_arguments_hash : jstr;
  pr_idempotency_key : jstr;
  pr_risk : Risk;
  pr_status : ProposalStatus;
  pr_proposed_revision : Z;
  pr_authorized_revision : option Z;
  pr_authorized_epoch : option Z;
  pr_confirmation_evidence_id : option jstr;
  pr_compensation_obligation_id : option jstr;
  pr_receipt_id : option jstr;
}.

Record MissionReceipt := {
  rc_id : jstr;
  rc_proposal_id : jstr;
  rc_goal_id : jstr;
  rc_action : jstr;
  rc_arguments_hash : jstr;
  rc_idempotency_key : jstr;
  rc_status : ReceiptStatus;
  rc_result : jsval;
  rc_result_hash : option jstr;
  rc_settled_revision : Z;
}.

Record MissionEvent := {
  me_sequence : Z;
  me_revision : Z;
  me_type : jstr;
  me_at : jstr;
  me_payload : jsval;
  me_state_head_hash : jstr;
  me_previous_event_hash : option jstr;
  me_event_hash : jstr;
}.

Record MissionState := mkMission {
  ms_mission_id : jstr;
  ms_mission_version : jstr;
  ms_definition_hash : jstr;
  ms_status : MissionStatus;
  ms_revision : Z;
  ms_capability_epoch : Z;
  ms_goals : obj (GoalStatus * Z);
  ms_focus_stack : list jstr;
  ms_facts : obj MissionFact;
  ms_obligations : list MissionObligation;
  ms_proposals : list MissionProposal;
  ms_receipts : list MissionReceipt;
  ms_events : list MissionEvent;
}.

(** ** JSON *)

(** This module's [canonicalJson]: leaves go through [JSON.stringify]. *)
Fixpoint canonicalText (v : jsval) : jstr :=
  match v with
  | JNull => js "null"
  | JBool b => if b then js "true" else js "false"
  | JNum n =>
      if negb (is_finite n) then js "null" else if is_neg_zero n then js "0" else num_to_string n
  | JStr s => json_quote s
  | JArr vs => bracket 91 (join (canonicalText <$> vs)) 93
  | JObj kvs =>
      bracket 123 (join (entry_text <$> sort_by key_ltb ((fun kv => (kv.1, canonicalText kv.2)) <$> kvs))) 125
  | JUndefined | JOther _ => js "undefined"
  end.

Definition authority_text (a : Authority) : string :=
  match a with
  | ByCaller => "caller" | ByTool => "tool" | ByPolicy => "policy" | ByOperator => "operator" | BySystem => "system"
  end.
Definition risk_text (r : Risk) : string :=
  match r with
  | Read => "read" | Reversible => "reversible" | Consequential => "consequential" | Irreversible => "irreversible"
  end.
Definition operator_text (o : FactOperator) : string :=
  match o with OpExists => "exists" | OpEquals => "equals" | OpNotEquals => "not_equals" | OpIn => "in" end.
Definition scope_text (s : Scope) : string := match s with GoalScope => "goal" | MissionScope => "mission" end.
Definition owner_text (o : Owner) : string :=
  match o with OwnAgent => "agent" | OwnCaller => "caller" | OwnHuman => "human" | OwnSystem => "system" end.
Definition blocks_text (b : Blocks) : string :=
  match b with
  | BlocksGoal => "goal_completion" | BlocksMission => "mission_completion"
  | BlocksIrreversible => "irreversible_actions"
  end.
Definition idempotency_text (i : Idempotency) : string :=
  match i with PerArguments => "per_arguments" | PerGoal => "per_goal" | NoIdempotency => "none" end.
Definition goal_status_text (s : GoalStatus) : string :=
  match s with
  | Queued => "queued" | GoalActive => "active" | Suspended => "suspended" | GoalCompleted => "completed"
  | Abandoned => "abandoned"
  end.
Definition obligation_status_text (s : ObligationStatus) : string :=
  match s with Open => "open" | Satisfied => "satisfied" | Waived => "waived" end.
Definition proposal_status_text (s : ProposalStatus) : string :=
  match s with
  | Proposed => "proposed" | Authorized => "authorized" | Settled => "settled" | Revoked => "revoked"
  | ProposalIndeterminate => "indeterminate"
  end.
Definition receipt_status_text (s : ReceiptStatus) : string :=
  match s with
  | RSucceeded => "succeeded" | RFailed => "failed" | RIndeterminate => "indeterminate" | RCompensated => "compensated"
  end.
Definition mission_status_text (s : MissionStatus) : string :=
  match s with MissionActive => "active" | MissionCompleted => "completed" | MissionFailed => "failed" end.

Definition texts (l : list jstr) : jsval := JArr (JStr <$> l).
Definition nullable_nat (o : option Z) : jsval := from_option jnat JNull o.

Definition predicate_json (p : MissionPredicate) : jsval :=
  JObj match p with
  | FactPredicate fact_id operator value authorities =>
      field "kind" (jtext "fact") ++ field "fact_id" (JStr fact_id) ++
      field "operator" (jtext (operator_text operator)) ++ opt_field "value" (fun v => v) value ++
      opt_field "authorities" (fun l => JArr ((fun a => jtext (authority_text a)) <$> l)) authorities
  | ReceiptPredicate action scope =>
      field "kind" (jtext "receipt") ++ field "action" (JStr action) ++ field "status" (jtext "succeeded") ++
      field "scope" (jtext (scope_text scope))
  | ObligationPredicate obligation_type scope =>
      field "kind" (jtext "obligation") ++ field "obligation_type" (JStr obligation_type) ++
      field "status" (jtext "satisfied") ++ field "scope" (jtext (scope_text scope))
  end.

Definition capability_json (c : MissionCapability) : jsval :=
  JObj (field "name" (JStr (ca_name c)) ++ field "description" (JStr (ca_description c)) ++
    field "risk" (jtext (risk_text (ca_risk c))) ++ field "goals" (texts (ca_goals c)) ++
    field "prerequisites" (JArr (predicate_json <$> ca_prerequisites c)) ++
    opt_field "confirmation" (fun f => JObj (field "prompt" (JStr (mc_prompt f)) ++
      field "accepted_values" (JArr (mc_accepted_values f)) ++
      field "authorities" (JArr ((fun a => jtext (authority_text a)) <$> mc_authorities f)))) (ca_confirmation c) ++
    field "idempotency" (jtext (idempotency_text (ca_idempotency c))) ++
    field "opens_obligations" (JArr ((fun o => JObj (field "type" (JStr (ot_type o)) ++
      field "description" (JStr (ot_description o)) ++ field "owner" (jtext (owner_text (ot_owner o))) ++
      field "blocks" (jtext (blocks_text (ot_blocks o))))) <$> ca_opens_obligations c)) ++
    field "satisfies_obligation_types" (texts (ca_satisfies_obligation_types c)) ++
    opt_field "saga" (fun g => JObj (field "group" (JStr (sg_group g)) ++
      opt_field "compensation_action" JStr (sg_compensation_action g))) (ca_saga c)).

Definition definition_json (d : MissionDefinition) : jsval :=
  JObj (field "schema_version" (jnat 1) ++ field "id" (JStr (md_id d)) ++ field "version" (JStr (md_version d)) ++
    field "label" (JStr (md_label d)) ++ field "global_capabilities" (texts (md_global_capabilities d)) ++
    field "goals" (JArr ((fun g => JObj (field "id" (JStr (go_id g)) ++ field "label" (JStr (go_label g)) ++
      field "entry" (JBool (go_entry g)) ++ field "required" (JBool (go_required g)) ++
      field "depends_on" (texts (go_depends_on g)) ++ field "capabilities" (texts (go_capabilities g)) ++
      field "completion" (JArr (predicate_json <$> go_completion g)) ++
      field "allowed_detours" (texts (go_allowed_detours g)))) <$> md_goals d)) ++
    field "capabilities" (JArr (capability_json <$> md_capabilities d))).

Definition fact_json (f : MissionFact) : jsval :=
  JObj (field "fact_id" (JStr (mf_fact_id f)) ++ field "revision" (jnat (mf_revision f)) ++
    field "value" (mf_value f) ++ field "authority" (jtext (authority_text (mf_authority f))) ++
    field "evidence_id" (JStr (mf_evidence_id f)) ++ field "recorded_at" (JStr (mf_recorded_at f)) ++
    field "supersedes_revision" (nullable_nat (mf_supersedes_revision f))).

Definition obligation_json (o : MissionObligation) : jsval :=
  JObj (field "obligation_id" (JStr (ob_id o)) ++ field "type" (JStr (ob_type o)) ++
    field "description" (JStr (ob_description o)) ++ field "owner" (jtext (owner_text (ob_owner o))) ++
    field "blocks" (jtext (blocks_text (ob_blocks o))) ++ field "scope_goal_id" (nullable (ob_scope_goal_id o)) ++
    field "source_receipt_id" (nullable (ob_source_receipt_id o)) ++
    field "compensation_action" (nullable (ob_compensation_action o)) ++
    field "status" (jtext (obligation_status_text (ob_status o))) ++
    field "opened_revision" (jnat (ob_opened_revision o)) ++
    field "settled_revision" (nullable_nat (ob_settled_revision o)) ++
    field "evidence_id" (nullable (ob_evidence_id o))).

Definition proposal_json (p : MissionProposal) : jsval :=
  JObj (field "proposal_id" (JStr (pr_id p)) ++ field "proposal_digest" (JStr (pr_digest p)) ++
    field "goal_id" (JStr (pr_goal_id p)) ++ field "action" (JStr (pr_action p)) ++
    field "arguments" (JObj (pr_arguments p)) ++ field "arguments_hash" (JStr (pr_arguments_hash p)) ++
    field "idempotency_key" (JStr (pr_idempotency_key p)) ++ field "risk" (jtext (risk_text (pr_risk p))) ++
    field "status" (jtext (proposal_status_text (pr_status p))) ++
    field "proposed_revision" (jnat (pr_proposed_revision p)) ++
    field "authorized_revision" (nullable_nat (pr_authorized_revision p)) ++
    field "authorized_epoch" (nullable_nat (pr_authorized_epoch p)) ++
    field "confirmation_evidence_id" (nullable (pr_confirmation_evidence_id p)) ++
    field "compensation_obligation_id" (nullable (pr_compensation_obligation_id p)) ++
    field "receipt_id" (nullable (pr_receipt_id p))).

Definition receipt_json (r : MissionReceipt) : jsval :=
  JObj (field "receipt_id" (JStr (rc_id r)) ++ field "proposal_id" (JStr (rc_proposal_id r)) ++
    field "goal_id" (JStr (rc_goal_id r)) ++ field "action" (JStr (rc_action r)) ++
    field "arguments_hash" (JStr (rc_arguments_hash r)) ++ field "idempotency_key" (JStr (rc_idempotency_key r)) ++
    field "status" (jtext (receipt_status_text (rc_status r))) ++ field "result" (rc_result r) ++
    field "result_hash" (nullable (rc_result_hash r)) ++ field "settled_revision" (jnat (rc_settled_revision r))).

Definition event_body (e : MissionEvent) : jsval :=
  JObj (field "sequence" (jnat (me_sequence e)) ++ field "revision" (jnat (me_revision e)) ++
    field "type" (JStr (me_type e)) ++ field "at" (JStr (me_at e)) ++ field "payload" (me_payload e) ++
    field "state_head_hash" (JStr (me_state_head_hash e)) ++
    field "previous_event_hash" (nullable (me_previous_event_hash e))).

(** The state without its events. *)
Definition head_json (st : MissionState) : jsval :=
  JObj (field "schema_version" (jnat 1) ++ field "mission_id" (JStr (ms_mission_id st)) ++
    field "mission_version" (JStr (ms_mission_version st)) ++
    field "definition_hash" (JStr (ms_definition_hash st)) ++
    field "status" (jtext (mission_status_text (ms_status st))) ++ field "revision" (jnat (ms_revision st)) ++
    field "capability_epoch" (jnat (ms_capability_epoch st)) ++
    field "goals" (JObj ((fun kv => (kv.1, JObj (field "status" (jtext (goal_status_text kv.2.1)) ++
      field "activation_count" (jnat kv.2.2)))) <$> ms_goals st)) ++
    field "focus_stack" (texts (ms_focus_stack st)) ++
    field "facts" (JObj ((fun kv => (kv.1, fact_json kv.2)) <$> ms_facts st)) ++
    field "obligations" (JArr (obligation_json <$> ms_obligations st)) ++
    field "proposals" (JArr (proposal_json <$> ms_proposals st)) ++
    field "receipts" (JArr (receipt_json <$> ms_receipts st))).
(** ** Operations *)

Definition DOMAIN_PREFIX : string := "harshas-amazing-call-center/".

Section Runtime.
Context `{HS : Sha256}.

Abbreviation error e := (Err (E := string) e%string).

Definition sha256_in (domain : string) (v : jsval) : jstr :=
  sha256 (js (DOMAIN_PREFIX ++ domain)%string ++ [10%N] ++ canonicalText v).

Definition definitionHash (d : MissionDefinition) : jstr := sha256_in "mission-definition/v1" (definition_json d).
Definition stateHeadHash (st : MissionState) : jstr := sha256_in "mission-state-head/v1" (head_json st).
Definition eventHash (e : MissionEvent) : jstr := sha256_in "mission-event/v1" (event_body e).

(** The nodes and the depth that the loop of [validateJsonBounds] meets; it throws when
    either limit is exceeded, in whatever order it meets the nodes. *)
Fixpoint json_nodes (v : jsval) : Z :=
  match v with
  | JArr vs => fold_right (fun v n => json_nodes v + n) 1 vs
  | JObj kvs => fold_right (fun kv n => json_nodes kv.2 + n) 1 kvs
  | _ => 1
  end.
Fixpoint json_depth (v : jsval) : Z :=
  match v with
  | JArr vs => fold_right (fun v n => Z.max (1 + json_depth v) n) 0 vs
  | JObj kvs => fold_right (fun kv n => Z.max (1 + json_depth kv.2) n) 0 kvs
  | _ => 0
  end.

Definition validateJsonBounds (v : jsval) (maxBytes : Z) : result string unit :=
  raise "exceeds the JSON node or depth limit"%string when (20000 <? json_nodes v) || (32 <? json_depth v) ;;
  raise "exceeds the canonical JSON byte limit"%string when maxBytes <? utf8_length (canonicalText v) ;;
  Ok tt.

Definition MissionJson_parse (v : jsval) : result string jsval :=
  raise "invalid JSON"%string when negb (MissionJsonSchema_ok v) ;; Ok v.

Definition assertExternalId (s : jstr) : result string unit :=
  raise "not a safe bounded identifier"%string when negb (EXTERNAL_ID s) ;; Ok tt.

Definition currentGoalId (st : MissionState) : option jstr := last (ms_focus_stack st).

(** [appendEvent]; [patch] replaces the patched fields. The times of the events are
    canonical, as nothing else writes events. *)
Definition appendEvent (st : MissionState) (type : string) (payload : jsval) (at_ : jstr)
    (patch : MissionState -> MissionState) (rotateCapabilities : bool) : result string MissionState :=
  match canonical_ms at_ with
  | None => error "mission event time must be a canonical ISO-8601 instant"
  | Some timestamp =>
      raise "mission event time cannot move backwards"%string when
        match e ← last (ms_events st); canonical_ms (me_at e) with
        | Some lastTimestamp => timestamp <? lastTimestamp
        | None => false
        end ;;
      let revision := ms_revision st + 1 in
      let epoch := if rotateCapabilities then ms_capability_epoch st + 1 else ms_capability_epoch st in
      let p := patch st in
      let next events := mkMission (ms_mission_id p) (ms_mission_version p) (ms_definition_hash p) (ms_status p)
        revision epoch (ms_goals p) (ms_focus_stack p) (ms_facts p) (ms_obligations p) (ms_proposals p)
        (ms_receipts p) events in
      let body := {| me_sequence := Z.of_nat (length (ms_events st)) + 1; me_revision := revision;
        me_type := js type; me_at := at_; me_payload := payload;
        me_state_head_hash := stateHeadHash (next (ms_events st));
        me_previous_event_hash := me_event_hash <$> last (ms_events st); me_event_hash := [] |} in
      let event := {| me_sequence := me_sequence body; me_revision := me_revision body; me_type := me_type body;
        me_at := me_at body; me_payload := me_payload body; me_state_head_hash := me_state_head_hash body;
        me_previous_event_hash := me_previous_event_hash body; me_event_hash := eventHash body |} in
      Ok (next (ms_events st ++ [event]))
  end.

Definition patch_goals goals stack (st : MissionState) : MissionState :=
  mkMission (ms_mission_id st) (ms_mission_version st) (ms_definition_hash st) (ms_status st) (ms_revision st)
    (ms_capability_epoch st) goals stack (ms_facts st) (ms_obligations st) (ms_proposals st) (ms_receipts st)
    (ms_events st).
Definition patch_facts facts proposals (st : MissionState) : MissionState :=
  mkMission (ms_mission_id st) (ms_mission_version st) (ms_definition_hash st) (ms_status st) (ms_revision st)
    (ms_capability_epoch st) (ms_goals st) (ms_focus_stack st) facts (ms_obligations st) proposals
    (ms_receipts st) (ms_events st).
Definition patch_actions proposals receipts obligations (st : MissionState) : MissionState :=
  mkMission (ms_mission_id st) (ms_mission_version st) (ms_definition_hash st) (ms_status st) (ms_revision st)
    (ms_capability_epoch st) (ms_goals st) (ms_focus_stack st) (ms_facts st) obligations proposals receipts
    (ms_events st).
Definition patch_completed (st : MissionState) : MissionState :=
  mkMission (ms_mission_id st) (ms_mission_version st) (ms_definition_hash st) MissionCompleted (ms_revision st)
    (ms_capability_epoch st) (ms_goals st) [] (ms_facts st) (ms_obligations st) (ms_proposals st)
    (ms_receipts st) (ms_events st).

Definition requireDefinition (d : MissionDefinition) (state : option MissionState) : result string unit :=
  raise "invalid mission definition"%string when negb (MissionDefinitionSchema_ok d) ;;
  let* _ := validateJsonBounds (definition_json d) 1048576 in
  match state with
  | None => Ok tt
  | Some st =>
      raise "mission state is not bound to this exact definition"%string when
        negb (ms_mission_id st =?s md_id d) || negb (ms_mission_version st =?s md_version d) ||
        negb (ms_definition_hash st =?s definitionHash d) ;;
      Ok tt
  end.

Definition goal (d : MissionDefinition) (id : jstr) : result string MissionGoal :=
  match find_goal d id with Some g => Ok g | None => error "unknown mission goal" end.
Definition capability (d : MissionDefinition) (action : jstr) : result string MissionCapability :=
  match find_capability d action with Some c => Ok c | None => error "unknown mission capability" end.

Definition in_scope (scope : Scope) (id goalId : option jstr) : bool :=
  match scope with MissionScope => true | GoalScope => bool_decide (id = goalId) end.

(** A fact id may name an inherited property: the value read is then a function without
    [value], [authority] or [revision]. *)
Definition evaluatePredicate (st : MissionState) (p : MissionPredicate) (goalId : option jstr) : bool :=
  match p with
  | FactPredicate fact_id operator value authorities =>
      match get_property (ms_facts st) fact_id with
      | Absent => false
      | Inherited =>
          match authorities, operator with
          | Some _, _ => false
          | None, OpExists | None, OpNotEquals => true
          | None, _ => false
          end
      | Own fact =>
          if match authorities with Some l => negb (includes (mf_authority fact) l) | None => false end then false
          else
            let text := canonicalText (mf_value fact) in
            let expected := from_option canonicalText (js "undefined") value in
            match operator with
            | OpExists => true
            | OpEquals => text =?s expected
            | OpNotEquals => negb (text =?s expected)
            | OpIn => match value with
                      | Some (JArr l) => existsb (fun c => canonicalText c =?s text) l
                      | _ => false
                      end
            end
      end
  | ReceiptPredicate action scope =>
      existsb (fun r => (rc_action r =?s action) && bool_decide (rc_status r = RSucceeded) &&
        in_scope scope (Some (rc_goal_id r)) goalId) (ms_receipts st)
  | ObligationPredicate obligation_type scope =>
      existsb (fun o => (ob_type o =?s obligation_type) && bool_decide (ob_status o = Satisfied) &&
        in_scope scope (ob_scope_goal_id o) goalId) (ms_obligations st)
  end.

(** The loop over the events. *)
Fixpoint chain_intact (index : Z) (previous : option jstr) (events : list MissionEvent) : bool :=
  match events with
  | [] => true
  | e :: events =>
      (me_sequence e =? index + 1) && (me_revision e =? index + 1) &&
      bool_decide (me_previous_event_hash e = previous) && (me_event_hash e =?s eventHash e) &&
      chain_intact (index + 1) (Some (me_event_hash e)) events
  end.

Definition focus_agrees (st : MissionState) (goalId : jstr) : bool :=
  let status := fst <$> own goalId (ms_goals st) in
  if bool_decide (Some goalId = currentGoalId st) then bool_decide (status = Some GoalActive)
  else bool_decide (status = Some Suspended).

Definition assertStateIntegrity (st : MissionState) : result string unit :=
  raise "mission state definition hash is invalid"%string when negb (is_sha256 (ms_definition_hash st)) ;;
  raise "mission event failed hash-chain verification"%string when negb (chain_intact 0 None (ms_events st)) ;;
  raise "mission revision differs from its event ledger"%string when
    negb (ms_revision st =? Z.of_nat (length (ms_events st))) ;;
  raise "mission materialized state differs from the final event state head"%string when
    negb (bool_decide (me_state_head_hash <$> last (ms_events st) = Some (stateHeadHash st))) ;;
  raise "mission focus stack and goal statuses disagree"%string when
    negb (forallb (focus_agrees st) (ms_focus_stack st)) ;;
  Ok tt.

(** The checks every operation starts with. *)
Definition checked (d : MissionDefinition) (st : MissionState) : result string unit :=
  let* _ := assertStateIntegrity st in requireDefinition d (Some st).

Definition createMissionState (d : MissionDefinition) (at_ : jstr) : result string MissionState :=
  let* _ := requireDefinition d None in
  let hash := definitionHash d in
  let initial := mkMission (md_id d) (md_version d) hash MissionActive 0 0
    (spread [] ((fun g => (go_id g, (Queued, 0))) <$> md_goals d)) [] [] [] [] [] [] in
  appendEvent initial "mission.created" (JObj (field "definition_hash" (JStr hash))) at_ (fun st => st) true.

Inductive ActivationMode : Type := Root | Detour.

Definition goal_status (st : MissionState) (id : jstr) : option GoalStatus := fst <$> own id (ms_goals st).

Definition activated_goals (st : MissionState) (current : option jstr) (id : jstr) : obj (GoalStatus * Z) :=
  let goals :=
    match c ← truthy current; pair c <$> own c (ms_goals st) with
    | Some (c, (_, n)) => put c (Suspended, n) (ms_goals st)
    | None => ms_goals st
    end in
  put id (GoalActive, from_option snd 0 (own id goals) + 1) goals.

Definition activateMissionGoal (d : MissionDefinition) (st : MissionState) (goal_id : jstr)
    (mode : ActivationMode) (at_ : jstr) : result string MissionState :=
  let* _ := checked d st in
  let* selected := goal d goal_id in
  raise "mission is not active"%string when negb (bool_decide (ms_status st = MissionActive)) ;;
  raise "goal has incomplete dependencies"%string when
    negb (forallb (fun dep => bool_decide (goal_status st dep = Some GoalCompleted)) (go_depends_on selected)) ;;
  let current := currentGoalId st in
  let* _ :=
    match mode with
    | Root =>
        raise "goal is not a root entry goal"%string when negb (go_entry selected) ;;
        raise "a root goal cannot replace an active goal"%string when bool_decide (truthy current <> None) ;;
        Ok tt
    | Detour =>
        match truthy current with
        | None => error "detour requires an active goal"
        | Some c =>
            let* g := goal d c in
            raise "goal is not an allowed detour"%string when
              negb (includes (go_id selected) (go_allowed_detours g)) ;;
            Ok tt
        end
    end in
  raise "goal cannot be activated from its status"%string when
    negb (bool_decide (goal_status st (go_id selected) = Some Queued) ||
          bool_decide (goal_status st (go_id selected) = Some Suspended)) ;;
  appendEvent st "mission.goal_activated"
    (JObj (field "goal_id" (JStr (go_id selected)) ++
       field "mode" (jtext (match mode with Root => "root" | Detour => "detour" end)) ++
       field "suspended_goal_id" (nullable current)))
    at_ (patch_goals (activated_goals st current (go_id selected)) (ms_focus_stack st ++ [go_id selected])) true.

Definition revoke (p : MissionProposal) : MissionProposal :=
  if bool_decide (pr_status p = Authorized) || bool_decide (pr_status p = Proposed) then
    {| pr_id := pr_id p; pr_digest := pr_digest p; pr_goal_id := pr_goal_id p; pr_action := pr_action p;
       pr_arguments := pr_arguments p; pr_arguments_hash := pr_arguments_hash p;
       pr_idempotency_key := pr_idempotency_key p; pr_risk := pr_risk p; pr_status := Revoked;
       pr_proposed_revision := pr_proposed_revision p; pr_authorized_revision := pr_authorized_revision p;
       pr_authorized_epoch := pr_authorized_epoch p;
       pr_confirmation_evidence_id := pr_confirmation_evidence_id p;
       pr_compensation_obligation_id := pr_compensation_obligation_id p; pr_receipt_id := pr_receipt_id p |}
  else p.

(** The prior revision and whether the value is unchanged; an inherited prior has no
    revision and no value. *)
Definition recordMissionFact (d : MissionDefinition) (st : MissionState) (fact_id : jstr) (value : jsval)
    (authority : Authority) (evidence_id : jstr) (supersedes_revision : option Z) (at_ : jstr)
  : result string MissionState :=
  let* _ := checked d st in
  raise "mission fact id is invalid"%string when negb (ID fact_id) ;;
  let* _ := assertExternalId evidence_id in
  let* value := MissionJson_parse value in
  let* _ := validateJsonBounds value 65536 in
  let prior := get_property (ms_facts st) fact_id in
  let prior_revision := match prior with Own f => Some (mf_revision f) | _ => None end in
  let sameValue := match prior with Own f => canonicalText (mf_value f) =?s canonicalText value | _ => false end in
  let* _ :=
    match prior with
    | Absent =>
        raise "a new fact cannot supersede a missing revision"%string when
          bool_decide (supersedes_revision <> None) ;; Ok tt
    | _ =>
        raise "fact correction must supersede the current exact revision"%string when
          negb (bool_decide (supersedes_revision = prior_revision)) ;;
        raise "fact revision cannot be a no-op"%string when
          sameValue && match prior with Own f => bool_decide (mf_authority f = authority) | _ => false end ;;
        Ok tt
    end in
  let fact := {| mf_fact_id := fact_id; mf_revision := default 0 prior_revision + 1; mf_value := value;
    mf_authority := authority; mf_evidence_id := evidence_id; mf_recorded_at := at_;
    mf_supersedes_revision := prior_revision |} in
  appendEvent st
    (match prior with
     | Absent => "mission.fact_recorded"
     | _ => if sameValue then "mission.fact_authority_changed" else "mission.fact_corrected"
     end)
    (fact_json fact) at_ (patch_facts (put fact_id fact (ms_facts st)) (revoke <$> ms_proposals st)) true.

(** [obligation_id] is the given or generated id. *)
Definition openMissionObligation (d : MissionDefinition) (st : MissionState) (obligation_id type description : jstr)
    (owner : Owner) (blocks : Blocks) (scope_goal_id source_receipt_id compensation_action : option jstr)
    (at_ : jstr) : result string MissionState :=
  let* _ := checked d st in
  raise "mission obligation is invalid"%string when negb (ID type) || blank description ;;
  let* _ := match truthy scope_goal_id with Some g => let* _ := goal d g in Ok tt | None => Ok tt end in
  let* _ := match truthy compensation_action with Some c => let* _ := capability d c in Ok tt | None => Ok tt end in
  let* _ := assertExternalId obligation_id in
  raise "duplicate obligation id"%string when includes obligation_id (ob_id <$> ms_obligations st) ;;
  let obligation := {| ob_id := obligation_id; ob_type := type; ob_description := description; ob_owner := owner;
    ob_blocks := blocks;
    ob_scope_goal_id := match scope_goal_id with Some g => Some g | None => currentGoalId st end;
    ob_source_receipt_id := source_receipt_id; ob_compensation_action := compensation_action; ob_status := Open;
    ob_opened_revision := ms_revision st + 1; ob_settled_revision := None; ob_evidence_id := None |} in
  appendEvent st "mission.obligation_opened" (obligation_json obligation) at_
    (patch_actions (ms_proposals st) (ms_receipts st) (ms_obligations st ++ [obligation])) true.

Record MissionCapabilityDecision := {
  dc_action : jstr;
  dc_allowed : bool;
  dc_reason : string;
  dc_goal_id : option jstr;
  dc_risk : Risk;
  dc_capability_epoch : Z;
  dc_prerequisites : list (MissionPredicate * bool);
  dc_compensation_obligation_id : option jstr;
}.

Definition compensates (name : jstr) (o : MissionObligation) : bool :=
  bool_decide (ob_status o = Open) && bool_decide (ob_compensation_action o = Some name).

Definition blocked_by_obligation (st : MissionState) (item : MissionCapability) : bool :=
  bool_decide (ca_risk item = Irreversible) &&
  existsb (fun o => bool_decide (ob_status o = Open) && bool_decide (ob_blocks o = BlocksIrreversible) &&
    (bool_decide (truthy (ob_scope_goal_id o) = None) || bool_decide (ob_scope_goal_id o = currentGoalId st)))
    (ms_obligations st).

(** The decision on one disclosed capability. *)
Definition decide_capability (d : MissionDefinition) (st : MissionState) (name : jstr)
  : result string MissionCapabilityDecision :=
  let* item := capability d name in
  let current := currentGoalId st in
  let compensation := List.find (compensates name) (ms_obligations st) in
  let goalAllowed := match current with Some c => includes c (ca_goals item) | None => false end in
  let globallyAllowed := includes name (md_global_capabilities d) in
  let authority := goalAllowed || globallyAllowed || bool_decide (compensation <> None) in
  let prerequisites := (fun p => (p, evaluatePredicate st p current)) <$> ca_prerequisites item in
  let passed := forallb snd prerequisites in
  let blocked := blocked_by_obligation st item in
  let active := bool_decide (ms_status st = MissionActive) in
  Ok {| dc_action := name;
        dc_allowed := active && authority && passed && negb blocked;
        dc_reason :=
          if negb active then "mission_not_active"
          else if negb authority then "not_in_focused_authority"
          else if negb passed then "prerequisite_missing"
          else if blocked then "blocking_obligation" else "allowed";
        dc_goal_id := current; dc_risk := ca_risk item; dc_capability_epoch := ms_capability_epoch st;
        dc_prerequisites := prerequisites;
        dc_compensation_obligation_id := ob_id <$> compensation |}.

Fixpoint map_result {E A B} (f : A -> result E B) (l : list A) : result E (list B) :=
  match l with
  | [] => Ok []
  | x :: l => let* y := f x in let* ys := map_result f l in Ok (y :: ys)
  end.

(** The disclosed names, sorted. *)
Definition disclosed (d : MissionDefinition) (st : MissionState) (focused : list jstr) : list jstr :=
  sort_by str_ltb (uniq (md_global_capabilities d ++ focused ++
    omap (fun o => if bool_decide (ob_status o = Open) then truthy (ob_compensation_action o) else None)
      (ms_obligations st))).

Definition availableMissionCapabilities (d : MissionDefinition) (st : MissionState)
  : result string (list MissionCapabilityDecision) :=
  let* _ := checked d st in
  let* focused :=
    match truthy (currentGoalId st) with
    | Some c => let* g := goal d c in Ok (go_capabilities g)
    | None => Ok []
    end in
  map_result (decide_capability d st) (disclosed d st focused).

Definition idempotencyKey (item : MissionCapability) (goalId argumentsHash nonce : jstr) : jstr :=
  sha256_in "mission-proposal/v1"
    (JObj (field "action" (JStr (ca_name item)) ++ field "goal_id" (JStr goalId) ++
       match ca_idempotency item with
       | PerGoal => []
       | PerArguments => field "arguments_hash" (JStr argumentsHash)
       | NoIdempotency => field "nonce" (JStr nonce)
       end)).

Record Challenge := {
  ch_proposal_id : jstr; ch_proposal_digest : jstr; ch_prompt : jstr; ch_accepted_values : list jsval
}.
Record ProposeResult := {
  ps_state : MissionState;
  ps_proposal : MissionProposal;
  ps_challenge : option Challenge;
  ps_replayed : option MissionReceipt;
}.

Definition proposal_body (proposal_id goalId action argumentsHash key : jstr) (compensation : option jstr)
    (epoch proposedRevision : Z) : jsval :=
  JObj (field "proposal_id" (JStr proposal_id) ++ field "goal_id" (JStr goalId) ++ field "action" (JStr action) ++
    field "arguments_hash" (JStr argumentsHash) ++ field "idempotency_key" (JStr key) ++
    field "compensation_obligation_id" (nullable compensation) ++ field "capability_epoch" (jnat epoch) ++
    field "proposed_revision" (jnat proposedRevision)).

(** The proposal made for an allowed capability. *)
Definition new_proposal (st : MissionState) (item : MissionCapability) (proposal_id goalId : jstr)
    (args : obj jsval) (argumentsHash key : jstr) (compensation : option jstr) : MissionProposal :=
  let proposedRevision := ms_revision st + 1 in
  let authorized := bool_decide (ca_confirmation item = None) in
  {| pr_id := proposal_id;
     pr_digest := sha256_in "mission-proposal/v1" (proposal_body proposal_id goalId (ca_name item) argumentsHash
       key compensation (ms_capability_epoch st) proposedRevision);
     pr_goal_id := goalId; pr_action := ca_name item; pr_arguments := args; pr_arguments_hash := argumentsHash;
     pr_idempotency_key := key; pr_risk := ca_risk item;
     pr_status := if authorized then Authorized else Proposed;
     pr_proposed_revision := proposedRevision;
     pr_authorized_revision := if authorized then Some proposedRevision else None;
     pr_authorized_epoch := if authorized then Some (ms_capability_epoch st) else None;
     pr_confirmation_evidence_id := None; pr_compensation_obligation_id := compensation; pr_receipt_id := None |}.

(** [proposal_id] is the given or generated id, [nonce] the generated one. *)
Definition proposeMissionAction (d : MissionDefinition) (st : MissionState) (action : jstr) (arguments : obj jsval)
    (proposal_id nonce at_ : jstr) : result string ProposeResult :=
  let* _ := checked d st in
  let* item := capability d action in
  let* decisions := availableMissionCapabilities d st in
  match List.find (fun c => dc_action c =?s action) decisions with
  | None => error "mission capability denied: not_disclosed"
  | Some decision =>
      match (if dc_allowed decision then truthy (dc_goal_id decision) else None) with
      | None => error "mission capability denied"
      | Some goalId =>
          raise "invalid arguments"%string when
            negb (forallb (fun kv => (length kv.1 <=? 256)%nat && MissionJsonSchema_ok kv.2) arguments) ;;
          let* _ := validateJsonBounds (JObj arguments) 262144 in
          let argumentsHash := sha256 (canonicalText (JObj arguments)) in
          let key := idempotencyKey item goalId argumentsHash nonce in
          let replayed :=
            if bool_decide (ca_idempotency item = NoIdempotency) then None
            else List.find (fun r => (rc_idempotency_key r =?s key) && bool_decide (rc_status r = RSucceeded))
                   (ms_receipts st) in
          match replayed with
          | Some receipt =>
              match List.find (fun p => pr_id p =?s rc_proposal_id receipt) (ms_proposals st) with
              | None => error "successful receipt is missing its proposal"
              | Some proposal => Ok {| ps_state := st; ps_proposal := proposal; ps_challenge := None;
                                       ps_replayed := Some receipt |}
              end
          | None =>
              let* _ := assertExternalId proposal_id in
              raise "duplicate proposal id"%string when includes proposal_id (pr_id <$> ms_proposals st) ;;
              let proposal := new_proposal st item proposal_id goalId arguments argumentsHash key
                (dc_compensation_obligation_id decision) in
              let* next := appendEvent st "mission.action_proposed"
                (proposal_body proposal_id goalId (ca_name item) argumentsHash key
                   (dc_compensation_obligation_id decision) (ms_capability_epoch st) (ms_revision st + 1))
                at_ (patch_actions (ms_proposals st ++ [proposal]) (ms_receipts st) (ms_obligations st)) false in
              Ok {| ps_state := next; ps_proposal := proposal;
                    ps_challenge := (fun f => {| ch_proposal_id := proposal_id;
                      ch_proposal_digest := pr_digest proposal; ch_prompt := mc_prompt f;
                      ch_accepted_values := mc_accepted_values f |}) <$> ca_confirmation item;
                    ps_replayed := None |}
          end
      end
  end.

Definition find_proposal (st : MissionState) (id : jstr) : option MissionProposal :=
  List.find (fun p => pr_id p =?s id) (ms_proposals st).

Definition authorize (revision epoch : Z) (evidence_id : jstr) (p : MissionProposal) : MissionProposal :=
  {| pr_id := pr_id p; pr_digest := pr_digest p; pr_goal_id := pr_goal_id p; pr_action := pr_action p;
     pr_arguments := pr_arguments p; pr_arguments_hash := pr_arguments_hash p;
     pr_idempotency_key := pr_idempotency_key p; pr_risk := pr_risk p; pr_status := Authorized;
     pr_proposed_revision := pr_proposed_revision p; pr_authorized_revision := Some revision;
     pr_authorized_epoch := Some epoch; pr_confirmation_evidence_id := Some evidence_id;
     pr_compensation_obligation_id := pr_compensation_obligation_id p; pr_receipt_id := pr_receipt_id p |}.

(** [proposals.map(candidate => candidate.proposal_id === id ? f(candidate) : candidate)] *)
Definition update_proposal (id : jstr) (f : MissionProposal -> MissionProposal) (l : list MissionProposal)
  : list MissionProposal := (fun p => if pr_id p =?s id then f p else p) <$> l.

Definition authorizeMissionAction (d : MissionDefinition) (st : MissionState) (proposal_id proposal_digest
    evidence_id : jstr) (authority : Authority) (value : jsval) (observed_after_revision : Z) (at_ : jstr)
  : result string MissionState :=
  let* _ := checked d st in
  match find_proposal st proposal_id with
  | None => error "mission proposal is not awaiting confirmation"
  | Some proposal =>
      raise "mission proposal is not awaiting confirmation"%string when
        negb (bool_decide (pr_status proposal = Proposed)) ;;
      raise "confirmation is not bound to the exact proposal"%string when
        negb (pr_digest proposal =?s proposal_digest) ;;
      let* item := capability d (pr_action proposal) in
      match ca_confirmation item with
      | None => error "mission proposal does not require confirmation"
      | Some confirmation =>
          let* _ := assertExternalId evidence_id in
          raise "confirmation was not observed after the proposal"%string when
            (observed_after_revision <=? pr_proposed_revision proposal) ||
            (ms_revision st + 1 <? observed_after_revision) ;;
          raise "confirmation authority is not accepted"%string when
            negb (includes authority (mc_authorities confirmation)) ;;
          let* value := MissionJson_parse value in
          let* _ := validateJsonBounds value 65536 in
          raise "confirmation value is not accepted"%string when
            negb (existsb (fun c => canonicalText c =?s canonicalText value) (mc_accepted_values confirmation)) ;;
          raise "proposal goal is no longer focused"%string when
            negb (bool_decide (currentGoalId st = Some (pr_goal_id proposal))) ;;
          appendEvent st "mission.action_authorized"
            (JObj (field "proposal_id" (JStr (pr_id proposal)) ++
               field "proposal_digest" (JStr (pr_digest proposal)) ++ field "evidence_id" (JStr evidence_id) ++
               field "authority" (jtext (authority_text authority)) ++ field "value" value))
            at_ (patch_actions (update_proposal (pr_id proposal)
                   (authorize (ms_revision st + 1) (ms_capability_epoch st) evidence_id) (ms_proposals st))
                   (ms_receipts st) (ms_obligations st)) false
      end
  end.

Definition satisfy (revision : Z) (receiptId : jstr) (o : MissionObligation) : MissionObligation :=
  {| ob_id := ob_id o; ob_type := ob_type o; ob_description := ob_description o; ob_owner := ob_owner o;
     ob_blocks := ob_blocks o; ob_scope_goal_id := ob_scope_goal_id o;
     ob_source_receipt_id := ob_source_receipt_id o; ob_compensation_action := ob_compensation_action o;
     ob_status := Satisfied; ob_opened_revision := ob_opened_revision o; ob_settled_revision := Some revision;
     ob_evidence_id := Some receiptId |}.

Definition satisfyObligations (obligations : list MissionObligation) (types : list jstr) (goalId : jstr)
    (revision : Z) (receiptId : jstr) : list MissionObligation :=
  (fun o => if bool_decide (ob_status o = Open) && bool_decide (ob_scope_goal_id o = Some goalId) &&
               includes (ob_type o) types
            then satisfy revision receiptId o else o) <$> obligations.

Definition open_obligation (id type description : jstr) (owner : Owner) (blocks : Blocks) (goalId receiptId : jstr)
    (compensation : option jstr) (revision : Z) : MissionObligation :=
  {| ob_id := id; ob_type := type; ob_description := description; ob_owner := owner; ob_blocks := blocks;
     ob_scope_goal_id := Some goalId; ob_source_receipt_id := Some receiptId;
     ob_compensation_action := compensation; ob_status := Open; ob_opened_revision := revision;
     ob_settled_revision := None; ob_evidence_id := None |}.

(** The obligations a successful action opens. *)
Definition opened_by (item : MissionCapability) (goalId receiptId : jstr) (revision : Z) : list MissionObligation :=
  (fun t => open_obligation (js "obl:" ++ receiptId ++ js ":" ++ ot_type t) (ot_type t) (ot_description t)
     (ot_owner t) (ot_blocks t) goalId receiptId None revision) <$> ca_opens_obligations item.

(** The compensations owed when an action of a saga fails: one per earlier success of the
    group that declares one. *)
Definition compensation_for (d : MissionDefinition) (group : jstr) (r : MissionReceipt) : option jstr :=
  if bool_decide (rc_status r = RSucceeded) then
    c ← find_capability d (rc_action r); s ← ca_saga c;
    if sg_group s =?s group then truthy (sg_compensation_action s) else None
  else None.

Definition owe_compensation (d : MissionDefinition) (item : MissionCapability) (group goalId : jstr) (revision : Z)
    (obligations : list MissionObligation) (prior : MissionReceipt) : list MissionObligation :=
  match compensation_for d group prior with
  | None => obligations
  | Some compensationAction =>
      let id := js "obl:compensate:" ++ rc_id prior in
      if includes id (ob_id <$> obligations) then obligations
      else obligations ++ [open_obligation id (js "compensate:" ++ rc_action prior)
             (js "Compensate " ++ rc_action prior ++ js " after " ++ ca_name item ++
              js " did not complete safely.") OwnSystem BlocksMission goalId (rc_id prior)
             (Some compensationAction) revision]
  end.

Definition with_receipt_status (s : ReceiptStatus) (r : MissionReceipt) : MissionReceipt :=
  {| rc_id := rc_id r; rc_proposal_id := rc_proposal_id r; rc_goal_id := rc_goal_id r; rc_action := rc_action r;
     rc_arguments_hash := rc_arguments_hash r; rc_idempotency_key := rc_idempotency_key r; rc_status := s;
     rc_result := rc_result r; rc_result_hash := rc_result_hash r; rc_settled_revision := rc_settled_revision r |}.

Definition settle_proposal (s : ReceiptStatus) (receiptId : jstr) (p : MissionProposal) : MissionProposal :=
  {| pr_id := pr_id p; pr_digest := pr_digest p; pr_goal_id := pr_goal_id p; pr_action := pr_action p;
     pr_arguments := pr_arguments p; pr_arguments_hash := pr_arguments_hash p;
     pr_idempotency_key := pr_idempotency_key p; pr_risk := pr_risk p;
     pr_status := if bool_decide (s = RIndeterminate) then ProposalIndeterminate else Settled;
     pr_proposed_revision := pr_proposed_revision p; pr_authorized_revision := pr_authorized_revision p;
     pr_authorized_epoch := pr_authorized_epoch p;
     pr_confirmation_evidence_id := pr_confirmation_evidence_id p;
     pr_compensation_obligation_id := pr_compensation_obligation_id p; pr_receipt_id := Some receiptId |}.

(** The obligations after settling, before a compensation is booked. *)
Definition settled_obligations (d : MissionDefinition) (st : MissionState) (item : MissionCapability)
    (goalId receiptId : jstr) (status : ReceiptStatus) : list MissionObligation :=
  let revision := ms_revision st + 1 in
  let obligations :=
    if bool_decide (status = RSucceeded) || bool_decide (status = RCompensated)
    then satisfyObligations (ms_obligations st) (ca_satisfies_obligation_types item) goalId revision receiptId ++
         opened_by item goalId receiptId revision
    else ms_obligations st in
  match (if bool_decide (status = RFailed) || bool_decide (status = RIndeterminate) then ca_saga item else None) with
  | Some saga => fold_left (owe_compensation d item (sg_group saga) goalId revision) (ms_receipts st) obligations
  | None => obligations
  end.

(** Booking a compensation: the obligation is satisfied and its source receipt marked. *)
Definition book_compensation (st : MissionState) (proposal : MissionProposal) (receiptId : jstr)
    (obligations : list MissionObligation) : result string (list MissionObligation * list MissionReceipt) :=
  match truthy (pr_compensation_obligation_id proposal) with
  | None => error "compensated settlement is not bound to a compensation obligation"
  | Some id =>
      let obligations := (fun o =>
        if bool_decide (ob_status o = Open) && (ob_id o =?s id) &&
           bool_decide (ob_compensation_action o = Some (pr_action proposal))
        then satisfy (ms_revision st + 1) receiptId o else o) <$> obligations in
      match (o ← List.find (fun o => ob_id o =?s id) obligations; truthy (ob_source_receipt_id o)) with
      | None => error "compensation obligation has no source receipt"
      | Some source => Ok (obligations, (fun r => if rc_id r =?s source then with_receipt_status RCompensated r
                                                  else r) <$> ms_receipts st)
      end
  end.

Definition settleMissionAction (d : MissionDefinition) (st : MissionState) (proposal_id receipt_id : jstr)
    (status : ReceiptStatus) (outcome : option jsval) (at_ : jstr) : result string MissionState :=
  let* _ := checked d st in
  match find_proposal st proposal_id with
  | None => error "mission action is not authorized for settlement"
  | Some proposal =>
      raise "mission action is not authorized for settlement"%string when
        negb (bool_decide (pr_status proposal = Authorized)) ;;
      raise "mission action goal is no longer focused"%string when
        negb (bool_decide (currentGoalId st = Some (pr_goal_id proposal))) ;;
      raise "mission action authority was revoked by a newer state revision"%string when
        negb (bool_decide (pr_authorized_epoch proposal = Some (ms_capability_epoch st))) ;;
      let* _ := assertExternalId receipt_id in
      raise "mission receipt id is empty or duplicated"%string when includes receipt_id (rc_id <$> ms_receipts st) ;;
      let* item := capability d (pr_action proposal) in
      let* value := match outcome with None => Ok JNull | Some v => MissionJson_parse v end in
      let* _ := validateJsonBounds value 1048576 in
      let receipt := {| rc_id := receipt_id; rc_proposal_id := pr_id proposal; rc_goal_id := pr_goal_id proposal;
        rc_action := pr_action proposal; rc_arguments_hash := pr_arguments_hash proposal;
        rc_idempotency_key := pr_idempotency_key proposal; rc_status := status; rc_result := value;
        rc_result_hash := match value with JNull => None | _ => Some (sha256 (canonicalText value)) end;
        rc_settled_revision := ms_revision st + 1 |} in
      let obligations := settled_obligations d st item (pr_goal_id proposal) receipt_id status in
      let* booked :=
        if bool_decide (status = RCompensated) then book_compensation st proposal receipt_id obligations
        else Ok (obligations, ms_receipts st) in
      appendEvent st "mission.action_settled" (receipt_json receipt) at_
        (patch_actions (update_proposal (pr_id proposal) (settle_proposal status receipt_id) (ms_proposals st))
           (booked.2 ++ [receipt]) booked.1) true
  end.

(** The goals and the stack once the focused goal has left it. *)
Definition resume (st : MissionState) (id : jstr) (status : GoalStatus) : obj (GoalStatus * Z) * list jstr :=
  let goals := put id (status, from_option snd 0 (own id (ms_goals st))) (ms_goals st) in
  let stack := take (length (ms_focus_stack st) - 1) (ms_focus_stack st) in
  (match truthy (last stack) with
   | Some r => put r (GoalActive, from_option snd 0 (own r goals)) goals
   | None => goals
   end, stack).

Definition resumed_json (stack : list jstr) : jsval := nullable (last stack).

Definition focused_active (st : MissionState) (id : jstr) : bool :=
  bool_decide (currentGoalId st = Some id) && bool_decide (goal_status st id = Some GoalActive).

Definition completeMissionGoal (d : MissionDefinition) (st : MissionState) (goal_id at_ : jstr)
  : result string MissionState :=
  let* _ := checked d st in
  let* selected := goal d goal_id in
  raise "only the focused active goal can complete"%string when negb (focused_active st (go_id selected)) ;;
  raise "goal is missing completion predicates"%string when
    negb (forallb (fun p => evaluatePredicate st p (Some (go_id selected))) (go_completion selected)) ;;
  raise "goal has open obligations"%string when
    existsb (fun o => bool_decide (ob_status o = Open) && bool_decide (ob_blocks o = BlocksGoal) &&
      (bool_decide (truthy (ob_scope_goal_id o) = None) ||
       bool_decide (ob_scope_goal_id o = Some (go_id selected)))) (ms_obligations st) ;;
  let '(goals, stack) := resume st (go_id selected) GoalCompleted in
  appendEvent st "mission.goal_completed"
    (JObj (field "goal_id" (JStr (go_id selected)) ++ field "resumed_goal_id" (resumed_json stack)))
    at_ (patch_goals goals stack) true.

Definition unresolved (p : MissionProposal) : bool :=
  bool_decide (pr_status p = Proposed) || bool_decide (pr_status p = Authorized) ||
  bool_decide (pr_status p = ProposalIndeterminate).

Definition abandonMissionGoal (d : MissionDefinition) (st : MissionState) (goal_id reason evidence_id at_ : jstr)
  : result string MissionState :=
  let* _ := checked d st in
  let* selected := goal d goal_id in
  raise "required goal cannot be abandoned"%string when go_required selected ;;
  raise "only the focused active goal can be abandoned"%string when negb (focused_active st (go_id selected)) ;;
  raise "goal abandonment requires a bounded reason"%string when blank reason || (1000 <? length reason)%nat ;;
  let* _ := assertExternalId evidence_id in
  raise "goal has unresolved obligations"%string when
    existsb (fun o => bool_decide (ob_status o = Open) && bool_decide (ob_scope_goal_id o = Some (go_id selected)))
      (ms_obligations st) ;;
  raise "goal has unresolved actions"%string when
    existsb (fun p => (pr_goal_id p =?s go_id selected) && unresolved p) (ms_proposals st) ;;
  let '(goals, stack) := resume st (go_id selected) Abandoned in
  appendEvent st "mission.goal_abandoned"
    (JObj (field "goal_id" (JStr (go_id selected)) ++ field "reason" (JStr reason) ++
       field "evidence_id" (JStr evidence_id) ++ field "resumed_goal_id" (resumed_json stack)))
    at_ (patch_goals goals stack) true.

Definition completeMission (d : MissionDefinition) (st : MissionState) (at_ : jstr) : result string MissionState :=
  let* _ := checked d st in
  raise "mission has incomplete required goals"%string when
    existsb (fun g => go_required g && negb (bool_decide (goal_status st (go_id g) = Some GoalCompleted)))
      (md_goals d) ;;
  raise "mission still has an active or suspended goal"%string when
    negb (bool_decide (ms_focus_stack st = [])) ||
    existsb (fun kv => bool_decide (kv.2.1 = GoalActive) || bool_decide (kv.2.1 = Suspended)) (ms_goals st) ;;
  raise "mission has open completion obligations"%string when
    existsb (fun o => bool_decide (ob_status o = Open)) (ms_obligations st) ;;
  raise "mission has unresolved action proposals"%string when existsb unresolved (ms_proposals st) ;;
  appendEvent st "mission.completed"
    (JObj (field "completed_goals"
       (texts (keys (List.filter (fun kv => bool_decide (kv.2.1 = GoalCompleted)) (ms_goals st))))))
    at_ patch_completed true.

Definition bijective (st : MissionState) (r : MissionReceipt) : bool :=
  match find_proposal st (rc_proposal_id r) with
  | Some p => bool_decide (pr_receipt_id p = Some (rc_id r))
  | None => false
  end.

(** [verifyMissionState]: the errors found. *)
Definition verifyMissionState (d : MissionDefinition) (st : MissionState) : list string :=
  match checked d st with
  | Err e => [e]
  | Ok _ =>
      flat_map (fun kv : jstr * (GoalStatus * Z) =>
        (if includes kv.1 (go_id <$> md_goals d) then [] else ["state has unknown goal"%string]) ++
        (if kv.2.2 <? 0 then ["goal activation count is invalid"%string] else [])) (ms_goals st) ++
      (if (length (ms_goals st) =? length (md_goals d))%nat then [] else ["state goal catalog is incomplete"%string]) ++
      (if nodupb (ob_id <$> ms_obligations st) then [] else ["obligation ids are not unique"%string]) ++
      (if nodupb (pr_id <$> ms_proposals st) then [] else ["proposal ids are not unique"%string]) ++
      (if nodupb (rc_id <$> ms_receipts st) then [] else ["receipt ids are not unique"%string]) ++
      flat_map (fun r => if bijective st r then [] else ["receipt is not bijective with its proposal"%string])
        (ms_receipts st)
  end.
End Runtime.

End Mission.
