(* ===== verification/MissionGraph.v ===== *)
(** * The dependency graph of a mission definition

    The depth-first search of [MissionDefinitionSchema] (src/web/lib/mission-runtime.ts)
    reports a cycle exactly when there is one, and its recursion is never deeper than the
    fuel it is given. *)

From stdpp Require Import relations.
From S2P Require Import Prelude JsValue JsText Canonical JsDate Graph Flow FlowValidate FlowRuntime.
From S2P Require Import Mission.
Import Mission.

Section Search.
Context (d : MissionDefinition).
Implicit Types (g : jstr) (visiting visited : list jstr).

Definition dependencies g : list jstr := from_option go_depends_on [] (find_goal d g).
Definition depends g g' : Prop := g' ∈ dependencies g.
Definition declared : list jstr := go_id <$> md_goals d.

(** All chains of dependencies from a goal end. *)
Definition grounded g : Prop := Acc (flip depends) g.

Lemma depends_declared g g' : depends g g' -> g ∈ declared.
Proof.
  unfold depends, dependencies, declared. destruct (find_goal d g) as [x|] eqn:E; [|by intros ?%elem_of_nil].
  intros _. unfold find_goal in E. apply find_elem in E as [Hx Hid]. to_prop. subst. by apply list_elem_of_fmap_2.
Qed.

(** The loop over the dependencies, as a function of its own. *)
Fixpoint visit_all (fuel : nat) visiting (l : list jstr) visited : bool * list jstr :=
  match l with
  | [] => (false, visited)
  | g :: l =>
      let '(cyclic, visited) := visit fuel d visiting visited g in
      if cyclic then (true, visited) else visit_all fuel visiting l visited
  end.

Lemma visit_S fuel visiting visited g :
  visit (S fuel) d visiting visited g =
  if includes g visiting then (true, visited)
  else if includes g visited then (false, visited)
  else let '(cyclic, visited) := visit_all fuel (g :: visiting) (dependencies g) visited in
       (cyclic, g :: visited).
Proof.
  cbn [visit]. destruct (includes g visiting); [done|]. destruct (includes g visited); [done|].
  fold (dependencies g). generalize (dependencies g) as l. intros l.
  match goal with |- context [?f l visited] => assert (forall v, f l v = visit_all fuel (g :: visiting) l v) as -> end;
    [|done].
  induction l as [|x l IH]; intros v; [done|]. cbn [visit_all].
  destruct (visit fuel d (g :: visiting) v x) as [[] v']; [done | apply IH].
Qed.

(** The search path is a list of distinct declared goals, and the fuel covers the rest. *)
Definition on_path fuel visiting : Prop :=
  NoDup visiting /\ visiting ⊆ declared /\ (S (S (length declared)) <= fuel + length visiting)%nat.

Lemma path_short fuel visiting : on_path fuel visiting -> (2 <= fuel)%nat.
Proof.
  intros (Hn & Hs & Hf). pose proof (submseteq_length _ _ (NoDup_submseteq _ _ Hn Hs)). lia.
Qed.

Lemma path_push fuel visiting g g' :
  on_path (S fuel) visiting -> g ∉ visiting -> depends g g' -> on_path fuel (g :: visiting).
Proof.
  intros (Hn & Hs & Hf) Hg Hd%depends_declared. unfold on_path. cbn [length].
  split_and!; [by constructor | set_solver | lia].
Qed.

(** No cycle found: everything visited is grounded. *)
Lemma visit_grounded fuel : forall visiting visited g visited',
  on_path fuel visiting -> Forall grounded visited ->
  visit fuel d visiting visited g = (false, visited') -> Forall grounded visited' /\ grounded g.
Proof.
  induction fuel as [|fuel IH]; intros visiting visited g visited' Hp Hv H.
  { pose proof (path_short _ _ Hp). lia. }
  rewrite visit_S in H. destruct (includes g visiting) eqn:E1; [discriminate H|].
  destruct (includes g visited) eqn:E2; to_prop.
  { injection H as <-. split; [done|]. by rewrite Forall_forall in Hv; apply Hv. }
  destruct (visit_all fuel (g :: visiting) (dependencies g) visited) as [cyclic v] eqn:Ea. injection H as -> <-.
  assert (forall l w w', l ⊆ dependencies g -> Forall grounded w ->
    visit_all fuel (g :: visiting) l w = (false, w') -> Forall grounded w' /\ Forall grounded l) as Hall.
  { induction l as [|x l IHl]; intros w w' Hl Hw Hx; cbn [visit_all] in Hx; [by simplify_eq|].
    destruct (visit fuel d (g :: visiting) w x) as [[] w1] eqn:Ex; [discriminate Hx|].
    assert (depends g x) as Hd by (apply Hl; left).
    destruct (IH _ _ _ _ (path_push _ _ _ _ Hp E1 Hd) Hw Ex) as [Hw1 Hgx].
    destruct (IHl w1 w') as [Hw' Hgl]; [set_solver | done | done|]. split; [done | by constructor]. }
  destruct (Hall (dependencies g) visited v) as [Hv' Hl]; [done..|].
  assert (grounded g) as Hg.
  { constructor. intros y Hy. rewrite Forall_forall in Hl. by apply Hl. }
  split; [by constructor | done].
Qed.

(** A cycle reported is a cycle. *)
Lemma visit_cycle fuel : forall visiting visited g visited',
  (forall v, v ∈ visiting -> tc depends v g) -> visit fuel d visiting visited g = (true, visited') ->
  exists v, tc depends v v.
Proof.
  induction fuel as [|fuel IH]; intros visiting visited g visited' Hp H; [discriminate H|].
  rewrite visit_S in H. destruct (includes g visiting) eqn:E1; to_prop; [by exists g; apply Hp|].
  destruct (includes g visited); [discriminate H|].
  destruct (visit_all fuel (g :: visiting) (dependencies g) visited) as [cyclic v] eqn:Ea. injection H as -> _.
  assert (forall l w w', l ⊆ dependencies g -> visit_all fuel (g :: visiting) l w = (true, w') ->
    exists v, tc depends v v) as Hall; [|by eapply (Hall (dependencies g))].
  induction l as [|x l IHl]; intros w w' Hl Hx; cbn [visit_all] in Hx; [discriminate Hx|].
  assert (depends g x) as Hd by (apply Hl; left).
  destruct (visit fuel d (g :: visiting) w x) as [[] w1] eqn:Ex.
  - eapply IH; [|exact Ex]. intros y [->|Hy]%elem_of_cons; [by apply tc_once|].
    eapply tc_r; [by apply Hp | done].
  - eapply IHl; [set_solver | done].
Qed.

Lemma path_start : on_path (S (S (length (md_goals d)))) [].
Proof. unfold on_path, declared. rewrite length_fmap. cbn. split_and!; [apply NoDup_nil_2 | set_solver | lia]. Qed.

Lemma cyclic_from_false l : forall visited,
  Forall grounded visited -> cyclic_from d visited l = false -> Forall grounded (go_id <$> l).
Proof.
  induction l as [|x l IH]; intros visited Hv H; [constructor|]. cbn [cyclic_from] in H.
  destruct (visit _ d [] visited (go_id x)) as [cyclic v] eqn:E. apply orb_false_iff in H as [-> H].
  destruct (visit_grounded _ _ _ _ _ path_start Hv E) as [Hv' Hg]. csimpl. constructor; [done | by eapply IH].
Qed.

Lemma cyclic_from_true l : forall visited, cyclic_from d visited l = true -> exists v, tc depends v v.
Proof.
  induction l as [|x l IH]; intros visited H; [discriminate H|]. cbn [cyclic_from] in H.
  destruct (visit _ d [] visited (go_id x)) as [cyclic v] eqn:E. apply orb_true_iff in H as [->|H].
  - eapply visit_cycle; [|exact E]. by intros v' ?%elem_of_nil.
  - by eapply IH.
Qed.

Lemma grounded_no_cycle g : grounded g -> ~ tc depends g g.
Proof.
  intros Hg. induction Hg as [g _ IH]. intros Hc.
  assert (exists y, depends g y /\ tc depends y y) as (y & Hy & Hyy); [|by apply (IH y)].
  inversion Hc as [? y Hy|? y ? Hy Hyg]; subst; [by exists g|].
  exists y. split; [done|]. eapply tc_r; [exact Hyg | done].
Qed.

Lemma accepted_closed x : MissionDefinitionSchema_ok d = true -> x ∈ md_goals d -> go_depends_on x ⊆ declared.
Proof.
  unfold MissionDefinitionSchema_ok. intros H Hx y Hy. to_prop.
  match goal with Hr : forallb (goal_refined d) _ = true |- _ => rewrite forallb_elem in Hr; specialize (Hr x Hx) end.
  unfold goal_refined in *. to_prop.
  match goal with Hc : forallb _ (go_depends_on x) = true |- _ => rewrite forallb_elem in Hc; specialize (Hc y Hy) end.
  by to_prop.
Qed.

(** The search for dependency cycles is exact and never runs out of its recursion bound: it
    reports no cycle precisely when no goal depends on itself through others. Under an
    accepted definition, whatever goals are finished, some unfinished goal has all its
    dependencies finished. *)
Theorem cycle_search_exact :
  (cyclic_from d [] (md_goals d) = false <-> forall g, ~ tc depends g g) /\
  (MissionDefinitionSchema_ok d = true ->
   forall finished : jstr -> bool, (exists g, g ∈ declared /\ finished g = false) ->
   exists g, g ∈ declared /\ finished g = false /\ forall g', depends g g' -> finished g' = true).
Proof.
  assert (cyclic_from d [] (md_goals d) = false -> forall g, grounded g) as Hground.
  { intros H g. pose proof (cyclic_from_false _ [] (Forall_nil_2 _) H) as Hl. rewrite Forall_forall in Hl.
    destruct (decide (g ∈ declared)) as [Hd|Hd]; [by apply Hl|].
    constructor. intros y Hy%depends_declared. done. }
  split.
  - split; [intros H g; by apply grounded_no_cycle, Hground|].
    intros Hn. destruct (cyclic_from _ _ _) eqn:E; [|done]. apply cyclic_from_true in E as [v Hv]. by destruct (Hn v).
  - intros Hok finished (g & Hg & Hf). pose proof (fun x => accepted_closed x Hok) as Hclosed.
    unfold MissionDefinitionSchema_ok in Hok. to_prop. specialize (Hground ltac:(done) g). induction Hground as [g _ IH].
    destruct (forallb finished (dependencies g)) eqn:E.
    + exists g. split_and!; [done..|]. intros g' Hg'. rewrite forallb_elem in E. by apply E.
    + apply not_true_iff_false in E. rewrite forallb_elem in E.
      assert (exists y, y ∈ dependencies g /\ finished y = false) as (y & Hy & Hfy).
      { destruct (existsb (fun y => negb (finished y)) (dependencies g)) eqn:Ex.
        - apply existsb_elem in Ex as (y & ? & ?). to_prop. eauto.
        - rewrite existsb_elem_false in Ex. destruct E. intros y Hy. specialize (Ex y Hy). by to_prop. }
      apply (IH y Hy); [|done].
      unfold dependencies, find_goal in Hy. destruct (List.find _ _) as [x|] eqn:Ef; [|by apply elem_of_nil in Hy].
      apply find_elem in Ef as [Hx _]. by apply (Hclosed x).
Qed.
End Search.
