(* ===== verification/MissionInvariant.v ===== *)
(** * Invariants of the mission runtime

    The operations as one step relation, the states reachable with it, and what holds in
    all of them: the event chain and the state head verify, the focus stack agrees with the
    goals, receipts match their proposals, and authority is tied to the capability epoch. *)

From S2P Require Import Prelude JsValue JsText Canonical JsDate Graph Flow FlowValidate FlowRuntime.
From S2P Require Import Mission.
Import Mission.

Local Open Scope Z_scope.

(** ** Operations as steps *)

Inductive MissionOp : Type :=
| OpActivate (goal_id : jstr) (mode : ActivationMode) (at_ : jstr)
| OpFact (fact_id : jstr) (value : jsval) (authority : Authority) (evidence_id : jstr)
    (supersedes_revision : option Z) (at_ : jstr)
| OpOpen (obligation_id type description : jstr) (owner : Owner) (blocks : Blocks)
    (scope_goal_id source_receipt_id compensation_action : option jstr) (at_ : jstr)
| OpPropose (action : jstr) (arguments : obj jsval) (proposal_id nonce at_ : jstr)
| OpAuthorize (proposal_id proposal_digest evidence_id : jstr) (authority : Authority) (value : jsval)
    (observed_after_revision : Z) (at_ : jstr)
| OpSettle (proposal_id receipt_id : jstr) (status : ReceiptStatus) (outcome : option jsval) (at_ : jstr)
| OpCompleteGoal (goal_id at_ : jstr)
| OpAbandon (goal_id reason evidence_id at_ : jstr)
| OpComplete (at_ : jstr).

Section Steps.
Context `{HS : Sha256}.
Implicit Types (d : MissionDefinition) (st : MissionState) (e : MissionEvent) (p : MissionProposal).

Definition apply_op d st (op : MissionOp) : result string MissionState :=
  match op with
  | OpActivate goal_id mode at_ => activateMissionGoal d st goal_id mode at_
  | OpFact id v a ev sup at_ => recordMissionFact d st id v a ev sup at_
  | OpOpen id ty de ow bl sc so co at_ => openMissionObligation d st id ty de ow bl sc so co at_
  | OpPropose a args id nonce at_ => let* r := proposeMissionAction d st a args id nonce at_ in Ok (ps_state r)
  | OpAuthorize id dg ev a v obs at_ => authorizeMissionAction d st id dg ev a v obs at_
  | OpSettle id rid s o at_ => settleMissionAction d st id rid s o at_
  | OpCompleteGoal g at_ => completeMissionGoal d st g at_
  | OpAbandon g re ev at_ => abandonMissionGoal d st g re ev at_
  | OpComplete at_ => completeMission d st at_
  end.

Inductive reachable d : MissionState -> Prop :=
| reach_create at_ st : createMissionState d at_ = Ok st -> reachable d st
| reach_step op st st' : reachable d st -> apply_op d st op = Ok st' -> reachable d st'.

(** Runs in which no activation leads to a goal that is suspended on the stack. *)
Definition op_ok st (op : MissionOp) : Prop :=
  match op with
  | OpActivate goal_id _ _ => goal_status st goal_id <> Some Suspended
  | _ => True
  end.

Inductive orderly d : MissionState -> Prop :=
| orderly_create at_ st : createMissionState d at_ = Ok st -> orderly d st
| orderly_step op st st' : orderly d st -> op_ok st op -> apply_op d st op = Ok st' -> orderly d st'.

(** ** Appending an event *)

Definition advance (p : MissionState) (revision epoch : Z) (events : list MissionEvent) : MissionState :=
  mkMission (ms_mission_id p) (ms_mission_version p) (ms_definition_hash p) (ms_status p) revision epoch
    (ms_goals p) (ms_focus_stack p) (ms_facts p) (ms_obligations p) (ms_proposals p) (ms_receipts p) events.

(** An event in its place behind [events], for the state it leads to. *)
Definition event_linked (events : list MissionEvent) e st' : Prop :=
  me_sequence e = Z.of_nat (length events) + 1 /\ me_previous_event_hash e = me_event_hash <$> last events /\
  me_event_hash e = eventHash e /\ me_state_head_hash e = stateHeadHash st'.

Lemma appendEvent_Ok st type payload at_ patch rotate st' :
  appendEvent st type payload at_ patch rotate = Ok st' ->
  exists e, st' = advance (patch st) (ms_revision st + 1)
      (if rotate then ms_capability_epoch st + 1 else ms_capability_epoch st) (ms_events st ++ [e]) /\
    event_linked (ms_events st) e st' /\ me_revision e = ms_revision st + 1.
Proof.
  unfold appendEvent. intros H. destruct (canonical_ms at_); [|discriminate H].
  destruct (match _ with Some _ => _ | None => _ end); [discriminate H|].
  injection H as <-. eexists. split; [reflexivity|]. split; [by split_and! | done].
Qed.

(** ** The event chain *)

Lemma chain_snoc events e : forall index previous,
  chain_intact index previous (events ++ [e]) = true <->
  chain_intact index previous events = true /\
  me_sequence e = index + Z.of_nat (length events) + 1 /\ me_revision e = index + Z.of_nat (length events) + 1 /\
  me_previous_event_hash e = match last events with Some l => Some (me_event_hash l) | None => previous end /\
  me_event_hash e = eventHash e.
Proof.
  induction events as [|e0 events IH]; intros index previous.
  - cbn [app chain_intact length Z.of_nat last].
    rewrite !andb_true_iff, !Z.eqb_eq, bool_decide_eq_true, str_eqb_eq, Z.add_0_r. naive_solver.
  - cbn [app chain_intact]. rewrite !andb_true_iff, IH. rewrite last_cons. cbn [length].
    replace (index + 1 + Z.of_nat (length events)) with (index + Z.of_nat (S (length events))) by lia.
    destruct (last events); naive_solver.
Qed.

(** The chain, the revision and the state head verify. *)
Definition ledger_ok st : Prop :=
  chain_intact 0 None (ms_events st) = true /\ ms_revision st = Z.of_nat (length (ms_events st)) /\
  me_state_head_hash <$> last (ms_events st) = Some (stateHeadHash st).

Definition ledger_base st : Prop :=
  chain_intact 0 None (ms_events st) = true /\ ms_revision st = Z.of_nat (length (ms_events st)).

Lemma ledger_append st type payload at_ patch rotate st' :
  appendEvent st type payload at_ patch rotate = Ok st' -> ledger_base st -> ledger_ok st'.
Proof.
  intros (e & -> & (H1 & H2 & H3 & H4) & H5)%appendEvent_Ok [Hc Hr].
  unfold ledger_ok. simpl. rewrite last_snoc. split_and!; [|rewrite length_app; simpl; lia | by f_equal/=].
  apply chain_snoc. split_and!; [done | lia | lia | by destruct (last _) | done].
Qed.

(** ** The step relation *)

Definition emits st (p : MissionState) (rotate : bool) st' : Prop :=
  exists e, st' = advance p (ms_revision st + 1)
      (if rotate then ms_capability_epoch st + 1 else ms_capability_epoch st) (ms_events st ++ [e]) /\
    event_linked (ms_events st) e st' /\ me_revision e = ms_revision st + 1.

(** What an allowed decision on a capability has established. *)
Record admissible d st (item : MissionCapability) (compensation : option jstr) : Prop := {
  ad_active : ms_status st = MissionActive;
  ad_authority : (exists g, currentGoalId st = Some g /\ g ∈ ca_goals item) \/
    ca_name item ∈ md_global_capabilities d \/ is_Some (List.find (compensates (ca_name item)) (ms_obligations st));
  ad_prerequisites : forall q, q ∈ ca_prerequisites item -> evaluatePredicate st q (currentGoalId st) = true;
  ad_blocked : blocked_by_obligation st item = false;
  ad_compensation : compensation = ob_id <$> List.find (compensates (ca_name item)) (ms_obligations st);
}.

(** One operation. With [fresh] no goal is activated that is suspended. *)
Inductive step_with (fresh : bool) d st : MissionState -> Prop :=
| step_replay : step_with fresh d st st
| step_activate g st' :
    find_goal d (go_id g) = Some g -> ms_status st = MissionActive ->
    (goal_status st (go_id g) = Some Queued \/ fresh = false /\ goal_status st (go_id g) = Some Suspended) ->
    emits st (patch_goals (activated_goals st (currentGoalId st) (go_id g)) (ms_focus_stack st ++ [go_id g]) st)
      true st' -> step_with fresh d st st'
| step_fact facts st' : emits st (patch_facts facts (revoke <$> ms_proposals st) st) true st' -> step_with fresh d st st'
| step_open o st' :
    emits st (patch_actions (ms_proposals st) (ms_receipts st) (ms_obligations st ++ [o]) st) true st' ->
    step_with fresh d st st'
| step_propose item id goalId args hash key nonce compensation st' :
    find_capability d (ca_name item) = Some item -> currentGoalId st = Some goalId ->
    admissible d st item compensation -> EXTERNAL_ID id = true -> id ∉ pr_id <$> ms_proposals st ->
    key = idempotencyKey item goalId hash nonce ->
    (ca_idempotency item <> NoIdempotency ->
     List.find (fun r => (rc_idempotency_key r =?s key) && bool_decide (rc_status r = RSucceeded))
       (ms_receipts st) = None) ->
    emits st (patch_actions (ms_proposals st ++ [new_proposal st item id goalId args hash key compensation])
      (ms_receipts st) (ms_obligations st) st) false st' -> step_with fresh d st st'
| step_authorize p item evidence st' :
    find_proposal st (pr_id p) = Some p -> pr_status p = Proposed -> find_capability d (pr_action p) = Some item ->
    ca_confirmation item <> None -> EXTERNAL_ID evidence = true -> currentGoalId st = Some (pr_goal_id p) ->
    emits st (patch_actions (update_proposal (pr_id p)
        (authorize (ms_revision st + 1) (ms_capability_epoch st) evidence) (ms_proposals st))
      (ms_receipts st) (ms_obligations st) st) false st' -> step_with fresh d st st'
| step_settle p item (r : MissionReceipt) receipts obligations source st' :
    find_proposal st (pr_id p) = Some p -> pr_status p = Authorized -> find_capability d (pr_action p) = Some item ->
    currentGoalId st = Some (pr_goal_id p) -> pr_authorized_epoch p = Some (ms_capability_epoch st) ->
    rc_id r ∉ rc_id <$> ms_receipts st -> rc_proposal_id r = pr_id p -> rc_action r = pr_action p ->
    rc_idempotency_key r = pr_idempotency_key p ->
    receipts = (fun q => if bool_decide (Some (rc_id q) = source) then with_receipt_status RCompensated q else q)
      <$> ms_receipts st ->
    emits st (patch_actions (update_proposal (pr_id p) (settle_proposal (rc_status r) (rc_id r)) (ms_proposals st))
      (receipts ++ [r]) obligations st) true st' -> step_with fresh d st st'
| step_leave g status st' :
    find_goal d (go_id g) = Some g -> focused_active st (go_id g) = true ->
    (status = GoalCompleted \/ status = Abandoned) ->
    emits st (patch_goals (resume st (go_id g) status).1 (resume st (go_id g) status).2 st) true st' ->
    step_with fresh d st st'
| step_complete st' :
    (forall g, g ∈ md_goals d -> go_required g = true -> goal_status st (go_id g) = Some GoalCompleted) ->
    ms_focus_stack st = [] -> (forall o, o ∈ ms_obligations st -> ob_status o <> Open) ->
    (forall p, p ∈ ms_proposals st -> unresolved p = false) ->
    emits st (patch_completed st) true st' -> step_with fresh d st st'.

#[local] Abbreviation step := (step_with false).

Lemma find_goal_id d id g : find_goal d id = Some g -> go_id g = id /\ find_goal d (go_id g) = Some g.
Proof. intros H. pose proof (find_elem _ _ _ H) as [_ E]. to_prop. by rewrite E. Qed.

Lemma find_capability_name d id c : find_capability d id = Some c -> ca_name c = id.
Proof. intros H. pose proof (find_elem _ _ _ H) as [_ E]. by to_prop. Qed.

Lemma find_proposal_id st id p : find_proposal st id = Some p -> pr_id p = id /\ find_proposal st (pr_id p) = Some p.
Proof. intros H. pose proof (find_elem _ _ _ H) as [_ E]. to_prop. by rewrite E. Qed.

Lemma map_result_find {A} (f : jstr -> result string A) (name : A -> jstr) (l : list jstr) decisions x a :
  (forall n y, f n = Ok y -> name y = n) ->
  map_result f l = Ok decisions -> List.find (fun y => name y =?s a) decisions = Some x -> f a = Ok x.
Proof.
  intros Hn. revert decisions; induction l as [|n l IH]; intros decisions H Hf; cbn [map_result] in H.
  { injection H as <-. discriminate Hf. }
  destruct (f n) as [y|] eqn:Hy; cbn [bind_result] in H; [|discriminate H].
  destruct (map_result f l) as [ys|]; cbn [bind_result] in H; [|discriminate H]. injection H as <-.
  cbn [List.find] in Hf. destruct (name y =?s a) eqn:E; to_prop; [|by eapply IH].
  injection Hf as <-. by rewrite <- E, (Hn _ _ Hy).
Qed.

Lemma decide_capability_Ok d st name c :
  decide_capability d st name = Ok c ->
  dc_action c = name /\ dc_goal_id c = currentGoalId st /\
  (dc_allowed c = true -> exists item, find_capability d name = Some item /\
     admissible d st item (dc_compensation_obligation_id c)).
Proof.
  unfold decide_capability, capability. intros H. destruct (find_capability d name) as [item|] eqn:Hc; [|discriminate H].
  cbn [bind_result] in H. injection H as <-. simpl. split_and!; [done..|]. intros Ha. to_prop.
  pose proof (find_capability_name _ _ _ Hc) as <-. exists item. split; [done|].
  constructor; [done | | | done | done].
  - match goal with H : _ || _ = true |- _ => rewrite !orb_true_iff in H; destruct H as [[H|H]|H] end; to_prop.
    + left. destruct (currentGoalId st) as [g|]; [|done]. to_prop. eauto.
    + by right; left.
    + right; right. destruct (List.find _ _); [by eexists | done].
  - match goal with H : forallb snd _ = true |- _ => rewrite forallb_elem in H; rename H into Hq end.
    intros q Hin. apply (Hq (q, evaluatePredicate st q (currentGoalId st))). apply list_elem_of_fmap. eauto.
Qed.

(** ** Every operation is a step *)

Ltac run_checks H :=
  repeat match type of H with
  | context [checked ?d ?st] => destruct (checked d st) as [[]|]; cbn [bind_result] in H; [|discriminate H]
  | context [assertExternalId ?x] =>
      unfold assertExternalId in H; destruct (EXTERNAL_ID x) eqn:?; cbn [negb bind_result] in H; [|discriminate H]
  | context [validateJsonBounds ?v ?n] => destruct (validateJsonBounds v n); cbn [bind_result] in H; [|discriminate H]
  | context [MissionJson_parse ?v] => destruct (MissionJson_parse v); cbn [bind_result] in H; [|discriminate H]
  end.

Lemma goal_Ok d id g : goal d id = Ok g -> find_goal d id = Some g.
Proof. unfold goal. destruct (find_goal d id); congruence. Qed.

Lemma capability_Ok d id c : capability d id = Ok c -> find_capability d id = Some c.
Proof. unfold capability. destruct (find_capability d id); congruence. Qed.

Lemma activate_step fresh d st id mode at_ st' :
  (fresh = true -> goal_status st id <> Some Suspended) -> activateMissionGoal d st id mode at_ = Ok st' -> step_with fresh d st st'.
Proof.
  unfold activateMissionGoal. intros Hok H. run_checks H.
  destruct (goal d id) as [g|] eqn:Hg; cbn [bind_result] in H; [|discriminate H].
  apply goal_Ok, find_goal_id in Hg as [Hid Hg].
  destruct (bool_decide (ms_status st = MissionActive)) eqn:Ha; [|discriminate H]. cbn [negb] in H.
  destruct (forallb _ _); [|discriminate H]. cbn [negb] in H.
  match type of H with bind_result ?r _ = _ => destruct r; cbn [bind_result] in H; [|discriminate H] end.
  destruct (bool_decide (goal_status st (go_id g) = Some Queued) || _) eqn:Hs; [|discriminate H]. cbn [negb] in H.
  apply orb_true_iff in Hs. to_prop. apply (step_activate fresh d st g); [done | done | | by apply appendEvent_Ok in H].
  destruct Hs as [Hs|Hs]; to_prop; [by left|right]. split; [|done]. destruct fresh; [|done].
  destruct Hok; [done|]. by rewrite <- Hid.
Qed.

Lemma fact_step fresh d st id v a ev sup at_ st' :
  recordMissionFact d st id v a ev sup at_ = Ok st' -> step_with fresh d st st'.
Proof.
  unfold recordMissionFact. intros H. run_checks H. destruct (ID id); [|discriminate H]. cbn [negb] in H.
  run_checks H. match type of H with bind_result ?r _ = _ => destruct r; cbn [bind_result] in H; [|discriminate H] end.
  eapply step_fact. apply appendEvent_Ok in H. exact H.
Qed.

Lemma open_step fresh d st id ty de ow bl sc so co at_ st' :
  openMissionObligation d st id ty de ow bl sc so co at_ = Ok st' -> step_with fresh d st st'.
Proof.
  unfold openMissionObligation. intros H. run_checks H. destruct (_ || _); [discriminate H|].
  match type of H with bind_result ?r _ = _ => destruct r; cbn [bind_result] in H; [|discriminate H] end.
  match type of H with bind_result ?r _ = _ => destruct r; cbn [bind_result] in H; [|discriminate H] end.
  run_checks H. destruct (includes _ _); [discriminate H|]. eapply step_open. apply appendEvent_Ok in H. exact H.
Qed.

(** The two outcomes of a proposal: the replay of an earlier success, or a new proposal for
    an admissible capability. *)
Inductive proposed d st (action id nonce : jstr) (args : obj jsval) (r : ProposeResult) : Prop :=
| proposed_replay receipt :
    ps_state r = st -> ps_replayed r = Some receipt -> receipt ∈ ms_receipts st ->
    rc_status receipt = RSucceeded -> ps_challenge r = None -> proposed d st action id nonce args r
| proposed_new item goalId hash key :
    find_capability d action = Some item -> currentGoalId st = Some goalId ->
    admissible d st item (pr_compensation_obligation_id (ps_proposal r)) ->
    EXTERNAL_ID id = true -> id ∉ pr_id <$> ms_proposals st ->
    key = idempotencyKey item goalId hash nonce ->
    (ca_idempotency item <> NoIdempotency ->
     List.find (fun r => (rc_idempotency_key r =?s key) && bool_decide (rc_status r = RSucceeded))
       (ms_receipts st) = None) ->
    ps_proposal r = new_proposal st item id goalId args hash key (pr_compensation_obligation_id (ps_proposal r)) ->
    ps_replayed r = None -> (is_Some (ps_challenge r) <-> is_Some (ca_confirmation item)) ->
    emits st (patch_actions (ms_proposals st ++ [ps_proposal r]) (ms_receipts st) (ms_obligations st) st)
      false (ps_state r) -> proposed d st action id nonce args r.

Lemma propose_spec d st a args id nonce at_ r :
  proposeMissionAction d st a args id nonce at_ = Ok r -> proposed d st a id nonce args r.
Proof.
  unfold proposeMissionAction. intros H. run_checks H.
  destruct (capability d a) as [item|] eqn:Hi; cbn [bind_result] in H; [|discriminate H].
  apply capability_Ok in Hi. unfold availableMissionCapabilities in H. run_checks H.
  match type of H with context [bind_result (match ?x with Some _ => _ | None => _ end) _] =>
    destruct (match x with Some c => _ | None => Ok [] end) as [focused|]; cbn [bind_result] in H; [|discriminate H] end.
  destruct (map_result _ _) as [decisions|] eqn:Hm; cbn [bind_result] in H; [|discriminate H].
  destruct (List.find _ decisions) as [c|] eqn:Hf; [|discriminate H].
  apply (map_result_find _ dc_action _ _ _ _ (fun n y Hy => proj1 (decide_capability_Ok d st n y Hy)) Hm) in Hf.
  apply decide_capability_Ok in Hf as (_ & Hgo & Hall).
  destruct (dc_allowed c); [|discriminate H]. destruct (Hall eq_refl) as (item' & Hi' & Had). clear Hall Hm.
  assert (item' = item) as -> by congruence. clear Hi'.
  destruct (truthy (dc_goal_id c)) as [goalId|] eqn:Hg; [|discriminate H]. apply truthy_Some in Hg as [Hg _].
  destruct (forallb _ args); [|discriminate H]. cbn [negb] in H. run_checks H.
  set (hash := sha256 _) in *. set (key := idempotencyKey item goalId hash nonce) in *.
  destruct (if bool_decide (ca_idempotency item = NoIdempotency) then None else _) as [rc|] eqn:Hr.
  { destruct (List.find _ (ms_proposals st)); [|discriminate H]. injection H as <-.
    destruct (bool_decide _); [done|]. apply find_elem in Hr as [Hin Hst]. to_prop. by apply (proposed_replay _ _ _ _ _ _ _ rc). }
  run_checks H. destruct (includes id _) eqn:Hin; [discriminate H|].
  destruct (appendEvent _ _ _ _ _ _) as [next|] eqn:Hap; cbn [bind_result] in H; [|discriminate H].
  injection H as <-. to_prop. apply appendEvent_Ok in Hap.
  apply (proposed_new _ _ _ _ _ _ _ item goalId hash key); try done; [congruence | |].
  - intros Hne. by rewrite bool_decide_eq_false_2 in Hr.
  - simpl. by rewrite fmap_is_Some.
Qed.

Lemma propose_step fresh d st a args id nonce at_ r :
  proposeMissionAction d st a args id nonce at_ = Ok r -> step_with fresh d st (ps_state r).
Proof.
  intros [rc Es _ _ _ _|item goalId hash key Hi Hg Had Hid Hnew Hkey Hrep Hp _ _ He]%propose_spec.
  - rewrite Es. apply step_replay.
  - pose proof (find_capability_name _ _ _ Hi) as Hn. rewrite <- Hn in Hi. rewrite Hp in He.
    eapply (step_propose fresh d st item id goalId args hash key nonce); eauto.
Qed.

Lemma authorize_step fresh d st id dg ev a v obs at_ st' :
  authorizeMissionAction d st id dg ev a v obs at_ = Ok st' -> step_with fresh d st st'.
Proof.
  unfold authorizeMissionAction. intros H. run_checks H.
  destruct (find_proposal st id) as [p|] eqn:Hp; [|discriminate H]. apply find_proposal_id in Hp as [Hid Hp].
  destruct (bool_decide (pr_status p = Proposed)) eqn:Hs; [|discriminate H]. cbn [negb] in H.
  destruct (pr_digest p =?s dg); [|discriminate H]. cbn [negb] in H.
  destruct (capability d (pr_action p)) as [item|] eqn:Hi; cbn [bind_result] in H; [|discriminate H].
  destruct (ca_confirmation item) as [conf|] eqn:Hc; [|discriminate H]. run_checks H.
  destruct (_ || _); [discriminate H|]. destruct (includes a _); [|discriminate H]. cbn [negb] in H. run_checks H.
  destruct (existsb _ _); [|discriminate H]. cbn [negb] in H.
  destruct (bool_decide (currentGoalId st = _)) eqn:Hf; [|discriminate H]. cbn [negb] in H. to_prop.
  eapply (step_authorize fresh d st p item ev); [done | done | by apply capability_Ok | congruence | done | done |].
  apply appendEvent_Ok in H. exact H.
Qed.

Lemma settle_step fresh d st id rid s o at_ st' :
  settleMissionAction d st id rid s o at_ = Ok st' -> step_with fresh d st st'.
Proof.
  unfold settleMissionAction. intros H. run_checks H.
  destruct (find_proposal st id) as [p|] eqn:Hp; [|discriminate H]. apply find_proposal_id in Hp as [Hid Hp].
  destruct (bool_decide (pr_status p = Authorized)) eqn:Hs; [|discriminate H]. cbn [negb] in H.
  destruct (bool_decide (currentGoalId st = _)) eqn:Hf; [|discriminate H]. cbn [negb] in H.
  destruct (bool_decide (pr_authorized_epoch p = _)) eqn:He; [|discriminate H]. cbn [negb] in H. run_checks H.
  destruct (includes rid _) eqn:Hr; [discriminate H|].
  destruct (capability d (pr_action p)) as [item|] eqn:Hi; cbn [bind_result] in H; [|discriminate H].
  match type of H with bind_result ?r _ = _ => destruct r as [value|]; cbn [bind_result] in H; [|discriminate H] end.
  run_checks H. set (obligations := settled_obligations _ _ _ _ _ _) in *.
  match type of H with bind_result ?r _ = _ => destruct r as [booked|] eqn:Hb; cbn [bind_result] in H; [|discriminate H] end.
  assert (exists source, booked.2 = (fun q => if bool_decide (Some (rc_id q) = source)
    then with_receipt_status RCompensated q else q) <$> ms_receipts st) as [source Hsource].
  { destruct (bool_decide (s = RCompensated)).
    - unfold book_compensation in Hb. destruct (truthy _) as [oid|]; [|discriminate Hb]. cbn zeta in Hb.
      destruct (_ ≫= _) as [src|]; [|discriminate Hb]. injection Hb as <-. exists (Some src). simpl.
      apply list_fmap_ext. intros i q _. unfold str_eqb.
      rewrite (bool_decide_ext (Some (rc_id q) = Some src) (rc_id q = src)); [reflexivity | naive_solver].
    - injection Hb as <-. exists None. simpl. symmetry. apply list_fmap_id. }
  to_prop. apply appendEvent_Ok in H.
  match type of H with context [booked.2 ++ [?r]] =>
    apply (step_settle fresh d st p item r booked.2 booked.1 source) end; try done. by apply capability_Ok.
Qed.

Lemma complete_goal_step fresh d st g at_ st' : completeMissionGoal d st g at_ = Ok st' -> step_with fresh d st st'.
Proof.
  unfold completeMissionGoal. intros H. run_checks H.
  destruct (goal d g) as [sel|] eqn:Hg; cbn [bind_result] in H; [|discriminate H].
  apply goal_Ok, find_goal_id in Hg as [_ Hg].
  destruct (focused_active _ _) eqn:Hf; [|discriminate H]. cbn [negb] in H.
  destruct (forallb _ _); [|discriminate H]. cbn [negb] in H. destruct (existsb _ _); [discriminate H|].
  destruct (resume st (go_id sel) GoalCompleted) as [goals stack] eqn:Hr. apply appendEvent_Ok in H.
  apply (step_leave fresh d st sel GoalCompleted); [done | done | by left | by rewrite Hr].
Qed.

Lemma abandon_step fresh d st g re ev at_ st' : abandonMissionGoal d st g re ev at_ = Ok st' -> step_with fresh d st st'.
Proof.
  unfold abandonMissionGoal. intros H. run_checks H.
  destruct (goal d g) as [sel|] eqn:Hg; cbn [bind_result] in H; [|discriminate H].
  apply goal_Ok, find_goal_id in Hg as [_ Hg]. destruct (go_required sel); [discriminate H|].
  destruct (focused_active _ _) eqn:Hf; [|discriminate H]. cbn [negb] in H.
  destruct (_ || _); [discriminate H|]. run_checks H. destruct (existsb _ _); [discriminate H|].
  destruct (existsb _ _); [discriminate H|].
  destruct (resume st (go_id sel) Abandoned) as [goals stack] eqn:Hr. apply appendEvent_Ok in H.
  apply (step_leave fresh d st sel Abandoned); [done | done | by right | by rewrite Hr].
Qed.

Lemma complete_step fresh d st at_ st' : completeMission d st at_ = Ok st' -> step_with fresh d st st'.
Proof.
  unfold completeMission. intros H. run_checks H.
  destruct (existsb _ (md_goals d)) eqn:Hg; [discriminate H|]. destruct (_ || _) eqn:Hf; [discriminate H|].
  destruct (existsb _ (ms_obligations st)) eqn:Ho; [discriminate H|].
  destruct (existsb _ (ms_proposals st)) eqn:Hp; [discriminate H|]. to_prop.
  rewrite existsb_elem_false in Hg. rewrite existsb_elem_false in Ho. rewrite existsb_elem_false in Hp. apply appendEvent_Ok in H.
  apply step_complete; [| done | | done | exact H].
  - intros g Hin Hreq. specialize (Hg _ Hin). rewrite Hreq in Hg. cbn [andb] in Hg. by to_prop.
  - intros o Hin. specialize (Ho _ Hin). by to_prop.
Qed.

Lemma op_step_with fresh d st op st' :
  (fresh = true -> op_ok st op) -> apply_op d st op = Ok st' -> step_with fresh d st st'.
Proof.
  destruct op; simpl; intros Hok H; eauto using activate_step, fact_step, open_step, authorize_step, settle_step,
    complete_goal_step, abandon_step, complete_step.
  destruct (proposeMissionAction _ _ _ _ _ _ _) as [r|] eqn:Hr; [|discriminate H].
  injection H as <-. by eapply propose_step.
Qed.

Lemma op_step d st op st' : apply_op d st op = Ok st' -> step d st st'.
Proof. by apply op_step_with. Qed.

Lemma op_checked d st op st' : apply_op d st op = Ok st' -> checked d st = Ok tt.
Proof.
  intros H. destruct (checked d st) as [[]|e] eqn:E; [done|]. exfalso.
  destruct op; simpl in H; unfold activateMissionGoal, recordMissionFact, openMissionObligation,
    proposeMissionAction, authorizeMissionAction, settleMissionAction, completeMissionGoal, abandonMissionGoal,
    completeMission in H; rewrite E in H; discriminate H.
Qed.

(** Invariants of the reachable states, by the step relation. *)
Lemma reachable_ind_step d (P : MissionState -> Prop) :
  (forall at_ st, createMissionState d at_ = Ok st -> P st) ->
  (forall st st', reachable d st -> checked d st = Ok tt -> P st -> step d st st' -> P st') ->
  forall st, reachable d st -> P st.
Proof. intros H0 H1 st. induction 1; eauto using op_step, op_checked. Qed.

(** ** The focus stack *)

Definition status_in (goals : obj (GoalStatus * Z)) (id : jstr) : option GoalStatus := fst <$> own id goals.

Lemma status_put goals k s n id :
  status_in (put k (s, n) goals) id = if id =?s k then Some s else status_in goals id.
Proof. unfold status_in. rewrite own_put. by destruct (id =?s k). Qed.

Record focus_ok st : Prop := {
  fo_names : forall id, id ∈ ms_focus_stack st -> id <> [];
  fo_active : forall id, goal_status st id = Some GoalActive <-> currentGoalId st = Some id;
  fo_suspended : forall id, goal_status st id = Some Suspended <->
    id ∈ ms_focus_stack st /\ currentGoalId st <> Some id;
}.

Lemma current_in_stack st id : currentGoalId st = Some id -> id ∈ ms_focus_stack st.
Proof. unfold currentGoalId. intros (l & ->)%last_Some. set_solver. Qed.

(** The stack's goals are exactly the active and the suspended ones. *)
Lemma stack_status st id :
  focus_ok st -> id ∈ ms_focus_stack st ->
  goal_status st id = Some GoalActive \/ goal_status st id = Some Suspended.
Proof.
  intros [_ H3 H4] Hid. destruct (decide (currentGoalId st = Some id)) as [E|E];
    [left; by apply H3 | right; by apply H4].
Qed.

Lemma activated_status st id k :
  focus_ok st -> status_in (activated_goals st (currentGoalId st) id) k =
  if k =?s id then Some GoalActive
  else if bool_decide (currentGoalId st = Some k) then Some Suspended else goal_status st k.
Proof.
  intros Hf. unfold activated_goals. rewrite status_put. destruct (k =?s id); [done|].
  destruct (currentGoalId st) as [c|] eqn:Ec; [|done].
  pose proof (fo_names _ Hf c (current_in_stack _ _ Ec)) as Hne.
  pose proof (proj2 (fo_active _ Hf c) Ec) as Hc. unfold goal_status in Hc.
  rewrite (proj2 (truthy_Some (Some c) c) (conj eq_refl Hne)). cbn [mbind option_bind].
  destruct (own c (ms_goals st)) as [[s n]|] eqn:Eo; [|done]. cbn [fmap option_fmap option_map].
  rewrite status_put. unfold str_eqb. destruct (decide (k = c)) as [->|Hkc].
  - by rewrite !bool_decide_eq_true_2.
  - rewrite !bool_decide_eq_false_2 by congruence. done.
Qed.

Lemma goal_named d g : find_goal d (go_id g) = Some g -> MissionDefinitionSchema_ok d = true -> go_id g <> [].
Proof.
  intros [Hg _]%find_elem Hd. unfold MissionDefinitionSchema_ok in Hd. to_prop.
  match goal with H : forallb MissionGoalSchema_ok _ = true |- _ => rewrite forallb_elem in H; specialize (H _ Hg) end.
  unfold MissionGoalSchema_ok in *. to_prop. by destruct (go_id g).
Qed.

(** Activating a goal, queued or suspended: it becomes the top and the only active goal. *)
Lemma focus_activate d st g st' :
  find_goal d (go_id g) = Some g -> MissionDefinitionSchema_ok d = true ->
  goal_status st (go_id g) = Some Queued \/ goal_status st (go_id g) = Some Suspended ->
  emits st (patch_goals (activated_goals st (currentGoalId st) (go_id g)) (ms_focus_stack st ++ [go_id g]) st)
    true st' -> focus_ok st -> focus_ok st'.
Proof.
  intros Hg Hd Hq (e & -> & _) Hf. pose proof (goal_named _ _ Hg Hd) as Hne.
  pose proof (fun k => activated_status st (go_id g) k Hf) as Hs. destruct Hf as [H2 H3 H4].
  constructor; unfold currentGoalId, goal_status in *; simpl; rewrite ?last_snoc.
  - set_solver.
  - intros k. fold (status_in (activated_goals st (last (ms_focus_stack st)) (go_id g)) k). rewrite Hs.
    unfold str_eqb. destruct (decide (k = go_id g)) as [->|Hk]; [by rewrite bool_decide_eq_true_2|].
    rewrite bool_decide_eq_false_2 by done. split; [|congruence].
    destruct (bool_decide (last _ = _)) eqn:E; to_prop; [done|]. by intros ?%H3.
  - intros k. fold (status_in (activated_goals st (last (ms_focus_stack st)) (go_id g)) k). rewrite Hs.
    unfold str_eqb. destruct (decide (k = go_id g)) as [->|Hk]; [rewrite bool_decide_eq_true_2 by done; naive_solver|].
    rewrite bool_decide_eq_false_2 by done.
    destruct (bool_decide (last _ = _)) eqn:E; to_prop.
    + split; [|done]. intros _. split; [|congruence]. apply elem_of_app. left.
      by apply (current_in_stack st).
    + rewrite H4. split; [intros [? _]; split; [set_solver | congruence]|].
      intros [[?|?%list_elem_of_singleton]%elem_of_app _]; [done | congruence].
Qed.

(** A goal on the stack that has ended. *)
Definition ended_on_stack st (id : jstr) : Prop :=
  id ∈ ms_focus_stack st /\ (goal_status st id = Some GoalCompleted \/ goal_status st id = Some Abandoned).

Lemma resume_stack st id l : ms_focus_stack st = l ++ [id] -> take (length (ms_focus_stack st) - 1) (ms_focus_stack st) = l.
Proof. intros ->. rewrite length_app. simpl. by rewrite Nat.add_sub, take_app_length. Qed.

(** The statuses after the top goal is left: the goal below it is active again. *)
Lemma resume_status st id status l k :
  ms_focus_stack st = l ++ [id] -> focus_ok st ->
  status_in (resume st id status).1 k =
  if bool_decide (last l = Some k) then Some GoalActive else if k =?s id then Some status else goal_status st k.
Proof.
  intros El Hf. unfold resume. rewrite (resume_stack st id l El). simpl.
  destruct (last l) as [r|] eqn:Er; [|simpl; apply status_put].
  assert (r <> []) as Hr.
  { apply (fo_names _ Hf). rewrite El. apply last_Some in Er as [l' ->]. set_solver. }
  rewrite (proj2 (truthy_Some (Some r) r) (conj eq_refl Hr)), status_put. unfold str_eqb.
  destruct (decide (k = r)) as [->|Hk]; [by rewrite !bool_decide_eq_true_2|].
  rewrite !bool_decide_eq_false_2 by congruence. rewrite status_put. unfold str_eqb. done.
Qed.

(** Leaving the top goal: unless it is on the stack once more, and not right below, the
    stack and the statuses agree again. *)
Lemma focus_leave st id status st' l :
  ms_focus_stack st = l ++ [id] -> status = GoalCompleted \/ status = Abandoned ->
  emits st (patch_goals (resume st id status).1 (resume st id status).2 st) true st' ->
  focus_ok st -> ms_focus_stack st' = l /\ (focus_ok st' \/ id ∈ l /\ ended_on_stack st' id).
Proof.
  intros El Hst (e & -> & _) Hf. pose proof (fun k => resume_status st id status l k El Hf) as Hs.
  assert ((resume st id status).2 = l) as E2 by (unfold resume; simpl; by rewrite (resume_stack st id l El)).
  destruct Hf as [H2 H3 H4]. rewrite El in H2.
  assert (currentGoalId st = Some id) as Ec by (unfold currentGoalId; by rewrite El, last_snoc).
  unfold ended_on_stack. cbn [advance patch_goals ms_focus_stack]. split; [done|].
  destruct (decide (id ∈ l /\ last l <> Some id)) as [[Hin Hl]|Hno]; [right|left].
  - unfold goal_status. cbn [advance patch_goals ms_goals]. split; [done|]. rewrite E2. split; [done|].
    fold (status_in (resume st id status).1 id). rewrite Hs, bool_decide_eq_false_2, str_eqb_refl by done. naive_solver.
  - constructor; unfold currentGoalId, goal_status in *; cbn [advance patch_goals ms_focus_stack ms_goals];
      rewrite E2; [set_solver| |].
    + intros k. fold (status_in (resume st id status).1 k). rewrite Hs.
      destruct (bool_decide (last l = Some k)) eqn:E; to_prop; [done|]. split; [|done].
      destruct (k =?s id) eqn:Ek; to_prop; [naive_solver|]. intros ?%H3. congruence.
    + intros k. fold (status_in (resume st id status).1 k). rewrite Hs.
      destruct (bool_decide (last l = Some k)) eqn:E; to_prop; [naive_solver|].
      destruct (k =?s id) eqn:Ek; to_prop.
      * subst. split; [naive_solver|]. intros [Hin _]. destruct Hno. done.
      * rewrite H4, El, last_snoc. split; [intros [Hin _]; split; [set_solver | done]|].
        intros [Hin _]. split; [set_solver | congruence].
Qed.

(** Steps that leave the stack and the goals alone. *)
Lemma focus_frame st st' :
  ms_goals st' = ms_goals st -> ms_focus_stack st' = ms_focus_stack st -> focus_ok st -> focus_ok st'.
Proof. intros Eg Es []. constructor; unfold currentGoalId, goal_status; rewrite ?Eg, ?Es; done. Qed.

Lemma focus_step fresh d st st' :
  MissionDefinitionSchema_ok d = true -> step_with fresh d st st' -> focus_ok st ->
  (focus_ok st' \/ exists id, ended_on_stack st' id) /\
  (fresh = true -> NoDup (ms_focus_stack st) -> NoDup (ms_focus_stack st') /\ focus_ok st').
Proof.
  intros Hd Hst Hf. destruct Hst as [ |g st' Hg Ha Hq He|? ? He|? ? He|? ? ? ? ? ? ? ? ? _ _ _ _ _ _ _ He|? ? ? ? _ _ _ _ _ _ He
    |? ? ? ? ? ? ? _ _ _ _ _ _ _ _ _ _ He|g status st' Hg Hfa Hs He|? _ Hstack _ _ He]; [by eauto|..].
  - assert (focus_ok st') as Hf' by (eapply focus_activate; [done|done| |done|done]; tauto). split; [by left|].
    intros -> Hnd. split; [|done]. destruct Hq as [Hq|[? _]]; [|done]. destruct He as (e & -> & _).
    apply NoDup_snoc; [done|]. intros Hin. destruct (stack_status st _ Hf Hin) as [E|E]; congruence.
  - destruct He as (e & -> & _). split; [left|intros _ ?; split; [done|]]; by apply (focus_frame st).
  - destruct He as (e & -> & _). split; [left|intros _ ?; split; [done|]]; by apply (focus_frame st).
  - destruct He as (e & -> & _). split; [left|intros _ ?; split; [done|]]; by apply (focus_frame st).
  - destruct He as (e & -> & _). split; [left|intros _ ?; split; [done|]]; by apply (focus_frame st).
  - destruct He as (e & -> & _). split; [left|intros _ ?; split; [done|]]; by apply (focus_frame st).
  - unfold focused_active, currentGoalId in Hfa. to_prop. destruct (proj1 (last_Some _ _) H) as [l El].
    destruct (focus_leave st _ status st' l El Hs He Hf) as [Es Hor]. split; [naive_solver|].
    intros _ Hnd. rewrite El in Hnd. apply NoDup_app in Hnd as (Hnd & Hdis & _). rewrite Es. split; [done|].
    destruct Hor as [?|[Hin _]]; [done|]. destruct (Hdis _ Hin). by left.
  - destruct He as (e & -> & _).
    split; [left|intros _ _; split; [constructor|]]; by apply (focus_frame st); [|simpl; rewrite Hstack|].
Qed.

Definition bound d st : Prop :=
  ms_mission_id st = md_id d /\ ms_mission_version st = md_version d /\ ms_definition_hash st = definitionHash d.

(** A step keeps the identity of the mission and its ledger. *)
Lemma step_ledger fresh d st st' : step_with fresh d st st' -> ledger_ok st -> bound d st -> ledger_ok st' /\ bound d st'.
Proof.
  intros Hst Hl Hb.
  assert (forall (p : MissionState) rot, emits st p rot st' -> bound d p -> ledger_ok st' /\ bound d st') as Hemit.
  { intros p rot (e & -> & (H1 & H2 & H3 & H4) & H5) Hp. split; [|done].
    destruct Hl as (Hc & Hr & _). unfold ledger_ok. cbn [advance ms_events ms_revision]. rewrite last_snoc.
    split_and!; [|rewrite length_app; simpl; lia | by f_equal/=].
    apply chain_snoc. split_and!; [done | lia | lia | by destruct (last _) | done]. }
  destruct Hst; [done|..]; (eapply Hemit; [eassumption | done]).
Qed.

Lemma require_bound d st : requireDefinition d (Some st) = Ok tt <-> requireDefinition d None = Ok tt /\ bound d st.
Proof.
  unfold requireDefinition, bound. destruct (negb _); [naive_solver|].
  destruct (validateJsonBounds _ _); cbn [bind_result]; [|naive_solver].
  destruct (_ || _) eqn:E; to_prop; [|naive_solver].
  split; [done|]. intros (_ & H1 & H2 & H3). exfalso. by rewrite H1, H2, H3, !str_eqb_refl in E.
Qed.

Lemma own_spread_queued (l : list jstr) : forall (base : obj (GoalStatus * Z)) k s n,
  (forall k s n, own k base = Some (s, n) -> s = Queued) ->
  own k (spread base ((fun id => (id, (Queued, 0))) <$> l)) = Some (s, n) -> s = Queued.
Proof.
  induction l as [|id l IH]; intros base k s n Hb; cbn [spread fmap list_fmap fold_left]; [by apply Hb|].
  apply IH. intros k' s' n'. rewrite own_put. simpl. destruct (k' =?s id); [congruence | apply Hb].
Qed.

Lemma create_sound d at_ st :
  createMissionState d at_ = Ok st ->
  requireDefinition d None = Ok tt /\ ledger_ok st /\ bound d st /\ focus_ok st.
Proof.
  unfold createMissionState. intros H.
  destruct (requireDefinition d None) as [[]|]; cbn [bind_result] in H; [|discriminate H].
  split; [done|]. split; [by eapply ledger_append|].
  apply appendEvent_Ok in H as (e & -> & _). split; [done|].
  assert (forall id s, goal_status (advance (mkMission (md_id d) (md_version d) (definitionHash d) MissionActive 0 0
    (spread [] ((fun g => (go_id g, (Queued, 0))) <$> md_goals d)) [] [] [] [] [] []) 1 1 [e]) id = Some s ->
    s = Queued) as Hq.
  { unfold goal_status. simpl. intros id s ([s' n] & Ho & ->)%fmap_Some.
    apply (own_spread_queued (go_id <$> md_goals d) [] id s' n); [done|]. by rewrite <- list_fmap_compose. }
  constructor; simpl; [by intros ? ?%elem_of_nil | |].
  - intros id. split; [by intros ?%Hq | done].
  - intros id. split; [by intros ?%Hq | by intros [?%elem_of_nil _]].
Qed.

Lemma integrity_ok `{!Sha256Ok HS} d st :
  ledger_ok st -> bound d st -> focus_ok st -> assertStateIntegrity st = Ok tt.
Proof.
  intros (Hc & Hr & Hh) (_ & _ & Hd) Hf. unfold assertStateIntegrity.
  assert (is_sha256 (definitionHash d) = true) as Hx by apply sha256_hex.
  rewrite Hd, Hx, Hc, Hr, Z.eqb_refl, Hh. cbn [negb]. rewrite bool_decide_eq_true_2 by done. cbn [negb].
  replace (forallb (focus_agrees st) (ms_focus_stack st)) with true; [done|]. symmetry.
  apply forallb_elem. intros id Hin. unfold focus_agrees.
  destruct (bool_decide (Some id = _)) eqn:E; to_prop; apply bool_decide_eq_true_2.
  - by apply (fo_active _ Hf).
  - apply (fo_suspended _ Hf). split; [done | congruence].
Qed.

(** A goal that has ended on the stack fails the integrity check. *)
Lemma ended_fails d st id : ended_on_stack st id -> checked d st <> Ok tt.
Proof.
  intros [Hin He]. assert (forallb (focus_agrees st) (ms_focus_stack st) = false) as Hf.
  - apply not_true_iff_false. rewrite forallb_elem. intros Hall. specialize (Hall _ Hin). unfold focus_agrees in Hall.
    fold (goal_status st id) in Hall. destruct (bool_decide (Some id = _)); to_prop; naive_solver.
  - unfold checked, assertStateIntegrity. rewrite Hf. cbn [negb]. do 4 (destruct (negb _); [done|]). done.
Qed.

Lemma reachable_definition d st : reachable d st -> requireDefinition d None = Ok tt.
Proof. induction 1 as [at_ st H|]; [by apply create_sound in H as [? _] | done]. Qed.

Lemma definition_schema d : requireDefinition d None = Ok tt -> MissionDefinitionSchema_ok d = true.
Proof. unfold requireDefinition. by destruct (MissionDefinitionSchema_ok d). Qed.

Lemma reachable_sound d st :
  reachable d st -> ledger_ok st /\ bound d st /\ (focus_ok st \/ exists id, ended_on_stack st id).
Proof.
  intros Hr. pose proof (definition_schema _ (reachable_definition _ _ Hr)) as Hs.
  revert st Hr. apply reachable_ind_step.
  - intros at_ st (_ & H1 & H2 & H3)%create_sound. auto.
  - intros st st' _ Hc (H1 & H2 & H3) Hst. destruct (step_ledger _ _ _ _ Hst H1 H2). split_and!; [done..|].
    destruct H3 as [Hf|[id He]]; [by eapply focus_step|]. by destruct (ended_fails d st id).
Qed.

Lemma orderly_reachable d st : orderly d st -> reachable d st.
Proof. induction 1; [by eapply reach_create | by eapply reach_step]. Qed.

Lemma orderly_sound d st : orderly d st -> NoDup (ms_focus_stack st) /\ focus_ok st.
Proof.
  induction 1 as [at_ st Hc|op st st' Ho IH Hop Ha].
  - pose proof Hc as (_ & _ & _ & Hf)%create_sound. split; [|done]. unfold createMissionState in Hc.
    destruct (requireDefinition d None); [|done]. cbn [bind_result] in Hc. apply appendEvent_Ok in Hc as (e & -> & _). constructor.
  - destruct IH as [Hnd Hf]. pose proof (definition_schema _ (reachable_definition _ _ (orderly_reachable _ _ Ho))) as Hs.
    destruct (focus_step true d st st' Hs) as [_ Hn]; [by apply (op_step_with _ _ _ op)|done|]. by apply Hn.
Qed.

(** C24. In every state a mission reaches, by any operations in any order, the event chain, the
    revision, the state head and the binding to the definition verify. While no goal on the focus stack has ended, the
    state passes the checks that every operation starts with, the top of the stack is exactly the active goal and the
    other goals on it are exactly the suspended ones. Once a goal on the stack has ended - it was on the stack twice,
    by a detour to a suspended goal, and was completed or abandoned at the top - every operation is refused. Along
    runs without such a detour no goal is on the stack twice and none on it has ended. *)
Theorem mission_integrity `{!Sha256Ok HS} d st :
  reachable d st ->
  chain_intact 0 None (ms_events st) = true /\ ms_revision st = Z.of_nat (length (ms_events st)) /\
  me_state_head_hash <$> last (ms_events st) = Some (stateHeadHash st) /\
  ms_mission_id st = md_id d /\ ms_mission_version st = md_version d /\ ms_definition_hash st = definitionHash d /\
  ((forall id, ~ ended_on_stack st id) ->
   checked d st = Ok tt /\
   (forall id, goal_status st id = Some GoalActive <-> currentGoalId st = Some id) /\
   (forall id, goal_status st id = Some Suspended <-> id ∈ ms_focus_stack st /\ currentGoalId st <> Some id)) /\
  (forall id, ended_on_stack st id -> forall op, is_ok (apply_op d st op) = false) /\
  (orderly d st -> NoDup (ms_focus_stack st) /\ forall id, ~ ended_on_stack st id).
Proof.
  intros Hr. pose proof (reachable_definition _ _ Hr) as Hd. apply reachable_sound in Hr as (Hl & Hb & Hf).
  pose proof Hl as (H1 & H2 & H3). pose proof Hb as (H4 & H5 & H6).
  assert (focus_ok st -> checked d st = Ok tt) as Hok.
  { intros Hf'. unfold checked. rewrite (integrity_ok d) by done. cbn [bind_result]. by apply require_bound. }
  split_and!; [done..| | |].
  - intros Hn. destruct Hf as [Hf|[id He]]; [|by destruct (Hn id)]. split; [by apply Hok | by destruct Hf].
  - intros id He op. destruct (apply_op d st op) as [st'|] eqn:E; [|done]. apply op_checked in E.
    by destruct (ended_fails d st id).
  - intros [Hnd Hfo]%orderly_sound. split; [done|]. intros id He. by destruct (ended_fails d st id He (Hok Hfo)).
Qed.
End Steps.
