(* ===== verification/MissionSafety.v ===== *)
(** * Safety of mission actions

    Proposals and receipts of the reachable missions: each receipt belongs to one settled
    proposal, confirmation precedes settlement, authority ends with the capability epoch,
    unconfirmed idempotent actions succeed once, and completed missions are finished. *)

From S2P Require Import Prelude JsValue JsText Canonical JsDate Graph Flow FlowValidate FlowRuntime.
From S2P Require Import Mission MissionInvariant.
Import Mission.

Local Open Scope Z_scope.

Section Safety.
Context `{HS : Sha256}.
Implicit Types (d : MissionDefinition) (st : MissionState) (p q : MissionProposal) (r : MissionReceipt).

#[local] Abbreviation step := (step_with false).

(** ** What a step does to proposals and receipts *)

Inductive action_step d st : list MissionProposal -> list MissionReceipt -> Prop :=
| as_same : action_step d st (ms_proposals st) (ms_receipts st)
| as_revoke : action_step d st (revoke <$> ms_proposals st) (ms_receipts st)
| as_new item id goalId args hash nonce compensation :
    find_capability d (ca_name item) = Some item -> ms_status st = MissionActive ->
    id ∉ pr_id <$> ms_proposals st ->
    (ca_idempotency item <> NoIdempotency -> forall r, r ∈ ms_receipts st -> rc_status r = RSucceeded ->
       rc_idempotency_key r <> idempotencyKey item goalId hash nonce) ->
    action_step d st (ms_proposals st ++ [new_proposal st item id goalId args hash
      (idempotencyKey item goalId hash nonce) compensation]) (ms_receipts st)
| as_authorize p item evidence :
    p ∈ ms_proposals st -> pr_status p = Proposed -> find_capability d (pr_action p) = Some item ->
    ca_confirmation item <> None -> EXTERNAL_ID evidence = true ->
    action_step d st (update_proposal (pr_id p)
      (authorize (ms_revision st + 1) (ms_capability_epoch st) evidence) (ms_proposals st)) (ms_receipts st)
| as_settle p r source :
    p ∈ ms_proposals st -> pr_status p = Authorized -> pr_authorized_epoch p = Some (ms_capability_epoch st) ->
    rc_id r ∉ rc_id <$> ms_receipts st -> rc_proposal_id r = pr_id p -> rc_action r = pr_action p ->
    rc_idempotency_key r = pr_idempotency_key p ->
    action_step d st (update_proposal (pr_id p) (settle_proposal (rc_status r) (rc_id r)) (ms_proposals st))
      (((fun x => if bool_decide (Some (rc_id x) = source) then with_receipt_status RCompensated x else x)
        <$> ms_receipts st) ++ [r]).

(** Only proposing and authorising keep the capability epoch. *)
Definition rotates st st' : Prop := ms_capability_epoch st' = ms_capability_epoch st + 1.

Lemma find_proposal_elem st id p : find_proposal st id = Some p -> p ∈ ms_proposals st.
Proof. intros H. by apply find_elem in H as [? _]. Qed.

Lemma step_actions d st st' :
  step d st st' ->
  action_step d st (ms_proposals st') (ms_receipts st') /\
  (rotates st st' \/ ms_capability_epoch st' = ms_capability_epoch st /\ ms_receipts st' = ms_receipts st).
Proof.
  intros Hst. destruct Hst as [ |g st' Hg Ha Hq He|? ? He|? ? He|item id goalId args hash key nonce comp st' Hc Hcur Had Hid Hnew Hkey Hrep He
    |p item ev st' Hp Hs Hc Hconf Hev Hcur He|p item r receipts obligations source st' Hp Hs Hc Hcur Hep Hr Hrp Hra Hrk -> He
    |g status st' Hg Hfa Hs He|? _ Hstack _ _ He]; [split; [constructor | by right]|..];
    destruct He as (e & -> & _); cbn [advance ms_proposals ms_receipts ms_capability_epoch patch_goals patch_facts
      patch_actions patch_completed]; (split; [|by (left; reflexivity) || right]).
  - constructor.
  - constructor.
  - constructor.
  - subst key. apply as_new; [done | by destruct Had | done|]. intros Hne r Hin Hsu Hk.
    specialize (Hrep Hne). rewrite find_none_elem in Hrep. specialize (Hrep _ Hin).
    rewrite Hk, str_eqb_refl, bool_decide_eq_true_2 in Hrep; done.
  - eapply as_authorize; eauto using find_proposal_elem.
  - apply as_settle; eauto using find_proposal_elem.
  - constructor.
  - constructor.
Qed.

(** ** The invariant of the actions *)

Definition pending p : Prop := pr_status p = Proposed \/ pr_status p = Authorized.
Definition decided p : Prop :=
  pr_status p = Authorized \/ pr_status p = Settled \/ pr_status p = ProposalIndeterminate.

Record proposal_ok d (epoch : Z) p : Prop := {
  po_epoch : forall n, pr_authorized_epoch p = Some n -> n <= epoch;
  po_pending : pending p -> pr_receipt_id p = None;
  po_confirmed : decided p -> exists item, find_capability d (pr_action p) = Some item /\
    (ca_confirmation item <> None -> exists ev, pr_confirmation_evidence_id p = Some ev /\ EXTERNAL_ID ev = true);
}.

(** A receipt and the proposal it settled. *)
Definition settles r p : Prop :=
  pr_id p = rc_proposal_id r /\ pr_receipt_id p = Some (rc_id r) /\ rc_action r = pr_action p /\
  rc_idempotency_key r = pr_idempotency_key p /\ (pr_status p = Settled \/ pr_status p = ProposalIndeterminate).

Record actions_ok d st : Prop := {
  ao_proposals : NoDup (pr_id <$> ms_proposals st);
  ao_receipts : NoDup (rc_id <$> ms_receipts st);
  ao_ok : Forall (proposal_ok d (ms_capability_epoch st)) (ms_proposals st);
  ao_settled : Forall (fun r => Exists (settles r) (ms_proposals st)) (ms_receipts st);
}.

Lemma ids_map (f : MissionProposal -> MissionProposal) (l : list MissionProposal) :
  (forall p, pr_id (f p) = pr_id p) -> pr_id <$> (f <$> l) = pr_id <$> l.
Proof. intros H. rewrite <- list_fmap_compose. apply list_fmap_ext. intros i p _. apply H. Qed.

Lemma ids_update id f l : (forall p, pr_id (f p) = pr_id p) -> pr_id <$> update_proposal id f l = pr_id <$> l.
Proof. intros H. apply ids_map. intros p. by destruct (pr_id p =?s id). Qed.

Lemma same_proposal_id (l : list MissionProposal) p q :
  NoDup (pr_id <$> l) -> p ∈ l -> q ∈ l -> pr_id p = pr_id q -> p = q.
Proof.
  induction l as [|x l IH]; csimpl; [set_solver|]. rewrite NoDup_cons. intros [Hx Hnd].
  rewrite !elem_of_cons. intros [->|Hp] [->|Hq] E; [done | | | by apply IH].
  - exfalso. apply Hx. rewrite E. by apply list_elem_of_fmap_2.
  - exfalso. apply Hx. rewrite <- E. by apply list_elem_of_fmap_2.
Qed.

Lemma elem_of_update id f l q :
  q ∈ update_proposal id f l -> exists q0, q0 ∈ l /\ q = if pr_id q0 =?s id then f q0 else q0.
Proof. intros (q0 & -> & H)%list_elem_of_fmap. eauto. Qed.

(** Other proposals than the one updated stay. *)
Lemma settles_update l p f r :
  NoDup (pr_id <$> l) -> p ∈ l -> pending p -> Forall (fun q => pending q -> pr_receipt_id q = None) l ->
  Exists (settles r) l -> Exists (settles r) (update_proposal (pr_id p) f l).
Proof.
  intros Hnd Hp Hpend Hno (q & Hq & Hs)%Exists_exists. apply Exists_exists. exists q. split; [|done].
  apply list_elem_of_fmap. exists q. split; [|done]. destruct (pr_id q =?s pr_id p) eqn:E; to_prop; [|done].
  pose proof (same_proposal_id _ _ _ Hnd Hq Hp E) as ->. destruct Hs as (_ & _ & _ & _ & Hst).
  destruct Hpend, Hst; congruence.
Qed.

Lemma settles_revoke l r : Exists (settles r) l -> Exists (settles r) (revoke <$> l).
Proof.
  rewrite !Exists_exists. intros (q & Hq & Hs). exists q. split; [|done]. apply list_elem_of_fmap.
  exists q. split; [|done]. unfold revoke. destruct Hs as (_ & _ & _ & _ & [-> | ->]); done.
Qed.

Lemma proposal_ok_mono d n m p : n <= m -> proposal_ok d n p -> proposal_ok d m p.
Proof. intros Hle [H1 H2 H3]. constructor; [|done..]. intros k Hk. specialize (H1 k Hk). lia. Qed.

Lemma proposal_ok_revoke d n p : proposal_ok d n p -> proposal_ok d n (revoke p).
Proof.
  intros H. unfold revoke. destruct (_ || _); [|done]. destruct H as [H1 H2 H3].
  constructor; [done | by intros [|] | by intros [|[|]]].
Qed.

Lemma proposal_ok_new d st item id goalId args hash key comp :
  find_capability d (ca_name item) = Some item ->
  proposal_ok d (ms_capability_epoch st) (new_proposal st item id goalId args hash key comp).
Proof.
  intros Hc. unfold new_proposal. constructor; simpl; [| done |].
  - intros n. destruct (bool_decide _); [|done]. intros [= <-]. lia.
  - unfold decided. simpl. destruct (bool_decide _) eqn:E; to_prop; [|by intros [|[|]]].
    intros _. exists item. by split.
Qed.

Lemma proposal_ok_authorize d st p item evidence :
  find_capability d (pr_action p) = Some item -> EXTERNAL_ID evidence = true -> pr_status p = Proposed ->
  proposal_ok d (ms_capability_epoch st) p ->
  proposal_ok d (ms_capability_epoch st) (authorize (ms_revision st + 1) (ms_capability_epoch st) evidence p).
Proof.
  intros Hc He Hs [H1 H2 H3]. constructor; simpl; [intros n [= <-]; lia | intros _; apply H2; by left |].
  intros _. exists item. split; [done|]. eauto.
Qed.

Lemma proposal_ok_settle d n p r :
  pr_status p = Authorized -> proposal_ok d n p -> proposal_ok d n (settle_proposal (rc_status r) (rc_id r) p).
Proof.
  intros Hs [H1 H2 H3]. constructor; simpl; [done | |].
  - unfold pending. simpl. destruct (bool_decide _); by intros [|].
  - intros _. apply H3. by left.
Qed.

Lemma proposals_step d st ps rs epoch :
  action_step d st ps rs -> ms_capability_epoch st <= epoch -> NoDup (pr_id <$> ms_proposals st) ->
  Forall (proposal_ok d (ms_capability_epoch st)) (ms_proposals st) -> Forall (proposal_ok d epoch) ps.
Proof.
  intros Hst Hle Hnd Hok.
  assert (Forall (proposal_ok d (ms_capability_epoch st)) ps) as H;
    [|eapply Forall_impl; [exact H|]; intros p; by apply proposal_ok_mono].
  destruct Hst as [| |item id goalId args hash nonce comp Hc Ha Hnew Hrep|p item ev Hp Hs Hc Hconf Hev
    |p r source Hp Hs Hep Hr Hrp Hra Hrk]; [done | | | |].
  - apply Forall_fmap. eapply Forall_impl; [exact Hok|]. apply proposal_ok_revoke.
  - apply Forall_app. split; [done|]. constructor; [by apply proposal_ok_new | constructor].
  - rewrite Forall_forall in *. intros q (q0 & Hq0 & ->)%elem_of_update.
    destruct (pr_id q0 =?s pr_id p) eqn:E; to_prop; [|auto].
    pose proof (same_proposal_id _ _ _ Hnd Hq0 Hp E) as ->. eapply proposal_ok_authorize; eauto.
  - rewrite Forall_forall in *. intros q (q0 & Hq0 & ->)%elem_of_update.
    destruct (pr_id q0 =?s pr_id p) eqn:E; to_prop; [|auto].
    pose proof (same_proposal_id _ _ _ Hnd Hq0 Hp E) as ->. apply proposal_ok_settle; auto.
Qed.

Lemma settled_step d st ps rs :
  action_step d st ps rs -> actions_ok d st -> Forall (fun r => Exists (settles r) ps) rs.
Proof.
  intros Hst [Hnd Hnr Hok Hset].
  assert (Forall (fun q => pending q -> pr_receipt_id q = None) (ms_proposals st)) as Hno.
  { eapply Forall_impl; [exact Hok|]. by intros q []. }
  destruct Hst as [| |item id goalId args hash nonce comp Hc Ha Hnew Hrep|p item ev Hp Hs Hc Hconf Hev
    |p r source Hp Hs Hep Hr Hrp Hra Hrk]; [done | | | |].
  - eapply Forall_impl; [exact Hset|]. intros r. apply settles_revoke.
  - eapply Forall_impl; [exact Hset|]. intros r ?. apply Exists_app. by left.
  - eapply Forall_impl; [exact Hset|]. intros r ?. apply settles_update; try done. by left.
  - apply Forall_app. split.
    + apply Forall_fmap. eapply Forall_impl; [exact Hset|]. intros x Hx. unfold compose.
      enough (Exists (settles x) (update_proposal (pr_id p) (settle_proposal (rc_status r) (rc_id r)) (ms_proposals st)))
        by (by destruct (bool_decide _)).
      apply settles_update; try done. by right.
    + constructor; [|constructor]. apply Exists_exists. exists (settle_proposal (rc_status r) (rc_id r) p). split.
      * apply list_elem_of_fmap. exists p. by rewrite str_eqb_refl.
      * unfold settles. simpl. split_and!; try done. destruct (bool_decide _); tauto.
Qed.

Lemma ids_step d st ps rs :
  action_step d st ps rs -> NoDup (pr_id <$> ms_proposals st) -> NoDup (rc_id <$> ms_receipts st) ->
  NoDup (pr_id <$> ps) /\ NoDup (rc_id <$> rs).
Proof.
  intros Hst Hp Hr. destruct Hst; [done|..].
  - split; [|done]. rewrite ids_map; [done|]. intros p. unfold revoke. by destruct (_ || _).
  - split; [|done]. rewrite fmap_app. by apply NoDup_snoc.
  - split; [|done]. by rewrite ids_update.
  - split; [by rewrite ids_update|]. rewrite fmap_app. apply NoDup_snoc.
    + rewrite <- list_fmap_compose. erewrite list_fmap_ext; [exact Hr|]. intros i x _. unfold compose. by destruct (bool_decide _).
    + rewrite <- list_fmap_compose. erewrite list_fmap_ext; [eassumption|]. intros i x _. unfold compose. by destruct (bool_decide _).
Qed.

Lemma actions_step d st st' : step d st st' -> actions_ok d st -> actions_ok d st'.
Proof.
  intros [Hst He]%step_actions Hok. destruct (ids_step _ _ _ _ Hst) as [H1 H2]; [apply Hok..|].
  constructor; [done | done | | by eapply settled_step].
  eapply proposals_step; [done | | apply Hok..]. unfold rotates in He. destruct He as [He|[He _]]; lia.
Qed.

Lemma reachable_actions d st : reachable d st -> actions_ok d st.
Proof.
  revert st. apply reachable_ind_step; [|eauto using actions_step].
  unfold createMissionState. intros at_ st H.
  destruct (requireDefinition d None); cbn [bind_result] in H; [|discriminate H].
  apply appendEvent_Ok in H as (e & -> & _). constructor; simpl; constructor.
Qed.

(** ** Authority and the capability epoch *)

Definition rotating (op : MissionOp) : bool :=
  match op with OpPropose _ _ _ _ _ | OpAuthorize _ _ _ _ _ _ _ => false | _ => true end.

Lemma op_rotates d st op st' : rotating op = true -> apply_op d st op = Ok st' -> rotates st st'.
Proof.
  intros Hr H. destruct op; try discriminate Hr; simpl in H;
    unfold activateMissionGoal, recordMissionFact, openMissionObligation, settleMissionAction, completeMissionGoal,
      abandonMissionGoal, completeMission in H;
    repeat match type of H with
    | bind_result ?x _ = _ => destruct x; cbn [bind_result] in H; [|discriminate H]
    | (if ?b then _ else _) = _ => destruct b; try discriminate H
    | match ?x with _ => _ end = _ => destruct x; try discriminate H
    | (let _ := _ in _) = _ => cbn zeta in H
    end;
    apply appendEvent_Ok in H as (e & -> & _); reflexivity.
Qed.

(** After a step every authority dates from the epoch before it or earlier. *)
Lemma authorities_before d st st' p n :
  step d st st' -> actions_ok d st -> p ∈ ms_proposals st' -> pr_authorized_epoch p = Some n ->
  n <= ms_capability_epoch st.
Proof.
  intros [Hst _]%step_actions [H1 _ H3 _] Hp Hn.
  pose proof (proposals_step _ _ _ _ (ms_capability_epoch st) Hst ltac:(lia) H1 H3) as Hok.
  rewrite Forall_forall in Hok. apply (po_epoch _ _ _ (Hok _ Hp) _ Hn).
Qed.

(** C25. Changing a mission withdraws every pending authority: after any operation other than
    proposing or authorising an action has been applied to a reachable state, no proposal can
    be settled until it has been authorised anew. *)
Theorem stale_authority_refused d st op st' :
  reachable d st -> rotating op = true -> apply_op d st op = Ok st' ->
  forall proposal_id receipt_id status outcome at_,
    is_ok (settleMissionAction d st' proposal_id receipt_id status outcome at_) = false.
Proof.
  intros Hr Hrot H pid rid status outcome at_.
  pose proof (op_rotates _ _ _ _ Hrot H) as He. pose proof (op_step _ _ _ _ H) as Hst.
  pose proof (reachable_actions _ _ Hr) as Ha. unfold settleMissionAction.
  destruct (checked d st'); cbn [bind_result]; [|done].
  destruct (find_proposal st' pid) as [p|] eqn:Hp; [|done]. apply find_proposal_elem in Hp.
  destruct (negb _); [done|]. destruct (negb _); [done|].
  destruct (bool_decide (pr_authorized_epoch p = _)) eqn:E; [|done]. to_prop.
  pose proof (authorities_before _ _ _ _ _ Hst Ha Hp E). unfold rotates in He. lia.
Qed.

(** ** Receipts *)

Lemma find_proposal_of d st p : actions_ok d st -> p ∈ ms_proposals st -> find_proposal st (pr_id p) = Some p.
Proof.
  intros [Hnd _ _ _] Hp. unfold find_proposal. destruct (List.find _ _) as [q|] eqn:E.
  - apply find_elem in E as [Hq E]. to_prop. by rewrite (same_proposal_id _ _ _ Hnd Hq Hp E).
  - rewrite find_none_elem in E. specialize (E _ Hp). by rewrite str_eqb_refl in E.
Qed.

(** Every receipt of a reachable mission belongs to exactly one proposal, which is settled
    or indeterminate and names the receipt in turn; receipts and proposals have unique ids.
    If the capability behind it demands confirmation, the proposal carries the evidence of
    one. *)
Theorem receipts_confirmed d st :
  reachable d st ->
  NoDup (pr_id <$> ms_proposals st) /\ NoDup (rc_id <$> ms_receipts st) /\
  forall r, r ∈ ms_receipts st -> bijective st r = true /\
    exists p item, find_proposal st (rc_proposal_id r) = Some p /\
      (pr_status p = Settled \/ pr_status p = ProposalIndeterminate) /\
      pr_action p = rc_action r /\ find_capability d (rc_action r) = Some item /\
      (ca_confirmation item <> None ->
       exists ev, pr_confirmation_evidence_id p = Some ev /\ EXTERNAL_ID ev = true).
Proof.
  intros Hr%reachable_actions. pose proof Hr as [H1 H2 H3 H4]. split_and!; [done | done |].
  intros r Hin. rewrite Forall_forall in H4. specialize (H4 _ Hin).
  apply Exists_exists in H4 as (p & Hp & Hid & Hrc & Hact & _ & Hst).
  pose proof (find_proposal_of _ _ _ Hr Hp) as Hf. rewrite Hid in Hf.
  split; [unfold bijective; rewrite Hf; by apply bool_decide_eq_true_2|].
  rewrite Forall_forall in H3. destruct (po_confirmed _ _ _ (H3 _ Hp)) as (item & Hc & Hev); [right; tauto|].
  exists p, item. rewrite Hact. split_and!; done.
Qed.

(** ** Idempotent actions that need no confirmation *)

Definition plain d (action : jstr) : Prop :=
  exists item, find_capability d action = Some item /\ ca_confirmation item = None /\
    ca_idempotency item <> NoIdempotency.

Record success_ok d st : Prop := {
  so_unique : forall r1 r2, r1 ∈ ms_receipts st -> r2 ∈ ms_receipts st ->
    rc_status r1 = RSucceeded -> rc_status r2 = RSucceeded -> rc_idempotency_key r1 = rc_idempotency_key r2 ->
    plain d (rc_action r1) -> plain d (rc_action r2) -> r1 = r2;
  so_authorized : forall p r, p ∈ ms_proposals st -> pr_status p = Authorized ->
    pr_authorized_epoch p = Some (ms_capability_epoch st) -> plain d (pr_action p) ->
    r ∈ ms_receipts st -> rc_status r = RSucceeded -> rc_idempotency_key r <> pr_idempotency_key p;
}.

(** Receipts after a settlement: an old one that was not compensated, or the new one. *)
Lemma succeeded_after source rs r x :
  x ∈ ((fun x => if bool_decide (Some (rc_id x) = source) then with_receipt_status RCompensated x else x) <$> rs)
      ++ [r] ->
  rc_status x = RSucceeded -> x ∈ rs \/ x = r.
Proof.
  intros [(y & -> & Hy)%list_elem_of_fmap | ->%list_elem_of_singleton]%elem_of_app Hs; [|by right].
  left. by destruct (bool_decide _).
Qed.

Lemma success_step d st st' :
  step d st st' -> actions_ok d st -> success_ok d st -> success_ok d st'.
Proof.
  intros Hst Ha [Hu Hau].
  pose proof (fun p n => authorities_before _ _ _ p n Hst Ha) as Hbefore.
  apply step_actions in Hst as [Hst He].
  inversion Hst as [HP HR|HP HR|item id goalId args hash nonce comp Hc Hact Hnew Hrep HP HR
    |p item ev Hp Hs Hc Hconf Hev HP HR|p r source Hp Hs Hep Hrid Hrp Hra Hrk HP HR].
  - constructor; rewrite <- ?HR, <- ?HP; [exact Hu|]. intros p r Hp Hs He' Hpl. destruct He as [He|[He _]].
    + pose proof (Hbefore p _ ltac:(by rewrite <- HP) He'). unfold rotates in He. lia.
    + rewrite He in He'. eauto.
  - constructor; rewrite <- ?HR, <- ?HP; [exact Hu|]. intros p r (q & -> & Hq)%list_elem_of_fmap.
    unfold revoke. destruct (_ || _) eqn:E; [done|]. intros Hs. by rewrite Hs in E.
  - constructor; rewrite <- ?HR, <- ?HP; [exact Hu|]. intros p r [Hp| ->%list_elem_of_singleton]%elem_of_app Hs He' Hpl Hr Hsu.
    + destruct He as [He|[He _]]; [|rewrite He in He'; exact (Hau p r Hp Hs He' Hpl Hr Hsu)].
      pose proof (Hbefore p _ ltac:(rewrite <- HP; set_solver) He'). unfold rotates in He. lia.
    + destruct Hpl as (item' & Hc' & _ & Hne). simpl in Hc'. rewrite Hc in Hc'. injection Hc' as <-. by apply Hrep.
  - constructor; rewrite <- ?HR, <- ?HP; [exact Hu|]. intros q r (q0 & Hq0 & ->)%elem_of_update Hs' He' Hpl Hr Hsu.
    destruct (pr_id q0 =?s pr_id p) eqn:E; to_prop.
    + pose proof (same_proposal_id _ _ _ (ao_proposals _ _ Ha) Hq0 Hp E) as ->.
      destruct Hpl as (item' & Hc' & Hno & _). simpl in Hc'. congruence.
    + destruct He as [He|[He _]]; [|rewrite He in He'; exact (Hau q0 r Hq0 Hs' He' Hpl Hr Hsu)].
      pose proof (po_epoch _ _ _ (proj1 (Forall_forall _ _) (ao_ok _ _ Ha) _ Hq0) _ He'). unfold rotates in He. lia.
  - constructor; rewrite <- ?HR, <- ?HP.
    + intros r1 r2 Hr1 Hr2 Hs1 Hs2 Hk Hp1 Hp2.
      destruct (succeeded_after _ _ _ _ Hr1 Hs1) as [Hr1'| ->], (succeeded_after _ _ _ _ Hr2 Hs2) as [Hr2'| ->];
        [by apply Hu | | | done].
      * exfalso. rewrite Hra in Hp2. apply (Hau p r1 Hp Hs Hep Hp2 Hr1' Hs1). congruence.
      * exfalso. rewrite Hra in Hp1. apply (Hau p r2 Hp Hs Hep Hp1 Hr2' Hs2). congruence.
    + intros q x Hq Hsq He' _ _ _. exfalso. pose proof (Hbefore q _ ltac:(by rewrite <- HP) He') as Hlt.
      destruct He as [He|[_ He]]; [unfold rotates in He; lia|].
      rewrite <- HR in He. apply (f_equal length) in He. rewrite length_app, length_fmap in He. simpl in He. lia.
Qed.

Lemma reachable_success d st : reachable d st -> success_ok d st.
Proof.
  revert st. apply reachable_ind_step.
  - unfold createMissionState. intros at_ st H.
    destruct (requireDefinition d None); cbn [bind_result] in H; [|discriminate H].
    apply appendEvent_Ok in H as (e & -> & _). constructor; simpl; intros; set_solver.
  - intros st st' Hr _ HS' Hst. eauto using success_step, reachable_actions.
Qed.

(** An action that is idempotent and needs no confirmation succeeds at most once: in a
    reachable mission two successful receipts of such actions never share an idempotency key,
    unless the earlier success was compensated. *)
Theorem unconfirmed_success_once d st r1 r2 :
  reachable d st -> r1 ∈ ms_receipts st -> r2 ∈ ms_receipts st ->
  rc_status r1 = RSucceeded -> rc_status r2 = RSucceeded -> rc_idempotency_key r1 = rc_idempotency_key r2 ->
  plain d (rc_action r1) -> plain d (rc_action r2) -> r1 = r2.
Proof. intros Hr. apply (so_unique _ _ (reachable_success _ _ Hr)). Qed.

(** What a proposal guarantees. It either replays a recorded success and leaves the state
    alone, or adds exactly one new proposal, for a capability whose authority comes from the
    focused goal, the global list or an open compensation duty, with all prerequisites true
    and no blocking obligation. The proposal is authorised at once exactly when the capability
    needs no confirmation; otherwise a challenge is returned and it waits. *)
Theorem proposal_admitted d st action args id nonce at_ res :
  proposeMissionAction d st action args id nonce at_ = Ok res ->
  (exists receipt, ps_state res = st /\ ps_replayed res = Some receipt /\ receipt ∈ ms_receipts st /\
     rc_status receipt = RSucceeded) \/
  exists item, find_capability d action = Some item /\
    admissible d st item (pr_compensation_obligation_id (ps_proposal res)) /\
    currentGoalId st = Some (pr_goal_id (ps_proposal res)) /\ pr_action (ps_proposal res) = ca_name item /\
    ms_proposals (ps_state res) = ms_proposals st ++ [ps_proposal res] /\
    ms_receipts (ps_state res) = ms_receipts st /\ ms_obligations (ps_state res) = ms_obligations st /\
    ms_capability_epoch (ps_state res) = ms_capability_epoch st /\
    (pr_status (ps_proposal res) = Authorized /\ pr_authorized_epoch (ps_proposal res) = Some (ms_capability_epoch st) /\
       ca_confirmation item = None \/
     pr_status (ps_proposal res) = Proposed /\ pr_authorized_epoch (ps_proposal res) = None /\
       is_Some (ca_confirmation item) /\ is_Some (ps_challenge res)).
Proof.
  intros [rc Es Er Hin Hs _|item goalId hash key Hi Hg Had Hid Hnew Hkey Hrep Hp _ Hch (e & -> & _)]%propose_spec.
  { left. eauto. }
  right. exists item. split_and!; try done; [by rewrite Hp | by rewrite Hp |].
  rewrite Hp. unfold new_proposal. cbn [pr_status pr_authorized_epoch].
  destruct (ca_confirmation item) as [conf|]; [right | by left].
  rewrite bool_decide_eq_false_2 by done. split_and!; try done. by apply Hch.
Qed.

(** ** Completed missions *)

Record finished d st : Prop := {
  fi_stack : ms_focus_stack st = [];
  fi_goals : forall g, g ∈ md_goals d -> go_required g = true -> goal_status st (go_id g) = Some GoalCompleted;
  fi_proposals : forall p, p ∈ ms_proposals st -> unresolved p = false;
}.

Lemma unresolved_pending p : pending p -> unresolved p = true.
Proof. unfold unresolved. by intros [-> | ->]. Qed.

Lemma finished_step d st st' :
  step d st st' -> (ms_status st = MissionCompleted -> finished d st) ->
  ms_status st' = MissionCompleted -> finished d st'.
Proof.
  intros Hst IH. destruct Hst as [ |g st' Hg Ha Hq He|? ? He|? ? He|item id goalId args hash key nonce comp st' Hc Hcur Had Hid Hnew Hkey Hrep He
    |p item ev st' Hp Hs Hc Hconf Hev Hcur He|p item r receipts obligations source st' Hp Hs Hc Hcur Hep Hr Hrp Hra Hrk -> He
    |g status st' Hg Hfa Hs He|? Hreq Hstack _ Hprop He]; [done|..]; destruct He as (e & -> & _); simpl; intros Hcomp;
    try (destruct (IH Hcomp) as [H1 H2 H3]).
  - congruence.
  - constructor; simpl; [done | done|]. intros p (q & -> & Hq)%list_elem_of_fmap. specialize (H3 _ Hq).
    unfold revoke. by destruct (_ || _).
  - by constructor.
  - destruct Had. congruence.
  - apply find_proposal_elem in Hp. specialize (H3 _ Hp). by rewrite unresolved_pending in H3 by (by left).
  - apply find_proposal_elem in Hp. specialize (H3 _ Hp). by rewrite unresolved_pending in H3 by (by right).
  - unfold focused_active, currentGoalId in Hfa. by rewrite H1 in Hfa.
  - by constructor.
Qed.

(** A completed mission is finished for good: its required goals are completed, no goal
    is in focus and no proposal is pending, and no goal can be activated and no action
    proposed, authorised or settled in it any more. *)
Theorem completed_mission_finished d st :
  reachable d st -> ms_status st = MissionCompleted ->
  finished d st /\
  (forall goal_id mode at_, is_ok (activateMissionGoal d st goal_id mode at_) = false) /\
  (forall action args id nonce at_ res, proposeMissionAction d st action args id nonce at_ = Ok res ->
     ps_state res = st) /\
  (forall id rid status outcome at_, is_ok (settleMissionAction d st id rid status outcome at_) = false).
Proof.
  intros Hr Hc. assert (finished d st) as Hf.
  { refine (reachable_ind_step d (fun st => ms_status st = MissionCompleted -> finished d st) _ _ st Hr Hc);
      [|intros st1 st2 _ _ IH Hst; exact (finished_step _ _ _ Hst IH)].
    unfold createMissionState. clear. intros at_ st H Hc.
    destruct (requireDefinition d None); cbn [bind_result] in H; [|discriminate H].
    by apply appendEvent_Ok in H as (e & -> & _). }
  split_and!; [done | | |].
  - intros goal_id mode at_. unfold activateMissionGoal.
    destruct (checked d st); cbn [bind_result]; [|done]. destruct (goal d goal_id); cbn [bind_result]; [|done].
    by rewrite Hc.
  - intros action args id nonce at_ r [rc Es _ _ _ _|item goalId hash key _ _ Had _ _ _ _ _ _ _ _]%propose_spec; [done|].
    destruct Had. congruence.
  - intros id rid status outcome at_. unfold settleMissionAction. destruct (checked d st); cbn [bind_result]; [|done].
    destruct (find_proposal st id) as [p|] eqn:Hp; [|done]. apply find_proposal_elem in Hp.
    destruct (bool_decide (pr_status p = Authorized)) eqn:E; [|done]. to_prop.
    pose proof (fi_proposals _ _ Hf _ Hp) as Hu. by rewrite unresolved_pending in Hu by (by right).
Qed.
End Safety.
