(* ===== verification/MissionDemo.v ===== *)
(** * A worked mission, and what modelling it showed

    A refund mission with one action that is looked up freely and one that the caller must
    confirm; then the traces on which the runtime departs from its intent. *)

From S2P Require Import Prelude JsValue JsText Canonical JsDate Graph Flow FlowValidate FlowRuntime.
From S2P Require Import Mission MissionGraph MissionInvariant MissionSafety.
Import Mission.

Local Open Scope Z_scope.
#[local] Existing Instance demo_sha256.

Definition demo_lookup : MissionCapability :=
  {| ca_name := js "lookup.account"; ca_description := js "Find the account"; ca_risk := Read;
     ca_goals := [js "intake"]; ca_prerequisites := []; ca_confirmation := None; ca_idempotency := PerArguments;
     ca_opens_obligations := [{| ot_type := js "callback"; ot_description := js "Call back"; ot_owner := OwnAgent;
       ot_blocks := BlocksMission |}];
     ca_satisfies_obligation_types := []; ca_saga := None |}.

Definition demo_refund : MissionCapability :=
  {| ca_name := js "refund.issue"; ca_description := js "Issue the refund"; ca_risk := Irreversible;
     ca_goals := [js "intake"]; ca_prerequisites := [];
     ca_confirmation := Some {| mc_prompt := js "Refund?"; mc_accepted_values := [JBool true];
       mc_authorities := [ByCaller] |};
     ca_idempotency := PerArguments; ca_opens_obligations := [];
     ca_satisfies_obligation_types := [js "callback"]; ca_saga := None |}.

Definition demo_goal (id : string) (entry : bool) (detour : string) (caps : list jstr) : MissionGoal :=
  {| go_id := js id; go_label := js id; go_entry := entry; go_required := entry; go_depends_on := [];
     go_capabilities := caps; go_completion := []; go_allowed_detours := [js detour] |}.

Definition demo_mission : MissionDefinition :=
  {| md_id := js "refund-mission"; md_version := js "1"; md_label := js "Refund"; md_global_capabilities := [];
     md_goals := [demo_goal "intake" true "verify" [js "lookup.account"; js "refund.issue"];
                  demo_goal "verify" false "intake" []];
     md_capabilities := [demo_lookup; demo_refund] |}.

Definition noon : jstr := js "2026-01-01T12:00:00.000Z".

Definition state_of (r : result string MissionState) : MissionState :=
  match r with
  | Ok st => st
  | Err _ => mkMission [] [] [] MissionFailed 0 0 [] [] [] [] [] [] []
  end.

(** The operations of a trace, each given the state it meets. *)
Definition Script := list (MissionState -> MissionOp).

Fixpoint play (st : MissionState) (l : Script) : result string MissionState :=
  match l with
  | [] => Ok st
  | op :: l => let* st' := apply_op demo_mission st (op st) in play st' l
  end.

Definition demo_start : MissionState := state_of (createMissionState demo_mission noon).
Definition played (l : Script) : MissionState := state_of (play demo_start l).

Definition activate (id : string) (mode : ActivationMode) : MissionState -> MissionOp :=
  fun _ => OpActivate (js id) mode noon.
Definition propose (action id : string) : MissionState -> MissionOp :=
  fun _ => OpPropose (js action) [(js "account", JStr (js "a-1"))] (js id) [] noon.
Definition confirm (id : string) : MissionState -> MissionOp :=
  fun st => OpAuthorize (js id) (from_option pr_digest [] (find_proposal st (js id))) (js "utterance-1") ByCaller
    (JBool true) (ms_revision st + 1) noon.
Definition settle (id receipt : string) (s : ReceiptStatus) : MissionState -> MissionOp :=
  fun _ => OpSettle (js id) (js receipt) s (Some (JBool true)) noon.
Definition complete_goal (id : string) : MissionState -> MissionOp := fun _ => OpCompleteGoal (js id) noon.

(** ** The refund *)

Definition demo_script : Script :=
  [activate "intake" Root; propose "lookup.account" "p1"; settle "p1" "r1" RSucceeded;
   propose "refund.issue" "p2"; confirm "p2"; settle "p2" "r2" RSucceeded; complete_goal "intake";
   fun _ => OpComplete noon].

Lemma script_reachable l : forall st,
  reachable demo_mission st -> is_ok (play st l) = true -> reachable demo_mission (state_of (play st l)).
Proof.
  induction l as [|op l IH]; intros st Hr H; cbn [play] in *; [done|].
  destruct (apply_op demo_mission st (op st)) as [st'|] eqn:E; [|done]. cbn [bind_result] in *.
  apply IH; [|done]. by eapply reach_step.
Qed.

Lemma demo_start_ok : createMissionState demo_mission noon = Ok demo_start.
Proof.
  assert (is_ok (createMissionState demo_mission noon) = true) as H by (vm_compute; reflexivity).
  unfold demo_start. by destruct (createMissionState demo_mission noon).
Qed.

Lemma refund_reachable n : reachable demo_mission (played (take n demo_script)).
Proof.
  apply script_reachable; [by eapply reach_create, demo_start_ok|].
  assert (forall l st n, is_ok (play st l) = true -> is_ok (play st (take n l)) = true) as Htake.
  { clear. induction l as [|op l IH]; intros st n; [by rewrite take_nil|]. destruct n as [|n]; [done|].
    cbn [take play]. intros H. destruct (apply_op _ _ _); [by apply IH | done]. }
  apply Htake. vm_compute. reflexivity.
Qed.

(** A detour that leads back to the suspended goal, and the completion of that goal. *)
Definition detour_script : Script :=
  [activate "intake" Root; activate "verify" Detour; activate "intake" Detour; complete_goal "intake"].

Lemma detour_reachable : reachable demo_mission (played detour_script).
Proof. apply script_reachable; [by eapply reach_create, demo_start_ok|]. vm_compute. reflexivity. Qed.

(** The refund passes its checks; after the detour nothing is accepted any more. *)
Lemma mission_integrity_witness :
  checked demo_mission (played (take 4 demo_script)) = Ok tt /\
  ended_on_stack (played detour_script) (js "intake") /\
  forall op, is_ok (apply_op demo_mission (played detour_script) op) = false.
Proof.
  destruct (mission_integrity demo_mission _ (refund_reachable 4)) as (_ & _ & _ & _ & _ & _ & H & _ & _).
  destruct (mission_integrity demo_mission _ detour_reachable) as (_ & _ & _ & _ & _ & _ & _ & He & _).
  assert (ended_on_stack (played detour_script) (js "intake")) as Hend.
  { split; [|left; vm_compute; reflexivity]. apply (bool_decide_unpack _). vm_compute. exact I. }
  split; [|split; [exact Hend|exact (He _ Hend)]]. apply H.
  assert (ms_focus_stack (played (take 4 demo_script)) = [js "intake"]) as Es by (vm_compute; reflexivity).
  assert (goal_status (played (take 4 demo_script)) (js "intake") = Some GoalActive) as Eg by (vm_compute; reflexivity).
  intros id [Hin Hs]. rewrite Es in Hin. apply list_elem_of_singleton in Hin as ->. rewrite Eg in Hs.
  destruct Hs; discriminate.
Defined.

(** A fact recorded while the looked-up action is still authorised. *)
Definition demo_fact : MissionOp :=
  OpFact (js "caller.name") (JStr (js "Ann")) ByCaller (js "utterance-2") None noon.
Definition demo_changed : MissionState := state_of (apply_op demo_mission (played (take 2 demo_script)) demo_fact).

Lemma demo_changed_ok : apply_op demo_mission (played (take 2 demo_script)) demo_fact = Ok demo_changed.
Proof.
  assert (is_ok (apply_op demo_mission (played (take 2 demo_script)) demo_fact) = true) as H by (vm_compute; reflexivity).
  unfold demo_changed. by destruct (apply_op demo_mission (played (take 2 demo_script)) demo_fact).
Qed.

(** The same mission with its second goal waiting for the first. *)
Definition chained_mission : MissionDefinition :=
  {| md_id := md_id demo_mission; md_version := md_version demo_mission; md_label := md_label demo_mission;
     md_global_capabilities := [];
     md_goals := [demo_goal "intake" true "verify" [js "lookup.account"; js "refund.issue"];
                  {| go_id := js "verify"; go_label := js "verify"; go_entry := false; go_required := false;
                     go_depends_on := [js "intake"]; go_capabilities := []; go_completion := [];
                     go_allowed_detours := [js "intake"] |}];
     md_capabilities := md_capabilities demo_mission |}.

Lemma cycle_search_exact_witness :
  exists g, g ∈ declared chained_mission /\ (g =?s js "intake") = false /\
    forall g', depends chained_mission g g' -> (g' =?s js "intake") = true.
Proof.
  apply (proj2 (cycle_search_exact chained_mission) ltac:(vm_compute; reflexivity) (fun g => g =?s js "intake")).
  exists (js "verify"). split; [|reflexivity]. vm_compute. right. left.
Defined.

Lemma stale_authority_refused_witness :
  is_ok (settleMissionAction demo_mission demo_changed (js "p1") (js "r1") RSucceeded None noon) = false.
Proof.
  exact (stale_authority_refused demo_mission _ demo_fact demo_changed (refund_reachable 2) eq_refl demo_changed_ok
    (js "p1") (js "r1") RSucceeded None noon).
Defined.

Lemma demo_receipts : exists r1 r2, ms_receipts (played (take 6 demo_script)) = [r1; r2] /\
  rc_status r1 = RSucceeded /\ rc_action r1 = js "lookup.account" /\ rc_action r2 = js "refund.issue".
Proof.
  assert (match ms_receipts (played (take 6 demo_script)) with
          | [r1; r2] => bool_decide (rc_status r1 = RSucceeded) && (rc_action r1 =?s js "lookup.account") &&
              (rc_action r2 =?s js "refund.issue")
          | _ => false
          end = true) as H by (vm_compute; reflexivity).
  destruct (ms_receipts _) as [|r1 [|r2 [|]]]; try discriminate H. to_prop. by exists r1, r2.
Qed.

Lemma demo_refund_found : find_capability demo_mission (js "refund.issue") = Some demo_refund.
Proof. vm_compute. reflexivity. Qed.

Lemma demo_lookup_plain : plain demo_mission (js "lookup.account").
Proof. exists demo_lookup. split; [vm_compute; reflexivity | by split]. Qed.

Lemma receipts_confirmed_witness :
  exists p ev, pr_action p = js "refund.issue" /\ pr_confirmation_evidence_id p = Some ev.
Proof.
  destruct demo_receipts as (r1 & r2 & Er & _ & _ & Ha).
  destruct (receipts_confirmed demo_mission _ (refund_reachable 6)) as (_ & _ & H).
  destruct (H r2) as (_ & p & item & _ & _ & Hp & Hc & Hev); [rewrite Er; right; left|].
  rewrite Ha, demo_refund_found in Hc. injection Hc as <-. destruct Hev as (ev & He & _); [discriminate|].
  exists p, ev. split; [by rewrite Hp | exact He].
Defined.

Lemma demo_proposes : is_ok (proposeMissionAction demo_mission (played (take 1 demo_script)) (js "lookup.account") []
  (js "p1") [] noon) = true.
Proof. vm_compute. reflexivity. Qed.

Lemma demo_no_receipts : ms_receipts (played (take 1 demo_script)) = [].
Proof. vm_compute. reflexivity. Qed.

(** ** Findings *)

(** A detour to a goal that is suspended on the stack is accepted and puts it there twice;
    completing it then leaves a completed goal below the top, and every later operation is
    refused by the integrity check. *)
Example detour_to_suspended_blocks_mission :
  is_ok (play demo_start detour_script) = true /\
  assertStateIntegrity (played detour_script) = Err "mission focus stack and goal statuses disagree"%string.
Proof. split; vm_compute; reflexivity. Qed.

(** Two proposals of one action awaiting confirmation can both be confirmed and settled: two
    successful receipts share an idempotency key. *)
Example confirmed_action_succeeds_twice :
  let script := [activate "intake" Root; propose "refund.issue" "p1"; propose "refund.issue" "p2"; confirm "p1";
                 settle "p1" "r1" RSucceeded; confirm "p2"; settle "p2" "r2" RSucceeded] in
  is_ok (play demo_start script) = true /\
  rc_status <$> ms_receipts (played script) = [RSucceeded; RSucceeded] /\
  nodupb (rc_idempotency_key <$> ms_receipts (played script)) = false.
Proof. split_and!; vm_compute; reflexivity. Qed.

(** An obligation that blocks irreversible actions does not stop one that was proposed before
    it was opened: it can still be confirmed and settled. *)
Example blocked_action_still_settles :
  let block := fun _ : MissionState => OpOpen (js "hold-1") (js "fraud.review") (js "Review first") OwnHuman
    BlocksIrreversible None None None noon in
  let script := [activate "intake" Root; propose "refund.issue" "p1"; block; confirm "p1"] in
  blocked_by_obligation (played script) demo_refund = true /\
  is_ok (play (played script) [settle "p1" "r1" RSucceeded]) = true.
Proof. split; vm_compute; reflexivity. Qed.

(** A fact called "constructor" is found before any fact is recorded. *)
Example inherited_fact_exists :
  ms_facts demo_start = [] /\
  evaluatePredicate demo_start (FactPredicate (js "constructor") OpExists None None) None = true.
Proof. split; vm_compute; reflexivity. Qed.

(** An obligation opened under the id that a receipt will generate makes the ids collide. *)
Example obligation_ids_collide :
  let early := fun _ : MissionState => OpOpen (js "obl:r1:callback") (js "callback") (js "Early") OwnAgent
    BlocksMission None None None noon in
  let script := [activate "intake" Root; early; propose "lookup.account" "p1"; settle "p1" "r1" RSucceeded] in
  verifyMissionState demo_mission (played script) = ["obligation ids are not unique"%string].
Proof. vm_compute. reflexivity. Qed.
