(* ===== verification/Program.v ===== *)
(** * The conversation program (src/web/lib/conversation-program/schema.ts, reducer.ts)

    One append-only log for a whole conversation: facts, goals with a focus, flow
    checkpoints, obligations, the capability frontier, action reservations and receipts,
    workers, and what the caller has heard. Throwing is [Err] with a short name of the
    error; a [Map] is an insertion-ordered association list. An event's texts are trimmed
    when it is parsed. [z.iso.datetime] belongs to zod and is a parameter. *)

From S2P Require Import Prelude JsValue JsText Canonical Graph Flow FlowValidate FlowRuntime.

Local Open Scope Z_scope.

(** [z.iso.datetime({ offset: true })] *)
Class IsoOffsetDatetime := iso_offset_datetime : jstr -> bool.

Module Program.

Definition CONVERSATION_PROGRAM_VERSION : Z := 1.
Definition CONVERSATION_PROGRAM_GENESIS_SHA256 : jstr := replicate 64 ch_0.
Definition MAX_EVENT_BYTES : Z := 32 * 1024.
Definition MAX_SAFE_INTEGER : Z := 9007199254740991.

(** ** Events *)

Inductive AuthorityKind : Type := ByCaller | ByTool | ByPolicy | ByOperator | BySystem.
Record ProgramAuthority := { pa_kind : AuthorityKind; pa_evidenceSha256 : jstr }.

Record FactDependency := { dp_key : jstr; dp_revision : Z }.

Record FlowCheckpoint := {
  fc_goalId : jstr;
  fc_flowId : jstr;
  fc_flowVersion : jstr;
  fc_flowRevision : Z;
  fc_capabilityEpoch : Z;
  fc_status : FlowStatus;
  fc_nodeId : option jstr;
  fc_stepPath : option jstr;
  fc_completedStepCount : Z;
  fc_stateSha256 : jstr;
}.

Inductive Owner : Type := OwnAgent | OwnCaller | OwnHuman | OwnSystem.
Inductive Blocks : Type := BlocksGoal | BlocksProgram | BlocksIrreversible.
Inductive Disposition : Type := DispSatisfied | DispWaived.
Inductive ReceiptStatus : Type := RSucceeded | RFailed | RIndeterminate | RCompensated.
#[export] Instance receipt_status_eq_dec : EqDecision ReceiptStatus.
Proof. solve_decision. Defined.

Inductive Payload : Type :=
| FactAsserted (key : jstr) (value : jsval) (authority : ProgramAuthority)
| FactCorrected (key : jstr) (value : jsval) (expectedFactRevision : Z) (authority : ProgramAuthority)
| GoalOpened (goalId description : jstr)
| GoalFocused (goalId : jstr)
| GoalSuspended (goalId reason : jstr)
| GoalCompleted (goalId : jstr)
| FlowCheckpointRecorded (checkpoint : FlowCheckpoint)
| ObligationOpened (obligationId obligationType description : jstr) (owner : Owner) (blocks : Blocks)
    (goalId : option jstr) (sourceId : jstr)
| ObligationSettled (obligationId : jstr) (disposition : Disposition) (evidenceSha256 : jstr)
| CapabilityEpochAdvanced (expectedEpoch epoch : Z) (capabilities : list jstr) (reason : jstr)
| ActionReserved (reservationId goalId action argumentsSha256 idempotencyKey : jstr)
    (capabilityEpoch authorityRevision : Z)
| ActionReceiptRecorded (receiptId reservationId : jstr) (status : ReceiptStatus) (resultSha256 : option jstr)
    (evidenceSha256 : jstr)
| WorkerSpawned (workerId goalId purpose : jstr) (capabilityEpoch : Z) (dependencies : list FactDependency)
    (requiredForGoalCompletion : bool)
| WorkerDeliveryRecorded (deliveryId workerId goalId : jstr) (capabilityEpoch : Z)
    (dependencyFactRevisions : list FactDependency) (resultSha256 : jstr)
| WorkerCancelled (workerId reason : jstr)
| AudibilityResponseRegistered (responseId : jstr) (generatedThroughMs : Z) (contentSha256 evidenceSha256 : jstr)
| AudibilityReleasedThrough (responseId : jstr) (throughMs : Z) (evidenceSha256 : jstr)
| AudibilityHeardThrough (responseId : jstr) (throughMs : Z) (evidenceSha256 : jstr)
| AudibilityInterrupted (responseId : jstr) (heardThroughMs : Z) (reason evidenceSha256 : jstr).

Record EventDraft := {
  ed_eventId : jstr;
  ed_expectedRevision : Z;
  ed_occurredAt : jstr;
  ed_payload : Payload;
}.

Record ProgramEvent := {
  ev_schemaVersion : Z;
  ev_programId : jstr;
  ev_sequence : Z;
  ev_previousSha256 : jstr;
  ev_draft : EventDraft;
  ev_eventSha256 : jstr;
}.

Record ProgramLog := {
  lg_schemaVersion : Z;
  lg_programId : jstr;
  lg_events : list ProgramEvent;
}.

(** ** Schema *)

(** [/^[A-Za-z0-9][A-Za-z0-9._:/-]*$/], at most 128 characters. *)
Definition IdSchema (s : jstr) : bool :=
  match s with
  | c :: r => is_alnum c && forallb (fun c => is_alnum c || one_of "._:/-" c) r && (length s <=? 128)%nat
  | [] => false
  end.
Definition TextSchema (s : jstr) : bool := (1 <=? length (trim s))%nat && (length (trim s) <=? 4096)%nat.
Definition RevisionSchema (z : Z) : bool := (0 <=? z) && (z <=? MAX_SAFE_INTEGER).
Definition PositiveRevisionSchema (z : Z) : bool := (1 <=? z) && (z <=? MAX_SAFE_INTEGER).
Definition text_between (low high : nat) (s : jstr) : bool := (low <=? length s)%nat && (length s <=? high)%nat.

(** The JSON values are those the encoder accepts, and their two renderings have the same
    bytes in another order. *)
Definition JsonSchema (v : jsval) : bool :=
  match flowJsonBytes v with Some bytes => bytes <=? 16 * 1024 | None => false end.

Definition ProgramAuthoritySchema (a : ProgramAuthority) : bool := is_sha256 (pa_evidenceSha256 a).

Definition DependenciesSchema (l : list FactDependency) : bool :=
  forallb (fun d => IdSchema (dp_key d) && PositiveRevisionSchema (dp_revision d)) l &&
  (length l <=? 64)%nat && nodupb (dp_key <$> l).

Definition FlowCheckpointRecordedSchema (c : FlowCheckpoint) : bool :=
  IdSchema (fc_goalId c) && IdSchema (fc_flowId c) && text_between 1 128 (fc_flowVersion c) &&
  RevisionSchema (fc_flowRevision c) && RevisionSchema (fc_capabilityEpoch c) &&
  opt_all IdSchema (fc_nodeId c) && opt_all (text_between 1 1024) (fc_stepPath c) &&
  RevisionSchema (fc_completedStepCount c) && is_sha256 (fc_stateSha256 c) &&
  match fc_status c with
  | Routing => bool_decide (fc_nodeId c = None) && bool_decide (fc_stepPath c = None)
  | Active => bool_decide (fc_nodeId c <> None)
  | Completed | FlowFailed => bool_decide (fc_stepPath c = None)
  end.

Definition committed (s : ReceiptStatus) : bool :=
  match s with RSucceeded | RCompensated => true | RFailed | RIndeterminate => false end.

Definition PayloadSchema (p : Payload) : bool :=
  match p with
  | FactAsserted key value authority => IdSchema key && JsonSchema value && ProgramAuthoritySchema authority
  | FactCorrected key value expected authority =>
      IdSchema key && JsonSchema value && PositiveRevisionSchema expected && ProgramAuthoritySchema authority
  | GoalOpened goalId description => IdSchema goalId && TextSchema description
  | GoalFocused goalId => IdSchema goalId
  | GoalSuspended goalId reason => IdSchema goalId && TextSchema reason
  | GoalCompleted goalId => IdSchema goalId
  | FlowCheckpointRecorded c => FlowCheckpointRecordedSchema c
  | ObligationOpened id type description _ _ goalId sourceId =>
      IdSchema id && IdSchema type && TextSchema description && opt_all IdSchema goalId && IdSchema sourceId
  | ObligationSettled id _ evidence => IdSchema id && is_sha256 evidence
  | CapabilityEpochAdvanced expected epoch capabilities reason =>
      RevisionSchema expected && PositiveRevisionSchema epoch && forallb IdSchema capabilities &&
      (length capabilities <=? 1024)%nat && TextSchema reason && nodupb capabilities
  | ActionReserved id goalId action arguments key epoch revision =>
      IdSchema id && IdSchema goalId && IdSchema action && is_sha256 arguments && text_between 1 256 key &&
      RevisionSchema epoch && RevisionSchema revision
  | ActionReceiptRecorded id reservationId status outcome evidence =>
      IdSchema id && IdSchema reservationId && opt_all is_sha256 outcome && is_sha256 evidence &&
      eqb (committed status) (bool_decide (outcome <> None))
  | WorkerSpawned workerId goalId purpose epoch deps _ =>
      IdSchema workerId && IdSchema goalId && TextSchema purpose && RevisionSchema epoch && DependenciesSchema deps
  | WorkerDeliveryRecorded id workerId goalId epoch deps outcome =>
      IdSchema id && IdSchema workerId && IdSchema goalId && RevisionSchema epoch && DependenciesSchema deps &&
      is_sha256 outcome
  | WorkerCancelled workerId reason => IdSchema workerId && TextSchema reason
  | AudibilityResponseRegistered id generated content evidence =>
      IdSchema id && PositiveRevisionSchema generated && is_sha256 content && is_sha256 evidence
  | AudibilityReleasedThrough id through evidence | AudibilityHeardThrough id through evidence =>
      IdSchema id && RevisionSchema through && is_sha256 evidence
  | AudibilityInterrupted id heard reason evidence =>
      IdSchema id && RevisionSchema heard && TextSchema reason && is_sha256 evidence
  end.

(** The texts of a parsed payload are trimmed. *)
Definition trim_payload (p : Payload) : Payload :=
  match p with
  | GoalOpened goalId description => GoalOpened goalId (trim description)
  | GoalSuspended goalId reason => GoalSuspended goalId (trim reason)
  | ObligationOpened id type description owner blocks goalId sourceId =>
      ObligationOpened id type (trim description) owner blocks goalId sourceId
  | CapabilityEpochAdvanced expected epoch capabilities reason =>
      CapabilityEpochAdvanced expected epoch capabilities (trim reason)
  | WorkerSpawned workerId goalId purpose epoch deps required =>
      WorkerSpawned workerId goalId (trim purpose) epoch deps required
  | WorkerCancelled workerId reason => WorkerCancelled workerId (trim reason)
  | AudibilityInterrupted id heard reason evidence => AudibilityInterrupted id heard (trim reason) evidence
  | _ => p
  end.

(** ** Events as JSON *)

Definition authority_text (k : AuthorityKind) : string :=
  match k with
  | ByCaller => "caller" | ByTool => "tool" | ByPolicy => "policy" | ByOperator => "operator" | BySystem => "system"
  end.
Definition owner_text (o : Owner) : string :=
  match o with OwnAgent => "agent" | OwnCaller => "caller" | OwnHuman => "human" | OwnSystem => "system" end.
Definition blocks_text (b : Blocks) : string :=
  match b with
  | BlocksGoal => "goal_completion" | BlocksProgram => "program_completion"
  | BlocksIrreversible => "irreversible_actions"
  end.
Definition disposition_text (d : Disposition) : string :=
  match d with DispSatisfied => "satisfied" | DispWaived => "waived" end.
Definition receipt_text (s : ReceiptStatus) : string :=
  match s with
  | RSucceeded => "succeeded" | RFailed => "failed" | RIndeterminate => "indeterminate" | RCompensated => "compensated"
  end.

Definition texts (l : list jstr) : jsval := JArr (JStr <$> l).
Definition authority_json (a : ProgramAuthority) : jsval :=
  JObj (field "kind" (jtext (authority_text (pa_kind a))) ++ field "evidenceSha256" (JStr (pa_evidenceSha256 a))).
Definition dependency_json (d : FactDependency) : jsval :=
  JObj (field "key" (JStr (dp_key d)) ++ field "revision" (jnat (dp_revision d))).
Definition dependencies_json (l : list FactDependency) : jsval := JArr (dependency_json <$> l).

Definition checkpoint_fields (c : FlowCheckpoint) : obj jsval :=
  field "goalId" (JStr (fc_goalId c)) ++ field "flowId" (JStr (fc_flowId c)) ++
  field "flowVersion" (JStr (fc_flowVersion c)) ++ field "flowRevision" (jnat (fc_flowRevision c)) ++
  field "capabilityEpoch" (jnat (fc_capabilityEpoch c)) ++ field "status" (jtext (flow_status_text (fc_status c))) ++
  field "nodeId" (nullable (fc_nodeId c)) ++ field "stepPath" (nullable (fc_stepPath c)) ++
  field "completedStepCount" (jnat (fc_completedStepCount c)) ++ field "stateSha256" (JStr (fc_stateSha256 c)).

Definition payload_json (p : Payload) : jsval :=
  let type t := field "type" (jtext t) in
  JObj match p with
  | FactAsserted key value authority =>
      type "fact.asserted" ++ field "key" (JStr key) ++ field "value" value ++
      field "authority" (authority_json authority)
  | FactCorrected key value expected authority =>
      type "fact.corrected" ++ field "key" (JStr key) ++ field "value" value ++
      field "expectedFactRevision" (jnat expected) ++ field "authority" (authority_json authority)
  | GoalOpened goalId description =>
      type "goal.opened" ++ field "goalId" (JStr goalId) ++ field "description" (JStr description)
  | GoalFocused goalId => type "goal.focused" ++ field "goalId" (JStr goalId)
  | GoalSuspended goalId reason =>
      type "goal.suspended" ++ field "goalId" (JStr goalId) ++ field "reason" (JStr reason)
  | GoalCompleted goalId => type "goal.completed" ++ field "goalId" (JStr goalId)
  | FlowCheckpointRecorded c => type "flow.checkpoint_recorded" ++ checkpoint_fields c
  | ObligationOpened id otype description owner blocks goalId sourceId =>
      type "obligation.opened" ++ field "obligationId" (JStr id) ++ field "obligationType" (JStr otype) ++
      field "description" (JStr description) ++ field "owner" (jtext (owner_text owner)) ++
      field "blocks" (jtext (blocks_text blocks)) ++ field "goalId" (nullable goalId) ++
      field "sourceId" (JStr sourceId)
  | ObligationSettled id disposition evidence =>
      type "obligation.settled" ++ field "obligationId" (JStr id) ++
      field "disposition" (jtext (disposition_text disposition)) ++ field "evidenceSha256" (JStr evidence)
  | CapabilityEpochAdvanced expected epoch capabilities reason =>
      type "capability_epoch.advanced" ++ field "expectedEpoch" (jnat expected) ++ field "epoch" (jnat epoch) ++
      field "capabilities" (texts capabilities) ++ field "reason" (JStr reason)
  | ActionReserved id goalId action arguments key epoch revision =>
      type "action.reserved" ++ field "reservationId" (JStr id) ++ field "goalId" (JStr goalId) ++
      field "action" (JStr action) ++ field "argumentsSha256" (JStr arguments) ++
      field "idempotencyKey" (JStr key) ++ field "capabilityEpoch" (jnat epoch) ++
      field "authorityRevision" (jnat revision)
  | ActionReceiptRecorded id reservationId status outcome evidence =>
      type "action.receipt_recorded" ++ field "receiptId" (JStr id) ++ field "reservationId" (JStr reservationId) ++
      field "status" (jtext (receipt_text status)) ++ field "resultSha256" (nullable outcome) ++
      field "evidenceSha256" (JStr evidence)
  | WorkerSpawned workerId goalId purpose epoch deps required =>
      type "worker.spawned" ++ field "workerId" (JStr workerId) ++ field "goalId" (JStr goalId) ++
      field "purpose" (JStr purpose) ++ field "capabilityEpoch" (jnat epoch) ++
      field "dependencies" (dependencies_json deps) ++ field "requiredForGoalCompletion" (JBool required)
  | WorkerDeliveryRecorded id workerId goalId epoch deps outcome =>
      type "worker.delivery_recorded" ++ field "deliveryId" (JStr id) ++ field "workerId" (JStr workerId) ++
      field "goalId" (JStr goalId) ++ field "capabilityEpoch" (jnat epoch) ++
      field "dependencyFactRevisions" (dependencies_json deps) ++ field "resultSha256" (JStr outcome)
  | WorkerCancelled workerId reason =>
      type "worker.cancelled" ++ field "workerId" (JStr workerId) ++ field "reason" (JStr reason)
  | AudibilityResponseRegistered id generated content evidence =>
      type "audibility.response_registered" ++ field "responseId" (JStr id) ++
      field "generatedThroughMs" (jnat generated) ++ field "contentSha256" (JStr content) ++
      field "evidenceSha256" (JStr evidence)
  | AudibilityReleasedThrough id through evidence =>
      type "audibility.released_through" ++ field "responseId" (JStr id) ++ field "throughMs" (jnat through) ++
      field "evidenceSha256" (JStr evidence)
  | AudibilityHeardThrough id through evidence =>
      type "audibility.heard_through" ++ field "responseId" (JStr id) ++ field "throughMs" (jnat through) ++
      field "evidenceSha256" (JStr evidence)
  | AudibilityInterrupted id heard reason evidence =>
      type "audibility.interrupted" ++ field "responseId" (JStr id) ++ field "heardThroughMs" (jnat heard) ++
      field "reason" (JStr reason) ++ field "evidenceSha256" (JStr evidence)
  end.

Definition draft_fields (d : EventDraft) : obj jsval :=
  field "eventId" (JStr (ed_eventId d)) ++ field "expectedRevision" (jnat (ed_expectedRevision d)) ++
  field "occurredAt" (JStr (ed_occurredAt d)) ++ field "payload" (payload_json (ed_payload d)).

(** The event without its digest. *)
Definition unsigned_fields (programId : jstr) (sequence : Z) (previousSha256 : jstr) (d : EventDraft) : obj jsval :=
  field "schemaVersion" (jnat CONVERSATION_PROGRAM_VERSION) ++ field "programId" (JStr programId) ++
  field "sequence" (jnat sequence) ++ field "previousSha256" (JStr previousSha256) ++ draft_fields d.

Definition event_unsigned (e : ProgramEvent) : jsval :=
  JObj (unsigned_fields (ev_programId e) (ev_sequence e) (ev_previousSha256 e) (ev_draft e)).

Definition event_json (e : ProgramEvent) : jsval :=
  JObj (unsigned_fields (ev_programId e) (ev_sequence e) (ev_previousSha256 e) (ev_draft e) ++
    field "eventSha256" (JStr (ev_eventSha256 e))).

(** ** State *)

Inductive GoalStatus : Type := Queued | Focused | Suspended | GoalDone.
#[export] Instance goal_status_eq_dec : EqDecision GoalStatus.
Proof. solve_decision. Defined.
Inductive ObligationStatus : Type := Open | Satisfied | Waived.
#[export] Instance obligation_status_eq_dec : EqDecision ObligationStatus.
Proof. solve_decision. Defined.
Inductive ReservationStatus : Type := Reserved | Revoked | Recorded (status : ReceiptStatus).
#[export] Instance reservation_status_eq_dec : EqDecision ReservationStatus.
Proof. solve_decision. Defined.
Inductive WorkerStatus : Type := WRunning | WDelivered | WSuperseded | WCancelled.
#[export] Instance worker_status_eq_dec : EqDecision WorkerStatus.
Proof. solve_decision. Defined.

Record ProgramFact := {
  ft_key : jstr; ft_value : jsval; ft_revision : Z; ft_authority : ProgramAuthority; ft_sequence : Z
}.

Record ProgramGoal := mkGoal {
  gl_goalId : jstr;
  gl_description : jstr;
  gl_status : GoalStatus;
  gl_openedSequence : Z;
  gl_focusCount : Z;
  gl_suspensionReason : option jstr;
}.

Record ProgramObligation := {
  ob_obligationId : jstr;
  ob_obligationType : jstr;
  ob_description : jstr;
  ob_owner : Owner;
  ob_blocks : Blocks;
  ob_goalId : option jstr;
  ob_sourceId : jstr;
  ob_status : ObligationStatus;
  ob_openedSequence : Z;
  ob_settledSequence : option Z;
  ob_evidenceSha256 : option jstr;
}.

Record ProgramActionReservation := {
  rv_reservationId : jstr;
  rv_goalId : jstr;
  rv_action : jstr;
  rv_argumentsSha256 : jstr;
  rv_idempotencyKey : jstr;
  rv_capabilityEpoch : Z;
  rv_authorityRevision : Z;
  rv_reservedSequence : Z;
  rv_status : ReservationStatus;
  rv_receiptId : option jstr;
}.

Record ProgramActionReceipt := {
  rp_receiptId : jstr;
  rp_reservationId : jstr;
  rp_status : ReceiptStatus;
  rp_resultSha256 : option jstr;
  rp_evidenceSha256 : jstr;
  rp_sequence : Z;
}.

Record ProgramWorker := {
  wk_workerId : jstr;
  wk_goalId : jstr;
  wk_purpose : jstr;
  wk_capabilityEpoch : Z;
  wk_dependencies : list FactDependency;
  wk_requiredForGoalCompletion : bool;
  wk_spawnedSequence : Z;
  wk_status : WorkerStatus;
}.

Record ProgramWorkerDelivery := {
  dv_deliveryId : jstr;
  dv_workerId : jstr;
  dv_goalId : jstr;
  dv_resultSha256 : jstr;
  dv_accepted : bool;
  dv_reason : option string;
  dv_sequence : Z;
}.

Record Audibility := {
  au_responseId : jstr;
  au_generatedThroughMs : Z;
  au_releasedThroughMs : Z;
  au_heardThroughMs : Z;
  au_interrupted : bool;
  au_interruptionReason : option jstr;
  au_contentSha256 : jstr;
  au_generationEvidenceSha256 : jstr;
  au_releaseEvidenceSha256 : option jstr;
  au_heardEvidenceSha256 : option jstr;
  au_interruptionEvidenceSha256 : option jstr;
  au_sequence : Z;
}.

(** The capability frontier and the actions reserved on it, which are revoked with it. *)
Record Frontier := mkFrontier {
  fr_capabilityEpoch : Z;
  fr_capabilityGoalId : option jstr;
  fr_capabilities : list jstr;
  fr_reservations : obj ProgramActionReservation;
}.

Record State := mkState {
  s_facts : obj ProgramFact;
  s_goals : obj ProgramGoal;
  s_focusedGoalId : option jstr;
  s_flowCheckpoints : obj (FlowCheckpoint * Z);
  s_obligations : obj ProgramObligation;
  s_frontier : Frontier;
  s_idempotencyKeys : obj jstr;
  s_receipts : obj ProgramActionReceipt;
  s_workers : obj ProgramWorker;
  s_deliveries : obj ProgramWorkerDelivery;
  s_audibility : obj Audibility;
}.

Definition emptyProjection : State := mkState [] [] None [] [] (mkFrontier 0 None [] []) [] [] [] [] [].

Definition s_epoch (s : State) : Z := fr_capabilityEpoch (s_frontier s).
Definition s_capabilityGoalId (s : State) : option jstr := fr_capabilityGoalId (s_frontier s).
Definition s_capabilities (s : State) : list jstr := fr_capabilities (s_frontier s).
Definition s_reservations (s : State) : obj ProgramActionReservation := fr_reservations (s_frontier s).

Definition set_facts facts (s : State) : State :=
  mkState facts (s_goals s) (s_focusedGoalId s) (s_flowCheckpoints s) (s_obligations s) (s_frontier s)
    (s_idempotencyKeys s) (s_receipts s) (s_workers s) (s_deliveries s) (s_audibility s).
Definition set_goals goals focused (s : State) : State :=
  mkState (s_facts s) goals focused (s_flowCheckpoints s) (s_obligations s) (s_frontier s)
    (s_idempotencyKeys s) (s_receipts s) (s_workers s) (s_deliveries s) (s_audibility s).
Definition set_checkpoints checkpoints (s : State) : State :=
  mkState (s_facts s) (s_goals s) (s_focusedGoalId s) checkpoints (s_obligations s) (s_frontier s)
    (s_idempotencyKeys s) (s_receipts s) (s_workers s) (s_deliveries s) (s_audibility s).
Definition set_obligations obligations (s : State) : State :=
  mkState (s_facts s) (s_goals s) (s_focusedGoalId s) (s_flowCheckpoints s) obligations (s_frontier s)
    (s_idempotencyKeys s) (s_receipts s) (s_workers s) (s_deliveries s) (s_audibility s).
Definition set_frontier frontier (s : State) : State :=
  mkState (s_facts s) (s_goals s) (s_focusedGoalId s) (s_flowCheckpoints s) (s_obligations s) frontier
    (s_idempotencyKeys s) (s_receipts s) (s_workers s) (s_deliveries s) (s_audibility s).
Definition set_actions reservations idempotencyKeys receipts (s : State) : State :=
  mkState (s_facts s) (s_goals s) (s_focusedGoalId s) (s_flowCheckpoints s) (s_obligations s)
    (mkFrontier (s_epoch s) (s_capabilityGoalId s) (s_capabilities s) reservations)
    idempotencyKeys receipts (s_workers s) (s_deliveries s) (s_audibility s).
Definition set_workers workers deliveries (s : State) : State :=
  mkState (s_facts s) (s_goals s) (s_focusedGoalId s) (s_flowCheckpoints s) (s_obligations s) (s_frontier s)
    (s_idempotencyKeys s) (s_receipts s) workers deliveries (s_audibility s).
Definition set_audibility audibility (s : State) : State :=
  mkState (s_facts s) (s_goals s) (s_focusedGoalId s) (s_flowCheckpoints s) (s_obligations s) (s_frontier s)
    (s_idempotencyKeys s) (s_receipts s) (s_workers s) (s_deliveries s) audibility.

(** [for (const value of map.values()) ...] with an assignment to each value. *)
Definition map_values {V} (f : V -> V) (o : obj V) : obj V := (fun kv => (kv.1, f kv.2)) <$> o.

Definition with_reservation_status (status : ReservationStatus) (receiptId : option jstr)
    (r : ProgramActionReservation) : ProgramActionReservation :=
  {| rv_reservationId := rv_reservationId r; rv_goalId := rv_goalId r; rv_action := rv_action r;
     rv_argumentsSha256 := rv_argumentsSha256 r; rv_idempotencyKey := rv_idempotencyKey r;
     rv_capabilityEpoch := rv_capabilityEpoch r; rv_authorityRevision := rv_authorityRevision r;
     rv_reservedSequence := rv_reservedSequence r; rv_status := status; rv_receiptId := receiptId |}.

Definition with_worker_status (status : WorkerStatus) (w : ProgramWorker) : ProgramWorker :=
  {| wk_workerId := wk_workerId w; wk_goalId := wk_goalId w; wk_purpose := wk_purpose w;
     wk_capabilityEpoch := wk_capabilityEpoch w; wk_dependencies := wk_dependencies w;
     wk_requiredForGoalCompletion := wk_requiredForGoalCompletion w; wk_spawnedSequence := wk_spawnedSequence w;
     wk_status := status |}.

Definition with_goal_status (status : GoalStatus) (reason : option jstr) (g : ProgramGoal) : ProgramGoal :=
  mkGoal (gl_goalId g) (gl_description g) status (gl_openedSequence g) (gl_focusCount g) reason.

Definition revoke (r : ProgramActionReservation) : ProgramActionReservation :=
  if bool_decide (rv_status r = Reserved) then with_reservation_status Revoked (rv_receiptId r) r else r.

Definition revokeReservedActions (reservations : obj ProgramActionReservation) : obj ProgramActionReservation :=
  map_values revoke reservations.

Definition invalidateCapabilityFrontier (s : State) : State :=
  set_frontier (mkFrontier (s_epoch s + 1) None [] (revokeReservedActions (s_reservations s))) s.

Definition invalidateActiveFrontierForFactMutation (s : State) : State :=
  if bool_decide (s_capabilityGoalId s <> None) || bool_decide (s_capabilities s <> [])
  then invalidateCapabilityFrontier s else s.

Definition supersede (key : jstr) (w : ProgramWorker) : ProgramWorker :=
  if (bool_decide (wk_status w = WRunning) || bool_decide (wk_status w = WDelivered)) &&
     includes key (dp_key <$> wk_dependencies w)
  then with_worker_status WSuperseded w else w.

Definition supersedeWorkersDependingOnFact (key : jstr) (s : State) : State :=
  set_workers (map_values (supersede key) (s_workers s)) (s_deliveries s) s.

(** ** The reducer *)

Abbreviation error e := (Err (E := string) e%string).

Definition requireFocusedGoal (s : State) (goalId : jstr) : option ProgramGoal :=
  g ← own goalId (s_goals s);
  if bool_decide (gl_status g = Focused) && bool_decide (s_focusedGoalId s = Some goalId) then Some g else None.

Definition by_key (a b : FactDependency) : bool := str_ltb (dp_key a) (dp_key b).
Definition dependenciesEqual (left right : list FactDependency) : bool :=
  bool_decide (canonicalJson (dependencies_json (sort_by by_key left)) =
               canonicalJson (dependencies_json (sort_by by_key right))).

Definition is_current (s : State) (d : FactDependency) : bool :=
  bool_decide (ft_revision <$> own (dp_key d) (s_facts s) = Some (dp_revision d)).

Definition record_fact (key : jstr) (value : jsval) (revision : Z) (authority : ProgramAuthority) (sequence : Z)
    (s : State) : State :=
  set_facts (put key {| ft_key := key; ft_value := value; ft_revision := revision; ft_authority := authority;
    ft_sequence := sequence |} (s_facts s)) s.

(** The goals once the focus has moved to [goalId]: the goal in focus is suspended. *)
Definition refocus (s : State) (goalId : jstr) (target : ProgramGoal) : obj ProgramGoal :=
  let goals :=
    match truthy (s_focusedGoalId s) with
    | None => s_goals s
    | Some current =>
        match own current (s_goals s) with
        | None => s_goals s
        | Some previous =>
            put current (with_goal_status Suspended (Some (js "focus_replaced:" ++ goalId)) previous) (s_goals s)
        end
    end in
  put goalId (mkGoal (gl_goalId target) (gl_description target) Focused (gl_openedSequence target)
    (gl_focusCount target + 1) None) goals.

Definition focus_goal (s : State) (goalId : jstr) : result string State :=
  match own goalId (s_goals s) with
  | None => error "goal is not focusable"
  | Some target =>
      raise "goal is not focusable"%string when
        negb (bool_decide (gl_status target = Queued) || bool_decide (gl_status target = Suspended)) ;;
      raise "exception"%string when
        match truthy (s_focusedGoalId s) with Some current => negb (has_own current (s_goals s)) | None => false end ;;
      Ok (invalidateCapabilityFrontier (set_goals (refocus s goalId target) (Some goalId) s))
  end.

Definition blocks_goal (goalId : jstr) (o : ProgramObligation) : bool :=
  bool_decide (ob_status o = Open) &&
  (bool_decide (ob_goalId o = None) || bool_decide (ob_goalId o = Some goalId)).
Definition unresolved_effect (goalId : jstr) (r : ProgramActionReservation) : bool :=
  (rv_goalId r =?s goalId) &&
  (bool_decide (rv_status r = Reserved) || bool_decide (rv_status r = Recorded RIndeterminate)).
Definition incomplete_worker (goalId : jstr) (w : ProgramWorker) : bool :=
  (wk_goalId w =?s goalId) && wk_requiredForGoalCompletion w && negb (bool_decide (wk_status w = WDelivered)).

Definition complete_goal (s : State) (goalId : jstr) : result string State :=
  match requireFocusedGoal s goalId with
  | None => error "goal completion requires focused goal"
  | Some goal =>
      raise "goal is blocked by obligation"%string when existsb (fun kv => blocks_goal goalId kv.2) (s_obligations s) ;;
      raise "goal has a non-terminal-success flow checkpoint"%string when
        match own goalId (s_flowCheckpoints s) with
        | Some (c, _) => negb (bool_decide (fc_status c = Completed))
        | None => false
        end ;;
      raise "goal flow checkpoint capability epoch is stale"%string when
        match own goalId (s_flowCheckpoints s) with
        | Some (c, _) => negb (fc_capabilityEpoch c =? s_epoch s)
        | None => false
        end ;;
      raise "goal has unresolved effect"%string when
        existsb (fun kv => unresolved_effect goalId kv.2) (s_reservations s) ;;
      raise "goal has incomplete required worker"%string when
        existsb (fun kv => incomplete_worker goalId kv.2) (s_workers s) ;;
      Ok (invalidateCapabilityFrontier
            (set_goals (put goalId (with_goal_status GoalDone None goal) (s_goals s)) None s))
  end.

Definition record_checkpoint (s : State) (c : FlowCheckpoint) (sequence : Z) : result string State :=
  match requireFocusedGoal s (fc_goalId c) with
  | None => error "flow checkpoint requires focused goal"
  | Some _ =>
      raise "flow checkpoint capability epoch is stale"%string when negb (fc_capabilityEpoch c =? s_epoch s) ;;
      let next := set_checkpoints (put (fc_goalId c) (c, sequence) (s_flowCheckpoints s)) s in
      match own (fc_goalId c) (s_flowCheckpoints s) with
      | None => Ok next
      | Some (current, _) =>
          raise "terminal flow checkpoint cannot advance"%string when
            bool_decide (fc_status current = Completed) || bool_decide (fc_status current = FlowFailed) ;;
          raise "flow identity cannot change within a goal"%string when
            negb (fc_flowId current =?s fc_flowId c) || negb (fc_flowVersion current =?s fc_flowVersion c) ;;
          raise "flow revision must increase"%string when fc_flowRevision c <=? fc_flowRevision current ;;
          Ok next
      end
  end.

Definition settle_obligation (d : Disposition) (evidence : jstr) (sequence : Z) (o : ProgramObligation)
  : ProgramObligation :=
  {| ob_obligationId := ob_obligationId o; ob_obligationType := ob_obligationType o;
     ob_description := ob_description o; ob_owner := ob_owner o; ob_blocks := ob_blocks o; ob_goalId := ob_goalId o;
     ob_sourceId := ob_sourceId o; ob_status := match d with DispSatisfied => Satisfied | DispWaived => Waived end;
     ob_openedSequence := ob_openedSequence o; ob_settledSequence := Some sequence;
     ob_evidenceSha256 := Some evidence |}.

Definition advance_epoch (s : State) (expectedEpoch epoch : Z) (capabilities : list jstr) : result string State :=
  raise "capabilities require a focused goal"%string when bool_decide (s_focusedGoalId s = None) ;;
  raise "capability epoch is stale or non-contiguous"%string when
    negb (expectedEpoch =? s_epoch s) || negb (epoch =? s_epoch s + 1) ;;
  Ok (set_frontier (mkFrontier epoch (s_focusedGoalId s) (sort_by str_ltb capabilities)
        (revokeReservedActions (s_reservations s))) s).

Definition reserve_action (s : State) (id goalId action arguments key : jstr) (epoch revision : Z)
    (expectedRevision sequence : Z) : result string State :=
  match requireFocusedGoal s goalId with
  | None => error "action reservation requires focused goal"
  | Some _ =>
      raise "action reservation authority revision is stale"%string when negb (revision =? expectedRevision) ;;
      raise "action reservation capability epoch is stale"%string when negb (epoch =? s_epoch s) ;;
      raise "action capability frontier belongs to another goal"%string when
        negb (bool_decide (s_capabilityGoalId s = Some goalId)) ;;
      raise "action is not currently capable"%string when negb (includes action (s_capabilities s)) ;;
      raise "reservation already exists"%string when has_own id (s_reservations s) ;;
      raise "idempotency key already belongs to reservation"%string when
        bool_decide (truthy (own key (s_idempotencyKeys s)) <> None) ;;
      Ok (set_actions
            (put id {| rv_reservationId := id; rv_goalId := goalId; rv_action := action;
               rv_argumentsSha256 := arguments; rv_idempotencyKey := key; rv_capabilityEpoch := epoch;
               rv_authorityRevision := revision; rv_reservedSequence := sequence; rv_status := Reserved;
               rv_receiptId := None |} (s_reservations s))
            (put key id (s_idempotencyKeys s)) (s_receipts s) s)
  end.

Definition record_receipt (s : State) (id reservationId : jstr) (status : ReceiptStatus) (outcome : option jstr)
    (evidence : jstr) (sequence : Z) : result string State :=
  raise "receipt already exists"%string when has_own id (s_receipts s) ;;
  match own reservationId (s_reservations s) with
  | None => error "reservation is not unsettled"
  | Some reservation =>
      raise "reservation is not unsettled"%string when negb (bool_decide (rv_status reservation = Reserved)) ;;
      Ok (set_actions
            (put reservationId (with_reservation_status (Recorded status) (Some id) reservation) (s_reservations s))
            (s_idempotencyKeys s)
            (put id {| rp_receiptId := id; rp_reservationId := reservationId; rp_status := status;
               rp_resultSha256 := outcome; rp_evidenceSha256 := evidence; rp_sequence := sequence |} (s_receipts s))
            s)
  end.

Definition spawn_worker (s : State) (workerId goalId purpose : jstr) (epoch : Z) (deps : list FactDependency)
    (required : bool) (sequence : Z) : result string State :=
  match requireFocusedGoal s goalId with
  | None => error "worker spawn requires focused goal"
  | Some _ =>
      raise "worker already exists"%string when has_own workerId (s_workers s) ;;
      raise "worker capability epoch is stale"%string when negb (epoch =? s_epoch s) ;;
      raise "worker capability frontier belongs to another goal"%string when
        negb (bool_decide (s_capabilityGoalId s = Some goalId)) ;;
      raise "worker dependency is stale"%string when existsb (fun d => negb (is_current s d)) deps ;;
      Ok (set_workers (put workerId {| wk_workerId := workerId; wk_goalId := goalId; wk_purpose := purpose;
            wk_capabilityEpoch := epoch; wk_dependencies := deps; wk_requiredForGoalCompletion := required;
            wk_spawnedSequence := sequence; wk_status := WRunning |} (s_workers s)) (s_deliveries s) s)
  end.

(** The reason a delivery is refused, if any. *)
Definition delivery_reason (s : State) (worker : option ProgramWorker) (goalId : jstr) (epoch : Z)
    (deps : list FactDependency) : option string :=
  match worker with
  | None => Some "worker is missing or no longer running"%string
  | Some w =>
      if negb (bool_decide (wk_status w = WRunning)) then Some "worker is missing or no longer running"%string
      else if negb (goalId =?s wk_goalId w) then Some "goal binding changed"%string
      else if negb (bool_decide (gl_status <$> own (wk_goalId w) (s_goals s) = Some Focused)) ||
              negb (bool_decide (s_focusedGoalId s = Some (wk_goalId w)))
      then Some "worker goal is no longer focused"%string
      else if negb (epoch =? wk_capabilityEpoch w) || negb (epoch =? s_epoch s)
      then Some "capability epoch changed"%string
      else if negb (bool_decide (s_capabilityGoalId s = Some goalId))
      then Some "capability frontier belongs to another goal"%string
      else if negb (dependenciesEqual deps (wk_dependencies w)) then Some "dependency declaration changed"%string
      else if existsb (fun d => negb (is_current s d)) (wk_dependencies w)
      then Some "dependency fact revision changed"%string
      else None
  end.

Definition record_delivery (s : State) (id workerId goalId : jstr) (epoch : Z) (deps : list FactDependency)
    (outcome : jstr) (sequence : Z) : result string State :=
  raise "delivery already exists"%string when has_own id (s_deliveries s) ;;
  let worker := own workerId (s_workers s) in
  let reason := delivery_reason s worker goalId epoch deps in
  let accepted := bool_decide (reason = None) in
  Ok (set_workers
        (match worker with
         | Some w => put workerId (with_worker_status (if accepted then WDelivered else WSuperseded) w) (s_workers s)
         | None => s_workers s
         end)
        (put id {| dv_deliveryId := id; dv_workerId := workerId; dv_goalId := goalId; dv_resultSha256 := outcome;
           dv_accepted := accepted; dv_reason := reason; dv_sequence := sequence |} (s_deliveries s)) s).

Definition register_response (s : State) (id : jstr) (generated : Z) (content evidence : jstr) (sequence : Z)
  : result string State :=
  raise "response already exists"%string when has_own id (s_audibility s) ;;
  Ok (set_audibility (put id {| au_responseId := id; au_generatedThroughMs := generated; au_releasedThroughMs := 0;
        au_heardThroughMs := 0; au_interrupted := false; au_interruptionReason := None; au_contentSha256 := content;
        au_generationEvidenceSha256 := evidence; au_releaseEvidenceSha256 := None; au_heardEvidenceSha256 := None;
        au_interruptionEvidenceSha256 := None; au_sequence := sequence |} (s_audibility s)) s).

Definition release_through (s : State) (id : jstr) (through : Z) (evidence : jstr) (sequence : Z)
  : result string State :=
  match own id (s_audibility s) with
  | None => error "response is not registered"
  | Some r =>
      raise "interrupted response cannot release more audio"%string when au_interrupted r ;;
      raise "released audio boundary is non-monotonic or exceeds generation"%string when
        (through <? au_releasedThroughMs r) || (au_generatedThroughMs r <? through) ;;
      Ok (set_audibility (put id {| au_responseId := au_responseId r; au_generatedThroughMs := au_generatedThroughMs r;
            au_releasedThroughMs := through; au_heardThroughMs := au_heardThroughMs r;
            au_interrupted := au_interrupted r; au_interruptionReason := au_interruptionReason r;
            au_contentSha256 := au_contentSha256 r; au_generationEvidenceSha256 := au_generationEvidenceSha256 r;
            au_releaseEvidenceSha256 := Some evidence; au_heardEvidenceSha256 := au_heardEvidenceSha256 r;
            au_interruptionEvidenceSha256 := au_interruptionEvidenceSha256 r; au_sequence := sequence |}
            (s_audibility s)) s)
  end.

(** The heard boundary moves; an interruption also ends the response. *)
Definition with_heard (through : Z) (evidence : jstr) (interruption : option jstr) (sequence : Z) (r : Audibility)
  : Audibility :=
  {| au_responseId := au_responseId r; au_generatedThroughMs := au_generatedThroughMs r;
     au_releasedThroughMs := au_releasedThroughMs r; au_heardThroughMs := through;
     au_interrupted := match interruption with Some _ => true | None => au_interrupted r end;
     au_interruptionReason := match interruption with Some _ => interruption | None => au_interruptionReason r end;
     au_contentSha256 := au_contentSha256 r; au_generationEvidenceSha256 := au_generationEvidenceSha256 r;
     au_releaseEvidenceSha256 := au_releaseEvidenceSha256 r; au_heardEvidenceSha256 := Some evidence;
     au_interruptionEvidenceSha256 :=
       match interruption with Some _ => Some evidence | None => au_interruptionEvidenceSha256 r end;
     au_sequence := sequence |}.

(** [heard_through] without and [interrupted] with a reason. *)
Definition hear_through (s : State) (id : jstr) (through : Z) (evidence : jstr) (interruption : option jstr)
    (sequence : Z) : result string State :=
  match own id (s_audibility s) with
  | None => error "response is not registered"
  | Some r =>
      raise "response is already interrupted"%string when au_interrupted r ;;
      raise "heard audio boundary must be within released audio"%string when
        (through <? au_heardThroughMs r) || (au_releasedThroughMs r <? through) ;;
      Ok (set_audibility (put id (with_heard through evidence interruption sequence r) (s_audibility s)) s)
  end.

Definition applyEvent (s : State) (event : ProgramEvent) : result string State :=
  let sequence := ev_sequence event in
  raise "event has a stale program revision"%string when
    negb (ed_expectedRevision (ev_draft event) =? sequence - 1) ;;
  match ed_payload (ev_draft event) with
  | FactAsserted key value authority =>
      raise "fact already exists; correct it instead"%string when has_own key (s_facts s) ;;
      Ok (invalidateActiveFrontierForFactMutation (record_fact key value 1 authority sequence s))
  | FactCorrected key value expected authority =>
      match own key (s_facts s) with
      | None => error "cannot correct missing fact"
      | Some current =>
          raise "fact correction is stale"%string when negb (expected =? ft_revision current) ;;
          Ok (invalidateActiveFrontierForFactMutation (supersedeWorkersDependingOnFact key
                (record_fact key value (ft_revision current + 1) authority sequence s)))
      end
  | GoalOpened goalId description =>
      raise "goal already exists"%string when has_own goalId (s_goals s) ;;
      Ok (set_goals (put goalId (mkGoal goalId description Queued sequence 0 None) (s_goals s)) (s_focusedGoalId s) s)
  | GoalFocused goalId => focus_goal s goalId
  | GoalSuspended goalId reason =>
      match requireFocusedGoal s goalId with
      | None => error "goal suspension requires focused goal"
      | Some goal =>
          Ok (invalidateCapabilityFrontier
                (set_goals (put goalId (with_goal_status Suspended (Some reason) goal) (s_goals s)) None s))
      end
  | GoalCompleted goalId => complete_goal s goalId
  | FlowCheckpointRecorded c => record_checkpoint s c sequence
  | ObligationOpened id type description owner blocks goalId sourceId =>
      raise "obligation already exists"%string when has_own id (s_obligations s) ;;
      raise "obligation references missing goal"%string when
        match goalId with Some g => negb (has_own g (s_goals s)) | None => false end ;;
      Ok (set_obligations (put id {| ob_obligationId := id; ob_obligationType := type; ob_description := description;
            ob_owner := owner; ob_blocks := blocks; ob_goalId := goalId; ob_sourceId := sourceId; ob_status := Open;
            ob_openedSequence := sequence; ob_settledSequence := None; ob_evidenceSha256 := None |}
            (s_obligations s)) s)
  | ObligationSettled id disposition evidence =>
      match own id (s_obligations s) with
      | None => error "obligation is not open"
      | Some o =>
          raise "obligation is not open"%string when negb (bool_decide (ob_status o = Open)) ;;
          Ok (set_obligations (put id (settle_obligation disposition evidence sequence o) (s_obligations s)) s)
      end
  | CapabilityEpochAdvanced expected epoch capabilities _ => advance_epoch s expected epoch capabilities
  | ActionReserved id goalId action arguments key epoch revision =>
      reserve_action s id goalId action arguments key epoch revision (ed_expectedRevision (ev_draft event)) sequence
  | ActionReceiptRecorded id reservationId status outcome evidence =>
      record_receipt s id reservationId status outcome evidence sequence
  | WorkerSpawned workerId goalId purpose epoch deps required =>
      spawn_worker s workerId goalId purpose epoch deps required sequence
  | WorkerDeliveryRecorded id workerId goalId epoch deps outcome =>
      record_delivery s id workerId goalId epoch deps outcome sequence
  | WorkerCancelled workerId _ =>
      match own workerId (s_workers s) with
      | None => error "worker is not running"
      | Some w =>
          raise "worker is not running"%string when negb (bool_decide (wk_status w = WRunning)) ;;
          Ok (set_workers (put workerId (with_worker_status WCancelled w) (s_workers s)) (s_deliveries s) s)
      end
  | AudibilityResponseRegistered id generated content evidence =>
      register_response s id generated content evidence sequence
  | AudibilityReleasedThrough id through evidence => release_through s id through evidence sequence
  | AudibilityHeardThrough id through evidence => hear_through s id through evidence None sequence
  | AudibilityInterrupted id heard reason evidence => hear_through s id heard evidence (Some reason) sequence
  end.

Fixpoint applyEvents (s : State) (events : list ProgramEvent) : result string State :=
  match events with
  | [] => Ok s
  | e :: events => let* s' := applyEvent s e in applyEvents s' events
  end.

(** ** The log *)

Section Log.
Context `{HS : Sha256} `{HI : IsoOffsetDatetime}.

(** This module's copy of the encoder has the same branches. *)
Definition canonicalProgramJson : jsval -> option jstr := canonicalJson.

Definition domain_sha256 (domain : string) (v : jsval) : option jstr :=
  (fun text => sha256 (js domain ++ [10%N] ++ text)) <$> canonicalProgramJson v.

Definition eventDigest (programId : jstr) (sequence : Z) (previousSha256 : jstr) (d : EventDraft) : option jstr :=
  domain_sha256 "hacc/conversation-program-event/v1" (JObj (unsigned_fields programId sequence previousSha256 d)).

(** [ConversationProgramEventDraftSchema.parse] and [ConversationProgramEventSchema.parse]. *)
Definition parse_draft (d : EventDraft) : option EventDraft :=
  if IdSchema (ed_eventId d) && RevisionSchema (ed_expectedRevision d) && iso_offset_datetime (ed_occurredAt d) &&
     PayloadSchema (ed_payload d)
  then Some {| ed_eventId := ed_eventId d; ed_expectedRevision := ed_expectedRevision d;
               ed_occurredAt := ed_occurredAt d; ed_payload := trim_payload (ed_payload d) |}
  else None.

Definition parse_event (e : ProgramEvent) : option ProgramEvent :=
  d ← parse_draft (ev_draft e);
  if (ev_schemaVersion e =? CONVERSATION_PROGRAM_VERSION) && IdSchema (ev_programId e) &&
     PositiveRevisionSchema (ev_sequence e) && is_sha256 (ev_previousSha256 e) && is_sha256 (ev_eventSha256 e)
  then Some {| ev_schemaVersion := ev_schemaVersion e; ev_programId := ev_programId e; ev_sequence := ev_sequence e;
               ev_previousSha256 := ev_previousSha256 e; ev_draft := d; ev_eventSha256 := ev_eventSha256 e |}
  else None.

Definition createConversationProgramLog (programId : jstr) : result string ProgramLog :=
  raise "invalid id"%string when negb (IdSchema programId) ;;
  Ok {| lg_schemaVersion := CONVERSATION_PROGRAM_VERSION; lg_programId := programId; lg_events := [] |}.

(** The loop of [validateConversationProgramLog]. *)
Fixpoint validate_events (programId : jstr) (index : Z) (previousSha256 : jstr) (seen : list jstr) (s : State)
    (events : list ProgramEvent) : result string State :=
  match events with
  | [] => Ok s
  | candidate :: events =>
      match parse_event candidate with
      | None => error "invalid event"
      | Some e =>
          raise "event belongs to another program"%string when negb (ev_programId e =?s programId) ;;
          raise "event has a non-contiguous sequence"%string when negb (ev_sequence e =? index + 1) ;;
          raise "event breaks the hash chain"%string when negb (ev_previousSha256 e =?s previousSha256) ;;
          raise "duplicate event id"%string when includes (ed_eventId (ev_draft e)) seen ;;
          raise "event has an invalid digest"%string when
            negb (bool_decide (eventDigest (ev_programId e) (ev_sequence e) (ev_previousSha256 e) (ev_draft e) =
                               Some (ev_eventSha256 e))) ;;
          let* s' := applyEvent s e in
          validate_events programId (index + 1) (ev_eventSha256 e) (ed_eventId (ev_draft e) :: seen) s' events
      end
  end.

Definition validateConversationProgramLog (log : ProgramLog) : result string unit :=
  raise "unsupported conversation program version"%string when
    negb (lg_schemaVersion log =? CONVERSATION_PROGRAM_VERSION) ;;
  raise "invalid id"%string when negb (IdSchema (lg_programId log)) ;;
  let* _ := validate_events (lg_programId log) 0 CONVERSATION_PROGRAM_GENESIS_SHA256 [] emptyProjection
              (lg_events log) in
  Ok tt.

Definition headSha256 (events : list ProgramEvent) : jstr :=
  match last events with Some e => ev_eventSha256 e | None => CONVERSATION_PROGRAM_GENESIS_SHA256 end.

Definition find_event (id : jstr) (events : list ProgramEvent) : option ProgramEvent :=
  List.find (fun e => ed_eventId (ev_draft e) =?s id) events.

(** The event a parsed draft becomes at the end of [events]. *)
Definition seal (programId : jstr) (events : list ProgramEvent) (d : EventDraft) : option ProgramEvent :=
  let sequence := Z.of_nat (length events) + 1 in
  let previousSha256 := headSha256 events in
  digest ← eventDigest programId sequence previousSha256 d;
  parse_event {| ev_schemaVersion := CONVERSATION_PROGRAM_VERSION; ev_programId := programId; ev_sequence := sequence;
                 ev_previousSha256 := previousSha256; ev_draft := d; ev_eventSha256 := digest |}.

Fixpoint append_drafts (programId : jstr) (s : State) (events : list ProgramEvent) (drafts : list EventDraft)
  : result string (list ProgramEvent) :=
  match drafts with
  | [] => Ok events
  | input :: drafts =>
      match parse_draft input with
      | None => error "invalid draft"
      | Some draft =>
          match find_event (ed_eventId draft) events with
          | Some existing =>
              raise "conflicting replay for event"%string when
                negb (bool_decide (canonicalProgramJson (JObj (draft_fields (ev_draft existing))) =
                                   canonicalProgramJson (JObj (draft_fields draft)))) ;;
              append_drafts programId s events drafts
          | None =>
              raise "stale program revision"%string when
                negb (ed_expectedRevision draft =? Z.of_nat (length events)) ;;
              match seal programId events draft with
              | None => error "invalid event"
              | Some event =>
                  raise "event exceeds maximum bytes"%string when
                    match flowJsonBytes (event_json event) with Some b => MAX_EVENT_BYTES <? b | None => true end ;;
                  let* s' := applyEvent s event in
                  append_drafts programId s' (events ++ [event]) drafts
              end
          end
      end
  end.

Definition appendConversationProgramEvents (log : ProgramLog) (drafts : list EventDraft) : result string ProgramLog :=
  let* _ := validateConversationProgramLog log in
  let* s := applyEvents emptyProjection (lg_events log) in
  let* events := append_drafts (lg_programId log) s (lg_events log) drafts in
  Ok {| lg_schemaVersion := lg_schemaVersion log; lg_programId := lg_programId log; lg_events := events |}.

Definition appendConversationProgramEvent (log : ProgramLog) (draft : EventDraft) : result string ProgramLog :=
  appendConversationProgramEvents log [draft].

(** ** The projection *)

Record AudibilityFact := { aw_response : Audibility; aw_unheardMs : Z; aw_fullyHeard : bool }.

Record Projection := {
  pj_programId : jstr;
  pj_revision : Z;
  pj_headSha256 : jstr;
  pj_facts : list ProgramFact;
  pj_goals : list ProgramGoal;
  pj_focusedGoal : option ProgramGoal;
  pj_flowCheckpoints : list (FlowCheckpoint * Z);
  pj_obligations : list ProgramObligation;
  pj_capabilityEpoch : Z;
  pj_capabilityGoalId : option jstr;
  pj_capabilities : list jstr;
  pj_actionReservations : list ProgramActionReservation;
  pj_actionReceipts : list ProgramActionReceipt;
  pj_workers : list ProgramWorker;
  pj_workerDeliveries : list ProgramWorkerDelivery;
  pj_audibilityFacts : list AudibilityFact;
}.

(** [[...map.values()].sort(by(id))] *)
Definition sorted_values {V} (id : V -> jstr) (o : obj V) : list V :=
  sort_by (fun a b => str_ltb (id a) (id b)) (o.*2).

Definition audibility_fact (r : Audibility) : AudibilityFact :=
  {| aw_response := r; aw_unheardMs := au_generatedThroughMs r - au_heardThroughMs r;
     aw_fullyHeard := au_heardThroughMs r =? au_generatedThroughMs r |}.

Definition project (log : ProgramLog) (s : State) : Projection :=
  let goals := sorted_values gl_goalId (s_goals s) in
  {| pj_programId := lg_programId log;
     pj_revision := Z.of_nat (length (lg_events log));
     pj_headSha256 := headSha256 (lg_events log);
     pj_facts := sorted_values ft_key (s_facts s);
     pj_goals := goals;
     pj_focusedGoal := match truthy (s_focusedGoalId s) with
                       | Some id => List.find (fun g => gl_goalId g =?s id) goals
                       | None => None
                       end;
     pj_flowCheckpoints := sorted_values (fun c => fc_goalId c.1) (s_flowCheckpoints s);
     pj_obligations := sorted_values ob_obligationId (s_obligations s);
     pj_capabilityEpoch := s_epoch s;
     pj_capabilityGoalId := s_capabilityGoalId s;
     pj_capabilities := s_capabilities s;
     pj_actionReservations := sorted_values rv_reservationId (s_reservations s);
     pj_actionReceipts := sorted_values rp_receiptId (s_receipts s);
     pj_workers := sorted_values wk_workerId (s_workers s);
     pj_workerDeliveries := sorted_values dv_deliveryId (s_deliveries s);
     pj_audibilityFacts := audibility_fact <$> sorted_values au_responseId (s_audibility s) |}.

Definition foldConversationProgram (log : ProgramLog) : result string Projection :=
  let* _ := validateConversationProgramLog log in
  let* s := applyEvents emptyProjection (lg_events log) in
  Ok (project log s).
End Log.

End Program.
