(* ===== verification/ProgramInvariant.v ===== *)
(** * Invariants of the conversation program

    What holds in the state folded from any log of parsed events: one focus, a capability
    frontier that belongs to it, reservations that live only as long as their epoch, receipts
    that match reservations, workers whose facts are current, and audio that is heard only
    after it was released. *)

From S2P Require Import Prelude JsValue JsText Canonical Graph Flow FlowValidate FlowRuntime.
From S2P Require Import Program.
Import Program.

Local Open Scope Z_scope.

#[local] Arguments keys : simpl never.
#[local] Arguments map_values : simpl never.
#[local] Arguments revokeReservedActions : simpl never.

(** ** Maps *)

Section MapValues.
Context {V : Type}.
Implicit Types (k : jstr) (v : V) (o : obj V) (f : V -> V).

Lemma own_map_values f k o : own k (map_values f o) = f <$> own k o.
Proof. unfold map_values. induction o as [|[k' v] o IH]; csimpl; [done|]. by destruct (k =?s k'). Qed.

Lemma keys_map_values f o : keys (map_values f o) = keys o.
Proof. unfold keys, map_values. induction o as [|kv o IH]; csimpl; congruence. Qed.

Lemma elem_of_sorted_values (id : V -> jstr) o v :
  NoDup (keys o) -> v ∈ sorted_values id o <-> exists k, own k o = Some v.
Proof.
  intros Hn. unfold sorted_values. rewrite elem_of_sort_by, list_elem_of_fmap. split.
  - intros ([k v'] & -> & H). exists k. by apply elem_of_own.
  - intros [k H]. exists (k, v). split; [done|]. by apply own_elem_of.
Qed.
End MapValues.

(** The successful runs of the reducer, one case per accepted event. *)
Ltac step_cases H :=
  unfold applyEvent in H; cbv zeta in H;
  match type of H with context [if negb ?b then _ else _] => destruct b eqn:?; cbn [negb] in H; [|discriminate H] end;
  match type of H with context [ed_payload ?d] => destruct (ed_payload d) eqn:? end;
  unfold focus_goal, complete_goal, record_checkpoint, advance_epoch, reserve_action, record_receipt,
    spawn_worker, record_delivery, register_response, release_through, hear_through in H;
  cbv zeta in H;
  try match type of H with context [delivery_reason ?a ?b ?c ?d ?e] =>
    let r := fresh "reason" in remember (delivery_reason a b c d e) as r end;
  split_guards H; injection H as <-; to_prop.

(** ** The invariant *)

Section Invariant.
Implicit Types (s : State) (e : ProgramEvent) (p : Payload) (events : list ProgramEvent).

Record focus_ok s : Prop := {
  fo_goals : forall id g, own id (s_goals s) = Some g ->
    gl_goalId g = id /\ (gl_status g = Focused <-> s_focusedGoalId s = Some id);
  fo_focused : forall id, s_focusedGoalId s = Some id -> id <> [] /\ is_Some (own id (s_goals s));
  fo_ids : forall id g, own id (s_goals s) = Some g -> id <> [];
}.

Record frontier_ok s : Prop := {
  fr_goal : forall g, s_capabilityGoalId s = Some g -> s_focusedGoalId s = Some g;
  fr_empty : s_capabilityGoalId s = None -> s_capabilities s = [];
  fr_reserved : forall id r, own id (s_reservations s) = Some r -> rv_status r = Reserved ->
    rv_capabilityEpoch r = s_epoch s /\ s_capabilityGoalId s = Some (rv_goalId r) /\ rv_action r ∈ s_capabilities s;
}.

Record ledger_ok s : Prop := {
  ld_ids : forall id r, own id (s_reservations s) = Some r -> rv_reservationId r = id /\ id <> [];
  ld_keys : forall id r, own id (s_reservations s) = Some r -> own (rv_idempotencyKey r) (s_idempotencyKeys s) = Some id;
  ld_nonempty : forall key id, own key (s_idempotencyKeys s) = Some id -> id <> [];
  ld_receipts : forall id t, own id (s_receipts s) = Some t ->
    rp_receiptId t = id /\ exists r, own (rp_reservationId t) (s_reservations s) = Some r /\
      rv_status r = Recorded (rp_status t) /\ rv_receiptId r = Some id;
  ld_settled : forall id r, own id (s_reservations s) = Some r ->
    match rv_status r with
    | Recorded status => exists rid t, rv_receiptId r = Some rid /\ own rid (s_receipts s) = Some t /\
        rp_reservationId t = id /\ rp_status t = status
    | _ => rv_receiptId r = None
    end;
}.

Definition in_service (w : ProgramWorker) : Prop := wk_status w = WRunning \/ wk_status w = WDelivered.

Record workers_ok s : Prop := {
  wo_ids : forall id w, own id (s_workers s) = Some w -> wk_workerId w = id;
  wo_current : forall id w d, own id (s_workers s) = Some w -> in_service w -> d ∈ wk_dependencies w ->
    is_current s d = true;
}.

Definition audible (r : Audibility) : Prop :=
  0 <= au_heardThroughMs r /\ au_heardThroughMs r <= au_releasedThroughMs r /\
  au_releasedThroughMs r <= au_generatedThroughMs r.
Definition audible_ok s : Prop := forall id r, own id (s_audibility s) = Some r -> audible r.

Record keys_ok s : Prop := {
  ko_facts : NoDup (keys (s_facts s));
  ko_goals : NoDup (keys (s_goals s));
  ko_reservations : NoDup (keys (s_reservations s));
  ko_receipts : NoDup (keys (s_receipts s));
  ko_workers : NoDup (keys (s_workers s));
  ko_audibility : NoDup (keys (s_audibility s));
  ko_checkpoints : NoDup (keys (s_flowCheckpoints s));
  ko_fact_ids : forall k f, own k (s_facts s) = Some f -> ft_key f = k;
  ko_checkpoint_ids : forall id c, own id (s_flowCheckpoints s) = Some c -> fc_goalId c.1 = id;
}.

Record consistent s : Prop := {
  co_focus : focus_ok s;
  co_frontier : frontier_ok s;
  co_ledger : ledger_ok s;
  co_workers : workers_ok s;
  co_audible : audible_ok s;
  co_keys : keys_ok s;
}.

Lemma program_consistent_empty : consistent emptyProjection.
Proof.
  split; [constructor | constructor | constructor | constructor | intros ? ? [=] | constructor]; cbn; try done;
    apply NoDup_nil_2.
Qed.

(** Distinct keys stay distinct. *)
Lemma keys_step s e s' : keys_ok s -> applyEvent s e = Ok s' -> keys_ok s'.
Proof.
  intros [] H. step_cases H;
    unfold invalidateActiveFrontierForFactMutation; repeat case_match;
    constructor; cbn; unfold revokeReservedActions, refocus; repeat case_match; rewrite ?keys_map_values; cbn;
    repeat apply NoDup_keys_put; try done;
    intros id c'; rewrite own_put; destruct (_ =?s _) eqn:?; to_prop; naive_solver.
Qed.

(** The payload of an accepted event satisfies its schema. *)
Ltac payload_cases Hp H :=
  step_cases H; cbn [PayloadSchema] in Hp;
  unfold invalidateActiveFrontierForFactMutation; repeat case_match.

(** Audio is released within what was generated and heard within what was released. *)
Lemma audible_step s e s' :
  PayloadSchema (ed_payload (ev_draft e)) = true -> audible_ok s -> applyEvent s e = Ok s' -> audible_ok s'.
Proof.
  intros Hp Ha H. unfold audible_ok in *. payload_cases Hp H; try exact Ha; cbn;
    intros id' r'; rewrite own_put; destruct (_ =?s _) eqn:Eid; to_prop; try exact (Ha id' r');
    intros [= <-]; unfold audible, with_heard; cbn;
    try match goal with E : own _ _ = Some _ |- _ => apply Ha in E; unfold audible in E end;
    unfold PositiveRevisionSchema in *; to_prop; lia.
Qed.

(** *** Focus *)

Lemma program_focus_frame s s' :
  s_goals s' = s_goals s -> s_focusedGoalId s' = s_focusedGoalId s -> focus_ok s -> focus_ok s'.
Proof. intros Eg Ef []. constructor; rewrite ?Eg, ?Ef; done. Qed.

Lemma focus_invalidate s : focus_ok s -> focus_ok (invalidateCapabilityFrontier s).
Proof. by apply program_focus_frame. Qed.

(** The focused goal leaves the focus. *)
Lemma program_focus_leave s id g status reason :
  requireFocusedGoal s id = Some g -> status <> Focused -> focus_ok s ->
  focus_ok (set_goals (put id (with_goal_status status reason g) (s_goals s)) None s).
Proof.
  intros Hr Hst []. unfold requireFocusedGoal in Hr. apply bind_Some in Hr as (g' & Hg & Hr).
  split_guards Hr. to_prop. simplify_eq.
  constructor; cbn; [|done|].
  - intros id' g'. rewrite own_put. destruct (_ =?s _) eqn:E; to_prop; subst.
    + intros [= <-]. cbn. split; [apply (proj1 (fo_goals0 _ _ Hg))|]. split; done.
    + intros Hg'. destruct (fo_goals0 _ _ Hg') as [? Hi]. split; [done|]. split; [|done].
      intros Hf%Hi. congruence.
  - intros id' g'. rewrite own_put. destruct (_ =?s _) eqn:E; to_prop; subst; eauto.
Qed.

Lemma focus_open s id description sequence :
  own id (s_goals s) = None -> id <> [] -> focus_ok s ->
  focus_ok (set_goals (put id (mkGoal id description Queued sequence 0 None) (s_goals s)) (s_focusedGoalId s) s).
Proof.
  intros Hn Hne []. assert (s_focusedGoalId s <> Some id) as Hf.
  { intros [_ [g Hg]]%fo_focused0. congruence. }
  constructor; cbn.
  - intros id' g'. rewrite own_put. destruct (_ =?s _) eqn:E; to_prop; subst; [|by apply fo_goals0].
    intros [= <-]. cbn. split; [done|]. split; done.
  - intros id' Hid. destruct (fo_focused0 _ Hid) as [? [g Hg]]. split; [done|].
    rewrite own_put. destruct (_ =?s _); eauto.
  - intros id' g'. rewrite own_put. destruct (_ =?s _) eqn:E; to_prop; subst; eauto.
Qed.

Lemma own_refocus s id target id' :
  own id' (refocus s id target) =
  if id' =?s id then Some (mkGoal (gl_goalId target) (gl_description target) Focused (gl_openedSequence target)
                             (gl_focusCount target + 1) None)
  else if bool_decide (truthy (s_focusedGoalId s) = Some id')
  then with_goal_status Suspended (Some (js "focus_replaced:" ++ id)) <$> own id' (s_goals s)
  else own id' (s_goals s).
Proof.
  unfold refocus. rewrite own_put. destruct (id' =?s id); [done|].
  destruct (truthy (s_focusedGoalId s)) as [c|] eqn:Ec; [|by rewrite bool_decide_eq_false_2].
  destruct (own c (s_goals s)) eqn:Eo.
  - rewrite own_put. destruct (id' =?s c) eqn:E; to_prop; subst.
    + rewrite bool_decide_eq_true_2 by done. by rewrite Eo.
    + rewrite bool_decide_eq_false_2; [done | congruence].
  - destruct (bool_decide _) eqn:E; to_prop; [|done]. simplify_eq. by rewrite Eo.
Qed.

Lemma focus_refocus s id target :
  own id (s_goals s) = Some target -> focus_ok s ->
  focus_ok (set_goals (refocus s id target) (Some id) s).
Proof.
  intros Ht []. constructor; cbn.
  - intros id' g. rewrite own_refocus. destruct (_ =?s _) eqn:E; to_prop; subst.
    + intros [= <-]. cbn. split; [apply (proj1 (fo_goals0 _ _ Ht)) | done].
    + destruct (bool_decide _) eqn:Eb; to_prop.
      * intros (g0 & Hg0 & ->)%fmap_Some. cbn. split; [by apply fo_goals0 in Hg0 as [-> _]|].
        split; [done | congruence].
      * intros Hg. destruct (fo_goals0 _ _ Hg) as [? Hi]. split; [done|]. split; [|congruence].
        intros Hf%Hi. destruct (fo_focused0 _ Hf) as [Hne _]. destruct Eb. rewrite Hf. by destruct id'.
  - intros id' [= <-]. split; [by eapply fo_ids0|]. rewrite own_refocus, str_eqb_refl. eauto.
  - intros id' g. rewrite own_refocus. destruct (_ =?s _) eqn:E; to_prop; subst; [by eauto|].
    destruct (bool_decide _); [|by apply fo_ids0]. intros (g0 & Hg0 & _)%fmap_Some. eauto.
Qed.

Lemma id_nonempty id : IdSchema id = true -> id <> [].
Proof. by destruct id. Qed.

Lemma program_focus_step s e s' :
  PayloadSchema (ed_payload (ev_draft e)) = true -> focus_ok s -> applyEvent s e = Ok s' -> focus_ok s'.
Proof.
  intros Hp Hf H. payload_cases Hp H; to_prop;
    lazymatch goal with
    | |- focus_ok (invalidateCapabilityFrontier (set_goals (put _ _ _) None _)) =>
        by apply focus_invalidate, program_focus_leave
    | |- focus_ok (invalidateCapabilityFrontier (set_goals (refocus _ _ _) _ _)) =>
        by apply focus_invalidate, focus_refocus
    | |- focus_ok (set_goals _ _ _) => idtac
    | _ => by eapply program_focus_frame; [| |exact Hf]
    end.
  all: unfold has_own in *; case_match; [done|]. all: apply focus_open; [done | by apply id_nonempty | done].
Qed.

(** *** The capability frontier *)

Lemma revoked_not_reserved id r (o : obj ProgramActionReservation) :
  own id (revokeReservedActions o) = Some r -> rv_status r <> Reserved.
Proof.
  unfold revokeReservedActions. rewrite own_map_values. intros (r0 & _ & ->)%fmap_Some.
  unfold revoke. destruct (bool_decide _) eqn:E; to_prop; done.
Qed.

Lemma frontier_frame s s' :
  s_frontier s' = s_frontier s -> s_focusedGoalId s' = s_focusedGoalId s -> frontier_ok s -> frontier_ok s'.
Proof.
  unfold s_capabilityGoalId, s_capabilities, s_reservations, s_epoch. intros Ef Eg [H1 H2 H3].
  constructor; unfold s_capabilityGoalId, s_capabilities, s_reservations, s_epoch; rewrite ?Ef, ?Eg; done.
Qed.

Lemma frontier_invalidate s : frontier_ok (invalidateCapabilityFrontier s).
Proof. constructor; cbn; [done..|]. intros id r Hr%revoked_not_reserved. done. Qed.

Lemma frontier_step s e s' : frontier_ok s -> applyEvent s e = Ok s' -> frontier_ok s'.
Proof.
  intros Hf H. step_cases H; unfold invalidateActiveFrontierForFactMutation; repeat case_match;
    try apply frontier_invalidate; try (by eapply frontier_frame; [| |exact Hf]).
  - constructor; cbn; [done | by intros ?|]. intros id r Hr%revoked_not_reserved. done.
  - destruct Hf as [H1 H2 H3]. constructor; cbn; [done..|]. intros id r. unfold s_reservations at 1. cbn.
    rewrite own_put. destruct (_ =?s _) eqn:E; to_prop; [|apply H3]. intros [= <-] _. cbn. done.
  - destruct Hf as [H1 H2 H3]. constructor; cbn; [done..|]. intros id r. unfold s_reservations at 1. cbn.
    rewrite own_put. destruct (_ =?s _) eqn:E; to_prop; [|apply H3]. by intros [= <-].
Qed.

(** *** Reservations, idempotency keys and receipts *)

Lemma ledger_frame s s' :
  s_reservations s' = s_reservations s -> s_idempotencyKeys s' = s_idempotencyKeys s ->
  s_receipts s' = s_receipts s -> ledger_ok s -> ledger_ok s'.
Proof. intros E1 E2 E3 []. constructor; rewrite ?E1, ?E2, ?E3; done. Qed.

Lemma ledger_revoke s s' :
  s_reservations s' = revokeReservedActions (s_reservations s) -> s_idempotencyKeys s' = s_idempotencyKeys s ->
  s_receipts s' = s_receipts s -> ledger_ok s -> ledger_ok s'.
Proof.
  intros E1 E2 E3 [H1 H2 H3 H4 H5]. unfold revokeReservedActions in E1.
  assert (forall r, rv_status r <> Reserved -> revoke r = r) as Hkeep.
  { intros r Hr. unfold revoke. by rewrite bool_decide_eq_false_2. }
  assert (forall r, rv_reservationId (revoke r) = rv_reservationId r /\
    rv_idempotencyKey (revoke r) = rv_idempotencyKey r) as Hid.
  { intros r. unfold revoke. by destruct (bool_decide _). }
  constructor; rewrite ?E1, ?E2, ?E3; [| |done| |].
  - intros id r. rewrite own_map_values. intros (r0 & Hr & ->)%fmap_Some.
    destruct (Hid r0) as [-> _]. by apply H1.
  - intros id r. rewrite own_map_values. intros (r0 & Hr & ->)%fmap_Some. destruct (Hid r0) as [_ ->]. by apply H2.
  - intros id t Ht. destruct (H4 _ _ Ht) as (Hi & r & Hr & Hs & Hc). split; [done|].
    exists r. rewrite own_map_values, Hr. cbn. rewrite Hkeep by congruence. done.
  - intros id r. rewrite own_map_values. intros (r0 & Hr & ->)%fmap_Some. specialize (H5 _ _ Hr).
    destruct (rv_status r0) eqn:E; [|by rewrite Hkeep, E by congruence..].
    unfold revoke. by rewrite bool_decide_eq_true_2.
Qed.

Lemma ledger_reserve s id goalId action arguments key epoch revision sequence :
  own id (s_reservations s) = None -> truthy (own key (s_idempotencyKeys s)) = None -> id <> [] -> ledger_ok s ->
  ledger_ok (set_actions
    (put id {| rv_reservationId := id; rv_goalId := goalId; rv_action := action; rv_argumentsSha256 := arguments;
       rv_idempotencyKey := key; rv_capabilityEpoch := epoch; rv_authorityRevision := revision;
       rv_reservedSequence := sequence; rv_status := Reserved; rv_receiptId := None |} (s_reservations s))
    (put key id (s_idempotencyKeys s)) (s_receipts s) s).
Proof.
  intros Hn Hk Hid [H1 H2 H3 H4 H5].
  assert (own key (s_idempotencyKeys s) = None) as Hkey.
  { destruct (own key _) as [[|? ?]|] eqn:E; [|done..]. by apply H3 in E. }
  constructor; unfold s_reservations; cbn.
  - intros id' r. rewrite own_put. destruct (_ =?s _) eqn:E; to_prop; [|apply H1]. intros [= <-]. by subst.
  - intros id' r. rewrite own_put. destruct (_ =?s _) eqn:E; to_prop.
    + intros [= <-]. cbn. rewrite own_put, str_eqb_refl. by subst.
    + intros Hr%H2. rewrite own_put. destruct (_ =?s key) eqn:Ek; to_prop; [congruence | done].
  - intros key' id'. rewrite own_put. destruct (_ =?s key); [congruence | apply H3].
  - intros id' t Ht. destruct (H4 _ _ Ht) as (Hi & r & Hr & Hs & Hc). split; [done|]. exists r.
    rewrite own_put. destruct (_ =?s id) eqn:E; to_prop; [|done]. unfold s_reservations in *. congruence.
  - intros id' r. rewrite own_put. destruct (_ =?s id) eqn:E; to_prop; [|apply H5]. by intros [= <-].
Qed.

Lemma ledger_record s id rid r status outcome evidence sequence :
  own id (s_receipts s) = None -> own rid (s_reservations s) = Some r -> rv_status r = Reserved -> ledger_ok s ->
  ledger_ok (set_actions (put rid (with_reservation_status (Recorded status) (Some id) r) (s_reservations s))
    (s_idempotencyKeys s)
    (put id {| rp_receiptId := id; rp_reservationId := rid; rp_status := status; rp_resultSha256 := outcome;
       rp_evidenceSha256 := evidence; rp_sequence := sequence |} (s_receipts s)) s).
Proof.
  intros Hn Hr Hs [H1 H2 H3 H4 H5]. constructor; unfold s_reservations; cbn.
  - intros id' r'. rewrite own_put. destruct (_ =?s _) eqn:E; to_prop; [|apply H1]. intros [= <-]. subst. exact (H1 _ _ Hr).
  - intros id' r'. rewrite own_put. destruct (_ =?s _) eqn:E; to_prop; [|apply H2]. intros [= <-]. subst. exact (H2 _ _ Hr).
  - exact H3.
  - intros id' t. rewrite (own_put id). destruct (_ =?s id) eqn:E; to_prop; subst.
    + intros [= <-]. cbn. split; [done|]. rewrite own_put, str_eqb_refl. eauto.
    + intros Ht. destruct (H4 _ _ Ht) as (Hi & r' & Hr' & Hs' & Hc). split; [done|]. exists r'.
      rewrite own_put. destruct (_ =?s rid) eqn:E'; to_prop; [|done]. subst. congruence.
  - intros id' r'. rewrite own_put. destruct (_ =?s rid) eqn:E; to_prop; subst.
    + intros [= <-]. cbn. eexists id, _. rewrite own_put, str_eqb_refl. done.
    + intros Hr'. specialize (H5 _ _ Hr'). destruct (rv_status r'); [done..|].
      destruct H5 as (i & t & Hi & Ht & Ht'). exists i, t. rewrite own_put.
      destruct (i =?s id) eqn:Ei; to_prop; [congruence | done].
Qed.

Lemma ledger_step s e s' :
  PayloadSchema (ed_payload (ev_draft e)) = true -> ledger_ok s -> applyEvent s e = Ok s' -> ledger_ok s'.
Proof.
  intros Hp Hl H. payload_cases Hp H; to_prop; unfold has_own in *;
    first [by eapply ledger_frame; [| | |exact Hl] | by eapply ledger_revoke; [| | |exact Hl] | idtac].
  - destruct (own reservationId _) eqn:?; [done|].
    apply ledger_reserve; [done | by apply dec_stable | by apply id_nonempty | done].
  - destruct (own receiptId _) eqn:?; [done|]. by apply ledger_record.
Qed.

(** *** Workers *)

Lemma workers_frame s s' :
  s_workers s' = s_workers s -> s_facts s' = s_facts s -> workers_ok s -> workers_ok s'.
Proof. unfold is_current. intros E1 E2 [H1 H2]. constructor; unfold is_current; rewrite ?E1, ?E2; done. Qed.

(** A new fact is one that no dependency names yet. *)
Lemma workers_assert s key value authority sequence :
  own key (s_facts s) = None -> workers_ok s -> workers_ok (record_fact key value 1 authority sequence s).
Proof.
  intros Hn [H1 H2]. constructor; cbn; [done|]. intros id w d Hw Hs Hd. specialize (H2 _ _ _ Hw Hs Hd).
  unfold is_current in *. to_prop. apply bool_decide_eq_true_2. cbn. rewrite own_put.
  destruct (_ =?s _) eqn:E; to_prop; [|done]. by rewrite E, Hn in H2.
Qed.

(** A corrected fact takes the workers that depend on it out of service. *)
Lemma workers_correct s key value revision authority sequence :
  workers_ok s ->
  workers_ok (supersedeWorkersDependingOnFact key (record_fact key value revision authority sequence s)).
Proof.
  intros [H1 H2]. constructor; cbn.
  - intros id w. rewrite own_map_values. intros (w0 & Hw & ->)%fmap_Some. unfold supersede.
    destruct (_ && _); by apply H1 in Hw.
  - intros id w d. rewrite own_map_values. intros (w0 & Hw & ->)%fmap_Some. unfold supersede.
    destruct (_ && _) eqn:E; [by intros [?|?]|]. intros Hs Hd. pose proof (H2 _ _ _ Hw Hs Hd) as Hc.
    unfold is_current in *. to_prop. apply bool_decide_eq_true_2. cbn. rewrite own_put.
    destruct (dp_key d =?s key) eqn:Ek; to_prop; [|done]. exfalso.
    apply andb_false_iff in E as [E|E]; to_prop; [by destruct Hs|]. apply E. rewrite <- Ek. by apply list_elem_of_fmap_2.
Qed.

(** A worker is added or changes its status. *)
Lemma workers_put s id w deliveries :
  wk_workerId w = id -> (in_service w -> forall d, d ∈ wk_dependencies w -> is_current s d = true) ->
  workers_ok s -> workers_ok (set_workers (put id w (s_workers s)) deliveries s).
Proof.
  intros Hi Hc [H1 H2]. constructor; cbn.
  - intros id' w'. rewrite own_put. destruct (_ =?s _) eqn:E; to_prop; [|apply H1]. by intros [= <-]; subst.
  - intros id' w' d. rewrite own_put. destruct (_ =?s _) eqn:E; to_prop; [|apply H2]. intros [= <-] Hs. by apply Hc.
Qed.

(** Deliveries are accepted from running workers only. *)
Lemma accepted_running s w goalId epoch deps :
  delivery_reason s (Some w) goalId epoch deps = None -> wk_status w = WRunning.
Proof. unfold delivery_reason. intros H. split_guards H. by to_prop. Qed.

Lemma workers_step s e s' : workers_ok s -> applyEvent s e = Ok s' -> workers_ok s'.
Proof.
  intros Hw H. step_cases H; unfold invalidateActiveFrontierForFactMutation; repeat case_match;
    try (by eapply workers_frame; [| |exact Hw]).
  - eapply (workers_frame (record_fact _ _ _ _ _ _)); [done..|]. apply workers_assert; [|done].
    by destruct (own key _) eqn:E; unfold has_own in *; rewrite ?E in *.
  - apply workers_assert; [|done]. by destruct (own key _) eqn:E; unfold has_own in *; rewrite ?E in *.
  - eapply (workers_frame (supersedeWorkersDependingOnFact _ _)); [done..|]. by apply workers_correct.
  - by apply workers_correct.
  - apply workers_put; [done| |done]. intros _ d Hd. rewrite existsb_elem_false in *.
    match goal with Hx : forall x, x ∈ _ -> negb _ = false |- _ => specialize (Hx d Hd); by to_prop end.
  - apply workers_put; [cbn; by eapply wo_ids| |done]. intros _ d Hd.
    eapply (wo_current _ Hw); [done | left; subst; by eapply accepted_running | done].
  - apply workers_put; [cbn; by eapply wo_ids| |done]. by intros [?|?].
  - apply workers_put; [cbn; by eapply wo_ids| |done]. by intros [?|?].
Qed.

(** *** All of it *)

Lemma program_consistent_step s e s' :
  PayloadSchema (ed_payload (ev_draft e)) = true -> consistent s -> applyEvent s e = Ok s' -> consistent s'.
Proof.
  intros Hp [] H. split; [by eapply program_focus_step | by eapply frontier_step | by eapply ledger_step |
    by eapply workers_step | by eapply audible_step | by eapply keys_step].
Qed.

Lemma consistent_events events : forall s s',
  Forall (fun e => PayloadSchema (ed_payload (ev_draft e)) = true) events -> consistent s ->
  applyEvents s events = Ok s' -> consistent s'.
Proof.
  induction events as [|e events IH]; intros s s' Hp Hc H; cbn in H; [by simplify_eq|].
  apply Forall_cons in Hp as [Hp Hps]. destruct (applyEvent s e) as [s1|] eqn:E; [|discriminate H].
  eapply IH; [done| |done]. by eapply program_consistent_step.
Qed.
End Invariant.

(** ** Valid logs *)

Section Valid.
Context `{HS : Sha256} `{HI : IsoOffsetDatetime}.
Implicit Types (log : ProgramLog) (s : State).

Definition valid_program log : Prop := validateConversationProgramLog log = Ok tt.

Lemma validate_payloads programId events : forall index previous seen s s',
  validate_events programId index previous seen s events = Ok s' ->
  Forall (fun e => PayloadSchema (ed_payload (ev_draft e)) = true) events.
Proof.
  induction events as [|e events IH]; intros index previous seen s s' H; cbn [validate_events] in H; [constructor|].
  destruct (parse_event e) as [e'|] eqn:Ep; [|discriminate H]. split_guards H.
  destruct (applyEvent s e') as [s1|]; [cbn [bind_result] in H | discriminate H]. constructor; [|by eapply IH]. unfold parse_event in Ep. apply bind_Some in Ep as (d & Hd & _).
  unfold parse_draft in Hd. split_guards Hd. by to_prop.
Qed.

Lemma fold_payloads log p :
  foldConversationProgram log = Ok p ->
  Forall (fun e => PayloadSchema (ed_payload (ev_draft e)) = true) (lg_events log).
Proof.
  unfold foldConversationProgram, validateConversationProgramLog. intros H. split_guards H.
  destruct (validate_events _ _ _ _ _ _) as [s0|] eqn:Hv; [|discriminate H]. by eapply validate_payloads.
Qed.

(** The state a fold starts its projection from. *)
Lemma fold_state log p :
  foldConversationProgram log = Ok p -> exists s, applyEvents emptyProjection (lg_events log) = Ok s /\
    consistent s /\ p = project log s.
Proof.
  intros H. pose proof (fold_payloads _ _ H) as Hp. unfold foldConversationProgram in H.
  destruct (validateConversationProgramLog log); [cbn [bind_result] in H | discriminate H].
  destruct (applyEvents _ _) as [s|] eqn:Hs; [cbn [bind_result] in H | discriminate H]. injection H as <-.
  exists s. split_and!; [done | by eapply consistent_events; [|exact program_consistent_empty|] | done].
Qed.
End Valid.
