(* ===== verification/ProgramHistory.v ===== *)
(** * The log of a conversation program

    Every log the program builds is in parsed form, verifies and folds again; replaying
    any drafts it was built from leaves it alone. *)

From S2P Require Import Prelude JsValue JsText Canonical Graph Flow FlowValidate FlowRuntime.
From S2P Require Import Program ProgramInvariant.
Import Program.

Local Open Scope Z_scope.

(** ** Parsing twice *)

Lemma trim_start_head s : match trim_start s with c :: _ => is_space c = false | [] => True end.
Proof. induction s as [|c s IH]; cbn [trim_start]; [done|]. by destruct (is_space c) eqn:E. Qed.

Lemma trim_start_id s : match s with c :: _ => is_space c = false | [] => True end -> trim_start s = s.
Proof. destruct s as [|c s]; cbn [trim_start]; [done|]. by intros ->. Qed.

Lemma trim_start_suffix s : trim_start s `suffix_of` s.
Proof.
  induction s as [|c s IH]; cbn [trim_start]; [done|]. destruct (is_space c); [|done]. by apply suffix_cons_r.
Qed.

Lemma trim_idemp s : trim (trim s) = trim s.
Proof.
  unfold trim. set (u := trim_start s). set (v := trim_start (reverse u)).
  assert (trim_start (reverse v) = reverse v) as ->.
  { apply trim_start_id. destruct (trim_start_suffix (reverse u)) as [k Hk]. fold v in Hk.
    assert (u = reverse v ++ reverse k) as Hu by by rewrite <- reverse_app, <- Hk, reverse_involutive.
    pose proof (trim_start_head s) as Hh. fold u in Hh. rewrite Hu in Hh. by destruct (reverse v). }
  rewrite reverse_involutive. f_equal. apply trim_start_id. apply trim_start_head.
Qed.

Lemma text_trim s : TextSchema (trim s) = TextSchema s.
Proof. unfold TextSchema. by rewrite trim_idemp. Qed.

Lemma payload_trim p : PayloadSchema (trim_payload p) = PayloadSchema p.
Proof. destruct p; cbn [trim_payload PayloadSchema]; by rewrite ?text_trim. Qed.

Lemma trim_payload_idemp p : trim_payload (trim_payload p) = trim_payload p.
Proof. destruct p; cbn [trim_payload]; by rewrite ?trim_idemp. Qed.

Section Log.
Context `{HS : Sha256} `{HI : IsoOffsetDatetime}.
Implicit Types (log : ProgramLog) (e : ProgramEvent) (d : EventDraft) (s : State) (events : list ProgramEvent).

Lemma parse_draft_idemp d d' : parse_draft d = Some d' -> parse_draft d' = Some d'.
Proof.
  unfold parse_draft. intros H. split_guards H. injection H as <-. cbn. rewrite payload_trim.
  rewrite Heqb. by rewrite trim_payload_idemp.
Qed.

Lemma parse_draft_id d d' : parse_draft d = Some d' -> ed_eventId d' = ed_eventId d.
Proof. unfold parse_draft. intros H. split_guards H. by injection H as <-. Qed.

(** ** Chains of parsed events *)

Definition ids events : list jstr := (fun e => ed_eventId (ev_draft e)) <$> events.

(** One event in its place. *)
Record linked (programId : jstr) (index : Z) (previous : jstr) e : Prop := {
  lk_parsed : parse_event e = Some e;
  lk_program : ev_programId e = programId;
  lk_sequence : ev_sequence e = index + 1;
  lk_previous : ev_previousSha256 e = previous;
  lk_digest : eventDigest (ev_programId e) (ev_sequence e) (ev_previousSha256 e) (ev_draft e) = Some (ev_eventSha256 e);
}.

Fixpoint chain (programId : jstr) (index : Z) (previous : jstr) events : Prop :=
  match events with
  | [] => True
  | e :: events => linked programId index previous e /\ chain programId (index + 1) (ev_eventSha256 e) events
  end.

Definition head_from (previous : jstr) events : jstr :=
  match last events with Some e => ev_eventSha256 e | None => previous end.

Lemma program_head_from_cons previous e events : head_from previous (e :: events) = head_from (ev_eventSha256 e) events.
Proof. unfold head_from. rewrite last_cons. by destruct (last events). Qed.

Lemma program_chain_snoc programId events e : forall index previous,
  chain programId index previous (events ++ [e]) <->
  chain programId index previous events /\
  linked programId (index + Z.of_nat (length events)) (head_from previous events) e.
Proof.
  induction events as [|e0 events IH]; intros index previous; cbn [app chain length].
  - rewrite Z.add_0_r. unfold head_from. cbn. tauto.
  - rewrite IH, program_head_from_cons.
    replace (index + 1 + Z.of_nat (length events)) with (index + Z.of_nat (S (length events))) by lia. tauto.
Qed.

(** On a chain of parsed events with fresh ids, validation is the fold. *)
Lemma validate_chain programId events : forall index previous seen s,
  chain programId index previous events -> NoDup (ids events) -> (forall id, id ∈ ids events -> id ∉ seen) ->
  validate_events programId index previous seen s events = applyEvents s events.
Proof.
  induction events as [|e events IH]; intros index previous seen s Hc Hn Hs; [done|].
  destruct Hc as [[H1 H2 H3 H4 H5] Hc]. cbn [ids fmap list_fmap] in Hn, Hs. apply NoDup_cons in Hn as [Hn1 Hn2].
  cbn [validate_events applyEvents]. rewrite H1, H2, H3, H4. rewrite H2, H3, H4 in H5.
  rewrite !str_eqb_refl, Z.eqb_refl, bool_decide_eq_true_2 by done. cbn [negb].
  rewrite (proj2 (includes_false _ _)) by (apply Hs; left).
  destruct (applyEvent s e) as [s1|]; cbn [bind_result]; [|done].
  apply IH; [done..|]. intros id Hid. rewrite not_elem_of_cons. split; [|by apply Hs; right].
  intros ->. by apply Hn1.
Qed.

Lemma program_applyEvents_app s events events' :
  applyEvents s (events ++ events') = (let* s' := applyEvents s events in applyEvents s' events').
Proof.
  revert s; induction events as [|e events IH]; intros s; cbn [app applyEvents]; [done|].
  destruct (applyEvent s e); cbn [bind_result]; [apply IH | done].
Qed.

(** ** Appending *)

Definition sound_events programId events : Prop :=
  chain programId 0 CONVERSATION_PROGRAM_GENESIS_SHA256 events /\ NoDup (ids events) /\
  is_ok (applyEvents emptyProjection events) = true.

(** A draft is logged when the event under its id carries the same canonical content. *)
Definition logged events d : Prop :=
  exists d' e, parse_draft d = Some d' /\ find_event (ed_eventId d') events = Some e /\
    canonicalProgramJson (JObj (draft_fields (ev_draft e))) = canonicalProgramJson (JObj (draft_fields d')).

Lemma program_find_event_none id events : find_event id events = None <-> id ∉ ids events.
Proof.
  unfold find_event, ids. rewrite find_none_elem, list_elem_of_fmap. split.
  - intros H [e [-> He]]. specialize (H e He). by rewrite str_eqb_refl in H.
  - intros H e He. apply str_eqb_neq. intros <-. apply H. eauto.
Qed.

Lemma program_find_event_app id events new e :
  find_event id events = Some e -> find_event id (events ++ new) = Some e.
Proof.
  unfold find_event. induction events as [|e0 events IH]; simpl; [done|].
  destruct (_ =?s id); [done | apply IH].
Qed.

Lemma program_logged_app events new d : logged events d -> logged (events ++ new) d.
Proof. intros (d' & e & Hd & He & Hc). exists d', e. split_and!; [done | by apply program_find_event_app | done]. Qed.

Lemma program_seal_linked programId events d e :
  parse_draft d = Some d -> seal programId events d = Some e ->
  linked programId (Z.of_nat (length events)) (head_from CONVERSATION_PROGRAM_GENESIS_SHA256 events) e /\
  ev_draft e = d.
Proof.
  intros Hd H. unfold seal in H. apply bind_Some in H as (digest & Hdig & H).
  unfold parse_event in H. cbn [ev_draft] in H. rewrite Hd in H. cbn [mbind option_bind] in H.
  split_guards H. injection H as <-. split; [|done].
  constructor; try done. unfold parse_event. cbn. rewrite Hd. cbn. cbn in Heqb. by rewrite Heqb.
Qed.

Record appended programId events ds events' : Prop := {
  ap_sound : sound_events programId events';
  ap_new : exists new, events' = events ++ new;
  ap_logged : Forall (logged events') ds;
}.

Lemma program_append_drafts_spec programId ds : forall s events events',
  sound_events programId events -> applyEvents emptyProjection events = Ok s ->
  append_drafts programId s events ds = Ok events' -> appended programId events ds events'.
Proof.
  induction ds as [|input ds IH]; intros s events events' Hc Hs H; cbn [append_drafts] in H.
  { simplify_eq. constructor; [done | exists []; by rewrite app_nil_r | done]. }
  destruct (parse_draft input) as [d|] eqn:Hd; [|discriminate H].
  destruct (find_event (ed_eventId d) events) as [e0|] eqn:Hf.
  - split_guards H. to_prop. destruct (IH _ _ _ Hc Hs H) as [H1 [new ->] H3].
    constructor; [done | eauto | constructor; [|done]]. apply program_logged_app. by exists d, e0.
  - destruct (negb _); [discriminate H|]. destruct (seal programId events d) as [e|] eqn:Hseal; [|discriminate H].
    split_guards H. destruct (applyEvent s e) as [s'|] eqn:Ha; cbn [bind_result] in H; [|discriminate H].
    destruct (program_seal_linked _ _ _ _ (parse_draft_idemp _ _ Hd) Hseal) as [Hl Hde].
    apply program_find_event_none in Hf. destruct Hc as (Hc & Hn & Ho).
    assert (applyEvents emptyProjection (events ++ [e]) = Ok s') as Hs'.
    { rewrite program_applyEvents_app, Hs. cbn [bind_result applyEvents]. by rewrite Ha. }
    assert (sound_events programId (events ++ [e])) as Hc'.
    { split_and!; [by apply program_chain_snoc | | by rewrite Hs'].
      unfold ids in *. rewrite fmap_app. apply NoDup_snoc; [done|]. by rewrite Hde. }
    destruct (IH _ _ _ Hc' Hs' H) as [H1 [new ->] H3].
    constructor; [done | exists (e :: new); by rewrite <- app_assoc | constructor; [|done]].
    apply program_logged_app. exists d, e. rewrite Hde. split_and!; [done | | done].
    apply find_snoc; [by apply program_find_event_none | rewrite Hde; apply str_eqb_refl].
Qed.

Lemma program_append_logged programId ds : forall s events,
  Forall (logged events) ds -> append_drafts programId s events ds = Ok events.
Proof.
  induction ds as [|d ds IH]; intros s events Hl; cbn [append_drafts]; [done|].
  apply Forall_cons in Hl as [(d' & e & Hd & He & Hc) Hl]. rewrite Hd, He.
  rewrite bool_decide_eq_true_2 by done. cbn [negb]. by apply IH.
Qed.

(** The logs the program builds, with all drafts that were ever appended to them. *)
Inductive built_from : list EventDraft -> ProgramLog -> Prop :=
| from_new programId log : createConversationProgramLog programId = Ok log -> built_from [] log
| from_append given log ds log' :
    built_from given log -> appendConversationProgramEvents log ds = Ok log' -> built_from (given ++ ds) log'.

Definition built log : Prop := exists given, built_from given log.

Definition sound log : Prop :=
  lg_schemaVersion log = CONVERSATION_PROGRAM_VERSION /\ IdSchema (lg_programId log) = true /\
  sound_events (lg_programId log) (lg_events log).

Lemma sound_valid log : sound log -> valid_program log /\ is_ok (foldConversationProgram log) = true.
Proof.
  intros (Hv & Hi & Hc & Hn & Ho). unfold foldConversationProgram, valid_program, validateConversationProgramLog.
  rewrite Hv, Hi, Z.eqb_refl. cbn [negb]. rewrite (validate_chain _ _ _ _ _ _ Hc Hn) by set_solver.
  destruct (applyEvents _ _); [done | discriminate Ho].
Qed.

Lemma append_sound log ds log' :
  sound log -> appendConversationProgramEvents log ds = Ok log' ->
  sound log' /\ appended (lg_programId log) (lg_events log) ds (lg_events log').
Proof.
  intros (Hv & Hi & Hs) H. unfold appendConversationProgramEvents in H.
  destruct (validateConversationProgramLog log); [cbn [bind_result] in H | discriminate H].
  destruct (applyEvents _ _) as [s|] eqn:Hf; [cbn [bind_result] in H | discriminate H].
  destruct (append_drafts _ _ _ _) as [events|] eqn:Ha; [cbn [bind_result] in H | discriminate H].
  injection H as <-. pose proof (program_append_drafts_spec _ _ _ _ _ Hs Hf Ha) as Hap.
  split; [|done]. split_and!; [done..|]. apply Hap.
Qed.

Lemma new_log_sound programId log : createConversationProgramLog programId = Ok log -> sound log.
Proof.
  intros H. unfold createConversationProgramLog in H. split_guards H. injection H as <-. to_prop.
  split_and!; [done..|]. split_and!; [done | apply NoDup_nil_2 | done].
Qed.

Lemma built_from_sound given log : built_from given log -> sound log /\ Forall (logged (lg_events log)) given.
Proof.
  induction 1 as [programId log H|given log ds log' _ [IH Hg] H]; [split; [by eapply new_log_sound|constructor]|].
  destruct (append_sound _ _ _ IH H) as [Hs [_ [new En] Hl]]. split; [done|]. apply Forall_app. split; [|done].
  eapply Forall_impl; [exact Hg|]. intros d Hd. rewrite En. by apply program_logged_app.
Qed.

Lemma built_sound log : built log -> sound log.
Proof. by intros [given [? _]%built_from_sound]. Qed.

Lemma chain_parsed programId events : forall index previous,
  chain programId index previous events -> Forall (fun e => parse_event e = Some e) events.
Proof. induction events as [|e events IH]; intros index previous; [constructor|]. intros [[] Hc]. constructor; eauto. Qed.

(** C26. Every log built by creating and appending verifies and folds; its events are in parsed form, so that
    parsing one again gives it back; appending to it keeps its events in place and adds behind them; and appending any of
    the drafts that were ever appended to it, in any order and number, leaves it as it is. *)
Theorem built_log_verifies given log :
  built_from given log ->
  valid_program log /\ is_ok (foldConversationProgram log) = true /\
  Forall (fun e => parse_event e = Some e) (lg_events log) /\
  (forall ds log', appendConversationProgramEvents log ds = Ok log' -> exists new, lg_events log' = lg_events log ++ new) /\
  (forall ds, (forall d, d ∈ ds -> d ∈ given) -> appendConversationProgramEvents log ds = Ok log).
Proof.
  intros [Hs Hg]%built_from_sound. destruct (sound_valid _ Hs) as [Hv Hf].
  pose proof Hs as (_ & _ & Hc & _ & Ho). split_and!; [done|done|by eapply chain_parsed| |].
  - intros ds log' H. destruct (append_sound _ _ _ Hs H) as [_ [_ Hn _]]. done.
  - intros ds Hsub. unfold valid_program in Hv. unfold appendConversationProgramEvents. rewrite Hv. cbn [bind_result].
    destruct (applyEvents _ _) as [s|]; [cbn [bind_result] | discriminate Ho].
    rewrite program_append_logged; [by destruct log|]. rewrite Forall_forall in *. auto.
Qed.
End Log.
