(* ===== verification/ProgramSafety.v ===== *)
(** * Safety and progress of the conversation program

    The invariants as seen in the projection, what later events can no longer change, and
    which goals can still be completed. *)

From S2P Require Import Prelude JsValue JsText Canonical Graph Flow FlowValidate FlowRuntime.
From S2P Require Import Program ProgramInvariant ProgramHistory.
Import Program.

Local Open Scope Z_scope.

#[local] Arguments keys : simpl never.
#[local] Arguments map_values : simpl never.
#[local] Arguments revokeReservedActions : simpl never.

(** ** What is final *)

Definition heard_later (r r' : Audibility) : Prop :=
  au_generatedThroughMs r' = au_generatedThroughMs r /\ au_contentSha256 r' = au_contentSha256 r /\
  au_releasedThroughMs r <= au_releasedThroughMs r' /\ au_heardThroughMs r <= au_heardThroughMs r' /\
  (au_interrupted r = true -> r' = r).

Record later (s s' : State) : Prop := {
  lt_epoch : s_epoch s <= s_epoch s';
  lt_facts : forall k f, own k (s_facts s) = Some f ->
    exists f', own k (s_facts s') = Some f' /\ ft_revision f <= ft_revision f';
  lt_goals : forall id g, own id (s_goals s) = Some g -> gl_status g = GoalDone -> own id (s_goals s') = Some g;
  lt_known : forall id, is_Some (own id (s_goals s)) -> is_Some (own id (s_goals s'));
  lt_reservations : forall id r, own id (s_reservations s) = Some r -> rv_status r <> Reserved ->
    own id (s_reservations s') = Some r;
  lt_receipts : forall id t, own id (s_receipts s) = Some t -> own id (s_receipts s') = Some t;
  lt_obligations : forall id o, own id (s_obligations s) = Some o -> ob_status o <> Open ->
    own id (s_obligations s') = Some o;
  lt_deliveries : forall id d, own id (s_deliveries s) = Some d -> own id (s_deliveries s') = Some d;
  lt_audibility : forall id r, own id (s_audibility s) = Some r ->
    exists r', own id (s_audibility s') = Some r' /\ heard_later r r';
}.

Lemma heard_later_refl r : heard_later r r.
Proof. unfold heard_later. split_and!; done || lia. Qed.

Lemma heard_later_trans r r' r'' : heard_later r r' -> heard_later r' r'' -> heard_later r r''.
Proof.
  unfold heard_later. intros (A1 & A2 & A3 & A4 & A5) (B1 & B2 & B3 & B4 & B5).
  split_and!; [congruence | congruence | lia | lia|]. intros Hi. rewrite (A5 Hi) in *. auto.
Qed.

#[local] Instance later_preorder : PreOrder later.
Proof.
  split.
  - intros s. constructor; intros; eauto using heard_later_refl; [lia|]. eexists. split; [done | lia].
  - intros s1 s2 s3 [A1 A2 A3 A3' A4 A5 A6 A7 A8] [B1 B2 B3 B3' B4 B5 B6 B7 B8]. constructor; eauto; [lia| |].
    + intros k f Hf. destruct (A2 _ _ Hf) as (f' & Hf' & ?). destruct (B2 _ _ Hf') as (f'' & ? & ?).
      exists f''. split; [done | lia].
    + intros id r Hr. destruct (A8 _ _ Hr) as (r' & Hr' & ?). destruct (B8 _ _ Hr') as (r'' & ? & ?).
      exists r''. split; [done | by eapply heard_later_trans].
Qed.

(** A key that is absent before a [put] stays as it was for every present key. *)
Lemma own_put_fresh {V} k k' (v w : V) o : own k o = None -> own k' o = Some w -> own k' (put k v o) = Some w.
Proof. intros Hn Hk. rewrite own_put. destruct (k' =?s k) eqn:E; to_prop; [congruence | done]. Qed.

Lemma has_own_none {V} k (o : obj V) : has_own k o = false -> own k o = None.
Proof. unfold has_own. by destruct (own k o). Qed.

Lemma own_revoke_settled id r o :
  own id o = Some r -> rv_status r <> Reserved -> own id (revokeReservedActions o) = Some r.
Proof.
  intros Ho Hr. unfold revokeReservedActions. rewrite own_map_values, Ho. cbn. unfold revoke.
  by rewrite bool_decide_eq_false_2.
Qed.

Lemma required_focus s id g :
  requireFocusedGoal s id = Some g -> own id (s_goals s) = Some g /\ gl_status g = Focused /\ s_focusedGoalId s = Some id.
Proof.
  unfold requireFocusedGoal. intros H. apply bind_Some in H as (g' & Hg & H). split_guards H. to_prop. by simplify_eq.
Qed.

Lemma done_refocus s id target id' g :
  focus_ok s -> own id (s_goals s) = Some target -> gl_status target = Queued \/ gl_status target = Suspended ->
  own id' (s_goals s) = Some g -> gl_status g = GoalDone -> own id' (refocus s id target) = Some g.
Proof.
  intros Hf Ht Hst Hg Hd. rewrite own_refocus. destruct (id' =?s id) eqn:E; to_prop; subst.
  { simplify_eq. rewrite Hd in Hst. by destruct Hst. }
  destruct (bool_decide _) eqn:Eb; to_prop; [|done]. exfalso.
  apply truthy_Some in Eb as [Eb _]. apply (fo_goals _ Hf _ _ Hg) in Eb. congruence.
Qed.

(** Closing the fields that a [put] touches. *)
Ltac put_cases :=
  rewrite own_put; destruct (_ =?s _) eqn:?; to_prop; subst; simplify_eq; try done; try congruence.

Lemma later_step s e s' : focus_ok s -> applyEvent s e = Ok s' -> later s s'.
Proof.
  intros Hf H. step_cases H; unfold invalidateActiveFrontierForFactMutation; repeat case_match;
    repeat match goal with
    | Hr : requireFocusedGoal _ _ = Some _ |- _ => apply required_focus in Hr as (? & ? & ?)
    | Hr : has_own _ _ = false |- _ => apply has_own_none in Hr
    | Hr : (_ || _) = true |- _ => apply orb_true_iff in Hr
    end;
    constructor; cbn; intros; try done; unfold s_epoch; cbn; try lia;
    try (by eexists; split; [done | lia]); try (by eexists; split; [done | apply heard_later_refl]);
    try (by apply own_revoke_settled); try (put_cases; by eauto).
  all: try (rewrite own_put; destruct (_ =?s _) eqn:?; to_prop; subst; simplify_eq; eexists; (split; [done|]);
    first [cbn; lia | apply heard_later_refl |
           unfold heard_later, with_heard; cbn; split_and!; [done | done | lia | lia | congruence]]).
  all: try (by eapply done_refocus; [| |destruct_or?; to_prop; eauto|..]).
  all: try (rewrite own_refocus; repeat case_match; eauto; by apply fmap_is_Some).
  unfold s_epoch in *; lia.
Qed.

Lemma later_events events : forall s s',
  Forall (fun e => PayloadSchema (ed_payload (ev_draft e)) = true) events -> consistent s ->
  applyEvents s events = Ok s' -> later s s'.
Proof.
  induction events as [|e events IH]; intros s s' Hp Hc H; cbn [applyEvents] in H; [by simplify_eq|].
  apply Forall_cons in Hp as [Hp Hps]. destruct (applyEvent s e) as [s1|] eqn:E; [|discriminate H].
  transitivity s1; [eapply later_step; [apply Hc | done]|]. eapply IH; [done | by eapply program_consistent_step | done].
Qed.

(** ** Goals that can no longer be completed *)

Definition lost_worker (goalId : jstr) (w : ProgramWorker) : Prop :=
  wk_goalId w = goalId /\ wk_requiredForGoalCompletion w = true /\
  (wk_status w = WSuperseded \/ wk_status w = WCancelled).
Definition spent_checkpoint (epoch : Z) (c : FlowCheckpoint) : Prop :=
  fc_status c = FlowFailed \/ (fc_status c = Completed /\ fc_capabilityEpoch c < epoch).
Definition unknown_effect (goalId : jstr) (r : ProgramActionReservation) : Prop :=
  rv_goalId r = goalId /\ rv_status r = Recorded RIndeterminate.

Definition dead (s : State) (goalId : jstr) : Prop :=
  (exists id w, own id (s_workers s) = Some w /\ lost_worker goalId w) \/
  (exists c, own goalId (s_flowCheckpoints s) = Some c /\ spent_checkpoint (s_epoch s) c.1) \/
  (exists id r, own id (s_reservations s) = Some r /\ unknown_effect goalId r).

Definition undone (s : State) (goalId : jstr) : Prop :=
  forall g, own goalId (s_goals s) = Some g -> gl_status g <> GoalDone.

Lemma lost_step s e s' goalId id w :
  applyEvent s e = Ok s' -> own id (s_workers s) = Some w -> lost_worker goalId w ->
  exists w', own id (s_workers s') = Some w' /\ lost_worker goalId w'.
Proof.
  intros H Hw (Hg & Hr & Hs). step_cases H; unfold invalidateActiveFrontierForFactMutation; repeat case_match;
    cbn; unfold lost_worker; try (by exists w);
    try (rewrite own_put; destruct (_ =?s _) eqn:?; to_prop; subst; simplify_eq; [|by exists w]);
    try (match goal with Hn : has_own _ _ = false |- _ => apply has_own_none in Hn; congruence end).
  - eexists. split; [by rewrite own_map_values, Hw|]. unfold supersede. destruct (_ && _); cbn; eauto.
  - eexists. split; [by rewrite own_map_values, Hw|]. unfold supersede. destruct (_ && _); cbn; eauto.
  - exfalso. subst. match goal with Ha : delivery_reason _ _ _ _ _ = None |- _ => apply accepted_running in Ha end.
    destruct Hs; congruence.
  - eexists. split; [done|]. cbn. eauto.
  - destruct Hs; congruence.
Qed.

Lemma spent_step s e s' goalId c :
  later s s' -> applyEvent s e = Ok s' -> own goalId (s_flowCheckpoints s) = Some c ->
  spent_checkpoint (s_epoch s) c.1 -> own goalId (s_flowCheckpoints s') = Some c /\ spent_checkpoint (s_epoch s') c.1.
Proof.
  intros Hl H Hc Hs. split; [|destruct Hs as [?|[? ?]]; [by left | right; split; [done|]];
    pose proof (lt_epoch _ _ Hl); lia].
  step_cases H; unfold invalidateActiveFrontierForFactMutation; repeat case_match; cbn; try done;
    rewrite own_put; destruct (_ =?s _) eqn:?; to_prop; subst; simplify_eq; try done.
  cbn in Hs. destruct Hs as [?|[? _]]; congruence.
Qed.

Lemma dead_step s e s' goalId : focus_ok s -> applyEvent s e = Ok s' -> dead s goalId -> dead s' goalId.
Proof.
  intros Hf H. pose proof (later_step _ _ _ Hf H) as Hl.
  intros [(id & w & Hw & Hd)|[(c & Hc & Hd)|(id & r & Hr & Hd & Hd')]].
  - left. destruct (lost_step _ _ _ _ _ _ H Hw Hd) as (w' & ? & ?). eauto.
  - right; left. destruct (spent_step _ _ _ _ _ Hl H Hc Hd). eauto.
  - right; right. exists id, r. split; [|done]. apply (lt_reservations _ _ Hl); [done | congruence].
Qed.

(** The reducer refuses to complete a dead goal. *)
Lemma dead_refused s goalId s' : dead s goalId -> complete_goal s goalId <> Ok s'.
Proof.
  unfold complete_goal. intros Hd H. destruct (requireFocusedGoal _ _); [|discriminate H].
  split_guards H; rewrite !existsb_elem_false in *; to_prop;
    destruct Hd as [(id & w & Hw & Hg & Hr & Hst)|[(c' & Hc & Hsp)|(id & r & Hr & Hg & Hst)]];
    repeat match goal with
    | Ho : own _ (s_workers _) = Some _ |- _ => apply own_elem_of in Ho
    | Ho : own _ (s_reservations _) = Some _ |- _ => apply own_elem_of in Ho
    | Hx : forall x, x ∈ ?l -> _, Ho : _ ∈ ?l |- _ => specialize (Hx _ Ho)
    end; simplify_eq/=.
  - unfold incomplete_worker in Heqb3. rewrite str_eqb_refl, Hr in Heqb3. cbn [andb] in Heqb3. to_prop.
    destruct Hst; congruence.
  - rewrite Hc in Heqb0, Heqb1. destruct c' as [c n]. to_prop. destruct Hsp as [Hsp|[_ Hsp]]; cbn in Hsp; [congruence | lia].
  - unfold unresolved_effect in Heqb2. rewrite str_eqb_refl, Hst in Heqb2. discriminate.
Qed.

Lemma apply_complete s e s' id :
  ed_payload (ev_draft e) = GoalCompleted id -> applyEvent s e = Ok s' -> complete_goal s id = Ok s'.
Proof. unfold applyEvent. intros -> H. by destruct (negb _). Qed.

(** Only completing makes a goal done. *)
Lemma undone_step s e s' goalId :
  applyEvent s e = Ok s' -> undone s goalId -> (forall s'', complete_goal s goalId <> Ok s'') -> undone s' goalId.
Proof.
  intros H Hu Hd. unfold undone in *. pose proof (fun id E => apply_complete s e s' id E H) as Hc.
  step_cases H; unfold invalidateActiveFrontierForFactMutation; repeat case_match; cbn; try exact Hu; intros g'.
  all: try (rewrite own_refocus; repeat case_match; [by intros [= <-] | | apply Hu];
    by intros (g0 & _ & ->)%fmap_Some).
  all: rewrite own_put; destruct (_ =?s _) eqn:E; to_prop; [|apply Hu]; subst; try (by intros [= <-]).
  all: by destruct (Hd _ (Hc _ eq_refl)).
Qed.

Lemma dead_events goalId events : forall s s',
  Forall (fun e => PayloadSchema (ed_payload (ev_draft e)) = true) events -> consistent s ->
  applyEvents s events = Ok s' -> dead s goalId -> undone s goalId -> undone s' goalId.
Proof.
  induction events as [|e events IH]; intros s s' Hp Hc H Hd Hu; cbn [applyEvents] in H; [by simplify_eq|].
  apply Forall_cons in Hp as [Hp Hps]. destruct (applyEvent s e) as [s1|] eqn:E; [|discriminate H].
  eapply (IH s1); [done | by eapply program_consistent_step | done | eapply dead_step; [apply Hc | done | done]|].
  eapply undone_step; [done..|]. intros s''. by apply dead_refused.
Qed.

(** ** Goals that can be completed *)

Lemma program_elem_of_values {V} (id : V -> jstr) kv (o : obj V) : kv ∈ o -> kv.2 ∈ sorted_values id o.
Proof. intros H. unfold sorted_values. rewrite elem_of_sort_by. by apply list_elem_of_fmap_2. Qed.

Lemma focus_waiting s goalId g :
  focus_ok s -> own goalId (s_goals s) = Some g -> gl_status g = Queued \/ gl_status g = Suspended ->
  focus_goal s goalId = Ok (invalidateCapabilityFrontier (set_goals (refocus s goalId g) (Some goalId) s)).
Proof.
  intros Hf Hg Hst. unfold focus_goal. rewrite Hg. rewrite (proj2 (orb_true_iff _ _)); cbn [negb].
  - destruct (truthy (s_focusedGoalId s)) as [c|] eqn:Ec; [|done]. apply truthy_Some in Ec as [Ec _].
    destruct (fo_focused _ Hf _ Ec) as [_ [g' Hg']]. unfold has_own. by rewrite Hg'.
  - destruct Hst as [-> | ->]; [by left | by right].
Qed.

Lemma complete_waiting s goalId g :
  (forall kv, kv ∈ s_obligations s -> blocks_goal goalId kv.2 = false) ->
  own goalId (s_flowCheckpoints s) = None ->
  (forall kv, kv ∈ s_reservations s -> ~ unknown_effect goalId kv.2) ->
  (forall kv, kv ∈ s_workers s -> incomplete_worker goalId kv.2 = false) ->
  let s1 := invalidateCapabilityFrontier (set_goals (refocus s goalId g) (Some goalId) s) in
  complete_goal s1 goalId = Ok (invalidateCapabilityFrontier (set_goals (put goalId (with_goal_status GoalDone None
    (mkGoal (gl_goalId g) (gl_description g) Focused (gl_openedSequence g) (gl_focusCount g + 1) None))
    (s_goals s1)) None s1)).
Proof.
  intros Ho Hc Hr Hw s1. unfold complete_goal, requireFocusedGoal. subst s1. cbn.
  rewrite own_refocus, str_eqb_refl. cbn. rewrite !bool_decide_eq_true_2 by done. cbn.
  rewrite (proj2 (existsb_elem_false _ _)) by done. rewrite Hc.
  rewrite (proj2 (existsb_elem_false _ _)); [rewrite (proj2 (existsb_elem_false _ _)) by done; done|].
  intros kv Hkv. unfold revokeReservedActions, map_values in Hkv. apply list_elem_of_fmap in Hkv as (kv0 & -> & Hkv).
  cbn. specialize (Hr _ Hkv). unfold unknown_effect, unresolved_effect, revoke in *.
  destruct (bool_decide (rv_status kv0.2 = Reserved)) eqn:E; cbn; [by rewrite andb_false_r|].
  rewrite E. cbn. apply andb_false_iff. destruct (rv_goalId kv0.2 =?s goalId) eqn:Eg; [right | by left].
  to_prop. apply bool_decide_eq_false_2. naive_solver.
Qed.

(** ** Extensions of a log *)

Section Logs.
Context `{HS : Sha256} `{HI : IsoOffsetDatetime}.
Implicit Types (log : ProgramLog) (p : Projection).

Lemma extension_states log log' p p' :
  foldConversationProgram log = Ok p -> foldConversationProgram log' = Ok p' ->
  lg_events log `prefix_of` lg_events log' ->
  exists s s' new, p = project log s /\ p' = project log' s' /\ consistent s /\ consistent s' /\
    applyEvents s new = Ok s' /\ Forall (fun e => PayloadSchema (ed_payload (ev_draft e)) = true) new.
Proof.
  intros H H' [new Hnew]. destruct (fold_state _ _ H) as (s & Hs & Hc & ->).
  pose proof (fold_payloads _ _ H') as Hp. destruct (fold_state _ _ H') as (s' & Hs' & Hc' & ->).
  rewrite Hnew, program_applyEvents_app, Hs in Hs'. rewrite Hnew in Hp. apply Forall_app in Hp as [_ Hp].
  exists s, s', new. done.
Qed.

(** ** Theorems *)

Lemma projected_focus log s g :
  consistent s -> pj_focusedGoal (project log s) = Some g <->
  exists id, s_focusedGoalId s = Some id /\ own id (s_goals s) = Some g.
Proof.
  intros [[Hg Hf Hi] _ _ _ _ Hk]. cbn [pj_focusedGoal project].
  destruct (s_focusedGoalId s) as [id|] eqn:Ef; [|cbn; naive_solver].
  destruct (Hf _ eq_refl) as [Hne [g0 Hg0]]. assert (truthy (Some id) = Some id) as -> by by destruct id.
  assert (forall x, List.find (fun g => gl_goalId g =?s id) (sorted_values gl_goalId (s_goals s)) = Some x <->
    own id (s_goals s) = Some x) as ->; [|naive_solver].
  intros x. split.
  - intros [Hx Hid]%find_elem. to_prop. apply elem_of_sorted_values in Hx as [k Hk']; [|apply Hk].
    destruct (Hg _ _ Hk') as [Hk'' _]. congruence.
  - intros Hx. destruct (List.find _ _) as [y|] eqn:E.
    + apply find_elem in E as [Hx' Hid]. to_prop. apply elem_of_sorted_values in Hx' as [k Hk']; [|apply Hk].
      destruct (Hg _ _ Hk') as [Hk'' _]. congruence.
    + exfalso. rewrite find_none_elem in E. destruct (Hg _ _ Hx) as [Hid _].
      assert (x ∈ sorted_values gl_goalId (s_goals s)) as Hin by (apply elem_of_sorted_values; [apply Hk | eauto]).
      specialize (E _ Hin). by rewrite Hid, str_eqb_refl in E.
Qed.

(** One focus, and authority only inside it: in the projection of any log that folds, the
    goals in status focused are exactly the focused goal; a capability frontier belongs to it,
    and without one there are no capabilities; and every action that is still reserved was
    reserved in the current epoch, for the focused goal, with a capability of the frontier. *)
Theorem program_authority_in_focus log p :
  foldConversationProgram log = Ok p ->
  (forall g, g ∈ pj_goals p -> gl_status g = Focused <-> pj_focusedGoal p = Some g) /\
  (forall id, pj_capabilityGoalId p = Some id -> gl_goalId <$> pj_focusedGoal p = Some id) /\
  (pj_capabilityGoalId p = None -> pj_capabilities p = []) /\
  (forall r, r ∈ pj_actionReservations p -> rv_status r = Reserved ->
     rv_capabilityEpoch r = pj_capabilityEpoch p /\ gl_goalId <$> pj_focusedGoal p = Some (rv_goalId r) /\
     rv_action r ∈ pj_capabilities p).
Proof.
  intros (s & Hs & Hc & ->)%fold_state. pose proof Hc as [[Hg Hf Hi] [F1 F2 F3] _ _ _ Hk].
  assert (forall id, s_capabilityGoalId s = Some id -> gl_goalId <$> pj_focusedGoal (project log s) = Some id) as Hcap.
  { intros id Hid. apply F1 in Hid. destruct (Hf _ Hid) as [_ [g Hg0]].
    rewrite (proj2 (projected_focus log s g Hc)) by eauto. cbn. f_equal. by apply Hg in Hg0 as [? _]. }
  split_and!; [|exact Hcap|exact F2|].
  - intros g Hin. apply elem_of_sorted_values in Hin as [k Hk']; [|apply Hk]. rewrite projected_focus by done.
    destruct (Hg _ _ Hk') as [Hid Hst]. rewrite Hst. split; [by eauto|].
    intros (id & Hid' & Ho). destruct (Hg _ _ Ho) as [Hid'' _]. congruence.
  - intros r Hin Hr. apply elem_of_sorted_values in Hin as [k Hk']; [|apply Hk].
    destruct (F3 _ _ Hk' Hr) as (? & ? & ?). auto.
Qed.

(** C27. Effects happen once: receipts and settled reservations of a projection correspond one to
    one with the same verdict, and no two reservations share an idempotency key. *)
Theorem program_effects_once log p :
  foldConversationProgram log = Ok p ->
  (forall t, t ∈ pj_actionReceipts p -> exists r, r ∈ pj_actionReservations p /\
     rv_reservationId r = rp_reservationId t /\ rv_status r = Recorded (rp_status t) /\
     rv_receiptId r = Some (rp_receiptId t)) /\
  (forall r status, r ∈ pj_actionReservations p -> rv_status r = Recorded status ->
     exists t, t ∈ pj_actionReceipts p /\ rv_receiptId r = Some (rp_receiptId t) /\
     rp_reservationId t = rv_reservationId r /\ rp_status t = status) /\
  (forall r r', r ∈ pj_actionReservations p -> r' ∈ pj_actionReservations p ->
     rv_idempotencyKey r = rv_idempotencyKey r' -> r = r').
Proof.
  intros (s & Hs & [_ _ [H1 H2 H3 H4 H5] _ _ Hk] & ->)%fold_state. cbn [pj_actionReceipts pj_actionReservations project].
  assert (forall r, r ∈ sorted_values rv_reservationId (s_reservations s) <->
    own (rv_reservationId r) (s_reservations s) = Some r) as Hr.
  { intros r. rewrite elem_of_sorted_values by apply Hk. split; [|by eauto].
    intros [k Hk']. by destruct (H1 _ _ Hk') as [-> _]. }
  assert (forall t, t ∈ sorted_values rp_receiptId (s_receipts s) <-> own (rp_receiptId t) (s_receipts s) = Some t) as Ht.
  { intros t. rewrite elem_of_sorted_values by apply Hk. split; [|by eauto].
    intros [k Hk']. by destruct (H4 _ _ Hk') as [-> _]. }
  split_and!.
  - intros t Hin%Ht. destruct (H4 _ _ Hin) as (_ & r & Ho & Hst & Hid). exists r. rewrite Hr.
    destruct (H1 _ _ Ho) as [Hi _]. by rewrite Hi.
  - intros r status Hin%Hr Hst. pose proof (H5 _ _ Hin) as Hx. rewrite Hst in Hx.
    destruct Hx as (rid & t & Hrid & Ho & Hi & Hst'). exists t. rewrite Ht. destruct (H4 _ _ Ho) as [-> _]. done.
  - intros r r' Hin%Hr Hin'%Hr Hkey. pose proof (H2 _ _ Hin) as K. pose proof (H2 _ _ Hin') as K'. congruence.
Qed.

(** Workers never outlive their facts: whenever a worker is running or its delivery counts,
    every fact revision it declared is still the authoritative one. *)
Theorem program_workers_current log p :
  foldConversationProgram log = Ok p ->
  forall w d, w ∈ pj_workers p -> wk_status w = WRunning \/ wk_status w = WDelivered -> d ∈ wk_dependencies w ->
  exists f, f ∈ pj_facts p /\ ft_key f = dp_key d /\ ft_revision f = dp_revision d.
Proof.
  intros (s & Hs & [_ _ _ [W1 W2] _ Hk] & ->)%fold_state w d Hw Hst Hd.
  apply elem_of_sorted_values in Hw as [k Hw]; [|apply Hk]. pose proof (W2 _ _ _ Hw Hst Hd) as Hc.
  unfold is_current in Hc. to_prop. apply fmap_Some in Hc as (f & Hf & Hr). exists f.
  cbn [pj_facts project]. rewrite elem_of_sorted_values by apply Hk. split_and!; [by eauto | by apply (ko_fact_ids _ Hk) | done].
Qed.

(** The caller has heard no more than was released and no more is released than was
    generated; what is reported as unheard is the rest, and a response counts as fully heard
    exactly when nothing is left. *)
Theorem audio_heard_within_released log p :
  foldConversationProgram log = Ok p ->
  forall f, f ∈ pj_audibilityFacts p ->
  let r := aw_response f in
  0 <= au_heardThroughMs r <= au_releasedThroughMs r /\ au_releasedThroughMs r <= au_generatedThroughMs r /\
  aw_unheardMs f = au_generatedThroughMs r - au_heardThroughMs r /\ 0 <= aw_unheardMs f /\
  (aw_fullyHeard f = true <-> aw_unheardMs f = 0).
Proof.
  intros (s & Hs & [_ _ _ _ Ha Hk] & ->)%fold_state f Hf. cbn [pj_audibilityFacts project] in Hf.
  apply list_elem_of_fmap in Hf as (r & -> & Hr). apply elem_of_sorted_values in Hr as [k Hr]; [|apply Hk].
  destruct (Ha _ _ Hr) as (? & ? & ?). cbn. rewrite Z.eqb_eq. lia.
Qed.

(** What an extension of a log keeps. *)
Lemma extension_keeps log log' p p' :
  foldConversationProgram log = Ok p -> foldConversationProgram log' = Ok p' ->
  lg_events log `prefix_of` lg_events log' ->
  pj_capabilityEpoch p <= pj_capabilityEpoch p' /\
  (forall f, f ∈ pj_facts p -> exists f', f' ∈ pj_facts p' /\ ft_key f' = ft_key f /\ ft_revision f <= ft_revision f') /\
  (forall g, g ∈ pj_goals p -> gl_status g = GoalDone -> g ∈ pj_goals p') /\
  (forall r, r ∈ pj_actionReservations p -> rv_status r <> Reserved -> r ∈ pj_actionReservations p') /\
  (forall t, t ∈ pj_actionReceipts p -> t ∈ pj_actionReceipts p') /\
  (forall f, f ∈ pj_audibilityFacts p -> exists f', f' ∈ pj_audibilityFacts p' /\
     heard_later (aw_response f) (aw_response f')).
Proof.
  intros H H' Hpre. destruct (extension_states _ _ _ _ H H' Hpre) as (s & s' & new & -> & -> & Hc & Hc' & Hn & Hp).
  destruct (later_events _ _ _ Hp Hc Hn) as [L1 L2 L3 _ L4 L5 _ _ L6].
  destruct (co_keys _ Hc) as [K1 K2 K3 K4 K5 K6 _ K7 _], (co_keys _ Hc') as [K1' K2' K3' K4' K5' K6' _ K7' _].
  cbn [project pj_capabilityEpoch pj_facts pj_goals pj_actionReservations pj_actionReceipts pj_audibilityFacts].
  split_and!; [done| | | | |].
  - intros f [k Hk]%elem_of_sorted_values; [|done]. destruct (L2 _ _ Hk) as (f' & Hf' & ?). exists f'.
    rewrite elem_of_sorted_values by done. split_and!; [by eauto| |done]. by rewrite (K7 _ _ Hk), (K7' _ _ Hf').
  - intros g [k Hk]%elem_of_sorted_values Hg; [|done]. rewrite elem_of_sorted_values by done. eauto.
  - intros r [k Hk]%elem_of_sorted_values Hr; [|done]. rewrite elem_of_sorted_values by done. eauto.
  - intros t [k Hk]%elem_of_sorted_values; [|done]. rewrite elem_of_sorted_values by done. eauto.
  - intros f (r & -> & [k Hk]%elem_of_sorted_values)%list_elem_of_fmap; [|done].
    destruct (L6 _ _ Hk) as (r' & Hr' & ?). exists (audibility_fact r'). split; [|done].
    apply list_elem_of_fmap_2. rewrite elem_of_sorted_values by done. eauto.
Qed.

(** The past is final: in every extension of a log the capability epoch and the revisions of
    facts only grow, completed goals, settled reservations and receipts stay as they are, and
    playback boundaries only move forward, not at all once the response was interrupted. *)
Theorem program_history_final log log' p p' :
  foldConversationProgram log = Ok p -> foldConversationProgram log' = Ok p' ->
  lg_events log `prefix_of` lg_events log' ->
  pj_capabilityEpoch p <= pj_capabilityEpoch p' /\
  (forall f, f ∈ pj_facts p -> exists f', f' ∈ pj_facts p' /\ ft_key f' = ft_key f /\ ft_revision f <= ft_revision f') /\
  (forall g, g ∈ pj_goals p -> gl_status g = GoalDone -> g ∈ pj_goals p') /\
  (forall r, r ∈ pj_actionReservations p -> rv_status r <> Reserved -> r ∈ pj_actionReservations p') /\
  (forall t, t ∈ pj_actionReceipts p -> t ∈ pj_actionReceipts p') /\
  (forall f, f ∈ pj_audibilityFacts p -> exists f', f' ∈ pj_audibilityFacts p' /\
     heard_later (aw_response f) (aw_response f')).
Proof. apply extension_keeps. Qed.

(** A goal is lost for good once a worker it requires was superseded or cancelled, its flow
    failed or finished before the current epoch, or an effect of it is indeterminate: no
    extension of the log completes it. *)
Theorem lost_goal_never_completes log log' p p' goalId :
  foldConversationProgram log = Ok p -> foldConversationProgram log' = Ok p' ->
  lg_events log `prefix_of` lg_events log' ->
  (forall g, g ∈ pj_goals p -> gl_goalId g = goalId -> gl_status g <> GoalDone) ->
  (exists w, w ∈ pj_workers p /\ lost_worker goalId w) \/
  (exists c, c ∈ pj_flowCheckpoints p /\ fc_goalId c.1 = goalId /\ spent_checkpoint (pj_capabilityEpoch p) c.1) \/
  (exists r, r ∈ pj_actionReservations p /\ unknown_effect goalId r) ->
  forall g, g ∈ pj_goals p' -> gl_goalId g = goalId -> gl_status g <> GoalDone.
Proof.
  intros H H' Hpre Hu Hlost. destruct (extension_states _ _ _ _ H H' Hpre) as (s & s' & new & -> & -> & Hc & Hc' & Hn & Hp).
  destruct (co_keys _ Hc) as [K1 K2 K3 K4 K5 K6 Kc K7 K8], (co_keys _ Hc') as [_ K2' _ _ _ _ _ _ _].
  cbn [project pj_goals pj_workers pj_flowCheckpoints pj_actionReservations pj_capabilityEpoch] in *.
  assert (undone s' goalId) as Hd.
  { apply (dead_events goalId new s s' Hp Hc Hn).
    - destruct Hlost as [(w & Hw & ?)|[(c & Hcp & <- & ?)|(r & Hr & ?)]].
      + apply elem_of_sorted_values in Hw as [k Hk]; [|done]. left; eauto.
      + apply elem_of_sorted_values in Hcp as [k Hk]; [|done]. right; left. exists c. by rewrite (K8 _ _ Hk).
      + apply elem_of_sorted_values in Hr as [k Hk]; [|done]. right; right; eauto.
    - intros g Hg. apply (Hu g); [apply elem_of_sorted_values; eauto|]. by apply (fo_goals _ (co_focus _ Hc)) in Hg as [? _]. }
  intros g [k Hk]%elem_of_sorted_values Hid; [|done].
  destruct (fo_goals _ (co_focus _ Hc') _ _ Hk) as [Hk' _]. apply Hd. congruence.
Qed.

(** C28. A goal can always be completed when nothing stands against it: a waiting goal without a
    flow checkpoint, whose obligations are settled, whose effects are determinate and whose
    required workers have delivered, is completed by focusing and completing it. *)
Theorem waiting_goal_completes log p goalId g e1 e2 :
  foldConversationProgram log = Ok p -> g ∈ pj_goals p -> gl_goalId g = goalId ->
  gl_status g = Queued \/ gl_status g = Suspended ->
  (forall o, o ∈ pj_obligations p -> blocks_goal goalId o = false) ->
  (forall c, c ∈ pj_flowCheckpoints p -> fc_goalId c.1 <> goalId) ->
  (forall r, r ∈ pj_actionReservations p -> ~ unknown_effect goalId r) ->
  (forall w, w ∈ pj_workers p -> incomplete_worker goalId w = false) ->
  ed_payload (ev_draft e1) = GoalFocused goalId -> ed_expectedRevision (ev_draft e1) = ev_sequence e1 - 1 ->
  ed_payload (ev_draft e2) = GoalCompleted goalId -> ed_expectedRevision (ev_draft e2) = ev_sequence e2 - 1 ->
  exists s', applyEvents emptyProjection (lg_events log ++ [e1; e2]) = Ok s' /\
    exists g', own goalId (s_goals s') = Some g' /\ gl_status g' = GoalDone.
Proof.
  intros (s & Hs & Hc & ->)%fold_state Hg Hid Hst Ho Hcp Hr Hw E1 R1 E2 R2. rewrite program_applyEvents_app, Hs.
  cbn [project pj_goals pj_obligations pj_flowCheckpoints pj_actionReservations pj_workers] in *.
  apply elem_of_sorted_values in Hg as [k Hk]; [|apply Hc].
  destruct (fo_goals _ (co_focus _ Hc) _ _ Hk) as [Hkk _]. rewrite Hid in Hkk. subst k. clear Hid.
  cbn [bind_result applyEvents]. unfold applyEvent. rewrite E1, E2, R1, R2, !Z.eqb_refl. cbn [negb].
  rewrite (focus_waiting _ _ _ (co_focus _ Hc) Hk Hst). cbn [bind_result].
  rewrite complete_waiting; [cbn [bind_result]| | | |].
  - eexists. split; [done|]. cbn. rewrite own_put_eq. eauto.
  - intros kv Hkv. apply Ho. by apply program_elem_of_values.
  - destruct (own goalId (s_flowCheckpoints s)) as [c|] eqn:Ec; [|done]. exfalso.
    apply (Hcp c); [apply elem_of_sorted_values; [apply Hc | eauto]|]. by apply (ko_checkpoint_ids _ (co_keys _ Hc)).
  - intros kv Hkv. apply Hr. by apply program_elem_of_values.
  - intros kv Hkv. apply Hw. by apply program_elem_of_values.
Qed.
End Logs.
