(* ===== verification/ProgramDemo.v ===== *)
(** * A worked conversation program, and what modelling it showed

    A refund: a fact, a goal with its capability frontier, one effect, one worker and one
    answer that the caller hears; then the traces on which a goal becomes impossible to
    complete. *)

From S2P Require Import Prelude JsValue JsText Canonical Graph Flow FlowValidate FlowRuntime.
From S2P Require Import Program ProgramInvariant ProgramHistory ProgramSafety.
Import Program.

Local Open Scope Z_scope.
#[local] Existing Instance demo_sha256.

Definition demo_iso_offset : IsoOffsetDatetime := fun s => bool_decide (s <> []).
#[local] Existing Instance demo_iso_offset.

Definition digest : jstr := replicate 64 97%N.
Definition operator : ProgramAuthority := {| pa_kind := ByOperator; pa_evidenceSha256 := digest |}.
Definition refund : jstr := js "refund".

(** Drafts with consecutive expected revisions. *)
Fixpoint drafts (n : nat) (ps : list Payload) : list EventDraft :=
  match ps with
  | [] => []
  | p :: ps => {| ed_eventId := js "e" ++ N_of_ascii (ascii_of_nat (97 + n)) :: []; ed_expectedRevision := Z.of_nat n;
                  ed_occurredAt := js "2026-01-01T00:00:00Z"; ed_payload := p |} :: drafts (S n) ps
  end.

Definition demo_deps : list FactDependency := [{| dp_key := js "balance"; dp_revision := 1 |}].
Definition delivery (id : string) (epoch : Z) : Payload :=
  WorkerDeliveryRecorded (js id) (js "w") refund epoch demo_deps digest.

Definition opening : list Payload :=
  [ FactAsserted (js "balance") (JNum (num_of_Z 40)) operator; GoalOpened refund (js " refund the caller ");
    GoalFocused refund; CapabilityEpochAdvanced 1 2 [js "pay"] (js "focus") ].
Definition effect : list Payload :=
  [ ActionReserved (js "res") refund (js "pay") digest (js "key") 2 4;
    ActionReceiptRecorded (js "rec") (js "res") RSucceeded (Some digest) digest ].
Definition work : list Payload := [ WorkerSpawned (js "w") refund (js "check") 2 demo_deps true; delivery "d1" 2 ].
Definition speech : list Payload :=
  [ AudibilityResponseRegistered (js "say") 900 digest digest; AudibilityReleasedThrough (js "say") 900 digest;
    AudibilityHeardThrough (js "say") 700 digest ].

Definition new_log : ProgramLog := {| lg_schemaVersion := 1; lg_programId := js "p"; lg_events := [] |}.
Definition run (ps : list Payload) : ProgramLog :=
  match appendConversationProgramEvents new_log (drafts 0 ps) with Ok log => log | Err _ => new_log end.
Definition view (ps : list Payload) : Projection :=
  match foldConversationProgram (run ps) with Ok p => p | Err _ => project new_log emptyProjection end.

Definition demo : list Payload := opening ++ effect ++ work ++ speech.
Definition finished_demo : list Payload := demo ++ [GoalCompleted refund].

(** The log of the finished demo, built in two appends. *)
Definition last_drafts : list EventDraft := drop (length demo) (drafts 0 finished_demo).

Lemma demo_built : built_from ([] ++ drafts 0 demo ++ last_drafts) (run finished_demo).
Proof.
  rewrite app_assoc. apply (from_append _ (run demo)); [apply (from_append _ new_log); [by apply (from_new (js "p"))|]|];
    vm_compute; reflexivity.
Qed.

(** Runs that fold. *)
Lemma view_ok ps : is_ok (foldConversationProgram (run ps)) = true -> foldConversationProgram (run ps) = Ok (view ps).
Proof. unfold view. by destruct (foldConversationProgram (run ps)). Qed.

Lemma demo_folds : foldConversationProgram (run demo) = Ok (view demo).
Proof. apply view_ok. vm_compute. reflexivity. Qed.
Lemma finished_folds : foldConversationProgram (run finished_demo) = Ok (view finished_demo).
Proof. apply view_ok. vm_compute. reflexivity. Qed.
Lemma finished_extends : lg_events (run demo) `prefix_of` lg_events (run finished_demo).
Proof. exists (drop 11 (lg_events (run finished_demo))). vm_compute. reflexivity. Qed.

(** Drafts of the first append leave the log alone after the second. *)
Lemma built_log_verifies_witness :
  Forall (fun e => parse_event e = Some e) (lg_events (run finished_demo)) /\
  appendConversationProgramEvents (run finished_demo) (reverse (drafts 0 demo)) = Ok (run finished_demo).
Proof.
  destruct (built_log_verifies _ _ demo_built) as (_ & _ & Hp & _ & H). split; [exact Hp|].
  apply H. intros d Hd. apply elem_of_reverse in Hd. apply elem_of_app. right. apply elem_of_app. left. exact Hd.
Defined.

Definition demo_goal : ProgramGoal := mkGoal refund (js "refund the caller") Focused 2 1 None.

Lemma program_authority_in_focus_witness :
  pj_focusedGoal (view demo) = Some demo_goal.
Proof.
  apply (proj1 (program_authority_in_focus _ _ demo_folds) demo_goal); [|reflexivity].
  assert (pj_goals (view demo) = [demo_goal]) as -> by (vm_compute; reflexivity). left.
Defined.

Lemma program_receipts : rp_receiptId <$> pj_actionReceipts (view demo) = [js "rec"].
Proof. vm_compute. reflexivity. Qed.

Lemma program_effects_once_witness :
  exists r, r ∈ pj_actionReservations (view demo) /\ rv_receiptId r = Some (js "rec").
Proof.
  destruct (program_effects_once _ _ demo_folds) as (H & _). pose proof program_receipts as Hr.
  destruct (pj_actionReceipts (view demo)) as [|t l]; [discriminate Hr|]. injection Hr as Hid _.
  destruct (H t) as (r & H1 & _ & _ & H2); [left|]. exists r. rewrite <- Hid. exact (conj H1 H2).
Defined.

Lemma demo_workers : exists w, w ∈ pj_workers (view demo) /\ wk_status w = WDelivered /\ wk_dependencies w = demo_deps.
Proof. vm_compute. eexists. split; [left | split; reflexivity]. Qed.

Lemma program_workers_current_witness :
  exists f, f ∈ pj_facts (view demo) /\ ft_key f = js "balance" /\ ft_revision f = 1.
Proof.
  destruct demo_workers as (w & H1 & H2 & H3).
  apply (program_workers_current _ _ demo_folds w {| dp_key := js "balance"; dp_revision := 1 |} H1 (or_intror H2)).
  rewrite H3. left.
Defined.

Lemma demo_speech : exists f, f ∈ pj_audibilityFacts (view demo) /\ aw_unheardMs f = 200.
Proof. vm_compute. eexists. split; [left | reflexivity]. Qed.

Lemma program_history_final_witness :
  Forall (fun t => t ∈ pj_actionReceipts (view finished_demo)) (pj_actionReceipts (view demo)).
Proof.
  apply Forall_forall. apply (program_history_final _ _ _ _ demo_folds finished_folds finished_extends).
Defined.

(** ** Progress *)

Definition waiting : list Payload := [GoalOpened refund (js "refund")].
Lemma waiting_folds : foldConversationProgram (run waiting) = Ok (view waiting).
Proof. apply view_ok. vm_compute. reflexivity. Qed.

Definition waiting_goal : ProgramGoal := mkGoal refund (js "refund") Queued 1 0 None.
Definition next_event (n : Z) (p : Payload) : ProgramEvent :=
  {| ev_schemaVersion := 1; ev_programId := js "p"; ev_sequence := n; ev_previousSha256 := digest;
     ev_draft := {| ed_eventId := js "next"; ed_expectedRevision := n - 1; ed_occurredAt := js "2026-01-01T00:00:00Z";
                    ed_payload := p |}; ev_eventSha256 := digest |}.

Lemma waiting_goal_completes_witness :
  exists s', applyEvents emptyProjection
    (lg_events (run waiting) ++ [next_event 2 (GoalFocused refund); next_event 3 (GoalCompleted refund)]) = Ok s' /\
    exists g', own refund (s_goals s') = Some g' /\ gl_status g' = GoalDone.
Proof.
  assert (pj_goals (view waiting) = [waiting_goal]) as Hg by (vm_compute; reflexivity).
  assert (pj_obligations (view waiting) = []) as Ho by (vm_compute; reflexivity).
  assert (pj_flowCheckpoints (view waiting) = []) as Hc by (vm_compute; reflexivity).
  assert (pj_actionReservations (view waiting) = []) as Hr by (vm_compute; reflexivity).
  assert (pj_workers (view waiting) = []) as Hw by (vm_compute; reflexivity).
  refine (waiting_goal_completes _ _ refund waiting_goal (next_event 2 (GoalFocused refund))
    (next_event 3 (GoalCompleted refund)) waiting_folds _ eq_refl (or_introl eq_refl)
    _ _ _ _ eq_refl eq_refl eq_refl eq_refl); rewrite ?Hg, ?Ho, ?Hc, ?Hr, ?Hw; [left|..]; intros x Hx; inversion Hx.
Defined.

(** A second delivery for the worker, under a new id. *)
Definition late : list Payload := demo ++ [delivery "d2" 2].
Definition later_late : list Payload := late ++ [GoalSuspended refund (js "later")].
Lemma late_folds : foldConversationProgram (run late) = Ok (view late).
Proof. apply view_ok. vm_compute. reflexivity. Qed.
Lemma later_late_folds : foldConversationProgram (run later_late) = Ok (view later_late).
Proof. apply view_ok. vm_compute. reflexivity. Qed.
Lemma late_extends : lg_events (run late) `prefix_of` lg_events (run later_late).
Proof. exists (drop 12 (lg_events (run later_late))). vm_compute. reflexivity. Qed.
Lemma late_lost : exists w, w ∈ pj_workers (view late) /\ lost_worker refund w.
Proof. vm_compute. eexists. split; [left|]. split_and!; [reflexivity.. | left; reflexivity]. Qed.
Lemma late_undone : forall g, g ∈ pj_goals (view late) -> gl_goalId g = refund -> gl_status g <> GoalDone.
Proof.
  assert (pj_goals (view late) = [demo_goal]) as -> by (vm_compute; reflexivity).
  intros g Hg _. apply list_elem_of_singleton in Hg as ->. discriminate.
Qed.

(** ** What modelling showed *)

Definition completes (ps : list Payload) : bool :=
  match appendConversationProgramEvents new_log (drafts 0 (ps ++ [GoalCompleted refund])) with
  | Ok _ => true
  | Err _ => false
  end.

(** A delivered worker whose result is delivered once more, under a new delivery id, is marked
    superseded although its own delivery was accepted; the goal that requires it can no longer
    be completed. *)
Example second_delivery_loses_goal :
  completes demo = true /\ completes late = false /\ is_ok (foldConversationProgram (run late)) = true /\
  (wk_status <$> pj_workers (view late)) = [WSuperseded] /\
  (dv_accepted <$> pj_workerDeliveries (view late)) = [true; false].
Proof. vm_compute. repeat split; reflexivity. Qed.

Definition finished_checkpoint : FlowCheckpoint :=
  {| fc_goalId := refund; fc_flowId := js "flow"; fc_flowVersion := js "1"; fc_flowRevision := 1;
     fc_capabilityEpoch := 2; fc_status := Completed; fc_nodeId := None; fc_stepPath := None;
     fc_completedStepCount := 3; fc_stateSha256 := digest |}.

(** A fact asserted after the flow of a goal has finished advances the epoch; the terminal
    checkpoint is then stale and cannot be replaced, so the goal can no longer be completed. *)
Example late_fact_loses_finished_goal :
  let done := opening ++ [FlowCheckpointRecorded finished_checkpoint] in
  let after := done ++ [FactAsserted (js "mood") (JStr (js "happy")) operator] in
  completes done = true /\ completes after = false /\ is_ok (foldConversationProgram (run after)) = true /\
  pj_capabilityEpoch (view after) = 3.
Proof. vm_compute. repeat split; reflexivity. Qed.

(** What an obligation blocks is not looked at: one that blocks irreversible actions only
    keeps a goal from completing and no action from being reserved. *)
Example blocks_is_ignored :
  let open := opening ++
    [ObligationOpened (js "ob") (js "audit") (js "audit") OwnHuman BlocksIrreversible None (js "src")] in
  completes opening = true /\ completes open = false /\
  is_ok (appendConversationProgramEvents new_log
    (drafts 0 (open ++ [ActionReserved (js "res") refund (js "pay") digest (js "key") 2 5]))) = true.
Proof. vm_compute. repeat split; reflexivity. Qed.
