(* ===== verification/TurnContract.v ===== *)
(** * The turn contract (src/web/lib/runtime-control/turn-contract.ts, canonical.ts)

    Before every turn the host commits to what the model may do and say: the frontier of
    actions, the claims it may and must not make, and the receipts behind them. Inputs are
    taken with their static types, so that they are inert JSON; [..._ok] functions are the
    rest of the zod schemas. A thrown [TurnContractError] is [Err] with its code and a short
    name. *)

From S2P Require Import Prelude JsValue JsText Canonical Graph Flow FlowValidate FlowRuntime.

Local Open Scope Z_scope.

Module TurnContract.

Definition HACC_TURN_CONTRACT_VERSION : string := "hacc-production-turn-contract.v1".
Definition MAX_TURN_CONTRACT_PAYLOAD_BYTES : Z := 32768.
Definition MAX_SAFE_INTEGER : Z := 9007199254740991.
Definition POLICY_DOMAIN : string := "harshas-amazing-call-center/runtime-control/turn-contract-policy/v1".
Definition CONTRACT_DOMAIN : string := "harshas-amazing-call-center/runtime-control/turn-contract/v1".

(** ** Data *)

Inductive Mode : Type := FlowMode | MissionMode | UnifiedMode.
Inductive Effect : Type := Read | Write | Opaque.
#[export] Instance effect_eq_dec : EqDecision Effect.
Proof. solve_decision. Defined.
Inductive ReceiptStatus : Type := RReserved | RSucceeded | RFailed | RIndeterminate | RCompensated.
#[export] Instance receipt_status_eq_dec : EqDecision ReceiptStatus.
Proof. solve_decision. Defined.
Inductive OutcomeAuthority : Type := Informational | EffectOutcome | TerminalOutcome.
#[export] Instance outcome_authority_eq_dec : EqDecision OutcomeAuthority.
Proof. solve_decision. Defined.
Inductive OutcomeStatus : Type := OSatisfied | ONotSatisfied | OUnverified.
#[export] Instance outcome_status_eq_dec : EqDecision OutcomeStatus.
Proof. solve_decision. Defined.
Inductive WorkerStatus : Type :=
| WPending | WRunning | WCancelRequested | WSucceeded | WFailed | WCancelled | WIndeterminate.
#[export] Instance worker_status_eq_dec : EqDecision WorkerStatus.
Proof. solve_decision. Defined.
Inductive SlotStatus : Type := SlotPresent | SlotMissing.
Inductive Purpose : Type := Operation | Reconciliation.
#[export] Instance purpose_eq_dec : EqDecision Purpose.
Proof. solve_decision. Defined.
Inductive ClaimClass : Type := Progress | Clarification | Handoff | EffectSuccess | TerminalSuccess.
#[export] Instance claim_class_eq_dec : EqDecision ClaimClass.
Proof. solve_decision. Defined.
Inductive ProhibitedClass : Type := PPrivateValue | PEffectSuccess | PTerminalSuccess | PAmbiguousRetry | PUnsupported.
Inductive LifecycleStatus : Type := LRouting | LActive | LCompleted | LFailed.
#[export] Instance lifecycle_status_eq_dec : EqDecision LifecycleStatus.
Proof. solve_decision. Defined.
Inductive PreferredMode : Type := PrRoute | PrClarify | PrAct | PrAwaitWorker | PrTerminal.
#[export] Instance preferred_mode_eq_dec : EqDecision PreferredMode.
Proof. solve_decision. Defined.
Inductive ResponseMode : Type :=
| MRoute | MClarify | MAct | MReconcile | MAwaitWorker | MRecover | MTerminal | MFailClosed.
#[export] Instance response_mode_eq_dec : EqDecision ResponseMode.
Proof. solve_decision. Defined.

Record PlaneState := { pl_revision : Z; pl_capability_epoch : Z; pl_state_sha256 : jstr }.
Record ControlPlane := { cp_mode : Mode; cp_flow : option PlaneState; cp_mission : option PlaneState }.
Record ConversationRef := { cv_conversation_id : jstr; cv_revision : Z; cv_head_sha256 : jstr }.

Record Receipt := {
  rc_receipt_id : jstr;
  rc_action_id : jstr;
  rc_action_semantic_sha256 : jstr;
  rc_effect : Effect;
  rc_capability_epoch : Z;
  rc_status : ReceiptStatus;
  rc_outcome_authority : OutcomeAuthority;
  rc_outcome_predicate_sha256 : jstr;
  rc_outcome_status : OutcomeStatus;
  rc_settled_revision : option Z;
  rc_receipt_sha256 : jstr;
}.

Record Worker := {
  wk_worker_id : jstr;
  wk_goal_id : jstr;
  wk_generation : Z;
  wk_status : WorkerStatus;
  wk_authority_revision : Z;
  wk_capability_epoch : Z;
  wk_authority_sha256 : jstr;
}.

Record Slot := { sl_slot_id : jstr; sl_status : SlotStatus }.
Record Action := {
  ac_action_id : jstr; ac_effect : Effect; ac_purpose : Purpose; ac_policy_sha256 : jstr; ac_semantic_sha256 : jstr
}.
Record AllowedClaim := {
  al_claim_id : jstr;
  al_claim_class : ClaimClass;
  al_supporting_receipt_id : option jstr;
  al_supporting_action_id : option jstr;
  al_required_action_semantic_sha256 : option jstr;
  al_required_outcome_predicate_sha256 : option jstr;
  al_claim_semantic_sha256 : jstr;
}.
Record ProhibitedClaim := { ph_claim_id : jstr; ph_claim_class : ProhibitedClass; ph_reason_code : jstr }.
Record Ambiguity := {
  am_ambiguity_id : jstr; am_reason_code : jstr; am_receipt_id : option jstr; am_designated : list jstr
}.
Record Lifecycle := { lf_status : LifecycleStatus; lf_refresh_required : bool; lf_preferred : PreferredMode }.

Record Source := mkSource {
  so_conversation : ConversationRef;
  so_registry_sha256 : jstr;
  so_control_plane : ControlPlane;
  so_capability_epoch : Z;
  so_eligible_intents : list jstr;
  so_eligible_actions : list Action;
  so_required_slots : list Slot;
  so_allowed : list AllowedClaim;
  so_prohibited : list ProhibitedClaim;
  so_receipts : list Receipt;
  so_workers : list Worker;
  so_ambiguities : list Ambiguity;
  so_lifecycle : Lifecycle;
}.

Record Freshness := {
  fs_conversation_id : jstr;
  fs_conversation_revision : Z;
  fs_conversation_head_sha256 : jstr;
  fs_flow_revision : option Z;
  fs_flow_state_sha256 : option jstr;
  fs_mission_revision : option Z;
  fs_mission_state_sha256 : option jstr;
  fs_capability_epoch : Z;
  fs_registry_sha256 : jstr;
}.

(** The payload has the fields of the source, filtered, with the response mode and constants. *)
Record Payload := mkPayload { py_policy_sha256 : jstr; py_source : Source; py_response_mode : ResponseMode }.
Record Contract := mkContract { ct_payload : Payload; ct_byte_length : Z; ct_sha256 : jstr }.
Record Expectation := { ex_freshness : Freshness; ex_contract_sha256 : jstr }.

Inductive ErrorCode : Type := Invalid | Stale | Ambiguous.
Definition TurnContractError : Type := ErrorCode * string.

(** ** Schemas *)

(** [/^[a-z][a-z0-9._:/-]*$/], at most 128 characters. *)
Definition PublicIdSchema (s : jstr) : bool :=
  match s with
  | c :: r => is_lower c && forallb (fun c => is_lower c || is_digit c || one_of "._:/-" c) r && (length s <=? 128)%nat
  | [] => false
  end.
Definition RevisionSchema (z : Z) : bool := (0 <=? z) && (z <=? MAX_SAFE_INTEGER).
Definition at_most {A} (n : nat) (l : list A) : bool := (length l <=? n)%nat.

Definition PlaneState_ok (p : PlaneState) : bool :=
  RevisionSchema (pl_revision p) && RevisionSchema (pl_capability_epoch p) && is_sha256 (pl_state_sha256 p).
Definition ControlPlaneSchema_ok (c : ControlPlane) : bool :=
  opt_all PlaneState_ok (cp_flow c) && opt_all PlaneState_ok (cp_mission c) &&
  match cp_mode c, cp_flow c, cp_mission c with
  | FlowMode, Some _, None | MissionMode, None, Some _ | UnifiedMode, Some _, Some _ => true
  | _, _, _ => false
  end.
Definition ReceiptSchema_ok (r : Receipt) : bool :=
  PublicIdSchema (rc_receipt_id r) && PublicIdSchema (rc_action_id r) && is_sha256 (rc_action_semantic_sha256 r) &&
  RevisionSchema (rc_capability_epoch r) && is_sha256 (rc_outcome_predicate_sha256 r) &&
  opt_all RevisionSchema (rc_settled_revision r) && is_sha256 (rc_receipt_sha256 r) &&
  negb (eqb (bool_decide (rc_status r = RReserved)) (bool_decide (rc_settled_revision r <> None))) &&
  negb (bool_decide (rc_effect r = Read) && negb (bool_decide (rc_outcome_authority r = Informational))) &&
  negb (negb (bool_decide (rc_status r = RSucceeded)) && bool_decide (rc_outcome_status r = OSatisfied)).
Definition WorkerSchema_ok (w : Worker) : bool :=
  PublicIdSchema (wk_worker_id w) && PublicIdSchema (wk_goal_id w) && (1 <=? wk_generation w) &&
  (wk_generation w <=? MAX_SAFE_INTEGER) && RevisionSchema (wk_authority_revision w) &&
  RevisionSchema (wk_capability_epoch w) && is_sha256 (wk_authority_sha256 w).
Definition ActionSchema_ok (a : Action) : bool :=
  PublicIdSchema (ac_action_id a) && is_sha256 (ac_policy_sha256 a) && is_sha256 (ac_semantic_sha256 a) &&
  negb (bool_decide (ac_purpose a = Reconciliation) && negb (bool_decide (ac_effect a = Read))).
Definition AllowedClaimSchema_ok (c : AllowedClaim) : bool :=
  PublicIdSchema (al_claim_id c) && opt_all PublicIdSchema (al_supporting_receipt_id c) &&
  opt_all PublicIdSchema (al_supporting_action_id c) && opt_all is_sha256 (al_required_action_semantic_sha256 c) &&
  opt_all is_sha256 (al_required_outcome_predicate_sha256 c) && is_sha256 (al_claim_semantic_sha256 c).
Definition ProhibitedClaimSchema_ok (c : ProhibitedClaim) : bool :=
  PublicIdSchema (ph_claim_id c) && PublicIdSchema (ph_reason_code c).
Definition AmbiguitySchema_ok (a : Ambiguity) : bool :=
  PublicIdSchema (am_ambiguity_id a) && PublicIdSchema (am_reason_code a) && opt_all PublicIdSchema (am_receipt_id a) &&
  forallb PublicIdSchema (am_designated a) && at_most 32 (am_designated a).

(** The schema of a source and of a payload, which differ in the number of prohibited claims. *)
Definition source_ok (prohibited : nat) (s : Source) : bool :=
  PublicIdSchema (cv_conversation_id (so_conversation s)) && RevisionSchema (cv_revision (so_conversation s)) &&
  is_sha256 (cv_head_sha256 (so_conversation s)) && is_sha256 (so_registry_sha256 s) &&
  ControlPlaneSchema_ok (so_control_plane s) && RevisionSchema (so_capability_epoch s) &&
  forallb PublicIdSchema (so_eligible_intents s) && at_most 256 (so_eligible_intents s) &&
  forallb ActionSchema_ok (so_eligible_actions s) && at_most 1024 (so_eligible_actions s) &&
  forallb (fun l => PublicIdSchema (sl_slot_id l)) (so_required_slots s) && at_most 256 (so_required_slots s) &&
  forallb AllowedClaimSchema_ok (so_allowed s) && at_most 256 (so_allowed s) &&
  forallb ProhibitedClaimSchema_ok (so_prohibited s) && at_most prohibited (so_prohibited s) &&
  forallb ReceiptSchema_ok (so_receipts s) && at_most 1024 (so_receipts s) &&
  forallb WorkerSchema_ok (so_workers s) && at_most 256 (so_workers s) &&
  forallb AmbiguitySchema_ok (so_ambiguities s) && at_most 64 (so_ambiguities s).
Definition TurnContractSourceSchema_ok : Source -> bool := source_ok 252.

Definition TurnContractFreshnessSchema_ok (f : Freshness) : bool :=
  PublicIdSchema (fs_conversation_id f) && RevisionSchema (fs_conversation_revision f) &&
  is_sha256 (fs_conversation_head_sha256 f) && opt_all RevisionSchema (fs_flow_revision f) &&
  opt_all is_sha256 (fs_flow_state_sha256 f) && opt_all RevisionSchema (fs_mission_revision f) &&
  opt_all is_sha256 (fs_mission_state_sha256 f) && RevisionSchema (fs_capability_epoch f) &&
  is_sha256 (fs_registry_sha256 f).

(** ** JSON *)

Definition mode_text (m : Mode) : string :=
  match m with FlowMode => "flow" | MissionMode => "mission" | UnifiedMode => "unified" end.
Definition effect_text (e : Effect) : string :=
  match e with Read => "read" | Write => "write" | Opaque => "opaque" end.
Definition receipt_status_text (s : ReceiptStatus) : string :=
  match s with
  | RReserved => "reserved" | RSucceeded => "succeeded" | RFailed => "failed" | RIndeterminate => "indeterminate"
  | RCompensated => "compensated"
  end.
Definition outcome_authority_text (o : OutcomeAuthority) : string :=
  match o with Informational => "informational" | EffectOutcome => "effect" | TerminalOutcome => "terminal" end.
Definition outcome_status_text (o : OutcomeStatus) : string :=
  match o with OSatisfied => "satisfied" | ONotSatisfied => "not_satisfied" | OUnverified => "unverified" end.
Definition worker_status_text (s : WorkerStatus) : string :=
  match s with
  | WPending => "pending" | WRunning => "running" | WCancelRequested => "cancel_requested" | WSucceeded => "succeeded"
  | WFailed => "failed" | WCancelled => "cancelled" | WIndeterminate => "indeterminate"
  end.
Definition slot_status_text (s : SlotStatus) : string := match s with SlotPresent => "present" | SlotMissing => "missing" end.
Definition purpose_text (p : Purpose) : string :=
  match p with Operation => "operation" | Reconciliation => "reconciliation" end.
Definition claim_class_text (c : ClaimClass) : string :=
  match c with
  | Progress => "progress" | Clarification => "clarification" | Handoff => "handoff"
  | EffectSuccess => "effect_success" | TerminalSuccess => "terminal_success"
  end.
Definition prohibited_class_text (c : ProhibitedClass) : string :=
  match c with
  | PPrivateValue => "private_value" | PEffectSuccess => "effect_success" | PTerminalSuccess => "terminal_success"
  | PAmbiguousRetry => "ambiguous_retry" | PUnsupported => "unsupported"
  end.
Definition lifecycle_text (s : LifecycleStatus) : string :=
  match s with LRouting => "routing" | LActive => "active" | LCompleted => "completed" | LFailed => "failed" end.
Definition preferred_text (m : PreferredMode) : string :=
  match m with
  | PrRoute => "route" | PrClarify => "clarify" | PrAct => "act" | PrAwaitWorker => "await_worker"
  | PrTerminal => "terminal"
  end.
Definition response_mode_text (m : ResponseMode) : string :=
  match m with
  | MRoute => "route" | MClarify => "clarify" | MAct => "act" | MReconcile => "reconcile" | MAwaitWorker => "await_worker"
  | MRecover => "recover" | MTerminal => "terminal" | MFailClosed => "fail_closed"
  end.

Definition texts (l : list jstr) : jsval := JArr (JStr <$> l).
Definition nullable_nat (o : option Z) : jsval := from_option jnat JNull o.

Definition plane_json (p : PlaneState) : jsval :=
  JObj (field "revision" (jnat (pl_revision p)) ++ field "capability_epoch" (jnat (pl_capability_epoch p)) ++
    field "state_sha256" (JStr (pl_state_sha256 p))).
Definition receipt_json (r : Receipt) : jsval :=
  JObj (field "receipt_id" (JStr (rc_receipt_id r)) ++ field "action_id" (JStr (rc_action_id r)) ++
    field "action_semantic_sha256" (JStr (rc_action_semantic_sha256 r)) ++
    field "effect" (jtext (effect_text (rc_effect r))) ++ field "capability_epoch" (jnat (rc_capability_epoch r)) ++
    field "status" (jtext (receipt_status_text (rc_status r))) ++
    field "outcome_authority" (jtext (outcome_authority_text (rc_outcome_authority r))) ++
    field "outcome_predicate_sha256" (JStr (rc_outcome_predicate_sha256 r)) ++
    field "outcome_status" (jtext (outcome_status_text (rc_outcome_status r))) ++
    field "settled_revision" (nullable_nat (rc_settled_revision r)) ++
    field "receipt_sha256" (JStr (rc_receipt_sha256 r))).
Definition worker_json (w : Worker) : jsval :=
  JObj (field "worker_id" (JStr (wk_worker_id w)) ++ field "goal_id" (JStr (wk_goal_id w)) ++
    field "generation" (jnat (wk_generation w)) ++ field "status" (jtext (worker_status_text (wk_status w))) ++
    field "authority_revision" (jnat (wk_authority_revision w)) ++
    field "capability_epoch" (jnat (wk_capability_epoch w)) ++ field "authority_sha256" (JStr (wk_authority_sha256 w))).
Definition action_json (a : Action) : jsval :=
  JObj (field "action_id" (JStr (ac_action_id a)) ++ field "effect" (jtext (effect_text (ac_effect a))) ++
    field "purpose" (jtext (purpose_text (ac_purpose a))) ++ field "policy_sha256" (JStr (ac_policy_sha256 a)) ++
    field "semantic_sha256" (JStr (ac_semantic_sha256 a))).
Definition allowed_json (c : AllowedClaim) : jsval :=
  JObj (field "claim_id" (JStr (al_claim_id c)) ++ field "claim_class" (jtext (claim_class_text (al_claim_class c))) ++
    field "supporting_receipt_id" (nullable (al_supporting_receipt_id c)) ++
    field "supporting_action_id" (nullable (al_supporting_action_id c)) ++
    field "required_action_semantic_sha256" (nullable (al_required_action_semantic_sha256 c)) ++
    field "required_outcome_predicate_sha256" (nullable (al_required_outcome_predicate_sha256 c)) ++
    field "claim_semantic_sha256" (JStr (al_claim_semantic_sha256 c))).
Definition prohibited_json (c : ProhibitedClaim) : jsval :=
  JObj (field "claim_id" (JStr (ph_claim_id c)) ++
    field "claim_class" (jtext (prohibited_class_text (ph_claim_class c))) ++
    field "reason_code" (JStr (ph_reason_code c))).
Definition ambiguity_json (a : Ambiguity) : jsval :=
  JObj (field "ambiguity_id" (JStr (am_ambiguity_id a)) ++ field "reason_code" (JStr (am_reason_code a)) ++
    field "receipt_id" (nullable (am_receipt_id a)) ++
    field "designated_reconciliation_actions" (texts (am_designated a))).
Definition slot_json (l : Slot) : jsval :=
  JObj (field "slot_id" (JStr (sl_slot_id l)) ++ field "status" (jtext (slot_status_text (sl_status l)))).

(** The parts that a source and a payload share. *)
Definition head_fields (s : Source) : obj jsval :=
  field "conversation" (JObj (field "conversation_id" (JStr (cv_conversation_id (so_conversation s))) ++
    field "revision" (jnat (cv_revision (so_conversation s))) ++
    field "head_sha256" (JStr (cv_head_sha256 (so_conversation s))))) ++
  field "public_identifier_registry_sha256" (JStr (so_registry_sha256 s)) ++
  field "control_plane" (JObj (field "mode" (jtext (mode_text (cp_mode (so_control_plane s)))) ++
    field "flow" (from_option plane_json JNull (cp_flow (so_control_plane s))) ++
    field "mission" (from_option plane_json JNull (cp_mission (so_control_plane s))))) ++
  field "capability_epoch" (jnat (so_capability_epoch s)).
Definition tail_fields (s : Source) : obj jsval :=
  field "receipts" (JArr (receipt_json <$> so_receipts s)) ++ field "workers" (JArr (worker_json <$> so_workers s)) ++
  field "ambiguities" (JArr (ambiguity_json <$> so_ambiguities s)) ++
  field "lifecycle" (JObj (field "status" (jtext (lifecycle_text (lf_status (so_lifecycle s)))) ++
    field "refresh_required" (JBool (lf_refresh_required (so_lifecycle s))) ++
    field "preferred_response_mode" (jtext (preferred_text (lf_preferred (so_lifecycle s)))))).

Definition source_json (s : Source) : jsval :=
  JObj (head_fields s ++
    field "frontier" (JObj (field "eligible_intents" (texts (so_eligible_intents s)) ++
      field "eligible_actions" (JArr (action_json <$> so_eligible_actions s)))) ++
    field "required_slots" (JArr (slot_json <$> so_required_slots s)) ++
    field "claims" (JObj (field "allowed" (JArr (allowed_json <$> so_allowed s)) ++
      field "prohibited" (JArr (prohibited_json <$> so_prohibited s)))) ++
    tail_fields s).

Definition payload_json (p : Payload) : jsval :=
  let s := py_source p in
  JObj (field "schema_version" (jnat 1) ++ field "contract_type" (jtext HACC_TURN_CONTRACT_VERSION) ++
    field "policy_sha256" (JStr (py_policy_sha256 p)) ++ head_fields s ++
    field "eligible_intents" (texts (so_eligible_intents s)) ++
    field "eligible_actions" (JArr (action_json <$> so_eligible_actions s)) ++
    field "required_slots" (JArr (slot_json <$> so_required_slots s)) ++
    field "allowed_claims" (JArr (allowed_json <$> so_allowed s)) ++
    field "prohibited_claims" (JArr (prohibited_json <$> so_prohibited s)) ++ tail_fields s ++
    field "response_mode" (jtext (response_mode_text (py_response_mode p))) ++
    field "enforcement" (jtext "host_gateway_and_speech_release_gate") ++
    field "canonical_payload_encoding" (jtext "utf8_canonical_json")).

Definition freshness_json (f : Freshness) : jsval :=
  JObj (field "conversation_id" (JStr (fs_conversation_id f)) ++
    field "conversation_revision" (jnat (fs_conversation_revision f)) ++
    field "conversation_head_sha256" (JStr (fs_conversation_head_sha256 f)) ++
    field "flow_revision" (nullable_nat (fs_flow_revision f)) ++
    field "flow_state_sha256" (nullable (fs_flow_state_sha256 f)) ++
    field "mission_revision" (nullable_nat (fs_mission_revision f)) ++
    field "mission_state_sha256" (nullable (fs_mission_state_sha256 f)) ++
    field "capability_epoch" (jnat (fs_capability_epoch f)) ++
    field "public_identifier_registry_sha256" (JStr (fs_registry_sha256 f))).

Definition policy_json : jsval :=
  JObj (field "version" (jtext HACC_TURN_CONTRACT_VERSION) ++
    field "authority" (jtext "host_state_and_effect_gateway_only") ++
    field "exposure" (jtext "public_identifiers_statuses_and_digests_no_runtime_values") ++
    field "freshness" (jtext "conversation_flow_mission_and_capability_epoch_bound") ++
    field "ambiguity" (jtext "designated_reconciliation_only_otherwise_empty_frontier") ++
    field "provider_context" (jtext "advisory_never_effect_authority")).

(** ** Creating and asserting contracts *)

Section Contract.
Context `{HS : Sha256}.

(** On values of these types the encoder accepts what [canonicalJson] accepts, with the same
    text: there are no accessors, prototypes, holes or cycles. *)
Definition canonicalRuntimeControlJson : jsval -> option jstr := canonicalJson.
Definition runtimeControlSha256 (domain : string) (text : jstr) : jstr := sha256 (js domain ++ [10%N] ++ text).

Definition HACC_TURN_CONTRACT_POLICY_SHA256 : jstr :=
  runtimeControlSha256 POLICY_DOMAIN (default [] (canonicalRuntimeControlJson policy_json)).

Abbreviation error c e := (Err (E := TurnContractError) (c, e%string)).

Definition sortedUniqueBy {A} (id : A -> jstr) (values : list A) : result TurnContractError (list A) :=
  let sorted := sort_by (fun a b => str_ltb (id a) (id b)) values in
  raise (Ambiguous, "contain duplicate identities"%string) when negb (nodupb (id <$> sorted)) ;; Ok sorted.
Definition sortedUniqueIds : list jstr -> result TurnContractError (list jstr) := sortedUniqueBy (fun id => id).

Definition actualFreshness (s : Source) : Freshness :=
  {| fs_conversation_id := cv_conversation_id (so_conversation s);
     fs_conversation_revision := cv_revision (so_conversation s);
     fs_conversation_head_sha256 := cv_head_sha256 (so_conversation s);
     fs_flow_revision := pl_revision <$> cp_flow (so_control_plane s);
     fs_flow_state_sha256 := pl_state_sha256 <$> cp_flow (so_control_plane s);
     fs_mission_revision := pl_revision <$> cp_mission (so_control_plane s);
     fs_mission_state_sha256 := pl_state_sha256 <$> cp_mission (so_control_plane s);
     fs_capability_epoch := so_capability_epoch s;
     fs_registry_sha256 := so_registry_sha256 s |}.

Definition plane_epochs (c : ControlPlane) : list Z :=
  omap (fun p => pl_capability_epoch <$> p) [cp_flow c; cp_mission c].

Definition assertFreshness (s : Source) (expected : Freshness) : result TurnContractError unit :=
  raise (Invalid, "expected freshness is invalid"%string) when negb (TurnContractFreshnessSchema_ok expected) ;;
  raise (Stale, "authority snapshot is stale"%string) when
    negb (bool_decide (canonicalRuntimeControlJson (freshness_json (actualFreshness s)) =
                       canonicalRuntimeControlJson (freshness_json expected))) ;;
  raise (Stale, "capability epochs disagree"%string) when
    existsb (fun e => negb (e =? so_capability_epoch s)) (plane_epochs (so_control_plane s)) ;;
  Ok tt.

Definition terminal (l : Lifecycle) : bool :=
  bool_decide (lf_status l = LCompleted) || bool_decide (lf_status l = LFailed).

Definition responseMode (s : Source) (actions : list Action) : ResponseMode :=
  if lf_refresh_required (so_lifecycle s) then MRecover
  else if bool_decide (so_ambiguities s <> []) then (if bool_decide (actions <> []) then MReconcile else MFailClosed)
  else if terminal (so_lifecycle s) then MTerminal
  else match lf_preferred (so_lifecycle s) with
       | PrAwaitWorker => MAwaitWorker | PrRoute => MRoute | PrClarify => MClarify | PrAct => MAct
       | PrTerminal => MTerminal
       end.

Fixpoint map_result {A B} (f : A -> result TurnContractError B) (l : list A) : result TurnContractError (list B) :=
  match l with
  | [] => Ok []
  | x :: l => let* y := f x in let* ys := map_result f l in Ok (y :: ys)
  end.

Definition normalize_ambiguity (a : Ambiguity) : result TurnContractError Ambiguity :=
  let* designated := sortedUniqueIds (am_designated a) in
  Ok {| am_ambiguity_id := am_ambiguity_id a; am_reason_code := am_reason_code a; am_receipt_id := am_receipt_id a;
        am_designated := designated |}.

Definition normalizeSource (s : Source) : result TurnContractError Source :=
  raise (Invalid, "turn contract source is invalid"%string) when negb (TurnContractSourceSchema_ok s) ;;
  let* intents := sortedUniqueIds (so_eligible_intents s) in
  let* actions := sortedUniqueBy ac_action_id (so_eligible_actions s) in
  let* slots := sortedUniqueBy sl_slot_id (so_required_slots s) in
  let* allowed := sortedUniqueBy al_claim_id (so_allowed s) in
  let* prohibited := sortedUniqueBy ph_claim_id (so_prohibited s) in
  let* receipts := sortedUniqueBy rc_receipt_id (so_receipts s) in
  let* workers := sortedUniqueBy wk_worker_id (so_workers s) in
  let* ambiguities := sortedUniqueBy am_ambiguity_id (so_ambiguities s) in
  let* ambiguities := map_result normalize_ambiguity ambiguities in
  Ok (mkSource (so_conversation s) (so_registry_sha256 s) (so_control_plane s) (so_capability_epoch s) intents actions
        slots allowed prohibited receipts workers ambiguities (so_lifecycle s)).

(** [new Map(list.map((x) => [id(x), x])).get(key)]: the last entry under the key. *)
Definition by_id {A} (id : A -> jstr) (l : list A) (key : jstr) : option A :=
  List.find (fun x => id x =?s key) (reverse l).

(** The checks on one allowed claim. *)
Definition success_class (c : ClaimClass) : bool :=
  match c with EffectSuccess | TerminalSuccess => true | Progress | Clarification | Handoff => false end.

Definition check_success (s : Source) (claim : AllowedClaim) (receipt : Receipt) : result TurnContractError unit :=
  raise (Ambiguous, "success claims require an authoritative settled receipt"%string) when
    negb (bool_decide (rc_status receipt = RSucceeded)) ;;
  raise (Ambiguous, "success claim receipt belongs to a different action"%string) when
    negb (bool_decide (al_supporting_action_id claim = Some (rc_action_id receipt))) ;;
  raise (Ambiguous, "success claim action semantics differ from its receipt"%string) when
    negb (bool_decide (al_required_action_semantic_sha256 claim = Some (rc_action_semantic_sha256 receipt))) ;;
  raise (Ambiguous, "success claim outcome predicate is not authoritatively satisfied"%string) when
    negb (bool_decide (al_required_outcome_predicate_sha256 claim = Some (rc_outcome_predicate_sha256 receipt))) ||
    negb (bool_decide (rc_outcome_status receipt = OSatisfied)) ;;
  raise (Stale, "success claim receipt belongs to a stale capability epoch"%string) when
    negb (rc_capability_epoch receipt =? so_capability_epoch s) ;;
  raise (Stale, "success claim receipt differs from the registered action semantics"%string) when
    match by_id ac_action_id (so_eligible_actions s) (rc_action_id receipt) with
    | Some a => negb (ac_semantic_sha256 a =?s rc_action_semantic_sha256 receipt)
    | None => false
    end ;;
  match al_claim_class claim with
  | TerminalSuccess =>
      raise (Ambiguous, "terminal success claim requires a completed lifecycle"%string) when
        negb (bool_decide (lf_status (so_lifecycle s) = LCompleted)) ;;
      raise (Ambiguous, "terminal success requires an outcome-defining effect receipt"%string) when
        negb (bool_decide (rc_outcome_authority receipt = TerminalOutcome)) || bool_decide (rc_effect receipt = Read) ;;
      Ok tt
  | _ =>
      raise (Ambiguous, "effect success requires an effect-defining mutation receipt"%string) when
        bool_decide (rc_outcome_authority receipt = Informational) || bool_decide (rc_effect receipt = Read) ;;
      Ok tt
  end.

Definition check_claim (s : Source) (claim : AllowedClaim) : result TurnContractError unit :=
  raise (Ambiguous, "a claim cannot be both allowed and prohibited"%string) when
    includes (al_claim_id claim) (ph_claim_id <$> so_prohibited s) ;;
  if success_class (al_claim_class claim) then
    match id ← truthy (al_supporting_receipt_id claim); by_id rc_receipt_id (so_receipts s) id with
    | None => error Ambiguous "success claims require an authoritative settled receipt"
    | Some receipt => check_success s claim receipt
    end
  else
    raise (Ambiguous, "non-success claims cannot cite effect or outcome authority"%string) when
      bool_decide (al_supporting_receipt_id claim <> None) || bool_decide (al_supporting_action_id claim <> None) ||
      bool_decide (al_required_action_semantic_sha256 claim <> None) ||
      bool_decide (al_required_outcome_predicate_sha256 claim <> None) ;;
    Ok tt.

Fixpoint check_all {A} (check : A -> result TurnContractError unit) (l : list A) : result TurnContractError unit :=
  match l with
  | [] => Ok tt
  | x :: l => let* _ := check x in check_all check l
  end.

Definition check_receipt (s : Source) (r : Receipt) : result TurnContractError unit :=
  raise (Stale, "receipt settlement is newer than the conversation head"%string) when
    match rc_settled_revision r with Some n => cv_revision (so_conversation s) <? n | None => false end ;;
  raise (Ambiguous, "indeterminate receipt lacks an ambiguity quarantine"%string) when
    bool_decide (rc_status r = RIndeterminate) && negb (includes (rc_receipt_id r) (omap am_receipt_id (so_ambiguities s))) ;;
  Ok tt.

Definition check_designated (s : Source) (action : jstr) : result TurnContractError unit :=
  match by_id ac_action_id (so_eligible_actions s) action with
  | None => error Ambiguous "designated reconciliation action is outside the capability frontier"
  | Some a =>
      raise (Ambiguous, "designated reconciliation action is not a read-only repair capability"%string) when
        negb (bool_decide (ac_purpose a = Reconciliation)) || negb (bool_decide (ac_effect a = Read)) ;;
      Ok tt
  end.

Definition check_ambiguity (s : Source) (a : Ambiguity) : result TurnContractError unit :=
  raise (Ambiguous, "ambiguity quarantine does not bind an indeterminate receipt"%string) when
    match am_receipt_id a with
    | Some id => negb (bool_decide (rc_status <$> by_id rc_receipt_id (so_receipts s) id = Some RIndeterminate))
    | None => false
    end ;;
  check_all (check_designated s) (am_designated a).

Definition waiting (w : Worker) : bool :=
  includes (wk_status w) [WPending; WRunning; WCancelRequested].
Definition unresolved_worker (w : Worker) : bool := waiting w || bool_decide (wk_status w = WIndeterminate).
Definition unresolved_receipt (r : Receipt) : bool :=
  bool_decide (rc_status r = RReserved) || bool_decide (rc_status r = RIndeterminate).

Definition validateSemantics (s : Source) : result TurnContractError unit :=
  let* _ := check_all (check_claim s) (so_allowed s) in
  let* _ := check_all (check_receipt s) (so_receipts s) in
  raise (Stale, "worker authority is newer than the conversation head"%string) when
    existsb (fun w => (cv_revision (so_conversation s) <? wk_authority_revision w) ||
                      negb (wk_capability_epoch w =? so_capability_epoch s)) (so_workers s) ;;
  let* _ := check_all (check_ambiguity s) (so_ambiguities s) in
  raise (Ambiguous, "lifecycle status and preferred response mode disagree"%string) when
    negb (eqb (terminal (so_lifecycle s)) (bool_decide (lf_preferred (so_lifecycle s) = PrTerminal))) ;;
  raise (Ambiguous, "terminal state retains unresolved effects or workers"%string) when
    terminal (so_lifecycle s) && (bool_decide (so_ambiguities s <> []) || existsb unresolved_receipt (so_receipts s) ||
      existsb unresolved_worker (so_workers s)) ;;
  raise (Ambiguous, "await-worker response mode has no active worker"%string) when
    bool_decide (lf_preferred (so_lifecycle s) = PrAwaitWorker) && negb (existsb waiting (so_workers s)) ;;
  Ok tt.

Definition prohibit (id : string) (class : ProhibitedClass) (reason : string) : ProhibitedClaim :=
  {| ph_claim_id := js id; ph_claim_class := class; ph_reason_code := js reason |}.

Definition systemProhibitedClaims (s : Source) : list ProhibitedClaim :=
  [prohibit "system.private_value.repeat" PPrivateValue "runtime_values_are_not_provider_context"] ++
  (if bool_decide (so_ambiguities s <> []) then
     [prohibit "system.ambiguous_effect.retry" PAmbiguousRetry "reconcile_before_any_mutation";
      prohibit "system.terminal_success.pending_reconciliation" PTerminalSuccess "effect_outcome_is_indeterminate"]
   else []) ++
  (if lf_refresh_required (so_lifecycle s) then
     [prohibit "system.effect_success.stale_authority" PEffectSuccess "refresh_authority_before_claim"]
   else []).

Definition neutral (c : AllowedClaim) : bool :=
  bool_decide (al_claim_class c = Clarification) || bool_decide (al_claim_class c = Handoff).

(** The intents, actions and allowed claims that the state of the call leaves open. *)
Definition effective (s : Source) : list jstr * list Action * list AllowedClaim :=
  if lf_refresh_required (so_lifecycle s) then ([], [], List.filter neutral (so_allowed s))
  else if bool_decide (so_ambiguities s <> []) then
    ([], List.filter (fun a => includes (ac_action_id a) (flat_map am_designated (so_ambiguities s)))
           (so_eligible_actions s), List.filter neutral (so_allowed s))
  else if terminal (so_lifecycle s) then
    ([], [], List.filter (fun c => bool_decide (al_claim_class c = TerminalSuccess)) (so_allowed s))
  else (so_eligible_intents s, so_eligible_actions s, so_allowed s).

Definition payloadFromSource (s : Source) : result TurnContractError Payload :=
  let '(intents, actions, allowed) := effective s in
  let* prohibited := sortedUniqueBy ph_claim_id (so_prohibited s ++ systemProhibitedClaims s) in
  raise (Ambiguous, "an allowed claim conflicts with a system prohibition"%string) when
    existsb (fun c => includes (al_claim_id c) (ph_claim_id <$> prohibited)) allowed ;;
  Ok (mkPayload HACC_TURN_CONTRACT_POLICY_SHA256
        (mkSource (so_conversation s) (so_registry_sha256 s) (so_control_plane s) (so_capability_epoch s) intents
           actions (so_required_slots s) allowed prohibited (so_receipts s) (so_workers s) (so_ambiguities s)
           (so_lifecycle s))
        (responseMode s actions)).

Definition TurnContractPayloadSchema_ok (p : Payload) : bool :=
  (py_policy_sha256 p =?s HACC_TURN_CONTRACT_POLICY_SHA256) && source_ok 256 (py_source p).
Definition ProductionTurnContractSchema_ok (c : Contract) : bool :=
  TurnContractPayloadSchema_ok (ct_payload c) && (1 <=? ct_byte_length c) &&
  (ct_byte_length c <=? MAX_TURN_CONTRACT_PAYLOAD_BYTES) && is_sha256 (ct_sha256 c).

(** The canonical text of the payload; its bytes are its UTF-8 encoding. *)
Definition turnContractCanonicalPayload (c : Contract) : option jstr :=
  canonicalRuntimeControlJson (payload_json (ct_payload c)).

Definition createProductionTurnContract (source : Source) (expected : Freshness) : result TurnContractError Contract :=
  let* s := normalizeSource source in
  let* _ := assertFreshness s expected in
  let* _ := validateSemantics s in
  let* payload := payloadFromSource s in
  raise (Invalid, "exception"%string) when negb (TurnContractPayloadSchema_ok payload) ;;
  match canonicalRuntimeControlJson (payload_json payload) with
  | None => error Invalid "exception"
  | Some text =>
      raise (Invalid, "turn contract exceeds the byte limit"%string) when
        MAX_TURN_CONTRACT_PAYLOAD_BYTES <? utf8_length text ;;
      Ok (mkContract payload (utf8_length text) (runtimeControlSha256 CONTRACT_DOMAIN text))
  end.

Definition assertProductionTurnContract (contract : Contract) (expectation : Expectation)
  : result TurnContractError Contract :=
  raise (Invalid, "turn contract is invalid"%string) when negb (ProductionTurnContractSchema_ok contract) ;;
  raise (Invalid, "turn contract assertion expectation is invalid"%string) when
    negb (TurnContractFreshnessSchema_ok (ex_freshness expectation) && is_sha256 (ex_contract_sha256 expectation)) ;;
  match turnContractCanonicalPayload contract with
  | None => error Invalid "exception"
  | Some text =>
      raise (Invalid, "turn contract canonical byte length mismatch"%string) when
        negb (utf8_length text =? ct_byte_length contract) ;;
      raise (Invalid, "turn contract hash mismatch"%string) when
        negb (runtimeControlSha256 CONTRACT_DOMAIN text =?s ct_sha256 contract) ;;
      raise (Stale, "turn contract differs from the host-retained commitment"%string) when
        negb (ct_sha256 contract =?s ex_contract_sha256 expectation) ;;
      let source := py_source (ct_payload contract) in
      let* normalized := normalizeSource source in
      raise (Invalid, "turn contract collections are not canonical sorted sets"%string) when
        negb (bool_decide (canonicalRuntimeControlJson (source_json source) =
                           canonicalRuntimeControlJson (source_json normalized))) ;;
      let* _ := validateSemantics source in
      raise (Invalid, "turn contract response mode disagrees with bound state"%string) when
        negb (bool_decide (py_response_mode (ct_payload contract) = responseMode source (so_eligible_actions source))) ;;
      let* _ := assertFreshness source (ex_freshness expectation) in
      Ok contract
  end.
End Contract.

End TurnContract.
