(* ===== verification/TurnContractProps.v ===== *)
(** * What a turn contract commits to

    Sorting and identities, the normal form of a source, the round trip between
    [createProductionTurnContract] and [assertProductionTurnContract], what a created
    contract allows, and that its hash binds the whole payload. *)

From S2P Require Import Prelude JsValue JsText Canonical Graph Flow FlowValidate FlowRuntime TurnContract.
Import TurnContract.

Local Open Scope Z_scope.

(** ** Sorted sets by identity *)

Section SortedSets.
Context {A : Type} (id : A -> jstr).
Implicit Types (l : list A).

Definition sorted_on : list A -> Prop := StronglySorted (fun a b => str_ltb (id a) (id b) = true).

Lemma sorted_on_fmap l : sorted_on l <-> StronglySorted (fun x y => str_ltb x y = true) (id <$> l).
Proof.
  unfold sorted_on. induction l as [|x l IH]; csimpl; [split; constructor|].
  split; intros [Hs Hx]%StronglySorted_inv; (constructor; [by apply IH|]); by apply Forall_fmap in Hx || apply Forall_fmap.
Qed.

Lemma sorted_on_ids l : sorted_on l -> NoDup (id <$> l).
Proof.
  induction 1 as [|x l Hs IH Hx]; csimpl; constructor; [|done].
  rewrite list_elem_of_fmap. intros (y & E & Hy). rewrite Forall_forall in Hx. specialize (Hx _ Hy).
  by rewrite E, str_ltb_irrefl in Hx.
Qed.

Lemma sorted_on_filter (p : A -> bool) l : sorted_on l -> sorted_on (List.filter p l).
Proof.
  unfold sorted_on. induction 1 as [|x l Hs IH Hx]; simpl; [constructor|]. destruct (p x); [|done].
  constructor; [done|]. rewrite Forall_forall in *. intros y [Hy _]%elem_of_filter_list. auto.
Qed.

Lemma sort_by_id l : sorted_on l -> sort_by (fun a b => str_ltb (id a) (id b)) l = l.
Proof.
  induction 1 as [|x l Hs IH Hx]; simpl; [done|]. rewrite IH. destruct Hx as [|y l Hy]; simpl; [done|].
  destruct (str_ltb (id y) (id x)) eqn:E; [|done].
  pose proof (str_ltb_trans _ _ _ Hy E) as Ht. by rewrite str_ltb_irrefl in Ht.
Qed.

Lemma sortedUniqueBy_Ok l l' : sortedUniqueBy id l = Ok l' -> l' ≡ₚ l /\ sorted_on l'.
Proof.
  unfold sortedUniqueBy, nodupb. intros H. split_guards H. injection H as <-. to_prop.
  split; [apply sort_by_perm|]. apply sorted_on_fmap.
  rewrite <- (sort_by_fmap _ str_ltb id) by done. apply sort_by_sorted; [apply str_ltb_trans | apply str_ltb_total|].
  by rewrite <- (sort_by_perm (fun a b => str_ltb (id a) (id b)) l).
Qed.

Lemma sortedUniqueBy_sorted l : sorted_on l -> sortedUniqueBy id l = Ok l.
Proof.
  intros Hs. unfold sortedUniqueBy. rewrite sort_by_id by done. unfold nodupb.
  by rewrite bool_decide_eq_true_2 by by apply sorted_on_ids.
Qed.

(** Looking up by identity in a set. *)
Lemma by_id_Some l k x : by_id id l k = Some x -> x ∈ l /\ id x = k.
Proof. intros [Hx E]%find_elem. to_prop. split; [|done]. by rewrite elem_of_reverse in Hx. Qed.

Lemma by_id_elem l x : NoDup (id <$> l) -> x ∈ l -> by_id id l (id x) = Some x.
Proof.
  intros Hnd Hx. unfold by_id. destruct (List.find _ _) as [y|] eqn:E.
  - apply by_id_Some in E as [Hy E]. f_equal.
    apply list_elem_of_lookup in Hx as [i Hi], Hy as [j Hj].
    assert (i = j) as <- by (apply (NoDup_lookup _ i j (id x) Hnd);
      rewrite list_lookup_fmap, ?Hi, ?Hj; csimpl; congruence).
    congruence.
  - rewrite find_none_elem in E. specialize (E x). rewrite elem_of_reverse, str_eqb_refl in E. by specialize (E Hx).
Qed.

Lemma by_id_filter (p : A -> bool) l k x :
  NoDup (id <$> l) -> by_id id (List.filter p l) k = Some x -> by_id id l k = Some x.
Proof.
  intros Hnd [[Hx _]%elem_of_filter_list <-]%by_id_Some. by apply by_id_elem.
Qed.
End SortedSets.

#[export] Hint Resolve sorted_on_filter sorted_on_ids : hacc.

(** ** Sources in normal form *)

(** Fields of records built from their parts. *)
Ltac project :=
  cbn [so_conversation so_registry_sha256 so_control_plane so_capability_epoch so_eligible_intents so_eligible_actions
       so_required_slots so_allowed so_prohibited so_receipts so_workers so_ambiguities so_lifecycle
       am_ambiguity_id am_reason_code am_receipt_id am_designated py_policy_sha256 py_source py_response_mode
       ct_payload ct_byte_length ct_sha256 ex_freshness ex_contract_sha256].

Record canonical (s : Source) : Prop := {
  cn_intents : sorted_on (fun id => id) (so_eligible_intents s);
  cn_actions : sorted_on ac_action_id (so_eligible_actions s);
  cn_slots : sorted_on sl_slot_id (so_required_slots s);
  cn_allowed : sorted_on al_claim_id (so_allowed s);
  cn_prohibited : sorted_on ph_claim_id (so_prohibited s);
  cn_receipts : sorted_on rc_receipt_id (so_receipts s);
  cn_workers : sorted_on wk_worker_id (so_workers s);
  cn_ambiguities : sorted_on am_ambiguity_id (so_ambiguities s);
  cn_designated : Forall (fun a => sorted_on (fun id => id) (am_designated a)) (so_ambiguities s);
}.

Lemma map_result_Ok {A B} (f : A -> result TurnContractError B) l l' :
  map_result f l = Ok l' -> Forall2 (fun x y => f x = Ok y) l l'.
Proof.
  revert l'. induction l as [|x l IH]; intros l' H; cbn [map_result] in H; [injection H as <-; constructor|].
  destruct (f x) as [y|] eqn:Ex; [|discriminate H]. cbn [bind_result] in H.
  destruct (map_result f l) as [ys|]; [|discriminate H]. injection H as <-. constructor; auto.
Qed.

Lemma map_result_id {A} (f : A -> result TurnContractError A) l :
  Forall (fun x => f x = Ok x) l -> map_result f l = Ok l.
Proof. induction 1 as [|x l Hx _ IH]; [done|]. cbn [map_result]. by rewrite Hx, IH. Qed.

Lemma forallb_perm {A} (p : A -> bool) l l' : l ≡ₚ l' -> forallb p l = true -> forallb p l' = true.
Proof. intros E. rewrite !forallb_elem. intros H x. rewrite <- E. auto. Qed.

Lemma at_most_perm {A} n (l l' : list A) : l ≡ₚ l' -> at_most n l = at_most n l'.
Proof. intros E. unfold at_most. by rewrite (Permutation_length E). Qed.

Lemma normalize_ambiguity_Ok a b :
  normalize_ambiguity a = Ok b ->
  am_ambiguity_id b = am_ambiguity_id a /\ sorted_on (fun id => id) (am_designated b) /\
  (AmbiguitySchema_ok a = true -> AmbiguitySchema_ok b = true).
Proof.
  unfold normalize_ambiguity, sortedUniqueIds. intros H.
  destruct (sortedUniqueBy _ _) as [d|] eqn:Ed; [|discriminate H]. injection H as <-.
  apply sortedUniqueBy_Ok in Ed as [Hp Hs]. split_and!; [done..|].
  unfold AmbiguitySchema_ok. project. rewrite (at_most_perm 32 _ _ Hp), !andb_true_iff. symmetry in Hp.
  intuition eauto using forallb_perm.
Qed.

Lemma normalize_ambiguities l l' :
  map_result normalize_ambiguity l = Ok l' ->
  am_ambiguity_id <$> l' = am_ambiguity_id <$> l /\
  Forall (fun a => sorted_on (fun id => id) (am_designated a)) l' /\
  (forallb AmbiguitySchema_ok l = true -> forallb AmbiguitySchema_ok l' = true).
Proof.
  intros H%map_result_Ok. induction H as [|a b l l' Hab _ (IH1 & IH2 & IH3)]; [done|].
  apply normalize_ambiguity_Ok in Hab as (E & Hs & Hok). csimpl. split_and!.
  - congruence.
  - by constructor.
  - rewrite !andb_true_iff. intuition.
Qed.

Lemma sorted_on_same {A} (id : A -> jstr) l l' : id <$> l' = id <$> l -> sorted_on id l -> sorted_on id l'.
Proof. intros E. by rewrite !sorted_on_fmap, E. Qed.

(** Normalising sorts every collection and keeps the schema. *)
Lemma normalizeSource_Ok s n : normalizeSource s = Ok n -> canonical n /\ TurnContractSourceSchema_ok n = true.
Proof.
  unfold normalizeSource, sortedUniqueIds. intros H.
  destruct (TurnContractSourceSchema_ok s) eqn:Hok; [|discriminate H]. cbn [negb] in H.
  repeat match type of H with
  | context [sortedUniqueBy ?i ?l] =>
      let r := fresh "r" in let E := fresh "E" in let Hp := fresh "Hp" in let Hs := fresh "Hs" in
      destruct (sortedUniqueBy i l) as [r|] eqn:E; [|discriminate H]; cbn [bind_result] in H;
      apply sortedUniqueBy_Ok in E as [Hp Hs]; symmetry in Hp
  end.
  destruct (map_result normalize_ambiguity _) as [amb|] eqn:Ea; [|discriminate H]. cbn [bind_result] in H.
  apply normalize_ambiguities in Ea as (Hids & Hd & Ha). injection H as <-. split.
  - constructor; try done. cbn. by eapply sorted_on_same.
  - unfold TurnContractSourceSchema_ok, source_ok in *. project.
    assert (length amb = length r6) as Hlen by (by rewrite <- (length_fmap am_ambiguity_id), Hids, length_fmap).
    replace (at_most 64 amb) with (at_most 64 r6) by (unfold at_most; by rewrite Hlen).
    repeat match goal with H : ?l ≡ₚ ?r |- context [at_most ?n ?r] => rewrite <- (at_most_perm n l r H) end.
    rewrite !andb_true_iff in *. intuition eauto using forallb_perm.
Qed.

(** A source in normal form that meets the schema is its own normalisation. *)
Lemma normalizeSource_canonical s :
  TurnContractSourceSchema_ok s = true -> canonical s -> normalizeSource s = Ok s.
Proof.
  intros Hok [H1 H2 H3 H4 H5 H6 H7 H8 H9]. unfold normalizeSource, sortedUniqueIds. rewrite Hok. cbn [negb].
  rewrite !sortedUniqueBy_sorted by done. cbn [bind_result].
  rewrite map_result_id; [by destruct s|]. eapply Forall_impl; [exact H9|]. intros a Ha.
  unfold normalize_ambiguity, sortedUniqueIds. rewrite sortedUniqueBy_sorted by done. by destruct a.
Qed.

(** ** The payload of a source *)

Lemma filter_all {A} (l : list A) : List.filter (fun _ => true) l = l.
Proof. induction l; simpl; congruence. Qed.
Lemma filter_none {A} (l : list A) : List.filter (fun _ => false) l = [].
Proof. by induction l. Qed.

(** The effective frontier selects from the frontier of the source. *)
Lemma effective_selects s :
  exists p q r, effective s = (List.filter p (so_eligible_intents s), List.filter q (so_eligible_actions s),
                               List.filter r (so_allowed s)).
Proof.
  unfold effective. destruct (lf_refresh_required _); [|destruct (bool_decide _); [|destruct (terminal _)]].
  - exists (fun _ => false), (fun _ => false), neutral. by rewrite !filter_none.
  - eexists (fun _ => false), _, neutral. by rewrite (filter_none (so_eligible_intents s)).
  - exists (fun _ => false), (fun _ => false), (fun c => bool_decide (al_claim_class c = TerminalSuccess)).
    by rewrite !filter_none.
  - exists (fun _ => true), (fun _ => true), (fun _ => true). by rewrite !filter_all.
Qed.

Section Payload.
Context `{HS : Sha256}.
Implicit Types (s : Source) (p : Payload) (c : Contract) (f : Freshness).

(** The source as the payload carries it. *)
Definition payload_source s intents actions allowed prohibited : Source :=
  mkSource (so_conversation s) (so_registry_sha256 s) (so_control_plane s) (so_capability_epoch s) intents actions
    (so_required_slots s) allowed prohibited (so_receipts s) (so_workers s) (so_ambiguities s) (so_lifecycle s).

Lemma payloadFromSource_Ok s p :
  payloadFromSource s = Ok p ->
  exists intents actions allowed prohibited,
    effective s = (intents, actions, allowed) /\
    p = mkPayload HACC_TURN_CONTRACT_POLICY_SHA256 (payload_source s intents actions allowed prohibited)
          (responseMode s actions) /\
    prohibited ≡ₚ so_prohibited s ++ systemProhibitedClaims s /\ sorted_on ph_claim_id prohibited /\
    (forall a, a ∈ allowed -> al_claim_id a ∉ ph_claim_id <$> prohibited).
Proof.
  unfold payloadFromSource. destruct (effective s) as [[intents actions] allowed].
  destruct (sortedUniqueBy _ _) as [prohibited|] eqn:Ep; [|done]. cbn [bind_result].
  apply sortedUniqueBy_Ok in Ep as [Hp Hs]. destruct (existsb _ _) eqn:Ex; [done|]. intros [= <-].
  exists intents, actions, allowed, prohibited. split_and!; [done..|]. intros a Ha.
  rewrite existsb_elem_false in Ex. specialize (Ex _ Ha). by to_prop.
Qed.

Lemma payload_canonical s intents actions allowed prohibited :
  canonical s -> effective s = (intents, actions, allowed) -> sorted_on ph_claim_id prohibited ->
  canonical (payload_source s intents actions allowed prohibited).
Proof.
  intros [] E Hp. destruct (effective_selects s) as (p & q & r & E'). rewrite E in E'. injection E' as -> -> ->.
  constructor; cbn; auto using sorted_on_filter.
Qed.

Lemma check_all_Ok {A} (check : A -> result TurnContractError unit) l :
  check_all check l = Ok tt <-> forall x, x ∈ l -> check x = Ok tt.
Proof.
  rewrite <- Forall_forall. induction l as [|x l IH]; cbn [check_all]; [split; [constructor|done]|].
  rewrite Forall_cons, <- IH. destruct (check x) as [[]|]; cbn [bind_result]; naive_solver.
Qed.

Lemma validateSemantics_Ok s :
  validateSemantics s = Ok tt ->
  (forall a, a ∈ so_allowed s -> check_claim s a = Ok tt) /\
  (forall r, r ∈ so_receipts s -> check_receipt s r = Ok tt) /\
  (forall a, a ∈ so_ambiguities s -> check_ambiguity s a = Ok tt) /\
  (terminal (so_lifecycle s) = true -> so_ambiguities s = []).
Proof.
  unfold validateSemantics. destruct (check_all (check_claim s) _) as [[]|] eqn:E1; [|done]. cbn [bind_result].
  destruct (check_all (check_receipt s) _) as [[]|] eqn:E2; [|done]. cbn [bind_result].
  destruct (existsb _ (so_workers s)); [done|].
  destruct (check_all (check_ambiguity s) _) as [[]|] eqn:E3; [|done]. cbn [bind_result].
  rewrite check_all_Ok in E1. rewrite check_all_Ok in E2. rewrite check_all_Ok in E3. destruct (negb _); [done|]. intros H. split_and!; [done..|].
  intros Ht. rewrite Ht in H. cbn [andb] in H. destruct (_ || _) eqn:E; [done|]. to_prop.
  destruct (so_ambiguities s); [done|]. exfalso. naive_solver.
Qed.

(** A claim that a source supports stays supported on a smaller frontier. *)
Lemma check_success_frontier s s' claim r :
  so_capability_epoch s' = so_capability_epoch s -> so_lifecycle s' = so_lifecycle s ->
  (forall k a, by_id ac_action_id (so_eligible_actions s') k = Some a ->
               by_id ac_action_id (so_eligible_actions s) k = Some a) ->
  check_success s claim r = Ok tt -> check_success s' claim r = Ok tt.
Proof.
  intros He Hl Hsub. unfold check_success. rewrite He, Hl.
  destruct (by_id _ (so_eligible_actions s') _) as [a|] eqn:E; [by rewrite (Hsub _ _ E)|].
  repeat case_match; done.
Qed.

Lemma check_claim_frontier s s' claim :
  so_capability_epoch s' = so_capability_epoch s -> so_lifecycle s' = so_lifecycle s ->
  so_receipts s' = so_receipts s ->
  (forall k a, by_id ac_action_id (so_eligible_actions s') k = Some a ->
               by_id ac_action_id (so_eligible_actions s) k = Some a) ->
  al_claim_id claim ∉ ph_claim_id <$> so_prohibited s' ->
  check_claim s claim = Ok tt -> check_claim s' claim = Ok tt.
Proof.
  intros He Hl Hr Hsub Hnp. unfold check_claim. rewrite Hr.
  rewrite (proj2 (includes_false _ _) Hnp). destruct (includes _ _); [done|].
  destruct (success_class _); [|done]. destruct (truthy _ ≫= _); [|done]. by apply check_success_frontier.
Qed.

Lemma check_ambiguity_frontier s s' a :
  so_receipts s' = so_receipts s ->
  (forall k x, k ∈ am_designated a -> by_id ac_action_id (so_eligible_actions s) k = Some x ->
               by_id ac_action_id (so_eligible_actions s') k = Some x) ->
  check_ambiguity s a = Ok tt -> check_ambiguity s' a = Ok tt.
Proof.
  intros Hr Hsub. unfold check_ambiguity. rewrite Hr. destruct (match am_receipt_id a with Some _ => _ | None => _ end); [done|].
  rewrite !check_all_Ok. intros H k Hk. specialize (H k Hk). unfold check_designated in *.
  destruct (by_id _ (so_eligible_actions s) k) as [x|] eqn:E; [|done]. by rewrite (Hsub _ _ Hk E).
Qed.

(** A refresh is asked for only while no repair action is designated. *)
Definition repairs_open s : Prop :=
  lf_refresh_required (so_lifecycle s) = true -> forall a, a ∈ so_ambiguities s -> am_designated a = [].

Lemma effective_designated s intents actions allowed a k x :
  canonical s -> repairs_open s -> effective s = (intents, actions, allowed) -> a ∈ so_ambiguities s ->
  k ∈ am_designated a -> by_id ac_action_id (so_eligible_actions s) k = Some x ->
  by_id ac_action_id actions k = Some x.
Proof.
  intros Hc Hr E Ha Hk Hx. unfold effective in E. destruct (lf_refresh_required _) eqn:Er.
  { rewrite (Hr Er _ Ha) in Hk. by apply elem_of_nil in Hk. }
  assert (so_ambiguities s <> []) as Hne by (intros E'; rewrite E' in Ha; by apply elem_of_nil in Ha).
  rewrite bool_decide_eq_true_2 in E by done. injection E as _ <- _.
  apply by_id_Some in Hx as [Hx <-]. apply by_id_elem; [apply sorted_on_ids, sorted_on_filter, Hc|].
  apply elem_of_filter_list. split; [done|]. apply includes_iff, elem_of_flat_map. eauto.
Qed.

(** The rest of the semantic checks read only what the payload keeps. *)
Lemma validateSemantics_payload s intents actions allowed prohibited :
  canonical s -> repairs_open s -> effective s = (intents, actions, allowed) ->
  (forall a, a ∈ allowed -> al_claim_id a ∉ ph_claim_id <$> prohibited) ->
  validateSemantics s = Ok tt -> validateSemantics (payload_source s intents actions allowed prohibited) = Ok tt.
Proof.
  intros Hc Hr E Hnp. set (s' := payload_source s intents actions allowed prohibited).
  destruct (effective_selects s) as (p & q & r & E'). rewrite E in E'. injection E' as _ Ea El.
  unfold validateSemantics.
  destruct (check_all (check_claim s) _) as [[]|] eqn:E1; [|done]. cbn [bind_result].
  assert (check_all (check_claim s') (so_allowed s') = Ok tt) as ->.
  { rewrite check_all_Ok in E1 |- *. intros a Ha. apply (check_claim_frontier s); [done..| |auto|].
    - intros k x. unfold s'. cbn. rewrite Ea. apply by_id_filter, sorted_on_ids, Hc.
    - apply E1. unfold s' in Ha. cbn in Ha. rewrite El in Ha. by apply elem_of_filter_list in Ha as [? _]. }
  change (check_all (check_receipt s') (so_receipts s')) with (check_all (check_receipt s) (so_receipts s)).
  cbn [bind_result]. destruct (check_all (check_receipt s) _) as [[]|]; [|done]. cbn [bind_result].
  change (so_workers s') with (so_workers s). change (so_conversation s') with (so_conversation s).
  change (so_capability_epoch s') with (so_capability_epoch s). destruct (existsb _ (so_workers s)); [done|].
  destruct (check_all (check_ambiguity s) _) as [[]|] eqn:E2; [|done].
  assert (check_all (check_ambiguity s') (so_ambiguities s') = Ok tt) as ->; [|done].
  rewrite check_all_Ok in E2 |- *. intros a Ha. apply (check_ambiguity_frontier s); [done| |by apply E2].
  intros k x Hk Hx. by eapply effective_designated.
Qed.
End Payload.

(** ** Creating and asserting *)

Lemma utf8_length_cons x t : 1 <= utf8_length (x :: t).
Proof.
  cbn [utf8_length]. pose proof (utf8_length_nonneg t). destruct (is_lead x); [|repeat case_match; lia].
  destruct t as [|d t]; [lia|]. pose proof (utf8_length_nonneg t). case_match; lia.
Qed.

Section Created.
Context `{HS : Sha256} {HOk : Sha256Ok HS}.
Implicit Types (s : Source) (p : Payload) (c : Contract) (f : Freshness).

Lemma create_Ok src f c :
  createProductionTurnContract src f = Ok c ->
  exists s text,
    normalizeSource src = Ok s /\ assertFreshness s f = Ok tt /\ validateSemantics s = Ok tt /\
    payloadFromSource s = Ok (ct_payload c) /\ TurnContractPayloadSchema_ok (ct_payload c) = true /\
    turnContractCanonicalPayload c = Some text /\ ct_byte_length c = utf8_length text /\
    utf8_length text <= MAX_TURN_CONTRACT_PAYLOAD_BYTES /\
    ct_sha256 c = runtimeControlSha256 CONTRACT_DOMAIN text.
Proof.
  unfold createProductionTurnContract, turnContractCanonicalPayload.
  destruct (normalizeSource src) as [s|]; [|done]. cbn [bind_result].
  destruct (assertFreshness s f) as [[]|] eqn:Ef; [|done]. cbn [bind_result].
  destruct (validateSemantics s) as [[]|] eqn:Ev; [|done]. cbn [bind_result].
  destruct (payloadFromSource s) as [p|] eqn:Ep; [|done]. cbn [bind_result].
  destruct (TurnContractPayloadSchema_ok p) eqn:Eo; [|done]. cbn [negb].
  destruct (canonicalRuntimeControlJson _) as [text|] eqn:Et; [|done].
  destruct (_ <? _) eqn:El; [done|]. intros [= <-]. to_prop. exists s, text. by split_and!.
Qed.

Lemma payload_text_nonempty p text : canonicalRuntimeControlJson (payload_json p) = Some text -> 1 <= utf8_length text.
Proof.
  unfold canonicalRuntimeControlJson, payload_json. cbn [canonicalJson].
  intros (e & _ & ->)%fmap_Some. apply utf8_length_cons.
Qed.

Lemma expectation_ok s f h :
  assertFreshness s f = Ok tt -> TurnContractFreshnessSchema_ok f && is_sha256 (runtimeControlSha256 CONTRACT_DOMAIN h) = true.
Proof.
  unfold assertFreshness. destruct (TurnContractFreshnessSchema_ok f); [|done]. intros _. apply HOk.
Qed.

(** After its own checks, [assertProductionTurnContract] on a created contract comes down to
    those of the source it reads back. *)
Lemma assert_created src f c :
  createProductionTurnContract src f = Ok c ->
  let source := py_source (ct_payload c) in
  assertProductionTurnContract c {| ex_freshness := f; ex_contract_sha256 := ct_sha256 c |} =
  (let* _ := normalizeSource source in let* _ := validateSemantics source in Ok c).
Proof.
  intros (s & text & Hn & Hf & Hv & Hp & Hok & Ht & Hl & Hmax & Hh)%create_Ok source.
  apply normalizeSource_Ok in Hn as [Hc Hs].
  unfold assertProductionTurnContract, ProductionTurnContractSchema_ok. project.
  rewrite Hok, Hl, Hh, Ht, (expectation_ok s f text Hf).
  rewrite (proj2 (Z.leb_le 1 _) (payload_text_nonempty _ _ Ht)), (proj2 (Z.leb_le _ _) Hmax).
  rewrite (HOk _ : is_sha256 (runtimeControlSha256 CONTRACT_DOMAIN text) = true).
  cbn [andb negb]. rewrite Z.eqb_refl, !str_eqb_refl. cbn [negb].
  destruct (payloadFromSource_Ok _ _ Hp) as (i & a & al & ph & He & Epay & Hperm & Hsrt & Hnp).
  fold source. destruct (normalizeSource source) as [n|] eqn:En; [|done]. cbn [bind_result].
  assert (n = source) as ->.
  { assert (canonical source) as Hcs by (unfold source; rewrite Epay; by apply payload_canonical).
    assert (TurnContractSourceSchema_ok source = true) as Hso
      by (unfold normalizeSource in En; by destruct (TurnContractSourceSchema_ok source)).
    rewrite normalizeSource_canonical in En by done. congruence. }
  rewrite bool_decide_eq_true_2 by done. cbn [negb].
  destruct (validateSemantics source) as [[]|]; [|done]. cbn [bind_result].
  replace (py_response_mode (ct_payload c)) with (responseMode source (so_eligible_actions source))
    by (unfold source; by rewrite Epay).
  rewrite bool_decide_eq_true_2 by done. cbn [negb].
  replace (assertFreshness source f) with (assertFreshness s f) by (unfold source; by rewrite Epay).
  by rewrite Hf.
Qed.

(** A refresh empties the frontier, so that no designated action can be found in it. *)
Lemma refreshed_designations s intents actions allowed prohibited :
  effective s = (intents, actions, allowed) ->
  validateSemantics (payload_source s intents actions allowed prohibited) = Ok tt -> repairs_open s.
Proof.
  intros E Hv Hr a Ha. unfold effective in E. rewrite Hr in E. injection E as <- <- <-.
  apply validateSemantics_Ok in Hv as (_ & _ & Hx & _). specialize (Hx a Ha).
  unfold check_ambiguity in Hx. split_guards Hx; rewrite check_all_Ok in Hx;
    destruct (am_designated a) as [|k l]; try done; specialize (Hx k ltac:(left)); discriminate Hx.
Qed.

(** When the read-back of a created contract succeeds. *)
Lemma created_readable src f c :
  createProductionTurnContract src f = Ok c ->
  assertProductionTurnContract c {| ex_freshness := f; ex_contract_sha256 := ct_sha256 c |} = Ok c <->
  (length (so_prohibited (py_source (ct_payload c))) <= 252)%nat /\ repairs_open (py_source (ct_payload c)).
Proof.
  intros H. rewrite (assert_created src f c H). set (source := py_source (ct_payload c)).
  destruct (create_Ok _ _ _ H) as (s & text & Hn & _ & Hv & Hp & Hok & _).
  apply normalizeSource_Ok in Hn as [Hc _].
  destruct (payloadFromSource_Ok _ _ Hp) as (i & a & al & ph & He & Epay & _ & Hsrt & Hnp).
  assert (source = payload_source s i a al ph) as Es by (unfold source; by rewrite Epay). clearbody source. subst source.
  split.
  - intros Hr. destruct (normalizeSource _) as [n|] eqn:En; [|done]. cbn [bind_result] in Hr.
    destruct (validateSemantics (payload_source s i a al ph)) as [[]|] eqn:Ev; [|done]. split.
    + unfold normalizeSource in En. destruct (TurnContractSourceSchema_ok _) eqn:Eo; [|done].
      unfold TurnContractSourceSchema_ok, source_ok, at_most in Eo. to_prop. by apply Nat.leb_le.
    + by eapply refreshed_designations in Ev.
  - intros [Hlen Hro].
    rewrite normalizeSource_canonical; [|..|by apply payload_canonical].
    + cbn [bind_result]. by rewrite (validateSemantics_payload s i a al ph).
    + unfold TurnContractPayloadSchema_ok in Hok. rewrite Epay in Hok. cbn [py_source py_policy_sha256] in Hok. to_prop.
      unfold TurnContractSourceSchema_ok, source_ok in *. rewrite !andb_true_iff in *. intuition. by apply Nat.leb_le.
Qed.

(** C29. Creating a turn contract and asserting it under the same freshness and its own hash gives the contract back
    exactly when the payload stays within the 252 prohibited claims of the source schema (a payload may carry 256) and
    no repair action is designated while a refresh is required: the read-back checks are otherwise idempotent. *)
Theorem contract_round_trip src f c :
  createProductionTurnContract src f = Ok c ->
  assertProductionTurnContract c {| ex_freshness := f; ex_contract_sha256 := ct_sha256 c |} = Ok c <->
  (length (so_prohibited (py_source (ct_payload c))) <= 252)%nat /\ repairs_open (py_source (ct_payload c)).
Proof. apply created_readable. Qed.

(** ** What a created contract allows *)

(** The receipt that backs a claim of success. *)
Record backs s (claim : AllowedClaim) (r : Receipt) : Prop := {
  bk_receipt : r ∈ so_receipts s /\ al_supporting_receipt_id claim = Some (rc_receipt_id r);
  bk_settled : rc_status r = RSucceeded /\ rc_outcome_status r = OSatisfied;
  bk_action : al_supporting_action_id claim = Some (rc_action_id r) /\
    al_required_action_semantic_sha256 claim = Some (rc_action_semantic_sha256 r) /\
    al_required_outcome_predicate_sha256 claim = Some (rc_outcome_predicate_sha256 r);
  bk_epoch : rc_capability_epoch r = so_capability_epoch s;
  bk_mutation : rc_effect r <> Read /\ rc_outcome_authority r <> Informational;
  bk_terminal : al_claim_class claim = TerminalSuccess ->
    lf_status (so_lifecycle s) = LCompleted /\ rc_outcome_authority r = TerminalOutcome;
}.

Lemma check_claim_backed s claim :
  check_claim s claim = Ok tt -> success_class (al_claim_class claim) = true -> exists r, backs s claim r.
Proof.
  unfold check_claim. intros H Hs. rewrite Hs in H. destruct (includes _ _); [done|].
  destruct (truthy _ ≫= _) as [r|] eqn:Er; [|done]. exists r.
  apply bind_Some in Er as (id & [Eid _]%truthy_Some & [Hr Hid]%by_id_Some).
  unfold check_success in H.
  repeat match type of H with context [if ?b then Err _ else _] => destruct b eqn:?; [discriminate H|] end.
  destruct (al_claim_class claim) eqn:Ec; try discriminate Hs;
    repeat match type of H with context [if ?b then Err _ else _] => destruct b eqn:?; [discriminate H|] end;
    to_prop; constructor; try done; intros; try split_and!; congruence.
Qed.

Lemma create_payload src f c :
  createProductionTurnContract src f = Ok c ->
  exists s i a al ph,
    canonical s /\ validateSemantics s = Ok tt /\ effective s = (i, a, al) /\
    py_source (ct_payload c) = payload_source s i a al ph /\ ph ≡ₚ so_prohibited s ++ systemProhibitedClaims s /\
    (forall x, x ∈ al -> al_claim_id x ∉ ph_claim_id <$> ph).
Proof.
  intros (s & text & Hn & _ & Hv & Hp & _)%create_Ok. apply normalizeSource_Ok in Hn as [Hc _].
  destruct (payloadFromSource_Ok _ _ Hp) as (i & a & al & ph & He & Epay & Hph & _ & Hnp).
  exists s, i, a, al, ph. rewrite Epay. by split_and!.
Qed.

(** C30. A contract lets the model claim that an effect or the whole call succeeded only on the strength of a receipt it
    carries: settled as succeeded with its outcome predicate satisfied, of the action, semantics and predicate that the
    claim names, of the current capability epoch, and of a mutation (for the call: a terminal outcome of a completed
    lifecycle); and never a claim that it also prohibits. *)
Theorem success_claims_backed src f c claim :
  createProductionTurnContract src f = Ok c -> claim ∈ so_allowed (py_source (ct_payload c)) ->
  (al_claim_id claim ∉ ph_claim_id <$> so_prohibited (py_source (ct_payload c))) /\
  (success_class (al_claim_class claim) = true -> exists r, backs (py_source (ct_payload c)) claim r).
Proof.
  intros (s & i & a & al & ph & Hc & Hv & He & -> & _ & Hnp)%create_payload Hcl. cbn in Hcl |- *.
  split; [by apply Hnp|]. intros Hs. destruct (effective_selects s) as (p & q & r & E').
  rewrite He in E'. injection E' as _ _ El. rewrite El in Hcl. apply elem_of_filter_list in Hcl as [Hcl _].
  apply validateSemantics_Ok in Hv as (Hv & _).
  destruct (check_claim_backed _ _ (Hv _ Hcl) Hs) as [x []]. exists x. by constructor.
Qed.

(** While a receipt of the call is indeterminate, or an ambiguity is open, the contract carries no intent, no claim
    of success and only read-only reconciliation actions that some ambiguity designates, and prohibits a retry of the
    ambiguous effect. *)
Theorem indeterminate_effect_frozen src f c :
  createProductionTurnContract src f = Ok c ->
  let s := py_source (ct_payload c) in
  (exists r, r ∈ so_receipts s /\ rc_status r = RIndeterminate) \/ so_ambiguities s <> [] ->
  so_eligible_intents s = [] /\
  (forall claim, claim ∈ so_allowed s -> success_class (al_claim_class claim) = false) /\
  (forall a, a ∈ so_eligible_actions s ->
     ac_effect a = Read /\ ac_purpose a = Reconciliation /\
     exists am, am ∈ so_ambiguities s /\ ac_action_id a ∈ am_designated am) /\
  js "system.ambiguous_effect.retry" ∈ ph_claim_id <$> so_prohibited s.
Proof.
  intros (s & i & a & al & ph & Hc & Hv & He & -> & Hph & Hnp)%create_payload. cbn. intros Hor.
  apply validateSemantics_Ok in Hv as (_ & Hvr & Hva & _).
  assert (so_ambiguities s <> []) as Hne.
  { destruct Hor as [(r & Hr & Hi)|]; [|done]. specialize (Hvr _ Hr). unfold check_receipt in Hvr.
    rewrite Hi in Hvr. destruct (match rc_settled_revision r with Some _ => _ | None => _ end); [done|].
    destruct (includes _ _) eqn:E; [|done]. to_prop. intros Ea. rewrite Ea in E. by apply elem_of_nil in E. }
  assert (forall x, neutral x = true -> success_class (al_claim_class x) = false) as Hneu
    by (intros x; unfold neutral; destruct (al_claim_class x); done).
  assert (js "system.ambiguous_effect.retry" ∈ ph_claim_id <$> ph) as Hret.
  { rewrite Hph, fmap_app. apply elem_of_app. right. unfold systemProhibitedClaims.
    rewrite bool_decide_eq_true_2 by done. cbn. right. left. }
  unfold effective in He. rewrite bool_decide_eq_true_2 in He by done.
  destruct (lf_refresh_required _); injection He as <- <- <-; split_and!; try done.
  - intros x [_ Hx]%elem_of_filter_list. auto.
  - by intros x ?%elem_of_nil.
  - intros x [_ Hx]%elem_of_filter_list. auto.
  - intros x [Hx Hd]%elem_of_filter_list. to_prop. apply elem_of_flat_map in Hd as (am & Ham & Hd).
    specialize (Hva _ Ham). unfold check_ambiguity in Hva. destruct (match am_receipt_id am with Some _ => _ | None => _ end); [done|].
    rewrite check_all_Ok in Hva. specialize (Hva _ Hd). unfold check_designated in Hva.
    rewrite by_id_elem in Hva by (done || apply sorted_on_ids, Hc).
    destruct (_ || _) eqn:E; [done|]. to_prop. naive_solver.
Qed.
End Created.
