(* ===== verification/TurnContractBinding.v ===== *)
(** * The hash of a turn contract binds its payload

    The JSON of every record of a contract determines the record, so that two contracts
    with one hash carry one payload, or SHA-256 collides. *)

From S2P Require Import Prelude JsValue JsText Canonical Graph Flow FlowValidate FlowRuntime TurnContract TurnContractProps.
Import TurnContract.

Local Open Scope Z_scope.

(** ** Encodings that determine the value *)

Class JsonInj {A} (f : A -> jsval) : Prop := json_inj : forall a b, norm (f a) = norm (f b) -> a = b.

#[export] Instance str_inj : JsonInj JStr.
Proof. by intros a b [= E]. Qed.
#[export] Instance nat_inj : JsonInj jnat.
Proof.
  intros a b. unfold jnat. cbn [norm]. rewrite !drop_neg_zero_of_Z. intros [= E]. by apply num_of_Z_inj.
Qed.
#[export] Instance bool_inj : JsonInj JBool.
Proof. by intros a b [= E]. Qed.
#[export] Instance nullable_inj : JsonInj nullable.
Proof. intros [a|] [b|] E; try discriminate E; [injection E as ->|]; done. Qed.
#[export] Instance option_inj {A} (f : A -> jsval) :
  JsonInj f -> (forall a, norm (f a) <> JNull) -> JsonInj (from_option f JNull).
Proof. intros Hf Hn [a|] [b|] E; cbn in E; [by apply Hf in E as -> | by apply Hn in E | by symmetry in E; apply Hn in E | done]. Qed.
#[export] Instance nullable_nat_inj : JsonInj nullable_nat.
Proof. apply option_inj; [apply _|done]. Qed.
#[export] Instance list_inj {A} (f : A -> jsval) : JsonInj f -> JsonInj (fun l => JArr (f <$> l)).
Proof.
  intros Hf l l' E. cbn [norm] in E. injection E as E. rewrite <- !list_fmap_compose in E.
  assert (Inj eq eq (norm ∘ f)) by (intros x y; apply Hf). by apply (inj (fmap _)) in E.
Qed.
#[export] Instance texts_inj : JsonInj texts.
Proof. exact (list_inj JStr _). Qed.

(** Enumerations: distinct constructors have distinct texts. *)
Ltac solve_enum := intros a b E; destruct a, b; (reflexivity || (vm_compute in E; discriminate E)).
#[export] Instance mode_inj : JsonInj (fun x => jtext (mode_text x)).
Proof. solve_enum. Qed.
#[export] Instance effect_inj : JsonInj (fun x => jtext (effect_text x)).
Proof. solve_enum. Qed.
#[export] Instance receipt_status_inj : JsonInj (fun x => jtext (receipt_status_text x)).
Proof. solve_enum. Qed.
#[export] Instance outcome_authority_inj : JsonInj (fun x => jtext (outcome_authority_text x)).
Proof. solve_enum. Qed.
#[export] Instance outcome_status_inj : JsonInj (fun x => jtext (outcome_status_text x)).
Proof. solve_enum. Qed.
#[export] Instance worker_status_inj : JsonInj (fun x => jtext (worker_status_text x)).
Proof. solve_enum. Qed.
#[export] Instance slot_status_inj : JsonInj (fun x => jtext (slot_status_text x)).
Proof. solve_enum. Qed.
#[export] Instance purpose_inj : JsonInj (fun x => jtext (purpose_text x)).
Proof. solve_enum. Qed.
#[export] Instance claim_class_inj : JsonInj (fun x => jtext (claim_class_text x)).
Proof. solve_enum. Qed.
#[export] Instance prohibited_class_inj : JsonInj (fun x => jtext (prohibited_class_text x)).
Proof. solve_enum. Qed.
#[export] Instance lifecycle_inj : JsonInj (fun x => jtext (lifecycle_text x)).
Proof. solve_enum. Qed.
#[export] Instance preferred_inj : JsonInj (fun x => jtext (preferred_text x)).
Proof. solve_enum. Qed.
#[export] Instance response_mode_inj : JsonInj (fun x => jtext (response_mode_text x)).
Proof. solve_enum. Qed.

(** An object with fixed property names: one equation per field. *)
Ltac json_fields E :=
  apply norm_fields in E; [|apply (bool_decide_unpack _); vm_compute; exact I | reflexivity];
  unfold field in E; cbn [app] in E;
  repeat match type of E with
  | Forall2 _ (_ :: _) (_ :: _) =>
      let H := fresh "F" in apply Forall2_cons in E as [H E]; cbn [snd] in H
  end; clear E.

(** The equation of a field from the injectivity of its encoding. *)
Ltac json_field H :=
  match type of H with
  | norm (JStr _) = _ => apply str_inj in H
  | norm (jnat _) = _ => apply nat_inj in H
  | norm (JBool _) = _ => apply bool_inj in H
  | norm (nullable _) = _ => apply nullable_inj in H
  | norm (nullable_nat _) = _ => apply nullable_nat_inj in H
  | norm (texts _) = _ => apply texts_inj in H
  | norm (jtext (?t _)) = norm (jtext (?t _)) => apply (json_inj (f := fun x => jtext (t x))) in H
  | norm (JArr (?f <$> _)) = _ => apply (list_inj f _) in H
  | norm (from_option ?f JNull _) = _ => apply (json_inj (f := from_option f JNull)) in H
  end.

(** The injectivity of a record of such fields. *)
Ltac json_record :=
  let E := fresh "E" in
  intros [] [] E; json_fields E;
  repeat match goal with H : norm _ = norm _ |- _ => json_field H end; cbn in *; congruence.

#[export] Instance plane_inj : JsonInj plane_json.
Proof. json_record. Qed.
#[export] Instance plane_option_inj : JsonInj (from_option plane_json JNull).
Proof. apply option_inj; [apply _|]. by intros [] E. Qed.
#[export] Instance receipt_inj : JsonInj receipt_json.
Proof. json_record. Qed.
#[export] Instance worker_inj : JsonInj worker_json.
Proof. json_record. Qed.
#[export] Instance action_inj : JsonInj action_json.
Proof. json_record. Qed.
#[export] Instance allowed_inj : JsonInj allowed_json.
Proof. json_record. Qed.
#[export] Instance prohibited_inj : JsonInj prohibited_json.
Proof. json_record. Qed.
#[export] Instance ambiguity_inj : JsonInj ambiguity_json.
Proof. json_record. Qed.
#[export] Instance slot_inj : JsonInj slot_json.
Proof. json_record. Qed.

Lemma payload_inj p p' : norm (payload_json p) = norm (payload_json p') -> p = p'.
Proof.
  destruct p as [h [[] r [] e i a sl al ph rc wk am []] m], p' as [h' [[] r' [] e' i' a' sl' al' ph' rc' wk' am' []] m'].
  intros E. unfold payload_json, head_fields, tail_fields in E. json_fields E.
  repeat match goal with
  | H : norm (JObj _) = _ |- _ => json_fields H
  | H : norm _ = norm _ |- _ => json_field H || clear H
  end; cbn in *; congruence.
Qed.

(** ** Encodings without surprises *)

Lemma PublicId_units id : PublicIdSchema id = true -> units_ok id.
Proof.
  destruct id as [|c r]; [done|]. cbn [PublicIdSchema]. intros H. to_prop.
  assert (forall x, is_lower x || is_digit x || one_of "._:/-" x = true -> (x < 65536)%N) as Hb.
  { intros x Hx. destruct (N.ltb_spec x 65536); [done|]. exfalso.
    unfold is_digit, is_lower, one_of in Hx. rewrite !orb_true_iff, !andb_true_iff, !N.leb_le, includes_iff in Hx.
    destruct Hx as [Hx|Hx]; [lia|]. apply (proj1 (Forall_forall _ _) (js_units "._:/-")) in Hx. lia. }
  constructor; [apply Hb; by rewrite H | by apply units_ok_forallb with (1 := Hb)].
Qed.

Lemma opt_all_nullable p o : (forall x, p x = true -> units_ok x) -> opt_all p o = true -> val_ok (nullable o).
Proof. destruct o; cbn; auto. Qed.
Lemma nullable_nat_ok o : val_ok (nullable_nat o).
Proof. destruct o; [apply num_of_Z_ok|done]. Qed.
Lemma texts_ok l : forallb PublicIdSchema l = true -> val_ok (texts l).
Proof.
  intros H. apply val_ok_arr, Forall_fmap, Forall_forall. intros x Hx. rewrite forallb_elem in H. by apply PublicId_units, H.
Qed.
Lemma list_ok {A} (ok : A -> bool) (f : A -> jsval) l :
  (forall a, ok a = true -> val_ok (f a)) -> forallb ok l = true -> val_ok (JArr (f <$> l)).
Proof. intros Hf H. apply val_ok_arr, Forall_fmap, Forall_forall. intros x Hx. rewrite forallb_elem in H. cbn. auto. Qed.

#[export] Hint Resolve PublicId_units sha256_units nullable_nat_ok texts_ok opt_all_nullable js_units : hacc.

(** Splits the validity of an object into that of its fields. *)
Ltac json_valid :=
  apply val_ok_obj; split; [apply (bool_decide_unpack _); vm_compute; exact I|];
  unfold field; cbn [app];
  repeat (apply Forall_cons; split; [split; [apply js_units | cbn [snd]]|]); try apply Forall_nil_2;
  try solve [exact (num_of_Z_ok _) | exact (js_units _) | exact I | eauto with hacc | cbn; eauto with hacc].

Lemma plane_ok p : PlaneState_ok p = true -> val_ok (plane_json p).
Proof. unfold PlaneState_ok. intros H. to_prop. json_valid. Qed.
Lemma receipt_ok r : ReceiptSchema_ok r = true -> val_ok (receipt_json r).
Proof. unfold ReceiptSchema_ok. intros H. rewrite !andb_true_iff in H. destruct_and! H. json_valid. Qed.
Lemma worker_ok w : WorkerSchema_ok w = true -> val_ok (worker_json w).
Proof. unfold WorkerSchema_ok. intros H. to_prop. json_valid. Qed.
Lemma action_ok a : ActionSchema_ok a = true -> val_ok (action_json a).
Proof. unfold ActionSchema_ok. intros H. rewrite !andb_true_iff in H. destruct_and! H. json_valid. Qed.
Lemma allowed_ok c : AllowedClaimSchema_ok c = true -> val_ok (allowed_json c).
Proof. unfold AllowedClaimSchema_ok. intros H. to_prop. json_valid. Qed.
Lemma prohibited_ok c : ProhibitedClaimSchema_ok c = true -> val_ok (prohibited_json c).
Proof. unfold ProhibitedClaimSchema_ok. intros H. to_prop. json_valid. Qed.
Lemma ambiguity_ok a : AmbiguitySchema_ok a = true -> val_ok (ambiguity_json a).
Proof. unfold AmbiguitySchema_ok. intros H. to_prop. json_valid. Qed.
Lemma slot_ok l : PublicIdSchema (sl_slot_id l) = true -> val_ok (slot_json l).
Proof. intros H. json_valid. Qed.

(** ** The theorem *)

Section Binding.
Context `{HS : Sha256} {HOk : Sha256Ok HS}.
Implicit Types (s : Source) (p : Payload) (c : Contract) (f : Freshness).

Lemma payload_ok p : TurnContractPayloadSchema_ok p = true -> val_ok (payload_json p).
Proof.
  unfold TurnContractPayloadSchema_ok, source_ok. intros H. rewrite !andb_true_iff in H. destruct_and! H.
  match goal with H : (py_policy_sha256 p =?s _) = true |- _ => apply str_eqb_eq in H; rename H into Hp end.
  match goal with H : ControlPlaneSchema_ok _ = true |- _ => unfold ControlPlaneSchema_ok in H; to_prop end.
  unfold payload_json, head_fields, tail_fields. json_valid.
  - rewrite Hp. apply sha256_units, HOk.
  - json_valid.
  - json_valid; [destruct (cp_flow _)|destruct (cp_mission _)]; try done; by apply plane_ok.
  - eapply list_ok; [apply action_ok|done].
  - by eapply (list_ok (fun l => PublicIdSchema (sl_slot_id l))); [apply slot_ok|].
  - eapply list_ok; [apply allowed_ok|done].
  - eapply list_ok; [apply prohibited_ok|done].
  - eapply list_ok; [apply receipt_ok|done].
  - eapply list_ok; [apply worker_ok|done].
  - eapply list_ok; [apply ambiguity_ok|done].
  - json_valid.
Qed.

Lemma freshness_inj f f' : norm (freshness_json f) = norm (freshness_json f') -> f = f'.
Proof. revert f f'. json_record. Qed.

Lemma freshness_ok f : TurnContractFreshnessSchema_ok f = true -> val_ok (freshness_json f).
Proof. unfold TurnContractFreshnessSchema_ok. intros H. to_prop. json_valid. Qed.

Lemma actual_ok n s : source_ok n s = true -> TurnContractFreshnessSchema_ok (actualFreshness s) = true.
Proof.
  unfold source_ok, TurnContractFreshnessSchema_ok, ControlPlaneSchema_ok, opt_all, PlaneState_ok, actualFreshness. cbn.
  intros H. rewrite !andb_true_iff in *. destruct_and! H.
  split_and!; try done; destruct (cp_flow _), (cp_mission _); cbn in *; try done; rewrite ?andb_true_iff in *; tauto.
Qed.

(** The textual comparison of freshness is equality. *)
Lemma assertFreshness_Ok n s f :
  source_ok n s = true -> assertFreshness s f = Ok tt ->
  actualFreshness s = f /\ Forall (fun e => e = so_capability_epoch s) (plane_epochs (so_control_plane s)).
Proof.
  unfold assertFreshness, canonicalRuntimeControlJson. intros Hs%actual_ok H.
  destruct (TurnContractFreshnessSchema_ok f) eqn:Hf; [|done]. cbn [negb] in H.
  destruct (bool_decide _) eqn:E; [|done]. cbn [negb] in H. destruct (existsb _ _) eqn:Ex; [done|]. to_prop. split.
  - destruct (canonicalJson (freshness_json f)) as [t|] eqn:Et.
    + apply freshness_inj. eapply canonicalJson_inj; [by apply freshness_ok.. | exact E | exact Et].
    + exfalso. destruct f as [? ? ? [|] [|] [|] [|] ? ?]; cbn in Et; by rewrite ?num_of_Z_finite in Et.
  - rewrite Forall_forall. rewrite existsb_elem_false in Ex. intros e He. specialize (Ex e He). by to_prop.
Qed.

Lemma contract_eq c c' :
  ct_payload c = ct_payload c' -> ct_byte_length c = ct_byte_length c' -> ct_sha256 c = ct_sha256 c' -> c = c'.
Proof. destruct c, c'. cbn. by intros -> -> ->. Qed.

Ltac pass_guard :=
  match goal with |- (if ?b then Err _ else _) = Ok _ -> _ => destruct b eqn:?; [done|] end.

Lemma assert_Ok c e r :
  assertProductionTurnContract c e = Ok r ->
  r = c /\ TurnContractPayloadSchema_ok (ct_payload c) = true /\
  assertFreshness (py_source (ct_payload c)) (ex_freshness e) = Ok tt /\ ct_sha256 c = ex_contract_sha256 e /\
  exists text, turnContractCanonicalPayload c = Some text /\ ct_byte_length c = utf8_length text /\
    ct_sha256 c = runtimeControlSha256 CONTRACT_DOMAIN text.
Proof.
  unfold assertProductionTurnContract, ProductionTurnContractSchema_ok.
  destruct (TurnContractPayloadSchema_ok _) eqn:Eo; [|done]. cbn [andb].
  pass_guard. pass_guard. destruct (turnContractCanonicalPayload c) as [text|] eqn:Et; [|done].
  do 3 pass_guard. destruct (normalizeSource _) as [n|]; [|done]. cbn [bind_result]. pass_guard.
  destruct (validateSemantics _) as [[]|]; [|done]. cbn [bind_result]. pass_guard.
  destruct (assertFreshness _ _) as [[]|] eqn:Ef; [|done]. intros [= <-]. to_prop.
  split_and!; [done..|]. exists text. by split_and!.
Qed.

(** The hashed texts of two contracts differ and have one digest. *)
Definition contracts_collide c c' : Prop :=
  exists t t', turnContractCanonicalPayload c = Some t /\ turnContractCanonicalPayload c' = Some t' /\ t <> t' /\
    runtimeControlSha256 CONTRACT_DOMAIN t = runtimeControlSha256 CONTRACT_DOMAIN t'.

(** Two contracts with one hash are the same contract. *)
Lemma created_hash_inj src f c src' f' c' :
  createProductionTurnContract src f = Ok c -> createProductionTurnContract src' f' = Ok c' ->
  ct_sha256 c = ct_sha256 c' -> c = c' \/ contracts_collide c c'.
Proof.
  intros (s & text & _ & _ & _ & _ & Hok & Ht & Hl & _ & Hh)%create_Ok.
  intros (s' & text' & _ & _ & _ & _ & Hok' & Ht' & Hl' & _ & Hh')%create_Ok E.
  destruct (decide (text = text')) as [->|Hne].
  - left. apply contract_eq; [|congruence|done].
    apply payload_inj. eapply canonicalJson_inj; [by apply payload_ok.. | exact Ht | exact Ht'].
  - right. exists text, text'. split_and!; [exact Ht|exact Ht'|exact Hne|congruence].
Qed.

(** A contract keeps the freshness it was created under. *)
Lemma created_freshness src f c :
  createProductionTurnContract src f = Ok c -> actualFreshness (py_source (ct_payload c)) = f.
Proof.
  intros (s & text & Hn & Hf & _ & Hp & _)%create_Ok. apply normalizeSource_Ok in Hn as [_ Hs].
  apply (assertFreshness_Ok _ _ _ Hs) in Hf as [<- _].
  destruct (payloadFromSource_Ok _ _ Hp) as (i & a & al & ph & _ & E & _). by rewrite E.
Qed.

(** The hash that the host retains binds the contract: whatever contract [assertProductionTurnContract] later accepts
    under the hash of a contract it created is that contract, unchanged, under the very freshness it was created with;
    anything else is a collision of SHA-256 with that contract. *)
Theorem contract_hash_binds src f c c' f' r :
  createProductionTurnContract src f = Ok c ->
  assertProductionTurnContract c' {| ex_freshness := f'; ex_contract_sha256 := ct_sha256 c |} = Ok r ->
  r = c' /\ ((c' = c /\ f' = f) \/ contracts_collide c' c).
Proof.
  intros (s & text & Hn & Hf & _ & Hp & Hok & Ht & Hl & _ & Hh)%create_Ok.
  intros (-> & Hok' & Hf' & Ee & text' & Ht' & Hl' & Hh')%assert_Ok. project. split; [done|]. cbn in Ee, Hf'.
  destruct (decide (text' = text)) as [->|Hne].
  - left. assert (ct_payload c' = ct_payload c) as Epay.
    { apply payload_inj. eapply canonicalJson_inj; [by apply payload_ok.. | exact Ht' | exact Ht]. }
    split; [apply contract_eq; congruence|].
    apply normalizeSource_Ok in Hn as [_ Hs]. apply (assertFreshness_Ok _ _ _ Hs) in Hf as [<- _].
    apply andb_true_iff in Hok' as [_ Hs']. apply (assertFreshness_Ok _ _ _ Hs') in Hf' as [<- _].
    destruct (payloadFromSource_Ok _ _ Hp) as (i & a & al & ph & _ & E & _). by rewrite Epay, E.
  - right. exists text', text. split_and!; [exact Ht'|exact Ht|exact Hne|congruence].
Qed.
End Binding.
