(* ===== verification/TurnContractDemo.v ===== *)
(** * A turn contract of a refund call

    A call in which a booking was confirmed and a refund is in doubt: its contracts, and two
    contracts that are created but not accepted when they are read back. *)

From S2P Require Import Prelude JsValue JsText Canonical Graph Flow FlowValidate FlowRuntime.
From S2P Require Import TurnContract TurnContractProps TurnContractBinding.
Import TurnContract.

Local Open Scope Z_scope.

#[local] Existing Instance demo_sha256.

Definition digest (s : string) : jstr := @sha256 demo_sha256 (js s).

Definition lookup_refund : Action :=
  {| ac_action_id := js "refund.lookup"; ac_effect := Read; ac_purpose := Reconciliation;
     ac_policy_sha256 := digest "lookup policy"; ac_semantic_sha256 := digest "lookup" |}.
Definition issue_refund : Action :=
  {| ac_action_id := js "refund.issue"; ac_effect := Write; ac_purpose := Operation;
     ac_policy_sha256 := digest "issue policy"; ac_semantic_sha256 := digest "issue" |}.

Definition booked : Receipt :=
  {| rc_receipt_id := js "r.booking"; rc_action_id := js "booking.confirm"; rc_action_semantic_sha256 := digest "confirm";
     rc_effect := Write; rc_capability_epoch := 3; rc_status := RSucceeded; rc_outcome_authority := EffectOutcome;
     rc_outcome_predicate_sha256 := digest "seat held"; rc_outcome_status := OSatisfied;
     rc_settled_revision := Some 11; rc_receipt_sha256 := digest "booking receipt" |}.
Definition in_doubt : Receipt :=
  {| rc_receipt_id := js "r.refund"; rc_action_id := js "refund.issue"; rc_action_semantic_sha256 := digest "issue";
     rc_effect := Write; rc_capability_epoch := 3; rc_status := RIndeterminate; rc_outcome_authority := EffectOutcome;
     rc_outcome_predicate_sha256 := digest "money sent"; rc_outcome_status := OUnverified;
     rc_settled_revision := Some 12; rc_receipt_sha256 := digest "refund receipt" |}.
Definition quarantine : Ambiguity :=
  {| am_ambiguity_id := js "a.refund"; am_reason_code := js "gateway.timeout"; am_receipt_id := Some (js "r.refund");
     am_designated := [js "refund.lookup"] |}.

Definition claim_booked : AllowedClaim :=
  {| al_claim_id := js "claim.booked"; al_claim_class := EffectSuccess; al_supporting_receipt_id := Some (js "r.booking");
     al_supporting_action_id := Some (js "booking.confirm");
     al_required_action_semantic_sha256 := Some (digest "confirm");
     al_required_outcome_predicate_sha256 := Some (digest "seat held");
     al_claim_semantic_sha256 := digest "booked" |}.
Definition claim_handoff : AllowedClaim :=
  {| al_claim_id := js "claim.agent"; al_claim_class := Handoff; al_supporting_receipt_id := None;
     al_supporting_action_id := None; al_required_action_semantic_sha256 := None;
     al_required_outcome_predicate_sha256 := None; al_claim_semantic_sha256 := digest "agent" |}.

Definition call_source (refresh : bool) (receipts : list Receipt) (ambiguities : list Ambiguity)
    (prohibited : list ProhibitedClaim) : Source :=
  mkSource {| cv_conversation_id := js "call.7"; cv_revision := 12; cv_head_sha256 := digest "head" |} (digest "registry")
    {| cp_mode := FlowMode; cp_mission := None;
       cp_flow := Some {| pl_revision := 5; pl_capability_epoch := 3; pl_state_sha256 := digest "flow" |} |}
    3 [js "route.refund"] [lookup_refund; issue_refund] [{| sl_slot_id := js "slot.order"; sl_status := SlotPresent |}]
    [claim_handoff; claim_booked] prohibited receipts [] ambiguities
    {| lf_status := LActive; lf_refresh_required := refresh; lf_preferred := PrAct |}.

Definition call_freshness : Freshness :=
  {| fs_conversation_id := js "call.7"; fs_conversation_revision := 12; fs_conversation_head_sha256 := digest "head";
     fs_flow_revision := Some 5; fs_flow_state_sha256 := Some (digest "flow"); fs_mission_revision := None;
     fs_mission_state_sha256 := None; fs_capability_epoch := 3; fs_registry_sha256 := digest "registry" |}.

Definition contract_of (s : Source) : Contract :=
  match createProductionTurnContract s call_freshness with
  | Ok c => c
  | Err _ => mkContract (mkPayload [] s MFailClosed) 0 []
  end.

(** The call after the booking, the same call with the refund in doubt. *)
Definition settled_call : Source := call_source false [booked] [] [].
Definition doubtful_call : Source := call_source false [in_doubt; booked] [quarantine] [].

Lemma settled_created : createProductionTurnContract settled_call call_freshness = Ok (contract_of settled_call).
Proof. vm_compute. reflexivity. Qed.
Lemma doubtful_created : createProductionTurnContract doubtful_call call_freshness = Ok (contract_of doubtful_call).
Proof. vm_compute. reflexivity. Qed.

Definition read_back (c : Contract) : result TurnContractError Contract :=
  assertProductionTurnContract c {| ex_freshness := call_freshness; ex_contract_sha256 := ct_sha256 c |}.

Lemma contract_round_trip_witness : read_back (contract_of doubtful_call) = Ok (contract_of doubtful_call).
Proof.
  apply (contract_round_trip doubtful_call call_freshness); [exact doubtful_created|]. split; [vm_compute; lia|].
  intros H. vm_compute in H. discriminate H.
Defined.

Lemma success_claims_backed_witness :
  exists r, backs (py_source (ct_payload (contract_of settled_call))) claim_booked r.
Proof.
  apply (success_claims_backed settled_call call_freshness (contract_of settled_call) claim_booked);
    [exact settled_created | | reflexivity].
  apply list_elem_of_lookup_2 with 1%nat. vm_compute. reflexivity.
Defined.

Lemma indeterminate_effect_frozen_witness :
  so_eligible_intents (py_source (ct_payload (contract_of doubtful_call))) = [].
Proof.
  apply (indeterminate_effect_frozen doubtful_call call_freshness); [exact doubtful_created|].
  left. exists in_doubt. split; [apply list_elem_of_lookup_2 with 1%nat|]; vm_compute; reflexivity.
Defined.

Lemma settled_read_back :
  assertProductionTurnContract (contract_of settled_call)
    {| ex_freshness := call_freshness; ex_contract_sha256 := ct_sha256 (contract_of settled_call) |} =
  Ok (contract_of settled_call).
Proof. vm_compute. reflexivity. Qed.

Lemma contract_hash_binds_witness :
  let c := contract_of settled_call in c = c /\ ((c = c /\ call_freshness = call_freshness) \/ contracts_collide c c).
Proof.
  apply (contract_hash_binds settled_call call_freshness (contract_of settled_call) (contract_of settled_call)
           call_freshness (contract_of settled_call)).
  - exact settled_created.
  - exact settled_read_back.
Defined.

(** ** Contracts that cannot be read back *)

(** With a refresh required, the frontier is emptied but the designation stays. *)
Example refresh_loses_designated_repair :
  let c := contract_of (call_source true [in_doubt; booked] [quarantine] []) in
  createProductionTurnContract (call_source true [in_doubt; booked] [quarantine] []) call_freshness = Ok c /\
  read_back c = Err (Ambiguous, "designated reconciliation action is outside the capability frontier"%string).
Proof. vm_compute. split; reflexivity. Qed.

(** 252 prohibited claims of the source and one of the system. *)
Definition many_claims : list ProhibitedClaim :=
  (fun n => {| ph_claim_id := js "claim." ++ hex_digits 3 (N.of_nat n); ph_claim_class := PUnsupported;
               ph_reason_code := js "policy" |}) <$> seq 0 252.

Example full_prohibitions_unreadable :
  let c := contract_of (call_source false [booked] [] many_claims) in
  createProductionTurnContract (call_source false [booked] [] many_claims) call_freshness = Ok c /\
  read_back c = Err (Invalid, "turn contract source is invalid"%string).
Proof. vm_compute. split; reflexivity. Qed.
