(* ===== verification/SampleRanges.v ===== *)
(** * Sets of audio samples as sorted ranges (src/web/lib/audibility-v2/ledger.ts)

    The ledger represents sets of samples by lists of half-open ranges. This file has the
    operations on them and shows that they are the operations on sets: a list denotes the
    samples it covers, and its normal form is the only one with that denotation. *)

From S2P Require Import Prelude.

Local Open Scope Z_scope.

Definition MAX_SAFE : Z := 9007199254740991.

(** [Number.isSafeInteger(value) && value >= minimum], on integers. *)
Definition isSafeInteger (value minimum : Z) : bool := (Z.abs value <=? MAX_SAFE) && (minimum <=? value).

Record SampleRange := mkRange { startSample : Z; endSample : Z }.
#[export] Instance sample_range_eq_dec : EqDecision SampleRange.
Proof. solve_decision. Defined.

Definition isRange (r : SampleRange) : bool :=
  isSafeInteger (startSample r) 0 && isSafeInteger (endSample r) 1 && (startSample r <? endSample r).

(** [left.startSample - right.startSample || left.endSample - right.endSample] is negative. *)
Definition range_ltb (l r : SampleRange) : bool :=
  (startSample l <? startSample r) || ((startSample l =? startSample r) && (endSample l <? endSample r)).

(** One round of the merging loop; the list built so far is reversed. *)
Definition push_range (normalized : list SampleRange) (range : SampleRange) : list SampleRange :=
  match normalized with
  | [] => [range]
  | previous :: rest =>
      if endSample previous <? startSample range then range :: normalized
      else if endSample previous <? endSample range then mkRange (startSample previous) (endSample range) :: rest
      else normalized
  end.

Definition normalizeSampleRanges (ranges : list SampleRange) : list SampleRange :=
  reverse (fold_left push_range (sort_by range_ltb (List.filter isRange ranges)) []).

Definition intersectRange (left right : SampleRange) : option SampleRange :=
  let start := Z.max (startSample left) (startSample right) in
  let stop := Z.min (endSample left) (endSample right) in
  if start <? stop then Some (mkRange start stop) else None.

Definition intersectRanges (left right : list SampleRange) : list SampleRange :=
  normalizeSampleRanges (flat_map (fun l => omap (intersectRange l) right) left).

Definition cut_range (cut range : SampleRange) : list SampleRange :=
  if (endSample cut <=? startSample range) || (endSample range <=? startSample cut) then [range]
  else (if startSample range <? startSample cut then [mkRange (startSample range) (startSample cut)] else []) ++
       (if endSample cut <? endSample range then [mkRange (endSample cut) (endSample range)] else []).

Definition subtractRanges (source removed : list SampleRange) : list SampleRange :=
  fold_left (fun remaining cut => flat_map (cut_range cut) remaining) (normalizeSampleRanges removed)
    (normalizeSampleRanges source).

Definition coversRange (covering : list SampleRange) (target : SampleRange) : bool :=
  bool_decide (subtractRanges [target] covering = []).

Definition rangesOverlap (left right : SampleRange) : bool :=
  (startSample left <? endSample right) && (startSample right <? endSample left).

(** ** The samples of a list of ranges *)

Definition within (r : SampleRange) (x : Z) : Prop := startSample r <= x < endSample r.
Definition samples (rs : list SampleRange) (x : Z) : Prop := exists r, r ∈ rs /\ within r x.

Lemma samples_nil x : ~ samples [] x.
Proof. intros (r & Hr & _). by apply elem_of_nil in Hr. Qed.
Lemma samples_cons r rs x : samples (r :: rs) x <-> within r x \/ samples rs x.
Proof. unfold samples. setoid_rewrite elem_of_cons. naive_solver. Qed.
Lemma samples_app l l' x : samples (l ++ l') x <-> samples l x \/ samples l' x.
Proof. unfold samples. setoid_rewrite elem_of_app. naive_solver. Qed.
Lemma samples_perm l l' x : l ≡ₚ l' -> samples l x <-> samples l' x.
Proof. intros E. unfold samples. by setoid_rewrite E. Qed.
Lemma samples_subset l l' x : l ⊆ l' -> samples l x -> samples l' x.
Proof. intros H (r & Hr & Hx). exists r. auto. Qed.
Lemma samples_flat_map {A} (f : A -> list SampleRange) l x :
  samples (flat_map f l) x <-> exists a, a ∈ l /\ samples (f a) x.
Proof. unfold samples. setoid_rewrite elem_of_flat_map. naive_solver. Qed.

Lemma isRange_bounds r : isRange r = true -> 0 <= startSample r < endSample r /\ endSample r <= MAX_SAFE.
Proof. unfold isRange, isSafeInteger. intros H. to_prop. lia. Qed.

Lemma filter_isRange rs : Forall (fun r => isRange r = true) rs -> List.filter isRange rs = rs.
Proof. induction 1 as [|r rs Hr _ IH]; simpl; [done|]. by rewrite Hr, IH. Qed.

(** ** Normal form: ranges in order, with a gap between neighbours *)

Definition spaced (rs : list SampleRange) : Prop :=
  Forall (fun r => isRange r = true) rs /\ StronglySorted (fun l r => endSample l < startSample r) rs.

Definition ordered (rs : list SampleRange) : Prop :=
  StronglySorted (fun l r => startSample l <= startSample r) rs.

Lemma sort_ordered rs : ordered (sort_by range_ltb rs).
Proof.
  assert (forall r l, ordered l -> ordered (insert_by range_ltb r l)) as Hi.
  { intros r l. induction 1 as [|y l Hl IH Hy]; cbn [insert_by]; [repeat constructor|].
    destruct (range_ltb y r) eqn:E.
    - constructor; [exact IH|]. rewrite insert_by_perm. constructor; [|done].
      unfold range_ltb in E. apply orb_true_iff in E as [E|E]; to_prop; lia.
    - constructor; [by constructor|].
      assert (startSample r <= startSample y) as Hry.
      { unfold range_ltb in E. to_prop. apply andb_false_iff in H0 as [?|?]; to_prop; lia. }
      constructor; [done|]. eapply Forall_impl; [exact Hy|]. cbn. lia. }
  induction rs as [|r rs IH]; cbn [sort_by]; [constructor | by apply Hi].
Qed.

(** The loop on an ordered rest: the built part stays in normal form. *)
Definition built (acc : list SampleRange) : Prop :=
  Forall (fun r => isRange r = true) acc /\ StronglySorted (fun r l => endSample l < startSample r) acc.

Lemma push_built acc range :
  built acc -> isRange range = true -> Forall (fun r => startSample r <= startSample range) acc ->
  built (push_range acc range) /\ (forall x, samples (push_range acc range) x <-> samples acc x \/ within range x) /\
  Forall (fun r => startSample r <= startSample range) (push_range acc range).
Proof.
  intros [Hv Hs] Hr Hle. pose proof (isRange_bounds _ Hr). destruct acc as [|p acc]; cbn [push_range].
  { split_and!; [repeat constructor; done | intros x; rewrite samples_cons; naive_solver | repeat constructor; lia]. }
  apply Forall_cons in Hv as [Hp Hv], Hle as [Hlp Hle]. apply StronglySorted_inv in Hs as [Hs Hps].
  pose proof (isRange_bounds _ Hp). destruct (Z.ltb_spec (endSample p) (startSample range)).
  - split_and!; [split| |].
    + by constructor; [|constructor].
    + constructor; [by constructor|]. constructor; [done|]. eapply Forall_impl; [exact Hps|]. cbn. lia.
    + intros x. rewrite !samples_cons. naive_solver.
    + constructor; [lia|]. by constructor.
  - destruct (Z.ltb_spec (endSample p) (endSample range)); [|split_and!; [split| |]]; [split_and!; [split| |]|..].
    + constructor; [|done]. unfold isRange, isSafeInteger in *. cbn. to_prop. rewrite !andb_true_iff, !Z.leb_le, Z.ltb_lt. lia.
    + by constructor.
    + intros x. rewrite !samples_cons. assert (within (mkRange (startSample p) (endSample range)) x <-> within p x \/ within range x)
        by (unfold within; cbn; lia). tauto.
    + constructor; [cbn; lia|done].
    + by constructor.
    + by constructor.
    + intros x. rewrite !samples_cons. assert (within range x -> within p x) by (unfold within; lia). tauto.
    + constructor; [lia|done].
Qed.

Lemma fold_push l : forall acc,
  built acc -> Forall (fun r => isRange r = true) l -> ordered l ->
  Forall (fun s => Forall (fun r => startSample r <= startSample s) acc) l ->
  built (fold_left push_range l acc) /\
  (forall x, samples (fold_left push_range l acc) x <-> samples acc x \/ samples l x).
Proof.
  induction l as [|r l IH]; intros acc Hb Hv Ho Hle; cbn [fold_left].
  { split; [done|]. intros x. pose proof (samples_nil x). tauto. }
  apply Forall_cons in Hv as [Hr Hv], Hle as [Hlr Hle]. apply StronglySorted_inv in Ho as [Ho Hro].
  destruct (push_built acc r Hb Hr Hlr) as (Hb' & Hx & Hle'). destruct (IH _ Hb' Hv Ho) as [H1 H2].
  - rewrite Forall_forall in Hro |- *. intros s Hs. specialize (Hro _ Hs). eapply Forall_impl; [exact Hle'|]. cbn. lia.
  - split; [done|]. intros x. rewrite H2, Hx, samples_cons. tauto.
Qed.

Lemma StronglySorted_reverse {A} (R : A -> A -> Prop) l :
  StronglySorted R l -> StronglySorted (fun x y => R y x) (reverse l).
Proof.
  induction 1 as [|x l Hl IH Hx]; [constructor|]. rewrite reverse_cons. clear Hl.
  assert (Forall (R x) (reverse l)) as Hx' by by rewrite reverse_Permutation. revert IH Hx'. generalize (reverse l) as m.
  induction m as [|y m IHm]; intros Hs Hf; cbn; [repeat constructor|].
  apply StronglySorted_inv in Hs as [Hs Hy]. apply Forall_cons in Hf as [Hxy Hf].
  constructor; [by apply IHm|]. apply Forall_app. split; [done|by constructor].
Qed.

Lemma normalize_spec rs :
  spaced (normalizeSampleRanges rs) /\
  (forall x, samples (normalizeSampleRanges rs) x <-> samples (List.filter isRange rs) x).
Proof.
  set (l := sort_by range_ltb (List.filter isRange rs)).
  assert (l ≡ₚ List.filter isRange rs) as Hp by apply sort_by_perm.
  assert (Forall (fun r => isRange r = true) l) as Hv.
  { rewrite Hp. apply Forall_forall. intros r. rewrite elem_of_filter_list. tauto. }
  destruct (fold_push l []) as [[Hv' Hs] Hx]; [by split; constructor|done|apply sort_ordered| |].
  { apply Forall_true. constructor. }
  unfold normalizeSampleRanges. fold l. split; [split|].
  - by rewrite reverse_Permutation.
  - by apply (StronglySorted_reverse (fun r l => endSample l < startSample r)).
  - intros x. rewrite (samples_perm _ _ x (reverse_Permutation _)), Hx, (samples_perm _ _ x Hp).
    pose proof (samples_nil x). tauto.
Qed.

Lemma spaced_tail r l x : spaced (r :: l) -> samples l x -> endSample r < x.
Proof.
  intros [_ [_ Hr]%StronglySorted_inv] (s & Hs & Hx). rewrite Forall_forall in Hr. specialize (Hr _ Hs).
  unfold within in Hx. lia.
Qed.

Lemma spaced_cons r l : spaced (r :: l) -> spaced l /\ 0 <= startSample r < endSample r.
Proof.
  intros [[Hr Hv]%Forall_cons [Hs _]%StronglySorted_inv]. pose proof (isRange_bounds _ Hr). split; [by split|lia].
Qed.

Lemma samples_here r l x : within r x -> samples (r :: l) x.
Proof. intros H. apply samples_cons. by left. Qed.

(** Of two spaced lists with the same samples, the first ranges start and end together. *)
Lemma spaced_head_le r l s m :
  spaced (r :: l) -> spaced (s :: m) -> (forall x, samples (r :: l) x -> samples (s :: m) x) ->
  startSample s <= startSample r /\ (startSample r = startSample s -> endSample r <= endSample s).
Proof.
  intros Hl Hm Hsub. pose proof (spaced_cons _ _ Hl) as [_ Hr]. pose proof (spaced_cons _ _ Hm) as [_ Hs]. split.
  - assert (within r (startSample r)) as Hin by (unfold within; lia).
    apply (samples_here r l), Hsub, samples_cons in Hin as [H|H]; [unfold within in H; lia|].
    apply (spaced_tail s m) in H; [lia|done].
  - intros E. destruct (Z.le_gt_cases (endSample r) (endSample s)); [done|].
    assert (within r (endSample s)) as Hin by (unfold within; lia).
    apply (samples_here r l), Hsub, samples_cons in Hin as [H'|H']; [unfold within in H'; lia|].
    apply (spaced_tail s m) in H'; [lia|done].
Qed.

Lemma spaced_unique l m : spaced l -> spaced m -> (forall x, samples l x <-> samples m x) -> l = m.
Proof.
  revert m. induction l as [|r l IH]; intros [|s m] Hl Hm Heq; [done|..].
  - exfalso. apply (samples_nil (startSample s)), Heq. apply samples_cons. left. apply spaced_cons in Hm as [_ ?]. unfold within. lia.
  - exfalso. apply (samples_nil (startSample r)), Heq. apply samples_cons. left. apply spaced_cons in Hl as [_ ?]. unfold within. lia.
  - destruct (spaced_head_le r l s m Hl Hm (fun x => proj1 (Heq x))) as [H1 H2].
    destruct (spaced_head_le s m r l Hm Hl (fun x => proj2 (Heq x))) as [H3 H4].
    assert (r = s) as <- by (destruct r, s; cbn in *; f_equal; lia). f_equal.
    apply IH; [by apply spaced_cons in Hl as [??] | by apply spaced_cons in Hm as [??]|].
    intros x. specialize (Heq x). rewrite !samples_cons in Heq.
    split; intros Hx; [pose proof (spaced_tail _ _ x Hl Hx) | pose proof (spaced_tail _ _ x Hm Hx)];
      assert (~ within r x) by (unfold within; lia); tauto.
Qed.

(** ** The operations on samples *)

Lemma normalize_samples rs x : Forall (fun r => isRange r = true) rs -> samples (normalizeSampleRanges rs) x <-> samples rs x.
Proof. intros H. by rewrite (proj2 (normalize_spec rs)), filter_isRange. Qed.

Lemma normalize_valid rs : Forall (fun r => isRange r = true) (normalizeSampleRanges rs).
Proof. apply normalize_spec. Qed.

Lemma normalize_id rs : spaced rs -> normalizeSampleRanges rs = rs.
Proof.
  intros Hs. apply spaced_unique; [apply normalize_spec|done|]. intros x. apply normalize_samples, Hs.
Qed.

Lemma cut_range_samples cut range x :
  startSample cut < endSample cut -> samples (cut_range cut range) x <-> within range x /\ ~ within cut x.
Proof.
  intros Hc. unfold cut_range, within.
  destruct (Z.leb_spec (endSample cut) (startSample range)), (Z.leb_spec (endSample range) (startSample cut)); cbn [orb];
    [rewrite samples_cons; pose proof (samples_nil x); unfold within; intuition lia..|].
  destruct (Z.ltb_spec (startSample range) (startSample cut)), (Z.ltb_spec (endSample cut) (endSample range)); cbn [app];
    rewrite ?samples_cons; pose proof (samples_nil x); unfold within; cbn; intuition lia.
Qed.

(** Cutting keeps the normal form. *)
Lemma cut_spaced cut l :
  isRange cut = true -> spaced l -> spaced (flat_map (cut_range cut) l).
Proof.
  intros Hc. pose proof (isRange_bounds _ Hc). induction l as [|r l IH]; intros Hs; cbn [flat_map]; [done|].
  destruct (IH (proj1 (spaced_cons _ _ Hs))) as [Hv Hsrt]. destruct Hs as [[Hr _]%Forall_cons [_ Hrl]%StronglySorted_inv].
  pose proof (isRange_bounds _ Hr).
  assert (Forall (fun s => endSample r < startSample s) (flat_map (cut_range cut) l)) as Hafter.
  { rewrite Forall_forall in Hrl |- *. intros s (a & Ha & Hs)%elem_of_flat_map. specialize (Hrl _ Ha).
    unfold cut_range in Hs. destruct (_ || _) eqn:Eo; [apply list_elem_of_singleton in Hs as ->; done|]. to_prop.
    apply elem_of_app in Hs as [Hs|Hs]; destruct (_ <? _) eqn:El; apply list_elem_of_singleton in Hs || apply elem_of_nil in Hs;
      try done; subst s; cbn; lia. }
  unfold cut_range. destruct (_ || _) eqn:Eo; [split; by constructor|]. to_prop.
  assert (forall a b, startSample r <= a -> a < b -> b <= endSample r -> isRange (mkRange a b) = true) as Hok.
  { intros a b Ha Hab Hb. unfold isRange, isSafeInteger. cbn. rewrite !andb_true_iff, !Z.leb_le, Z.ltb_lt. lia. }
  assert (forall b, b <= endSample r -> Forall (fun s => b < startSample s) (flat_map (cut_range cut) l)) as Hb.
  { intros b Hb. eapply Forall_impl; [exact Hafter|]. cbn. lia. }
  destruct (Z.ltb_spec (startSample r) (startSample cut)), (Z.ltb_spec (endSample cut) (endSample r)); cbn [app];
    split; repeat (apply Forall_cons || constructor); try done; try (apply Hok; lia); try apply Hb; cbn; lia.
Qed.

Lemma subtract_spec source removed :
  spaced (subtractRanges source removed) /\
  (forall x, samples (subtractRanges source removed) x <->
     samples (normalizeSampleRanges source) x /\ ~ samples (normalizeSampleRanges removed) x).
Proof.
  unfold subtractRanges. destruct (normalize_spec source) as [Hs _]. revert Hs.
  generalize (normalizeSampleRanges source) as l. pose proof (normalize_valid removed) as Hv.
  revert Hv. generalize (normalizeSampleRanges removed) as cuts.
  induction cuts as [|c cuts IH]; intros Hv l Hs; cbn [fold_left].
  - split; [done|]. intros x. pose proof (samples_nil x). tauto.
  - apply Forall_cons in Hv as [Hc Hv]. destruct (IH Hv _ (cut_spaced c l Hc Hs)) as [H1 H2]. split; [done|].
    intros x. rewrite H2, samples_flat_map, samples_cons. pose proof (isRange_bounds _ Hc).
    assert (forall a, samples (cut_range c a) x <-> within a x /\ ~ within c x) as Hcut by (intros; apply cut_range_samples; lia).
    split.
    + intros [(a & Ha & [Hax Hcx]%Hcut) Hn]. split; [by exists a | tauto].
    + intros [(a & Ha & Hax) Hn]. split; [|tauto]. exists a. split; [done|]. apply Hcut. tauto.
Qed.

Lemma subtract_samples source removed x :
  Forall (fun r => isRange r = true) source -> Forall (fun r => isRange r = true) removed ->
  samples (subtractRanges source removed) x <-> samples source x /\ ~ samples removed x.
Proof. intros H1 H2. by rewrite (proj2 (subtract_spec _ _)), !normalize_samples. Qed.

Lemma spaced_nil l : spaced l -> (forall x, ~ samples l x) -> l = [].
Proof.
  destruct l as [|r l]; [done|]. intros [_ Hr]%spaced_cons H. exfalso.
  apply (H (startSample r)), samples_here. unfold within. lia.
Qed.

Lemma covers_iff covering target :
  Forall (fun r => isRange r = true) covering -> isRange target = true ->
  coversRange covering target = true <-> forall x, within target x -> samples covering x.
Proof.
  intros Hc Ht. unfold coversRange. rewrite bool_decide_eq_true.
  assert (Forall (fun r => isRange r = true) [target]) as Hts by by constructor.
  split; [intros E x Hx | intros H].
  - assert (~ samples (subtractRanges [target] covering) x) as Hn by (rewrite E; apply samples_nil).
    rewrite subtract_samples in Hn by done. destruct (decide (Exists (fun r => startSample r <= x < endSample r) covering)) as [He|He].
    + apply Exists_exists in He. exact He.
    + exfalso. apply Hn. split; [by apply samples_here|]. intros Hs. by apply He, Exists_exists.
  - apply spaced_nil; [apply subtract_spec|]. intros x. rewrite subtract_samples by done.
    rewrite samples_cons. pose proof (samples_nil x). naive_solver.
Qed.

Lemma intersect_valid l r :
  isRange l = true -> isRange r = true -> forall i, intersectRange l r = Some i -> isRange i = true.
Proof.
  intros Hl%isRange_bounds Hr%isRange_bounds i. unfold intersectRange. destruct (Z.ltb_spec (Z.max (startSample l) (startSample r)) (Z.min (endSample l) (endSample r))); [|done].
  intros [= <-]. unfold isRange, isSafeInteger. cbn. rewrite !andb_true_iff, !Z.leb_le, Z.ltb_lt. lia.
Qed.

Lemma intersect_samples left right x :
  Forall (fun r => isRange r = true) left -> Forall (fun r => isRange r = true) right ->
  samples (intersectRanges left right) x <-> samples left x /\ samples right x.
Proof.
  intros Hl Hr. unfold intersectRanges. rewrite normalize_samples.
  - rewrite samples_flat_map. unfold samples. setoid_rewrite list_elem_of_omap. split.
    + intros (a & Ha & i & (b & Hb & E) & Hi). unfold intersectRange in E. destruct (_ <? _) eqn:El; [|done].
      injection E as <-. unfold within in *. cbn in Hi. split; [exists a | exists b]; (split; [done|lia]).
    + intros [(a & Ha & Hxa) (b & Hb & Hxb)]. unfold within in *.
      exists a. split; [done|]. eexists. split; [exists b; split; [done|]|].
      * unfold intersectRange. destruct (Z.ltb_spec (Z.max (startSample a) (startSample b)) (Z.min (endSample a) (endSample b))); [done|lia].
      * cbn. lia.
  - apply Forall_forall. intros i (a & Ha & (b & Hb & E)%list_elem_of_omap)%elem_of_flat_map.
    rewrite Forall_forall in Hl, Hr. eauto using intersect_valid.
Qed.

Lemma overlap_iff l r :
  isRange l = true -> isRange r = true -> rangesOverlap l r = true <-> exists x, within l x /\ within r x.
Proof.
  intros Hl%isRange_bounds Hr%isRange_bounds. unfold rangesOverlap, within. rewrite andb_true_iff, !Z.ltb_lt. split.
  - intros H. exists (Z.max (startSample l) (startSample r)). lia.
  - intros (x & ? & ?). lia.
Qed.

(** C31. Lists of ranges implement sets of samples: the normal form has the same samples and is the only one for its set,
    subtraction and intersection are those of sets, and covering is inclusion. *)
Theorem sample_sets_exact left right target :
  Forall (fun r => isRange r = true) left -> Forall (fun r => isRange r = true) right -> isRange target = true ->
  (spaced (normalizeSampleRanges left) /\ forall x, samples (normalizeSampleRanges left) x <-> samples left x) /\
  (normalizeSampleRanges left = normalizeSampleRanges right <-> forall x, samples left x <-> samples right x) /\
  (forall x, samples (subtractRanges left right) x <-> samples left x /\ ~ samples right x) /\
  (forall x, samples (intersectRanges left right) x <-> samples left x /\ samples right x) /\
  (coversRange left target = true <-> forall x, within target x -> samples left x).
Proof.
  intros Hl Hr Ht. split_and!.
  - apply normalize_spec.
  - intros x. by apply normalize_samples.
  - split.
    + intros E x. by rewrite <- (normalize_samples left x Hl), E, normalize_samples.
    + intros E. apply spaced_unique; [apply normalize_spec..|]. intros x. by rewrite !normalize_samples.
  - intros x. by apply subtract_samples.
  - intros x. by apply intersect_samples.
  - by apply covers_iff.
Qed.

Lemma sample_sets_exact_witness :
  coversRange [mkRange 40 90; mkRange 10 50] (mkRange 20 80) = true /\
  forall x, within (mkRange 20 80) x -> samples [mkRange 40 90; mkRange 10 50] x.
Proof.
  assert (coversRange [mkRange 40 90; mkRange 10 50] (mkRange 20 80) = true) as E by (vm_compute; reflexivity).
  split; [exact E|].
  refine (proj1 (proj2 (proj2 (proj2 (proj2 (sample_sets_exact [mkRange 40 90; mkRange 10 50] [] (mkRange 20 80) _ _ _))))) E).
  - repeat constructor.
  - constructor.
  - reflexivity.
Defined.
