(* ===== verification/Audibility.v ===== *)
(** * The audibility ledger (src/web/lib/audibility-v2/ledger.ts)

    What was generated, released and heard of every spoken response, and which terminal
    claims lie in it. Events are taken with their static types, numbers being integers;
    [validateEvent] is the rest of the run-time check. A failed application leaves the ledger
    as it was and is [Err] with its code and a short name; reading a property of [undefined]
    is [Thrown]. *)

From S2P Require Import Prelude JsValue JsText Canonical Graph Flow FlowValidate FlowRuntime SampleRanges.

Local Open Scope Z_scope.

Module Audibility.

Definition MAX_SAMPLE_RATE_HZ : Z := 192000.
Definition MAX_CHANNELS : Z := 2.
(** [l.length] *)
Definition len {A} (l : list A) : Z := Z.of_nat (length l).

Definition MAX_CHUNKS_PER_RESPONSE : Z := 16384.
Definition MAX_RANGES_PER_EVENT : Z := 1024.

(** ** Data *)

Inductive EvidenceSource : Type :=
| ProviderOutput | SemanticAlignment | EffectReceipt | ReleaseController | PlaybackDevice | TransportControl
| ProviderHistory.
#[export] Instance evidence_source_eq_dec : EqDecision EvidenceSource.
Proof. solve_decision. Defined.

Record EvidenceReference := { er_source : EvidenceSource; er_sha256 : jstr; er_artifactId : option jstr }.

Inductive ClaimKind : Type := ExternalEffect | Authorization | Handoff | PolicyOutcome.
Inductive ClearReason : Type := BargeIn | Disconnect | Cancelled | Superseded | OtherReason.
#[export] Instance clear_reason_eq_dec : EqDecision ClearReason.
Proof. solve_decision. Defined.

Record ClaimGrantAuthorityInput := {
  ga_responseId : jstr;
  ga_claimId : jstr;
  ga_claimContentSha256 : jstr;
  ga_authorityRevision : Z;
  ga_authorityReceiptSha256 : jstr;
  ga_reopenedReceiptSha256 : jstr;
  ga_turnContractSha256 : jstr;
  ga_semanticBindingSha256 : jstr;
}.

(** [va_verified]: the object is in [verifiedClaimGrantAuthorities], where only
    [reopenVerifiedClaimGrantAuthority] puts it. *)
Record VerifiedClaimGrantAuthority := {
  va_input : ClaimGrantAuthorityInput;
  va_verifierId : jstr;
  va_hostVerificationSha256 : jstr;
  va_verified : bool;
}.

Inductive EventData : Type :=
| ResponseRegistered (sampleRateHz channels : Z)
| PcmChunkGenerated (chunkId : jstr) (ordinal sampleCount : Z) (pcmSha256 : jstr)
| GenerationClosed
| TerminalClaimRegistered (claimId : jstr) (kind : ClaimKind) (range : SampleRange) (contentSha256 : jstr)
| ClaimGrantIssued (grantId : jstr) (authority : VerifiedClaimGrantAuthority)
| ReleaseRequested (decisionId : jstr) (range : SampleRange) (claimGrantIds : list jstr)
| PlaybackAcknowledged (acknowledgementId : jstr) (ranges : list SampleRange) (releaseDecisionIds : list jstr)
| PlaybackCleared (clearId : jstr) (reason : ClearReason)
| DeliveryClearConfirmed (confirmationId clearId : jstr) (confirmedNotPlayedRanges : list SampleRange)
| BargeInRecorded (bargeInId clearId : jstr)
| ProviderHistoryTruncated (truncationId : jstr) (retainedThroughSample : Z).

Record Event := {
  e_sequence : Z;
  e_eventId : jstr;
  e_sessionId : jstr;
  e_responseId : jstr;
  e_evidence : EvidenceReference;
  e_data : EventData;
}.

Record GeneratedPcmChunk := {
  pc_chunkId : jstr; pc_ordinal : Z; pc_range : SampleRange; pc_sampleCount : Z; pc_pcmSha256 : jstr;
  pc_evidence : EvidenceReference
}.
Record TerminalClaim := {
  tc_claimId : jstr; tc_kind : ClaimKind; tc_range : SampleRange; tc_contentSha256 : jstr; tc_evidence : EvidenceReference
}.
Record ClaimGrant := {
  cg_grantId : jstr;
  cg_claimId : jstr;
  cg_authorityRevision : Z;
  cg_authorityReceiptSha256 : jstr;
  cg_reopenedReceiptSha256 : jstr;
  cg_turnContractSha256 : jstr;
  cg_semanticBindingSha256 : jstr;
  cg_verifierId : jstr;
  cg_hostVerificationSha256 : jstr;
  cg_evidence : EvidenceReference;
}.

Inductive Outcome : Type := Released | Blocked.
#[export] Instance outcome_eq_dec : EqDecision Outcome.
Proof. solve_decision. Defined.
Inductive ReleaseReason : Type := Authorized | MissingClaimGrant | ResponseSealed.

Record ReleaseDecision := {
  rd_decisionId : jstr; rd_range : SampleRange; rd_queueEpoch : Z; rd_outcome : Outcome; rd_reason : ReleaseReason;
  rd_claimGrantIds : list jstr; rd_evidence : EvidenceReference
}.
Record PlaybackAcknowledgement := {
  pa_acknowledgementId : jstr; pa_ranges : list SampleRange; pa_releaseDecisionIds : list jstr; pa_queueEpoch : Z;
  pa_evidence : EvidenceReference
}.
Record PlaybackClear := {
  cl_clearId : jstr; cl_reason : ClearReason; cl_clearedRanges : list SampleRange; cl_closedQueueEpoch : Z;
  cl_evidence : EvidenceReference
}.
Record DeliveryClearConfirmation := {
  dc_confirmationId : jstr; dc_clearId : jstr; dc_confirmedNotPlayedRanges : list SampleRange;
  dc_evidence : EvidenceReference
}.
Record BargeInRecord := {
  bi_bargeInId : jstr; bi_clearId : jstr; bi_audibleThroughRanges : list SampleRange; bi_evidence : EvidenceReference
}.
Record Truncation := { tr_truncationId : jstr; tr_retainedThroughSample : Z; tr_evidence : EvidenceReference }.

Record ResponseLedger := mkResponse {
  r_responseId : jstr;
  r_sampleRateHz : Z;
  r_channels : Z;
  r_generatedSampleCount : Z;
  r_generationClosed : bool;
  r_chunks : list GeneratedPcmChunk;
  r_claims : obj TerminalClaim;
  r_grants : obj ClaimGrant;
  r_releaseDecisions : list ReleaseDecision;
  r_playbackAcknowledgements : list PlaybackAcknowledgement;
  r_acknowledgedPlayedRanges : list SampleRange;
  r_clears : list PlaybackClear;
  r_deliveryClearConfirmations : list DeliveryClearConfirmation;
  r_bargeIns : list BargeInRecord;
  r_truncations : list Truncation;
  r_queueEpoch : Z;
  r_playbackSealed : bool;
}.

(** [BareClosed] is the object [{ generationClosed: true }], which closing the generation of
    an inherited property leaves under the name "undefined". *)
Inductive Entry : Type :=
| Response (r : ResponseLedger)
| BareClosed.

Record Ledger := mkLedger {
  l_sessionId : jstr;
  l_revision : Z;
  l_responses : obj Entry;
  l_responseOrder : list jstr;
  l_appliedEventPayloads : list (Z * jstr);
}.

Inductive ErrorCode : Type :=
| InvalidEvent | WrongSession | EventSequenceGap | EventSequenceConflict | ResponseConflict | UnknownResponse
| GenerationIsClosed | ChunkConflict | ClaimConflict | ClaimOutsideGeneratedAudio | UnknownClaim | GrantConflict
| DecisionConflict | RangeOutsideGeneratedAudio | AcknowledgementConflict | PlaybackNotReleased | StaleReleaseEpoch
| ClearConflict | DeliveryClearConflict | BargeInConflict | TruncationConflict.

Inductive LedgerError : Type :=
| Failure (code : ErrorCode) (error : string)
| Thrown.

(** ** Identifiers *)

(** [/^[A-Za-z0-9][A-Za-z0-9._:-]{0,255}$/] *)
Definition isId (s : jstr) : bool :=
  match s with
  | c :: r => is_alnum c && forallb (fun c => is_alnum c || one_of "._:-" c) r && (length r <=? 255)%nat
  | [] => false
  end.

(** [a.localeCompare(b) < 0] on identifiers: punctuation, digits, letters; then lower case
    before upper case at the first difference. *)
Definition letter_weight (c : N) : N :=
  if is_lower c then 100 + (c - 97) else if is_upper c then 100 + (c - 65)
  else if is_digit c then 50 + (c - 48)
  else if (c =? 95)%N then 1 else if (c =? 45)%N then 2 else if (c =? 58)%N then 3 else 4.
Definition localeLess (a b : jstr) : bool :=
  str_ltb (letter_weight <$> a) (letter_weight <$> b) ||
  (bool_decide (letter_weight <$> a = letter_weight <$> b) &&
   str_ltb ((fun c => if is_upper c then 1 else 0)%N <$> a) ((fun c => if is_upper c then 1 else 0)%N <$> b)).

(** [Object.values(o)]: array indices in ascending order, then the rest in order of creation. *)
Definition index_key (k : jstr) : option N :=
  if forallb is_digit k && (k =?s digits (undigits k)) && (undigits k <? 4294967295)%N then Some (undigits k) else None.
Definition object_values {V} (o : obj V) : list V :=
  snd <$> (sort_by (fun a b => match index_key a.1, index_key b.1 with Some i, Some j => (i <? j)%N | _, _ => false end)
             (List.filter (fun kv => bool_decide (is_Some (index_key kv.1))) o) ++
           List.filter (fun kv => negb (bool_decide (is_Some (index_key kv.1)))) o).

(** ** Claim authority *)

Inductive HostClaimGrantVerification : Type :=
| HostVerified (verifierId hostVerificationSha256 : jstr)
| HostRefused (reason : jstr).

Definition authority_input_ok (i : ClaimGrantAuthorityInput) : bool :=
  isId (ga_responseId i) && isId (ga_claimId i) && is_sha256 (ga_claimContentSha256 i) &&
  isSafeInteger (ga_authorityRevision i) 1 && is_sha256 (ga_authorityReceiptSha256 i) &&
  is_sha256 (ga_reopenedReceiptSha256 i) && is_sha256 (ga_turnContractSha256 i) && is_sha256 (ga_semanticBindingSha256 i).

Definition reopenVerifiedClaimGrantAuthority (input : ClaimGrantAuthorityInput)
    (verifyReopenedReceiptAndTurnContract : ClaimGrantAuthorityInput -> HostClaimGrantVerification)
  : result string VerifiedClaimGrantAuthority :=
  raise "claim grant authority input is malformed"%string when negb (authority_input_ok input) ;;
  match verifyReopenedReceiptAndTurnContract input with
  | HostRefused _ => Err "host claim-grant verification failed"%string
  | HostVerified verifier sha =>
      raise "host claim-grant verification receipt is malformed"%string when negb (isId verifier && is_sha256 sha) ;;
      Ok {| va_input := input; va_verifierId := verifier; va_hostVerificationSha256 := sha; va_verified := true |}
  end.

Record TerminalClaimSemanticInput := {
  si_responseId : jstr; si_spanId : jstr; si_text : jstr; si_contentSha256 : jstr; si_turnContractSha256 : jstr
}.
Inductive SemanticDecision : Type := IsTerminalClaim | NotTerminalClaim | UnknownClaimSemantics.
#[export] Instance semantic_decision_eq_dec : EqDecision SemanticDecision.
Proof. solve_decision. Defined.
Record TerminalClaimSemanticClassification := {
  sc_decision : SemanticDecision; sc_kind : option ClaimKind; sc_classifierId : jstr; sc_evidenceSha256 : jstr
}.
Record TerminalClaimSemanticDecision := {
  sd_classification : TerminalClaimSemanticClassification; sd_requiresClaimGrant : bool
}.

Definition classifyTerminalClaimSemantics (input : TerminalClaimSemanticInput)
    (classify : TerminalClaimSemanticInput -> TerminalClaimSemanticClassification)
  : result string TerminalClaimSemanticDecision :=
  raise "terminal-claim semantic input is malformed"%string when
    negb (isId (si_responseId input) && isId (si_spanId input) && (1 <=? len (si_text input)) &&
          (len (si_text input) <=? 16384) && is_sha256 (si_contentSha256 input) &&
          is_sha256 (si_turnContractSha256 input)) ;;
  let c := classify input in
  raise "terminal-claim classifier returned malformed evidence"%string when
    negb (isId (sc_classifierId c) && is_sha256 (sc_evidenceSha256 c)) ||
    match sc_decision c, sc_kind c with
    | IsTerminalClaim, Some _ | NotTerminalClaim, None | UnknownClaimSemantics, None => false
    | _, _ => true
    end ;;
  Ok {| sd_classification := c; sd_requiresClaimGrant := negb (bool_decide (sc_decision c = NotTerminalClaim)) |}.

(** ** Events *)

Definition parseEvidence (e : EvidenceReference) : bool := is_sha256 (er_sha256 e) && opt_all isId (er_artifactId e).

Definition eventSource (d : EventData) : EvidenceSource :=
  match d with
  | ResponseRegistered _ _ | PcmChunkGenerated _ _ _ _ | GenerationClosed => ProviderOutput
  | TerminalClaimRegistered _ _ _ _ => SemanticAlignment
  | ClaimGrantIssued _ _ => EffectReceipt
  | ReleaseRequested _ _ _ => ReleaseController
  | PlaybackAcknowledged _ _ _ | DeliveryClearConfirmed _ _ _ => PlaybackDevice
  | PlaybackCleared _ _ | BargeInRecorded _ _ => TransportControl
  | ProviderHistoryTruncated _ _ => ProviderHistory
  end.

Definition data_ok (evidence : EvidenceReference) (d : EventData) : bool :=
  match d with
  | ResponseRegistered rate channels =>
      isSafeInteger rate 1 && (rate <=? MAX_SAMPLE_RATE_HZ) && isSafeInteger channels 1 && (channels <=? MAX_CHANNELS)
  | PcmChunkGenerated chunkId ordinal sampleCount pcm =>
      isId chunkId && isSafeInteger ordinal 0 && isSafeInteger sampleCount 1 && is_sha256 pcm
  | GenerationClosed => true
  | TerminalClaimRegistered claimId _ range content => isId claimId && isRange range && is_sha256 content
  | ClaimGrantIssued grantId authority =>
      isId grantId && va_verified authority && (ga_authorityReceiptSha256 (va_input authority) =?s er_sha256 evidence)
  | ReleaseRequested decisionId range grants =>
      isId decisionId && isRange range && (len grants <=? MAX_RANGES_PER_EVENT) && forallb isId grants && nodupb grants
  | PlaybackAcknowledged acknowledgementId ranges decisions =>
      isId acknowledgementId && (0 <? len ranges) && (len ranges <=? MAX_RANGES_PER_EVENT) && forallb isRange ranges &&
      (0 <? len decisions) && (len decisions <=? MAX_RANGES_PER_EVENT) && forallb isId decisions && nodupb decisions
  | PlaybackCleared clearId _ => isId clearId
  | DeliveryClearConfirmed confirmationId clearId ranges =>
      isId confirmationId && isId clearId && (0 <? len ranges) && (len ranges <=? MAX_RANGES_PER_EVENT) &&
      forallb isRange ranges
  | BargeInRecorded bargeInId clearId => isId bargeInId && isId clearId
  | ProviderHistoryTruncated truncationId retained => isId truncationId && isSafeInteger retained 0
  end.

Definition validateEvent (e : Event) : bool :=
  isSafeInteger (e_sequence e) 1 && isId (e_eventId e) && isId (e_sessionId e) && isId (e_responseId e) &&
  parseEvidence (e_evidence e) && bool_decide (er_source (e_evidence e) = eventSource (e_data e)) &&
  data_ok (e_evidence e) (e_data e).

(** *** The canonical text of an event *)

Definition source_text (s : EvidenceSource) : string :=
  match s with
  | ProviderOutput => "provider_output" | SemanticAlignment => "semantic_alignment" | EffectReceipt => "effect_receipt"
  | ReleaseController => "release_controller" | PlaybackDevice => "playback_device"
  | TransportControl => "transport_control" | ProviderHistory => "provider_history"
  end.
Definition kind_text (k : ClaimKind) : string :=
  match k with
  | ExternalEffect => "external_effect" | Authorization => "authorization" | Handoff => "handoff"
  | PolicyOutcome => "policy_outcome"
  end.
Definition reason_text (r : ClearReason) : string :=
  match r with
  | BargeIn => "barge_in" | Disconnect => "disconnect" | Cancelled => "cancelled" | Superseded => "superseded"
  | OtherReason => "other"
  end.

Definition texts (l : list jstr) : jsval := JArr (JStr <$> l).
Definition range_json (r : SampleRange) : jsval :=
  JObj (field "startSample" (jnat (startSample r)) ++ field "endSample" (jnat (endSample r))).
Definition evidence_json (e : EvidenceReference) : jsval :=
  JObj (field "source" (jtext (source_text (er_source e))) ++ field "sha256" (JStr (er_sha256 e)) ++
    opt_field "artifactId" JStr (er_artifactId e)).
Definition authority_json (a : VerifiedClaimGrantAuthority) : jsval :=
  let i := va_input a in
  JObj (field "responseId" (JStr (ga_responseId i)) ++ field "claimId" (JStr (ga_claimId i)) ++
    field "claimContentSha256" (JStr (ga_claimContentSha256 i)) ++
    field "authorityRevision" (jnat (ga_authorityRevision i)) ++
    field "authorityReceiptSha256" (JStr (ga_authorityReceiptSha256 i)) ++
    field "reopenedReceiptSha256" (JStr (ga_reopenedReceiptSha256 i)) ++
    field "turnContractSha256" (JStr (ga_turnContractSha256 i)) ++
    field "semanticBindingSha256" (JStr (ga_semanticBindingSha256 i)) ++ field "verifierId" (JStr (va_verifierId a)) ++
    field "hostVerificationSha256" (JStr (va_hostVerificationSha256 a))).
Definition data_fields (d : EventData) : obj jsval :=
  match d with
  | ResponseRegistered rate channels =>
      field "type" (jtext "response_registered") ++ field "encoding" (jtext "pcm16") ++ field "sampleRateHz" (jnat rate) ++
      field "channels" (jnat channels)
  | PcmChunkGenerated chunkId ordinal sampleCount pcm =>
      field "type" (jtext "pcm_chunk_generated") ++ field "chunkId" (JStr chunkId) ++ field "ordinal" (jnat ordinal) ++
      field "sampleCount" (jnat sampleCount) ++ field "pcmSha256" (JStr pcm)
  | GenerationClosed => field "type" (jtext "generation_closed")
  | TerminalClaimRegistered claimId kind range content =>
      field "type" (jtext "terminal_claim_registered") ++ field "claimId" (JStr claimId) ++
      field "kind" (jtext (kind_text kind)) ++ field "range" (range_json range) ++ field "contentSha256" (JStr content)
  | ClaimGrantIssued grantId authority =>
      field "type" (jtext "claim_grant_issued") ++ field "grantId" (JStr grantId) ++
      field "authority" (authority_json authority)
  | ReleaseRequested decisionId range grants =>
      field "type" (jtext "release_requested") ++ field "decisionId" (JStr decisionId) ++ field "range" (range_json range) ++
      field "claimGrantIds" (texts grants)
  | PlaybackAcknowledged acknowledgementId ranges decisions =>
      field "type" (jtext "playback_acknowledged") ++ field "acknowledgementId" (JStr acknowledgementId) ++
      field "ranges" (JArr (range_json <$> ranges)) ++ field "releaseDecisionIds" (texts decisions)
  | PlaybackCleared clearId reason =>
      field "type" (jtext "playback_cleared") ++ field "clearId" (JStr clearId) ++ field "reason" (jtext (reason_text reason))
  | DeliveryClearConfirmed confirmationId clearId ranges =>
      field "type" (jtext "delivery_clear_confirmed") ++ field "confirmationId" (JStr confirmationId) ++
      field "clearId" (JStr clearId) ++ field "confirmedNotPlayedRanges" (JArr (range_json <$> ranges))
  | BargeInRecorded bargeInId clearId =>
      field "type" (jtext "barge_in_recorded") ++ field "bargeInId" (JStr bargeInId) ++ field "clearId" (JStr clearId)
  | ProviderHistoryTruncated truncationId retained =>
      field "type" (jtext "provider_history_truncated") ++ field "truncationId" (JStr truncationId) ++
      field "retainedThroughSample" (jnat retained)
  end.
Definition event_json (e : Event) : jsval :=
  JObj (field "sequence" (jnat (e_sequence e)) ++ field "eventId" (JStr (e_eventId e)) ++
    field "sessionId" (JStr (e_sessionId e)) ++ field "responseId" (JStr (e_responseId e)) ++
    field "evidence" (evidence_json (e_evidence e)) ++ data_fields (e_data e)).

(** On these values [canonicalize] writes what [canonicalJson] writes. *)
Definition safeCanonicalize (e : Event) : option jstr := canonicalJson (event_json e).

(** ** Applying events *)

Definition createAudibilityLedger (sessionId : jstr) : result string Ledger :=
  raise "audibility ledger requires a valid session id"%string when negb (isId sessionId) ;;
  Ok (mkLedger sessionId 0 [] [] []).

Abbreviation failure code e := (Err (A := Ledger * bool) (Failure code e%string)).

(** The state after an event and whether the event was a duplicate. *)
Definition commit (s : Ledger) (e : Event) (key : jstr) (entry : Entry) (isNew : bool)
  : result LedgerError (Ledger * bool) :=
  match safeCanonicalize e with
  | None => failure InvalidEvent "audibility event must be canonically serializable"
  | Some text =>
      Ok (mkLedger (l_sessionId s) (e_sequence e) (put key entry (l_responses s))
            (if isNew then l_responseOrder s ++ [key] else l_responseOrder s)
            (l_appliedEventPayloads s ++ [(e_sequence e, text)]), false)
  end.
Definition applyResponse (s : Ledger) (e : Event) (r : ResponseLedger) (isNew : bool)
  : result LedgerError (Ledger * bool) := commit s e (r_responseId r) (Response r) isNew.

Definition findById {A} (key : A -> jstr) (items : list A) (id : jstr) : option A :=
  List.find (fun item => key item =?s id) items.

Definition new_response (id : jstr) (rate channels : Z) : ResponseLedger :=
  mkResponse id rate channels 0 false [] [] [] [] [] [] [] [] [] [] 0 false.

Section Apply.
Variables (s : Ledger) (e : Event) (current : ResponseLedger).
Let evidence := e_evidence e.

Definition with_audio (count : Z) (closed : bool) (chunks : list GeneratedPcmChunk) : ResponseLedger :=
  mkResponse (r_responseId current) (r_sampleRateHz current) (r_channels current) count closed chunks
    (r_claims current) (r_grants current) (r_releaseDecisions current) (r_playbackAcknowledgements current)
    (r_acknowledgedPlayedRanges current) (r_clears current) (r_deliveryClearConfirmations current)
    (r_bargeIns current) (r_truncations current) (r_queueEpoch current) (r_playbackSealed current).
Definition with_claims (claims : obj TerminalClaim) (grants : obj ClaimGrant) : ResponseLedger :=
  mkResponse (r_responseId current) (r_sampleRateHz current) (r_channels current) (r_generatedSampleCount current)
    (r_generationClosed current) (r_chunks current)
    claims grants (r_releaseDecisions current) (r_playbackAcknowledgements current)
    (r_acknowledgedPlayedRanges current) (r_clears current) (r_deliveryClearConfirmations current)
    (r_bargeIns current) (r_truncations current) (r_queueEpoch current) (r_playbackSealed current).
Definition with_playback (decisions : list ReleaseDecision) (acks : list PlaybackAcknowledgement)
    (acked : list SampleRange) (clears : list PlaybackClear) (queueEpoch : Z) (sealed : bool) : ResponseLedger :=
  mkResponse (r_responseId current) (r_sampleRateHz current) (r_channels current) (r_generatedSampleCount current)
    (r_generationClosed current) (r_chunks current) (r_claims current) (r_grants current)
    decisions acks acked clears (r_deliveryClearConfirmations current)
    (r_bargeIns current) (r_truncations current) queueEpoch sealed.
Definition with_records (confirmations : list DeliveryClearConfirmation) (bargeIns : list BargeInRecord)
    (truncations : list Truncation) (sealed : bool) : ResponseLedger :=
  mkResponse (r_responseId current) (r_sampleRateHz current) (r_channels current) (r_generatedSampleCount current)
    (r_generationClosed current) (r_chunks current) (r_claims current) (r_grants current)
    (r_releaseDecisions current) (r_playbackAcknowledgements current) (r_acknowledgedPlayedRanges current)
    (r_clears current) confirmations bargeIns truncations (r_queueEpoch current) sealed.

Definition generate_chunk (chunkId : jstr) (ordinal sampleCount : Z) (pcm : jstr) : result LedgerError (Ledger * bool) :=
  raise (Failure GenerationIsClosed "cannot append PCM after generation closes") when r_generationClosed current ;;
  raise (Failure InvalidEvent "response exceeds the chunk limit") when MAX_CHUNKS_PER_RESPONSE <=? len (r_chunks current) ;;
  raise (Failure ChunkConflict "PCM chunk ordinal must be contiguous") when negb (ordinal =? len (r_chunks current)) ;;
  raise (Failure ChunkConflict "PCM chunk id is already registered") when
    existsb (fun c => pc_chunkId c =?s chunkId) (r_chunks current) ;;
  let range := mkRange (r_generatedSampleCount current) (r_generatedSampleCount current + sampleCount) in
  raise (Failure InvalidEvent "generated sample count exceeds safe integer range") when
    negb (Z.abs (endSample range) <=? MAX_SAFE) ;;
  applyResponse s e (with_audio (endSample range) (r_generationClosed current)
    (r_chunks current ++ [{| pc_chunkId := chunkId; pc_ordinal := ordinal; pc_range := range;
                             pc_sampleCount := sampleCount; pc_pcmSha256 := pcm; pc_evidence := evidence |}])) false.

Definition close_generation : result LedgerError (Ledger * bool) :=
  raise (Failure GenerationIsClosed "generation is already closed") when r_generationClosed current ;;
  applyResponse s e (with_audio (r_generatedSampleCount current) true (r_chunks current)) false.

Definition register_claim (claimId : jstr) (kind : ClaimKind) (range : SampleRange) (content : jstr)
  : result LedgerError (Ledger * bool) :=
  match get_property (r_claims current) claimId with
  | Own _ | Inherited => failure ClaimConflict "claim is already registered"
  | Absent =>
      raise (Failure ClaimOutsideGeneratedAudio "terminal claim must be contained in generated PCM") when
        r_generatedSampleCount current <? endSample range ;;
      raise (Failure ClaimConflict "terminal claim must be registered before overlapping audio is released") when
        existsb (fun d => bool_decide (rd_outcome d = Released) && rangesOverlap (rd_range d) range)
          (r_releaseDecisions current) ;;
      applyResponse s e (with_claims
        (put claimId {| tc_claimId := claimId; tc_kind := kind; tc_range := range; tc_contentSha256 := content;
                        tc_evidence := evidence |} (r_claims current)) (r_grants current)) false
  end.

Definition grant_of (grantId : jstr) (a : VerifiedClaimGrantAuthority) : ClaimGrant :=
  let i := va_input a in
  {| cg_grantId := grantId; cg_claimId := ga_claimId i; cg_authorityRevision := ga_authorityRevision i;
     cg_authorityReceiptSha256 := ga_authorityReceiptSha256 i; cg_reopenedReceiptSha256 := ga_reopenedReceiptSha256 i;
     cg_turnContractSha256 := ga_turnContractSha256 i; cg_semanticBindingSha256 := ga_semanticBindingSha256 i;
     cg_verifierId := va_verifierId a; cg_hostVerificationSha256 := va_hostVerificationSha256 a;
     cg_evidence := evidence |}.

Definition issue_grant (grantId : jstr) (authority : VerifiedClaimGrantAuthority) : result LedgerError (Ledger * bool) :=
  let i := va_input authority in
  raise (Failure GrantConflict "claim grant authority is bound to a different response") when
    negb (ga_responseId i =?s e_responseId e) ;;
  match get_property (r_claims current) (ga_claimId i) with
  | Absent => failure UnknownClaim "claim is not registered"
  | Inherited => failure GrantConflict "claim grant authority is bound to different claim semantics"
  | Own claim =>
      raise (Failure GrantConflict "claim grant authority is bound to different claim semantics") when
        negb (tc_contentSha256 claim =?s ga_claimContentSha256 i) ;;
      match get_property (r_grants current) grantId with
      | Own _ | Inherited => failure GrantConflict "grant is already registered"
      | Absent => applyResponse s e (with_claims (r_claims current) (put grantId (grant_of grantId authority) (r_grants current))) false
      end
  end.

(** [claimGrantIds.map((id) => grants[id]).filter(Boolean)]; an inherited property is [None]. *)
Definition lookup_grants (ids : list jstr) : list (option ClaimGrant) :=
  omap (fun id => match get_property (r_grants current) id with
                  | Own g => Some (Some g)
                  | Inherited => Some None
                  | Absent => None
                  end) ids.
Definition grants_claim (claim : TerminalClaim) (g : option ClaimGrant) : bool :=
  match g with Some g => tc_claimId claim =?s cg_claimId g | None => false end.

Definition request_release (decisionId : jstr) (range : SampleRange) (grantIds : list jstr)
  : result LedgerError (Ledger * bool) :=
  raise (Failure DecisionConflict "release decision already exists") when
    bool_decide (is_Some (findById rd_decisionId (r_releaseDecisions current) decisionId)) ;;
  raise (Failure RangeOutsideGeneratedAudio "release range exceeds generated PCM") when
    r_generatedSampleCount current <? endSample range ;;
  let claims := List.filter (fun c => rangesOverlap (tc_range c) range) (object_values (r_claims current)) in
  let grants := lookup_grants grantIds in
  raise (Failure InvalidEvent "release request references an unknown claim grant") when
    negb (length grants =? length grantIds)%nat ;;
  raise (Failure InvalidEvent "release request includes a grant unrelated to the released range") when
    existsb (fun g => negb (existsb (fun c => grants_claim c g) claims)) grants ;;
  let everyClaimGranted := forallb (fun c => existsb (grants_claim c) grants) claims in
  let decision :=
    {| rd_decisionId := decisionId; rd_range := range; rd_queueEpoch := r_queueEpoch current;
       rd_outcome := if negb everyClaimGranted || r_playbackSealed current then Blocked else Released;
       rd_reason := if r_playbackSealed current then ResponseSealed
                    else if everyClaimGranted then Authorized else MissingClaimGrant;
       rd_claimGrantIds := grantIds; rd_evidence := evidence |} in
  applyResponse s e (with_playback (r_releaseDecisions current ++ [decision]) (r_playbackAcknowledgements current)
    (r_acknowledgedPlayedRanges current) (r_clears current) (r_queueEpoch current) (r_playbackSealed current)) false.

Definition acknowledge (acknowledgementId : jstr) (ranges : list SampleRange) (decisionIds : list jstr)
  : result LedgerError (Ledger * bool) :=
  raise (Failure AcknowledgementConflict "playback acknowledgement already exists") when
    bool_decide (is_Some (findById pa_acknowledgementId (r_playbackAcknowledgements current) acknowledgementId)) ;;
  let decisions := findById rd_decisionId (r_releaseDecisions current) <$> decisionIds in
  raise (Failure PlaybackNotReleased "playback acknowledgement must reference released decisions") when
    existsb (fun d => match d with Some d => negb (bool_decide (rd_outcome d = Released)) | None => true end) decisions ;;
  raise (Failure StaleReleaseEpoch "playback acknowledgement references a cleared queue epoch") when
    existsb (fun d => match d with Some d => negb (rd_queueEpoch d =? r_queueEpoch current) | None => true end) decisions ;;
  let releasedRanges := rd_range <$> omap (fun d => d) decisions in
  raise (Failure PlaybackNotReleased "acknowledged playback exceeds referenced released ranges") when
    existsb (fun r => negb (coversRange releasedRanges r)) ranges ;;
  let acknowledgement :=
    {| pa_acknowledgementId := acknowledgementId; pa_ranges := normalizeSampleRanges ranges;
       pa_releaseDecisionIds := decisionIds; pa_queueEpoch := r_queueEpoch current; pa_evidence := evidence |} in
  applyResponse s e (with_playback (r_releaseDecisions current) (r_playbackAcknowledgements current ++ [acknowledgement])
    (normalizeSampleRanges (r_acknowledgedPlayedRanges current ++ pa_ranges acknowledgement)) (r_clears current)
    (r_queueEpoch current) (r_playbackSealed current)) false.

Definition released_in (epoch : Z) : list SampleRange :=
  rd_range <$> List.filter (fun d => bool_decide (rd_outcome d = Released) && (rd_queueEpoch d =? epoch))
                 (r_releaseDecisions current).
Definition acknowledged_in (epoch : Z) : list SampleRange :=
  flat_map pa_ranges (List.filter (fun a => pa_queueEpoch a =? epoch) (r_playbackAcknowledgements current)).

Definition clear_playback (clearId : jstr) (reason : ClearReason) : result LedgerError (Ledger * bool) :=
  raise (Failure ClearConflict "playback clear already exists") when
    bool_decide (is_Some (findById cl_clearId (r_clears current) clearId)) ;;
  let clear :=
    {| cl_clearId := clearId; cl_reason := reason;
       cl_clearedRanges := subtractRanges (released_in (r_queueEpoch current)) (acknowledged_in (r_queueEpoch current));
       cl_closedQueueEpoch := r_queueEpoch current; cl_evidence := evidence |} in
  applyResponse s e (with_playback (r_releaseDecisions current) (r_playbackAcknowledgements current)
    (r_acknowledgedPlayedRanges current) (r_clears current ++ [clear]) (r_queueEpoch current + 1)
    (r_playbackSealed current || negb (bool_decide (reason = OtherReason)))) false.

Definition confirm_clear (confirmationId clearId : jstr) (ranges : list SampleRange) : result LedgerError (Ledger * bool) :=
  raise (Failure DeliveryClearConflict "delivery clear confirmation already exists") when
    bool_decide (is_Some (findById dc_confirmationId (r_deliveryClearConfirmations current) confirmationId)) ;;
  match findById cl_clearId (r_clears current) clearId with
  | None => failure DeliveryClearConflict "delivery clear confirmation references an unknown clear"
  | Some clear =>
      raise (Failure DeliveryClearConflict "confirmed not-played range exceeds the queue clear range") when
        existsb (fun r => negb (coversRange (cl_clearedRanges clear) r)) ranges ;;
      applyResponse s e (with_records (r_deliveryClearConfirmations current ++
        [{| dc_confirmationId := confirmationId; dc_clearId := clearId;
            dc_confirmedNotPlayedRanges := normalizeSampleRanges ranges; dc_evidence := evidence |}])
        (r_bargeIns current) (r_truncations current) (r_playbackSealed current)) false
  end.

Definition record_barge_in (bargeInId clearId : jstr) : result LedgerError (Ledger * bool) :=
  raise (Failure BargeInConflict "barge-in already exists") when
    bool_decide (is_Some (findById bi_bargeInId (r_bargeIns current) bargeInId)) ;;
  raise (Failure BargeInConflict "barge-in must reference a barge-in playback clear") when
    match findById cl_clearId (r_clears current) clearId with
    | Some clear => negb (bool_decide (cl_reason clear = BargeIn))
    | None => true
    end ;;
  applyResponse s e (with_records (r_deliveryClearConfirmations current)
    (r_bargeIns current ++ [{| bi_bargeInId := bargeInId; bi_clearId := clearId;
                               bi_audibleThroughRanges := r_acknowledgedPlayedRanges current; bi_evidence := evidence |}])
    (r_truncations current) true) false.

Definition truncate_history (truncationId : jstr) (retained : Z) : result LedgerError (Ledger * bool) :=
  raise (Failure TruncationConflict "truncation already exists") when
    bool_decide (is_Some (findById tr_truncationId (r_truncations current) truncationId)) ;;
  raise (Failure RangeOutsideGeneratedAudio "provider history cannot retain beyond generated PCM") when
    r_generatedSampleCount current <? retained ;;
  applyResponse s e (with_records (r_deliveryClearConfirmations current) (r_bargeIns current)
    (r_truncations current ++ [{| tr_truncationId := truncationId; tr_retainedThroughSample := retained;
                                  tr_evidence := evidence |}]) (r_playbackSealed current)) false.

(** An event on a registered response. *)
Definition apply_data : result LedgerError (Ledger * bool) :=
  match e_data e with
  | ResponseRegistered _ _ => failure ResponseConflict "response is already registered"
  | PcmChunkGenerated chunkId ordinal sampleCount pcm => generate_chunk chunkId ordinal sampleCount pcm
  | GenerationClosed => close_generation
  | TerminalClaimRegistered claimId kind range content => register_claim claimId kind range content
  | ClaimGrantIssued grantId authority => issue_grant grantId authority
  | ReleaseRequested decisionId range grants => request_release decisionId range grants
  | PlaybackAcknowledged acknowledgementId ranges decisions => acknowledge acknowledgementId ranges decisions
  | PlaybackCleared clearId reason => clear_playback clearId reason
  | DeliveryClearConfirmed confirmationId clearId ranges => confirm_clear confirmationId clearId ranges
  | BargeInRecorded bargeInId clearId => record_barge_in bargeInId clearId
  | ProviderHistoryTruncated truncationId retained => truncate_history truncationId retained
  end.
End Apply.

(** An event on an object without the fields of a response: an inherited function, whose
    generation is not closed, or [{ generationClosed: true }]. *)
Definition apply_bare (s : Ledger) (e : Event) (closed : bool) : result LedgerError (Ledger * bool) :=
  match e_data e with
  | ResponseRegistered _ _ => failure ResponseConflict "response is already registered"
  | PcmChunkGenerated _ _ _ _ =>
      raise (Failure GenerationIsClosed "cannot append PCM after generation closes") when closed ;; Err Thrown
  | GenerationClosed =>
      raise (Failure GenerationIsClosed "generation is already closed") when closed ;;
      commit s e (js "undefined") BareClosed false
  | ClaimGrantIssued _ authority =>
      raise (Failure GrantConflict "claim grant authority is bound to a different response") when
        negb (ga_responseId (va_input authority) =?s e_responseId e) ;; Err Thrown
  | _ => Err Thrown
  end.

Definition payload_at (s : Ledger) (sequence : Z) : option jstr :=
  snd <$> List.find (fun p => p.1 =? sequence) (l_appliedEventPayloads s).

Definition applyAudibilityLedgerEvent (s : Ledger) (e : Event) : result LedgerError (Ledger * bool) :=
  raise (Failure InvalidEvent "audibility event is malformed or has the wrong evidence source") when negb (validateEvent e) ;;
  raise (Failure WrongSession "event session does not match ledger session") when negb (e_sessionId e =?s l_sessionId s) ;;
  match safeCanonicalize e with
  | None => failure InvalidEvent "audibility event must be canonically serializable"
  | Some text =>
      if e_sequence e <=? l_revision s then
        if bool_decide (payload_at s (e_sequence e) = Some text) then Ok (s, true)
        else failure EventSequenceConflict "sequence has a different payload"
      else
        raise (Failure EventSequenceGap "unexpected sequence") when negb (e_sequence e =? l_revision s + 1) ;;
        match get_property (l_responses s) (e_responseId e) with
        | Absent =>
            match e_data e with
            | ResponseRegistered rate channels => applyResponse s e (new_response (e_responseId e) rate channels) true
            | _ => failure UnknownResponse "response is not registered"
            end
        | Inherited => apply_bare s e false
        | Own BareClosed => apply_bare s e true
        | Own (Response current) => apply_data s e current
        end
  end.

(** The error of a batch carries the index of the failed event. *)
Fixpoint apply_from (i : nat) (s : Ledger) (events : list Event) (anyApplied allDuplicates : bool)
  : result (LedgerError * nat) (Ledger * bool * bool) :=
  match events with
  | [] => Ok (s, anyApplied, allDuplicates)
  | e :: events =>
      match applyAudibilityLedgerEvent s e with
      | Err err => Err (err, i)
      | Ok (s', duplicate) => apply_from (S i) s' events (anyApplied || negb duplicate) (allDuplicates && duplicate)
      end
  end.
Definition applyAudibilityLedgerEvents (s : Ledger) (events : list Event) : result (LedgerError * nat) (Ledger * bool * bool) :=
  apply_from 0 s events false (bool_decide (events <> [])).

(** ** What the caller can be taken to have heard *)

Record AudiblePcmEvidenceRange := {
  pe_responseId : jstr; pe_chunkId : jstr; pe_chunkPcmSha256 : jstr; pe_range : SampleRange;
  pe_acknowledgementIds : list jstr
}.
Inductive ClaimStatus : Type := FullyAudible | ClaimVerifiedNotAudible | ClaimUnverifiable.
Record TerminalClaimAudibility := {
  ca_claimId : jstr; ca_status : ClaimStatus; ca_acknowledgedRanges : list SampleRange;
  ca_verifiedNotPlayedRanges : list SampleRange; ca_unknownRanges : list SampleRange; ca_grantId : option jstr;
  ca_authorityReceiptSha256 : option jstr
}.
Inductive EvidenceStatus : Type := VerifiedAudible | VerifiedNotAudible | Unverifiable.
Record ResponseEvidence := {
  re_responseId : jstr; re_evidenceStatus : EvidenceStatus; re_audibleRanges : list SampleRange;
  re_verifiedNotPlayedRanges : list SampleRange; re_unknownRanges : list SampleRange;
  re_pcmEvidence : list AudiblePcmEvidenceRange; re_terminalClaims : list TerminalClaimAudibility;
  re_unverifiableReasons : list jstr
}.
Record AudibleConversationEvidence := {
  ae_sessionId : jstr; ae_ledgerRevision : Z; ae_responses : list ResponseEvidence
}.

Definition acknowledgementIdsForRange (r : ResponseLedger) (range : SampleRange) : list jstr :=
  sort_by str_ltb (pa_acknowledgementId <$>
    List.filter (fun a => existsb (fun x => rangesOverlap x range) (pa_ranges a)) (r_playbackAcknowledgements r)).

Definition nonempty {A} (l : list A) : bool := match l with [] => false | _ => true end.

Section Project.
Variable r : ResponseLedger.

Definition audibleRanges : list SampleRange := normalizeSampleRanges (r_acknowledgedPlayedRanges r).
Definition releasedRanges : list SampleRange :=
  normalizeSampleRanges (rd_range <$> List.filter (fun d => bool_decide (rd_outcome d = Released)) (r_releaseDecisions r)).
Definition verifiedNotPlayedRanges : list SampleRange :=
  subtractRanges (normalizeSampleRanges (flat_map dc_confirmedNotPlayedRanges (r_deliveryClearConfirmations r))) audibleRanges.
Definition unknownRanges : list SampleRange := subtractRanges releasedRanges (audibleRanges ++ verifiedNotPlayedRanges).

Definition claim_ltb (l r : TerminalClaim) : bool :=
  (startSample (tc_range l) <? startSample (tc_range r)) ||
  ((startSample (tc_range l) =? startSample (tc_range r)) && localeLess (tc_claimId l) (tc_claimId r)).

Definition grant_for (claim : TerminalClaim) : option ClaimGrant :=
  List.find (fun g => cg_claimId g =?s tc_claimId claim) (object_values (r_grants r)).

Definition claim_audibility (claim : TerminalClaim) : TerminalClaimAudibility :=
  let acknowledged := intersectRanges audibleRanges [tc_range claim] in
  let notPlayed := intersectRanges verifiedNotPlayedRanges [tc_range claim] in
  {| ca_claimId := tc_claimId claim;
     ca_status := if coversRange acknowledged (tc_range claim) then FullyAudible
                  else if coversRange notPlayed (tc_range claim) then ClaimVerifiedNotAudible else ClaimUnverifiable;
     ca_acknowledgedRanges := acknowledged; ca_verifiedNotPlayedRanges := notPlayed;
     ca_unknownRanges := subtractRanges [tc_range claim] (acknowledged ++ notPlayed);
     ca_grantId := cg_grantId <$> grant_for claim;
     ca_authorityReceiptSha256 := cg_authorityReceiptSha256 <$> grant_for claim |}.

Definition project_response (responseId : jstr) : ResponseEvidence :=
  {| re_responseId := responseId;
     re_evidenceStatus :=
       if negb (nonempty unknownRanges) && nonempty audibleRanges then VerifiedAudible
       else if negb (nonempty unknownRanges) && negb (nonempty audibleRanges) && nonempty verifiedNotPlayedRanges
       then VerifiedNotAudible else Unverifiable;
     re_audibleRanges := audibleRanges; re_verifiedNotPlayedRanges := verifiedNotPlayedRanges;
     re_unknownRanges := unknownRanges;
     re_pcmEvidence := flat_map (fun c =>
       (fun range => {| pe_responseId := responseId; pe_chunkId := pc_chunkId c; pe_chunkPcmSha256 := pc_pcmSha256 c;
                        pe_range := range; pe_acknowledgementIds := acknowledgementIdsForRange r range |}) <$>
       intersectRanges [pc_range c] audibleRanges) (r_chunks r);
     re_terminalClaims := claim_audibility <$> sort_by claim_ltb (object_values (r_claims r));
     re_unverifiableReasons :=
       (if negb (nonempty audibleRanges) && negb (nonempty verifiedNotPlayedRanges)
        then [js "no_positive_playback_or_delivery_clear_evidence"] else []) ++
       (if nonempty unknownRanges then [js "released_audio_has_unknown_delivery_ranges"] else []) ++
       (if nonempty audibleRanges && nonempty unknownRanges then [js "partial_playback_acknowledgement"] else []) |}.
End Project.

(** [None] is the exception of reading the fields of an entry that is not a response. *)
Definition projectAudibleConversationEvidence (l : Ledger) : option AudibleConversationEvidence :=
  responses ← mapM (fun id => match own id (l_responses l) with
                              | Some (Response r) => Some (project_response r id)
                              | _ => None
                              end) (l_responseOrder l);
  Some {| ae_sessionId := l_sessionId l; ae_ledgerRevision := l_revision l; ae_responses := responses |}.

End Audibility.
