(* ===== verification/AudibilityInvariant.v ===== *)
(** * Invariants of the audibility ledger

    Every response of a ledger built by applying events keeps heard audio within released
    audio, released audio within generated audio, and every released claim granted. *)

From S2P Require Import Prelude JsValue JsText Canonical Graph Flow FlowValidate FlowRuntime SampleRanges Audibility.
Import Audibility.

Local Open Scope Z_scope.

Abbreviation valid rs := (Forall (fun r => isRange r = true) rs).

(** ** The invariant of one response *)

(** Chunks laid end to end from a sample to another. *)
Fixpoint tiles (start : Z) (chunks : list GeneratedPcmChunk) (stop : Z) : Prop :=
  match chunks with
  | [] => start = stop
  | c :: chunks =>
      startSample (pc_range c) = start /\ start < endSample (pc_range c) /\ tiles (endSample (pc_range c)) chunks stop
  end.

Definition is_released (d : ReleaseDecision) : bool := bool_decide (rd_outcome d = Released).
Definition all_released (r : ResponseLedger) : list SampleRange := rd_range <$> List.filter is_released (r_releaseDecisions r).
Definition all_acknowledged (r : ResponseLedger) : list SampleRange := flat_map pa_ranges (r_playbackAcknowledgements r).

(** The event that issued a grant, for the claim it names, on a verified authority. *)
Definition issued (evs : list Event) (r : ResponseLedger) (grantId : jstr) (g : ClaimGrant) : Prop :=
  exists e a c, e ∈ evs /\ e_data e = ClaimGrantIssued grantId a /\ e_responseId e = r_responseId r /\
    va_verified a = true /\ g = grant_of e grantId a /\ ga_responseId (va_input a) = r_responseId r /\
    own (ga_claimId (va_input a)) (r_claims r) = Some c /\ tc_contentSha256 c = ga_claimContentSha256 (va_input a).

Record response_ok (evs : list Event) (r : ResponseLedger) : Prop := {
  ro_count : 0 <= r_generatedSampleCount r <= MAX_SAFE;
  ro_chunks : tiles 0 (r_chunks r) (r_generatedSampleCount r);
  ro_claims : forall k c, own k (r_claims r) = Some c ->
    tc_claimId c = k /\ isRange (tc_range c) = true /\ endSample (tc_range c) <= r_generatedSampleCount r;
  ro_claim_keys : NoDup (keys (r_claims r));
  ro_grants : forall k g, own k (r_grants r) = Some g -> issued evs r k g;
  ro_decisions : forall d, d ∈ r_releaseDecisions r ->
    isRange (rd_range d) = true /\ endSample (rd_range d) <= r_generatedSampleCount r /\ rd_queueEpoch d <= r_queueEpoch r;
  ro_granted : forall d k c, d ∈ r_releaseDecisions r -> rd_outcome d = Released -> own k (r_claims r) = Some c ->
    rangesOverlap (tc_range c) (rd_range d) = true ->
    exists id g, id ∈ rd_claimGrantIds d /\ own id (r_grants r) = Some g /\ cg_claimId g = k;
  ro_acks : forall a, a ∈ r_playbackAcknowledgements r -> valid (pa_ranges a) /\ pa_queueEpoch a <= r_queueEpoch r /\
    forall x, samples (pa_ranges a) x -> samples (released_in r (pa_queueEpoch a)) x;
  ro_acked : spaced (r_acknowledgedPlayedRanges r) /\
    forall x, samples (r_acknowledgedPlayedRanges r) x <-> samples (all_acknowledged r) x;
  ro_clears : forall c, c ∈ r_clears r -> spaced (cl_clearedRanges c) /\ cl_closedQueueEpoch c < r_queueEpoch r /\
    forall x, samples (cl_clearedRanges c) x ->
      samples (released_in r (cl_closedQueueEpoch c)) x /\ ~ samples (acknowledged_in r (cl_closedQueueEpoch c)) x;
  ro_confirmed : forall c, c ∈ r_deliveryClearConfirmations r -> valid (dc_confirmedNotPlayedRanges c) /\
    exists k, k ∈ r_clears r /\ cl_clearId k = dc_clearId c /\
      forall x, samples (dc_confirmedNotPlayedRanges c) x -> samples (cl_clearedRanges k) x;
  ro_sealed : r_playbackSealed r = true ->
    forall d, d ∈ r_releaseDecisions r -> rd_outcome d = Released -> rd_queueEpoch d < r_queueEpoch r;
  ro_barged : forall c, c ∈ r_clears r -> cl_reason c = BargeIn -> r_playbackSealed r = true;
}.

(** ** How a response changes *)

Record evolves (r r' : ResponseLedger) : Prop := {
  ev_id : r_responseId r' = r_responseId r;
  ev_count : r_generatedSampleCount r <= r_generatedSampleCount r';
  ev_claims : forall k c, own k (r_claims r) = Some c -> own k (r_claims r') = Some c;
  ev_grants : forall k g, own k (r_grants r) = Some g -> own k (r_grants r') = Some g;
  ev_decisions : r_releaseDecisions r `prefix_of` r_releaseDecisions r';
  ev_acked : forall x, samples (r_acknowledgedPlayedRanges r) x -> samples (r_acknowledgedPlayedRanges r') x;
  ev_sealed : r_playbackSealed r = true -> r_playbackSealed r' = true /\
    r_acknowledgedPlayedRanges r' = r_acknowledgedPlayedRanges r /\
    forall d, d ∈ r_releaseDecisions r' -> rd_outcome d = Released -> d ∈ r_releaseDecisions r;
}.

#[export] Instance evolves_refl : Reflexive evolves.
Proof. constructor; try done; by intros. Qed.
#[export] Instance evolves_trans : Transitive evolves.
Proof.
  intros a b c Hab Hbc. destruct Hab as [A1 A2 A3 A4 A5 A6 A7], Hbc as [B1 B2 B3 B4 B5 B6 B7].
  constructor; [congruence | lia | auto | auto | by etrans | auto |].
  intros Hs. destruct (A7 Hs) as (H1 & H2 & H3). destruct (B7 H1) as (H4 & H5 & H6). split_and!; [done|congruence|auto].
Qed.

(** What the operations on a response establish. *)
Definition good evs r r' : Prop := response_ok evs r' /\ evolves r r'.

Lemma issued_mono evs evs' r r' k g :
  evs ⊆ evs' -> r_responseId r' = r_responseId r ->
  (forall k c, own k (r_claims r) = Some c -> own k (r_claims r') = Some c) -> issued evs r k g -> issued evs' r' k g.
Proof.
  intros Hsub Hid Hcl (e & a & c & He & Hd & Hr & Hv & Hg & Hb & Hc & Hs). exists e, a, c. rewrite Hid. split_and!; auto.
Qed.

Lemma response_ok_mono evs evs' r : evs ⊆ evs' -> response_ok evs r -> response_ok evs' r.
Proof. intros Hsub []. constructor; try done. intros k g Hg. eapply issued_mono; eauto. Qed.

Lemma commit_Ok s e key entry isNew s' d :
  commit s e key entry isNew = Ok (s', d) ->
  d = false /\ exists text,
    s' = mkLedger (l_sessionId s) (e_sequence e) (put key entry (l_responses s))
           (if isNew then l_responseOrder s ++ [key] else l_responseOrder s) (l_appliedEventPayloads s ++ [(e_sequence e, text)]).
Proof. unfold commit. destruct (safeCanonicalize e) as [text|]; [|done]. intros [= <- <-]. eauto. Qed.

(** ** The operations preserve it *)

(** The fields of an updated response. *)
Ltac fields :=
  cbn [with_audio with_claims with_playback with_records r_responseId r_generatedSampleCount r_chunks r_claims r_grants
       r_releaseDecisions r_playbackAcknowledgements r_acknowledgedPlayedRanges r_clears r_deliveryClearConfirmations
       r_queueEpoch r_playbackSealed].

(** Passes the next guard of an operation that succeeded. *)
Tactic Notation "pass" hyp(H) "as" ident(E) :=
  match type of H with (if ?b then Err _ else _) = Ok _ => destruct b eqn:E; [discriminate H|] end.

(** Splits the two parts of [good]; what the operation does not touch follows from the invariant. *)
Ltac good_split := split; constructor; fields; try done; try lia.

Lemma tiles_snoc start chunks mid c :
  tiles start chunks mid -> startSample (pc_range c) = mid -> mid < endSample (pc_range c) ->
  tiles start (chunks ++ [c]) (endSample (pc_range c)).
Proof. revert start. induction chunks as [|x l IH]; intros start; cbn; [naive_solver|]. intros (? & ? & ?) ??. auto. Qed.

Section Operations.
Variables (evs : list Event) (s : Ledger) (e : Event) (r : ResponseLedger).
Hypothesis Hok : response_ok evs r.
Hypothesis Hin : e ∈ evs.
Hypothesis Hid : r_responseId r = e_responseId e.

Lemma generate_chunk_good chunkId ordinal count pcm s' d :
  data_ok (e_evidence e) (PcmChunkGenerated chunkId ordinal count pcm) = true ->
  generate_chunk s e r chunkId ordinal count pcm = Ok (s', d) ->
  exists r', applyResponse s e r' false = Ok (s', d) /\ good evs r r'.
Proof.
  intros Hd H. unfold generate_chunk in H. split_guards H.
  eexists. split; [exact H|]. cbn in Hd. unfold isSafeInteger in Hd. cbn [endSample] in *. to_prop. destruct Hok.
  good_split.
  - apply tiles_snoc with (mid := r_generatedSampleCount r); cbn; lia || done.
  - intros k c Hc. destruct (ro_claims0 _ _ Hc) as (? & ? & ?). split_and!; [done..|lia].
  - intros x Hx. destruct (ro_decisions0 _ Hx) as (? & ? & ?). split_and!; [done|lia|done].
Qed.

Lemma close_generation_good s' d :
  close_generation s e r = Ok (s', d) -> exists r', applyResponse s e r' false = Ok (s', d) /\ good evs r r'.
Proof.
  intros H. unfold close_generation in H. split_guards H. eexists. split; [exact H|]. destruct Hok. good_split.
Qed.

Lemma own_put_Some {V} k (v : V) o k' v' :
  own k' (put k v o) = Some v' -> (k' = k /\ v' = v) \/ own k' o = Some v'.
Proof. rewrite own_put. destruct (k' =?s k) eqn:E; to_prop; [intros [= <-]; auto | auto]. Qed.

Lemma own_put_absent {V} k (v : V) o k' v' :
  own k o = None -> own k' o = Some v' -> own k' (put k v o) = Some v'.
Proof. intros Hn Hs. rewrite own_put_ne; [done|]. congruence. Qed.

Lemma get_absent {V} (o : obj V) k : get_property o k = Absent -> own k o = None.
Proof. unfold get_property. destruct (own k o); [done|]. by destruct (includes _ _). Qed.
Lemma get_own {V} (o : obj V) k v : get_property o k = Own v <-> own k o = Some v.
Proof. unfold get_property. destruct (own k o); [naive_solver|]. by destruct (includes _ _). Qed.

Lemma register_claim_good claimId kind range content s' d :
  data_ok (e_evidence e) (TerminalClaimRegistered claimId kind range content) = true ->
  register_claim s e r claimId kind range content = Ok (s', d) ->
  exists r', applyResponse s e r' false = Ok (s', d) /\ good evs r r'.
Proof.
  intros Hd H. unfold register_claim in H. destruct (get_property _ _) eqn:Ec; [done..|]. apply get_absent in Ec.
  split_guards H. eexists. split; [exact H|]. cbn [data_ok] in Hd. to_prop. rewrite existsb_elem_false in *. destruct Hok. good_split.
  - intros k c Hc. apply own_put_Some in Hc as [[-> ->]|Hc]; [by split_and!|by apply ro_claims0].
  - by apply NoDup_keys_put.
  - intros k g Hg. eapply issued_mono; [..|by apply ro_grants0]; [done..|]. intros k' c'. by apply own_put_absent.
  - intros x k c Hx Hrel Hc Hov. apply own_put_Some in Hc as [[-> ->]|Hc]; [|by eapply ro_granted0].
    exfalso. match goal with Hf : forall y, y ∈ r_releaseDecisions r -> _ = false |- _ => specialize (Hf _ Hx) as Hno end.
    cbn beta in Hno. rewrite bool_decide_eq_true_2 in Hno by done. cbn [andb] in Hno.
    unfold rangesOverlap in *. cbn [tc_range] in Hov. rewrite andb_comm in Hov. congruence.
  - intros k c Hc. by apply own_put_absent.
Qed.

Lemma issue_grant_good grantId authority s' d :
  e_data e = ClaimGrantIssued grantId authority -> data_ok (e_evidence e) (e_data e) = true ->
  issue_grant s e r grantId authority = Ok (s', d) ->
  exists r', applyResponse s e r' false = Ok (s', d) /\ good evs r r'.
Proof.
  intros Ed Hd H. rewrite Ed in Hd. unfold issue_grant in H. destruct (negb (ga_responseId _ =?s _)) eqn:Er; [done|].
  destruct (get_property (r_claims r) _) as [c| |] eqn:Ec; [|done..]. apply get_own in Ec.
  destruct (negb (tc_contentSha256 c =?s _)) eqn:Es; [done|]. destruct (get_property (r_grants r) grantId) eqn:Eg; [done..|]. apply get_absent in Eg.
  eexists. split; [exact H|]. cbn [data_ok] in Hd. to_prop. destruct Hok. good_split.
  - intros k g Hg. apply own_put_Some in Hg as [[-> ->]|Hg].
    + exists e, authority, c. split_and!; cbn; done || congruence.
    + by eapply issued_mono; [..|by apply ro_grants0].
  - intros x k c' Hx Hrel Hc' Hov. destruct (ro_granted0 _ _ _ Hx Hrel Hc' Hov) as (id & g & ? & ? & ?).
    exists id, g. split_and!; [done| |done]. by apply own_put_absent.
  - intros k g Hg. by apply own_put_absent.
Qed.

Lemma elem_of_object_values {V} (o : obj V) v : v ∈ object_values o <-> exists k, (k, v) ∈ o.
Proof.
  unfold object_values. rewrite list_elem_of_fmap. split.
  - intros ([k w] & -> & Hw). exists k. apply elem_of_app in Hw as [Hw|Hw]; [rewrite elem_of_sort_by in Hw|];
      by apply elem_of_filter_list in Hw as [? _].
  - intros [k Hk]. exists (k, v). split; [done|]. rewrite elem_of_app, elem_of_sort_by, !elem_of_filter_list. cbn.
    destruct (bool_decide (is_Some (index_key k))) eqn:E; [left | right]; by rewrite ?E.
Qed.

Lemma elem_of_lookup_grants ids g :
  Some g ∈ lookup_grants r ids -> exists id, id ∈ ids /\ own id (r_grants r) = Some g.
Proof.
  unfold lookup_grants. intros (id & Hid' & E)%list_elem_of_omap. exists id. split; [done|].
  destruct (get_property _ id) as [g'| |] eqn:Eg; [|done..]. injection E as ->. by apply get_own.
Qed.

Lemma released_in_app r' ds epoch x :
  r_releaseDecisions r' = r_releaseDecisions r ++ ds -> samples (released_in r epoch) x -> samples (released_in r' epoch) x.
Proof.
  intros E. unfold released_in. rewrite E, List.filter_app, fmap_app. intros H. apply samples_app. by left.
Qed.

Lemma request_release_good decisionId range grantIds s' d :
  data_ok (e_evidence e) (ReleaseRequested decisionId range grantIds) = true ->
  request_release s e r decisionId range grantIds = Ok (s', d) ->
  exists r', applyResponse s e r' false = Ok (s', d) /\ good evs r r'.
Proof.
  intros Hd H. unfold request_release in H. destruct (bool_decide _) eqn:E1; [done|].
  destruct (_ <? _) eqn:E2; [done|]. set (claims := List.filter _ _) in H. set (grants := lookup_grants r grantIds) in H.
  destruct (negb (_ =? _)%nat) eqn:E3; [done|]. destruct (existsb _ grants) eqn:E4; [done|].
  set (every := forallb _ claims) in H. eexists. split; [exact H|]. clear H E1 E3 E4. cbn [data_ok] in Hd. to_prop. destruct Hok.
  assert (forall P : Prop, (if negb every || r_playbackSealed r then Blocked else Released) = Released ->
    (every = true -> r_playbackSealed r = false -> P) -> P) as Hout.
  { intros P Ho HP. destruct every, (r_playbackSealed r); cbn in Ho; try done. by apply HP. }
  good_split.
  - intros x [Hx|Hx%list_elem_of_singleton]%elem_of_app; [auto | subst x; cbn; by split_and!].
  - intros x k c [Hx|Hx%list_elem_of_singleton]%elem_of_app Hrel Hc Hov; [by eapply ro_granted0|]. subst x. cbn in *.
    apply (Hout _ Hrel). unfold every. rewrite forallb_elem. intros Hall _.
    assert (c ∈ claims) as Hcl.
    { apply elem_of_filter_list. split; [|done]. apply elem_of_object_values. exists k. by apply own_elem_of. }
    specialize (Hall _ Hcl). apply existsb_elem in Hall as ([g|] & Hg & Hgc); [|done]. cbn in Hgc. to_prop.
    destruct (elem_of_lookup_grants _ _ Hg) as (id & ? & ?). exists id, g. split_and!; [done..|].
    rewrite <- Hgc. by apply ro_claims0.
  - intros a Ha. destruct (ro_acks0 _ Ha) as (? & ? & Hx). split_and!; [done..|].
    intros x Hs. eapply released_in_app; [done|]. auto.
  - intros c Hc. destruct (ro_clears0 _ Hc) as (? & ? & Hx). split_and!; [done..|].
    intros x Hs. destruct (Hx _ Hs) as [Ha Hb]. split; [|exact Hb]. by eapply released_in_app.
  - intros Hsealed x [Hx|Hx%list_elem_of_singleton]%elem_of_app Hrel; [auto|]. subst x. cbn in *.
    apply (Hout _ Hrel). congruence.
  - by apply prefix_app_r.
  - intros Hsealed. split_and!; [done..|]. intros x [Hx|Hx%list_elem_of_singleton]%elem_of_app Hrel; [done|].
    subst x. cbn in Hrel. apply (Hout _ Hrel). congruence.
Qed.

Lemma found_decisions ids :
  existsb (fun d => match d with Some d => negb (bool_decide (rd_outcome d = Released)) | None => true end)
    (findById rd_decisionId (r_releaseDecisions r) <$> ids) = false ->
  existsb (fun d => match d with Some d => negb (rd_queueEpoch d =? r_queueEpoch r) | None => true end)
    (findById rd_decisionId (r_releaseDecisions r) <$> ids) = false ->
  forall id, id ∈ ids -> exists d, findById rd_decisionId (r_releaseDecisions r) id = Some d /\
    d ∈ r_releaseDecisions r /\ rd_outcome d = Released /\ rd_queueEpoch d = r_queueEpoch r.
Proof.
  rewrite !existsb_elem_false. intros H1 H2 id Hi.
  specialize (H1 _ (list_elem_of_fmap_2 _ _ _ Hi)). specialize (H2 _ (list_elem_of_fmap_2 _ _ _ Hi)).
  destruct (findById rd_decisionId _ id) as [x|] eqn:E; [|done]. exists x. unfold findById in E.
  apply find_elem in E as [Hx _]. to_prop. by split_and!.
Qed.

Lemma acknowledge_good ackId ranges ids s' d :
  data_ok (e_evidence e) (PlaybackAcknowledged ackId ranges ids) = true ->
  acknowledge s e r ackId ranges ids = Ok (s', d) ->
  exists r', applyResponse s e r' false = Ok (s', d) /\ good evs r r'.
Proof.
  intros Hd H. unfold acknowledge in H. pass H as E1. pass H as E2. pass H as E3. pass H as E4.
  pose proof (found_decisions ids E2 E3) as Hfound. clear E1 E2 E3.
  eexists. split; [exact H|]. clear H. cbn [data_ok] in Hd. to_prop. destruct Hok.
  assert (valid ranges) as Hv by (apply Forall_forall; by apply forallb_elem).
  assert (forall x, samples ranges x -> samples (released_in r (r_queueEpoch r)) x) as Hcov.
  { intros x (rg & Hrg & Hx). rewrite existsb_elem_false in E4. specialize (E4 _ Hrg). to_prop.
    set (released := rd_range <$> _) in E4.
    assert (released ⊆ released_in r (r_queueEpoch r)) as Hsub.
    { intros y (dd & -> & (o & (id & -> & Hi)%list_elem_of_fmap & Eo)%list_elem_of_omap)%list_elem_of_fmap.
      destruct (Hfound _ Hi) as (d' & Ed' & Hd' & Hr' & He'). rewrite Ed' in Eo. injection Eo as ->.
      unfold released_in. apply list_elem_of_fmap_2, elem_of_filter_list. split; [done|].
      by rewrite bool_decide_eq_true_2, He', Z.eqb_refl by done. }
    eapply samples_subset; [exact Hsub|]. apply (covers_iff released rg); [|by rewrite Forall_forall in Hv; auto|done|done].
    apply Forall_forall. intros y Hy. apply Hsub in Hy. unfold released_in in Hy.
    apply list_elem_of_fmap in Hy as (dd & -> & Hdd). apply elem_of_filter_list in Hdd as [Hdd _]. by apply ro_decisions0. }
  assert (r_playbackSealed r = true -> False) as Hopen.
  { intros Hs. destruct ids as [|id ids]; [unfold len in *; cbn [length] in *; lia|].
    destruct (Hfound id ltac:(left)) as (d' & _ & Hd' & Hr' & He'). specialize (ro_sealed0 Hs _ Hd' Hr'). lia. }
  assert (valid (normalizeSampleRanges ranges)) as Hvn by apply normalize_valid.
  assert (valid (r_acknowledgedPlayedRanges r ++ normalizeSampleRanges ranges)) as Hva
    by (apply Forall_app; split; [apply ro_acked0|done]).
  good_split.
  - intros a [Ha|Ha%list_elem_of_singleton]%elem_of_app; [by apply ro_acks0|subst a]. cbn. split_and!; [done..|].
    intros x Hx. rewrite normalize_samples in Hx by done. by apply Hcov.
  - split; [apply normalize_spec|]. intros x. rewrite normalize_samples by done. rewrite samples_app.
    unfold all_acknowledged. fields. rewrite flat_map_app. cbn [flat_map pa_ranges]. rewrite app_nil_r, samples_app.
    rewrite (proj2 ro_acked0). done.
  - intros c Hc. destruct (ro_clears0 _ Hc) as (? & ? & Hx). split_and!; [done..|]. intros x Hs.
    destruct (Hx _ Hs) as [Ha Hb]. split; [exact Ha|]. unfold acknowledged_in in *. fields.
    rewrite List.filter_app. cbn. destruct (Z.eqb_spec (r_queueEpoch r) (cl_closedQueueEpoch c)); [lia|].
    by rewrite app_nil_r.
  - intros x Hx. rewrite normalize_samples, samples_app by done. by left.
Qed.

Lemma clear_playback_good clearId reason s' d :
  clear_playback s e r clearId reason = Ok (s', d) ->
  exists r', applyResponse s e r' false = Ok (s', d) /\ good evs r r'.
Proof.
  intros H. unfold clear_playback in H. pass H as E1. clear E1. eexists. split; [exact H|]. clear H. destruct Hok.
  assert (valid (released_in r (r_queueEpoch r))) as Hv1.
  { apply Forall_forall. intros y Hy. unfold released_in in Hy. apply list_elem_of_fmap in Hy as (dd & -> & Hdd).
    apply elem_of_filter_list in Hdd as [Hdd _]. by apply ro_decisions0. }
  assert (valid (acknowledged_in r (r_queueEpoch r))) as Hv2.
  { apply Forall_forall. intros y (a & [Ha _]%elem_of_filter_list & Hy)%elem_of_flat_map.
    destruct (ro_acks0 _ Ha) as (Hv & _). rewrite Forall_forall in Hv. auto. }
  good_split.
  - intros x Hx. destruct (ro_decisions0 _ Hx) as (? & ? & ?). split_and!; [done..|lia].
  - intros a Ha. destruct (ro_acks0 _ Ha) as (? & ? & ?). split_and!; [done|lia|done].
  - intros c [Hc|Hc%list_elem_of_singleton]%elem_of_app; [|subst c].
    + destruct (ro_clears0 _ Hc) as (? & ? & ?). split_and!; [done|lia|done].
    + cbn. split_and!; [apply subtract_spec|lia|]. intros x. by rewrite subtract_samples.
  - intros c Hc. destruct (ro_confirmed0 _ Hc) as (? & k & ? & ? & ?). split; [done|].
    exists k. split_and!; [|done..]. apply elem_of_app. by left.
  - intros _ x Hx _. destruct (ro_decisions0 _ Hx) as (? & ? & ?). lia.
  - intros c [Hc|Hc%list_elem_of_singleton]%elem_of_app Hb; [by rewrite (ro_barged0 _ Hc Hb)|subst c].
    cbn in Hb. rewrite Hb. by destruct (r_playbackSealed r).
  - intros Hs. rewrite Hs. by split_and!.
Qed.

Lemma confirm_clear_good confirmationId clearId ranges s' d :
  data_ok (e_evidence e) (DeliveryClearConfirmed confirmationId clearId ranges) = true ->
  confirm_clear s e r confirmationId clearId ranges = Ok (s', d) ->
  exists r', applyResponse s e r' false = Ok (s', d) /\ good evs r r'.
Proof.
  intros Hd H. unfold confirm_clear in H. pass H as E1. destruct (findById cl_clearId _ _) as [clear|] eqn:Ec; [|done].
  pass H as E2. eexists. split; [exact H|]. clear H E1. cbn [data_ok] in Hd. to_prop. destruct Hok.
  unfold findById in Ec. apply find_elem in Ec as [Hc Hid']. to_prop.
  assert (valid ranges) as Hv by (apply Forall_forall; by apply forallb_elem).
  good_split. intros c [Hx|Hx%list_elem_of_singleton]%elem_of_app; [auto|subst c]. cbn.
  split; [apply normalize_valid|]. exists clear. split_and!; [done..|]. intros x. rewrite normalize_samples by done.
  intros (rg & Hrg & Hx). rewrite existsb_elem_false in E2. specialize (E2 _ Hrg). to_prop.
  destruct (ro_clears0 _ Hc) as ([Hvc _] & _). rewrite Forall_forall in Hv.
  by apply (covers_iff (cl_clearedRanges clear) rg); auto.
Qed.

Lemma record_barge_in_good bargeInId clearId s' d :
  record_barge_in s e r bargeInId clearId = Ok (s', d) ->
  exists r', applyResponse s e r' false = Ok (s', d) /\ good evs r r'.
Proof.
  intros H. unfold record_barge_in in H. pass H as E1. pass H as E2. eexists. split; [exact H|]. clear H E1.
  destruct (findById _ _ _) as [clear|] eqn:Ec; [|done]. unfold findById in Ec. apply find_elem in Ec as [Hc _]. to_prop.
  destruct Hok. pose proof (ro_barged0 _ Hc E2) as Hs. good_split. intros _. apply ro_sealed0, Hs.
Qed.

Lemma truncate_history_good truncationId retained s' d :
  truncate_history s e r truncationId retained = Ok (s', d) ->
  exists r', applyResponse s e r' false = Ok (s', d) /\ good evs r r'.
Proof.
  intros H. unfold truncate_history in H. pass H as E1. pass H as E2. eexists. split; [exact H|]. destruct Hok. good_split.
Qed.

(** Every event on a registered response. *)
Lemma apply_data_good s' d :
  data_ok (e_evidence e) (e_data e) = true -> apply_data s e r = Ok (s', d) ->
  exists r', applyResponse s e r' false = Ok (s', d) /\ good evs r r'.
Proof.
  intros Hd H. unfold apply_data in H. destruct (e_data e) eqn:Ed; [done|..].
  - by eapply generate_chunk_good.
  - by eapply close_generation_good.
  - by eapply register_claim_good.
  - by eapply issue_grant_good; [exact Ed|rewrite Ed|].
  - by eapply request_release_good.
  - by eapply acknowledge_good.
  - by eapply clear_playback_good.
  - by eapply confirm_clear_good.
  - by eapply record_barge_in_good.
  - by eapply truncate_history_good.
Qed.
End Operations.

(** ** Ledgers built by events *)

Inductive history : list Event -> Ledger -> Prop :=
| history_new id l : createAudibilityLedger id = Ok l -> history [] l
| history_step evs l e l' d : history evs l -> applyAudibilityLedgerEvent l e = Ok (l', d) -> history (evs ++ [e]) l'.

(** One event, applied or recognised as a duplicate. *)
Definition step (l l' : Ledger) : Prop := exists e d, applyAudibilityLedgerEvent l e = Ok (l', d).

Definition entry_evolves (en en' : Entry) : Prop :=
  match en, en' with
  | Response r, Response r' => evolves r r'
  | BareClosed, Response _ => False
  | _, BareClosed => True
  end.

#[export] Instance entry_evolves_refl : Reflexive entry_evolves.
Proof. intros [r|]; cbn; [reflexivity|done]. Qed.
#[export] Instance entry_evolves_trans : Transitive entry_evolves.
Proof. intros [a|] [b|] [c|]; cbn; try done. apply evolves_trans. Qed.

(** An event that the ledger recognises when it is delivered again. *)
Definition replayable (l : Ledger) (e : Event) : Prop :=
  exists text, validateEvent e = true /\ e_sessionId e = l_sessionId l /\ safeCanonicalize e = Some text /\
    e_sequence e <= l_revision l /\ payload_at l (e_sequence e) = Some text.

Record ledger_ok (evs : list Event) (l : Ledger) : Prop := {
  lo_responses : forall id r, own id (l_responses l) = Some (Response r) -> r_responseId r = id /\ response_ok evs r;
  lo_payloads : Forall (fun p => p.1 <= l_revision l) (l_appliedEventPayloads l);
  lo_replay : forall e, e ∈ evs -> replayable l e;
}.

Lemma new_response_ok evs id rate channels : response_ok evs (new_response id rate channels).
Proof.
  constructor; cbn; try done; try (intros; set_solver).
  - constructor.
  - split; [split; constructor|]. done.
Qed.

(** What a new event, not a duplicate, does to the entries. *)
Lemma apply_new evs l e l' :
  ledger_ok evs l -> validateEvent e = true ->
  match get_property (l_responses l) (e_responseId e) with
  | Absent => match e_data e with
              | ResponseRegistered rate channels => applyResponse l e (new_response (e_responseId e) rate channels) true
              | _ => Err (Failure UnknownResponse "response is not registered")
              end
  | Inherited => apply_bare l e false
  | Own BareClosed => apply_bare l e true
  | Own (Response current) => apply_data l e current
  end = Ok (l', false) ->
  exists key entry isNew, commit l e key entry isNew = Ok (l', false) /\
    (forall en, own key (l_responses l) = Some en -> entry_evolves en entry) /\
    (forall r, entry = Response r -> r_responseId r = key /\ response_ok (evs ++ [e]) r).
Proof.
  intros Hok Hv H.
  assert (data_ok (e_evidence e) (e_data e) = true) as Hd by (unfold validateEvent in Hv; by to_prop).
  assert (forall closed, apply_bare l e closed = Ok (l', false) -> commit l e (js "undefined") BareClosed false = Ok (l', false)) as Hb.
  { intros closed. unfold apply_bare. destruct (e_data e); try done; repeat case_match; done. }
  destruct (get_property _ _) as [[r|]| |] eqn:Eg.
  - apply get_own in Eg. destruct (lo_responses _ _ Hok _ _ Eg) as [Hid Hr].
    apply (response_ok_mono _ (evs ++ [e])) in Hr; [|set_solver].
    destruct (apply_data_good (evs ++ [e]) l e r Hr ltac:(set_solver) Hid l' false Hd H) as (r' & Happ & Hr' & Hev).
    exists (r_responseId r'), (Response r'), false. split_and!; [done| |by intros ? [= <-]].
    intros en Hen. rewrite (ev_id _ _ Hev), Hid, Eg in Hen. by injection Hen as <-.
  - exists (js "undefined"), BareClosed, false. split_and!; [by eapply Hb | by intros [] | done].
  - exists (js "undefined"), BareClosed, false. split_and!; [by eapply Hb | by intros [] | done].
  - destruct (e_data e); try done. eexists _, _, true. split_and!; [exact H| |].
    + intros en Hen. cbn in Hen. apply get_absent in Eg. congruence.
    + intros r [= <-]. split; [done|]. apply new_response_ok.
Qed.

Lemma find_snoc_some {A} (p : A -> bool) l y x : List.find p l = Some x -> List.find p (l ++ [y]) = Some x.
Proof. induction l as [|z l IH]; cbn; [done|]. by destruct (p z). Qed.

Lemma find_snoc_new {A} (p : A -> bool) l y : (forall z, z ∈ l -> p z = false) -> p y = true -> List.find p (l ++ [y]) = Some y.
Proof.
  intros Hl Hy. induction l as [|z l IH]; cbn; [by rewrite Hy|]. rewrite (Hl z) by left. apply IH. intros w Hw. apply Hl. by right.
Qed.

Lemma apply_step evs l e l' d :
  ledger_ok evs l -> applyAudibilityLedgerEvent l e = Ok (l', d) ->
  ledger_ok (evs ++ [e]) l' /\
  (forall id en, own id (l_responses l) = Some en -> exists en', own id (l_responses l') = Some en' /\ entry_evolves en en').
Proof.
  intros Hok H. unfold applyAudibilityLedgerEvent in H. pass H as Ev. pass H as Es.
  destruct (safeCanonicalize e) as [text|] eqn:Et; [|done]. apply negb_false_iff in Ev, Es. apply str_eqb_eq in Es.
  destruct (_ <=? _) eqn:Eq.
  - destruct (bool_decide _) eqn:Ep; [|done]. injection H as <- <-. to_prop. destruct Hok as [H1 H2 H3]. split; [constructor|].
    + intros id r Hr. destruct (H1 _ _ Hr). split; [done|]. eapply response_ok_mono; [|done]. set_solver.
    + done.
    + intros e' [He'|He'%list_elem_of_singleton]%elem_of_app; [by apply H3|subst e']. by exists text.
    + intros id en Hen. exists en. by split.
  - pass H as Eg. to_prop.
    assert (d = false) as ->.
    { destruct d; [|done]. exfalso. revert H. unfold apply_bare, apply_data, generate_chunk, close_generation,
        register_claim, issue_grant, request_release, acknowledge, clear_playback, confirm_clear, record_barge_in,
        truncate_history, applyResponse, commit. repeat case_match; done. }
    destruct (apply_new evs l e l' Hok Ev H) as (key & entry & isNew & Hc & Hev & Hr).
    destruct (commit_Ok _ _ _ _ _ _ _ Hc) as (_ & text' & ->).
    assert (text' = text) as -> by (unfold commit in Hc; rewrite Et in Hc; injection Hc as E;
      apply app_inv_head in E; by injection E).
    destruct Hok as [H1 H2 H3]. split; [constructor; cbn|].
    + intros id r Hown. apply own_put_Some in Hown as [[-> E]|Hown]; [by apply Hr|].
      destruct (H1 _ _ Hown). split; [done|]. eapply response_ok_mono; [|done]. set_solver.
    + apply Forall_app. split; [|by repeat constructor]. eapply Forall_impl; [exact H2|]. cbn. lia.
    + intros e' [He'|He'%list_elem_of_singleton]%elem_of_app.
      * destruct (H3 _ He') as (t & ? & ? & ? & ? & Hp). exists t. cbn. split_and!; [done..|lia|].
        unfold payload_at in *. cbn. apply fmap_Some in Hp as (p & Hp & ->). by rewrite (find_snoc_some _ _ _ _ Hp).
      * subst e'. exists text. cbn. split_and!; [done..|]. unfold payload_at. cbn.
        rewrite find_snoc_new; [done| |apply Z.eqb_refl]. intros z Hz. rewrite Forall_forall in H2. specialize (H2 _ Hz).
        apply Z.eqb_neq. lia.
    + intros id en Hen. cbn. rewrite own_put. destruct (id =?s key) eqn:E; to_prop; [subst|by exists en].
      exists entry. split; [done|]. by apply Hev.
Qed.

(** Where the release decisions [ds] of a response come from: they are those it had, and at most one at
    the end that the event asked for. *)
Definition decisions_from (l : Ledger) (e : Event) (id : jstr) (ds : list ReleaseDecision) : Prop :=
  ds = [] \/
  exists r, own id (l_responses l) = Some (Response r) /\
    (ds = r_releaseDecisions r \/
     id = e_responseId e /\ exists x decisionId, ds = r_releaseDecisions r ++ [x] /\
       e_data e = ReleaseRequested decisionId (rd_range x) (rd_claimGrantIds x)).

Lemma apply_data_decisions l e r l' d :
  apply_data l e r = Ok (l', d) ->
  exists r' isNew, applyResponse l e r' isNew = Ok (l', d) /\ r_responseId r' = r_responseId r /\
    (r_releaseDecisions r' = r_releaseDecisions r \/
     exists x decisionId, r_releaseDecisions r' = r_releaseDecisions r ++ [x] /\
       e_data e = ReleaseRequested decisionId (rd_range x) (rd_claimGrantIds x)).
Proof.
  unfold apply_data. destruct (e_data e) as [| | | | |did range grantIds| | | | |]; intros H; [done|..].
  5: { unfold request_release in H. pass H as E1. pass H as E2. pass H as E3. pass H as E4.
       eexists _, _. split; [exact H|]. split; [done|]. right. eexists _, did. split; [reflexivity|]. done. }
  all: unfold generate_chunk, close_generation, register_claim, issue_grant, acknowledge, clear_playback, confirm_clear,
    record_barge_in, truncate_history in H; split_guards H; eexists _, _; (split; [exact H|]); (split; [done|]); by left.
Qed.

Lemma apply_decisions evs l e l' d :
  ledger_ok evs l -> applyAudibilityLedgerEvent l e = Ok (l', d) ->
  l_sessionId l' = l_sessionId l /\
  forall id r', own id (l_responses l') = Some (Response r') -> decisions_from l e id (r_releaseDecisions r').
Proof.
  intros Hok H. unfold applyAudibilityLedgerEvent in H. pass H as Ev. pass H as Es.
  assert (forall closed, apply_bare l e closed = Ok (l', d) -> commit l e (js "undefined") BareClosed false = Ok (l', d)) as Hb.
  { intros closed. unfold apply_bare. destruct (e_data e); try done; repeat case_match; done. }
  destruct (safeCanonicalize e) as [text|]; [|done]. destruct (_ <=? _).
  { destruct (bool_decide _); [|done]. injection H as <- _. split; [done|]. intros id r' Ho. right. exists r'. eauto. }
  pass H as Eg. destruct (get_property _ _) as [[r|]| |] eqn:Er.
  - apply get_own in Er. destruct (lo_responses _ _ Hok _ _ Er) as [Hr _].
    apply apply_data_decisions in H as (r' & isNew & H & Hid & Hx).
    apply commit_Ok in H as (_ & text' & ->). split; [done|]. cbn.
    intros id r'' [[-> [= <-]]|Ho]%own_put_Some; [|right; exists r''; eauto].
    right. exists r. rewrite Hid, Hr. split; [done|]. destruct Hx as [?|Hx]; [by left|by right].
  - apply Hb, commit_Ok in H as (_ & text' & ->). split; [done|]. cbn.
    intros id r'' [[_ ?]|Ho]%own_put_Some; [done|right; exists r''; eauto].
  - apply Hb, commit_Ok in H as (_ & text' & ->). split; [done|]. cbn.
    intros id r'' [[_ ?]|Ho]%own_put_Some; [done|right; exists r''; eauto].
  - destruct (e_data e); try done. apply commit_Ok in H as (_ & text' & ->). split; [done|]. cbn.
    intros id r'' [[-> E]|Ho]%own_put_Some; [|right; exists r''; eauto]. injection E as ->. by left.
Qed.
