(* ===== verification/AudibilityProps.v ===== *)
(** * What the audibility ledger guarantees

    Heard audio was released and released audio was generated; claims are released only with
    a verified grant; a sealed response is final; repeated events change nothing; and the
    evidence shown to the conversation splits the released audio without remainder. *)

From S2P Require Import Prelude JsValue JsText Canonical Graph Flow FlowValidate FlowRuntime SampleRanges Audibility AudibilityInvariant.
Import Audibility.

Local Open Scope Z_scope.

Lemma history_ok evs l : history evs l -> ledger_ok evs l.
Proof.
  induction 1 as [id l H|evs l e l' d _ IH H]; [|by apply (apply_step evs l e l' d)].
  unfold createAudibilityLedger in H. split_guards H. injection H as <-. constructor; cbn; [done|done|]. set_solver.
Qed.

Lemma history_response evs l id r :
  history evs l -> own id (l_responses l) = Some (Response r) -> r_responseId r = id /\ response_ok evs r.
Proof. intros H%history_ok. apply H. Qed.

Section Response.
Variables (evs : list Event) (r : ResponseLedger).
Hypothesis Hok : response_ok evs r.

Lemma all_released_valid : valid (all_released r).
Proof.
  apply Forall_forall. intros y (d & -> & [Hd _]%elem_of_filter_list)%list_elem_of_fmap. by apply (ro_decisions _ _ Hok).
Qed.

Lemma released_in_all epoch x : samples (released_in r epoch) x -> samples (all_released r) x.
Proof.
  apply samples_subset. intros y (d & -> & [Hd Hb]%elem_of_filter_list)%list_elem_of_fmap. to_prop.
  apply list_elem_of_fmap_2, elem_of_filter_list. split; [done|]. unfold is_released. by apply bool_decide_eq_true.
Qed.

Lemma heard_released x : samples (r_acknowledgedPlayedRanges r) x -> samples (all_released r) x.
Proof.
  rewrite (proj2 (ro_acked _ _ Hok)). unfold all_acknowledged. intros (rg & (a & Ha & Hrg)%elem_of_flat_map & Hx).
  apply (released_in_all (pa_queueEpoch a)), (ro_acks _ _ Hok a Ha). by exists rg.
Qed.

Lemma confirmed_released x :
  samples (flat_map dc_confirmedNotPlayedRanges (r_deliveryClearConfirmations r)) x -> samples (all_released r) x.
Proof.
  intros (rg & (c & Hc & Hrg)%elem_of_flat_map & Hx).
  destruct (ro_confirmed _ _ Hok c Hc) as (_ & k & Hk & _ & Hsub). destruct (ro_clears _ _ Hok k Hk) as (_ & _ & Hcl).
  apply (released_in_all (cl_closedQueueEpoch k)), Hcl, Hsub. by exists rg.
Qed.

Lemma confirmed_valid : valid (flat_map dc_confirmedNotPlayedRanges (r_deliveryClearConfirmations r)).
Proof.
  apply Forall_forall. intros y (c & Hc & Hy)%elem_of_flat_map. destruct (ro_confirmed _ _ Hok c Hc) as [Hv _].
  rewrite Forall_forall in Hv. auto.
Qed.

(** Chunks that lie end to end cover every sample between once. *)
Lemma tiles_cover start chunks stop x :
  tiles start chunks stop -> start <= x < stop -> exists c, c ∈ chunks /\ within (pc_range c) x.
Proof.
  revert start. induction chunks as [|c l IH]; cbn; intros start; [lia|]. intros (Hs & Hlt & Ht) Hx.
  destruct (Z.lt_ge_cases x (endSample (pc_range c))).
  - exists c. split; [left|]. unfold within. lia.
  - destruct (IH _ Ht ltac:(lia)) as (c' & ? & ?). exists c'. split; [by right|done].
Qed.
Lemma tiles_within start chunks stop c x : tiles start chunks stop -> c ∈ chunks -> within (pc_range c) x -> start <= x < stop.
Proof.
  revert start. induction chunks as [|d l IH]; cbn; intros start; [by intros _ ?%elem_of_nil|].
  intros (Hs & Hlt & Ht) [->|Hc]%elem_of_cons Hx.
  - assert (endSample (pc_range d) <= stop); [|unfold within in Hx; lia]. clear -Ht. revert Ht. generalize (endSample (pc_range d)).
    induction l as [|y l IH]; cbn; intros z; [lia|]. intros (? & ? & Ht). specialize (IH _ Ht). lia.
  - specialize (IH _ Ht Hc Hx). lia.
Qed.
Lemma tiles_once start chunks stop c c' x :
  tiles start chunks stop -> c ∈ chunks -> c' ∈ chunks -> within (pc_range c) x -> within (pc_range c') x -> c = c'.
Proof.
  revert start. induction chunks as [|d l IH]; cbn; intros start; [by intros _ ?%elem_of_nil|].
  intros (Hs & Hlt & Ht) [->|Hc]%elem_of_cons [->|Hc']%elem_of_cons Hx Hx'; [done|..|by eapply IH];
    [pose proof (tiles_within _ _ _ _ _ Ht Hc' Hx') | pose proof (tiles_within _ _ _ _ _ Ht Hc Hx)]; unfold within in *; lia.
Qed.

(** A released sample of a claim was released by a decision that names a grant of the claim. *)
Lemma released_claim_decision k c x :
  own k (r_claims r) = Some c -> within (tc_range c) x -> samples (all_released r) x ->
  exists d id g, d ∈ r_releaseDecisions r /\ rd_outcome d = Released /\ within (rd_range d) x /\ id ∈ rd_claimGrantIds d /\
    own id (r_grants r) = Some g /\ cg_claimId g = k.
Proof.
  intros Hc Hx (rg & (d & -> & [Hd Hrel]%elem_of_filter_list)%list_elem_of_fmap & Hxd). unfold is_released in Hrel. to_prop.
  destruct (ro_granted _ _ Hok d k c Hd Hrel Hc) as (id & g & Hi & Hg & Ek); [|by exists d, id, g].
  apply overlap_iff; [by apply (ro_claims _ _ Hok k)|by apply (ro_decisions _ _ Hok)|]. by exists x.
Qed.

Lemma released_claim_granted k c x :
  own k (r_claims r) = Some c -> within (tc_range c) x -> samples (all_released r) x ->
  exists id g, own id (r_grants r) = Some g /\ cg_claimId g = k.
Proof. intros Hc Hx Hs. destruct (released_claim_decision k c x Hc Hx Hs) as (d & id & g & _ & _ & _ & _ & ? & ?). by exists id, g. Qed.
End Response.

(** In every ledger built by events, each sample that was acknowledged as played lies in a released range, and each
    released sample lies in exactly one generated chunk. *)
Theorem heard_was_released_was_generated evs l id r x :
  history evs l -> own id (l_responses l) = Some (Response r) ->
  (samples (r_acknowledgedPlayedRanges r) x -> samples (all_released r) x) /\
  (samples (all_released r) x ->
   exists c, c ∈ r_chunks r /\ within (pc_range c) x /\ forall c', c' ∈ r_chunks r -> within (pc_range c') x -> c' = c).
Proof.
  intros H Hr. destruct (history_response _ _ _ _ H Hr) as [_ Hok]. split; [by eapply heard_released|].
  intros (rg & (d & -> & [Hd _]%elem_of_filter_list)%list_elem_of_fmap & Hx).
  destruct (ro_decisions _ _ Hok d Hd) as (Hrg%isRange_bounds & Hle & _). pose proof (ro_chunks _ _ Hok) as Ht.
  destruct (tiles_cover _ _ _ x Ht) as (c & Hc & Hxc); [unfold within in Hx; lia|].
  exists c. split_and!; [done..|]. intros c' Hc' Hxc'. by eapply tiles_once.
Qed.

(** Audio of a terminal claim is never released, and so never heard, without a grant for that claim; the grant was
    issued by an event of the history on an authority that the host verified for this response, this claim and the very
    content of the claim. *)
Theorem released_claims_were_granted evs l id r k c x :
  history evs l -> own id (l_responses l) = Some (Response r) -> own k (r_claims r) = Some c -> within (tc_range c) x ->
  samples (all_released r) x \/ samples (r_acknowledgedPlayedRanges r) x ->
  exists gid e a, e ∈ evs /\ e_data e = ClaimGrantIssued gid a /\ va_verified a = true /\
    ga_responseId (va_input a) = id /\ ga_claimId (va_input a) = k /\
    ga_claimContentSha256 (va_input a) = tc_contentSha256 c /\ own gid (r_grants r) = Some (grant_of e gid a).
Proof.
  intros H Hr Hc Hx Hrel. destruct (history_response _ _ _ _ H Hr) as [Hid Hok].
  assert (samples (all_released r) x) as Hrx by (destruct Hrel; [done|by eapply heard_released]).
  destruct (released_claim_granted evs r Hok k c x Hc Hx Hrx) as (gid & g & Hg & Ek).
  destruct (ro_grants _ _ Hok _ _ Hg) as (e & a & c' & He & Hd & _ & Hv & -> & Hresp & Hown & Hsha).
  cbn in Ek. exists gid, e, a. rewrite Ek, Hc in Hown. injection Hown as <-. split_and!; try done. congruence.
Qed.

(** Once playback of a response is sealed (a barge-in, disconnect, cancellation or replacement cleared its queue), no
    sequence of further events releases another range of it or changes what was heard of it. *)
Theorem sealed_playback_final evs l l' id r r' :
  history evs l -> own id (l_responses l) = Some (Response r) -> r_playbackSealed r = true ->
  rtc step l l' -> own id (l_responses l') = Some (Response r') ->
  r_playbackSealed r' = true /\ r_acknowledgedPlayedRanges r' = r_acknowledgedPlayedRanges r /\
  forall d, d ∈ r_releaseDecisions r' -> rd_outcome d = Released -> d ∈ r_releaseDecisions r.
Proof.
  intros H Hr Hs Hsteps Hr'.
  assert (exists en, own id (l_responses l') = Some en /\ entry_evolves (Response r) en) as (en & Hen & Hev).
  { clear Hr' Hs r'. revert evs H. generalize dependent (Response r). clear r.
    induction Hsteps as [l|l m l' (e & d & He) _ IH]; intros en Hen evs H; [by exists en|].
    destruct (apply_step evs l e m d (history_ok _ _ H) He) as [_ Hev]. destruct (Hev _ _ Hen) as (en1 & H1 & H2).
    destruct (IH _ H1 _ (history_step _ _ _ _ _ H He)) as (en2 & H3 & H4). exists en2. split; [done|]. by etrans. }
  rewrite Hr' in Hen. injection Hen as <-. by apply Hev.
Qed.

(** Every event of the history may be delivered again at any later time: it is recognised as a
    duplicate and nothing changes. *)
Theorem replayed_events_ignored evs l e :
  history evs l -> e ∈ evs -> applyAudibilityLedgerEvent l e = Ok (l, true).
Proof.
  intros H He. destruct (lo_replay _ _ (history_ok _ _ H) e He) as (text & Hv & Hs & Ht & Hq & Hp).
  unfold applyAudibilityLedgerEvent. rewrite Hv, Hs, str_eqb_refl, Ht, (proj2 (Z.leb_le _ _) Hq), Hp. cbn [negb].
  by rewrite bool_decide_eq_true_2.
Qed.

(** ** The evidence shown to the conversation *)

Section Evidence.
Variables (evs : list Event) (r : ResponseLedger).
Hypothesis Hok : response_ok evs r.

Lemma audible_samples x : samples (audibleRanges r) x <-> samples (r_acknowledgedPlayedRanges r) x.
Proof. apply normalize_samples, (ro_acked _ _ Hok). Qed.

Lemma released_samples x : samples (releasedRanges r) x <-> samples (all_released r) x.
Proof. unfold releasedRanges. apply normalize_samples, (all_released_valid evs r Hok). Qed.

Lemma notPlayed_samples x :
  samples (verifiedNotPlayedRanges r) x <->
  samples (flat_map dc_confirmedNotPlayedRanges (r_deliveryClearConfirmations r)) x /\ ~ samples (r_acknowledgedPlayedRanges r) x.
Proof.
  unfold verifiedNotPlayedRanges. rewrite subtract_samples by apply normalize_valid.
  rewrite normalize_samples by apply (confirmed_valid evs r Hok). by rewrite audible_samples.
Qed.

Lemma parts_valid : valid (audibleRanges r ++ verifiedNotPlayedRanges r).
Proof. apply Forall_app. split; [apply normalize_valid | apply subtract_spec]. Qed.

Lemma unknown_samples x :
  samples (unknownRanges r) x <->
  samples (all_released r) x /\ ~ samples (audibleRanges r) x /\ ~ samples (verifiedNotPlayedRanges r) x.
Proof.
  unfold unknownRanges. rewrite subtract_samples by (apply normalize_valid || apply parts_valid).
  rewrite released_samples, samples_app. tauto.
Qed.

Lemma samples_dec rs x : samples rs x \/ ~ samples rs x.
Proof.
  destruct (decide (Exists (fun r => startSample r <= x < endSample r) rs)) as [H|H]; [left|right].
  - by apply Exists_exists in H.
  - intros Hs. by apply H, Exists_exists.
Qed.

Lemma claim_fully_audible k c :
  own k (r_claims r) = Some c ->
  ca_status (claim_audibility r c) = FullyAudible <-> (forall x, within (tc_range c) x -> samples (r_acknowledgedPlayedRanges r) x).
Proof.
  intros Hc. destruct (ro_claims _ _ Hok _ _ Hc) as (_ & Hv & _).
  assert (valid [tc_range c]) as Hv1 by by constructor. pose proof (normalize_valid (r_acknowledgedPlayedRanges r)) as Hva.
  pose proof (covers_iff (intersectRanges (audibleRanges r) [tc_range c]) (tc_range c) (normalize_valid _) Hv) as Hcov.
  assert (forall x, samples (intersectRanges (audibleRanges r) [tc_range c]) x <->
    samples (r_acknowledgedPlayedRanges r) x /\ within (tc_range c) x) as Hi.
  { intros x. rewrite intersect_samples by done. rewrite audible_samples, samples_cons. pose proof (samples_nil x). tauto. }
  cbn [claim_audibility ca_status]. destruct (coversRange (intersectRanges (audibleRanges r) _) _) eqn:E.
  - split; [|done]. intros _ x Hx. by apply Hi, Hcov.
  - split; [repeat case_match; done|]. intros H. exfalso. enough (false = true) by done. apply Hcov. intros x Hx. apply Hi. auto.
Qed.

Lemma audible_claim_granted k c :
  own k (r_claims r) = Some c -> ca_status (claim_audibility r c) = FullyAudible ->
  exists g, g ∈ object_values (r_grants r) /\ cg_claimId g = k /\ ca_grantId (claim_audibility r c) = Some (cg_grantId g) /\
    ca_authorityReceiptSha256 (claim_audibility r c) = Some (cg_authorityReceiptSha256 g).
Proof.
  intros Hc Hfull. rewrite (claim_fully_audible k c Hc) in Hfull. destruct (ro_claims _ _ Hok _ _ Hc) as (Ek & Hv & _).
  apply isRange_bounds in Hv. assert (within (tc_range c) (startSample (tc_range c))) as Hx by (unfold within; lia).
  destruct (released_claim_granted evs r Hok k c _ Hc Hx (heard_released evs r Hok _ (Hfull _ Hx))) as (gid & g & Hg & Eg).
  unfold claim_audibility. cbn [ca_grantId ca_authorityReceiptSha256]. unfold grant_for.
  destruct (List.find _ _) as [g'|] eqn:E.
  - apply find_elem in E as [Hg' Ec]. to_prop. exists g'. split_and!; [done|congruence|done..].
  - exfalso. rewrite find_none_elem in E. specialize (E g). rewrite str_eqb_neq in E.
    apply E; [|congruence]. apply elem_of_object_values. exists gid. by apply own_elem_of.
Qed.
End Evidence.

(** The evidence of a response splits its released audio: every released sample is in exactly one of the audible,
    verified-not-played and unknown ranges, the audible ones being those that a playback device acknowledged. A claim is
    reported as fully audible exactly when every sample of it was acknowledged, and then with a grant for that claim. *)
Theorem evidence_splits_release evs l id r :
  history evs l -> own id (l_responses l) = Some (Response r) ->
  let p := project_response r id in
  let audible := samples (re_audibleRanges p) in
  let notPlayed := samples (re_verifiedNotPlayedRanges p) in
  let unknown := samples (re_unknownRanges p) in
  (forall x, audible x <-> samples (r_acknowledgedPlayedRanges r) x) /\
  (forall x, samples (all_released r) x <-> audible x \/ notPlayed x \/ unknown x) /\
  (forall x, ~ (audible x /\ notPlayed x) /\ ~ (audible x /\ unknown x) /\ ~ (notPlayed x /\ unknown x)) /\
  (forall k c, own k (r_claims r) = Some c ->
     claim_audibility r c ∈ re_terminalClaims p /\
     (ca_status (claim_audibility r c) = FullyAudible <->
      forall x, within (tc_range c) x -> samples (r_acknowledgedPlayedRanges r) x) /\
     (ca_status (claim_audibility r c) = FullyAudible ->
      exists g, g ∈ object_values (r_grants r) /\ cg_claimId g = k /\
        ca_grantId (claim_audibility r c) = Some (cg_grantId g) /\
        ca_authorityReceiptSha256 (claim_audibility r c) = Some (cg_authorityReceiptSha256 g))).
Proof.
  intros H Hr. destruct (history_response _ _ _ _ H Hr) as [_ Hok].
  cbn [project_response re_audibleRanges re_verifiedNotPlayedRanges re_unknownRanges re_terminalClaims]. split_and!.
  - apply (audible_samples evs r Hok).
  - intros x. rewrite (unknown_samples evs r Hok x). split.
    + intros Hx. destruct (samples_dec (audibleRanges r) x), (samples_dec (verifiedNotPlayedRanges r) x); tauto.
    + intros [Hx|[Hx|Hx]]; [|..|tauto].
      * apply (heard_released evs r Hok), (audible_samples evs r Hok), Hx.
      * apply (notPlayed_samples evs r Hok) in Hx as [Hx _]. by apply (confirmed_released evs r Hok).
  - intros x. rewrite (unknown_samples evs r Hok x), (notPlayed_samples evs r Hok x), (audible_samples evs r Hok x). tauto.
  - intros k c Hc. split_and!.
    + apply list_elem_of_fmap_2, elem_of_sort_by, elem_of_object_values. exists k. by apply own_elem_of.
    + by eapply claim_fully_audible.
    + by eapply audible_claim_granted.
Qed.
