(* ===== verification/AudibilityDemo.v ===== *)
(** * A response that is interrupted

    A spoken response with a terminal claim: generated in two chunks, released with a grant,
    heard in part and cleared by a barge-in; and two ledgers that an event on an inherited
    property name corrupts. *)

From S2P Require Import Prelude JsValue JsText Canonical Graph Flow FlowValidate FlowRuntime SampleRanges.
From S2P Require Import Audibility AudibilityInvariant AudibilityProps.
Import Audibility.

Local Open Scope Z_scope.

Definition hash_of (s : string) : jstr := @sha256 demo_sha256 (js s).

Definition event_on (response : string) (sequence : Z) (d : EventData) : Event :=
  {| e_sequence := sequence; e_eventId := js "event"; e_sessionId := js "call.7"; e_responseId := js response;
     e_evidence := {| er_source := eventSource d; er_sha256 := hash_of "receipt"; er_artifactId := None |}; e_data := d |}.

(** The host verifies the receipt of the refund. *)
Definition refund_authority : result string VerifiedClaimGrantAuthority :=
  reopenVerifiedClaimGrantAuthority
    {| ga_responseId := js "resp.1"; ga_claimId := js "refunded"; ga_claimContentSha256 := hash_of "claim";
       ga_authorityRevision := 4; ga_authorityReceiptSha256 := hash_of "receipt"; ga_reopenedReceiptSha256 := hash_of "reopened";
       ga_turnContractSha256 := hash_of "contract"; ga_semanticBindingSha256 := hash_of "binding" |}
    (fun _ => HostVerified (js "host") (hash_of "verified")).

Definition talk : list EventData :=
  [ResponseRegistered 16000 1; PcmChunkGenerated (js "c0") 0 1000 (hash_of "c0");
   PcmChunkGenerated (js "c1") 1 500 (hash_of "c1"); GenerationClosed;
   TerminalClaimRegistered (js "refunded") ExternalEffect (mkRange 200 600) (hash_of "claim")] ++
  match refund_authority with Ok a => [ClaimGrantIssued (js "g1") a] | Err _ => [] end ++
  [ReleaseRequested (js "d1") (mkRange 0 1200) [js "g1"]; PlaybackAcknowledged (js "a1") [mkRange 0 700] [js "d1"];
   PlaybackCleared (js "k1") BargeIn; DeliveryClearConfirmed (js "n1") (js "k1") [mkRange 900 1200]].

Definition numbered (response : string) (ds : list EventData) : list Event :=
  zip_with (fun i d => event_on response (Z.of_nat i) d) (seq 1 (length ds)) ds.

Definition empty_ledger : Ledger := mkLedger (js "call.7") 0 [] [] [].

(** The ledger after a list of events that all succeed. *)
Fixpoint replay (l : Ledger) (evs : list Event) : option Ledger :=
  match evs with
  | [] => Some l
  | e :: evs => match applyAudibilityLedgerEvent l e with Ok (l', _) => replay l' evs | Err _ => None end
  end.

Lemma replay_history past l evs l' : history past l -> replay l evs = Some l' -> history (past ++ evs) l'.
Proof.
  revert past l. induction evs as [|e evs IH]; intros past l H E; cbn in E; [rewrite app_nil_r; congruence|].
  destruct (applyAudibilityLedgerEvent l e) as [[m d]|] eqn:Ea; [|done].
  rewrite cons_middle, app_assoc. eapply IH; [|exact E]. by eapply history_step.
Qed.

Lemma replay_steps l evs l' : replay l evs = Some l' -> rtc step l l'.
Proof.
  revert l. induction evs as [|e evs IH]; intros l E; cbn in E; [injection E as ->; apply rtc_refl|].
  destruct (applyAudibilityLedgerEvent l e) as [[m d]|] eqn:Ea; [|done]. eapply rtc_l; [by exists e, d|by apply IH].
Qed.

Lemma empty_history : history [] empty_ledger.
Proof. apply (history_new (js "call.7")). reflexivity. Qed.

Definition talk_ledger (n : nat) : Ledger := default empty_ledger (replay empty_ledger (take n (numbered "resp.1" talk))).
Definition talk_response (n : nat) : ResponseLedger :=
  match own (js "resp.1") (l_responses (talk_ledger n)) with Some (Response r) => r | _ => new_response [] 0 0 end.

Lemma talk_replays n : (n <= 10)%nat -> replay empty_ledger (take n (numbered "resp.1" talk)) = Some (talk_ledger n).
Proof. intros H. do 11 (destruct n as [|n]; [vm_compute; reflexivity|]). lia. Qed.

Lemma talk_history n : (n <= 10)%nat -> history (take n (numbered "resp.1" talk)) (talk_ledger n).
Proof. intros H. apply (replay_history [] empty_ledger); [apply empty_history | by apply talk_replays]. Qed.

Lemma talk_entry n : (1 <= n <= 10)%nat -> own (js "resp.1") (l_responses (talk_ledger n)) = Some (Response (talk_response n)).
Proof. intros H. destruct n as [|n]; [lia|]. do 10 (destruct n as [|n]; [vm_compute; reflexivity|]). lia. Qed.

Lemma talk_heard : samples (r_acknowledgedPlayedRanges (talk_response 10)) 250.
Proof. exists (mkRange 0 700). split; [apply list_elem_of_lookup_2 with 0%nat; vm_compute; reflexivity | unfold within; cbn; lia]. Qed.

Lemma heard_was_released_was_generated_witness : samples (all_released (talk_response 10)) 250.
Proof.
  apply (heard_was_released_was_generated (take 10 (numbered "resp.1" talk)) (talk_ledger 10) (js "resp.1") (talk_response 10) 250).
  - apply talk_history. lia.
  - apply talk_entry. lia.
  - exact talk_heard.
Defined.

Definition refund_claim : TerminalClaim :=
  {| tc_claimId := js "refunded"; tc_kind := ExternalEffect; tc_range := mkRange 200 600; tc_contentSha256 := hash_of "claim";
     tc_evidence := {| er_source := SemanticAlignment; er_sha256 := hash_of "receipt"; er_artifactId := None |} |}.

Lemma talk_claim : own (js "refunded") (r_claims (talk_response 10)) = Some refund_claim.
Proof. vm_compute. reflexivity. Qed.

Lemma released_claims_were_granted_witness :
  exists gid e a, e ∈ take 10 (numbered "resp.1" talk) /\ e_data e = ClaimGrantIssued gid a /\ va_verified a = true /\
    ga_responseId (va_input a) = js "resp.1" /\ ga_claimId (va_input a) = js "refunded" /\
    ga_claimContentSha256 (va_input a) = tc_contentSha256 refund_claim /\
    own gid (r_grants (talk_response 10)) = Some (grant_of e gid a).
Proof.
  apply (released_claims_were_granted (take 10 (numbered "resp.1" talk)) (talk_ledger 10) (js "resp.1") (talk_response 10)
           (js "refunded") refund_claim 250).
  - apply talk_history. lia.
  - apply talk_entry. lia.
  - exact talk_claim.
  - unfold within. cbn. lia.
  - right. exact talk_heard.
Defined.

Lemma sealed_playback_final_witness :
  r_acknowledgedPlayedRanges (talk_response 10) = r_acknowledgedPlayedRanges (talk_response 9).
Proof.
  apply (sealed_playback_final (take 9 (numbered "resp.1" talk)) (talk_ledger 9) (talk_ledger 10) (js "resp.1")
           (talk_response 9) (talk_response 10)).
  - apply talk_history. lia.
  - apply talk_entry. lia.
  - vm_compute. reflexivity.
  - apply (replay_steps _ (drop 9 (numbered "resp.1" talk))). vm_compute. reflexivity.
  - apply talk_entry. lia.
Defined.

Lemma evidence_splits_release_witness :
  samples (re_audibleRanges (project_response (talk_response 10) (js "resp.1"))) 250 /\
  ca_status (claim_audibility (talk_response 10) refund_claim) = FullyAudible /\
  re_unknownRanges (project_response (talk_response 10) (js "resp.1")) = [mkRange 700 900].
Proof.
  split_and!; [|vm_compute; reflexivity..].
  apply (evidence_splits_release (take 10 (numbered "resp.1" talk)) (talk_ledger 10) (js "resp.1") (talk_response 10)).
  - apply talk_history. lia.
  - apply talk_entry. lia.
  - exact talk_heard.
Defined.

(** ** Findings *)

(** Closing the generation of a response that was never registered succeeds when its id names
    an inherited property, and writes an entry under the name "undefined". *)
Example inherited_response_is_closed :
  match applyAudibilityLedgerEvent empty_ledger (event_on "constructor" 1 GenerationClosed) with
  | Ok (l, _) => l_responses l = [(js "undefined", BareClosed)] /\ l_revision l = 1
  | Err _ => False
  end.
Proof. vm_compute. split; reflexivity. Qed.

(** It replaces a registered response of that name, and the evidence can then no longer be computed. *)
Example inherited_close_destroys_response :
  match replay empty_ledger [event_on "undefined" 1 (ResponseRegistered 16000 1); event_on "constructor" 2 GenerationClosed] with
  | Some l => own (js "undefined") (l_responses l) = Some BareClosed /\ l_responseOrder l = [js "undefined"] /\
              projectAudibleConversationEvidence l = None
  | None => False
  end.
Proof. vm_compute. repeat split; reflexivity. Qed.
