(* ===== verification/Governed.v ===== *)
(** * The governed effect runtime (src/web/lib/governed-effect-runtime)

    The coordinator that takes a proposed action through policy, reservation, dispatch and
    settlement. It is asynchronous: it awaits a store, an adapter and the clock, and other
    executions run in between. A coordinator method is therefore a program ([prog]) whose
    calls are answered from outside; an answer [None] is a rejected promise. *)

From S2P Require Import Prelude JsValue JsText Canonical JsDate Graph Flow FlowValidate FlowRuntime ActionPolicy.
Import ActionPolicy.

Local Open Scope Z_scope.

Module Governed.

Definition MAX_IDEMPOTENCY_KEY_BYTES : Z := 512.
Definition MAX_LEASE_TTL_MS : Z := 60000.
Definition MAX_RECONCILIATION_CLAIM_TTL_MS : Z := 300000.
Definition MAX_RECONCILIATION_CLAIMS : Z := 10.

(** ** Data (types.ts) *)

Record AuthorityBinding := { ab_stateHeadSha256 : jstr; ab_stateRevision : Z; ab_capabilityEpoch : Z }.

Record GovernedEffectAuthority := {
  ea_binding : AuthorityBinding;
  ea_policy : ActionPolicySet;
  ea_facts : list PolicyFact;
  ea_receipts : list PolicyReceipt;
  ea_priorCallCount : Z;
}.

Record GovernedEffectProposal := {
  gp_subjectId : jstr;
  gp_action : jstr;
  gp_arguments : obj jsval;
  gp_idempotencyKey : jstr;
  gp_expectedAuthority : AuthorityBinding;
  gp_confirmation : option ConfirmationEvidence;
}.

Record GovernedEffectLease := {
  le_binding : AuthorityBinding;
  le_leaseId : jstr;
  le_action : jstr;
  le_effect : Effect;
  le_argumentsSha256 : jstr;
  le_proposalDigest : jstr;
  le_policyDigest : jstr;
  le_decisionDigest : jstr;
  le_expiresAt : jstr;
}.

Inductive EffectReceiptStatus : Type := GReserved | GDispatching | GSucceeded | GFailed | GIndeterminate.
#[export] Instance effect_receipt_status_eq_dec : EqDecision EffectReceiptStatus.
Proof. solve_decision. Defined.

Record GovernedEffectReceipt := {
  gr_binding : AuthorityBinding;
  gr_receiptId : jstr;
  gr_scopeId : jstr;
  gr_invocationId : jstr;
  gr_idempotencyKey : jstr;
  gr_action : jstr;
  gr_effect : Effect;
  gr_argumentsSha256 : jstr;
  gr_proposalDigest : jstr;
  gr_policyDigest : jstr;
  gr_status : EffectReceiptStatus;
  gr_dispatchAttempts : Z;
  gr_dispatchStartedAt : option jstr;
  gr_settledAt : option jstr;
  gr_resultSha256 : option jstr;
  gr_proofSha256 : option jstr;
  gr_errorCode : option jstr;
  gr_providerVisibleResult : option (obj jsval);
}.

Record ReserveAllowedInput := {
  ri_proposal : GovernedEffectProposal;
  ri_decision : PreDispatchDecision;
  ri_leaseExpiresAt : jstr;
  ri_now : jstr;
}.

Inductive ReserveAllowedResult : Type :=
| RvReserved (receipt : GovernedEffectReceipt) (lease : GovernedEffectLease) (dispatchOwner : bool)
| RvTerminalReplay (receipt : GovernedEffectReceipt)
| RvInFlightReplay (receipt : GovernedEffectReceipt)
| RvIdempotencyConflict (existingArgumentsSha256 : jstr)
| RvStaleAuthority (current : AuthorityBinding)
| RvRepairRequired (repairToken : jstr).

Inductive DispatchBoundaryResult : Type :=
| BdStarted (receipt : GovernedEffectReceipt)
| BdStaleAuthority (current : AuthorityBinding)
| BdLeaseExpired (receipt : GovernedEffectReceipt)
| BdNotOwner (receipt : GovernedEffectReceipt)
| BdAlreadyCrossed (receipt : GovernedEffectReceipt).

Record ReconciliationClaimLease := { cm_claimId : jstr; cm_ordinal : Z; cm_claimedAt : jstr; cm_expiresAt : jstr }.
Inductive JobStatus : Type := JQueued | JRunning | JCompleted.
#[export] Instance job_status_eq_dec : EqDecision JobStatus.
Proof. solve_decision. Defined.

Record ReconciliationJob := {
  jb_jobId : jstr;
  jb_receiptId : jstr;
  jb_subjectId : jstr;
  jb_invocationId : jstr;
  jb_idempotencyKey : jstr;
  jb_action : jstr;
  jb_arguments : obj jsval;
  jb_argumentsSha256 : jstr;
  jb_policy : ActionPolicySet;
  jb_preDispatchDecision : PreDispatchDecision;
  jb_attempt : Z;
  jb_maxAttempts : Z;
  jb_activeClaim : option ReconciliationClaimLease;
  jb_status : JobStatus;
}.

Inductive ReconciliationClaim : Type :=
| ClClaimed (job : ReconciliationJob) (claim : ReconciliationClaimLease)
| ClNotClaimable (job : ReconciliationJob) (receipt : GovernedEffectReceipt)
| ClExhausted (job : ReconciliationJob) (receipt : GovernedEffectReceipt).

Inductive IndeterminateRecoveryResult : Type :=
| IrIndeterminate (receipt : GovernedEffectReceipt) (job : ReconciliationJob)
| IrTerminal (receipt : GovernedEffectReceipt).

Inductive SettleStatus : Type := StSucceeded | StFailed | StIndeterminate.
#[export] Instance settle_status_eq_dec : EqDecision SettleStatus.
Proof. solve_decision. Defined.

Record SettleInput := {
  se_receiptId : jstr;
  se_status : SettleStatus;
  se_resultSha256 : option jstr;
  se_proofSha256 : option jstr;
  se_providerVisibleResult : option (obj jsval);
  se_errorCode : option jstr;
  se_now : jstr;
}.

Record RecoveryInput := {
  rc_receiptId : jstr;
  rc_subjectId : jstr;
  rc_invocationId : jstr;
  rc_idempotencyKey : jstr;
  rc_action : jstr;
  rc_arguments : obj jsval;
  rc_argumentsSha256 : jstr;
  rc_policy : ActionPolicySet;
  rc_preDispatchDecision : PreDispatchDecision;
  rc_resultSha256 : option jstr;
  rc_errorCode : jstr;
  rc_maxClaimAttempts : Z;
  rc_now : jstr;
}.

Inductive RecDisposition : Type := RdCommitted | RdAbsent | RdUnknown.
#[export] Instance rec_disposition_eq_dec : EqDecision RecDisposition.
Proof. solve_decision. Defined.

Record SettleReconciliationInput := {
  sr_jobId : jstr;
  sr_receiptId : jstr;
  sr_claimId : jstr;
  sr_claimOrdinal : Z;
  sr_disposition : RecDisposition;
  sr_proofSha256 : option jstr;
  sr_resultSha256 : option jstr;
  sr_providerVisibleResult : option (obj jsval);
  sr_errorCode : option jstr;
  sr_now : jstr;
}.
Inductive SettledDisposition : Type := SdSettled | SdStaleClaim | SdTerminal.

Inductive EffectDispatchOutcome : Type :=
| DoCompleted (result : obj jsval)
| DoAuthoritativelyAbsent (proofSha256 : jstr) (errorCode : option jstr)
| DoIndeterminate (errorCode : option jstr).

Inductive EffectReconciliationOutcome : Type :=
| RoCommitted (proofSha256 : jstr) (result : obj jsval)
| RoAbsent (proofSha256 : jstr)
| RoUnknown (errorCode : option jstr).

(** The input of [adapter.dispatch] and of [adapter.reconcile]. *)
Record AdapterInput := {
  ai_receiptId : jstr; ai_invocationId : jstr; ai_idempotencyKey : jstr; ai_arguments : obj jsval
}.

Inductive GovernedEffectExecutionResult : Type :=
| XDenied (decision : PreDispatchDecision)
| XConfirmationRequired (decision : PreDispatchDecision)
| XStaleAuthority (current : AuthorityBinding) (receipt : option GovernedEffectReceipt)
| XIdempotencyConflict (existingArgumentsSha256 : jstr)
| XPreDispatchFailed (reason : jstr)
| XInFlight (receipt : GovernedEffectReceipt)
| XSucceeded (receipt : GovernedEffectReceipt) (providerVisibleResult : obj jsval)
| XFailed (receipt : GovernedEffectReceipt)
| XIndeterminate (receipt : GovernedEffectReceipt) (reconciliationJob : ReconciliationJob).

Inductive RunDisposition : Type :=
| RrCommitted | RrAbsent | RrUnknown | RrNotClaimable | RrExhausted | RrStaleClaim | RrTerminal.
Record ReconciliationRunResult := {
  rr_disposition : RunDisposition; rr_job : ReconciliationJob; rr_receipt : GovernedEffectReceipt
}.

(** ** Calls and programs *)

(** The operations of [GovernedEffectStore]. *)
Inductive StoreCall : Type :=
| ReadAuthority (subjectId : jstr)
| ReserveAllowed (input : ReserveAllowedInput)
| RepairBeforeDispatch (subjectId idempotencyKey repairToken now : jstr)
| CrossDispatchBoundary (receiptId : jstr) (lease : GovernedEffectLease) (expectedAuthority : AuthorityBinding) (now : jstr)
| Settle (input : SettleInput)
| EnsureIndeterminateReconciliation (input : RecoveryInput)
| ClaimReconciliation (jobId now leaseExpiresAt : jstr)
| SettleReconciliation (input : SettleReconciliationInput).

Definition StoreAnswer (c : StoreCall) : Type :=
  match c with
  | ReadAuthority _ => GovernedEffectAuthority
  | ReserveAllowed _ => ReserveAllowedResult
  | RepairBeforeDispatch _ _ _ _ => bool
  | CrossDispatchBoundary _ _ _ _ => DispatchBoundaryResult
  | Settle _ => GovernedEffectReceipt
  | EnsureIndeterminateReconciliation _ => IndeterminateRecoveryResult
  | ClaimReconciliation _ _ _ => ReconciliationClaim
  | SettleReconciliation _ => (SettledDisposition * ReconciliationJob * GovernedEffectReceipt)%type
  end.

Inductive Call : Type :=
| Store (c : StoreCall)
| Dispatch (action : jstr) (input : AdapterInput)
| Reconcile (action : jstr) (input : AdapterInput)
| Now.

Definition Answer (c : Call) : Type :=
  match c with
  | Store c => StoreAnswer c
  | Dispatch _ _ => EffectDispatchOutcome
  | Reconcile _ _ => EffectReconciliationOutcome
  | Now => jstr
  end.

(** An asynchronous method: [Await c k] calls [c] and goes on with its answer. *)
Inductive prog (A : Type) : Type :=
| Return (a : A)
| Throw
| Await (c : Call) (k : option (Answer c) -> prog A).
Arguments Return {A} _.
Arguments Throw {A}.
Arguments Await {A} _ _.

Fixpoint bind {A B} (p : prog A) (f : A -> prog B) : prog B :=
  match p with
  | Return a => f a
  | Throw => Throw
  | Await c k => Await c (fun r => bind (k r) f)
  end.

(** [try { p } catch { h }] *)
Fixpoint catch {A} (p h : prog A) : prog A :=
  match p with
  | Return a => Return a
  | Throw => h
  | Await c k => Await c (fun r => catch (k r) h)
  end.

(** [await c]; a rejection is thrown. *)
Definition await (c : Call) : prog (Answer c) := Await c (fun r => match r with Some a => Return a | None => Throw end).

Notation "'do' x '<-' c ';' k" := (Await c (fun r => match r with Some x => k | None => Throw end))
  (at level 10, x pattern, c at level 100, k at level 200) : hacc_scope.

Definition from_result {E A} (r : result E A) : prog A := match r with Ok a => Return a | Err _ => Throw end.
Definition from_opt {A} (o : option A) : prog A := match o with Some a => Return a | None => Throw end.
Definition check (b : bool) {A} (p : prog A) : prog A := if b then p else Throw.

(** ** Helpers (coordinator.ts) *)

(** [JSON.parse(canonicalJson(arguments))]: the same content, detached; property order is
    that of the text. [None] is the exception on a value that is not JSON. *)
Definition detach (arguments : obj jsval) : option (obj jsval) :=
  match canonicalJson (JObj arguments), norm (JObj arguments) with
  | Some _, JObj kvs => Some kvs
  | _, _ => None
  end.

Definition sameAuthority (left right : AuthorityBinding) : bool :=
  (ab_stateHeadSha256 left =?s ab_stateHeadSha256 right) &&
  (ab_stateRevision left =? ab_stateRevision right) &&
  (ab_capabilityEpoch left =? ab_capabilityEpoch right).

Definition authorityBinding (authority : GovernedEffectAuthority) : AuthorityBinding := ea_binding authority.

Definition assertCanonicalTime (value : jstr) : prog Z := from_opt (canonical_ms value).

(** [new Date(ms).toISOString()] throws beyond the time range. *)
Definition date_text (ms : Z) : option jstr := if Z.abs ms <=? MAX_TIME then Some (toISOString ms) else None.

Definition receipt_bound (receipt : GovernedEffectReceipt) (proposal : GovernedEffectProposal)
    (decision : PreDispatchDecision) : bool :=
  (gr_scopeId receipt =?s gp_subjectId proposal) &&
  (gr_idempotencyKey receipt =?s gp_idempotencyKey proposal) &&
  (gr_action receipt =?s gp_action proposal) &&
  bool_decide (Some (gr_effect receipt) = pd_effect decision) &&
  (gr_argumentsSha256 receipt =?s pd_arguments_sha256 decision) &&
  (gr_proposalDigest receipt =?s pd_proposal_digest decision) &&
  (gr_policyDigest receipt =?s pd_policy_digest decision) &&
  (ab_stateHeadSha256 (gr_binding receipt) =?s pd_state_head_sha256 decision) &&
  (ab_stateRevision (gr_binding receipt) =? pd_state_revision decision) &&
  (ab_capabilityEpoch (gr_binding receipt) =? pd_capability_epoch decision).

Definition receipt_valid (receipt : GovernedEffectReceipt) : bool :=
  negb (gr_receiptId receipt =?s []) && negb (gr_invocationId receipt =?s []) &&
  (0 <=? gr_dispatchAttempts receipt) && (gr_dispatchAttempts receipt <=? 1).

Definition receipt_consistent (receipt : GovernedEffectReceipt) : bool :=
  eqb (gr_dispatchAttempts receipt =? 0) (bool_decide (gr_dispatchStartedAt receipt = None)).

(** An assertion: the continuation runs when it holds. *)
Definition assertReceiptBoundToDecision {A} (receipt : GovernedEffectReceipt)
    (proposal : GovernedEffectProposal) (decision : PreDispatchDecision) (k : prog A) : prog A :=
  check (receipt_bound receipt proposal decision)
    (check (receipt_valid receipt) (check (receipt_consistent receipt) k)).

Definition lease_bound (lease : GovernedEffectLease) (decision : PreDispatchDecision) (nowMs expiresAtMs : Z) : bool :=
  negb (le_leaseId lease =?s []) && (le_action lease =?s pd_action decision) &&
  bool_decide (Some (le_effect lease) = pd_effect decision) &&
  (le_argumentsSha256 lease =?s pd_arguments_sha256 decision) &&
  (le_proposalDigest lease =?s pd_proposal_digest decision) &&
  (le_policyDigest lease =?s pd_policy_digest decision) &&
  (le_decisionDigest lease =?s pd_decision_digest decision) &&
  (ab_stateHeadSha256 (le_binding lease) =?s pd_state_head_sha256 decision) &&
  (ab_stateRevision (le_binding lease) =? pd_state_revision decision) &&
  (ab_capabilityEpoch (le_binding lease) =? pd_capability_epoch decision) &&
  (nowMs <? expiresAtMs) && (expiresAtMs - nowMs <=? MAX_LEASE_TTL_MS).

Definition assertLeaseBoundToDecision {A} (lease : GovernedEffectLease) (decision : PreDispatchDecision)
    (nowMs : Z) (k : prog A) : prog A :=
  match canonical_ms (le_expiresAt lease) with
  | Some expiresAtMs => check (lease_bound lease decision nowMs expiresAtMs) k
  | None => Throw
  end.

Definition replayResult (receipt : GovernedEffectReceipt) : GovernedEffectExecutionResult :=
  match gr_status receipt with
  | GSucceeded => XSucceeded receipt (default [] (gr_providerVisibleResult receipt))
  | GFailed => XFailed receipt
  | _ => XInFlight receipt
  end.

(** ** Construction *)

Record GovernedEffectAdapter := { ad_action : jstr; ad_reconciliationEffect : Effect }.

Record Coordinator := {
  co_adapters : obj GovernedEffectAdapter;
  co_leaseTtlMs : Z;
  co_reconciliationClaimTtlMs : Z;
  co_maxReconciliationClaims : Z;
}.

Fixpoint register (adapters : list GovernedEffectAdapter) (map : obj GovernedEffectAdapter)
  : result jstr (obj GovernedEffectAdapter) :=
  match adapters with
  | [] => Ok map
  | adapter :: rest =>
      raise js "governed effect adapters require an action and a read-only reconciliation contract" when
        (ad_action adapter =?s []) || negb (bool_decide (ad_reconciliationEffect adapter = EffectRead)) ;;
      raise js "duplicate governed effect adapter: " ++ ad_action adapter when has_own (ad_action adapter) map ;;
      register rest (put (ad_action adapter) adapter map)
  end.

Definition within (low high z : Z) : bool := (low <=? z) && (z <=? high).

Definition construct (adapters : list GovernedEffectAdapter)
    (leaseTtlMs reconciliationClaimTtlMs maxReconciliationClaims : option Z) : result jstr Coordinator :=
  let* registered := register adapters [] in
  let leaseTtlMs := default 15000 leaseTtlMs in
  raise js "effect lease TTL must be between 1 and 60000 milliseconds" when
    negb (within 1 MAX_LEASE_TTL_MS leaseTtlMs) ;;
  let reconciliationClaimTtlMs := default 30000 reconciliationClaimTtlMs in
  raise js "reconciliation claim TTL is invalid" when
    negb (within 1 MAX_RECONCILIATION_CLAIM_TTL_MS reconciliationClaimTtlMs) ;;
  let maxReconciliationClaims := default 3 maxReconciliationClaims in
  raise js "maximum reconciliation claims is invalid" when
    negb (within 1 MAX_RECONCILIATION_CLAIMS maxReconciliationClaims) ;;
  Ok {| co_adapters := registered; co_leaseTtlMs := leaseTtlMs;
        co_reconciliationClaimTtlMs := reconciliationClaimTtlMs;
        co_maxReconciliationClaims := maxReconciliationClaims |}.

(** ** The coordinator's methods *)

Section Coordinator.
Context `{HS : Sha256} (this : Coordinator).

Abbreviation outcome_prog := (prog GovernedEffectExecutionResult).

Definition settle_input (receiptId : jstr) (status : SettleStatus) (resultSha256 proofSha256 : option jstr)
    (visible : option (obj jsval)) (errorCode : option jstr) (now : jstr) : SettleInput :=
  {| se_receiptId := receiptId; se_status := status; se_resultSha256 := resultSha256;
     se_proofSha256 := proofSha256; se_providerVisibleResult := visible; se_errorCode := errorCode;
     se_now := now |}.

Definition settleReadFailure (receipt : GovernedEffectReceipt) (errorCode : jstr) : outcome_prog :=
  do now <- Now ;
  do settled <- Store (Settle (settle_input (gr_receiptId receipt) StFailed None None None (Some errorCode) now)) ;
  Return (XFailed settled).

Definition settleIndeterminate (receipt : GovernedEffectReceipt) (proposal : GovernedEffectProposal)
    (decision : PreDispatchDecision) (policy : ActionPolicySet) (errorCode : jstr)
    (resultSha256 : option jstr) : outcome_prog :=
  do now <- Now ;
  do recovery <- Store (EnsureIndeterminateReconciliation
    {| rc_receiptId := gr_receiptId receipt; rc_subjectId := gp_subjectId proposal;
       rc_invocationId := gr_invocationId receipt; rc_idempotencyKey := gp_idempotencyKey proposal;
       rc_action := gp_action proposal; rc_arguments := gp_arguments proposal;
       rc_argumentsSha256 := gr_argumentsSha256 receipt; rc_policy := policy;
       rc_preDispatchDecision := decision; rc_resultSha256 := resultSha256; rc_errorCode := errorCode;
       rc_maxClaimAttempts := co_maxReconciliationClaims this; rc_now := now |}) ;
  Return match recovery with
         | IrTerminal receipt => replayResult receipt
         | IrIndeterminate receipt job => XIndeterminate receipt job
         end.

(** The choice made wherever a dispatched action has no usable outcome. *)
Definition settleUnresolved (receipt : GovernedEffectReceipt) (proposal : GovernedEffectProposal)
    (decision : PreDispatchDecision) (policy : ActionPolicySet) (errorCode : jstr) : outcome_prog :=
  if bool_decide (pd_effect decision = Some EffectRead) then settleReadFailure receipt errorCode
  else settleIndeterminate receipt proposal decision policy errorCode None.

(** What follows [adapter.dispatch]. The body of the [try] either settles, awaiting the
    store, or returns a settlement it does not await: the [catch] covers the first only. *)
Definition settle_outcome (receipt : GovernedEffectReceipt) (proposal : GovernedEffectProposal)
    (decision : PreDispatchDecision) (policy : ActionPolicySet) (outcome : EffectDispatchOutcome)
  : prog outcome_prog :=
  let unresolved := settleUnresolved receipt proposal decision policy in
  let settle status result proof visible error now := Store (Settle
    (settle_input (gr_receiptId receipt) status result proof visible error now)) in
  match outcome with
  | DoAuthoritativelyAbsent proof errorCode =>
      if negb (is_sha256 proof) then Return (unresolved (js "invalid_absence_proof"))
      else do now <- Now ;
           do settled <- settle StFailed None (Some proof) None
                           (Some (default (js "authoritatively_absent") errorCode)) now ;
           Return (Return (XFailed settled))
  | DoIndeterminate errorCode =>
      Return (unresolved (default (js "dispatch_indeterminate") errorCode))
  | DoCompleted result =>
      do settledAt <- Now ;
      do latest <- Store (ReadAuthority (gp_subjectId proposal)) ;
      match evaluatePostDispatch
              {| pi_policy := ea_policy latest; pi_pre_dispatch := decision;
                 pi_state_head_sha256 := ab_stateHeadSha256 (ea_binding latest);
                 pi_state_revision := ab_stateRevision (ea_binding latest);
                 pi_capability_epoch := ab_capabilityEpoch (ea_binding latest);
                 pi_result := result |} with
      | Err _ => Throw
      | Ok post =>
          match po_decision post with
          | Accept =>
              let visible := default [] (po_provider_result post) in
              do settled <- settle StSucceeded (Some (po_raw_result_sha256 post)) None (Some visible) None settledAt ;
              Return (Return (XSucceeded settled visible))
          | _ =>
              if bool_decide (pd_effect decision = Some EffectRead) then
                do settled <- settle StFailed (Some (po_raw_result_sha256 post)) None None
                                (Some (po_reason post)) settledAt ;
                Return (Return (XFailed settled))
              else Return (settleIndeterminate receipt proposal decision policy (po_reason post)
                             (Some (po_raw_result_sha256 post)))
          end
      end
  end.

(** The dispatch itself, after the boundary has been crossed. *)
Definition dispatch_started (adapter : jstr) (receipt : GovernedEffectReceipt) (proposal : GovernedEffectProposal)
    (decision : PreDispatchDecision) (policy : ActionPolicySet) : outcome_prog :=
  let unresolved := settleUnresolved receipt proposal decision policy in
  Await (Dispatch adapter
           {| ai_receiptId := gr_receiptId receipt; ai_invocationId := gr_invocationId receipt;
              ai_idempotencyKey := gp_idempotencyKey proposal; ai_arguments := gp_arguments proposal |})
    (fun r =>
       match r with
       | None => unresolved (js "dispatch_exception")
       | Some outcome =>
           bind (catch (settle_outcome receipt proposal decision policy outcome)
                   (Return (unresolved (js "post_dispatch_exception"))))
             (fun settlement => settlement)
       end).

(** From a reservation owned by this execution to the dispatch boundary. *)
Definition cross_and_dispatch (adapter : jstr) (receipt : GovernedEffectReceipt) (lease : GovernedEffectLease)
    (proposal : GovernedEffectProposal) (decision : PreDispatchDecision) (policy : ActionPolicySet)
    (current : AuthorityBinding) : outcome_prog :=
  do boundaryTime <- Now ;
  check (bool_decide (is_Some (canonical_ms boundaryTime))) (
  do boundary <- Store (CrossDispatchBoundary (gr_receiptId receipt) lease current boundaryTime) ;
  let fail code := Store (Settle
    (settle_input (gr_receiptId receipt) StFailed None None None (Some (js code)) boundaryTime)) in
  match boundary with
  | BdStaleAuthority latest =>
      do settled <- fail "authority_stale_before_dispatch" ;
      Return (XStaleAuthority latest (Some settled))
  | BdLeaseExpired _ =>
      do settled <- fail "lease_expired_before_dispatch" ;
      Return (XFailed settled)
  | BdNotOwner receipt | BdAlreadyCrossed receipt => Return (XInFlight receipt)
  | BdStarted started =>
      assertReceiptBoundToDecision started proposal decision (
      check ((gr_dispatchAttempts started =? 1) && bool_decide (is_Some (truthy (gr_dispatchStartedAt started)))) (
      dispatch_started adapter started proposal decision policy))
  end).

(** What follows a reservation that needs no repair. *)
Definition after_reservation (adapter : jstr) (reservation : ReserveAllowedResult) (proposal : GovernedEffectProposal)
    (decision : PreDispatchDecision) (policy : ActionPolicySet) (current : AuthorityBinding) (nowMs : Z)
  : outcome_prog :=
  match reservation with
  | RvRepairRequired _ => Return (XPreDispatchFailed (js "pre_dispatch_repair_exhausted"))
  | RvStaleAuthority latest => Return (XStaleAuthority latest None)
  | RvIdempotencyConflict existing => Return (XIdempotencyConflict existing)
  | RvTerminalReplay receipt =>
      assertReceiptBoundToDecision receipt proposal decision (Return (replayResult receipt))
  | RvInFlightReplay receipt =>
      assertReceiptBoundToDecision receipt proposal decision (
      if bool_decide (gr_status receipt = GIndeterminate)
      then settleIndeterminate receipt proposal decision policy
             (default (js "dispatch_indeterminate") (gr_errorCode receipt)) (gr_resultSha256 receipt)
      else Return (replayResult receipt))
  | RvReserved receipt lease dispatchOwner =>
      assertReceiptBoundToDecision receipt proposal decision (
      assertLeaseBoundToDecision lease decision nowMs (
      if negb dispatchOwner then Return (XInFlight receipt)
      else cross_and_dispatch adapter receipt lease proposal decision policy current))
  end.

Definition pre_input (authority : GovernedEffectAuthority) (proposal : GovernedEffectProposal) (now : jstr)
  : PreDispatchInput :=
  {| in_policy := ea_policy authority; in_action := gp_action proposal; in_arguments := gp_arguments proposal;
     in_state_head_sha256 := ab_stateHeadSha256 (ea_binding authority);
     in_state_revision := ab_stateRevision (ea_binding authority);
     in_capability_epoch := ab_capabilityEpoch (ea_binding authority);
     in_facts := ea_facts authority; in_receipts := ea_receipts authority;
     in_prior_call_count := ea_priorCallCount authority; in_confirmation := gp_confirmation proposal;
     in_now := now |}.

(** Reservation, with at most one repair. *)
Definition reserve_and_dispatch (adapter : jstr) (proposal : GovernedEffectProposal)
    (decision : PreDispatchDecision) (authority : GovernedEffectAuthority) (now : jstr) (nowMs : Z)
    (leaseExpiresAt : jstr) : outcome_prog :=
  let reserve := Store (ReserveAllowed {| ri_proposal := proposal; ri_decision := decision;
                          ri_leaseExpiresAt := leaseExpiresAt; ri_now := now |}) in
  let continue reservation := after_reservation adapter reservation proposal decision (ea_policy authority)
                                (authorityBinding authority) nowMs in
  do reservation <- reserve ;
  match reservation with
  | RvRepairRequired repairToken =>
      do repaired <- Store (RepairBeforeDispatch (gp_subjectId proposal) (gp_idempotencyKey proposal) repairToken now) ;
      if negb repaired then Return (XPreDispatchFailed (js "pre_dispatch_repair_failed"))
      else do reservation <- reserve ; continue reservation
  | reservation => continue reservation
  end.

(** The execution once the arguments are detached. *)
Definition execute_detached (proposal : GovernedEffectProposal) : outcome_prog :=
  do now <- Now ;
  match canonical_ms now with
  | None => Throw
  | Some nowMs =>
      do authority <- Store (ReadAuthority (gp_subjectId proposal)) ;
      if negb (sameAuthority (authorityBinding authority) (gp_expectedAuthority proposal))
      then Return (XStaleAuthority (authorityBinding authority) None)
      else match evaluatePreDispatch (pre_input authority proposal now) with
      | Err _ => Throw
      | Ok decision =>
          match pd_decision decision with
          | RequireConfirmation => Return (XConfirmationRequired decision)
          | Deny => Return (XDenied decision)
          | Allow =>
              match own (gp_action proposal) (co_adapters this), date_text (nowMs + co_leaseTtlMs this) with
              | None, _ => Return (XPreDispatchFailed (js "adapter_not_registered"))
              | Some _, None => Throw
              | Some adapter, Some leaseExpiresAt =>
                  reserve_and_dispatch (ad_action adapter) proposal decision authority now nowMs leaseExpiresAt
              end
          end
      end
  end.

Definition with_arguments (p : GovernedEffectProposal) (arguments : obj jsval) : GovernedEffectProposal :=
  {| gp_subjectId := gp_subjectId p; gp_action := gp_action p; gp_arguments := arguments;
     gp_idempotencyKey := gp_idempotencyKey p; gp_expectedAuthority := gp_expectedAuthority p;
     gp_confirmation := gp_confirmation p |}.

Definition valid_identity (p : GovernedEffectProposal) : bool :=
  negb (gp_subjectId p =?s []) && negb (gp_idempotencyKey p =?s []) &&
  (utf8_length (gp_idempotencyKey p) <=? MAX_IDEMPOTENCY_KEY_BYTES).

Definition execute (inputProposal : GovernedEffectProposal) : outcome_prog :=
  if negb (valid_identity inputProposal) then Return (XPreDispatchFailed (js "invalid_execution_identity"))
  else match detach (gp_arguments inputProposal) with
  | None => Return (XPreDispatchFailed (js "invalid_arguments"))
  | Some arguments => execute_detached (with_arguments inputProposal arguments)
  end.

(** ** Reconciliation *)

(** What a read-back establishes: the disposition to record, the digest and visible part
    of a committed result, and why it is unknown. *)
Record Finding := {
  fi_disposition : RecDisposition;
  fi_proofSha256 : option jstr;
  fi_resultSha256 : option jstr;
  fi_visible : option (obj jsval);
  fi_errorCode : option jstr;
}.
Definition unknown_finding (proof : option jstr) (errorCode : jstr) : Finding :=
  {| fi_disposition := RdUnknown; fi_proofSha256 := proof; fi_resultSha256 := None; fi_visible := None;
     fi_errorCode := Some errorCode |}.

Definition assess (job : ReconciliationJob) (outcome : EffectReconciliationOutcome) : Finding :=
  match outcome with
  | RoUnknown errorCode => unknown_finding None (default (js "reconciliation_unknown") errorCode)
  | RoAbsent proof =>
      if negb (is_sha256 proof) then unknown_finding None (js "invalid_reconciliation_proof")
      else {| fi_disposition := RdAbsent; fi_proofSha256 := Some proof; fi_resultSha256 := None;
              fi_visible := None; fi_errorCode := None |}
  | RoCommitted proof result =>
      if negb (is_sha256 proof) then unknown_finding None (js "invalid_reconciliation_proof")
      else
        let decision := jb_preDispatchDecision job in
        match evaluatePostDispatch
                {| pi_policy := jb_policy job; pi_pre_dispatch := decision;
                   pi_state_head_sha256 := pd_state_head_sha256 decision;
                   pi_state_revision := pd_state_revision decision;
                   pi_capability_epoch := pd_capability_epoch decision; pi_result := result |} with
        | Err _ => unknown_finding (Some proof) (js "invalid_reconciliation_result")
        | Ok post =>
            match po_decision post with
            | Accept =>
                {| fi_disposition := RdCommitted; fi_proofSha256 := Some proof;
                   fi_resultSha256 := Some (po_raw_result_sha256 post);
                   fi_visible := Some (default [] (po_provider_result post)); fi_errorCode := None |}
            | _ => unknown_finding (Some proof) (js "reconciliation_result_failed_frozen_policy")
            end
        end
  end.

Definition run_disposition (d : RecDisposition) : RunDisposition :=
  match d with RdCommitted => RrCommitted | RdAbsent => RrAbsent | RdUnknown => RrUnknown end.

Definition settle_finding (job : ReconciliationJob) (claim : ReconciliationClaimLease) (f : Finding)
  : prog ReconciliationRunResult :=
  do now <- Now ;
  do (disposition, job, receipt) <- Store (SettleReconciliation
    {| sr_jobId := jb_jobId job; sr_receiptId := jb_receiptId job; sr_claimId := cm_claimId claim;
       sr_claimOrdinal := cm_ordinal claim; sr_disposition := fi_disposition f;
       sr_proofSha256 := fi_proofSha256 f; sr_resultSha256 := fi_resultSha256 f;
       sr_providerVisibleResult := fi_visible f; sr_errorCode := fi_errorCode f; sr_now := now |}) ;
  Return {| rr_disposition := match disposition with
                              | SdSettled => run_disposition (fi_disposition f)
                              | SdStaleClaim => RrStaleClaim
                              | SdTerminal => RrTerminal
                              end;
            rr_job := job; rr_receipt := receipt |}.

Definition runReconciliation (jobId : jstr) : prog ReconciliationRunResult :=
  do now <- Now ;
  match canonical_ms now with
  | None => Throw
  | Some nowMs =>
      match date_text (nowMs + co_reconciliationClaimTtlMs this) with
      | None => Throw
      | Some leaseExpiresAt =>
          do claim <- Store (ClaimReconciliation jobId now leaseExpiresAt) ;
          match claim with
          | ClNotClaimable job receipt => Return {| rr_disposition := RrNotClaimable; rr_job := job; rr_receipt := receipt |}
          | ClExhausted job receipt => Return {| rr_disposition := RrExhausted; rr_job := job; rr_receipt := receipt |}
          | ClClaimed job claim =>
              match own (jb_action job) (co_adapters this) with
              | Some adapter =>
                  if bool_decide (ad_reconciliationEffect adapter = EffectRead)
                  then Await (Reconcile (ad_action adapter)
                         {| ai_receiptId := jb_receiptId job; ai_invocationId := jb_invocationId job;
                            ai_idempotencyKey := jb_idempotencyKey job; ai_arguments := jb_arguments job |})
                         (fun r => settle_finding job claim
                            (match r with
                             | Some outcome => assess job outcome
                             | None => unknown_finding None (js "reconciliation_exception")
                             end))
                  else settle_finding job claim (unknown_finding None (js "reconciliation_adapter_unavailable"))
              | None => settle_finding job claim (unknown_finding None (js "reconciliation_adapter_unavailable"))
              end
          end
      end
  end.

End Coordinator.

End Governed.
