(* ===== verification/GovernedSystem.v ===== *)
(** * Concurrent executions of the governed effect runtime

    Any number of coordinators share one store. Their executions interleave at every
    awaited call, the answer of a call may be lost, an execution may be abandoned at any
    point and other parties may change the store in between. The store is known only by
    the contract written on [GovernedEffectStore] (types.ts), stated as [EffectStoreLaws];
    adapters and clocks answer anything. *)

From S2P Require Import Prelude JsValue JsText Canonical JsDate Graph Flow FlowValidate FlowRuntime ActionPolicy Governed.
Import ActionPolicy Governed.

Module GovernedSystem.

(** ** The store's contract *)

(** The answer to a call ([None] when it rejects) and the state after it. *)
Class EffectStore (S : Type) := serve : forall c : StoreCall, S -> option (StoreAnswer c) * S.

(** The one-way dispatch marker, as the coordinator tests it. *)
Definition marked (r : GovernedEffectReceipt) : Prop := is_Some (truthy (gr_dispatchStartedAt r)).

(** What no operation takes away from a stored receipt. *)
Record retains (r r' : GovernedEffectReceipt) : Prop := {
  rt_scope : gr_scopeId r' = gr_scopeId r;
  rt_key : gr_idempotencyKey r' = gr_idempotencyKey r;
  rt_digest : gr_proposalDigest r' = gr_proposalDigest r;
  rt_marked : marked r -> marked r';
}.

#[export] Instance retains_preorder : PreOrder retains.
Proof.
  split; [intros r; by split|].
  intros r1 r2 r3 [? ? ? ?] [? ? ? ?]. split; [congruence..|tauto].
Qed.

Class EffectStoreLaws (S : Type) `{ES : !EffectStore S} := {
  (** the representation invariant and the receipts a state holds *)
  good : S -> Prop;
  receipt_of : S -> jstr -> option GovernedEffectReceipt;
  (** what other parties may do to the store *)
  environment : S -> S -> Prop;
  good_serve s c : good s -> good (serve c s).2;
  good_environment s s' : good s -> environment s s' -> good s';
  receipt_identity s id r : good s -> receipt_of s id = Some r -> gr_receiptId r = id;
  (** a scoped idempotency key is reserved once *)
  keys_unique s id id' r r' : good s -> receipt_of s id = Some r -> receipt_of s id' = Some r' ->
    gr_scopeId r = gr_scopeId r' -> gr_idempotencyKey r = gr_idempotencyKey r' -> id = id';
  persists s c id r : good s -> receipt_of s id = Some r ->
    exists r', receipt_of (serve c s).2 id = Some r' /\ retains r r';
  persists_environment s s' id r : good s -> environment s s' -> receipt_of s id = Some r ->
    exists r', receipt_of s' id = Some r' /\ retains r r';
  (** the boundary is crossed on an unmarked receipt, whose new state is returned *)
  cross_started s id lease expected now r :
    good s -> (serve (CrossDispatchBoundary id lease expected now) s).1 = Some (BdStarted r) ->
    receipt_of (serve (CrossDispatchBoundary id lease expected now) s).2 (gr_receiptId r) = Some r /\
    forall r0, receipt_of s (gr_receiptId r) = Some r0 -> ~ marked r0;
}.

(** ** Executions *)

Inductive thread : Type :=
| Executing (proposal : GovernedEffectProposal) (p : prog GovernedEffectExecutionResult)
| Reconciling (jobId : jstr) (p : prog ReconciliationRunResult).

(** [awaits t c r t']: [t] is waiting for [c] and goes on as [t'] when it is answered [r]. *)
Inductive awaits : thread -> forall c : Call, option (Answer c) -> thread -> Prop :=
| awaits_execution proposal c k r : awaits (Executing proposal (Await c k)) c r (Executing proposal (k r))
| awaits_reconciliation jobId c k r : awaits (Reconciling jobId (Await c k)) c r (Reconciling jobId (k r)).

(** A dispatch that reached an adapter, and for which thread. *)
Record Dispatched := { dp_thread : thread; dp_action : jstr; dp_input : AdapterInput }.

Section System.
Context `{HS : Sha256} {S : Type} `{ES : !EffectStore S} {EL : EffectStoreLaws S}.

Record system := {
  sy_store : S;
  sy_threads : list thread;
  (** the authorities the store has returned, by subject *)
  sy_served : list (jstr * GovernedEffectAuthority);
  sy_log : list Dispatched;
}.

Definition served (c : StoreCall) : option (StoreAnswer c) -> list (jstr * GovernedEffectAuthority) :=
  match c with
  | ReadAuthority subjectId => fun r => match r with Some authority => [(subjectId, authority)] | None => [] end
  | _ => fun _ => []
  end.

Inductive step : system -> system -> Prop :=
| step_execute sy adapters lease claim claims this proposal :
    construct adapters lease claim claims = Ok this ->
    step sy {| sy_store := sy_store sy; sy_threads := sy_threads sy ++ [Executing proposal (execute this proposal)];
               sy_served := sy_served sy; sy_log := sy_log sy |}
| step_run sy adapters lease claim claims this jobId :
    construct adapters lease claim claims = Ok this ->
    step sy {| sy_store := sy_store sy; sy_threads := sy_threads sy ++ [Reconciling jobId (runReconciliation this jobId)];
               sy_served := sy_served sy; sy_log := sy_log sy |}
| step_store sy i t c r t' :
    sy_threads sy !! i = Some t ->
    r = (serve c (sy_store sy)).1 \/ r = None ->
    awaits t (Store c) r t' ->
    step sy {| sy_store := (serve c (sy_store sy)).2; sy_threads := <[i := t']> (sy_threads sy);
               sy_served := sy_served sy ++ served c r; sy_log := sy_log sy |}
| step_dispatch sy i t action input r t' :
    sy_threads sy !! i = Some t ->
    awaits t (Dispatch action input) r t' ->
    step sy {| sy_store := sy_store sy; sy_threads := <[i := t']> (sy_threads sy); sy_served := sy_served sy;
               sy_log := sy_log sy ++ [{| dp_thread := t; dp_action := action; dp_input := input |}] |}
| step_reconcile sy i t action input r t' :
    sy_threads sy !! i = Some t ->
    awaits t (Reconcile action input) r t' ->
    step sy {| sy_store := sy_store sy; sy_threads := <[i := t']> (sy_threads sy); sy_served := sy_served sy;
               sy_log := sy_log sy |}
| step_now sy i t r t' :
    sy_threads sy !! i = Some t ->
    awaits t Now r t' ->
    step sy {| sy_store := sy_store sy; sy_threads := <[i := t']> (sy_threads sy); sy_served := sy_served sy;
               sy_log := sy_log sy |}
| step_crash sy i :
    step sy {| sy_store := sy_store sy; sy_threads := delete i (sy_threads sy); sy_served := sy_served sy;
               sy_log := sy_log sy |}
| step_environment sy s' :
    environment (sy_store sy) s' ->
    step sy {| sy_store := s'; sy_threads := sy_threads sy; sy_served := sy_served sy; sy_log := sy_log sy |}.

Definition start (s : S) : system := {| sy_store := s; sy_threads := []; sy_served := []; sy_log := [] |}.
Definition reachable (s : S) (sy : system) : Prop := good s /\ rtc step (start s) sy.

(** ** What an execution may do *)

(** A program that calls no [adapter.dispatch], and whose results satisfy [Q]. *)
Inductive quietly {A} (Q : A -> Prop) : prog A -> Prop :=
| quiet_return a : Q a -> quietly Q (Return a)
| quiet_throw : quietly Q Throw
| quiet_await c k :
    (forall action input, c <> Dispatch action input) -> (forall r, quietly Q (k r)) -> quietly Q (Await c k).
Definition quiet {A} : prog A -> Prop := quietly (fun _ => True).

(** The grounds on which [input] may be dispatched for [proposal] under receipt [r]. *)
Record permitted (seen : list (jstr * GovernedEffectAuthority)) (proposal : GovernedEffectProposal)
    (r : GovernedEffectReceipt) (action : jstr) (input : AdapterInput) : Prop := {
  pm_arguments : detach (gp_arguments proposal) = Some (ai_arguments input);
  pm_action : action = gp_action proposal;
  pm_receipt : ai_receiptId input = gr_receiptId r;
  pm_key : ai_idempotencyKey input = gp_idempotencyKey proposal /\ gr_idempotencyKey r = gp_idempotencyKey proposal;
  pm_scope : gr_scopeId r = gp_subjectId proposal;
  pm_marked : marked r;
  pm_allowed : exists authority now decision,
    (gp_subjectId proposal, authority) ∈ seen /\
    ea_binding authority = gp_expectedAuthority proposal /\
    evaluatePreDispatch (pre_input authority (with_arguments proposal (ai_arguments input)) now) = Ok decision /\
    pd_decision decision = Allow /\ gr_proposalDigest r = pd_proposal_digest decision;
}.

(** A program that holds the right to one dispatch under receipt [r]. *)
Inductive armed {A} seen proposal r : prog A -> Prop :=
| armed_quiet p : quiet p -> armed seen proposal r p
| armed_dispatch action input k :
    permitted seen proposal r action input -> (forall a, quiet (k a)) ->
    armed seen proposal r (Await (Dispatch action input) k).

(** The receipt a store call hands out the right to dispatch for. *)
Definition opens (c : StoreCall) : option (StoreAnswer c) -> option GovernedEffectReceipt :=
  match c with
  | CrossDispatchBoundary _ _ _ _ => fun r => match r with Some (BdStarted r) => Some r | _ => None end
  | _ => fun _ => None
  end.

(** A program without that right: it acquires it only from the store. *)
Inductive governed {A} (proposal : GovernedEffectProposal) : list (jstr * GovernedEffectAuthority) -> prog A -> Prop :=
| governed_return seen a : governed proposal seen (Return a)
| governed_throw seen : governed proposal seen Throw
| governed_now seen k : (forall r, governed proposal seen (k r)) -> governed proposal seen (Await Now k)
| governed_store seen c k :
    (forall r, opens c r = None -> governed proposal (seen ++ served c r) (k r)) ->
    (forall r receipt, opens c r = Some receipt -> armed (seen ++ served c r) proposal receipt (k r)) ->
    governed proposal seen (Await (Store c) k).

Create HintDb governed.
#[local] Hint Constructors quietly governed armed : governed.
#[local] Hint Unfold quiet : governed.

(** Case analysis of a program's control flow. *)
Ltac branch :=
  repeat match goal with
  | |- context [match ?x with _ => _ end] => destruct x eqn:?; simpl
  end.

Lemma quietly_bind {A B} (Q : A -> Prop) (R : B -> Prop) (p : prog A) (f : A -> prog B) :
  quietly Q p -> (forall a, Q a -> quietly R (f a)) -> quietly R (bind p f).
Proof. intros Hp Hf. induction Hp; simpl; eauto with governed. Qed.

Lemma quietly_catch {A} (Q : A -> Prop) (p h : prog A) : quietly Q p -> quietly Q h -> quietly Q (catch p h).
Proof. intros Hp Hh. induction Hp; simpl; eauto with governed. Qed.

Ltac quieten := repeat first [progress branch | apply quiet_await; [done|intros ?] | eauto with governed].

Lemma settleReadFailure_quiet receipt code : quiet (settleReadFailure receipt code).
Proof. unfold quiet, settleReadFailure. quieten. Qed.

Lemma settleIndeterminate_quiet this receipt proposal decision policy code result :
  quiet (settleIndeterminate this receipt proposal decision policy code result).
Proof. unfold quiet, settleIndeterminate. quieten. Qed.

Lemma settleUnresolved_quiet this receipt proposal decision policy code :
  quiet (settleUnresolved this receipt proposal decision policy code).
Proof.
  unfold settleUnresolved. case_bool_decide; [apply settleReadFailure_quiet|apply settleIndeterminate_quiet].
Qed.
#[local] Hint Resolve settleReadFailure_quiet settleIndeterminate_quiet settleUnresolved_quiet : governed.

Lemma settle_outcome_quiet this receipt proposal decision policy outcome :
  quietly quiet (settle_outcome this receipt proposal decision policy outcome).
Proof. unfold settle_outcome. quieten. Qed.

(** Once dispatched, an execution only settles. *)
Lemma dispatch_started_armed this seen adapter receipt proposal decision policy p :
  (forall input, ai_arguments input = gp_arguments proposal -> ai_receiptId input = gr_receiptId receipt ->
     ai_idempotencyKey input = gp_idempotencyKey proposal -> permitted seen p receipt adapter input) ->
  armed seen p receipt (dispatch_started this adapter receipt proposal decision policy).
Proof.
  intros Hp. apply armed_dispatch; [by apply Hp|]. intros [outcome|]; [|eauto with governed].
  apply (quietly_bind quiet); [|by intros a].
  apply quietly_catch; [apply settle_outcome_quiet|eauto with governed].
Qed.

Lemma check_governed {A} proposal seen b (p : prog A) :
  (b = true -> governed proposal seen p) -> governed proposal seen (check b p).
Proof. unfold check. destruct b; eauto with governed. Qed.

Lemma check_armed {A} proposal seen r b (p : prog A) :
  (b = true -> armed seen proposal r p) -> armed seen proposal r (check b p).
Proof. unfold check. destruct b; eauto with governed. Qed.

(** A silent program is governed, whatever the store answers. *)
Lemma governed_settle {A} proposal seen (f : GovernedEffectReceipt -> A) input :
  governed proposal seen (do settled <- Store (Settle input) ; Return (f settled)).
Proof. apply governed_store; [intros [receipt|]; eauto with governed|done]. Qed.

Lemma settleIndeterminate_governed this proposal seen receipt q decision policy code result :
  governed proposal seen (settleIndeterminate this receipt q decision policy code result).
Proof.
  apply governed_now. intros [now|]; [|eauto with governed].
  apply governed_store; [intros [answer|] _; eauto with governed|done].
Qed.

(** The bindings the coordinator checks on a receipt. *)
Lemma receipt_bound_fields receipt proposal decision :
  receipt_bound receipt proposal decision = true ->
  gr_scopeId receipt = gp_subjectId proposal /\ gr_idempotencyKey receipt = gp_idempotencyKey proposal /\
  gr_proposalDigest receipt = pd_proposal_digest decision.
Proof. unfold receipt_bound. rewrite !andb_true_iff, !str_eqb_eq. tauto. Qed.

(** The grounds of one execution. *)
Section Execution.
Context (this : Coordinator) (input proposal : GovernedEffectProposal) (decision : PreDispatchDecision)
  (authority : GovernedEffectAuthority) (now : jstr).
Context (Hproposal : detach (gp_arguments input) = Some (gp_arguments proposal) /\
                     proposal = with_arguments input (gp_arguments proposal)).
Context (Hbinding : ea_binding authority = gp_expectedAuthority input).
Context (Hpre : evaluatePreDispatch (pre_input authority proposal now) = Ok decision).
Context (Hallow : pd_decision decision = Allow).

Lemma started_permitted seen receipt action i :
  (gp_subjectId input, authority) ∈ seen -> receipt_bound receipt proposal decision = true -> marked receipt ->
  action = gp_action input ->
  ai_arguments i = gp_arguments proposal -> ai_receiptId i = gr_receiptId receipt ->
  ai_idempotencyKey i = gp_idempotencyKey proposal -> permitted seen input receipt action i.
Proof.
  destruct Hproposal as [Hd Hp]. intros Hseen (Hs & Hk & Hdig)%receipt_bound_fields Hm -> Ha Hr Hi.
  rewrite Hp in Hs, Hk, Hi; simpl in *. split; try done; [by rewrite Ha|].
  exists authority, now, decision. rewrite Ha, <- Hp. eauto 10.
Qed.

Lemma cross_and_dispatch_governed seen adapter receipt lease :
  (gp_subjectId input, authority) ∈ seen -> adapter = gp_action input ->
  governed input seen (cross_and_dispatch this adapter receipt lease proposal decision (ea_policy authority)
                         (authorityBinding authority)).
Proof.
  intros Hseen Ha. apply governed_now. intros [time|]; [|eauto with governed].
  apply check_governed. intros _. apply governed_store.
  - intros [[]|] Ho; try done; simpl; eauto using governed_settle with governed.
  - intros [[]|] started; try done; simpl; intros [= ->].
    repeat (apply check_armed; intros ?). apply dispatch_started_armed.
    to_prop. intros i ? ? ?. eapply started_permitted; eauto. set_solver.
Qed.

Lemma after_reservation_governed seen adapter reservation nowMs :
  (gp_subjectId input, authority) ∈ seen -> adapter = gp_action input ->
  governed input seen (after_reservation this adapter reservation proposal decision (ea_policy authority)
                         (authorityBinding authority) nowMs).
Proof.
  intros Hseen Ha. destruct reservation; simpl; unfold assertReceiptBoundToDecision, assertLeaseBoundToDecision;
    repeat (apply check_governed; intros _); eauto with governed.
  - destruct (canonical_ms _); [|eauto with governed]. apply check_governed. intros _.
    destruct dispatchOwner; simpl; eauto using cross_and_dispatch_governed with governed.
  - case_bool_decide; eauto using settleIndeterminate_governed with governed.
Qed.

Lemma reserve_and_dispatch_governed seen adapter nowMs expires :
  (gp_subjectId input, authority) ∈ seen -> adapter = gp_action input ->
  governed input seen (reserve_and_dispatch this adapter proposal decision authority now nowMs expires).
Proof.
  intros Hseen Ha. assert (Hmore : forall l, (gp_subjectId input, authority) ∈ seen ++ l) by set_solver.
  apply governed_store; [|done].
  intros [reservation|] _; [|eauto with governed].
  destruct reservation as [| | | | |token]; eauto using after_reservation_governed.
  apply governed_store; [|done]. intros [[]|] _; simpl; eauto with governed.
  apply governed_store; [|done]. intros [reservation|] _; [|eauto with governed].
  apply after_reservation_governed; [set_solver|done].
Qed.
End Execution.

(** The adapters of a constructed coordinator. *)
Definition registered (map : obj GovernedEffectAdapter) : Prop :=
  forall action adapter, own action map = Some adapter ->
  ad_action adapter = action /\ action <> [] /\ ad_reconciliationEffect adapter = EffectRead.

Lemma register_registered adapters : forall map out,
  register adapters map = Ok out -> registered map -> registered out.
Proof.
  induction adapters as [|a adapters IH]; simpl; intros map out H Hm; [by simplify_eq|].
  split_guards H. eapply IH; [done|]. to_prop.
  intros action adapter. rewrite own_put. destruct (action =?s ad_action a) eqn:E; to_prop; [intros [= <-]; naive_solver|apply Hm].
Qed.

Lemma construct_registered adapters lease claim claims this :
  construct adapters lease claim claims = Ok this -> registered (co_adapters this).
Proof.
  unfold construct. destruct (register adapters []) as [map|] eqn:E; [|done]. simpl. intros H.
  split_guards H. simplify_eq/=. by eapply register_registered.
Qed.

Lemma sameAuthority_eq a b : sameAuthority a b = true -> a = b.
Proof.
  unfold sameAuthority. rewrite !andb_true_iff, str_eqb_eq, !Z.eqb_eq. destruct a, b; simpl. naive_solver.
Qed.

Lemma execute_governed this proposal :
  registered (co_adapters this) -> governed proposal [] (execute this proposal).
Proof.
  intros Hreg. unfold execute. destruct (negb _); [constructor|].
  destruct (detach _) as [arguments|] eqn:Hd; [|constructor].
  set (detached := with_arguments proposal arguments).
  apply governed_now. intros [now|]; [|constructor]. destruct (canonical_ms now) as [nowMs|]; [|constructor].
  apply governed_store; [|done]. intros [authority|] _; [|constructor].
  destruct (sameAuthority _ _) eqn:Hs; [|constructor]. apply sameAuthority_eq in Hs. simpl.
  destruct (evaluatePreDispatch _) as [decision|] eqn:Hpre; [|constructor].
  destruct (pd_decision decision) eqn:Hallow; [|constructor..].
  destruct (own _ _) as [adapter|] eqn:Ha; [|constructor]. destruct (date_text _); [|constructor].
  apply Hreg in Ha as [Ha _]. eapply reserve_and_dispatch_governed; eauto.
  set_solver.
Qed.

Lemma runReconciliation_quiet this jobId : quiet (runReconciliation this jobId).
Proof. unfold quiet, runReconciliation, settle_finding. quieten. Qed.

(** ** The invariant *)

(** What each running execution holds: no right, or the right to dispatch for a receipt. *)
Definition thread_ok (served : list (jstr * GovernedEffectAuthority)) (t : thread)
    (right : option GovernedEffectReceipt) : Prop :=
  exists seen, seen ⊆ served /\
  match t, right with
  | Executing proposal p, None => quiet p \/ governed proposal seen p
  | Executing proposal p, Some r => armed seen proposal r p
  | Reconciling _ p, None => quiet p
  | Reconciling _ _, Some _ => False
  end.

(** A receipt that is marked in the store and carries [r]'s identity. *)
Definition spent (s : S) (r : GovernedEffectReceipt) : Prop :=
  exists r', receipt_of s (gr_receiptId r) = Some r' /\ retains r r' /\ marked r'.

(** A logged dispatch and the receipt it was made under. *)
Definition log_ok (served : list (jstr * GovernedEffectAuthority)) (d : Dispatched)
    (r : GovernedEffectReceipt) : Prop :=
  match dp_thread d with
  | Executing proposal _ => exists seen, seen ⊆ served /\ permitted seen proposal r (dp_action d) (dp_input d)
  | Reconciling _ _ => False
  end.

(** Rights, held or used, are for distinct receipts. *)
Record invariant (sy : system) (rights : list (option GovernedEffectReceipt))
    (used : list GovernedEffectReceipt) : Prop := {
  iv_good : good (sy_store sy);
  iv_threads : Forall2 (thread_ok (sy_served sy)) (sy_threads sy) rights;
  iv_log : Forall2 (log_ok (sy_served sy)) (sy_log sy) used;
  iv_spent : Forall (spent (sy_store sy)) (used ++ omap id rights);
  iv_distinct : NoDup (gr_receiptId <$> used ++ omap id rights);
}.

(** The right and the authorities that the answer of any call hands out. *)
Definition grants (c : Call) : option (Answer c) -> option GovernedEffectReceipt :=
  match c with Store c => opens c | _ => fun _ => None end.
Definition learns (c : Call) : option (Answer c) -> list (jstr * GovernedEffectAuthority) :=
  match c with Store c => served c | _ => fun _ => [] end.

Lemma quietly_await {A} (Q : A -> Prop) c k :
  quietly Q (Await c k) -> (forall action input, c <> Dispatch action input) /\ forall r, quietly Q (k r).
Proof.
  intros H. change (match Await c k with
    | Await c k => (forall action input, c <> Dispatch action input) /\ forall r, quietly Q (k r)
    | _ => True end). by destruct H.
Qed.

Lemma armed_await {A} seen proposal r c (k : option (Answer c) -> prog A) :
  armed seen proposal r (Await c k) ->
  (forall a, quiet (k a)) /\
  match c with Dispatch action input => permitted seen proposal r action input | _ => True end.
Proof.
  intros H. change (match Await c k with
    | Await c k => (forall a, quiet (k a)) /\
        match c with Dispatch action input => permitted seen proposal r action input | _ => True end
    | _ => True end). destruct H as [p Hp|action input k' Hp Hk]; [|done].
  destruct p as [| |c' k']; [done..|]. apply quietly_await in Hp as [Hc Hk]. split; [done|].
  destruct c'; try done. by destruct (Hc action input).
Qed.

Lemma governed_await {A} proposal seen c (k : option (Answer c) -> prog A) :
  governed proposal seen (Await c k) ->
  (forall action input, c <> Dispatch action input) /\
  (forall r, grants c r = None -> governed proposal (seen ++ learns c r) (k r)) /\
  (forall r receipt, grants c r = Some receipt -> armed (seen ++ learns c r) proposal receipt (k r)).
Proof.
  intros H. change (match Await c k with
    | Await c k => (forall action input, c <> Dispatch action input) /\
        (forall r, grants c r = None -> governed proposal (seen ++ learns c r) (k r)) /\
        (forall r receipt, grants c r = Some receipt -> armed (seen ++ learns c r) proposal receipt (k r))
    | _ => True end). destruct H as [| |seen k' Hk|seen c' k' Hk Ha]; [done..| |done].
  simpl. split_and!; [done| |done]. intros r _. rewrite app_nil_r. apply Hk.
Qed.

Lemma marked_or_not r : marked r \/ ~ marked r.
Proof. unfold marked. destruct (truthy _); [left|right]; [done|]. by intros []. Qed.

Lemma armed_unmarked {A} seen proposal r (p : prog A) : armed seen proposal r p -> ~ marked r -> quiet p.
Proof. intros [q Hq|action input k Hp Hk] Hm; [done|]. destruct (Hm (pm_marked _ _ _ _ _ Hp)). Qed.

Lemma thread_ok_mono l l' t o : thread_ok l t o -> l ⊆ l' -> thread_ok l' t o.
Proof. intros (seen & Hs & Ht) Hl. exists seen. split; [set_solver|done]. Qed.

(** An answered call leaves a thread with the right it had or with the one it was given. *)
Lemma thread_resume l t c r t' o :
  awaits t c r t' -> thread_ok l t o ->
  (forall action input, c <> Dispatch action input) ->
  thread_ok (l ++ learns c r) t' o \/
  o = None /\ exists receipt, grants c r = Some receipt /\ marked receipt /\
    thread_ok (l ++ learns c r) t' (Some receipt).
Proof.
  intros Haw (seen & Hs & Ht) Hc.
  assert (Hl : seen ⊆ l ++ learns c r) by set_solver.
  assert (Hl' : seen ++ learns c r ⊆ l ++ learns c r) by set_solver.
  destruct Haw as [proposal c k r|jobId c k r]; destruct o as [receipt|]; simpl in Ht.
  - apply armed_await in Ht as [Hk _]. left. exists seen. eauto with governed.
  - destruct Ht as [Ht|Ht].
    + apply quietly_await in Ht as [_ Hk]. left. exists seen. split; [done|]. left. apply Hk.
    + apply governed_await in Ht as (_ & Hk & Ha). destruct (grants c r) as [receipt|] eqn:E.
      * specialize (Ha _ _ E). destruct (marked_or_not receipt).
        -- right. split; [done|]. exists receipt. do 2 (split; [done|]). by exists (seen ++ learns c r).
        -- left. exists (seen ++ learns c r). eauto using armed_unmarked.
      * left. exists (seen ++ learns c r). eauto.
  - done.
  - apply quietly_await in Ht as [_ Hk]. left. exists seen. split; [done|]. apply Hk.
Qed.

(** A dispatch uses up the right that its thread held. *)
Lemma thread_dispatch l t c r t' o :
  awaits t c r t' -> thread_ok l t o ->
  match c with
  | Dispatch action input =>
      thread_ok l t' None /\
      exists receipt, o = Some receipt /\
        log_ok l {| dp_thread := t; dp_action := action; dp_input := input |} receipt
  | _ => True
  end.
Proof.
  intros Haw (seen & Hs & Ht). destruct Haw as [proposal c k r|jobId c k r]; destruct o as [receipt|]; simpl in Ht.
  - apply armed_await in Ht as [Hk Hp]. destruct c; try done.
    split; [exists seen; split; [done|left; apply Hk]|]. exists receipt. split; [done|]. exists seen. eauto.
  - destruct c; try done. destruct Ht as [[Hc _]%quietly_await|(Hc & _)%governed_await]; by destruct (Hc action input).
  - done.
  - destruct c; try done. apply quietly_await in Ht as [Hc _]. by destruct (Hc action input).
Qed.

Lemma rights_at (l : list (option GovernedEffectReceipt)) i o o' :
  l !! i = Some o -> exists rest,
  omap id l ≡ₚ option_list o ++ rest /\ omap id (<[i := o']> l) ≡ₚ option_list o' ++ rest.
Proof.
  intros (l1 & l2 & -> & ->)%list_elem_of_split_length. exists (omap id l1 ++ omap id l2).
  rewrite insert_app_r_alt, Nat.sub_diag by done. simpl. rewrite !omap_app. destruct o, o'; simpl; split; solve_Permutation.
Qed.

Lemma spent_serve s c r : good s -> spent s r -> spent (serve c s).2 r.
Proof.
  intros Hg (r' & Hr & Ht & Hm). destruct (persists s c _ _ Hg Hr) as (r'' & Hr'' & Ht').
  exists r''. split_and!; [done|by transitivity r'|by apply (rt_marked _ _ Ht')].
Qed.

Lemma spent_environment s s' r : good s -> environment s s' -> spent s r -> spent s' r.
Proof.
  intros Hg He (r' & Hr & Ht & Hm). destruct (persists_environment s s' _ _ Hg He Hr) as (r'' & Hr'' & Ht').
  exists r''. split_and!; [done|by transitivity r'|by apply (rt_marked _ _ Ht')].
Qed.

Lemma log_ok_mono l l' d r : log_ok l d r -> l ⊆ l' -> log_ok l' d r.
Proof. unfold log_ok. destruct (dp_thread d); [|done]. intros (seen & Hs & Hp) Hl. exists seen. split; [set_solver|done]. Qed.

Lemma threads_mono l l' ts rights :
  Forall2 (thread_ok l) ts rights -> l ⊆ l' -> Forall2 (thread_ok l') ts rights.
Proof. intros H Hl. eapply Forall2_impl; [done|]. eauto using thread_ok_mono. Qed.

Lemma logs_mono l l' log used : Forall2 (log_ok l) log used -> l ⊆ l' -> Forall2 (log_ok l') log used.
Proof. intros H Hl. eapply Forall2_impl; [done|]. eauto using log_ok_mono. Qed.

(** A call other than a dispatch is answered. *)
Lemma invariant_resume sy i t c r t' s' rights used :
  invariant sy rights used -> sy_threads sy !! i = Some t -> awaits t c r t' ->
  (forall action input, c <> Dispatch action input) ->
  good s' -> (forall q, spent (sy_store sy) q -> spent s' q) ->
  (forall receipt, grants c r = Some receipt -> marked receipt ->
     spent s' receipt /\ forall q, spent (sy_store sy) q -> gr_receiptId q <> gr_receiptId receipt) ->
  exists rights', invariant {| sy_store := s'; sy_threads := <[i := t']> (sy_threads sy);
                               sy_served := sy_served sy ++ learns c r; sy_log := sy_log sy |} rights' used.
Proof.
  intros [Hg Ht Hl Hs Hd] Hi Haw Hc Hg' Hs' Hgr.
  assert (Hmore : sy_served sy ⊆ sy_served sy ++ learns c r) by set_solver.
  destruct (Forall2_lookup_l _ _ _ _ _ Ht Hi) as (o & Ho & Hto).
  destruct (thread_resume _ _ _ _ _ _ Haw Hto Hc) as [Hok|(-> & receipt & Hgrant & Hm & Hok)].
  - exists rights. split; simpl; eauto using logs_mono, Forall_impl.
    rewrite <- (list_insert_id rights i o) by done. apply Forall2_insert; eauto using threads_mono.
  - exists (<[i := Some receipt]> rights). destruct (Hgr _ Hgrant Hm) as [Hsp Hfresh].
    destruct (rights_at rights i None (Some receipt) Ho) as (rest & H1 & H2). simpl in H1, H2.
    rewrite H1 in Hs, Hd. split; simpl; eauto using logs_mono.
    + apply Forall2_insert; eauto using threads_mono.
    + rewrite H2. apply Forall_app in Hs as [Hu Hr].
      rewrite !Forall_app, Forall_cons. eauto using Forall_impl.
    + rewrite H2, <- Permutation_middle. simpl. apply NoDup_cons. split; [|done].
      intros (q & Hq & Hin)%list_elem_of_fmap. rewrite Forall_forall in Hs.
      by apply (Hfresh q); [apply Hs|].
Qed.

(** A dispatch is logged under the right it uses. *)
Lemma invariant_dispatch sy i t action input r t' rights used :
  invariant sy rights used -> sy_threads sy !! i = Some t -> awaits t (Dispatch action input) r t' ->
  exists rights' used', invariant {| sy_store := sy_store sy; sy_threads := <[i := t']> (sy_threads sy);
    sy_served := sy_served sy;
    sy_log := sy_log sy ++ [{| dp_thread := t; dp_action := action; dp_input := input |}] |} rights' used'.
Proof.
  intros [Hg Ht Hl Hs Hd] Hi Haw. destruct (Forall2_lookup_l _ _ _ _ _ Ht Hi) as (o & Ho & Hto).
  destruct (thread_dispatch _ _ _ _ _ _ Haw Hto) as (Hok & receipt & -> & Hlog).
  exists (<[i := None]> rights), (used ++ [receipt]).
  destruct (rights_at rights i (Some receipt) None Ho) as (rest & H1 & H2). simpl in H1, H2.
  assert (Hperm : (used ++ [receipt]) ++ omap id (<[i := None]> rights) ≡ₚ used ++ omap id rights)
    by (rewrite H1, H2, <- app_assoc; done).
  split; simpl; [done| | |by rewrite Hperm|by rewrite Hperm].
  - by apply Forall2_insert.
  - apply Forall2_app; [done|]. by constructor.
Qed.

Lemma omap_delete_sublist (l : list (option GovernedEffectReceipt)) i : omap id (delete i l) `sublist_of` omap id l.
Proof.
  revert i. induction l as [|[x|] l IH]; intros [|i]; simpl; auto using sublist_skip, sublist_cons.
Qed.

Lemma invariant_crash sy i rights used :
  invariant sy rights used ->
  invariant {| sy_store := sy_store sy; sy_threads := delete i (sy_threads sy); sy_served := sy_served sy;
               sy_log := sy_log sy |} (delete i rights) used.
Proof.
  intros [Hg Ht Hl Hs Hd]. assert (Hsub : used ++ omap id (delete i rights) `sublist_of` used ++ omap id rights)
    by (apply sublist_app; auto using omap_delete_sublist).
  split; simpl; [done|by apply Forall2_delete|done| |].
  - rewrite Forall_forall in *. intros q Hq. apply Hs. eapply elem_of_submseteq; eauto using sublist_submseteq.
  - eapply sublist_NoDup; [done|]. by apply fmap_sublist.
Qed.

(** A crossing that was answered is on a receipt that no earlier right is for. *)
Lemma store_grants s c r receipt :
  good s -> r = (serve c s).1 \/ r = None -> opens c r = Some receipt -> marked receipt ->
  spent (serve c s).2 receipt /\ forall q, spent s q -> gr_receiptId q <> gr_receiptId receipt.
Proof.
  intros Hg Hr Ho Hm. destruct c; try done. simpl in *. destruct r as [[]|]; try done. simplify_eq.
  destruct Hr as [Hr|]; [|done]. destruct (cross_started _ _ _ _ _ _ Hg (eq_sym Hr)) as [Hafter Hbefore].
  split; [by exists receipt|]. intros q (q' & Hq & _ & Hmq) He. rewrite He in Hq. by destruct (Hbefore _ Hq).
Qed.

Lemma invariant_new sy t rights used :
  invariant sy rights used -> thread_ok (sy_served sy) t None ->
  invariant {| sy_store := sy_store sy; sy_threads := sy_threads sy ++ [t]; sy_served := sy_served sy;
               sy_log := sy_log sy |} (rights ++ [None]) used.
Proof.
  intros [Hg Ht Hl Hs Hd] Hok. assert (Ho : omap id (rights ++ [None]) = omap id rights)
    by (rewrite omap_app; apply app_nil_r).
  split; simpl; rewrite ?Ho; try done. apply Forall2_app; [done|]. by constructor.
Qed.

Lemma step_invariant sy sy' rights used :
  step sy sy' -> invariant sy rights used -> exists rights' used', invariant sy' rights' used'.
Proof.
  intros Hstep Hinv. pose proof (iv_good _ _ _ Hinv) as Hg.
  destruct Hstep as [sy adapters lease claim claims this proposal Hc|sy adapters lease claim claims this jobId Hc
    |sy i t c r t' Hi Hr Haw|sy i t action input r t' Hi Haw|sy i t action input r t' Hi Haw|sy i t r t' Hi Haw
    |sy i|sy s' He].
  - exists (rights ++ [None]), used. apply invariant_new; [done|]. exists []. split; [set_solver|].
    right. eauto using execute_governed, construct_registered.
  - exists (rights ++ [None]), used. apply invariant_new; [done|]. exists []. split; [set_solver|].
    apply runReconciliation_quiet.
  - destruct (invariant_resume sy i t (Store c) r t' (serve c (sy_store sy)).2 rights used) as [rights' H];
      eauto using good_serve, spent_serve, store_grants.
  - by eapply invariant_dispatch.
  - destruct (invariant_resume sy i t (Reconcile action input) r t' (sy_store sy) rights used) as [rights' H];
      try done; eauto. exists rights', used. simpl in H. by rewrite app_nil_r in H.
  - destruct (invariant_resume sy i t Now r t' (sy_store sy) rights used) as [rights' H];
      try done; eauto. exists rights', used. simpl in H. by rewrite app_nil_r in H.
  - eauto using invariant_crash.
  - exists rights, used. destruct Hinv as [_ Ht Hl Hs Hd]. split; simpl; eauto using good_environment.
    eapply Forall_impl; [done|]. eauto using spent_environment.
Qed.

Lemma reachable_invariant s sy : reachable s sy -> exists rights used, invariant sy rights used.
Proof.
  intros [Hg Hsteps]. assert (Hstart : exists rights used, invariant (start s) rights used).
  { exists [], []. split; simpl; try done; constructor. }
  revert Hstart. induction Hsteps as [|sy1 sy2 sy3 Hstep _ IH]; [done|].
  intros (rights & used & Hinv). eauto using step_invariant.
Qed.

(** ** Theorems *)

(** The subject and key an execution was asked for. *)
Definition dispatch_scope (d : Dispatched) : jstr :=
  match dp_thread d with Executing proposal _ => gp_subjectId proposal | Reconciling jobId _ => jobId end.

(** C32. At most one dispatch: in every interleaving of executions, with answers lost,
    executions abandoned and the store changed by others, no two dispatches are under the
    same receipt, and no two are for the same idempotency key of the same subject. *)
Theorem effect_dispatched_at_most_once s sy i j d d' :
  reachable s sy -> sy_log sy !! i = Some d -> sy_log sy !! j = Some d' ->
  ai_receiptId (dp_input d) = ai_receiptId (dp_input d') \/
  (dispatch_scope d = dispatch_scope d' /\
   ai_idempotencyKey (dp_input d) = ai_idempotencyKey (dp_input d')) ->
  i = j.
Proof.
  intros (rights & used & [Hg Ht Hl Hs Hd])%reachable_invariant Hi Hj Hsame.
  destruct (Forall2_lookup_l _ _ _ _ _ Hl Hi) as (r & Hr & Hlog).
  destruct (Forall2_lookup_l _ _ _ _ _ Hl Hj) as (r' & Hr' & Hlog').
  assert (Hid : gr_receiptId r = gr_receiptId r').
  { unfold log_ok, dispatch_scope in *. destruct (dp_thread d), (dp_thread d'); try done.
    destruct Hlog as (seen & _ & [_ _ Hid [Hk Hk'] Hsc _ _]), Hlog' as (seen' & _ & [_ _ Hid2 [Hk2 Hk2'] Hsc2 _ _]).
    destruct Hsame as [Hsame|[Hscope Hkey]]; [congruence|].
    apply Forall_app in Hs as [Hs _].
    destruct (Forall_lookup_1 _ _ _ _ Hs Hr) as (q & Hq & [? ? _ _] & _).
    destruct (Forall_lookup_1 _ _ _ _ Hs Hr') as (q' & Hq' & [? ? _ _] & _).
    eapply keys_unique; eauto; congruence. }
  rewrite fmap_app in Hd. apply NoDup_app in Hd as (Hd & _ & _).
  eapply NoDup_lookup; [done| |]; rewrite list_lookup_fmap_Some; eauto.
Qed.

(** The grounds of a dispatch that has happened. *)
Record authorised (sy : system) (d : Dispatched) (proposal : GovernedEffectProposal)
    (authority : GovernedEffectAuthority) (now : jstr) (decision : PreDispatchDecision)
    (receipt : GovernedEffectReceipt) : Prop := {
  au_authority : (gp_subjectId proposal, authority) ∈ sy_served sy;
  au_binding : ea_binding authority = gp_expectedAuthority proposal;
  au_arguments : detach (gp_arguments proposal) = Some (ai_arguments (dp_input d));
  au_action : dp_action d = gp_action proposal;
  au_allowed : evaluatePreDispatch (pre_input authority (with_arguments proposal (ai_arguments (dp_input d))) now)
               = Ok decision /\ pd_decision decision = Allow;
  au_receipt : receipt_of (sy_store sy) (ai_receiptId (dp_input d)) = Some receipt;
  au_marked : marked receipt;
  au_bound : gr_scopeId receipt = gp_subjectId proposal /\ gr_idempotencyKey receipt = gp_idempotencyKey proposal /\
             gr_proposalDigest receipt = pd_proposal_digest decision;
}.

(** C33. Every dispatch is authorised: it is made for a proposal, with exactly the proposal's
    content, that the policy kernel allowed on an authority the store returned for the
    subject and that is the one the caller expected; and its receipt, bound to that
    decision's proposal digest, is in the store with its dispatch marker. *)
Theorem dispatch_authorised s sy d :
  reachable s sy -> d ∈ sy_log sy ->
  exists proposal p, dp_thread d = Executing proposal p /\
  exists authority now decision receipt, authorised sy d proposal authority now decision receipt.
Proof.
  intros (rights & used & [Hg Ht Hl Hs Hd])%reachable_invariant [i Hi]%list_elem_of_lookup_1.
  destruct (Forall2_lookup_l _ _ _ _ _ Hl Hi) as (r & Hr & Hlog).
  apply Forall_app in Hs as [Hs _]. destruct (Forall_lookup_1 _ _ _ _ Hs Hr) as (q & Hq & [? ? ? _] & Hm).
  unfold log_ok in Hlog. destruct (dp_thread d) as [proposal p|]; [|done].
  destruct Hlog as (seen & Hseen & [? ? Hid [? ?] ? ? (authority & now & decision & ? & ? & ? & ? & ?)]).
  exists proposal, p. split; [done|]. exists authority, now, decision, q.
  split; auto; [by rewrite Hid|]. split_and!; congruence.
Qed.

End System.

End GovernedSystem.
