(* ===== verification/GovernedTrace.v ===== *)
(** * What one governed execution does

    The calls of an execution and their answers form a history. The theorems bound the
    calls an execution makes and say on what grounds it settles an effect that it may
    have caused, whatever the store, the adapter and the clock answer. *)

From S2P Require Import Prelude JsValue JsText Canonical JsDate Graph Flow FlowValidate FlowRuntime ActionPolicy Governed GovernedSystem.
Import ActionPolicy Governed GovernedSystem.

Local Open Scope Z_scope.

Module GovernedTrace.

(** ** Histories *)

Definition event : Type := {c : Call & option (Answer c)}.
Definition called (c : Call) (r : option (Answer c)) : event := existT c r.

(** [p] makes the calls of [h], with the answers in it, and goes on as [q]. *)
Inductive runs {A} : prog A -> list event -> prog A -> Prop :=
| runs_here p : runs p [] p
| runs_call c k r h q : runs (k r) h q -> runs (Await c k) (called c r :: h) q.

(** Every call of [p] satisfies [P] of the history before it, every result [Q] of the
    whole history. *)
Inductive always {A} (P : list event -> Call -> Prop) (Q : list event -> A -> Prop) : list event -> prog A -> Prop :=
| always_return h a : Q h a -> always P Q h (Return a)
| always_throw h : always P Q h Throw
| always_call h c k :
    P h c -> (forall r, always P Q (h ++ [called c r]) (k r)) -> always P Q h (Await c k).

Lemma always_await {A} P Q h c (k : option (Answer c) -> prog A) :
  always P Q h (Await c k) -> P h c /\ forall r, always P Q (h ++ [called c r]) (k r).
Proof.
  intros H. change (match Await c k with
    | Await c k => P h c /\ forall r, always P Q (h ++ [called c r]) (k r) | _ => True end).
  by destruct H.
Qed.

Lemma always_runs {A} P Q h (p q : prog A) h' : runs p h' q -> always P Q h p -> always P Q (h ++ h') q.
Proof.
  intros Hr. revert h. induction Hr as [p|c k r h' q _ IH]; intros h H; [by rewrite app_nil_r|].
  apply always_await in H as [_ Hk]. specialize (IH _ (Hk r)). by rewrite <- app_assoc in IH.
Qed.

Lemma always_result {A} P Q (p : prog A) h a : always P Q [] p -> runs p h (Return a) -> Q h a.
Proof.
  intros H Hr. pose proof (always_runs _ _ _ _ _ _ Hr H) as Ha. simpl in Ha.
  change (match Return a with Return a => Q h a | _ => True end). by destruct Ha.
Qed.

Lemma always_calls {A} P Q (p : prog A) h c k : always P Q [] p -> runs p h (Await c k) -> P h c.
Proof. intros H Hr. pose proof (always_runs _ _ _ _ _ _ Hr H) as Ha. by apply always_await in Ha as [? _]. Qed.

Lemma runs_init {A} (p q : prog A) h e : runs p (h ++ [e]) q -> exists k, runs p h (Await (projT1 e) k).
Proof.
  revert p. induction h as [|e' h IH]; intros p Hr; simpl in Hr.
  - remember [e] as l eqn:El. destruct Hr as [|c k r h q]; simplify_eq. exists k. constructor.
  - remember (e' :: h ++ [e]) as l eqn:El. destruct Hr as [|c k r l q Hr]; simplify_eq.
    destruct (IH _ Hr) as [k' Hk]. exists k'. by constructor.
Qed.

(** What a history contains. *)
Definition authorities (h : list event) : list (jstr * GovernedEffectAuthority) :=
  flat_map (fun e : event => learns (projT1 e) (projT2 e)) h.
Definition crossings (h : list event) : list GovernedEffectReceipt :=
  omap (fun e : event => grants (projT1 e) (projT2 e)) h.
Definition outcome_of (c : Call) : option (Answer c) -> option (option EffectDispatchOutcome) :=
  match c with Dispatch _ _ => fun r => Some r | _ => fun _ => None end.
Definition outcomes (h : list event) : list (option EffectDispatchOutcome) :=
  omap (fun e : event => outcome_of (projT1 e) (projT2 e)) h.
Definition settlement_of (c : Call) : option (Answer c) -> option (SettleInput * option GovernedEffectReceipt) :=
  match c with Store (Settle i) => fun r => Some (i, r) | _ => fun _ => None end.
Definition settlements (h : list event) : list (SettleInput * option GovernedEffectReceipt) :=
  omap (fun e : event => settlement_of (projT1 e) (projT2 e)) h.
Definition recovery_of (c : Call) : option (Answer c) -> option (RecoveryInput * option IndeterminateRecoveryResult) :=
  match c with Store (EnsureIndeterminateReconciliation i) => fun r => Some (i, r) | _ => fun _ => None end.
Definition recoveries (h : list event) : list (RecoveryInput * option IndeterminateRecoveryResult) :=
  omap (fun e : event => recovery_of (projT1 e) (projT2 e)) h.
Definition reservations (h : list event) : list ReserveAllowedInput :=
  omap (fun e : event => match projT1 e with Store (ReserveAllowed i) => Some i | _ => None end) h.
Definition repairs (h : list event) : list jstr :=
  omap (fun e : event => match projT1 e with
        | Store (RepairBeforeDispatch _ _ token _) => Some token | _ => None end) h.
(** The part of a history after its dispatch. *)
Fixpoint after_dispatch (h : list event) : list event :=
  match h with
  | [] => []
  | e :: h => match projT1 e with Dispatch _ _ => h | _ => after_dispatch h end
  end.
Definition read_only (e : event) : bool :=
  match projT1 e with Now | Store (ReadAuthority _) => true | _ => false end.

(** ** The grounds of a settlement *)

Section Trace.
Context `{HS : Sha256} (this : Coordinator).

Definition post_input (decision : PreDispatchDecision) (latest : GovernedEffectAuthority) (result : obj jsval)
  : PostDispatchInput :=
  {| pi_policy := ea_policy latest; pi_pre_dispatch := decision;
     pi_state_head_sha256 := ab_stateHeadSha256 (ea_binding latest);
     pi_state_revision := ab_stateRevision (ea_binding latest);
     pi_capability_epoch := ab_capabilityEpoch (ea_binding latest); pi_result := result |}.

(** The effect is proved absent. *)
Definition proved_absent (h : list event) (i : SettleInput) : Prop :=
  se_status i = StFailed /\ exists proof code,
  Some (DoAuthoritativelyAbsent proof code) ∈ outcomes h /\ is_sha256 proof = true /\ se_proofSha256 i = Some proof.

(** The effect's result is accepted by the policy, on an authority read after the dispatch. *)
Definition result_accepted (h : list event) (subject : jstr) (r : GovernedEffectReceipt) (i : SettleInput) : Prop :=
  se_status i = StSucceeded /\ exists result latest decision post,
  Some (DoCompleted result) ∈ outcomes h /\ (subject, latest) ∈ authorities (after_dispatch h) /\
  pd_decision decision = Allow /\ pd_proposal_digest decision = gr_proposalDigest r /\
  evaluatePostDispatch (post_input decision latest result) = Ok post /\ po_decision post = Accept /\
  se_resultSha256 i = Some (po_raw_result_sha256 post) /\
  se_providerVisibleResult i = Some (default [] (po_provider_result post)).

Definition settle_grounds (h : list event) (subject : jstr) (i : SettleInput) : Prop :=
  forall r, r ∈ crossings h ->
  se_receiptId i = gr_receiptId r /\ outcomes h <> [] /\
  (gr_effect r <> EffectRead -> proved_absent h i \/ result_accepted h subject r i).

(** The limits an execution keeps to. *)
Definition limits (h : list event) (c : Call) : Prop :=
  (length h <= 12)%nat /\
  match c with
  | Dispatch _ _ => outcomes h = []
  | Store (ReserveAllowed i) =>
      outcomes h = [] /\ (length (reservations h) <= 1)%nat /\
      exists nowMs, canonical_ms (ri_now i) = Some nowMs /\
      ri_leaseExpiresAt i = toISOString (nowMs + co_leaseTtlMs this)
  | Store (RepairBeforeDispatch _ _ _ _) => outcomes h = [] /\ crossings h = [] /\ repairs h = []
  | Store (CrossDispatchBoundary _ _ _ _) => crossings h = []
  | Store (EnsureIndeterminateReconciliation i) => rc_maxClaimAttempts i = co_maxReconciliationClaims this
  | _ => True
  end.

(** Each call of an execution for [subject]. *)
Definition call_ok (subject : jstr) (h : list event) (c : Call) : Prop :=
  limits h c /\ match c with Store (Settle i) => settle_grounds h subject i | _ => True end.

(** What the result of an execution that dispatched rests on. *)
Definition recorded (h : list event) (res : GovernedEffectExecutionResult) : Prop :=
  match res with
  | XSucceeded receipt visible =>
      (exists i, (i, Some receipt) ∈ settlements h /\ se_status i = StSucceeded /\
                 se_providerVisibleResult i = Some visible) \/
      (exists i, (i, Some (IrTerminal receipt)) ∈ recoveries h /\ gr_status receipt = GSucceeded)
  | XFailed receipt =>
      (exists i, (i, Some receipt) ∈ settlements h /\ se_status i = StFailed) \/
      (exists i, (i, Some (IrTerminal receipt)) ∈ recoveries h /\ gr_status receipt = GFailed)
  | XIndeterminate receipt job => exists i, (i, Some (IrIndeterminate receipt job)) ∈ recoveries h
  | XInFlight receipt => exists i, (i, Some (IrTerminal receipt)) ∈ recoveries h
  | _ => False
  end.

Definition result_ok (h : list event) (res : GovernedEffectExecutionResult) : Prop :=
  (length h <= 13)%nat /\
  (outcomes h <> [] -> recorded h res) /\
  match res with
  | XDenied decision => pd_decision decision = Deny /\ forallb read_only h = true
  | XConfirmationRequired decision => pd_decision decision = RequireConfirmation /\ forallb read_only h = true
  | _ => True
  end.

(** ** Histories grow at the end *)

Lemma crossings_app h l : crossings (h ++ l) = crossings h ++ crossings l.
Proof. apply omap_app. Qed.
Lemma outcomes_app h l : outcomes (h ++ l) = outcomes h ++ outcomes l.
Proof. apply omap_app. Qed.
Lemma settlements_app h l : settlements (h ++ l) = settlements h ++ settlements l.
Proof. apply omap_app. Qed.
Lemma recoveries_app h l : recoveries (h ++ l) = recoveries h ++ recoveries l.
Proof. apply omap_app. Qed.
Lemma settled_last h i r : (i, r) ∈ settlements (h ++ [called (Store (Settle i)) r]).
Proof. rewrite settlements_app. set_solver. Qed.
Lemma recovered_last h i r : (i, r) ∈ recoveries (h ++ [called (Store (EnsureIndeterminateReconciliation i)) r]).
Proof. rewrite recoveries_app. set_solver. Qed.
Lemma after_dispatch_app h l : outcomes h = [] -> after_dispatch (h ++ l) = after_dispatch l.
Proof. induction h as [|[[]] h IH]; simpl; intros H; try done; by apply IH. Qed.

(** A history before the dispatch boundary. *)
Record fresh (n : nat) (h : list event) : Prop := {
  fr_outcomes : outcomes h = [];
  fr_crossings : crossings h = [];
  fr_length : (length h <= n)%nat;
}.

Lemma fresh_snoc n h c r : fresh n h -> grants c r = None -> (forall a i, c <> Dispatch a i) -> fresh (S n) (h ++ [called c r]).
Proof.
  intros [Ho Hc Hn] Hg Hd. split; [rewrite outcomes_app, Ho|rewrite crossings_app, Hc|rewrite length_app; simpl; lia].
  - destruct c; try done. by destruct (Hd action input).
  - simpl. by rewrite Hg.
Qed.

#[local] Arguments evaluatePostDispatch : simpl never.
#[local] Arguments evaluatePreDispatch : simpl never.
#[local] Arguments Nat.leb : simpl never.

(** Settles the side conditions on a concrete history. *)
Ltac history :=
  rewrite ?crossings_app, ?outcomes_app, ?settlements_app, ?recoveries_app, ?length_app in *; simpl in *.

Lemma settleReadFailure_ok subject h receipt code :
  crossings h = [receipt] -> gr_effect receipt = EffectRead -> outcomes h <> [] -> (length h <= 11)%nat ->
  always (call_ok subject) result_ok h (settleReadFailure receipt code).
Proof.
  intros Hc He Ho Hn. apply always_call; [by split; [split; [lia|]|]|]. intros [now|]; [|constructor].
  apply always_call.
  - split; [split; [history; lia|done]|]. intros r. history. rewrite app_nil_r, Hc, list_elem_of_singleton.
    intros ->. by rewrite app_nil_r.
  - intros [settled|]; constructor. split; [history; lia|]. split; [|done]. intros _. left. eexists.
    split; [apply settled_last|done].
Qed.

Lemma settleIndeterminate_ok subject h receipt proposal decision policy code result :
  (length h <= 11)%nat ->
  always (call_ok subject) result_ok h (settleIndeterminate this receipt proposal decision policy code result).
Proof.
  intros Hn. apply always_call; [by split; [split; [lia|]|]|]. intros [now|]; [|constructor].
  apply always_call; [by split; [split; [history; lia|]|]|].
  intros [answer|]; constructor. split; [history; lia|]. split.
  - intros _. destruct answer as [r job|r]; simpl; [eexists; apply recovered_last|].
    unfold replayResult. destruct (gr_status r) eqn:Hs; simpl; [eexists; apply recovered_last..| | |].
    all: first [right; eexists; split; [apply recovered_last|done] | eexists; apply recovered_last].
  - destruct answer as [|r]; [done|]. unfold replayResult. by destruct (gr_status r).
Qed.

Lemma settleUnresolved_ok subject h receipt proposal decision policy code :
  crossings h = [receipt] -> Some (gr_effect receipt) = pd_effect decision -> outcomes h <> [] -> (length h <= 11)%nat ->
  always (call_ok subject) result_ok h (settleUnresolved this receipt proposal decision policy code).
Proof.
  intros Hc He Ho Hn. unfold settleUnresolved. case_bool_decide; [|by apply settleIndeterminate_ok].
  apply settleReadFailure_ok; congruence.
Qed.

(** After the dispatch. [h] is the history up to it. *)
Section Dispatched.
Context (subject adapter : jstr) (receipt : GovernedEffectReceipt) (proposal : GovernedEffectProposal)
  (decision : PreDispatchDecision) (policy : ActionPolicySet) (h : list event) (input : AdapterInput).
Context (Hcross : crossings h = [receipt]) (Hnone : outcomes h = []) (Hlength : (length h <= 7)%nat).
Context (Hallow : pd_decision decision = Allow) (Hsubject : gp_subjectId proposal = subject)
  (Hbound : receipt_bound receipt proposal decision = true).

Lemma bound_effect : Some (gr_effect receipt) = pd_effect decision.
Proof. unfold receipt_bound in Hbound. to_prop. done. Qed.
Lemma bound_digest : pd_proposal_digest decision = gr_proposalDigest receipt.
Proof. by destruct (receipt_bound_fields _ _ _ Hbound) as (_ & _ & ->). Qed.

(** A history that extends the dispatch by [l]. *)
Definition extended (outcome : option EffectDispatchOutcome) (l : list event) : list event :=
  (h ++ [called (Dispatch adapter input) outcome]) ++ l.

Lemma extended_snoc outcome l e : extended outcome l ++ [e] = extended outcome (l ++ [e]).
Proof. unfold extended. by rewrite <- app_assoc. Qed.

(** Events after the dispatch that are neither crossings nor dispatches. *)
Definition later (l : list event) : Prop := crossings l = [] /\ outcomes l = [] /\ (length l <= 3)%nat.

Lemma later_snoc l i r : later l -> (length l <= 2)%nat -> later (l ++ [called (Store (Settle i)) r]).
Proof.
  intros (H1 & H2 & _) Hn. unfold later. rewrite crossings_app, outcomes_app, H1, H2, length_app. simpl. split_and!; [done..|lia].
Qed.

Lemma extended_settled outcome l i r : (i, r) ∈ settlements (extended outcome (l ++ [called (Store (Settle i)) r])).
Proof. rewrite <- extended_snoc. apply settled_last. Qed.

Lemma extended_facts outcome l : later l ->
  crossings (extended outcome l) = [receipt] /\ outcomes (extended outcome l) = [outcome] /\
  (length (extended outcome l) <= 8 + length l)%nat /\ after_dispatch (extended outcome l) = l.
Proof.
  intros (H1 & H2 & H3). unfold extended. rewrite <- app_assoc. split_and!.
  - by rewrite !crossings_app, Hcross, H1.
  - by rewrite !outcomes_app, Hnone, H2.
  - rewrite !length_app. simpl. lia.
  - by rewrite after_dispatch_app.
Qed.

Lemma unresolved_ok outcome l code : later l ->
  always (call_ok subject) result_ok (extended outcome l) (settleUnresolved this receipt proposal decision policy code).
Proof.
  intros Hl. destruct (extended_facts outcome l Hl) as (H1 & H2 & H3 & _). destruct Hl as (_ & _ & Hl).
  apply settleUnresolved_ok; [done|apply bound_effect|by rewrite H2|lia].
Qed.

(** A settlement of the crossed receipt on sufficient grounds. *)
Lemma settle_call_ok outcome l i :
  later l -> (length l <= 2)%nat -> se_receiptId i = gr_receiptId receipt ->
  (gr_effect receipt <> EffectRead ->
   proved_absent (extended outcome l) i \/ result_accepted (extended outcome l) subject receipt i) ->
  call_ok subject (extended outcome l) (Store (Settle i)).
Proof.
  intros Hl Hn Hi Hg. destruct (extended_facts outcome l Hl) as (H1 & H2 & H3 & _).
  split; [split; [lia|done]|]. intros r. rewrite H1, H2, list_elem_of_singleton. by intros ->.
Qed.

Lemma quiet_call_ok outcome l c :
  later l -> match c with Now | Store (ReadAuthority _) => True | _ => False end ->
  call_ok subject (extended outcome l) c.
Proof.
  intros Hl Hc. destruct (extended_facts outcome l Hl) as (H1 & H2 & H3 & _). destruct Hl as (_ & _ & Hl).
  destruct c as [[]| | |]; try done; split; try done; (split; [lia|done]).
Qed.

Lemma settled_result_ok outcome l i settled res :
  later l -> recorded (extended outcome (l ++ [called (Store (Settle i)) (Some settled)])) res ->
  match res with XSucceeded _ _ | XFailed _ => True | _ => False end ->
  result_ok (extended outcome (l ++ [called (Store (Settle i)) (Some settled)])) res.
Proof.
  intros (H1 & H2 & H3) Hr Hres. split; [unfold extended; rewrite !length_app; simpl; lia|].
  split; [done|]. by destruct res.
Qed.

Ltac late := unfold later; split_and!; [done|done|simpl; lia].
Ltac facts :=
  match goal with |- context [extended ?o ?l] =>
    let Ho := fresh in let Ha := fresh in
    destruct (extended_facts o l) as (_ & Ho & _ & Ha); [late|]; rewrite Ho, ?Ha; clear Ho Ha
  end.
Ltac proceed := rewrite extended_snoc; cbn [bind catch app].

(** The result was refused: a read fails, anything else stays indeterminate. *)
Lemma refused_ok outcome e1 e2 i reason result handler :
  later [e1; e2] -> se_receiptId i = gr_receiptId receipt -> se_status i = StFailed ->
  always (call_ok subject) result_ok (extended outcome [e1; e2])
    (bind (catch (if bool_decide (pd_effect decision = Some EffectRead)
                  then do settled <- Store (Settle i) ; Return (Return (XFailed settled))
                  else Return (settleIndeterminate this receipt proposal decision policy reason result))
             (Return (settleUnresolved this receipt proposal decision policy handler)))
       (fun settlement => settlement)).
Proof.
  intros Hl Hi Hf. destruct (extended_facts outcome _ Hl) as (_ & _ & Hn & _). pose proof bound_effect.
  case_bool_decide as He; cbn [bind catch]; [|apply settleIndeterminate_ok; simpl in Hn; lia].
  apply always_call.
  - apply settle_call_ok; [done|simpl; lia|done|]. intros []. congruence.
  - intros [s|]; proceed; [|apply unresolved_ok].
    + constructor. apply (settled_result_ok _ [_; _]); [done| |done]. left. exists i. split; [apply extended_settled|done].
    + apply (later_snoc [_; _]); [done|simpl; lia].
Qed.

Lemma settle_outcome_ok outcome :
  always (call_ok subject) result_ok (extended (Some outcome) [])
    (bind (catch (settle_outcome this receipt proposal decision policy outcome)
             (Return (settleUnresolved this receipt proposal decision policy (js "post_dispatch_exception"))))
       (fun settlement => settlement)).
Proof.
  unfold settle_outcome. destruct outcome as [result|proof code|code]; cbn [bind catch].
  - apply always_call; [by apply quiet_call_ok; [late|]|]. intros [now|]; proceed; [|apply unresolved_ok; late].
    apply always_call; [by apply quiet_call_ok; [late|]|]. intros [latest|]; proceed; [|apply unresolved_ok; late].
    destruct (evaluatePostDispatch _) as [post|] eqn:Hpost; cbn [bind catch]; [|apply unresolved_ok; late].
    destruct (po_decision post) eqn:Hd; cbn [bind catch].
    + apply always_call.
      * apply settle_call_ok; [late|simpl; lia|done|]. intros _. right. split; [done|].
        exists result, latest, decision, post.
        facts.
        rewrite Hsubject. split_and!; [set_solver|set_solver|done|apply bound_digest|exact Hpost|done..].
      * intros [settled|]; proceed; [|apply unresolved_ok; late]. constructor.
        apply (settled_result_ok _ [_; _]); [late| |done]. left. eexists. split; [apply extended_settled|done].
    + by apply refused_ok; [late|..].
    + by apply refused_ok; [late|..].
    + by apply refused_ok; [late|..].
  - destruct (is_sha256 proof) eqn:Hproof; cbn [negb bind catch]; [|apply unresolved_ok; late].
    apply always_call; [by apply quiet_call_ok; [late|]|]. intros [now|]; proceed; [|apply unresolved_ok; late].
    apply always_call.
    + apply settle_call_ok; [late|simpl; lia|done|]. intros _. left. split; [done|]. exists proof, code.
      facts.
      split_and!; [set_solver|done..].
    + intros [settled|]; proceed; [|apply unresolved_ok; late]. constructor.
      apply (settled_result_ok _ [_]); [late| |done]. left. eexists. split; [apply extended_settled|done].
  - apply unresolved_ok; late.
Qed.

Lemma dispatch_started_ok :
  input = {| ai_receiptId := gr_receiptId receipt; ai_invocationId := gr_invocationId receipt;
             ai_idempotencyKey := gp_idempotencyKey proposal; ai_arguments := gp_arguments proposal |} ->
  always (call_ok subject) result_ok h (dispatch_started this adapter receipt proposal decision policy).
Proof.
  intros Hinput. unfold dispatch_started. rewrite <- Hinput.
  apply always_call; [by split; [split; [lia|]|]|]. intros [outcome|].
  - rewrite <- (app_nil_r (h ++ _)). apply settle_outcome_ok.
  - rewrite <- (app_nil_r (h ++ _)). apply unresolved_ok. late.
Qed.
End Dispatched.

(** Before the boundary. *)

Lemma always_check {A} P Q h b (p : prog A) :
  (b = true -> always P Q h p) -> always P Q h (check b p).
Proof. destruct b; simpl; [auto|constructor]. Qed.

Lemma fresh_result n h res :
  fresh n h -> (n <= 13)%nat -> match res with XDenied _ | XConfirmationRequired _ => False | _ => True end ->
  result_ok h res.
Proof. intros [Ho _ Hn] Hle Hres. split; [lia|]. split; [by rewrite Ho|]. by destruct res. Qed.

(** A failure settled before the boundary was crossed. *)
Lemma early_settle subject n h i (f : GovernedEffectReceipt -> GovernedEffectExecutionResult) :
  fresh n h -> (n <= 12)%nat -> (forall r, match f r with XDenied _ | XConfirmationRequired _ => False | _ => True end) ->
  always (call_ok subject) result_ok h (do settled <- Store (Settle i) ; Return (f settled)).
Proof.
  intros Hf Hn Hres. apply always_call.
  - destruct Hf as [? Hc ?]. split; [by split; [lia|]|]. intros r. rewrite Hc. set_solver.
  - intros [settled|]; constructor. eapply fresh_result; [by apply fresh_snoc|lia|apply Hres].
Qed.

Lemma cross_and_dispatch_ok subject h adapter receipt lease proposal decision policy current :
  fresh 5 h -> pd_decision decision = Allow -> gp_subjectId proposal = subject ->
  always (call_ok subject) result_ok h (cross_and_dispatch this adapter receipt lease proposal decision policy current).
Proof.
  intros Hf Ha Hs. apply always_call; [by destruct Hf; split; [split; [lia|]|]|]. intros [time|]; [|constructor].
  apply always_check. intros _. apply (fresh_snoc 5 h Now (Some time)) in Hf; [|done..].
  apply always_call; [by destruct Hf; split; [split; [lia|]|]|]. intros [[started| | | |]|]; [| | | | |constructor].
  - repeat (apply always_check; intros ?). eapply dispatch_started_ok; eauto; destruct Hf as [Ho Hc Hn].
    + by rewrite crossings_app, Hc.
    + by rewrite outcomes_app, Ho.
    + rewrite length_app. simpl in *. lia.
  - eapply early_settle; [by apply fresh_snoc|lia|done].
  - eapply early_settle; [by apply fresh_snoc|lia|done].
  - constructor. eapply fresh_result; [by apply fresh_snoc|lia|done].
  - constructor. eapply fresh_result; [by apply fresh_snoc|lia|done].
Qed.

Lemma after_reservation_ok subject h adapter reservation proposal decision policy current nowMs :
  fresh 5 h -> pd_decision decision = Allow -> gp_subjectId proposal = subject ->
  always (call_ok subject) result_ok h (after_reservation this adapter reservation proposal decision policy current nowMs).
Proof.
  intros Hf Ha Hs.
  assert (Hret : forall res, match res with XDenied _ | XConfirmationRequired _ => False | _ => True end ->
            always (call_ok subject) result_ok h (Return res)).
  { intros res Hres. constructor. eapply fresh_result; eauto. lia. }
  assert (Hreplay : forall r, always (call_ok subject) result_ok h (Return (replayResult r))).
  { intros r. apply Hret. unfold replayResult. by destruct (gr_status r). }
  destruct reservation; simpl; unfold assertReceiptBoundToDecision, assertLeaseBoundToDecision;
    repeat (apply always_check; intros _); auto.
  - destruct (canonical_ms _); [|constructor]. apply always_check. intros _.
    destruct dispatchOwner; simpl; [by apply cross_and_dispatch_ok|by apply Hret].
  - case_bool_decide; [|auto]. apply settleIndeterminate_ok. destruct Hf. lia.
Qed.

Lemma fresh_mono n m h : fresh n h -> (n <= m)%nat -> fresh m h.
Proof. intros [? ? ?] ?. split; [done..|lia]. Qed.

Lemma fresh_limit n h : fresh n h -> (n <= 12)%nat -> (length h <= 12)%nat.
Proof. intros [? ? ?] ?. lia. Qed.

Lemma reserve_and_dispatch_ok subject h adapter proposal decision authority now nowMs :
  fresh 2 h -> reservations h = [] -> repairs h = [] ->
  pd_decision decision = Allow -> gp_subjectId proposal = subject -> canonical_ms now = Some nowMs ->
  always (call_ok subject) result_ok h
    (reserve_and_dispatch this adapter proposal decision authority now nowMs (toISOString (nowMs + co_leaseTtlMs this))).
Proof.
  intros Hf Hr Hp Ha Hs Hnow. apply always_call.
  { destruct Hf. split; [split; [lia|]|done]. rewrite Hr. simpl. split_and!; [done|lia|by exists nowMs]. }
  intros [reservation|]; [|constructor]. set (reserve := Store (ReserveAllowed _)).
  apply (fresh_snoc _ _ reserve (Some reservation)) in Hf as Hf1; [|done..].
  destruct reservation as [| | | | |token]; try by apply after_reservation_ok; [eapply fresh_mono; [done|lia]|..].
  apply always_call.
  { split; [split; [eapply fresh_limit; [exact Hf1|lia]|]|done]. destruct Hf1 as [Ho1 Hc1 _]. split_and!; [done..|]. unfold repairs in *.
    by rewrite omap_app, Hp. }
  intros [[]|]; [| |constructor]; simpl.
  2:{ constructor. eapply fresh_result; [by apply fresh_snoc|lia|done]. }
  eapply fresh_snoc in Hf1 as Hf2; [|shelve..]. apply always_call.
  { split; [split; [eapply fresh_limit; [exact Hf2|lia]|]|done]. destruct Hf2 as [Ho2 _ _].
    split_and!; [done| |by exists nowMs]. unfold reservations in *. rewrite !omap_app, Hr. simpl. lia. }
  intros [reservation|]; [|constructor]. apply after_reservation_ok; [|done..].
  apply fresh_snoc; done.
  Unshelve. all: done.
Qed.

Lemma execute_ok proposal :
  always (call_ok (gp_subjectId proposal)) result_ok [] (execute this proposal).
Proof.
  assert (Hf : fresh 0 []) by (split; simpl; [done..|lia]).
  unfold execute. destruct (negb _); [constructor; eapply fresh_result; [done|lia|done]|].
  destruct (detach _) as [arguments|] eqn:Hd; [|constructor; eapply fresh_result; [done|lia|done]].
  apply always_call; [by split; [split; [simpl; lia|]|]|]. intros [now|]; [|constructor].
  apply (fresh_snoc 0 [] Now (Some now)) in Hf; [|done..].
  destruct (canonical_ms now) as [nowMs|] eqn:Hnow; [|constructor].
  apply always_call; [by split; [split; [simpl; lia|]|]|]. intros [authority|]; [|constructor].
  eapply fresh_snoc in Hf; [|shelve..].
  destruct (negb (sameAuthority _ _)); [constructor; eapply fresh_result; [done|lia|done]|].
  destruct (evaluatePreDispatch _) as [decision|] eqn:Hpre; [|constructor].
  destruct (pd_decision decision) eqn:Hallow; [|constructor; split; [simpl; lia|done]..].
  destruct (own _ _) as [adapter|] eqn:Ha; [|constructor; eapply fresh_result; [done|lia|done]].
  unfold date_text. destruct (_ <=? _)%Z; [|constructor]. by apply reserve_and_dispatch_ok.
  Unshelve. all: done.
Qed.

Lemma construct_limits adapters lease claim claims :
  construct adapters lease claim claims = Ok this ->
  1 <= co_leaseTtlMs this <= MAX_LEASE_TTL_MS /\ 1 <= co_maxReconciliationClaims this <= MAX_RECONCILIATION_CLAIMS.
Proof.
  unfold construct, within. destruct (register adapters []) as [map|]; [|done]. simpl. intros Hc. split_guards Hc.
  to_prop. simplify_eq/=. lia.
Qed.

(** ** Theorems *)

(** C35. An execution ends: it makes at most thirteen calls, at most two of them reservations
    with one repair between them and before any boundary is crossed, it crosses the boundary at
    most once and dispatches at most once; each reservation asks for a lease of the configured
    length, at most a minute, and each recovery for the configured number of claims, at most ten. *)
Theorem execute_bounded adapters lease claim claims proposal h q :
  construct adapters lease claim claims = Ok this ->
  runs (execute this proposal) h q ->
  ((length h <= 13)%nat /\ (length (outcomes h) <= 1)%nat) /\
  (forall c k, q = Await c k -> limits h c) /\
  1 <= co_leaseTtlMs this <= MAX_LEASE_TTL_MS /\ 1 <= co_maxReconciliationClaims this <= MAX_RECONCILIATION_CLAIMS.
Proof.
  intros Hcon Hr. pose proof (execute_ok proposal) as Hok. apply construct_limits in Hcon as [Hlease Hclaims].
  split_and!; try done; try lia.
  - destruct h as [|e h _] using rev_ind; [simpl; lia|]. apply runs_init in Hr as [k Hr].
    destruct (always_calls _ _ _ _ _ _ Hok Hr) as [[Hn _] _]. rewrite length_app. simpl. lia.
  - revert q Hr. induction h as [|e h IH] using rev_ind; intros q Hr; [simpl; lia|].
    apply runs_init in Hr as [k Hr]. specialize (IH _ Hr).
    destruct (always_calls _ _ _ _ _ _ Hok Hr) as [[_ Hl] _].
    rewrite outcomes_app, length_app. destruct e as [[] r]; simpl in *; rewrite ?Hl; simpl; lia.
  - intros c k ->. by destruct (always_calls _ _ _ _ _ _ Hok Hr) as [? _].
Qed.

(** *** Reconciliation *)

Definition job_input (job : ReconciliationJob) : AdapterInput :=
  {| ai_receiptId := jb_receiptId job; ai_invocationId := jb_invocationId job;
     ai_idempotencyKey := jb_idempotencyKey job; ai_arguments := jb_arguments job |}.

(** The read-only adapter of the job's action answered [outcome] for the job. *)
Definition read_back (h : list event) (job : ReconciliationJob) (outcome : EffectReconciliationOutcome) : Prop :=
  exists adapter, own (jb_action job) (co_adapters this) = Some adapter /\
    ad_reconciliationEffect adapter = EffectRead /\
    called (Reconcile (ad_action adapter) (job_input job)) (Some outcome) ∈ h.

(** What the policy frozen in the job says of a result, in the state of the frozen decision. *)
Definition frozen_input (job : ReconciliationJob) (result : obj jsval) : PostDispatchInput :=
  let decision := jb_preDispatchDecision job in
  {| pi_policy := jb_policy job; pi_pre_dispatch := decision;
     pi_state_head_sha256 := pd_state_head_sha256 decision; pi_state_revision := pd_state_revision decision;
     pi_capability_epoch := pd_capability_epoch decision; pi_result := result |}.

Definition finding_grounds (h : list event) (job : ReconciliationJob) (disposition : RecDisposition)
    (proof resultSha256 : option jstr) (visible : option (obj jsval)) : Prop :=
  match disposition with
  | RdUnknown => resultSha256 = None /\ visible = None
  | RdAbsent => resultSha256 = None /\ visible = None /\
      exists p, proof = Some p /\ is_sha256 p = true /\ read_back h job (RoAbsent p)
  | RdCommitted => exists p result post, proof = Some p /\ is_sha256 p = true /\
      read_back h job (RoCommitted p result) /\
      evaluatePostDispatch (frozen_input job result) = Ok post /\ po_decision post = Accept /\
      resultSha256 = Some (po_raw_result_sha256 post) /\ visible = Some (default [] (po_provider_result post))
  end.

Definition reconciliation_grounds (h : list event) (jobId : jstr) (i : SettleReconciliationInput) : Prop :=
  exists now expires job claim,
    called (Store (ClaimReconciliation jobId now expires)) (Some (ClClaimed job claim)) ∈ h /\
    sr_jobId i = jb_jobId job /\ sr_receiptId i = jb_receiptId job /\
    sr_claimId i = cm_claimId claim /\ sr_claimOrdinal i = cm_ordinal claim /\
    finding_grounds h job (sr_disposition i) (sr_proofSha256 i) (sr_resultSha256 i) (sr_providerVisibleResult i).

(** A reconciliation reads the clock, claims, reads back and settles its job: it makes no other call. *)
Definition reconcile_call_ok (jobId : jstr) (h : list event) (c : Call) : Prop :=
  match c with
  | Now | Reconcile _ _ => True
  | Store (ClaimReconciliation id _ _) => id = jobId
  | Store (SettleReconciliation i) => reconciliation_grounds h jobId i
  | _ => False
  end.

Lemma finding_grounds_later h e job d p r v : finding_grounds h job d p r v -> finding_grounds (h ++ [e]) job d p r v.
Proof.
  assert (forall o, read_back h job o -> read_back (h ++ [e]) job o) as Hb.
  { intros o (a & H1 & H2 & H3). exists a. split_and!; [done..|]. apply elem_of_app. by left. }
  destruct d; simpl; naive_solver.
Qed.

Lemma assess_grounds h job outcome f :
  read_back h job outcome -> f = assess job outcome ->
  finding_grounds h job (fi_disposition f) (fi_proofSha256 f) (fi_resultSha256 f) (fi_visible f).
Proof.
  intros Hb ->. unfold assess. destruct outcome as [p result|p|code].
  - destruct (is_sha256 p) eqn:Hp; [|done]. cbn [negb]. fold (frozen_input job result).
    destruct (evaluatePostDispatch _) as [post|] eqn:Ep; [|done]. destruct (po_decision post) eqn:Ed; [|done..].
    by exists p, result, post.
  - destruct (is_sha256 p) eqn:Hp; [|done]. cbn. split_and!; [done..|]. by exists p.
  - done.
Qed.

Lemma settle_finding_ok jobId h job claim f now expires :
  called (Store (ClaimReconciliation jobId now expires)) (Some (ClClaimed job claim)) ∈ h ->
  finding_grounds h job (fi_disposition f) (fi_proofSha256 f) (fi_resultSha256 f) (fi_visible f) ->
  always (reconcile_call_ok jobId) (fun _ _ => True) h (settle_finding job claim f).
Proof.
  intros Hc Hf. apply always_call; [done|]. intros [t|]; [|constructor]. apply always_call.
  - exists now, expires, job, claim. split; [apply elem_of_app; by left|]. split_and!; [done..|].
    by apply finding_grounds_later.
  - intros [[[d j] r]|]; by constructor.
Qed.

Lemma runReconciliation_ok jobId : always (reconcile_call_ok jobId) (fun _ _ => True) [] (runReconciliation this jobId).
Proof.
  apply always_call; [done|]. intros [now|]; [|constructor]. destruct (canonical_ms now) as [nowMs|]; [|constructor].
  destruct (date_text _) as [expires|]; [|constructor]. apply always_call; [done|].
  intros [[job claim| |]|]; [|by constructor..]. set (h := _ ++ _).
  assert (called (Store (ClaimReconciliation jobId now expires)) (Some (ClClaimed job claim)) ∈ h) as Hc
    by (unfold h; set_solver).
  assert (forall h' p code, called (Store (ClaimReconciliation jobId now expires)) (Some (ClClaimed job claim)) ∈ h' ->
    always (reconcile_call_ok jobId) (fun _ _ => True) h' (settle_finding job claim (unknown_finding p code))) as Hunknown
    by (intros; by eapply settle_finding_ok).
  destruct (own (jb_action job) (co_adapters this)) as [adapter|] eqn:Ea; [|by apply Hunknown].
  case_bool_decide as Hread; [|by apply Hunknown]. apply always_call; [done|]. intros [outcome|].
  - eapply settle_finding_ok; [apply elem_of_app; left; exact Hc|].
    apply (assess_grounds _ _ outcome); [|done]. exists adapter. split_and!; [done..|]. apply elem_of_app. right. by left.
  - apply Hunknown. apply elem_of_app. by left.
Qed.

(** C34. An effect that may have happened is settled only on evidence. By an execution: once the dispatch
    boundary is crossed for a write or opaque action, the receipt is settled failed only with a
    well-formed proof of absence from the adapter, and succeeded only with the digest and
    the visible part of a completed result that the policy kernel accepts, for the decision
    the receipt is bound to, on an authority read after the dispatch. By a reconciliation: its only calls are the
    clock, the claim of its job, the read-back and the settlement; the settlement is of the claimed job and
    its receipt under that claim, as absent only with a well-formed proof of absence answered by the read-only adapter of the
    job's action, as committed only with a well-formed proof and the digest and visible part of a result that the
    adapter answered and the policy frozen with the job's decision accepts (no authority is read here), and
    otherwise as unknown without a result. *)
Theorem settled_on_evidence :
  (forall proposal h i k, runs (execute this proposal) h (Await (Store (Settle i)) k) ->
     settle_grounds h (gp_subjectId proposal) i) /\
  (forall jobId h c k, runs (runReconciliation this jobId) h (Await c k) -> reconcile_call_ok jobId h c).
Proof.
  split.
  - intros proposal h i k Hr. by destruct (always_calls _ _ _ _ _ _ (execute_ok proposal) Hr) as [_ ?].
  - intros jobId h c k Hr. exact (always_calls _ _ _ _ _ _ (runReconciliation_ok jobId) Hr).
Qed.

(** What an execution returns is on record: after a dispatch it returns a success, a
    failure or an indeterminate outcome only with the receipt that the store answered to the
    settlement or recovery which says so; and a proposal that is denied or needs confirmation
    has only read the clock and the authority. *)
Theorem result_on_record proposal h res :
  runs (execute this proposal) h (Return res) -> result_ok h res.
Proof. apply (always_result _ _ _ _ _ (execute_ok proposal)). Qed.

End Trace.

End GovernedTrace.
