(* ===== verification/DeterministicStore.v ===== *)
(** * The deterministic effect store (src/web/lib/benchmark/v2/stress/effect-store.ts)

    The in-memory [GovernedEffectStore]. Its operations run to completion before another
    is served, so a call is one state transition; a call that throws changes nothing. *)

From S2P Require Import Prelude JsValue JsText Canonical JsDate Graph Flow FlowValidate FlowRuntime ActionPolicy Governed GovernedSystem.
Import ActionPolicy Governed GovernedSystem.

Local Open Scope Z_scope.

Module DeterministicStore.

(** [H]: a character sixty-four times. *)
Definition H (c : N) : jstr := replicate 64 c.

Definition STRESS_SUBJECT : jstr := js "offline-stress".

Definition STRESS_POLICY : ActionPolicySet :=
  {| ps_id := js "hacc.offline-stress.effects"; ps_version := js "1";
     ps_actions := [
       {| it_action := js "stress.write"; it_effect := EffectWrite;
          it_require_all := [PFact {| pf_fact_id := js "caller.verified"; pf_operator := CEquals;
            pf_value := Some (JBool true); pf_authorities := Some [ATool]; pf_max_age_seconds := None |}];
          it_deny_if_any := []; it_maximum_calls := None; it_confirmation := None;
          it_postconditions := [{| pa_path := js "status"; pa_operator := CEquals; pa_value := Some (jtext "applied") |}];
          it_visible_fields := [js "status"; js "effect_id"] |}] |}.

(** [stressAuthority], given the fields of the patch that the store uses. *)
Definition stressAuthority (binding : AuthorityBinding) : GovernedEffectAuthority :=
  {| ea_binding := binding; ea_policy := STRESS_POLICY;
     ea_facts := [{| fa_fact_id := js "caller.verified"; fa_revision := 1; fa_value := JBool true;
       fa_authority := ATool; fa_observed_at := js "2026-08-02T18:00:00.000Z"; fa_evidence_sha256 := H 98 |}];
     ea_receipts := []; ea_priorCallCount := 0 |}.

Definition STRESS_BINDING : AuthorityBinding :=
  {| ab_stateHeadSha256 := H 97; ab_stateRevision := 7; ab_capabilityEpoch := 3 |}.

(** ** State *)

Record DeterministicEffectStore := {
  ds_currentAuthority : GovernedEffectAuthority;
  ds_receipts : obj GovernedEffectReceipt;
  ds_receiptByKey : obj jstr;
  ds_jobs : obj ReconciliationJob;
  ds_jobByReceipt : obj jstr;
  ds_boundaryStale : bool;
  ds_dispatchBoundaryCrossings : Z;
  ds_repairCalls : Z;
}.

Definition new_store : DeterministicEffectStore :=
  {| ds_currentAuthority := stressAuthority STRESS_BINDING; ds_receipts := []; ds_receiptByKey := [];
     ds_jobs := []; ds_jobByReceipt := []; ds_boundaryStale := false; ds_dispatchBoundaryCrossings := 0;
     ds_repairCalls := 0 |}.

Definition set_receipt (s : DeterministicEffectStore) (r : GovernedEffectReceipt) : DeterministicEffectStore :=
  {| ds_currentAuthority := ds_currentAuthority s; ds_receipts := put (gr_receiptId r) r (ds_receipts s);
     ds_receiptByKey := ds_receiptByKey s; ds_jobs := ds_jobs s; ds_jobByReceipt := ds_jobByReceipt s;
     ds_boundaryStale := ds_boundaryStale s; ds_dispatchBoundaryCrossings := ds_dispatchBoundaryCrossings s;
     ds_repairCalls := ds_repairCalls s |}.
Definition set_key (s : DeterministicEffectStore) (key id : jstr) : DeterministicEffectStore :=
  {| ds_currentAuthority := ds_currentAuthority s; ds_receipts := ds_receipts s;
     ds_receiptByKey := put key id (ds_receiptByKey s); ds_jobs := ds_jobs s; ds_jobByReceipt := ds_jobByReceipt s;
     ds_boundaryStale := ds_boundaryStale s; ds_dispatchBoundaryCrossings := ds_dispatchBoundaryCrossings s;
     ds_repairCalls := ds_repairCalls s |}.
Definition set_job (s : DeterministicEffectStore) (jobId : jstr) (j : ReconciliationJob) : DeterministicEffectStore :=
  {| ds_currentAuthority := ds_currentAuthority s; ds_receipts := ds_receipts s;
     ds_receiptByKey := ds_receiptByKey s; ds_jobs := put jobId j (ds_jobs s);
     ds_jobByReceipt := ds_jobByReceipt s; ds_boundaryStale := ds_boundaryStale s;
     ds_dispatchBoundaryCrossings := ds_dispatchBoundaryCrossings s; ds_repairCalls := ds_repairCalls s |}.
Definition set_receipt_job (s : DeterministicEffectStore) (receiptId jobId : jstr) : DeterministicEffectStore :=
  {| ds_currentAuthority := ds_currentAuthority s; ds_receipts := ds_receipts s;
     ds_receiptByKey := ds_receiptByKey s; ds_jobs := ds_jobs s;
     ds_jobByReceipt := put receiptId jobId (ds_jobByReceipt s); ds_boundaryStale := ds_boundaryStale s;
     ds_dispatchBoundaryCrossings := ds_dispatchBoundaryCrossings s; ds_repairCalls := ds_repairCalls s |}.
Definition set_authority (s : DeterministicEffectStore) (a : GovernedEffectAuthority) (stale : bool)
  : DeterministicEffectStore :=
  {| ds_currentAuthority := a; ds_receipts := ds_receipts s;
     ds_receiptByKey := ds_receiptByKey s; ds_jobs := ds_jobs s; ds_jobByReceipt := ds_jobByReceipt s;
     ds_boundaryStale := stale; ds_dispatchBoundaryCrossings := ds_dispatchBoundaryCrossings s;
     ds_repairCalls := ds_repairCalls s |}.
Definition count (s : DeterministicEffectStore) (crossings repairs : Z) : DeterministicEffectStore :=
  {| ds_currentAuthority := ds_currentAuthority s; ds_receipts := ds_receipts s;
     ds_receiptByKey := ds_receiptByKey s; ds_jobs := ds_jobs s; ds_jobByReceipt := ds_jobByReceipt s;
     ds_boundaryStale := ds_boundaryStale s;
     ds_dispatchBoundaryCrossings := ds_dispatchBoundaryCrossings s + crossings;
     ds_repairCalls := ds_repairCalls s + repairs |}.

(** A receipt in a new state. *)
Definition with_dispatch (r : GovernedEffectReceipt) (now : jstr) : GovernedEffectReceipt :=
  {| gr_binding := gr_binding r; gr_receiptId := gr_receiptId r; gr_scopeId := gr_scopeId r;
     gr_invocationId := gr_invocationId r; gr_idempotencyKey := gr_idempotencyKey r; gr_action := gr_action r;
     gr_effect := gr_effect r; gr_argumentsSha256 := gr_argumentsSha256 r; gr_proposalDigest := gr_proposalDigest r;
     gr_policyDigest := gr_policyDigest r; gr_status := GDispatching; gr_dispatchAttempts := 1;
     gr_dispatchStartedAt := Some now; gr_settledAt := gr_settledAt r; gr_resultSha256 := gr_resultSha256 r;
     gr_proofSha256 := gr_proofSha256 r; gr_errorCode := gr_errorCode r;
     gr_providerVisibleResult := gr_providerVisibleResult r |}.

(** [...(value ? { field: value } : {})]: a truthy value replaces the field. *)
Definition overwrite {A} (new old : option A) : option A := match new with Some _ => new | None => old end.

Definition with_settlement (r : GovernedEffectReceipt) (status : EffectReceiptStatus)
    (result proof : option jstr) (visible : option (obj jsval)) (error : option jstr) (now : jstr)
  : GovernedEffectReceipt :=
  {| gr_binding := gr_binding r; gr_receiptId := gr_receiptId r; gr_scopeId := gr_scopeId r;
     gr_invocationId := gr_invocationId r; gr_idempotencyKey := gr_idempotencyKey r; gr_action := gr_action r;
     gr_effect := gr_effect r; gr_argumentsSha256 := gr_argumentsSha256 r; gr_proposalDigest := gr_proposalDigest r;
     gr_policyDigest := gr_policyDigest r; gr_status := status; gr_dispatchAttempts := gr_dispatchAttempts r;
     gr_dispatchStartedAt := gr_dispatchStartedAt r; gr_settledAt := Some now;
     gr_resultSha256 := overwrite (truthy result) (gr_resultSha256 r);
     gr_proofSha256 := overwrite (truthy proof) (gr_proofSha256 r);
     gr_errorCode := overwrite error (gr_errorCode r);
     gr_providerVisibleResult := overwrite visible (gr_providerVisibleResult r) |}.

Definition with_claim (j : ReconciliationJob) (attempt : Z) (claim : option ReconciliationClaimLease) (status : JobStatus)
  : ReconciliationJob :=
  {| jb_jobId := jb_jobId j; jb_receiptId := jb_receiptId j; jb_subjectId := jb_subjectId j;
     jb_invocationId := jb_invocationId j; jb_idempotencyKey := jb_idempotencyKey j; jb_action := jb_action j;
     jb_arguments := jb_arguments j; jb_argumentsSha256 := jb_argumentsSha256 j; jb_policy := jb_policy j;
     jb_preDispatchDecision := jb_preDispatchDecision j; jb_attempt := attempt; jb_maxAttempts := jb_maxAttempts j;
     jb_activeClaim := claim; jb_status := status |}.

(** ** Operations *)

Definition numbered (prefix : string) (n : nat) : jstr := js prefix ++ digits (N.of_nat n).

Definition mustReceipt (s : DeterministicEffectStore) (id : jstr) : option GovernedEffectReceipt := own id (ds_receipts s).
Definition mustJob (s : DeterministicEffectStore) (id : jstr) : option ReconciliationJob := own id (ds_jobs s).

Definition scoped_key (subjectId idempotencyKey : jstr) : jstr := subjectId ++ js ":" ++ idempotencyKey.

Definition decision_binding (d : PreDispatchDecision) : AuthorityBinding :=
  {| ab_stateHeadSha256 := pd_state_head_sha256 d; ab_stateRevision := pd_state_revision d;
     ab_capabilityEpoch := pd_capability_epoch d |}.

Definition reserved_receipt (ordinal : nat) (input : ReserveAllowedInput) (effect : Effect) : GovernedEffectReceipt :=
  let d := ri_decision input in
  {| gr_binding := decision_binding d; gr_receiptId := numbered "receipt-" ordinal;
     gr_scopeId := gp_subjectId (ri_proposal input); gr_invocationId := numbered "invocation-" ordinal;
     gr_idempotencyKey := gp_idempotencyKey (ri_proposal input); gr_action := gp_action (ri_proposal input);
     gr_effect := effect; gr_argumentsSha256 := pd_arguments_sha256 d;
     gr_proposalDigest := pd_proposal_digest d; gr_policyDigest := pd_policy_digest d; gr_status := GReserved;
     gr_dispatchAttempts := 0; gr_dispatchStartedAt := None; gr_settledAt := None; gr_resultSha256 := None;
     gr_proofSha256 := None; gr_errorCode := None; gr_providerVisibleResult := None |}.

Definition lease_of (ordinal : nat) (r : GovernedEffectReceipt) (input : ReserveAllowedInput) : GovernedEffectLease :=
  {| le_binding := gr_binding r; le_leaseId := numbered "lease-" ordinal; le_action := gr_action r;
     le_effect := gr_effect r; le_argumentsSha256 := gr_argumentsSha256 r; le_proposalDigest := gr_proposalDigest r;
     le_policyDigest := gr_policyDigest r; le_decisionDigest := pd_decision_digest (ri_decision input);
     le_expiresAt := ri_leaseExpiresAt input |}.

Definition is_terminal (status : EffectReceiptStatus) : bool :=
  match status with GSucceeded | GFailed => true | _ => false end.
Definition is_settled (status : EffectReceiptStatus) : bool :=
  match status with GSucceeded | GFailed | GIndeterminate => true | _ => false end.

(** The decision is an allowance, whose effect is known ([effect as ...] in the source). *)
Definition reserveAllowed (input : ReserveAllowedInput) (s : DeterministicEffectStore)
  : option ReserveAllowedResult * DeterministicEffectStore :=
  let current := ea_binding (ds_currentAuthority s) in
  let proposal := ri_proposal input in
  let decision := ri_decision input in
  if negb (sameAuthority current (decision_binding decision)) then (Some (RvStaleAuthority current), s)
  else
    let key := scoped_key (gp_subjectId proposal) (gp_idempotencyKey proposal) in
    match truthy (own key (ds_receiptByKey s)) with
    | Some existingId =>
        match mustReceipt s existingId with
        | None => (None, s)
        | Some existing =>
            if negb (gr_action existing =?s gp_action proposal) ||
               negb (gr_argumentsSha256 existing =?s pd_arguments_sha256 decision) ||
               negb (gr_proposalDigest existing =?s pd_proposal_digest decision)
            then (Some (RvIdempotencyConflict (gr_argumentsSha256 existing)), s)
            else (Some (if is_terminal (gr_status existing) then RvTerminalReplay existing
                        else RvInFlightReplay existing), s)
        end
    | None =>
        match pd_effect decision with
        | None => (None, s)
        | Some effect =>
            let ordinal := Datatypes.S (length (ds_receipts s)) in
            let receipt := reserved_receipt ordinal input effect in
            (Some (RvReserved receipt (lease_of ordinal receipt input) true),
             set_key (set_receipt s receipt) key (gr_receiptId receipt))
        end
    end.

Definition repairBeforeDispatch (s : DeterministicEffectStore) : option bool * DeterministicEffectStore :=
  (Some true, count s 0 1).

Section Operations.
(** [Date.parse], implementation-defined on texts that are not ISO 8601; [None] is [NaN]. *)
Context (date_parse : jstr -> option Z).

Definition date_le (a b : jstr) : bool :=
  match date_parse a, date_parse b with Some x, Some y => x <=? y | _, _ => false end.
Definition date_lt (a b : jstr) : bool :=
  match date_parse a, date_parse b with Some x, Some y => x <? y | _, _ => false end.

(** The authority advances once when a test has asked for a stale boundary. *)
Definition advance_if_stale (s : DeterministicEffectStore) : DeterministicEffectStore :=
  if ds_boundaryStale s then
    let b := ea_binding (ds_currentAuthority s) in
    set_authority s (stressAuthority {| ab_stateHeadSha256 := H 99; ab_stateRevision := ab_stateRevision b + 1;
                                        ab_capabilityEpoch := ab_capabilityEpoch b + 1 |}) false
  else s.

Definition crossDispatchBoundary (receiptId : jstr) (lease : GovernedEffectLease) (expected : AuthorityBinding)
    (now : jstr) (s : DeterministicEffectStore) : option DispatchBoundaryResult * DeterministicEffectStore :=
  match mustReceipt s receiptId with
  | None => (None, s)
  | Some receipt =>
      let s := advance_if_stale s in
      let current := ea_binding (ds_currentAuthority s) in
      if negb (sameAuthority current expected) then (Some (BdStaleAuthority current), s)
      else if date_le (le_expiresAt lease) now then (Some (BdLeaseExpired receipt), s)
      else match truthy (gr_dispatchStartedAt receipt) with
      | Some _ => (Some (BdAlreadyCrossed receipt), s)
      | None =>
          let started := with_dispatch receipt now in
          (Some (BdStarted started), count (set_receipt s started) 1 0)
      end
  end.

Definition status_of (status : SettleStatus) : EffectReceiptStatus :=
  match status with StSucceeded => GSucceeded | StFailed => GFailed | StIndeterminate => GIndeterminate end.

Definition settle (input : SettleInput) (s : DeterministicEffectStore)
  : option GovernedEffectReceipt * DeterministicEffectStore :=
  match mustReceipt s (se_receiptId input) with
  | None => (None, s)
  | Some current =>
      if is_settled (gr_status current) then
        if bool_decide (gr_status current = status_of (se_status input)) &&
           bool_decide (gr_resultSha256 current = se_resultSha256 input) &&
           bool_decide (gr_errorCode current = se_errorCode input)
        then (Some current, s) else (None, s)
      else
        let receipt := with_settlement current (status_of (se_status input)) (se_resultSha256 input)
                         (se_proofSha256 input) (se_providerVisibleResult input)
                         (truthy (se_errorCode input)) (se_now input) in
        (Some receipt, set_receipt s receipt)
  end.

Definition new_job (jobId : jstr) (receiptId : jstr) (input : RecoveryInput) : ReconciliationJob :=
  {| jb_jobId := jobId; jb_receiptId := receiptId; jb_subjectId := rc_subjectId input;
     jb_invocationId := rc_invocationId input; jb_idempotencyKey := rc_idempotencyKey input;
     jb_action := rc_action input; jb_arguments := rc_arguments input; jb_argumentsSha256 := rc_argumentsSha256 input;
     jb_policy := rc_policy input; jb_preDispatchDecision := rc_preDispatchDecision input; jb_attempt := 0;
     jb_maxAttempts := rc_maxClaimAttempts input; jb_activeClaim := None; jb_status := JQueued |}.

Definition ensureIndeterminateReconciliation (input : RecoveryInput) (s : DeterministicEffectStore)
  : option IndeterminateRecoveryResult * DeterministicEffectStore :=
  match mustReceipt s (rc_receiptId input) with
  | None => (None, s)
  | Some current =>
      if is_terminal (gr_status current) then (Some (IrTerminal current), s)
      else
        let indeterminate := bool_decide (gr_status current = GIndeterminate) in
        let receipt := if indeterminate then current
                       else with_settlement current GIndeterminate (rc_resultSha256 input) None None
                              (Some (rc_errorCode input)) (rc_now input) in
        let s := if indeterminate then s else set_receipt s receipt in
        match truthy (own (gr_receiptId receipt) (ds_jobByReceipt s)) with
        | Some existingJobId =>
            match mustJob s existingJobId with
            | None => (None, s)
            | Some job => (Some (IrIndeterminate receipt job), s)
            end
        | None =>
            let job := new_job (numbered "job-" (Datatypes.S (length (ds_jobs s)))) (gr_receiptId receipt) input in
            (Some (IrIndeterminate receipt job),
             set_receipt_job (set_job s (jb_jobId job) job) (gr_receiptId receipt) (jb_jobId job))
        end
  end.

Definition claimReconciliation (jobId now leaseExpiresAt : jstr) (s : DeterministicEffectStore)
  : option ReconciliationClaim * DeterministicEffectStore :=
  match mustJob s jobId with
  | None => (None, s)
  | Some job =>
      match mustReceipt s (jb_receiptId job) with
      | None => (None, s)
      | Some receipt =>
          let held := match jb_activeClaim job with Some c => date_lt now (cm_expiresAt c) | None => false end in
          if bool_decide (jb_status job = JCompleted) then (Some (ClNotClaimable job receipt), s)
          else if bool_decide (jb_status job = JRunning) && held then (Some (ClNotClaimable job receipt), s)
          else if jb_maxAttempts job <=? jb_attempt job then (Some (ClExhausted job receipt), s)
          else
            let ordinal := jb_attempt job + 1 in
            let claim := {| cm_claimId := js "claim-" ++ jb_jobId job ++ js "-" ++ num_to_string (num_of_Z ordinal);
                            cm_ordinal := ordinal; cm_claimedAt := now; cm_expiresAt := leaseExpiresAt |} in
            let claimed := with_claim job ordinal (Some claim) JRunning in
            (Some (ClClaimed claimed claim), set_job s jobId claimed)
      end
  end.

Definition reconciled_status (d : RecDisposition) : EffectReceiptStatus :=
  match d with RdCommitted => GSucceeded | RdAbsent => GFailed | RdUnknown => GIndeterminate end.

Definition holds_claim (job : ReconciliationJob) (input : SettleReconciliationInput) : bool :=
  bool_decide (jb_status job = JRunning) &&
  match jb_activeClaim job with
  | None => false
  | Some claim => (jb_receiptId job =?s sr_receiptId input) && (cm_claimId claim =?s sr_claimId input) &&
                  (cm_ordinal claim =? sr_claimOrdinal input)
  end.

Definition settleReconciliation (input : SettleReconciliationInput) (s : DeterministicEffectStore)
  : option (SettledDisposition * ReconciliationJob * GovernedEffectReceipt) * DeterministicEffectStore :=
  match mustJob s (sr_jobId input) with
  | None => (None, s)
  | Some job =>
      match mustReceipt s (jb_receiptId job) with
      | None => (None, s)
      | Some current =>
          if is_terminal (gr_status current) then (Some (SdTerminal, job, current), s)
          else if negb (holds_claim job input) then (Some (SdStaleClaim, job, current), s)
          else
            let receipt := with_settlement current (reconciled_status (sr_disposition input))
                             (sr_resultSha256 input) (sr_proofSha256 input) (sr_providerVisibleResult input)
                             (truthy (sr_errorCode input)) (sr_now input) in
            let completed := with_claim job (jb_attempt job) (jb_activeClaim job) JCompleted in
            (Some (SdSettled, completed, receipt), set_job (set_receipt s receipt) (jb_jobId job) completed)
      end
  end.

(** The store as a server of calls. *)
#[export] Instance deterministic_store : EffectStore DeterministicEffectStore :=
  fun c =>
    match c with
    | ReadAuthority _ => fun s => (Some (ds_currentAuthority s), s)
    | ReserveAllowed input => reserveAllowed input
    | RepairBeforeDispatch _ _ _ _ => repairBeforeDispatch
    | CrossDispatchBoundary id lease expected now => crossDispatchBoundary id lease expected now
    | Settle input => settle input
    | EnsureIndeterminateReconciliation input => ensureIndeterminateReconciliation input
    | ClaimReconciliation jobId now expires => claimReconciliation jobId now expires
    | SettleReconciliation input => settleReconciliation input
    end.

(** ** The representation invariant *)

(** The marker and the attempt count agree. *)
Definition dispatch_consistent (r : GovernedEffectReceipt) : Prop :=
  gr_invocationId r <> [] /\
  ((gr_dispatchAttempts r = 0 /\ gr_dispatchStartedAt r = None) \/
   (gr_dispatchAttempts r = 1 /\ is_Some (gr_dispatchStartedAt r))).

(** A claim is the last one taken, and no more than the maximum are. *)
Record job_ok (j : ReconciliationJob) : Prop := {
  jo_attempt : 0 <= jb_attempt j;
  jo_bounded : jb_attempt j = 0 \/ jb_attempt j <= jb_maxAttempts j;
  jo_claim : forall c, jb_activeClaim j = Some c -> cm_ordinal c = jb_attempt j;
}.

Record store_ok (s : DeterministicEffectStore) : Prop := {
  so_receipts : forall id r, own id (ds_receipts s) = Some r ->
    gr_receiptId r = id /\ dispatch_consistent r /\
    own (scoped_key (gr_scopeId r) (gr_idempotencyKey r)) (ds_receiptByKey s) = Some id;
  so_numbered : forall id, id ∈ keys (ds_receipts s) ->
    exists n, (n <= length (ds_receipts s))%nat /\ id = numbered "receipt-" n;
  so_keys : forall key id, own key (ds_receiptByKey s) = Some id -> is_Some (own id (ds_receipts s));
  so_jobs : forall id j, own id (ds_jobs s) = Some j ->
    jb_jobId j = id /\ job_ok j /\ is_Some (own (jb_receiptId j) (ds_receipts s)) /\
    own (jb_receiptId j) (ds_jobByReceipt s) = Some id;
  so_jobs_numbered : forall id, id ∈ keys (ds_jobs s) ->
    exists n, (n <= length (ds_jobs s))%nat /\ id = numbered "job-" n;
  so_receipt_jobs : forall id jobId, own id (ds_jobByReceipt s) = Some jobId ->
    exists j, own jobId (ds_jobs s) = Some j /\ jb_receiptId j = id;
}.

Lemma numbered_inj prefix n m : numbered prefix n = numbered prefix m -> n = m.
Proof. intros H%app_inv_head%digits_inj. lia. Qed.

Lemma length_keys {V} (o : obj V) : length (keys o) = length o.
Proof. apply length_fmap. Qed.

Lemma length_put {V} k (v : V) o :
  length (put k v o) = if has_own k o then length o else Datatypes.S (length o).
Proof.
  rewrite <- (length_keys (put k v o)), keys_put. destruct (has_own k o); rewrite ?length_app, length_keys; simpl; lia.
Qed.

Lemma numbered_fresh {V} prefix (o : obj V) :
  (forall id, id ∈ keys o -> exists n, (n <= length o)%nat /\ id = numbered prefix n) ->
  own (numbered prefix (Datatypes.S (length o))) o = None.
Proof.
  intros Hn. destruct (own _ o) eqn:E; [|done]. assert (Hin : is_Some (own (numbered prefix (Datatypes.S (length o))) o)) by eauto.
  apply own_is_Some, Hn in Hin as (n & Hle & He%numbered_inj). lia.
Qed.

Lemma numbered_update {V} prefix k (v : V) o :
  (forall id, id ∈ keys o -> exists n, (n <= length o)%nat /\ id = numbered prefix n) ->
  is_Some (own k o) \/ k = numbered prefix (Datatypes.S (length o)) ->
  forall id, id ∈ keys (put k v o) -> exists n, (n <= length (put k v o))%nat /\ id = numbered prefix n.
Proof.
  intros Hn Hk id Hid. rewrite length_put. apply elem_of_keys_put in Hid. destruct Hk as [Hk%own_is_Some| ->].
  - apply has_own_iff in Hk as Hh. rewrite Hh. destruct Hid as [-> |Hid]; by apply Hn.
  - replace (has_own _ o) with false by (symmetry; unfold has_own; by rewrite numbered_fresh).
    destruct Hid as [-> |(n & Hle & ->)%Hn]; [by exists (Datatypes.S (length o))|]. exists n. split; [lia|done].
Qed.

Lemma own_put_some {V} k k' (v : V) o w :
  own k' (put k v o) = Some w -> (k' = k /\ w = v) \/ (k' <> k /\ own k' o = Some w).
Proof. rewrite own_put. destruct (k' =?s k) eqn:E; to_prop; naive_solver. Qed.

Lemma own_put_is_some {V} k k' (v : V) o : is_Some (own k' o) -> is_Some (own k' (put k v o)).
Proof. rewrite own_put. destruct (k' =?s k); eauto. Qed.

Lemma store_ok_same s s' :
  ds_receipts s' = ds_receipts s -> ds_receiptByKey s' = ds_receiptByKey s -> ds_jobs s' = ds_jobs s ->
  ds_jobByReceipt s' = ds_jobByReceipt s -> store_ok s -> store_ok s'.
Proof. intros E1 E2 E3 E4 [? ? ? ? ? ?]. split; rewrite ?E1, ?E2, ?E3, ?E4; done. Qed.

(** A receipt keeps its identity when it changes state. *)
Record same_identity (old r : GovernedEffectReceipt) : Prop := {
  si_id : gr_receiptId r = gr_receiptId old;
  si_scope : gr_scopeId r = gr_scopeId old;
  si_key : gr_idempotencyKey r = gr_idempotencyKey old;
}.

Lemma update_receipt s id old r :
  store_ok s -> own id (ds_receipts s) = Some old -> same_identity old r -> dispatch_consistent r ->
  store_ok (set_receipt s r).
Proof.
  intros [H1 H2 H3 H4 H5 H6] Hold [Hi Hs Hk] Hc. destruct (H1 _ _ Hold) as (Hid & _ & Hkey).
  assert (Hr : gr_receiptId r = id) by congruence. split; simpl; rewrite ?Hr; auto.
  - intros id' r' [[-> ->]|[_ Hr']]%own_put_some; [|by apply H1]. rewrite Hs, Hk. done.
  - apply numbered_update; [done|left; eauto].
  - intros key id' Hk'. apply own_put_is_some. eauto.
  - intros id' j Hj. destruct (H4 _ _ Hj) as (? & ? & ? & ?). auto using own_put_is_some.
Qed.

Lemma update_job s id old j :
  store_ok s -> own id (ds_jobs s) = Some old -> jb_jobId j = jb_jobId old -> jb_receiptId j = jb_receiptId old ->
  job_ok j -> store_ok (set_job s id j).
Proof.
  intros [H1 H2 H3 H4 H5 H6] Hold Hid Hr Hj. destruct (H4 _ _ Hold) as (Hi & _ & Hrec & Hby).
  split; simpl; auto.
  - intros id' j' [[-> ->]|[_ Hj']]%own_put_some; [|by apply H4]. rewrite Hr. split_and!; [congruence|done..].
  - apply numbered_update; [done|left; eauto].
  - intros rid jobId Hjob. destruct (H6 _ _ Hjob) as (j' & Hj' & Hr'). rewrite own_put.
    destruct (jobId =?s id) eqn:E; to_prop; [|eauto]. subst. exists j. split; [done|]. congruence.
Qed.

(** A receipt is added under a key that has none. *)
Lemma add_receipt s key r :
  store_ok s -> own key (ds_receiptByKey s) = None ->
  gr_receiptId r = numbered "receipt-" (Datatypes.S (length (ds_receipts s))) ->
  key = scoped_key (gr_scopeId r) (gr_idempotencyKey r) -> dispatch_consistent r ->
  store_ok (set_key (set_receipt s r) key (gr_receiptId r)).
Proof.
  intros [H1 H2 H3 H4 H5 H6] Hnone Hid Hkey Hc. pose proof (numbered_fresh _ _ H2) as Hfresh. rewrite <- Hid in Hfresh.
  split; simpl; auto.
  - intros id' r' [[-> ->]|[Hne Hr']]%own_put_some.
    + split_and!; [done..|]. rewrite <- Hkey. apply own_put_eq.
    + destruct (H1 _ _ Hr') as (? & ? & Hown). split_and!; [done..|]. rewrite own_put_ne; [done|congruence].
  - apply numbered_update; [done|by right].
  - intros k id' [[-> ->]|[_ Hk]]%own_put_some; [rewrite own_put_eq; eauto|]. apply own_put_is_some. eauto.
  - intros id' j Hj. destruct (H4 _ _ Hj) as (? & ? & ? & ?). auto using own_put_is_some.
Qed.

(** A job is added for a receipt that has none. *)
Lemma add_job s j :
  store_ok s -> own (jb_receiptId j) (ds_jobByReceipt s) = None -> is_Some (own (jb_receiptId j) (ds_receipts s)) ->
  jb_jobId j = numbered "job-" (Datatypes.S (length (ds_jobs s))) -> job_ok j ->
  store_ok (set_receipt_job (set_job s (jb_jobId j) j) (jb_receiptId j) (jb_jobId j)).
Proof.
  intros [H1 H2 H3 H4 H5 H6] Hnone Hrec Hid Hj. pose proof (numbered_fresh _ _ H5) as Hfresh. rewrite <- Hid in Hfresh.
  split; simpl; auto.
  - intros id' j' [[-> ->]|[Hne Hj']]%own_put_some; [by rewrite own_put_eq|].
    destruct (H4 _ _ Hj') as (? & ? & ? & ?). split_and!; [done..|]. rewrite own_put_ne; [done|congruence].
  - apply numbered_update; [done|by right].
  - intros rid jobId [[-> ->]|[_ Hjob]]%own_put_some; [rewrite own_put_eq; eauto|].
    destruct (H6 _ _ Hjob) as (j' & Hj' & Hr'). exists j'. split; [|done].
    rewrite own_put_ne; [done|]. intros <-. congruence.
Qed.

Lemma receipt_key_truthy s key :
  store_ok s -> truthy (own key (ds_receiptByKey s)) = own key (ds_receiptByKey s).
Proof.
  intros Hok. destruct (own key _) as [id|] eqn:E; [|done].
  apply (so_keys _ Hok), own_is_Some, (so_numbered _ Hok) in E as (n & _ & ->). done.
Qed.

Lemma receipt_job_truthy s id :
  store_ok s -> truthy (own id (ds_jobByReceipt s)) = own id (ds_jobByReceipt s).
Proof.
  intros Hok. destruct (own id _) as [jobId|] eqn:E; [|done].
  apply (so_receipt_jobs _ Hok) in E as (j & Hj & _).
  assert (Hin : is_Some (own jobId (ds_jobs s))) by eauto.
  apply own_is_Some, (so_jobs_numbered _ Hok) in Hin as (n & _ & ->). done.
Qed.

(** ** Every operation keeps the invariant and the receipts *)

Record advances (s s' : DeterministicEffectStore) : Prop := {
  ad_ok : store_ok s';
  ad_receipts : forall id r, own id (ds_receipts s) = Some r ->
    exists r', own id (ds_receipts s') = Some r' /\ retains r r';
}.

Lemma advances_refl s : store_ok s -> advances s s.
Proof. intros Hok. split; [done|]. intros id r Hr. by exists r. Qed.

Lemma advances_trans s s' s'' : advances s s' -> advances s' s'' -> advances s s''.
Proof.
  intros [_ H1] [Hok H2]. split; [done|]. intros id r Hr. destruct (H1 _ _ Hr) as (r' & Hr' & Ht).
  destruct (H2 _ _ Hr') as (r'' & Hr'' & Ht'). exists r''. split; [done|]. by transitivity r'.
Qed.

(** The receipts are unchanged. *)
Lemma advances_same s s' : store_ok s' -> ds_receipts s' = ds_receipts s -> advances s s'.
Proof. intros Hok E. split; [done|]. intros id r Hr. rewrite E. by exists r. Qed.

Lemma advances_update s id old r :
  store_ok s -> own id (ds_receipts s) = Some old -> same_identity old r -> dispatch_consistent r -> retains old r ->
  advances s (set_receipt s r).
Proof.
  intros Hok Hold Hsame Hc Hret. split; [by eapply update_receipt|]. intros id' r' Hr'. simpl.
  destruct (so_receipts _ Hok _ _ Hold) as (Hid & _). rewrite (si_id _ _ Hsame), Hid, own_put.
  destruct (id' =?s id) eqn:E; to_prop; [|by exists r']. simplify_eq. by exists r.
Qed.

Lemma with_settlement_same r status result proof visible error now :
  same_identity r (with_settlement r status result proof visible error now).
Proof. done. Qed.
Lemma with_settlement_retains r status result proof visible error now :
  retains r (with_settlement r status result proof visible error now).
Proof. done. Qed.

(** A settlement of a stored receipt. *)
Lemma advances_settlement s id old status result proof visible error now :
  store_ok s -> own id (ds_receipts s) = Some old ->
  advances s (set_receipt s (with_settlement old status result proof visible error now)).
Proof.
  intros Hok Hold. destruct (so_receipts _ Hok _ _ Hold) as (_ & Hc & _).
  eapply advances_update; eauto using with_settlement_same, with_settlement_retains.
Qed.

Lemma reserveAllowed_advances input s : store_ok s -> advances s (reserveAllowed input s).2.
Proof.
  intros Hok. unfold reserveAllowed. destruct (negb _); [by apply advances_refl|].
  rewrite receipt_key_truthy by done. destruct (own _ (ds_receiptByKey s)) as [existing|] eqn:Ek.
  - destruct (mustReceipt s existing); [|by apply advances_refl]. destruct (_ || _); by apply advances_refl.
  - destruct (pd_effect _) as [effect|]; [|by apply advances_refl]. simpl.
    pose proof (numbered_fresh _ _ (so_numbered _ Hok)) as Hfresh.
    split; [apply add_receipt; try done; by split; [|left]|]. intros id r Hr. simpl. rewrite own_put_ne; [by exists r|].
    intros <-. congruence.
Qed.

Lemma advance_if_stale_same s :
  ds_receipts (advance_if_stale s) = ds_receipts s /\ (store_ok s -> store_ok (advance_if_stale s)).
Proof. unfold advance_if_stale. destruct (ds_boundaryStale s); [|done]. split; [done|]. by apply store_ok_same. Qed.

Lemma crossDispatchBoundary_advances id lease expected now s :
  store_ok s -> advances s (crossDispatchBoundary id lease expected now s).2.
Proof.
  intros Hok. unfold crossDispatchBoundary. destruct (mustReceipt s id) as [r|] eqn:Hr; [|by apply advances_refl].
  destruct (advance_if_stale_same s) as [Es Hok']. specialize (Hok' Hok). set (s1 := advance_if_stale s) in *.
  assert (Hs1 : advances s s1) by by apply advances_same.
  destruct (negb _); [done|]. destruct (date_le _ _); [done|]. destruct (truthy _) eqn:Et; [done|].
  eapply advances_trans; [done|]. unfold mustReceipt in Hr. rewrite <- Es in Hr.
  assert (Hu : advances s1 (set_receipt s1 (with_dispatch r now))).
  { destruct (so_receipts _ Hok' _ _ Hr) as (_ & [? _] & _). eapply advances_update; eauto; [done|split; [done|right; eauto]|]. split; try done. unfold marked. rewrite Et. by intros []. }
  eapply advances_trans; [done|]. apply advances_same; [|done]. eapply store_ok_same; [..|apply Hu]; done.
Qed.

Lemma settle_advances input s : store_ok s -> advances s (settle input s).2.
Proof.
  intros Hok. unfold settle. destruct (mustReceipt s _) as [r|] eqn:Hr; [|by apply advances_refl].
  destruct (is_settled _); [destruct (_ && _); by apply advances_refl|]. simpl. by eapply advances_settlement.
Qed.

Lemma ensure_advances input s : store_ok s -> advances s (ensureIndeterminateReconciliation input s).2.
Proof.
  intros Hok. unfold ensureIndeterminateReconciliation.
  destruct (mustReceipt s _) as [old|] eqn:Hr; [|by apply advances_refl].
  destruct (is_terminal _); [by apply advances_refl|].
  set (r := if bool_decide _ then old else _). set (s1 := if bool_decide _ then s else _).
  assert (Hs1 : advances s s1 /\ own (gr_receiptId r) (ds_receipts s1) = Some r).
  { unfold s1, r. destruct (so_receipts _ Hok _ _ Hr) as (Hid & _). case_bool_decide.
    - split; [by apply advances_refl|]. by rewrite Hid.
    - split; [by eapply advances_settlement|]. simpl. apply own_put_eq. }
  destruct Hs1 as [Hs1 Hr1]. rewrite receipt_job_truthy by apply Hs1.
  destruct (own _ (ds_jobByReceipt s1)) as [jobId|] eqn:Ej; [by destruct (mustJob s1 jobId)|].
  eapply advances_trans; [done|]. apply advances_same; [|done]. simpl.
  apply (add_job s1 (new_job _ (gr_receiptId r) input)); [apply Hs1|done|eauto|done|].
  split; simpl; [lia|by left|done].
Qed.

Lemma claim_advances jobId now expires s : store_ok s -> advances s (claimReconciliation jobId now expires s).2.
Proof.
  intros Hok. unfold claimReconciliation. destruct (mustJob s jobId) as [j|] eqn:Hj; [|by apply advances_refl].
  destruct (mustReceipt s _); [|by apply advances_refl]. destruct (so_jobs _ Hok _ _ Hj) as (_ & [? ? ?] & _).
  destruct (bool_decide (jb_status j = JCompleted)); [by apply advances_refl|].
  destruct (_ && _); [by apply advances_refl|]. destruct (_ <=? _) eqn:Hle; [by apply advances_refl|]. to_prop.
  apply advances_same; [|done]. simpl. eapply update_job; eauto; [done..|].
  split; simpl; [lia|lia|by intros c [= <-]].
Qed.

Lemma settleReconciliation_advances input s : store_ok s -> advances s (settleReconciliation input s).2.
Proof.
  intros Hok. unfold settleReconciliation. destruct (mustJob s _) as [j|] eqn:Hj; [|by apply advances_refl].
  destruct (mustReceipt s _) as [r|] eqn:Hr; [|by apply advances_refl].
  destruct (is_terminal _); [by apply advances_refl|]. destruct (negb _); [by apply advances_refl|]. simpl.
  destruct (so_jobs _ Hok _ _ Hj) as (Hid & [? ? ?] & _).
  match goal with |- context [set_receipt s ?q] => assert (Hs : advances s (set_receipt s q)) end.
  { by eapply advances_settlement. }
  eapply advances_trans; [done|]. apply advances_same; [|done]. apply (update_job _ _ j); [apply Hs|simpl; by rewrite Hid|done..].
Qed.

Lemma serve_advances c s : store_ok s -> advances s (serve c s).2.
Proof.
  intros Hok. unfold serve, deterministic_store. destruct c; auto using advances_refl, reserveAllowed_advances,
    crossDispatchBoundary_advances, settle_advances, ensure_advances, claim_advances, settleReconciliation_advances.
  apply advances_same; [|done]. by eapply store_ok_same; [..|exact Hok].
Qed.

(** Tests replace the authority and ask for a stale boundary. *)
Definition test_step (s s' : DeterministicEffectStore) : Prop :=
  exists authority stale, s' = set_authority s authority stale.

Lemma test_step_ok s s' : store_ok s -> test_step s s' -> store_ok s' /\ ds_receipts s' = ds_receipts s.
Proof. intros Hok (authority & stale & ->). split; [|done]. by eapply store_ok_same; [..|exact Hok]. Qed.

Lemma receipt_keys_unique s id id' r r' :
  store_ok s -> own id (ds_receipts s) = Some r -> own id' (ds_receipts s) = Some r' ->
  gr_scopeId r = gr_scopeId r' -> gr_idempotencyKey r = gr_idempotencyKey r' -> id = id'.
Proof.
  intros Hok Hr Hr' Hs Hk. destruct (so_receipts _ Hok _ _ Hr) as (_ & _ & H1).
  destruct (so_receipts _ Hok _ _ Hr') as (_ & _ & H2). congruence.
Qed.

Lemma crossing_starts id lease expected now s r :
  store_ok s -> (crossDispatchBoundary id lease expected now s).1 = Some (BdStarted r) ->
  own (gr_receiptId r) (ds_receipts (crossDispatchBoundary id lease expected now s).2) = Some r /\
  forall r0, own (gr_receiptId r) (ds_receipts s) = Some r0 -> ~ marked r0.
Proof.
  intros Hok. unfold crossDispatchBoundary. destruct (mustReceipt s id) as [r0|] eqn:Hr; [|done].
  destruct (negb _); [done|]. destruct (date_le _ _); [done|]. destruct (truthy _) eqn:Et; [done|].
  intros [= <-]. split; [simpl; apply own_put_eq|]. simpl. destruct (so_receipts _ Hok _ _ Hr) as (-> & _).
  unfold mustReceipt in Hr. rewrite Hr. intros ? [= <-]. unfold marked. rewrite Et. by intros [].
Qed.

(** The store keeps the contract. *)
#[export] Program Instance deterministic_store_laws : EffectStoreLaws DeterministicEffectStore := {
  good := store_ok;
  receipt_of s id := own id (ds_receipts s);
  environment := test_step;
}.
Next Obligation. intros s c Hok. apply (serve_advances c s Hok). Qed.
Next Obligation. intros s s' Hok He. by apply (test_step_ok s). Qed.
Next Obligation. intros s id r Hok Hr. apply (so_receipts _ Hok _ _ Hr). Qed.
Next Obligation. intros s id id' r r'. apply receipt_keys_unique. Qed.
Next Obligation. intros s c id r Hok Hr. by apply (ad_receipts _ _ (serve_advances c s Hok)). Qed.
Next Obligation. intros s s' id r Hok He Hr. exists r. by destruct (test_step_ok _ _ Hok He) as [_ ->]. Qed.
Next Obligation. intros s id lease expected now r. apply crossing_starts. Qed.

(** ** Sequences of calls *)

(** [served_by s l s']: the store answers the calls of [l] in turn, going from [s] to
    [s']; tests may intervene between them. *)
Inductive served_by : DeterministicEffectStore -> list {c : StoreCall & option (StoreAnswer c)} -> DeterministicEffectStore -> Prop :=
| served_none s : served_by s [] s
| served_call s c l s' : served_by (serve c s).2 l s' -> served_by s (existT c (serve c s).1 :: l) s'
| served_test s s1 l s' : test_step s s1 -> served_by s1 l s' -> served_by s l s'.

Lemma served_by_ok s l s' : served_by s l s' -> store_ok s -> store_ok s'.
Proof.
  induction 1 as [|s c l s' _ IH|s s1 l s' Ht _ IH]; [done| |]; intros Hok; apply IH.
  - apply (serve_advances c s Hok).
  - by destruct (test_step_ok s s1).
Qed.

Lemma served_by_app s l s' : served_by s l s' -> forall l' s'', served_by s' l' s'' -> served_by s (l ++ l') s''.
Proof. induction 1; intros l' s'' Hr; [done|constructor; eauto|econstructor; eauto]. Qed.

(** A call writes at most one receipt: a new one, one that is not settled finally, or one
    whose boundary had not been crossed. *)
Inductive receipt_change (o : obj GovernedEffectReceipt) : obj GovernedEffectReceipt -> Prop :=
| receipts_unchanged : receipt_change o o
| receipt_created q : own (gr_receiptId q) o = None -> receipt_change o (put (gr_receiptId q) q o)
| receipt_settled q0 q :
    own (gr_receiptId q) o = Some q0 -> is_terminal (gr_status q0) = false ->
    receipt_change o (put (gr_receiptId q) q o)
| receipt_crossed q0 q :
    own (gr_receiptId q) o = Some q0 -> ~ marked q0 -> receipt_change o (put (gr_receiptId q) q o).

Lemma settlement_change s id old status result proof visible error now :
  store_ok s -> own id (ds_receipts s) = Some old -> is_terminal (gr_status old) = false ->
  receipt_change (ds_receipts s)
    (ds_receipts (set_receipt s (with_settlement old status result proof visible error now))).
Proof.
  intros Hok Hold Ht. destruct (so_receipts _ Hok _ _ Hold) as (Hid & _). eapply receipt_settled; [|done].
  simpl. by rewrite Hid.
Qed.

Lemma reserveAllowed_change input s : store_ok s -> receipt_change (ds_receipts s) (ds_receipts (reserveAllowed input s).2).
Proof.
  intros Hok. unfold reserveAllowed. destruct (negb _); [constructor|]. destruct (truthy _) as [existing|].
  - destruct (mustReceipt s existing); [|constructor]. destruct (_ || _); constructor.
  - destruct (pd_effect _); [|constructor]. simpl. apply (receipt_created _ (reserved_receipt _ input _)).
    apply numbered_fresh, Hok.
Qed.

Lemma crossDispatchBoundary_change id lease expected now s :
  store_ok s -> receipt_change (ds_receipts s) (ds_receipts (crossDispatchBoundary id lease expected now s).2).
Proof.
  intros Hok. unfold crossDispatchBoundary. destruct (mustReceipt s id) as [q|] eqn:Hq; [|constructor].
  destruct (advance_if_stale_same s) as [Es _].
  destruct (negb _); [cbn [snd]; rewrite Es; constructor|]. destruct (date_le _ _); [cbn [snd]; rewrite Es; constructor|].
  destruct (truthy _) eqn:Et; [cbn [snd]; rewrite Es; constructor|]. simpl. rewrite Es.
  apply (receipt_crossed _ q (with_dispatch q now)); [|unfold marked; rewrite Et; by intros []].
  simpl. by destruct (so_receipts _ Hok _ _ Hq) as (-> & _).
Qed.

Lemma serve_change c s : store_ok s -> receipt_change (ds_receipts s) (ds_receipts (serve c s).2).
Proof.
  intros Hok. unfold serve, deterministic_store.
  destruct c; auto using reserveAllowed_change, crossDispatchBoundary_change; try constructor.
  - unfold settle. destruct (mustReceipt s _) as [q|] eqn:Hq; [|constructor].
    destruct (is_settled _) eqn:Hs; [destruct (_ && _); constructor|]. eapply settlement_change; eauto.
    by destruct (gr_status q).
  - unfold ensureIndeterminateReconciliation. destruct (mustReceipt s _) as [q|] eqn:Hq; [|constructor].
    destruct (is_terminal _) eqn:Ht; [constructor|]. case_bool_decide.
    + destruct (truthy _); [|constructor]. destruct (mustJob s _); constructor.
    + destruct (truthy _); [destruct (mustJob _ _)|]; by eapply settlement_change.
  - unfold claimReconciliation. destruct (mustJob s jobId); [|constructor]. destruct (mustReceipt s _); [|constructor].
    destruct (bool_decide _); [constructor|]. destruct (_ && _); [constructor|]. destruct (_ <=? _); constructor.
  - unfold settleReconciliation. destruct (mustJob s _); [|constructor].
    destruct (mustReceipt s _) as [q|] eqn:Hq; [|constructor].
    destruct (is_terminal _) eqn:Ht; [constructor|]. destruct (negb _); [constructor|]. by eapply settlement_change.
Qed.

(** ** Theorems *)

(** A dispatched effect that has been settled stays as it is settled: no sequence of calls,
    by any coordinators and with the authority replaced in between, changes its receipt. *)
Theorem settled_receipt_final s l s' id r :
  store_ok s -> served_by s l s' ->
  own id (ds_receipts s) = Some r -> is_terminal (gr_status r) = true -> marked r ->
  own id (ds_receipts s') = Some r.
Proof.
  intros Hok Hs Hr Ht Hm. induction Hs as [|s c l s' _ IH|s s1 l s' Hstep _ IH]; [done| |].
  - apply IH; [apply (serve_advances c s Hok)|]. destruct (serve_change c s Hok) as [|q Hq|q0 q Hq Hq0|q0 q Hq Hq0]; [done|..].
    all: rewrite own_put_ne; [done|]; intros He; rewrite He in Hq; simplify_eq; congruence.
  - destruct (test_step_ok s s1 Hok Hstep) as [Hok1 Heq]. apply IH; [done|]. by rewrite Heq.
Qed.

(** *** Claims *)

(** What later calls do to a job. *)
Record job_advances (j j' : ReconciliationJob) : Prop := {
  ja_max : jb_maxAttempts j' = jb_maxAttempts j;
  ja_attempt : jb_attempt j <= jb_attempt j';
  ja_claim : jb_attempt j' = jb_attempt j -> jb_activeClaim j' = jb_activeClaim j;
  ja_started : jb_status j <> JQueued -> jb_status j' <> JQueued;
}.

#[export] Instance job_advances_preorder : PreOrder job_advances.
Proof.
  split.
  - intros j. split; [done|lia|done|congruence].
  - intros j1 j2 j3 [Hm Ha Hc Hr] [Hm' Ha' Hc' Hr'].
    split; [congruence|lia| |auto]. intros He. rewrite Hc' by lia. apply Hc. lia.
Qed.

Lemma serve_jobs c s id j :
  store_ok s -> own id (ds_jobs s) = Some j ->
  exists j', own id (ds_jobs (serve c s).2) = Some j' /\ job_advances j j'.
Proof.
  intros Hok Hj. assert (Hsame : exists j', own id (ds_jobs s) = Some j' /\ job_advances j j') by by exists j.
  assert (Hput : forall k j0 q, own k (ds_jobs s) = Some j0 -> job_advances j0 q ->
            exists j', own id (put k q (ds_jobs s)) = Some j' /\ job_advances j j').
  { intros k j0 q Hk Ha. rewrite own_put. destruct (id =?s k) eqn:E; to_prop; [|done]. simplify_eq. by exists q. }
  unfold serve, deterministic_store. destruct c; try done.
  - unfold reserveAllowed. destruct (negb _); [done|]. destruct (truthy _); [|by destruct (pd_effect _)].
    destruct (mustReceipt s _); [|done]. by destruct (_ || _).
  - unfold crossDispatchBoundary. destruct (mustReceipt s _); [|done].
    assert (ds_jobs (advance_if_stale s) = ds_jobs s) as Es by (unfold advance_if_stale; by destruct (ds_boundaryStale s)).
    destruct (negb _); [by cbn [snd]; rewrite Es|]. destruct (date_le _ _); [by cbn [snd]; rewrite Es|].
    destruct (truthy _); simpl; by rewrite Es.
  - unfold settle. destruct (mustReceipt s _); [|done]. destruct (is_settled _); [|done]. by destruct (_ && _).
  - unfold ensureIndeterminateReconciliation. destruct (mustReceipt s _) as [q|] eqn:Hq; [|done].
    destruct (is_terminal _); [done|]. set (s1 := if bool_decide _ then s else _).
    assert (ds_jobs s1 = ds_jobs s) as Es by (unfold s1; by destruct (bool_decide _)).
    destruct (truthy _); [destruct (mustJob _ _); cbn [snd]; by rewrite Es|]. simpl. rewrite Es.
    rewrite own_put_ne; [done|]. intros <-. by rewrite numbered_fresh in Hj by apply Hok.
  - unfold claimReconciliation. destruct (mustJob s _) as [j0|] eqn:Hj0; [|done]. destruct (mustReceipt s _); [|done].
    destruct (bool_decide _); [done|]. destruct (_ && _); [done|]. destruct (_ <=? _); [done|].
    eapply Hput; [done|]. split; simpl; [done|lia|lia|done].
  - unfold settleReconciliation. destruct (mustJob s _) as [j0|] eqn:Hj0; [|done]. destruct (mustReceipt s _); [|done].
    destruct (is_terminal _); [done|]. destruct (negb _); [done|].
    destruct (so_jobs _ Hok _ _ Hj0) as (Hid & _). eapply Hput; [by rewrite Hid|]. split; simpl; [done|lia|done|done].
Qed.

Lemma served_by_jobs s l s' id j :
  served_by s l s' -> store_ok s -> own id (ds_jobs s) = Some j ->
  exists j', own id (ds_jobs s') = Some j' /\ job_advances j j'.
Proof.
  intros Hs. revert j. induction Hs as [s|s c l s' _ IH|s s1 l s' Hstep _ IH]; intros j Hok Hj; [by exists j| |].
  - destruct (serve_jobs c s id j Hok Hj) as (j1 & Hj1 & Ha). apply (serve_advances c) in Hok as [Hok _].
    destruct (IH _ Hok Hj1) as (j2 & Hj2 & Ha'). exists j2. split; [done|]. by transitivity j1.
  - destruct (test_step_ok s s1 Hok Hstep) as [Hok1 _]. apply IH; [done|]. by destruct Hstep as (authority & stale & ->).
Qed.

(** What a granted claim says of the job. *)
Record claim_taken (s : DeterministicEffectStore) (jobId now expires : jstr) (job : ReconciliationJob)
    (c : ReconciliationClaimLease) (j : ReconciliationJob) : Prop := {
  ct_job : own jobId (ds_jobs s) = Some j;
  ct_open : jb_status j <> JCompleted;
  ct_free : forall c0, jb_status j = JRunning -> jb_activeClaim j = Some c0 -> date_lt now (cm_expiresAt c0) = false;
  ct_bounded : jb_attempt j < jb_maxAttempts j;
  ct_ordinal : cm_ordinal c = jb_attempt j + 1 /\ cm_expiresAt c = expires;
  ct_claimed : job = with_claim j (jb_attempt j + 1) (Some c) JRunning;
  ct_stored : own jobId (ds_jobs (claimReconciliation jobId now expires s).2) = Some job;
}.

Lemma claim_granted s jobId now expires job c :
  (claimReconciliation jobId now expires s).1 = Some (ClClaimed job c) ->
  exists j, claim_taken s jobId now expires job c j.
Proof.
  intros Hc. destruct (mustJob s jobId) as [j|] eqn:Hj; [|unfold claimReconciliation in Hc; by rewrite Hj in Hc].
  exists j. unfold claimReconciliation in Hc |- *. rewrite Hj in Hc. destruct (mustReceipt s _) eqn:Hr; [|done].
  destruct (bool_decide (jb_status j = JCompleted)) eqn:Ecomplete; [done|].
  destruct (bool_decide (jb_status j = JRunning) && _) eqn:Eheld; [done|].
  destruct (_ <=? _) eqn:Hle; [done|]. simpl in Hc. simplify_eq. to_prop. split; try done; simpl.
  - intros c0 Hrun Hc0. rewrite Hc0 in Eheld. by rewrite bool_decide_eq_true_2 in Eheld.
  - unfold claimReconciliation. rewrite Hj, Hr. rewrite bool_decide_eq_false_2 by done. rewrite Eheld.
    replace (_ <=? _) with false by (symmetry; by apply Z.leb_gt). simpl. apply own_put_eq.
Qed.

(** Reconciliation claims are exclusive and bounded: whatever happens between two claims
    granted on a job, the later one has a greater ordinal, within the job's maximum; when it
    is the next one, the earlier lease had expired; and from then on a settlement under the
    earlier claim is refused. *)
Theorem reconciliation_claims_exclusive s s1 l s2 s3 jobId now1 expires1 job1 c1 now2 expires2 job2 c2 :
  store_ok s ->
  serve (ClaimReconciliation jobId now1 expires1) s = (Some (ClClaimed job1 c1), s1) ->
  served_by s1 l s2 ->
  serve (ClaimReconciliation jobId now2 expires2) s2 = (Some (ClClaimed job2 c2), s3) ->
  (cm_ordinal c1 < cm_ordinal c2 <= jb_maxAttempts job2 /\ jb_maxAttempts job2 = jb_maxAttempts job1) /\
  (cm_ordinal c2 = cm_ordinal c1 + 1 -> date_lt now2 expires1 = false) /\
  forall input, sr_jobId input = jobId -> sr_claimOrdinal input = cm_ordinal c1 ->
  forall job r s4, serve (SettleReconciliation input) s3 <> (Some (SdSettled, job, r), s4).
Proof.
  unfold serve, deterministic_store. intros Hok H1 Hl H2.
  destruct (claim_granted s jobId now1 expires1 job1 c1) as [j1 [Hj1 _ _ Hb1 [Ho1 He1] -> Hs1]]; [by rewrite H1|].
  destruct (claim_granted s2 jobId now2 expires2 job2 c2) as [j2 [Hj2 Hopen Hfree Hb2 [Ho2 He2] -> Hs3]]; [by rewrite H2|].
  rewrite H1 in Hs1. rewrite H2 in Hs3. simpl in Hs1, Hs3.
  assert (Hok1 : store_ok s1) by (pose proof (claim_advances jobId now1 expires1 s Hok) as [Hok1 _]; by rewrite H1 in Hok1).
  destruct (served_by_jobs _ _ _ _ _ Hl Hok1 Hs1) as (j & Hj & [Hm Ha Hc Hst]). rewrite Hj2 in Hj. simplify_eq/=.
  split_and!; [lia|lia|done| |].
  - intros Hnext. apply Hfree; [|apply Hc; lia].
    destruct (jb_status j) eqn:Es; [by destruct Hst|done|done].
  - intros input <- Hord job r s4. unfold settleReconciliation, mustJob. rewrite Hs3. simpl.
    destruct (mustReceipt s3 _); [|done]. destruct (is_terminal _); [done|]. unfold holds_claim. simpl.
    replace (cm_ordinal c2 =? _) with false by (symmetry; apply Z.eqb_neq; lia). by rewrite andb_false_r.
Qed.

End Operations.

End DeterministicStore.
