(* ===== verification/GovernedReplay.v ===== *)
(** * Replaying a governed execution

    One execution at a time against the deterministic store: what a proposal does whose
    idempotency key is already reserved. *)

From S2P Require Import Prelude JsValue JsText Canonical JsDate Graph Flow FlowValidate FlowRuntime ActionPolicy ActionPolicyProps Governed GovernedSystem GovernedTrace DeterministicStore.
Import ActionPolicy Governed GovernedSystem GovernedTrace DeterministicStore.

Local Open Scope Z_scope.

Module GovernedReplay.

(** ** One execution at a time *)

Definition oracle : Type := forall c : Call, option (Answer c).

Definition dispatch_input (c : Call) : list AdapterInput := match c with Dispatch _ i => [i] | _ => [] end.

Section Drive.
Context {S : Type} `{ES : !EffectStore S} (o : oracle).

(** Store calls are answered by the store, the others by the oracle. *)
Definition answer (c : Call) (s : S) : option (Answer c) * S :=
  match c with
  | Store c => serve c s
  | Dispatch action input => (o (Dispatch action input), s)
  | Reconcile action input => (o (Reconcile action input), s)
  | Now => (o Now, s)
  end.

(** The result ([None] when it throws), the final state and the inputs dispatched. *)
Fixpoint drive {A} (p : prog A) (s : S) : option A * S * list AdapterInput :=
  match p with
  | Return a => (Some a, s, [])
  | Throw => (None, s, [])
  | Await c k =>
      let (r, s') := answer c s in
      let '(result, s'', dispatched) := drive (k r) s' in
      (result, s'', dispatch_input c ++ dispatched)
  end.
End Drive.

(** ** Replay *)

Section Replay.
Context `{HS : Sha256} (date_parse : jstr -> option Z) (o : oracle) (this : Coordinator).
#[local] Existing Instance deterministic_store.

Lemma stored_receipt_checked s id r proposal decision A (k : prog A) :
  store_ok s -> own id (ds_receipts s) = Some r -> receipt_bound r proposal decision = true ->
  assertReceiptBoundToDecision r proposal decision k = k.
Proof.
  intros Hok Hr Hb. destruct (so_receipts _ Hok _ _ Hr) as (Hid & [Hinv Hd] & _).
  assert (Hin : is_Some (own id (ds_receipts s))) by eauto.
  apply own_is_Some, (so_numbered _ Hok) in Hin as (n & _ & ->).
  unfold assertReceiptBoundToDecision, receipt_valid, receipt_consistent. rewrite Hb, Hid.
  rewrite (proj2 (str_eqb_neq _ _) Hinv). destruct Hd as [[-> ->]|[-> [t ->]]]; done.
Qed.

(** An execution whose key is already reserved. *)
Record replayed (s : DeterministicEffectStore) (input : GovernedEffectProposal) (arguments : obj jsval) (now : jstr)
    (nowMs : Z) (decision : PreDispatchDecision) (id : jstr) (r : GovernedEffectReceipt) : Prop := {
  rp_identity : valid_identity input = true;
  rp_arguments : detach (gp_arguments input) = Some arguments;
  rp_now : o Now = Some now /\ canonical_ms now = Some nowMs;
  rp_authority : ea_binding (ds_currentAuthority s) = gp_expectedAuthority input;
  rp_decision : evaluatePreDispatch (pre_input (ds_currentAuthority s) (with_arguments input arguments) now) = Ok decision
                /\ pd_decision decision = Allow;
  rp_adapter : is_Some (own (gp_action input) (co_adapters this));
  rp_range : is_Some (date_text (nowMs + co_leaseTtlMs this));
  rp_key : own (scoped_key (gp_subjectId input) (gp_idempotencyKey input)) (ds_receiptByKey s) = Some id;
  rp_receipt : own id (ds_receipts s) = Some r;
}.

Lemma decision_bindings input d :
  evaluatePreDispatch input = Ok d ->
  decision_binding d = {| ab_stateHeadSha256 := in_state_head_sha256 input;
                          ab_stateRevision := in_state_revision input; ab_capabilityEpoch := in_capability_epoch input |}.
Proof.
  intros (nowMs & base & _ & Hd)%evaluatePreDispatch_Ok.
  assert (exists dec reason challenge evidence, finishDecision input base dec reason challenge evidence = Ok d)
    as (dec & reason & challenge & evidence & (_ & _ & _ & _ & _ & H1 & H2 & H3 & _)%finishDecision_Ok).
  { destruct (findItem _ _); [by eapply decide_action_finish|eauto 10]. }
  unfold decision_binding. by rewrite H1, H2, H3.
Qed.

Lemma sameAuthority_refl a : sameAuthority a a = true.
Proof. unfold sameAuthority. by rewrite str_eqb_refl, !Z.eqb_refl. Qed.

(** A reservation under a key that has a receipt. *)
Lemma reserve_existing s input id r :
  store_ok s -> decision_binding (ri_decision input) = ea_binding (ds_currentAuthority s) ->
  own (scoped_key (gp_subjectId (ri_proposal input)) (gp_idempotencyKey (ri_proposal input))) (ds_receiptByKey s) = Some id ->
  own id (ds_receipts s) = Some r ->
  reserveAllowed input s =
    (Some (if negb (gr_action r =?s gp_action (ri_proposal input)) ||
              negb (gr_argumentsSha256 r =?s pd_arguments_sha256 (ri_decision input)) ||
              negb (gr_proposalDigest r =?s pd_proposal_digest (ri_decision input))
           then RvIdempotencyConflict (gr_argumentsSha256 r)
           else if is_terminal (gr_status r) then RvTerminalReplay r else RvInFlightReplay r), s).
Proof.
  intros Hok Hb Hkey Hr. unfold reserveAllowed. rewrite Hb, sameAuthority_refl, receipt_key_truthy, Hkey by done. simpl.
  unfold mustReceipt. rewrite Hr. by destruct (_ || _).
Qed.

(** Replay is safe: when the subject's key already has a receipt, executing a proposal
    dispatches nothing and leaves the store as it is; it reports a conflict when the receipt is
    for another action, other arguments or another proposal, and otherwise, once the effect is
    settled, returns what was recorded. *)
Theorem replay_is_idempotent s input arguments now nowMs decision id r :
  store_ok s -> replayed s input arguments now nowMs decision id r ->
  let proposal := with_arguments input arguments in
  let run := drive (ES := deterministic_store date_parse) o (execute this input) s in
  (~ (gr_action r = gp_action input /\ gr_argumentsSha256 r = pd_arguments_sha256 decision /\
      gr_proposalDigest r = pd_proposal_digest decision) ->
   run = (Some (XIdempotencyConflict (gr_argumentsSha256 r)), s, [])) /\
  (receipt_bound r proposal decision = true -> is_terminal (gr_status r) = true ->
   run = (Some (replayResult r), s, [])).
Proof.
  intros Hok [Hid Hargs [Ho Hnow] Hauth [Hpre Hallow] [adapter Ha] [expires Hx] Hkey Hr]. simpl.
  unfold execute. rewrite Hid, Hargs. simpl. rewrite Ho. simpl. rewrite Hnow. simpl.
  unfold authorityBinding. rewrite Hauth, sameAuthority_refl, Hpre, Hallow, Ha, Hx. simpl.
  unfold serve, deterministic_store.
  rewrite (reserve_existing s _ id r Hok); [|simpl; rewrite (decision_bindings _ _ Hpre); simpl; by destruct (ea_binding _)|done..].
  simpl. split.
  - intros Hdiff. destruct (_ || _) eqn:E; [done|]. to_prop. by destruct Hdiff.
  - intros Hb Ht. rewrite Ht. pose proof Hb as Hb'. unfold receipt_bound in Hb'. to_prop. simpl in *.
    repeat match goal with H : ?a = ?b |- context [?a =?s ?b] => rewrite (proj2 (str_eqb_eq a b) H) end.
    simpl. by rewrite (stored_receipt_checked s id).
Qed.

End Replay.

End GovernedReplay.
