(* ===== verification/GovernedDemo.v ===== *)
(** * Governed executions run against the deterministic store

    [fire] schedules several executions of the stress policy's write action; the witnesses of
    the theorems on the governed effect runtime are such runs. *)

From S2P Require Import Prelude JsValue JsText Canonical JsDate Graph Flow FlowValidate FlowRuntime ActionPolicy ActionPolicyProps Governed GovernedSystem GovernedTrace DeterministicStore GovernedReplay.
Import ActionPolicy Governed GovernedSystem GovernedTrace DeterministicStore GovernedReplay.

Local Open Scope Z_scope.

Module GovernedDemo.

(** ** The stress action *)

#[local] Existing Instance demo_sha256.

Definition demo_store := deterministic_store canonical_ms.
Definition demo_laws := deterministic_store_laws canonical_ms.
#[local] Existing Instance demo_store.
#[local] Existing Instance demo_laws.

Definition demo_time : jstr := js "2026-08-02T18:30:00.000Z".
Definition demo_adapters : list GovernedEffectAdapter :=
  [{| ad_action := js "stress.write"; ad_reconciliationEffect := EffectRead |}].
Definition demo_coordinator : Coordinator :=
  {| co_adapters := [(js "stress.write", {| ad_action := js "stress.write"; ad_reconciliationEffect := EffectRead |})];
     co_leaseTtlMs := 15000; co_reconciliationClaimTtlMs := 30000; co_maxReconciliationClaims := 3 |}.

Definition demo_proposal (value : string) : GovernedEffectProposal :=
  {| gp_subjectId := STRESS_SUBJECT; gp_action := js "stress.write";
     gp_arguments := [(js "value", jtext value)]; gp_idempotencyKey := js "key-1";
     gp_expectedAuthority := STRESS_BINDING; gp_confirmation := None |}.

Definition applied : obj jsval := [(js "status", jtext "applied"); (js "effect_id", jtext "effect-1"); (js "secret", jtext "x")].

Definition demo_oracle (outcome : option EffectDispatchOutcome) : oracle :=
  fun c => match c with
           | Dispatch _ _ => outcome
           | Reconcile _ _ => Some (RoCommitted (replicate 64 102%N) applied)
           | Now => Some demo_time
           | Store _ => None
           end.

Definition demo_run (outcome : option EffectDispatchOutcome) (value : string) (s : DeterministicEffectStore) :=
  drive (demo_oracle outcome) (execute demo_coordinator (demo_proposal value)) s.

Definition describe (r : option GovernedEffectExecutionResult) : string :=
  match r with
  | None => "threw"
  | Some (XDenied _) => "denied"
  | Some (XConfirmationRequired _) => "confirmation_required"
  | Some (XStaleAuthority _ _) => "stale_authority"
  | Some (XIdempotencyConflict _) => "idempotency_conflict"
  | Some (XPreDispatchFailed _) => "pre_dispatch_failed"
  | Some (XInFlight _) => "in_flight"
  | Some (XSucceeded _ _) => "succeeded"
  | Some (XFailed _) => "failed"
  | Some (XIndeterminate _ _) => "indeterminate"
  end.

Definition first_run := demo_run (Some (DoCompleted applied)) "1" new_store.

(** A success and its replay, a conflict, an exception and its reconciliation. *)
Example demo_runs :
  let '(r1, s1, d1) := first_run in
  let '(r2, s2, d2) := demo_run (Some (DoCompleted applied)) "1" s1 in
  let '(r3, s3, d3) := demo_run (Some (DoCompleted applied)) "2" s2 in
  (describe r1, length d1, describe r2, length d2, describe r3, length d3) =
    ("succeeded", 1%nat, "succeeded", 0%nat, "idempotency_conflict", 0%nat) /\
  let '(r4, s4, d4) := demo_run None "1" new_store in
  let '(r5, s5, d5) := drive (demo_oracle None) (runReconciliation demo_coordinator (numbered "job-" 1)) s4 in
  let '(r6, s6, d6) := demo_run None "1" s5 in
  (describe r4, length d4, rr_disposition <$> r5, describe r6, length d6) =
    ("indeterminate", 1%nat, Some RrCommitted, "succeeded", 0%nat).
Proof. vm_compute. split; reflexivity. Qed.

(** ** Schedules *)

Inductive choice : Type :=
| StartExecution (proposal : GovernedEffectProposal)
| StartReconciliation (jobId : jstr)
| Serve (i : nat) (o : oracle)
| Crash (i : nat).

Definition demo_system : Type := system (S := DeterministicEffectStore).

Definition spawn (sy : demo_system) (t : thread) : demo_system :=
  {| sy_store := sy_store sy; sy_threads := sy_threads sy ++ [t]; sy_served := sy_served sy; sy_log := sy_log sy |}.

(** The call that a thread awaits is answered, by the store or by the oracle. *)
Definition resumed (sy : demo_system) (i : nat) (t : thread) (o : oracle) : option demo_system :=
  let next c (r : option (Answer c)) s t' := Some
    {| sy_store := s; sy_threads := <[i := t']> (sy_threads sy); sy_served := sy_served sy ++ learns c r;
       sy_log := sy_log sy ++ match c with
         | Dispatch action input => [{| dp_thread := t; dp_action := action; dp_input := input |}] | _ => [] end |} in
  match t with
  | Executing proposal (Await c k) =>
      let (r, s) := answer o c (sy_store sy) in next c r s (Executing proposal (k r))
  | Reconciling jobId (Await c k) =>
      let (r, s) := answer o c (sy_store sy) in next c r s (Reconciling jobId (k r))
  | _ => None
  end.

Definition fire (sy : demo_system) (ch : choice) : option demo_system :=
  match ch with
  | StartExecution proposal => Some (spawn sy (Executing proposal (execute demo_coordinator proposal)))
  | StartReconciliation jobId => Some (spawn sy (Reconciling jobId (runReconciliation demo_coordinator jobId)))
  | Serve i o => match sy_threads sy !! i with Some t => resumed sy i t o | None => None end
  | Crash i => Some {| sy_store := sy_store sy; sy_threads := delete i (sy_threads sy); sy_served := sy_served sy;
                       sy_log := sy_log sy |}
  end.

Fixpoint schedule (sy : demo_system) (l : list choice) : option demo_system :=
  match l with
  | [] => Some sy
  | ch :: l => match fire sy ch with Some sy' => schedule sy' l | None => None end
  end.

Lemma demo_constructed : construct demo_adapters None None None = Ok demo_coordinator.
Proof. reflexivity. Qed.

Lemma resumed_step sy i t c (o : oracle) t' :
  sy_threads sy !! i = Some t -> awaits t c (answer o c (sy_store sy)).1 t' ->
  step sy {| sy_store := (answer o c (sy_store sy)).2; sy_threads := <[i := t']> (sy_threads sy);
             sy_served := sy_served sy ++ learns c (answer o c (sy_store sy)).1;
             sy_log := sy_log sy ++ match c with
               | Dispatch action input => [{| dp_thread := t; dp_action := action; dp_input := input |}] | _ => [] end |}.
Proof.
  intros Hi Haw. destruct c as [c|action input|action input|]; simpl in *; rewrite ?app_nil_r.
  - eapply step_store; eauto.
  - eapply step_dispatch; eauto.
  - eapply step_reconcile; eauto.
  - eapply step_now; eauto.
Qed.

Lemma fire_step sy ch sy' : fire sy ch = Some sy' -> step sy sy'.
Proof.
  destruct ch as [proposal|jobId|i o|i]; simpl.
  - intros [= <-]. eapply step_execute, demo_constructed.
  - intros [= <-]. eapply step_run, demo_constructed.
  - destruct (sy_threads sy !! i) as [t|] eqn:Hi; [|done]. unfold resumed.
    destruct t as [proposal [| |c k]|jobId [| |c k]]; try done.
    + destruct (answer o c (sy_store sy)) as [r s] eqn:Ha. intros [= <-].
      pose proof (resumed_step sy i _ c o (Executing proposal (k r)) Hi) as H. rewrite Ha in H. apply H. constructor.
    + destruct (answer o c (sy_store sy)) as [r s] eqn:Ha. intros [= <-].
      pose proof (resumed_step sy i _ c o (Reconciling jobId (k r)) Hi) as H. rewrite Ha in H. apply H. constructor.
  - intros [= <-]. apply step_crash.
Qed.

Lemma schedule_reaches l sy sy' : schedule sy l = Some sy' -> rtc step sy sy'.
Proof.
  revert sy. induction l as [|ch l IH]; simpl; intros sy H; [by simplify_eq|].
  destruct (fire sy ch) as [sy1|] eqn:E; [|done]. eapply rtc_l; eauto using fire_step.
Qed.

Lemma new_store_ok : store_ok new_store.
Proof. split; simpl; try done; intros ? []%elem_of_nil. Qed.

(** Two executions of one proposal race to the boundary; the loser replays, and a third is
    abandoned after its reservation. *)
Definition race : list choice :=
  let o := demo_oracle (Some (DoCompleted applied)) in
  [StartExecution (demo_proposal "1"); StartExecution (demo_proposal "1"); StartExecution (demo_proposal "1");
   Serve 0 o; Serve 1 o; Serve 0 o; Serve 1 o; Serve 2 o; Serve 1 o; Serve 0 o; Serve 1 o; Serve 1 o;
   Crash 2; Serve 1 o; Serve 1 o; Serve 1 o; Serve 1 o].

Lemma computed {A} (f : A -> bool) (o : option A) :
  match o with Some a => f a | None => false end = true -> exists a, o = Some a /\ f a = true.
Proof. destruct o as [a|]; [|done]. intros Hf. by exists a. Qed.

Lemma race_log : exists sy, schedule (start new_store) race = Some sy /\ (length (sy_log sy) =? 1)%nat = true.
Proof. apply computed. vm_compute. reflexivity. Qed.

Lemma one_entry {A} (l : list A) : (length l =? 1)%nat = true -> exists d, l = [d].
Proof. destruct l as [|d [|]]; [done|by exists d|done]. Qed.

Lemma race_reached : exists sy d, reachable new_store sy /\ sy_log sy = [d].
Proof.
  destruct race_log as (sy & Hs & Hl). apply schedule_reaches in Hs. apply one_entry in Hl as [d Hd].
  exists sy, d. split; [split; [apply new_store_ok|exact Hs]|exact Hd].
Qed.

Lemma effect_dispatched_at_most_once_witness :
  exists sy d, reachable new_store sy /\ sy_log sy !! 0%nat = Some d /\
  forall j d', sy_log sy !! j = Some d' -> ai_receiptId (dp_input d') = ai_receiptId (dp_input d) -> j = 0%nat.
Proof.
  destruct race_reached as (sy & d & Hr & Hl). exists sy, d. rewrite Hl. split; [exact Hr|]. split; [reflexivity|].
  intros j d' Hj He. apply (effect_dispatched_at_most_once new_store sy j 0 d' d Hr); rewrite ?Hl; [exact Hj|reflexivity|by left].
Defined.

Lemma dispatch_authorised_witness :
  exists sy d, reachable new_store sy /\ d ∈ sy_log sy /\
  exists proposal p, dp_thread d = Executing proposal p /\
  exists authority now decision receipt, authorised sy d proposal authority now decision receipt.
Proof.
  destruct race_reached as (sy & d & Hr & Hl). assert (Hd : d ∈ sy_log sy) by (rewrite Hl; apply list_elem_of_here).
  exists sy, d. split; [exact Hr|]. split; [exact Hd|]. apply (dispatch_authorised new_store sy d Hr Hd).
Defined.

(** ** Histories of runs *)

Section Histories.
Context (o : oracle) (stop : Call -> bool).

(** The calls made before the first that satisfies [stop], and what is left. *)
Fixpoint history {A} (p : prog A) (s : DeterministicEffectStore) : list event * prog A :=
  match p with
  | Await c k =>
      if stop c then ([], Await c k)
      else let (r, s') := answer o c s in
           let '(h, q) := history (k r) s' in (called c r :: h, q)
  | p => ([], p)
  end.

Lemma history_runs {A} (p : prog A) s : runs p (history p s).1 (history p s).2.
Proof.
  revert s. induction p as [a| |c k IH]; intros s; simpl; [constructor..|].
  destruct (stop c); [constructor|]. destruct (answer o c s) as [r s'] eqn:Ha.
  destruct (history (k r) s') as [h q] eqn:E. constructor. specialize (IH r s'). by rewrite E in IH.
Qed.
End Histories.

Definition is_settle (c : Call) : bool := match c with Store (Settle _) => true | _ => false end.
Definition never (c : Call) : bool := false.

Definition demo_history (stop : Call -> bool) :=
  history (demo_oracle (Some (DoCompleted applied))) stop (execute demo_coordinator (demo_proposal "1")) new_store.

(** The history has a dispatch and stops where it is asked to. *)
Definition dispatched_then (ok : prog GovernedEffectExecutionResult -> bool)
    (h : list event * prog GovernedEffectExecutionResult) : bool :=
  (length (outcomes h.1) =? 1)%nat && (length (crossings h.1) =? 1)%nat && ok h.2.

Definition at_settle (p : prog GovernedEffectExecutionResult) : bool :=
  match p with Await (Store (Settle _)) _ => true | _ => false end.
Definition at_return (p : prog GovernedEffectExecutionResult) : bool :=
  match p with Return _ => true | _ => false end.

Lemma at_settle_true p : at_settle p = true -> exists i k, p = Await (Store (Settle i)) k.
Proof. destruct p as [| |[[]| | |] k]; try done. intros _. by eexists _, _. Qed.
Lemma at_return_true p : at_return p = true -> exists res, p = Return res.
Proof. destruct p; try done. intros _. by eexists. Qed.

Lemma demo_settles : exists h i k,
  runs (execute demo_coordinator (demo_proposal "1")) h (Await (Store (Settle i)) k) /\ length (crossings h) = 1%nat.
Proof.
  assert (Hr : runs (execute demo_coordinator (demo_proposal "1")) (demo_history is_settle).1 (demo_history is_settle).2)
    by exact (history_runs _ _ _ _).
  assert (Hd : dispatched_then at_settle (demo_history is_settle) = true) by (vm_compute; reflexivity).
  destruct (demo_history is_settle) as [h q].
  unfold dispatched_then in Hd. apply andb_true_iff in Hd as [[_ Hc%Nat.eqb_eq]%andb_true_iff Hq].
  apply at_settle_true in Hq as (i & k & Hq). simpl in *. subst q. by exists h, i, k.
Qed.

Lemma demo_returns : exists h res,
  runs (execute demo_coordinator (demo_proposal "1")) h (Return res) /\ length (outcomes h) = 1%nat.
Proof.
  assert (Hr : runs (execute demo_coordinator (demo_proposal "1")) (demo_history never).1 (demo_history never).2)
    by exact (history_runs _ _ _ _).
  assert (Hd : dispatched_then at_return (demo_history never) = true) by (vm_compute; reflexivity).
  destruct (demo_history never) as [h q].
  unfold dispatched_then in Hd. apply andb_true_iff in Hd as [[Ho%Nat.eqb_eq _]%andb_true_iff Hq].
  apply at_return_true in Hq as (res & Hq). simpl in *. subst q. by exists h, res.
Qed.

Lemma execute_bounded_witness : exists h res,
  runs (execute demo_coordinator (demo_proposal "1")) h (Return res) /\ length (outcomes h) = 1%nat /\ (length h <= 13)%nat.
Proof.
  destruct demo_returns as (h & res & Hr & Ho). exists h, res. split; [exact Hr|]. split; [exact Ho|].
  apply (execute_bounded demo_coordinator demo_adapters None None None (demo_proposal "1") h (Return res) demo_constructed Hr).
Defined.

(** The reconciliation of an effect whose dispatch threw, up to its settlement as committed. *)
Definition is_reconciled (c : Call) : bool := match c with Store (SettleReconciliation _) => true | _ => false end.
Definition reconcile_history :=
  history (demo_oracle None) is_reconciled (runReconciliation demo_coordinator (numbered "job-" 1))
    (demo_run None "1" new_store).1.2.
Definition at_committed (p : prog ReconciliationRunResult) : bool :=
  match p with Await (Store (SettleReconciliation i)) _ => bool_decide (sr_disposition i = RdCommitted) | _ => false end.

Lemma demo_reconciles : exists h i k,
  runs (runReconciliation demo_coordinator (numbered "job-" 1)) h (Await (Store (SettleReconciliation i)) k) /\
  sr_disposition i = RdCommitted.
Proof.
  assert (Hr : runs (runReconciliation demo_coordinator (numbered "job-" 1)) reconcile_history.1 reconcile_history.2)
    by exact (history_runs _ _ _ _).
  assert (Hd : at_committed reconcile_history.2 = true) by (vm_compute; reflexivity).
  destruct reconcile_history as [h q]. simpl in *. destruct q as [| |[[| | | | | | |i]| | |] k]; try discriminate Hd.
  apply bool_decide_eq_true_1 in Hd. by exists h, i, k.
Qed.

Lemma settled_on_evidence_witness :
  (exists h i, length (crossings h) = 1%nat /\ settle_grounds h STRESS_SUBJECT i) /\
  (exists h i, sr_disposition i = RdCommitted /\ reconciliation_grounds demo_coordinator h (numbered "job-" 1) i).
Proof.
  split.
  - destruct demo_settles as (h & i & k & Hr & Hc). exists h, i. split; [exact Hc|].
    apply (proj1 (settled_on_evidence demo_coordinator) (demo_proposal "1") h i k Hr).
  - destruct demo_reconciles as (h & i & k & Hr & Hd). exists h, i. split; [exact Hd|].
    exact (proj2 (settled_on_evidence demo_coordinator) _ h _ k Hr).
Defined.

Lemma result_on_record_witness : exists h res, length (outcomes h) = 1%nat /\ result_ok h res.
Proof.
  destruct demo_returns as (h & res & Hr & Ho). exists h, res. split; [exact Ho|].
  apply (result_on_record demo_coordinator (demo_proposal "1") h res Hr).
Defined.

(** ** The store after a run *)

Definition settled_store : DeterministicEffectStore := first_run.1.2.
Definition receipt_1 : jstr := numbered "receipt-" 1.

Lemma drive_ok {A} o (p : prog A) s : store_ok s -> store_ok (drive o p s).1.2.
Proof.
  revert s. induction p as [a| |c k IH]; intros s Hok; simpl; [done..|].
  assert (Ha : store_ok (answer o c s).2).
  { destruct c; simpl; [|done..]. apply (serve_advances canonical_ms c s Hok). }
  destruct (answer o c s) as [r s']. specialize (IH r s' Ha). by destruct (drive o (k r) s') as [[result s''] l].
Qed.

Lemma settled_store_ok : store_ok settled_store.
Proof. unfold settled_store, first_run, demo_run. apply drive_ok. exact new_store_ok. Qed.

Lemma settled_receipt : exists r,
  own receipt_1 (ds_receipts settled_store) = Some r /\
  is_terminal (gr_status r) && bool_decide (marked r) = true.
Proof. apply computed. vm_compute. reflexivity. Qed.

(** A conflicting settlement is refused and changes nothing. *)
Definition late_settle : StoreCall := Settle (settle_input receipt_1 StFailed None None None (Some (js "late")) demo_time).

Lemma settled_receipt_final_witness : exists l s' r,
  served_by canonical_ms settled_store l s' /\ length l = 1%nat /\
  own receipt_1 (ds_receipts settled_store) = Some r /\ own receipt_1 (ds_receipts s') = Some r.
Proof.
  destruct settled_receipt as (r & Hr & Hb). apply andb_true_iff in Hb as [Ht Hm]. apply bool_decide_eq_true_1 in Hm.
  eexists _, _, r. split; [apply (served_call canonical_ms settled_store late_settle), served_none|].
  split; [reflexivity|]. split; [exact Hr|].
  apply (settled_receipt_final canonical_ms settled_store _ _ receipt_1 r settled_store_ok
           (served_call canonical_ms settled_store late_settle _ _ (served_none canonical_ms _)) Hr Ht Hm).
Defined.

(** A crashed reconciliation worker's claim expires and another takes over. *)
Definition unknown_store : DeterministicEffectStore := (demo_run None "1" new_store).1.2.
Lemma unknown_store_ok : store_ok unknown_store.
Proof. unfold unknown_store, demo_run. apply drive_ok. exact new_store_ok. Qed.
Definition job_1 : jstr := numbered "job-" 1.
Definition claim_call (now expires : string) : StoreCall := ClaimReconciliation job_1 (js now) (js expires).
Definition first_claim := claim_call "2026-08-02T18:31:00.000Z" "2026-08-02T18:31:30.000Z".
Definition second_claim := claim_call "2026-08-02T18:32:00.000Z" "2026-08-02T18:32:30.000Z".

Definition claimed (r : option ReconciliationClaim) : option (ReconciliationJob * ReconciliationClaimLease) :=
  match r with Some (ClClaimed job c) => Some (job, c) | _ => None end.

Lemma claimed_true c (x : option ReconciliationClaim * DeterministicEffectStore) :
  bool_decide (is_Some (claimed x.1)) = c -> c = true -> exists job claim, x = (Some (ClClaimed job claim), x.2).
Proof.
  intros <- H%bool_decide_eq_true_1. destruct x as [[[job claim| |]|] s]; simpl in *; try by destruct H. by exists job, claim.
Qed.

Lemma reconciliation_claims_exclusive_witness : exists s1 s3 job1 c1 job2 c2,
  @serve _ demo_store first_claim unknown_store = (Some (ClClaimed job1 c1), s1) /\
  @serve _ demo_store second_claim s1 = (Some (ClClaimed job2 c2), s3) /\
  cm_ordinal c1 < cm_ordinal c2 <= jb_maxAttempts job2.
Proof.
  pose proof unknown_store_ok as Hok.
  destruct (claimed_true _ (@serve _ demo_store first_claim unknown_store) eq_refl) as (job1 & c1 & H1);
    [vm_compute; reflexivity|].
  destruct (claimed_true _ (@serve _ demo_store second_claim (@serve _ demo_store first_claim unknown_store).2) eq_refl)
    as (job2 & c2 & H2); [vm_compute; reflexivity|].
  eexists _, _, job1, c1, job2, c2. split; [exact H1|]. split; [exact H2|].
  apply (reconciliation_claims_exclusive canonical_ms unknown_store _ [] _ _ job_1 _ _ job1 c1 _ _ job2 c2 Hok H1
           (served_none canonical_ms _) H2).
Defined.

(** The same proposal again, later. *)
Lemma computed_pair {A B E} (f : A -> B -> bool) (o : option A) (p : result E B) :
  match o, p with Some a, Ok b => f a b | _, _ => false end = true ->
  exists a b, o = Some a /\ p = Ok b /\ f a b = true.
Proof. destruct o as [a|]; [|done]. destruct p as [b|]; [|done]. intros Hf. by exists a, b. Qed.

Definition replay_proposal : GovernedEffectProposal := with_arguments (demo_proposal "1") (gp_arguments (demo_proposal "1")).
Definition is_allow (d : PreDispatchDecision) : bool := match pd_decision d with Allow => true | _ => false end.

Lemma replay_decided : exists r d,
  own receipt_1 (ds_receipts settled_store) = Some r /\
  evaluatePreDispatch (pre_input (ds_currentAuthority settled_store) replay_proposal demo_time) = Ok d /\
  is_allow d && receipt_bound r replay_proposal d && is_terminal (gr_status r) = true.
Proof. apply computed_pair. vm_compute. reflexivity. Qed.

Lemma replay_is_idempotent_witness : exists r,
  own receipt_1 (ds_receipts settled_store) = Some r /\
  demo_run None "1" settled_store = (Some (replayResult r), settled_store, []).
Proof.
  destruct replay_decided as (r & d & Hr & Hd & Hc).
  apply andb_true_iff in Hc as [[Ha Hb]%andb_true_iff Ht]. exists r. split; [exact Hr|].
  assert (Hp : replayed (demo_oracle None) demo_coordinator settled_store (demo_proposal "1")
    (gp_arguments (demo_proposal "1")) demo_time 1785695400000 d receipt_1 r).
  { split; [reflexivity|reflexivity|by split; [|vm_compute]|vm_compute; reflexivity| |by eexists| |vm_compute; reflexivity|exact Hr].
    - split; [exact Hd|]. unfold is_allow in Ha. by destruct (pd_decision d).
    - exists (toISOString 1785695415000). reflexivity. }
  exact (proj2 (replay_is_idempotent canonical_ms (demo_oracle None) demo_coordinator settled_store (demo_proposal "1")
    _ _ _ d receipt_1 r settled_store_ok Hp) Hb Ht).
Defined.

(** ** Where the store departs from its contract *)

(** A repair is granted although the receipt has its dispatch marker. *)
Example repair_ignores_marker :
  match own receipt_1 (ds_receipts settled_store) with
  | Some r => bool_decide (marked r) && bool_decide ((repairBeforeDispatch settled_store).1 = Some true)
  | None => false
  end = true.
Proof. vm_compute. reflexivity. Qed.

(** A receipt settled failed before its dispatch is opened again by crossing the boundary. *)
Definition refused_store : DeterministicEffectStore :=
  (demo_run (Some (DoCompleted applied)) "1" (set_authority new_store (stressAuthority STRESS_BINDING) true)).1.2.
Definition demo_lease : GovernedEffectLease :=
  {| le_binding := STRESS_BINDING; le_leaseId := numbered "lease-" 1; le_action := js "stress.write";
     le_effect := EffectWrite; le_argumentsSha256 := []; le_proposalDigest := []; le_policyDigest := [];
     le_decisionDigest := []; le_expiresAt := js "2026-08-02T18:30:15.000Z" |}.

Example failed_receipt_reopened :
  let crossed := crossDispatchBoundary canonical_ms receipt_1 demo_lease
                   (ea_binding (ds_currentAuthority refused_store)) demo_time refused_store in
  (gr_status <$> own receipt_1 (ds_receipts refused_store), gr_status <$> own receipt_1 (ds_receipts crossed.2)) =
  (Some GFailed, Some GDispatching).
Proof. vm_compute. reflexivity. Qed.

(** After the last claim has expired the job is reported exhausted and stays running. *)
Fixpoint claim_times (n : nat) (s : DeterministicEffectStore) : DeterministicEffectStore :=
  match n with
  | O => s
  | Datatypes.S n => (claimReconciliation canonical_ms job_1 demo_time demo_time (claim_times n s)).2
  end.

Example exhausted_job_stays_running :
  match (claimReconciliation canonical_ms job_1 demo_time demo_time (claim_times 3 unknown_store)).1 with
  | Some (ClExhausted job receipt) => (jb_attempt job, jb_status job, gr_status receipt) = (3, JRunning, GIndeterminate)
  | _ => False
  end.
Proof. vm_compute. reflexivity. Qed.

End GovernedDemo.
