(* ===== verification/Doubles.v ===== *)
(** * Numbers that are no integers

    Durations in milliseconds are quotients. The code computes them with IEEE 754 binary64
    numbers, rounding to nearest, ties to even, after every operation; this file names the
    operations of the Standard Library's specification of these numbers that the models use.
    A sum of durations keeps its order of evaluation. *)

From Stdlib Require Import ZArith Lia Bool SpecFloat.
From S2P Require Import Prelude.

#[local] Open Scope Z_scope.

Module Doubles.

Definition double : Type := spec_float.

(** The number nearest to an integer. *)
Definition num (z : Z) : double := binary_normalize 53 1024 z 0 false.
(** [x + y], [x * y], [x / y], [x > y], [x <= y] *)
Definition plus (x y : double) : double := SFadd 53 1024 x y.
Definition times (x y : double) : double := SFmul 53 1024 x y.
Definition over (x y : double) : double := SFdiv 53 1024 x y.
Definition gtb (x y : double) : bool := SFltb y x.
Definition leb (x y : double) : bool := SFleb x y.

(** [Math.ceil(x)] of a finite number, an integer; 0 for the others. *)
Definition ceil (x : double) : Z :=
  match x with
  | S754_finite s m e =>
      let z := if s then Zneg m else Zpos m in
      if 0 <=? e then z * 2 ^ e else - (- z / 2 ^ (- e))
  | _ => 0
  end.

(** ** Sums of durations are ordered *)

Definition nonneg (x : double) : bool :=
  match x with S754_zero s | S754_infinity s | S754_finite s _ _ => negb s | S754_nan => false end.
Definition finite_pos (x : double) : bool := match x with S754_finite s _ _ => negb s | _ => false end.

Lemma shr_1_nonneg mrs : 0 <= shr_m mrs -> 0 <= shr_m (shr_1 mrs).
Proof. destruct mrs as [[|[p|p|]|[p|p|]] r s]; simpl; lia. Qed.

Lemma iter_nonneg p mrs : 0 <= shr_m mrs -> 0 <= shr_m (SpecFloat.iter_pos shr_1 p mrs).
Proof. revert mrs. induction p; simpl; auto using shr_1_nonneg. Qed.

Lemma shr_fexp_nonneg m e l : 0 <= m -> 0 <= shr_m (fst (shr_fexp 53 1024 m e l)).
Proof.
  intros Hm. unfold shr_fexp, shr.
  assert (0 <= shr_m (shr_record_of_loc m l)) by (destruct l as [|[]]; exact Hm).
  destruct (_ - e); simpl; auto using iter_nonneg.
Qed.

Lemma round_aux_nonneg m e l : 0 <= m -> nonneg (binary_round_aux 53 1024 false m e l) = true.
Proof.
  intros Hm. unfold binary_round_aux. pose proof (shr_fexp_nonneg m e l Hm) as H1.
  destruct (shr_fexp 53 1024 m e l) as [mrs e']. cbn [fst] in H1.
  assert (0 <= round_nearest_even (shr_m mrs) (loc_of_shr_record mrs)) as H2
    by (destruct (loc_of_shr_record mrs) as [|[]]; simpl; try destruct (Z.even _); lia).
  pose proof (shr_fexp_nonneg _ e' loc_Exact H2) as H3. destruct (shr_fexp _ _ _ e' _) as [mrs' e'']. cbn [fst] in H3.
  destruct (shr_m mrs'); [reflexivity|destruct (_ <=? _); reflexivity|lia].
Qed.

Lemma round_nonneg m e : nonneg (binary_round 53 1024 false m e) = true.
Proof. unfold binary_round. destruct (shl_align _ _ _) as [mz ez]. apply round_aux_nonneg. lia. Qed.

Lemma normalize_nonneg m e : 0 <= m -> nonneg (binary_normalize 53 1024 m e false) = true.
Proof. intros Hm. destruct m; [reflexivity|apply round_nonneg|lia]. Qed.

Lemma num_nonneg z : 0 <= z -> nonneg (num z) = true.
Proof. apply normalize_nonneg. Qed.

Lemma plus_nonneg x y : nonneg x = true -> nonneg y = true -> nonneg (plus x y) = true.
Proof.
  unfold plus. destruct x as [[]|[]| |[] m e], y as [[]|[]| |[] m' e']; try discriminate; try reflexivity.
  intros _ _. simpl. apply round_nonneg.
Qed.

Lemma times_nonneg x y : nonneg x = true -> finite_pos y = true -> nonneg (times x y) = true.
Proof.
  unfold times. destruct x as [[]|[]| |[] m e], y as [|[]| |[] m' e']; try discriminate; try reflexivity.
  intros _ _. simpl. apply round_aux_nonneg. lia.
Qed.

Lemma quotient_nonneg a b q r : 0 <= a -> 0 < b -> Z.div_eucl a b = (q, r) -> 0 <= q.
Proof. intros Ha Hb E. pose proof (Z.div_pos a b Ha Hb) as H. unfold Z.div in H. rewrite E in H. exact H. Qed.

Lemma over_nonneg x y : nonneg x = true -> finite_pos y = true -> nonneg (over x y) = true.
Proof.
  unfold over. destruct x as [[]|[]| |[] m e], y as [|[]| |[] m' e']; try discriminate; try reflexivity.
  intros _ _. unfold SFdiv. destruct (SFdiv_core_binary _ _ _ _ _ _) as [[q e2] l] eqn:E. apply round_aux_nonneg.
  unfold SFdiv_core_binary in E. destruct (Z.div_eucl _ _) as [q' r] eqn:Ed. injection E as <- <- <-.
  refine (quotient_nonneg _ _ _ _ _ _ Ed); [|lia]. destruct (_ - Z.min _ _); [lia|apply Z.shiftl_nonneg; lia|lia].
Qed.

Lemma digits_shift m d : digits2_pos (Pos.iter xO m d) = (digits2_pos m + d)%positive.
Proof. induction d using Pos.peano_ind; [simpl; lia|]. rewrite Pos.iter_succ. simpl. rewrite IHd. lia. Qed.

Lemma digits_small m k : 0 <= k -> Zpos m < 2 ^ k -> Zpos (digits2_pos m) <= k.
Proof.
  revert k. induction m as [m IH|m IH|]; simpl; intros k Hk Hm.
  1,2: assert (0 < k) by (destruct (Z.eq_dec k 0) as [->|]; simpl in *; lia);
    assert (2 ^ k = 2 * 2 ^ (k - 1)) as Ek by (rewrite <- Z.pow_succ_r by lia; f_equal; lia);
    specialize (IH (k - 1)); lia.
  destruct (Z.eq_dec k 0) as [->|]; simpl in *; lia.
Qed.

(** An integer of at most 53 bits is represented as itself. *)
Lemma num_finite z : 0 < z < 2 ^ 53 -> finite_pos (num z) = true.
Proof.
  intros [Hz Hb]. destruct z as [|m|m]; try lia. unfold num, binary_normalize, binary_round.
  pose proof (digits_small m 53 ltac:(lia) Hb) as Hd.
  assert (fexp 53 1024 (Zpos (digits2_pos m) + 0) = Zpos (digits2_pos m) - 53) as -> by (unfold fexp, emin; lia).
  unfold shl_align. replace (_ - 53 - 0) with (- (53 - Zpos (digits2_pos m))) by lia.
  assert (forall m', Zpos (digits2_pos m') = 53 ->
    finite_pos (binary_round_aux 53 1024 false (Zpos m') (Zpos (digits2_pos m) - 53) loc_Exact) = true) as Hround.
  { intros m' Hm'. assert (forall l, shr_fexp 53 1024 (Zpos m') (Zpos (digits2_pos m) - 53) l =
      (shr_record_of_loc (Zpos m') l, Zpos (digits2_pos m) - 53)) as Hs.
    { intros l. unfold shr_fexp, shr. cbn [Zdigits2]. rewrite Hm'.
      replace (fexp _ _ _ - _) with 0 by (unfold fexp, emin; lia). reflexivity. }
    unfold binary_round_aux. rewrite Hs. cbn [shr_record_of_loc shr_m loc_of_shr_record round_nearest_even]. rewrite Hs.
    cbn [shr_record_of_loc shr_m]. rewrite (proj2 (Z.leb_le _ _)) by lia. reflexivity. }
  destruct (- (53 - Zpos (digits2_pos m))) as [|p|p] eqn:Ep; [|lia|].
  - replace 0 with (Zpos (digits2_pos m) - 53) by lia. apply Hround. lia.
  - apply Hround. rewrite digits_shift. lia.
Qed.

(** What is not above a limit is at most the limit. *)
Lemma leb_of_gtb x y : nonneg x = true -> nonneg y = true -> gtb x y = false -> leb x y = true.
Proof.
  unfold gtb, leb, SFltb, SFleb. destruct x as [[]|[]| |[] m e], y as [[]|[]| |[] m' e']; try discriminate; try reflexivity.
  intros _ _. simpl. rewrite (Z.compare_antisym e e'). destruct (e ?= e'); simpl; try discriminate; try reflexivity.
  change (Pos.compare_cont Eq m' m) with (Pos.compare m' m). change (Pos.compare_cont Eq m m') with (Pos.compare m m').
  rewrite (Pos.compare_antisym m m'). destruct (Pos.compare m m'); simpl; congruence.
Qed.

Lemma leb_zero x : nonneg x = true -> leb (num 0) x = true.
Proof. destruct x as [[]|[]| |[] m e]; done. Qed.

End Doubles.
