(* ===== verification/HaccRuntime.v ===== *)
(** * The second runtime's coordinator (src/web/lib/hacc-runtime-v2)

    The coordinator joins the conversation program, the audibility ledger, the turn contract
    and the governed effect runtime. Each request is a transaction on the snapshot of one
    conversation: the store runs its body once under an exclusive lease and publishes the
    snapshot it returns. A body is a program of awaited calls ([Governed.prog]), because it
    executes effects; one that throws publishes nothing. The contract projector is injected. *)

From S2P Require Import Prelude JsValue JsText Canonical JsDate Graph Flow FlowValidate FlowRuntime ActionPolicy Program TurnContract SampleRanges Audibility Governed Doubles.
Import Governed.

Local Open Scope Z_scope.

Module HaccRuntime.

#[local] Existing Instance TurnContract.receipt_status_eq_dec.
#[local] Existing Instance TurnContract.outcome_status_eq_dec.
#[local] Existing Instance Audibility.outcome_eq_dec.
#[local] Existing Instance Program.obligation_status_eq_dec.

Definition HACC_RUNTIME_COORDINATOR_V2_SCHEMA_VERSION : Z := 2.

(** ** Data (types.ts) *)

(** The codes of [HaccRuntimeCoordinatorErrorV2], and the exceptions of the parts. *)
Inductive HaccError : Type :=
| RuntimeNotFound | RuntimeExists | RuntimeCorrupt | ContractStale | CapabilityDenied | AudibilityRejected
| ClaimAuthorityStale | Exception.

Record Snapshot := {
  sn_schemaVersion : Z;
  sn_runtimeRevision : Z;
  sn_program : Program.ProgramLog;
  sn_audibility : Audibility.Ledger;
  sn_contract : TurnContract.Contract;
}.

Record ProgramEventRequest := {
  pq_expectedContractSha256 : jstr;
  pq_eventId : jstr;
  pq_payload : Program.Payload;
  pq_occurredAt : option jstr;
}.

Record EffectRequest := {
  eq_expectedContractSha256 : jstr;
  eq_attemptId : jstr;
  eq_action : jstr;
  eq_arguments : obj jsval;
  eq_idempotencyKey : jstr;
  eq_confirmation : option ActionPolicy.ConfirmationEvidence;
}.

Record ReconciliationRequest := { rq_expectedContractSha256 : jstr; rq_eventId : jstr; rq_jobId : jstr }.

(** A ledger event without its sequence and session. *)
Record AudibilityEventRequest := {
  aq_expectedContractSha256 : jstr;
  aq_eventId : jstr;
  aq_responseId : jstr;
  aq_evidence : Audibility.EvidenceReference;
  aq_data : Audibility.EventData;
}.

Record ClaimGrantPreparationRequest := {
  cq_expectedContractSha256 : jstr; cq_responseId : jstr; cq_claimId : jstr; cq_receiptId : jstr
}.

Record PreparedClaimGrant := { pg_authority : Audibility.VerifiedClaimGrantAuthority; pg_evidenceSha256 : jstr }.

Record ProviderEventRequest := { vq_expectedContractSha256 : jstr; vq_event : jsval }.

Record EffectResult := {
  xr_disposition : string; xr_receiptId : option jstr; xr_reconciliationJobId : option jstr
}.

(** An entry for the evidence tap. *)
Record PendingEvidence := { pe_type : string; pe_payload : jsval }.

(** ** JSON of the effect runtime's records, for digests *)

Definition status_text (s : EffectReceiptStatus) : string :=
  match s with
  | GReserved => "reserved" | GDispatching => "dispatching" | GSucceeded => "succeeded" | GFailed => "failed"
  | GIndeterminate => "indeterminate"
  end.

Definition binding_fields (b : AuthorityBinding) : obj jsval :=
  field "stateHeadSha256" (JStr (ab_stateHeadSha256 b)) ++ field "stateRevision" (jnat (ab_stateRevision b)) ++
  field "capabilityEpoch" (jnat (ab_capabilityEpoch b)).

Definition effect_receipt_json (r : GovernedEffectReceipt) : jsval :=
  JObj (binding_fields (gr_binding r) ++ field "receiptId" (JStr (gr_receiptId r)) ++
    field "scopeId" (JStr (gr_scopeId r)) ++ field "invocationId" (JStr (gr_invocationId r)) ++
    field "idempotencyKey" (JStr (gr_idempotencyKey r)) ++ field "action" (JStr (gr_action r)) ++
    field "effect" (jtext (ActionPolicy.effect_text (Some (gr_effect r)))) ++
    field "argumentsSha256" (JStr (gr_argumentsSha256 r)) ++ field "proposalDigest" (JStr (gr_proposalDigest r)) ++
    field "policyDigest" (JStr (gr_policyDigest r)) ++ field "status" (jtext (status_text (gr_status r))) ++
    field "dispatchAttempts" (jnat (gr_dispatchAttempts r)) ++
    opt_field "dispatchStartedAt" JStr (gr_dispatchStartedAt r) ++ opt_field "settledAt" JStr (gr_settledAt r) ++
    opt_field "resultSha256" JStr (gr_resultSha256 r) ++ opt_field "proofSha256" JStr (gr_proofSha256 r) ++
    opt_field "errorCode" JStr (gr_errorCode r) ++
    opt_field "providerVisibleResult" JObj (gr_providerVisibleResult r)).

Definition job_status_text (s : JobStatus) : string :=
  match s with JQueued => "queued" | JRunning => "running" | JCompleted => "completed" end.
Definition claim_json (c : ReconciliationClaimLease) : jsval :=
  JObj (field "claimId" (JStr (cm_claimId c)) ++ field "ordinal" (jnat (cm_ordinal c)) ++
    field "claimedAt" (JStr (cm_claimedAt c)) ++ field "expiresAt" (JStr (cm_expiresAt c))).
Definition pre_dispatch_json (d : ActionPolicy.PreDispatchDecision) : jsval :=
  match ActionPolicy.decision_json d with
  | JObj fields => JObj (fields ++ field "decision_digest" (JStr (ActionPolicy.pd_decision_digest d)))
  | v => v
  end.
Definition job_json (j : ReconciliationJob) : jsval :=
  JObj (field "jobId" (JStr (jb_jobId j)) ++ field "receiptId" (JStr (jb_receiptId j)) ++
    field "scope" (JObj (field "subjectId" (JStr (jb_subjectId j)))) ++
    field "invocationId" (JStr (jb_invocationId j)) ++ field "idempotencyKey" (JStr (jb_idempotencyKey j)) ++
    field "action" (JStr (jb_action j)) ++ field "arguments" (JObj (jb_arguments j)) ++
    field "argumentsSha256" (JStr (jb_argumentsSha256 j)) ++ field "policy" (ActionPolicy.policy_json (jb_policy j)) ++
    field "preDispatchDecision" (pre_dispatch_json (jb_preDispatchDecision j)) ++
    field "attempt" (jnat (jb_attempt j)) ++ field "maxAttempts" (jnat (jb_maxAttempts j)) ++
    opt_field "activeClaim" claim_json (jb_activeClaim j) ++ field "status" (jtext (job_status_text (jb_status j)))).

Definition run_text (d : RunDisposition) : string :=
  match d with
  | RrCommitted => "committed" | RrAbsent => "absent" | RrUnknown => "unknown" | RrNotClaimable => "not_claimable"
  | RrExhausted => "exhausted" | RrStaleClaim => "stale_claim" | RrTerminal => "terminal"
  end.
Definition run_json (r : ReconciliationRunResult) : jsval :=
  JObj (field "disposition" (jtext (run_text (rr_disposition r))) ++ field "job" (job_json (rr_job r)) ++
    field "receipt" (effect_receipt_json (rr_receipt r))).

Definition execution_text (r : GovernedEffectExecutionResult) : string :=
  match r with
  | XDenied _ => "denied" | XConfirmationRequired _ => "confirmation_required" | XStaleAuthority _ _ => "stale_authority"
  | XIdempotencyConflict _ => "idempotency_conflict" | XPreDispatchFailed _ => "pre_dispatch_failed"
  | XInFlight _ => "in_flight" | XSucceeded _ _ => "succeeded" | XFailed _ => "failed" | XIndeterminate _ _ => "indeterminate"
  end.
(** ["receipt" in result ? result.receipt : undefined], and the like. *)
Definition result_receipt (r : GovernedEffectExecutionResult) : option GovernedEffectReceipt :=
  match r with
  | XStaleAuthority _ receipt => receipt
  | XInFlight receipt | XSucceeded receipt _ | XFailed receipt | XIndeterminate receipt _ => Some receipt
  | _ => None
  end.
Definition result_job (r : GovernedEffectExecutionResult) : option ReconciliationJob :=
  match r with XIndeterminate _ job => Some job | _ => None end.
Definition result_decision (r : GovernedEffectExecutionResult) : option ActionPolicy.PreDispatchDecision :=
  match r with XDenied d | XConfirmationRequired d => Some d | _ => None end.

(** [Math.ceil(samples * 1_000 / sampleRateHz)]; the sample rate of a response is positive. *)
Definition ceil_ms (samples sampleRateHz : Z) : Z :=
  Doubles.ceil (Doubles.over (Doubles.times (Doubles.num samples) (Doubles.num 1000)) (Doubles.num sampleRateHz)).
Definition maximum (l : list Z) : Z := fold_right Z.max 0 l.

Section Runtime.
Context `{HS : Sha256} `{HI : Program.IsoOffsetDatetime}.
(** [contractProjector.project]; [None] when it throws. *)
Context (project : Program.Projection -> Audibility.Ledger -> option TurnContract.Source).
(** The governed effect coordinator that the constructor builds. *)
Context (effects : Coordinator).

Definition digest (domain : string) (v : jsval) : option jstr := Program.domain_sha256 domain v.

Definition lift {E A} (r : result E A) : result HaccError A := match r with Ok a => Ok a | Err _ => Err Exception end.
Definition need {A} (o : option A) : result HaccError A := match o with Some a => Ok a | None => Err Exception end.
Abbreviation denied e := (Err (E := HaccError) e).

(** ** Snapshots *)

Definition freshness (s : TurnContract.Source) : TurnContract.Freshness :=
  {| TurnContract.fs_conversation_id := TurnContract.cv_conversation_id (TurnContract.so_conversation s);
     TurnContract.fs_conversation_revision := TurnContract.cv_revision (TurnContract.so_conversation s);
     TurnContract.fs_conversation_head_sha256 := TurnContract.cv_head_sha256 (TurnContract.so_conversation s);
     TurnContract.fs_flow_revision := TurnContract.pl_revision <$> TurnContract.cp_flow (TurnContract.so_control_plane s);
     TurnContract.fs_flow_state_sha256 :=
       TurnContract.pl_state_sha256 <$> TurnContract.cp_flow (TurnContract.so_control_plane s);
     TurnContract.fs_mission_revision :=
       TurnContract.pl_revision <$> TurnContract.cp_mission (TurnContract.so_control_plane s);
     TurnContract.fs_mission_state_sha256 :=
       TurnContract.pl_state_sha256 <$> TurnContract.cp_mission (TurnContract.so_control_plane s);
     TurnContract.fs_capability_epoch := TurnContract.so_capability_epoch s;
     TurnContract.fs_registry_sha256 := TurnContract.so_registry_sha256 s |}.

(** The source part of a contract's payload, whose fields the contract has. *)
Definition source_of (c : TurnContract.Contract) : TurnContract.Source := TurnContract.py_source (TurnContract.ct_payload c).

Definition expectation (c : TurnContract.Contract) : TurnContract.Expectation :=
  {| TurnContract.ex_freshness := freshness (source_of c); TurnContract.ex_contract_sha256 := TurnContract.ct_sha256 c |}.

Definition focused_checkpoint (p : Program.Projection) : option Program.FlowCheckpoint :=
  match Program.pj_focusedGoal p with
  | None => None
  | Some g => fst <$> List.find (fun c => Program.fc_goalId c.1 =?s Program.gl_goalId g) (Program.pj_flowCheckpoints p)
  end.

Definition assertSourceBoundToProgram (source : TurnContract.Source) (p : Program.Projection) : result HaccError unit :=
  raise RuntimeCorrupt when
    negb (TurnContract.cv_conversation_id (TurnContract.so_conversation source) =?s Program.pj_programId p) ||
    negb (TurnContract.cv_revision (TurnContract.so_conversation source) =? Program.pj_revision p) ||
    negb (TurnContract.cv_head_sha256 (TurnContract.so_conversation source) =?s Program.pj_headSha256 p) ||
    negb (TurnContract.so_capability_epoch source =? Program.pj_capabilityEpoch p) ;;
  match focused_checkpoint p, TurnContract.cp_flow (TurnContract.so_control_plane source) with
  | Some checkpoint, Some flow =>
      raise RuntimeCorrupt when
        (Program.fc_capabilityEpoch checkpoint =? Program.pj_capabilityEpoch p) &&
        (negb (TurnContract.pl_revision flow =? Program.fc_flowRevision checkpoint) ||
         negb (TurnContract.pl_capability_epoch flow =? Program.fc_capabilityEpoch checkpoint) ||
         negb (TurnContract.pl_state_sha256 flow =?s Program.fc_stateSha256 checkpoint)) ;;
      Ok tt
  | _, _ => Ok tt
  end.

Definition programBinding (p : Program.Projection) : AuthorityBinding :=
  {| ab_stateHeadSha256 := Program.pj_headSha256 p; ab_stateRevision := Program.pj_revision p;
     ab_capabilityEpoch := Program.pj_capabilityEpoch p |}.

Definition compile (runtimeRevision : Z) (program : Program.ProgramLog) (audibility : Audibility.Ledger)
  : result HaccError Snapshot :=
  let* projection := lift (Program.foldConversationProgram program) in
  let* source := need (project projection audibility) in
  let* _ := assertSourceBoundToProgram source projection in
  let* contract := lift (TurnContract.createProductionTurnContract source (freshness source)) in
  Ok {| sn_schemaVersion := HACC_RUNTIME_COORDINATOR_V2_SCHEMA_VERSION; sn_runtimeRevision := runtimeRevision;
        sn_program := program; sn_audibility := audibility; sn_contract := contract |}.

Definition verify (s : Snapshot) : result HaccError Snapshot :=
  raise RuntimeCorrupt when
    negb (sn_schemaVersion s =? HACC_RUNTIME_COORDINATOR_V2_SCHEMA_VERSION) ||
    negb (Program.lg_programId (sn_program s) =?s Audibility.l_sessionId (sn_audibility s)) ;;
  match TurnContract.assertProductionTurnContract (sn_contract s) (expectation (sn_contract s)) with
  | Err _ => denied RuntimeCorrupt
  | Ok _ =>
      match compile (sn_runtimeRevision s) (sn_program s) (sn_audibility s) with
      | Err _ => denied RuntimeCorrupt
      | Ok rebuilt =>
          raise RuntimeCorrupt when
            negb (TurnContract.ct_sha256 (sn_contract rebuilt) =?s TurnContract.ct_sha256 (sn_contract s)) ;;
          Ok s
      end
  end.

Definition assertContract (s : Snapshot) (expectedContractSha256 : jstr) : result HaccError unit :=
  raise ContractStale when
    negb (is_sha256 expectedContractSha256) || negb (expectedContractSha256 =?s TurnContract.ct_sha256 (sn_contract s)) ;;
  let* _ := lift (TurnContract.assertProductionTurnContract (sn_contract s) (expectation (sn_contract s))) in
  Ok tt.

(** What every transaction does first. *)
Definition accept_request (s : Snapshot) (expectedContractSha256 : jstr) : result HaccError Snapshot :=
  let* current := verify s in
  let* _ := assertContract current expectedContractSha256 in
  Ok current.

Definition initialize (programId : jstr) (program : option Program.ProgramLog) (audibility : option Audibility.Ledger)
  : result HaccError Snapshot :=
  let* program := match program with Some p => Ok p | None => lift (Program.createConversationProgramLog programId) end in
  let* audibility := match audibility with Some a => Ok a | None => lift (Audibility.createAudibilityLedger programId) end in
  raise RuntimeCorrupt when
    negb (Program.lg_programId program =?s programId) || negb (Audibility.l_sessionId audibility =?s programId) ;;
  compile 0 program audibility.

Definition resume (stored : option Snapshot) : result HaccError Snapshot :=
  match stored with None => denied RuntimeNotFound | Some s => verify s end.

(** ** Program events *)

Abbreviation transaction A := (prog (Snapshot * A * list PendingEvidence)).

(** A value or a throw. *)
Definition from {A} (r : result HaccError A) : prog A := from_result r.

Definition now_or (o : option jstr) : prog jstr := match o with Some t => Return t | None => await Now end.

Definition plan_revision (s : Snapshot) : jsval :=
  jnat (Z.max 1 (TurnContract.cv_revision (TurnContract.so_conversation (source_of (sn_contract s))))).
Definition event_count (s : Snapshot) : Z := Z.of_nat (length (Program.lg_events (sn_program s))).

Definition worker_evidence (s : Snapshot) (workerId : jstr) (kind : string) (result : option jstr) : PendingEvidence :=
  {| pe_type := "worker.event";
     pe_payload := JObj (field "worker_event_id" (JStr (js kind ++ js "." ++ num_to_string (num_of_Z (event_count s)))) ++
       field "worker_id" (JStr workerId) ++ field "parent_worker_id" JNull ++
       field "call_id" (JStr (Program.lg_programId (sn_program s))) ++ field "plan_revision" (plan_revision s) ++
       field "kind" (jtext kind) ++ field "result_sha256" (from_option JStr JNull result)) |}.

Definition programEvidence (payload : Program.Payload) (s : Snapshot) : result HaccError (list PendingEvidence) :=
  match payload with
  | Program.FactCorrected key _ _ _ =>
      let* projection := lift (Program.foldConversationProgram (sn_program s)) in
      Ok [{| pe_type := "world.event";
             pe_payload := JObj (
               field "world_event_id" (JStr (js "correction." ++ num_to_string (num_of_Z (event_count s)))) ++
               field "kind" (jtext "correction.applied") ++ field "required_step_id" JNull ++ field "obligation_id" JNull ++
               field "correction_id" (JStr key) ++ field "authorized_attempt_id" JNull ++
               field "semantic_effect_id" JNull ++ field "world_revision" (jnat (event_count s)) ++
               field "world_state_sha256" (JStr (Program.pj_headSha256 projection))) |}]
  | Program.WorkerSpawned workerId _ _ _ _ _ => Ok [worker_evidence s workerId "spawned" None]
  | Program.WorkerCancelled workerId _ => Ok [worker_evidence s workerId "cancelled" None]
  | Program.WorkerDeliveryRecorded deliveryId workerId _ _ _ result =>
      let* projection := lift (Program.foldConversationProgram (sn_program s)) in
      let delivery := List.find (fun d => Program.dv_deliveryId d =?s deliveryId) (Program.pj_workerDeliveries projection) in
      let accepted := match delivery with Some d => Program.dv_accepted d | None => false end in
      Ok [worker_evidence s workerId (if accepted then "result_accepted" else "result_rejected_stale") (Some result)]
  | _ => Ok []
  end.

Definition recordProgramEvent (request : ProgramEventRequest) (stored : Snapshot) : transaction unit :=
  bind (from (accept_request stored (pq_expectedContractSha256 request))) (fun current =>
  bind (from (lift (Program.foldConversationProgram (sn_program current)))) (fun projection =>
  bind (now_or (pq_occurredAt request)) (fun occurredAt =>
  from (
    let* program := lift (Program.appendConversationProgramEvent (sn_program current)
      {| Program.ed_eventId := pq_eventId request; Program.ed_expectedRevision := Program.pj_revision projection;
         Program.ed_occurredAt := occurredAt; Program.ed_payload := pq_payload request |}) in
    let* next := compile (sn_runtimeRevision current + 1) program (sn_audibility current) in
    let* evidence := programEvidence (pq_payload request) next in
    Ok (next, tt, evidence))))).

(** ** Effects *)

Definition programReceiptId (receiptId : jstr) : result HaccError jstr :=
  let* d := need (digest "hacc/runtime-v2/effect-receipt/v1" (JStr receiptId)) in
  Ok (js "effect." ++ take 40 d).

(** [/^[A-Za-z0-9][A-Za-z0-9._:/-]{0,127}$/] *)
Definition safe_attempt (s : jstr) : bool :=
  match s with
  | c :: r => is_alnum c && forallb (fun c => is_alnum c || one_of "._:/-" c) r && (length r <=? 127)%nat
  | [] => false
  end.

Definition settled_status (s : EffectReceiptStatus) : option Program.ReceiptStatus :=
  match s with
  | GSucceeded => Some Program.RSucceeded
  | GFailed => Some Program.RFailed
  | GIndeterminate => Some Program.RIndeterminate
  | GReserved | GDispatching => None
  end.

Definition or_digest (o : option jstr) (domain : string) (v : jsval) : result HaccError jstr :=
  match o with Some h => Ok h | None => need (digest domain v) end.

(** The reservation to add to the program, if it has none for the attempt. *)
Definition reservation_draft (before : Program.Projection) (request : EffectRequest) (receipt : GovernedEffectReceipt)
  : prog (list Program.EventDraft) :=
  match List.find (fun r => Program.rv_reservationId r =?s eq_attemptId request) (Program.pj_actionReservations before) with
  | None =>
      bind (now_or (gr_dispatchStartedAt receipt)) (fun occurredAt =>
      Return [{| Program.ed_eventId := js "reserve." ++ eq_attemptId request;
                 Program.ed_expectedRevision := Program.pj_revision before; Program.ed_occurredAt := occurredAt;
                 Program.ed_payload := Program.ActionReserved (eq_attemptId request)
                   (from_option Program.gl_goalId [] (Program.pj_focusedGoal before)) (eq_action request)
                   (gr_argumentsSha256 receipt) (eq_idempotencyKey request) (Program.pj_capabilityEpoch before)
                   (Program.pj_revision before) |}])
  | Some existing =>
      check ((Program.rv_action existing =?s eq_action request) &&
             (Program.rv_argumentsSha256 existing =?s gr_argumentsSha256 receipt) &&
             (Program.rv_idempotencyKey existing =?s eq_idempotencyKey request)) (Return [])
  end.

(** The receipt to add to the program, if it has none and the effect is settled. *)
Definition receipt_draft (before : Program.Projection) (request : EffectRequest) (receipt : GovernedEffectReceipt)
    (revision : Z) : prog (list Program.EventDraft) :=
  bind (from (programReceiptId (gr_receiptId receipt))) (fun receiptId =>
  match List.find (fun r => Program.rp_receiptId r =?s receiptId) (Program.pj_actionReceipts before),
        settled_status (gr_status receipt) with
  | None, Some status =>
      bind (from (need (digest "hacc/runtime-v2/settle-event/v1" (JStr (gr_receiptId receipt))))) (fun eventDigest =>
      bind (now_or (gr_settledAt receipt)) (fun occurredAt =>
      from (
        let* result := match status with
                       | Program.RSucceeded =>
                           let* h := or_digest (gr_resultSha256 receipt) "hacc/runtime-v2/missing-result/v1"
                                       (effect_receipt_json receipt) in Ok (Some h)
                       | _ => Ok None
                       end in
        let* evidence := or_digest (gr_proofSha256 receipt) "hacc/runtime-v2/effect-receipt-evidence/v1"
                           (effect_receipt_json receipt) in
        Ok [{| Program.ed_eventId := js "settle." ++ take 32 eventDigest; Program.ed_expectedRevision := revision;
               Program.ed_occurredAt := occurredAt;
               Program.ed_payload := Program.ActionReceiptRecorded receiptId (eq_attemptId request) status result evidence |}])))
  | _, _ => Return []
  end).

Definition projectEffectResult (program : Program.ProgramLog) (before : Program.Projection) (request : EffectRequest)
    (receipt : GovernedEffectReceipt) : prog Program.ProgramLog :=
  bind (reservation_draft before request receipt) (fun reserve =>
  bind (receipt_draft before request receipt (Program.pj_revision before + Z.of_nat (length reserve))) (fun settle =>
  match reserve ++ settle with
  | [] => Return program
  | drafts => from (lift (Program.appendConversationProgramEvents program drafts))
  end)).

Definition receipt_evidence (request : EffectRequest) (s : Snapshot) (receipt : GovernedEffectReceipt)
  : result HaccError (list PendingEvidence) :=
  match settled_status (gr_status receipt) with
  | None => Ok []
  | Some status =>
      let* receiptId := programReceiptId (gr_receiptId receipt) in
      let* result := or_digest (match gr_resultSha256 receipt with Some h => Some h | None => gr_proofSha256 receipt end)
                       "hacc/runtime-v2/effect-terminal/v1" (effect_receipt_json receipt) in
      Ok [{| pe_type := "action.receipt";
             pe_payload := JObj (field "attempt_id" (JStr (eq_attemptId request)) ++ field "receipt_id" (JStr receiptId) ++
               field "status" (jtext (match status with
                 | Program.RSucceeded => "committed" | Program.RIndeterminate => "indeterminate" | _ => "rejected" end)) ++
               field "semantic_effect_id" (match status with
                 | Program.RSucceeded => JStr (js "effect." ++ eq_attemptId request) | _ => JNull end) ++
               field "result_sha256" (JStr result) ++ field "world_revision" (jnat (event_count s))) |}]
  end.

Definition effectEvidence (request : EffectRequest) (outcome : GovernedEffectExecutionResult) (s : Snapshot)
  : result HaccError (list PendingEvidence) :=
  let* arguments := or_digest (gr_argumentsSha256 <$> result_receipt outcome) "hacc/runtime-v2/effect-arguments/v1"
                      (JObj (eq_arguments request)) in
  let* policy := or_digest (match ActionPolicy.pd_policy_digest <$> result_decision outcome with
                            | Some h => Some h | None => gr_policyDigest <$> result_receipt outcome end)
                   "hacc/runtime-v2/no-policy/v1" (JStr (eq_action request)) in
  let* settled := match result_receipt outcome with
                  | Some receipt => receipt_evidence request s receipt | None => Ok [] end in
  Ok ([{| pe_type := "action.attempted";
          pe_payload := JObj (field "attempt_id" (JStr (eq_attemptId request)) ++
            field "action_id" (JStr (eq_action request)) ++ field "capability_id" (JStr (eq_action request)) ++
            field "plan_revision" (plan_revision s) ++ field "arguments_sha256" (JStr arguments)) |};
       {| pe_type := "action.policy_decided";
          pe_payload := JObj (field "attempt_id" (JStr (eq_attemptId request)) ++
            field "decision" (jtext (match result_decision outcome with Some _ => "deny" | None => "allow" end)) ++
            field "policy_sha256" (JStr policy) ++
            field "reason_code" (match result_decision outcome with
              | Some d => JStr (ActionPolicy.pd_reason d) | None => jtext (execution_text outcome) end)) |}] ++ settled).

(** The proposal that a request becomes. *)
Definition effect_proposal (programId : jstr) (p : Program.Projection) (request : EffectRequest) : GovernedEffectProposal :=
  {| gp_subjectId := programId; gp_action := eq_action request; gp_arguments := eq_arguments request;
     gp_idempotencyKey := eq_idempotencyKey request; gp_expectedAuthority := programBinding p;
     gp_confirmation := eq_confirmation request |}.

(** What is checked before the effect is executed. *)
Definition accept_effect (request : EffectRequest) (stored : Snapshot) : result HaccError (Snapshot * Program.Projection) :=
  let* current := accept_request stored (eq_expectedContractSha256 request) in
  let* projection := lift (Program.foldConversationProgram (sn_program current)) in
  raise CapabilityDenied when
    bool_decide (Program.pj_focusedGoal projection = None) || negb (safe_attempt (eq_attemptId request)) ;;
  raise CapabilityDenied when
    negb (existsb (fun a => TurnContract.ac_action_id a =?s eq_action request)
            (TurnContract.so_eligible_actions (source_of (sn_contract current)))) ;;
  Ok (current, projection).

Definition executeEffect (programId : jstr) (request : EffectRequest) (stored : Snapshot) : transaction EffectResult :=
  bind (from (accept_effect request stored)) (fun cp => let '(current, projection) := cp in
  bind (execute effects (effect_proposal programId projection request)) (fun result =>
  bind (match result_receipt result with
        | Some receipt => projectEffectResult (sn_program current) projection request receipt
        | None => Return (sn_program current)
        end) (fun program =>
  from (
    let* next := compile (sn_runtimeRevision current + 1) program (sn_audibility current) in
    let* evidence := effectEvidence request result next in
    Ok (next, {| xr_disposition := execution_text result; xr_receiptId := gr_receiptId <$> result_receipt result;
                 xr_reconciliationJobId := jb_jobId <$> result_job result |}, evidence))))).

(** ** Reconciliation *)

Definition reconciliationEvidence (run : ReconciliationRunResult) (s : Snapshot) : result HaccError PendingEvidence :=
  let* attempt := need (digest "hacc/runtime-v2/reconcile-attempt/v1" (JStr (jb_jobId (rr_job run)))) in
  let* receiptId := programReceiptId (gr_receiptId (rr_receipt run)) in
  let* outcome := or_digest (match gr_resultSha256 (rr_receipt run) with
                             | Some h => Some h | None => gr_proofSha256 (rr_receipt run) end)
                    "hacc/runtime-v2/reconcile-result/v1" (run_json run) in
  Ok {| pe_type := "action.receipt";
        pe_payload := JObj (field "attempt_id" (JStr (js "reconcile." ++ take 24 attempt)) ++
          field "receipt_id" (JStr receiptId) ++
          field "status" (jtext (match rr_disposition run with RrCommitted | RrAbsent => "reconciled" | _ => "indeterminate" end)) ++
          field "semantic_effect_id" (match rr_disposition run with
            | RrCommitted => JStr (js "effect.reconciled." ++ jb_receiptId (rr_job run)) | _ => JNull end) ++
          field "result_sha256" (JStr outcome) ++ field "world_revision" (jnat (event_count s))) |}.

Definition concludes (d : RunDisposition) : bool := match d with RrCommitted | RrAbsent | RrUnknown => true | _ => false end.

(** The fact that a concluded reconciliation adds to the program. *)
Definition reconciliation_fact (jobId : jstr) (run : ReconciliationRunResult) : result HaccError Program.Payload :=
  let* key := need (digest "hacc/runtime-v2/reconciliation-key/v1" (JStr jobId)) in
  let* receiptSha256 := need (digest "hacc/runtime-v2/reconciled-receipt/v1" (effect_receipt_json (rr_receipt run))) in
  let* evidence := or_digest (gr_proofSha256 (rr_receipt run)) "hacc/runtime-v2/reconciliation-evidence/v1" (run_json run) in
  Ok (Program.FactAsserted (js "reconciliation." ++ take 32 key)
        (JObj (field "disposition" (jtext (run_text (rr_disposition run))) ++ field "receipt_sha256" (JStr receiptSha256)))
        {| Program.pa_kind := Program.ByTool; Program.pa_evidenceSha256 := evidence |}).

Definition reconcileEffect (request : ReconciliationRequest) (stored : Snapshot)
  : transaction (RunDisposition * jstr) :=
  bind (from (accept_request stored (rq_expectedContractSha256 request))) (fun current =>
  bind (runReconciliation effects (rq_jobId request)) (fun run =>
  bind (if concludes (rr_disposition run) then
          bind (from (lift (Program.foldConversationProgram (sn_program current)))) (fun projection =>
          bind (from (reconciliation_fact (rq_jobId request) run)) (fun payload =>
          bind (await Now) (fun now =>
          from (lift (Program.appendConversationProgramEvent (sn_program current)
            {| Program.ed_eventId := rq_eventId request; Program.ed_expectedRevision := Program.pj_revision projection;
               Program.ed_occurredAt := now; Program.ed_payload := payload |})))))
        else Return (sn_program current)) (fun program =>
  from (
    let* next := compile (sn_runtimeRevision current + 1) program (sn_audibility current) in
    let* evidence := reconciliationEvidence run next in
    Ok (next, (rr_disposition run, gr_receiptId (rr_receipt run)), [evidence]))))).

(** ** Audibility *)

Definition satisfied_receipt (s : Snapshot) (receiptSha256 : jstr) : bool :=
  existsb (fun r => bool_decide (TurnContract.rc_status r = TurnContract.RSucceeded) &&
                    bool_decide (TurnContract.rc_outcome_status r = TurnContract.OSatisfied) &&
                    (TurnContract.rc_receipt_sha256 r =?s receiptSha256))
    (TurnContract.so_receipts (source_of (sn_contract s))).

(** The value of [responses[id]] on which the claims and grants are then read: [undefined] for an absent
    name; reading them throws a [TypeError] on a property of [Object.prototype] and on an object that is no response. *)
Definition response_property (l : Audibility.Ledger) (id : jstr) : result HaccError (option Audibility.ResponseLedger) :=
  match get_property (Audibility.l_responses l) id with
  | Own (Audibility.Response r) => Ok (Some r)
  | Absent => Ok None
  | Own Audibility.BareClosed | Inherited => denied Exception
  end.

(** [response?.claims[claimId]] *)
Definition claim_property (response : option Audibility.ResponseLedger) (claimId : jstr) : property Audibility.TerminalClaim :=
  match response with Some r => get_property (Audibility.r_claims r) claimId | None => Absent end.

(** [claim?.contentSha256], which a property of [Object.prototype] has no more than [undefined]. *)
Definition claim_content (claim : property Audibility.TerminalClaim) : option jstr :=
  match claim with Own c => Some (Audibility.tc_contentSha256 c) | Inherited | Absent => None end.

Definition grant_current (s : Snapshot) (response : option Audibility.ResponseLedger) (grantId : jstr) : bool :=
  match response with
  | None => false
  | Some r =>
      match get_property (Audibility.r_grants r) grantId with
      | Own grant =>
          (Audibility.cg_authorityRevision grant =? event_count s) &&
          (Audibility.cg_turnContractSha256 grant =?s TurnContract.ct_sha256 (sn_contract s)) &&
          satisfied_receipt s (Audibility.cg_authorityReceiptSha256 grant)
      | _ => false
      end
  end.

Definition assertClaimAuthority (s : Snapshot) (e : Audibility.Event) : result HaccError unit :=
  match Audibility.e_data e with
  | Audibility.ClaimGrantIssued _ authority =>
      let i := Audibility.va_input authority in
      raise ClaimAuthorityStale when
        negb (Audibility.ga_authorityRevision i =? event_count s) ||
        negb (Audibility.ga_turnContractSha256 i =?s TurnContract.ct_sha256 (sn_contract s)) ||
        negb (Audibility.ga_responseId i =?s Audibility.e_responseId e) ;;
      let* response := response_property (sn_audibility s) (Audibility.e_responseId e) in
      raise ClaimAuthorityStale when
        negb (bool_decide (claim_content (claim_property response (Audibility.ga_claimId i)) =
                           Some (Audibility.ga_claimContentSha256 i))) ||
        negb (satisfied_receipt s (Audibility.ga_authorityReceiptSha256 i)) ;;
      Ok tt
  | Audibility.ReleaseRequested _ _ [] => Ok tt
  | Audibility.ReleaseRequested _ _ grantIds =>
      let* response := response_property (sn_audibility s) (Audibility.e_responseId e) in
      raise ClaimAuthorityStale when negb (forallb (grant_current s response) grantIds) ;;
      Ok tt
  | _ => Ok tt
  end.

(** The response [responses[id]] of which the projection reads the fields; on any other value it throws. *)
Definition ledger_response (l : Audibility.Ledger) (id : jstr) : option Audibility.ResponseLedger :=
  match get_property (Audibility.l_responses l) id with Own (Audibility.Response r) => Some r | _ => None end.

(** The program event that a ledger event becomes, if any. *)
Definition audible_payload (before after : Audibility.Ledger) (e : Audibility.Event) (prior : option Program.Audibility)
  : result HaccError (option Program.Payload) :=
  let id := Audibility.e_responseId e in
  let evidence := Audibility.er_sha256 (Audibility.e_evidence e) in
  match Audibility.e_data e with
  | Audibility.GenerationClosed =>
      match prior with
      | Some _ => Ok None
      | None =>
          let* r := need (ledger_response after id) in
          let* content := need (digest "hacc/runtime-v2/response-pcm/v1"
                                  (JArr ((fun c => JStr (Audibility.pc_pcmSha256 c)) <$> Audibility.r_chunks r))) in
          Ok (Some (Program.AudibilityResponseRegistered id
                (Z.max 1 (ceil_ms (Audibility.r_generatedSampleCount r) (Audibility.r_sampleRateHz r))) content evidence))
      end
  | Audibility.ReleaseRequested _ range _ =>
      let* r := need (ledger_response after id) in
      match last (Audibility.r_releaseDecisions r) with
      | Some decision =>
          let throughMs := ceil_ms (endSample range) (Audibility.r_sampleRateHz r) in
          Ok (if bool_decide (Audibility.rd_outcome decision = Audibility.Released) &&
                 match prior with None => true | Some p => Program.au_releasedThroughMs p <? throughMs end
              then Some (Program.AudibilityReleasedThrough id throughMs evidence) else None)
      | None => Ok None
      end
  | Audibility.PlaybackAcknowledged _ ranges _ =>
      let* r := need (ledger_response after id) in
      let throughMs := ceil_ms (maximum (endSample <$> ranges)) (Audibility.r_sampleRateHz r) in
      Ok (if match prior with None => true | Some p => Program.au_heardThroughMs p <? throughMs end
          then Some (Program.AudibilityHeardThrough id throughMs evidence) else None)
  | Audibility.PlaybackCleared _ reason =>
      if match prior with Some p => Program.au_interrupted p | None => false end then Ok None
      else
        let* r := need (ledger_response before id) in
        let heard := maximum (endSample <$> Audibility.r_acknowledgedPlayedRanges r) in
        Ok (Some (Program.AudibilityInterrupted id (ceil_ms heard (Audibility.r_sampleRateHz r))
                    (js (Audibility.reason_text reason)) evidence))
  | _ => Ok None
  end.

Definition projectAudibilityEvent (program : Program.ProgramLog) (before after : Audibility.Ledger)
    (e : Audibility.Event) : prog Program.ProgramLog :=
  bind (from (lift (Program.foldConversationProgram program))) (fun projection =>
  let prior := Program.aw_response <$>
    List.find (fun a => Program.au_responseId (Program.aw_response a) =?s Audibility.e_responseId e)
      (Program.pj_audibilityFacts projection) in
  bind (from (audible_payload before after e prior)) (fun payload =>
  match payload with
  | None => Return program
  | Some payload =>
      bind (await Now) (fun now =>
      from (lift (Program.appendConversationProgramEvent program
        {| Program.ed_eventId := js "audible." ++ Audibility.e_eventId e;
           Program.ed_expectedRevision := Program.pj_revision projection; Program.ed_occurredAt := now;
           Program.ed_payload := payload |})))
  end)).

Definition playback_evidence (eventId responseId : jstr) (range : SampleRange) (status : string) : PendingEvidence :=
  {| pe_type := "playback.range";
     pe_payload := JObj (field "playback_event_id" (JStr eventId) ++ field "response_id" (JStr responseId) ++
       field "start_sample" (jnat (startSample range)) ++ field "end_sample" (jnat (endSample range)) ++
       field "status" (jtext status)) |}.

(** [`${id}.${index}`] for each range. *)
Definition playback_ranges (id responseId : jstr) (ranges : list SampleRange) (status : string) : list PendingEvidence :=
  imap (fun index range => playback_evidence (id ++ js "." ++ digits (N.of_nat index)) responseId range status) ranges.

Definition audibilityEvidence (e : Audibility.Event) (ledger : Audibility.Ledger) : result HaccError (list PendingEvidence) :=
  let id := Audibility.e_responseId e in
  match Audibility.e_data e with
  | Audibility.PcmChunkGenerated _ _ sampleCount pcmSha256 =>
      let* r := need (ledger_response ledger id) in
      let* chunk := need (last (Audibility.r_chunks r)) in
      Ok [{| pe_type := "audio.range";
             pe_payload := JObj (field "response_id" (JStr id) ++ field "audio_sha256" (JStr pcmSha256) ++
               field "byte_length" (jnat (sampleCount * Audibility.r_channels r * 2)) ++
               field "sample_rate_hz" (jnat (Audibility.r_sampleRateHz r)) ++
               field "channel_count" (jnat (Audibility.r_channels r)) ++
               field "start_sample" (jnat (startSample (Audibility.pc_range chunk))) ++
               field "end_sample" (jnat (endSample (Audibility.pc_range chunk))) ++ field "claim_ids" (JArr []) ++
               field "opportunity_ids" (JArr []) ++
               field "semantic_alignment_sha256" (JStr (Audibility.er_sha256 (Audibility.e_evidence e)))) |}]
  | Audibility.ReleaseRequested decisionId range _ =>
      let* r := need (ledger_response ledger id) in
      match last (Audibility.r_releaseDecisions r) with
      | Some decision =>
          Ok (if bool_decide (Audibility.rd_outcome decision = Audibility.Released)
              then [playback_evidence decisionId id range "released"] else [])
      | None => Ok []
      end
  | Audibility.PlaybackAcknowledged acknowledgementId ranges _ => Ok (playback_ranges acknowledgementId id ranges "heard")
  | Audibility.PlaybackCleared clearId _ =>
      let* r := need (ledger_response ledger id) in
      Ok (playback_ranges clearId id (from_option Audibility.cl_clearedRanges [] (last (Audibility.r_clears r))) "interrupted")
  | _ => Ok []
  end.

(** The ledger event of a request. *)
Definition audibility_event (request : AudibilityEventRequest) (current : Snapshot) : Audibility.Event :=
  {| Audibility.e_sequence := Audibility.l_revision (sn_audibility current) + 1; Audibility.e_eventId := aq_eventId request;
     Audibility.e_sessionId := Audibility.l_sessionId (sn_audibility current);
     Audibility.e_responseId := aq_responseId request; Audibility.e_evidence := aq_evidence request;
     Audibility.e_data := aq_data request |}.

(** The part before the program is told. *)
Definition apply_audibility (request : AudibilityEventRequest) (stored : Snapshot)
  : result HaccError (Snapshot * Audibility.Ledger) :=
  let* current := accept_request stored (aq_expectedContractSha256 request) in
  let* _ := assertClaimAuthority current (audibility_event request current) in
  match Audibility.applyAudibilityLedgerEvent (sn_audibility current) (audibility_event request current) with
  | Err _ => denied AudibilityRejected
  | Ok (ledger, _) => Ok (current, ledger)
  end.

Definition recordAudibilityEvent (request : AudibilityEventRequest) (stored : Snapshot) : transaction unit :=
  bind (from (apply_audibility request stored)) (fun cl => let '(current, ledger) := cl in
  let event := audibility_event request current in
  bind (projectAudibilityEvent (sn_program current) (sn_audibility current) ledger event) (fun program =>
  from (
    let* next := compile (sn_runtimeRevision current + 1) program ledger in
    let* evidence := audibilityEvidence event ledger in
    Ok (next, tt, evidence)))).

Definition authority_input_json (i : Audibility.ClaimGrantAuthorityInput) : jsval :=
  JObj (field "responseId" (JStr (Audibility.ga_responseId i)) ++ field "claimId" (JStr (Audibility.ga_claimId i)) ++
    field "claimContentSha256" (JStr (Audibility.ga_claimContentSha256 i)) ++
    field "authorityRevision" (jnat (Audibility.ga_authorityRevision i)) ++
    field "authorityReceiptSha256" (JStr (Audibility.ga_authorityReceiptSha256 i)) ++
    field "reopenedReceiptSha256" (JStr (Audibility.ga_reopenedReceiptSha256 i)) ++
    field "turnContractSha256" (JStr (Audibility.ga_turnContractSha256 i)) ++
    field "semanticBindingSha256" (JStr (Audibility.ga_semanticBindingSha256 i))).

Definition runtime_verifier (i : Audibility.ClaimGrantAuthorityInput) : Audibility.HostClaimGrantVerification :=
  match digest "hacc/runtime-v2/claim-grant-verification/v1" (authority_input_json i) with
  | Some h => Audibility.HostVerified (js "hacc.runtime.v2") h
  | None => Audibility.HostRefused []
  end.

(** A claim named like a property of [Object.prototype] passes the first check but has no content hash, so that
    the preparation of its authority throws. *)
Definition prepareClaimGrant (request : ClaimGrantPreparationRequest) (stored : option Snapshot)
  : result HaccError PreparedClaimGrant :=
  let* current := resume stored in
  let* _ := assertContract current (cq_expectedContractSha256 request) in
  let source := source_of (sn_contract current) in
  let* response := response_property (sn_audibility current) (cq_responseId request) in
  let claim := claim_property response (cq_claimId request) in
  raise ClaimAuthorityStale when match claim with Absent => true | _ => false end ;;
  match List.find (fun r => TurnContract.rc_receipt_id r =?s cq_receiptId request) (TurnContract.so_receipts source) with
  | Some receipt =>
      raise ClaimAuthorityStale when
        negb (bool_decide (TurnContract.rc_status receipt = TurnContract.RSucceeded)) ||
        negb (bool_decide (TurnContract.rc_outcome_status receipt = TurnContract.OSatisfied)) ||
        negb (TurnContract.rc_capability_epoch receipt =? TurnContract.so_capability_epoch source) ;;
      let* content := need (claim_content claim) in
      let* reopened := need (digest "hacc/runtime-v2/reopened-contract-receipt/v1" (TurnContract.receipt_json receipt)) in
      let* binding := need (digest "hacc/runtime-v2/claim-semantic-binding/v1"
        (JObj (field "claim_content_sha256" (JStr content) ++
           field "action_semantic_sha256" (JStr (TurnContract.rc_action_semantic_sha256 receipt)) ++
           field "outcome_predicate_sha256" (JStr (TurnContract.rc_outcome_predicate_sha256 receipt)) ++
           field "outcome_status" (jtext (TurnContract.outcome_status_text (TurnContract.rc_outcome_status receipt)))))) in
      let* authority := lift (Audibility.reopenVerifiedClaimGrantAuthority
        {| Audibility.ga_responseId := cq_responseId request; Audibility.ga_claimId := cq_claimId request;
           Audibility.ga_claimContentSha256 := content;
           Audibility.ga_authorityRevision := event_count current;
           Audibility.ga_authorityReceiptSha256 := TurnContract.rc_receipt_sha256 receipt;
           Audibility.ga_reopenedReceiptSha256 := reopened;
           Audibility.ga_turnContractSha256 := TurnContract.ct_sha256 (sn_contract current);
           Audibility.ga_semanticBindingSha256 := binding |} runtime_verifier) in
      Ok {| pg_authority := authority; pg_evidenceSha256 := TurnContract.rc_receipt_sha256 receipt |}
  | None => denied ClaimAuthorityStale
  end.

(** ** Provider events and evidence *)

Definition recordProviderEvent (request : ProviderEventRequest) (stored : Snapshot) : transaction unit :=
  from (
    let* current := accept_request stored (vq_expectedContractSha256 request) in
    let* next := compile (sn_runtimeRevision current + 1) (sn_program current) (sn_audibility current) in
    Ok (next, tt, [{| pe_type := "provider.normalized"; pe_payload := vq_event request |}])).

Definition planEvidence (s : Snapshot) : result HaccError PendingEvidence :=
  let* projection := lift (Program.foldConversationProgram (sn_program s)) in
  let source := source_of (sn_contract s) in
  Ok {| pe_type := "plan.registered";
        pe_payload := JObj (
          field "plan_id" (JStr (js "contract." ++ num_to_string (num_of_Z (sn_runtimeRevision s)))) ++
          field "revision" (jnat (Z.max 1 (sn_runtimeRevision s + 1))) ++
          field "plan_sha256" (JStr (TurnContract.ct_sha256 (sn_contract s))) ++
          field "required_step_ids" (JArr ((fun l => JStr (TurnContract.sl_slot_id l)) <$> TurnContract.so_required_slots source)) ++
          field "required_obligation_ids" (JArr ((fun o => JStr (Program.ob_obligationId o)) <$>
            List.filter (fun o => bool_decide (Program.ob_status o = Program.Open)) (Program.pj_obligations projection))) ++
          field "forbidden_claim_ids"
            (JArr ((fun c => JStr (TurnContract.ph_claim_id c)) <$> TurnContract.so_prohibited source))) |}.

(** What [committed] hands to the evidence tap, in order. *)
Definition committed (s : Snapshot) (evidence : list PendingEvidence) : result HaccError (list PendingEvidence) :=
  let* plan := planEvidence s in Ok (plan :: evidence).

End Runtime.

End HaccRuntime.
