(* ===== verification/HaccHistory.v ===== *)
(** * The history of a conversation under the second runtime

    A transaction that commits has verified the snapshot it read, was bound to that snapshot's
    contract, and publishes a snapshot that the replay of its own parts rebuilds. The theorems
    follow a conversation through any sequence of such transactions. *)

From S2P Require Import Prelude JsValue JsText Canonical JsDate Graph Flow FlowValidate FlowRuntime ActionPolicy Program ProgramInvariant ProgramHistory ProgramSafety TurnContract TurnContractProps TurnContractBinding SampleRanges Audibility AudibilityInvariant AudibilityProps Governed GovernedSystem GovernedTrace HaccRuntime.
Import Governed GovernedTrace HaccRuntime.

Local Open Scope Z_scope.

Module HaccHistory.

(** ** Runs of sequential programs *)

Lemma runs_inv {A} (p q : prog A) h :
  runs p h q -> match h with
  | [] => q = p
  | e :: h' => match p with Await c k => exists r, e = called c r /\ runs (k r) h' q | _ => False end
  end.
Proof. intros [|c k r h' q' Hr]; [done|]. by exists r. Qed.

Lemma runs_bind {A B} (p : prog A) (f : A -> prog B) h b :
  runs (bind p f) h (Return b) -> exists h1 h2 a, h = h1 ++ h2 /\ runs p h1 (Return a) /\ runs (f a) h2 (Return b).
Proof.
  revert h. induction p as [a| |c k IH]; intros h Hr; cbn [bind] in Hr.
  - exists [], h, a. split_and!; [done|constructor|done].
  - apply runs_inv in Hr. by destruct h.
  - apply runs_inv in Hr. destruct h as [|e h]; [done|]. destruct Hr as (r & -> & Hr).
    destruct (IH _ _ Hr) as (h1 & h2 & a & -> & H1 & H2). exists (called c r :: h1), h2, a. split_and!; [done|by constructor|done].
Qed.

Lemma runs_bind_await {A B} (p : prog A) (f : A -> prog B) h c k :
  runs (bind p f) h (Await c k) ->
  (exists k', runs p h (Await c k')) \/
  exists h1 h2 a, h = h1 ++ h2 /\ runs p h1 (Return a) /\ runs (f a) h2 (Await c k).
Proof.
  revert h. induction p as [a| |c0 k0 IH]; intros h Hr; cbn [bind] in Hr.
  - right. exists [], h, a. split_and!; [done|constructor|done].
  - apply runs_inv in Hr. by destruct h.
  - apply runs_inv in Hr. destruct h as [|e h].
    + injection Hr as -> _. left. eexists. constructor.
    + destruct Hr as (r & -> & Hr).
      destruct (IH _ _ Hr) as [[k' H]|(h1 & h2 & a & -> & H1 & H2)]; [left|right].
      * exists k'. by constructor.
      * exists (called c0 r :: h1), h2, a. split_and!; [done|by constructor|done].
Qed.

Lemma runs_from {A} (r : result HaccError A) h a : runs (from r) h (Return a) -> h = [] /\ r = Ok a.
Proof. intros H%runs_inv. destruct r as [x|err], h as [|e h]; cbn in H; try done. by injection H as ->. Qed.

Lemma runs_from_await {A} (r : result HaccError A) h c k : ~ runs (from r) h (Await c k).
Proof. intros H%runs_inv. by destruct r, h. Qed.

Lemma runs_return {A} (a b : A) h : runs (Return a) h (Return b) -> h = [] /\ a = b.
Proof. intros H%runs_inv. destruct h as [|e h]; [by injection H as ->|done]. Qed.

Lemma lift_Ok {E A} (r : result E A) a : lift r = Ok a -> r = Ok a.
Proof. by destruct r as [x|]; [intros [= ->]|]. Qed.
Lemma need_Ok {A} (o : option A) a : need o = Ok a -> o = Some a.
Proof. by destruct o as [x|]; [intros [= ->]|]. Qed.
Lemma result_bind_Ok {E A B} (r : result E A) (f : A -> result E B) b : bind_result r f = Ok b -> exists a, r = Ok a /\ f a = Ok b.
Proof. destruct r as [a|]; [|done]. intros H. by exists a. Qed.

(** Takes a successful run, or a successful computation, apart into its steps. *)
Ltac unrun H :=
  lazymatch type of H with
  | runs (bind _ _) _ _ =>
      let H1 := fresh "Hrun" in apply runs_bind in H as (? & ? & ? & -> & H1 & H); cbn beta in H; unrun H1; unrun H
  | runs (from _) _ _ => apply runs_from in H as [-> H]; unrun H
  | runs (Return _) _ _ => apply runs_return in H as [-> H]
  | bind_result _ _ = Ok _ =>
      let H1 := fresh "Hrun" in apply result_bind_Ok in H as (? & H1 & H); cbn beta in H; unrun H1; unrun H
  | lift _ = Ok _ => apply lift_Ok in H
  | need _ = Ok _ => apply need_Ok in H
  | _ => idtac
  end.

Section History.
Context `{HS : Sha256} {HOk : Sha256Ok HS} `{HI : Program.IsoOffsetDatetime}.
Context (project : Program.Projection -> Audibility.Ledger -> option TurnContract.Source) (effects : Coordinator).
Implicit Types (s : Snapshot).

(** ** Appends *)

Lemma append_drafts_prefix programId ds : forall st events events',
  Program.append_drafts programId st events ds = Ok events' -> events `prefix_of` events'.
Proof.
  induction ds as [|d ds IH]; intros st events events' H; cbn [Program.append_drafts] in H; [by simplify_eq|].
  destruct (Program.parse_draft d) as [d'|]; [|done]. destruct (Program.find_event _ _) as [e|].
  - destruct (negb _); [done|]. by eapply IH.
  - destruct (negb _); [done|]. destruct (Program.seal _ _ _) as [e|]; [|done]. 
    match type of H with (if ?b then _ else _) = _ => destruct b; [done|] end.
    destruct (Program.applyEvent _ _) as [st'|]; [|done]. cbn [bind_result] in H.
    transitivity (events ++ [e]); [by apply prefix_app_r | by eapply IH].
Qed.

Lemma append_prefix log ds log' :
  Program.appendConversationProgramEvents log ds = Ok log' ->
  Program.lg_programId log' = Program.lg_programId log /\ Program.lg_events log `prefix_of` Program.lg_events log'.
Proof.
  unfold Program.appendConversationProgramEvents. intros H.
  destruct (Program.validateConversationProgramLog log); [cbn [bind_result] in H|discriminate H].
  destruct (Program.applyEvents _ _) as [st|]; [cbn [bind_result] in H|discriminate H].
  destruct (Program.append_drafts _ _ _ _) as [events|] eqn:E; [|discriminate H]. injection H as <-.
  split; [done|]. by eapply append_drafts_prefix.
Qed.

(** The log stays as it is or is appended to. *)
Definition extends (log log' : Program.ProgramLog) : Prop :=
  log' = log \/ exists ds, Program.appendConversationProgramEvents log ds = Ok log'.

Lemma extends_append log ds log' : Program.appendConversationProgramEvents log ds = Ok log' -> extends log log'.
Proof. intros H. right. by exists ds. Qed.

Lemma extends_prefix log log' :
  extends log log' ->
  Program.lg_programId log' = Program.lg_programId log /\ Program.lg_events log `prefix_of` Program.lg_events log'.
Proof. intros [->|[ds H]]; [done|by eapply append_prefix]. Qed.

Lemma fold_version log p :
  Program.foldConversationProgram log = Ok p -> Program.lg_schemaVersion log = Program.CONVERSATION_PROGRAM_VERSION.
Proof.
  unfold Program.foldConversationProgram, Program.validateConversationProgramLog. intros H.
  destruct (negb (_ =? _)) eqn:E; [discriminate H|]. by to_prop.
Qed.

(** ** Verified snapshots *)

Lemma accept_Ok s expected current :
  accept_request project s expected = Ok current ->
  current = s /\ verify project s = Ok s /\ expected = TurnContract.ct_sha256 (sn_contract s).
Proof.
  unfold accept_request, assertContract. intros H.
  destruct (verify project s) as [c|] eqn:Ev; [cbn [bind_result] in H|discriminate H].
  assert (c = s) as ->.
  { unfold verify in Ev. split_guards Ev. destruct (TurnContract.assertProductionTurnContract _ _); [|done].
    destruct (compile _ _ _ _); [|done]. split_guards Ev. by injection Ev. }
  destruct (_ || _) eqn:Eg; [discriminate H|]. destruct (lift _); [|discriminate H]. injection H as <-. to_prop.
  by split_and!.
Qed.

(** What a transaction that commits does to the snapshot it read. *)
Record advances s s' : Prop := {
  av_verified : verify project s = Ok s;
  av_compiled : compile project (sn_runtimeRevision s + 1) (sn_program s') (sn_audibility s') = Ok s';
  av_program : extends (sn_program s) (sn_program s');
  av_ledger : sn_audibility s' = sn_audibility s \/
    exists request ledger, apply_audibility project request s = Ok (s, ledger) /\ sn_audibility s' = ledger;
}.

Lemma compile_parts revision program ledger s :
  compile project revision program ledger = Ok s ->
  sn_schemaVersion s = HACC_RUNTIME_COORDINATOR_V2_SCHEMA_VERSION /\ sn_runtimeRevision s = revision /\
  sn_program s = program /\ sn_audibility s = ledger /\
  exists p source, Program.foldConversationProgram program = Ok p /\ project p ledger = Some source /\
    assertSourceBoundToProgram source p = Ok tt /\
    TurnContract.createProductionTurnContract source (freshness source) = Ok (sn_contract s).
Proof.
  unfold compile. intros H. destruct (Program.foldConversationProgram program) as [p|] eqn:Ep; [|discriminate H].
  cbn [lift bind_result] in H. destruct (project p ledger) as [source|] eqn:Es; [|discriminate H]. cbn [need bind_result] in H.
  destruct (assertSourceBoundToProgram source p) as [[]|] eqn:Eb; [|discriminate H]. cbn [bind_result] in H.
  destruct (TurnContract.createProductionTurnContract _ _) as [c|] eqn:Ec; [|discriminate H]. injection H as <-. cbn.
  split_and!; try done. exists p, source. by split_and!.
Qed.

Lemma advance s s' program ledger :
  verify project s = Ok s -> compile project (sn_runtimeRevision s + 1) program ledger = Ok s' ->
  extends (sn_program s) program ->
  ledger = sn_audibility s \/ (exists request, apply_audibility project request s = Ok (s, ledger)) ->
  advances s s'.
Proof.
  intros Hv Hc Hp Hl. destruct (compile_parts _ _ _ _ Hc) as (_ & _ & <- & <- & _).
  constructor; try done. destruct Hl as [?|[request ?]]; [by left|right; eauto].
Qed.

(** ** Transactions *)

Lemma recordProgramEvent_advances request s h s' u ev :
  runs (recordProgramEvent project request s) h (Return (s', u, ev)) -> advances s s'.
Proof.
  unfold recordProgramEvent. intros H. unrun H. injection H as -> _ _. apply accept_Ok in Hrun as (-> & Hv & _).
  apply extends_append in Hrun2. eapply advance; eauto.
Qed.

Lemma projectEffectResult_extends program before request receipt h program' :
  runs (projectEffectResult program before request receipt) h (Return program') -> extends program program'.
Proof.
  unfold projectEffectResult. intros H. apply runs_bind in H as (? & ? & reserve & -> & _ & H).
  apply runs_bind in H as (? & ? & settle & -> & _ & H). destruct (reserve ++ settle) as [|d ds]; unrun H.
  - by left.
  - by eapply extends_append.
Qed.

Lemma accept_effect_Ok request s current p :
  accept_effect project request s = Ok (current, p) ->
  current = s /\ verify project s = Ok s /\ eq_expectedContractSha256 request = TurnContract.ct_sha256 (sn_contract s) /\
  Program.foldConversationProgram (sn_program s) = Ok p /\ is_Some (Program.pj_focusedGoal p) /\
  safe_attempt (eq_attemptId request) = true /\
  exists a, a ∈ TurnContract.so_eligible_actions (source_of (sn_contract s)) /\ TurnContract.ac_action_id a = eq_action request.
Proof.
  unfold accept_effect. intros H. unrun H. apply accept_Ok in Hrun as (-> & Hv & He).
  destruct (_ || _) eqn:Eg; [discriminate H|]. destruct (negb (existsb _ _)) eqn:Ea; [discriminate H|]. injection H as <- <-. to_prop.
  apply existsb_elem in Ea as (a & Ha & Ei). to_prop. split_and!; try done; [by apply not_eq_None_Some|by exists a].
Qed.

Lemma executeEffect_advances programId request s h s' v ev :
  runs (executeEffect project effects programId request s) h (Return (s', v, ev)) -> advances s s'.
Proof.
  unfold executeEffect. intros H. apply runs_bind in H as (? & ? & [current p] & -> & Ha & H). unrun Ha.
  apply accept_effect_Ok in Ha as (-> & Hv & _). apply runs_bind in H as (? & ? & result & -> & _ & H).
  apply runs_bind in H as (? & ? & program & -> & Hp & H). unrun H. injection H as -> _ _.
  assert (extends (sn_program s) program) as ?.
  { destruct (result_receipt result); [by eapply projectEffectResult_extends|]. unrun Hp. by left. }
  eapply advance; eauto.
Qed.

Lemma reconcileEffect_advances request s h s' v ev :
  runs (reconcileEffect project effects request s) h (Return (s', v, ev)) -> advances s s'.
Proof.
  unfold reconcileEffect. intros H. apply runs_bind in H as (? & ? & current & -> & Ha & H). unrun Ha.
  apply accept_Ok in Ha as (-> & Hv & _). apply runs_bind in H as (? & ? & run & -> & _ & H).
  apply runs_bind in H as (? & ? & program & -> & Hp & H). unrun H. injection H as -> _ _.
  assert (extends (sn_program s) program) as ?.
  { destruct (concludes _); unrun Hp; [by eapply extends_append|by left]. }
  eapply advance; eauto.
Qed.

Lemma apply_audibility_Ok request s current ledger :
  apply_audibility project request s = Ok (current, ledger) ->
  current = s /\ verify project s = Ok s /\ aq_expectedContractSha256 request = TurnContract.ct_sha256 (sn_contract s) /\
  assertClaimAuthority s (audibility_event request s) = Ok tt /\
  exists d, Audibility.applyAudibilityLedgerEvent (sn_audibility s) (audibility_event request s) = Ok (ledger, d).
Proof.
  unfold apply_audibility. intros H. unrun H. apply accept_Ok in Hrun as (-> & Hv & He).
  destruct (Audibility.applyAudibilityLedgerEvent _ _) as [[l d]|]; [|discriminate H]. injection H as <- <-.
  destruct x0. split_and!; eauto.
Qed.

Lemma recordAudibilityEvent_parts request s h s' u ev :
  runs (recordAudibilityEvent project request s) h (Return (s', u, ev)) ->
  exists ledger h' program,
    apply_audibility project request s = Ok (s, ledger) /\
    runs (projectAudibilityEvent (sn_program s) (sn_audibility s) ledger (audibility_event request s)) h' (Return program) /\
    compile project (sn_runtimeRevision s + 1) program ledger = Ok s' /\
    audibilityEvidence (audibility_event request s) ledger = Ok ev.
Proof.
  unfold recordAudibilityEvent. intros H. apply runs_bind in H as (? & ? & [current ledger] & -> & Ha & H). unrun Ha.
  pose proof Ha as (-> & _)%apply_audibility_Ok. apply runs_bind in H as (h' & ? & program & -> & Hp & H). unrun H.
  injection H as -> _ ->. eauto 10.
Qed.

Lemma recordAudibilityEvent_advances request s h s' u ev :
  runs (recordAudibilityEvent project request s) h (Return (s', u, ev)) -> advances s s'.
Proof.
  intros (ledger & h' & program & Ha & Hp & Hc & _)%recordAudibilityEvent_parts.
  assert (extends (sn_program s) program) as ?.
  { unfold projectAudibilityEvent in Hp. apply runs_bind in Hp as (? & ? & p & -> & _ & Hp).
    apply runs_bind in Hp as (? & ? & [payload|] & -> & _ & Hp); unrun Hp; [by eapply extends_append|by left]. }
  pose proof Ha as (_ & Hv & _)%apply_audibility_Ok. eapply advance; eauto.
Qed.

Lemma recordProviderEvent_advances request s h s' u ev :
  runs (recordProviderEvent project request s) h (Return (s', u, ev)) -> advances s s'.
Proof.
  unfold recordProviderEvent. intros H. unrun H. apply accept_Ok in Hrun as (-> & Hv & _). injection H as -> _ _.
  eapply advance; eauto. by left.
Qed.

(** The transactions on the conversation [programId], requested under the contract hash [expected], that commit. *)
Inductive commits (programId expected : jstr) s s' : Prop :=
| commits_program request h u ev :
    pq_expectedContractSha256 request = expected ->
    runs (recordProgramEvent project request s) h (Return (s', u, ev)) -> commits programId expected s s'
| commits_effect request h v ev :
    eq_expectedContractSha256 request = expected ->
    runs (executeEffect project effects programId request s) h (Return (s', v, ev)) -> commits programId expected s s'
| commits_reconciliation request h v ev :
    rq_expectedContractSha256 request = expected ->
    runs (reconcileEffect project effects request s) h (Return (s', v, ev)) -> commits programId expected s s'
| commits_audibility request h u ev :
    aq_expectedContractSha256 request = expected ->
    runs (recordAudibilityEvent project request s) h (Return (s', u, ev)) -> commits programId expected s s'
| commits_provider request h u ev :
    vq_expectedContractSha256 request = expected ->
    runs (recordProviderEvent project request s) h (Return (s', u, ev)) -> commits programId expected s s'.

(** One transaction of the conversation. *)
Definition moves (programId : jstr) s s' : Prop := exists expected, commits programId expected s s'.

Lemma moves_advances programId s s' : moves programId s s' -> advances s s'.
Proof.
  intros [expected []]; eauto using recordProgramEvent_advances, executeEffect_advances, reconcileEffect_advances,
    recordAudibilityEvent_advances, recordProviderEvent_advances.
Qed.

(** A transaction commits only under the hash of the contract that it finds. *)
Lemma commits_bound programId expected s s' :
  commits programId expected s s' -> expected = TurnContract.ct_sha256 (sn_contract s).
Proof.
  intros [request h u ev <- H|request h v ev <- H|request h v ev <- H|request h u ev <- H|request h u ev <- H].
  - unfold recordProgramEvent in H. apply runs_bind in H as (? & ? & ? & -> & Ha & _). unrun Ha.
    by apply accept_Ok in Ha as (_ & _ & ?).
  - unfold executeEffect in H. apply runs_bind in H as (? & ? & [? ?] & -> & Ha & _). unrun Ha.
    by apply accept_effect_Ok in Ha as (_ & _ & ? & _).
  - unfold reconcileEffect in H. apply runs_bind in H as (? & ? & ? & -> & Ha & _). unrun Ha.
    by apply accept_Ok in Ha as (_ & _ & ?).
  - apply recordAudibilityEvent_parts in H as (? & ? & ? & Ha & _). by apply apply_audibility_Ok in Ha as (_ & _ & ? & _).
  - unfold recordProviderEvent in H. unrun H. by apply accept_Ok in Hrun as (_ & _ & ?).
Qed.

(** ** The invariant *)

(** The snapshot is what its own parts are compiled to, and they belong to the conversation. *)
Record runtime_ok (programId : jstr) s : Prop := {
  rk_compiled : compile project (sn_runtimeRevision s) (sn_program s) (sn_audibility s) = Ok s;
  rk_program : Program.lg_programId (sn_program s) = programId;
  rk_session : Audibility.l_sessionId (sn_audibility s) = programId;
  rk_ledger : exists evs, history evs (sn_audibility s);
}.

(** A conversation starts with an empty ledger, or with one that the ledger's operations built. *)
Definition begins (programId : jstr) s : Prop :=
  exists program audibility, initialize project programId program audibility = Ok s /\
    exists evs, history evs (sn_audibility s).

Lemma begins_ok programId s : begins programId s -> runtime_ok programId s.
Proof.
  intros (program & audibility & H & Hh). unfold initialize in H.
  apply result_bind_Ok in H as (log & _ & H). apply result_bind_Ok in H as (ledger & _ & H).
  destruct (_ || _) eqn:Eg; [discriminate H|]. to_prop.
  destruct (compile_parts _ _ _ _ H) as (_ & E0 & El & Ea & _).
  constructor; [by rewrite E0, El, Ea|by rewrite El|by rewrite Ea|done].
Qed.

Lemma advances_ok programId s s' : advances s s' -> runtime_ok programId s -> runtime_ok programId s'.
Proof.
  intros [Hv Hc [Hi Hp]%extends_prefix Hl] [Kc Kp Ks [evs Kh]]. destruct (compile_parts _ _ _ _ Hc) as (_ & E & _).
  assert (Audibility.l_sessionId (sn_audibility s') = programId /\ exists evs, history evs (sn_audibility s')) as [? ?].
  { destruct Hl as [->|(request & ledger & Ha & ->)]; [by eauto|].
    apply apply_audibility_Ok in Ha as (_ & _ & _ & _ & d & Ha).
    destruct (apply_decisions _ _ _ _ _ (history_ok _ _ Kh) Ha) as [Hs _]. split; [congruence|].
    eexists. by eapply history_step. }
  constructor; [by rewrite E|congruence|done..].
Qed.

Lemma moves_ok programId s0 s : begins programId s0 -> rtc (moves programId) s0 s -> runtime_ok programId s.
Proof.
  intros H%begins_ok Hr. induction Hr as [|s0 s1 s Hs _ IH]; [done|].
  apply IH. eapply advances_ok; [by eapply moves_advances|done].
Qed.

(** The checks on a compiled snapshot come down to the read-back of its contract. *)
Lemma verify_compiled programId s :
  runtime_ok programId s ->
  verify project s = Ok s <->
  (length (TurnContract.so_prohibited (source_of (sn_contract s))) <= 252)%nat /\ repairs_open (source_of (sn_contract s)).
Proof.
  intros [Hc Hp Hs _]. destruct (compile_parts _ _ _ _ Hc) as (Ev & _ & _ & _ & p & source & _ & _ & _ & Hcr).
  unfold source_of. rewrite <- (created_readable _ _ _ Hcr).
  assert (expectation (sn_contract s) =
    {| TurnContract.ex_freshness := freshness source; TurnContract.ex_contract_sha256 := TurnContract.ct_sha256 (sn_contract s) |})
    as Ee by (unfold expectation, source_of; f_equal; apply (created_freshness _ _ _ Hcr)).
  unfold verify. rewrite Ev, Hp, Hs, str_eqb_refl, Ee, Hc. cbn [negb orb Z.eqb].
  destruct (TurnContract.assertProductionTurnContract _ _) as [c|] eqn:Ea.
  - rewrite str_eqb_refl. cbn. apply assert_Ok in Ea as [-> _]. done.
  - done.
Qed.

Lemma compiled_bound programId s :
  runtime_ok programId s ->
  let c := TurnContract.so_conversation (source_of (sn_contract s)) in
  TurnContract.cv_conversation_id c = programId /\ TurnContract.cv_revision c = event_count s /\
  TurnContract.cv_head_sha256 c = Program.headSha256 (Program.lg_events (sn_program s)) /\
  forall p, Program.foldConversationProgram (sn_program s) = Ok p ->
    TurnContract.so_capability_epoch (source_of (sn_contract s)) = Program.pj_capabilityEpoch p.
Proof.
  intros [Hc Hp Hs _]. destruct (compile_parts _ _ _ _ Hc) as (_ & _ & _ & _ & p & source & Hf & _ & Hb & Hcr).
  pose proof (created_freshness _ _ _ Hcr) as Ef. destruct (fold_state _ _ Hf) as (st & _ & _ & ->).
  unfold assertSourceBoundToProgram in Hb. destruct (_ || _) eqn:Eg; [discriminate Hb|]. to_prop. cbn in *.
  unfold event_count, source_of, TurnContract.actualFreshness, freshness in *. injection Ef as E1 E2 E3 _ _ _ _ E4 _.
  split_and!; [congruence..|]. intros p. rewrite Hf. intros [= <-]. cbn. congruence.
Qed.

Lemma compiled_folds programId s : runtime_ok programId s -> exists p, Program.foldConversationProgram (sn_program s) = Ok p.
Proof. intros [Hc _ _ _]. destruct (compile_parts _ _ _ _ Hc) as (_ & _ & _ & _ & p & _ & Hf & _). by exists p. Qed.

(** ** Theorems *)

(** C40. The store never holds a snapshot that replay contradicts: after any sequence of committed
    transactions the snapshot is the one that its own program and ledger compile to, both belong to
    the conversation, and the contract is about the program's present revision, head and capability
    epoch; the runtime resumes from it exactly when the contract that it wrote can be read back. *)
Theorem snapshot_replays programId s0 s :
  begins programId s0 -> rtc (moves programId) s0 s ->
  compile project (sn_runtimeRevision s) (sn_program s) (sn_audibility s) = Ok s /\
  Program.lg_programId (sn_program s) = programId /\ Audibility.l_sessionId (sn_audibility s) = programId /\
  let source := source_of (sn_contract s) in
  (exists p, Program.foldConversationProgram (sn_program s) = Ok p /\
     TurnContract.cv_conversation_id (TurnContract.so_conversation source) = programId /\
     TurnContract.cv_revision (TurnContract.so_conversation source) = Program.pj_revision p /\
     TurnContract.cv_head_sha256 (TurnContract.so_conversation source) = Program.pj_headSha256 p /\
     TurnContract.so_capability_epoch source = Program.pj_capabilityEpoch p) /\
  (resume project (Some s) = Ok s <->
   (length (TurnContract.so_prohibited source) <= 252)%nat /\ repairs_open source).
Proof.
  intros Hb Hr. pose proof (moves_ok _ _ _ Hb Hr) as Hok. destruct (compiled_bound _ _ Hok) as (H1 & H2 & H3 & H4).
  destruct (compiled_folds _ _ Hok) as [p Hf]. destruct (fold_state _ _ Hf) as (st & _ & _ & Ep).
  do 3 (split; [apply Hok|]). split; [|by eapply verify_compiled].
  exists p. split; [done|]. split; [done|]. rewrite <- (H4 _ Hf). by rewrite Ep.
Qed.

Lemma moves_later programId s s' :
  rtc (moves programId) s s' -> Program.lg_events (sn_program s) `prefix_of` Program.lg_events (sn_program s').
Proof.
  induction 1 as [|s s1 s' Hs _ IH]; [done|]. etrans; [|exact IH].
  by apply moves_advances in Hs as [_ _ [_ ?]%extends_prefix _].
Qed.

(** Transactions are a linear history: each raises the runtime revision by one and only appends to
    the conversation program, so receipts and completed goals stay, and neither the capability epoch
    nor the revision that the contract carries ever goes back. *)
Theorem transactions_append programId s0 n s s' :
  begins programId s0 -> rtc (moves programId) s0 s -> nsteps (moves programId) n s s' ->
  sn_runtimeRevision s' = sn_runtimeRevision s + Z.of_nat n /\
  Program.lg_events (sn_program s) `prefix_of` Program.lg_events (sn_program s') /\
  (exists p p', Program.foldConversationProgram (sn_program s) = Ok p /\ Program.foldConversationProgram (sn_program s') = Ok p' /\
     (forall r, r ∈ Program.pj_actionReceipts p -> r ∈ Program.pj_actionReceipts p') /\
     (forall g, g ∈ Program.pj_goals p -> Program.gl_status g = Program.GoalDone -> g ∈ Program.pj_goals p')) /\
  TurnContract.so_capability_epoch (source_of (sn_contract s)) <= TurnContract.so_capability_epoch (source_of (sn_contract s')) /\
  TurnContract.cv_revision (TurnContract.so_conversation (source_of (sn_contract s))) <=
    TurnContract.cv_revision (TurnContract.so_conversation (source_of (sn_contract s'))).
Proof.
  intros Hb Hr Hn. assert (rtc (moves programId) s s') as Hr' by (eapply rtc_nsteps; eauto).
  pose proof (moves_later _ _ _ Hr') as Hpre.
  pose proof (moves_ok _ _ _ Hb Hr) as Hok. pose proof (moves_ok _ _ s' Hb ltac:(by etrans)) as Hok'.
  destruct (compiled_bound _ _ Hok) as (_ & E1 & _ & E2), (compiled_bound _ _ Hok') as (_ & E1' & _ & E2').
  destruct (compiled_folds _ _ Hok) as [p Hf], (compiled_folds _ _ Hok') as [p' Hf'].
  destruct (extension_keeps _ _ _ _ Hf Hf' Hpre) as (He & _ & Hg & _ & Ht & _).
  rewrite (E2 _ Hf), (E2' _ Hf'), E1, E1'. split_and!; try done.
  - clear -Hn. induction Hn as [s|n s s1 s' Hs Hn IH]; [lia|]. rewrite IH.
    apply moves_advances in Hs as [_ Hc _ _]. destruct (compile_parts _ _ _ _ Hc) as (_ & -> & _). lia.
  - by exists p, p'.
  - unfold event_count. apply prefix_length in Hpre. lia.
Qed.

(** A contract authorises requests only until the conversation program changes: a transaction
    requested under the hash of an earlier contract of the conversation commits only while the
    program is still the one that contract was made for, or else the two contracts are a collision of SHA-256. *)
Theorem stale_contract_refused programId s0 s s1 s2 :
  begins programId s0 -> rtc (moves programId) s0 s -> rtc (moves programId) s s1 ->
  commits programId (TurnContract.ct_sha256 (sn_contract s)) s1 s2 ->
  sn_program s1 = sn_program s /\ sn_contract s1 = sn_contract s \/
  TurnContractBinding.contracts_collide (sn_contract s) (sn_contract s1).
Proof.
  intros Hb Hr Hr1 E%commits_bound. pose proof (moves_later _ _ _ Hr1) as [new Hpre].
  pose proof (moves_ok _ _ _ Hb Hr) as Hok. pose proof (moves_ok _ _ s1 Hb ltac:(by etrans)) as Hok1.
  destruct (compile_parts _ _ _ _ (rk_compiled _ _ Hok)) as (_ & _ & _ & _ & p & source & Hf & _ & _ & Hc).
  destruct (compile_parts _ _ _ _ (rk_compiled _ _ Hok1)) as (_ & _ & _ & _ & p1 & source1 & Hf1 & _ & _ & Hc1).
  destruct (created_hash_inj _ _ _ _ _ _ Hc Hc1 E) as [Ec|Hcol]; [left|by right]. split; [|done].
  destruct (compiled_bound _ _ Hok) as (_ & E1 & _), (compiled_bound _ _ Hok1) as (_ & E1' & _).
  rewrite <- Ec, E1 in E1'. unfold event_count in E1'. rewrite Hpre, length_app in E1'.
  assert (new = []) as -> by (destruct new; [done|cbn in E1'; lia]). rewrite app_nil_r in Hpre.
  pose proof (rk_program _ _ Hok) as K. pose proof (rk_program _ _ Hok1) as K1.
  pose proof (fold_version _ _ Hf) as V. pose proof (fold_version _ _ Hf1) as V1.
  destruct (sn_program s) as [v i evs], (sn_program s1) as [v1 i1 evs1]. cbn in *. congruence.
Qed.

End History.
End HaccHistory.
