(* ===== verification/HaccSafety.v ===== *)
(** * What the second runtime lets happen

    An effect is dispatched only for a request that is bound to the current contract, names an
    action the contract offers and is allowed by the action policy at the program's own
    revision. A terminal claim is released to the caller only under grants that were current
    when the release was committed. *)

From S2P Require Import Prelude JsValue JsText Canonical JsDate Graph Flow FlowValidate FlowRuntime ActionPolicy Program ProgramInvariant ProgramHistory ProgramSafety TurnContract TurnContractProps TurnContractBinding SampleRanges Audibility AudibilityInvariant AudibilityProps Governed GovernedSystem GovernedTrace HaccRuntime HaccHistory.
Import Governed GovernedSystem GovernedTrace HaccRuntime HaccHistory.

Local Open Scope Z_scope.

Module HaccSafety.

Section Safety.
Context `{HS : Sha256} {HOk : Sha256Ok HS} `{HI : Program.IsoOffsetDatetime}.
Context (project : Program.Projection -> Audibility.Ledger -> option TurnContract.Source) (effects : Coordinator).
Implicit Types (s : Snapshot).

(** ** Dispatches *)

Lemma quiet_runs {A} (p : prog A) h c k a i : quiet p -> runs p h (Await c k) -> c <> Dispatch a i.
Proof.
  intros Hq Hr. remember (Await c k) as q eqn:Eq. induction Hr as [p|c' k' r h q _ IH]; subst.
  - apply quietly_await in Hq as [Hc _]. apply Hc.
  - apply quietly_await in Hq as [_ Hk]. exact (IH (Hk r) eq_refl).
Qed.

Lemma permitted_mono seen seen' proposal r a i : permitted seen proposal r a i -> seen ⊆ seen' -> permitted seen' proposal r a i.
Proof. intros [H1 H2 H3 H4 H5 H6 H7] Hs. constructor; try done. destruct H7 as (x & y & z & ? & ?). exists x, y, z. auto. Qed.

Lemma armed_dispatches {A} seen proposal r (p : prog A) h a i k :
  armed seen proposal r p -> runs p h (Await (Dispatch a i) k) -> permitted seen proposal r a i.
Proof.
  intros Ha Hr%runs_inv. destruct h as [|e h].
  - subst p. by apply armed_await in Ha as [_ ?].
  - destruct p as [| |c k']; [done..|]. destruct Hr as (x & -> & Hr). apply armed_await in Ha as [Hk _].
    by destruct (quiet_runs _ _ _ _ a i (Hk x) Hr).
Qed.

(** A governed program dispatches only what it was permitted to, under a receipt whose boundary it crossed. *)
Lemma governed_dispatches {A} proposal (p : prog A) h a i k : forall seen,
  governed proposal seen p -> runs p h (Await (Dispatch a i) k) ->
  exists r, r ∈ crossings h /\ permitted (seen ++ authorities h) proposal r a i.
Proof.
  revert p. induction h as [|e h IH]; intros p seen Hg Hr%runs_inv.
  - subst p. apply governed_await in Hg as [Hc _]. by destruct (Hc a i).
  - destruct p as [| |c k']; [done..|]. destruct Hr as (x & -> & Hr). apply governed_await in Hg as (_ & Hk & Ha).
    destruct (grants c x) as [r|] eqn:E.
    + exists r. pose proof (armed_dispatches _ _ _ _ _ _ _ _ (Ha _ _ E) Hr) as Hp.
      split; [cbn; rewrite E; left|]. eapply permitted_mono; [exact Hp|cbn; set_solver].
    + destruct (IH _ _ (Hk _ E) Hr) as (r & Hin & Hp). exists r.
      split; [cbn; by rewrite E|]. by rewrite <- app_assoc in Hp.
Qed.
(** The program events of an effect are written without calls but to the clock. *)
Lemma from_quiet {A} (r : result HaccError A) : quiet (from r).
Proof. destruct r; by constructor. Qed.
Lemma now_or_quiet o : quiet (now_or o).
Proof. destruct o; [by constructor|]. apply quiet_await; [done|]. intros [t|]; by constructor. Qed.

Lemma quiet_bind {A B} (p : prog A) (f : A -> prog B) : quiet p -> (forall a, quiet (f a)) -> quiet (bind p f).
Proof. intros Hp Hf. eapply quietly_bind; [exact Hp|]. intros a _. apply Hf. Qed.

Lemma reservation_draft_quiet before request receipt : quiet (reservation_draft before request receipt).
Proof.
  unfold reservation_draft. destruct (List.find _ _).
  - unfold check. destruct (_ && _); by constructor.
  - apply quiet_bind; [apply now_or_quiet|]. intros; by constructor.
Qed.

Lemma receipt_draft_quiet before request receipt revision : quiet (receipt_draft before request receipt revision).
Proof.
  unfold receipt_draft. apply quiet_bind; [apply from_quiet|]. intros id.
  destruct (List.find _ _); [by constructor|]. destruct (settled_status _) as [status|]; [|by constructor].
  apply quiet_bind; [apply from_quiet|]. intros eventDigest. apply quiet_bind; [apply now_or_quiet|]. intros; apply from_quiet.
Qed.

Lemma projectEffectResult_quiet program before request receipt : quiet (projectEffectResult program before request receipt).
Proof.
  unfold projectEffectResult. apply quiet_bind; [apply reservation_draft_quiet|]. intros reserve.
  apply quiet_bind; [apply receipt_draft_quiet|]. intros settle. destruct (reserve ++ settle); [by constructor|apply from_quiet].
Qed.

(** C38. An effect happens only on the present contract's terms: whatever the runtime dispatches was
    requested under the hash of the current contract, is an action that the contract offers, with the
    detached arguments and the key of the request, while a goal is in focus, under a receipt whose
    dispatch boundary was crossed for this conversation, and was allowed by the action policy at an
    authority that is exactly the program's own head, revision and capability epoch. *)
Theorem dispatch_on_contract adapters lease claim claims programId request s h action input k :
  construct adapters lease claim claims = Ok effects ->
  runs (executeEffect project effects programId request s) h (Await (Dispatch action input) k) ->
  eq_expectedContractSha256 request = TurnContract.ct_sha256 (sn_contract s) /\ verify project s = Ok s /\
  action = eq_action request /\
  (exists a, a ∈ TurnContract.so_eligible_actions (source_of (sn_contract s)) /\ TurnContract.ac_action_id a = action) /\
  detach (eq_arguments request) = Some (ai_arguments input) /\ ai_idempotencyKey input = eq_idempotencyKey request /\
  (exists r, r ∈ crossings h /\ gr_receiptId r = ai_receiptId input /\ gr_scopeId r = programId) /\
  exists p authority now decision,
    Program.foldConversationProgram (sn_program s) = Ok p /\ is_Some (Program.pj_focusedGoal p) /\
    (programId, authority) ∈ authorities h /\ ea_binding authority = programBinding p /\
    ActionPolicy.evaluatePreDispatch (pre_input authority
      (with_arguments (effect_proposal programId p request) (ai_arguments input)) now) = Ok decision /\
    ActionPolicy.pd_decision decision = ActionPolicy.Allow.
Proof.
  intros Hcon%construct_registered Hr. unfold executeEffect in Hr.
  apply runs_bind_await in Hr as [[k' []%runs_from_await]|(? & ? & [current p] & -> & Ha & Hr)]. unrun Ha.
  apply accept_effect_Ok in Ha as (-> & Hv & He & Hf & Hg & _ & a & Hin & Ea).
  apply runs_bind_await in Hr as [[k' Hr]|(? & ? & result & -> & _ & Hr)].
  - pose proof (execute_governed effects (effect_proposal programId p request) Hcon) as Hgov.
    destruct (governed_dispatches _ _ _ _ _ _ _ Hgov Hr) as (r & Hcr & [P1 P2 P3 [P4 _] P5 P6 (au & now & d & P7 & P8 & P9 & P10 & _)]).
    cbn in *. subst action. split_and!; try done; [by exists a|by exists r|]. by exists p, au, now, d.
  - exfalso. match type of Hr with runs ?q _ _ => assert (quiet q) as Hq end.
    { apply quiet_bind; [|intros; apply from_quiet].
      destruct (result_receipt result); [apply projectEffectResult_quiet|by constructor]. }
    by destruct (quiet_runs _ _ _ _ action input Hq Hr).
Qed.

(** ** The account of an effect *)

Lemma sound_moves programId s s' :
  rtc (moves project effects programId) s s' -> sound (sn_program s) -> sound (sn_program s').
Proof.
  induction 1 as [|s s1 s' Hs _ IH]; [done|]. intros H. apply IH.
  apply moves_advances in Hs as [_ _ [->|[ds Ha]] _]; [done|]. by destruct (append_sound _ _ _ H Ha).
Qed.

Lemma receipt_draft_Ok before request receipt revision h ds :
  runs (receipt_draft before request receipt revision) h (Return ds) ->
  exists rid, programReceiptId (gr_receiptId receipt) = Ok rid /\
    forall status, settled_status (gr_status receipt) = Some status ->
      (exists r, r ∈ Program.pj_actionReceipts before /\ Program.rp_receiptId r = rid) \/
      exists d result evidence, ds = [d] /\
        Program.ed_payload d = Program.ActionReceiptRecorded rid (eq_attemptId request) status result evidence.
Proof.
  unfold receipt_draft. intros H. apply runs_bind in H as (? & ? & rid & -> & Hid & H). unrun Hid.
  exists rid. split; [done|]. intros status Hst. rewrite Hst in H.
  destruct (List.find _ _) as [r|] eqn:Er.
  - left. apply find_elem in Er as [Hr Ei]. to_prop. by exists r.
  - right. apply runs_bind in H as (? & ? & eventDigest & -> & _ & H). apply runs_bind in H as (? & ? & occurredAt & -> & _ & H).
    unrun H. injection H as <-. by eexists _, _, _.
Qed.

(** A committed effect is accounted for: when the governed execution of the transaction ended with a
    receipt that is settled or indeterminate, the program that the transaction publishes has its receipt,
    from before or by an event logged with the attempt and the very status of that receipt; and the
    caller is told the disposition and the receipt of that execution. *)
Theorem effect_outcome_logged programId s0 s request h s' v ev :
  ProgramHistory.built (sn_program s0) -> rtc (moves project effects programId) s0 s ->
  runs (executeEffect project effects programId request s) h (Return (s', v, ev)) ->
  exists p h1 h2 result, Program.foldConversationProgram (sn_program s) = Ok p /\ h = h1 ++ h2 /\
    runs (execute effects (effect_proposal programId p request)) h1 (Return result) /\
    v = {| xr_disposition := execution_text result; xr_receiptId := gr_receiptId <$> result_receipt result;
           xr_reconciliationJobId := jb_jobId <$> result_job result |} /\
    forall receipt status, result_receipt result = Some receipt -> settled_status (gr_status receipt) = Some status ->
      exists rid, programReceiptId (gr_receiptId receipt) = Ok rid /\
        ((exists r, r ∈ Program.pj_actionReceipts p /\ Program.rp_receiptId r = rid) \/
         exists d outcome evidence, logged (Program.lg_events (sn_program s')) d /\
           Program.ed_payload d = Program.ActionReceiptRecorded rid (eq_attemptId request) status outcome evidence).
Proof.
  intros Hs%built_sound Hr H. apply (sound_moves _ _ _ Hr) in Hs. unfold executeEffect in H.
  apply runs_bind in H as (? & ? & [current p] & -> & Ha & H). unrun Ha.
  apply accept_effect_Ok in Ha as (-> & Hv & _ & Hf & _). apply runs_bind in H as (h1 & ? & result & -> & He & H).
  apply runs_bind in H as (h2 & ? & program & -> & Hp & H). unrun H. injection H as -> <- _.
  destruct (compile_parts _ _ _ _ _ Hrun) as (_ & _ & -> & _).
  eexists p, h1, _, result. split_and!; [done..|]. intros receipt status Er Hst. rewrite Er in Hp.
  unfold projectEffectResult in Hp. apply runs_bind in Hp as (? & ? & reserve & -> & _ & Hp).
  apply runs_bind in Hp as (? & ? & settle & -> & Hd & Hp).
  apply receipt_draft_Ok in Hd as (rid & Hid & Hcase). exists rid. split; [done|].
  destruct (Hcase _ Hst) as [?|(d & outcome & evidence & -> & Ed)]; [by left|right]. exists d, outcome, evidence. split; [|done].
  destruct (reserve ++ [d]) as [|d0 ds] eqn:Eds; [by destruct reserve|]. unrun Hp. rewrite <- Eds in Hp.
  destruct (append_sound _ _ _ Hs Hp) as [_ Hap]. pose proof (ap_logged _ _ _ _ Hap) as Hl.
  apply Forall_app in Hl as [_ Hl]. by apply Forall_cons in Hl as [? _].
Qed.

(** ** Speech *)

(** The grant was current in the snapshot: made for its program revision and contract, on a receipt
    of the contract that records a succeeded effect with a satisfied outcome. *)
Definition authorised s (g : Audibility.ClaimGrant) : Prop :=
  Audibility.cg_authorityRevision g = event_count s /\
  Audibility.cg_turnContractSha256 g = TurnContract.ct_sha256 (sn_contract s) /\
  exists receipt, receipt ∈ TurnContract.so_receipts (source_of (sn_contract s)) /\
    TurnContract.rc_status receipt = TurnContract.RSucceeded /\
    TurnContract.rc_outcome_status receipt = TurnContract.OSatisfied /\
    TurnContract.rc_receipt_sha256 receipt = Audibility.cg_authorityReceiptSha256 g.

Lemma grant_current_authorised s r gid :
  grant_current s (Some r) gid = true -> exists g, own gid (Audibility.r_grants r) = Some g /\ authorised s g.
Proof.
  unfold grant_current, satisfied_receipt. destruct (get_property _ _) as [g| |] eqn:Eg; [|done..]. intros H. to_prop.
  apply get_own in Eg. exists g. split; [done|].
  match goal with H : existsb _ _ = true |- _ => apply existsb_elem in H as (receipt & Hin & H) end. to_prop.
  split_and!; [done..|]. by exists receipt.
Qed.

(** The commit of a release: of two consecutive snapshots the second has the ledger to which a release request
    on the first leads, which adds [d] to the decisions of the response. [r0] is the response before it. *)
Record release_committed (snapshots : list Snapshot) (id : jstr) (j : nat) (d : Audibility.ReleaseDecision)
    (s0 : Snapshot) (r0 : Audibility.ResponseLedger) : Prop := {
  rl_commit : exists n s1 r1 request decisionId,
    snapshots !! n = Some s0 /\ snapshots !! S n = Some s1 /\
    aq_responseId request = id /\
    aq_data request = Audibility.ReleaseRequested decisionId (Audibility.rd_range d) (Audibility.rd_claimGrantIds d) /\
    apply_audibility project request s0 = Ok (s0, sn_audibility s1) /\
    own id (Audibility.l_responses (sn_audibility s1)) = Some (Audibility.Response r1) /\
    Audibility.r_releaseDecisions r1 = Audibility.r_releaseDecisions r0 ++ [d];
  rl_before : own id (Audibility.l_responses (sn_audibility s0)) = Some (Audibility.Response r0);
  rl_place : length (Audibility.r_releaseDecisions r0) = j;
}.

Lemma committed_later l e id j d s0 r0 : release_committed l id j d s0 r0 -> release_committed (l ++ [e]) id j d s0 r0.
Proof.
  intros [(n & s1 & r1 & request & did & H1 & H2 & H) Hb Hp]. constructor; [|done..].
  exists n, s1, r1, request, did. split; [by apply lookup_app_l_Some|].
  split; [by apply lookup_app_l_Some|done].
Qed.

(** Every release decision was in the ledger of the first snapshot or committed since, and then under grants
    that were current in the snapshot it was committed on. *)
Definition spoken (first : Snapshot) (snapshots : list Snapshot) (l : Audibility.Ledger) : Prop :=
  forall id r j d, own id (Audibility.l_responses l) = Some (Audibility.Response r) ->
    Audibility.r_releaseDecisions r !! j = Some d ->
    (exists rf, own id (Audibility.l_responses (sn_audibility first)) = Some (Audibility.Response rf) /\
       Audibility.r_releaseDecisions rf !! j = Some d) \/
    (exists s0 r0, release_committed snapshots id j d s0 r0 /\
       forall gid, gid ∈ Audibility.rd_claimGrantIds d -> exists g, own gid (Audibility.r_grants r) = Some g /\ authorised s0 g).

(** Grants stay, so that what is spoken stays covered. *)
Lemma spoken_later first l s' id r r' j d :
  (forall gid g, own gid (Audibility.r_grants r) = Some g -> own gid (Audibility.r_grants r') = Some g) ->
  ((exists rf, own id (Audibility.l_responses (sn_audibility first)) = Some (Audibility.Response rf) /\
      Audibility.r_releaseDecisions rf !! j = Some d) \/
   (exists s0 r0, release_committed l id j d s0 r0 /\
      forall gid, gid ∈ Audibility.rd_claimGrantIds d -> exists g, own gid (Audibility.r_grants r) = Some g /\ authorised s0 g)) ->
  (exists rf, own id (Audibility.l_responses (sn_audibility first)) = Some (Audibility.Response rf) /\
     Audibility.r_releaseDecisions rf !! j = Some d) \/
  (exists s0 r0, release_committed (l ++ [s']) id j d s0 r0 /\
     forall gid, gid ∈ Audibility.rd_claimGrantIds d -> exists g, own gid (Audibility.r_grants r') = Some g /\ authorised s0 g).
Proof.
  intros Hg [?|(s0 & r0 & Hc & Ha)]; [by left|right]. exists s0, r0. split; [by apply committed_later|].
  intros gid Hin. destruct (Ha gid Hin) as (g & ? & ?). exists g. auto.
Qed.

Lemma spoken_apply first past s request s' evs :
  history evs (sn_audibility s) -> spoken first (past ++ [s]) (sn_audibility s) ->
  apply_audibility project request s = Ok (s, sn_audibility s') -> spoken first ((past ++ [s]) ++ [s']) (sn_audibility s').
Proof.
  intros Hh Hsp Happ id r' j x Hr' Hx. pose proof Happ as (_ & _ & _ & Hauth & d & Ha)%apply_audibility_Ok.
  pose proof (history_ok _ _ Hh) as Hok.
  destruct (apply_decisions _ _ _ _ _ Hok Ha) as [_ Hfrom].
  destruct (Hfrom _ _ Hr') as [Hnil|(r & Hr & Hcase)]; [by rewrite Hnil in Hx|].
  destruct (apply_step _ _ _ _ _ Hok Ha) as [_ Hev].
  destruct (Hev _ _ Hr) as (en & Hen & Hevolves). rewrite Hr' in Hen. injection Hen as <-. cbn in Hevolves.
  pose proof (AudibilityInvariant.ev_grants _ _ Hevolves) as Hg.
  destruct Hcase as [Eds|(Eid & y & did & Eds & Hdata)]; rewrite Eds in Hx.
  { eapply spoken_later; [exact Hg|]. by apply Hsp. }
  apply lookup_app_Some in Hx as [Hx|[Hlen Hx]]; [eapply spoken_later; [exact Hg|]; by apply Hsp|].
  apply list_lookup_singleton_Some in Hx as [Hj <-]. right. exists s, r. split.
  - constructor; [|done|lia]. exists (length past), s', r', request, did. cbn in Eid, Hdata. split_and!; try done.
    + rewrite <- app_assoc. apply list_lookup_middle. done.
    + rewrite lookup_app_r by (rewrite length_app; simpl; lia). rewrite length_app. simpl. by rewrite Nat.add_1_r, Nat.sub_diag.
  - intros gid Hgid. unfold assertClaimAuthority in Hauth. rewrite Hdata in Hauth.
    destruct (Audibility.rd_claimGrantIds _) as [|gid0 gids]; [by apply elem_of_nil in Hgid|].
    apply result_bind_Ok in Hauth as (response & Hres & Hauth). unfold response_property in Hres.
    rewrite <- Eid, (proj2 (get_own _ _ _) Hr) in Hres. injection Hres as <-.
    destruct (negb _) eqn:Eg; [discriminate Hauth|]. to_prop.
    rewrite forallb_elem in Eg. specialize (Eg _ Hgid).
    apply grant_current_authorised in Eg as (g & ? & ?). exists g. auto.
Qed.

(** A grant that the runtime prepares is one that it accepts: recorded under the same contract hash
    on the snapshot it was prepared from, its issue passes every check of the claim's authority, for
    a claim that the response has, on the receipt that was asked for, which the contract lists as a
    succeeded effect with a satisfied outcome. *)
Theorem prepared_grant_accepted request s g event :
  prepareClaimGrant project request (Some s) = Ok g ->
  aq_expectedContractSha256 event = cq_expectedContractSha256 request -> aq_responseId event = cq_responseId request ->
  (exists grantId, aq_data event = Audibility.ClaimGrantIssued grantId (pg_authority g)) ->
  accept_request project s (aq_expectedContractSha256 event) = Ok s /\
  assertClaimAuthority s (audibility_event event s) = Ok tt /\
  Audibility.va_verified (pg_authority g) = true /\
  exists receipt, receipt ∈ TurnContract.so_receipts (source_of (sn_contract s)) /\
    TurnContract.rc_receipt_id receipt = cq_receiptId request /\ TurnContract.rc_receipt_sha256 receipt = pg_evidenceSha256 g /\
    TurnContract.rc_status receipt = TurnContract.RSucceeded /\ TurnContract.rc_outcome_status receipt = TurnContract.OSatisfied.
Proof.
  intros H He Hr (grantId & Hd). unfold prepareClaimGrant, resume in H. apply result_bind_Ok in H as (current & Hv & H).
  apply result_bind_Ok in H as ([] & Hc & H).
  assert (accept_request project s (cq_expectedContractSha256 request) = Ok current) as Hacc
    by (unfold accept_request; rewrite Hv; cbn; by rewrite Hc).
  destruct (accept_Ok _ _ _ _ Hacc) as [-> _]. rewrite He. split; [done|].
  apply result_bind_Ok in H as (response & Hres & H). destruct (match claim_property _ _ with Absent => true | _ => false end); [discriminate H|].
  destruct (List.find _ _) as [receipt|] eqn:Erc; [|done]. apply find_elem in Erc as [Hin Eid].
  destruct (_ || _) eqn:Eg; [discriminate H|]. to_prop.
  apply result_bind_Ok in H as (content & Hcontent & H). destruct (claim_content _) as [c|] eqn:Ecl; [|done]. injection Hcontent as ->.
  apply result_bind_Ok in H as (reopened & _ & H). apply result_bind_Ok in H as (binding & _ & H).
  apply result_bind_Ok in H as (authority & Ha%lift_Ok & H). injection H as <-. cbn in *.
  unfold Audibility.reopenVerifiedClaimGrantAuthority in Ha. split_guards Ha. injection Ha as <-.
  split; [|split; [done|by exists receipt]].
  unfold assertClaimAuthority, audibility_event. cbn. rewrite Hd, Hr. cbn. rewrite !str_eqb_refl, Z.eqb_refl. cbn [negb orb].
  rewrite Hres. cbn. rewrite Ecl. unfold satisfied_receipt. rewrite (proj2 (existsb_elem _ _)).
  - by rewrite bool_decide_eq_true_2.
  - exists receipt. rewrite !bool_decide_eq_true_2 by done. split; [done|]. by rewrite str_eqb_refl.
Qed.

(** A conversation from its first snapshot, with an empty or an imported ledger, and the snapshots it has passed. *)
Inductive trail (programId : jstr) (first : Snapshot) : list Snapshot -> Snapshot -> Prop :=
| trail_start : begins project programId first -> trail programId first [] first
| trail_move past s s' : trail programId first past s -> moves project effects programId s s' ->
    trail programId first (past ++ [s]) s'.

Lemma trail_ok programId first past s :
  trail programId first past s -> runtime_ok project programId s /\ spoken first (past ++ [s]) (sn_audibility s).
Proof.
  induction 1 as [Hb|past s s' _ [IH Hsp] Hm].
  - split; [by apply begins_ok|]. intros id r j d Hr Hd. left. by exists r.
  - apply moves_advances in Hm as Hadv. split; [by eapply advances_ok|].
    destruct (rk_ledger _ _ _ IH) as [evs Hh].
    destruct (av_ledger _ _ _ Hadv) as [E|(request & ledger & Ha & <-)]; [|by eapply spoken_apply].
    rewrite E. intros id r j d Hr Hd. eapply spoken_later; [done|]. by apply Hsp.
Qed.

(** A conversation that starts without a ledger. *)
Lemma initialize_begins programId program s :
  initialize project programId program None = Ok s ->
  begins project programId s /\ forall id, own id (Audibility.l_responses (sn_audibility s)) = None.
Proof.
  intros H. pose proof H as H'. unfold initialize in H. apply result_bind_Ok in H as (log & _ & H).
  apply result_bind_Ok in H as (ledger & Hl & H). apply lift_Ok in Hl.
  destruct (_ || _); [discriminate H|]. destruct (compile_parts _ _ _ _ _ H) as (_ & _ & _ & E & _). split.
  - exists program, None. split; [done|]. exists []. rewrite E. by eapply history_new.
  - rewrite E. unfold Audibility.createAudibilityLedger in Hl. split_guards Hl. by injection Hl as <-.
Qed.

(** C39. What the caller heard of a terminal claim was covered when it was released: for every sample of
    the claim that was acknowledged as played, a release decision of the response covers it and names a grant of the
    claim; and unless that decision was already in the ledger with which the conversation started, it was committed on a
    snapshot of the conversation, by a transaction that adds just this decision to the response and leads to the
    next snapshot, and on that very snapshot the grant was current: made for its program revision
    and its contract, on a receipt in that contract of a succeeded effect whose outcome was satisfied. *)
Theorem heard_claims_authorised programId first past s id r k c x :
  trail programId first past s -> own id (Audibility.l_responses (sn_audibility s)) = Some (Audibility.Response r) ->
  own k (Audibility.r_claims r) = Some c -> SampleRanges.within (Audibility.tc_range c) x ->
  samples (Audibility.r_acknowledgedPlayedRanges r) x ->
  exists j d gid g, Audibility.r_releaseDecisions r !! j = Some d /\ Audibility.rd_outcome d = Audibility.Released /\
    SampleRanges.within (Audibility.rd_range d) x /\ gid ∈ Audibility.rd_claimGrantIds d /\
    own gid (Audibility.r_grants r) = Some g /\ Audibility.cg_claimId g = k /\
    ((exists rf, own id (Audibility.l_responses (sn_audibility first)) = Some (Audibility.Response rf) /\
        Audibility.r_releaseDecisions rf !! j = Some d) \/
     (exists s0 r0, release_committed (past ++ [s]) id j d s0 r0 /\ authorised s0 g)).
Proof.
  intros [Hok Hsp]%trail_ok Hr Hc Hx Hheard. destruct (rk_ledger _ _ _ Hok) as [evs Hh].
  destruct (history_response _ _ _ _ Hh Hr) as [_ Hro].
  destruct (released_claim_decision _ _ Hro k c x Hc Hx (heard_released _ _ Hro _ Hheard)) as (d & gid & g & Hd & ? & ? & Hg & Hown & ?).
  apply list_elem_of_lookup in Hd as [j Hj]. exists j, d, gid, g. split_and!; [done..|].
  destruct (Hsp _ _ _ _ Hr Hj) as [?|(s0 & r0 & Hcm & Ha)]; [by left|right]. exists s0, r0. split; [done|].
  destruct (Ha _ Hg) as (g' & Hown' & ?). rewrite Hown in Hown'. by injection Hown' as <-.
Qed.

End Safety.
End HaccSafety.
