(* ===== verification/HaccDemo.v ===== *)
(** * A conversation under the second runtime

    A call in which the caller is told of an effect: the goal is opened and put in focus, the
    effect is executed against the deterministic store, and the response that reports it is
    granted, released and heard. The runs instantiate the theorems; the last part shows what
    the runtime does on requests that its parts handle differently. *)

From S2P Require Import Prelude JsValue JsText Canonical JsDate Graph Flow FlowValidate FlowRuntime ActionPolicy Program ProgramInvariant ProgramHistory ProgramSafety TurnContract TurnContractProps SampleRanges Audibility AudibilityInvariant AudibilityProps Governed GovernedSystem GovernedTrace DeterministicStore GovernedReplay GovernedDemo HaccRuntime HaccHistory HaccSafety.
Import Governed GovernedSystem GovernedTrace DeterministicStore GovernedReplay GovernedDemo HaccRuntime HaccHistory HaccSafety.

Local Open Scope Z_scope.

Module HaccDemo.

#[local] Existing Instance demo_sha256.
#[local] Existing Instance GovernedDemo.demo_store.
Definition demo_offset : Program.IsoOffsetDatetime := fun s => bool_decide (s <> []).
#[local] Existing Instance demo_offset.

Definition hash (s : string) : jstr := @sha256 demo_sha256 (js s).
Definition call : jstr := STRESS_SUBJECT.

(** ** The projector: the frontier of the focused goal and the receipts of the program *)

Definition stress_action : TurnContract.Action :=
  {| TurnContract.ac_action_id := js "stress.write"; TurnContract.ac_effect := TurnContract.Write;
     TurnContract.ac_purpose := TurnContract.Operation; TurnContract.ac_policy_sha256 := hash "policy";
     TurnContract.ac_semantic_sha256 := hash "write" |}.

Definition contract_receipt (p : Program.Projection) (r : Program.ProgramActionReceipt) : TurnContract.Receipt :=
  let status := match Program.rp_status r with
    | Program.RSucceeded => TurnContract.RSucceeded | Program.RFailed => TurnContract.RFailed
    | _ => TurnContract.RIndeterminate end in
  {| TurnContract.rc_receipt_id := Program.rp_receiptId r; TurnContract.rc_action_id := js "stress.write";
     TurnContract.rc_action_semantic_sha256 := hash "write"; TurnContract.rc_effect := TurnContract.Write;
     TurnContract.rc_capability_epoch := Program.pj_capabilityEpoch p; TurnContract.rc_status := status;
     TurnContract.rc_outcome_authority := TurnContract.EffectOutcome;
     TurnContract.rc_outcome_predicate_sha256 := hash "applied";
     TurnContract.rc_outcome_status := match status with
       | TurnContract.RSucceeded => TurnContract.OSatisfied | _ => TurnContract.OUnverified end;
     TurnContract.rc_settled_revision := Some (Program.pj_revision p);
     TurnContract.rc_receipt_sha256 := Program.rp_evidenceSha256 r |}.

Definition demo_project (prohibited : list TurnContract.ProhibitedClaim) (p : Program.Projection)
    (l : Audibility.Ledger) : option TurnContract.Source :=
  Some (TurnContract.mkSource
    {| TurnContract.cv_conversation_id := Program.pj_programId p; TurnContract.cv_revision := Program.pj_revision p;
       TurnContract.cv_head_sha256 := Program.pj_headSha256 p |} (hash "registry")
    {| TurnContract.cp_mode := TurnContract.FlowMode; TurnContract.cp_mission := None;
       TurnContract.cp_flow := Some {| TurnContract.pl_revision := 1;
         TurnContract.pl_capability_epoch := Program.pj_capabilityEpoch p; TurnContract.pl_state_sha256 := hash "flow" |} |}
    (Program.pj_capabilityEpoch p) [] [stress_action] [] [] prohibited
    (contract_receipt p <$> Program.pj_actionReceipts p) [] []
    {| TurnContract.lf_status := TurnContract.LActive; TurnContract.lf_refresh_required := false;
       TurnContract.lf_preferred := TurnContract.PrAct |}).

(** ** Requests and their runs *)

Inductive Request : Type :=
| ProgramRequest (eventId : string) (payload : Program.Payload)
| EffectOf (attemptId key : string) (arguments : obj jsval)
| Reconciliation (eventId : string) (jobId : jstr)
| Audible (responseId : string) (data : Audibility.EventData)
| Grant (grantId : string)
| ProviderRequest.

Section Play.
Context (project : Program.Projection -> Audibility.Ledger -> option TurnContract.Source).

Definition expected (s : Snapshot) : jstr := TurnContract.ct_sha256 (sn_contract s).
Definition audible_request (s : Snapshot) (responseId : jstr) (sha : jstr) (data : Audibility.EventData) : AudibilityEventRequest :=
  {| aq_expectedContractSha256 := expected s; aq_eventId := js "ev." ++ num_to_string (num_of_Z (Audibility.l_revision (sn_audibility s)));
     aq_responseId := responseId;
     aq_evidence := {| Audibility.er_source := Audibility.eventSource data; Audibility.er_sha256 := sha;
                       Audibility.er_artifactId := None |};
     aq_data := data |}.

(** The grant that the runtime prepares for the claim, on the first receipt of the contract. *)
Definition prepared (s : Snapshot) (responseId claimId : jstr) : result HaccError PreparedClaimGrant :=
  prepareClaimGrant project
    {| cq_expectedContractSha256 := expected s; cq_responseId := responseId; cq_claimId := claimId;
       cq_receiptId := from_option TurnContract.rc_receipt_id [] (head (TurnContract.so_receipts (source_of (sn_contract s)))) |}
    (Some s).

(** The transaction of a request under the current contract. *)
Definition transact (r : Request) (s : Snapshot) : prog Snapshot :=
  let snapshot {A} (p : prog (Snapshot * A * list PendingEvidence)) := bind p (fun x => Return x.1.1) in
  match r with
  | ProgramRequest eventId payload => snapshot (recordProgramEvent project
      {| pq_expectedContractSha256 := expected s; pq_eventId := js eventId; pq_payload := payload; pq_occurredAt := None |} s)
  | EffectOf attemptId key arguments => snapshot (executeEffect project demo_coordinator call
      {| eq_expectedContractSha256 := expected s; eq_attemptId := js attemptId; eq_action := js "stress.write";
         eq_arguments := arguments; eq_idempotencyKey := js key; eq_confirmation := None |} s)
  | Reconciliation eventId jobId => snapshot (reconcileEffect project demo_coordinator
      {| rq_expectedContractSha256 := expected s; rq_eventId := js eventId; rq_jobId := jobId |} s)
  | Audible responseId data => snapshot (recordAudibilityEvent project (audible_request s (js responseId) (hash "heard") data) s)
  | Grant grantId =>
      match prepared s (js "resp.1") (js "done") with
      | Ok g => snapshot (recordAudibilityEvent project (audible_request s (js "resp.1") (pg_evidenceSha256 g)
                  (Audibility.ClaimGrantIssued (js grantId) (pg_authority g))) s)
      | Err _ => Throw
      end
  | ProviderRequest => snapshot (recordProviderEvent project
      {| vq_expectedContractSha256 := expected s; vq_event := JObj (field "type" (jtext "turn.completed")) |} s)
  end.

(** The store reads its authority from the program of the call. *)
Definition authority_of (s : Snapshot) (store : DeterministicEffectStore) : DeterministicEffectStore :=
  match Program.foldConversationProgram (sn_program s) with
  | Ok p => set_authority store (stressAuthority (programBinding p)) false
  | Err _ => store
  end.

(** The requests one after the other, until one fails: the snapshots and the inputs dispatched. *)
Fixpoint play (o : oracle) (s : Snapshot) (store : DeterministicEffectStore) (requests : list Request)
  : list Snapshot * Snapshot * list AdapterInput * list Request :=
  match requests with
  | [] => ([], s, [], [])
  | r :: rest =>
      match drive o (transact r s) (authority_of s store) with
      | (Some s', store', dispatched) =>
          let '(past, last, later, failed) := play o s' store' rest in (s :: past, last, dispatched ++ later, failed)
      | (None, _, dispatched) => ([], s, dispatched, r :: rest)
      end
  end.
End Play.

Definition arguments_of (value : string) : obj jsval := [(js "value", jtext value)].
Definition opening : list Request :=
  [ProgramRequest "open" (Program.GoalOpened (js "goal") (js "write it")); ProgramRequest "focus" (Program.GoalFocused (js "goal"));
   ProgramRequest "frontier" (Program.CapabilityEpochAdvanced 1 2 [js "stress.write"] (js "focus"))].
Definition speaking : list Request :=
  [Audible "resp.1" (Audibility.ResponseRegistered 16000 1);
   Audible "resp.1" (Audibility.PcmChunkGenerated (js "c0") 0 1600 (hash "c0"));
   Audible "resp.1" Audibility.GenerationClosed;
   Audible "resp.1" (Audibility.TerminalClaimRegistered (js "done") Audibility.ExternalEffect (mkRange 200 600) (hash "claim"));
   Grant "g1"; Audible "resp.1" (Audibility.ReleaseRequested (js "d1") (mkRange 0 1600) [js "g1"]);
   Audible "resp.1" (Audibility.PlaybackAcknowledged (js "a1") [mkRange 0 700] [js "d1"]); ProviderRequest].
Definition demo : list Request := opening ++ [EffectOf "try.1" "key-1" (arguments_of "1")] ++ speaking.

Definition success : oracle := demo_oracle (Some (DoCompleted applied)).

(** ** Runs are transactions *)

Lemma drive_runs {A} o (p : prog A) store a store' l : drive o p store = (Some a, store', l) -> exists h, runs p h (Return a).
Proof.
  revert store l. induction p as [b| |c k IH]; intros store l; cbn [drive]; [intros [= ->]; eexists; constructor|done|].
  destruct (answer o c store) as [r s1]. destruct (drive o (k r) s1) as [[res s2] l2] eqn:E. intros [= -> -> _].
  destruct (IH _ _ _ E) as [h Hh]. eexists. by constructor.
Qed.

Lemma runs_snapshot {A} (p : prog (Snapshot * A * list PendingEvidence)) h s' :
  runs (bind p (fun x => Return x.1.1)) h (Return s') -> exists h' v ev, runs p h' (Return (s', v, ev)).
Proof.
  intros (h1 & h2 & [[s v] ev] & -> & Hr & [_ <-]%runs_return)%runs_bind. by exists h1, v, ev.
Qed.

Section Moves.
Context (project : Program.Projection -> Audibility.Ledger -> option TurnContract.Source).

Lemma transact_commits r s h s' :
  runs (transact project r s) h (Return s') -> commits project demo_coordinator call (expected s) s s'.
Proof.
  destruct r as [eventId payload|attemptId key arguments|eventId jobId|responseId data|grantId|]; cbn [transact].
  - intros (h' & v & ev & Hr)%runs_snapshot. by eapply commits_program; [|exact Hr].
  - intros (h' & v & ev & Hr)%runs_snapshot. by eapply commits_effect; [|exact Hr].
  - intros (h' & v & ev & Hr)%runs_snapshot. by eapply commits_reconciliation; [|exact Hr].
  - intros (h' & v & ev & Hr)%runs_snapshot. by eapply commits_audibility; [|exact Hr].
  - destruct (prepared project s (js "resp.1") (js "done")) as [g|]; [|by intros H%runs_inv; destruct h].
    intros (h' & v & ev & Hr)%runs_snapshot. by eapply commits_audibility; [|exact Hr].
  - intros (h' & v & ev & Hr)%runs_snapshot. by eapply commits_provider; [|exact Hr].
Qed.

Lemma play_moves o requests : forall s store past last dispatched failed,
  play project o s store requests = (past, last, dispatched, failed) ->
  nsteps (moves project demo_coordinator call) (length past) s last /\
  forall first before, trail project demo_coordinator call first before s ->
    trail project demo_coordinator call first (before ++ past) last.
Proof.
  induction requests as [|r rest IH]; intros s store past last dispatched failed; cbn [play].
  { intros [= <- <- _ _]. split; [constructor|]. intros first before. by rewrite app_nil_r. }
  destruct (drive o (transact project r s) (authority_of s store)) as [[[s'|] store'] d] eqn:Ed.
  - destruct (play project o s' store' rest) as [[[past' last'] later] failed'] eqn:Ep. intros [= <- <- _ _].
    apply drive_runs in Ed as [h Hr%transact_commits]. destruct (IH _ _ _ _ _ _ Ep) as [Hn Ht].
    assert (moves project demo_coordinator call s s') as Hm by (by eexists).
    split; [cbn; by econstructor|]. intros first before Hb. rewrite cons_middle, app_assoc. apply Ht. by eapply trail_move.
  - intros [= <- <- _ _]. split; [constructor|]. intros first before. by rewrite app_nil_r.
Qed.
End Moves.

(** ** The call *)

Definition outcome : Type := list Snapshot * Snapshot * list AdapterInput * list Request.
Definition final (x : outcome) : Snapshot := x.1.1.2.
Definition complete (x : outcome) : bool := match x.2 with [] => true | _ => false end.
Definition readable (s : Snapshot) : bool :=
  let source := source_of (sn_contract s) in
  (length (TurnContract.so_prohibited source) <=? 252)%nat && negb (TurnContract.lf_refresh_required (TurnContract.so_lifecycle source)).

Definition start (prohibited : list TurnContract.ProhibitedClaim) : result HaccError Snapshot :=
  initialize (demo_project prohibited) call None None.
Definition played (requests : list Request) (s : Snapshot) : outcome := play (demo_project []) success s new_store requests.

Lemma computed_start {E A} (test : A -> bool) (r : result E A) :
  match r with Ok a => test a | Err _ => false end = true -> exists a, r = Ok a /\ test a = true.
Proof. destruct r as [a|]; [|done]. intros H. by exists a. Qed.

(** The history of a call that answers all its requests. *)
Lemma played_call requests s : start [] = Ok s ->
  begins (demo_project []) call s /\
  nsteps (moves (demo_project []) demo_coordinator call) (length (played requests s).1.1.1) s (final (played requests s)) /\
  trail (demo_project []) demo_coordinator call s (played requests s).1.1.1 (final (played requests s)).
Proof.
  intros Hs. unfold final, played. destruct (play _ _ _ _ _) as [[[past last] dispatched] failed] eqn:Ep.
  apply play_moves in Ep as [Hn Ht]. assert (begins (demo_project []) call s) as Hb by apply (initialize_begins _ _ None), Hs.
  split; [exact Hb|]. split; [exact Hn|]. apply (Ht s []), trail_start, Hb.
Qed.

Lemma started_empty s id : start [] = Ok s -> own id (Audibility.l_responses (sn_audibility s)) = None.
Proof.
  intros Hs. assert (initialize (demo_project []) call None None = Ok s) as Hi by exact Hs.
  exact (proj2 (initialize_begins _ _ _ _ Hi) id).
Qed.

Definition demo_test (s : Snapshot) : bool :=
  let x := played demo s in
  complete x && readable (final x) && (length x.1.1.1 =? 12)%nat &&
  match own (js "resp.1") (Audibility.l_responses (sn_audibility (final x))) with
  | Some (Audibility.Response r) =>
      match own (js "done") (Audibility.r_claims r) with
      | Some c => (startSample (Audibility.tc_range c) <=? 250) && (250 <? endSample (Audibility.tc_range c))
      | None => false
      end && existsb (fun rg => (startSample rg <=? 250) && (250 <? endSample rg)) (Audibility.r_acknowledgedPlayedRanges r)
  | _ => false
  end.

Lemma demo_runs_to_end : exists s, start [] = Ok s /\ demo_test s = true.
Proof. apply computed_start. vm_compute. reflexivity. Qed.

Lemma snapshot_replays_witness : exists s0 s,
  start [] = Ok s0 /\ nsteps (moves (demo_project []) demo_coordinator call) 12 s0 s /\ resume (demo_project []) (Some s) = Ok s.
Proof.
  destruct demo_runs_to_end as (s0 & Hs & Ht). destruct (played_call demo s0 Hs) as (Hb & Hn & _).
  unfold demo_test in Ht. apply andb_true_iff in Ht as [[[_ Hr]%andb_true_iff Hl%Nat.eqb_eq]%andb_true_iff _].
  rewrite Hl in Hn. exists s0, (final (played demo s0)). split; [exact Hs|]. split; [exact Hn|].
  destruct (snapshot_replays (demo_project []) demo_coordinator call s0 (final (played demo s0)) Hb) as (_ & _ & _ & _ & H);
    [eapply rtc_nsteps; eauto|].
  apply H. unfold readable in Hr. apply andb_true_iff in Hr as [Hp%Nat.leb_le Hf%negb_true_iff].
  split; [exact Hp|]. intros Hx. congruence.
Defined.

Lemma transactions_append_witness : exists s0 s,
  start [] = Ok s0 /\ sn_runtimeRevision s = sn_runtimeRevision s0 + 12.
Proof.
  destruct demo_runs_to_end as (s0 & Hs & Ht). destruct (played_call demo s0 Hs) as (Hb & Hn & _).
  unfold demo_test in Ht. apply andb_true_iff in Ht as [[_ Hl%Nat.eqb_eq]%andb_true_iff _].
  rewrite Hl in Hn. exists s0, (final (played demo s0)). split; [exact Hs|].
  exact (proj1 (transactions_append (demo_project []) demo_coordinator call s0 12 s0 (final (played demo s0)) Hb (rtc_refl _ _) Hn)).
Defined.

(** The claim that was heard was released on a snapshot of the call. *)
Lemma heard_claims_authorised_witness : exists first past s j d g s0 r0,
  trail (demo_project []) demo_coordinator call first past s /\
  release_committed (demo_project []) (past ++ [s]) (js "resp.1") j d s0 r0 /\
  Audibility.cg_claimId g = js "done" /\ authorised s0 g.
Proof.
  destruct demo_runs_to_end as (s0 & Hs & Ht). destruct (played_call demo s0 Hs) as (_ & _ & Htr).
  unfold demo_test in Ht. apply andb_true_iff in Ht as [_ Ht].
  destruct (own (js "resp.1") _) as [[r|]|] eqn:Er; [|done..]. apply andb_true_iff in Ht as [Hc Ha].
  destruct (own (js "done") _) as [c|] eqn:Ec; [|done]. apply andb_true_iff in Hc as [Hc1%Z.leb_le Hc2%Z.ltb_lt].
  apply existsb_elem in Ha as (rg & Hrg & [H1%Z.leb_le H2%Z.ltb_lt]%andb_true_iff).
  destruct (heard_claims_authorised (demo_project []) demo_coordinator call _ _ _ (js "resp.1") r (js "done") c 250 Htr Er Ec)
    as (j & d & gid & g & _ & _ & _ & _ & _ & Hk & Hor); [exact (conj Hc1 Hc2)|exists rg; exact (conj Hrg (conj H1 H2))|].
  destruct Hor as [(rf & Hrf & _)|(s1 & r0 & Hcm & Hau)].
  - rewrite (started_empty s0 (js "resp.1") Hs) in Hrf. discriminate Hrf.
  - eexists _, _, _, j, d, g, s1, r0. split; [exact Htr|]. split; [exact Hcm|]. split; [exact Hk|exact Hau].
Defined.

(** ** The effect of the call *)

Definition effect_request (s : Snapshot) : EffectRequest :=
  {| eq_expectedContractSha256 := expected s; eq_attemptId := js "try.1"; eq_action := js "stress.write";
     eq_arguments := arguments_of "1"; eq_idempotencyKey := js "key-1"; eq_confirmation := None |}.
Definition effect_history (stop : Call -> bool) (s : Snapshot) :=
  history success stop (executeEffect (demo_project []) demo_coordinator call (effect_request s) s) (authority_of s new_store).

Definition is_dispatch (c : Call) : bool := match c with Dispatch _ _ => true | _ => false end.
Definition at_dispatch {A} (p : prog A) : bool := match p with Await (Dispatch _ _) _ => true | _ => false end.
Lemma at_dispatch_true {A} (p : prog A) : at_dispatch p = true -> exists a i k, p = Await (Dispatch a i) k.
Proof. destruct p as [| |[]]; try done. intros _. by eexists _, _, _. Qed.
Definition succeeded (p : prog (Snapshot * EffectResult * list PendingEvidence)) : bool :=
  match p with Return (_, v, _) => String.eqb (xr_disposition v) "succeeded" | _ => false end.
Lemma succeeded_true p : succeeded p = true -> exists s v ev, p = Return (s, v, ev) /\ xr_disposition v = "succeeded"%string.
Proof. destruct p as [[[s v] ev]| |]; try done. intros H%String.eqb_eq. by exists s, v, ev. Qed.

Definition opened (s : Snapshot) : Snapshot := final (played opening s).

Lemma effect_dispatches : exists s, start [] = Ok s /\
  at_dispatch (effect_history is_dispatch (opened s)).2 && succeeded (effect_history never (opened s)).2 = true.
Proof.
  apply (computed_start (fun s => at_dispatch (effect_history is_dispatch (opened s)).2 &&
    succeeded (effect_history never (opened s)).2)). vm_compute. reflexivity.
Qed.

Lemma dispatch_on_contract_witness : exists s h a i k,
  runs (executeEffect (demo_project []) demo_coordinator call (effect_request s) s) h (Await (Dispatch a i) k) /\
  a = js "stress.write" /\ detach (arguments_of "1") = Some (ai_arguments i) /\
  exists r, r ∈ crossings h /\ gr_receiptId r = ai_receiptId i /\ gr_scopeId r = call.
Proof.
  destruct effect_dispatches as (s0 & Hs & Ht). apply andb_true_iff in Ht as [Ht _].
  assert (Hr : runs (executeEffect (demo_project []) demo_coordinator call (effect_request (opened s0)) (opened s0))
    (effect_history is_dispatch (opened s0)).1 (effect_history is_dispatch (opened s0)).2) by exact (history_runs _ _ _ _).
  destruct (effect_history is_dispatch (opened s0)) as [h q]. cbn in *. apply at_dispatch_true in Ht as (a & i & k & ->).
  exists (opened s0), h, a, i, k. split; [exact Hr|].
  destruct (dispatch_on_contract (demo_project []) demo_coordinator demo_adapters None None None call _ _ h a i k demo_constructed Hr)
    as (_ & _ & ? & _ & ? & _ & ? & _). eauto.
Defined.

Lemma first_built s : start [] = Ok s -> ProgramHistory.built (sn_program s).
Proof.
  unfold start, initialize. intros H. apply result_bind_Ok in H as (log & Hl%lift_Ok & H). apply result_bind_Ok in H as (ledger & _ & H).
  destruct (_ || _); [discriminate H|]. destruct (compile_parts _ _ _ _ _ H) as (_ & _ & -> & _). exists []. exact (from_new _ _ Hl).
Qed.

Lemma effect_outcome_logged_witness : exists s s' v result,
  xr_disposition v = "succeeded"%string /\ execution_text result = "succeeded"%string /\
  forall receipt status, result_receipt result = Some receipt -> settled_status (gr_status receipt) = Some status ->
  exists p rid, programReceiptId (gr_receiptId receipt) = Ok rid /\
    ((exists r, r ∈ Program.pj_actionReceipts p /\ Program.rp_receiptId r = rid) \/
     exists d outcome evidence, logged (Program.lg_events (sn_program s')) d /\
       Program.ed_payload d = Program.ActionReceiptRecorded rid (eq_attemptId (effect_request s)) status outcome evidence).
Proof.
  destruct effect_dispatches as (s0 & Hs & Ht). apply andb_true_iff in Ht as [_ Ht].
  destruct (played_call opening s0 Hs) as (_ & Hn & _). fold (opened s0) in Hn.
  assert (Hr : runs (executeEffect (demo_project []) demo_coordinator call (effect_request (opened s0)) (opened s0))
    (effect_history never (opened s0)).1 (effect_history never (opened s0)).2) by exact (history_runs _ _ _ _).
  destruct (effect_history never (opened s0)) as [h q]. cbn in *. apply succeeded_true in Ht as (s' & v & ev & -> & Hv).
  destruct (effect_outcome_logged (demo_project []) demo_coordinator call s0 (opened s0) (effect_request (opened s0)) h s' v ev
    (first_built s0 Hs) (rtc_nsteps_2 _ _ _ Hn) Hr) as (p & h1 & h2 & result & _ & _ & _ & Ev & Hl).
  exists (opened s0), s', v, result. split; [exact Hv|]. split; [by rewrite Ev in Hv|].
  intros receipt status H1 H2. exists p. exact (Hl receipt status H1 H2).
Defined.

(** The same contract hash is good for one request after another while the program stays. *)
Lemma stale_contract_refused_witness : exists s0 s2,
  start [] = Ok s0 /\ commits (demo_project []) demo_coordinator call (expected s0) s0 s2 /\
  (sn_program s0 = sn_program s0 /\ sn_contract s0 = sn_contract s0 \/
   TurnContractBinding.contracts_collide (sn_contract s0) (sn_contract s0)).
Proof.
  destruct demo_runs_to_end as (s0 & Hs & _). destruct (played_call [] s0 Hs) as (Hb & _).
  destruct (computed_start (fun s => match drive success (transact (demo_project []) ProviderRequest s) new_store with
    | (Some _, _, _) => true | _ => false end) (start [])) as (s & Hs' & Hd); [vm_compute; reflexivity|].
  rewrite Hs in Hs'. injection Hs' as <-.
  destruct (drive success (transact (demo_project []) ProviderRequest s0) new_store) as [[[s2|] st] l] eqn:Ed; [|discriminate Hd].
  apply drive_runs in Ed as [h Hc%transact_commits]. exists s0, s2. split; [exact Hs|]. split; [exact Hc|].
  exact (stale_contract_refused (demo_project []) demo_coordinator call s0 s0 s0 s2 Hb (rtc_refl _ _) (rtc_refl _ _) Hc).
Defined.

Definition claimed (s : Snapshot) : Snapshot := final (played (take 8 demo) s).

Lemma grant_prepared : exists s, start [] = Ok s /\ is_ok (prepared (demo_project []) (claimed s) (js "resp.1") (js "done")) = true.
Proof.
  apply (computed_start (fun s => is_ok (prepared (demo_project []) (claimed s) (js "resp.1") (js "done")))). vm_compute. reflexivity.
Qed.

Lemma prepared_grant_accepted_witness : exists s g,
  Audibility.va_verified (pg_authority g) = true /\
  accept_request (demo_project []) s (expected s) = Ok s /\
  assertClaimAuthority s (audibility_event (audible_request s (js "resp.1") (pg_evidenceSha256 g)
    (Audibility.ClaimGrantIssued (js "g1") (pg_authority g))) s) = Ok tt.
Proof.
  destruct grant_prepared as (s0 & Hs & Hg). unfold prepared in Hg.
  destruct (prepareClaimGrant (demo_project []) _ (Some (claimed s0))) as [g|] eqn:Eg; [|discriminate Hg].
  exists (claimed s0), g.
  destruct (prepared_grant_accepted (demo_project []) _ (claimed s0) g
    (audible_request (claimed s0) (js "resp.1") (pg_evidenceSha256 g) (Audibility.ClaimGrantIssued (js "g1") (pg_authority g))) Eg
    eq_refl eq_refl (ex_intro _ (js "g1") eq_refl)) as (H1 & H2 & H3 & _).
  split; [exact H3|]. split; [exact H1|exact H2].
Defined.

(** ** What the parts make of each other *)

Definition from_start {A} (prohibited : list TurnContract.ProhibitedClaim) (f : Snapshot -> A) : option A :=
  match start prohibited with Ok s => Some (f s) | Err _ => None end.
Definition projection (s : Snapshot) : option Program.Projection :=
  match Program.foldConversationProgram (sn_program s) with Ok p => Some p | Err _ => None end.

(** An attempt id that is used again with another key: the effect is dispatched, and only then does its
    conflict with the program's reservation reject the transaction, so that no receipt of it is kept. *)
Example reused_attempt_dispatches :
  from_start [] (fun s =>
    let x := played (opening ++ [EffectOf "try.1" "key-1" (arguments_of "1"); EffectOf "try.1" "key-2" (arguments_of "1")]) s in
    (length x.2, length x.1.2, length ∘ Program.pj_actionReceipts <$> projection (final x))) =
  Some (1%nat, 2%nat, Some 1%nat).
Proof. vm_compute. reflexivity. Qed.

(** A contract that is full of prohibitions is stored and then refuses every request. *)
Definition prohibitions : list TurnContract.ProhibitedClaim :=
  (fun n => {| TurnContract.ph_claim_id := js "claim." ++ hex_digits 3 (N.of_nat n);
               TurnContract.ph_claim_class := TurnContract.PUnsupported; TurnContract.ph_reason_code := js "policy" |}) <$> seq 0 252.

Example unreadable_contract_stored :
  from_start prohibitions (fun s => match resume (demo_project prohibitions) (Some s) with Err e => Some e | Ok _ => None end) =
  Some (Some RuntimeCorrupt).
Proof. vm_compute. reflexivity. Qed.

Definition audio : list Request :=
  [Audible "resp.1" (Audibility.ResponseRegistered 16000 1);
   Audible "resp.1" (Audibility.PcmChunkGenerated (js "c0") 0 1600 (hash "c0"))].
Definition release (start stop : Z) : Audibility.EventData := Audibility.ReleaseRequested (js "d1") (mkRange start stop) [].
Definition ledger_accepts (s : Snapshot) (data : Audibility.EventData) : bool :=
  is_ok (apply_audibility (demo_project []) (audible_request s (js "resp.1") (hash "heard") data) s).

(** While a response is still being generated, the ledger releases its audio and clears its queue on a
    barge-in, but the program knows no such response yet, and the transaction is rejected. *)
Example streamed_release_rejected :
  from_start [] (fun s =>
    let x := played (audio ++ [Audible "resp.1" (release 0 800)]) s in
    let y := played (audio ++ [Audible "resp.1" (Audibility.PlaybackCleared (js "k1") Audibility.BargeIn)]) s in
    (length x.2, ledger_accepts (final x) (release 0 800),
     length y.2, ledger_accepts (final y) (Audibility.PlaybackCleared (js "k1") Audibility.BargeIn))) =
  Some (1%nat, true, 1%nat, true).
Proof. vm_compute. reflexivity. Qed.

(** Only the last sixteenth of a response was played, and the program holds it fully heard. *)
Example gap_counts_as_heard :
  from_start [] (fun s =>
    let x := played (audio ++ [Audible "resp.1" Audibility.GenerationClosed; Audible "resp.1" (release 0 1600);
      Audible "resp.1" (Audibility.PlaybackAcknowledged (js "a1") [mkRange 1500 1600] [js "d1"])]) s in
    (complete x,
     match own (js "resp.1") (Audibility.l_responses (sn_audibility (final x))) with
     | Some (Audibility.Response r) => Audibility.r_acknowledgedPlayedRanges r | _ => [] end,
     fmap Program.aw_fullyHeard ∘ Program.pj_audibilityFacts <$> projection (final x))) =
  Some (true, [mkRange 1500 1600], Some [true]).
Proof. vm_compute. reflexivity. Qed.

End HaccDemo.
