(* ===== verification/RealtimeAudibility.v ===== *)
(** * The audible state of a realtime session (src/web/lib/realtime/audibility.ts)

    A reducer over numbered events that records, for every spoken response, how much was
    generated, queued and played, what the provider keeps of it in its history, and which
    spans of it are consequential; the scores computed from that; and the decision whether
    consequential spans may be committed as heard.

    Events have their static types; the tests of [parseEvent] on them are [event_ok].
    Fractions and weights of the scores are exact rationals where the code has doubles. *)

From Stdlib Require Import QArith Qabs.
From S2P Require Import Prelude JsValue JsText Canonical Graph Flow FlowValidate FlowRuntime ActionPolicy.

Local Open Scope Z_scope.

Module RealtimeAudibility.

Definition AUDIBILITY_STATE_SCHEMA_VERSION : Z := 1.
Definition MAX_CONSEQUENTIAL_WEIGHT : Z := 1000.

(** ** Events *)

Inductive ContentKind : Type :=
| Authorization | Commitment | Instruction | PolicyContent | SafetyBoundary | StateChange | ToolResult | OtherContent.

Inductive EvidenceSource : Type := ProviderEvent | PlaybackQueue | PlaybackClock | SemanticAlignment | DependencyTrace.
#[export] Instance evidence_source_eq_dec : EqDecision EvidenceSource.
Proof. solve_decision. Defined.

Record EvidenceReference := { er_source : EvidenceSource; er_sha256 : jstr; er_artifactId : option jstr }.

Record ContentSpan := {
  sp_id : jstr;
  sp_startMs : Z;
  sp_endMs : Z;
  sp_kind : ContentKind;
  sp_weight : option jsnum;
  sp_label : option jstr;
  sp_contentHash : jstr;
}.

Inductive HistoryObservation : Type :=
| KnownObserved (retainedThroughMs : Z)
| KnownAssumed (retainedThroughMs : Z) (contractHash : jstr)
| UnknownHistory (reason : jstr).

Inductive ConsumerKind : Type := StateTransition | Claim | ActionConsumer.

Inductive EventData : Type :=
| Generated (throughMs : Z) (final : option bool) (providerHistory : HistoryObservation)
| Queued (throughMs : Z)
| PlayedThrough (throughMs : Z)
| Interrupted (playedThroughMs : Z) (reason : option jstr)
| HistoryRepaired (retainedThroughMs : Z) (repairId : jstr)
| HistoryInvalidated (invalidationId reason : jstr)
| ContentMarked (span : ContentSpan)
| AnnotationCompleted (annotatedThroughMs spanCount : Z)
| DependencyRecorded (spanId consumerId : jstr) (consumerKind : ConsumerKind)
| AnalysisCompleted (dependencyCount : Z) (horizonId : jstr).

Record Event := {
  e_sequence : Z;
  e_eventId : jstr;
  e_responseId : jstr;
  e_evidence : EvidenceReference;
  e_observedAtMs : option Z;
  e_data : EventData;
}.

(** ** State *)

Record Milestone := {
  ml_sequence : Z; ml_eventId : jstr; ml_evidence : EvidenceReference; ml_observedAtMs : option Z
}.

Inductive Basis : Type := Observed | DocumentedAssumption.
#[export] Instance basis_eq_dec : EqDecision Basis.
Proof. solve_decision. Defined.

Record InterruptionRecord := {
  in_milestone : Milestone;
  in_playedThroughMs : Z;
  in_reason : option jstr;
  in_exposureThroughMs : option Z;
  in_exposureBasis : option Basis;
  in_exposureUncertain : bool;
  in_materialUnheardSpanIds : option (list jstr);
}.

Record RepairRecord := { rp_milestone : Milestone; rp_retainedThroughMs : Z; rp_repairId : jstr }.
Record InvalidationRecord := { iv_milestone : Milestone; iv_invalidationId : jstr; iv_reason : jstr }.
Record ContentRecord := { cr_span : ContentSpan; cr_weight : jsnum; cr_markedAt : Milestone }.
Record AnnotationRecord := { an_milestone : Milestone; an_annotatedThroughMs : Z; an_spanCount : Z }.
Record DependencyRecord := {
  dr_milestone : Milestone; dr_spanId : jstr; dr_consumerId : jstr; dr_consumerKind : ConsumerKind
}.
Record AnalysisRecord := { al_milestone : Milestone; al_dependencyCount : Z; al_horizonId : jstr }.

Record Generation := { gn_milestone : Milestone; gn_throughMs : Z; gn_final : bool }.
Record Queue := { qu_milestone : Milestone; qu_throughMs : Z }.
Record Playback := {
  pl_throughMs : Z; pl_lastProgress : option Milestone; pl_interruption : option InterruptionRecord
}.
(** The status is known when there is a boundary. *)
Record ProviderHistory := {
  ph_known : bool;
  ph_throughMs : option Z;
  ph_basis : option Basis;
  ph_contractHash : option jstr;
  ph_unknownReason : option jstr;
  ph_lastObservation : Milestone;
  ph_repairCount : Z;
  ph_lastRepair : option RepairRecord;
  ph_lastInvalidation : option InvalidationRecord;
}.

Record ResponseState := mkResponse {
  r_responseId : jstr;
  r_revision : Z;
  r_generation : Generation;
  r_queue : option Queue;
  r_playback : Playback;
  r_providerHistory : ProviderHistory;
  r_spans : obj ContentRecord;
  r_annotation : option AnnotationRecord;
  r_dependencies : list DependencyRecord;
  r_analysis : option AnalysisRecord;
}.

Record AppliedEvent := { ae_sequence : Z; ae_eventId : jstr; ae_canonicalPayload : jstr }.

Record State := mkState {
  s_revision : Z;
  s_responses : obj ResponseState;
  s_responseOrder : list jstr;
  s_lastAppliedEvent : option AppliedEvent;
  s_lastObservedAtMs : option Z;
}.

Inductive ErrorCode : Type :=
| InvalidEvent | EventSequenceGap | EventSequenceConflict | UnknownResponse | GenerationAlreadyFinal
| GenerationNotMonotonic | QueueExceedsGenerated | QueueNotMonotonic | PlaybackExceedsQueue | PlaybackNotMonotonic
| PlaybackAlreadyInterrupted | InterruptionConflict | RepairExceedsGenerated | SpanExceedsGenerated | SpanIdConflict
| AnnotationAlreadyCompleted | AnnotationBeforeGenerationFinal | AnnotationBoundaryMismatch
| AnnotationSpanCountMismatch | DependencyWithoutScorableInterruption | DependencyWithoutUnheardContent
| DependencyIdConflict | DependencyAnalysisAlreadyCompleted | DependencyAnalysisCountMismatch.

Definition createAudibilityState : State := mkState 0 [] [] None None.

(** ** Validation *)

Definition isFiniteSafeInteger (z minimum : Z) : bool := (Z.abs z <=? ActionPolicy.MAX_SAFE) && (minimum <=? z).

Definition isNonEmptyId (s : jstr) : bool := negb (bool_decide (trim s = [])) && (Z.of_nat (length s) <=? 256).

(** [/^[a-f0-9]{64}$/i] *)
Definition SHA256_PATTERN (s : jstr) : bool :=
  (length s =? 64)%nat && forallb (fun c => is_hex c || ((65 <=? c)%N && (c <=? 70)%N)) s.

Definition parseEvidence (e : EvidenceReference) : bool :=
  SHA256_PATTERN (er_sha256 e) && opt_all isNonEmptyId (er_artifactId e).

Definition history_ok (h : HistoryObservation) (throughMs : Z) : bool :=
  match h with
  | KnownObserved retained => isFiniteSafeInteger retained 0 && (retained <=? throughMs)
  | KnownAssumed retained contractHash =>
      isFiniteSafeInteger retained 0 && (retained <=? throughMs) && SHA256_PATTERN contractHash
  | UnknownHistory reason => isNonEmptyId reason
  end.

(** A weight is finite, positive and at most the maximum. *)
Definition weight_ok (w : jsnum) : bool :=
  is_finite w && num_ltb (num_of_Z 0) w && negb (num_ltb (num_of_Z MAX_CONSEQUENTIAL_WEIGHT) w).

Definition span_ok (s : ContentSpan) : bool :=
  isNonEmptyId (sp_id s) && isFiniteSafeInteger (sp_startMs s) 0 && isFiniteSafeInteger (sp_endMs s) 1 &&
  (sp_startMs s <? sp_endMs s) && opt_all weight_ok (sp_weight s) && SHA256_PATTERN (sp_contentHash s).

(** The evidence that each type of event needs. *)
Definition required_source (d : EventData) : EvidenceSource :=
  match d with
  | Generated _ _ _ | HistoryRepaired _ _ | HistoryInvalidated _ _ => ProviderEvent
  | Queued _ => PlaybackQueue
  | PlayedThrough _ | Interrupted _ _ => PlaybackClock
  | ContentMarked _ | AnnotationCompleted _ _ => SemanticAlignment
  | DependencyRecorded _ _ _ | AnalysisCompleted _ _ => DependencyTrace
  end.

Definition data_ok (d : EventData) : bool :=
  match d with
  | Generated throughMs _ history => isFiniteSafeInteger throughMs 1 && history_ok history throughMs
  | Queued throughMs | PlayedThrough throughMs | Interrupted throughMs _ => isFiniteSafeInteger throughMs 0
  | HistoryRepaired retained repairId => isFiniteSafeInteger retained 0 && isNonEmptyId repairId
  | HistoryInvalidated id reason => isNonEmptyId id && isNonEmptyId reason
  | ContentMarked span => span_ok span
  | AnnotationCompleted throughMs spanCount => isFiniteSafeInteger throughMs 1 && isFiniteSafeInteger spanCount 0
  | DependencyRecorded spanId consumerId _ => isNonEmptyId spanId && isNonEmptyId consumerId
  | AnalysisCompleted count horizonId => isFiniteSafeInteger count 0 && isNonEmptyId horizonId
  end.

(** [parseEvent] on an event of the static type. *)
Definition event_ok (e : Event) : bool :=
  isFiniteSafeInteger (e_sequence e) 1 && isNonEmptyId (e_eventId e) && isNonEmptyId (e_responseId e) &&
  parseEvidence (e_evidence e) && opt_all (fun t => isFiniteSafeInteger t 0) (e_observedAtMs e) &&
  bool_decide (er_source (e_evidence e) = required_source (e_data e)) && data_ok (e_data e).

(** *** The canonical text of an event *)

Definition source_text (s : EvidenceSource) : string :=
  match s with
  | ProviderEvent => "provider_event" | PlaybackQueue => "playback_queue" | PlaybackClock => "playback_clock"
  | SemanticAlignment => "semantic_alignment" | DependencyTrace => "dependency_trace"
  end.
Definition kind_text (k : ContentKind) : string :=
  match k with
  | Authorization => "authorization" | Commitment => "commitment" | Instruction => "instruction"
  | PolicyContent => "policy" | SafetyBoundary => "safety_boundary" | StateChange => "state_change"
  | ToolResult => "tool_result" | OtherContent => "other"
  end.
Definition consumer_text (k : ConsumerKind) : string :=
  match k with StateTransition => "state_transition" | Claim => "claim" | ActionConsumer => "action" end.
Definition evidence_json (e : EvidenceReference) : jsval :=
  JObj (field "source" (jtext (source_text (er_source e))) ++ field "sha256" (JStr (er_sha256 e)) ++
    opt_field "artifactId" JStr (er_artifactId e)).
Definition span_json (s : ContentSpan) : jsval :=
  JObj (field "id" (JStr (sp_id s)) ++ field "startMs" (jnat (sp_startMs s)) ++ field "endMs" (jnat (sp_endMs s)) ++
    field "kind" (jtext (kind_text (sp_kind s))) ++ opt_field "weight" JNum (sp_weight s) ++
    opt_field "label" JStr (sp_label s) ++ field "contentHash" (JStr (sp_contentHash s))).
Definition observation_json (h : HistoryObservation) : jsval :=
  match h with
  | KnownObserved retained =>
      JObj (field "status" (jtext "known") ++ field "retainedThroughMs" (jnat retained) ++ field "basis" (jtext "observed"))
  | KnownAssumed retained contractHash =>
      JObj (field "status" (jtext "known") ++ field "retainedThroughMs" (jnat retained) ++
        field "basis" (jtext "documented_assumption") ++ field "contractHash" (JStr contractHash))
  | UnknownHistory reason => JObj (field "status" (jtext "unknown") ++ field "reason" (JStr reason))
  end.
Definition data_fields (d : EventData) : obj jsval :=
  match d with
  | Generated throughMs final history =>
      field "type" (jtext "generated") ++ field "throughMs" (jnat throughMs) ++ opt_field "final" JBool final ++
      field "providerHistory" (observation_json history)
  | Queued throughMs => field "type" (jtext "queued") ++ field "throughMs" (jnat throughMs)
  | PlayedThrough throughMs => field "type" (jtext "played_through") ++ field "throughMs" (jnat throughMs)
  | Interrupted throughMs reason =>
      field "type" (jtext "interrupted") ++ field "playedThroughMs" (jnat throughMs) ++ opt_field "reason" JStr reason
  | HistoryRepaired retained repairId =>
      field "type" (jtext "provider_history_repaired") ++ field "retainedThroughMs" (jnat retained) ++
      field "repairId" (JStr repairId)
  | HistoryInvalidated id reason =>
      field "type" (jtext "provider_history_invalidated") ++ field "invalidationId" (JStr id) ++ field "reason" (JStr reason)
  | ContentMarked span => field "type" (jtext "consequential_content_marked") ++ field "span" (span_json span)
  | AnnotationCompleted throughMs spanCount =>
      field "type" (jtext "consequential_annotation_completed") ++ field "annotatedThroughMs" (jnat throughMs) ++
      field "spanCount" (jnat spanCount)
  | DependencyRecorded spanId consumerId kind =>
      field "type" (jtext "unheard_content_dependency_recorded") ++ field "spanId" (JStr spanId) ++
      field "consumerId" (JStr consumerId) ++ field "consumerKind" (jtext (consumer_text kind))
  | AnalysisCompleted count horizonId =>
      field "type" (jtext "dependency_analysis_completed") ++ field "dependencyCount" (jnat count) ++
      field "horizonId" (JStr horizonId)
  end.
Definition event_json (e : Event) : jsval :=
  JObj (field "sequence" (jnat (e_sequence e)) ++ field "eventId" (JStr (e_eventId e)) ++
    field "responseId" (JStr (e_responseId e)) ++ field "evidence" (evidence_json (e_evidence e)) ++
    opt_field "observedAtMs" jnat (e_observedAtMs e) ++ data_fields (e_data e)).

(** On these values [canonicalize] writes what [canonicalJson] writes. *)
Definition safeCanonicalize (e : Event) : option jstr := canonicalJson (event_json e).

(** ** Applying events *)

Definition milestone (e : Event) : Milestone :=
  {| ml_sequence := e_sequence e; ml_eventId := e_eventId e; ml_evidence := e_evidence e;
     ml_observedAtMs := e_observedAtMs e |}.

(** [Math.max(0, Math.min(endMs, throughMs) - startMs) / (endMs - startMs)] *)
Definition covered (startMs endMs throughMs : Z) : Z := Z.max 0 (Z.min endMs throughMs - startMs).
Definition prefixCoverage (startMs endMs throughMs : Z) : Q :=
  Qmake (covered startMs endMs throughMs) (Z.to_pos (endMs - startMs)).
Definition exceeds (a b : Q) : bool := negb (Qle_bool a b).

(** The spans of which the provider keeps more than was played. *)
Definition material_span (providerThroughMs playedThroughMs : Z) (s : ContentSpan) : bool :=
  exceeds (prefixCoverage (sp_startMs s) (sp_endMs s) providerThroughMs)
          (prefixCoverage (sp_startMs s) (sp_endMs s) playedThroughMs).
Definition material_ids (spans : obj ContentRecord) (providerThroughMs playedThroughMs : Z) : list jstr :=
  sort_by str_ltb (sp_id <$> List.filter (material_span providerThroughMs playedThroughMs)
                                          ((fun kv => cr_span kv.2) <$> spans)).

Definition responseFor (s : State) (id : jstr) : option ResponseState := own id (s_responses s).

Section Apply.
Variables (state : State) (e : Event).

Definition applyResponse (r : ResponseState) (isNew : bool) : result ErrorCode (State * bool) :=
  match safeCanonicalize e with
  | None => Err InvalidEvent
  | Some text =>
      let next := s_revision state + 1 in
      Ok (mkState next
            (put (r_responseId r)
               (mkResponse (r_responseId r) next (r_generation r) (r_queue r) (r_playback r) (r_providerHistory r)
                  (r_spans r) (r_annotation r) (r_dependencies r) (r_analysis r)) (s_responses state))
            (if isNew then s_responseOrder state ++ [r_responseId r] else s_responseOrder state)
            (Some {| ae_sequence := e_sequence e; ae_eventId := e_eventId e; ae_canonicalPayload := text |})
            (match e_observedAtMs e with Some t => Some t | None => s_lastObservedAtMs state end), false)
  end.

Definition retained (h : HistoryObservation) : option Z :=
  match h with KnownObserved n | KnownAssumed n _ => Some n | UnknownHistory _ => None end.
Definition observed_basis (h : HistoryObservation) : option Basis :=
  match h with
  | KnownObserved _ => Some Observed | KnownAssumed _ _ => Some DocumentedAssumption | UnknownHistory _ => None
  end.

(** The provider history after an observation; repairs and invalidations are kept. *)
Definition observe (h : HistoryObservation) (repairs : Z) (lastRepair : option RepairRecord)
    (lastInvalidation : option InvalidationRecord) : ProviderHistory :=
  {| ph_known := bool_decide (retained h <> None); ph_throughMs := retained h; ph_basis := observed_basis h;
     ph_contractHash := match h with KnownAssumed _ c => Some c | _ => None end;
     ph_unknownReason := match h with UnknownHistory reason => Some reason | _ => None end;
     ph_lastObservation := milestone e; ph_repairCount := repairs; ph_lastRepair := lastRepair;
     ph_lastInvalidation := lastInvalidation |}.

Definition is_true (o : option bool) : bool := bool_decide (o = Some true).

Definition new_response (throughMs : Z) (final : option bool) (h : HistoryObservation) : ResponseState :=
  mkResponse (e_responseId e) (s_revision state)
    {| gn_milestone := milestone e; gn_throughMs := throughMs; gn_final := is_true final |} None
    {| pl_throughMs := 0; pl_lastProgress := None; pl_interruption := None |} (observe h 0 None None) [] None [] None.

(** The exposure of an interruption after a further observation of the provider's history. *)
Definition expose (i : InterruptionRecord) (h : HistoryObservation) : InterruptionRecord :=
  let '(through, basis, uncertain) :=
    match retained h, observed_basis h with
    | Some n, Some b =>
        match in_exposureThroughMs i with
        | None => (Some n, Some b, in_exposureUncertain i)
        | Some x =>
            if x <? n then (Some n, Some b, in_exposureUncertain i)
            else if n =? x then
              (Some x, Some (if bool_decide (in_exposureBasis i = Some Observed) || bool_decide (b = Observed)
                             then Observed else DocumentedAssumption), in_exposureUncertain i)
            else (Some x, in_exposureBasis i, in_exposureUncertain i)
        end
    | _, _ => (None, None, true)
    end in
  {| in_milestone := in_milestone i; in_playedThroughMs := in_playedThroughMs i; in_reason := in_reason i;
     in_exposureThroughMs := through; in_exposureBasis := basis; in_exposureUncertain := uncertain;
     in_materialUnheardSpanIds := None |}.

Definition with_interruption (p : Playback) (i : option InterruptionRecord) : Playback :=
  {| pl_throughMs := pl_throughMs p; pl_lastProgress := pl_lastProgress p; pl_interruption := i |}.

Definition generate (current : ResponseState) (throughMs : Z) (final : option bool) (h : HistoryObservation)
  : result ErrorCode (State * bool) :=
  raise GenerationNotMonotonic when throughMs <? gn_throughMs (r_generation current) ;;
  raise GenerationAlreadyFinal when gn_final (r_generation current) ;;
  let grew := gn_throughMs (r_generation current) <? throughMs in
  let old := r_providerHistory current in
  applyResponse
    (mkResponse (r_responseId current) (r_revision current)
       {| gn_milestone := milestone e; gn_throughMs := throughMs;
          gn_final := gn_final (r_generation current) || is_true final |}
       (r_queue current)
       (match pl_interruption (r_playback current) with
        | Some i => with_interruption (r_playback current) (Some (expose i h))
        | None => r_playback current
        end)
       (observe h (ph_repairCount old) (ph_lastRepair old) (ph_lastInvalidation old))
       (r_spans current) (if grew then None else r_annotation current) (r_dependencies current) (r_analysis current)) false.

Section Current.
Variable current : ResponseState.

Definition queued_through : Z := match r_queue current with Some q => qu_throughMs q | None => 0 end.
Definition with_playback (p : Playback) : ResponseState :=
  mkResponse (r_responseId current) (r_revision current) (r_generation current) (r_queue current) p
    (r_providerHistory current) (r_spans current) (r_annotation current) (r_dependencies current) (r_analysis current).
Definition with_queue (q : Queue) : ResponseState :=
  mkResponse (r_responseId current) (r_revision current) (r_generation current) (Some q) (r_playback current)
    (r_providerHistory current) (r_spans current) (r_annotation current) (r_dependencies current) (r_analysis current).
Definition with_history (h : ProviderHistory) : ResponseState :=
  mkResponse (r_responseId current) (r_revision current) (r_generation current) (r_queue current) (r_playback current)
    h (r_spans current) (r_annotation current) (r_dependencies current) (r_analysis current).
Definition with_content (p : Playback) (spans : obj ContentRecord) (annotation : option AnnotationRecord) : ResponseState :=
  mkResponse (r_responseId current) (r_revision current) (r_generation current) (r_queue current) p
    (r_providerHistory current) spans annotation (r_dependencies current) (r_analysis current).
Definition with_dependencies (dependencies : list DependencyRecord) (analysis : option AnalysisRecord) : ResponseState :=
  mkResponse (r_responseId current) (r_revision current) (r_generation current) (r_queue current) (r_playback current)
    (r_providerHistory current) (r_spans current) (r_annotation current) dependencies analysis.

Definition enqueue (throughMs : Z) : result ErrorCode (State * bool) :=
  raise QueueExceedsGenerated when gn_throughMs (r_generation current) <? throughMs ;;
  raise QueueNotMonotonic when throughMs <? queued_through ;;
  applyResponse (with_queue {| qu_milestone := milestone e; qu_throughMs := throughMs |}) false.

Definition play_through (throughMs : Z) : result ErrorCode (State * bool) :=
  raise PlaybackExceedsQueue when queued_through <? throughMs ;;
  raise PlaybackNotMonotonic when throughMs <? pl_throughMs (r_playback current) ;;
  raise PlaybackAlreadyInterrupted when
    bool_decide (is_Some (pl_interruption (r_playback current))) && (pl_throughMs (r_playback current) <? throughMs) ;;
  applyResponse (with_playback {| pl_throughMs := throughMs; pl_lastProgress := Some (milestone e);
                                  pl_interruption := pl_interruption (r_playback current) |}) false.

Definition interrupt (playedThroughMs : Z) (reason : option jstr) : result ErrorCode (State * bool) :=
  raise PlaybackExceedsQueue when queued_through <? playedThroughMs ;;
  raise PlaybackNotMonotonic when playedThroughMs <? pl_throughMs (r_playback current) ;;
  raise InterruptionConflict when bool_decide (is_Some (pl_interruption (r_playback current))) ;;
  let h := r_providerHistory current in
  let material :=
    match ph_throughMs h with
    | Some provider =>
        if gn_final (r_generation current) && bool_decide (is_Some (r_annotation current)) &&
           bool_decide (ph_basis h = Some Observed)
        then Some (material_ids (r_spans current) provider playedThroughMs) else None
    | None => None
    end in
  applyResponse (with_playback
    {| pl_throughMs := playedThroughMs; pl_lastProgress := Some (milestone e);
       pl_interruption := Some
         {| in_milestone := milestone e; in_playedThroughMs := playedThroughMs; in_reason := reason;
            in_exposureThroughMs := ph_throughMs h; in_exposureBasis := ph_basis h;
            in_exposureUncertain := negb (ph_known h); in_materialUnheardSpanIds := material |} |}) false.

Definition repair (retainedThroughMs : Z) (repairId : jstr) : result ErrorCode (State * bool) :=
  raise RepairExceedsGenerated when gn_throughMs (r_generation current) <? retainedThroughMs ;;
  applyResponse (with_history
    {| ph_known := true; ph_throughMs := Some retainedThroughMs; ph_basis := Some Observed; ph_contractHash := None;
       ph_unknownReason := None; ph_lastObservation := milestone e;
       ph_repairCount := ph_repairCount (r_providerHistory current) + 1;
       ph_lastRepair := Some {| rp_milestone := milestone e; rp_retainedThroughMs := retainedThroughMs; rp_repairId := repairId |};
       ph_lastInvalidation := ph_lastInvalidation (r_providerHistory current) |}) false.

Definition invalidate (invalidationId reason : jstr) : result ErrorCode (State * bool) :=
  applyResponse (with_history
    {| ph_known := false; ph_throughMs := None; ph_basis := None; ph_contractHash := None; ph_unknownReason := Some reason;
       ph_lastObservation := milestone e; ph_repairCount := ph_repairCount (r_providerHistory current);
       ph_lastRepair := ph_lastRepair (r_providerHistory current);
       ph_lastInvalidation :=
         Some {| iv_milestone := milestone e; iv_invalidationId := invalidationId; iv_reason := reason |} |}) false.

Definition mark (span : ContentSpan) : result ErrorCode (State * bool) :=
  raise AnnotationAlreadyCompleted when bool_decide (is_Some (r_annotation current)) ;;
  raise SpanExceedsGenerated when gn_throughMs (r_generation current) <? sp_endMs span ;;
  raise SpanIdConflict when has_own (sp_id span) (r_spans current) ;;
  applyResponse (with_content (r_playback current)
    (put (sp_id span) {| cr_span := span; cr_weight := default (num_of_Z 1) (sp_weight span); cr_markedAt := milestone e |}
       (r_spans current)) (r_annotation current)) false.

Definition annotate (annotatedThroughMs spanCount : Z) : result ErrorCode (State * bool) :=
  raise AnnotationAlreadyCompleted when bool_decide (is_Some (r_annotation current)) ;;
  raise AnnotationBeforeGenerationFinal when negb (gn_final (r_generation current)) ;;
  raise AnnotationBoundaryMismatch when negb (annotatedThroughMs =? gn_throughMs (r_generation current)) ;;
  raise AnnotationSpanCountMismatch when negb (spanCount =? Z.of_nat (length (r_spans current))) ;;
  let annotation := {| an_milestone := milestone e; an_annotatedThroughMs := annotatedThroughMs; an_spanCount := spanCount |} in
  applyResponse (with_content
    (match pl_interruption (r_playback current) with
     | Some i =>
         let material := match in_exposureThroughMs i with
                         | Some provider =>
                             if negb (in_exposureUncertain i) && bool_decide (in_exposureBasis i = Some Observed)
                             then Some (material_ids (r_spans current) provider (in_playedThroughMs i)) else None
                         | None => None
                         end in
         with_interruption (r_playback current) (Some
           {| in_milestone := in_milestone i; in_playedThroughMs := in_playedThroughMs i; in_reason := in_reason i;
              in_exposureThroughMs := in_exposureThroughMs i; in_exposureBasis := in_exposureBasis i;
              in_exposureUncertain := in_exposureUncertain i; in_materialUnheardSpanIds := material |})
     | None => r_playback current
     end) (r_spans current) (Some annotation)) false.

(** The material spans of the interruption, if it is scorable. *)
Definition material : option (list jstr) :=
  match pl_interruption (r_playback current) with Some i => in_materialUnheardSpanIds i | None => None end.

Definition depend (spanId consumerId : jstr) (kind : ConsumerKind) : result ErrorCode (State * bool) :=
  raise DependencyAnalysisAlreadyCompleted when bool_decide (is_Some (r_analysis current)) ;;
  match material with
  | None => Err DependencyWithoutScorableInterruption
  | Some ids =>
      raise DependencyWithoutUnheardContent when negb (includes spanId ids) ;;
      raise DependencyIdConflict when
        existsb (fun d => (dr_consumerId d =?s consumerId) && (dr_spanId d =?s spanId)) (r_dependencies current) ;;
      applyResponse (with_dependencies (r_dependencies current ++
        [{| dr_milestone := milestone e; dr_spanId := spanId; dr_consumerId := consumerId; dr_consumerKind := kind |}])
        (r_analysis current)) false
  end.

Definition analyse (dependencyCount : Z) (horizonId : jstr) : result ErrorCode (State * bool) :=
  raise DependencyAnalysisAlreadyCompleted when bool_decide (is_Some (r_analysis current)) ;;
  match material with
  | None | Some [] => Err DependencyWithoutScorableInterruption
  | Some (_ :: _) =>
      raise DependencyAnalysisCountMismatch when negb (dependencyCount =? Z.of_nat (length (r_dependencies current))) ;;
      applyResponse (with_dependencies (r_dependencies current)
        (Some {| al_milestone := milestone e; al_dependencyCount := dependencyCount; al_horizonId := horizonId |})) false
  end.
End Current.

(** The event on its response. *)
Definition apply_data : result ErrorCode (State * bool) :=
  match e_data e, responseFor state (e_responseId e) with
  | Generated throughMs final h, None => applyResponse (new_response throughMs final h) true
  | Generated throughMs final h, Some current => generate current throughMs final h
  | _, None => Err UnknownResponse
  | Queued throughMs, Some current => enqueue current throughMs
  | PlayedThrough throughMs, Some current => play_through current throughMs
  | Interrupted throughMs reason, Some current => interrupt current throughMs reason
  | HistoryRepaired retained repairId, Some current => repair current retained repairId
  | HistoryInvalidated id reason, Some current => invalidate current id reason
  | ContentMarked span, Some current => mark current span
  | AnnotationCompleted throughMs spanCount, Some current => annotate current throughMs spanCount
  | DependencyRecorded spanId consumerId kind, Some current => depend current spanId consumerId kind
  | AnalysisCompleted count horizonId, Some current => analyse current count horizonId
  end.
End Apply.

(** An event whose number has passed is a duplicate, unless it is the latest with another content. *)
Definition conflicts (state : State) (e : Event) (text : jstr) : bool :=
  match s_lastAppliedEvent state with
  | Some last => (e_sequence e =? ae_sequence last) &&
                 (negb (e_eventId e =?s ae_eventId last) || negb (text =?s ae_canonicalPayload last))
  | None => false
  end.

Definition backwards (state : State) (e : Event) : bool :=
  match e_observedAtMs e, s_lastObservedAtMs state with Some t, Some last => t <? last | _, _ => false end.

(** The state and whether the event was a duplicate. *)
Definition applyAudibilityEvent (state : State) (e : Event) : result ErrorCode (State * bool) :=
  raise InvalidEvent when negb (event_ok e) ;;
  match safeCanonicalize e with
  | None => Err InvalidEvent
  | Some text =>
      if e_sequence e <=? s_revision state then
        raise EventSequenceConflict when conflicts state e text ;; Ok (state, true)
      else
        raise EventSequenceGap when negb (e_sequence e =? s_revision state + 1) ;;
        raise InvalidEvent when backwards state e ;;
        apply_data state e
  end.

(** The error of a batch carries the index of the failed event. *)
Fixpoint apply_from (i : nat) (state : State) (events : list Event) (applied duplicate : bool)
  : result (ErrorCode * nat) (State * bool * bool) :=
  match events with
  | [] => Ok (state, applied, duplicate)
  | e :: events =>
      match applyAudibilityEvent state e with
      | Err code => Err (code, i)
      | Ok (state', d) => apply_from (S i) state' events (applied || negb d) (duplicate || d)
      end
  end.
Definition applyAudibilityEvents (state : State) (events : list Event) : result (ErrorCode * nat) (State * bool * bool) :=
  apply_from 0 state events false false.

(** ** Scores *)

Definition num_Q (n : jsnum) : Q :=
  match n with
  | Finite neg s e =>
      let m := if neg then - Z.of_N s else Z.of_N s in
      if 0 <=? e then inject_Z (m * 10 ^ e) else Qmake m (Z.to_pos (10 ^ (- e)))
  | _ => 0%Q
  end.
Definition Qmax0 (q : Q) : Q := if Qle_bool q 0 then 0%Q else q.
Definition Qsum (l : list Q) : Q := fold_right Qplus 0%Q l.
Definition Qzero (q : Q) : bool := Qeq_bool q 0.

Inductive Hearing : Type := Unheard | PartiallyAudible | FullyAudible.
#[export] Instance hearing_eq_dec : EqDecision Hearing.
Proof. solve_decision. Defined.

Record SpanScore := {
  ss_id : jstr;
  ss_kind : ContentKind;
  ss_weight : Q;
  ss_audibleFraction : Q;
  ss_providerRetainedFraction : option Q;
  ss_unheardExposureFraction : option Q;
  ss_omittedFraction : option Q;
  ss_state : Hearing;
}.

Definition scoreConsequentialSpan (r : ResponseState) (c : ContentRecord) : SpanScore :=
  let s := cr_span c in
  let audible := prefixCoverage (sp_startMs s) (sp_endMs s) (pl_throughMs (r_playback r)) in
  let provider := prefixCoverage (sp_startMs s) (sp_endMs s) <$> ph_throughMs (r_providerHistory r) in
  {| ss_id := sp_id s; ss_kind := sp_kind s; ss_weight := num_Q (cr_weight c); ss_audibleFraction := audible;
     ss_providerRetainedFraction := provider;
     ss_unheardExposureFraction := (fun p => Qmax0 (p - audible)) <$> provider;
     ss_omittedFraction := (fun p => Qmax0 (audible - p)) <$> provider;
     ss_state := if Qzero audible then Unheard else if Qeq_bool audible 1 then FullyAudible else PartiallyAudible |}.

Inductive SemanticEvidence : Type := ObservedMetrics | AssumedMetrics | UnavailableMetrics.
#[export] Instance semantic_evidence_eq_dec : EqDecision SemanticEvidence.
Proof. solve_decision. Defined.

Record ResponseScore := {
  rs_responseId : jstr;
  rs_generationFinal : bool;
  rs_generatedMs : Z;
  rs_queuedMs : Z;
  rs_playedMs : Z;
  rs_queuedButUnplayedMs : Z;
  rs_generatedButUnqueuedMs : Z;
  rs_providerHistoryKnown : bool;
  rs_providerHistoryBasis : option Basis;
  rs_providerHistoryContractHash : option jstr;
  rs_providerHistoryMs : option Z;
  rs_unheardAudioRetainedMs : option Z;
  rs_heardAudioMissingFromHistoryMs : option Z;
  rs_audioStateDivergenceMs : option Z;
  rs_audioStateDivergenceRate : option Q;
  rs_interrupted : bool;
  rs_providerHistoryRepaired : bool;
  rs_providerHistoryInvalidated : bool;
  rs_providerHistoryAligned : option bool;
  rs_semanticMetricsAvailable : bool;
  rs_semanticMetricsEvidence : SemanticEvidence;
  rs_annotationComplete : bool;
  rs_annotationEvidenceSha256 : option jstr;
  rs_spanCount : Z;
  rs_fullyAudibleSpanCount : Z;
  rs_exposedSpanCount : option Z;
  rs_fullyUnheardExposedSpanCount : option Z;
  rs_totalWeight : Q;
  rs_exposedWeight : option Q;
  rs_divergentWeight : option Q;
  rs_exposureRate : option Q;
  rs_mismatchRate : option Q;
  rs_audibleStateDiverged : option bool;
  rs_materialAtInterruption : option bool;
  rs_dependencyCount : Z;
  rs_analysisComplete : bool;
  rs_analysisEvidenceSha256 : option jstr;
  rs_analysisHorizonId : option jstr;
  rs_leaked : option bool;
  rs_spans : list SpanScore;
}.

Definition count_if {A} (p : A -> bool) (l : list A) : Z := Z.of_nat (length (List.filter p l)).
Definition on (b : bool) {A} (a : A) : option A := if b then Some a else None.

(** [w / total], or zero when there is no weight. *)
Definition rate (total w : Q) : Q := if Qzero total then 0%Q else (w / total)%Q.

Section Score.
(** [left.localeCompare(right) < 0] *)
Context (localeLess : jstr -> jstr -> bool).

Definition span_less (a b : ContentRecord) : bool :=
  let x := cr_span a in let y := cr_span b in
  (sp_startMs x <? sp_startMs y) ||
  ((sp_startMs x =? sp_startMs y) &&
   ((sp_endMs x <? sp_endMs y) || ((sp_endMs x =? sp_endMs y) && localeLess (sp_id x) (sp_id y)))).

Definition scoreResponseAudibility (r : ResponseState) : ResponseScore :=
  let generatedMs := gn_throughMs (r_generation r) in
  let queuedMs := queued_through r in
  let playedMs := pl_throughMs (r_playback r) in
  let providerHistoryMs := ph_throughMs (r_providerHistory r) in
  let unheard := (fun h => Z.max 0 (h - playedMs)) <$> providerHistoryMs in
  let missing := (fun h => Z.max 0 (playedMs - h)) <$> providerHistoryMs in
  let divergence := match unheard, missing with Some u, Some m => Some (u + m) | _, _ => None end in
  let spans := scoreConsequentialSpan r <$> sort_by span_less (snd <$> r_spans r) in
  let total := Qsum (ss_weight <$> spans) in
  let annotated := bool_decide (is_Some (r_annotation r)) in
  let available := bool_decide (is_Some providerHistoryMs) && annotated in
  let observed := bool_decide (ph_basis (r_providerHistory r) = Some Observed) in
  let exposed := on available (Qsum ((fun s => ss_weight s * default 0 (ss_unheardExposureFraction s)) <$> spans)%Q) in
  let divergent := on available
    (Qsum ((fun s => ss_weight s * Qabs (default 0 (ss_providerRetainedFraction s) - ss_audibleFraction s)) <$> spans)%Q) in
  let material := match pl_interruption (r_playback r) with
                  | Some i => (fun ids => bool_decide (ids <> [])) <$> in_materialUnheardSpanIds i | None => None end in
  {| rs_responseId := r_responseId r; rs_generationFinal := gn_final (r_generation r); rs_generatedMs := generatedMs;
     rs_queuedMs := queuedMs; rs_playedMs := playedMs; rs_queuedButUnplayedMs := Z.max 0 (queuedMs - playedMs);
     rs_generatedButUnqueuedMs := Z.max 0 (generatedMs - queuedMs);
     rs_providerHistoryKnown := ph_known (r_providerHistory r); rs_providerHistoryBasis := ph_basis (r_providerHistory r);
     rs_providerHistoryContractHash := ph_contractHash (r_providerHistory r); rs_providerHistoryMs := providerHistoryMs;
     rs_unheardAudioRetainedMs := unheard; rs_heardAudioMissingFromHistoryMs := missing;
     rs_audioStateDivergenceMs := divergence;
     rs_audioStateDivergenceRate := (fun d => inject_Z d / inject_Z generatedMs)%Q <$> divergence;
     rs_interrupted := bool_decide (is_Some (pl_interruption (r_playback r)));
     rs_providerHistoryRepaired := bool_decide (is_Some (ph_lastRepair (r_providerHistory r)));
     rs_providerHistoryInvalidated := bool_decide (is_Some (ph_lastInvalidation (r_providerHistory r)));
     rs_providerHistoryAligned := (fun h => h =? playedMs) <$> providerHistoryMs;
     rs_semanticMetricsAvailable := available;
     rs_semanticMetricsEvidence := if negb available then UnavailableMetrics
                                   else if observed then ObservedMetrics else AssumedMetrics;
     rs_annotationComplete := annotated;
     rs_annotationEvidenceSha256 := (fun a => er_sha256 (ml_evidence (an_milestone a))) <$> r_annotation r;
     rs_spanCount := Z.of_nat (length spans);
     rs_fullyAudibleSpanCount := count_if (fun s => bool_decide (ss_state s = FullyAudible)) spans;
     rs_exposedSpanCount := on available (count_if (fun s => exceeds (default 0%Q (ss_unheardExposureFraction s)) 0) spans);
     rs_fullyUnheardExposedSpanCount := on available
       (count_if (fun s => Qzero (ss_audibleFraction s) && exceeds (default 0%Q (ss_providerRetainedFraction s)) 0) spans);
     rs_totalWeight := total; rs_exposedWeight := exposed; rs_divergentWeight := divergent;
     rs_exposureRate := rate total <$> exposed; rs_mismatchRate := rate total <$> divergent;
     rs_audibleStateDiverged :=
       if gn_final (r_generation r) && observed && annotated then (fun w => exceeds w 0) <$> exposed else None;
     rs_materialAtInterruption := material; rs_dependencyCount := Z.of_nat (length (r_dependencies r));
     rs_analysisComplete := bool_decide (is_Some (r_analysis r));
     rs_analysisEvidenceSha256 := (fun a => er_sha256 (ml_evidence (al_milestone a))) <$> r_analysis r;
     rs_analysisHorizonId := al_horizonId <$> r_analysis r;
     rs_leaked := if bool_decide (material = Some true) && bool_decide (is_Some (r_analysis r))
                  then Some (negb (length (r_dependencies r) =? 0)%nat) else None;
     rs_spans := spans |}.

Record AudibilityScore := {
  sc_responseCount : Z;
  sc_terminalResponseCount : Z;
  sc_providerHistoryScorable : Z;
  sc_observedProviderHistory : Z;
  sc_assumedProviderHistory : Z;
  sc_semanticScorable : Z;
  sc_divergenceCheckpoints : option Z;
  sc_audibleStateDivergenceRate : option Q;
  sc_interrupted : Z;
  sc_alignedInterrupted : Z;
  sc_divergedInterrupted : Z;
  sc_pendingInterrupted : Z;
  sc_unresolvedInterrupted : Z;
  sc_generatedMs : Z;
  sc_queuedButUnplayedMs : Z;
  sc_audioStateDivergenceMs : option Z;
  sc_audioStateDivergenceRate : option Q;
  sc_spanCount : Z;
  sc_exposedSpanCount : option Z;
  sc_fullyUnheardExposedSpanCount : option Z;
  sc_totalWeight : Q;
  sc_exposedWeight : option Q;
  sc_divergentWeight : option Q;
  sc_exposureRate : option Q;
  sc_mismatchRate : option Q;
  sc_interruptionExposureScorable : Z;
  sc_interruptedMaterialExposure : Z;
  sc_leakageResponses : Z;
  sc_horizonIds : list jstr;
  sc_leakageRate : option Q;
  sc_responses : list ResponseScore;
}.

Definition Zsum (l : list Z) : Z := fold_right Z.add 0 l.

(** [responses[id]] for the ids in order; every id in the order has its response. *)
Definition scored (state : State) : list ResponseScore :=
  scoreResponseAudibility <$> omap (fun id => own id (s_responses state)) (s_responseOrder state).

Definition scoreAudibility (state : State) (expectedHorizonId : option jstr) : AudibilityScore :=
  let responses := scored state in
  let observed r := bool_decide (rs_providerHistoryBasis r = Some Observed) in
  let all := Z.of_nat (length responses) in
  let scorable := count_if (fun r => rs_generationFinal r && observed r && bool_decide (is_Some (rs_audioStateDivergenceMs r))) responses in
  let semantic := count_if (fun r => bool_decide (rs_semanticMetricsEvidence r = ObservedMetrics)) responses in
  let allAudio := (0 <? all) && (scorable =? all) in
  let allSemantic := (0 <? all) && (semantic =? all) in
  let generatedMs := Zsum (rs_generatedMs <$> responses) in
  let divergence := on allAudio (Zsum ((fun r => default 0 (rs_audioStateDivergenceMs r)) <$> responses)) in
  let total := Qsum (rs_totalWeight <$> responses) in
  let exposed := on allSemantic (Qsum ((fun r => default 0%Q (rs_exposedWeight r)) <$> responses)) in
  let divergent := on allSemantic (Qsum ((fun r => default 0%Q (rs_divergentWeight r)) <$> responses)) in
  let interrupted := List.filter rs_interrupted responses in
  let count := Z.of_nat (length interrupted) in
  let resolved := List.filter (fun r => rs_generationFinal r && observed r) interrupted in
  let aligned := count_if (fun r => rs_generationFinal r && observed r && bool_decide (rs_providerHistoryAligned r = Some true)) interrupted in
  let checkpoints := on allSemantic (count_if (fun r => bool_decide (rs_audibleStateDiverged r = Some true)) responses) in
  let exposures := count_if (fun r => bool_decide (is_Some (rs_materialAtInterruption r))) interrupted in
  let exposedResponses := List.filter (fun r => bool_decide (rs_materialAtInterruption r = Some true)) interrupted in
  let leaks := count_if (fun r => bool_decide (rs_leaked r = Some true)) exposedResponses in
  let uclrScorable := (exposures =? count) && forallb rs_analysisComplete exposedResponses &&
    match expectedHorizonId with
    | Some id => forallb (fun r => bool_decide (rs_analysisHorizonId r = Some id)) exposedResponses
    | None => false
    end in
  let material := Z.of_nat (length exposedResponses) in
  {| sc_responseCount := all; sc_terminalResponseCount := count_if rs_generationFinal responses;
     sc_providerHistoryScorable := scorable; sc_observedProviderHistory := count_if observed responses;
     sc_assumedProviderHistory :=
       count_if (fun r => bool_decide (rs_providerHistoryBasis r = Some DocumentedAssumption)) responses;
     sc_semanticScorable := semantic; sc_divergenceCheckpoints := checkpoints;
     sc_audibleStateDivergenceRate :=
       match checkpoints with
       | Some c => if all =? 0 then None else Some (inject_Z c / inject_Z all)%Q
       | None => None
       end;
     sc_interrupted := count; sc_alignedInterrupted := aligned;
     sc_divergedInterrupted := count_if (fun r => bool_decide (rs_providerHistoryAligned r = Some false)) resolved;
     sc_pendingInterrupted := count - Z.of_nat (length resolved); sc_unresolvedInterrupted := count - aligned;
     sc_generatedMs := generatedMs; sc_queuedButUnplayedMs := Zsum (rs_queuedButUnplayedMs <$> responses);
     sc_audioStateDivergenceMs := divergence;
     sc_audioStateDivergenceRate :=
       match divergence with
       | Some d => if generatedMs =? 0 then None else Some (inject_Z d / inject_Z generatedMs)%Q
       | None => None
       end;
     sc_spanCount := Zsum (rs_spanCount <$> responses);
     sc_exposedSpanCount := on allSemantic (Zsum ((fun r => default 0 (rs_exposedSpanCount r)) <$> responses));
     sc_fullyUnheardExposedSpanCount :=
       on allSemantic (Zsum ((fun r => default 0 (rs_fullyUnheardExposedSpanCount r)) <$> responses));
     sc_totalWeight := total; sc_exposedWeight := exposed; sc_divergentWeight := divergent;
     sc_exposureRate := rate total <$> exposed; sc_mismatchRate := rate total <$> divergent;
     sc_interruptionExposureScorable := exposures; sc_interruptedMaterialExposure := material;
     sc_leakageResponses := leaks; sc_horizonIds := sort_by str_ltb (uniq (omap rs_analysisHorizonId exposedResponses));
     sc_leakageRate := if negb uclrScorable || (material =? 0) then None else Some (inject_Z leaks / inject_Z material)%Q;
     sc_responses := responses |}.
End Score.

(** ** Committing heard content *)

Record SpanEvidence := { se_spanId : jstr; se_contentHash : jstr; se_alignmentEvidenceSha256 : jstr }.
Record CommitEvidence := {
  ce_stateRevision : Z;
  ce_responseRevision : Z;
  ce_responseId : jstr;
  ce_spanIds : list jstr;
  ce_spanEvidence : list SpanEvidence;
  ce_annotationEvidenceSha256 : jstr;
  ce_playedThroughMs : Z;
  ce_providerHistoryThroughMs : Z;
  ce_generationEvidenceSha256 : jstr;
  ce_playbackEvidenceSha256 : jstr;
  ce_providerHistoryEvidenceSha256 : jstr;
}.

Inductive CommitError : Type :=
| InvalidCommitRequest | CommitUnknownResponse | EmptyCommit | GenerationNotFinal | ProviderHistoryUnknown
| ProviderHistoryUnobserved | AnnotationIncomplete | UnknownSpan (id : jstr) | SpanNotFullyAudible (id : jstr)
| PlaybackEvidenceMissing | ProviderHistoryDiverged.

(** The loop over the requested spans. *)
Fixpoint check_spans (r : ResponseState) (ids : list jstr) : result CommitError (list SpanEvidence) :=
  match ids with
  | [] => Ok []
  | id :: ids =>
      match own id (r_spans r) with
      | None => Err (UnknownSpan id)
      | Some c =>
          raise (SpanNotFullyAudible id) when pl_throughMs (r_playback r) <? sp_endMs (cr_span c) ;;
          let* rest := check_spans r ids in
          Ok ({| se_spanId := id; se_contentHash := sp_contentHash (cr_span c);
                 se_alignmentEvidenceSha256 := er_sha256 (ml_evidence (cr_markedAt c)) |} :: rest)
      end
  end.

Definition playback_milestone (p : Playback) : option Milestone :=
  match pl_interruption p with Some i => Some (in_milestone i) | None => pl_lastProgress p end.

Definition evaluateAudibleCommit (state : State) (responseId : jstr) (requested : list jstr) : result CommitError CommitEvidence :=
  raise InvalidCommitRequest when negb (isNonEmptyId responseId) || negb (forallb isNonEmptyId requested) ;;
  match responseFor state responseId with
  | None => Err CommitUnknownResponse
  | Some r =>
      raise GenerationNotFinal when negb (gn_final (r_generation r)) ;;
      match ph_throughMs (r_providerHistory r) with
      | None => Err ProviderHistoryUnknown
      | Some history =>
          raise ProviderHistoryUnobserved when negb (bool_decide (ph_basis (r_providerHistory r) = Some Observed)) ;;
          match r_annotation r with
          | None => Err AnnotationIncomplete
          | Some annotation =>
              let spanIds := uniq requested in
              raise EmptyCommit when bool_decide (spanIds = []) ;;
              let* spanEvidence := check_spans r spanIds in
              raise ProviderHistoryDiverged when negb (history =? pl_throughMs (r_playback r)) ;;
              match playback_milestone (r_playback r) with
              | None => Err PlaybackEvidenceMissing
              | Some m =>
                  Ok {| ce_stateRevision := s_revision state; ce_responseRevision := r_revision r;
                        ce_responseId := r_responseId r; ce_spanIds := spanIds; ce_spanEvidence := spanEvidence;
                        ce_annotationEvidenceSha256 := er_sha256 (ml_evidence (an_milestone annotation));
                        ce_playedThroughMs := pl_throughMs (r_playback r); ce_providerHistoryThroughMs := history;
                        ce_generationEvidenceSha256 := er_sha256 (ml_evidence (gn_milestone (r_generation r)));
                        ce_playbackEvidenceSha256 := er_sha256 (ml_evidence m);
                        ce_providerHistoryEvidenceSha256 :=
                          er_sha256 (ml_evidence (ph_lastObservation (r_providerHistory r))) |}
              end
          end
      end
  end.

End RealtimeAudibility.
