(* ===== verification/RealtimeAudibilityProps.v ===== *)
(** * What the audible state guarantees

    The invariant of every state that events lead to, and what follows from it for playback,
    for the provider's history and for the content that is committed as heard. *)

From Stdlib Require Import QArith Qabs.
From S2P Require Import Prelude JsValue JsText Canonical Graph Flow FlowValidate FlowRuntime ActionPolicy RealtimeAudibility.
Import RealtimeAudibility.

Local Open Scope Z_scope.

Module RealtimeAudibilityProps.

(** ** The invariant *)

(** An event of the history on the response, with its data. *)
Definition recorded (evs : list Event) (id : jstr) (m : Milestone) (d : EventData) : Prop :=
  exists e, e ∈ evs /\ event_ok e = true /\ e_responseId e = id /\ milestone e = m /\ e_data e = d.

Definition played (r : ResponseState) : Z := pl_throughMs (r_playback r).
Definition generated (r : ResponseState) : Z := gn_throughMs (r_generation r).
Definition final (r : ResponseState) : bool := gn_final (r_generation r).
Definition retains (r : ResponseState) : option Z := ph_throughMs (r_providerHistory r).

(** An interruption and the material spans it was found to expose. *)
Record interruption_ok (evs : list Event) (r : ResponseState) (i : InterruptionRecord) : Prop := {
  io_played : in_playedThroughMs i = played r;
  io_event : recorded evs (r_responseId r) (in_milestone i) (Interrupted (in_playedThroughMs i) (in_reason i));
  io_exposure : forall x, in_exposureThroughMs i = Some x -> 0 <= x <= generated r;
  io_material : forall ids, in_materialUnheardSpanIds i = Some ids ->
    final r = true /\ is_Some (r_annotation r) /\
    exists x, in_exposureThroughMs i = Some x /\ in_exposureBasis i = Some Observed /\
      ids = material_ids (r_spans r) x (in_playedThroughMs i);
}.

Record response_ok (evs : list Event) (r : ResponseState) : Prop := {
  ro_generated : 1 <= generated r /\
    exists f h, recorded evs (r_responseId r) (gn_milestone (r_generation r)) (Generated (generated r) f h) /\
      (final r = true -> f = Some true);
  ro_order : 0 <= played r <= queued_through r /\ queued_through r <= generated r;
  ro_progress : match pl_lastProgress (r_playback r) with
    | None => played r = 0 /\ pl_interruption (r_playback r) = None
    | Some m => recorded evs (r_responseId r) m (PlayedThrough (played r)) \/
                exists reason, recorded evs (r_responseId r) m (Interrupted (played r) reason)
    end;
  ro_interruption : forall i, pl_interruption (r_playback r) = Some i -> interruption_ok evs r i;
  ro_history : forall h, retains r = Some h -> 0 <= h <= generated r;
  ro_observed : forall h, retains r = Some h -> ph_basis (r_providerHistory r) = Some Observed ->
    (exists t f, recorded evs (r_responseId r) (ph_lastObservation (r_providerHistory r)) (Generated t f (KnownObserved h))) \/
    exists repairId, recorded evs (r_responseId r) (ph_lastObservation (r_providerHistory r)) (HistoryRepaired h repairId);
  ro_known : match retains r with
    | Some _ => ph_known (r_providerHistory r) = true /\ is_Some (ph_basis (r_providerHistory r))
    | None => ph_known (r_providerHistory r) = false /\ ph_basis (r_providerHistory r) = None
    end;
  ro_keys : NoDup (keys (r_spans r));
  ro_spans : forall id c, own id (r_spans r) = Some c ->
    sp_id (cr_span c) = id /\ 0 <= sp_startMs (cr_span c) < sp_endMs (cr_span c) /\ sp_endMs (cr_span c) <= generated r /\
    weight_ok (cr_weight c) = true /\ recorded evs (r_responseId r) (cr_markedAt c) (ContentMarked (cr_span c));
  ro_annotation : forall a, r_annotation r = Some a ->
    final r = true /\ an_annotatedThroughMs a = generated r /\ an_spanCount a = Z.of_nat (length (r_spans r)) /\
    recorded evs (r_responseId r) (an_milestone a) (AnnotationCompleted (an_annotatedThroughMs a) (an_spanCount a));
  ro_dependencies : forall d, d ∈ r_dependencies r ->
    exists ids, material r = Some ids /\ dr_spanId d ∈ ids;
  ro_analysis : forall a, r_analysis r = Some a ->
    al_dependencyCount a = Z.of_nat (length (r_dependencies r)) /\ exists x ids, material r = Some (x :: ids);
}.

(** What later events keep of a response. *)
Record evolves (r r' : ResponseState) : Prop := {
  ev_id : r_responseId r' = r_responseId r;
  ev_boundaries : generated r <= generated r' /\ queued_through r <= queued_through r' /\ played r <= played r';
  ev_final : final r = true -> r_generation r' = r_generation r;
  ev_interrupted : forall i, pl_interruption (r_playback r) = Some i -> played r' = played r /\
    exists i', pl_interruption (r_playback r') = Some i' /\ in_playedThroughMs i' = in_playedThroughMs i;
  ev_spans : forall id c, own id (r_spans r) = Some c -> own id (r_spans r') = Some c;
  ev_annotation : is_Some (r_annotation r) -> r_annotation r' = r_annotation r /\ r_spans r' = r_spans r;
  ev_dependencies : r_dependencies r `prefix_of` r_dependencies r';
  ev_analysis : is_Some (r_analysis r) -> r_analysis r' = r_analysis r /\ r_dependencies r' = r_dependencies r;
}.

#[export] Instance evolves_refl : Reflexive evolves.
Proof. intros r. constructor; eauto with lia. Qed.

#[export] Instance evolves_trans : Transitive evolves.
Proof.
  intros a b c [A1 A2 A3 A4 A5 A6 A7 A8] [B1 B2 B3 B4 B5 B6 B7 B8]. constructor.
  - congruence.
  - lia.
  - intros H. rewrite <- (A3 H). apply B3. unfold final in *. by rewrite (A3 H).
  - intros i Hi. destruct (A4 _ Hi) as (E1 & i1 & Hi1 & E2). destruct (B4 _ Hi1) as (E3 & i2 & Hi2 & E4).
    split; [congruence|]. exists i2. split; [done|congruence].
  - auto.
  - intros H. destruct (A6 H) as [E1 E2]. rewrite <- E1 in H. destruct (B6 H) as [E3 E4]. split; congruence.
  - by etrans.
  - intros H. destruct (A8 H) as [E1 E2]. rewrite <- E1 in H. destruct (B8 H) as [E3 E4]. split; congruence.
Qed.

Lemma recorded_mono evs evs' id m d : evs ⊆ evs' -> recorded evs id m d -> recorded evs' id m d.
Proof. intros Hs (e & He & H). exists e. auto. Qed.

Lemma recorded_event evs e : e ∈ evs -> event_ok e = true -> recorded evs (e_responseId e) (milestone e) (e_data e).
Proof. intros H1 H2. by exists e. Qed.

Lemma audible_response_mono evs evs' r : evs ⊆ evs' -> response_ok evs r -> response_ok evs' r.
Proof.
  intros Hs [H1 H2 H3 H4 H5 H6 HK H7 H8 H9 H10 H11].
  pose proof (fun id m d => recorded_mono evs evs' id m d Hs) as Hm. constructor; try done.
  - destruct H1 as (? & f & h & ? & ?). split; [done|]. exists f, h. auto.
  - destruct (pl_lastProgress _); [|done]. destruct H3 as [?|[reason ?]]; eauto.
  - intros i Hi. destruct (H4 i Hi). constructor; eauto.
  - intros h E1 E2. destruct (H6 h E1 E2) as [(t & f & ?)|[repairId ?]]; eauto 6.
  - intros id c Hc. destruct (H8 id c Hc) as (? & ? & ? & ? & ?). split_and!; auto; lia.
  - intros a Ha. destruct (H9 a Ha) as (? & ? & ? & ?). split_and!; auto.
Qed.

(** The response with the number of its latest event. *)
Definition stamp (n : Z) (r : ResponseState) : ResponseState :=
  mkResponse (r_responseId r) n (r_generation r) (r_queue r) (r_playback r) (r_providerHistory r) (r_spans r)
    (r_annotation r) (r_dependencies r) (r_analysis r).

Lemma stamp_ok evs n r : response_ok evs r -> response_ok evs (stamp n r).
Proof. intros [H1 H2 H3 H4 H5 H6 HK H7 H8 H9 H10 H11]. constructor; try done. intros i Hi. destruct (H4 i Hi). by constructor. Qed.

Lemma stamp_evolves n r r' : evolves r r' -> evolves r (stamp n r').
Proof. intros []. by constructor. Qed.

(** What one event does to the state. *)
Definition changes (s : State) (e : Event) (r' : ResponseState) (s' : State) : Prop :=
  s_revision s' = s_revision s + 1 /\ r_responseId r' = e_responseId e /\
  s_responses s' = put (e_responseId e) (stamp (s_revision s + 1) r') (s_responses s) /\
  (exists text, safeCanonicalize e = Some text /\
    s_lastAppliedEvent s' = Some {| ae_sequence := e_sequence e; ae_eventId := e_eventId e; ae_canonicalPayload := text |}) /\
  s_responseOrder s' = s_responseOrder s ++ (if has_own (e_responseId e) (s_responses s) then [] else [e_responseId e]).

(** A response that an event on it makes sound and that evolves from the one before. *)
Definition good (evs : list Event) (r r' : ResponseState) : Prop := response_ok evs r' /\ evolves r r'.

Lemma applyResponse_Ok s e r isNew s' d :
  applyResponse s e r isNew = Ok (s', d) -> r_responseId r = e_responseId e ->
  isNew = negb (has_own (e_responseId e) (s_responses s)) -> d = false /\ changes s e r s'.
Proof.
  unfold applyResponse. intros H E ->. destruct (safeCanonicalize e) as [text|] eqn:Ht; [|done].
  injection H as <- <-. split; [done|]. unfold changes, stamp. simpl. rewrite E. split_and!; eauto.
  by destruct (has_own (e_responseId e) (s_responses s)); rewrite ?app_nil_r.
Qed.

(** ** Every event keeps the invariant *)

Section Operations.
Context (evs : list Event) (s : State) (e : Event) (r : ResponseState).
Context (Hin : e ∈ evs) (Hok : event_ok e = true) (Hr : response_ok evs r).
Context (Hcur : responseFor s (e_responseId e) = Some r) (Hid : r_responseId r = e_responseId e).

(** The guards an operation passes before its result. *)
Ltac pass_guards H :=
  repeat match type of H with (if ?b then Err _ else _) = _ => destruct b eqn:?; [discriminate H|] end.
Ltac bounds := unfold queued_through, generated, played, retains in *; simpl in *; lia.

Definition sound (res : result ErrorCode (State * bool)) : Prop :=
  forall s' d, res = Ok (s', d) -> d = false /\ exists r', changes s e r' s' /\ good evs r r'.

Lemma data_of_ok : data_ok (e_data e) = true.
Proof using Hok. unfold event_ok in Hok. by to_prop. Qed.

Lemma record_data d : e_data e = d -> recorded evs (r_responseId r) (milestone e) d.
Proof using Hin Hok Hid. intros <-. rewrite Hid. by apply recorded_event. Qed.

Lemma applied r' : r_responseId r' = r_responseId r -> good evs r r' -> sound (applyResponse s e r' false).
Proof using Hcur Hid.
  intros E Hg s' d H. apply applyResponse_Ok in H as [-> H]; [by eauto|congruence|].
  symmetry. apply negb_false_iff, has_own_iff, own_is_Some. unfold responseFor in Hcur. by rewrite Hcur.
Qed.

Lemma enqueue_sound t : e_data e = Queued t -> sound (enqueue s e r t).
Proof using All.
  intros E s' d H. unfold enqueue in H. pass_guards H. to_prop. revert s' d H. apply applied; [done|].
  destruct Hr as [R1 R2 R3 R4 R5 R6 RK R7 R8 R9 R10 R11]. split; constructor; try done.
  - bounds.
  - intros i Hi. destruct (R4 i Hi). by constructor.
  - eauto.
Qed.

Lemma play_through_sound t : e_data e = PlayedThrough t -> sound (play_through s e r t).
Proof using All.
  intros E s' d H. unfold play_through in H. pass_guards H. to_prop. revert s' d H. apply applied; [done|].
  assert (Hi : forall i, pl_interruption (r_playback r) = Some i -> t = played r).
  { intros i Hi. rewrite andb_false_iff, bool_decide_eq_false, Z.ltb_ge in *. unfold played.
    destruct Heqb1 as [[]|]; [by rewrite Hi|lia]. }
  destruct Hr as [R1 R2 R3 R4 R5 R6 RK R7 R8 R9 R10 R11]. split; constructor; try done; simpl.
  - bounds.
  - left. by apply record_data.
  - intros i Hi'. destruct (R4 i Hi'). constructor; try done. unfold played in *. simpl. by rewrite (Hi i).
  - intros i Hi'. split; [by apply (Hi i)|eauto].
Qed.

Lemma interrupt_sound t reason : e_data e = Interrupted t reason -> sound (interrupt s e r t reason).
Proof using All.
  intros E s' d H. unfold interrupt in H. pass_guards H. to_prop. revert s' d H. apply applied; [done|].
  assert (Hn : pl_interruption (r_playback r) = None) by by apply eq_None_not_Some.
  destruct Hr as [R1 R2 R3 R4 R5 R6 RK R7 R8 R9 R10 R11].
  assert (Hm : material r = None) by (unfold material; by rewrite Hn).
  split; constructor; try done; simpl.
  - bounds.
  - right. exists reason. by apply record_data.
  - intros i [= <-]. constructor; simpl; [done|by apply record_data|by apply R5|].
    intros ids Hids. split_guards Hids. to_prop. injection Hids as <-. split_and!; try done. eauto.
  - intros dp Hdp. destruct (R10 dp Hdp) as (ids & E1 & _). congruence.
  - intros a Ha. destruct (R11 a Ha) as (_ & ? & ? & ?). congruence.
  - intros i Hi. congruence.
Qed.

Lemma repair_sound t id : e_data e = HistoryRepaired t id -> sound (repair s e r t id).
Proof using All.
  intros E s' d H. unfold repair in H. pass_guards H. to_prop. revert s' d H. apply applied; [done|].
  pose proof data_of_ok as Hd. rewrite E in Hd. unfold data_ok, isFiniteSafeInteger in Hd. to_prop.
  destruct Hr as [R1 R2 R3 R4 R5 R6 RK R7 R8 R9 R10 R11]. split; constructor; try done; simpl.
  - intros i Hi. destruct (R4 i Hi). by constructor.
  - intros h [= <-]. bounds.
  - intros h [= <-] _. right. exists id. by apply record_data.
  - eauto.
Qed.

Lemma invalidate_sound id reason : e_data e = HistoryInvalidated id reason -> sound (invalidate s e r id reason).
Proof using All.
  intros E. apply applied; [done|].
  destruct Hr as [R1 R2 R3 R4 R5 R6 RK R7 R8 R9 R10 R11]. split; constructor; try done; simpl.
  - intros i Hi. destruct (R4 i Hi). by constructor.
  - eauto.
Qed.

Lemma mark_sound span : e_data e = ContentMarked span -> sound (mark s e r span).
Proof using All.
  intros E s' d H. unfold mark in H. pass_guards H. to_prop. revert s' d H. apply applied; [done|].
  assert (Hn : r_annotation r = None) by by apply eq_None_not_Some.
  apply has_own_false in Heqb1.
  pose proof data_of_ok as Hd. rewrite E in Hd. unfold data_ok, span_ok, isFiniteSafeInteger in Hd. to_prop.
  destruct Hr as [R1 R2 R3 R4 R5 R6 RK R7 R8 R9 R10 R11]. split; constructor; try done; simpl.
  - intros i Hi. destruct (R4 i Hi) as [I1 I2 I3 I4]. constructor; try done.
    intros ids Hids. destruct (I4 ids Hids) as (_ & [? ?] & _). congruence.
  - by apply NoDup_keys_put.
  - intros id c. rewrite own_put. destruct (id =?s _) eqn:Ei; to_prop; [subst id|apply R8]. intros [= <-]. simpl.
    split_and!; try done; [|by apply record_data]. by destruct (sp_weight span).
  - intros a Ha. congruence.
  - eauto.
  - intros id c Hc. rewrite own_put. destruct (id =?s _) eqn:Ei; to_prop; [subst id|done]. destruct Heqb1. apply own_is_Some. eauto.
Qed.

(** Annotating settles which spans an interruption exposed. *)
Lemma annotate_sound t n : e_data e = AnnotationCompleted t n -> sound (annotate s e r t n).
Proof using All.
  intros E s' d H. unfold annotate in H. pass_guards H. to_prop. revert s' d H. apply applied; [done|].
  assert (Hn : r_annotation r = None) by by apply eq_None_not_Some. subst t n.
  destruct Hr as [R1 R2 R3 R4 R5 R6 RK R7 R8 R9 R10 R11].
  assert (Hm : material r = None).
  { unfold material. destruct (pl_interruption (r_playback r)) as [i|] eqn:Hi; [|done].
    destruct (in_materialUnheardSpanIds i) eqn:Em; [|done].
    destruct (io_material _ _ _ (R4 i eq_refl) _ Em) as (_ & [? ?] & _). congruence. }
  split; constructor; try done; simpl.
  - unfold played, queued_through, generated in *. simpl. destruct (pl_interruption _); simpl; lia.
  - unfold played in *. simpl. destruct (pl_interruption (r_playback r)) as [j|] eqn:Hj; simpl; [|by rewrite Hj].
    destruct (pl_lastProgress (r_playback r)); [done|]. by destruct R3.
  - intros i Hi. destruct (pl_interruption (r_playback r)) as [j|] eqn:Hj; simpl in Hi; [|congruence].
    injection Hi as <-. destruct (R4 j eq_refl) as [I1 I2 I3 I4]. constructor; simpl; try done.
    intros ids Hids. split_guards Hids. to_prop. injection Hids as <-. split_and!; eauto.
  - intros a [= <-]. split_and!; try done. by apply record_data.
  - intros dp Hdp. destruct (R10 dp Hdp) as (ids & E1 & _). congruence.
  - intros a Ha. destruct (R11 a Ha) as (_ & ? & ? & ?). congruence.
  - unfold played. simpl. split_and!; try done. by destruct (pl_interruption _).
  - intros i Hi. unfold played. simpl. rewrite Hi. simpl. eauto.
Qed.

Lemma depend_sound span id k : e_data e = DependencyRecorded span id k -> sound (depend s e r span id k).
Proof using All.
  intros E s' d H. unfold depend in H. pass_guards H. destruct (material r) as [ids|] eqn:Hm; [|done].
  pass_guards H. to_prop. revert s' d H. apply applied; [done|].
  assert (Hn : r_analysis r = None) by by apply eq_None_not_Some.
  destruct Hr as [R1 R2 R3 R4 R5 R6 RK R7 R8 R9 R10 R11]. split; constructor; try done; simpl.
  - intros i Hi. destruct (R4 i Hi). by constructor.
  - intros dp [Hdp|Hdp%list_elem_of_singleton]%elem_of_app.
    + destruct (R10 dp Hdp) as (ids' & E1 & E2). exists ids'. by split.
    + subst dp. by exists ids.
  - intros a Ha. congruence.
  - eauto.
  - by apply prefix_app_r.
Qed.

Lemma analyse_sound n id : e_data e = AnalysisCompleted n id -> sound (analyse s e r n id).
Proof using All.
  intros E s' d H. unfold analyse in H. pass_guards H. destruct (material r) as [[|x ids]|] eqn:Hm; [done| |done].
  pass_guards H. to_prop. revert s' d H. apply applied; [done|].
  assert (Hn : r_analysis r = None) by by apply eq_None_not_Some.
  destruct Hr as [R1 R2 R3 R4 R5 R6 RK R7 R8 R9 R10 R11]. split; constructor; try done; simpl.
  - intros i Hi. destruct (R4 i Hi). by constructor.
  - intros a [= <-]. split; [done|]. by exists x, ids.
  - eauto.
Qed.

Lemma retained_bounds t f h n : e_data e = Generated t f h -> retained h = Some n -> 0 <= n <= t.
Proof using Hok.
  intros E Hn. pose proof data_of_ok as Hd. rewrite E in Hd. unfold data_ok, history_ok, isFiniteSafeInteger in Hd.
  destruct h; simplify_eq/=; to_prop; lia.
Qed.

Lemma observe_recorded t f h n rc rp iv : e_data e = Generated t f h ->
  ph_throughMs (observe e h rc rp iv) = Some n -> ph_basis (observe e h rc rp iv) = Some Observed -> h = KnownObserved n.
Proof using. intros _. destruct h; simpl; intros; simplify_eq. done. Qed.

Lemma expose_bounds i t f h x : e_data e = Generated t f h ->
  (forall y, in_exposureThroughMs i = Some y -> 0 <= y <= t) -> in_exposureThroughMs (expose i h) = Some x -> 0 <= x <= t.
Proof using Hok.
  intros E Hi Hx. unfold expose in Hx.
  destruct (retained h) as [n|] eqn:Hn, (observed_basis h) as [b|]; simpl in Hx; try done.
  apply (retained_bounds _ _ _ _ E) in Hn. destruct (in_exposureThroughMs i) as [y|] eqn:Hy; simpl in Hx; [|congruence].
  specialize (Hi y eq_refl). destruct (y <? n), (n =? y); simpl in Hx; injection Hx as <-; done.
Qed.

Lemma expose_keeps i h : in_milestone (expose i h) = in_milestone i /\ in_playedThroughMs (expose i h) = in_playedThroughMs i /\
  in_reason (expose i h) = in_reason i /\ in_materialUnheardSpanIds (expose i h) = None.
Proof using. unfold expose. by repeat case_match. Qed.

(** Before the end of generation nothing is annotated and no exposure is settled. *)
Lemma open_unsettled : final r = false -> r_annotation r = None /\ material r = None.
Proof using Hr.
  intros Hf. split.
  - destruct (r_annotation r) as [a|] eqn:Ha; [|done]. destruct (ro_annotation _ _ Hr a Ha). congruence.
  - unfold material. destruct (pl_interruption (r_playback r)) as [i|] eqn:Hi; [|done].
    destruct (in_materialUnheardSpanIds i) eqn:Em; [|done].
    destruct (io_material _ _ _ (ro_interruption _ _ Hr i Hi) _ Em). congruence.
Qed.

Lemma generate_sound t f h : e_data e = Generated t f h -> sound (generate s e r t f h).
Proof using All.
  intros E s' d H. unfold generate in H. pass_guards H. to_prop. cbv zeta in H. revert s' d H. apply applied; [done|].
  destruct (open_unsettled Heqb0) as [Hn Hm].
  destruct Hr as [R1 R2 R3 R4 R5 R6 RK R7 R8 R9 R10 R11].
  set (p := match pl_interruption (r_playback r) with Some _ => _ | None => _ end).
  assert (Hp : pl_throughMs p = played r /\ pl_lastProgress p = pl_lastProgress (r_playback r) /\
    pl_interruption p = (fun i => expose i h) <$> pl_interruption (r_playback r)).
  { unfold p. destruct (pl_interruption (r_playback r)) eqn:Ej; simpl; by rewrite ?Ej. }
  destruct Hp as (P1 & P2 & P3). replace (if gn_throughMs (r_generation r) <? t then None else r_annotation r) with (@None AnnotationRecord)
    by (rewrite Hn; by destruct (_ <? _)). unfold generated in *.
  split; constructor; try done; unfold queued_through, played, generated, final, retains in *; simpl; rewrite ?P1, ?P2, ?P3, ?Heqb0; simpl.
  - split; [lia|]. exists f, h. split; [by apply record_data|]. unfold is_true. intros ?. by to_prop.
  - lia.
  - destruct (pl_lastProgress (r_playback r)); [done|]. destruct R3 as [? ->]. done.
  - intros i. destruct (pl_interruption (r_playback r)) as [j|] eqn:Hj; simpl; [|done]. intros [= <-].
    destruct (R4 j eq_refl) as [I1 I2 I3 I4]. destruct (expose_keeps j h) as (K1 & K2 & K3 & K4).
    constructor; simpl; rewrite ?K1, ?K2, ?K3, ?K4; try done.
    intros x Hx. eapply expose_bounds; [done| |done].
    intros y Hy. specialize (I3 y Hy). unfold generated in *. simpl. lia.
  - intros n Hh. by eapply retained_bounds.
  - intros n E1 E2. left. exists t, f. apply record_data. rewrite E. f_equal.
    by apply (observe_recorded t f h n (ph_repairCount (r_providerHistory r)) (ph_lastRepair (r_providerHistory r))
                (ph_lastInvalidation (r_providerHistory r))).
  - destruct h; simpl; eauto.
  - intros id c Hc. destruct (R8 id c Hc) as (? & ? & ? & ? & ?). split_and!; try done; lia.
  - intros dp Hdp. destruct (R10 dp Hdp) as (ids & E1 & _). congruence.
  - intros a Ha. destruct (R11 a Ha) as (_ & ? & ? & ?). congruence.
  - split_and!; [lia|done|lia].
  - done.
  - intros i Hi. split; [done|]. rewrite Hi. simpl. eexists. split; [done|]. apply expose_keeps.
Qed.

End Operations.

Lemma created_response_ok evs s e t f h : e ∈ evs -> event_ok e = true -> e_data e = Generated t f h ->
  response_ok evs (new_response s e t f h).
Proof.
  intros Hin Hok E. pose proof (data_of_ok e Hok) as Hd. rewrite E in Hd. unfold data_ok, isFiniteSafeInteger in Hd. to_prop.
  assert (Hrec : recorded evs (e_responseId e) (milestone e) (Generated t f h)) by (rewrite <- E; by apply recorded_event).
  constructor; unfold generated, played, queued_through, final, retains; simpl; try done.
  - split; [lia|]. exists f, h. split; [done|]. unfold is_true. intros ?. by to_prop.
  - lia.
  - intros n Hn. by eapply retained_bounds.
  - intros n E1 E2. left. exists t, f. by rewrite <- (observe_recorded e t f h n 0 None None).
  - destruct h; simpl; eauto.
  - apply NoDup_nil_2.
  - intros d Hd. by apply elem_of_nil in Hd.
Qed.

(** ** The state *)

(** The events that were applied, in order, lead to the state. *)
Inductive reached : list Event -> State -> Prop :=
| reached_start : reached [] createAudibilityState
| reached_apply evs s e s' : reached evs s -> applyAudibilityEvent s e = Ok (s', false) -> reached (evs ++ [e]) s'.

Record state_ok (evs : list Event) (s : State) : Prop := {
  so_revision : s_revision s = Z.of_nat (length evs);
  so_order : s_responseOrder s = keys (s_responses s);
  so_keys : NoDup (keys (s_responses s));
  so_response : forall id r, own id (s_responses s) = Some r ->
    r_responseId r = id /\ 1 <= r_revision r <= s_revision s /\ response_ok evs r;
  so_events : forall n e, evs !! n = Some e -> event_ok e = true /\ e_sequence e = Z.of_nat n + 1;
  so_last : match last evs with
    | None => s_lastAppliedEvent s = None
    | Some e => exists text, safeCanonicalize e = Some text /\ s_lastAppliedEvent s =
        Some {| ae_sequence := e_sequence e; ae_eventId := e_eventId e; ae_canonicalPayload := text |}
    end;
}.

(** The step of an event that is not a duplicate. *)
Definition from (s : State) (id : jstr) (r' : ResponseState) : Prop :=
  match own id (s_responses s) with Some r => evolves r r' | None => True end.

Lemma apply_data_sound evs s e s' d : state_ok evs s -> event_ok e = true -> apply_data s e = Ok (s', d) ->
  d = false /\ exists r', changes s e r' s' /\ response_ok (evs ++ [e]) r' /\ from s (e_responseId e) r'.
Proof.
  intros Hs Hok H. assert (Hin : e ∈ evs ++ [e]) by set_solver. unfold apply_data in H.
  destruct (responseFor s (e_responseId e)) as [r|] eqn:Hcur.
  - destruct (so_response _ _ Hs _ _ Hcur) as (Hid & _ & Hr).
    apply (audible_response_mono evs (evs ++ [e])) in Hr; [|set_solver].
    assert (Hgood : sound (evs ++ [e]) s e r (apply_data s e)).
    { unfold apply_data. rewrite Hcur.
      destruct (e_data e) eqn:E; eauto using generate_sound, enqueue_sound, play_through_sound, interrupt_sound, repair_sound,
        invalidate_sound, mark_sound, annotate_sound, depend_sound, analyse_sound. }
    unfold apply_data in Hgood. rewrite Hcur in Hgood. destruct (Hgood s' d H) as (-> & r' & H1 & H2 & H3).
    split; [done|]. exists r'. unfold from. unfold responseFor in Hcur. by rewrite Hcur.
  - destruct (e_data e) eqn:E; try done.
    apply applyResponse_Ok in H as [-> H]; [|done|].
    + split; [done|]. eexists. split; [exact H|]. split; [by apply created_response_ok|].
      unfold from. unfold responseFor in Hcur. by rewrite Hcur.
    + symmetry. apply negb_true_iff, has_own_false. rewrite <- own_is_Some. unfold responseFor in Hcur. by rewrite Hcur.
Qed.

Lemma changes_ok evs s e r' s' : state_ok evs s -> event_ok e = true -> e_sequence e = s_revision s + 1 ->
  changes s e r' s' -> response_ok (evs ++ [e]) r' -> state_ok (evs ++ [e]) s'.
Proof.
  intros [S1 S2 S3 S4 S5 S6] Hok Hseq (C1 & C2 & C3 & (text & C4 & C5) & C6) Hr. constructor.
  - rewrite length_app. simpl. lia.
  - rewrite C6, C3, S2, keys_put. by destruct (has_own (e_responseId e) (s_responses s)); rewrite ?app_nil_r.
  - rewrite C3. by apply NoDup_keys_put.
  - intros id r. rewrite C3, own_put. destruct (id =?s _) eqn:Ei; to_prop.
    + intros [= <-]. simpl. split_and!; [congruence|lia|lia|by apply stamp_ok].
    + intros Hc. destruct (S4 id r Hc) as (? & ? & ?). split_and!; [done|lia|lia|].
      apply (audible_response_mono evs); [set_solver|done].
  - intros n e'. rewrite lookup_app. destruct (evs !! n) as [e1|] eqn:En.
    + intros [= <-]. auto.
    + intros [Hn <-]%list_lookup_singleton_Some. apply lookup_ge_None_1 in En. split; [done|]. lia.
  - rewrite last_snoc. eauto.
Qed.

Lemma reached_ok evs s : reached evs s -> state_ok evs s.
Proof.
  induction 1 as [|evs s e s' _ IH H].
  - constructor; try done. apply NoDup_nil_2.
  - unfold applyAudibilityEvent in H. destruct (event_ok e) eqn:Hok; [|done]. simpl in H.
    destruct (safeCanonicalize e) as [text|]; [|done].
    destruct (_ <=? _); [by destruct (conflicts s e text)|].
    destruct (_ =? _) eqn:Hseq; [|done]. simpl in H. destruct (backwards s e); [done|]. to_prop.
    apply (apply_data_sound evs) in H as (_ & r' & Hc & Hr & _); [|done..]. by eapply changes_ok.
Qed.

(** An accepted event is a duplicate that changes nothing, or the next of the history. *)
Lemma apply_cases s e s' d : applyAudibilityEvent s e = Ok (s', d) ->
  (d = true /\ s' = s /\ e_sequence e <= s_revision s) \/
  (d = false /\ event_ok e = true /\ e_sequence e = s_revision s + 1 /\ apply_data s e = Ok (s', false)).
Proof.
  unfold applyAudibilityEvent. intros H. destruct (event_ok e) eqn:Hok; [|done]. simpl in H.
  destruct (safeCanonicalize e) as [text|]; [|done]. destruct (_ <=? _) eqn:Hle.
  - destruct (conflicts s e text); [done|]. injection H as <- <-. left. to_prop. done.
  - destruct (_ =? _) eqn:Hseq; [|done]. simpl in H. destruct (backwards s e); [done|]. to_prop. right.
    assert (d = false) as ->; [|done].
    unfold apply_data, generate, enqueue, play_through, interrupt, repair, invalidate, mark, annotate, depend, analyse,
      applyResponse in H. split_guards H; by injection H.
Qed.

(** ** Playback and annotation only move forward *)

(** An event accepted by the reducer, a duplicate or not. *)
Definition accepts (s s' : State) : Prop := exists e d, applyAudibilityEvent s e = Ok (s', d).

Lemma accepts_reached evs s s' : reached evs s -> accepts s s' ->
  exists evs', reached (evs ++ evs') s' /\
  forall id r, own id (s_responses s) = Some r -> exists r', own id (s_responses s') = Some r' /\ evolves r r'.
Proof.
  intros Hs (e & d & H). destruct (apply_cases _ _ _ _ H) as [(-> & -> & _)|(-> & Hok & Hseq & Hd)].
  - exists []. rewrite app_nil_r. split; [done|]. intros id r Hr. exists r. by split.
  - exists [e]. split; [by eapply reached_apply|]. intros id r Hr.
    apply (apply_data_sound evs) in Hd as (_ & r' & (_ & _ & C3 & _) & _ & Hfrom); [|by apply reached_ok|done].
    rewrite C3, own_put. destruct (id =?s _) eqn:Ei; to_prop; [|by exists r].
    subst id. unfold from in Hfrom. rewrite Hr in Hfrom. eexists. split; [done|]. by apply stamp_evolves.
Qed.

(** Whatever events are accepted afterwards, a response keeps its identity, what was generated,
    queued and played of it never shrinks, a finished generation and a completed annotation with its
    spans are final, a marked span is never altered, playback never advances past the point of an
    interruption, recorded dependencies are never dropped, and a completed analysis is final. *)
Theorem heard_only_grows evs s s' id r : reached evs s -> rtc accepts s s' -> own id (s_responses s) = Some r ->
  exists r', own id (s_responses s') = Some r' /\ evolves r r'.
Proof.
  intros Hs Hrun. revert evs r Hs. induction Hrun as [s|s s1 s' Hstep _ IH]; intros evs r Hs Hr; [by exists r|].
  destruct (accepts_reached evs s s1 Hs Hstep) as (evs' & H1 & H2). destruct (H2 id r Hr) as (r1 & Hr1 & E1).
  destruct (IH _ _ H1 Hr1) as (r' & Hr' & E2). exists r'. split; [done|]. by etrans.
Qed.

(** ** Delivery *)

Lemma replayed evs s e : reached evs s -> e ∈ evs -> applyAudibilityEvent s e = Ok (s, true).
Proof.
  intros Hs. assert (Hok := reached_ok _ _ Hs). intros [n Hn]%list_elem_of_lookup.
  destruct (so_events _ _ Hok _ _ Hn) as [He Hseq]. assert (Hlen := lookup_lt_Some _ _ _ Hn).
  assert (Htext : exists text, safeCanonicalize e = Some text).
  { clear Hok Hlen Hseq. induction Hs as [|evs s e' s' _ IH H]; [done|].
    apply lookup_app_Some in Hn as [Hn|[_ [_ <-]%list_lookup_singleton_Some]]; [auto|].
    unfold applyAudibilityEvent in H. rewrite He in H. simpl in H. destruct (safeCanonicalize e'); [eauto|done]. }
  destruct Htext as [text Ht]. unfold applyAudibilityEvent. rewrite He, Ht. simpl.
  destruct (Z.leb_spec (e_sequence e) (s_revision s)); [|rewrite (so_revision _ _ Hok) in *; lia].
  unfold conflicts. pose proof (so_last _ _ Hok) as Hlast. destruct (last evs) as [l|] eqn:El; [|by rewrite Hlast].
  destruct Hlast as (text' & Ht' & ->). simpl. destruct (Z.eqb_spec (e_sequence e) (e_sequence l)); [|done]. simpl.
  rewrite last_lookup in El. destruct (so_events _ _ Hok _ _ El) as [_ Hl].
  assert (n = pred (length evs)) as -> by lia. simplify_eq. by rewrite !str_eqb_refl.
Qed.

(** How the result of a batch reads when it starts at another place of a larger batch. *)
Definition shift (n : nat) (duplicate : bool) (res : result (ErrorCode * nat) (State * bool * bool))
  : result (ErrorCode * nat) (State * bool * bool) :=
  match res with
  | Err (code, i) => Err (code, (n + i)%nat)
  | Ok (s, applied, d) => Ok (s, applied, duplicate || d)
  end.

Lemma apply_from_shift evs : forall i s a d d0 n,
  apply_from (n + i) s evs a (d0 || d) = shift n d0 (apply_from i s evs a d).
Proof.
  induction evs as [|e evs IH]; intros i s a d d0 n; simpl; [done|].
  destruct (applyAudibilityEvent s e) as [[s' d']|code]; [|done]. rewrite <- orb_assoc, plus_n_Sm. apply IH.
Qed.

(** Events delivered again are harmless: for a state that a sequence of events led to, a batch that
    starts with any of those events, in any order and any number of times, gives exactly what the rest
    of the batch gives: the same state, the same errors (at their place in the batch) and the same
    applied flag, with the duplicate flag set. *)
Theorem redelivery_is_harmless evs s again rest : reached evs s -> again ⊆ evs ->
  applyAudibilityEvents s (again ++ rest) =
    shift (length again) (negb (length again =? 0)%nat) (applyAudibilityEvents s rest).
Proof.
  intros Hs. unfold applyAudibilityEvents. induction again as [|e again IH]; intros Hsub.
  - simpl. pose proof (apply_from_shift rest 0 s false false false 0) as H. simpl in H. by rewrite H at 1.
  - cbn [app apply_from]. rewrite (replayed evs); [|done|set_solver]. simpl.
    pose proof (apply_from_shift (again ++ rest) 0 s false false true 1) as H. simpl in H. rewrite H.
    rewrite IH by set_solver. destruct (apply_from 0 s rest false false) as [[[s' a] d]|[code i]]; simpl; [|done].
    by destruct (length again =? 0)%nat, d.
Qed.

(** ** Committing content as heard *)

(** The hash is that of the evidence of an applied event with this data, from the source that such
    an event needs. *)
Definition attests (evs : list Event) (id : jstr) (sha256 : jstr) (d : EventData) : Prop :=
  exists m, recorded evs id m d /\ er_sha256 (ml_evidence m) = sha256 /\ er_source (ml_evidence m) = required_source d.

Lemma recorded_attests evs id m d : recorded evs id m d -> attests evs id (er_sha256 (ml_evidence m)) d.
Proof.
  intros H. exists m. split_and!; [done..|]. destruct H as (e & _ & Hok & _ & <- & <-).
  unfold event_ok in Hok. by to_prop.
Qed.

(** The span is marked and was played to its end. *)
Definition heard (r : ResponseState) (id : jstr) : Prop :=
  exists c, own id (r_spans r) = Some c /\ sp_endMs (cr_span c) <= played r.

Lemma check_spans_Ok r ids : forall l, check_spans r ids = Ok l ->
  se_spanId <$> l = ids /\
  forall x, x ∈ l -> exists c, own (se_spanId x) (r_spans r) = Some c /\ sp_endMs (cr_span c) <= played r /\
    se_contentHash x = sp_contentHash (cr_span c) /\
    se_alignmentEvidenceSha256 x = er_sha256 (ml_evidence (cr_markedAt c)).
Proof.
  induction ids as [|id ids IH]; simpl; intros l H.
  - injection H as <-. split; [done|]. intros x Hx. by apply elem_of_nil in Hx.
  - destruct (own id (r_spans r)) as [c|] eqn:Hc; [|done]. destruct (_ <? _) eqn:Hp; [done|]. to_prop.
    destruct (check_spans r ids) as [rest|]; [|done]. simpl in H. injection H as <-.
    destruct (IH rest eq_refl) as [E1 E2]. split; [by rewrite fmap_cons, E1|].
    intros x [->|Hx]%elem_of_cons; [|auto]. simpl. exists c. done.
Qed.

Lemma check_spans_heard r ids : (exists l, check_spans r ids = Ok l) <-> forall x, x ∈ ids -> heard r x.
Proof.
  split.
  - intros [l H]. destruct (check_spans_Ok r ids l H) as [<- H2].
    intros x (y & -> & Hy)%list_elem_of_fmap. destruct (H2 y Hy) as (c & ? & ? & _). by exists c.
  - induction ids as [|id ids IH]; intros H; simpl; [eauto|].
    destruct (H id) as (c & -> & Hle); [set_solver|].
    destruct (Z.ltb_spec (pl_throughMs (r_playback r)) (sp_endMs (cr_span c))); [unfold played in Hle; lia|].
    destruct IH as [l ->]; [set_solver|]. simpl. eauto.
Qed.

Lemma playback_recorded evs r m : response_ok evs r -> playback_milestone (r_playback r) = Some m ->
  recorded evs (r_responseId r) m (PlayedThrough (played r)) \/
  exists reason, recorded evs (r_responseId r) m (Interrupted (played r) reason).
Proof.
  intros Hr. unfold playback_milestone. destruct (pl_interruption (r_playback r)) as [i|] eqn:Hi.
  - intros [= <-]. destruct (ro_interruption _ _ Hr i Hi) as [E H _ _]. rewrite E in H. eauto.
  - intros Hm. pose proof (ro_progress _ _ Hr) as H. by rewrite Hm in H.
Qed.

Lemma evaluate_Ok s id requested c : evaluateAudibleCommit s id requested = Ok c ->
  exists r a m l, own id (s_responses s) = Some r /\ final r = true /\ r_annotation r = Some a /\
    retains r = Some (played r) /\ ph_basis (r_providerHistory r) = Some Observed /\ requested <> [] /\
    check_spans r (uniq requested) = Ok l /\ playback_milestone (r_playback r) = Some m /\
    c = {| ce_stateRevision := s_revision s; ce_responseRevision := r_revision r; ce_responseId := r_responseId r;
           ce_spanIds := uniq requested; ce_spanEvidence := l;
           ce_annotationEvidenceSha256 := er_sha256 (ml_evidence (an_milestone a));
           ce_playedThroughMs := played r; ce_providerHistoryThroughMs := played r;
           ce_generationEvidenceSha256 := er_sha256 (ml_evidence (gn_milestone (r_generation r)));
           ce_playbackEvidenceSha256 := er_sha256 (ml_evidence m);
           ce_providerHistoryEvidenceSha256 := er_sha256 (ml_evidence (ph_lastObservation (r_providerHistory r))) |}.
Proof.
  unfold evaluateAudibleCommit, responseFor. intros H. destruct (_ || _); [done|].
  destruct (own id (s_responses s)) as [r|]; [|done]. destruct (gn_final (r_generation r)) eqn:Hf; [|done]. simpl in H.
  destruct (ph_throughMs (r_providerHistory r)) as [h|] eqn:Hh; [|done].
  destruct (bool_decide (ph_basis _ = _)) eqn:Hb; [|done]. simpl in H.
  destruct (r_annotation r) as [a|] eqn:Ha; [|done]. destruct (bool_decide (uniq _ = _)) eqn:Hu; [done|].
  destruct (check_spans r (uniq requested)) as [l|] eqn:Hl; [|done]. simpl in H.
  destruct (_ =? _) eqn:He; [|done]. simpl in H.
  destruct (playback_milestone _) as [m|] eqn:Hm; [|done]. injection H as <-. to_prop. subst h.
  exists r, a, m, l. split_and!; try done.
  intros ->. done.
Qed.

(** C36. Content is committed as heard only on the evidence of applied events: every requested span was
    marked in the response and played to its end, the generation had ended, the semantic annotation
    of the response was complete, and the provider was observed to keep exactly what was played,
    neither more nor less; each hash in the commit is the evidence of the event that established
    that fact, from the source that such a fact requires. *)
Theorem commit_was_heard evs s id requested c : reached evs s -> evaluateAudibleCommit s id requested = Ok c ->
  ce_responseId c = id /\ ce_stateRevision c = Z.of_nat (length evs) /\
  ce_providerHistoryThroughMs c = ce_playedThroughMs c /\
  (exists t h, attests evs id (ce_generationEvidenceSha256 c) (Generated t (Some true) h) /\ ce_playedThroughMs c <= t) /\
  (exists t n, attests evs id (ce_annotationEvidenceSha256 c) (AnnotationCompleted t n) /\ ce_playedThroughMs c <= t) /\
  (attests evs id (ce_playbackEvidenceSha256 c) (PlayedThrough (ce_playedThroughMs c)) \/
   exists reason, attests evs id (ce_playbackEvidenceSha256 c) (Interrupted (ce_playedThroughMs c) reason)) /\
  ((exists t f, attests evs id (ce_providerHistoryEvidenceSha256 c) (Generated t f (KnownObserved (ce_playedThroughMs c)))) \/
   exists repairId, attests evs id (ce_providerHistoryEvidenceSha256 c) (HistoryRepaired (ce_playedThroughMs c) repairId)) /\
  (forall x, x ∈ requested <-> x ∈ se_spanId <$> ce_spanEvidence c) /\ requested <> [] /\
  (forall x, x ∈ ce_spanEvidence c -> exists span, attests evs id (se_alignmentEvidenceSha256 x) (ContentMarked span) /\
     sp_id span = se_spanId x /\ sp_contentHash span = se_contentHash x /\ sp_endMs span <= ce_playedThroughMs c).
Proof.
  intros Hs%reached_ok H. destruct (evaluate_Ok s id requested c H) as (r & a & m & l & Hr & Hf & Ha & Hh & Hb & Hne & Hl & Hm & ->).
  destruct (so_response _ _ Hs _ _ Hr) as (Hid & _ & Hok). simpl. rewrite <- Hid in *. clear id Hid.
  destruct (check_spans_Ok r _ l Hl) as [Hids Hspans].
  pose proof Hok as [(_ & f & h & Hg & Hgf) H2 H3 H4 H5 H6 HK H7 H8 H9 H10 H11].
  destruct (H9 a Ha) as (_ & E1 & _ & Hann). rewrite (Hgf Hf) in Hg.
  split_and!; [done|apply Hs|done| | | | | |done|].
  - eexists _, _. split; [by apply recorded_attests|]. unfold played in *. lia.
  - eexists _, _. split; [by apply recorded_attests|]. unfold played in *. lia.
  - destruct (playback_recorded evs r m) as [?|[reason ?]]; [done|done|left|right; exists reason];
      by apply recorded_attests.
  - destruct (H6 _ Hh Hb) as [(t & f' & ?)|[repairId ?]]; [left; exists t, f'|right; exists repairId]; by apply recorded_attests.
  - intros x. rewrite Hids. symmetry. apply elem_of_uniq.
  - intros x Hx. destruct (Hspans x Hx) as (cr & Hc & Hend & E2 & E3). destruct (H8 _ _ Hc) as (E4 & _ & _ & _ & Hrec).
    exists (cr_span cr). rewrite E2, E3. split_and!; [by apply recorded_attests|done..].
Qed.

(** C37. The decision is complete: in a state that events led to, content is committed exactly when the
    ids are well-formed and at least one is requested, the response is known, its generation has ended, its
    annotation is complete, the provider was observed to keep exactly what was played, and every
    requested span is marked and was played to its end. In particular evidence of playback is never
    missing then. *)
Theorem commit_exactly_when_heard evs s id requested : reached evs s ->
  (exists c, evaluateAudibleCommit s id requested = Ok c) <->
  isNonEmptyId id = true /\ forallb isNonEmptyId requested = true /\ requested <> [] /\
  exists r, own id (s_responses s) = Some r /\ final r = true /\ is_Some (r_annotation r) /\
    retains r = Some (played r) /\ ph_basis (r_providerHistory r) = Some Observed /\
    forall x, x ∈ requested -> heard r x.
Proof.
  intros Hs%reached_ok. split.
  - intros [c H]. assert (Hids : isNonEmptyId id = true /\ forallb isNonEmptyId requested = true).
    { unfold evaluateAudibleCommit in H. destruct (_ || _) eqn:Hg; [done|]. by to_prop. }
    destruct Hids as [Hid Hids].
    destruct (evaluate_Ok s id requested c H) as (r & a & m & l & Hr & Hf & Ha & Hh & Hb & Hne & Hl & Hm & _).
    split_and!; [done..|]. exists r. split_and!; [done|done|by rewrite Ha|done|done|].
    intros x Hx. apply (check_spans_heard r (uniq requested)); [by eauto|by apply elem_of_uniq].
  - intros (Hid & Hids & Hne & r & Hr & Hf & [a Ha] & Hh & Hb & Hheard).
    destruct (so_response _ _ Hs _ _ Hr) as (_ & _ & Hok).
    assert (Hl : exists l, check_spans r (uniq requested) = Ok l).
    { apply check_spans_heard. intros x Hx. by apply Hheard, elem_of_uniq. }
    destruct Hl as [l Hl].
    unfold evaluateAudibleCommit, responseFor. rewrite Hid, Hids, Hr. simpl.
    unfold final, retains in *. rewrite Hf, Hh, Ha, Hl. simpl. rewrite bool_decide_true by done.
    destruct requested as [|x requested]; [done|].
    assert (Hu : x ∈ uniq (x :: requested)) by (apply elem_of_uniq; set_solver).
    rewrite bool_decide_false by (intros E; rewrite E in Hu; by apply elem_of_nil in Hu).
    simpl. unfold played. rewrite Z.eqb_refl. simpl.
    destruct (playback_milestone (r_playback r)) eqn:Hm; [eauto|]. exfalso.
    destruct (Hheard x) as (c & Hc & Hend); [set_solver|].
    destruct (ro_spans _ _ Hok _ _ Hc) as (_ & Hpos & _). pose proof (ro_progress _ _ Hok) as Hp.
    unfold playback_milestone in Hm. destruct (pl_interruption (r_playback r)); [done|]. rewrite Hm in Hp. lia.
Qed.

End RealtimeAudibilityProps.
