(* ===== verification/RealtimeAudibilityScore.v ===== *)
(** * What the scores of the audible state mean

    The fractions, weights and verdicts that [scoreResponseAudibility] and [scoreAudibility]
    compute, in terms of the milliseconds of audio that were generated, played and kept. *)

From Stdlib Require Import QArith Qabs Lqa.
From S2P Require Import Prelude JsValue JsText Canonical Graph Flow FlowValidate FlowRuntime ActionPolicy RealtimeAudibility RealtimeAudibilityProps.
Import RealtimeAudibility RealtimeAudibilityProps.

Local Open Scope Z_scope.

Module RealtimeAudibilityScore.

(** ** Coverage of a span by a prefix of the audio *)

Section Coverage.
Context (startMs endMs : Z) (Hspan : startMs < endMs).

Lemma coverage_bounds t : (0 <= prefixCoverage startMs endMs t)%Q /\ (prefixCoverage startMs endMs t <= 1)%Q.
Proof using Hspan.
  unfold prefixCoverage, covered, Qle. simpl. rewrite Z2Pos.id by lia. lia.
Qed.

Lemma coverage_full t : (prefixCoverage startMs endMs t == 1)%Q <-> endMs <= t.
Proof using Hspan. unfold prefixCoverage, covered, Qeq. simpl. rewrite Z2Pos.id by lia. lia. Qed.

Lemma coverage_lt t t' : (prefixCoverage startMs endMs t' < prefixCoverage startMs endMs t)%Q <->
  covered startMs endMs t' < covered startMs endMs t.
Proof using Hspan. unfold prefixCoverage, Qlt. simpl. rewrite Z2Pos.id by lia. nia. Qed.

(** More of the span is covered exactly when some millisecond of it lies between the two prefixes. *)
Lemma covered_lt t t' : covered startMs endMs t' < covered startMs endMs t <->
  exists ms, startMs <= ms < endMs /\ t' <= ms < t.
Proof using Hspan.
  unfold covered. split; [|intros (ms & ? & ?); lia].
  intros H. exists (Z.max startMs t'). lia.
Qed.
End Coverage.

Lemma exceeds_iff a b : exceeds a b = true <-> (b < a)%Q.
Proof.
  unfold exceeds. rewrite negb_true_iff, <- not_true_iff_false, Qle_bool_iff. split; [apply Qnot_le_lt|apply Qlt_not_le].
Qed.

(** Some millisecond of the span is kept by the provider up to [provider] and was not played. *)
Definition unheard_audio (s : ContentSpan) (provider played : Z) : Prop :=
  exists ms, sp_startMs s <= ms < sp_endMs s /\ played <= ms < provider.

Lemma material_iff provider played s : sp_startMs s < sp_endMs s ->
  material_span provider played s = true <-> unheard_audio s provider played.
Proof. intros H. unfold material_span. rewrite exceeds_iff, coverage_lt, covered_lt by done. done. Qed.

(** ** Weights *)

Lemma num_Q_pos w : is_finite w = true -> num_ltb (num_of_Z 0) w = true -> (0 < num_Q w)%Q.
Proof.
  destruct w as [neg s e| |]; try done. intros _ H. unfold num_ltb, num_of_Z, num_scaled in H. simpl in H. to_prop.
  set (m := Z.min 0 e) in H. assert (0 < 10 ^ (e - m)) by (apply Z.pow_pos_nonneg; lia).
  assert (Hs : neg = false /\ 0 < Z.of_N s).
  { destruct neg; [nia|]. split; [done|]. destruct s; simpl in *; nia. }
  destruct Hs as [-> Hs]. unfold num_Q. destruct (0 <=? e) eqn:He; to_prop.
  - unfold Qlt, inject_Z. simpl. assert (0 < 10 ^ e) by (apply Z.pow_pos_nonneg; lia). nia.
  - unfold Qlt. simpl. lia.
Qed.

Lemma weight_pos w : weight_ok w = true -> (0 < num_Q w)%Q.
Proof. unfold weight_ok. intros H. to_prop. by apply num_Q_pos. Qed.

Section Sums.
Context {A : Type}.
Implicit Types (f g : A -> Q) (l : list A).

Lemma Qsum_le f g l : (forall x, x ∈ l -> (f x <= g x)%Q) -> (Qsum (f <$> l) <= Qsum (g <$> l))%Q.
Proof.
  induction l as [|x l IH]; intros H; [apply Qle_refl|]. cbn.
  apply Qplus_le_compat; [apply H; set_solver|apply IH; set_solver].
Qed.

Lemma Qsum_zero l : (Qsum ((fun _ : A => 0%Q) <$> l) == 0)%Q.
Proof. induction l as [|x l IH]; [done|]. cbn. rewrite Qplus_0_l. apply IH. Qed.

Lemma Qsum_nonneg f l : (forall x, x ∈ l -> (0 <= f x)%Q) -> (0 <= Qsum (f <$> l))%Q.
Proof. intros H. rewrite <- (Qsum_zero l). by apply Qsum_le. Qed.

Lemma Qsum_pos f l : (forall x, x ∈ l -> (0 <= f x)%Q) -> (0 < Qsum (f <$> l))%Q <-> exists x, x ∈ l /\ (0 < f x)%Q.
Proof.
  induction l as [|x l IH]; intros H.
  - split; [done|]. intros (x & Hx & _). by apply elem_of_nil in Hx.
  - assert (H0 : (0 <= f x)%Q) by (apply H; set_solver).
    assert (H1 : forall y, y ∈ l -> (0 <= f y)%Q) by (intros; apply H; set_solver).
    pose proof (Qsum_nonneg f l H1) as H2. specialize (IH H1). cbn.
    change (foldr Qplus 0%Q (f <$> l)) with (Qsum (f <$> l)). split.
    + intros Hlt. destruct (Qlt_le_dec 0 (f x)) as [Hx|Hx]; [exists x; split; [set_solver|done]|].
      destruct (proj1 IH) as (y & ? & ?); [lra|]. exists y. split; [set_solver|done].
    + intros (y & [->|Hy]%elem_of_cons & Hlt); [lra|]. assert (0 < Qsum (f <$> l))%Q by (apply IH; eauto). lra.
Qed.

Lemma Zsum_le (f g : A -> Z) l : (forall x, x ∈ l -> f x <= g x) -> Zsum (f <$> l) <= Zsum (g <$> l).
Proof.
  induction l as [|x l IH]; intros H; [done|]. cbn.
  assert (f x <= g x) by (apply H; set_solver). assert (Zsum (f <$> l) <= Zsum (g <$> l)) by (apply IH; set_solver).
  unfold Zsum in *. lia.
Qed.

Lemma Zsum_nonneg (f : A -> Z) l : (forall x, x ∈ l -> 0 <= f x) -> 0 <= Zsum (f <$> l).
Proof.
  intros H. transitivity (Zsum ((fun _ => 0) <$> l)); [|by apply Zsum_le].
  clear. induction l as [|x l IH]; [done|]. cbn. exact IH.
Qed.
End Sums.

(** A part of a whole as a fraction. *)
Definition fraction (q : Q) : Prop := (0 <= q)%Q /\ (q <= 1)%Q.

Lemma part_fraction a b : (0 <= a)%Q -> (a <= b)%Q -> (0 < b)%Q -> fraction (a / b)%Q.
Proof.
  intros H1 H2 H3. split; [by apply Qle_shift_div_l; [|rewrite Qmult_0_l]|].
  apply Qle_shift_div_r; [done|]. by rewrite Qmult_1_l.
Qed.

Lemma count_fraction a b : 0 <= a <= b -> 0 < b -> fraction (inject_Z a / inject_Z b)%Q.
Proof. intros [H1 H2] H3. apply part_fraction; unfold Qle, Qlt; simpl; lia. Qed.

Lemma rate_fraction total w : (0 <= w)%Q -> (w <= total)%Q -> fraction (rate total w).
Proof.
  intros H1 H2. unfold rate, Qzero. destruct (Qeq_bool total 0) eqn:E; [done|].
  apply part_fraction; [done|done|]. apply Qeq_bool_neq in E.
  destruct (Qlt_le_dec 0 total) as [?|?]; [done|]. destruct E. lra.
Qed.

Lemma Qmax0_spec q : (0 <= Qmax0 q)%Q /\ (Qmax0 q <= Qabs q)%Q /\ ((0 < Qmax0 q)%Q <-> (0 < q)%Q).
Proof.
  unfold Qmax0. destruct (Qle_bool q 0) eqn:E.
  - apply Qle_bool_iff in E. split_and!; [apply Qle_refl|apply Qabs_nonneg|]. split; lra.
  - apply not_true_iff_false in E. rewrite Qle_bool_iff in E. apply Qnot_le_lt in E.
    split_and!; [lra|apply Qle_Qabs|done].
Qed.

(** ** The score of a response *)

Section Response.
Context (localeLess : jstr -> jstr -> bool) (evs : list Event) (r : ResponseState) (Hr : response_ok evs r).

#[local] Abbreviation score := (scoreResponseAudibility localeLess r).
#[local] Abbreviation records := (sort_by (span_less localeLess) (snd <$> r_spans r)).

Lemma records_iff c : c ∈ records <-> exists id, own id (r_spans r) = Some c.
Proof using Hr.
  rewrite elem_of_sort_by, list_elem_of_fmap. split.
  - intros ([id c'] & -> & H). exists id. apply elem_of_own; [apply (ro_keys _ _ Hr)|done].
  - intros [id H]. exists (id, c). split; [done|]. by apply own_elem_of.
Qed.

Lemma record_span c : c ∈ records -> sp_startMs (cr_span c) < sp_endMs (cr_span c) /\ (0 < num_Q (cr_weight c))%Q.
Proof using Hr.
  intros [id H]%records_iff. destruct (ro_spans _ _ Hr _ _ H) as (_ & ? & _ & ? & _). split; [lia|by apply weight_pos].
Qed.

(** What is played of a span and what the provider keeps of it. *)
Definition heard_part (c : ContentRecord) : Q := prefixCoverage (sp_startMs (cr_span c)) (sp_endMs (cr_span c)) (played r).
Definition kept_part (h : Z) (c : ContentRecord) : Q := prefixCoverage (sp_startMs (cr_span c)) (sp_endMs (cr_span c)) h.

Lemma exposed_sum h : retains r = Some h -> rs_semanticMetricsAvailable score = true ->
  rs_exposedWeight score = Some (Qsum ((fun c => num_Q (cr_weight c) * Qmax0 (kept_part h c - heard_part c))%Q <$> records)) /\
  rs_divergentWeight score = Some (Qsum ((fun c => num_Q (cr_weight c) * Qabs (kept_part h c - heard_part c))%Q <$> records)).
Proof using.
  unfold retains. simpl. intros Hh Ha. rewrite Ha, <- !list_fmap_compose. simpl. unfold compose. simpl. by rewrite Hh.
Qed.

Lemma total_sum : rs_totalWeight score = Qsum ((fun c => num_Q (cr_weight c)) <$> records).
Proof using. simpl. by rewrite <- list_fmap_compose. Qed.

Lemma exposed_pos h c : c ∈ records ->
  (0 <= num_Q (cr_weight c) * Qmax0 (kept_part h c - heard_part c))%Q /\
  ((0 < num_Q (cr_weight c) * Qmax0 (kept_part h c - heard_part c))%Q <-> unheard_audio (cr_span c) h (played r)).
Proof using Hr.
  intros Hc. destruct (record_span c Hc) as [Hs Hw].
  destruct (Qmax0_spec (kept_part h c - heard_part c)) as (M1 & _ & M2). split; [nra|].
  unfold unheard_audio. rewrite <- covered_lt, <- coverage_lt by done. fold (kept_part h c) (heard_part c).
  transitivity (0 < Qmax0 (kept_part h c - heard_part c))%Q; [split; nra|]. rewrite M2. split; lra.
Qed.

Lemma weights_ordered h c : c ∈ records ->
  (num_Q (cr_weight c) * Qmax0 (kept_part h c - heard_part c) <= num_Q (cr_weight c) * Qabs (kept_part h c - heard_part c))%Q /\
  (num_Q (cr_weight c) * Qabs (kept_part h c - heard_part c) <= num_Q (cr_weight c))%Q.
Proof using Hr.
  intros Hc. destruct (record_span c Hc) as [Hs Hw].
  destruct (Qmax0_spec (kept_part h c - heard_part c)) as (_ & M1 & _).
  assert (M2 : (Qabs (kept_part h c - heard_part c) <= 1)%Q).
  { destruct (coverage_bounds _ _ Hs h), (coverage_bounds _ _ Hs (played r)). unfold kept_part, heard_part in *.
    apply Qabs_Qle_condition. split; lra. }
  split; nra.
Qed.

(** The verdicts are given only on a finished, annotated response whose history was observed. *)
Definition settled : Prop :=
  final r = true /\ is_Some (r_annotation r) /\ ph_basis (r_providerHistory r) = Some Observed.

Lemma observed_known : ph_basis (r_providerHistory r) = Some Observed -> exists h, retains r = Some h.
Proof using Hr.
  intros Hb. pose proof (ro_known _ _ Hr) as H. destruct (retains r); [eauto|]. destruct H. congruence.
Qed.

Lemma diverged_spec b : rs_audibleStateDiverged score = Some b ->
  settled /\ exists h, retains r = Some h /\
  (b = true <-> exists id c, own id (r_spans r) = Some c /\ unheard_audio (cr_span c) h (played r)).
Proof using Hr.
  intros H.
  assert (Hset : settled).
  { simpl in H. destruct (_ && _ && _) eqn:E; [|done]. to_prop. done. }
  split; [done|]. destruct Hset as (Hf & Ha & Hb). destruct (observed_known Hb) as [h Hh].
  assert (Hav : rs_semanticMetricsAvailable score = true).
  { simpl. unfold retains in Hh. rewrite Hh. by rewrite !bool_decide_true. }
  exists h. split; [done|]. destruct (exposed_sum h Hh Hav) as [He _]. simpl in H, He. rewrite He in H.
  unfold final in Hf. rewrite Hf, !bool_decide_true in H by done. simpl in H. injection H as <-.
  rewrite exceeds_iff, Qsum_pos; [|intros c Hc; by apply exposed_pos].
  setoid_rewrite records_iff. split.
  - intros (c & [id Hc] & Hp). exists id, c. split; [done|]. apply exposed_pos in Hp; [done|]. apply records_iff. eauto.
  - intros (id & c & Hc & Hp). exists c. split; [eauto|]. apply exposed_pos; [|done]. apply records_iff. eauto.
Qed.

Lemma divergence_bounds d : rs_audioStateDivergenceMs score = Some d -> 0 <= d <= generated r.
Proof using Hr.
  simpl. destruct (ph_throughMs (r_providerHistory r)) as [h|] eqn:Hh; simpl; [|done]. intros [= <-].
  pose proof (ro_history _ _ Hr h Hh). pose proof (ro_order _ _ Hr). unfold played in *. lia.
Qed.

Lemma weights_spec e : rs_exposedWeight score = Some e ->
  exists d, rs_divergentWeight score = Some d /\ (0 <= e)%Q /\ (e <= d)%Q /\ (d <= rs_totalWeight score)%Q.
Proof using Hr.
  intros H. assert (Hav : rs_semanticMetricsAvailable score = true).
  { simpl in H. unfold on in H. simpl. by destruct (_ && _). }
  assert (Hh : exists h, retains r = Some h).
  { simpl in Hav. unfold retains. destruct (ph_throughMs _); [eauto|done]. }
  destruct Hh as [h Hh]. destruct (exposed_sum h Hh Hav) as [E1 E2]. rewrite E1 in H. injection H as <-. rewrite total_sum.
  eexists. split; [exact E2|].
  split_and!; [apply Qsum_nonneg|apply Qsum_le|apply Qsum_le]; intros c Hc; [by apply exposed_pos|by apply weights_ordered..].
Qed.

Lemma total_nonneg : (0 <= rs_totalWeight score)%Q.
Proof using Hr. rewrite total_sum. apply Qsum_nonneg. intros c Hc. destruct (record_span c Hc). lra. Qed.

Lemma weights_default : (0 <= default 0%Q (rs_exposedWeight score))%Q /\
  (default 0%Q (rs_exposedWeight score) <= default 0%Q (rs_divergentWeight score))%Q /\
  (default 0%Q (rs_divergentWeight score) <= rs_totalWeight score)%Q.
Proof using Hr.
  destruct (rs_exposedWeight score) as [e|] eqn:He.
  - destruct (weights_spec e He) as (d & Hd & ? & ? & ?). rewrite Hd. simpl default. done.
  - assert (rs_divergentWeight score = None) as Hd.
    { simpl in He |- *. unfold on in *. by destruct (_ && _). }
    rewrite Hd. simpl default. pose proof total_nonneg. split_and!; [lra|lra|done].
Qed.

Lemma material_ids_iff x provider playedMs : x ∈ material_ids (r_spans r) provider playedMs <->
  exists c, own x (r_spans r) = Some c /\ unheard_audio (cr_span c) provider playedMs.
Proof using Hr.
  unfold material_ids. rewrite elem_of_sort_by, list_elem_of_fmap. split.
  - intros (sp & -> & H). apply list_elem_of_In, filter_In in H as [H1 H2].
    apply list_elem_of_In, list_elem_of_fmap in H1 as ([id c] & -> & H1). simpl in *.
    apply elem_of_own in H1; [|apply (ro_keys _ _ Hr)]. destruct (ro_spans _ _ Hr _ _ H1) as (E & Hs & _).
    exists c. rewrite E. split; [done|]. apply material_iff in H2; [done|lia].
  - intros (c & Hc & Hu). destruct (ro_spans _ _ Hr _ _ Hc) as (E & Hs & _). exists (cr_span c). split; [done|].
    apply list_elem_of_In, filter_In. split; [|apply material_iff; [lia|done]].
    apply list_elem_of_In, list_elem_of_fmap. exists (x, c). split; [done|]. by apply own_elem_of.
Qed.

End Response.

(** What a score says of the audio: the divergence is the distance between what was played and what
    the provider keeps, zero exactly when they are aligned and at most what was generated; the
    generated audio splits into what was played, what is queued and what is not queued yet; and the
    response is reported as diverged exactly when some millisecond of a consequential span is kept
    by the provider but was not played, a verdict that is only given once generation has ended,
    the annotation is complete and the history was observed. *)
Theorem divergence_is_measured localeLess evs s id r : reached evs s -> own id (s_responses s) = Some r ->
  let score := scoreResponseAudibility localeLess r in
  rs_audioStateDivergenceMs score = (fun h => Z.abs (h - played r)) <$> retains r /\
  (rs_providerHistoryAligned score = Some true <-> rs_audioStateDivergenceMs score = Some 0) /\
  (forall q, rs_audioStateDivergenceRate score = Some q -> fraction q) /\
  rs_generatedMs score = rs_playedMs score + rs_queuedButUnplayedMs score + rs_generatedButUnqueuedMs score /\
  (is_Some (rs_audibleStateDiverged score) <-> settled r) /\
  (forall b, rs_audibleStateDiverged score = Some b -> exists h, retains r = Some h /\
     (b = true <-> exists id c, own id (r_spans r) = Some c /\ unheard_audio (cr_span c) h (played r))).
Proof.
  intros Hs%reached_ok Hown score. destruct (so_response _ _ Hs _ _ Hown) as (_ & _ & Hr).
  assert (Hd : rs_audioStateDivergenceMs score = (fun h => Z.abs (h - played r)) <$> retains r).
  { simpl. unfold retains, played. destruct (ph_throughMs _); simpl; [|done]. f_equal. lia. }
  split_and!; [done| | | | |].
  - rewrite Hd. simpl. unfold retains. destruct (ph_throughMs (r_providerHistory r)) as [h|]; simpl; [|done].
    unfold played. split; intros [= E]; f_equal; [apply Z.eqb_eq in E; lia|apply Z.eqb_eq; lia].
  - intros q Hq. simpl in Hq. apply fmap_Some in Hq as (d & Hq & ->).
    apply count_fraction; [by apply (divergence_bounds localeLess evs)|]. pose proof (ro_generated _ _ Hr). unfold generated in *. lia.
  - simpl. pose proof (ro_order _ _ Hr). unfold played, generated, queued_through in *. lia.
  - split.
    + intros [b Hb]. by apply (diverged_spec localeLess evs) in Hb as [? _].
    + intros (Hf & Ha & Hb). destruct (observed_known evs r Hr Hb) as [h Hh]. simpl.
      unfold final, retains in *. rewrite Hf, Hh, !bool_decide_true by done. simpl. eauto.
  - intros b Hb. by apply (diverged_spec localeLess evs) in Hb as [_ ?].
Qed.

(** The weighted scores of a response are what their names say: the weight kept but not heard is at most the
    weight on which history and playback differ, which is at most the total weight of the spans, and
    the exposure and mismatch rates are fractions between zero and one. *)
Theorem weights_are_consistent localeLess evs s id r e : reached evs s -> own id (s_responses s) = Some r ->
  let score := scoreResponseAudibility localeLess r in
  rs_exposedWeight score = Some e ->
  exists d x m, rs_divergentWeight score = Some d /\ rs_exposureRate score = Some x /\ rs_mismatchRate score = Some m /\
  (0 <= e)%Q /\ (e <= d)%Q /\ (d <= rs_totalWeight score)%Q /\ fraction x /\ fraction m /\ (x <= m)%Q.
Proof.
  intros Hs%reached_ok Hown score He. destruct (so_response _ _ Hs _ _ Hown) as (_ & _ & Hr).
  destruct (weights_spec localeLess evs r Hr e He) as (d & Hd & H1 & H2 & H3).
  fold score in Hd, H3. exists d, (rate (rs_totalWeight score) e), (rate (rs_totalWeight score) d).
  split_and!; [done| | |done..| | |].
  - change (rs_exposureRate score) with (rate (rs_totalWeight score) <$> rs_exposedWeight score). by rewrite He.
  - change (rs_mismatchRate score) with (rate (rs_totalWeight score) <$> rs_divergentWeight score). by rewrite Hd.
  - apply rate_fraction; [done|lra].
  - apply rate_fraction; [lra|done].
  - unfold rate. destruct (Qzero _) eqn:E; [apply Qle_refl|]. unfold Qzero in E. apply Qeq_bool_neq in E.
    apply Qmult_le_compat_r; [done|]. apply Qinv_le_0_compat. lra.
Qed.

(** A reported leak is real, and so is a reported absence: the verdict is only given when the response was
    interrupted with the provider observed to keep more than was played; the exposed spans are then
    exactly those with a millisecond kept but never played; and unheard content is reported as used
    exactly when a dependency on such a span was recorded, and every recorded dependency is on one. *)
Theorem leak_is_real localeLess evs s id r b : reached evs s -> own id (s_responses s) = Some r ->
  rs_leaked (scoreResponseAudibility localeLess r) = Some b ->
  exists i x ids a, pl_interruption (r_playback r) = Some i /\ in_playedThroughMs i = played r /\
    in_exposureThroughMs i = Some x /\ in_exposureBasis i = Some Observed /\ in_materialUnheardSpanIds i = Some ids /\ ids <> [] /\
    (forall y, y ∈ ids <-> exists c, own y (r_spans r) = Some c /\ unheard_audio (cr_span c) x (played r)) /\
    r_analysis r = Some a /\ al_dependencyCount a = Z.of_nat (length (r_dependencies r)) /\
    (b = true <-> exists d, d ∈ r_dependencies r) /\ (forall d, d ∈ r_dependencies r -> dr_spanId d ∈ ids).
Proof.
  intros Hs%reached_ok Hown H. destruct (so_response _ _ Hs _ _ Hown) as (_ & _ & Hr). simpl in H.
  destruct (pl_interruption (r_playback r)) as [i|] eqn:Hi; [|done].
  destruct (in_materialUnheardSpanIds i) as [ids|] eqn:Hids; [|done]. simpl in H.
  destruct (r_analysis r) as [a|] eqn:Ha; [|by rewrite andb_false_r in H].
  destruct (bool_decide (ids <> [])) eqn:Hne; [|done]. simpl in H. injection H as <-. to_prop.
  destruct (ro_interruption _ _ Hr i Hi) as [I1 _ _ I4]. destruct (I4 ids Hids) as (_ & _ & x & Ex & Eb & Eids).
  assert (Hm : material r = Some ids) by (unfold material; by rewrite Hi).
  exists i, x, ids, a. split_and!; try done.
  - intros y. rewrite Eids, I1. by apply (material_ids_iff evs).
  - by apply (ro_analysis _ _ Hr).
  - destruct (r_dependencies r) as [|d l]; simpl; split; [done|intros [? ?%elem_of_nil]; done|exists d; set_solver|done].
  - intros d Hd. destruct (ro_dependencies _ _ Hr d Hd) as (ids' & E & ?). congruence.
Qed.

(** ** The score of a session *)

Lemma count_if_bounds {A} (p : A -> bool) l : 0 <= count_if p l <= Z.of_nat (length l).
Proof. unfold count_if. pose proof (filter_length_le p l). lia. Qed.

(** Those that pass a first test split into those that pass a second and those that pass a third. *)
Lemma count_split {A} (p q q' : A -> bool) l :
  (forall x, x ∈ l -> p x = true -> q' x = negb (q x)) ->
  Z.of_nat (length (List.filter p l)) = count_if (fun x => p x && q x) l + count_if q' (List.filter p l).
Proof.
  unfold count_if. induction l as [|x l IH]; intros H; [done|].
  assert (Hx : p x = true -> q' x = negb (q x)) by (apply H; set_solver).
  assert (IH' : forall y, y ∈ l -> p y = true -> q' y = negb (q y)) by (intros; apply H; set_solver).
  specialize (IH IH'). simpl.
  destruct (p x); simpl; [|done]. rewrite (Hx eq_refl). destruct (q x); simpl; lia.
Qed.

Lemma scored_elem localeLess evs s x : reached evs s -> x ∈ scored localeLess s ->
  exists r, response_ok evs r /\ x = scoreResponseAudibility localeLess r.
Proof.
  intros Hs%reached_ok (r & -> & H)%list_elem_of_fmap. apply list_elem_of_omap in H as (id & _ & Hown).
  exists r. split; [|done]. by destruct (so_response _ _ Hs _ _ Hown) as (_ & _ & ?).
Qed.

Lemma omap_own {V} (o l : obj V) : NoDup (keys o) -> l ⊆ o -> omap (fun id => own id o) (keys l) = snd <$> l.
Proof.
  intros Hk. induction l as [|[id v] l IH]; intros Hsub; [done|]. cbn.
  rewrite (elem_of_own id v) by (done || set_solver). f_equal. apply IH. set_solver.
Qed.

Lemma scored_length localeLess evs s : reached evs s -> length (scored localeLess s) = length (s_responses s).
Proof.
  intros Hs%reached_ok. unfold scored. rewrite length_fmap, (so_order _ _ Hs).
  rewrite omap_own; [by rewrite length_fmap|apply (so_keys _ _ Hs)|done].
Qed.

Section Session.
Context (localeLess : jstr -> jstr -> bool) (evs : list Event) (s : State) (horizon : option jstr) (Hs : reached evs s).

#[local] Abbreviation score := (scoreAudibility localeLess s horizon).

Lemma session_split :
  sc_interrupted score - sc_pendingInterrupted score = sc_alignedInterrupted score + sc_divergedInterrupted score.
Proof using Hs.
  simpl. set (l := List.filter rs_interrupted (scored localeLess s)).
  rewrite (proj2 (Z.sub_move_r _ _ (Z.of_nat (length (List.filter (fun r => rs_generationFinal r &&
     bool_decide (rs_providerHistoryBasis r = Some Observed)) l))))) by lia.
  apply count_split. intros x Hx Hp. subst l. apply list_elem_of_In, filter_In in Hx as [Hx _].
  apply list_elem_of_In, (scored_elem localeLess evs s x Hs) in Hx as (r & Hr & ->). to_prop.
  destruct (observed_known evs r Hr) as [h Hh]; [done|]. simpl. unfold retains in Hh. rewrite Hh. simpl.
  by destruct (h =? _).
Qed.

Lemma session_divergence d : sc_audioStateDivergenceMs score = Some d -> 0 <= d <= sc_generatedMs score.
Proof using Hs.
  intros Hd. simpl in Hd |- *. unfold on in Hd. destruct (_ && _); [|done]. injection Hd as <-.
  assert (Hb : forall x, x ∈ scored localeLess s -> 0 <= default 0 (rs_audioStateDivergenceMs x) <= rs_generatedMs x).
  { intros x Hx. destruct (scored_elem localeLess evs s x Hs Hx) as (r & Hr & ->).
    destruct (rs_audioStateDivergenceMs _) as [d|] eqn:Ed; [by apply (divergence_bounds localeLess evs r Hr d)|].
    simpl. pose proof (ro_generated _ _ Hr). unfold generated in *. lia. }
  split; [apply Zsum_nonneg|apply Zsum_le]; intros x Hx; by apply Hb.
Qed.

Lemma session_weights : let l := scored localeLess s in
  (0 <= Qsum ((fun r => default 0 (rs_exposedWeight r)) <$> l))%Q /\
  (Qsum ((fun r => default 0 (rs_exposedWeight r)) <$> l) <= Qsum ((fun r => default 0 (rs_divergentWeight r)) <$> l))%Q /\
  (Qsum ((fun r => default 0 (rs_divergentWeight r)) <$> l) <= Qsum (rs_totalWeight <$> l))%Q.
Proof using Hs.
  intros l. split_and!; [apply Qsum_nonneg|apply Qsum_le|apply Qsum_le]; intros x Hx;
    destruct (scored_elem localeLess evs s x Hs Hx) as (r & Hr & ->); by apply (weights_default localeLess evs).
Qed.

Lemma session_rates q :
  sc_audibleStateDivergenceRate score = Some q \/ sc_audioStateDivergenceRate score = Some q \/
  sc_exposureRate score = Some q \/ sc_mismatchRate score = Some q \/ sc_leakageRate score = Some q -> fraction q.
Proof using Hs.
  pose proof session_weights as (W1 & W2 & W3). cbv zeta in W1, W2, W3.
  intros [H|[H|[H|[H|H]]]].
  - simpl in H. unfold on in H. destruct (_ && _); [|done]. destruct (_ =? 0) eqn:E; [done|]. injection H as <-. to_prop.
    apply count_fraction; [apply count_if_bounds|lia].
  - change (match sc_audioStateDivergenceMs score with
      | Some d => if sc_generatedMs score =? 0 then None else Some (inject_Z d / inject_Z (sc_generatedMs score))%Q
      | None => None end = Some q) in H.
    destruct (sc_audioStateDivergenceMs score) as [d|] eqn:Hd; [|done]. apply session_divergence in Hd.
    revert H Hd. generalize (sc_generatedMs score). intros g H Hd.
    destruct (g =? 0) eqn:E; [done|]. injection H as <-. to_prop. apply count_fraction; lia.
  - simpl in H. unfold on in H. destruct (_ && _); [|done]. injection H as <-. apply rate_fraction; [exact W1|exact (Qle_trans _ _ _ W2 W3)].
  - simpl in H. unfold on in H. destruct (_ && _); [|done]. injection H as <-. apply rate_fraction; [exact (Qle_trans _ _ _ W1 W2)|exact W3].
  - simpl in H. destruct (_ || _) eqn:E; [done|]. injection H as <-. to_prop.
    apply count_fraction; [apply count_if_bounds|lia].
Qed.
End Session.

(** The score of a session adds up: every response is scored once; the interrupted responses split into those
    whose history is aligned with playback, those whose history has diverged and those still pending, and
    the unresolved ones are the latter two; the total divergence is at most the generated audio, and
    every rate that is reported is a fraction between zero and one. *)
Theorem session_score_adds_up localeLess evs s horizon : reached evs s ->
  let score := scoreAudibility localeLess s horizon in
  sc_responseCount score = Z.of_nat (length (s_responses s)) /\
  sc_interrupted score = sc_alignedInterrupted score + sc_divergedInterrupted score + sc_pendingInterrupted score /\
  sc_unresolvedInterrupted score = sc_divergedInterrupted score + sc_pendingInterrupted score /\
  (forall d, sc_audioStateDivergenceMs score = Some d -> 0 <= d <= sc_generatedMs score) /\
  forall q, (sc_audibleStateDivergenceRate score = Some q \/ sc_audioStateDivergenceRate score = Some q \/
             sc_exposureRate score = Some q \/ sc_mismatchRate score = Some q \/ sc_leakageRate score = Some q) -> fraction q.
Proof.
  intros Hs score. pose proof (session_split localeLess evs s horizon Hs) as Hsplit. fold score in Hsplit.
  split_and!.
  - simpl. by rewrite (scored_length localeLess evs).
  - lia.
  - simpl in Hsplit |- *. lia.
  - by apply session_divergence with (evs := evs).
  - by apply session_rates with (evs := evs).
Qed.

End RealtimeAudibilityScore.
