(* ===== verification/RealtimeAudibilityDemo.v ===== *)
(** * A realtime session: one response heard and committed, one interrupted

    The hypotheses of the theorems on the audible state hold of the states of a session in which
    the first response is played to its end and the second is interrupted inside a
    consequential span that the provider keeps and a later claim depends on. *)

From Stdlib Require Import QArith Qabs.
From S2P Require Import Prelude JsValue JsText Canonical Graph Flow FlowValidate FlowRuntime ActionPolicy RealtimeAudibility RealtimeAudibilityProps RealtimeAudibilityScore.
Import RealtimeAudibility RealtimeAudibilityProps RealtimeAudibilityScore.

Local Open Scope Z_scope.

Module RealtimeAudibilityDemo.

Definition digest (c : N) : jstr := replicate 64 c.

Definition event (n : Z) (response : string) (d : EventData) : Event :=
  {| e_sequence := n; e_eventId := js "event"; e_responseId := js response;
     e_evidence := {| er_source := required_source d; er_sha256 := digest 97; er_artifactId := None |};
     e_observedAtMs := Some (n * 100); e_data := d |}.

Definition span (id : string) (startMs endMs : Z) : ContentSpan :=
  {| sp_id := js id; sp_startMs := startMs; sp_endMs := endMs; sp_kind := Commitment; sp_weight := None;
     sp_label := None; sp_contentHash := digest 98 |}.

(** The caller hears the whole of the first response. *)
Definition first_turn : list Event :=
  [ event 1 "first" (Generated 3000 (Some true) (KnownObserved 3000));
    event 2 "first" (Queued 3000);
    event 3 "first" (ContentMarked (span "amount" 500 2500));
    event 4 "first" (AnnotationCompleted 3000 1);
    event 5 "first" (PlayedThrough 3000) ].

(** The second is interrupted in the middle of its terms, on which a claim depends later. *)
Definition second_turn : list Event :=
  [ event 6 "second" (Generated 4000 (Some true) (KnownObserved 4000));
    event 7 "second" (Queued 4000);
    event 8 "second" (ContentMarked (span "terms" 2000 3500));
    event 9 "second" (AnnotationCompleted 4000 1);
    event 10 "second" (Interrupted 2500 None);
    event 11 "second" (DependencyRecorded (js "terms") (js "claim.7") Claim);
    event 12 "second" (AnalysisCompleted 1 (js "next-turn")) ].

Fixpoint play (s : State) (events : list Event) : option State :=
  match events with
  | [] => Some s
  | e :: events => match applyAudibilityEvent s e with Ok (s', false) => play s' events | _ => None end
  end.

Lemma play_reached events : forall evs s s', reached evs s -> play s events = Some s' -> reached (evs ++ events) s'.
Proof.
  induction events as [|e events IH]; simpl; intros evs s s' Hs H.
  - injection H as <-. by rewrite app_nil_r.
  - destruct (applyAudibilityEvent s e) as [[s1 []]|] eqn:E; [done| |done].
    change (e :: events) with ([e] ++ events). rewrite (app_assoc evs [e] events). apply (IH _ s1); [|done]. by apply reached_apply with s.
Qed.

Lemma play_accepts events : forall s s', play s events = Some s' -> rtc accepts s s'.
Proof.
  induction events as [|e events IH]; simpl; intros s s' H.
  - injection H as <-. done.
  - destruct (applyAudibilityEvent s e) as [[s1 []]|] eqn:E; [done| |done].
    eapply rtc_l; [|by apply IH]. by exists e, false.
Qed.

Definition heard_state : State := Eval vm_compute in default createAudibilityState (play createAudibilityState first_turn).
Definition cut_state : State := Eval vm_compute in default createAudibilityState (play heard_state second_turn).

Lemma heard_played : play createAudibilityState first_turn = Some heard_state.
Proof. by vm_compute. Qed.
Lemma cut_played : play heard_state second_turn = Some cut_state.
Proof. by vm_compute. Qed.

Lemma heard_reached : reached first_turn heard_state.
Proof. exact (play_reached first_turn [] _ _ reached_start heard_played). Qed.
Lemma cut_reached : reached (first_turn ++ second_turn) cut_state.
Proof. exact (play_reached second_turn _ _ _ heard_reached cut_played). Qed.

Definition some_response (id : string) (s : State) : ResponseState :=
  default (new_response s (event 1 id (Queued 0)) 1 None (KnownObserved 0)) (own (js id) (s_responses s)).
Definition first_response : ResponseState := Eval vm_compute in some_response "first" heard_state.
Definition second_response : ResponseState := Eval vm_compute in some_response "second" cut_state.

Lemma first_own : own (js "first") (s_responses heard_state) = Some first_response.
Proof. by vm_compute. Qed.
Lemma second_own : own (js "second") (s_responses cut_state) = Some second_response.
Proof. by vm_compute. Qed.

(** ** Witnesses *)

Lemma heard_only_grows_witness : exists r', own (js "first") (s_responses cut_state) = Some r' /\ evolves first_response r'.
Proof.
  exact (heard_only_grows first_turn heard_state cut_state (js "first") first_response heard_reached
           (play_accepts second_turn _ _ cut_played) first_own).
Defined.

Lemma redelivery_is_harmless_witness :
  applyAudibilityEvents heard_state ([event 5 "first" (PlayedThrough 3000); event 2 "first" (Queued 3000)] ++ second_turn) =
    Ok (cut_state, true, true).
Proof.
  rewrite (redelivery_is_harmless first_turn heard_state) by (apply heard_reached || (unfold first_turn; set_solver)).
  by vm_compute.
Defined.

Definition commit : CommitEvidence := Eval vm_compute in
  match evaluateAudibleCommit heard_state (js "first") [js "amount"] with
  | Ok c => c
  | Err _ => {| ce_stateRevision := 0; ce_responseRevision := 0; ce_responseId := []; ce_spanIds := []; ce_spanEvidence := [];
                ce_annotationEvidenceSha256 := []; ce_playedThroughMs := 0; ce_providerHistoryThroughMs := 0;
                ce_generationEvidenceSha256 := []; ce_playbackEvidenceSha256 := []; ce_providerHistoryEvidenceSha256 := [] |}
  end.

Lemma commit_computed : evaluateAudibleCommit heard_state (js "first") [js "amount"] = Ok commit.
Proof. by vm_compute. Qed.

Lemma commit_was_heard_witness : ce_providerHistoryThroughMs commit = 3000 /\
  exists x, x ∈ ce_spanEvidence commit /\ exists span, attests first_turn (js "first") (se_alignmentEvidenceSha256 x) (ContentMarked span).
Proof.
  destruct (commit_was_heard first_turn heard_state (js "first") [js "amount"] commit heard_reached commit_computed)
    as (_ & _ & _ & _ & _ & _ & _ & _ & _ & H).
  split; [done|]. eexists. split; [left|]. destruct (H _ ltac:(left)) as (sp & ? & _). by exists sp.
Defined.

Lemma commit_exactly_when_heard_witness :
  (exists c, evaluateAudibleCommit heard_state (js "first") [js "amount"] = Ok c) <->
  isNonEmptyId (js "first") = true /\ forallb isNonEmptyId [js "amount"] = true /\ [js "amount"] <> [] /\
  exists r, own (js "first") (s_responses heard_state) = Some r /\ final r = true /\ is_Some (r_annotation r) /\
    retains r = Some (played r) /\ ph_basis (r_providerHistory r) = Some Observed /\
    forall x, x ∈ [js "amount"] -> heard r x.
Proof. exact (commit_exactly_when_heard first_turn heard_state (js "first") [js "amount"] heard_reached). Defined.

(** The interrupted response cannot be committed: its terms were cut off. *)
Example cut_refused : evaluateAudibleCommit cut_state (js "second") [js "terms"] = Err (SpanNotFullyAudible (js "terms")).
Proof. by vm_compute. Qed.

Lemma divergence_is_measured_witness :
  rs_audioStateDivergenceMs (scoreResponseAudibility str_ltb second_response) = Some 1500 /\
  is_Some (rs_audibleStateDiverged (scoreResponseAudibility str_ltb second_response)).
Proof.
  destruct (divergence_is_measured str_ltb _ cut_state (js "second") second_response cut_reached second_own)
    as (H1 & _ & _ & _ & H2 & _).
  split; [by rewrite H1|]. apply H2. unfold settled. split_and!; [done| |done]. by eexists.
Defined.

Lemma weights_are_consistent_witness : exists e d x m,
  rs_exposedWeight (scoreResponseAudibility str_ltb second_response) = Some e /\
  rs_divergentWeight (scoreResponseAudibility str_ltb second_response) = Some d /\
  rs_exposureRate (scoreResponseAudibility str_ltb second_response) = Some x /\
  rs_mismatchRate (scoreResponseAudibility str_ltb second_response) = Some m /\ (x <= m)%Q.
Proof.
  destruct (rs_exposedWeight (scoreResponseAudibility str_ltb second_response)) as [e|] eqn:He; [|by vm_compute in He].
  destruct (weights_are_consistent str_ltb _ cut_state (js "second") second_response e cut_reached second_own He)
    as (d & x & m & ? & ? & ? & _ & _ & _ & _ & _ & ?).
  by exists e, d, x, m.
Defined.

Lemma leak_is_real_witness : exists i ids, pl_interruption (r_playback second_response) = Some i /\
  in_materialUnheardSpanIds i = Some ids /\ js "terms" ∈ ids.
Proof.
  destruct (leak_is_real str_ltb _ cut_state (js "second") second_response true cut_reached second_own ltac:(by vm_compute))
    as (i & x & ids & a & Hi & _ & _ & _ & Hids & _ & _ & _ & _ & _ & H).
  exists i, ids. split_and!; [done|done|]. specialize (H _ ltac:(left)). exact H.
Defined.

Lemma session_score_adds_up_witness :
  sc_interrupted (scoreAudibility str_ltb cut_state None) = 1 /\
  sc_unresolvedInterrupted (scoreAudibility str_ltb cut_state None) =
    sc_divergedInterrupted (scoreAudibility str_ltb cut_state None) + sc_pendingInterrupted (scoreAudibility str_ltb cut_state None).
Proof.
  destruct (session_score_adds_up str_ltb _ cut_state None cut_reached) as (_ & _ & H & _).
  split; [by vm_compute|exact H].
Defined.

End RealtimeAudibilityDemo.
