(* ===== verification/VoiceToolSchema.v ===== *)
(** * Tool schemas and bounded values (src/web/lib/voice-tools/schema.ts)

    The schemas that tools are pinned with are normalised to a canonical, bounded and portable
    form; values of providers and integrations are bounded before they are validated; and
    digests bind a definition and a catalogue to a call.

    A value is a tree: an object that is met again inside itself cannot occur, and what is not
    plain JSON (proxies, accessors, instances) is [JOther]. The Ajv validator is a parameter. *)

From S2P Require Import Prelude JsValue JsText Canonical Graph Flow FlowValidate FlowRuntime.

Local Open Scope Z_scope.

Module VoiceToolSchema.

Definition MAX_SCHEMA_BYTES : Z := 64 * 1024.
Definition MAX_SCHEMA_NODES : Z := 2048.
Definition MAX_SCHEMA_DEPTH : Z := 16.
Definition MAX_SCHEMA_ENTRIES : nat := 256.
Definition MAX_SCHEMA_BRANCHES : nat := 16.
Definition MAX_VALUE_BYTES : Z := 1024 * 1024.
Definition MAX_VALUE_NODES : Z := 10000.
Definition MAX_VALUE_DEPTH : Z := 32.
Definition MAX_VALUE_ENTRIES : nat := 4096.

Definition NON_PORTABLE_SCHEMA_KEYWORDS : list jstr :=
  js <$> ["$anchor"; "$defs"; "$dynamicAnchor"; "$dynamicRef"; "$id"; "$recursiveAnchor"; "$recursiveRef"; "$ref"; "$schema";
          "pattern"; "patternProperties"]%string.
Definition BRANCH_KEYWORDS : list jstr := js <$> ["allOf"; "anyOf"; "oneOf"]%string.

(** Ajv: whether it accepts and compiles a schema, and whether the compiled schema accepts a value. *)
Class Ajv := {
  ajv_compiles : jsval -> bool;
  ajv_validates : jsval -> jsval -> bool;
}.

Inductive SchemaError : Type :=
| NotAnObject | TooComplex | NonFinite | NotJson | OversizedArray | TooManyProperties | NonPortable (keyword : jstr)
| OversizedBranch | TooManyBytes | RootNotObject | NotASchema.

(** ** Normalising *)

Definition oversized_branch (key : jstr) (item : jsval) : bool :=
  includes key BRANCH_KEYWORDS &&
  match item with JArr items => (MAX_SCHEMA_BRANCHES <? length items)%nat | _ => true end.

(** [visit]: the number of nodes seen after the value, from the number before. *)
Fixpoint visit (value : jsval) (depth nodes : Z) : result SchemaError Z :=
  let nodes := nodes + 1 in
  raise TooComplex when (MAX_SCHEMA_NODES <? nodes) || (MAX_SCHEMA_DEPTH <? depth) ;;
  match value with
  | JNull | JBool _ | JStr _ => Ok nodes
  | JNum n => raise NonFinite when negb (is_finite n) ;; Ok nodes
  | JArr items =>
      raise OversizedArray when (MAX_SCHEMA_ENTRIES <? length items)%nat ;;
      (fix go (l : list jsval) (nodes : Z) : result SchemaError Z :=
         match l with
         | [] => Ok nodes
         | item :: l => let* nodes := visit item (depth + 1) nodes in go l nodes
         end) items nodes
  | JObj entries =>
      raise TooManyProperties when (MAX_SCHEMA_ENTRIES <? length entries)%nat ;;
      (fix go (l : obj jsval) (nodes : Z) : result SchemaError Z :=
         match l with
         | [] => Ok nodes
         | entry :: l =>
             raise (NonPortable entry.1) when includes entry.1 NON_PORTABLE_SCHEMA_KEYWORDS ;;
             raise OversizedBranch when oversized_branch entry.1 entry.2 ;;
             let* nodes := visit entry.2 (depth + 1) nodes in go l nodes
         end) entries nodes
  | JUndefined | JOther _ => Err NotJson
  end.

(** [JSON.parse(canonicalJson(value))] *)
Definition reparse (value : jsval) : jsval := norm value.

(** [normalized.type === "object"] on the parsed object. *)
Definition root_is_object (value : jsval) : bool :=
  match value with
  | JObj fields => match own (js "type") fields with Some (JStr type) => type =?s js "object" | _ => false end
  | _ => false
  end.

Definition normalizeVoiceToolSchema `{Ajv} (input : jsval) (requireObjectRoot : bool) : result SchemaError jsval :=
  raise NotAnObject when match input with JObj _ | JOther OObject => false | _ => true end ;;
  let* _ := visit input 0 0 in
  match canonicalJson input with
  | None => Err NotJson
  | Some encoded =>
      raise TooManyBytes when MAX_SCHEMA_BYTES <? utf8_length encoded ;;
      let normalized := reparse input in
      raise RootNotObject when requireObjectRoot && negb (root_is_object normalized) ;;
      raise NotASchema when negb (ajv_compiles normalized) ;;
      Ok normalized
  end.

(** [compileVoiceToolSchema]: the validator of a schema that compiles. *)
Definition compileVoiceToolSchema `{Ajv} (schema : jsval) : option (jsval -> bool) :=
  if ajv_compiles schema then Some (ajv_validates schema) else None.

(** ** Bounded values *)

(** The nodes and bytes counted after a value, unless a bound is passed; the key of an array
    element is its index. *)
Fixpoint measure (item : jsval) (depth : Z) (count : Z * Z) : option (Z * Z) :=
  let '(nodes, bytes) := count in
  let nodes := nodes + 1 in
  if (MAX_VALUE_NODES <? nodes) || (MAX_VALUE_DEPTH <? depth) then None
  else match item with
  | JNull | JBool _ => Some (nodes, bytes)
  | JNum n => if is_finite n then Some (nodes, bytes) else None
  | JStr s => let bytes := bytes + utf8_length s in if bytes <=? MAX_VALUE_BYTES then Some (nodes, bytes) else None
  | JArr items =>
      if (MAX_VALUE_ENTRIES <? length items)%nat then None
      else (fix go (i : nat) (l : list jsval) (count : Z * Z) : option (Z * Z) :=
              match l with
              | [] => Some count
              | entry :: l =>
                  let bytes := count.2 + utf8_length (digits (N.of_nat i)) in
                  if MAX_VALUE_BYTES <? bytes then None
                  else match measure entry (depth + 1) (count.1, bytes) with
                       | Some count => go (S i) l count
                       | None => None
                       end
              end) O items (nodes, bytes)
  | JObj entries =>
      if (MAX_VALUE_ENTRIES <? length entries)%nat then None
      else (fix go (l : obj jsval) (count : Z * Z) : option (Z * Z) :=
              match l with
              | [] => Some count
              | entry :: l =>
                  let bytes := count.2 + utf8_length entry.1 in
                  if MAX_VALUE_BYTES <? bytes then None
                  else match measure entry.2 (depth + 1) (count.1, bytes) with
                       | Some count => go l count
                       | None => None
                       end
              end) entries (nodes, bytes)
  | JUndefined | JOther _ => None
  end.

(** [JSON.stringify(value)] of plain JSON is [encode value]. *)
Definition isBoundedVoiceToolJson (value : jsval) : bool :=
  bool_decide (is_Some (measure value 0 (0, 0))) &&
  match encode value with Some text => utf8_length text <=? MAX_VALUE_BYTES | None => false end.

Definition detachBoundedVoiceToolJson (value : jsval) : option jsval :=
  if isBoundedVoiceToolJson value
  then match canonicalJson value with Some _ => Some (reparse value) | None => None end
  else None.

(** ** Digests *)

Inductive ToolEffect : Type := ReadEffect | WriteEffect | OpaqueEffect.
#[export] Instance tool_effect_eq_dec : EqDecision ToolEffect.
Proof. solve_decision. Defined.
Definition tool_effect_text (e : ToolEffect) : string :=
  match e with ReadEffect => "read" | WriteEffect => "write" | OpaqueEffect => "opaque" end.

Record ToolDefinition := {
  td_name : jstr;
  td_description : jstr;
  td_implementationDigest : jstr;
  td_inputSchema : jsval;
  td_outputSchema : option jsval;
  td_effect : option ToolEffect;
  td_reconciliation : option jsval;
}.

Definition definition_json (d : ToolDefinition) : jsval :=
  JObj (field "name" (JStr (td_name d)) ++ field "description" (JStr (td_description d)) ++
    field "implementationDigest" (JStr (td_implementationDigest d)) ++ field "inputSchema" (td_inputSchema d) ++
    opt_field "outputSchema" id (td_outputSchema d) ++ opt_field "effect" (fun e => jtext (tool_effect_text e)) (td_effect d) ++
    opt_field "reconciliation" id (td_reconciliation d)).

(** A text of the domain, a NUL and the canonical JSON, in one hash. *)
Definition domain_digest `{Sha256} (domain : string) (value : jsval) : option jstr :=
  (fun text => sha256 (js domain ++ [0%N] ++ text)) <$> canonicalJson value.

Definition voiceToolDefinitionDigest `{Sha256} (d : ToolDefinition) : option jstr :=
  domain_digest "hacc/voice-tool-definition/v1" (definition_json d).

Record AdmissionScope := { as_callId : jstr; as_agentId : jstr; as_orgId : jstr }.
Record CatalogEntry := { ce_name : jstr; ce_definitionDigest : jstr }.

Definition scope_id_ok (s : jstr) : bool := negb (bool_decide (s = [])) && (utf8_length s <=? 4 * 1024).
Definition entry_ok (e : CatalogEntry) : bool := negb (bool_decide (ce_name e = [])) && is_sha256 (ce_definitionDigest e).
Definition entry_ltb (a b : CatalogEntry) : bool := str_ltb (ce_name a) (ce_name b).
Definition entry_json (e : CatalogEntry) : jsval :=
  JObj (field "name" (JStr (ce_name e)) ++ field "definitionDigest" (JStr (ce_definitionDigest e))).
Definition admission_json (s : AdmissionScope) (catalog : list CatalogEntry) : jsval :=
  JObj (field "scope" (JObj (field "callId" (JStr (as_callId s)) ++ field "agentId" (JStr (as_agentId s)) ++
                             field "orgId" (JStr (as_orgId s)))) ++
        field "catalog" (JArr (entry_json <$> catalog))).

(** [None] is an exception. *)
Definition voiceToolAdmissionScopeDigest `{Sha256} (s : AdmissionScope) (catalog : list CatalogEntry) : option jstr :=
  if negb (forallb scope_id_ok [as_callId s; as_agentId s; as_orgId s]) then None
  else if (256 <? length catalog)%nat || negb (forallb entry_ok catalog) then None
  else
    let normalized := sort_by entry_ltb catalog in
    if negb (length (uniq (ce_name <$> normalized)) =? length normalized)%nat then None
    else domain_digest "hacc/voice-tool-admission-scope/v1" (admission_json s normalized).

(** ** Implementations *)

(** What the digest of an implementation reads: the text of its functions ([Function.prototype.toString]) and the
    revision it declares. An outer [None] is a value of another type; an inner [None] is [undefined]. *)
Record Extension := {
  ex_execute : option jstr;
  ex_isAvailable : option (option jstr);
  ex_implementationRevision : option (option jstr);
}.

(** [/^[A-Za-z0-9][A-Za-z0-9._+@:/-]{0,511}$/] *)
Definition REVISION (s : jstr) : bool :=
  match s with
  | c :: r => is_alnum c && (length r <=? 511)%nat && forallb (fun c => is_alnum c || one_of "._+@:/-" c) r
  | [] => false
  end.

Definition implementation_text (execute : jstr) (isAvailable revision : option jstr) : jstr :=
  js "hacc/voice-tool-implementation/v1" ++ [0%N] ++ default (js "unversioned") revision ++ [0%N] ++ execute ++ [0%N] ++
  default [] isAvailable.

(** [None] is an exception. *)
Definition voiceToolImplementationDigest `{Sha256} (e : Extension) : option jstr :=
  execute ← ex_execute e; isAvailable ← ex_isAvailable e; revision ← ex_implementationRevision e;
  if forallb REVISION (option_list revision) then Some (sha256 (implementation_text execute isAvailable revision)) else None.

End VoiceToolSchema.
