(* ===== verification/VoiceToolSchemaProps.v ===== *)
(** * What normalised schemas and bounded values guarantee

    The traversals of the source agree with plain reference definitions, normal forms are
    portable and stable, and digests identify the definitions and catalogues they are made of. *)

From S2P Require Import Prelude JsValue JsText Canonical Graph Flow FlowValidate FlowRuntime VoiceToolSchema.
Import VoiceToolSchema.

Local Open Scope Z_scope.

Module VoiceToolSchemaProps.

(** ** Reference definitions *)

Definition sum (l : list Z) : Z := foldr Z.add 0 l.

Lemma sum_perm l l' : l ≡ₚ l' -> sum l = sum l'.
Proof. unfold sum. induction 1; simpl; lia. Qed.

(** The number of values in a value, itself included. *)
Fixpoint size (v : jsval) : Z :=
  match v with
  | JArr items => 1 + sum (size <$> items)
  | JObj entries => 1 + sum ((fun kv => size kv.2) <$> entries)
  | _ => 1
  end.

Lemma sum_nonneg l : Forall (fun z => 0 <= z) l -> 0 <= sum l.
Proof. unfold sum. induction 1; simpl; lia. Qed.

Lemma size_pos v : 1 <= size v.
Proof.
  induction v as [| | | | |items IH|entries IH|] using jsval_ind'; simpl; try lia.
  - assert (0 <= sum (size <$> items)); [|lia]. apply sum_nonneg, Forall_fmap. eapply Forall_impl; [exact IH|]. simpl. lia.
  - assert (0 <= sum ((fun kv => size kv.2) <$> entries)); [|lia].
    apply sum_nonneg, Forall_fmap. eapply Forall_impl; [exact IH|]. simpl. lia.
Qed.

Definition portable_entry (portable : jsval -> Prop) (entry : jstr * jsval) : Prop :=
  entry.1 ∉ NON_PORTABLE_SCHEMA_KEYWORDS /\ oversized_branch entry.1 entry.2 = false /\ portable entry.2.

(** At most [depth] levels of plain JSON without the keywords, in arrays and objects of bounded size. *)
Inductive portable : Z -> jsval -> Prop :=
| portable_null d : 0 <= d -> portable d JNull
| portable_bool d b : 0 <= d -> portable d (JBool b)
| portable_str d s : 0 <= d -> portable d (JStr s)
| portable_num d n : 0 <= d -> is_finite n = true -> portable d (JNum n)
| portable_arr d items : 0 <= d -> (length items <= MAX_SCHEMA_ENTRIES)%nat -> Forall (portable (d - 1)) items -> portable d (JArr items)
| portable_obj d entries : 0 <= d -> (length entries <= MAX_SCHEMA_ENTRIES)%nat ->
    Forall (fun entry => entry.1 ∉ NON_PORTABLE_SCHEMA_KEYWORDS /\ oversized_branch entry.1 entry.2 = false /\
                         portable (d - 1) entry.2) entries -> portable d (JObj entries).

(** The loops of [visit] over the elements and over the properties. *)
Fixpoint visit_items (l : list jsval) (depth nodes : Z) : result SchemaError Z :=
  match l with
  | [] => Ok nodes
  | item :: l => let* nodes := visit item depth nodes in visit_items l depth nodes
  end.
Fixpoint visit_entries (l : obj jsval) (depth nodes : Z) : result SchemaError Z :=
  match l with
  | [] => Ok nodes
  | entry :: l =>
      raise (NonPortable entry.1) when includes entry.1 NON_PORTABLE_SCHEMA_KEYWORDS ;;
      raise OversizedBranch when oversized_branch entry.1 entry.2 ;;
      let* nodes := visit entry.2 depth nodes in visit_entries l depth nodes
  end.

Lemma visit_arr items depth nodes : visit (JArr items) depth nodes =
  (raise TooComplex when (MAX_SCHEMA_NODES <? nodes + 1) || (MAX_SCHEMA_DEPTH <? depth) ;;
   raise OversizedArray when (MAX_SCHEMA_ENTRIES <? length items)%nat ;; visit_items items (depth + 1) (nodes + 1)).
Proof.
  cbn [visit]. destruct (_ || _); [done|]. destruct (_ <? _)%nat; [done|]. generalize (nodes + 1). induction items as [|v l IH]; [done|].
  intros m. cbn. destruct (visit v (depth + 1) m); [|done]. apply IH.
Qed.

Lemma visit_obj entries depth nodes : visit (JObj entries) depth nodes =
  (raise TooComplex when (MAX_SCHEMA_NODES <? nodes + 1) || (MAX_SCHEMA_DEPTH <? depth) ;;
   raise TooManyProperties when (MAX_SCHEMA_ENTRIES <? length entries)%nat ;; visit_entries entries (depth + 1) (nodes + 1)).
Proof.
  cbn [visit]. destruct (_ || _); [done|]. destruct (_ <? _)%nat; [done|]. generalize (nodes + 1). induction entries as [|kv l IH]; [done|].
  intros m. cbn. destruct (includes _ _); [done|]. destruct (oversized_branch _ _); [done|].
  destruct (visit kv.2 (depth + 1) m); [|done]. apply IH.
Qed.

(** What the traversal accepts and counts. *)
Definition visits (v : jsval) : Prop := forall depth nodes m,
  visit v depth nodes = Ok m <->
  portable (MAX_SCHEMA_DEPTH - depth) v /\ m = nodes + size v /\ nodes + size v <= MAX_SCHEMA_NODES.

Lemma visit_items_exact items depth : Forall visits items -> forall nodes m, nodes <= MAX_SCHEMA_NODES ->
  visit_items items depth nodes = Ok m <->
  Forall (portable (MAX_SCHEMA_DEPTH - depth)) items /\ m = nodes + sum (size <$> items) /\ m <= MAX_SCHEMA_NODES.
Proof.
  induction 1 as [|v l Hv Hl IH]; intros nodes m Hn; cbn [visit_items].
  - cbn. split; [intros [= ->]; split; [constructor|lia]|intros (_ & -> & _); f_equal; lia].
  - rewrite Forall_cons. cbn [fmap list_fmap sum foldr]. fold (sum (size <$> l)). pose proof (size_pos v) as Hp.
    destruct (visit v depth nodes) as [n1|e] eqn:E; cbn [bind_result].
    + apply Hv in E as (P1 & -> & P2). rewrite IH by lia. split; intros (? & -> & ?); split_and!; naive_solver lia.
    + split; [done|]. intros ([P1 _] & -> & Hm).
      assert (0 <= sum (size <$> l)) by (apply sum_nonneg, Forall_fmap, Forall_true; intros x; pose proof (size_pos x); simpl; lia).
      assert (Hok : visit v depth nodes = Ok (nodes + size v)) by (apply Hv; split_and!; [done|done|lia]). congruence.
Qed.

Lemma visit_entries_exact entries depth : Forall (fun kv => visits kv.2) entries -> forall nodes m, nodes <= MAX_SCHEMA_NODES ->
  visit_entries entries depth nodes = Ok m <->
  Forall (portable_entry (portable (MAX_SCHEMA_DEPTH - depth))) entries /\ m = nodes + sum ((fun kv => size kv.2) <$> entries) /\
  m <= MAX_SCHEMA_NODES.
Proof.
  induction 1 as [|kv l Hv Hl IH]; intros nodes m Hn; cbn [visit_entries].
  - cbn. split; [intros [= ->]; split; [constructor|lia]|intros (_ & -> & _); f_equal; lia].
  - rewrite Forall_cons. unfold portable_entry at 1. cbn [fmap list_fmap sum foldr].
    change (foldr Z.add 0 ((fun kv => size kv.2) <$> l)) with (sum ((fun kv => size kv.2) <$> l)). pose proof (size_pos kv.2) as Hp.
    destruct (includes kv.1 _) eqn:Ek; [apply includes_iff in Ek; naive_solver|]. apply includes_false in Ek.
    destruct (oversized_branch _ _) eqn:Eb; [naive_solver|].
    destruct (visit kv.2 depth nodes) as [n1|e] eqn:E; cbn [bind_result].
    + apply Hv in E as (P1 & -> & P2). rewrite IH by lia. split; intros (? & -> & ?); split_and!; naive_solver lia.
    + split; [done|]. intros ([(_ & _ & P1) _] & -> & Hm).
      assert (0 <= sum ((fun kv => size kv.2) <$> l))
        by (apply sum_nonneg, Forall_fmap, Forall_true; intros x; pose proof (size_pos x.2); simpl; lia).
      assert (Hok : visit kv.2 depth nodes = Ok (nodes + size kv.2)) by (apply Hv; split_and!; [done|done|lia]). congruence.
Qed.

Lemma guard_iff {A} (b : bool) (e : SchemaError) (k : result SchemaError A) (m : A) (P : Prop) :
  (b = false -> k = Ok m <-> P) -> (b = true -> ~ P) -> (raise e when b ;; k) = Ok m <-> P.
Proof. destruct b; naive_solver. Qed.

Lemma visit_exact v : visits v.
Proof.
  induction v as [| |b|n|s|items IH|entries IH|o] using jsval_ind'; intros depth nodes m.
  6:{ rewrite visit_arr. apply guard_iff; intros Hg; to_prop.
      2:{ intros (Hp & -> & Hm). apply orb_true_iff in Hg as [Hg|Hg]; to_prop; [|inversion Hp; lia].
          pose proof (size_pos (JArr items)). lia. }
      apply guard_iff; intros Hl.
      - apply Nat.ltb_ge in Hl. rewrite (visit_items_exact items (depth + 1) IH) by lia. cbn [size].
        replace (MAX_SCHEMA_DEPTH - (depth + 1)) with (MAX_SCHEMA_DEPTH - depth - 1) by lia. split.
        + intros (? & -> & ?). split_and!; [constructor; [lia|done|done]|lia|lia].
        + intros (Hp & -> & ?). inversion Hp; subst. split_and!; [done|lia|lia].
      - apply Nat.ltb_lt in Hl. intros (Hp & _). inversion Hp; subst. lia. }
  6:{ rewrite visit_obj. apply guard_iff; intros Hg; to_prop.
      2:{ intros (Hp & -> & Hm). apply orb_true_iff in Hg as [Hg|Hg]; to_prop; [|inversion Hp; lia].
          pose proof (size_pos (JObj entries)). lia. }
      apply guard_iff; intros Hl.
      - apply Nat.ltb_ge in Hl. rewrite (visit_entries_exact entries (depth + 1) IH) by lia. cbn [size].
        replace (MAX_SCHEMA_DEPTH - (depth + 1)) with (MAX_SCHEMA_DEPTH - depth - 1) by lia. split.
        + intros (? & -> & ?). split_and!; [constructor; [lia|done|done]|lia|lia].
        + intros (Hp & -> & ?). inversion Hp; subst. split_and!; [done|lia|lia].
      - apply Nat.ltb_lt in Hl. intros (Hp & _). inversion Hp; subst. lia. }
  all: cbn [visit size]; apply guard_iff; intros Hg; to_prop;
    [|intros (Hp & -> & Hm); apply orb_true_iff in Hg as [Hg|Hg]; to_prop; [lia|inversion Hp; lia]].
  1,6: (split; [done|intros (Hp & _); inversion Hp]).
  1,2,4: (split; [intros [= <-]; split_and!; [constructor; lia|lia|lia]|intros (_ & -> & _); done]).
  apply guard_iff; intros Hf; to_prop.
  - split; [intros [= <-]; split_and!; [constructor; [lia|done]|lia|lia]|intros (_ & -> & _); done].
  - intros (Hp & _). inversion Hp. congruence.
Qed.

(** ** Normal forms *)

Lemma norm_obj_perm kvs : sort_by key_ltb ((fun kv => (kv.1, norm kv.2)) <$> kvs) ≡ₚ ((fun kv : jstr * jsval => (kv.1, norm kv.2)) <$> kvs).
Proof. apply sort_by_perm. Qed.

Lemma norm_norm v : val_ok v -> norm (norm v) = norm v.
Proof.
  induction v as [| |b|n|s|items IH|kvs IH|o] using jsval_ind'; intros Hv; try done.
  - cbn [norm]. f_equal. unfold drop_neg_zero. by destruct n as [| |[] [|s] e].
  - rewrite val_ok_arr in Hv. cbn [norm]. f_equal. rewrite <- list_fmap_compose. apply list_fmap_ext. intros i v Hi.
    rewrite Forall_lookup in IH, Hv. unfold compose. eauto.
  - rewrite val_ok_obj in Hv. destruct Hv as [Hk Hv]. cbn [norm]. f_equal.
    set (f := fun kv : jstr * jsval => (kv.1, norm kv.2)).
    assert (Hf : f <$> (f <$> kvs) = f <$> kvs).
    { rewrite <- list_fmap_compose. apply list_fmap_ext. intros i kv Hi. unfold f, compose. simpl. f_equal.
      rewrite Forall_lookup in IH, Hv. destruct (Hv _ _ Hi). eauto. }
    rewrite <- Hf at 2. symmetry. apply sort_by_key_unique.
    + unfold keys. by rewrite <- !list_fmap_compose.
    + by rewrite sort_by_perm.
Qed.

Lemma size_norm v : size (norm v) = size v.
Proof.
  induction v as [| |b|n|s|items IH|kvs IH|o] using jsval_ind'; try done.
  - cbn [norm size]. f_equal. rewrite <- list_fmap_compose. f_equal. apply list_fmap_ext. intros i v Hi.
    rewrite Forall_lookup in IH. unfold compose. eauto.
  - cbn [norm size]. f_equal. rewrite (sum_perm _ ((fun kv => size kv.2) <$> ((fun kv => (kv.1, norm kv.2)) <$> kvs)))
      by (by rewrite norm_obj_perm). rewrite <- list_fmap_compose. f_equal. apply list_fmap_ext. intros i kv Hi.
    rewrite Forall_lookup in IH. unfold compose. simpl. eauto.
Qed.

Lemma portable_norm v : forall d, portable d v -> portable d (norm v).
Proof.
  induction v as [| |b|n|s|items IH|kvs IH|o] using jsval_ind'; intros d Hp; inversion Hp; subst; cbn [norm].
  1,2,4: by constructor.
  - constructor; [done|]. unfold drop_neg_zero. by destruct n as [| |[] [|s] e].
  - constructor; [done|by rewrite length_fmap|]. apply Forall_fmap. rewrite Forall_lookup in *. unfold compose. eauto.
  - match goal with HF : Forall _ kvs |- _ => rename HF into Hent end.
    constructor; [done|by rewrite norm_obj_perm, length_fmap|]. rewrite norm_obj_perm. apply Forall_fmap.
    rewrite Forall_lookup in *. intros i kv Hi. unfold compose. simpl. destruct (Hent i kv Hi) as (? & Hb & ?).
    split_and!; [done| |eauto]. unfold oversized_branch in *. destruct kv.2; simpl in *; try done. by rewrite length_fmap.
Qed.

(** Normalising is idempotent, and the normal form has the canonical text, hence the digest, of the schema. *)
Lemma normalise_stable `{Ajv} v root n : val_ok v -> normalizeVoiceToolSchema v root = Ok n ->
  normalizeVoiceToolSchema n root = Ok n /\ canonicalJson n = canonicalJson v.
Proof.
  intros Hv Hn. unfold normalizeVoiceToolSchema in *. destruct v as [| | | | | |fields|[]]; try done.
  cbn [bind_result] in Hn. destruct (visit (JObj fields) 0 0) as [m|] eqn:E; [|done]. cbn [bind_result] in Hn.
  destruct (canonicalJson (JObj fields)) as [text|] eqn:Ht; [|done]. destruct (MAX_SCHEMA_BYTES <? _) eqn:Hb; [done|].
  unfold reparse in *. destruct (root && _) eqn:Hr; [done|].
  destruct (ajv_compiles (norm (JObj fields))) eqn:Hc; cbn [negb] in Hn; [|done].
  assert (Hn' : norm (JObj fields) = n) by (by inversion Hn). subst n. clear Hn.
  assert (Hcan : canonicalJson (norm (JObj fields)) = Some text) by (by rewrite <- Ht; apply canonicalJson_content, norm_norm).
  assert (Hvis : visit (norm (JObj fields)) 0 0 = Ok m).
  { apply visit_exact in E as (Hp & -> & Hs). apply visit_exact. rewrite size_norm. split_and!; [by apply portable_norm|done|done]. }
  split; [|done]. rewrite Hvis, Hcan, (norm_norm (JObj fields) Hv). cbn [bind_result].
  assert (Hk : exists l, norm (JObj fields) = JObj l) by (by eexists). destruct Hk as [l Hk].
  rewrite Hk in *. by rewrite Hb, Hr, Hc.
Qed.

(** C10. Normalising a schema is exact and stable: a plain JSON object is accepted if and only if it is portable (at most
    sixteen levels, 256 entries each, sixteen branches, none of the excluded keywords anywhere), has at most
    2048 values, at most 64KB of canonical text, the object type at its root where that is asked for, and its
    normal form compiles; the result then is that normal form, with the same canonical text, and
    normalising it again gives it back. *)
Theorem normalised_schema_exact `{Ajv} fields root n : let v := JObj fields in val_ok v ->
  (normalizeVoiceToolSchema v root = Ok n <->
  n = norm v /\ portable MAX_SCHEMA_DEPTH v /\ size v <= MAX_SCHEMA_NODES /\
  (exists text, canonicalJson v = Some text /\ utf8_length text <= MAX_SCHEMA_BYTES) /\
  (root = true -> root_is_object n = true) /\ ajv_compiles n = true) /\
  (normalizeVoiceToolSchema v root = Ok n -> normalizeVoiceToolSchema n root = Ok n /\ canonicalJson n = canonicalJson v).
Proof.
  intros v Hv. split; [|by apply normalise_stable]. subst v. cbn [normalizeVoiceToolSchema]. unfold normalizeVoiceToolSchema, reparse.
  pose proof (visit_exact (JObj fields) 0 0) as Hx. rewrite Z.sub_0_r in Hx.
  destruct (visit (JObj fields) 0 0) as [m|e] eqn:E; cbn [bind_result].
  2:{ split; [done|]. intros (_ & Hp & Hs & _).
      by assert (Err e = Ok (0 + size (JObj fields))) by (apply Hx; split_and!; [done|done|lia]). }
  destruct (proj1 (Hx m) eq_refl) as (Hp & _ & Hs). clear Hx.
  destruct (canonicalJson (JObj fields)) as [text|] eqn:Ht; [|naive_solver].
  destruct (_ <? utf8_length text) eqn:Hb; to_prop.
  { split; [done|]. intros (_ & _ & _ & (? & [= <-] & ?) & _). lia. }
  destruct (root && _) eqn:Hr; to_prop.
  { split; [done|]. intros (-> & _ & _ & _ & Hroot & _). rewrite Hroot in *; done. }
  destruct (ajv_compiles (norm (JObj fields))) eqn:Hc; cbn [negb]; [|split; [done|intros (-> & _ & _ & _ & _ & ?); congruence]].
  split; [intros [= <-]|by intros (-> & _)]. split_and!; try done.
  { by exists text. }
  intros ->. simpl in Hr. by to_prop.
Qed.

(** What a normalised schema is. *)
Lemma normalise_Ok `{Ajv} v root n : normalizeVoiceToolSchema v root = Ok n ->
  n = norm v /\ ajv_compiles n = true /\ is_Some (canonicalJson v).
Proof.
  unfold normalizeVoiceToolSchema, reparse. destruct (match v with JObj _ | JOther OObject => _ | _ => _ end); [done|].
  destruct (visit v 0 0); [|done]. cbn [bind_result]. destruct (canonicalJson v) as [text|]; [|done].
  destruct (_ <? _); [done|]. destruct (root && _); [done|]. destruct (ajv_compiles (norm v)) eqn:E; [|done].
  intros [= <-]. by split_and!.
Qed.

(** ** Digests *)

Definition scope_units (s : AdmissionScope) : Prop := units_ok (as_callId s) /\ units_ok (as_agentId s) /\ units_ok (as_orgId s).
Definition catalog_units (catalog : list CatalogEntry) : Prop := Forall (fun e => units_ok (ce_name e)) catalog.
Definition entry_pair (e : CatalogEntry) : jstr * jstr := (ce_name e, ce_definitionDigest e).

#[local] Instance entry_pair_inj : Inj (=) (=) entry_pair.
Proof. intros [] []. by intros [= -> ->]. Qed.

(** The name order of a catalogue does not depend on the order it is given in. *)
Lemma sorted_catalog_unique c c' : NoDup (ce_name <$> c) -> c ≡ₚ c' -> sort_by entry_ltb c = sort_by entry_ltb c'.
Proof.
  intros Hnd Hp. apply (inj (fmap entry_pair)).
  rewrite <- !(sort_by_fmap entry_ltb key_ltb entry_pair) by done. apply sort_by_key_unique.
  - unfold keys. by rewrite <- list_fmap_compose.
  - by rewrite Hp.
Qed.

Lemma uniq_from_incl {A} `{EqDecision A} (seen l : list A) : (length (uniq_from seen l) <= length l)%nat.
Proof.
  revert seen. induction l as [|x l IH]; intros seen; simpl; [lia|].
  destruct (includes x seen); simpl; [pose proof (IH seen)|pose proof (IH (x :: seen))]; lia.
Qed.

Lemma forallb_perm_eq {A} (p : A -> bool) l l' : l ≡ₚ l' -> forallb p l = forallb p l'.
Proof. induction 1; simpl; try congruence. by destruct (p x), (p y). Qed.

Lemma uniq_length_NoDup {A} `{EqDecision A} (l : list A) : (length (uniq l) =? length l)%nat = bool_decide (NoDup l).
Proof.
  assert (Hs : forall seen, length (uniq_from seen l) = length l <-> NoDup l /\ (forall x, x ∈ l -> x ∉ seen)).
  { induction l as [|x l IH]; intros seen; [split; [split; [constructor|set_solver]|done]|]. cbn [uniq_from length].
    rewrite NoDup_cons. destruct (includes x seen) eqn:E; to_prop.
    - pose proof (uniq_from_incl seen l). split; [lia|]. intros (_ & Hx). by destruct (Hx x); [left|].
    - cbn [length]. split.
      + intros [= [? Hx]%IH]. split; [split; [intros Hin; by destruct (Hx x Hin); left|done]|set_solver].
      + intros ([? ?] & Hx). f_equal. apply IH. set_solver. }
  apply eq_true_iff_eq. rewrite Nat.eqb_eq, bool_decide_eq_true. unfold uniq. rewrite Hs. set_solver.
Qed.

Lemma entry_json_ok e : units_ok (ce_name e) -> entry_ok e = true -> val_ok (entry_json e).
Proof.
  intros Hu [_ Hd]%andb_true_iff. apply val_ok_obj. split; [apply (bool_decide_unpack _); vm_compute; exact I|].
  repeat constructor; simpl; eauto using js_units, sha256_units.
Qed.

Lemma admission_json_ok s c : scope_units s -> catalog_units c -> forallb entry_ok c = true -> val_ok (admission_json s c).
Proof.
  intros (? & ? & ?) Hc Ho. apply val_ok_obj. split; [apply (bool_decide_unpack _); vm_compute; exact I|].
  repeat (apply Forall_cons; split); [..|by constructor]; (split; [apply js_units|]); cbn [snd].
  - apply val_ok_obj. split; [apply (bool_decide_unpack _); vm_compute; exact I|]. repeat constructor; simpl; eauto using js_units.
  - apply val_ok_arr, Forall_fmap, Forall_forall. intros e He. apply entry_json_ok.
    + unfold catalog_units in Hc. rewrite Forall_forall in Hc. auto.
    + rewrite forallb_forall in Ho. apply Ho. by apply list_elem_of_In.
Qed.

Ltac field_by_field E :=
  unfold field in E; cbn [app] in E; apply norm_fields in E; [|apply (bool_decide_unpack _); vm_compute; exact I|reflexivity];
  cbn in E; repeat match goal with H : Forall2 _ (_ :: _) (_ :: _) |- _ => apply Forall2_cons in H as [? ?] end; cbn [snd] in *.

Lemma entry_json_inj e e' : norm (entry_json e) = norm (entry_json e') -> e = e'.
Proof.
  intros E. unfold entry_json in E. field_by_field E.
  cbn [norm] in *. destruct e, e'. simpl in *. congruence.
Qed.

Lemma admission_json_inj s c s' c' : norm (admission_json s c) = norm (admission_json s' c') -> s = s' /\ c = c'.
Proof.
  intros E. unfold admission_json in E. field_by_field E.
  match goal with H : norm (JObj _) = norm (JObj _) |- _ => rename H into Es end.
  match goal with H : norm (JArr _) = norm (JArr _) |- _ => rename H into Ec end.
  field_by_field Es. cbn [norm] in Ec. injection Ec as Ec. rewrite <- !list_fmap_compose in Ec. split; [cbn [norm] in *; destruct s, s'; simpl in *; congruence|].
  revert Ec. apply list_fmap_eq_inj. intros e e'. apply entry_json_inj.
Qed.

(** What a call is bound to: a scope of three bounded texts and at most 256 tools of distinct names. *)
Lemma admission_digest_Some `{Sha256} s c h :
  voiceToolAdmissionScopeDigest s c = Some h ->
  NoDup (ce_name <$> c) /\ forallb entry_ok c = true /\
  domain_digest "hacc/voice-tool-admission-scope/v1" (admission_json s (sort_by entry_ltb c)) = Some h.
Proof.
  unfold voiceToolAdmissionScopeDigest. destruct (negb (forallb scope_id_ok _)); [done|]. destruct (_ || _) eqn:E; [done|]. to_prop.
  rewrite <- (length_fmap ce_name), uniq_length_NoDup. intros Hh. destruct (bool_decide _) eqn:Hnd; [|done]. to_prop.
  rewrite sort_by_perm in Hnd. done.
Qed.

(** C11. The admission digest is the identity of a call's authority: it is the same whatever order the catalogue is given in, and
    two admissions with one digest have the same call, agent and organisation and the same tools with the
    same pinned definitions, or SHA-256 collides. *)
Theorem admission_digest_identity `{Sha256} s c h : scope_units s -> catalog_units c -> voiceToolAdmissionScopeDigest s c = Some h ->
  (forall c', c' ≡ₚ c -> voiceToolAdmissionScopeDigest s c' = Some h) /\
  (forall s' c', scope_units s' -> catalog_units c' -> voiceToolAdmissionScopeDigest s' c' = Some h -> (s' = s /\ c' ≡ₚ c) \/ collision).
Proof.
  intros Hs Hc Hh. pose proof (admission_digest_Some _ _ _ Hh) as (Hnd & Hok & Hd). split.
  - intros c' Hp. unfold voiceToolAdmissionScopeDigest in *. rewrite (sorted_catalog_unique c c') in Hh by done.
    rewrite (forallb_perm_eq _ _ _ Hp), (Permutation_length Hp). done.
  - intros s' c' Hs' Hc' (Hnd' & Hok' & Hd')%admission_digest_Some. unfold domain_digest in *.
    apply fmap_Some in Hd as (t & Ht & ->). apply fmap_Some in Hd' as (t' & Ht' & E).
    destruct (decide (t = t')) as [<-|Hne].
    + left. assert (norm (admission_json s' (sort_by entry_ltb c')) = norm (admission_json s (sort_by entry_ltb c))) as [-> Hq]%admission_json_inj.
      { apply (canonicalJson_inj _ _ t); [| |done|done]; apply admission_json_ok; try done.
        1,3: by unfold catalog_units; rewrite sort_by_perm.
        all: by rewrite (forallb_perm_eq _ _ _ (sort_by_perm _ _)). }
      split; [done|]. by rewrite <- (sort_by_perm entry_ltb c'), Hq, sort_by_perm.
    + right. exists (js "hacc/voice-tool-admission-scope/v1" ++ [0%N] ++ t), (js "hacc/voice-tool-admission-scope/v1" ++ [0%N] ++ t').
      split; [|done]. by intros ?%app_inv_head%app_inv_head.
Qed.

End VoiceToolSchemaProps.
