(* ===== verification/VoiceToolSchemaDemo.v ===== *)
(** * Schemas and catalogues at concrete inputs *)

From S2P Require Import Prelude JsValue JsText Canonical Graph Flow FlowValidate FlowRuntime VoiceToolSchema VoiceToolSchemaProps.
Import VoiceToolSchema VoiceToolSchemaProps.

Local Open Scope Z_scope.

Module VoiceToolSchemaDemo.

(** A validator that takes every schema of a declared type and accepts every value. *)
#[local] Instance lax : Ajv := {| ajv_compiles := root_is_object; ajv_validates := fun _ _ => true |}.

Definition order_schema : obj jsval :=
  field "type" (jtext "object") ++
  field "properties" (JObj (field "total" (JObj (field "type" (jtext "number"))) ++ field "id" (JObj (field "type" (jtext "string"))))) ++
  field "required" (JArr [jtext "id"]).

(** The properties come back in name order. *)
Example order_normal : normalizeVoiceToolSchema (JObj order_schema) true = Ok (norm (JObj order_schema)) /\
  norm (JObj order_schema) <> JObj order_schema.
Proof. split; [by vm_compute|discriminate]. Qed.

(** A schema with a reference, and one whose root is not an object. *)
Example references_refused :
  normalizeVoiceToolSchema (JObj (field "type" (jtext "object") ++ field "not" (JObj (field "$ref" (jtext "#"))))) true =
    Err (NonPortable (js "$ref")) /\
  normalizeVoiceToolSchema (JObj (field "type" (jtext "string"))) true = Err RootNotObject.
Proof. by vm_compute. Qed.

(** Seventeen levels are one too many. *)
Example depth_refused :
  visit (Nat.iter 16 (fun v => JArr [v]) JNull) 0 0 = Ok 17 /\ visit (Nat.iter 17 (fun v => JArr [v]) JNull) 0 0 = Err TooComplex.
Proof. by vm_compute. Qed.

Lemma normalised_schema_exact_witness :
  normalizeVoiceToolSchema (JObj order_schema) true = Ok (norm (JObj order_schema)) /\
  portable MAX_SCHEMA_DEPTH (JObj order_schema) /\ size (JObj order_schema) <= MAX_SCHEMA_NODES /\
  normalizeVoiceToolSchema (norm (JObj order_schema)) true = Ok (norm (JObj order_schema)).
Proof.
  assert (Hn : normalizeVoiceToolSchema (JObj order_schema) true = Ok (norm (JObj order_schema))) by (vm_compute; reflexivity).
  destruct (normalised_schema_exact order_schema true (norm (JObj order_schema)) (val_okb_sound (JObj order_schema) eq_refl)) as [H1 H2].
  pose proof (proj1 H1 Hn) as (_ & Hp & Hs & _).
  exact (conj Hn (conj Hp (conj Hs (proj1 (H2 Hn))))).
Defined.

Definition support_call : AdmissionScope := {| as_callId := js "call-1"; as_agentId := js "agent-1"; as_orgId := js "org-1" |}.
Definition pinned (name : string) : CatalogEntry := {| ce_name := js name; ce_definitionDigest := replicate 64 97%N |}.

Lemma admission_digest_identity_witness :
  @voiceToolAdmissionScopeDigest demo_sha256 support_call [pinned "lookup"; pinned "refund"] =
  @voiceToolAdmissionScopeDigest demo_sha256 support_call [pinned "refund"; pinned "lookup"].
Proof.
  destruct (@voiceToolAdmissionScopeDigest demo_sha256 support_call [pinned "refund"; pinned "lookup"]) as [h|] eqn:E; [|discriminate E].
  refine (proj1 (@admission_digest_identity demo_sha256 support_call [pinned "refund"; pinned "lookup"] h _ _ E) _ _).
  - split; [|split]; apply js_units.
  - repeat constructor; apply js_units.
  - apply Permutation_swap.
Defined.

(** One name cannot be admitted twice, and a digest has to be one. *)
Example admission_refused :
  @voiceToolAdmissionScopeDigest demo_sha256 support_call [pinned "lookup"; pinned "lookup"] = None /\
  @voiceToolAdmissionScopeDigest demo_sha256 support_call [{| ce_name := js "lookup"; ce_definitionDigest := js "latest" |}] = None.
Proof. by vm_compute. Qed.

End VoiceToolSchemaDemo.
