(* ===== verification/ActionReconciliation.v ===== *)
(** * Read-back contracts of actions (src/web/lib/action-reconciliation.ts)

    An action whose response was lost after dispatch is settled by the result of a read-only
    query: a contract says which query proves that the action was committed, or that it is
    absent, and where its authoritative result is.

    Contracts have their static type; [ActionReconciliationSpecSchema] is the rest of the zod
    schema, which also normalises the schemas in a contract. The caches of admitted schemas are
    explicit: a schema object is an identity with its content, and normalising makes a new
    object. [structuredClone] of plain JSON is the value. *)

From S2P Require Import Prelude JsValue JsText Canonical Graph Flow FlowValidate FlowRuntime ActionPolicy VoiceToolSchema.
Import VoiceToolSchema.

Local Open Scope Z_scope.

Module ActionReconciliation.

Definition MAX_PROOF_BYTES : Z := 256 * 1024.
Definition MAX_RECONCILIATION_VALIDATORS : nat := 1024.

(** ** Paths *)

Definition safePathSegments (path : jstr) : option (list jstr) :=
  let normalized := if path =?s js "$" then [] else strip_root path in
  let segments := match normalized with [] => [] | _ => split_dots normalized end in
  if existsb (fun segment => bool_decide (segment = []) || includes segment UNSAFE_PATH_SEGMENTS) segments then None
  else Some segments.

Fixpoint descend (current : jsval) (segments : list jstr) : option jsval :=
  match segments with
  | [] => Some current
  | segment :: segments => value ← own_property current segment; descend value segments
  end.

(** [None] is [{ found: false }]. *)
Definition reconciliationValueAtPath (value : jsval) (path : jstr) : option jsval :=
  segments ← safePathSegments path; descend value segments.

(** ** Contracts *)

Inductive ReconciliationValueSource : Type :=
| InvocationId | CallId | OrganizationId | AgentId | ActionArgument (path : jstr) | Literal (value : jsval).

Record ReconciliationPredicate := { rp_resultPath : jstr; rp_equals : ReconciliationValueSource }.

Record ActionReconciliationSpec := {
  sp_queryTool : jstr;
  sp_queryArguments : obj ReconciliationValueSource;
  sp_committedWhen : list ReconciliationPredicate;
  sp_absentWhen : list ReconciliationPredicate;
  sp_queryOutputSchema : option jsval;
  sp_authoritativeResultPath : jstr;
  sp_authoritativeResultSchema : option jsval;
  sp_maxProofAttempts : option Z;
}.

Definition source_text (s : ReconciliationValueSource) : string :=
  match s with
  | InvocationId => "invocation_id" | CallId => "call_id" | OrganizationId => "organization_id" | AgentId => "agent_id"
  | ActionArgument _ => "action_argument" | Literal _ => "literal"
  end.
Definition source_json (s : ReconciliationValueSource) : jsval :=
  JObj (field "source" (jtext (source_text s)) ++
        match s with ActionArgument path => field "path" (JStr path) | Literal value => field "value" value | _ => [] end).
Definition predicate_json (p : ReconciliationPredicate) : jsval :=
  JObj (field "resultPath" (JStr (rp_resultPath p)) ++ field "equals" (source_json (rp_equals p))).
Definition predicates_json (ps : list ReconciliationPredicate) : jsval := JArr (predicate_json <$> ps).
Definition spec_json (s : ActionReconciliationSpec) : jsval :=
  JObj (field "queryTool" (JStr (sp_queryTool s)) ++
    field "queryArguments" (JObj ((fun kv => (kv.1, source_json kv.2)) <$> sp_queryArguments s)) ++
    field "committedWhen" (predicates_json (sp_committedWhen s)) ++ field "absentWhen" (predicates_json (sp_absentWhen s)) ++
    opt_field "queryOutputSchema" id (sp_queryOutputSchema s) ++
    field "authoritativeResultPath" (JStr (sp_authoritativeResultPath s)) ++
    opt_field "authoritativeResultSchema" id (sp_authoritativeResultSchema s) ++
    opt_field "maxProofAttempts" jnat (sp_maxProofAttempts s)).

Definition is_invocation (s : ReconciliationValueSource) : bool := match s with InvocationId => true | _ => false end.
Definition literal (s : ReconciliationValueSource) : option jsval := match s with Literal value => Some value | _ => None end.
Definition is_literal (s : ReconciliationValueSource) : bool := bool_decide (is_Some (literal s)).
Definition is_scalar (v : jsval) : bool := match v with JArr _ | JObj _ | JOther OObject => false | _ => true end.

Definition SafePathSchema (path : jstr) : bool :=
  (1 <=? length path)%nat && (length path <=? 512)%nat && bool_decide (is_Some (safePathSegments path)).

(** [/^[A-Za-z][A-Za-z0-9_-]{0,127}$/] *)
Definition QUERY_ARGUMENT (s : jstr) : bool :=
  match s with
  | c :: r => (is_lower c || is_upper c) && (length r <=? 127)%nat && forallb (fun c => is_alnum c || one_of "_-" c) r
  | [] => false
  end.

Definition ReconciliationValueSourceSchema (s : ReconciliationValueSource) : bool :=
  match s with ActionArgument path => SafePathSchema path | Literal value => ActionPolicy.JsonSchema_ok value | _ => true end.
Definition ReconciliationPredicateSchema (p : ReconciliationPredicate) : bool :=
  SafePathSchema (rp_resultPath p) && ReconciliationValueSourceSchema (rp_equals p).

Definition validatePredicateSet (predicates : list ReconciliationPredicate) : bool :=
  (length (uniq (rp_resultPath <$> predicates)) =? length predicates)%nat &&
  existsb (fun p => is_invocation (rp_equals p)) predicates && existsb (fun p => is_literal (rp_equals p)) predicates &&
  forallb (fun p => match literal (rp_equals p) with Some value => is_scalar value | None => true end) predicates.

(** Every predicate of the set with a literal: its path and the text of the literal. *)
Definition literals (predicates : list ReconciliationPredicate) : list (jstr * option jstr) :=
  omap (fun p => (fun value => (rp_resultPath p, encode value)) <$> literal (rp_equals p)) predicates.
Definition hasDisjointTerminalDiscriminator (committed absent : list ReconciliationPredicate) : bool :=
  existsb (fun c => existsb (fun a => (a.1 =?s c.1) && negb (bool_decide (a.2 = c.2))) (literals absent)) (literals committed).

Definition between (lo hi n : nat) : bool := (lo <=? n)%nat && (n <=? hi)%nat.

Definition spec_refined (s : ActionReconciliationSpec) : bool :=
  TOOL_NAME (sp_queryTool s) && forallb (fun kv => QUERY_ARGUMENT kv.1 && ReconciliationValueSourceSchema kv.2) (sp_queryArguments s) &&
  between 2 16 (length (sp_committedWhen s)) && between 2 16 (length (sp_absentWhen s)) &&
  forallb ReconciliationPredicateSchema (sp_committedWhen s) && forallb ReconciliationPredicateSchema (sp_absentWhen s) &&
  SafePathSchema (sp_authoritativeResultPath s) &&
  match sp_maxProofAttempts s with Some n => (1 <=? n) && (n <=? 10) | None => true end &&
  existsb (fun kv => is_invocation kv.2) (sp_queryArguments s) &&
  validatePredicateSet (sp_committedWhen s) && validatePredicateSet (sp_absentWhen s) &&
  negb (bool_decide (encode (predicates_json (sp_absentWhen s)) = encode (predicates_json (sp_committedWhen s)))) &&
  hasDisjointTerminalDiscriminator (sp_committedWhen s) (sp_absentWhen s).

Section Reconciliation.
Context `{Ajv} `{Sha256}.

(** [portableReconciliationSchema] on an optional property. *)
Definition portableReconciliationSchema (schema : option jsval) (requireObjectRoot : bool) : option (option jsval) :=
  match schema with
  | None => Some None
  | Some value => match normalizeVoiceToolSchema value requireObjectRoot with Ok n => Some (Some n) | Err _ => None end
  end.

(** [ActionReconciliationSpecSchema.safeParse]: the contract with normalised schemas and the default attempts. *)
Definition ActionReconciliationSpecSchema (s : ActionReconciliationSpec) : option ActionReconciliationSpec :=
  queryOutput ← portableReconciliationSchema (sp_queryOutputSchema s) true;
  result ← portableReconciliationSchema (sp_authoritativeResultSchema s) false;
  if spec_refined s then
    Some {| sp_queryTool := sp_queryTool s; sp_queryArguments := sp_queryArguments s; sp_committedWhen := sp_committedWhen s;
            sp_absentWhen := sp_absentWhen s; sp_queryOutputSchema := queryOutput;
            sp_authoritativeResultPath := sp_authoritativeResultPath s; sp_authoritativeResultSchema := result;
            sp_maxProofAttempts := Some (default 3 (sp_maxProofAttempts s)) |}
  else None.

(** ** Admitted schemas *)

Record SchemaObject := { so_ref : N; so_content : jsval }.
Record AdmittedReconciliationSchema := { ad_normalized : SchemaObject; ad_hash : jstr; ad_validator : jsval -> bool }.

(** The module's caches, and the identity of the next object. *)
Record Caches := mkCaches {
  ca_next : N;
  reconciliationValidators : obj (jsval -> bool);
  objectRootSchemas : gmap N AdmittedReconciliationSchema;
  anyRootSchemas : gmap N AdmittedReconciliationSchema;
}.

Definition roots (root : bool) (c : Caches) : gmap N AdmittedReconciliationSchema :=
  if root then objectRootSchemas c else anyRootSchemas c.
Definition set_roots (root : bool) (m : gmap N AdmittedReconciliationSchema) (c : Caches) : Caches :=
  if root then mkCaches (ca_next c) (reconciliationValidators c) m (anyRootSchemas c)
  else mkCaches (ca_next c) (reconciliationValidators c) (objectRootSchemas c) m.

(** A new object. *)
Definition allocate (content : jsval) (c : Caches) : Caches * SchemaObject :=
  (mkCaches (ca_next c + 1) (reconciliationValidators c) (objectRootSchemas c) (anyRootSchemas c),
   {| so_ref := ca_next c; so_content := content |}).

Definition validator_key (root : bool) (hash : jstr) : jstr := js (if root then "object:" else "any:") ++ hash.

(** The oldest validator makes room. *)
Definition add_validator (key : jstr) (validator : jsval -> bool) (c : Caches) : Caches :=
  let validators := reconciliationValidators c in
  let validators := if (MAX_RECONCILIATION_VALIDATORS <=? length validators)%nat then tail validators else validators in
  mkCaches (ca_next c) (put key validator validators) (objectRootSchemas c) (anyRootSchemas c).

(** The validator of a normalised schema, from the cache or compiled. *)
Definition obtain_validator (key : jstr) (normalized : jsval) (c : Caches) : option (Caches * (jsval -> bool)) :=
  match own key (reconciliationValidators c) with
  | Some validator => Some (c, validator)
  | None => validator ← compileVoiceToolSchema normalized; Some (add_validator key validator c, validator)
  end.

Definition admittedSchema (schema : SchemaObject) (requireObjectRoot : bool) (c : Caches)
  : Caches * result SchemaError AdmittedReconciliationSchema :=
  match roots requireObjectRoot c !! so_ref schema with
  | Some admitted => (c, Ok admitted)
  | None =>
      match normalizeVoiceToolSchema (so_content schema) requireObjectRoot with
      | Err e => (c, Err e)
      | Ok content =>
          let '(c, normalized) := allocate content c in
          match hashFlowValue content with
          | None => (c, Err NotJson)
          | Some hash =>
              match obtain_validator (validator_key requireObjectRoot hash) content c with
              | None => (c, Err NotASchema)
              | Some (c, validator) =>
                  let admitted := {| ad_normalized := normalized; ad_hash := hash; ad_validator := validator |} in
                  (set_roots requireObjectRoot
                     (<[so_ref normalized := admitted]> (<[so_ref schema := admitted]> (roots requireObjectRoot c))) c, Ok admitted)
              end
          end
      end
  end.

Definition reconciliationSchemaHash (schema : SchemaObject) (requireObjectRoot : bool) (c : Caches)
  : Caches * result SchemaError jstr :=
  let '(c, r) := admittedSchema schema requireObjectRoot c in (c, let* a := r in Ok (ad_hash a)).

(** ** Deriving the query *)

Record ReconciliationScope := { sc_callId : jstr; sc_organizationId : jstr; sc_agentId : jstr }.

Definition arguments_value (receipt : FlowActionReceipt) : jsval :=
  match a_arguments receipt with Some arguments => JObj arguments | None => JUndefined end.

Definition sourceValue (source : ReconciliationValueSource) (receipt : FlowActionReceipt) (scope : ReconciliationScope) : option jsval :=
  match source with
  | InvocationId => JStr <$> truthy (a_invocationId receipt)
  | CallId => Some (JStr (sc_callId scope))
  | OrganizationId => Some (JStr (sc_organizationId scope))
  | AgentId => Some (JStr (sc_agentId scope))
  | ActionArgument path => reconciliationValueAtPath (arguments_value receipt) path
  | Literal value => Some value
  end.

Record DerivedReconciliation := { dr_queryArguments : obj jsval; dr_policyHash : jstr; dr_predicateHash : jstr }.

Inductive DeriveError : Type := InvalidSpec | NotEligible | SourceUnavailable (target : jstr) | NotHashable.

Definition eligible (receipt : FlowActionReceipt) : bool :=
  bool_decide (a_status receipt = Indeterminate) && bool_decide (is_Some (truthy (a_invocationId receipt))) &&
  bool_decide (is_Some (truthy (a_dispatchStartedAt receipt))).

Fixpoint derive_arguments (entries : obj ReconciliationValueSource) (receipt : FlowActionReceipt) (scope : ReconciliationScope)
    (queryArguments : obj jsval) : result DeriveError (obj jsval) :=
  match entries with
  | [] => Ok queryArguments
  | (target, source) :: entries =>
      match sourceValue source receipt scope with
      | None => Err (SourceUnavailable target)
      | Some value => derive_arguments entries receipt scope (put target value queryArguments)
      end
  end.

Definition predicate_set_json (s : ActionReconciliationSpec) : jsval :=
  JObj (field "committedWhen" (predicates_json (sp_committedWhen s)) ++ field "absentWhen" (predicates_json (sp_absentWhen s))).

Definition deriveReconciliation (specInput : ActionReconciliationSpec) (receipt : FlowActionReceipt) (scope : ReconciliationScope)
  : result DeriveError DerivedReconciliation :=
  match ActionReconciliationSpecSchema specInput with
  | None => Err InvalidSpec
  | Some spec =>
      raise NotEligible when negb (eligible receipt) ;;
      let* queryArguments := derive_arguments (sp_queryArguments spec) receipt scope [] in
      match hashFlowValue (spec_json spec), hashFlowValue (predicate_set_json spec) with
      | Some policyHash, Some predicateHash =>
          Ok {| dr_queryArguments := queryArguments; dr_policyHash := policyHash; dr_predicateHash := predicateHash |}
      | _, _ => Err NotHashable
      end
  end.

(** ** Evaluating a proof *)

Definition boundedProofJson (value : jsval) : bool :=
  isBoundedVoiceToolJson value &&
  match encode value with Some text => utf8_length text <=? MAX_PROOF_BYTES | None => false end.

Definition exactEqual (left right : jsval) : bool :=
  match hashFlowValue left, hashFlowValue right with Some l, Some r => l =?s r | _, _ => false end.

Definition validatesSchema (schema : option SchemaObject) (value : jsval) (requireObjectRoot : bool) (c : Caches) : Caches * bool :=
  match schema with
  | None => (c, false)
  | Some schema =>
      if negb (isBoundedVoiceToolJson value) then (c, false)
      else match admittedSchema schema requireObjectRoot c with
           | (c, Ok admitted) => (c, ad_validator admitted value)
           | (c, Err _) => (c, false)
           end
  end.

Definition reconciliationArgumentsMatchSchema (schema : option SchemaObject) (value : obj jsval) (c : Caches) : Caches * bool :=
  validatesSchema schema (JObj value) true c.

Inductive IndeterminateReason : Type := InvalidProof | PendingOrUnknown | ResultMissing | ResultSchemaMismatch.

Inductive ReconciliationEvaluation : Type :=
| Committed (authoritativeResult : jsval) (proofResultHash authoritativeResultHash : jstr)
| AuthoritativelyAbsent (proofResultHash : jstr)
| StillIndeterminate (reason : IndeterminateReason).

Definition predicatesMatch (predicates : list ReconciliationPredicate) (receipt : FlowActionReceipt) (scope : ReconciliationScope)
    (proofResult : jsval) : bool :=
  forallb (fun predicate =>
    match reconciliationValueAtPath proofResult (rp_resultPath predicate), sourceValue (rp_equals predicate) receipt scope with
    | Some actual, Some expected => exactEqual actual expected
    | _, _ => false
    end) predicates.

(** [originalOutputSchema ?? spec.authoritativeResultSchema]: the latter is an object made by the parser. *)
Definition result_schema (original : option SchemaObject) (spec : ActionReconciliationSpec) (c : Caches) : Caches * option SchemaObject :=
  match original, sp_authoritativeResultSchema spec with
  | Some schema, _ => (c, Some schema)
  | None, Some content => let '(c, schema) := allocate content c in (c, Some schema)
  | None, None => (c, None)
  end.

(** [None] is an exception. *)
Definition evaluateReconciliationProof (specInput : ActionReconciliationSpec) (receipt : FlowActionReceipt)
    (scope : ReconciliationScope) (proofResult : jsval) (queryOutputSchema originalOutputSchema : option SchemaObject) (c : Caches)
  : Caches * option ReconciliationEvaluation :=
  match ActionReconciliationSpecSchema specInput with
  | None => (c, Some (StillIndeterminate InvalidProof))
  | Some spec =>
      if negb (boundedProofJson proofResult) then (c, Some (StillIndeterminate InvalidProof))
      else
        let '(c, valid) := validatesSchema queryOutputSchema proofResult true c in
        if negb valid then (c, Some (StillIndeterminate InvalidProof))
        else
          let committed := predicatesMatch (sp_committedWhen spec) receipt scope proofResult in
          let absent := predicatesMatch (sp_absentWhen spec) receipt scope proofResult in
          if committed && absent then (c, Some (StillIndeterminate InvalidProof))
          else if absent then (c, AuthoritativelyAbsent <$> hashFlowValue proofResult)
          else if negb committed then (c, Some (StillIndeterminate PendingOrUnknown))
          else
            match reconciliationValueAtPath proofResult (sp_authoritativeResultPath spec) with
            | None => (c, Some (StillIndeterminate ResultMissing))
            | Some authoritative =>
                let '(c, schema) := result_schema originalOutputSchema spec c in
                let '(c, valid) := validatesSchema schema authoritative false c in
                if negb valid then (c, Some (StillIndeterminate ResultSchemaMismatch))
                else (c, proofHash ← hashFlowValue proofResult; resultHash ← hashFlowValue authoritative;
                         Some (Committed authoritative proofHash resultHash))
            end
  end.

(** ** The catalogue *)

Record ReconciliationToolDefinition := {
  rt_name : jstr;
  rt_inputSchema : SchemaObject;
  rt_outputSchema : option SchemaObject;
  rt_effect : option ToolEffect;
  rt_reconciliation : option ActionReconciliationSpec;
}.

Inductive CatalogError : Type :=
| SpecRejected | ActionUnsuitable (action : jstr) | QueryUnsuitable (query : jstr) | AuthorityInvalid (action : jstr).

(** [byName.get(name)]: the last definition of a name. *)
Definition by_name (definitions : list ReconciliationToolDefinition) (name : jstr) : option ReconciliationToolDefinition :=
  List.find (fun d => rt_name d =?s name) (reverse definitions).

(** The hash of an optional schema; a schema of the policy is an object made by the parser. *)
Definition pinned_hash (schema : option SchemaObject) (root : bool) (c : Caches) : Caches * result SchemaError (option jstr) :=
  match schema with
  | None => (c, Ok None)
  | Some schema => let '(c, r) := admittedSchema schema root c in (c, let* a := r in Ok (Some (ad_hash a)))
  end.
Definition fallback_hash (content : option jsval) (root : bool) (c : Caches) : Caches * result SchemaError (option jstr) :=
  match content with
  | None => (c, Ok None)
  | Some content => let '(c, schema) := allocate content c in pinned_hash (Some schema) root c
  end.

Definition hashes_differ (source fallback : option jstr) : bool :=
  match source, fallback with Some s, Some f => negb (s =?s f) | _, _ => false end.

(** One part of the [try] block: whether it passes. *)
Definition same_schema (source : option SchemaObject) (fallback : option jsval) (root : bool) (c : Caches) : Caches * bool :=
  match pinned_hash source root c with
  | (c, Err _) => (c, false)
  | (c, Ok s) =>
      match fallback_hash fallback root c with
      | (c, Err _) => (c, false)
      | (c, Ok f) => (c, negb (hashes_differ s f))
      end
  end.
Definition admissible (schema : SchemaObject) (c : Caches) : Caches * bool :=
  match admittedSchema schema true c with (c, Ok _) => (c, true) | (c, Err _) => (c, false) end.

Definition both (f g : Caches -> Caches * bool) (c : Caches) : Caches * bool :=
  let '(c, ok) := f c in if ok then g c else (c, false).

Definition suitable_action (action : ReconciliationToolDefinition) (spec : ActionReconciliationSpec) : bool :=
  match rt_effect action with Some WriteEffect | Some OpaqueEffect => true | _ => false end &&
  (bool_decide (is_Some (rt_outputSchema action)) || bool_decide (is_Some (sp_authoritativeResultSchema spec))).
Definition suitable_query (action query : ReconciliationToolDefinition) (spec : ActionReconciliationSpec) : bool :=
  negb (rt_name query =?s rt_name action) && bool_decide (rt_effect query = Some ReadEffect) &&
  (bool_decide (is_Some (rt_outputSchema query)) || bool_decide (is_Some (sp_queryOutputSchema spec))).

Definition assert_action (definitions : list ReconciliationToolDefinition) (action : ReconciliationToolDefinition) (c : Caches)
  : Caches * result CatalogError unit :=
  match rt_reconciliation action with
  | None => (c, Ok ())
  | Some specInput =>
      match ActionReconciliationSpecSchema specInput with
      | None => (c, Err SpecRejected)
      | Some spec =>
          if negb (suitable_action action spec) then (c, Err (ActionUnsuitable (rt_name action)))
          else
            match by_name definitions (sp_queryTool spec) with
            | None => (c, Err (QueryUnsuitable (sp_queryTool spec)))
            | Some query =>
                if negb (suitable_query action query spec) then (c, Err (QueryUnsuitable (sp_queryTool spec)))
                else
                  let '(c, ok) :=
                    both (same_schema (rt_outputSchema action) (sp_authoritativeResultSchema spec) false)
                      (both (same_schema (rt_outputSchema query) (sp_queryOutputSchema spec) true)
                        (both (admissible (rt_inputSchema action)) (admissible (rt_inputSchema query)))) c in
                  (c, if ok then Ok () else Err (AuthorityInvalid (rt_name action)))
            end
      end
  end.

Fixpoint assert_actions (definitions actions : list ReconciliationToolDefinition) (c : Caches) : Caches * result CatalogError unit :=
  match actions with
  | [] => (c, Ok ())
  | action :: actions =>
      match assert_action definitions action c with
      | (c, Ok _) => assert_actions definitions actions c
      | (c, Err e) => (c, Err e)
      end
  end.

Definition assertTrustedReconciliationCatalog (definitions : list ReconciliationToolDefinition) (c : Caches)
  : Caches * result CatalogError unit := assert_actions definitions definitions c.

End Reconciliation.

End ActionReconciliation.
