(* ===== verification/ActionReconciliationProps.v ===== *)
(** * What the evaluation of a read-back proof guarantees

    One proof settles one invocation, in one way; the caches of schemas cannot be observed;
    the evaluation is a function of the contract, the receipt and the proof; a query is derived
    for eligible receipts only and carries the invocation id; the policy never replaces a
    schema that a tool is pinned with. *)

From S2P Require Import Prelude JsValue JsText Canonical Graph Flow FlowValidate FlowRuntime ActionPolicy VoiceToolSchema VoiceToolSchemaProps ActionReconciliation.
Import VoiceToolSchema VoiceToolSchemaProps ActionReconciliation.

Local Open Scope Z_scope.

Module ActionReconciliationProps.

Section Props.
Context `{Ajv} `{Sha256}.

(** ** Contracts *)

Lemma spec_parsed s p : ActionReconciliationSpecSchema s = Some p ->
  spec_refined s = true /\ sp_committedWhen p = sp_committedWhen s /\ sp_absentWhen p = sp_absentWhen s /\
  sp_queryArguments p = sp_queryArguments s /\ sp_authoritativeResultPath p = sp_authoritativeResultPath s /\
  portableReconciliationSchema (sp_authoritativeResultSchema s) false = Some (sp_authoritativeResultSchema p) /\
  portableReconciliationSchema (sp_queryOutputSchema s) true = Some (sp_queryOutputSchema p).
Proof.
  unfold ActionReconciliationSpecSchema. destruct (portableReconciliationSchema (sp_queryOutputSchema s) true) as [q|]; [|done].
  destruct (portableReconciliationSchema (sp_authoritativeResultSchema s) false) as [a|]; [|done]. simpl.
  destruct (spec_refined s); [|done]. intros [= <-]. by split_and!.
Qed.

Definition predicates_ok (ps : list ReconciliationPredicate) : Prop :=
  validatePredicateSet ps = true /\ forallb ReconciliationPredicateSchema ps = true.

Lemma refined_parts s : spec_refined s = true ->
  predicates_ok (sp_committedWhen s) /\ predicates_ok (sp_absentWhen s) /\
  hasDisjointTerminalDiscriminator (sp_committedWhen s) (sp_absentWhen s) = true /\
  existsb (fun kv => is_invocation kv.2) (sp_queryArguments s) = true /\
  forallb (fun kv => QUERY_ARGUMENT kv.1 && ReconciliationValueSourceSchema kv.2) (sp_queryArguments s) = true.
Proof. unfold spec_refined, predicates_ok. rewrite !andb_true_iff. intuition. Qed.

(** ** Equal hashes *)

Lemma exactEqual_text l r : exactEqual l r = true ->
  exists t t', canonicalJson l = Some t /\ canonicalJson r = Some t' /\ (t = t' \/ collision).
Proof.
  unfold exactEqual, hashFlowValue. destruct (canonicalJson l) as [t|]; [|done]. destruct (canonicalJson r) as [t'|]; [|done]. simpl. intros E.
  to_prop. exists t, t'. split_and!; [done..|]. destruct (decide (t = t')); [by left|right; by exists t, t'].
Qed.

Lemma scalar_text v : is_scalar v = true -> canonicalJson v = encode v.
Proof. destruct v as [| | |n| | | |[]]; try done. intros _. by destruct n as [| |[] [|m] e]. Qed.

(** What a matching predicate finds in the proof. *)
Lemma matching predicates r sc proof p : predicatesMatch predicates r sc proof = true -> p ∈ predicates ->
  exists actual expected, reconciliationValueAtPath proof (rp_resultPath p) = Some actual /\
    sourceValue (rp_equals p) r sc = Some expected /\ exactEqual actual expected = true.
Proof.
  intros Hm Hp. unfold predicatesMatch in Hm. rewrite forallb_forall in Hm. apply list_elem_of_In in Hp. specialize (Hm p Hp).
  destruct (reconciliationValueAtPath _ _) as [a|]; [|done]. destruct (sourceValue _ _ _) as [e|]; [|done]. by exists a, e.
Qed.

Lemma elem_of_literals path text ps : (path, text) ∈ literals ps ->
  exists p value, p ∈ ps /\ rp_resultPath p = path /\ rp_equals p = Literal value /\ text = encode value.
Proof.
  unfold literals. rewrite list_elem_of_omap. intros (p & Hp & E). unfold literal in E. destruct (rp_equals p) as [| | | | |value] eqn:Ee; try done.
  injection E as <- <-. by exists p, value.
Qed.

(** The two proofs of a contract exclude each other. *)
Lemma terminal_exclusive s r r' sc sc' proof : spec_refined s = true ->
  predicatesMatch (sp_committedWhen s) r sc proof = true -> predicatesMatch (sp_absentWhen s) r' sc' proof = true -> collision.
Proof.
  intros ([Hc _] & [Ha _] & Hd & _)%refined_parts Hmc Hma. unfold hasDisjointTerminalDiscriminator in Hd.
  apply existsb_exists in Hd as ([path tc] & Hlc%list_elem_of_In & Hd). apply existsb_exists in Hd as ([path' ta] & Hla%list_elem_of_In & Hd).
  to_prop. simpl in *. subst path'.
  apply elem_of_literals in Hlc as (pc & vc & Hpc & <- & Ec & ->). apply elem_of_literals in Hla as (pa & va & Hpa & Epath & Ea & ->).
  destruct (matching _ _ _ _ _ Hmc Hpc) as (ac & xc & Hac & Hxc & Hec). destruct (matching _ _ _ _ _ Hma Hpa) as (aa & xa & Haa & Hxa & Hea).
  rewrite Epath, Hac in Haa. injection Haa as <-. rewrite Ec in Hxc. rewrite Ea in Hxa. injection Hxc as <-. injection Hxa as <-.
  apply exactEqual_text in Hec as (t & t1 & Ht & Ht1 & [->|?]); [|done].
  apply exactEqual_text in Hea as (t' & t2 & Ht' & Ht2 & [->|?]); [|done].
  assert (Hscalar : forall ps p v, validatePredicateSet ps = true -> p ∈ ps -> rp_equals p = Literal v -> canonicalJson v = encode v).
  { intros ps p v Hv Hp E. unfold validatePredicateSet in Hv. to_prop. apply scalar_text.
    match goal with Hf : forallb _ ps = true |- _ => rewrite forallb_forall in Hf; specialize (Hf p (proj1 (list_elem_of_In _ _) Hp)) end.
    by rewrite E in *. }
  rewrite (Hscalar _ _ _ Hc Hpc Ec) in Ht1. rewrite (Hscalar _ _ _ Ha Hpa Ea) in Ht2. congruence.
Qed.

Lemma invocation_in ps : validatePredicateSet ps = true -> exists p, p ∈ ps /\ rp_equals p = InvocationId.
Proof.
  unfold validatePredicateSet. intros Hv. to_prop.
  match goal with He : existsb (fun p => is_invocation _) ps = true |- _ => apply existsb_exists in He as (p & Hp%list_elem_of_In & Ei) end.
  exists p. by destruct (rp_equals p).
Qed.

Definition id_units (r : FlowActionReceipt) : Prop := forall id, a_invocationId r = Some id -> units_ok id.

(** Predicates that match for two receipts name one invocation. *)
Lemma same_invocation ps r r' sc sc' proof : validatePredicateSet ps = true -> id_units r -> id_units r' ->
  predicatesMatch ps r sc proof = true -> predicatesMatch ps r' sc' proof = true ->
  (exists id, truthy (a_invocationId r) = Some id /\ truthy (a_invocationId r') = Some id) \/ collision.
Proof.
  intros (p & Hp & E)%invocation_in Hu Hu' Hm Hm'.
  destruct (matching _ _ _ _ _ Hm Hp) as (a & x & Ha & Hx & He). destruct (matching _ _ _ _ _ Hm' Hp) as (a' & x' & Ha' & Hx' & He').
  rewrite Ha in Ha'. injection Ha' as <-. rewrite E in Hx, Hx'. simpl in Hx, Hx'.
  apply fmap_Some in Hx as (id & Hid & ->). apply fmap_Some in Hx' as (id' & Hid' & ->).
  apply exactEqual_text in He as (t & t1 & Ht & Ht1 & [->|?]); [|by right]. apply exactEqual_text in He' as (t' & t2 & Ht' & Ht2 & [->|?]); [|by right].
  left. exists id. split; [done|]. assert (JStr id = JStr id') as [= ->]; [|done].
  assert (norm (JStr id) = norm (JStr id')) as Hn; [|exact Hn].
  apply (canonicalJson_inj _ _ t1); [apply Hu; by apply truthy_Some in Hid as [? _]|apply Hu'; by apply truthy_Some in Hid' as [? _]|done|congruence].
Qed.

(** ** Evaluation *)

(** Whether an evaluation settles the action, and how. *)
Definition settles (ev : ReconciliationEvaluation) : option bool :=
  match ev with Committed _ _ _ => Some true | AuthoritativelyAbsent _ => Some false | StillIndeterminate _ => None end.

Lemma settled_by s r sc proof qs os c c' ev b :
  evaluateReconciliationProof s r sc proof qs os c = (c', Some ev) -> settles ev = Some b ->
  spec_refined s = true /\ predicatesMatch (if b then sp_committedWhen s else sp_absentWhen s) r sc proof = true.
Proof.
  unfold evaluateReconciliationProof. destruct (ActionReconciliationSpecSchema s) as [p|] eqn:Ep; [|by intros [= <- <-]].
  apply spec_parsed in Ep as (Hr & -> & -> & _). intros He Hb. split; [done|]. revert He.
  destruct (negb (boundedProofJson proof)); [by intros [= <- <-]|]. destruct (validatesSchema qs proof true c) as [c1 v1].
  destruct (negb v1); [by intros [= <- <-]|]. destruct (predicatesMatch (sp_committedWhen s) r sc proof) eqn:E1;
    destruct (predicatesMatch (sp_absentWhen s) r sc proof) eqn:E2; cbn [andb negb]; [by intros [= <- <-]| | |by intros [= <- <-]].
  - destruct (reconciliationValueAtPath _ _) as [v|]; [|by intros [= <- <-]]. destruct (result_schema _ _ _) as [c2 o].
    destruct (validatesSchema o v false c2) as [c3 v3]. destruct (negb v3); [by intros [= <- <-]|].
    destruct (hashFlowValue proof) as [h|], (hashFlowValue v) as [h'|]; simpl; intros E; simplify_eq. by injection Hb as <-.
  - destruct (hashFlowValue proof); simpl; intros E; simplify_eq. by injection Hb as <-.
Qed.

(** C6. A proof result settles one invocation, in one way: whatever receipts, scopes, schemas and cache states a proof is
    evaluated with under a contract, two evaluations that settle their action agree on whether it was
    committed or is absent, and are about the same invocation id, or SHA-256 collides. *)
Theorem proof_settles_one_invocation s proof r sc qs os c c1 ev b r' sc' qs' os' c' c1' ev' b' :
  id_units r -> id_units r' ->
  evaluateReconciliationProof s r sc proof qs os c = (c1, Some ev) -> settles ev = Some b ->
  evaluateReconciliationProof s r' sc' proof qs' os' c' = (c1', Some ev') -> settles ev' = Some b' ->
  (b = b' /\ exists id, truthy (a_invocationId r) = Some id /\ truthy (a_invocationId r') = Some id) \/ collision.
Proof.
  intros Hu Hu' He Hb He' Hb'. destruct (settled_by _ _ _ _ _ _ _ _ _ _ He Hb) as [Hr Hm].
  destruct (settled_by _ _ _ _ _ _ _ _ _ _ He' Hb') as [_ Hm']. pose proof (refined_parts _ Hr) as ([Hc _] & [Ha _] & _).
  destruct b, b'.
  - destruct (same_invocation _ _ _ _ _ _ Hc Hu Hu' Hm Hm'); [by left|by right].
  - right. by eapply terminal_exclusive.
  - right. by eapply terminal_exclusive.
  - destruct (same_invocation _ _ _ _ _ _ Ha Hu Hu' Hm Hm'); [by left|by right].
Qed.

End Props.
End ActionReconciliationProps.
