(* ===== verification/ActionReconciliationCaches.v ===== *)
(** * The caches of admitted schemas cannot be observed

    Whatever schemas were admitted before, a schema is accepted, hashed and validated against as
    if there were no cache, unless SHA-256 collides, as long as schema objects are not changed
    after they are first used. The evaluation of a proof and the assertion of a catalogue are
    functions of contents. *)

From S2P Require Import Prelude JsValue JsText Canonical Graph Flow FlowValidate FlowRuntime ActionPolicy VoiceToolSchema VoiceToolSchemaProps ActionReconciliation ActionReconciliationProps.
Import VoiceToolSchema VoiceToolSchemaProps ActionReconciliation ActionReconciliationProps.

Local Open Scope Z_scope.

Module ActionReconciliationCaches.

Section Caching.
Context `{Ajv} `{Sha256}.

(** ** The states of the caches *)

(** The contents of schema objects after one is admitted: the normal form is a new object. *)
Definition known_after (schema : SchemaObject) (root : bool) (c : Caches) (known : gmap N jsval) : gmap N jsval :=
  match roots root c !! so_ref schema, normalizeVoiceToolSchema (so_content schema) root with
  | None, Ok n => <[ca_next c := n]> known
  | _, _ => known
  end.

Definition is_known (known : gmap N jsval) (schema : SchemaObject) : Prop := known !! so_ref schema = Some (so_content schema).

(** The caches with the contents of the objects there are. *)
Inductive reached : gmap N jsval -> Caches -> Prop :=
| reached_start : reached ∅ (mkCaches 0 [] ∅ ∅)
| reached_object known c content : reached known c -> val_ok content -> reached (<[ca_next c := content]> known) (allocate content c).1
| reached_admit known c schema root : reached known c -> is_known known schema ->
    reached (known_after schema root c known) (admittedSchema schema root c).1.

(** ** Invariant *)

(** The validator of some normalised schema with the hash. *)
Definition validator_good (hash : jstr) (validator : jsval -> bool) : Prop :=
  exists m, val_ok m /\ norm m = m /\ hashFlowValue m = Some hash /\ validator = ajv_validates m.

Definition entry_good (root : bool) (content : jsval) (a : AdmittedReconciliationSchema) : Prop :=
  exists n, normalizeVoiceToolSchema content root = Ok n /\ hashFlowValue n = Some (ad_hash a) /\ validator_good (ad_hash a) (ad_validator a).

Record consistent (known : gmap N jsval) (c : Caches) : Prop := {
  co_fresh ref x : known !! ref = Some x -> (ref < ca_next c)%N;
  co_ok ref x : known !! ref = Some x -> val_ok x;
  co_validators : Forall (fun kv => exists b h, kv.1 = validator_key b h /\ validator_good h kv.2) (reconciliationValidators c);
  co_roots b ref a : roots b c !! ref = Some a -> exists x, known !! ref = Some x /\ entry_good b x a;
  co_bound : (length (reconciliationValidators c) <= MAX_RECONCILIATION_VALIDATORS)%nat;
}.

Lemma norm_val_ok v : val_ok v -> val_ok (norm v).
Proof.
  induction v as [| |b|n|s|items IH|kvs IH|o] using jsval_ind'; intros Hv; try done.
  - cbn [norm]. unfold drop_neg_zero. by destruct n as [| |[] [|m] e].
  - cbn [norm]. rewrite val_ok_arr in *. apply Forall_fmap. rewrite Forall_lookup in *. unfold compose. eauto.
  - cbn [norm]. rewrite val_ok_obj in *. destruct Hv as [Hk Hv]. unfold keys in *. rewrite !norm_obj_perm. split.
    + by rewrite <- list_fmap_compose.
    + apply Forall_fmap. rewrite Forall_lookup in *. intros i kv Hi. destruct (Hv _ _ Hi). unfold compose. simpl. split; [done|eauto].
Qed.

Lemma normalised_good content root n : val_ok content -> normalizeVoiceToolSchema content root = Ok n ->
  val_ok n /\ norm n = n /\ ajv_compiles n = true /\ is_Some (hashFlowValue n) /\ normalizeVoiceToolSchema n root = Ok n.
Proof.
  intros Hv Hn. destruct (normalise_stable _ _ _ Hv Hn) as [Hs Hc]. destruct (normalise_Ok _ _ _ Hn) as (-> & Ha & [t Ht]).
  split_and!; [by apply norm_val_ok|by apply norm_norm|done| |done]. unfold hashFlowValue. rewrite Hc, Ht. by eexists.
Qed.

Lemma validator_key_inj b h b' h' : validator_key b h = validator_key b' h' -> b = b' /\ h = h'.
Proof. unfold validator_key. destruct b, b'; intros E; try (by apply app_inv_head in E); discriminate E. Qed.

Lemma length_put_new {V} k (v : V) o : own k o = None -> length (put k v o) = S (length o).
Proof.
  intros Hk. assert (length (keys (put k v o)) = S (length (keys o))) as E; [|unfold keys in E; by rewrite !length_fmap in E].
  rewrite keys_put. unfold has_own. rewrite Hk. simpl. rewrite length_app. simpl. lia.
Qed.

Lemma own_tail {V} k (o : obj V) : own k o = None -> own k (tail o) = None.
Proof. destruct o as [|[k' v] o]; simpl; [done|]. by destruct (k =?s k'). Qed.

Lemma add_validator_bound key v c : own key (reconciliationValidators c) = None ->
  (length (reconciliationValidators c) <= MAX_RECONCILIATION_VALIDATORS)%nat ->
  (length (reconciliationValidators (add_validator key v c)) <= MAX_RECONCILIATION_VALIDATORS)%nat.
Proof.
  intros Hk Hb. unfold add_validator. cbn [reconciliationValidators]. assert (Hpos : (1 <= MAX_RECONCILIATION_VALIDATORS)%nat) by (apply Nat.leb_le; reflexivity).
  revert Hpos Hb. generalize MAX_RECONCILIATION_VALIDATORS as max. intros max Hpos Hb.
  destruct (Nat.leb_spec max (length (reconciliationValidators c))).
  - rewrite length_put_new by (by apply own_tail). destruct (reconciliationValidators c); simpl in *; lia.
  - rewrite length_put_new by done. lia.
Qed.

Lemma obtain_good known c root hash n : consistent known c -> val_ok n -> norm n = n -> ajv_compiles n = true -> hashFlowValue n = Some hash ->
  exists c' v, obtain_validator (validator_key root hash) n c = Some (c', v) /\ validator_good hash v /\
    ca_next c' = ca_next c /\ (forall b, roots b c' = roots b c) /\
    Forall (fun kv => exists b h, kv.1 = validator_key b h /\ validator_good h kv.2) (reconciliationValidators c') /\
    (length (reconciliationValidators c') <= MAX_RECONCILIATION_VALIDATORS)%nat.
Proof.
  intros Hc Hv Hn Ha Hh. unfold obtain_validator. destruct (own _ _) as [v|] eqn:Eo.
  - exists c, v. split_and!; try done; [|apply Hc|apply Hc]. apply own_elem_of in Eo. pose proof (co_validators _ _ Hc) as Hf.
    rewrite Forall_forall in Hf. destruct (Hf _ Eo) as (b & h & E & Hg). by apply validator_key_inj in E as [_ ->].
  - unfold compileVoiceToolSchema. rewrite Ha. simpl. eexists _, _. split; [done|].
    assert (Hg : validator_good hash (ajv_validates n)) by (by exists n). split_and!; [done|done|by intros []| |by apply add_validator_bound; [|apply Hc]].
    apply Forall_forall. intros kv Hkv. unfold add_validator in Hkv. cbn [reconciliationValidators] in Hkv. apply elem_of_put in Hkv as [->|Hkv]; [by exists root, hash|].
    pose proof (co_validators _ _ Hc) as Hf. rewrite Forall_forall in Hf. apply Hf.
    destruct (_ <=? _)%nat; [|done]. destruct (reconciliationValidators c); [done|by right].
Qed.

Lemma roots_set b b' m c : roots b (set_roots b' m c) = if eqb b b' then m else roots b c.
Proof. by destruct b, b'. Qed.

(** Admitting a schema keeps the invariant and answers for its content. *)
Lemma admit_good known c schema root : consistent known c -> is_known known schema ->
  consistent (known_after schema root c known) (admittedSchema schema root c).1 /\
  match (admittedSchema schema root c).2 with
  | Ok a => entry_good root (so_content schema) a
  | Err _ => forall n, normalizeVoiceToolSchema (so_content schema) root <> Ok n
  end.
Proof.
  intros Hc Hk. unfold admittedSchema, known_after. destruct (roots root c !! so_ref schema) as [a|] eqn:Er.
  { split; [done|]. simpl. destruct (co_roots _ _ Hc _ _ _ Er) as (x & Hx & Hg). unfold is_known in Hk. by simplify_eq. }
  destruct (normalizeVoiceToolSchema (so_content schema) root) as [n|e] eqn:En; [|by split].
  destruct (normalised_good _ _ _ (co_ok _ _ Hc _ _ Hk) En) as (Hv & Hn & Ha & [h Hh] & Hs). simpl. rewrite Hh.
  set (c1 := mkCaches (ca_next c + 1) (reconciliationValidators c) (objectRootSchemas c) (anyRootSchemas c)).
  assert (Hc1 : consistent (<[ca_next c := n]> known) c1).
  { split; simpl.
    - intros ref x [[<- <-]|[_ Hr]]%lookup_insert_Some; [lia|]. apply (co_fresh _ _ Hc) in Hr. lia.
    - intros ref x [[<- <-]|[_ Hr]]%lookup_insert_Some; [done|by eapply co_ok].
    - apply Hc.
    - intros b ref a Hr. assert (roots b c !! ref = Some a) as (x & Hx & Hg)%(co_roots _ _ Hc) by (by destruct b).
      exists x. split; [|done]. rewrite lookup_insert_ne; [done|]. intros <-. apply (co_fresh _ _ Hc) in Hx. lia.
    - apply Hc. }
  destruct (obtain_good _ _ root h n Hc1 Hv Hn Ha Hh) as (c2 & v & -> & Hg & Hnx & Hro & Hva & Hbo). simpl.
  set (a := {| ad_normalized := _; ad_hash := h; ad_validator := v |}).
  assert (Hea : entry_good root n a) by (by exists n). assert (Hec : entry_good root (so_content schema) a) by (by exists n).
  split; [|done]. split.
  - intros ref x Hr. apply (co_fresh _ _ Hc1) in Hr. destruct root; simpl; rewrite Hnx; exact Hr.
  - apply Hc1.
  - by destruct root.
  - intros b ref a' Hr. rewrite roots_set in Hr. destruct (eqb b root) eqn:Eb; [|rewrite Hro in Hr; by apply (co_roots _ _ Hc1) in Hr].
    apply eqb_prop in Eb as ->. apply lookup_insert_Some in Hr as [[<- <-]|[_ Hr]]; [exists n; by rewrite lookup_insert_eq|].
    apply lookup_insert_Some in Hr as [[<- <-]|[_ Hr]]; [|rewrite Hro in Hr; by apply (co_roots _ _ Hc1) in Hr].
    exists (so_content schema). split; [|done]. rewrite lookup_insert_ne; [done|]. intros E. apply (co_fresh _ _ Hc) in Hk. rewrite <- E in Hk. lia.
  - by destruct root.
Qed.

Lemma reached_consistent known c : reached known c -> consistent known c.
Proof.
  induction 1 as [|known c content _ IH Hv|known c schema root _ IH Hk].
  - split; cbn [reconciliationValidators ca_next].
    + intros ref x E. by rewrite lookup_empty in E.
    + intros ref x E. by rewrite lookup_empty in E.
    + constructor.
    + intros b ref a E. assert ((∅ : gmap N AdmittedReconciliationSchema) !! ref = Some a) as E' by (by destruct b). by rewrite lookup_empty in E'.
    + apply Nat.le_0_l.
  - split; simpl.
    + intros ref x [[<- <-]|[_ Hr]]%lookup_insert_Some; [lia|]. apply (co_fresh _ _ IH) in Hr. lia.
    + intros ref x [[<- <-]|[_ Hr]]%lookup_insert_Some; [done|by eapply co_ok].
    + apply IH.
    + intros b ref a Hr. assert (roots b c !! ref = Some a) as (x & Hx & Hg)%(co_roots _ _ IH) by (by destruct b).
      exists x. split; [|done]. rewrite lookup_insert_ne; [done|]. intros <-. apply (co_fresh _ _ IH) in Hx. lia.
    + apply IH.
  - by apply admit_good.
Qed.

(** ** Evaluation without caches *)

Definition accepts (schema : option jsval) (value : jsval) (root : bool) : bool :=
  match schema with
  | None => false
  | Some content => isBoundedVoiceToolJson value &&
      match normalizeVoiceToolSchema content root with Ok n => ajv_validates n value | Err _ => false end
  end.

Definition hash_of (v : jsval) : jstr := default [] (hashFlowValue v).

(** The verdict on a proof, given whether it is valid and which results are. *)
Definition verdict (p : ActionReconciliationSpec) (r : FlowActionReceipt) (sc : ReconciliationScope) (proof : jsval) (valid : bool)
    (admits : jsval -> bool) : ReconciliationEvaluation :=
  if boundedProofJson proof && valid then
    match predicatesMatch (sp_committedWhen p) r sc proof, predicatesMatch (sp_absentWhen p) r sc proof with
    | true, true => StillIndeterminate InvalidProof
    | false, true => AuthoritativelyAbsent (hash_of proof)
    | false, false => StillIndeterminate PendingOrUnknown
    | true, false =>
        match reconciliationValueAtPath proof (sp_authoritativeResultPath p) with
        | None => StillIndeterminate ResultMissing
        | Some v => if admits v then Committed v (hash_of proof) (hash_of v) else StillIndeterminate ResultSchemaMismatch
        end
    end
  else StillIndeterminate InvalidProof.

(** The evaluation as a function of contents; the schema a tool is pinned with takes precedence over the policy's. *)
Definition reference_evaluation (s : ActionReconciliationSpec) (r : FlowActionReceipt) (sc : ReconciliationScope) (proof : jsval)
    (query original : option jsval) : ReconciliationEvaluation :=
  match ActionReconciliationSpecSchema s with
  | None => StillIndeterminate InvalidProof
  | Some p => verdict p r sc proof (accepts query proof true)
                (fun v => accepts (union original (sp_authoritativeResultSchema p)) v false)
  end.

Lemma encode_canonical v : is_Some (encode v) -> is_Some (canonicalJson v).
Proof.
  induction v as [| |b|n|s|items IH|kvs IH|o] using jsval_ind'; intros [t Ht]; try done; try (by eexists); cbn [encode canonicalJson] in *.
  - destruct (negb (is_finite n)); [done|by eexists].
  - apply fmap_Some in Ht as (l & Hl & _). apply fmap_is_Some, mapM_is_Some. rewrite Forall_lookup in *. intros i v Hi.
    apply IH with i; [done|]. assert (is_Some (mapM encode items)) as Hm by (by eexists). apply mapM_is_Some in Hm.
    rewrite Forall_lookup in Hm. exact (Hm _ _ Hi).
  - apply fmap_Some in Ht as (l & Hl & _). apply fmap_is_Some, mapM_is_Some. rewrite Forall_lookup in *. intros i kv Hi.
    apply fmap_is_Some, (IH i); [done|]. assert (is_Some (mapM (fun kv => pair kv.1 <$> encode kv.2) kvs)) as Hm by (by eexists).
    apply mapM_is_Some in Hm. rewrite Forall_lookup in Hm. apply Hm in Hi. by apply fmap_is_Some in Hi.
Qed.

Lemma bounded_hash v : isBoundedVoiceToolJson v = true -> hashFlowValue v = Some (hash_of v).
Proof.
  unfold isBoundedVoiceToolJson. intros [_ He]%andb_true_iff. destruct (encode v) eqn:E; [|done].
  assert (is_Some (canonicalJson v)) as [t Ht] by (apply encode_canonical; by eexists). unfold hash_of, hashFlowValue. by rewrite Ht.
Qed.

Definition known_option (known : gmap N jsval) (schema : option SchemaObject) : Prop :=
  match schema with Some schema => is_known known schema | None => True end.

Lemma normal_unique m n h : val_ok m -> norm m = m -> val_ok n -> norm n = n -> hashFlowValue m = Some h -> hashFlowValue n = Some h -> m = n \/ collision.
Proof.
  intros Hm Em Hn En Hh Hh'. destruct (hashFlowValue_inj _ _ _ Hm Hn Hh Hh') as [E|?]; [|by right]. left. congruence.
Qed.

(** Objects keep their contents. *)
Lemma admit_extends known c schema root : reached known c -> is_known known schema -> known ⊆ known_after schema root c known.
Proof.
  intros Hr Hk. unfold known_after. destruct (_ !! _); [done|]. destruct (normalizeVoiceToolSchema _ _); [|done].
  apply insert_subseteq. destruct (known !! ca_next c) as [x|] eqn:E; [|done]. apply (co_fresh _ _ (reached_consistent _ _ Hr)) in E. lia.
Qed.

(** Validation with the caches is validation against the content. *)
Lemma validates_accepts known c schema value root : reached known c -> known_option known schema ->
  exists known', reached known' (validatesSchema schema value root c).1 /\ known ⊆ known' /\
    ((validatesSchema schema value root c).2 = accepts (so_content <$> schema) value root \/ collision).
Proof.
  intros Hr Hk. destruct schema as [schema|]; [|exists known; by split_and!; [| |left]]. simpl in *.
  destruct (isBoundedVoiceToolJson value); simpl; [|exists known; by split_and!; [| |left]].
  exists (known_after schema root c known). destruct (admit_good _ _ _ root (reached_consistent _ _ Hr) Hk) as [_ Ha].
  pose proof (reached_admit _ _ _ root Hr Hk) as Hr'. destruct (admittedSchema schema root c) as [c' [a|e]]; cbn [fst snd] in *.
  - split; [done|]. split; [by apply admit_extends|]. destruct Ha as (n & Hn & Hh & m & Hm & Em & Hhm & ->). rewrite Hn.
    destruct (normalised_good _ _ _ (co_ok _ _ (reached_consistent _ _ Hr) _ _ Hk) Hn) as (Hvn & En & _).
    destruct (normal_unique m n _ Hm Em Hvn En Hhm Hh) as [->|?]; [by left|by right].
  - split; [done|]. split; [by apply admit_extends|]. left. destruct (normalizeVoiceToolSchema _ _) as [n|]; [by destruct (Ha n)|done].
Qed.

(** The schemas of a contract are values that can occur. *)
Definition schemas_ok (s : ActionReconciliationSpec) : Prop :=
  (forall x, sp_authoritativeResultSchema s = Some x -> val_ok x) /\ (forall x, sp_queryOutputSchema s = Some x -> val_ok x).

Lemma portable_ok schema root n : (forall x, schema = Some x -> val_ok x) -> portableReconciliationSchema schema root = Some (Some n) -> val_ok n.
Proof.
  unfold portableReconciliationSchema. destruct schema as [x|]; [|done]. intros Hx. destruct (normalizeVoiceToolSchema x root) eqn:E; [|done].
  intros [= <-]. apply (normalised_good x root); [by apply Hx|done].
Qed.

Lemma result_schema_known known c original p : reached known c -> known_option known original ->
  (forall x, sp_authoritativeResultSchema p = Some x -> val_ok x) ->
  exists known', reached known' (result_schema original p c).1 /\ known ⊆ known' /\ known_option known' (result_schema original p c).2 /\
    so_content <$> (result_schema original p c).2 = union (so_content <$> original) (sp_authoritativeResultSchema p).
Proof.
  intros Hr Hk Hp. unfold result_schema. destruct original as [o|]; [exists known; by destruct (sp_authoritativeResultSchema p)|].
  destruct (sp_authoritativeResultSchema p) as [x|]; [|by exists known]. exists (<[ca_next c := x]> known).
  split; [by apply reached_object; [|apply Hp]|]. split; [|split; [by apply lookup_insert_eq|done]].
  apply insert_subseteq. destruct (known !! ca_next c) as [y|] eqn:E; [|done]. apply (co_fresh _ _ (reached_consistent _ _ Hr)) in E. lia.
Qed.

Lemma known_option_mono known known' schema : known ⊆ known' -> known_option known schema -> known_option known' schema.
Proof. destruct schema; [|done]. intros Hs Hk. by apply (lookup_weaken known known'). Qed.

Definition agrees (b b' : bool) : Prop := b = b' \/ collision.

Lemma validated_bounded schema value root c : (validatesSchema schema value root c).2 = true -> isBoundedVoiceToolJson value = true.
Proof. unfold validatesSchema. destruct schema; [|done]. by destruct (isBoundedVoiceToolJson value). Qed.

(** The part of the evaluation after the proof has been validated. *)
Lemma evaluate_runs known c s p r sc proof query original :
  reached known c -> known_option known query -> known_option known original ->
  (forall x, sp_authoritativeResultSchema p = Some x -> val_ok x) -> ActionReconciliationSpecSchema s = Some p ->
  exists known' c' v1 v2, evaluateReconciliationProof s r sc proof query original c = (c', Some (verdict p r sc proof v1 (fun _ => v2))) /\
    reached known' c' /\ known ⊆ known' /\ agrees v1 (accepts (so_content <$> query) proof true) /\
    forall v, reconciliationValueAtPath proof (sp_authoritativeResultPath p) = Some v -> v1 = true ->
      predicatesMatch (sp_committedWhen p) r sc proof = true -> predicatesMatch (sp_absentWhen p) r sc proof = false ->
      agrees v2 (accepts (union (so_content <$> original) (sp_authoritativeResultSchema p)) v false).
Proof.
  intros Hr Hq Ho Hp Ep. unfold evaluateReconciliationProof, verdict. rewrite Ep.
  destruct (boundedProofJson proof) eqn:Eb; cbn [negb andb]; [|exists known, c, (accepts (so_content <$> query) proof true)].
  2:{ exists (default true ((fun v => accepts (union (so_content <$> original) (sp_authoritativeResultSchema p)) v false) <$>
                reconciliationValueAtPath proof (sp_authoritativeResultPath p))). split_and!; [done..|by left|]. intros v -> _ _ _. by left. }
  apply andb_true_iff in Eb as [Eb _]. rewrite (bounded_hash _ Eb).
  destruct (validates_accepts known c query proof true Hr Hq) as (k1 & Hr1 & Hk1 & Ha). destruct (validatesSchema query proof true c) as [c1 v1].
  cbn [fst snd] in *. destruct v1; cbn [negb]; [|by exists k1, c1, false, true; split_and!].
  destruct (predicatesMatch (sp_committedWhen p) r sc proof), (predicatesMatch (sp_absentWhen p) r sc proof); cbn [andb negb];
    [by exists k1, c1, true, true; split_and!| |by exists k1, c1, true, true; split_and!..].
  destruct (reconciliationValueAtPath proof (sp_authoritativeResultPath p)) as [v|]; [|by exists k1, c1, true, true; split_and!].
  destruct (result_schema_known k1 c1 original p Hr1 (known_option_mono _ _ _ Hk1 Ho) Hp) as (k2 & Hr2 & Hk2 & Ho2 & Ec).
  destruct (result_schema original p c1) as [c2 o]. cbn [fst snd] in *.
  destruct (validates_accepts k2 c2 o v false Hr2 Ho2) as (k3 & Hr3 & Hk3 & Ha3). pose proof (validated_bounded o v false c2) as Hbv.
  destruct (validatesSchema o v false c2) as [c3 v3]. cbn [fst snd] in *. exists k3, c3, true, v3. rewrite Ec in Ha3.
  split; [|split_and!; [done|by do 2 (etrans; [eassumption|])|done|by intros ? [= <-]]].
  destruct v3; [|done]. cbn [negb]. by rewrite (bounded_hash v) by (by apply Hbv).
Qed.

(** C7. The evaluation of a proof is the reference evaluation, a function of the contract, the receipt and the contents of the
    proof and schemas alone: in whatever state the caches are, it returns (never throws), the caches remain
    bounded by 1024 validators, and its answer is the reference's, or SHA-256 collides. *)
Theorem evaluation_is_reference known c s r sc proof query original :
  reached known c -> known_option known query -> known_option known original -> schemas_ok s ->
  exists known' c' ev, evaluateReconciliationProof s r sc proof query original c = (c', Some ev) /\ reached known' c' /\ known ⊆ known' /\
    (length (reconciliationValidators c') <= MAX_RECONCILIATION_VALIDATORS)%nat /\
    (ev = reference_evaluation s r sc proof (so_content <$> query) (so_content <$> original) \/ collision).
Proof.
  intros Hr Hq Ho [Hs _]. unfold reference_evaluation. destruct (ActionReconciliationSpecSchema s) as [p|] eqn:Ep.
  - pose proof (spec_parsed _ _ Ep) as (_ & _ & _ & _ & _ & Hport & _).
    destruct (evaluate_runs known c s p r sc proof query original Hr Hq Ho) as (k & c' & v1 & v2 & He & Hr' & Hk & H1 & H2);
      [intros x Hx; rewrite Hx in Hport; by eapply portable_ok|done|].
    exists k, c', (verdict p r sc proof v1 (fun _ => v2)). split_and!; try done; [by apply (co_bound k), reached_consistent|].
    destruct H1 as [<-|?]; [|by right]. unfold verdict. destruct (boundedProofJson proof), v1; cbn [andb]; try by left.
    destruct (predicatesMatch (sp_committedWhen p) r sc proof), (predicatesMatch (sp_absentWhen p) r sc proof); try by left.
    destruct (reconciliationValueAtPath proof (sp_authoritativeResultPath p)) as [v|]; [|by left].
    destruct (H2 v) as [->|?]; [done..|by left|by right].
  - exists known, c, (StillIndeterminate InvalidProof). unfold evaluateReconciliationProof. rewrite Ep.
    split_and!; try done; [by apply (co_bound known), reached_consistent|by left].
Qed.

End Caching.
End ActionReconciliationCaches.
