(* ===== verification/ActionReconciliationPolicy.v ===== *)
(** * Queries and catalogues of reconcilable actions

    When a query is derived, and with which arguments; and what an accepted catalogue guarantees:
    queries are distinct read-only tools of the catalogue, and the policy never replaces a
    schema that a tool publishes itself. *)

From S2P Require Import Prelude JsValue JsText Canonical Graph Flow FlowValidate FlowRuntime ActionPolicy VoiceToolSchema VoiceToolSchemaProps ActionReconciliation ActionReconciliationProps ActionReconciliationCaches.
Import VoiceToolSchema VoiceToolSchemaProps ActionReconciliation ActionReconciliationProps ActionReconciliationCaches.

Local Open Scope Z_scope.

Module ActionReconciliationPolicy.

Section Policy.
Context `{Ajv} `{Sha256}.

(** ** Every contract has a digest *)

Lemma hashable_obj kvs : Forall (fun kv => is_Some (canonicalJson kv.2)) kvs -> is_Some (canonicalJson (JObj kvs)).
Proof.
  intros Hk. cbn [canonicalJson]. apply fmap_is_Some, mapM_is_Some. eapply Forall_impl; [exact Hk|]. intros kv Hv. by apply fmap_is_Some.
Qed.

Lemma hashable_arr vs : Forall (fun v => is_Some (canonicalJson v)) vs -> is_Some (canonicalJson (JArr vs)).
Proof. intros Hv. cbn [canonicalJson]. by apply fmap_is_Some, mapM_is_Some. Qed.

Lemma hashable_json v : ActionPolicy.JsonSchema_ok v = true -> is_Some (canonicalJson v).
Proof.
  induction v as [| |b|n|s|items IH|kvs IH|o] using jsval_ind'; intros Hv; try done; try (by eexists).
  - simpl in *. rewrite Hv. by eexists.
  - apply hashable_arr. cbn in Hv. rewrite forallb_forall in Hv. rewrite Forall_forall in *. intros x Hx. apply IH, Hv; [done|by apply list_elem_of_In].
  - apply hashable_obj. cbn in Hv. rewrite forallb_forall in Hv. rewrite Forall_forall in *. intros x Hx. apply IH; [done|].
    apply (Hv x). by apply list_elem_of_In.
Qed.

Lemma hashable_source s : ReconciliationValueSourceSchema s = true -> is_Some (canonicalJson (source_json s)).
Proof.
  intros Hs. apply hashable_obj. apply Forall_app. split; [repeat constructor; by eexists|]. destruct s; repeat constructor; try (by eexists).
  by apply hashable_json.
Qed.

Lemma hashable_predicates ps : forallb ReconciliationPredicateSchema ps = true -> is_Some (canonicalJson (predicates_json ps)).
Proof.
  intros Hp. apply hashable_arr, Forall_fmap, Forall_forall. intros p Hin. rewrite forallb_forall in Hp.
  specialize (Hp p (proj1 (list_elem_of_In _ _) Hin)). apply andb_true_iff in Hp as [_ Hs]. apply hashable_obj.
  repeat constructor; [by eexists|by apply hashable_source].
Qed.

Lemma hashable_portable schema root n : (forall x, schema = Some x -> val_ok x) ->
  portableReconciliationSchema schema root = Some n -> Forall (fun v => is_Some (canonicalJson v)) (option_list n).
Proof.
  unfold portableReconciliationSchema. destruct schema as [x|]; [|intros _ [= <-]; constructor]. intros Hx.
  destruct (normalizeVoiceToolSchema x root) as [m|] eqn:E; [|done]. intros [= <-]. constructor; [|constructor].
  destruct (normalised_good _ _ _ (Hx x eq_refl) E) as (_ & _ & _ & [h Hh] & _). unfold hashFlowValue in Hh. by apply fmap_Some in Hh as (t & -> & _).
Qed.

Lemma hashable_opt k n : Forall (fun v => is_Some (canonicalJson v)) (option_list n) -> Forall (fun kv => is_Some (canonicalJson kv.2)) (opt_field k id n).
Proof. destruct n; [|constructor]. intros [? _]%Forall_cons. by constructor. Qed.

Lemma hashes_exist s p : schemas_ok s -> ActionReconciliationSpecSchema s = Some p ->
  is_Some (hashFlowValue (spec_json p)) /\ is_Some (hashFlowValue (predicate_set_json p)).
Proof.
  intros [Ha Hq] Ep. pose proof (spec_parsed _ _ Ep) as (Hr & Ec & Eab & Eq & _ & Hpa & Hpq).
  apply refined_parts in Hr as ([_ Hc] & [_ Hab] & _ & _ & Hargs). unfold hashFlowValue. rewrite !fmap_is_Some. rewrite <- Ec in Hc. rewrite <- Eab in Hab.
  split; apply hashable_obj; repeat rewrite Forall_app; split_and!; try (repeat constructor; try (by eexists); by apply hashable_predicates).
  - constructor; [|constructor]. apply hashable_obj, Forall_fmap, Forall_forall. intros kv Hkv. rewrite Eq in Hkv. rewrite forallb_forall in Hargs.
    specialize (Hargs kv (proj1 (list_elem_of_In _ _) Hkv)). apply andb_true_iff in Hargs as [_ Hs]. by apply hashable_source.
  - apply hashable_opt. exact (hashable_portable _ _ _ Hq Hpq).
  - apply hashable_opt. exact (hashable_portable _ _ _ Ha Hpa).
  - destruct (sp_maxProofAttempts p) as [z|]; repeat constructor. simpl. rewrite num_of_Z_finite. by eexists.
Qed.

(** ** Deriving a query *)

Definition available (r : FlowActionReceipt) (sc : ReconciliationScope) (entries : obj ReconciliationValueSource) : Prop :=
  Forall (fun kv => is_Some (sourceValue kv.2 r sc)) entries.
Definition resolved (r : FlowActionReceipt) (sc : ReconciliationScope) (entries : obj ReconciliationValueSource) : obj jsval :=
  (fun kv => (kv.1, default JUndefined (sourceValue kv.2 r sc))) <$> entries.

Lemma put_new {V} k (v : V) o : k ∉ keys o -> put k v o = o ++ [(k, v)].
Proof.
  induction o as [|[k' v'] o IH]; [done|]. unfold keys in *. csimpl. rewrite not_elem_of_cons. intros [Hne Hin].
  assert ((k =?s k') = false) as -> by (by apply bool_decide_eq_false_2). by rewrite IH.
Qed.

Lemma derive_arguments_exact r sc entries acc args : NoDup (keys acc ++ keys entries) ->
  derive_arguments entries r sc acc = Ok args <-> available r sc entries /\ args = acc ++ resolved r sc entries.
Proof.
  revert acc. induction entries as [|[k src] entries IH]; intros acc Hnd; cbn [derive_arguments].
  - unfold resolved. csimpl. rewrite app_nil_r. split; [intros [= ->]; split; [constructor|done]|by intros [_ ->]].
  - unfold available, resolved. rewrite Forall_cons. csimpl. destruct (sourceValue src r sc) as [v|] eqn:E; [|split; [done|]; by intros [[[? ?] _] _]].
    unfold keys in Hnd. csimpl. assert (Hk : k ∉ keys acc) by (apply NoDup_app in Hnd as (_ & Hd & _); intros Hin; apply (Hd k Hin); by left).
    rewrite put_new, IH by (done || (unfold keys; rewrite fmap_app, <- app_assoc; exact Hnd)).
    unfold available, resolved. rewrite <- app_assoc. simpl. naive_solver.
Qed.

(** C8. A query is derived exactly for an indeterminate receipt that has an invocation id and was dispatched, under a valid
    contract whose sources are all available; its arguments are then the values of the sources, one of them
    the invocation id, and its hashes are those of the whole contract and of both sets of predicates. *)
Theorem derived_exactly_when_eligible s r sc d : schemas_ok s -> NoDup (keys (sp_queryArguments s)) ->
  (deriveReconciliation s r sc = Ok d <->
   exists p, ActionReconciliationSpecSchema s = Some p /\ a_status r = Indeterminate /\ is_Some (truthy (a_invocationId r)) /\
     is_Some (truthy (a_dispatchStartedAt r)) /\ available r sc (sp_queryArguments s) /\
     dr_queryArguments d = resolved r sc (sp_queryArguments s) /\ hashFlowValue (spec_json p) = Some (dr_policyHash d) /\
     hashFlowValue (predicate_set_json p) = Some (dr_predicateHash d)) /\
  (deriveReconciliation s r sc = Ok d -> exists target id, truthy (a_invocationId r) = Some id /\ own target (dr_queryArguments d) = Some (JStr id)).
Proof.
  intros Hs Hnd. assert (Hiff : forall P Q R : Prop, (P <-> Q) -> (Q -> R) -> (P <-> Q) /\ (P -> R)) by tauto. apply Hiff; clear Hiff.
  - unfold deriveReconciliation. destruct (ActionReconciliationSpecSchema s) as [p|] eqn:Ep; [|split; [done|by intros (? & ? & _)]].
    pose proof (spec_parsed _ _ Ep) as (_ & _ & _ & -> & _). destruct (hashes_exist _ _ Hs Ep) as [[h1 E1] [h2 E2]]. rewrite E1, E2.
    destruct (eligible r) eqn:Ee; cbn [negb]; unfold eligible in Ee.
    2:{ split; [done|]. intros (_ & _ & H1 & H2 & H3 & _). by rewrite !bool_decide_eq_true_2 in Ee. }
    to_prop. destruct (derive_arguments _ r sc []) as [args|e] eqn:Ea; cbn [bind_result].
    + apply derive_arguments_exact in Ea as [Hav ->]; [|done]. split.
      * intros [= <-]. exists p. by split_and!.
      * intros (p' & [= <-] & _ & _ & _ & _ & Q1 & Q2 & Q3). destruct d. simpl in *. congruence.
    + split; [done|]. intros (p' & _ & _ & _ & _ & Hav & _).
      assert (Err e = Ok (resolved r sc (sp_queryArguments s))); [|done]. rewrite <- Ea. by apply derive_arguments_exact.
  - intros (p & Ep & _ & [id Hid] & _ & _ & -> & _). apply spec_parsed in Ep as [Hr _]. apply refined_parts in Hr as (_ & _ & _ & Hi & _).
    apply existsb_exists in Hi as ([target src] & Hin%list_elem_of_In & Hi). destruct src; try done. exists target, id. split; [done|].
    apply elem_of_own; [unfold keys, resolved; by rewrite <- list_fmap_compose|]. apply list_elem_of_fmap. exists (target, InvocationId). simpl. by rewrite Hid.
Qed.

(** ** The catalogue *)

(** A check keeps the caches in order and establishes [P] when it passes, in every later state. *)
Definition establishes (known0 : gmap N jsval) (f : Caches -> Caches * bool) (P : Prop) : Prop :=
  forall known c, reached known c -> known0 ⊆ known ->
    exists known', reached known' (f c).1 /\ known ⊆ known' /\ ((f c).2 = true -> P).

Lemma establishes_both known0 f g P Q : establishes known0 f P -> establishes known0 g Q -> establishes known0 (both f g) (P /\ Q).
Proof.
  intros Hf Hg known c Hr Hk. unfold both. destruct (Hf known c Hr Hk) as (k1 & Hr1 & Hk1 & HP). destruct (f c) as [c1 []]; cbn [fst snd] in *.
  - destruct (Hg k1 c1 Hr1) as (k2 & Hr2 & Hk2 & HQ); [by etrans|]. exists k2. split_and!; [done|by etrans|]. split; [by apply HP|by apply HQ].
  - by exists k1.
Qed.

(** The normal form of a content and its hash. *)
Definition normal_form (root : bool) (content : jsval) (n : jsval) (hash : jstr) : Prop :=
  normalizeVoiceToolSchema content root = Ok n /\ hashFlowValue n = Some hash.

Lemma admits known c schema root : reached known c -> is_known known schema ->
  exists known', reached known' (admittedSchema schema root c).1 /\ known ⊆ known' /\
    forall a, (admittedSchema schema root c).2 = Ok a -> exists n, normal_form root (so_content schema) n (ad_hash a).
Proof.
  intros Hr Hk. exists (known_after schema root c known). split_and!; [by apply reached_admit|by apply admit_extends|].
  intros a Ha. destruct (admit_good _ _ _ root (reached_consistent _ _ Hr) Hk) as [_ Hg]. rewrite Ha in Hg. destruct Hg as (n & ? & ? & _). by exists n.
Qed.

Lemma pinned_hash_good known c schema root : reached known c -> known_option known schema ->
  exists known', reached known' (pinned_hash schema root c).1 /\ known ⊆ known' /\
    forall o x, (pinned_hash schema root c).2 = Ok o -> schema = Some x -> exists n h, o = Some h /\ normal_form root (so_content x) n h.
Proof.
  intros Hr Hk. destruct schema as [schema|]; [|by exists known]. cbn [pinned_hash]. destruct (admits known c schema root Hr Hk) as (k & Hr' & Hk' & Ha).
  destruct (admittedSchema schema root c) as [c' [a|e]]; cbn [fst snd bind_result] in *; exists k; split_and!; try done.
  intros o x [= <-] [= <-]. destruct (Ha a eq_refl) as [n Hn]. by exists n, (ad_hash a).
Qed.

Lemma fallback_hash_good known c content root : reached known c -> (forall x, content = Some x -> val_ok x) ->
  exists known', reached known' (fallback_hash content root c).1 /\ known ⊆ known' /\
    forall o x, (fallback_hash content root c).2 = Ok o -> content = Some x -> exists n h, o = Some h /\ normal_form root x n h.
Proof.
  intros Hr Hx. destruct content as [x|]; [|by exists known]. cbn [fallback_hash allocate].
  pose proof (reached_object known c x Hr (Hx x eq_refl)) as Hr1.
  assert (Hsub : known ⊆ <[ca_next c := x]> known).
  { apply insert_subseteq. destruct (known !! ca_next c) as [y|] eqn:E; [|done]. apply (co_fresh _ _ (reached_consistent _ _ Hr)) in E. lia. }
  destruct (pinned_hash_good _ _ (Some {| so_ref := ca_next c; so_content := x |}) root Hr1) as (k & Hr' & Hk' & Ha); [apply lookup_insert_eq|].
  exists k. split_and!; [exact Hr'|by etrans|]. intros o y Ho [= <-]. exact (Ha o _ Ho eq_refl).
Qed.

(** Both schemas, where both are given, have one normal form. *)
Definition one_form (root : bool) (source : option SchemaObject) (fallback : option jsval) : Prop :=
  forall x y, source = Some x -> fallback = Some y ->
    exists n m, normalizeVoiceToolSchema (so_content x) root = Ok n /\ normalizeVoiceToolSchema y root = Ok m /\ (n = m \/ collision).

Lemma same_schema_good known0 source fallback root : known_option known0 source -> (forall x, fallback = Some x -> val_ok x) ->
  establishes known0 (same_schema source fallback root) (one_form root source fallback).
Proof.
  intros Hs Hf known c Hr Hk. unfold same_schema. assert (Hs' : known_option known source) by (by eapply known_option_mono).
  destruct (pinned_hash_good known c source root Hr Hs') as (k1 & Hr1 & Hk1 & H1).
  destruct (pinned_hash source root c) as [c1 [o1|e1]]; cbn [fst snd] in *; [|by exists k1].
  destruct (fallback_hash_good k1 c1 fallback root Hr1 Hf) as (k2 & Hr2 & Hk2 & H2).
  destruct (fallback_hash fallback root c1) as [c2 [o2|e2]]; cbn [fst snd] in *; exists k2; (split_and!; [done|by etrans|]); [|done].
  intros Hd x y Ex Ey. destruct (H1 _ _ eq_refl Ex) as (n & h & -> & Hn & Hh). destruct (H2 _ _ eq_refl Ey) as (m & h' & -> & Hm & Hh').
  exists n, m. split_and!; [done..|]. simpl in Hd. to_prop. subst h'. subst source. specialize (Hf y Ey).
  pose proof (co_ok _ _ (reached_consistent _ _ Hr) _ _ Hs') as Hx.
  destruct (normalised_good _ _ _ Hx Hn) as (? & ? & _). destruct (normalised_good _ _ _ Hf Hm) as (? & ? & _). by eapply normal_unique.
Qed.

Lemma admissible_good known0 schema : is_known known0 schema ->
  establishes known0 (admissible schema) (exists n, normalizeVoiceToolSchema (so_content schema) true = Ok n).
Proof.
  intros Hs known c Hr Hk. unfold admissible. destruct (admits known c schema true Hr) as (k & Hr' & Hk' & Ha); [exact (lookup_weaken known0 known _ _ Hs Hk)|].
  destruct (admittedSchema schema true c) as [c' [a|e]]; cbn [fst snd] in *; exists k; split_and!; try done. intros _.
  destruct (Ha a eq_refl) as (n & Hn & _). by exists n.
Qed.

Definition known_definition (known : gmap N jsval) (d : ReconciliationToolDefinition) : Prop :=
  is_known known (rt_inputSchema d) /\ known_option known (rt_outputSchema d).

(** What a catalogue has to offer for a reconcilable action. *)
Definition authority (definitions : list ReconciliationToolDefinition) (action : ReconciliationToolDefinition) (s : ActionReconciliationSpec) : Prop :=
  exists p query, ActionReconciliationSpecSchema s = Some p /\ query ∈ definitions /\ rt_name query = sp_queryTool p /\
    rt_name query <> rt_name action /\ rt_effect query = Some ReadEffect /\
    (rt_effect action = Some WriteEffect \/ rt_effect action = Some OpaqueEffect) /\
    (is_Some (rt_outputSchema action) \/ is_Some (sp_authoritativeResultSchema p)) /\
    (is_Some (rt_outputSchema query) \/ is_Some (sp_queryOutputSchema p)) /\
    one_form false (rt_outputSchema action) (sp_authoritativeResultSchema p) /\ one_form true (rt_outputSchema query) (sp_queryOutputSchema p) /\
    (exists n, normalizeVoiceToolSchema (so_content (rt_inputSchema action)) true = Ok n) /\
    (exists n, normalizeVoiceToolSchema (so_content (rt_inputSchema query)) true = Ok n).

Lemma suitable_action_spec action p : suitable_action action p = true ->
  (rt_effect action = Some WriteEffect \/ rt_effect action = Some OpaqueEffect) /\
  (is_Some (rt_outputSchema action) \/ is_Some (sp_authoritativeResultSchema p)).
Proof. unfold suitable_action. rewrite andb_true_iff, orb_true_iff, !bool_decide_eq_true. destruct (rt_effect action) as [[]|]; naive_solver. Qed.

Lemma suitable_query_spec action query p : suitable_query action query p = true ->
  rt_name query <> rt_name action /\ rt_effect query = Some ReadEffect /\
  (is_Some (rt_outputSchema query) \/ is_Some (sp_queryOutputSchema p)).
Proof.
  unfold suitable_query. rewrite !andb_true_iff, orb_true_iff, !bool_decide_eq_true. intros [[Hn He] Ho]. split_and!; [|done|done]. by to_prop.
Qed.

Lemma by_name_spec definitions name query : by_name definitions name = Some query -> query ∈ definitions /\ rt_name query = name.
Proof. intros [Hin Hn]%find_some. split; [by apply elem_of_reverse, list_elem_of_In|]. by to_prop. Qed.

Lemma assert_action_good known0 definitions action known c : Forall (known_definition known0) definitions -> action ∈ definitions ->
  (forall s, rt_reconciliation action = Some s -> schemas_ok s) -> reached known c -> known0 ⊆ known ->
  exists known', reached known' (assert_action definitions action c).1 /\ known ⊆ known' /\
    ((assert_action definitions action c).2 = Ok () -> forall s, rt_reconciliation action = Some s -> authority definitions action s).
Proof.
  intros Hd Ha Hs Hr Hk. unfold assert_action. destruct (rt_reconciliation action) as [s|]; [|by exists known]. specialize (Hs s eq_refl) as [Hsa Hsq].
  destruct (ActionReconciliationSpecSchema s) as [p|] eqn:Ep; [|by exists known]. destruct (suitable_action action p) eqn:Esa; cbn [negb]; [|by exists known].
  destruct (by_name definitions _) as [query|] eqn:Eq; [|by exists known]. destruct (suitable_query action query p) eqn:Esq; cbn [negb]; [|by exists known].
  apply by_name_spec in Eq as [Hq Hqn]. pose proof (spec_parsed _ _ Ep) as (_ & _ & _ & _ & _ & Hpa & Hpq). rewrite Forall_forall in Hd.
  destruct (Hd action Ha) as [Hai Hao]. destruct (Hd query Hq) as [Hqi Hqo].
  assert (Hva : forall x, sp_authoritativeResultSchema p = Some x -> val_ok x) by (intros x E; rewrite E in Hpa; exact (portable_ok _ _ _ Hsa Hpa)).
  assert (Hvq : forall x, sp_queryOutputSchema p = Some x -> val_ok x) by (intros x E; rewrite E in Hpq; exact (portable_ok _ _ _ Hsq Hpq)).
  destruct (establishes_both known0 _ _ _ _ (same_schema_good known0 _ _ false Hao Hva)
    (establishes_both known0 _ _ _ _ (same_schema_good known0 _ _ true Hqo Hvq)
      (establishes_both known0 _ _ _ _ (admissible_good known0 _ Hai) (admissible_good known0 _ Hqi))) known c Hr Hk) as (k & Hr' & Hk' & HP).
  destruct (both _ _ c) as [c' []]; cbn [fst snd] in *; exists k; split_and!; try done. intros _ s' [= <-]. destruct (HP eq_refl) as (? & ? & ? & ?).
  apply suitable_action_spec in Esa as [? ?]. apply suitable_query_spec in Esq as (? & ? & ?). exists p, query. by split_and!.
Qed.

(** C9. An accepted catalogue is a closed authority: every reconcilable action of it declares a write or opaque effect and has
    a result schema; its query is another tool of the catalogue, read-only, with a result schema; a schema
    of the policy has the normal form of the schema the tool publishes itself, where there is one, unless
    SHA-256 collides; and the argument schemas of both are portable. *)
Theorem accepted_catalogue_is_closed known c definitions c' :
  reached known c -> Forall (known_definition known) definitions ->
  Forall (fun d => forall s, rt_reconciliation d = Some s -> schemas_ok s) definitions ->
  assertTrustedReconciliationCatalog definitions c = (c', Ok ()) ->
  forall action s, action ∈ definitions -> rt_reconciliation action = Some s -> authority definitions action s.
Proof.
  intros Hr Hd Hs. unfold assertTrustedReconciliationCatalog.
  assert (Hgen : forall actions k c, reached k c -> known ⊆ k -> actions ⊆ definitions -> assert_actions definitions actions c = (c', Ok ()) ->
    forall action s, action ∈ actions -> rt_reconciliation action = Some s -> authority definitions action s).
  { clear c Hr. induction actions as [|a actions IH]; intros k c Hr Hk Hsub Hok action s; [by intros ?%elem_of_nil|]. cbn [assert_actions] in Hok.
    rewrite Forall_forall in Hs. destruct (assert_action_good known definitions a k c Hd) as (k1 & Hr1 & Hk1 & HP); [set_solver|apply Hs; set_solver|done|done|].
    destruct (assert_action definitions a c) as [c1 [[]|e]]; [|done]. cbn [fst snd] in *. rewrite elem_of_cons. intros [->|Hin] E; [by apply HP|].
    eapply (IH k1 c1); [done|by etrans|set_solver|done|done|done]. }
  intros Hok. by apply (Hgen definitions known c).
Qed.

End Policy.
End ActionReconciliationPolicy.
