(* ===== verification/ActionReconciliationDemo.v ===== *)
(** * A refund whose response was lost

    The refund is settled by a read-back query; the witnesses of the theorems on reconciliation. *)

From S2P Require Import Prelude JsValue JsText Canonical Graph Flow FlowValidate FlowRuntime ActionPolicy VoiceToolSchema VoiceToolSchemaProps.
From S2P Require Import ActionReconciliation ActionReconciliationProps ActionReconciliationCaches ActionReconciliationPolicy.
Import VoiceToolSchema VoiceToolSchemaProps ActionReconciliation ActionReconciliationProps ActionReconciliationCaches ActionReconciliationPolicy.

Local Open Scope Z_scope.

Module ActionReconciliationDemo.

(** A validator that takes every schema and accepts every value. *)
#[local] Instance lax : Ajv := {| ajv_compiles := fun _ => true; ajv_validates := fun _ _ => true |}.
#[local] Existing Instance demo_sha256.

Definition predicate (path : string) (source : ReconciliationValueSource) : ReconciliationPredicate :=
  {| rp_resultPath := js path; rp_equals := source |}.
Definition status_is (value : string) : ReconciliationPredicate := predicate "$.status" (Literal (JStr (js value))).

Definition object_schema : jsval := JObj (field "type" (jtext "object")).

Definition refund_spec : ActionReconciliationSpec :=
  {| sp_queryTool := js "lookup_refund";
     sp_queryArguments := [(js "key", InvocationId); (js "order", ActionArgument (js "$.order"))];
     sp_committedWhen := [predicate "$.key" InvocationId; status_is "done"];
     sp_absentWhen := [predicate "$.key" InvocationId; status_is "unknown"];
     sp_queryOutputSchema := None; sp_authoritativeResultPath := js "$.result";
     sp_authoritativeResultSchema := Some object_schema; sp_maxProofAttempts := None |}.

Definition lost_refund : FlowActionReceipt :=
  {| a_id := js "r1"; a_idempotencyKey := js "k1"; a_step := js "refund"; a_tool := js "issue_refund"; a_capabilityEpoch := 1;
     a_arguments := Some [(js "order", JStr (js "A-7"))]; a_argumentsBytes := None; a_argumentsCompacted := false;
     a_argumentsHash := replicate 64 97%N; a_invocationId := Some (js "inv-1"); a_providerInvocationId := None;
     a_dispatchStartedAt := Some (js "2026-01-01T00:00:00.000Z"); a_dispatchAttempt := Some 1; a_reconciliationProofId := None;
     a_status := Indeterminate; a_result := None; a_resultBytes := None; a_resultCompacted := false; a_resultHash := None; a_error := None;
     a_reservedAt := js "2026-01-01T00:00:00.000Z"; a_settledAt := None |}.

Definition support_scope : ReconciliationScope := {| sc_callId := js "call"; sc_organizationId := js "org"; sc_agentId := js "agent" |}.

Definition proof_of (status : string) : jsval :=
  JObj (field "key" (jtext "inv-1") ++ field "status" (jtext status) ++ field "result" (JObj (field "amount" (jnat 12)))).

(** The caches after the schema of the query is there as an object. *)
Definition cold : Caches := (allocate object_schema (mkCaches 0 [] ∅ ∅)).1.
Definition query_schema : SchemaObject := {| so_ref := 0; so_content := object_schema |}.
Definition contents : gmap N jsval := <[0%N := object_schema]> ∅.

Lemma cold_reached : reached contents cold.
Proof. exact (reached_object ∅ _ object_schema reached_start (val_okb_sound object_schema eq_refl)). Qed.

Definition verdict_on (status : string) : option ReconciliationEvaluation :=
  (evaluateReconciliationProof refund_spec lost_refund support_scope (proof_of status) (Some query_schema) None cold).2.

Example refund_settled :
  (settles <$> verdict_on "done", settles <$> verdict_on "unknown", verdict_on "pending") =
  (Some (Some true), Some (Some false), Some (StillIndeterminate PendingOrUnknown)).
Proof. by vm_compute. Qed.

Example refund_query : (dr_queryArguments <$> match deriveReconciliation refund_spec lost_refund support_scope with Ok d => Some d | Err _ => None end) =
  Some [(js "key", JStr (js "inv-1")); (js "order", JStr (js "A-7"))].
Proof. by vm_compute. Qed.

(** A proof with the id of another invocation settles nothing. *)
Example foreign_proof_ignored :
  (evaluateReconciliationProof refund_spec lost_refund support_scope
     (JObj (field "key" (jtext "inv-2") ++ field "status" (jtext "done"))) (Some query_schema) None cold).2 =
  Some (StillIndeterminate PendingOrUnknown).
Proof. by vm_compute. Qed.

(** The paths of a set are told apart by their spelling only. *)
Example one_path_bound_twice :
  safePathSegments (js "$.key") = safePathSegments (js "key") /\
  is_Some (ActionReconciliationSpecSchema
    {| sp_queryTool := js "lookup_refund"; sp_queryArguments := [(js "key", InvocationId)];
       sp_committedWhen := [predicate "$.key" InvocationId; predicate "key" (Literal (jtext "done")); status_is "done"];
       sp_absentWhen := [predicate "$.key" InvocationId; status_is "unknown"]; sp_queryOutputSchema := None;
       sp_authoritativeResultPath := js "$.result"; sp_authoritativeResultSchema := None; sp_maxProofAttempts := None |}).
Proof. split; [reflexivity|]. by eexists. Qed.

Lemma refund_ids : id_units lost_refund.
Proof. intros id [= <-]. apply js_units. Qed.

Lemma proof_settles_one_invocation_witness :
  (true = true /\ exists id, truthy (a_invocationId lost_refund) = Some id /\ truthy (a_invocationId lost_refund) = Some id) \/ collision.
Proof.
  destruct (evaluateReconciliationProof refund_spec lost_refund support_scope (proof_of "done") (Some query_schema) None cold) as [c1 o] eqn:E.
  assert (Ho : bool_decide (o ≫= settles = Some true) = true)
    by (change o with (c1, o).2; rewrite <- E; vm_compute; reflexivity).
  apply bool_decide_eq_true_1 in Ho. destruct o as [ev|]; [|discriminate Ho]. cbn [mbind option_bind] in Ho.
  exact (proof_settles_one_invocation refund_spec (proof_of "done") lost_refund support_scope (Some query_schema) None cold c1 ev true
    lost_refund support_scope (Some query_schema) None cold c1 ev true refund_ids refund_ids E Ho E Ho).
Defined.

Lemma refund_schemas_ok : schemas_ok refund_spec.
Proof. split; [|done]. intros x [= <-]. exact (val_okb_sound object_schema eq_refl). Qed.

Lemma evaluation_is_reference_witness :
  reference_evaluation refund_spec lost_refund support_scope (proof_of "pending") (Some object_schema) None = StillIndeterminate PendingOrUnknown /\
  exists known' c' ev, evaluateReconciliationProof refund_spec lost_refund support_scope (proof_of "pending") (Some query_schema) None cold = (c', Some ev) /\
    reached known' c' /\ contents ⊆ known' /\ (length (reconciliationValidators c') <= MAX_RECONCILIATION_VALIDATORS)%nat /\
    (ev = reference_evaluation refund_spec lost_refund support_scope (proof_of "pending") (Some object_schema) None \/ collision).
Proof.
  split; [vm_compute; reflexivity|].
  exact (evaluation_is_reference contents cold refund_spec lost_refund support_scope (proof_of "pending") (Some query_schema) None
    cold_reached eq_refl I refund_schemas_ok).
Defined.

Lemma derived_exactly_when_eligible_witness :
  exists d, deriveReconciliation refund_spec lost_refund support_scope = Ok d /\
    exists target id, truthy (a_invocationId lost_refund) = Some id /\ own target (dr_queryArguments d) = Some (JStr id).
Proof.
  destruct (deriveReconciliation refund_spec lost_refund support_scope) as [d|e] eqn:E; [|vm_compute in E; discriminate E].
  exists d. split; [reflexivity|].
  refine (proj2 (derived_exactly_when_eligible refund_spec lost_refund support_scope d refund_schemas_ok _) E).
  apply (bool_decide_unpack _). vm_compute. exact I.
Defined.

(** ** A catalogue *)

Definition issue_refund : ReconciliationToolDefinition :=
  {| rt_name := js "issue_refund"; rt_inputSchema := query_schema; rt_outputSchema := None; rt_effect := Some WriteEffect;
     rt_reconciliation := Some refund_spec |}.
Definition lookup_refund : ReconciliationToolDefinition :=
  {| rt_name := js "lookup_refund"; rt_inputSchema := query_schema; rt_outputSchema := Some query_schema; rt_effect := Some ReadEffect;
     rt_reconciliation := None |}.

(** Without a read-only query there is no authority. *)
Example query_required : (assertTrustedReconciliationCatalog [issue_refund] cold).2 = Err (QueryUnsuitable (js "lookup_refund")).
Proof. by vm_compute. Qed.

Lemma accepted_catalogue_is_closed_witness : authority [issue_refund; lookup_refund] issue_refund refund_spec.
Proof.
  destruct (assertTrustedReconciliationCatalog [issue_refund; lookup_refund] cold) as [c' r] eqn:E.
  assert (r = Ok ()) as -> by (change r with (c', r).2; rewrite <- E; vm_compute; reflexivity).
  refine (accepted_catalogue_is_closed contents cold [issue_refund; lookup_refund] c' cold_reached _ _ E issue_refund refund_spec _ eq_refl).
  - repeat constructor.
  - constructor; [intros s [= <-]; exact refund_schemas_ok|]. constructor; [intros s [=]|constructor].
  - left.
Defined.

End ActionReconciliationDemo.
