(* ===== verification/SpeechGate.v ===== *)
(** * The gate for generated speech (src/web/lib/realtime/outbound-speech-gate.ts)

    Generated audio is held until its response has ended and the evidence of what it says has
    passed the policy; only then is it released. The gate is shared by every operation, and
    finalising a response is asynchronous: it waits for digests and for the independent
    transcription, while other operations run. The continuation of a finalisation at each
    [await] is a [Stage]; [resume] runs it to the next one.

    An operation returns the gate as it leaves it, also when it throws. Timestamps are
    integers, durations the doubles of the code; audio data are bytes. *)

From S2P Require Import Prelude JsValue JsText Canonical Graph Flow FlowValidate FlowRuntime ActionPolicy Doubles.
Import Doubles.

Local Open Scope Z_scope.

Module SpeechGate.

(** ** Text *)

(** [new TextEncoder().encode(s)]: a lone surrogate is encoded as U+FFFD. *)
Definition utf8_point (c : N) : list N :=
  if (c <? 128)%N then [c]
  else if (c <? 2048)%N then [192 + c / 64; 128 + c mod 64]%N
  else if (c <? 65536)%N then [224 + c / 4096; 128 + c / 64 mod 64; 128 + c mod 64]%N
  else [240 + c / 262144; 128 + c / 4096 mod 64; 128 + c / 64 mod 64; 128 + c mod 64]%N.

Definition pair_point (lead trail : N) : N := (65536 + (lead - 0xD800) * 1024 + (trail - 0xDC00))%N.

(** The code points of a string; a lone surrogate stands for itself. *)
Fixpoint points (s : jstr) : list N :=
  match s with
  | [] => []
  | c :: s' =>
      if is_lead c then
        match s' with
        | d :: s'' => if is_trail d then pair_point c d :: points s'' else c :: points s'
        | [] => [c]
        end
      else c :: points s'
  end.

Definition utf8_bytes (s : jstr) : list N :=
  flat_map (fun c => if is_lead c || is_trail c then utf8_point 0xFFFD else utf8_point c) (points s).

(** The string of code points. *)
Definition units (c : N) : jstr :=
  if (c <? 65536)%N then [c] else [0xD800 + (c - 65536) / 1024; 0xDC00 + (c - 65536) mod 1024]%N.

(** What the code takes from the Unicode tables of the runtime: NFKC, lower-casing for en-US,
    and the code points in \p{L} or \p{N}. *)
Class UnicodeTables := {
  nfkc : jstr -> jstr;
  toLocaleLowerCase : jstr -> jstr;
  letter_or_number : N -> bool;
}.

(** SHA-256 of bytes, in lower-case hexadecimal. *)
Class Digest := digest : list N -> jstr.

Definition normalizeSpeechText `{UnicodeTables} (value : jstr) : jstr :=
  flat_map units (List.filter letter_or_number (points (toLocaleLowerCase (nfkc value)))).

Definition sha256Hex `{Digest} (text : jstr) : jstr := digest (utf8_bytes text).

Fixpoint starts_with (needle s : jstr) : bool :=
  match needle, s with
  | [], _ => true
  | c :: needle, d :: s => (c =? d)%N && starts_with needle s
  | _ :: _, [] => false
  end.
(** [s.includes(needle)] *)
Fixpoint contains (needle s : jstr) : bool :=
  starts_with needle s || match s with [] => false | _ :: s => contains needle s end.

(** ** Data *)

Inductive Provider : Type := OpenAI | XAI | Gemini.
#[export] Instance provider_eq_dec : EqDecision Provider.
Proof. solve_decision. Defined.

Inductive TerminalStatus : Type := Completed | Cancelled | FailedStatus | Incomplete | InterruptedStatus.
#[export] Instance terminal_status_eq_dec : EqDecision TerminalStatus.
Proof. solve_decision. Defined.

(** [Exclude<OutboundSpeechGateAction, "release">] *)
Inductive Suppression : Type := Suppress | SuppressAndRegenerate.
#[export] Instance suppression_eq_dec : EqDecision Suppression.
Proof. solve_decision. Defined.
Inductive Action : Type := Release | Withhold (how : Suppression).
#[export] Instance action_eq_dec : EqDecision Action.
Proof. solve_decision. Defined.

Inductive EvidencePolicy : Type := IndependentAsrRequired | ProviderTranscriptAllowed | BothRequired.

Record Secret := { se_value : jstr; se_fingerprintSha256 : jstr; se_ruleId : jstr }.
Record ForbiddenClaim := { fc_phrase : jstr; fc_ruleId : jstr }.

Record Policy := {
  po_evidencePolicy : EvidencePolicy;
  po_maxBufferedAudioBytes : Z;
  po_maxBufferedAudioMs : Z;
  po_maxCollectionLatencyMs : Z;
  po_maxDecisionLatencyMs : Z;
  po_onViolation : Suppression;
  po_onEvidenceFailure : Suppression;
  po_secrets : list Secret;
  po_forbiddenTerminalClaims : list ForbiddenClaim;
  po_terminalClaimsAuthorized : bool;
}.

Definition DEFAULT_OUTBOUND_SPEECH_GATE_LIMITS : Policy :=
  {| po_evidencePolicy := IndependentAsrRequired; po_maxBufferedAudioBytes := 8 * 1024 * 1024; po_maxBufferedAudioMs := 120000;
     po_maxCollectionLatencyMs := 150000; po_maxDecisionLatencyMs := 15000; po_onViolation := Suppress;
     po_onEvidenceFailure := Suppress; po_secrets := []; po_forbiddenTerminalClaims := [];
     po_terminalClaimsAuthorized := false |}.

Record Format := { fm_encoding : jstr; fm_sampleRateHz : Z; fm_channels : Z }.
Record Audio := { au_format : Format; au_data : list N }.
#[export] Instance format_eq_dec : EqDecision Format.
Proof. solve_decision. Defined.

Record AsrInput := {
  ai_organizationId : jstr;
  ai_callId : jstr;
  ai_responseId : jstr;
  ai_provider : Provider;
  ai_audio : Audio;
  ai_audioSha256 : jstr;
  ai_audioBytes : Z;
  ai_audioDurationMs : double;
  ai_deadlineAtMs : Z;
}.

Record Receipt := {
  rc_schemaVersion : Z;
  rc_authorityId : jstr;
  rc_organizationId : jstr;
  rc_callId : jstr;
  rc_provider : Provider;
  rc_responseId : jstr;
  rc_text : jstr;
  rc_transcriptSha256 : jstr;
  rc_audioSha256 : jstr;
  rc_audioBytes : Z;
  rc_sampleRateHz : Z;
  rc_channels : Z;
  rc_complete : bool;
  rc_engine : jstr;
  rc_model : jstr;
  rc_decision : jstr;
  rc_receiptHmacSha256 : jstr;
  rc_receiptSha256 : jstr;
}.

Inductive ViolationCode : Type := SecretEcho | ForbiddenTerminalClaim.
Inductive TextSource : Type := FromProvider | FromAsr.
Record Violation := {
  vi_code : ViolationCode; vi_ruleId : jstr; vi_secretFingerprintSha256 : option jstr; vi_source : TextSource
}.

Inductive Reason : Type :=
| PolicyPass | PolicyViolation | EvidenceUnavailable | EvidenceTimeout | EvidenceMismatch | TerminalNotCompleted
| BufferLimitExceeded | CollectionLatencyExceeded | InvalidAudioSequence.

Inductive Coverage : Type := ExactBufferedPcm | ProviderTranscriptUnbound | NoCoverage.

Record Decision := {
  de_responseId : jstr;
  de_provider : Provider;
  de_action : Action;
  de_reason : Reason;
  de_evidenceCoverage : Coverage;
  de_audioSha256 : option jstr;
  de_audioBytes : Z;
  de_audioDurationMs : double;
  de_providerTranscriptSha256 : option jstr;
  de_independentAsrTranscriptSha256 : option jstr;
  de_independentAsrReceiptSha256 : option jstr;
  de_violations : list Violation;
  de_collectionLatencyMs : Z;
  de_decisionLatencyMs : Z;
  de_audio : option (list Audio);
}.

Inductive GateState : Type := CollectingState | TerminalState | SealedState | FinalizedState.
Record Status := {
  st_state : GateState; st_responseId : jstr; st_audioBytes : Z; st_audioDurationMs : double; st_sealedReason : option Reason
}.

Record HeldResponse := mkHeld {
  h_provider : Provider;
  h_startedAtMs : Z;
  h_terminal : option (Z * TerminalStatus);
  h_chunks : list Audio;
  h_audioBytes : Z;
  h_audioDurationMs : double;
  h_format : option Format;
  h_providerTranscript : option jstr;
  h_providerTranscriptFinal : bool;
  h_sealedReason : option Reason;
  h_finalized : bool;
}.

Inductive GateError : Type :=
| BadPolicy (what : string) | BadIdentity | BadTimestamp | IdentityExists | AfterTerminal | Finalized | AlreadyTerminal
| UnknownResponse | InProgress | NotTerminal | ProviderChanged.

(** ** Validation *)

Definition MAX_SAFE_TIMEOUT_MS : Z := 2147483647.

Definition SHA256 : jstr -> bool := is_sha256.

Definition hex_i (c : N) : bool := is_hex c || ((65 <=? c)%N && (c <=? 70)%N).

(** [/^[0-9a-f]{8}-[0-9a-f]{4}-[1-8][0-9a-f]{3}-[89ab][0-9a-f]{3}-[0-9a-f]{12}$/i] *)
Definition uuid_unit (i : nat) (c : N) : bool :=
  match i with
  | 8 | 13 | 18 | 23 => (c =? 45)%N
  | 14 => (49 <=? c)%N && (c <=? 56)%N
  | 19 => one_of "89abAB" c
  | _ => hex_i c
  end%nat.
Definition UUID (s : jstr) : bool :=
  (length s =? 36)%nat && forallb (fun p => uuid_unit p.1 p.2) (zip (seq 0 36) s).

(** [/^[a-z][a-z0-9_.-]{1,63}$/] *)
Definition assertRuleId (s : jstr) : bool :=
  match s with
  | [] => false
  | c :: r => is_lower c && (1 <=? length r)%nat && (length r <=? 63)%nat &&
              forallb (fun c => is_lower c || is_digit c || one_of "_.-" c) r
  end.

Definition assertIdentity (s : jstr) : bool :=
  negb (bool_decide (s = [])) && (length s <=? 512)%nat && negb (existsb (fun c => (c <=? 31)%N || (c =? 127)%N) s).

Definition assertTimestamp (t : Z) : bool := 0 <=? t.

Section Gate.
Context `{UnicodeTables} `{Digest}.

Fixpoint validate_secrets (ruleIds : list jstr) (secrets : list Secret) : result GateError (list jstr) :=
  match secrets with
  | [] => Ok ruleIds
  | s :: secrets =>
      raise (BadPolicy "invalid rule id") when negb (assertRuleId (se_ruleId s)) ;;
      raise (BadPolicy "duplicate rule id") when includes (se_ruleId s) ruleIds ;;
      raise (BadPolicy "fingerprint must be lowercase SHA-256") when negb (SHA256 (se_fingerprintSha256 s)) ;;
      raise (BadPolicy "secrets must normalize to at least four characters") when
        (length (normalizeSpeechText (se_value s)) <? 4)%nat ;;
      validate_secrets (ruleIds ++ [se_ruleId s]) secrets
  end.

Fixpoint validate_claims (ruleIds : list jstr) (claims : list ForbiddenClaim) : result GateError (list jstr) :=
  match claims with
  | [] => Ok ruleIds
  | c :: claims =>
      raise (BadPolicy "invalid rule id") when negb (assertRuleId (fc_ruleId c)) ;;
      raise (BadPolicy "duplicate rule id") when includes (fc_ruleId c) ruleIds ;;
      raise (BadPolicy "forbidden terminal claim cannot be empty") when
        bool_decide (normalizeSpeechText (fc_phrase c) = []) ;;
      validate_claims (ruleIds ++ [fc_ruleId c]) claims
  end.

Definition validatePolicy (p : Policy) : result GateError unit :=
  raise (BadPolicy "limits must be positive safe integers") when
    negb (forallb (fun v => (1 <=? v) && (v <=? MAX_SAFE_TIMEOUT_MS))
      [po_maxBufferedAudioBytes p; po_maxBufferedAudioMs p; po_maxCollectionLatencyMs p; po_maxDecisionLatencyMs p]) ;;
  let* ruleIds := validate_secrets [] (po_secrets p) in
  let* _ := validate_claims ruleIds (po_forbiddenTerminalClaims p) in
  Ok ().

(** With every field given. *)
Definition createOutboundSpeechGatePolicy (p : Policy) : result GateError Policy :=
  let* _ := validatePolicy p in Ok p.

(** ** Receipts *)

Definition provider_text (p : Provider) : string :=
  match p with OpenAI => "openai" | XAI => "xai" | Gemini => "gemini" end.

(** The fields in the order of the object literal. *)
Definition canonicalReceiptCore (r : Receipt) : obj jsval :=
  field "schemaVersion" (jnat 2) ++ field "authorityId" (JStr (rc_authorityId r)) ++
  field "organizationId" (JStr (rc_organizationId r)) ++ field "callId" (JStr (rc_callId r)) ++
  field "provider" (jtext (provider_text (rc_provider r))) ++ field "responseId" (JStr (rc_responseId r)) ++
  field "text" (JStr (rc_text r)) ++ field "transcriptSha256" (JStr (rc_transcriptSha256 r)) ++
  field "audioSha256" (JStr (rc_audioSha256 r)) ++ field "audioBytes" (jnat (rc_audioBytes r)) ++
  field "sampleRateHz" (jnat (rc_sampleRateHz r)) ++ field "channels" (jnat 1) ++ field "complete" (JBool true) ++
  field "engine" (JStr (rc_engine r)) ++ field "model" (JStr (rc_model r)) ++ field "decision" (jtext "transcribed").

(** [JSON.stringify] of such an object always succeeds; it keeps the order of the properties. *)
Definition stringify (fields : obj jsval) : jstr := default [] (encode (JObj fields)).

Definition ASR_RECEIPT_HMAC_DOMAIN : jstr := js "hacc/browser-outbound-speech-asr-receipt-hmac/v2" ++ [10%N].
Definition ASR_RECEIPT_DIGEST_DOMAIN : jstr := js "hacc/browser-outbound-speech-asr-receipt-digest/v2" ++ [10%N].

Definition independentSpeechAsrReceiptHmacMessage (r : Receipt) : jstr :=
  ASR_RECEIPT_HMAC_DOMAIN ++ stringify (canonicalReceiptCore r).
Definition independentSpeechAsrReceiptDigestMessage (r : Receipt) : jstr :=
  ASR_RECEIPT_DIGEST_DOMAIN ++
  stringify (canonicalReceiptCore r ++ field "receiptHmacSha256" (JStr (rc_receiptHmacSha256 r))).

(** The tests before the digests. *)
Definition receipt_bound (r : Receipt) (expected : AsrInput) : bool :=
  (rc_schemaVersion r =? 2) && UUID (rc_authorityId r) && (rc_organizationId r =?s ai_organizationId expected) &&
  (rc_callId r =?s ai_callId expected) && bool_decide (rc_provider r = ai_provider expected) &&
  (rc_responseId r =?s ai_responseId expected) && rc_complete r && (Z.of_nat (length (rc_text r)) <=? 32000) &&
  SHA256 (rc_transcriptSha256 r) && (rc_audioSha256 r =?s ai_audioSha256 expected) &&
  (rc_audioBytes r =? ai_audioBytes expected) &&
  (rc_audioBytes r =? Z.of_nat (length (au_data (ai_audio expected)))) &&
  (rc_sampleRateHz r =? fm_sampleRateHz (au_format (ai_audio expected))) && (rc_channels r =? 1) &&
  negb (bool_decide (rc_engine r = [])) && (length (rc_engine r) <=? 128)%nat &&
  negb (bool_decide (rc_model r = [])) && (length (rc_model r) <=? 128)%nat && (rc_decision r =?s js "transcribed") &&
  SHA256 (rc_receiptHmacSha256 r) && SHA256 (rc_receiptSha256 r).

(** With the digests of the text and of the receipt, when they could be computed. *)
Definition validAsrReceipt (r : Receipt) (expected : AsrInput) (digested : bool) : bool :=
  receipt_bound r expected && digested &&
  (sha256Hex (rc_text r) =?s rc_transcriptSha256 r) &&
  (sha256Hex (independentSpeechAsrReceiptDigestMessage r) =?s rc_receiptSha256 r).

(** ** Rules on text *)

Definition code_text (c : ViolationCode) : string :=
  match c with SecretEcho => "secret_echo" | ForbiddenTerminalClaim => "forbidden_terminal_claim" end.
Definition violation_key (v : Violation) : jstr :=
  js (code_text (vi_code v)) ++ [0%N] ++ vi_ruleId v ++ [0%N] ++ default [] (vi_secretFingerprintSha256 v).

Fixpoint deduplicate (seen : list jstr) (violations : list Violation) : list Violation :=
  match violations with
  | [] => []
  | v :: violations =>
      if includes (violation_key v) seen then deduplicate seen violations
      else v :: deduplicate (violation_key v :: seen) violations
  end.
Definition deduplicateViolations (violations : list Violation) : list Violation := deduplicate [] violations.

(** ** The state of a gate *)

(** What a finalisation holds across its awaits. *)
Record Progress := { pg_startedAtMs : Z; pg_aggregate : Audio; pg_audioSha256 : option jstr; pg_providerTranscriptSha256 : option jstr }.

Inductive Stage : Type :=
| HashingAudio (p : Progress)
| HashingTranscript (p : Progress) (text : jstr)
| Transcribing (p : Progress) (expected : AsrInput)
| CheckingReceipt (p : Progress) (expected : AsrInput) (r : Receipt)
| HashingText (p : Progress) (r : Receipt).

Record Gate := mkGate {
  g_responses : obj HeldResponse;
  g_decisions : obj Decision;
  g_pending : obj Stage;
}.

Definition remove {V} (id : jstr) (o : obj V) : obj V := List.filter (fun kv => negb (kv.1 =?s id)) o.

Definition hold (g : Gate) (id : jstr) (r : HeldResponse) : Gate :=
  mkGate (put id r (g_responses g)) (g_decisions g) (g_pending g).
Definition await (g : Gate) (id : jstr) (s : Stage) : Gate := mkGate (g_responses g) (g_decisions g) (put id s (g_pending g)).

(** The gate, and the result or what was thrown. *)
Definition outcome (A : Type) : Type := Gate * result GateError A.

Section Operations.
Context (policy : Policy).
(** [receiptContext] (organisation and call) and whether [independentAsr] is given. *)
Context (receiptContext : option (jstr * jstr)) (hasAsr : bool).

Definition new_held (provider : Provider) (startedAtMs : Z) : HeldResponse :=
  mkHeld provider startedAtMs None [] 0 (num 0) None None false None false.

Definition seal (reason : Reason) (r : HeldResponse) : HeldResponse :=
  mkHeld (h_provider r) (h_startedAtMs r) (h_terminal r) (h_chunks r) (h_audioBytes r) (h_audioDurationMs r) (h_format r)
    (h_providerTranscript r) (h_providerTranscriptFinal r) (Some reason) (h_finalized r).
Definition discard (r : HeldResponse) : HeldResponse :=
  mkHeld (h_provider r) (h_startedAtMs r) (h_terminal r) [] (h_audioBytes r) (h_audioDurationMs r) (h_format r)
    (h_providerTranscript r) (h_providerTranscriptFinal r) (h_sealedReason r) (h_finalized r).
Definition keep_audio (format : Format) (bytes : Z) (duration : double) (r : HeldResponse) : HeldResponse :=
  mkHeld (h_provider r) (h_startedAtMs r) (h_terminal r) (h_chunks r) bytes duration (Some format)
    (h_providerTranscript r) (h_providerTranscriptFinal r) (h_sealedReason r) (h_finalized r).
Definition push_chunk (audio : Audio) (r : HeldResponse) : HeldResponse :=
  mkHeld (h_provider r) (h_startedAtMs r) (h_terminal r) (h_chunks r ++ [audio]) (h_audioBytes r) (h_audioDurationMs r)
    (h_format r) (h_providerTranscript r) (h_providerTranscriptFinal r) (h_sealedReason r) (h_finalized r).
Definition set_transcript (text : jstr) (final : bool) (r : HeldResponse) : HeldResponse :=
  mkHeld (h_provider r) (h_startedAtMs r) (h_terminal r) (h_chunks r) (h_audioBytes r) (h_audioDurationMs r) (h_format r)
    (Some text) final (h_sealedReason r) (h_finalized r).
Definition set_terminal (t : Z) (s : TerminalStatus) (r : HeldResponse) : HeldResponse :=
  mkHeld (h_provider r) (h_startedAtMs r) (Some (t, s)) (h_chunks r) (h_audioBytes r) (h_audioDurationMs r) (h_format r)
    (h_providerTranscript r) (h_providerTranscriptFinal r) (h_sealedReason r) (h_finalized r).
Definition set_finalized (r : HeldResponse) : HeldResponse :=
  mkHeld (h_provider r) (h_startedAtMs r) (h_terminal r) (h_chunks r) (h_audioBytes r) (h_audioDurationMs r) (h_format r)
    (h_providerTranscript r) (h_providerTranscriptFinal r) (h_sealedReason r) true.

Definition late (r : HeldResponse) (t : Z) : bool := po_maxCollectionLatencyMs policy <? t - h_startedAtMs r.
Definition seal_if_late (t : Z) (r : HeldResponse) : HeldResponse :=
  if late r t then discard (seal CollectionLatencyExceeded r) else r.

Definition beginResponse (g : Gate) (provider : Provider) (id : jstr) (startedAtMs : Z) : outcome unit :=
  if negb (assertIdentity id) then (g, Err BadIdentity)
  else if negb (assertTimestamp startedAtMs) then (g, Err BadTimestamp)
  else if has_own id (g_responses g) || has_own id (g_decisions g) then (g, Err IdentityExists)
  else (hold g id (new_held provider startedAtMs), Ok ()).

Definition ensureCollecting (g : Gate) (provider : Provider) (id : jstr) (receivedAtMs : Z) : outcome HeldResponse :=
  if negb (assertIdentity id) then (g, Err BadIdentity)
  else if negb (assertTimestamp receivedAtMs) then (g, Err BadTimestamp)
  else
    let begun := match own id (g_responses g) with
                 | Some r => (g, Ok r)
                 | None =>
                     if has_own id (g_decisions g) then (g, Err Finalized)
                     else match beginResponse g provider id receivedAtMs with
                          | (g', Ok _) => (g', Ok (new_held provider receivedAtMs))
                          | (g', Err e) => (g', Err e)
                          end
                 end in
    match begun with
    | (g, Err e) => (g, Err e)
    | (g, Ok r) =>
        if negb (bool_decide (h_provider r = provider)) then (g, Err ProviderChanged)
        else if receivedAtMs <? h_startedAtMs r
             then let r' := seal InvalidAudioSequence r in (hold g id r', Ok r')
             else (g, Ok r)
    end.

(** [audio.data.byteLength / 2 / audio.sampleRateHz * 1_000] *)
Definition duration (audio : Audio) : double :=
  times (over (over (num (Z.of_nat (length (au_data audio)))) (num 2)) (num (fm_sampleRateHz (au_format audio)))) (num 1000).

Definition audio_ok (audio : Audio) : bool :=
  (fm_encoding (au_format audio) =?s js "pcm16") && (fm_channels (au_format audio) =? 1) &&
  (Z.abs (fm_sampleRateHz (au_format audio)) <=? ActionPolicy.MAX_SAFE) && (0 <? fm_sampleRateHz (au_format audio)) &&
  negb (length (au_data audio) =? 0)%nat && Nat.even (length (au_data audio)).

(** The response after a chunk of audio. *)
Definition add_audio (audio : Audio) (receivedAtMs : Z) (r : HeldResponse) : HeldResponse :=
  if negb (audio_ok audio) then seal InvalidAudioSequence r
  else if match h_format r with Some f => negb (bool_decide (f = au_format audio)) | None => false end
       then seal InvalidAudioSequence r
  else
    let r := keep_audio (au_format audio) (h_audioBytes r + Z.of_nat (length (au_data audio)))
               (plus (h_audioDurationMs r) (duration audio)) r in
    if (po_maxBufferedAudioBytes policy <? h_audioBytes r) ||
       gtb (h_audioDurationMs r) (num (po_maxBufferedAudioMs policy))
    then discard (seal BufferLimitExceeded r)
    else if late r receivedAtMs then discard (seal CollectionLatencyExceeded r)
    else push_chunk audio r.

Definition pushAudio (g : Gate) (provider : Provider) (id : jstr) (audio : Audio) (receivedAtMs : Z) : outcome unit :=
  match ensureCollecting g provider id receivedAtMs with
  | (g, Err e) => (g, Err e)
  | (g, Ok r) =>
      if bool_decide (is_Some (h_terminal r)) || h_finalized r then (g, Err AfterTerminal)
      else (hold g id (add_audio audio receivedAtMs r), Ok ())
  end.

Definition pushProviderTranscript (g : Gate) (provider : Provider) (id : jstr) (text : jstr) (final : bool) (receivedAtMs : Z)
  : outcome unit :=
  match ensureCollecting g provider id receivedAtMs with
  | (g, Err e) => (g, Err e)
  | (g, Ok r) =>
      if h_finalized r then (g, Err Finalized)
      else (hold g id (seal_if_late receivedAtMs (set_transcript text final r)), Ok ())
  end.

Definition markTerminal (g : Gate) (provider : Provider) (id : jstr) (status : TerminalStatus) (receivedAtMs : Z) : outcome unit :=
  match ensureCollecting g provider id receivedAtMs with
  | (g, Err e) => (g, Err e)
  | (g, Ok r) =>
      if bool_decide (is_Some (h_terminal r)) then (g, Err AlreadyTerminal)
      else (hold g id (seal_if_late receivedAtMs (set_terminal receivedAtMs status r)), Ok ())
  end.

Definition status (g : Gate) (id : jstr) : result GateError Status :=
  match own id (g_decisions g) with
  | Some d => Ok {| st_state := FinalizedState; st_responseId := id; st_audioBytes := de_audioBytes d;
                    st_audioDurationMs := de_audioDurationMs d; st_sealedReason := None |}
  | None =>
      match own id (g_responses g) with
      | None => Err UnknownResponse
      | Some r => Ok {| st_state := if bool_decide (is_Some (h_sealedReason r)) then SealedState
                                    else if bool_decide (is_Some (h_terminal r)) then TerminalState else CollectingState;
                        st_responseId := id; st_audioBytes := h_audioBytes r; st_audioDurationMs := h_audioDurationMs r;
                        st_sealedReason := h_sealedReason r |}
      end
  end.

Definition expireResponse (g : Gate) (id : jstr) (observedAtMs : Z) : outcome Status :=
  match own id (g_responses g) with
  | None => (g, Err UnknownResponse)
  | Some r =>
      if negb (assertTimestamp observedAtMs) then (g, Err BadTimestamp)
      else
        let g' := if negb (h_finalized r) && bool_decide (h_terminal r = None) &&
                     (po_maxCollectionLatencyMs policy <=? observedAtMs - h_startedAtMs r)
                  then hold g id (discard (set_terminal observedAtMs InterruptedStatus (seal CollectionLatencyExceeded r)))
                  else g in
        (g', status g' id)
  end.

(** ** Finalising *)

Definition evaluateText (text : jstr) (source : TextSource) : list Violation :=
  let normalized := normalizeSpeechText text in
  omap (fun s => let needle := normalizeSpeechText (se_value s) in
          if (4 <=? length needle)%nat && contains needle normalized
          then Some {| vi_code := SecretEcho; vi_ruleId := se_ruleId s;
                       vi_secretFingerprintSha256 := Some (se_fingerprintSha256 s); vi_source := source |}
          else None) (po_secrets policy) ++
  (if po_terminalClaimsAuthorized policy then []
   else omap (fun c => let needle := normalizeSpeechText (fc_phrase c) in
          if negb (bool_decide (needle = [])) && contains needle normalized
          then Some {| vi_code := ForbiddenTerminalClaim; vi_ruleId := fc_ruleId c; vi_secretFingerprintSha256 := None;
                       vi_source := source |}
          else None) (po_forbiddenTerminalClaims policy)).

Definition needsProvider : bool :=
  match po_evidencePolicy policy with ProviderTranscriptAllowed | BothRequired => true | IndependentAsrRequired => false end.
Definition needsAsr : bool :=
  match po_evidencePolicy policy with IndependentAsrRequired | BothRequired => true | ProviderTranscriptAllowed => false end.

(** [aggregateAudio]: the chunks fill the buffer, which has the length [audioBytes]. *)
Definition aggregateAudio (format : Format) (r : HeldResponse) : Audio :=
  let data := concat (au_data <$> h_chunks r) in
  {| au_format := format; au_data := data ++ replicate (Z.to_nat (h_audioBytes r) - length data) 0%N |}.

(** The transcript of the provider, once it is final. *)
Definition final_transcript (r : HeldResponse) : option jstr :=
  if h_providerTranscriptFinal r then h_providerTranscript r else None.

Definition empty_progress (startedAtMs : Z) : Progress :=
  {| pg_startedAtMs := startedAtMs; pg_aggregate := {| au_format := {| fm_encoding := []; fm_sampleRateHz := 0; fm_channels := 0 |}; au_data := [] |};
     pg_audioSha256 := None; pg_providerTranscriptSha256 := None |}.

(** The last part of [finalizeResponse]. [evidence] is the failure, or the coverage and the
    checked receipt. *)
Definition conclude (g : Gate) (id : jstr) (r : HeldResponse) (p : Progress)
    (evidence : result Reason (Coverage * option Receipt)) (now : Z) : outcome (option Decision) :=
  let failure := Withhold (po_onEvidenceFailure policy) in
  let violations :=
    match evidence with
    | Ok (_, receipt) => deduplicateViolations
        (match final_transcript r with Some t => evaluateText t FromProvider | None => [] end ++
         match receipt with Some c => evaluateText (rc_text c) FromAsr | None => [] end)
    | Err _ => []
    end in
  let '(reason, action, coverage) :=
    match evidence with
    | Err reason => (reason, failure, NoCoverage)
    | Ok (coverage, _) => if bool_decide (length violations = 0)%nat then (PolicyPass, Release, coverage)
                          else (PolicyViolation, Withhold (po_onViolation policy), coverage)
    end in
  let latency := Z.max 0 (now - pg_startedAtMs p) in
  let expired := (po_maxDecisionLatencyMs policy <? latency) && bool_decide (action = Release) in
  let action' := if expired then failure else action in
  let receipt := match evidence with Ok (_, receipt) => receipt | Err _ => None end in
  let d := {| de_responseId := id; de_provider := h_provider r; de_action := action';
              de_reason := if expired then EvidenceTimeout else reason;
              de_evidenceCoverage := if bool_decide (action' = Release) then coverage else NoCoverage;
              de_audioSha256 := pg_audioSha256 p; de_audioBytes := h_audioBytes r; de_audioDurationMs := h_audioDurationMs r;
              de_providerTranscriptSha256 := pg_providerTranscriptSha256 p;
              de_independentAsrTranscriptSha256 := (fun c => sha256Hex (rc_text c)) <$> receipt;
              de_independentAsrReceiptSha256 := rc_receiptSha256 <$> receipt; de_violations := violations;
              de_collectionLatencyMs := match h_terminal r with Some (t, _) => Z.max 0 (t - h_startedAtMs r) | None => 0 end;
              de_decisionLatencyMs := latency;
              de_audio := if bool_decide (action' = Release) then Some (h_chunks r) else None |} in
  (mkGate (remove id (g_responses g)) (put id d (g_decisions g)) (remove id (g_pending g)), Ok (Some d)).

(** Waiting for the next answer: there is no decision yet. *)
Definition pause (g : Gate) (id : jstr) (s : Stage) : outcome (option Decision) := (await g id s, Ok None).

(** From the digests to the transcription. *)
Definition consult (g : Gate) (id : jstr) (r : HeldResponse) (p : Progress) (now : Z) : outcome (option Decision) :=
  if needsProvider && negb (h_providerTranscriptFinal r) then conclude g id r p (Err EvidenceUnavailable) now
  else if needsAsr then
    match receiptContext with
    | Some (organizationId, callId) =>
        if hasAsr then
          pause g id (Transcribing p
            {| ai_organizationId := organizationId; ai_callId := callId; ai_responseId := id; ai_provider := h_provider r;
               ai_audio := pg_aggregate p; ai_audioSha256 := default [] (pg_audioSha256 p); ai_audioBytes := h_audioBytes r;
               ai_audioDurationMs := h_audioDurationMs r;
               ai_deadlineAtMs := pg_startedAtMs p + po_maxDecisionLatencyMs policy |})
        else conclude g id r p (Err EvidenceUnavailable) now
    | None => conclude g id r p (Err EvidenceUnavailable) now
    end
  else conclude g id r p (Ok (ProviderTranscriptUnbound, None)) now.

(** [now] is read when finalisation starts and [later] when it is decided at once. *)
Definition finalizeResponse (g : Gate) (id : jstr) (now later : Z) : outcome (option Decision) :=
  match own id (g_decisions g) with
  | Some d => (g, Ok (Some d))
  | None =>
      match own id (g_responses g) with
      | None => (g, Err UnknownResponse)
      | Some r =>
          if h_finalized r then (g, Err InProgress)
          else
            match h_terminal r with
            | None => (g, Err NotTerminal)
            | Some (_, status) =>
                let r := set_finalized r in
                let g := hold g id r in
                let p := empty_progress now in
                match h_sealedReason r with
                | Some reason => conclude g id r p (Err reason) later
                | None =>
                    if negb (bool_decide (status = Completed)) then conclude g id r p (Err TerminalNotCompleted) later
                    else
                      match h_format r, h_chunks r with
                      | None, _ | _, [] => conclude g id r p (Err EvidenceUnavailable) later
                      | Some format, _ :: _ =>
                          pause g id (HashingAudio {| pg_startedAtMs := now; pg_aggregate := aggregateAudio format r;
                                                      pg_audioSha256 := None; pg_providerTranscriptSha256 := None |})
                      end
                end
            end
      end
  end.

(** The answer to an awaited call. *)
Inductive Reply : Type := Resolved | Rejected | Transcribed (r : Receipt) | TimedOut.
Definition resolved (reply : Reply) : bool := match reply with Resolved => true | _ => false end.

(** The rest of a finalisation after an answer, up to the next await; [now] is the clock then. *)
Definition resume (g : Gate) (id : jstr) (reply : Reply) (now : Z) : outcome (option Decision) :=
  match own id (g_pending g), own id (g_responses g) with
  | Some stage, Some r =>
      match stage with
      | HashingAudio p =>
          if resolved reply then
            let p := {| pg_startedAtMs := pg_startedAtMs p; pg_aggregate := pg_aggregate p;
                        pg_audioSha256 := Some (digest (au_data (pg_aggregate p))); pg_providerTranscriptSha256 := None |} in
            match final_transcript r with Some text => pause g id (HashingTranscript p text) | None => consult g id r p now end
          else conclude g id r p (Err EvidenceUnavailable) now
      | HashingTranscript p text =>
          if resolved reply then
            consult g id r {| pg_startedAtMs := pg_startedAtMs p; pg_aggregate := pg_aggregate p; pg_audioSha256 := pg_audioSha256 p;
                              pg_providerTranscriptSha256 := Some (sha256Hex text) |} now
          else conclude g id r p (Err EvidenceUnavailable) now
      | Transcribing p expected =>
          match reply with
          | Transcribed receipt => pause g id (CheckingReceipt p expected receipt)
          | TimedOut => conclude g id r p (Err EvidenceTimeout) now
          | Resolved | Rejected => conclude g id r p (Err EvidenceUnavailable) now
          end
      | CheckingReceipt p expected receipt =>
          if validAsrReceipt receipt expected (resolved reply) then pause g id (HashingText p receipt)
          else conclude g id r p (Err EvidenceMismatch) now
      | HashingText p receipt =>
          if resolved reply then conclude g id r p (Ok (ExactBufferedPcm, Some receipt)) now
          else conclude g id r p (Err EvidenceUnavailable) now
      end
  | _, _ => (g, Err UnknownResponse)
  end.

(** ** The event stream *)

Inductive RealtimeEvent : Type :=
| ResponseStarted (provider : Provider) (id : jstr) (receivedAtMs : Z)
| OutputAudio (provider : Provider) (id : jstr) (format : Format) (audio : list N) (receivedAtMs : Z)
| OutputTranscript (provider : Provider) (id : jstr) (text : jstr) (final : bool) (receivedAtMs : Z)
| ResponseCompleted (provider : Provider) (id : jstr) (terminal : TerminalStatus) (receivedAtMs : Z)
| OtherEvent.

Definition then_status (o : outcome unit) (id : jstr) : outcome (option Status) :=
  match o with
  | (g, Err e) => (g, Err e)
  | (g, Ok _) => (g, let* s := status g id in Ok (Some s))
  end.

Definition observe (g : Gate) (event : RealtimeEvent) : outcome (option Status) :=
  match event with
  | ResponseStarted provider id t => then_status (beginResponse g provider id t) id
  | OutputAudio provider id format audio t => then_status (pushAudio g provider id {| au_format := format; au_data := audio |} t) id
  | OutputTranscript provider id text final t => then_status (pushProviderTranscript g provider id text final t) id
  | ResponseCompleted provider id terminal t => then_status (markTerminal g provider id terminal t) id
  | OtherEvent => (g, Ok None)
  end.

End Operations.

(** The constructor. *)
Definition createGate (policy : Policy) : result GateError (Policy * Gate) :=
  let* policy := createOutboundSpeechGatePolicy policy in Ok (policy, mkGate [] [] []).

End Gate.

End SpeechGate.
