(* ===== verification/SpeechGateProps.v ===== *)
(** * What the speech gate guarantees

    The invariant of a gate under every interleaving of its operations with the answers that
    its finalisations wait for, and what follows from it: released audio was checked byte for
    byte, held audio is bounded, decisions are final and finalisations come to an end. *)

From S2P Require Import Prelude JsValue JsText Canonical Graph Flow FlowValidate FlowRuntime ActionPolicy Doubles SpeechGate.
Import Doubles SpeechGate.

Local Open Scope Z_scope.

Module SpeechGateProps.

(** ** Text *)

Definition substring (needle s : jstr) : Prop := exists a b, s = a ++ needle ++ b.

Lemma starts_with_iff needle : forall s, starts_with needle s = true <-> exists b, s = needle ++ b.
Proof.
  induction needle as [|c needle IH]; intros s; [split; [by exists s|done]|].
  destruct s as [|d s]; simpl; [split; [done|by intros []]|].
  rewrite andb_true_iff, N.eqb_eq, IH. split.
  - intros [-> [b ->]]. by exists b.
  - intros [b [= -> ->]]. eauto.
Qed.

Lemma contains_iff needle s : contains needle s = true <-> substring needle s.
Proof.
  induction s as [|c s IH].
  - simpl. rewrite orb_false_r, starts_with_iff. split.
    + intros [b ->]. by exists [], b.
    + intros (a & b & E). symmetry in E. apply app_eq_nil in E as [_ [-> ->]%app_eq_nil]. by exists [].
  - cbn [contains]. rewrite orb_true_iff, starts_with_iff, IH. split.
    + intros [[b E]|(a & b & ->)]; [by exists [], b|by exists (c :: a), b].
    + intros (a & b & E). destruct a as [|c' a]; [left; by exists b|]. right. injection E as -> ->. by exists a, b.
Qed.

Section Gate.
Context `{UnicodeTables} `{Digest}.
Context (policy : Policy) (Hpolicy : validatePolicy policy = Ok tt).
Context (receiptContext : option (jstr * jstr)) (hasAsr : bool).

(** No secret is spoken, and no forbidden claim unless claims are authorised. *)
Definition clean (text : jstr) : Prop :=
  (forall s, s ∈ po_secrets policy -> ~ substring (normalizeSpeechText (se_value s)) (normalizeSpeechText text)) /\
  (po_terminalClaimsAuthorized policy = false -> forall c, c ∈ po_forbiddenTerminalClaims policy ->
     ~ substring (normalizeSpeechText (fc_phrase c)) (normalizeSpeechText text)).

Lemma validate_secrets_long ids l ids' s : validate_secrets ids l = Ok ids' -> s ∈ l ->
  (4 <= length (normalizeSpeechText (se_value s)))%nat.
Proof.
  revert ids. induction l as [|x l IH]; simpl; intros ids Hv Hs; [by apply elem_of_nil in Hs|].
  split_guards Hv. apply elem_of_cons in Hs as [->|Hs]; [|by eapply IH].
  by apply Nat.ltb_ge.
Qed.

Lemma validate_claims_nonempty ids l ids' c : validate_claims ids l = Ok ids' -> c ∈ l -> normalizeSpeechText (fc_phrase c) <> [].
Proof.
  revert ids. induction l as [|x l IH]; simpl; intros ids Hv Hs; [by apply elem_of_nil in Hs|].
  split_guards Hv. to_prop. apply elem_of_cons in Hs as [->|Hs]; [done|by eapply IH].
Qed.

Lemma policy_rules : (forall s, s ∈ po_secrets policy -> (4 <= length (normalizeSpeechText (se_value s)))%nat) /\
  (forall c, c ∈ po_forbiddenTerminalClaims policy -> normalizeSpeechText (fc_phrase c) <> []).
Proof using Hpolicy.
  unfold validatePolicy in Hpolicy. destruct (negb _); [done|].
  destruct (validate_secrets [] _) as [ids|] eqn:Es; [|done]. simpl in Hpolicy.
  destruct (validate_claims ids _) as [ids'|] eqn:Ec; [|done].
  split; [intros s; by apply (validate_secrets_long [] _ ids)|intros c; by apply (validate_claims_nonempty ids _ ids')].
Qed.

Lemma omap_nil {A B} (f : A -> option B) l : omap f l = [] <-> forall x, x ∈ l -> f x = None.
Proof.
  induction l as [|x l IH]; [split; [intros _ x Hx; by apply elem_of_nil in Hx|done]|]. cbn.
  destruct (f x) eqn:E.
  - split; [done|]. intros Hx. rewrite Hx in E; [done|left].
  - rewrite IH. split; [intros Hl y [->|Hy]%elem_of_cons; auto|intros Hl y Hy; apply Hl; by right].
Qed.

Lemma evaluate_clean text source : evaluateText policy text source = [] <-> clean text.
Proof using Hpolicy.
  destruct policy_rules as [Hlong Hne]. unfold evaluateText, clean.
  transitivity ((forall s, s ∈ po_secrets policy -> ~ substring (normalizeSpeechText (se_value s)) (normalizeSpeechText text)) /\
    (if po_terminalClaimsAuthorized policy then True else forall c, c ∈ po_forbiddenTerminalClaims policy ->
       ~ substring (normalizeSpeechText (fc_phrase c)) (normalizeSpeechText text))).
  2:{ destruct (po_terminalClaimsAuthorized policy); naive_solver. }
  assert (Hdiv : forall l l' : list Violation, l ++ l' = [] <-> l = [] /\ l' = []) by (intros [] ?; simpl; naive_solver).
  rewrite Hdiv, omap_nil. f_equiv.
  - apply forall_proper. intros s. split; intros Hs Hin; specialize (Hs Hin).
    + rewrite <- contains_iff. destruct (contains _ _); [|done]. specialize (Hlong s Hin). apply Nat.leb_le in Hlong.
      by rewrite Hlong in Hs.
    + rewrite <- contains_iff, not_true_iff_false in Hs. by rewrite Hs, andb_false_r.
  - destruct (po_terminalClaimsAuthorized policy); [done|]. rewrite omap_nil. apply forall_proper. intros c.
    split; intros Hs Hin; specialize (Hs Hin).
    + rewrite <- contains_iff. destruct (contains _ _); [|done]. rewrite bool_decide_false in Hs; [done|by apply Hne].
    + rewrite <- contains_iff, not_true_iff_false in Hs. by rewrite Hs, andb_false_r.
Qed.

Lemma deduplicate_nil seen l : deduplicate seen l = [] -> (forall v, v ∈ l -> violation_key v ∉ seen) -> l = [].
Proof.
  destruct l as [|v l]; [done|]. simpl. destruct (includes _ _) eqn:E; [|done]. intros _ Hs. to_prop.
  destruct (Hs v); [left|done].
Qed.

Lemma deduplicateViolations_nil l : deduplicateViolations l = [] <-> l = [].
Proof. split; [|by intros ->]. intros E. apply (deduplicate_nil [] l E). intros v _ Hv. by apply elem_of_nil in Hv. Qed.

(** ** Histories *)

Inductive Op : Type :=
| Begin (provider : Provider) (id : jstr) (t : Z)
| Push (provider : Provider) (id : jstr) (audio : Audio) (t : Z)
| Say (provider : Provider) (id : jstr) (text : jstr) (isFinal : bool) (t : Z)
| End_ (provider : Provider) (id : jstr) (terminal : TerminalStatus) (t : Z)
| Expire (id : jstr) (t : Z)
| Finalize (id : jstr) (now later : Z)
| Resume (id : jstr) (reply : Reply) (now : Z).

Definition passed {A} (o : outcome A) : Gate * bool := (o.1, match o.2 with Ok _ => true | Err _ => false end).

(** The gate after an operation, and whether it threw. *)
Definition run (op : Op) (g : Gate) : Gate * bool :=
  match op with
  | Begin provider id t => passed (beginResponse g provider id t)
  | Push provider id audio t => passed (pushAudio policy g provider id audio t)
  | Say provider id text isFinal t => passed (pushProviderTranscript policy g provider id text isFinal t)
  | End_ provider id terminal t => passed (markTerminal policy g provider id terminal t)
  | Expire id t => passed (expireResponse policy g id t)
  | Finalize id now later => passed (finalizeResponse policy g id now later)
  | Resume id reply now => passed (resume policy receiptContext hasAsr g id reply now)
  end.

(** The operations on a new gate, in order, each with whether it went through. *)
Inductive reached : list (Op * bool) -> Gate -> Prop :=
| reached_new : reached [] (mkGate [] [] [])
| reached_run tr g op : reached tr g -> reached (tr ++ [(op, (run op g).2)]) (run op g).1.

(** The stream of events does what the operations do. *)
Lemma observe_runs g e : (observe policy g e).1 = g \/ exists op, (observe policy g e).1 = (run op g).1.
Proof.
  destruct e as [provider id t|provider id format data t|provider id text isFinal t|provider id terminal t|]; [right..|by left].
  - exists (Begin provider id t). simpl. by destruct (beginResponse _ _ _ _) as [? []].
  - exists (Push provider id {| au_format := format; au_data := data |} t). simpl. by destruct (pushAudio _ _ _ _ _ _) as [? []].
  - exists (Say provider id text isFinal t). simpl. by destruct (pushProviderTranscript _ _ _ _ _ _ _) as [? []].
  - exists (End_ provider id terminal t). simpl. by destruct (markTerminal _ _ _ _ _ _) as [? []].
Qed.

(** The audio that was accepted for a response, and what the provider said it says. *)
Definition audio_of (id : jstr) (x : Op * bool) : option Audio :=
  match x with (Push _ id' audio _, true) => if id' =?s id then Some audio else None | _ => None end.
Definition text_of (id : jstr) (x : Op * bool) : option (jstr * bool) :=
  match x with (Say _ id' text isFinal _, true) => if id' =?s id then Some (text, isFinal) else None | _ => None end.
Definition accepted (tr : list (Op * bool)) (id : jstr) : list Audio := omap (audio_of id) tr.
Definition said (tr : list (Op * bool)) (id : jstr) : option (jstr * bool) := last (omap (text_of id) tr).
Definition answered (tr : list (Op * bool)) (id : jstr) (r : Receipt) : Prop :=
  exists now ok, (Resume id (Transcribed r) now, ok) ∈ tr.

Definition bytes (l : list Audio) : list N := concat (au_data <$> l).
Definition total (l : list Audio) : Z := Z.of_nat (length (bytes l)).
(** The sum of the durations, added up in the order of the chunks. *)
Definition length_ms (l : list Audio) : double := foldl (fun sum a => plus sum (duration a)) (num 0) l.

(** ** The invariant *)

(** The response holds exactly the accepted audio, within the limits. *)
Record collected (l : list Audio) (r : HeldResponse) : Prop := {
  co_chunks : h_chunks r = l;
  co_bytes : h_audioBytes r = total l /\ total l <= po_maxBufferedAudioBytes policy;
  co_duration : h_audioDurationMs r = length_ms l /\ leb (length_ms l) (num (po_maxBufferedAudioMs policy)) = true;
  co_format : forall a, a ∈ l -> audio_ok a = true /\ h_format r = Some (au_format a);
  co_terminal : forall t s, h_terminal r = Some (t, s) -> t - h_startedAtMs r <= po_maxCollectionLatencyMs policy;
}.

Record response_inv (l : list Audio) (sd : option (jstr * bool)) (r : HeldResponse) : Prop := {
  ri_transcript : h_providerTranscript r = fst <$> sd /\
    h_providerTranscriptFinal r = match sd with Some (_, b) => b | None => false end;
  ri_held : total (h_chunks r) <= h_audioBytes r /\ total (h_chunks r) <= po_maxBufferedAudioBytes policy;
  ri_collected : h_sealedReason r = None -> collected l r;
}.

(** What a finalisation knows of the audio and of the transcript. *)
Definition aggregated (l : list Audio) (r : HeldResponse) (p : Progress) : Prop :=
  au_data (pg_aggregate p) = bytes l /\ h_format r = Some (au_format (pg_aggregate p)).
Definition consulted (l : list Audio) (r : HeldResponse) (p : Progress) : Prop :=
  aggregated l r p /\ pg_audioSha256 p = Some (digest (bytes l)) /\
  pg_providerTranscriptSha256 p = sha256Hex <$> final_transcript r.
(** What is asked of the transcription. *)
Definition expects (id : jstr) (l : list Audio) (r : HeldResponse) (p : Progress) (e : AsrInput) : Prop :=
  (needsProvider policy = true -> h_providerTranscriptFinal r = true) /\ needsAsr policy = true /\
  exists organizationId callId, receiptContext = Some (organizationId, callId) /\
    e = {| ai_organizationId := organizationId; ai_callId := callId; ai_responseId := id; ai_provider := h_provider r;
           ai_audio := pg_aggregate p; ai_audioSha256 := digest (bytes l); ai_audioBytes := h_audioBytes r;
           ai_audioDurationMs := h_audioDurationMs r; ai_deadlineAtMs := pg_startedAtMs p + po_maxDecisionLatencyMs policy |}.

Definition stage_knows (tr : list (Op * bool)) (id : jstr) (l : list Audio) (r : HeldResponse) (s : Stage) : Prop :=
  match s with
  | HashingAudio p => aggregated l r p
  | HashingTranscript p text =>
      aggregated l r p /\ pg_audioSha256 p = Some (digest (bytes l)) /\ final_transcript r = Some text
  | Transcribing p e => consulted l r p /\ expects id l r p e
  | CheckingReceipt p e c => consulted l r p /\ expects id l r p e /\ answered tr id c
  | HashingText p c => consulted l r p /\ answered tr id c /\ exists e, expects id l r p e /\ validAsrReceipt c e true = true
  end.

Record stage_inv (tr : list (Op * bool)) (id : jstr) (l : list Audio) (r : HeldResponse) (s : Stage) : Prop := {
  si_finalized : h_finalized r = true;
  si_terminal : exists t, h_terminal r = Some (t, Completed);
  si_collected : collected l r;
  si_audible : l <> [];
  si_knows : stage_knows tr id l r s;
}.

(** A receipt of the transcription of exactly this audio for this response and call. *)
Record bound (id : jstr) (l : list Audio) (provider : Provider) (c : Receipt) : Prop := {
  bo_context : receiptContext = Some (rc_organizationId c, rc_callId c);
  bo_response : rc_responseId c = id /\ rc_provider c = provider;
  bo_audio : rc_audioSha256 c = digest (bytes l) /\ rc_audioBytes c = total l;
  bo_text : rc_transcriptSha256 c = sha256Hex (rc_text c);
  bo_receipt : rc_receiptSha256 c = sha256Hex (independentSpeechAsrReceiptDigestMessage c);
}.

(** What holds of every release. *)
Record released (tr : list (Op * bool)) (id : jstr) (l : list Audio) (sd : option (jstr * bool)) (d : Decision) : Prop := {
  rl_audio : de_audio d = Some l /\ l <> [] /\ de_audioSha256 d = Some (digest (bytes l)) /\ de_audioBytes d = total l;
  rl_format : exists f, forall a, a ∈ l -> audio_ok a = true /\ au_format a = f;
  rl_limits : total l <= po_maxBufferedAudioBytes policy /\ leb (length_ms l) (num (po_maxBufferedAudioMs policy)) = true /\
    de_collectionLatencyMs d <= po_maxCollectionLatencyMs policy /\ de_decisionLatencyMs d <= po_maxDecisionLatencyMs policy;
  rl_transcript : match sd with
    | Some (text, true) => de_providerTranscriptSha256 d = Some (sha256Hex text) /\ clean text
    | _ => needsProvider policy = false
    end;
  rl_asr : needsAsr policy = true -> exists c, answered tr id c /\ bound id l (de_provider d) c /\ clean (rc_text c) /\
    de_independentAsrReceiptSha256 d = Some (rc_receiptSha256 c) /\ de_evidenceCoverage d = ExactBufferedPcm;
}.

(** An identity is unknown, held (perhaps while it is finalised), or decided. *)
Definition slot_ok (tr : list (Op * bool)) (id : jstr) (held : option HeldResponse) (decided : option Decision)
    (pending : option Stage) : Prop :=
  match held, decided with
  | None, None => accepted tr id = [] /\ said tr id = None /\ pending = None
  | Some r, None => response_inv (accepted tr id) (said tr id) r /\
      match pending with
      | Some s => stage_inv tr id (accepted tr id) r s
      | None => h_finalized r = false
      end
  | None, Some d => pending = None /\ (de_action d = Release -> released tr id (accepted tr id) (said tr id) d)
  | Some _, Some _ => False
  end.

Definition gate_ok (tr : list (Op * bool)) (g : Gate) : Prop :=
  forall id, slot_ok tr id (own id (g_responses g)) (own id (g_decisions g)) (own id (g_pending g)).

(** An operation that did not accept audio or text for the response. *)
Definition silent (x : Op * bool) (id : jstr) : Prop := audio_of id x = None /\ text_of id x = None.

Lemma accepted_chunks_snoc tr x id : accepted (tr ++ [x]) id = accepted tr id ++ option_list (audio_of id x).
Proof. unfold accepted. rewrite omap_app. simpl. by destruct (audio_of id x). Qed.

Lemma said_snoc tr x id : said (tr ++ [x]) id = match text_of id x with Some t => Some t | None => said tr id end.
Proof.
  unfold said. rewrite omap_app. simpl. destruct (text_of id x); [by rewrite last_snoc|by rewrite app_nil_r].
Qed.

Lemma silent_view tr x id : silent x id -> accepted (tr ++ [x]) id = accepted tr id /\ said (tr ++ [x]) id = said tr id.
Proof. intros [E1 E2]. by rewrite accepted_chunks_snoc, said_snoc, E1, E2, app_nil_r. Qed.

Lemma answered_snoc tr x id c : answered tr id c -> answered (tr ++ [x]) id c.
Proof. intros (now & ok & Hin). exists now, ok. apply elem_of_app. by left. Qed.

Lemma stage_inv_snoc tr x id l r s : stage_inv tr id l r s -> stage_inv (tr ++ [x]) id l r s.
Proof.
  intros [I1 I2 I3 I4 I5]. constructor; try done. destruct s; simpl in *; try done.
  - destruct I5 as (? & ? & ?). split_and!; try done. by apply answered_snoc.
  - destruct I5 as (? & ? & ?). split_and!; try done. by apply answered_snoc.
Qed.

Lemma released_snoc tr x id l sd d : released tr id l sd d -> released (tr ++ [x]) id l sd d.
Proof.
  intros [I1 I2 I3 I4 I5]. constructor; try done. intros Hn. destruct (I5 Hn) as (c & ? & ?). exists c.
  split; [by apply answered_snoc|done].
Qed.

Lemma slot_mono tr x id ro dc so : silent x id -> slot_ok tr id ro dc so -> slot_ok (tr ++ [x]) id ro dc so.
Proof.
  intros Hx. destruct (silent_view tr x id Hx) as [E1 E2]. unfold slot_ok. rewrite E1, E2.
  destruct ro, dc; try done.
  - intros [? Hs]. split; [done|]. destruct so; [by apply stage_inv_snoc|done].
  - intros [? Hs]. split; [done|]. intros Hr. by apply released_snoc, Hs.
Qed.

Lemma gate_unchanged tr x g : (forall id, silent x id) -> gate_ok tr g -> gate_ok (tr ++ [x]) g.
Proof. intros Hx Hg id. by apply slot_mono. Qed.

(** Only one identity is concerned. *)
Lemma gate_step tr x g g' id : gate_ok tr g -> (forall id', id' <> id -> silent x id') ->
  (forall id', id' <> id -> own id' (g_responses g') = own id' (g_responses g) /\
     own id' (g_decisions g') = own id' (g_decisions g) /\ own id' (g_pending g') = own id' (g_pending g)) ->
  slot_ok (tr ++ [x]) id (own id (g_responses g')) (own id (g_decisions g')) (own id (g_pending g')) ->
  gate_ok (tr ++ [x]) g'.
Proof.
  intros Hg Hx Hf Hid id'. destruct (decide (id' = id)) as [->|Hne]; [done|].
  destruct (Hf id' Hne) as (-> & -> & ->). apply slot_mono; auto.
Qed.

(** ** Collecting *)

Definition frame (id : jstr) (g g' : Gate) : Prop :=
  forall id', id' <> id -> own id' (g_responses g') = own id' (g_responses g) /\
    own id' (g_decisions g') = own id' (g_decisions g) /\ own id' (g_pending g') = own id' (g_pending g).

Lemma frame_refl id g : frame id g g.
Proof. by intros id' _. Qed.

Lemma frame_trans id g g1 g2 : frame id g g1 -> frame id g1 g2 -> frame id g g2.
Proof. intros F1 F2 id' Hne. destruct (F1 id' Hne) as (<- & <- & <-). by apply F2. Qed.

Lemma frame_hold id r g : frame id g (hold g id r).
Proof. intros id' Hne. simpl. by rewrite own_put_ne. Qed.

Lemma policy_limits : 1 <= po_maxBufferedAudioBytes policy /\ 1 <= po_maxBufferedAudioMs policy /\
  1 <= po_maxCollectionLatencyMs policy /\ 1 <= po_maxDecisionLatencyMs policy.
Proof using Hpolicy.
  unfold validatePolicy in Hpolicy. destruct (forallb _ _) eqn:E; [|done]. simpl in E. to_prop. lia.
Qed.

Lemma new_held_inv provider t : response_inv [] None (new_held provider t).
Proof using Hpolicy.
  destruct policy_limits as (L1 & L2 & L3 & L4). constructor; [done|unfold total; simpl; lia|]. intros _.
  constructor; simpl; try done.
  - unfold total. simpl. lia.
  - split; [done|]. apply leb_zero, num_nonneg; lia.
  - intros a Ha. by apply elem_of_nil in Ha.
Qed.

Lemma seal_slot tr id r so reason : slot_ok tr id (Some r) None so -> slot_ok tr id (Some (seal reason r)) None so.
Proof.
  simpl. intros [[I1 I2 I3] Hs]. split; [by constructor|]. destruct so as [s|]; [|done].
  destruct Hs as [S1 S2 [C1 C2 C3 C4 C5] S4 S5]. by constructor.
Qed.

(** [ensureCollecting] finds, starts or seals the response. *)
Lemma ensure_spec tr g provider id t g' res : gate_ok tr g -> ensureCollecting g provider id t = (g', res) ->
  match res with
  | Err _ => g' = g
  | Ok r => frame id g g' /\ own id (g_responses g') = Some r /\ own id (g_decisions g') = None /\
      slot_ok tr id (Some r) None (own id (g_pending g'))
  end.
Proof using Hpolicy.
  intros Hg E. pose proof (Hg id) as Hid. unfold ensureCollecting in E.
  destruct (negb (assertIdentity id)) eqn:Ha; [by simplify_eq|].
  destruct (negb (assertTimestamp t)) eqn:Ht; [by simplify_eq|].
  destruct (own id (g_responses g)) as [r|] eqn:Hr.
  - destruct (own id (g_decisions g)) as [d|] eqn:Hd; [done|].
    destruct (negb (bool_decide _)); [by simplify_eq|]. destruct (t <? _); simplify_eq.
    + split_and!; [apply frame_hold|apply own_put_eq|done|by apply seal_slot].
    + split_and!; [apply frame_refl|done|done|done].
  - destruct (own id (g_decisions g)) as [d|] eqn:Hd.
    + assert (Hh : has_own id (g_decisions g) = true) by (apply has_own_iff, own_is_Some; by rewrite Hd).
      rewrite Hh in E. by simplify_eq.
    + assert (Hh : forall {V} (o : obj V), own id o = None -> has_own id o = false).
      { intros V o Ho. apply has_own_false. rewrite <- own_is_Some, Ho. by intros []. }
      unfold beginResponse in E. rewrite (Hh _ _ Hd), (Hh _ _ Hr), Ha, Ht in E. simpl in E.
      rewrite bool_decide_true, Z.ltb_irrefl in E by done. simpl in E. simplify_eq. simpl in Hid. destruct Hid as (E1 & E2 & E3).
      split_and!; [apply frame_hold|apply own_put_eq|done|]. simpl. rewrite E1, E2, E3. split; [apply new_held_inv|done].
Qed.

(** The response may be replaced before it is finalised. *)
Lemma replace_slot tr x id r r' so : slot_ok tr id (Some r) None so -> h_finalized r = false -> h_finalized r' = false ->
  (response_inv (accepted tr id) (said tr id) r -> response_inv (accepted (tr ++ [x]) id) (said (tr ++ [x]) id) r') ->
  slot_ok (tr ++ [x]) id (Some r') None so.
Proof.
  simpl. intros [Hr Hs] Hf Hf' Himp. split; [auto|]. destruct so as [s|]; [|done].
  destruct Hs as [S1 _ _ _ _]. congruence.
Qed.

(** An operation that collects: it throws, or replaces the response. *)
Lemma collect_ok tr g provider id t g1 res op (g' : Gate) ok :
  gate_ok tr g -> ensureCollecting g provider id t = (g1, res) ->
  (forall id' b, id' <> id -> silent (op, b) id') -> silent (op, false) id ->
  match res with
  | Err _ => g' = g1 /\ ok = false
  | Ok r => (g' = g1 /\ ok = false) \/
      exists r', g' = hold g1 id r' /\ ok = true /\ h_finalized r = false /\ h_finalized r' = false /\
        (response_inv (accepted tr id) (said tr id) r ->
         response_inv (accepted (tr ++ [(op, true)]) id) (said (tr ++ [(op, true)]) id) r')
  end -> gate_ok (tr ++ [(op, ok)]) g'.
Proof using Hpolicy.
  intros Hg E Hne Hid Hres. pose proof (ensure_spec tr g provider id t g1 res Hg E) as Hspec.
  destruct res as [r|e].
  - destruct Hspec as (Hf & Hr & Hd & Hslot). destruct Hres as [[-> ->]|(r' & -> & -> & F1 & F2 & Himp)].
    + eapply gate_step; [exact Hg|intros; by apply Hne|exact Hf|]. rewrite Hr, Hd. by apply slot_mono.
    + eapply gate_step; [exact Hg|intros; by apply Hne|by eapply frame_trans, frame_hold|]. simpl.
      rewrite own_put_eq, Hd. by apply replace_slot with r.
  - subst g1. destruct Hres as [-> ->]. apply gate_unchanged; [|done].
    intros id'. destruct (decide (id' = id)) as [->|?]; auto.
Qed.

Lemma bytes_snoc l a : bytes (l ++ [a]) = bytes l ++ au_data a.
Proof. unfold bytes. by rewrite fmap_app, concat_app, <- (app_nil_r (au_data a)) at 1. Qed.

Lemma total_snoc l a : total (l ++ [a]) = total l + Z.of_nat (length (au_data a)).
Proof. unfold total. rewrite bytes_snoc, length_app. lia. Qed.

Lemma length_ms_snoc l a : length_ms (l ++ [a]) = plus (length_ms l) (duration a).
Proof. unfold length_ms. by rewrite foldl_app. Qed.

Lemma duration_nonneg a : audio_ok a = true -> nonneg (duration a) = true.
Proof.
  intros Ha. unfold audio_ok in Ha. to_prop. unfold duration, ActionPolicy.MAX_SAFE in *.
  apply times_nonneg; [|done]. apply over_nonneg; [|apply num_finite; lia]. apply over_nonneg; [apply num_nonneg; lia|done].
Qed.

Lemma length_ms_nonneg l : (forall a, a ∈ l -> audio_ok a = true) -> nonneg (length_ms l) = true.
Proof.
  induction l as [|a l IH] using rev_ind; [done|]. intros Hl. rewrite length_ms_snoc.
  apply plus_nonneg; [apply IH|apply duration_nonneg]; intros; apply Hl; set_solver.
Qed.

(** Dropping the audio of a sealed response. *)
Lemma dropped_inv l sd r reason : response_inv l sd r -> 0 <= h_audioBytes r -> response_inv l sd (discard (seal reason r)).
Proof using Hpolicy.
  intros [I1 I2 I3] Hb. destruct policy_limits as (L1 & _). constructor; try done. unfold total. simpl. lia.
Qed.

Lemma held_nonneg l sd r : response_inv l sd r -> 0 <= h_audioBytes r.
Proof. intros [_ I2 _]. unfold total in I2. lia. Qed.

Lemma seal_if_late_inv l sd r t :
  0 <= h_audioBytes r -> (late policy r t = false -> response_inv l sd r) ->
  h_providerTranscript r = fst <$> sd /\ h_providerTranscriptFinal r = match sd with Some (_, b) => b | None => false end ->
  response_inv l sd (seal_if_late policy t r).
Proof using Hpolicy.
  intros Hb Hr Ht. unfold seal_if_late. destruct (late policy r t) eqn:E; [|by apply Hr].
  destruct policy_limits as (L1 & _). constructor; try done. unfold total. simpl. lia.
Qed.

Lemma add_audio_inv l sd r audio t : response_inv l sd r -> response_inv (l ++ [audio]) sd (add_audio policy audio t r).
Proof using Hpolicy.
  intros Hr. pose proof (held_nonneg l sd r Hr) as Hb. destruct policy_limits as (L1 & L2 & _).
  destruct Hr as [I1 I2 I3]. unfold add_audio. destruct (audio_ok audio) eqn:Ha; simpl; [|by constructor].
  destruct (match h_format r with Some f => _ | None => _ end) eqn:Hf; [by constructor|].
  set (r1 := keep_audio _ _ _ r). destruct (_ || _) eqn:Hlim.
  { constructor; try done. unfold total. simpl. lia. }
  destruct (late policy r1 t) eqn:Hl. { constructor; try done. unfold total. simpl. lia. }
  simpl in Hlim. to_prop. constructor; [done| |].
  - simpl. rewrite total_snoc. lia.
  - simpl. intros Hs. destruct (I3 Hs) as [C1 C2 C3 C4 C5]. constructor; simpl.
    + by rewrite C1.
    + rewrite total_snoc. lia.
    + destruct C3 as [C3 _]. rewrite length_ms_snoc, <- C3. split; [done|]. apply leb_of_gtb; [|apply num_nonneg; lia|done].
      rewrite C3. apply plus_nonneg; [apply length_ms_nonneg; intros; by apply C4|by apply duration_nonneg].
    + intros a [Ha'|Ha'%list_elem_of_singleton]%elem_of_app; [|by subst a]. destruct (C4 a Ha') as [? Ef]. split; [done|].
      rewrite Ef in Hf. to_prop. by rewrite Hf.
    + done.
Qed.

Lemma silent_ne op id : match op with Push _ i _ _ | Say _ i _ _ _ => i | _ => id end = id ->
  forall id' b, id' <> id -> silent (op, b) id'.
Proof.
  intros E id' b Hne. destruct op, b; split; simpl in *; try done; by rewrite (proj2 (str_eqb_neq _ _)) by congruence.
Qed.

Lemma silent_failed op id : silent (op, false) id.
Proof. by destruct op. Qed.

Lemma begin_ok tr g provider id t (x := Begin provider id t) : gate_ok tr g -> gate_ok (tr ++ [(x, (run x g).2)]) (run x g).1.
Proof using Hpolicy.
  intros Hg. subst x. simpl. unfold beginResponse.
  assert (Hsame : forall b, gate_ok (tr ++ [(Begin provider id t, b)]) g) by (intros b; by apply gate_unchanged).
  destruct (negb _); [done|]. destruct (negb _); [done|]. destruct (_ || _) eqn:E; [done|]. to_prop.
  eapply gate_step; [exact Hg|done|apply frame_hold|]. simpl. rewrite own_put_eq.
  assert (Hno : forall {V} (o : obj V), has_own id o = false -> own id o = None).
  { intros V o Ho%has_own_false. apply eq_None_not_Some. by rewrite own_is_Some. }
  pose proof (Hg id) as Hid. rewrite (Hno _ _ H1), (Hno _ _ H2) in *. destruct Hid as (E1 & E2 & ->). unfold slot_ok.
  destruct (silent_view tr (Begin provider id t, true) id) as [-> ->]; [done|]. rewrite E1, E2.
  split; [apply new_held_inv|done].
Qed.

Lemma push_ok tr g provider id audio t (x := Push provider id audio t) :
  gate_ok tr g -> gate_ok (tr ++ [(x, (run x g).2)]) (run x g).1.
Proof using Hpolicy.
  intros Hg. subst x. simpl. unfold pushAudio. destruct (ensureCollecting g provider id t) as [g1 res] eqn:E.
  eapply collect_ok; [exact Hg|exact E|by apply silent_ne|apply silent_failed|].
  destruct res as [r|e]; [|done]. destruct (_ || _) eqn:Hf; [by left|]. to_prop. right. eexists.
  split_and!; [done|done|done| |].
  - unfold add_audio. by repeat (case_match; try done).
  - intros Hr. rewrite accepted_chunks_snoc, said_snoc. simpl. rewrite str_eqb_refl. by apply add_audio_inv.
Qed.

Lemma say_ok tr g provider id text isFinal t (x := Say provider id text isFinal t) :
  gate_ok tr g -> gate_ok (tr ++ [(x, (run x g).2)]) (run x g).1.
Proof using Hpolicy.
  intros Hg. subst x. simpl. unfold pushProviderTranscript. destruct (ensureCollecting g provider id t) as [g1 res] eqn:E.
  eapply collect_ok; [exact Hg|exact E|by apply silent_ne|apply silent_failed|].
  destruct res as [r|e]; [|done]. destruct (h_finalized r) eqn:Hf; [by left|]. right. eexists.
  split_and!; [done|done|done| |].
  - unfold seal_if_late. by destruct (late _ _ _).
  - intros Hr. rewrite accepted_chunks_snoc, said_snoc. simpl. rewrite str_eqb_refl, app_nil_r.
    apply seal_if_late_inv; [exact (held_nonneg _ _ _ Hr)| |done]. intros _. destruct Hr as [I1 I2 I3]. constructor; try done.
    intros Hs. destruct (I3 Hs) as [C1 C2 C3 C4 C5]. by constructor.
Qed.

Lemma end_ok tr g provider id terminal t (x := End_ provider id terminal t) :
  gate_ok tr g -> gate_ok (tr ++ [(x, (run x g).2)]) (run x g).1.
Proof using Hpolicy.
  intros Hg. subst x. simpl. unfold markTerminal. destruct (ensureCollecting g provider id t) as [g1 res] eqn:E.
  eapply collect_ok; [exact Hg|exact E|by apply silent_ne|apply silent_failed|].
  destruct res as [r|e]; [|done]. destruct (bool_decide _) eqn:Ht; [by left|]. to_prop. right. eexists.
  assert (Hfin : h_finalized r = false).
  { destruct (ensure_spec _ _ _ _ _ _ _ Hg E) as (_ & _ & _ & _ & Hs). destruct (own id (g_pending g1)); [|done].
    destruct Hs as [_ [t' Ht'] _ _ _]. destruct Ht. by rewrite Ht'. }
  split_and!; [done|done|done| |].
  - unfold seal_if_late. by destruct (late _ _ _).
  - intros Hr. destruct (silent_view tr (End_ provider id terminal t, true) id) as [-> ->]; [done|].
    apply seal_if_late_inv; [exact (held_nonneg _ _ _ Hr)| |by destruct Hr]. intros Hl. destruct Hr as [I1 I2 I3]. constructor; try done.
    intros Hs. destruct (I3 Hs) as [C1 C2 C3 C4 C5]. constructor; try done. simpl. intros t' s' [= <- <-].
    unfold late in Hl. simpl in Hl. to_prop. lia.
Qed.

Lemma expire_ok tr g id t (x := Expire id t) : gate_ok tr g -> gate_ok (tr ++ [(x, (run x g).2)]) (run x g).1.
Proof using Hpolicy.
  intros Hg. subst x. simpl. unfold expireResponse.
  assert (Hsame : forall b, gate_ok (tr ++ [(Expire id t, b)]) g) by (intros b; by apply gate_unchanged).
  destruct (own id (g_responses g)) as [r|] eqn:Hr; [|done]. destruct (negb _); [done|]. cbn [passed fst snd].
  destruct (_ && _ && _) eqn:Hc; [|done]. to_prop.
  eapply gate_step; [exact Hg|done|apply frame_hold|]. simpl. rewrite own_put_eq.
  pose proof (Hg id) as Hid. rewrite Hr in Hid. destruct (own id (g_decisions g)); [done|].
  eapply replace_slot; [exact Hid|done|done|]. intros Hinv.
  edestruct (silent_view tr) as [-> ->]; [done|]. destruct Hinv as [I1 I2 I3]. destruct policy_limits as (L1 & _).
  constructor; try done. unfold total in *. simpl. lia.
Qed.

(** ** Deciding *)

Lemma own_remove {V} id id' (o : obj V) : own id' (remove id o) = if id' =?s id then None else own id' o.
Proof. unfold remove. rewrite (own_filter_keys (fun k => negb (k =?s id))). by destruct (id' =?s id). Qed.

(** The evidence on which audio may be released. *)
Record justified (tr : list (Op * bool)) (id : jstr) (r : HeldResponse) (p : Progress) (coverage : Coverage)
    (receipt : option Receipt) : Prop := {
  ju_response : response_inv (accepted tr id) (said tr id) r;
  ju_collected : collected (accepted tr id) r;
  ju_audible : accepted tr id <> [];
  ju_consulted : consulted (accepted tr id) r p;
  ju_terminal : exists t, h_terminal r = Some (t, Completed);
  ju_provider : needsProvider policy = true -> h_providerTranscriptFinal r = true;
  ju_asr : needsAsr policy = true -> exists c, receipt = Some c /\ answered tr id c /\
    bound id (accepted tr id) (h_provider r) c /\ coverage = ExactBufferedPcm;
}.

Lemma final_said l sd r : response_inv l sd r ->
  final_transcript r = match sd with Some (text, true) => Some text | _ => None end.
Proof. intros [[I1 I2] _ _]. unfold final_transcript. rewrite I1, I2. by destruct sd as [[? []]|]. Qed.

Lemma conclude_shape g id r p evidence now : exists d,
  conclude policy g id r p evidence now =
    (mkGate (remove id (g_responses g)) (put id d (g_decisions g)) (remove id (g_pending g)), Ok (Some d)) /\
  (de_action d = Release -> exists coverage receipt, evidence = Ok (coverage, receipt) /\
     (match final_transcript r with Some t => evaluateText policy t FromProvider | None => [] end ++
      match receipt with Some c => evaluateText policy (rc_text c) FromAsr | None => [] end = []) /\
     d = {| de_responseId := id; de_provider := h_provider r; de_action := Release; de_reason := PolicyPass;
            de_evidenceCoverage := coverage; de_audioSha256 := pg_audioSha256 p; de_audioBytes := h_audioBytes r;
            de_audioDurationMs := h_audioDurationMs r; de_providerTranscriptSha256 := pg_providerTranscriptSha256 p;
            de_independentAsrTranscriptSha256 := (fun c => sha256Hex (rc_text c)) <$> receipt;
            de_independentAsrReceiptSha256 := rc_receiptSha256 <$> receipt; de_violations := [];
            de_collectionLatencyMs := match h_terminal r with Some (t, _) => Z.max 0 (t - h_startedAtMs r) | None => 0 end;
            de_decisionLatencyMs := Z.max 0 (now - pg_startedAtMs p); de_audio := Some (h_chunks r) |} /\
     Z.max 0 (now - pg_startedAtMs p) <= po_maxDecisionLatencyMs policy).
Proof.
  unfold conclude. destruct evidence as [[coverage receipt]|reason].
  - destruct (bool_decide (length _ = 0)%nat) eqn:Hv; cbv beta iota zeta.
    + destruct (_ && _) eqn:He; (eexists; split; [reflexivity|]); simpl; [done|].
      intros _. exists coverage, receipt.
      rewrite bool_decide_true, andb_true_r in He by done. to_prop. apply nil_length_inv in Hv.
      rewrite Hv. pose proof (proj1 (deduplicateViolations_nil _) Hv) as Hv'. by rewrite Hv'.
    + rewrite andb_false_r. eexists. split; [done|]. done.
  - rewrite andb_false_r. eexists. split; [done|]. done.
Qed.

Lemma conclude_released tr g id r p coverage receipt now g' d : justified tr id r p coverage receipt ->
  conclude policy g id r p (Ok (coverage, receipt)) now = (g', Ok (Some d)) -> de_action d = Release ->
  released tr id (accepted tr id) (said tr id) d.
Proof using Hpolicy.
  intros [J1 [C1 C2 C3 C4 C5] J3 (J4 & J5 & J6) [t J7] J8 J9] E Hrel.
  destruct (conclude_shape g id r p (Ok (coverage, receipt)) now) as (d' & E' & Hd). rewrite E' in E. simplify_eq.
  destruct (Hd Hrel) as (cov & rcpt & [= <- <-] & Hv & -> & Hlat). apply app_eq_nil in Hv as [Hv1 Hv2].
  destruct policy_limits as (_ & _ & L3 & _). constructor; simpl.
  - rewrite C1. split_and!; try done. lia.
  - destruct J4 as [_ Hf]. exists (au_format (pg_aggregate p)). intros a Ha. destruct (C4 a Ha) as [? E2]. split; [done|congruence].
  - rewrite J7. specialize (C5 _ _ J7). split_and!; try done; [lia|apply C3|lia].
  - rewrite (final_said _ _ _ J1) in *. destruct (said tr id) as [[text []]|] eqn:Hs.
    + split; [done|]. by apply (evaluate_clean text FromProvider).
    + destruct (needsProvider policy); [|done]. destruct J1 as [[_ I2] _ _]. rewrite (J8 eq_refl) in I2. done.
    + destruct (needsProvider policy); [|done]. destruct J1 as [[_ I2] _ _]. rewrite (J8 eq_refl) in I2. done.
  - intros Hn. destruct (J9 Hn) as (c & -> & Ha & Hb & ->). exists c. split_and!; try done.
    by apply (evaluate_clean (rc_text c) FromAsr).
Qed.

(** After a conclusion the response is decided. *)
Lemma conclude_ok tr x g0 g id r p evidence now : gate_ok tr g0 -> frame id g0 g -> (forall id', silent x id') ->
  (forall coverage receipt, evidence = Ok (coverage, receipt) -> justified (tr ++ [x]) id r p coverage receipt) ->
  gate_ok (tr ++ [x]) (conclude policy g id r p evidence now).1.
Proof using Hpolicy.
  intros Hg Hf Hx Hj. destruct (conclude_shape g id r p evidence now) as (d & E & Hd). rewrite E.
  eapply gate_step; [exact Hg|done| |].
  - intros id' Hne. destruct (Hf id' Hne) as (<- & <- & <-). simpl.
    rewrite !own_remove, own_put_ne, (proj2 (str_eqb_neq id' id)) by congruence. done.
  - simpl. rewrite !own_remove, own_put_eq, str_eqb_refl. split; [done|]. intros Hrel.
    destruct (Hd Hrel) as (coverage & receipt & -> & _). by eapply conclude_released; [apply Hj| |].
Qed.

Lemma finalize_ok tr g id now later (op := Finalize id now later) :
  gate_ok tr g -> gate_ok (tr ++ [(op, (run op g).2)]) (run op g).1.
Proof using Hpolicy.
  intros Hg. change (run op g) with (passed (finalizeResponse policy g id now later)).
  generalize ((passed (finalizeResponse policy g id now later)).2) as b. intros b. cbn [passed fst].
  assert (Hx : forall id', silent (op, b) id') by done. revert Hx. generalize (op, b) as x. intros x Hx. unfold finalizeResponse.
  pose proof (Hg id) as Hid. destruct (own id (g_decisions g)) eqn:Hd; [by apply gate_unchanged|].
  destruct (own id (g_responses g)) as [r|] eqn:Hr; [|by apply gate_unchanged].
  destruct (h_finalized r) eqn:Hf; [by apply gate_unchanged|].
  destruct (h_terminal r) as [[t terminal]|] eqn:Ht; [|by apply gate_unchanged].
  assert (Hc : forall p reason, gate_ok (tr ++ [x]) (conclude policy (hold g id (set_finalized r)) id (set_finalized r) p (Err reason) later).1).
  { intros p reason. eapply conclude_ok; [exact Hg|apply frame_hold|done|done]. }
  cbv zeta. change (h_sealedReason (set_finalized r)) with (h_sealedReason r).
  change (h_format (set_finalized r)) with (h_format r). change (h_chunks (set_finalized r)) with (h_chunks r).
  destruct (h_sealedReason r) as [reason|] eqn:Hs; [exact (Hc _ _)|].
  destruct (negb (bool_decide _)) eqn:Hst; [exact (Hc _ _)|]. to_prop. subst terminal.
  destruct (h_format r) as [format|] eqn:Hfmt; [|exact (Hc _ _)]. destruct (h_chunks r) as [|a l] eqn:Hl; [exact (Hc _ _)|].
  eapply gate_step; [exact Hg|done|intros id' Hne; simpl; by rewrite !own_put_ne|]. simpl. rewrite !own_put_eq, Hd. unfold slot_ok.
  destruct Hid as [[I1 I2 I3] _]. destruct (silent_view tr x id (Hx id)) as [-> ->].
  destruct (I3 Hs) as [C1 C2 C3 C4 C5]. split; [constructor; try done; intros _; by constructor|].
  constructor; [done|by exists t|by constructor| |].
  - rewrite <- C1, Hl. done.
  - split; [|done]. simpl. unfold bytes. rewrite C1. replace (_ - _)%nat with 0%nat; [by rewrite app_nil_r|].
    destruct C2 as [-> _]. unfold total, bytes. lia.
Qed.

(** From one await to the next. *)
Lemma advance_ok tr x g id r s s' : gate_ok tr g -> (forall id', silent x id') ->
  own id (g_responses g) = Some r -> own id (g_pending g) = Some s ->
  stage_knows (tr ++ [x]) id (accepted tr id) r s' -> gate_ok (tr ++ [x]) (await g id s').
Proof.
  intros Hg Hx Hr Hp Hs'. eapply gate_step; [exact Hg|done|intros id' Hne; simpl; by rewrite own_put_ne|]. simpl.
  pose proof (Hg id) as Hid. rewrite Hr, Hp, own_put_eq in *. destruct (own id (g_decisions g)); [done|]. simpl in *.
  destruct (silent_view tr x id (Hx id)) as [-> ->]. destruct Hid as [? [S1 S2 S3 S4 S5]]. split; [done|]. by constructor.
Qed.

Lemma justify tr x g id r s p coverage receipt : gate_ok tr g -> silent x id ->
  own id (g_responses g) = Some r -> own id (g_pending g) = Some s -> consulted (accepted tr id) r p ->
  (needsProvider policy = true -> h_providerTranscriptFinal r = true) ->
  (needsAsr policy = true -> exists c, receipt = Some c /\ answered tr id c /\ bound id (accepted tr id) (h_provider r) c /\
     coverage = ExactBufferedPcm) ->
  justified (tr ++ [x]) id r p coverage receipt.
Proof.
  intros Hg Hx Hr Hp Hc Hprov Hasr. pose proof (Hg id) as Hid. rewrite Hr, Hp in Hid. destruct (own id (g_decisions g)); [done|].
  destruct Hid as [? [S1 S2 S3 S4 S5]]. destruct (silent_view tr x id Hx) as [E1 E2]. constructor; rewrite ?E1, ?E2; try done.
  intros Hn. destruct (Hasr Hn) as (c & ? & ? & ?). exists c. split_and!; try done; [by apply answered_snoc|naive_solver..].
Qed.

Lemma consult_ok tr x g id r s p now : gate_ok tr g -> (forall id', silent x id') ->
  own id (g_responses g) = Some r -> own id (g_pending g) = Some s -> consulted (accepted tr id) r p ->
  gate_ok (tr ++ [x]) (consult policy receiptContext hasAsr g id r p now).1.
Proof using Hpolicy.
  intros Hg Hx Hr Hp Hc. unfold consult.
  assert (Hfail : forall reason, gate_ok (tr ++ [x]) (conclude policy g id r p (Err reason) now).1).
  { intros reason. eapply conclude_ok; [exact Hg|apply frame_refl|done|done]. }
  destruct (_ && _) eqn:Hn; [exact (Hfail _)|].
  assert (Hprov : needsProvider policy = true -> h_providerTranscriptFinal r = true).
  { intros E. rewrite E in Hn. simpl in Hn. by to_prop. }
  destruct (needsAsr policy) eqn:Ha.
  - destruct receiptContext as [[organizationId callId]|] eqn:Hctx; [|exact (Hfail _)]. destruct hasAsr; [|exact (Hfail _)].
    eapply advance_ok; [exact Hg|done|exact Hr|exact Hp|]. split; [done|]. split_and!; [done|done|].
    exists organizationId, callId. split; [done|]. destruct Hc as (_ & Hsha & _). by rewrite Hsha.
  - eapply conclude_ok; [exact Hg|apply frame_refl|done|]. intros coverage receipt [= <- <-].
    eapply justify; [exact Hg|done|exact Hr|exact Hp|exact Hc|done|]. congruence.
Qed.

(** A receipt that passes the tests is bound to the audio that was asked about. *)
Lemma valid_bound id l r p e c : expects id l r p e -> aggregated l r p -> validAsrReceipt c e true = true ->
  bound id l (h_provider r) c.
Proof.
  intros (_ & _ & organizationId & callId & Hctx & ->) [Ha _] Hv. unfold validAsrReceipt, receipt_bound in Hv. cbn [ai_organizationId ai_callId ai_provider ai_responseId ai_audio ai_audioSha256 ai_audioBytes] in Hv. to_prop.
  constructor; [congruence|done|split; [done|]|done|done]. rewrite Ha in *. done.
Qed.

Lemma resume_ok tr g id reply now (op := Resume id reply now) :
  gate_ok tr g -> gate_ok (tr ++ [(op, (run op g).2)]) (run op g).1.
Proof using Hpolicy.
  intros Hg. change (run op g) with (passed (resume policy receiptContext hasAsr g id reply now)).
  generalize ((passed (resume policy receiptContext hasAsr g id reply now)).2) as b. intros b. cbn [passed fst].
  assert (Hx : forall id', silent (op, b) id') by done.
  assert (Hans : forall c, reply = Transcribed c -> answered (tr ++ [(op, b)]) id c).
  { intros c ->. exists now, b. set_solver. }
  revert Hx Hans. generalize (op, b) as x. intros x Hx Hans. unfold resume.
  destruct (own id (g_pending g)) as [s|] eqn:Hp; [|by apply gate_unchanged].
  destruct (own id (g_responses g)) as [r|] eqn:Hr; [|by apply gate_unchanged].
  pose proof (Hg id) as Hid. rewrite Hp, Hr in Hid. destruct (own id (g_decisions g)); [done|]. destruct Hid as [_ Hs].
  pose proof (si_knows _ _ _ _ _ Hs) as Hk. clear Hs.
  assert (Hfail : forall p reason, gate_ok (tr ++ [x]) (conclude policy g id r p (Err reason) now).1).
  { intros p reason. eapply conclude_ok; [exact Hg|apply frame_refl|done|done]. }
  destruct s as [p|p text|p e|p e c|p c]; simpl in Hk; cbv zeta.
  - destruct (resolved reply); [|exact (Hfail _ _)]. destruct (final_transcript r) as [text|] eqn:Ht.
    + eapply advance_ok; [exact Hg|done|exact Hr|exact Hp|]. split_and!; [done| |done]. simpl. by rewrite (proj1 Hk).
    + eapply consult_ok; [exact Hg|done|exact Hr|exact Hp|]. split_and!; [done| |]; simpl; [by rewrite (proj1 Hk)|by rewrite Ht].
  - destruct (resolved reply); [|exact (Hfail _ _)]. destruct Hk as (? & ? & Ht).
    eapply consult_ok; [exact Hg|done|exact Hr|exact Hp|]. split_and!; [done|done|]. simpl. by rewrite Ht.
  - destruct reply as [| |c|] eqn:Hreply; try exact (Hfail _ _).
    eapply advance_ok; [exact Hg|done|exact Hr|exact Hp|]. destruct Hk. split_and!; [done|done|by apply Hans].
  - destruct (validAsrReceipt _ _ _) eqn:Hv; [|exact (Hfail _ _)]. destruct Hk as (? & ? & ?).
    eapply advance_ok; [exact Hg|done|exact Hr|exact Hp|]. split_and!; [done|by apply answered_snoc|]. exists e. split; [done|].
    destruct (resolved reply); [done|]. unfold validAsrReceipt in Hv. by rewrite andb_false_r in Hv.
  - destruct (resolved reply); [|exact (Hfail _ _)]. destruct Hk as (Hc & Ha & e & He & Hv).
    eapply conclude_ok; [exact Hg|apply frame_refl|done|]. intros coverage receipt [= <- <-].
    eapply justify; [exact Hg|done|exact Hr|exact Hp|exact Hc|apply He|]. intros _. exists c. split_and!; try done.
    eapply valid_bound; [exact He|apply Hc|done].
Qed.

Lemma gate_reached tr g : reached tr g -> gate_ok tr g.
Proof using Hpolicy.
  induction 1 as [|tr g op _ IH]; [by intros id|].
  destruct op; [by apply begin_ok|by apply push_ok|by apply say_ok|by apply end_ok|by apply expire_ok|by apply finalize_ok|
                by apply resume_ok].
Qed.

(** ** What is released *)

(** C12. Speech leaves the gate only after it was checked. In every interleaving of operations and answers, a
    response that is released consists of exactly the audio that was accepted for it, in order and in one
    valid format; the decision carries the digest of those bytes; the limits on size, duration,
    collection and decision time were kept; a final transcript of the provider contains no secret and,
    unless authorised, no forbidden claim, and was there if the policy asks for it; and if the policy asks
    for an independent transcription, one was answered for this response whose receipt names this
    organisation, call, provider and response and the digest and length of exactly these bytes, carries
    the digests of its own text and content, and whose text is as clean. *)
Theorem released_speech_checked tr g id d : reached tr g -> own id (g_decisions g) = Some d -> de_action d = Release ->
  released tr id (accepted tr id) (said tr id) d.
Proof using Hpolicy.
  intros Hg%gate_reached Hd. specialize (Hg id). rewrite Hd in Hg.
  destruct (own id (g_responses g)); [done|]. apply Hg.
Qed.

(** C14. The audio that the gate holds is bounded: whatever is pushed, and in whatever order, the bytes held for a
    response never exceed the configured maximum, and a response that is not sealed holds
    exactly what was accepted for it, and the sum of its durations, in the order in which the gate adds them up,
    is at most the maximal duration. *)
Theorem held_audio_bounded tr g id r : reached tr g -> own id (g_responses g) = Some r ->
  total (h_chunks r) <= po_maxBufferedAudioBytes policy /\
  (h_sealedReason r = None -> h_chunks r = accepted tr id /\ h_audioBytes r = total (accepted tr id) /\
     leb (length_ms (accepted tr id)) (num (po_maxBufferedAudioMs policy)) = true).
Proof using Hpolicy.
  intros Hg%gate_reached Hr. specialize (Hg id). rewrite Hr in Hg. destruct (own id (g_decisions g)); [done|].
  destruct Hg as [[_ I2 I3] _]. split; [apply I2|]. intros Hs. destruct (I3 Hs) as [C1 C2 C3 _ _].
  split_and!; [done|apply C2|apply C3].
Qed.

(** ** Decisions are final *)

Lemma conclude_keeps g id r p evidence now id' d : own id (g_decisions g) = None -> own id' (g_decisions g) = Some d ->
  own id' (g_decisions (conclude policy g id r p evidence now).1) = Some d.
Proof.
  intros Hn Hd. destruct (conclude_shape g id r p evidence now) as (d' & -> & _). simpl.
  rewrite own_put_ne; [done|congruence].
Qed.

Lemma ensure_decisions g provider id t : g_decisions (ensureCollecting g provider id t).1 = g_decisions g.
Proof.
  unfold ensureCollecting, beginResponse. by repeat (case_match; simplify_eq/=; try done).
Qed.

Lemma consult_keeps g id r p now id' d : own id (g_decisions g) = None -> own id' (g_decisions g) = Some d ->
  own id' (g_decisions (consult policy receiptContext hasAsr g id r p now).1) = Some d.
Proof.
  intros Hn Hd. unfold consult. repeat case_match; first [by apply conclude_keeps|done].
Qed.

Lemma run_keeps tr g op id d : gate_ok tr g -> own id (g_decisions g) = Some d -> own id (g_decisions (run op g).1) = Some d.
Proof.
  intros Hg Hd. destruct op as [provider i t|provider i audio t|provider i text f t|provider i terminal t|i t|i now later|i reply now]; cbn [run passed fst].
  - unfold beginResponse. by repeat case_match.
  - unfold pushAudio. pose proof (ensure_decisions g provider i t) as E.
    destruct (ensureCollecting g provider i t) as [g1 [r|e]]; simpl in *; [destruct (_ || _)|]; simpl; by rewrite E.
  - unfold pushProviderTranscript. pose proof (ensure_decisions g provider i t) as E.
    destruct (ensureCollecting g provider i t) as [g1 [r|e]]; simpl in *; [destruct (h_finalized r)|]; simpl; by rewrite E.
  - unfold markTerminal. pose proof (ensure_decisions g provider i t) as E.
    destruct (ensureCollecting g provider i t) as [g1 [r|e]]; simpl in *; [destruct (bool_decide _)|]; simpl; by rewrite E.
  - unfold expireResponse. destruct (own i (g_responses g)) as [r|]; [|done]. destruct (negb _); [done|]. simpl. by destruct (_ && _ && _).
  - unfold finalizeResponse. destruct (own i (g_decisions g)) as [d'|] eqn:Hn; [done|].
    destruct (own i (g_responses g)) as [r|]; [|done]. destruct (h_finalized r); [done|].
    destruct (h_terminal r) as [[t terminal]|]; [|done]. cbv zeta.
    repeat case_match; first [by apply conclude_keeps|done].
  - unfold resume. destruct (own i (g_pending g)) as [s|] eqn:Hp; [|done].
    destruct (own i (g_responses g)) as [r|] eqn:Hr; [|done].
    specialize (Hg i). rewrite Hr in Hg. destruct (own i (g_decisions g)) eqn:Hn; [done|].
    destruct s; repeat case_match; first [by apply conclude_keeps|by apply consult_keeps|done].
Qed.

(** The operations that follow. *)
Definition runs (ops : list Op) (g : Gate) : Gate := foldl (fun g op => (run op g).1) g ops.

Lemma runs_reached tr g ops : reached tr g -> exists tr', reached (tr ++ tr') (runs ops g).
Proof.
  revert tr g. induction ops as [|op ops IH]; intros tr g Hg; [exists []; by rewrite app_nil_r|].
  destruct (IH _ _ (reached_run tr g op Hg)) as [tr' Htr']. exists ((op, (run op g).2) :: tr'). by rewrite <- app_assoc in Htr'.
Qed.

(** A decision is final: whatever happens afterwards the decision on a response stays, finalising again gives the same
    decision, and no audio, transcript or new start is accepted for that identity. *)
Theorem decision_is_final tr g id d ops : reached tr g -> own id (g_decisions g) = Some d ->
  own id (g_decisions (runs ops g)) = Some d /\
  (forall now later, finalizeResponse policy (runs ops g) id now later = (runs ops g, Ok (Some d))) /\
  (forall provider audio t, exists e, pushAudio policy (runs ops g) provider id audio t = (runs ops g, Err e)) /\
  (forall provider text f t, exists e, pushProviderTranscript policy (runs ops g) provider id text f t = (runs ops g, Err e)) /\
  (forall provider t, exists e, beginResponse (runs ops g) provider id t = (runs ops g, Err e)).
Proof using Hpolicy.
  intros Hg Hd. assert (Hkeep : own id (g_decisions (runs ops g)) = Some d /\ exists tr', reached tr' (runs ops g)).
  { revert tr g Hg Hd. induction ops as [|op ops IH]; intros tr g Hg Hd; [split; [done|by exists tr]|].
    apply (IH _ _ (reached_run tr g op Hg)). apply (run_keeps tr); [by apply gate_reached|done]. }
  clear Hd. destruct Hkeep as [Hd [tr' Hr]]. revert Hd Hr. generalize (runs ops g) as g'. intros g' Hd Hr.
  pose proof (gate_reached tr' g' Hr id) as Hs. rewrite Hd in Hs. destruct (own id (g_responses g')) eqn:Hn; [done|].
  assert (Hh : has_own id (g_decisions g') = true) by (apply has_own_iff, own_is_Some; by rewrite Hd).
  assert (He : forall provider t, exists e, ensureCollecting g' provider id t = (g', Err e)).
  { intros provider t. unfold ensureCollecting. rewrite Hn, Hh. by repeat case_match; eexists. }
  split_and!; [done| | | |].
  - intros now later. unfold finalizeResponse. by rewrite Hd.
  - intros provider audio t. unfold pushAudio. destruct (He provider t) as [e ->]. by exists e.
  - intros provider text f t. unfold pushProviderTranscript. destruct (He provider t) as [e ->]. by exists e.
  - intros provider t. unfold beginResponse. rewrite Hh, orb_true_r. by repeat case_match; eexists.
Qed.

(** ** Finalisations end *)

Definition rank (s : Stage) : nat :=
  match s with
  | HashingAudio _ => 5 | HashingTranscript _ _ => 4 | Transcribing _ _ => 3 | CheckingReceipt _ _ _ => 2 | HashingText _ _ => 1
  end.

(** A step of a finalisation: a decision, or a later stage. *)
Definition progresses (id : jstr) (n : nat) (g : Gate) : Prop :=
  is_Some (own id (g_decisions g)) \/ exists s, own id (g_pending g) = Some s /\ (rank s < n)%nat.

Lemma conclude_progresses g id r p evidence now n : progresses id n (conclude policy g id r p evidence now).1.
Proof.
  destruct (conclude_shape g id r p evidence now) as (d & -> & _). left. simpl. rewrite own_put_eq. by eexists.
Qed.

Lemma pause_progresses g id s n : (rank s < n)%nat -> progresses id n (pause g id s).1.
Proof. intros Hn. right. exists s. split; [apply own_put_eq|done]. Qed.

Lemma consult_progresses g id r p now n : (3 < n)%nat -> progresses id n (consult policy receiptContext hasAsr g id r p now).1.
Proof.
  intros Hn. unfold consult. repeat case_match; first [apply conclude_progresses|by apply pause_progresses].
Qed.

Lemma resume_progresses tr g id s reply now : gate_ok tr g -> own id (g_pending g) = Some s ->
  progresses id (rank s) (run (Resume id reply now) g).1.
Proof.
  intros Hg Hs. pose proof (Hg id) as Hid. rewrite Hs in Hid. cbn [run passed fst]. unfold resume. rewrite Hs.
  destruct (own id (g_responses g)) as [r|]; [|destruct (own id (g_decisions g)); simpl in Hid; naive_solver].
  destruct s; repeat case_match;
    first [apply conclude_progresses|apply consult_progresses; simpl; lia|apply pause_progresses; simpl; lia].
Qed.

Lemma resumed_settles answers : forall tr g id, reached tr g -> progresses id (S (length answers)) g ->
  is_Some (own id (g_decisions (runs ((fun a => Resume id a.1 a.2) <$> answers) g))).
Proof using Hpolicy.
  induction answers as [|[reply now] answers IH]; intros tr g id Hg Hp.
  - destruct Hp as [?|(s & _ & Hs)]; [done|]. destruct s; simpl in Hs; lia.
  - cbn [fmap list_fmap runs foldl fst snd]. pose proof (gate_reached _ _ Hg) as Hok.
    apply (IH _ _ id (reached_run tr g (Resume id reply now) Hg)).
    destruct Hp as [[d Hd]|(s & Hs & Hn)].
    + left. exists d. by apply (run_keeps tr).
    + destruct (resume_progresses tr g id s reply now Hok Hs) as [?|(s' & Hs' & Hr)]; [by left|right].
      exists s'. split; [done|]. simpl in Hn. lia.
Qed.

(** C15. Every finalisation ends: once a response is terminal, asking for its decision leads to one after at most five
    answers, whatever they are: digests that fail, a transcription that fails, times out or
    returns any receipt. *)
Theorem finalisation_ends tr g id r now later answers : reached tr g -> own id (g_responses g) = Some r ->
  is_Some (h_terminal r) -> length answers = 5%nat ->
  is_Some (own id (g_decisions (runs (Finalize id now later :: ((fun a => Resume id a.1 a.2) <$> answers)) g))).
Proof using Hpolicy.
  intros Hg Hr [[t terminal] Ht] Hlen. cbn [runs foldl].
  apply (resumed_settles answers _ _ id (reached_run tr g (Finalize id now later) Hg)). rewrite Hlen.
  pose proof (gate_reached _ _ Hg id) as Hid. rewrite Hr in Hid. cbn [run passed fst]. unfold finalizeResponse.
  destruct (own id (g_decisions g)) eqn:Hd; [done|]. rewrite Hr, Ht. cbv zeta. destruct Hid as [_ Hs].
  destruct (h_finalized r) eqn:Hf.
  - destruct (own id (g_pending g)) as [s|] eqn:Hp; [|congruence]. right. exists s. split; [done|]. destruct s; simpl; lia.
  - repeat case_match; first [apply conclude_progresses|apply pause_progresses; simpl; lia].
Qed.

(** ** The verdict *)

Lemma conclude_release_iff g id r p coverage receipt now d :
  own id (g_decisions (conclude policy g id r p (Ok (coverage, receipt)) now).1) = Some d ->
  de_action d = Release <->
  (forall t, final_transcript r = Some t -> clean t) /\ (forall c, receipt = Some c -> clean (rc_text c)) /\
  now - pg_startedAtMs p <= po_maxDecisionLatencyMs policy.
Proof using Hpolicy.
  destruct policy_limits as (_ & _ & _ & L4). intros Hd. split.
  - intros Hrel. destruct (conclude_shape g id r p (Ok (coverage, receipt)) now) as (d' & E & Hshape). rewrite E in Hd. simpl in Hd.
    rewrite own_put_eq in Hd. injection Hd as ->. destruct (Hshape Hrel) as (cov & rcpt & [= <- <-] & Hv & _ & Hlat).
    apply app_eq_nil in Hv as [Hv1 Hv2]. split_and!; [| |lia].
    + intros t Ht. rewrite Ht in Hv1. by apply (evaluate_clean t FromProvider).
    + intros c ->. by apply (evaluate_clean (rc_text c) FromAsr).
  - intros (H1 & H2 & H3). unfold conclude in Hd.
    assert (Hv : match final_transcript r with Some t => evaluateText policy t FromProvider | None => [] end ++
      match receipt with Some c => evaluateText policy (rc_text c) FromAsr | None => [] end = []).
    { destruct (final_transcript r) as [t|], receipt as [c|]; simpl; rewrite ?app_nil_r; try done;
        rewrite ?(proj2 (evaluate_clean _ _)) by auto; done. }
    rewrite Hv in Hd. simpl in Hd. rewrite own_put_eq in Hd. injection Hd as <-. simpl.
    rewrite (proj2 (Z.ltb_ge _ _)) by lia. done.
Qed.

(** C13. The verdict is exact: once a valid receipt for the held audio has arrived, the response is released if and only if
    the transcribed text is clean, the final transcript of the provider, if there is one, is clean, and the
    decision is in time. *)
Theorem verdict_exact tr g id r p c now : reached tr g -> own id (g_responses g) = Some r ->
  own id (g_pending g) = Some (HashingText p c) ->
  exists d, own id (g_decisions (run (Resume id Resolved now) g).1) = Some d /\
  (de_action d = Release <->
   clean (rc_text c) /\ (forall text, said tr id = Some (text, true) -> clean text) /\
   now - pg_startedAtMs p <= po_maxDecisionLatencyMs policy).
Proof using Hpolicy.
  intros Hg%gate_reached Hr Hp. pose proof (Hg id) as Hid. rewrite Hr, Hp in Hid.
  destruct (own id (g_decisions g)); [done|]. destruct Hid as [Hinv _].
  assert (E : (run (Resume id Resolved now) g).1 = (conclude policy g id r p (Ok (ExactBufferedPcm, Some c)) now).1).
  { cbn [run passed fst]. unfold resume. by rewrite Hp, Hr. }
  rewrite E. destruct (conclude_shape g id r p (Ok (ExactBufferedPcm, Some c)) now) as (d & Ed & _).
  exists d. assert (Hd : own id (g_decisions (conclude policy g id r p (Ok (ExactBufferedPcm, Some c)) now).1) = Some d).
  { rewrite Ed. apply own_put_eq. }
  split; [done|]. rewrite (conclude_release_iff _ _ _ _ _ _ _ _ Hd), (final_said _ _ _ Hinv).
  destruct (said tr id) as [[text []]|]; naive_solver.
Qed.

End Gate.

End SpeechGateProps.
