(* ===== verification/SpeechGateDemo.v ===== *)
(** * A response that is released and one that is withheld

    A call in which the first response is transcribed and released, and the second, which
    repeats a card number, is withheld; the witnesses of the theorems on the speech gate. *)

From S2P Require Import Prelude JsValue JsText Canonical Graph Flow FlowValidate FlowRuntime ActionPolicy Doubles SpeechGate SpeechGateProps.
Import Doubles SpeechGate SpeechGateProps.

Local Open Scope Z_scope.

Module SpeechGateDemo.

(** The tables on ASCII. *)
#[local] Instance ascii_tables : UnicodeTables := {|
  nfkc := fun s => s;
  toLocaleLowerCase := fun s => (fun c => if is_upper c then (c + 32)%N else c) <$> s;
  letter_or_number := is_alnum;
|}.
#[local] Instance demo_digest : Digest := @sha256 demo_sha256.

Definition hash_of (s : string) : jstr := @sha256 demo_sha256 (js s).

Definition demo_policy : Policy :=
  {| po_evidencePolicy := BothRequired; po_maxBufferedAudioBytes := 64; po_maxBufferedAudioMs := 1000;
     po_maxCollectionLatencyMs := 1000; po_maxDecisionLatencyMs := 500; po_onViolation := SuppressAndRegenerate;
     po_onEvidenceFailure := Suppress;
     po_secrets := [{| se_value := js "4111-2222"; se_fingerprintSha256 := hash_of "card"; se_ruleId := js "card" |}];
     po_forbiddenTerminalClaims := [{| fc_phrase := js "refund issued"; fc_ruleId := js "refund" |}];
     po_terminalClaimsAuthorized := false |}.

Lemma policy_valid : validatePolicy demo_policy = Ok tt.
Proof. by vm_compute. Qed.

Definition pcm (data : list N) : Audio :=
  {| au_format := {| fm_encoding := js "pcm16"; fm_sampleRateHz := 24000; fm_channels := 1 |}; au_data := data |}.

Definition demo_context : option (jstr * jstr) := Some (js "org", js "call").

(** The receipt of a transcription. *)
Definition transcription (id text : string) (data : list N) (bound : jstr) : Receipt :=
  {| rc_schemaVersion := 2; rc_authorityId := js "0a1b2c3d-0000-4000-8000-000000000001"; rc_organizationId := js "org";
     rc_callId := js "call"; rc_provider := OpenAI; rc_responseId := js id; rc_text := js text;
     rc_transcriptSha256 := sha256Hex (js text); rc_audioSha256 := digest data; rc_audioBytes := Z.of_nat (length data);
     rc_sampleRateHz := 24000; rc_channels := 1; rc_complete := true; rc_engine := js "asr"; rc_model := js "m1";
     rc_decision := js "transcribed"; rc_receiptHmacSha256 := hash_of "mac"; rc_receiptSha256 := bound |}.
Definition receipt_for (id text : string) (data : list N) : Receipt :=
  transcription id text data (sha256Hex (independentSpeechAsrReceiptDigestMessage (transcription id text data []))).

(** One response up to its last answer. *)
Definition spoken (id text : string) (t : Z) : list Op :=
  [Push OpenAI (js id) (pcm [1; 2]%N) t; Push OpenAI (js id) (pcm [3; 4; 5; 6]%N) (t + 10);
   Say OpenAI (js id) (js text) true (t + 20); End_ OpenAI (js id) Completed (t + 30); Finalize (js id) (t + 40) (t + 40);
   Resume (js id) Resolved (t + 41); Resume (js id) Resolved (t + 42);
   Resume (js id) (Transcribed (receipt_for id text [1; 2; 3; 4; 5; 6]%N)) (t + 50); Resume (js id) Resolved (t + 51)].

#[local] Abbreviation step := (run demo_policy demo_context true).
#[local] Abbreviation demo_reached := (reached demo_policy demo_context true).

Fixpoint trace (ops : list Op) (g : Gate) : list (Op * bool) :=
  match ops with [] => [] | op :: ops => (op, (step op g).2) :: trace ops (step op g).1 end.

#[local] Abbreviation play := (runs demo_policy demo_context true).

Lemma trace_reached ops : forall tr g, demo_reached tr g -> demo_reached (tr ++ trace ops g) (play ops g).
Proof.
  induction ops as [|op ops IH]; intros tr g Hg; simpl; [by rewrite app_nil_r|].
  specialize (IH _ _ (reached_run _ _ _ tr g op Hg)). by rewrite <- app_assoc in IH.
Qed.

Definition start : Gate := mkGate [] [] [].
Definition first : list Op := spoken "first" "Your parcel is on its way" 100.
Definition second : list Op := spoken "second" "Card 4111 2222 is charged" 300.
Definition checked : Gate := Eval vm_compute in play first start.
Definition done_ops : list Op := first ++ [Resume (js "first") Resolved 152] ++ second ++ [Resume (js "second") Resolved 352].
Definition closed : Gate := Eval vm_compute in play done_ops start.

Lemma checked_reached : exists tr, demo_reached tr checked /\ said tr (js "first") = Some (js "Your parcel is on its way", true).
Proof.
  exists (trace first start). split; [|by vm_compute].
  assert (E : checked = play first start) by by vm_compute. rewrite E.
  exact (trace_reached first [] start (reached_new _ _ _)).
Qed.

Lemma closed_reached : exists tr, demo_reached tr closed /\ accepted tr (js "first") = [pcm [1; 2]%N; pcm [3; 4; 5; 6]%N].
Proof.
  exists (trace done_ops start). split; [|by vm_compute].
  assert (E : closed = play done_ops start) by by vm_compute. rewrite E.
  exact (trace_reached done_ops [] start (reached_new _ _ _)).
Qed.

Definition decided (id : string) (g : Gate) : option Action := de_action <$> own (js id) (g_decisions g).

Example demo_verdicts : decided "first" closed = Some Release /\ decided "second" closed = Some (Withhold SuppressAndRegenerate).
Proof. by vm_compute. Qed.

Lemma computed_decision (g : Gate) id a : decided id g = Some a ->
  exists d, own (js id) (g_decisions g) = Some d /\ de_action d = a.
Proof. unfold decided. intros (d & Hd & ->)%fmap_Some. eauto. Qed.

(** ** Witnesses *)

Lemma released_speech_checked_witness : exists d c, own (js "first") (g_decisions closed) = Some d /\
  de_audio d = Some [pcm [1; 2]%N; pcm [3; 4; 5; 6]%N] /\ clean demo_policy (rc_text c).
Proof.
  destruct closed_reached as (tr & Hg & Hacc). destruct (computed_decision closed "first" Release) as (d & Hd & Ha); [by vm_compute|].
  destruct (released_speech_checked demo_policy policy_valid demo_context true tr closed (js "first") d Hg Hd Ha)
    as [(Haudio & _) _ _ _ Hasr].
  destruct (Hasr eq_refl) as (c & _ & _ & Hc & _). exists d, c. by rewrite <- Hacc.
Defined.

Lemma held_audio_bounded_witness : exists r, own (js "first") (g_responses checked) = Some r /\ total (h_chunks r) <= 64.
Proof.
  destruct checked_reached as (tr & Hg & _).
  destruct (own (js "first") (g_responses checked)) as [r|] eqn:Hr; [|by vm_compute in Hr].
  exists r. split; [done|]. exact (proj1 (held_audio_bounded demo_policy policy_valid demo_context true tr checked _ r Hg Hr)).
Defined.

Lemma decision_is_final_witness : decided "first" (play [Resume (js "first") Rejected 900; Finalize (js "first") 900 900] closed) = Some Release.
Proof.
  destruct closed_reached as (tr & Hg & _). destruct (computed_decision closed "first" Release) as (d & Hd & Ha); [by vm_compute|].
  pose proof (decision_is_final demo_policy policy_valid demo_context true tr closed (js "first") d
    [Resume (js "first") Rejected 900; Finalize (js "first") 900 900] Hg Hd) as [H _].
  unfold decided. by rewrite H, <- Ha.
Defined.

Definition ended : list Op := [Push Gemini (js "third") (pcm [7; 8]%N) 0; End_ Gemini (js "third") Completed 5].
Definition ended_gate : Gate := Eval vm_compute in play ended start.

Lemma finalisation_ends_witness : is_Some (own (js "third") (g_decisions
  (play (Finalize (js "third") 6 6 :: ((fun a => Resume (js "third") a.1 a.2) <$> replicate 5 (Rejected, 7))) ended_gate))).
Proof.
  assert (Hg : demo_reached (trace ended start) ended_gate).
  { assert (E : ended_gate = play ended start) by by vm_compute. rewrite E.
    exact (trace_reached ended [] start (reached_new _ _ _)). }
  destruct (own (js "third") (g_responses ended_gate)) as [r|] eqn:Hr; [|by vm_compute in Hr].
  apply (finalisation_ends demo_policy policy_valid demo_context true (trace ended start) ended_gate (js "third") r 6 6
           (replicate 5 (Rejected, 7)) Hg Hr); [|done].
  vm_compute in Hr. injection Hr as <-. by eexists.
Defined.

Lemma verdict_exact_witness : exists p c d, own (js "first") (g_pending checked) = Some (HashingText p c) /\
  own (js "first") (g_decisions (step (Resume (js "first") Resolved 152) checked).1) = Some d /\ clean demo_policy (rc_text c).
Proof.
  destruct checked_reached as (tr & Hg & Hs).
  destruct (own (js "first") (g_responses checked)) as [r|] eqn:Hr; [|by vm_compute in Hr].
  destruct (own (js "first") (g_pending checked)) as [s|] eqn:Hp; [|by vm_compute in Hp].
  destruct s as [| | | |p c]; try by vm_compute in Hp.
  destruct (verdict_exact demo_policy policy_valid demo_context true tr checked (js "first") r p c 152 Hg Hr Hp) as (d & Hd & Hiff).
  exists p, c, d. split_and!; [done|done|]. refine (proj1 (proj1 Hiff _)).
  assert (E : de_action <$> own (js "first") (g_decisions (step (Resume (js "first") Resolved 152) checked).1) = Some Release) by by vm_compute.
  rewrite Hd in E. simpl in E. congruence.
Defined.

End SpeechGateDemo.
