(* ===== verification/VoiceWorkers.v ===== *)
(** * Voice workers: schemas and their conversation events
    (src/web/lib/voice-workers/schema.ts, capability-manifest.ts, conversation-adapter.ts)

    What a durable worker is spawned with, what it reports, the canonical JSON and hashes of
    both, and their translation into events of the conversation kernel.

    Inputs have their static types; an optional array or record with a default is an option
    before parsing and [Some] after it. Parsing trims texts, so that a schema is a function to
    the parsed value. Values are plain JSON; the formats that the schema library checks
    (instants, UUIDs, URLs) and the URL parser are parameters. *)

From S2P Require Import Prelude JsValue JsText Canonical Graph Flow FlowValidate FlowRuntime ActionPolicy Conversation VoiceToolSchema.
Import Conversation.

Local Open Scope Z_scope.

Module VoiceWorkers.

Definition MAX_VOICE_WORKER_INPUT_BYTES : Z := 64 * 1024.
Definition MAX_VOICE_WORKER_CHECKPOINT_BYTES : Z := 64 * 1024.
Definition MAX_VOICE_WORKER_RESULT_BYTES : Z := 128 * 1024.

(** ** Canonical JSON *)

(** Property order of an object that is filled with sorted keys: array indices first, in
    numeric order, then the other keys. *)
Definition is_index (k : jstr) : bool :=
  match array_index k with Some i => (N.of_nat i <? 4294967295)%N | None => false end.
Definition index_ltb {V} (a b : jstr * V) : bool := (undigits a.1 <? undigits b.1)%N.
Definition property_order {V} (o : obj V) : obj V :=
  sort_by index_ltb (List.filter (fun kv => is_index kv.1) o) ++
  sort_by key_ltb (List.filter (fun kv => negb (is_index kv.1)) o).

(** Assigning to [__proto__] of a new object leaves no property. *)
Definition kept {V} (o : obj V) : obj V := List.filter (fun kv => negb (kv.1 =?s js "__proto__")) o.

(** [normalizeJson] with the one zero of [JSON.stringify]. *)
Fixpoint normalizeJson (v : jsval) : jsval :=
  match v with
  | JNum n => JNum (drop_neg_zero n)
  | JArr vs => JArr (normalizeJson <$> vs)
  | JObj kvs => JObj (property_order (kept ((fun kv => (kv.1, normalizeJson kv.2)) <$> kvs)))
  | v => v
  end.

(** [None]: a value that is not finite JSON, for which the code throws. *)
Definition canonicalVoiceWorkerJson (v : jsval) : option jstr :=
  match encode v with Some _ => encode (normalizeJson v) | None => None end.

Definition hashVoiceWorkerValue `{Sha256} (v : jsval) : option jstr := sha256 <$> canonicalVoiceWorkerJson v.
Definition voiceWorkerJsonBytes (v : jsval) : option Z := utf8_length <$> canonicalVoiceWorkerJson v.

(** ** Formats *)

Record UrlParts := {
  up_protocol : jstr; up_pathname : jstr; up_search : jstr; up_hash : jstr; up_username : jstr; up_password : jstr
}.

(** [z.iso.datetime()], [z.uuid()] and [new URL]. *)
Class Formats := { iso_datetime : jstr -> bool; uuid : jstr -> bool; url_parts : jstr -> option UrlParts }.

(** The white space and line terminators of the language. *)
Definition is_space (c : N) : bool :=
  includes c ([9; 10; 11; 12; 13; 32; 160; 5760; 8232; 8233; 8239; 8287; 12288; 65279]%N) || ((8192 <=? c)%N && (c <=? 8202)%N).
Fixpoint trim_start (s : jstr) : jstr := match s with c :: r => if is_space c then trim_start r else s | [] => [] end.
(** [String.prototype.trim] *)
Definition trim (s : jstr) : jstr := reverse (trim_start (reverse (trim_start s))).

(** [z.string().trim().min(1).max(n)]: the trimmed text. *)
Definition trimmed (n : nat) (s : jstr) : option jstr :=
  let t := trim s in if (1 <=? length t)%nat && (length t <=? n)%nat then Some t else None.
(** An optional property. *)
Definition optionally {A B} (parse : A -> option B) (o : option A) : option (option B) :=
  match o with None => Some None | Some a => Some <$> parse a end.

(** [/^[a-z][a-z0-9_.-]{1,63}$/] *)
Definition CAPABILITY : jstr -> bool := TOOL_NAME.
(** [/^[a-z][a-z0-9_.:-]{1,127}$/] *)
Definition STATE_KEY (s : jstr) : bool :=
  match s with
  | c :: r => is_lower c && (1 <=? length r)%nat && (length r <=? 127)%nat && forallb (fun c => is_lower c || is_digit c || one_of "_.:-" c) r
  | [] => false
  end.

(** [z.record(z.string().max(128), z.json())] *)
Definition json_record (o : obj jsval) : bool :=
  forallb (fun kv => (length kv.1 <=? 128)%nat && ActionPolicy.JsonSchema_ok kv.2) o.
(** [z.number().min(0).max(1)] *)
Definition fraction (n : jsnum) : bool :=
  is_finite n && negb (num_ltb n (num_of_Z 0)) && negb (num_ltb (num_of_Z 1) n).

(** ** Data *)

Record VoiceWorkerCapabilityManifest := { cm_capabilities : list jstr; cm_networkOrigins : option (list jstr) }.
Record VoiceWorkerInput := { wi_objective : jstr; wi_context : option (obj jsval); wi_deliverable : jstr; wi_deadlineAt : option jstr }.

Inductive SpawnSource : Type := FromVoiceCall | FromConversation | FromWorker.
#[export] Instance spawn_source_eq_dec : EqDecision SpawnSource.
Proof. solve_decision. Defined.

Record VoiceWorkerSpawnAuthority := {
  sa_conversationId : jstr;
  sa_organizationId : jstr;
  sa_agentId : jstr;
  sa_agentVersion : Z;
  sa_source : SpawnSource;
  sa_sourceCallId : option jstr;
  sa_sourceWorkerId : option jstr;
  sa_conversationHeadSha256 : jstr;
  sa_conversationRevision : Z;
  sa_goalId : jstr;
  sa_policyEpoch : Z;
  sa_factDependencies : list FactDependency;
  sa_capabilityManifestSha256 : jstr;
}.

Record VoiceWorkerFact := { vf_key : jstr; vf_value : jsval; vf_confidence : jsnum; vf_citationIds : option (list jstr) }.
Record VoiceWorkerCitation := {
  vc_id : jstr; vc_uri : jstr; vc_title : option jstr; vc_excerpt : option jstr; vc_retrievedAt : jstr
}.
Record VoiceWorkerProposedAction := { va_kind : jstr; va_rationale : jstr; va_arguments : option (obj jsval) }.
Record VoiceWorkerResult := {
  vr_facts : list VoiceWorkerFact;
  vr_citations : list VoiceWorkerCitation;
  vr_proposedActions : list VoiceWorkerProposedAction;
  vr_summary : jstr;
}.
Record VoiceWorkerCheckpoint := {
  ck_phase : jstr; ck_progress : jsnum; ck_resumableState : obj jsval; ck_updatedAt : jstr
}.

Inductive VoiceWorkerStatus : Type := Pending | Running | CancelRequested | Succeeded | Failed | Cancelled | Indeterminate.
#[export] Instance voice_worker_status_eq_dec : EqDecision VoiceWorkerStatus.
Proof. solve_decision. Defined.

(** ** Schemas *)

Section Schemas.
Context `{Formats}.

(** [z.url().max(n)] *)
Definition url (n : nat) (s : jstr) : bool := bool_decide (is_Some (url_parts s)) && (length s <=? n)%nat.

Definition origin_ok (s : jstr) : bool :=
  match url_parts s with
  | None => false
  | Some p => (length s <=? 2048)%nat && (up_protocol p =?s js "https:") && (up_pathname p =?s js "/") &&
              forallb (fun part => bool_decide (part = [])) [up_search p; up_hash p; up_username p; up_password p]
  end.

Definition VoiceWorkerCapabilityManifestSchema (m : VoiceWorkerCapabilityManifest) : option VoiceWorkerCapabilityManifest :=
  let origins := default [] (cm_networkOrigins m) in
  if forallb CAPABILITY (cm_capabilities m) && (1 <=? length (cm_capabilities m))%nat && (length (cm_capabilities m) <=? 32)%nat &&
     forallb origin_ok origins && (length origins <=? 32)%nat && nodupb (cm_capabilities m) && nodupb origins
  then Some {| cm_capabilities := cm_capabilities m; cm_networkOrigins := Some origins |} else None.

Definition VoiceWorkerInputSchema (i : VoiceWorkerInput) : option VoiceWorkerInput :=
  objective ← trimmed 4096 (wi_objective i);
  deliverable ← trimmed 1024 (wi_deliverable i);
  let context := default [] (wi_context i) in
  if json_record context && opt_all iso_datetime (wi_deadlineAt i)
  then Some {| wi_objective := objective; wi_context := Some context; wi_deliverable := deliverable; wi_deadlineAt := wi_deadlineAt i |}
  else None.

Definition VoiceWorkerFactDependencySchema (d : FactDependency) : bool :=
  STATE_KEY (dp_key d) && PositiveIntegerSchema (dp_revision d).

Definition source_matches (a : VoiceWorkerSpawnAuthority) : bool :=
  let call := bool_decide (is_Some (truthy (sa_sourceCallId a))) in
  let worker := bool_decide (is_Some (truthy (sa_sourceWorkerId a))) in
  match sa_source a with
  | FromVoiceCall => call && negb worker
  | FromWorker => worker && negb call
  | FromConversation => negb call && negb worker
  end.

Definition VoiceWorkerSpawnAuthoritySchema (a : VoiceWorkerSpawnAuthority) : bool :=
  uuid (sa_conversationId a) && uuid (sa_organizationId a) && uuid (sa_agentId a) && PositiveIntegerSchema (sa_agentVersion a) &&
  opt_all uuid (sa_sourceCallId a) && opt_all uuid (sa_sourceWorkerId a) && is_sha256 (sa_conversationHeadSha256 a) &&
  NonNegativeIntegerSchema (sa_conversationRevision a) && STATE_KEY (sa_goalId a) && NonNegativeIntegerSchema (sa_policyEpoch a) &&
  forallb VoiceWorkerFactDependencySchema (sa_factDependencies a) && (length (sa_factDependencies a) <=? 64)%nat &&
  is_sha256 (sa_capabilityManifestSha256 a) && source_matches a && nodupb (dp_key <$> sa_factDependencies a).

Definition VoiceWorkerFactSchema (f : VoiceWorkerFact) : option VoiceWorkerFact :=
  citations ← mapM (trimmed 128) (default [] (vf_citationIds f));
  if STATE_KEY (vf_key f) && ActionPolicy.JsonSchema_ok (vf_value f) && fraction (vf_confidence f) && (length citations <=? 32)%nat
  then Some {| vf_key := vf_key f; vf_value := vf_value f; vf_confidence := vf_confidence f; vf_citationIds := Some citations |} else None.

Definition VoiceWorkerCitationSchema (c : VoiceWorkerCitation) : option VoiceWorkerCitation :=
  id ← trimmed 128 (vc_id c); title ← optionally (trimmed 512) (vc_title c);
  if url 2048 (vc_uri c) && opt_all (fun s => (length s <=? 2048)%nat) (vc_excerpt c) && iso_datetime (vc_retrievedAt c)
  then Some {| vc_id := id; vc_uri := vc_uri c; vc_title := title; vc_excerpt := vc_excerpt c; vc_retrievedAt := vc_retrievedAt c |}
  else None.

Definition VoiceWorkerProposedActionSchema (a : VoiceWorkerProposedAction) : option VoiceWorkerProposedAction :=
  rationale ← trimmed 2048 (va_rationale a);
  let arguments := default [] (va_arguments a) in
  if CAPABILITY (va_kind a) && json_record arguments
  then Some {| va_kind := va_kind a; va_rationale := rationale; va_arguments := Some arguments |} else None.

(** Citation identities are unique, and facts refer to citations of the result. *)
Definition result_refined (r : VoiceWorkerResult) : bool :=
  nodupb (vc_id <$> vr_citations r) &&
  forallb (fun f => forallb (fun id => includes id (vc_id <$> vr_citations r)) (default [] (vf_citationIds f))) (vr_facts r).

Definition VoiceWorkerResultSchema (r : VoiceWorkerResult) : option VoiceWorkerResult :=
  facts ← mapM VoiceWorkerFactSchema (vr_facts r); citations ← mapM VoiceWorkerCitationSchema (vr_citations r);
  actions ← mapM VoiceWorkerProposedActionSchema (vr_proposedActions r); summary ← trimmed 8192 (vr_summary r);
  let result := {| vr_facts := facts; vr_citations := citations; vr_proposedActions := actions; vr_summary := summary |} in
  if (length facts <=? 256)%nat && (length citations <=? 256)%nat && (length actions <=? 64)%nat && result_refined result
  then Some result else None.

Definition VoiceWorkerCheckpointSchema (c : VoiceWorkerCheckpoint) : option VoiceWorkerCheckpoint :=
  phase ← trimmed 128 (ck_phase c);
  if fraction (ck_progress c) && json_record (ck_resumableState c) && iso_datetime (ck_updatedAt c)
  then Some {| ck_phase := phase; ck_progress := ck_progress c; ck_resumableState := ck_resumableState c; ck_updatedAt := ck_updatedAt c |}
  else None.

(** ** The JSON of parsed values *)

Definition texts_json (l : list jstr) : jsval := JArr (JStr <$> l).
Definition manifest_json (m : VoiceWorkerCapabilityManifest) : jsval :=
  JObj (field "v" (jnat 1) ++ field "mode" (jtext "read_only") ++ field "capabilities" (texts_json (cm_capabilities m)) ++
        opt_field "networkOrigins" texts_json (cm_networkOrigins m)).
Definition input_json (i : VoiceWorkerInput) : jsval :=
  JObj (field "v" (jnat 1) ++ field "objective" (JStr (wi_objective i)) ++ opt_field "context" JObj (wi_context i) ++
        field "deliverable" (JStr (wi_deliverable i)) ++ opt_field "deadlineAt" JStr (wi_deadlineAt i)).
Definition fact_dependency_json (d : FactDependency) : jsval :=
  JObj (field "key" (JStr (dp_key d)) ++ field "revision" (jnat (dp_revision d))).
Definition spawn_source_text (s : SpawnSource) : string :=
  match s with FromVoiceCall => "voice_call" | FromConversation => "conversation" | FromWorker => "worker" end.
Definition spawn_authority_json (a : VoiceWorkerSpawnAuthority) : jsval :=
  JObj (field "v" (jnat 1) ++ field "conversationId" (JStr (sa_conversationId a)) ++ field "organizationId" (JStr (sa_organizationId a)) ++
    field "agentId" (JStr (sa_agentId a)) ++ field "agentVersion" (jnat (sa_agentVersion a)) ++
    field "source" (jtext (spawn_source_text (sa_source a))) ++ opt_field "sourceCallId" JStr (sa_sourceCallId a) ++
    opt_field "sourceWorkerId" JStr (sa_sourceWorkerId a) ++ field "conversationHeadSha256" (JStr (sa_conversationHeadSha256 a)) ++
    field "conversationRevision" (jnat (sa_conversationRevision a)) ++ field "goalId" (JStr (sa_goalId a)) ++
    field "policyEpoch" (jnat (sa_policyEpoch a)) ++ field "factDependencies" (JArr (fact_dependency_json <$> sa_factDependencies a)) ++
    field "capabilityManifestSha256" (JStr (sa_capabilityManifestSha256 a))).
Definition fact_json (f : VoiceWorkerFact) : jsval :=
  JObj (field "key" (JStr (vf_key f)) ++ field "value" (vf_value f) ++ field "confidence" (JNum (vf_confidence f)) ++
        opt_field "citationIds" texts_json (vf_citationIds f)).
Definition citation_json (c : VoiceWorkerCitation) : jsval :=
  JObj (field "id" (JStr (vc_id c)) ++ field "uri" (JStr (vc_uri c)) ++ opt_field "title" JStr (vc_title c) ++
        opt_field "excerpt" JStr (vc_excerpt c) ++ field "retrievedAt" (JStr (vc_retrievedAt c))).
Definition proposed_action_json (a : VoiceWorkerProposedAction) : jsval :=
  JObj (field "kind" (JStr (va_kind a)) ++ field "rationale" (JStr (va_rationale a)) ++ opt_field "arguments" JObj (va_arguments a) ++
        field "requiresConfirmation" (JBool true)).
Definition result_json (r : VoiceWorkerResult) : jsval :=
  JObj (field "v" (jnat 1) ++ field "facts" (JArr (fact_json <$> vr_facts r)) ++ field "citations" (JArr (citation_json <$> vr_citations r)) ++
        field "proposedActions" (JArr (proposed_action_json <$> vr_proposedActions r)) ++ field "summary" (JStr (vr_summary r))).
Definition checkpoint_json (c : VoiceWorkerCheckpoint) : jsval :=
  JObj (field "v" (jnat 1) ++ field "phase" (JStr (ck_phase c)) ++ field "progress" (JNum (ck_progress c)) ++
        field "resumableState" (JObj (ck_resumableState c)) ++ field "updatedAt" (JStr (ck_updatedAt c))).

(** ** Preparing *)

Context `{Sha256}.

Inductive PrepareError : Type := Unparsable | ManifestMismatch | TooLarge (what : string) | NotJson.

Definition assertBounded (v : jsval) (maxBytes : Z) (label : string) : result PrepareError unit :=
  match voiceWorkerJsonBytes v with
  | None => Err NotJson
  | Some bytes => if maxBytes <? bytes then Err (TooLarge label) else Ok ()
  end.

Definition parsed {A} (o : option A) : result PrepareError A := match o with Some a => Ok a | None => Err Unparsable end.
Definition hashed (v : jsval) : result PrepareError jstr := match hashVoiceWorkerValue v with Some h => Ok h | None => Err NotJson end.

Record PreparedSpawn := {
  ps_authority : VoiceWorkerSpawnAuthority;
  ps_workerInput : VoiceWorkerInput;
  ps_capabilityManifest : VoiceWorkerCapabilityManifest;
  ps_authoritySha256 : jstr;
  ps_inputSha256 : jstr;
  ps_capabilityManifestSha256 : jstr;
}.

Definition prepareVoiceWorkerSpawn (authority : VoiceWorkerSpawnAuthority) (workerInput : VoiceWorkerInput)
    (capabilityManifest : VoiceWorkerCapabilityManifest) : result PrepareError PreparedSpawn :=
  let* manifest := parsed (VoiceWorkerCapabilityManifestSchema capabilityManifest) in
  let* manifestSha256 := hashed (manifest_json manifest) in
  raise Unparsable when negb (VoiceWorkerSpawnAuthoritySchema authority) ;;
  raise ManifestMismatch when negb (sa_capabilityManifestSha256 authority =?s manifestSha256) ;;
  let* input := parsed (VoiceWorkerInputSchema workerInput) in
  let* _ := assertBounded (input_json input) MAX_VOICE_WORKER_INPUT_BYTES "voice worker input" in
  let* authoritySha256 := hashed (spawn_authority_json authority) in
  let* inputSha256 := hashed (input_json input) in
  Ok {| ps_authority := authority; ps_workerInput := input; ps_capabilityManifest := manifest; ps_authoritySha256 := authoritySha256;
        ps_inputSha256 := inputSha256; ps_capabilityManifestSha256 := manifestSha256 |}.

(** The parsed value, its hash and its size. *)
Definition prepareVoiceWorkerResult (value : VoiceWorkerResult) : result PrepareError (VoiceWorkerResult * jstr * Z) :=
  let* result := parsed (VoiceWorkerResultSchema value) in
  let* _ := assertBounded (result_json result) MAX_VOICE_WORKER_RESULT_BYTES "voice worker result" in
  let* resultSha256 := hashed (result_json result) in
  Ok (result, resultSha256, default 0 (voiceWorkerJsonBytes (result_json result))).
Definition prepareVoiceWorkerCheckpoint (value : VoiceWorkerCheckpoint) : result PrepareError (VoiceWorkerCheckpoint * jstr * Z) :=
  let* checkpoint := parsed (VoiceWorkerCheckpointSchema value) in
  let* _ := assertBounded (checkpoint_json checkpoint) MAX_VOICE_WORKER_CHECKPOINT_BYTES "voice worker checkpoint" in
  let* checkpointSha256 := hashed (checkpoint_json checkpoint) in
  Ok (checkpoint, checkpointSha256, default 0 (voiceWorkerJsonBytes (checkpoint_json checkpoint))).

(** The name-based identity of a worker: the first sixteen bytes of a digest with the version
    and variant bits of a UUID. *)
Definition hex_value (c : N) : N := if is_digit c then (c - 48)%N else (c - 87)%N.
Definition uuid_text (hex : jstr) : jstr :=
  let hex := <[12%nat := 53%N]> (<[16%nat := hex_digit (N.lor (N.land (hex_value (nth 16 hex 48%N)) 3) 8)]> hex) in
  take 8 hex ++ js "-" ++ take 4 (drop 8 hex) ++ js "-" ++ take 4 (drop 12 hex) ++ js "-" ++ take 4 (drop 16 hex) ++ js "-" ++ take 12 (drop 20 hex).
Definition deriveVoiceWorkerId (conversationId idempotencyKey : jstr) : option jstr :=
  if negb (uuid conversationId) || bool_decide (idempotencyKey = []) || (256 <? length idempotencyKey)%nat then None
  else Some (uuid_text (sha256 (js "hacc/voice-worker-id/v1" ++ [0%N] ++ conversationId ++ [0%N] ++ idempotencyKey))).

(** ** Read-only authority of the background *)

(** The parts of an entry of the active catalogue that the derivation reads: [ct_target] is the
    tool that a direct invocation names, and absent for an action bound by the host. *)
Record CatalogTool := { ct_logical_name : jstr; ct_effect : option VoiceToolSchema.ToolEffect; ct_target : option jstr }.
Inductive DerivationError : Type := Blocked | DuplicateNames | NoReadCapability | BadManifest.

Definition background_read (executable : list jstr) (t : CatalogTool) : bool :=
  match ct_effect t with Some VoiceToolSchema.ReadEffect => true | _ => false end && includes (ct_logical_name t) executable &&
  match ct_target t with Some name => name =?s ct_logical_name t | None => true end.

Definition deriveActiveReadOnlyWorkerManifest (active : bool) (tools : list CatalogTool) (executableBackgroundToolNames : list jstr)
    : result DerivationError VoiceWorkerCapabilityManifest :=
  raise Blocked when negb active ;;
  raise DuplicateNames when negb (nodupb executableBackgroundToolNames) ;;
  let capabilities := sort_by str_ltb (ct_logical_name <$> List.filter (background_read executableBackgroundToolNames) tools) in
  raise NoReadCapability when bool_decide (capabilities = []) ;;
  match VoiceWorkerCapabilityManifestSchema {| cm_capabilities := capabilities; cm_networkOrigins := Some [] |} with
  | Some manifest => Ok manifest
  | None => Err BadManifest
  end.

(** ** Conversation events *)

Record AdapterWorker := {
  aw_id : jstr;
  aw_conversationId : jstr;
  aw_authority : VoiceWorkerSpawnAuthority;
  aw_objective : jstr;
  aw_resultSha256 : option jstr;
}.
Record InboxMessage := {
  im_id : jstr; im_conversationId : jstr; im_workerId : jstr; im_result : VoiceWorkerResult; im_resultSha256 : jstr
}.

Inductive AdapterError : Type := BadSchema | OtherConversation | DigestMismatch.

Definition workerSpawnedConversationPayload (w : AdapterWorker) : result AdapterError Payload :=
  raise BadSchema when negb (VoiceWorkerSpawnAuthoritySchema (aw_authority w)) ;;
  raise OtherConversation when negb (sa_conversationId (aw_authority w) =?s aw_conversationId w) ;;
  Ok (WorkerSpawned (aw_id w) (sa_goalId (aw_authority w)) (aw_objective w) (sa_policyEpoch (aw_authority w))
        (sa_factDependencies (aw_authority w))).

(** [fact.citationIds[0] ?? `result-${resultSha256.slice(0, 24)}`] *)
Definition evidence_id (resultSha256 : jstr) (f : VoiceWorkerFact) : jstr :=
  match default [] (vf_citationIds f) with id :: _ => id | [] => js "result-" ++ take 24 resultSha256 end.
Definition delivered_fact (resultSha256 : jstr) (f : VoiceWorkerFact) : WorkerFact :=
  {| wf_key := vf_key f; wf_value := vf_value f; wf_evidenceId := evidence_id resultSha256 f |}.

Definition workerResultConversationPayload (w : AdapterWorker) (message : InboxMessage) : result AdapterError Payload :=
  let authority := aw_authority w in
  raise BadSchema when negb (VoiceWorkerSpawnAuthoritySchema authority) ;;
  match VoiceWorkerResultSchema (im_result message) with
  | None => Err BadSchema
  | Some result =>
      match hashVoiceWorkerValue (result_json result) with
      | None => Err BadSchema
      | Some resultSha256 =>
          raise OtherConversation when negb (aw_id w =?s im_workerId message) ||
            negb (aw_conversationId w =?s im_conversationId message) ||
            negb (sa_conversationId authority =?s im_conversationId message) ;;
          raise DigestMismatch when negb (resultSha256 =?s im_resultSha256 message) ||
            match aw_resultSha256 w with Some h => negb (h =?s resultSha256) | None => false end ;;
          Ok (WorkerResultDelivered
            {| dl_deliveryId := im_id message; dl_workerId := aw_id w; dl_goalId := sa_goalId authority;
               dl_policyEpoch := sa_policyEpoch authority; dl_dependencies := sa_factDependencies authority;
               dl_facts := delivered_fact resultSha256 <$> vr_facts result;
               dl_advisories := [{| wa_episodeId := js "worker-" ++ aw_id w; wa_text := take 4096 (vr_summary result) |}] |})
      end
  end.

End Schemas.

End VoiceWorkers.
