(* ===== verification/VoiceWorkersProps.v ===== *)
(** * What the schemas of voice workers guarantee

    The hashes of workers identify content, and which spawns and results become valid events
    of the conversation kernel. *)

From S2P Require Import Prelude JsValue JsText Canonical Graph Flow FlowValidate FlowRuntime ActionPolicy Conversation VoiceToolSchema VoiceWorkers.
Import Conversation VoiceWorkers.

Local Open Scope Z_scope.

Module VoiceWorkersProps.

(** ** Canonical JSON *)

Lemma partition_perm {A} (p : A -> bool) l : List.filter p l ++ List.filter (fun x => negb (p x)) l ≡ₚ l.
Proof.
  induction l as [|x l IH]; [done|]. simpl. destruct (p x); simpl; [by rewrite IH|]. by rewrite <- Permutation_middle, IH.
Qed.

Lemma property_order_perm {V} (o : obj V) : property_order o ≡ₚ o.
Proof. unfold property_order. rewrite !sort_by_perm. apply partition_perm. Qed.

(** Objects without a property named [__proto__], at any depth. *)
Fixpoint proto_free (v : jsval) : bool :=
  match v with
  | JArr vs => forallb proto_free vs
  | JObj kvs => forallb (fun kv => negb (kv.1 =?s js "__proto__") && proto_free kv.2) kvs
  | _ => true
  end.

Definition normal_entry (kv : jstr * jsval) : jstr * jsval := (kv.1, normalizeJson kv.2).

Lemma kept_entries kvs : forallb (fun kv : jstr * jsval => negb (kv.1 =?s js "__proto__") && proto_free kv.2) kvs = true ->
  kept (normal_entry <$> kvs) = normal_entry <$> kvs.
Proof.
  induction kvs as [|[k v] kvs IH]; [done|]. cbn [forallb fst snd]. rewrite !andb_true_iff. intros [[Hk _] Hp].
  unfold kept in *. cbn [fmap list_fmap List.filter normal_entry fst]. rewrite Hk. f_equal. by apply IH.
Qed.

Lemma normalize_tidy v : val_ok v -> proto_free v = true -> tidy (normalizeJson v).
Proof.
  induction v as [| |b|n|s|vs IH|kvs IH|o] using jsval_ind'; try done.
  - simpl. intros Hn _. unfold drop_neg_zero. destruct (is_neg_zero n) eqn:E; [done|]. by rewrite E.
  - rewrite val_ok_arr. intros Hok Hp. cbn [normalizeJson]. rewrite tidy_arr, Forall_fmap. cbn in Hp. rewrite forallb_forall in Hp.
    rewrite Forall_forall in *. intros v Hv. apply IH; [done|by apply Hok|]. by apply Hp, list_elem_of_In.
  - rewrite val_ok_obj. intros [_ Hok] Hp. cbn [normalizeJson]. cbn [proto_free] in Hp. pose proof (kept_entries _ Hp) as Ek. unfold normal_entry in Ek.
    rewrite Ek, tidy_obj, property_order_perm, Forall_fmap. rewrite forallb_forall in Hp. rewrite Forall_forall in *. intros kv Hkv. simpl.
    destruct (Hok kv Hkv). specialize (Hp kv (proj1 (list_elem_of_In _ _) Hkv)). to_prop. eauto.
Qed.

Lemma norm_normalize v : val_ok v -> proto_free v = true -> norm (normalizeJson v) = norm v.
Proof.
  induction v as [| |b|n|s|vs IH|kvs IH|o] using jsval_ind'; try done.
  - intros _ _. cbn. f_equal. unfold drop_neg_zero. by destruct n as [| |[] [|m] e].
  - rewrite val_ok_arr. intros Hok Hp. cbn [normalizeJson norm]. f_equal. rewrite <- list_fmap_compose. apply list_fmap_ext. intros i v Hi.
    cbn in Hp. rewrite forallb_forall in Hp. rewrite Forall_lookup in *. unfold compose. apply (IH i); [done|by eapply Hok|].
    apply Hp, list_elem_of_In. by eapply list_elem_of_lookup_2.
  - rewrite val_ok_obj. intros [Hk Hok] Hp. cbn [normalizeJson]. cbn [proto_free] in Hp. pose proof (kept_entries _ Hp) as Ek. unfold normal_entry in Ek.
    rewrite Ek. rewrite (norm_permute _ ((fun kv => (kv.1, normalizeJson kv.2)) <$> kvs)).
    + cbn [norm]. f_equal. f_equal. rewrite <- list_fmap_compose. apply list_fmap_ext. intros i kv Hi. unfold compose. cbn [fst snd]. f_equal.
      rewrite forallb_forall in Hp. rewrite Forall_lookup in *. destruct (Hok _ _ Hi).
      specialize (Hp kv). rewrite <- list_elem_of_In in Hp. specialize (Hp (list_elem_of_lookup_2 _ _ _ Hi)). to_prop. eauto.
    + unfold keys. rewrite property_order_perm. by rewrite <- list_fmap_compose.
    + apply property_order_perm.
Qed.

Section Identity.
Context `{Sha256}.

(** The texts that are hashed for two values differ and have one digest. *)
Definition collides (v w : jsval) : Prop :=
  exists t t', canonicalVoiceWorkerJson v = Some t /\ canonicalVoiceWorkerJson w = Some t' /\ t <> t' /\ sha256 t = sha256 t'.

(** Values with one hash have one content. *)
Lemma worker_hash_content v w h : val_ok v -> val_ok w -> proto_free v = true -> proto_free w = true ->
  hashVoiceWorkerValue v = Some h -> hashVoiceWorkerValue w = Some h -> norm v = norm w \/ collides v w.
Proof.
  intros Hv Hw Pv Pw. unfold hashVoiceWorkerValue. intros (t & Ht & ->)%fmap_Some (t' & Ht' & E)%fmap_Some.
  destruct (decide (t = t')) as [<-|Hne]; [left|right; by exists t, t'].
  unfold canonicalVoiceWorkerJson in *. destruct (encode v); [|done]. destruct (encode w); [|done].
  rewrite <- (norm_normalize v), <- (norm_normalize w) by done. f_equal.
  destruct (enc_readable (normalizeJson v) (normalizeJson w) t t [] []) as [? _]; [..|done|done];
    (by split; [|apply normalize_tidy]) || done.
Qed.

End Identity.

(** ** Read-only authority *)

Section Authority.
Context `{Formats}.

Lemma background_read_spec names t : background_read names t = true <->
  ct_effect t = Some VoiceToolSchema.ReadEffect /\ ct_logical_name t ∈ names /\ (ct_target t = None \/ ct_target t = Some (ct_logical_name t)).
Proof.
  unfold background_read. rewrite !andb_true_iff, includes_iff. destruct (ct_target t) as [n|]; rewrite ?str_eqb_eq; destruct (ct_effect t) as [[]|]; naive_solver.
Qed.

Lemma sort_texts_perm (l l' : list jstr) : NoDup l -> l ≡ₚ l' -> sort_by str_ltb l = sort_by str_ltb l'.
Proof.
  intros Hn Hp. apply (strictly_sorted_unique str_ltb str_ltb_trans str_ltb_irrefl str_ltb_total).
  - by apply (sort_by_sorted str_ltb str_ltb_trans str_ltb_total).
  - apply (sort_by_sorted str_ltb str_ltb_trans str_ltb_total). by rewrite <- Hp.
  - intros x. by rewrite !sort_by_perm, Hp.
Qed.

(** The authority that is derived for background work is exactly the read tools: its capabilities are, in the order of their
    names and once each, the tools of an active catalogue that are classified as reads, that the background can execute
    and that no direct alias redirects; it has no network origins; and the order of the catalogue does not matter. *)
Theorem derived_authority_reads_only active tools names m : deriveActiveReadOnlyWorkerManifest active tools names = Ok m ->
  active = true /\ cm_networkOrigins m = Some [] /\ StronglySorted (fun x y => str_ltb x y = true) (cm_capabilities m) /\
  (forall x, x ∈ cm_capabilities m <->
     exists t, t ∈ tools /\ ct_logical_name t = x /\ ct_effect t = Some VoiceToolSchema.ReadEffect /\ x ∈ names /\ (ct_target t = None \/ ct_target t = Some x)) /\
  forall tools', tools ≡ₚ tools' -> deriveActiveReadOnlyWorkerManifest active tools' names = Ok m.
Proof.
  unfold deriveActiveReadOnlyWorkerManifest. destruct active; cbn [negb]; [|done]. destruct (nodupb names); cbn [negb]; [|done].
  set (caps := fun ts => ct_logical_name <$> List.filter (background_read names) ts). fold (caps tools). destruct (bool_decide _) eqn:Ee; [done|].
  unfold VoiceWorkerCapabilityManifestSchema. cbn [cm_capabilities cm_networkOrigins default]. match goal with |- context [if ?b then Some _ else None] => destruct b eqn:Eb; [|done] end.
  intros [= <-]. cbn [cm_capabilities cm_networkOrigins]. assert (Hn : NoDup (caps tools)).
  { rewrite !andb_true_iff in Eb. destruct Eb as [[_ Hn] _]. apply bool_decide_eq_true_1 in Hn. by rewrite sort_by_perm in Hn. }
  split_and!; [done|done|by apply (sort_by_sorted str_ltb str_ltb_trans str_ltb_total)| |].
  - intros x. rewrite sort_by_perm. unfold caps. rewrite list_elem_of_fmap. setoid_rewrite list_elem_of_In. setoid_rewrite filter_In.
    setoid_rewrite background_read_spec. setoid_rewrite <- list_elem_of_In. naive_solver.
  - intros tools' Hp. fold (caps tools'). assert (Hc : caps tools ≡ₚ caps tools').
    { unfold caps. apply fmap_Permutation. clear -Hp. induction Hp; cbn [List.filter]; try done; repeat destruct (background_read _ _); eauto using Permutation. }
    by rewrite <- (sort_texts_perm _ _ Hn Hc), Ee, Eb.
Qed.

End Authority.

(** ** Events of the conversation *)

Section Events.
Context `{Formats} `{Sha256}.

Lemma id_char c : is_lower c || is_digit c || one_of "_.:-" c = true -> is_alnum c || one_of "._:/-" c = true.
Proof.
  intros Hc. unfold is_alnum. apply orb_true_iff in Hc as [Hc|Hc]; [apply orb_true_iff in Hc as [->| ->]; [done|by rewrite !orb_true_r]|].
  apply orb_true_iff. right. unfold one_of in *. apply includes_iff in Hc. apply includes_iff. revert Hc. vm_compute js. rewrite !elem_of_cons. tauto.
Qed.

Lemma state_key_id s : STATE_KEY s = true -> IdSchema s = true.
Proof.
  unfold STATE_KEY, IdSchema. destruct s as [|c r]; [done|]. rewrite !andb_true_iff. intros [[[Hc _] Hl] Hr]. split_and!.
  - unfold is_alnum. by rewrite Hc.
  - rewrite forallb_forall in *. intros d Hd. apply id_char. by apply Hr.
  - apply Nat.leb_le in Hl. apply Nat.leb_le. unfold MAX_ID_LENGTH. simpl. lia.
Qed.

Lemma hex_alnum c : is_hex c = true -> is_alnum c = true.
Proof.
  unfold is_hex, is_alnum. intros [->|Hc]%orb_true_iff; [by rewrite orb_true_r|]. apply andb_true_iff in Hc as [H1%N.leb_le H2%N.leb_le].
  assert (is_lower c = true) as ->; [|done]. unfold is_lower. apply andb_true_iff. split; apply N.leb_le; lia.
Qed.

(** A prefix made of characters of identifiers, followed by others. *)
Lemma prefixed_id (prefix : string) s : IdSchema (js prefix) = true -> forallb (fun c => is_alnum c || one_of "._:/-" c) s = true ->
  (length (js prefix ++ s) <= MAX_ID_LENGTH)%nat -> IdSchema (js prefix ++ s) = true.
Proof.
  unfold IdSchema. destruct (js prefix) as [|c r]; [done|]. cbn [app]. rewrite !andb_true_iff, forallb_app. intros [[-> ->] _] -> Hl.
  split_and!; [done..|]. by apply Nat.leb_le.
Qed.

Lemma fallback_evidence_id h : is_sha256 h = true -> IdSchema (js "result-" ++ take 24 h) = true.
Proof.
  intros [_ Hh]%andb_true_iff. apply prefixed_id; [done| |].
  - rewrite forallb_forall in *. intros c Hc. rewrite hex_alnum; [done|]. apply Hh. apply list_elem_of_In. apply list_elem_of_In in Hc.
    by apply (subseteq_take 24 h).
  - rewrite length_app, length_take. change (length (js "result-")) with 7%nat. unfold MAX_ID_LENGTH. lia.
Qed.

Lemma trimmed_Some n s t : trimmed n s = Some t -> (1 <= length t <= n)%nat.
Proof. unfold trimmed. destruct (_ && _) eqn:E; [|done]. intros [= <-]. apply andb_true_iff in E as [?%Nat.leb_le ?%Nat.leb_le]. done. Qed.

Lemma authority_parts a : VoiceWorkerSpawnAuthoritySchema a = true ->
  IdSchema (sa_goalId a) = true /\ NonNegativeIntegerSchema (sa_policyEpoch a) = true /\ DependenciesSchema (sa_factDependencies a) = true.
Proof.
  unfold VoiceWorkerSpawnAuthoritySchema. rewrite !andb_true_iff. intros Ha. destruct_and! Ha. split_and!; [by apply state_key_id|done|].
  unfold DependenciesSchema. rewrite !andb_true_iff. split_and!; try done.
  match goal with Hf : forallb VoiceWorkerFactDependencySchema _ = true |- _ => rewrite forallb_forall in Hf; rewrite forallb_forall;
    intros d Hd; specialize (Hf d Hd); apply andb_true_iff in Hf as [? ?] end.
  unfold FactDependencySchema. by rewrite state_key_id.
Qed.

(** Every spawn that was prepared becomes a valid event of the conversation: the event of a worker with its prepared
    authority and input, under an identifier of its own, satisfies the kernel's schema. *)
Theorem prepared_spawn_is_an_event a i m p w : prepareVoiceWorkerSpawn a i m = Ok p ->
  aw_authority w = ps_authority p -> aw_objective w = wi_objective (ps_workerInput p) ->
  aw_conversationId w = sa_conversationId a -> IdSchema (aw_id w) = true ->
  exists e, workerSpawnedConversationPayload w = Ok e /\ PayloadSchema e = true.
Proof.
  unfold prepareVoiceWorkerSpawn. destruct (VoiceWorkerCapabilityManifestSchema m) as [m'|]; [|done]. cbn [parsed bind_result].
  destruct (hashed (manifest_json m')) as [h|]; [|done]. cbn [bind_result]. destruct (VoiceWorkerSpawnAuthoritySchema a) eqn:Ea; cbn [negb]; [|done].
  destruct (negb _); [done|]. destruct (VoiceWorkerInputSchema i) as [i'|] eqn:Ei; [|done]. cbn [parsed bind_result].
  destruct (assertBounded _ _ _); [|done]. cbn [bind_result]. destruct (hashed (spawn_authority_json a)); [|done]. cbn [bind_result].
  destruct (hashed (input_json i')); [|done]. intros [= <-] Haw Ho Hc Hid. cbn [ps_authority ps_workerInput] in *.
  unfold workerSpawnedConversationPayload. rewrite Haw, Ea, Hc, Ho, str_eqb_refl. cbn [negb]. eexists. split; [done|]. cbn [PayloadSchema].
  destruct (authority_parts _ Ea) as (-> & -> & ->). rewrite Hid. cbn [andb]. rewrite !andb_true_r.
  unfold VoiceWorkerInputSchema in Ei. destruct (trimmed 4096 (wi_objective i)) as [o|] eqn:Et; [|done]. simpl in Ei.
  destruct (trimmed 1024 _); [|done]. simpl in Ei. destruct (_ && _); [|done]. injection Ei as <-. cbn [wi_objective].
  apply trimmed_Some in Et. unfold TextSchema, MAX_TEXT_LENGTH. apply andb_true_iff. split; apply Nat.leb_le; lia.
Qed.

Lemma parsed_result r p : VoiceWorkerResultSchema r = Some p ->
  Forall (fun f => STATE_KEY (vf_key f) = true) (vr_facts p) /\ (1 <= length (vr_summary p) <= 8192)%nat.
Proof.
  unfold VoiceWorkerResultSchema. destruct (mapM VoiceWorkerFactSchema (vr_facts r)) as [facts|] eqn:Ef; [|done]. cbn [mbind option_bind].
  destruct (mapM VoiceWorkerCitationSchema _) as [cs|]; [|done]. cbn [mbind option_bind].
  destruct (mapM VoiceWorkerProposedActionSchema _) as [acts|]; [|done]. cbn [mbind option_bind].
  destruct (trimmed 8192 (vr_summary r)) as [s|] eqn:Es; [|done]. cbn [mbind option_bind].
  match goal with |- context [if ?b then _ else _] => destruct b; [|done] end. intros [= <-]. split; [|by apply trimmed_Some in Es].
  apply mapM_Some in Ef. cbn [vr_facts]. induction Ef as [|f f' l l' Hf _ IH]; constructor; [|done].
  unfold VoiceWorkerFactSchema in Hf. destruct (mapM _ _); [|done]. simpl in Hf. destruct (STATE_KEY (vf_key f)) eqn:E; [|done]. simpl in Hf.
  destruct (_ && _); [|done]. by injection Hf as <-.
Qed.

(** A fact as the kernel accepts it. *)
Definition deliverable_fact (f : VoiceWorkerFact) : Prop :=
  JsonValueSchema (vf_value f) = true /\ forall id, head (default [] (vf_citationIds f)) = Some id -> IdSchema id = true.

Context `{!Sha256Ok _}.

Lemma delivered_facts_ok h facts : is_sha256 h = true -> Forall (fun f => STATE_KEY (vf_key f) = true) facts ->
  forallb (fun f => IdSchema (wf_key f) && JsonValueSchema (wf_value f) && IdSchema (wf_evidenceId f)) (delivered_fact h <$> facts) = true <->
  Forall deliverable_fact facts.
Proof.
  intros Hh. induction 1 as [|f facts Hk _ IH]; [done|]. rewrite Forall_cons, <- IH. cbn [fmap list_fmap forallb delivered_fact wf_key wf_value wf_evidenceId].
  rewrite !andb_true_iff. rewrite (state_key_id _ Hk). unfold deliverable_fact, evidence_id.
  destruct (default [] (vf_citationIds f)) as [|id l]; [rewrite (fallback_evidence_id _ Hh)|]; cbn [head hd_error]; naive_solver.
Qed.

(** C19. Exactly these results of workers become valid events of the conversation: those with at most 32 facts of distinct
    keys, whose values fit the kernel's bounds and whose first citation, if they have one, is a kernel
    identifier. Of the other properties the schemas of both sides leave nothing to fail. *)
Theorem delivery_is_an_event_exactly w m e r : workerResultConversationPayload w m = Ok e -> VoiceWorkerResultSchema (im_result m) = Some r ->
  IdSchema (im_id m) = true -> IdSchema (aw_id w) = true -> (length (aw_id w) <= 121)%nat ->
  PayloadSchema e = true <->
  (length (vr_facts r) <= MAX_FACTS_PER_DELIVERY)%nat /\ NoDup (vf_key <$> vr_facts r) /\ Forall deliverable_fact (vr_facts r).
Proof.
  unfold workerResultConversationPayload. destruct (VoiceWorkerSpawnAuthoritySchema (aw_authority w)) eqn:Ea; cbn [negb]; [|done].
  destruct (VoiceWorkerResultSchema (im_result m)) as [r'|] eqn:Er; [|done]. destruct (hashVoiceWorkerValue (result_json r')) as [h|] eqn:Eh; [|done].
  destruct (_ || _); [done|]. destruct (_ || _); [done|]. intros Ee [= ->] Hm Hw Hl.
  assert (Hid : IdSchema (js "worker-" ++ aw_id w) = true).
  { apply prefixed_id; [done| |rewrite length_app; change (length (js "worker-")) with 7%nat; unfold MAX_ID_LENGTH; lia].
    unfold IdSchema in Hw. destruct (aw_id w) as [|c l]; [done|].
    apply andb_true_iff in Hw as [Hw _]. apply andb_true_iff in Hw as [Hc Hr]. cbn [forallb]. by rewrite Hc. }
  revert Ee Hid. generalize (js "worker-" ++ aw_id w) as episode. intros episode Ee Hid. assert (Hinj : forall x y : Payload, Ok (E := AdapterError) x = Ok y -> x = y) by (by intros ? ? [=]).
  apply Hinj in Ee as <-. cbn [PayloadSchema].
  destruct (parsed_result _ _ Er) as [Hk Hs]. destruct (authority_parts _ Ea) as (Hg & He & Hd).
  assert (Hh : is_sha256 h = true) by (unfold hashVoiceWorkerValue in Eh; apply fmap_Some in Eh as (t & _ & ->); apply sha256_hex).
  assert (Ht : TextSchema (take 4096 (vr_summary r)) = true).
  { unfold TextSchema, MAX_TEXT_LENGTH. rewrite length_take. apply andb_true_iff. split; apply Nat.leb_le; lia. }
  unfold DeliverySchema. cbn [dl_deliveryId dl_workerId dl_goalId dl_policyEpoch dl_dependencies dl_facts dl_advisories].
  rewrite Hm, Hw, Hg, He, Hd. cbn [andb forallb wa_episodeId wa_text length fmap list_fmap].
  rewrite Hid, Ht, length_fmap, !andb_true_iff, delivered_facts_ok by done.
  rewrite <- (list_fmap_compose (delivered_fact h) wf_key). unfold nodupb at 1. rewrite bool_decide_eq_true, Nat.leb_le.
  change (wf_key ∘ delivered_fact h) with vf_key.
  assert (nodupb [episode] = true) by (apply bool_decide_eq_true, NoDup_singleton). naive_solver.
Qed.

End Events.
End VoiceWorkersProps.
