(* ===== verification/VoiceWorkerCoordinator.v ===== *)
(** * The coordinator of governed voice workers (src/web/lib/voice-workers/coordinator.ts)

    Five operations on durable workers, each under an authority receipt that trusted host code
    resolves for one gateway invocation, and each run through a journal of idempotency keys.

    An operation is asynchronous: it waits for the recipe's parser, the authority resolver, the
    start of the journaled effect, the backend, or an earlier run under its key. A [Task] holds
    the locals of one operation and where it waits; a [System] has the in-memory journal, all
    tasks and the calls made to the backend, and [step] runs a task from one answer to the next
    wait. Answers have their static types; the formats of [VoiceWorkers] and [Date.parse]
    are parameters. *)

From S2P Require Import Prelude JsValue JsText Canonical JsDate Graph Flow FlowValidate FlowRuntime ActionPolicy Conversation VoiceWorkers.
Import Conversation VoiceWorkers.

Local Open Scope Z_scope.

Module VoiceWorkerCoordinator.

(** ** Operations and authority *)

Inductive GovernedWorkerOperation : Type := Spawn | GetStatus | Cancel | Reconcile | DeliverResult.
#[export] Instance operation_eq_dec : EqDecision GovernedWorkerOperation.
Proof. solve_decision. Defined.

Definition operation_text (o : GovernedWorkerOperation) : string :=
  match o with
  | Spawn => "spawn" | GetStatus => "status" | Cancel => "cancel" | Reconcile => "reconcile" | DeliverResult => "deliverResult"
  end.
Definition GOVERNED_WORKER_TOOL_NAMES (o : GovernedWorkerOperation) : string :=
  match o with
  | Spawn => "spawn_voice_worker" | GetStatus => "get_voice_worker_status" | Cancel => "cancel_voice_worker"
  | Reconcile => "reconcile_voice_worker" | DeliverResult => "deliver_voice_worker_result"
  end.

Inductive Audience : Type := FlowAction | Background | Direct | Reconciliation.
#[export] Instance audience_eq_dec : EqDecision Audience.
Proof. solve_decision. Defined.

Record VoiceToolScope := { vs_callId : jstr; vs_agentId : jstr; vs_orgId : jstr }.
Record VoiceToolExecutionContext := {
  vx_audience : Audience;
  vx_invocationId : option jstr;
  vx_idempotencyKey : option jstr;
  vx_receiptId : option jstr;
  vx_runtimeDigest : option jstr;
}.
Record Invocation := { in_scope : VoiceToolScope; in_context : VoiceToolExecutionContext }.

Record GovernedWorkerAuthorityReceipt := {
  ar_receiptId : jstr;
  ar_invocationId : jstr;
  ar_runtimeDigest : jstr;
  ar_organizationId : jstr;
  ar_agentId : jstr;
  ar_agentVersion : Z;
  ar_callId : jstr;
  ar_conversationId : jstr;
  ar_conversationHeadSha256 : jstr;
  ar_conversationRevision : Z;
  ar_goalId : jstr;
  ar_policyEpoch : Z;
  ar_factDependencies : list FactDependency;
  ar_allowedOperations : list GovernedWorkerOperation;
  ar_allowedRecipeIds : list jstr;
  ar_allowedWorkerIds : option (list jstr);
  ar_issuedAt : jstr;
  ar_expiresAt : jstr;
}.

Definition BOUNDED_ID : jstr -> option jstr := trimmed 256.
Definition RECIPE_ID : jstr -> bool := TOOL_NAME.
Definition WORKER_KIND : jstr -> bool := TOOL_NAME.

(** Comparisons of times that may be [NaN]. *)
Definition time_leb (a b : option Z) : bool := match a, b with Some x, Some y => x <=? y | _, _ => false end.
Definition time_ltb (a b : option Z) : bool := match a, b with Some x, Some y => x <? y | _, _ => false end.

Section Coordinator.
Context `{Formats} `{Sha256} (date_parse : jstr -> option Z).

Definition GovernedWorkerAuthorityReceiptSchema (r : GovernedWorkerAuthorityReceipt) : option GovernedWorkerAuthorityReceipt :=
  receiptId ← BOUNDED_ID (ar_receiptId r); invocationId ← BOUNDED_ID (ar_invocationId r);
  organizationId ← BOUNDED_ID (ar_organizationId r); agentId ← BOUNDED_ID (ar_agentId r); callId ← BOUNDED_ID (ar_callId r);
  if is_sha256 (ar_runtimeDigest r) && PositiveIntegerSchema (ar_agentVersion r) && uuid (ar_conversationId r) &&
     is_sha256 (ar_conversationHeadSha256 r) && NonNegativeIntegerSchema (ar_conversationRevision r) && STATE_KEY (ar_goalId r) &&
     NonNegativeIntegerSchema (ar_policyEpoch r) && forallb VoiceWorkerFactDependencySchema (ar_factDependencies r) &&
     (length (ar_factDependencies r) <=? 64)%nat && (1 <=? length (ar_allowedOperations r))%nat &&
     (length (ar_allowedOperations r) <=? 5)%nat && forallb RECIPE_ID (ar_allowedRecipeIds r) &&
     (length (ar_allowedRecipeIds r) <=? 64)%nat &&
     opt_all (fun ids => forallb uuid ids && (length ids <=? 256)%nat) (ar_allowedWorkerIds r) &&
     iso_datetime (ar_issuedAt r) && iso_datetime (ar_expiresAt r) && nodupb (ar_allowedOperations r) &&
     nodupb (ar_allowedRecipeIds r) && opt_all nodupb (ar_allowedWorkerIds r) &&
     negb (time_leb (date_parse (ar_expiresAt r)) (date_parse (ar_issuedAt r)))
  then Some {| ar_receiptId := receiptId; ar_invocationId := invocationId; ar_runtimeDigest := ar_runtimeDigest r;
               ar_organizationId := organizationId; ar_agentId := agentId; ar_agentVersion := ar_agentVersion r; ar_callId := callId;
               ar_conversationId := ar_conversationId r; ar_conversationHeadSha256 := ar_conversationHeadSha256 r;
               ar_conversationRevision := ar_conversationRevision r; ar_goalId := ar_goalId r; ar_policyEpoch := ar_policyEpoch r;
               ar_factDependencies := ar_factDependencies r; ar_allowedOperations := ar_allowedOperations r;
               ar_allowedRecipeIds := ar_allowedRecipeIds r; ar_allowedWorkerIds := ar_allowedWorkerIds r;
               ar_issuedAt := ar_issuedAt r; ar_expiresAt := ar_expiresAt r |}
  else None.

Definition authority_json (r : GovernedWorkerAuthorityReceipt) : jsval :=
  JObj (field "v" (jnat 1) ++ field "receiptId" (JStr (ar_receiptId r)) ++ field "invocationId" (JStr (ar_invocationId r)) ++
    field "runtimeDigest" (JStr (ar_runtimeDigest r)) ++ field "organizationId" (JStr (ar_organizationId r)) ++
    field "agentId" (JStr (ar_agentId r)) ++ field "agentVersion" (jnat (ar_agentVersion r)) ++ field "callId" (JStr (ar_callId r)) ++
    field "conversationId" (JStr (ar_conversationId r)) ++ field "conversationHeadSha256" (JStr (ar_conversationHeadSha256 r)) ++
    field "conversationRevision" (jnat (ar_conversationRevision r)) ++ field "goalId" (JStr (ar_goalId r)) ++
    field "policyEpoch" (jnat (ar_policyEpoch r)) ++ field "factDependencies" (JArr (fact_dependency_json <$> ar_factDependencies r)) ++
    field "allowedOperations" (JArr ((fun o => jtext (operation_text o)) <$> ar_allowedOperations r)) ++
    field "allowedRecipeIds" (texts_json (ar_allowedRecipeIds r)) ++ opt_field "allowedWorkerIds" texts_json (ar_allowedWorkerIds r) ++
    field "issuedAt" (JStr (ar_issuedAt r)) ++ field "expiresAt" (JStr (ar_expiresAt r))).

(** ** Recipes *)

(** Whether a recipe has a [prepareInput] of its own; what it answers is part of the trace. *)
Record GovernedWorkerRecipe := {
  gr_id : jstr; gr_workerKind : jstr; gr_capabilityManifest : VoiceWorkerCapabilityManifest; gr_prepares : bool
}.
Record RegisteredGovernedWorkerRecipe := {
  rr_id : jstr; rr_workerKind : jstr; rr_capabilityManifest : VoiceWorkerCapabilityManifest;
  rr_capabilityManifestSha256 : jstr; rr_prepares : bool
}.

Inductive CoordinatorError : Type :=
| BadRegistry | BadArguments | UnknownRecipe | BadRecipeInput | IncompleteScope | WrongAudience | IncompleteContext | NoAuthority
| BadAuthority | AuthorityMismatch | OperationNotAllowed | RecipeNotAllowed | WorkerNotAllowed | AuthorityNotCurrent | NotHashable
| KeyReused | EffectFailed.

Fixpoint register (recipes : list GovernedWorkerRecipe) (entries : obj RegisteredGovernedWorkerRecipe)
  : result CoordinatorError (obj RegisteredGovernedWorkerRecipe) :=
  match recipes with
  | [] => Ok entries
  | recipe :: recipes =>
      raise BadRegistry when negb (RECIPE_ID (gr_id recipe)) || negb (WORKER_KIND (gr_workerKind recipe)) || has_own (gr_id recipe) entries ;;
      match VoiceWorkerCapabilityManifestSchema (gr_capabilityManifest recipe) with
      | None => Err BadRegistry
      | Some manifest =>
          match hashVoiceWorkerValue (manifest_json manifest) with
          | None => Err BadRegistry
          | Some sha256 =>
              register recipes (put (gr_id recipe)
                {| rr_id := gr_id recipe; rr_workerKind := gr_workerKind recipe; rr_capabilityManifest := manifest;
                   rr_capabilityManifestSha256 := sha256; rr_prepares := gr_prepares recipe |} entries)
          end
      end
  end.

(** The constructor of the registry. *)
Definition GovernedWorkerRecipeRegistry (recipes : list GovernedWorkerRecipe) : result CoordinatorError (obj RegisteredGovernedWorkerRecipe) :=
  raise BadRegistry when (length recipes =? 0)%nat || (64 <? length recipes)%nat ;; register recipes [].

(** ** Outcomes *)

Record Checkpoint := { cs_phase : jstr; cs_progress : jsnum; cs_checkpointSha256 : jstr }.
Record GovernedWorkerSnapshot := {
  ws_id : jstr;
  ws_conversationId : jstr;
  ws_organizationId : jstr;
  ws_workerKind : jstr;
  ws_status : VoiceWorkerStatus;
  ws_authoritySha256 : jstr;
  ws_inputSha256 : jstr;
  ws_capabilityManifestSha256 : jstr;
  ws_cancellationEpoch : Z;
  ws_claimedCancellationEpoch : option Z;
  ws_leaseExpiresAt : option jstr;
  ws_dispatchStartedAt : option jstr;
  ws_checkpoint : option Checkpoint;
  ws_resultSha256 : option jstr;
  ws_settledAt : option jstr;
}.

Definition checkpoint_snapshot (c : Checkpoint) : option Checkpoint :=
  phase ← trimmed 128 (cs_phase c);
  if fraction (cs_progress c) && is_sha256 (cs_checkpointSha256 c)
  then Some {| cs_phase := phase; cs_progress := cs_progress c; cs_checkpointSha256 := cs_checkpointSha256 c |} else None.

Definition GovernedWorkerSnapshotSchema (s : GovernedWorkerSnapshot) : option GovernedWorkerSnapshot :=
  organizationId ← BOUNDED_ID (ws_organizationId s); checkpoint ← optionally checkpoint_snapshot (ws_checkpoint s);
  if uuid (ws_id s) && uuid (ws_conversationId s) && WORKER_KIND (ws_workerKind s) && is_sha256 (ws_authoritySha256 s) &&
     is_sha256 (ws_inputSha256 s) && is_sha256 (ws_capabilityManifestSha256 s) && NonNegativeIntegerSchema (ws_cancellationEpoch s) &&
     opt_all NonNegativeIntegerSchema (ws_claimedCancellationEpoch s) && opt_all iso_datetime (ws_leaseExpiresAt s) &&
     opt_all iso_datetime (ws_dispatchStartedAt s) && opt_all is_sha256 (ws_resultSha256 s) && opt_all iso_datetime (ws_settledAt s)
  then Some {| ws_id := ws_id s; ws_conversationId := ws_conversationId s; ws_organizationId := organizationId;
               ws_workerKind := ws_workerKind s; ws_status := ws_status s; ws_authoritySha256 := ws_authoritySha256 s;
               ws_inputSha256 := ws_inputSha256 s; ws_capabilityManifestSha256 := ws_capabilityManifestSha256 s;
               ws_cancellationEpoch := ws_cancellationEpoch s; ws_claimedCancellationEpoch := ws_claimedCancellationEpoch s;
               ws_leaseExpiresAt := ws_leaseExpiresAt s; ws_dispatchStartedAt := ws_dispatchStartedAt s; ws_checkpoint := checkpoint;
               ws_resultSha256 := ws_resultSha256 s; ws_settledAt := ws_settledAt s |}
  else None.

Inductive ReconciliationDisposition : Type :=
| NotRequired | ReclaimedBeforeDispatch | StillIndeterminate | ResolvedSucceeded | ResolvedFailed | ResolvedCancelled.
Inductive DeliveryDisposition : Type := NotReady | Accepted | Deferred | Rejected | Duplicate.

Record ResultDelivery := {
  rd_messageId : jstr; rd_disposition : DeliveryDisposition; rd_resultSha256 : option jstr; rd_conversationEventId : option jstr;
  rd_conversationEventSha256 : option jstr; rd_reason : option jstr
}.

(** What the backend answers, and, once parsed, the outcome of an operation. *)
Inductive OperationOutcome : Type :=
| WorkerOutcome (worker : option GovernedWorkerSnapshot)
| ReconciliationOutcome (worker : GovernedWorkerSnapshot) (disposition : ReconciliationDisposition) (evidenceSha256 reason : option jstr)
| DeliveryOutcome (worker : GovernedWorkerSnapshot) (delivery : ResultDelivery).

Definition bounded_reason (r : option jstr) : bool := opt_all (fun s => (length s <=? 4096)%nat) r.

(** The parsers of the effects of the five operations. *)
Definition parse_outcome (operation : GovernedWorkerOperation) (answer : OperationOutcome) : option OperationOutcome :=
  match operation, answer with
  | (Spawn | Cancel), WorkerOutcome (Some worker) => worker ← GovernedWorkerSnapshotSchema worker; Some (WorkerOutcome (Some worker))
  | GetStatus, WorkerOutcome worker => worker ← optionally GovernedWorkerSnapshotSchema worker; Some (WorkerOutcome worker)
  | Reconcile, ReconciliationOutcome worker disposition evidence reason =>
      worker ← GovernedWorkerSnapshotSchema worker;
      if opt_all is_sha256 evidence && bounded_reason reason then Some (ReconciliationOutcome worker disposition evidence reason) else None
  | DeliverResult, DeliveryOutcome worker d =>
      worker ← GovernedWorkerSnapshotSchema worker;
      if uuid (rd_messageId d) && opt_all is_sha256 (rd_resultSha256 d) &&
         opt_all (fun s => (1 <=? length s)%nat && (length s <=? 256)%nat) (rd_conversationEventId d) &&
         opt_all is_sha256 (rd_conversationEventSha256 d) && bounded_reason (rd_reason d)
      then Some (DeliveryOutcome worker d) else None
  | _, _ => None
  end.

Definition workerIdFromOutcome (o : OperationOutcome) : option jstr :=
  match o with
  | WorkerOutcome worker => ws_id <$> worker
  | ReconciliationOutcome worker _ _ _ | DeliveryOutcome worker _ => Some (ws_id worker)
  end.

(** ** The JSON of outcomes *)

Definition nullable_json {A} (f : A -> jsval) (o : option A) : jsval := match o with Some a => f a | None => JNull end.
Definition worker_status_text (s : VoiceWorkerStatus) : string :=
  match s with
  | Pending => "pending" | Running => "running" | CancelRequested => "cancel_requested" | Succeeded => "succeeded"
  | Failed => "failed" | Cancelled => "cancelled" | Indeterminate => "indeterminate"
  end.
Definition snapshot_json (s : GovernedWorkerSnapshot) : jsval :=
  JObj (field "id" (JStr (ws_id s)) ++ field "conversationId" (JStr (ws_conversationId s)) ++
    field "organizationId" (JStr (ws_organizationId s)) ++ field "workerKind" (JStr (ws_workerKind s)) ++
    field "status" (jtext (worker_status_text (ws_status s))) ++ field "authoritySha256" (JStr (ws_authoritySha256 s)) ++
    field "inputSha256" (JStr (ws_inputSha256 s)) ++ field "capabilityManifestSha256" (JStr (ws_capabilityManifestSha256 s)) ++
    field "cancellationEpoch" (jnat (ws_cancellationEpoch s)) ++
    field "claimedCancellationEpoch" (nullable_json jnat (ws_claimedCancellationEpoch s)) ++
    field "leaseExpiresAt" (nullable_json JStr (ws_leaseExpiresAt s)) ++ field "dispatchStartedAt" (nullable_json JStr (ws_dispatchStartedAt s)) ++
    field "checkpoint" (nullable_json (fun c => JObj (field "phase" (JStr (cs_phase c)) ++ field "progress" (JNum (cs_progress c)) ++
      field "checkpointSha256" (JStr (cs_checkpointSha256 c)))) (ws_checkpoint s)) ++
    field "resultSha256" (nullable_json JStr (ws_resultSha256 s)) ++ field "settledAt" (nullable_json JStr (ws_settledAt s))).
Definition reconciliation_text (d : ReconciliationDisposition) : string :=
  match d with
  | NotRequired => "not_required" | ReclaimedBeforeDispatch => "reclaimed_before_dispatch" | StillIndeterminate => "indeterminate"
  | ResolvedSucceeded => "resolved_succeeded" | ResolvedFailed => "resolved_failed" | ResolvedCancelled => "resolved_cancelled"
  end.
Definition delivery_text (d : DeliveryDisposition) : string :=
  match d with
  | NotReady => "not_ready" | Accepted => "accepted" | Deferred => "deferred" | Rejected => "rejected" | Duplicate => "duplicate"
  end.
Definition outcome_json (o : OperationOutcome) : jsval :=
  match o with
  | WorkerOutcome worker => JObj (field "worker" (nullable_json snapshot_json worker))
  | ReconciliationOutcome worker disposition evidence reason =>
      JObj (field "worker" (snapshot_json worker) ++ field "disposition" (jtext (reconciliation_text disposition)) ++
            field "evidenceSha256" (nullable_json JStr evidence) ++ field "reason" (nullable_json JStr reason))
  | DeliveryOutcome worker d =>
      JObj (field "worker" (snapshot_json worker) ++ field "messageId" (JStr (rd_messageId d)) ++
            field "disposition" (jtext (delivery_text (rd_disposition d))) ++ field "resultSha256" (nullable_json JStr (rd_resultSha256 d)) ++
            field "conversationEventId" (nullable_json JStr (rd_conversationEventId d)) ++
            field "conversationEventSha256" (nullable_json JStr (rd_conversationEventSha256 d)) ++
            field "reason" (nullable_json JStr (rd_reason d)))
  end.

(** ** Invocations *)

(** The context with every field there: [Required<VoiceToolExecutionContext>]. *)
Record BoundContext := { bc_scope : VoiceToolScope; bc_invocationId : jstr; bc_idempotencyKey : jstr; bc_receiptId : jstr; bc_runtimeDigest : jstr }.

Definition allowedAudiences (o : GovernedWorkerOperation) : list Audience :=
  match o with
  | Spawn | Cancel => [FlowAction]
  | GetStatus => [FlowAction; Reconciliation]
  | Reconcile | DeliverResult => [Reconciliation]
  end.

Definition is_empty (s : jstr) : bool := bool_decide (s = []).

Definition assertInvocation (operation : GovernedWorkerOperation) (i : Invocation) : result CoordinatorError BoundContext :=
  let scope := in_scope i in let context := in_context i in
  raise IncompleteScope when is_empty (vs_callId scope) || is_empty (vs_agentId scope) || is_empty (vs_orgId scope) ;;
  raise WrongAudience when negb (includes (vx_audience context) (allowedAudiences operation)) ;;
  match truthy (vx_invocationId context), truthy (vx_idempotencyKey context), truthy (vx_receiptId context), truthy (vx_runtimeDigest context) with
  | Some invocationId, Some idempotencyKey, Some receiptId, Some runtimeDigest =>
      raise IncompleteContext when negb (is_sha256 runtimeDigest) ;;
      Ok {| bc_scope := scope; bc_invocationId := invocationId; bc_idempotencyKey := idempotencyKey; bc_receiptId := receiptId;
            bc_runtimeDigest := runtimeDigest |}
  | _, _, _, _ => Err IncompleteContext
  end.

(** [target && !allowed.includes(target)] *)
Definition outside (allowed : list jstr) (target : option jstr) : bool :=
  match truthy target with Some id => negb (includes id allowed) | None => false end.

Definition assertAuthority (operation : GovernedWorkerOperation) (b : BoundContext) (value : GovernedWorkerAuthorityReceipt) (nowMs : Z)
    (recipeId workerId : option jstr) : result CoordinatorError GovernedWorkerAuthorityReceipt :=
  match GovernedWorkerAuthorityReceiptSchema value with
  | None => Err BadAuthority
  | Some receipt =>
      raise AuthorityMismatch when
        negb (ar_receiptId receipt =?s bc_receiptId b) || negb (ar_invocationId receipt =?s bc_invocationId b) ||
        negb (ar_runtimeDigest receipt =?s bc_runtimeDigest b) || negb (ar_organizationId receipt =?s vs_orgId (bc_scope b)) ||
        negb (ar_agentId receipt =?s vs_agentId (bc_scope b)) || negb (ar_callId receipt =?s vs_callId (bc_scope b)) ;;
      raise OperationNotAllowed when negb (includes operation (ar_allowedOperations receipt)) ;;
      raise RecipeNotAllowed when outside (ar_allowedRecipeIds receipt) recipeId ;;
      raise WorkerNotAllowed when match ar_allowedWorkerIds receipt with Some ids => outside ids workerId | None => false end ;;
      raise AuthorityNotCurrent when time_ltb (Some nowMs) (date_parse (ar_issuedAt receipt)) || time_leb (date_parse (ar_expiresAt receipt)) (Some nowMs) ;;
      Ok receipt
  end.

(** ** Commands *)

Inductive WorkerOperation : Type := StatusOf | CancelOf | ReconcileOf.
Definition worker_operation (o : WorkerOperation) : GovernedWorkerOperation :=
  match o with StatusOf => GetStatus | CancelOf => Cancel | ReconcileOf => Reconcile end.

(** The arguments of the five methods. *)
Inductive Request : Type :=
| SpawnRequest (recipeId : jstr) (input : VoiceWorkerInput)
| WorkerRequest (operation : WorkerOperation) (workerId : jstr)
| DeliveryRequest (workerId messageId : jstr).

(** The input of [#execute]; [cm_spawn] is what the effect of a spawn passes on. *)
Record Command := {
  cm_operation : GovernedWorkerOperation;
  cm_request : jsval;
  cm_recipeId : option jstr;
  cm_workerId : option jstr;
  cm_messageId : option jstr;
  cm_spawn : option (RegisteredGovernedWorkerRecipe * VoiceWorkerInput);
}.

Definition spawn_command (recipe : RegisteredGovernedWorkerRecipe) (input : VoiceWorkerInput) : Command :=
  {| cm_operation := Spawn;
     cm_request := JObj (field "recipeId" (JStr (rr_id recipe)) ++ field "workerKind" (JStr (rr_workerKind recipe)) ++
       field "capabilityManifestSha256" (JStr (rr_capabilityManifestSha256 recipe)) ++ field "input" (input_json input));
     cm_recipeId := Some (rr_id recipe); cm_workerId := None; cm_messageId := None; cm_spawn := Some (recipe, input) |}.
Definition worker_command (operation : WorkerOperation) (workerId : jstr) : Command :=
  {| cm_operation := worker_operation operation; cm_request := JObj (field "workerId" (JStr workerId)); cm_recipeId := None;
     cm_workerId := Some workerId; cm_messageId := None; cm_spawn := None |}.
Definition delivery_command (workerId messageId : jstr) : Command :=
  {| cm_operation := DeliverResult; cm_request := JObj (field "workerId" (JStr workerId) ++ field "messageId" (JStr messageId));
     cm_recipeId := None; cm_workerId := Some workerId; cm_messageId := Some messageId; cm_spawn := None |}.

(** ** Receipts *)

Record GovernedWorkerCommandReceipt := {
  cr_operation : GovernedWorkerOperation;
  cr_operationId : jstr;
  cr_authorityReceiptId : jstr;
  cr_authorityReceiptSha256 : jstr;
  cr_idempotencyKey : jstr;
  cr_requestSha256 : jstr;
  cr_outcomeSha256 : jstr;
  cr_workerId : option jstr;
  cr_policyEpoch : Z;
  cr_conversationRevision : Z;
  cr_issuedAt : jstr;
}.
Definition receipt_json (r : GovernedWorkerCommandReceipt) : jsval :=
  JObj (field "v" (jnat 1) ++ field "operation" (jtext (operation_text (cr_operation r))) ++ field "operationId" (JStr (cr_operationId r)) ++
    field "authorityReceiptId" (JStr (cr_authorityReceiptId r)) ++ field "authorityReceiptSha256" (JStr (cr_authorityReceiptSha256 r)) ++
    field "idempotencyKey" (JStr (cr_idempotencyKey r)) ++ field "requestSha256" (JStr (cr_requestSha256 r)) ++
    field "outcomeSha256" (JStr (cr_outcomeSha256 r)) ++ field "workerId" (nullable_json JStr (cr_workerId r)) ++
    field "policyEpoch" (jnat (cr_policyEpoch r)) ++ field "conversationRevision" (jnat (cr_conversationRevision r)) ++
    field "issuedAt" (JStr (cr_issuedAt r))).

(** The value that the journal keeps, and the result of an operation. *)
Record CommandValue := { cv_outcome : OperationOutcome; cv_receipt : GovernedWorkerCommandReceipt; cv_receiptSha256 : jstr }.
Record GovernedWorkerCommandResult := { cr_value : CommandValue; cr_replayed : bool }.

(** ** The system *)

(** [requestSha256] and the promise of the effect. *)
Inductive Promise : Type := Unsettled | Resolved (value : CommandValue) | RejectedPromise.
Record MemoryJournalRecord := { jr_requestSha256 : jstr; jr_value : Promise }.

Record Identity := { id_key : jstr; id_requestSha256 : jstr }.

(** The locals of an operation, as far as it has come. *)
Record Frame := {
  fr_invocation : Invocation;
  fr_command : option Command;
  fr_context : option BoundContext;
  fr_authority : option (GovernedWorkerAuthorityReceipt * jstr);
  fr_identity : option Identity;
}.
Inductive Stage : Type :=
| Preparing (recipe : RegisteredGovernedWorkerRecipe)
| Authorizing (command : Command) (context : BoundContext)
| Launching (command : Command) (context : BoundContext) (authority : GovernedWorkerAuthorityReceipt) (authoritySha256 : jstr) (ident : Identity)
| Calling (command : Command) (context : BoundContext) (authority : GovernedWorkerAuthorityReceipt) (authoritySha256 : jstr) (ident : Identity)
| Awaiting (ident : Identity)
| Finished (answer : result CoordinatorError GovernedWorkerCommandResult).
Record Task := { tk_frame : Frame; tk_stage : Stage }.

(** A call of the backend, with the task that made it. *)
Record BackendCall := { bl_task : nat; bl_command : Command; bl_authority : GovernedWorkerAuthorityReceipt; bl_idempotencyKey : jstr; bl_key : jstr }.

Record System := { sy_journal : obj MemoryJournalRecord; sy_tasks : list Task; sy_calls : list BackendCall }.
Definition initial : System := {| sy_journal := []; sy_tasks := []; sy_calls := [] |}.

Context (recipes : obj RegisteredGovernedWorkerRecipe).

Definition start_frame (i : Invocation) : Frame :=
  {| fr_invocation := i; fr_command := None; fr_context := None; fr_authority := None; fr_identity := None |}.
Definition finish (f : Frame) (e : CoordinatorError) : Task := {| tk_frame := f; tk_stage := Finished (Err e) |}.

(** [#execute] up to the authority resolver. *)
Definition begin_execute (f : Frame) (c : Command) : Task :=
  match assertInvocation (cm_operation c) (fr_invocation f) with
  | Err e => finish f e
  | Ok b => {| tk_frame := {| fr_invocation := fr_invocation f; fr_command := Some c; fr_context := Some b; fr_authority := None;
                              fr_identity := None |}; tk_stage := Authorizing c b |}
  end.

(** [spawn], [status], [cancel], [reconcile] and [deliverResult] up to their first await. *)
Definition invoke (request : Request) (i : Invocation) : Task :=
  let f := start_frame i in
  match request with
  | SpawnRequest recipeId input =>
      if negb (RECIPE_ID recipeId) then finish f BadArguments
      else match VoiceWorkerInputSchema input with
      | None => finish f BadArguments
      | Some input =>
          match own recipeId recipes with
          | None => finish f UnknownRecipe
          | Some recipe =>
              if rr_prepares recipe then {| tk_frame := f; tk_stage := Preparing recipe |}
              else match VoiceWorkerInputSchema input with
                   | None => finish f BadRecipeInput
                   | Some input => begin_execute f (spawn_command recipe input)
                   end
          end
      end
  | WorkerRequest operation workerId =>
      if uuid workerId then begin_execute f (worker_command operation workerId) else finish f BadArguments
  | DeliveryRequest workerId messageId =>
      if uuid workerId && uuid messageId then begin_execute f (delivery_command workerId messageId) else finish f BadArguments
  end.

(** After [recipe.prepareInput]. *)
Definition prepared (f : Frame) (recipe : RegisteredGovernedWorkerRecipe) (answer : option VoiceWorkerInput) : Task :=
  match answer ≫= VoiceWorkerInputSchema with
  | None => finish f BadRecipeInput
  | Some input => begin_execute f (spawn_command recipe input)
  end.

Definition request_digest_json (c : Command) (authoritySha256 : jstr) : jsval :=
  JObj (field "v" (jnat 1) ++ field "operation" (jtext (operation_text (cm_operation c))) ++ field "request" (cm_request c) ++
        field "authorityReceiptSha256" (JStr authoritySha256)).

Definition journal_key (authority : GovernedWorkerAuthorityReceipt) (b : BoundContext) : jstr :=
  ar_conversationId authority ++ [0%N] ++ bc_idempotencyKey b.

(** [journal.run] up to its first await: the journal after it and where the operation waits. *)
Definition run (journal : obj MemoryJournalRecord) (ident : Identity) (fresh : Stage) : obj MemoryJournalRecord * Stage :=
  match own (id_key ident) journal with
  | Some prior => if negb (jr_requestSha256 prior =?s id_requestSha256 ident) then (journal, Finished (Err KeyReused))
                  else (journal, Awaiting ident)
  | None => (put (id_key ident) {| jr_requestSha256 := id_requestSha256 ident; jr_value := Unsettled |} journal, fresh)
  end.

(** After the authority resolver. *)
Definition authorized (journal : obj MemoryJournalRecord) (f : Frame) (c : Command) (b : BoundContext)
    (answer : option GovernedWorkerAuthorityReceipt) (nowMs : Z) : obj MemoryJournalRecord * Task :=
  match answer with
  | None => (journal, finish f NoAuthority)
  | Some value =>
      match assertAuthority (cm_operation c) b value nowMs (cm_recipeId c) (cm_workerId c) with
      | Err e => (journal, finish f e)
      | Ok authority =>
          match hashVoiceWorkerValue (authority_json authority) with
          | None => (journal, finish f NotHashable)
          | Some authoritySha256 =>
              match hashVoiceWorkerValue (request_digest_json c authoritySha256) with
              | None => (journal, finish f NotHashable)
              | Some requestSha256 =>
                  let ident := {| id_key := journal_key authority b; id_requestSha256 := requestSha256 |} in
                  let '(journal, stage) := run journal ident (Launching c b authority authoritySha256 ident) in
                  (journal, {| tk_frame := {| fr_invocation := fr_invocation f; fr_command := Some c; fr_context := Some b;
                                              fr_authority := Some (authority, authoritySha256); fr_identity := Some ident |};
                               tk_stage := stage |})
              end
          end
      end
  end.

(** The rest of the effect after the backend has answered. *)
Definition conclude (c : Command) (b : BoundContext) (authority : GovernedWorkerAuthorityReceipt) (authoritySha256 : jstr)
    (ident : Identity) (answer : option OperationOutcome) (nowMs : Z) : option CommandValue :=
  raw ← answer; outcome ← parse_outcome (cm_operation c) raw; outcomeSha256 ← hashVoiceWorkerValue (outcome_json outcome);
  if MAX_TIME <? Z.abs nowMs then None
  else
    let receipt := {| cr_operation := cm_operation c; cr_operationId := bc_invocationId b; cr_authorityReceiptId := ar_receiptId authority;
                      cr_authorityReceiptSha256 := authoritySha256; cr_idempotencyKey := bc_idempotencyKey b;
                      cr_requestSha256 := id_requestSha256 ident; cr_outcomeSha256 := outcomeSha256;
                      cr_workerId := workerIdFromOutcome outcome; cr_policyEpoch := ar_policyEpoch authority;
                      cr_conversationRevision := ar_conversationRevision authority; cr_issuedAt := toISOString nowMs |} in
    receiptSha256 ← hashVoiceWorkerValue (receipt_json receipt);
    Some {| cv_outcome := outcome; cv_receipt := receipt; cv_receiptSha256 := receiptSha256 |}.

Definition answer_of (value : option CommandValue) (replayed : bool) : result CoordinatorError GovernedWorkerCommandResult :=
  match value with Some value => Ok {| cr_value := value; cr_replayed := replayed |} | None => Err EffectFailed end.

(** ** Steps *)

Inductive Event : Type :=
| Invoked (request : Request) (invocation : Invocation)
| InputPrepared (task : nat) (answer : option VoiceWorkerInput)
| AuthorityResolved (task : nat) (answer : option GovernedWorkerAuthorityReceipt) (nowMs : Z)
| EffectStarted (task : nat)
| BackendAnswered (task : nat) (answer : option OperationOutcome) (nowMs : Z)
| JournalAnswered (task : nat).

Definition with_task (s : System) (i : nat) (journal : obj MemoryJournalRecord) (t : Task) (calls : list BackendCall) : System :=
  {| sy_journal := journal; sy_tasks := <[i := t]> (sy_tasks s); sy_calls := calls |}.

(** An event that is no answer to what its task waits for does not occur, and changes nothing. *)
Definition step (s : System) (e : Event) : System :=
  match e with
  | Invoked request i => {| sy_journal := sy_journal s; sy_tasks := sy_tasks s ++ [invoke request i]; sy_calls := sy_calls s |}
  | InputPrepared i answer =>
      match sy_tasks s !! i with
      | Some {| tk_frame := f; tk_stage := Preparing recipe |} => with_task s i (sy_journal s) (prepared f recipe answer) (sy_calls s)
      | _ => s
      end
  | AuthorityResolved i answer nowMs =>
      match sy_tasks s !! i with
      | Some {| tk_frame := f; tk_stage := Authorizing c b |} =>
          let '(journal, t) := authorized (sy_journal s) f c b answer nowMs in with_task s i journal t (sy_calls s)
      | _ => s
      end
  | EffectStarted i =>
      match sy_tasks s !! i with
      | Some {| tk_frame := f; tk_stage := Launching c b authority sha256 ident |} =>
          with_task s i (sy_journal s) {| tk_frame := f; tk_stage := Calling c b authority sha256 ident |}
            (sy_calls s ++ [{| bl_task := i; bl_command := c; bl_authority := authority; bl_idempotencyKey := bc_idempotencyKey b;
                               bl_key := id_key ident |}])
      | _ => s
      end
  | BackendAnswered i answer nowMs =>
      match sy_tasks s !! i with
      | Some {| tk_frame := f; tk_stage := Calling c b authority sha256 ident |} =>
          let value := conclude c b authority sha256 ident answer nowMs in
          with_task s i
            (put (id_key ident) {| jr_requestSha256 := id_requestSha256 ident;
                                      jr_value := match value with Some v => Resolved v | None => RejectedPromise end |} (sy_journal s))
            {| tk_frame := f; tk_stage := Finished (answer_of value false) |} (sy_calls s)
      | _ => s
      end
  | JournalAnswered i =>
      match sy_tasks s !! i with
      | Some {| tk_frame := f; tk_stage := Awaiting ident |} =>
          match own (id_key ident) (sy_journal s) with
          | Some {| jr_value := Resolved value |} =>
              with_task s i (sy_journal s) {| tk_frame := f; tk_stage := Finished (answer_of (Some value) true) |} (sy_calls s)
          | Some {| jr_value := RejectedPromise |} =>
              with_task s i (sy_journal s) {| tk_frame := f; tk_stage := Finished (answer_of None true) |} (sy_calls s)
          | _ => s
          end
      | _ => s
      end
  end.

Definition steps (es : list Event) (s : System) : System := fold_left step es s.

End Coordinator.

End VoiceWorkerCoordinator.
