(* ===== verification/VoiceWorkerCoordinatorProps.v ===== *)
(** * What the coordinator of voice workers guarantees

    An invariant of every reachable [System], by induction on its events. From it: the backend is
    called only on an authority that is current and of the invocation, at most once under one
    idempotency key, and every operation under a key has the one answer of that call. *)

From S2P Require Import Prelude JsValue JsText Canonical JsDate Graph Flow FlowValidate FlowRuntime ActionPolicy Conversation VoiceWorkers VoiceWorkersProps VoiceWorkerCoordinator.
Import Conversation VoiceWorkers VoiceWorkersProps VoiceWorkerCoordinator.

Local Open Scope Z_scope.

Module VoiceWorkerCoordinatorProps.

(** ** Recipes and commands *)

Section Registry.
Context `{Formats} `{Sha256}.

(** Every entry of a registry has its own name, of the shape of recipe names. *)
Definition registered (recipes : obj RegisteredGovernedWorkerRecipe) : Prop :=
  forall k r, own k recipes = Some r -> rr_id r = k /\ RECIPE_ID k = true.

Lemma register_entries rs : forall recipes recipes', registered recipes -> register rs recipes = Ok recipes' -> registered recipes'.
Proof.
  induction rs as [|r rs IH]; intros recipes recipes' Hr; cbn [register]; [by intros [= <-]|].
  destruct (_ || _) eqn:E; [done|]. destruct (VoiceWorkerCapabilityManifestSchema _) as [m|]; [|done].
  destruct (hashVoiceWorkerValue _) as [h|]; [|done]. apply IH. intros k e. rewrite own_put. destruct (k =?s gr_id r) eqn:Ek; [|apply Hr].
  apply str_eqb_eq in Ek as ->. intros [= <-]. split; [done|]. rewrite !orb_false_iff, !negb_false_iff in E. tauto.
Qed.

Lemma registry_entries rs recipes : GovernedWorkerRecipeRegistry rs = Ok recipes -> registered recipes.
Proof. unfold GovernedWorkerRecipeRegistry. destruct (_ || _); [done|]. by apply register_entries. Qed.

(** The targets of a command have their shapes. *)
Definition well_formed (c : Command) : Prop :=
  (forall r, cm_recipeId c = Some r -> RECIPE_ID r = true) /\ (forall w, cm_workerId c = Some w -> uuid w = true).

Lemma outside_spec (formatted : jstr -> bool) allowed target x : formatted [] = false -> (forall y, target = Some y -> formatted y = true) ->
  outside allowed target = false -> target = Some x -> x ∈ allowed.
Proof.
  intros He Hf Ho ->. specialize (Hf x eq_refl). unfold outside, truthy in Ho. destruct x; [by rewrite He in Hf|].
  apply negb_false_iff, includes_iff in Ho. done.
Qed.

End Registry.

Section Coordinator.
Context `{Formats} `{Sha256} (date_parse : jstr -> option Z) (recipes : obj RegisteredGovernedWorkerRecipe).
Hypothesis recipes_registered : registered recipes.

#[local] Abbreviation step := (step date_parse recipes).
#[local] Abbreviation steps := (steps date_parse recipes).
#[local] Abbreviation assertAuthority := (assertAuthority date_parse).

(** ** Operations that hold an authority *)

(** The operation of task [i] has an authority for its command: [es] are the events so far. *)
Record bound (es : list Event) (i : nat) (f : Frame) (c : Command) (b : BoundContext) (a : GovernedWorkerAuthorityReceipt) (h : jstr) (id : Identity) : Prop := {
  bd_command : fr_command f = Some c;
  bd_context : fr_context f = Some b;
  bd_authority : fr_authority f = Some (a, h);
  bd_identity : fr_identity f = Some id;
  bd_invocation : assertInvocation (cm_operation c) (fr_invocation f) = Ok b;
  bd_resolved : exists value nowMs, AuthorityResolved i (Some value) nowMs ∈ es /\
    assertAuthority (cm_operation c) b value nowMs (cm_recipeId c) (cm_workerId c) = Ok a;
  bd_authority_hash : hashVoiceWorkerValue (authority_json a) = Some h;
  bd_request_hash : hashVoiceWorkerValue (request_digest_json c h) = Some (id_requestSha256 id);
  bd_key : id_key id = journal_key a b;
  bd_well_formed : well_formed c;
}.

Definition record_of (id : Identity) (p : Promise) : MemoryJournalRecord := {| jr_requestSha256 := id_requestSha256 id; jr_value := p |}.

(** A task fits the journal. *)
Definition task_good (es : list Event) (journal : obj MemoryJournalRecord) (i : nat) (t : Task) : Prop :=
  match tk_stage t with
  | Preparing recipe => fr_identity (tk_frame t) = None /\ RECIPE_ID (rr_id recipe) = true
  | Authorizing c b => fr_identity (tk_frame t) = None /\ assertInvocation (cm_operation c) (fr_invocation (tk_frame t)) = Ok b /\ well_formed c
  | Launching c b a h id | Calling c b a h id =>
      bound es i (tk_frame t) c b a h id /\ own (id_key id) journal = Some (record_of id Unsettled)
  | Awaiting id => exists c b a h p, bound es i (tk_frame t) c b a h id /\ own (id_key id) journal = Some (record_of id p)
  | Finished (Ok r) => exists c b a h id, bound es i (tk_frame t) c b a h id /\ own (id_key id) journal = Some (record_of id (Resolved (cr_value r)))
  | Finished (Err _) => True
  end.

(** The key under which a task runs the effect, or ran it. *)
Definition owner_key (t : Task) : option jstr :=
  match tk_stage t with
  | Launching _ _ _ _ id | Calling _ _ _ _ id => Some (id_key id)
  | Finished (Ok r) => if cr_replayed r then None else id_key <$> fr_identity (tk_frame t)
  | _ => None
  end.
Definition launch_key (t : Task) : option jstr := match tk_stage t with Launching _ _ _ _ id => Some (id_key id) | _ => None end.

Definition call_good (es : list Event) (tasks : list Task) (call : BackendCall) : Prop :=
  exists t b h id, tasks !! bl_task call = Some t /\ bound es (bl_task call) (tk_frame t) (bl_command call) b (bl_authority call) h id /\
    bl_idempotencyKey call = bc_idempotencyKey b /\ bl_key call = id_key id.

Record good (es : list Event) (s : System) : Prop := {
  gd_tasks : forall i t, sy_tasks s !! i = Some t -> task_good es (sy_journal s) i t;
  gd_owners : forall i j t u k, sy_tasks s !! i = Some t -> sy_tasks s !! j = Some u -> owner_key t = Some k -> owner_key u = Some k -> i = j;
  gd_launches : forall i t k, sy_tasks s !! i = Some t -> launch_key t = Some k -> k ∉ bl_key <$> sy_calls s;
  gd_known : forall call, call ∈ sy_calls s -> is_Some (own (bl_key call) (sy_journal s));
  gd_once : NoDup (bl_key <$> sy_calls s);
  gd_calls : forall call, call ∈ sy_calls s -> call_good es (sy_tasks s) call;
  gd_answers : forall k r v, own k (sy_journal s) = Some r -> jr_value r = Resolved v -> cr_requestSha256 (cv_receipt v) = jr_requestSha256 r;
}.

Lemma bound_later es e i f c b a h id : bound es i f c b a h id -> bound (es ++ [e]) i f c b a h id.
Proof. intros []. destruct bd_resolved0 as (v & n & ? & ?). split; try done. exists v, n. split; [apply elem_of_app; by left|done]. Qed.
#[local] Hint Resolve bound_later : core.

Lemma call_good_later es e tasks tasks' call :
  (forall t id, tasks !! bl_task call = Some t -> fr_identity (tk_frame t) = Some id -> exists t', tasks' !! bl_task call = Some t' /\ tk_frame t' = tk_frame t) ->
  call_good es tasks call -> call_good (es ++ [e]) tasks' call.
Proof.
  intros Hf (t & b & h & id & Ht & Hb & Hi & Hk). destruct (Hf t id Ht (bd_identity _ _ _ _ _ _ _ _ Hb)) as (t' & Ht' & E).
  exists t', b, h, id. rewrite E. auto.
Qed.

(** What a task knows of the journal stays when a record is added, and when another record, or
    the promise of a record that only waits, is settled. *)
Lemma task_good_added es e journal i t k r : own k journal = None -> task_good es journal i t -> task_good (es ++ [e]) (put k r journal) i t.
Proof.
  intros Hn. assert (Hk : forall k' r', own k' journal = Some r' -> own k' (put k r journal) = Some r').
  { intros k' r' Hr. rewrite own_put_ne; [done|]. congruence. }
  unfold task_good. destruct (tk_stage t) as [| | | | |[]]; naive_solver.
Qed.

Lemma task_good_settled es e journal i t id p : own (id_key id) journal = Some (record_of id Unsettled) -> owner_key t <> Some (id_key id) ->
  task_good es journal i t -> task_good (es ++ [e]) (put (id_key id) (record_of id p) journal) i t.
Proof.
  intros Hu Ho. assert (Hk : forall k' r', k' <> id_key id -> own k' journal = Some r' -> own k' (put (id_key id) (record_of id p) journal) = Some r').
  { intros k' r' Hne Hr. by rewrite own_put_ne. }
  unfold task_good. unfold owner_key in Ho. destruct (tk_stage t) as [| |c b a h id'|c b a h id'|id'|[r|]]; try naive_solver.
  1, 2: intros [Hb Hr]; split; [by apply bound_later|]; apply Hk; [congruence|done].
  - intros (c & b & a & h & q & Hb & Hr). exists c, b, a, h. destruct (decide (id_key id' = id_key id)) as [E|E]; [|naive_solver].
    rewrite E in *. rewrite Hr in Hu. injection Hu as Eq ->. exists p. split; [by apply bound_later|]. rewrite own_put_eq. unfold record_of. by rewrite Eq.
  - intros (c & b & a & h & id' & Hb & Hr). exists c, b, a, h, id'. destruct (decide (id_key id' = id_key id)) as [E|E]; [|naive_solver].
    rewrite E, Hu in Hr. by injection Hr.
Qed.

(** ** Steps *)

(** One task moves on; [added] are the calls it makes. *)
Lemma good_moved es e s i t0 t journal added : good es s -> sy_tasks s !! i = Some t0 ->
  (tk_frame t = tk_frame t0 \/ fr_identity (tk_frame t0) = None) ->
  task_good (es ++ [e]) journal i t ->
  (forall j u, j <> i -> sy_tasks s !! j = Some u -> task_good es (sy_journal s) j u -> task_good (es ++ [e]) journal j u) ->
  (forall k, owner_key t = Some k -> owner_key t0 = Some k \/ own k (sy_journal s) = None) ->
  (forall k, launch_key t = Some k -> own k (sy_journal s) = None) ->
  (forall k, is_Some (own k (sy_journal s)) -> is_Some (own k journal)) ->
  (forall k r v, own k journal = Some r -> jr_value r = Resolved v -> cr_requestSha256 (cv_receipt v) = jr_requestSha256 r) ->
  (added = [] \/ exists call, added = [call] /\ launch_key t0 = Some (bl_key call) /\ launch_key t = None /\ is_Some (own (bl_key call) journal) /\
     call_good (es ++ [e]) (<[i := t]> (sy_tasks s)) call) ->
  good (es ++ [e]) (with_task s i journal t (sy_calls s ++ added)).
Proof.
  intros G Hi Hf Ht Hothers Howner Hlaunch Hgrow Hans Hadd. assert (Hlt : (i < length (sy_tasks s))%nat) by (by eapply lookup_lt_Some).
  assert (Hlook : forall j u, <[i := t]> (sy_tasks s) !! j = Some u -> (j = i /\ u = t) \/ (j <> i /\ sy_tasks s !! j = Some u)).
  { intros j u. rewrite list_lookup_insert_Some. naive_solver. }
  assert (Hkept : forall call, call ∈ sy_calls s -> call_good (es ++ [e]) (<[i := t]> (sy_tasks s)) call).
  { intros call Hc. eapply call_good_later; [|by apply (gd_calls _ _ G)]. intros u id Hu Hid. destruct (decide (bl_task call = i)) as [E|Hne].
    - rewrite E in *. rewrite list_lookup_insert_eq by done. exists t. split; [done|]. assert (u = t0) as -> by congruence. destruct Hf; [done|congruence].
    - rewrite list_lookup_insert_ne by done. eauto. }
  assert (Hown : forall j u k, j <> i -> sy_tasks s !! j = Some u -> owner_key u = Some k -> owner_key t <> Some k).
  { intros j u k Hne Hu Ho Hk. destruct (Howner k Hk) as [Hk'|Hn]; [by apply Hne; eapply (gd_owners _ _ G)|].
    pose proof (gd_tasks _ _ G j u Hu) as Hg. unfold task_good in Hg. unfold owner_key in Ho.
    destruct (tk_stage u) as [| | | | |[r|]]; try done; [naive_solver congruence|naive_solver congruence|].
    destruct (cr_replayed r); [done|]. destruct Hg as (c & b & a & h & id & Hb & Hr). rewrite (bd_identity _ _ _ _ _ _ _ _ Hb) in Ho. cbn in Ho. congruence. }
  split; unfold with_task; cbn [sy_tasks sy_journal sy_calls].
  - intros j u [[-> ->]|[Hne Hu]]%Hlook; [done|]. apply Hothers; [done..|]. by apply (gd_tasks _ _ G).
  - intros j l u v k [[-> ->]|[Hne Hu]]%Hlook [[-> ->]|[Hne' Hv]]%Hlook Ho Ho'; [done| | |by eapply (gd_owners _ _ G)]; exfalso; by eapply Hown.
  - intros j u k Hu Hk. rewrite fmap_app, elem_of_app. intros [Hin|Hin].
    + apply Hlook in Hu as [[-> ->]|[Hne Hu]]; [|by eapply (gd_launches _ _ G)]. apply list_elem_of_fmap in Hin as (call & -> & Hc).
      apply (gd_known _ _ G) in Hc as [? Hc]. apply Hlaunch in Hk. congruence.
    + destruct Hadd as [->|(call & -> & Hl & Hn & _)]; [by apply elem_of_nil in Hin|]. apply list_elem_of_singleton in Hin as ->.
      apply Hlook in Hu as [[-> ->]|[Hne Hu]]; [congruence|]. apply Hne. eapply (gd_owners _ _ G); [done|done| |].
      * unfold owner_key. unfold launch_key in Hk. by destruct (tk_stage u).
      * unfold owner_key. unfold launch_key in Hl. by destruct (tk_stage t0).
  - intros call [Hc|Hc]%elem_of_app; [by apply Hgrow, (gd_known _ _ G)|]. destruct Hadd as [->|(call' & -> & _ & _ & Hk & _)]; [by apply elem_of_nil in Hc|].
    by apply list_elem_of_singleton in Hc as ->.
  - rewrite fmap_app. destruct Hadd as [->|(call & -> & Hl & _)]; [rewrite app_nil_r; apply (gd_once _ _ G)|]. apply NoDup_app.
    split_and!; [apply (gd_once _ _ G)| |apply NoDup_singleton]. intros k Hk ->%list_elem_of_singleton. by eapply (gd_launches _ _ G).
  - intros call [Hc|Hc]%elem_of_app; [by apply Hkept|]. destruct Hadd as [->|(call' & -> & _ & _ & _ & Hg)]; [by apply elem_of_nil in Hc|].
    by apply list_elem_of_singleton in Hc as ->.
  - done.
Qed.

Lemma good_unchanged es e s : good es s -> good (es ++ [e]) s.
Proof.
  intros []. split; try done.
  - intros i t Ht. specialize (gd_tasks0 _ _ Ht). unfold task_good in *. destruct (tk_stage t) as [| | | | |[]]; naive_solver.
  - intros call Hc. eapply call_good_later; [|by apply gd_calls0]. eauto.
Qed.

(** A task before its authority is resolved. *)
Definition fresh_task (t : Task) : Prop := owner_key t = None /\ launch_key t = None /\ forall es journal i, task_good es journal i t.

Lemma finish_fresh f e : fresh_task (finish f e).
Proof. by repeat split. Qed.
#[local] Hint Resolve finish_fresh : core.

Lemma begin_execute_fresh f c : well_formed c -> fresh_task (begin_execute f c).
Proof.
  intros Hw. unfold begin_execute. destruct (assertInvocation _ _) as [e|b] eqn:E; [|done]. split_and!; [done..|]. intros. by split_and!.
Qed.

Lemma spawn_well_formed recipe input : RECIPE_ID (rr_id recipe) = true -> well_formed (spawn_command recipe input).
Proof. intros. split; [by intros ? [= <-]|done]. Qed.

Lemma prepared_fresh f recipe answer : RECIPE_ID (rr_id recipe) = true -> fresh_task (prepared f recipe answer).
Proof. intros. unfold prepared. destruct (_ ≫= _); [|done]. by apply begin_execute_fresh, spawn_well_formed. Qed.

Lemma invoke_fresh request i : fresh_task (invoke recipes request i).
Proof.
  destruct request as [recipeId input|operation workerId|workerId messageId]; cbn [invoke].
  - destruct (negb _); [done|]. destruct (VoiceWorkerInputSchema input) as [input'|]; [|done]. destruct (own recipeId recipes) as [recipe|] eqn:E; [|done].
    apply recipes_registered in E as [E1 E2]. rewrite <- E1 in E2. destruct (rr_prepares recipe); [by repeat split|].
    destruct (VoiceWorkerInputSchema input'); [|done]. by apply begin_execute_fresh, spawn_well_formed.
  - destruct (uuid workerId) eqn:E; [|done]. apply begin_execute_fresh. split; [done|]. by intros ? [= <-].
  - destruct (uuid workerId) eqn:E; [|done]. cbn [andb]. destruct (uuid messageId); [|done]. apply begin_execute_fresh. split; [done|]. by intros ? [= <-].
Qed.

Lemma good_fresh es e s i t0 t : good es s -> sy_tasks s !! i = Some t0 -> fr_identity (tk_frame t0) = None -> fresh_task t ->
  good (es ++ [e]) (with_task s i (sy_journal s) t (sy_calls s)).
Proof.
  intros G Hi Hf (Ho & Hl & Ht). rewrite <- (app_nil_r (sy_calls s)). eapply good_moved; eauto; try congruence; [|apply (gd_answers _ _ G)].
  intros j u _ Hu _. by apply (gd_tasks _ _ (good_unchanged es e s G)).
Qed.

Lemma good_invoked es e s request i : good es s ->
  good (es ++ [e]) {| sy_journal := sy_journal s; sy_tasks := sy_tasks s ++ [invoke recipes request i]; sy_calls := sy_calls s |}.
Proof.
  intros G. pose proof (good_unchanged es e s G) as G'. destruct (invoke_fresh request i) as (Ho & Hl & Ht). revert Ho Hl Ht. generalize (invoke recipes request i). intros t Ho Hl Ht.
  assert (Hlook : forall j u, (sy_tasks s ++ [t]) !! j = Some u -> u = t \/ sy_tasks s !! j = Some u).
  { intros j u [?|[_ Hu]]%lookup_app_Some; [by right|left]. by apply list_lookup_singleton_Some in Hu as [_ ->]. }
  split; cbn [sy_tasks sy_journal sy_calls]; try apply G'.
  - intros j u [->|Hu]%Hlook; [done|]. by apply (gd_tasks _ _ G').
  - intros j l u v k [->|Hu]%Hlook [->|Hv]%Hlook; [congruence..|]. by eapply (gd_owners _ _ G').
  - intros j u k [->|Hu]%Hlook; [congruence|]. by eapply (gd_launches _ _ G').
  - intros call Hc. apply (gd_calls _ _ G') in Hc as (u & b & h & id & Hu & Hb). exists u, b, h, id. split; [|done]. by apply lookup_app_l_Some.
Qed.

(** A new run of the journal. *)
Lemma good_authorized es s i f c b answer nowMs : good es s -> sy_tasks s !! i = Some {| tk_frame := f; tk_stage := Authorizing c b |} ->
  good (es ++ [AuthorityResolved i answer nowMs]) (step s (AuthorityResolved i answer nowMs)).
Proof.
  intros G Hi. cbn [VoiceWorkerCoordinator.step]. rewrite Hi. destruct (gd_tasks _ _ G _ _ Hi) as (Hf & Hinv & Hw). cbn [tk_frame] in Hf, Hinv.
  unfold authorized. destruct answer as [value|]; [|by eapply good_fresh]. destruct (assertAuthority _ _ _ _ _ _) as [a|] eqn:Ea; [|by eapply good_fresh].
  destruct (hashVoiceWorkerValue (authority_json a)) as [h|] eqn:Eh; [|by eapply good_fresh].
  destruct (hashVoiceWorkerValue (request_digest_json c h)) as [q|] eqn:Eq; [|by eapply good_fresh].
  set (id := {| id_key := journal_key a b; id_requestSha256 := q |}). set (f' := {| fr_identity := Some id |}).
  set (e := AuthorityResolved i (Some value) nowMs).
  assert (Hb : bound (es ++ [e]) i f' c b a h id).
  { split; try done. exists value, nowMs. split; [|done]. apply elem_of_app. right. by apply list_elem_of_singleton. }
  unfold run. destruct (own (id_key id) (sy_journal s)) as [prior|] eqn:Ep; cbn [id_key id_requestSha256] in *.
  - rewrite <- (app_nil_r (sy_calls s)). assert (Hprior : forall j u, j <> i -> sy_tasks s !! j = Some u -> task_good (es ++ [e]) (sy_journal s) j u).
    { intros j u _ Hu. by apply (gd_tasks _ _ (good_unchanged es e s G)). }
    destruct (negb _) eqn:En; eapply good_moved; eauto; try done; try apply (gd_answers _ _ G). apply negb_false_iff, str_eqb_eq in En.
    exists c, b, a, h, (jr_value prior). split; [done|]. cbn [id_key]. rewrite Ep. by destruct prior; cbn in En; subst.
  - rewrite <- (app_nil_r (sy_calls s)). eapply good_moved; eauto.
    + split; [done|]. apply own_put_eq.
    + intros j u _ _. by apply task_good_added.
    + intros k [= <-]. by right.
    + by intros k [= <-].
    + intros k [r Hr]. rewrite own_put_ne; [by eexists|]. congruence.
    + intros k r v. rewrite own_put. destruct (k =?s _); [by intros [= <-]|apply (gd_answers _ _ G)].
Qed.

(** The backend is called. *)
Lemma good_started es s i f c b a h id : good es s -> sy_tasks s !! i = Some {| tk_frame := f; tk_stage := Launching c b a h id |} ->
  good (es ++ [EffectStarted i]) (step s (EffectStarted i)).
Proof.
  intros G Hi. cbn [VoiceWorkerCoordinator.step]. rewrite Hi. pose proof (gd_tasks _ _ G _ _ Hi) as [Hb Hr]. cbn [tk_frame] in Hb.
  eapply good_moved; eauto; try done.
  - split; [by apply bound_later|done].
  - intros j u _ Hu _. by apply (gd_tasks _ _ (good_unchanged es _ s G)).
  - apply (gd_answers _ _ G).
  - right. eexists. split; [done|]. cbn [bl_key]. split_and!; [done..|by eexists|]. do 4 eexists. cbn [bl_task bl_command bl_authority bl_key bl_idempotencyKey].
    rewrite list_lookup_insert_eq by (by eapply lookup_lt_Some). cbn [tk_frame]. split_and!; [done|by apply bound_later|done..].
Qed.

Lemma conclude_request c b a h id answer nowMs v : conclude c b a h id answer nowMs = Some v -> cr_requestSha256 (cv_receipt v) = id_requestSha256 id.
Proof.
  unfold conclude. destruct answer as [o|]; [|done]. cbn [mbind option_bind]. destruct (parse_outcome _ o) as [o'|]; [|done]. cbn [mbind option_bind].
  destruct (hashVoiceWorkerValue (outcome_json o')); [|done]. cbn [mbind option_bind]. destruct (_ <? _); [done|].
  match goal with |- context [hashVoiceWorkerValue ?x] => destruct (hashVoiceWorkerValue x); [|done] end. by intros [= <-].
Qed.

(** The effect is settled. *)
Lemma good_answered es s i f c b a h id answer nowMs : good es s -> sy_tasks s !! i = Some {| tk_frame := f; tk_stage := Calling c b a h id |} ->
  good (es ++ [BackendAnswered i answer nowMs]) (step s (BackendAnswered i answer nowMs)).
Proof.
  intros G Hi. cbn [VoiceWorkerCoordinator.step]. rewrite Hi. pose proof (gd_tasks _ _ G _ _ Hi) as [Hb Hr]. cbn [tk_frame] in Hb.
  rewrite <- (app_nil_r (sy_calls s)). fold (record_of id (match conclude c b a h id answer nowMs with Some v => Resolved v | None => RejectedPromise end)).
  eapply good_moved; eauto.
  - unfold task_good. cbn [tk_stage]. destruct (conclude _ _ _ _ _ _ _) as [v|]; [|done]. cbn [answer_of cr_value tk_frame]. exists c, b, a, h, id.
    split; [by apply bound_later|apply own_put_eq].
  - intros j u Hne Hu. apply task_good_settled; [done|]. intros Ho. by apply Hne; eapply (gd_owners _ _ G).
  - intros k. unfold owner_key at 1. cbn [tk_stage tk_frame]. destruct (conclude _ _ _ _ _ _ _); [|done]. cbn [answer_of cr_replayed].
    rewrite (bd_identity _ _ _ _ _ _ _ _ Hb). cbn. by left.
  - done.
  - intros k [r Hk]. rewrite own_put. destruct (k =?s _); by eexists.
  - intros k r v. rewrite own_put. destruct (k =?s _); [|apply (gd_answers _ _ G)]. intros [= <-]. cbn [jr_value record_of jr_requestSha256].
    destruct (conclude _ _ _ _ _ _ _) as [w|] eqn:Ec; [|done]. intros [= <-]. by eapply conclude_request.
Qed.

(** An operation has the answer of an earlier run. *)
Lemma good_replayed es s i f id : good es s -> sy_tasks s !! i = Some {| tk_frame := f; tk_stage := Awaiting id |} ->
  good (es ++ [JournalAnswered i]) (step s (JournalAnswered i)).
Proof.
  intros G Hi. cbn [VoiceWorkerCoordinator.step]. rewrite Hi. pose proof (gd_tasks _ _ G _ _ Hi) as (c & b & a & h & p & Hb & Hr). cbn [tk_frame] in Hb.
  rewrite Hr. unfold record_of. assert (Hprior : forall j u, j <> i -> sy_tasks s !! j = Some u -> task_good (es ++ [JournalAnswered i]) (sy_journal s) j u).
  { intros j u _ Hu. by apply (gd_tasks _ _ (good_unchanged es _ s G)). }
  destruct p as [|v|]; [by apply good_unchanged| |]; rewrite <- (app_nil_r (sy_calls s)); eapply good_moved; eauto; try done; try apply (gd_answers _ _ G).
  exists c, b, a, h, id. split; [by apply bound_later|done].
Qed.

Lemma step_good es s e : good es s -> good (es ++ [e]) (step s e).
Proof.
  intros G. destruct e as [request inv|i answer|i answer nowMs|i|i answer nowMs|i]; [by apply good_invoked|..];
    (destruct (sy_tasks s !! i) as [[f st]|] eqn:Hi; [|cbn [VoiceWorkerCoordinator.step]; rewrite Hi; by apply good_unchanged]);
    destruct st; try (cbn [VoiceWorkerCoordinator.step]; rewrite Hi; by apply good_unchanged).
  - cbn [VoiceWorkerCoordinator.step]. rewrite Hi. destruct (gd_tasks _ _ G _ _ Hi) as [Hf Hr]. eapply good_fresh; eauto. by apply prepared_fresh.
  - by eapply good_authorized.
  - by eapply good_started.
  - by eapply good_answered.
  - by eapply good_replayed.
Qed.

Lemma reachable_good es : good es (steps es initial).
Proof.
  induction es as [|e es IH] using rev_ind; [|unfold VoiceWorkerCoordinator.steps; rewrite fold_left_app; by apply step_good].
  split; cbn [VoiceWorkerCoordinator.steps fold_left initial sy_tasks sy_journal sy_calls]; try done; try constructor; intros call Hc; by apply elem_of_nil in Hc.
Qed.

End Coordinator.

(** ** The theorems *)

(** The authority is the receipt of this invocation, permits this command and is current. *)
Record authorises (date_parse : jstr -> option Z) (a : GovernedWorkerAuthorityReceipt) (c : Command) (i : Invocation) (nowMs : Z) : Prop := {
  au_receipt : vx_receiptId (in_context i) = Some (ar_receiptId a);
  au_invocation : vx_invocationId (in_context i) = Some (ar_invocationId a);
  au_runtime : vx_runtimeDigest (in_context i) = Some (ar_runtimeDigest a);
  au_scope : in_scope i = {| vs_callId := ar_callId a; vs_agentId := ar_agentId a; vs_orgId := ar_organizationId a |};
  au_audience : vx_audience (in_context i) ∈ allowedAudiences (cm_operation c);
  au_operation : cm_operation c ∈ ar_allowedOperations a;
  au_recipe : forall r, cm_recipeId c = Some r -> r ∈ ar_allowedRecipeIds a;
  au_worker : forall w ids, cm_workerId c = Some w -> ar_allowedWorkerIds a = Some ids -> w ∈ ids;
  au_issued : forall t, date_parse (ar_issuedAt a) = Some t -> t <= nowMs;
  au_expires : forall t, date_parse (ar_expiresAt a) = Some t -> nowMs < t;
}.

Section Claims.
Context `{Formats} `{Sha256} (date_parse : jstr -> option Z) (rs : list GovernedWorkerRecipe) (recipes : obj RegisteredGovernedWorkerRecipe).

Lemma truthy_value s t : truthy s = Some t -> s = Some t.
Proof. destruct s as [[|]|]; [done|by intros [= <-]|done]. Qed.

Lemma invocation_context o i b : assertInvocation o i = Ok b ->
  vx_audience (in_context i) ∈ allowedAudiences o /\ bc_scope b = in_scope i /\ vx_invocationId (in_context i) = Some (bc_invocationId b) /\
  vx_idempotencyKey (in_context i) = Some (bc_idempotencyKey b) /\
  vx_receiptId (in_context i) = Some (bc_receiptId b) /\ vx_runtimeDigest (in_context i) = Some (bc_runtimeDigest b).
Proof.
  unfold assertInvocation. destruct (_ || _); [done|]. destruct (negb _) eqn:Ea; [done|]. apply negb_false_iff, includes_iff in Ea.
  destruct (truthy (vx_invocationId _)) eqn:E1; [|done]. destruct (truthy (vx_idempotencyKey _)) eqn:E2; [|done].
  destruct (truthy (vx_receiptId _)) eqn:E3; [|done]. destruct (truthy (vx_runtimeDigest _)) eqn:E4; [|done]. destruct (negb _); [done|].
  apply truthy_value in E1, E2, E3, E4. by intros [= <-].
Qed.

Lemma authority_authorises c i b value nowMs a : uuid [] = false -> well_formed c -> assertInvocation (cm_operation c) i = Ok b ->
  assertAuthority date_parse (cm_operation c) b value nowMs (cm_recipeId c) (cm_workerId c) = Ok a ->
  GovernedWorkerAuthorityReceiptSchema date_parse value = Some a /\ authorises date_parse a c i nowMs.
Proof.
  intros Hu [Hr Hw] (Ha & Hs & Hi & _ & Hreceipt & Hd)%invocation_context. unfold assertAuthority.
  destruct (GovernedWorkerAuthorityReceiptSchema date_parse value) as [a'|]; [|done].
  destruct (_ || _) eqn:Em; [done|]. rewrite !orb_false_iff, !negb_false_iff, !str_eqb_eq in Em. destruct Em as [[[[[E1 E2] E3] E4] E5] E6].
  destruct (negb _) eqn:Eo; [done|]. apply negb_false_iff, includes_iff in Eo. destruct (outside _ _) eqn:Er; [done|]. destruct (match ar_allowedWorkerIds a' with Some _ => _ | None => _ end) eqn:Ew; [done|].
  destruct (_ || _) eqn:Et; [done|]. apply orb_false_iff in Et as [Et1 Et2]. intros [= ->]. split; [done|]. split; try done; try congruence.
  - rewrite <- Hs, E4, E5, E6. by destruct (bc_scope b).
  - intros r Er'. by eapply (outside_spec RECIPE_ID).
  - intros w ids Ew' Eids. rewrite Eids in Ew. by eapply (outside_spec uuid).
  - intros t E. rewrite E in Et1. cbn in Et1. by apply Z.ltb_ge in Et1.
  - intros t E. rewrite E in Et2. cbn in Et2. by apply Z.leb_gt in Et2.
Qed.

(** C16. The backend is called on authority only, and at most once under one idempotency key of a conversation: in every
    reachable state no two of the calls made so far share a conversation and an idempotency key, and each call
    carries a receipt that the resolver answered for its operation, in schema, with the receipt, invocation,
    runtime and scope of the invocation, an audience and an operation that are permitted, a recipe and a worker among
    those it lists, and valid at the time of the check. *)
Theorem backend_called_on_authority es : GovernedWorkerRecipeRegistry rs = Ok recipes -> uuid [] = false ->
  let s := steps date_parse recipes es initial in
  NoDup ((fun call => (ar_conversationId (bl_authority call), bl_idempotencyKey call)) <$> sy_calls s) /\
  forall call, call ∈ sy_calls s -> exists t value nowMs,
    sy_tasks s !! bl_task call = Some t /\ vx_idempotencyKey (in_context (fr_invocation (tk_frame t))) = Some (bl_idempotencyKey call) /\
    AuthorityResolved (bl_task call) (Some value) nowMs ∈ es /\
    GovernedWorkerAuthorityReceiptSchema date_parse value = Some (bl_authority call) /\
    authorises date_parse (bl_authority call) (bl_command call) (fr_invocation (tk_frame t)) nowMs.
Proof.
  intros Hr Hu s. pose proof (reachable_good date_parse recipes (registry_entries _ _ Hr) es) as G. fold s in G. split.
  - assert (Hk : forall call, call ∈ sy_calls s -> bl_key call = ar_conversationId (bl_authority call) ++ [0%N] ++ bl_idempotencyKey call).
    { intros call (t & b & h & id & _ & Hb & Hi & ->)%(gd_calls _ _ _ G). by rewrite Hi, (bd_key _ _ _ _ _ _ _ _ _ Hb). }
    pose proof (gd_once _ _ _ G) as Hn. revert Hn Hk. induction (sy_calls s) as [|call l IH]; [constructor|]. cbn [fmap list_fmap].
    intros [Hx Hn]%NoDup_cons Hk. apply NoDup_cons. split; [|apply IH; [done|intros; apply Hk; by right]].
    intros (call' & [= E1 E2] & Hc)%list_elem_of_fmap. apply Hx. rewrite (Hk call), E1, E2, <- (Hk call') by (by left || by right).
    by apply list_elem_of_fmap_2.
  - intros call (t & b & h & id & Ht & Hb & Hi & _)%(gd_calls _ _ _ G). destruct (bd_resolved _ _ _ _ _ _ _ _ _ Hb) as (value & nowMs & He & Ha).
    pose proof (bd_invocation _ _ _ _ _ _ _ _ _ Hb) as Hinv. apply authority_authorises with (i := fr_invocation (tk_frame t)) in Ha as [? ?]; try done; [|by apply (bd_well_formed _ _ _ _ _ _ _ _ _ Hb)].
    exists t, value, nowMs. split_and!; try done. apply invocation_context in Hinv as (_ & _ & _ & -> & _). by rewrite Hi.
Qed.

(** *** Requests under one key *)

Context `{!Sha256Ok _}.

Lemma authority_proto_free a : proto_free (authority_json a) = true.
Proof.
  unfold authority_json. cbn [proto_free]. rewrite !forallb_app. unfold opt_field, texts_json. destruct (ar_allowedWorkerIds a) as [ids|];
    cbn [field forallb fst snd proto_free]; rewrite ?andb_true_r; repeat (apply andb_true_iff; split); try reflexivity;
    apply forallb_forall; intros v (x & <- & _)%in_map_iff; reflexivity.
Qed.

Definition digest_fields (c : Command) (h : jstr) : obj jsval :=
  [(js "v", jnat 1); (js "operation", jtext (operation_text (cm_operation c))); (js "request", cm_request c); (js "authorityReceiptSha256", JStr h)].

Lemma digest_readable c h : val_ok (cm_request c) -> proto_free (cm_request c) = true -> is_sha256 h = true ->
  val_ok (JObj (digest_fields c h)) /\ proto_free (JObj (digest_fields c h)) = true.
Proof.
  intros Hv Hp Hh. split.
  - apply val_ok_obj. split; [apply (bool_decide_unpack _); vm_compute; exact I|]. unfold digest_fields.
    repeat (apply Forall_cons; split; [split; [apply js_units|]|]); [..|apply Forall_nil; exact I]; cbn [snd];
      [exact (num_of_Z_ok _)|apply js_units|done|by apply sha256_units].
  - cbn [proto_free digest_fields forallb fst snd jnat jtext]. by rewrite Hp.
Qed.

Lemma operation_text_inj o o' : js (operation_text o) = js (operation_text o') -> o = o'.
Proof. destruct o, o'; try done; intros E; vm_compute in E; done. Qed.

(** One request digest is of one operation, request and authority. *)
Lemma same_request c c' a a' h h' q : val_ok (cm_request c) -> val_ok (cm_request c') -> proto_free (cm_request c) = true -> proto_free (cm_request c') = true ->
  val_ok (authority_json a) -> val_ok (authority_json a') ->
  hashVoiceWorkerValue (authority_json a) = Some h -> hashVoiceWorkerValue (authority_json a') = Some h' ->
  hashVoiceWorkerValue (request_digest_json c h) = Some q -> hashVoiceWorkerValue (request_digest_json c' h') = Some q ->
  (cm_operation c = cm_operation c' /\ norm (cm_request c) = norm (cm_request c') /\ norm (authority_json a) = norm (authority_json a')) \/
  collides (request_digest_json c h) (request_digest_json c' h') \/ collides (authority_json a) (authority_json a').
Proof.
  intros Hc Hc' Pc Pc' Ha Ha' Eh Eh' Eq Eq'. assert (Hh : forall v k, hashVoiceWorkerValue v = Some k -> is_sha256 k = true).
  { intros v k (t & _ & ->)%fmap_Some. apply sha256_hex. }
  change (request_digest_json c h) with (JObj (digest_fields c h)) in Eq. change (request_digest_json c' h') with (JObj (digest_fields c' h')) in Eq'.
  destruct (digest_readable c h Hc Pc (Hh _ _ Eh)) as [V P]. destruct (digest_readable c' h' Hc' Pc' (Hh _ _ Eh')) as [V' P'].
  destruct (worker_hash_content _ _ _ V V' P P' Eq Eq') as [E|?]; [|by right; left].
  apply norm_fields in E; [|apply (bool_decide_unpack _); vm_compute; exact I|reflexivity]. unfold digest_fields in E.
  do 4 (apply Forall2_cons in E as [? E]). cbn [snd norm jtext] in *. simplify_eq.
  assert (cm_operation c = cm_operation c') by (apply operation_text_inj; congruence).
  destruct (worker_hash_content _ _ _ Ha Ha' (authority_proto_free _) (authority_proto_free _) Eh Eh'); [by left|by right; right].
Qed.

(** Operation [i] has carried out [c] under the authority [a], whose hash is [h], and answered [r]. *)
Definition answered (s : System) (i : nat) (c : Command) (b : BoundContext) (a : GovernedWorkerAuthorityReceipt) (h : jstr) (r : GovernedWorkerCommandResult) : Prop :=
  exists t, sy_tasks s !! i = Some t /\ tk_stage t = Finished (Ok r) /\ fr_command (tk_frame t) = Some c /\
    fr_context (tk_frame t) = Some b /\ fr_authority (tk_frame t) = Some (a, h).
(** A request and an authority that are JSON of code units. *)
Definition readable (c : Command) (a : GovernedWorkerAuthorityReceipt) : Prop :=
  val_ok (cm_request c) /\ proto_free (cm_request c) = true /\ val_ok (authority_json a).

(** C17. All operations under one idempotency key of a conversation have the one answer: of two that succeeded, in any reachable
    state, both have the same outcome and receipt, at most one ran the effect itself, their request digest is the one that the
    receipt names, and both were the same operation with the same request and authority receipt - or SHA-256 collides on
    the two different texts of their request digests, or on those of their authority receipts. *)
Theorem one_answer_per_key es i j c c' b b' a a' h h' r r' : GovernedWorkerRecipeRegistry rs = Ok recipes ->
  let s := steps date_parse recipes es initial in
  answered s i c b a h r -> answered s j c' b' a' h' r' ->
  ar_conversationId a = ar_conversationId a' -> bc_idempotencyKey b = bc_idempotencyKey b' -> readable c a -> readable c' a' ->
  cr_value r = cr_value r' /\ (i <> j -> cr_replayed r = true \/ cr_replayed r' = true) /\
  hashVoiceWorkerValue (request_digest_json c h) = Some (cr_requestSha256 (cv_receipt (cr_value r))) /\
  ((cm_operation c = cm_operation c' /\ norm (cm_request c) = norm (cm_request c') /\ norm (authority_json a) = norm (authority_json a')) \/
   collides (request_digest_json c h) (request_digest_json c' h') \/ collides (authority_json a) (authority_json a')).
Proof.
  intros Hr s (t & Ht & Hst & Ec & Eb & Ea) (u & Hu & Hsu & Ec' & Eb' & Ea') Ek Ei (? & ? & ?) (? & ? & ?).
  pose proof (reachable_good date_parse recipes (registry_entries _ _ Hr) es) as G. fold s in G.
  pose proof (gd_tasks _ _ _ G _ _ Ht) as Gt. pose proof (gd_tasks _ _ _ G _ _ Hu) as Gu. unfold task_good in Gt, Gu. rewrite Hst in Gt. rewrite Hsu in Gu.
  destruct Gt as (c0 & b0 & a0 & h0 & id & Bt & Jt). destruct Gu as (c1 & b1 & a1 & h1 & id' & Bu & Ju).
  rewrite (bd_command _ _ _ _ _ _ _ _ _ Bt) in Ec. rewrite (bd_authority _ _ _ _ _ _ _ _ _ Bt) in Ea. rewrite (bd_context _ _ _ _ _ _ _ _ _ Bt) in Eb.
  rewrite (bd_command _ _ _ _ _ _ _ _ _ Bu) in Ec'. rewrite (bd_authority _ _ _ _ _ _ _ _ _ Bu) in Ea'. rewrite (bd_context _ _ _ _ _ _ _ _ _ Bu) in Eb'.
  simplify_eq. assert (Hid : id_key id = id_key id').
  { rewrite (bd_key _ _ _ _ _ _ _ _ _ Bt), (bd_key _ _ _ _ _ _ _ _ _ Bu). unfold journal_key. by rewrite Ek, Ei. }
  pose proof Jt as Jt'. rewrite Hid, Ju in Jt'. injection Jt' as Eq Ev. split_and!.
  - done.
  - intros Hne. destruct (cr_replayed r) eqn:Er; [by left|]. destruct (cr_replayed r') eqn:Er'; [by right|]. destruct Hne.
    eapply (gd_owners _ _ _ G); [exact Ht|exact Hu|unfold owner_key; rewrite Hst, Er, (bd_identity _ _ _ _ _ _ _ _ _ Bt); reflexivity|].
    unfold owner_key. by rewrite Hsu, Er', (bd_identity _ _ _ _ _ _ _ _ _ Bu), Hid.
  - rewrite (gd_answers _ _ _ G _ _ _ Jt eq_refl). apply (bd_request_hash _ _ _ _ _ _ _ _ _ Bt).
  - eapply same_request; try done; [apply (bd_authority_hash _ _ _ _ _ _ _ _ _ Bt)|apply (bd_authority_hash _ _ _ _ _ _ _ _ _ Bu)|apply (bd_request_hash _ _ _ _ _ _ _ _ _ Bt)|].
    rewrite <- Eq. apply (bd_request_hash _ _ _ _ _ _ _ _ _ Bu).
Qed.

End Claims.
End VoiceWorkerCoordinatorProps.
