(* ===== verification/VoiceWorkerBackend.v ===== *)
(** * The backend of governed voice workers on the durable store
    (src/web/lib/voice-workers/store-coordinator-backend.ts)

    The five operations that the coordinator calls, on top of the transitions of the store and
    of the dependencies that the host supplies. These are parameters: a [World] says what each
    answers, or that it throws. An operation makes at most one call of each; its meaning is the
    calls it makes, in order, and its outcome.

    Of a durable worker and of an inbox message the fields are here that the backend reads or
    passes on one by one. *)

From S2P Require Import Prelude JsValue JsText Canonical JsDate Graph Flow FlowValidate FlowRuntime ActionPolicy Conversation VoiceWorkers VoiceWorkerCoordinator.
Import Conversation VoiceWorkers VoiceWorkerCoordinator.

Local Open Scope Z_scope.

Module VoiceWorkerBackend.

(** ** Data *)

Record DurableVoiceWorker := {
  dw_id : jstr;
  dw_conversationId : jstr;
  dw_organizationId : jstr;
  dw_sourceCallId : option jstr;
  dw_workerKind : jstr;
  dw_authority : VoiceWorkerSpawnAuthority;
  dw_authoritySha256 : jstr;
  dw_inputSha256 : jstr;
  dw_capabilityManifestSha256 : jstr;
  dw_status : VoiceWorkerStatus;
  dw_leaseExpiresAt : option jstr;
  dw_dispatchStartedAt : option jstr;
  dw_cancellationEpoch : Z;
  dw_claimedCancellationEpoch : option Z;
  dw_checkpoint : option VoiceWorkerCheckpoint;
  dw_checkpointSha256 : option jstr;
  dw_resultSha256 : option jstr;
  dw_settledAt : option jstr;
}.

Record DurableVoiceWorkerDelivery := {
  dd_id : jstr; dd_conversationId : jstr; dd_organizationId : jstr; dd_sourceCallId : option jstr; dd_authority : VoiceWorkerSpawnAuthority;
  dd_authoritySha256 : jstr; dd_resultSha256 : jstr; dd_settledAt : jstr
}.

Inductive InboxKind : Type := ResultKind (result : VoiceWorkerResult) (resultSha256 : jstr) | TerminalKind.
Record DurableConversationInboxMessage := {
  dm_id : jstr; dm_conversationId : jstr; dm_workerId : jstr; dm_deliveryToken : option jstr; dm_kind : InboxKind
}.

Record EventIdentity := { ei_idempotencyKey : jstr; ei_eventId : jstr; ei_occurredAtMs : option Z }.

(** The arguments of [transitions.spawn]; its authority has no head, revision or manifest yet. *)
Record SpawnTransition := {
  st_expectedHead : Z * jstr;
  st_conversationEvent : EventIdentity;
  st_workerIdempotencyKey : jstr;
  st_workerKind : jstr;
  st_conversationId : jstr;
  st_organizationId : jstr;
  st_agentId : jstr;
  st_agentVersion : Z;
  st_source : SpawnSource;
  st_goalId : jstr;
  st_policyEpoch : Z;
  st_factDependencies : list FactDependency;
  st_workerInput : VoiceWorkerInput;
  st_capabilityManifest : VoiceWorkerCapabilityManifest;
  st_sourceCallId : jstr;
}.
(** The arguments of [transitions.deliver]. *)
Record DeliverTransition := {
  dt_expectedHead : Z * jstr;
  dt_conversationEvent : EventIdentity;
  dt_organizationId : jstr;
  dt_deliveryToken : jstr;
  dt_applicationId : jstr;
  dt_worker : DurableVoiceWorkerDelivery;
  dt_message : DurableConversationInboxMessage;
}.

(** What [transitions.deliver] answers: the event it committed and the decision of the conversation, or
    [GovernedWorkerResultNotApplicableError] with a decision. *)
Inductive DeliverAnswer : Type :=
| Applied (eventId eventSha256 : jstr) (decision : DeliveryDisposition)
| NotApplicable (decision : DeliveryDisposition) (reason : option jstr).

Record ReconcileAnswer := {
  rn_worker : DurableVoiceWorker; rn_disposition : ReconciliationDisposition; rn_evidenceSha256 : option jstr; rn_reason : option jstr
}.

(** [None]: the dependency throws. *)
Record World := {
  loadWorker : jstr -> jstr -> jstr -> option (option DurableVoiceWorker);
  claimInboxMessage : jstr -> jstr -> jstr -> jstr -> option (option DurableConversationInboxMessage);
  reconcileWorker : DurableVoiceWorker -> GovernedWorkerAuthorityReceipt -> jstr -> option ReconcileAnswer;
  transitions_spawn : SpawnTransition -> option DurableVoiceWorker;
  transitions_cancel : jstr -> jstr -> option DurableVoiceWorker;
  transitions_deliver : DeliverTransition -> option DeliverAnswer;
}.

(** Calls of dependencies. *)
Inductive Call : Type :=
| CLoad (workerId organizationId conversationId : jstr)
| CClaim (messageId workerId organizationId conversationId : jstr)
| CReconcile (worker : DurableVoiceWorker) (authority : GovernedWorkerAuthorityReceipt) (idempotencyKey : jstr)
| CSpawn (input : SpawnTransition)
| CCancel (workerId organizationId : jstr)
| CDeliver (input : DeliverTransition).

Inductive BackendError : Type := Threw | NotFound | CrossedScope | OtherManifest | BadSnapshot | BadClaim | BadIdentity | IllTyped.

(** ** Calls and errors *)

Definition M (A : Type) : Type := list Call * result BackendError A.
Definition ret {A} (a : A) : M A := ([], Ok a).
Definition throw {A} (e : BackendError) : M A := ([], Err e).
Definition bindM {A B} (m : M A) (k : A -> M B) : M B :=
  match m.2 with Ok a => (m.1 ++ (k a).1, (k a).2) | Err e => (m.1, Err e) end.
Notation "'let!' x ':=' m 'in' k" := (bindM m (fun x => k)) (at level 10, x pattern, k at level 200).
Definition ask {A} (c : Call) (answer : option A) : M A := ([c], match answer with Some a => Ok a | None => Err Threw end).
Definition require {A} (e : BackendError) (o : option A) : M A := match o with Some a => ret a | None => throw e end.
Definition guard (e : BackendError) (b : bool) : M unit := if b then ret tt else throw e.

Section Backend.
Context `{Formats} `{Sha256} (date_parse : jstr -> option Z) (w : World).

Definition TERMINAL_WORKER_STATUSES (s : VoiceWorkerStatus) : bool :=
  match s with Succeeded | Failed | Cancelled | Indeterminate => true | _ => false end.

Definition projectSnapshot (worker : DurableVoiceWorker) : option GovernedWorkerSnapshot :=
  checkpoint ← match dw_checkpoint worker with
               | None => Some None
               | Some c => c ← VoiceWorkerCheckpointSchema c; sha ← dw_checkpointSha256 worker;
                           Some (Some {| cs_phase := ck_phase c; cs_progress := ck_progress c; cs_checkpointSha256 := sha |})
               end;
  GovernedWorkerSnapshotSchema
    {| ws_id := dw_id worker; ws_conversationId := dw_conversationId worker; ws_organizationId := dw_organizationId worker;
       ws_workerKind := dw_workerKind worker; ws_status := dw_status worker; ws_authoritySha256 := dw_authoritySha256 worker;
       ws_inputSha256 := dw_inputSha256 worker; ws_capabilityManifestSha256 := dw_capabilityManifestSha256 worker;
       ws_cancellationEpoch := dw_cancellationEpoch worker; ws_claimedCancellationEpoch := dw_claimedCancellationEpoch worker;
       ws_leaseExpiresAt := dw_leaseExpiresAt worker; ws_dispatchStartedAt := dw_dispatchStartedAt worker; ws_checkpoint := checkpoint;
       ws_resultSha256 := dw_resultSha256 worker; ws_settledAt := dw_settledAt worker |}.

Definition in_scope_of (worker : DurableVoiceWorker) (authority : GovernedWorkerAuthorityReceipt) (workerId : option jstr) : bool :=
  match truthy workerId with Some id => dw_id worker =?s id | None => true end &&
  (dw_conversationId worker =?s ar_conversationId authority) && (dw_organizationId worker =?s ar_organizationId authority) &&
  (sa_agentId (dw_authority worker) =?s ar_agentId authority).
Definition assertScope (worker : DurableVoiceWorker) (authority : GovernedWorkerAuthorityReceipt) (workerId : option jstr) : M unit :=
  guard CrossedScope (in_scope_of worker authority workerId).

Definition succeededDeliveryProjection (worker : DurableVoiceWorker) : option DurableVoiceWorkerDelivery :=
  match dw_status worker, truthy (dw_resultSha256 worker), truthy (dw_settledAt worker) with
  | Succeeded, Some resultSha256, Some settledAt =>
      Some {| dd_id := dw_id worker; dd_conversationId := dw_conversationId worker; dd_organizationId := dw_organizationId worker;
              dd_sourceCallId := dw_sourceCallId worker; dd_authority := dw_authority worker; dd_authoritySha256 := dw_authoritySha256 worker;
              dd_resultSha256 := resultSha256; dd_settledAt := settledAt |}
  | _, _, _ => None
  end.

Definition eventIdentity (authority : GovernedWorkerAuthorityReceipt) (operation idempotencyKey : jstr) : option EventIdentity :=
  digest ← hashVoiceWorkerValue (JObj (field "operation" (JStr operation) ++ field "conversationId" (JStr (ar_conversationId authority)) ++
                                       field "idempotencyKey" (JStr idempotencyKey)));
  Some {| ei_idempotencyKey := js "gw:" ++ digest; ei_eventId := js "governed-worker/" ++ operation ++ js "/" ++ digest;
          ei_occurredAtMs := date_parse (ar_issuedAt authority) |}.

Definition expected_head (authority : GovernedWorkerAuthorityReceipt) : Z * jstr :=
  (ar_conversationRevision authority, ar_conversationHeadSha256 authority).

(** ** The operations *)

Definition snapshot (worker : DurableVoiceWorker) : M GovernedWorkerSnapshot := require BadSnapshot (projectSnapshot worker).
Definition load (authority : GovernedWorkerAuthorityReceipt) (workerId : jstr) : M (option DurableVoiceWorker) :=
  ask (CLoad workerId (ar_organizationId authority) (ar_conversationId authority))
      (loadWorker w workerId (ar_organizationId authority) (ar_conversationId authority)).

Definition spawn (authority : GovernedWorkerAuthorityReceipt) (recipe : RegisteredGovernedWorkerRecipe) (workerInput : VoiceWorkerInput)
    (idempotencyKey : jstr) : M OperationOutcome :=
  let! event := require BadIdentity (eventIdentity authority (js "spawn") idempotencyKey) in
  let input := {| st_expectedHead := expected_head authority; st_conversationEvent := event; st_workerIdempotencyKey := idempotencyKey;
                  st_workerKind := rr_workerKind recipe; st_conversationId := ar_conversationId authority;
                  st_organizationId := ar_organizationId authority; st_agentId := ar_agentId authority;
                  st_agentVersion := ar_agentVersion authority; st_source := FromVoiceCall; st_goalId := ar_goalId authority;
                  st_policyEpoch := ar_policyEpoch authority; st_factDependencies := ar_factDependencies authority;
                  st_workerInput := workerInput; st_capabilityManifest := rr_capabilityManifest recipe;
                  st_sourceCallId := ar_callId authority |} in
  let! worker := ask (CSpawn input) (transitions_spawn w input) in
  let! _ := assertScope worker authority None in
  let! _ := guard OtherManifest (dw_capabilityManifestSha256 worker =?s rr_capabilityManifestSha256 recipe) in
  let! s := snapshot worker in
  ret (WorkerOutcome (Some s)).

Definition status (authority : GovernedWorkerAuthorityReceipt) (workerId : jstr) : M OperationOutcome :=
  let! worker := load authority workerId in
  match worker with
  | None => ret (WorkerOutcome None)
  | Some worker =>
      let! _ := assertScope worker authority (Some workerId) in
      let! s := snapshot worker in
      ret (WorkerOutcome (Some s))
  end.

Definition load_known (authority : GovernedWorkerAuthorityReceipt) (workerId : jstr) : M DurableVoiceWorker :=
  let! worker := load authority workerId in
  let! worker := require NotFound worker in
  let! _ := assertScope worker authority (Some workerId) in
  ret worker.

Definition cancel (authority : GovernedWorkerAuthorityReceipt) (workerId idempotencyKey : jstr) : M OperationOutcome :=
  let! current := load_known authority workerId in
  let! worker := if TERMINAL_WORKER_STATUSES (dw_status current) then ret current
                 else ask (CCancel workerId (ar_organizationId authority)) (transitions_cancel w workerId (ar_organizationId authority)) in
  let! _ := assertScope worker authority (Some workerId) in
  let! s := snapshot worker in
  ret (WorkerOutcome (Some s)).

Definition reconcile (authority : GovernedWorkerAuthorityReceipt) (workerId idempotencyKey : jstr) : M OperationOutcome :=
  let! worker := load_known authority workerId in
  let! answer := ask (CReconcile worker authority idempotencyKey) (reconcileWorker w worker authority idempotencyKey) in
  let! _ := assertScope (rn_worker answer) authority (Some workerId) in
  let! s := snapshot (rn_worker answer) in
  ret (ReconciliationOutcome s (rn_disposition answer) (rn_evidenceSha256 answer) (rn_reason answer)).

Definition delivery_of (messageId : jstr) (disposition : DeliveryDisposition) (resultSha256 eventId eventSha256 reason : option jstr) : ResultDelivery :=
  {| rd_messageId := messageId; rd_disposition := disposition; rd_resultSha256 := resultSha256; rd_conversationEventId := eventId;
     rd_conversationEventSha256 := eventSha256; rd_reason := reason |}.
Definition not_ready (worker : DurableVoiceWorker) (messageId : jstr) (reason : string) : M OperationOutcome :=
  let! s := snapshot worker in
  ret (DeliveryOutcome s (delivery_of messageId NotReady (dw_resultSha256 worker) None None (Some (js reason)))).

Definition claim_in_scope (message : DurableConversationInboxMessage) (worker : DurableVoiceWorker) (messageId : jstr) : bool :=
  (dm_workerId message =?s dw_id worker) && (dm_conversationId message =?s dw_conversationId worker) && (dm_id message =?s messageId) &&
  bool_decide (is_Some (truthy (dm_deliveryToken message))).

Definition deliverResult (authority : GovernedWorkerAuthorityReceipt) (workerId messageId idempotencyKey : jstr) : M OperationOutcome :=
  let! worker := load_known authority workerId in
  let! message := ask (CClaim messageId workerId (ar_organizationId authority) (ar_conversationId authority))
                      (claimInboxMessage w messageId workerId (ar_organizationId authority) (ar_conversationId authority)) in
  match message with
  | None => not_ready worker messageId "no claimable immutable result is ready"
  | Some message =>
      let! _ := guard BadClaim (claim_in_scope message worker messageId) in
      match dm_kind message, succeededDeliveryProjection worker with
      | ResultKind _ resultSha256, Some deliveryWorker =>
          let! event := require BadIdentity (eventIdentity authority (js "deliver/" ++ dm_id message) idempotencyKey) in
          let! applicationId := require BadIdentity (deriveVoiceWorkerId (ar_conversationId authority) (js "result-application:" ++ idempotencyKey)) in
          let input := {| dt_expectedHead := expected_head authority; dt_conversationEvent := event;
                          dt_organizationId := ar_organizationId authority; dt_deliveryToken := default [] (dm_deliveryToken message);
                          dt_applicationId := applicationId; dt_worker := deliveryWorker; dt_message := message |} in
          let! answer := ask (CDeliver input) (transitions_deliver w input) in
          let! s := snapshot worker in
          ret (DeliveryOutcome s
            match answer with
            | Applied eventId eventSha256 _ => delivery_of (dm_id message) Accepted (Some resultSha256) (Some eventId) (Some eventSha256) None
            | NotApplicable decision reason =>
                delivery_of (dm_id message) decision (Some resultSha256) None None
                  (Some (default (js "conversation policy did not accept the worker result") reason))
            end)
      | _, _ => not_ready worker messageId "the claimed update is not an applicable succeeded worker result"
      end
  end.

(** The effects of the coordinator's operations. *)
Definition serve (command : Command) (authority : GovernedWorkerAuthorityReceipt) (idempotencyKey : jstr) : M OperationOutcome :=
  match cm_operation command, cm_spawn command, cm_workerId command, cm_messageId command with
  | Spawn, Some (recipe, input), _, _ => spawn authority recipe input idempotencyKey
  | GetStatus, _, Some workerId, _ => status authority workerId
  | Cancel, _, Some workerId, _ => cancel authority workerId idempotencyKey
  | Reconcile, _, Some workerId, _ => reconcile authority workerId idempotencyKey
  | DeliverResult, _, Some workerId, Some messageId => deliverResult authority workerId messageId idempotencyKey
  | _, _, _, _ => throw IllTyped
  end.

End Backend.

End VoiceWorkerBackend.
