(* ===== verification/VoiceWorkerBackendProps.v ===== *)
(** * What the backend of voice workers guarantees

    A small logic of calls and outcomes, and with it: the backend asks the store only for
    what the authority covers, answers only workers of its scope, and answers what the
    coordinator accepts as long as its dependencies answer in shape. *)

From S2P Require Import Prelude JsValue JsText Canonical JsDate Graph Flow FlowValidate FlowRuntime ActionPolicy Conversation VoiceWorkers VoiceWorkersProps VoiceWorkerCoordinator VoiceWorkerBackend.
Import Conversation VoiceWorkers VoiceWorkersProps VoiceWorkerCoordinator VoiceWorkerBackend.

Local Open Scope Z_scope.

Module VoiceWorkerBackendProps.

(** ** Calls and outcomes *)

(** All calls satisfy [P], and the value [Q]. *)
Definition sound {A} (P : Call -> Prop) (Q : A -> Prop) (m : M A) : Prop := Forall P m.1 /\ forall a, m.2 = Ok a -> Q a.

Lemma sound_ret {A} P (Q : A -> Prop) a : Q a -> sound P Q (ret a).
Proof. split; [constructor|by intros ? [= <-]]. Qed.
Lemma sound_bind {A B} P (R : A -> Prop) (Q : B -> Prop) m k : sound P R m -> (forall a, R a -> sound P Q (k a)) -> sound P Q (bindM m k).
Proof.
  intros [Hc Hr] Hk. unfold bindM. destruct m.2 as [a|]; [|split; [done|done]]. destruct (Hk a (Hr a eq_refl)) as [Hc' Hr'].
  split; [by apply Forall_app|done].
Qed.
Lemma sound_ask {A} (P : Call -> Prop) c (answer : option A) : P c -> sound P (fun a => answer = Some a) (ask c answer).
Proof. split; [by constructor|]. by destruct answer; intros ? [= <-]. Qed.
Lemma sound_require {A} P e (o : option A) : sound P (fun a => o = Some a) (require e o).
Proof. destruct o; split; try constructor; [by intros ? [= <-]|done]. Qed.
Lemma sound_guard P e b : sound P (fun _ => b = true) (guard e b).
Proof. destruct b; by split; try constructor. Qed.

(** ** Snapshots *)

Lemma stripped_suffix s : exists l, s = l ++ trim_start s /\ forallb is_space l = true.
Proof.
  induction s as [|c s (l & E & Hl)]; [by exists []|]. cbn. destruct (is_space c) eqn:Ec; [|by exists []].
  exists (c :: l). cbn. rewrite Ec, Hl. by rewrite <- E.
Qed.
Lemma stripped_done s : (forall c r, s = c :: r -> is_space c = false) -> trim_start s = s.
Proof. destruct s as [|c s]; [done|]. intros Hs. cbn. by rewrite (Hs c s). Qed.
Lemma stripped_head s c r : trim_start s = c :: r -> is_space c = false.
Proof. induction s as [|d s IH]; [done|]. cbn. destruct (is_space d) eqn:E; [done|]. by intros [= <- <-]. Qed.

Lemma trim_idempotent s : trim (trim s) = trim s.
Proof.
  unfold trim. set (t := trim_start s). destruct (stripped_suffix (reverse t)) as (l & E & _). set (u := trim_start (reverse t)) in *.
  assert (Et : t = reverse u ++ reverse l) by (rewrite <- reverse_app, <- E; by rewrite reverse_involutive).
  rewrite (stripped_done (reverse u)).
  - rewrite reverse_involutive. rewrite (stripped_done u); [done|]. intros c r Eu. by apply (stripped_head (reverse t) c r).
  - intros c r Eu. rewrite Eu in Et. by apply (stripped_head s c (r ++ reverse l)).
Qed.

Lemma trimmed_again n s t : trimmed n s = Some t -> trimmed n t = Some t /\ t = trim s.
Proof. unfold trimmed. destruct (_ && _) eqn:E; [|done]. intros [= <-]. by rewrite trim_idempotent, E. Qed.

Section Backend.
Context `{Formats} `{Sha256} (date_parse : jstr -> option Z) (w : World).

Lemma checkpoint_again o o' : optionally checkpoint_snapshot o = Some o' -> optionally checkpoint_snapshot o' = Some o'.
Proof.
  destruct o as [c|]; cbn; [|by intros [= <-]]. unfold checkpoint_snapshot. destruct (trimmed 128 (cs_phase c)) as [p|] eqn:Ep; [|done]. cbn [mbind option_bind].
  destruct (_ && _) eqn:E; [|done]. intros [= <-]. cbn. unfold checkpoint_snapshot. cbn [cs_phase cs_progress cs_checkpointSha256].
  apply trimmed_again in Ep as [-> _]. cbn [mbind option_bind]. by rewrite E.
Qed.

(** Parsing a parsed snapshot changes nothing. *)
Lemma snapshot_again s s' : GovernedWorkerSnapshotSchema s = Some s' ->
  GovernedWorkerSnapshotSchema s' = Some s' /\ ws_id s' = ws_id s /\ ws_conversationId s' = ws_conversationId s /\
  ws_organizationId s' = trim (ws_organizationId s) /\ opt_all is_sha256 (ws_resultSha256 s) = true /\ ws_resultSha256 s' = ws_resultSha256 s.
Proof.
  unfold GovernedWorkerSnapshotSchema at 1. destruct (BOUNDED_ID _) as [org|] eqn:Eo; [|done]. cbn [mbind option_bind].
  destruct (optionally checkpoint_snapshot _) as [cp|] eqn:Ec; [|done]. cbn [mbind option_bind]. destruct (_ && _) eqn:E; [|done].
  intros [= <-]. unfold GovernedWorkerSnapshotSchema. cbn [ws_id ws_conversationId ws_organizationId ws_workerKind ws_status ws_authoritySha256 ws_inputSha256
    ws_capabilityManifestSha256 ws_cancellationEpoch ws_claimedCancellationEpoch ws_leaseExpiresAt ws_dispatchStartedAt ws_checkpoint ws_resultSha256 ws_settledAt].
  apply trimmed_again in Eo as [Eo Et]. unfold BOUNDED_ID. rewrite Eo. cbn [mbind option_bind]. rewrite (checkpoint_again _ _ Ec). cbn [mbind option_bind].
  rewrite E. split_and!; try done. rewrite !andb_true_iff in E. tauto.
Qed.

Definition fits (worker : DurableVoiceWorker) (s : GovernedWorkerSnapshot) : Prop :=
  GovernedWorkerSnapshotSchema s = Some s /\ ws_id s = dw_id worker /\ ws_conversationId s = dw_conversationId worker /\
  ws_organizationId s = trim (dw_organizationId worker) /\ opt_all is_sha256 (dw_resultSha256 worker) = true.

Lemma project_fits worker s : projectSnapshot worker = Some s -> fits worker s.
Proof.
  unfold projectSnapshot. destruct (match dw_checkpoint worker with Some _ => _ | None => _ end) as [cp|]; [|done]. cbn [mbind option_bind].
  intros (H1 & H2 & H3 & H4 & H5 & _)%snapshot_again. by split_and!.
Qed.

(** ** Scope *)

Definition loaded (a : GovernedWorkerAuthorityReceipt) (workerId : jstr) (worker : DurableVoiceWorker) : Prop :=
  loadWorker w workerId (ar_organizationId a) (ar_conversationId a) = Some (Some worker) /\ in_scope_of worker a (Some workerId) = true.

(** A call that command [c] under authority [a] and key [k] may make. *)
Definition call_in_scope (a : GovernedWorkerAuthorityReceipt) (c : Command) (k : jstr) (call : Call) : Prop :=
  match call with
  | CLoad id org conversation => cm_workerId c = Some id /\ org = ar_organizationId a /\ conversation = ar_conversationId a
  | CClaim m id org conversation =>
      cm_operation c = DeliverResult /\ cm_messageId c = Some m /\ cm_workerId c = Some id /\ org = ar_organizationId a /\ conversation = ar_conversationId a /\
      exists worker, loaded a id worker
  | CReconcile worker a' k' => cm_operation c = Reconcile /\ a' = a /\ k' = k /\ exists id, cm_workerId c = Some id /\ loaded a id worker
  | CSpawn i => cm_operation c = Spawn /\ st_conversationId i = ar_conversationId a /\ st_organizationId i = ar_organizationId a /\
      st_agentId i = ar_agentId a /\ st_sourceCallId i = ar_callId a /\ st_goalId i = ar_goalId a /\ st_policyEpoch i = ar_policyEpoch a /\
      st_factDependencies i = ar_factDependencies a /\ st_expectedHead i = expected_head a /\ st_workerIdempotencyKey i = k /\
      exists recipe, cm_spawn c = Some (recipe, st_workerInput i) /\ st_capabilityManifest i = rr_capabilityManifest recipe
  | CCancel id org => cm_operation c = Cancel /\ cm_workerId c = Some id /\ org = ar_organizationId a /\
      exists worker, loaded a id worker /\ TERMINAL_WORKER_STATUSES (dw_status worker) = false
  | CDeliver i => cm_operation c = DeliverResult /\ dt_organizationId i = ar_organizationId a /\ dt_expectedHead i = expected_head a /\
      cm_messageId c = Some (dm_id (dt_message i)) /\ dm_deliveryToken (dt_message i) = Some (dt_deliveryToken i) /\
      (exists r h, dm_kind (dt_message i) = ResultKind r h) /\
      exists id worker, cm_workerId c = Some id /\ loaded a id worker /\ dw_status worker = Succeeded /\ dm_workerId (dt_message i) = dw_id worker /\
        dm_conversationId (dt_message i) = ar_conversationId a /\ dd_id (dt_worker i) = dw_id worker /\ dw_resultSha256 worker = Some (dd_resultSha256 (dt_worker i))
  end.

Definition worker_of (o : OperationOutcome) : option GovernedWorkerSnapshot :=
  match o with WorkerOutcome s => s | ReconciliationOutcome s _ _ _ | DeliveryOutcome s _ => Some s end.

(** The worker of an outcome is the one of the command, in the scope of the authority. *)
Definition snapshot_in_scope (a : GovernedWorkerAuthorityReceipt) (c : Command) (s : GovernedWorkerSnapshot) : Prop :=
  GovernedWorkerSnapshotSchema s = Some s /\ ws_conversationId s = ar_conversationId a /\ ws_organizationId s = ar_organizationId a /\
  (cm_operation c <> Spawn -> forall id, cm_workerId c = Some id -> id <> [] -> ws_id s = id).

(** What the coordinator asks for in a delivery. *)
Definition delivery_ok (d : ResultDelivery) : bool :=
  uuid (rd_messageId d) && opt_all is_sha256 (rd_resultSha256 d) &&
  opt_all (fun s => (1 <=? length s)%nat && (length s <=? 256)%nat) (rd_conversationEventId d) &&
  opt_all is_sha256 (rd_conversationEventSha256 d) && bounded_reason (rd_reason d).

(** What the store, the reconciler and the transitions have to keep to in their answers:
    digests are SHA-256, event ids have 1 to 256 characters and reasons at most 4096. *)
Record answers_ok : Prop := {
  ao_claimed : forall m id org conversation message r h,
    claimInboxMessage w m id org conversation = Some (Some message) -> dm_kind message = ResultKind r h -> is_sha256 h = true;
  ao_reconciled : forall worker a k answer, reconcileWorker w worker a k = Some answer ->
    opt_all is_sha256 (rn_evidenceSha256 answer) = true /\ bounded_reason (rn_reason answer) = true;
  ao_applied : forall i e h d, transitions_deliver w i = Some (Applied e h d) ->
    (1 <=? length e)%nat && (length e <=? 256)%nat = true /\ is_sha256 h = true;
  ao_refused : forall i d reason, transitions_deliver w i = Some (NotApplicable d reason) -> bounded_reason reason = true;
}.

(** When the coordinator accepts an outcome: always for a spawn, a status or a cancellation; for a
    reconciliation and a delivery when the dependencies answer in shape, and the message is named by a uuid. *)
Definition answers_suffice (c : Command) : Prop :=
  match cm_operation c with
  | Spawn | GetStatus | Cancel => True
  | Reconcile => answers_ok
  | DeliverResult => answers_ok /\ forall m, cm_messageId c = Some m -> uuid m = true
  end.

Definition outcome_in_scope (a : GovernedWorkerAuthorityReceipt) (c : Command) (o : OperationOutcome) : Prop :=
  (forall s, worker_of o = Some s -> snapshot_in_scope a c s) /\ (answers_suffice c -> parse_outcome (cm_operation c) o = Some o).

Section Command.
Context (a : GovernedWorkerAuthorityReceipt) (c : Command) (k : jstr).
Hypothesis trimmed_org : trim (ar_organizationId a) = ar_organizationId a.

#[local] Abbreviation ok := (sound (call_in_scope a c k)).

Lemma scope_parts worker id : in_scope_of worker a id = true ->
  (forall x, id = Some x -> x <> [] -> dw_id worker = x) /\ dw_conversationId worker = ar_conversationId a /\ dw_organizationId worker = ar_organizationId a.
Proof.
  unfold in_scope_of. rewrite !andb_true_iff, !str_eqb_eq. intros [[[Hi ?] ?] _]. split_and!; try done. intros x -> Hx. destruct x; [done|].
  by apply str_eqb_eq in Hi.
Qed.

Lemma fits_scope worker s id : in_scope_of worker a id = true -> (cm_operation c <> Spawn -> id = cm_workerId c) -> fits worker s -> snapshot_in_scope a c s.
Proof.
  intros Hsc Hid (Hs & Ei & Ec & Eo & _). apply scope_parts in Hsc as (Hi & Hc & Ho). split_and!; [done|congruence|by rewrite Eo, Ho|].
  intros Hop x Hx Hne. rewrite Ei. apply Hi; [|done]. by rewrite Hid.
Qed.

Lemma snapshot_sound worker (P : Call -> Prop) : sound P (fits worker) (snapshot worker).
Proof. split; [by unfold snapshot, require; destruct (projectSnapshot worker); constructor|]. unfold snapshot, require. destruct (projectSnapshot worker) eqn:E; [|done].
  intros ? [= <-]. by apply project_fits. Qed.

(** The last step of the operations that answer a worker. *)
Lemma worker_outcome_sound worker id : cm_operation c = Spawn \/ cm_operation c = GetStatus \/ cm_operation c = Cancel ->
  (cm_operation c <> Spawn -> id = cm_workerId c) -> in_scope_of worker a id = true ->
  ok (outcome_in_scope a c) (let! s := snapshot worker in ret (WorkerOutcome (Some s))).
Proof.
  intros Hop Hid Hs. eapply sound_bind; [apply snapshot_sound|]. intros s Hf. apply sound_ret. pose proof (fits_scope _ _ _ Hs Hid Hf) as Hsc. split; [by intros ? [= <-]|].
  intros _. destruct Hsc as [E _]. destruct Hop as [->|[->| ->]]; cbn [parse_outcome]; cbn [optionally]; by rewrite E.
Qed.

Lemma load_sound id : cm_workerId c = Some id -> ok (fun worker => loadWorker w id (ar_organizationId a) (ar_conversationId a) = Some worker) (load w a id).
Proof. intros. apply sound_ask. by split_and!. Qed.

Lemma load_known_sound id : cm_workerId c = Some id -> ok (loaded a id) (load_known w a id).
Proof.
  intros Hid. eapply sound_bind; [by apply load_sound|]. intros o Ho. eapply sound_bind; [apply sound_require|]. intros worker Hw.
  eapply sound_bind; [apply sound_guard|]. intros ? Hs. apply sound_ret. cbn beta in *. subst. by split.
Qed.

Lemma spawn_sound recipe input : cm_operation c = Spawn -> cm_spawn c = Some (recipe, input) -> ok (outcome_in_scope a c) (spawn date_parse w a recipe input k).
Proof.
  intros Hop Hc. eapply sound_bind; [apply sound_require|]. intros event _. eapply sound_bind; [apply sound_ask|].
  - split_and!; try done. by exists recipe.
  - intros worker _. eapply sound_bind; [apply sound_guard|]. intros ? Hs. eapply sound_bind; [apply sound_guard|]. intros ? _.
    eapply worker_outcome_sound; [by left|by intros []|exact Hs].
Qed.

Lemma status_sound id : cm_operation c = GetStatus -> cm_workerId c = Some id -> ok (outcome_in_scope a c) (status w a id).
Proof.
  intros Hop Hid. eapply sound_bind; [by apply load_sound|]. intros [worker|] Hw.
  - eapply sound_bind; [apply sound_guard|]. intros ? Hs. eapply worker_outcome_sound; [by right; left|by rewrite Hid|done].
  - apply sound_ret. split; [done|]. intros _. by rewrite Hop.
Qed.

Lemma cancel_sound id : cm_operation c = Cancel -> cm_workerId c = Some id -> ok (outcome_in_scope a c) (cancel w a id k).
Proof.
  intros Hop Hid. eapply sound_bind; [by apply load_known_sound|]. intros current Hl. eapply (sound_bind _ (fun _ => True)).
  - destruct (TERMINAL_WORKER_STATUSES _) eqn:Et; [by apply sound_ret|].
    assert (Hs : ok (fun x => transitions_cancel w id (ar_organizationId a) = Some x) (ask (CCancel id (ar_organizationId a)) (transitions_cancel w id (ar_organizationId a))))
      by (apply sound_ask; split_and!; try done; by exists current).
    by destruct Hs.
  - intros worker _. eapply sound_bind; [apply sound_guard|]. intros ? Hs. eapply worker_outcome_sound; [by right; right|by rewrite Hid|done].
Qed.

Lemma reconcile_sound id : cm_operation c = Reconcile -> cm_workerId c = Some id -> ok (outcome_in_scope a c) (reconcile w a id k).
Proof.
  intros Hop Hid. eapply sound_bind; [by apply load_known_sound|]. intros worker Hl. eapply sound_bind; [apply sound_ask; split_and!; try done; by exists id|].
  intros answer Hans. eapply sound_bind; [apply sound_guard|]. intros ? Hs. eapply sound_bind; [apply snapshot_sound|]. intros s Hf. apply sound_ret.
  assert (Hsc : snapshot_in_scope a c s) by (eapply fits_scope; [exact Hs|by rewrite Hid|done]). split; [by intros ? [= <-]|].
  unfold answers_suffice. rewrite Hop. intros Ho. destruct (ao_reconciled Ho _ _ _ _ Hans) as [He Hr].
  cbn [parse_outcome]. destruct Hsc as [-> _]. cbn [mbind option_bind]. by rewrite He, Hr.
Qed.

(** The last step of a delivery. *)
Lemma delivery_outcome_sound worker id d : cm_operation c = DeliverResult -> cm_workerId c = Some id -> loaded a id worker ->
  (answers_suffice c -> opt_all is_sha256 (dw_resultSha256 worker) = true -> delivery_ok d = true) ->
  ok (outcome_in_scope a c) (let! s := snapshot worker in ret (DeliveryOutcome s d)).
Proof.
  intros Hop Hid [_ Hs] Hd. eapply sound_bind; [apply snapshot_sound|]. intros s Hf. apply sound_ret.
  assert (Hsc : snapshot_in_scope a c s) by (eapply fits_scope; [exact Hs|by rewrite Hid|done]). split; [by intros ? [= <-]|].
  intros He. rewrite Hop. cbn [parse_outcome]. destruct Hsc as [-> _]. cbn [mbind option_bind].
  destruct Hf as (_ & _ & _ & _ & Hsha). specialize (Hd He Hsha). unfold delivery_ok in Hd. by rewrite Hd.
Qed.

Lemma not_ready_ok m worker (reason : string) : cm_operation c = DeliverResult -> cm_messageId c = Some m -> bounded_reason (Some (js reason)) = true ->
  answers_suffice c -> opt_all is_sha256 (dw_resultSha256 worker) = true ->
  delivery_ok (delivery_of m NotReady (dw_resultSha256 worker) None None (Some (js reason))) = true.
Proof.
  intros Hop Hm Hr. unfold answers_suffice. rewrite Hop. intros [_ Hu] Hsha. unfold delivery_ok, delivery_of.
  cbn [rd_messageId rd_resultSha256 rd_conversationEventId rd_conversationEventSha256 rd_reason opt_all]. by rewrite (Hu m Hm), Hsha, Hr.
Qed.

(** The delivery that an answer of the transition leads to. *)
Lemma answered_ok m message r h input answer : cm_operation c = DeliverResult -> cm_messageId c = Some (dm_id message) ->
  claimInboxMessage w m (default [] (cm_workerId c)) (ar_organizationId a) (ar_conversationId a) = Some (Some message) -> dm_kind message = ResultKind r h ->
  transitions_deliver w input = Some answer -> answers_suffice c ->
  delivery_ok match answer with
    | Applied eventId eventSha256 _ => delivery_of (dm_id message) Accepted (Some h) (Some eventId) (Some eventSha256) None
    | NotApplicable decision reason =>
        delivery_of (dm_id message) decision (Some h) None None
          (Some (default (js "conversation policy did not accept the worker result") reason))
    end = true.
Proof.
  intros Hop Hm Hcl Hk Ha. unfold answers_suffice. rewrite Hop. intros [Ho Hu]. pose proof (ao_claimed Ho _ _ _ _ _ _ _ Hcl Hk) as Hh.
  unfold delivery_ok. destruct answer as [e x d|d reason];
    cbn [delivery_of rd_messageId rd_resultSha256 rd_conversationEventId rd_conversationEventSha256 rd_reason opt_all]; rewrite (Hu _ Hm), Hh.
  - destruct (ao_applied Ho _ _ _ _ Ha) as [-> ->]. done.
  - pose proof (ao_refused Ho _ _ _ Ha) as Hr. by destruct reason.
Qed.

Lemma deliver_sound id m : cm_operation c = DeliverResult -> cm_workerId c = Some id -> cm_messageId c = Some m ->
  ok (outcome_in_scope a c) (deliverResult date_parse w a id m k).
Proof.
  intros Hop Hid Hm. eapply sound_bind; [by apply load_known_sound|]. intros worker Hl. eapply sound_bind; [apply sound_ask; split_and!; try done; by exists worker|].
  assert (Hnr : forall reason, bounded_reason (Some (js reason)) = true -> ok (outcome_in_scope a c) (not_ready worker m reason))
    by (intros; eapply delivery_outcome_sound; eauto using not_ready_ok).
  intros [message|] Hcl; [|by apply Hnr]. eapply sound_bind; [apply sound_guard|]. intros ? Hc.
  destruct (dm_kind message) as [r h|] eqn:Ek; [|by apply Hnr].
  destruct (succeededDeliveryProjection worker) as [d|] eqn:Ed; [|by apply Hnr].
  unfold claim_in_scope in Hc. rewrite !andb_true_iff, !str_eqb_eq in Hc. destruct Hc as [[[Hc1 Hc2] Hc3] Hc4%bool_decide_eq_true_1].
  eapply sound_bind; [apply sound_require|]. intros event _. eapply sound_bind; [apply sound_require|]. intros app _.
  eapply sound_bind; [apply sound_ask|intros answer Hans; eapply delivery_outcome_sound; try done; intros Hsf _;
    eapply (answered_ok m); [done|by rewrite Hc3|by rewrite Hid|exact Ek|exact Hans|exact Hsf]].
  cbn [call_in_scope dt_organizationId dt_expectedHead dt_message dt_deliveryToken dt_worker]. unfold succeededDeliveryProjection in Ed.
  destruct (dw_status worker) eqn:Est; try done. destruct (dw_resultSha256 worker) as [[|x h']|] eqn:Er; try done. cbn [truthy] in Ed.
  destruct (truthy (dw_settledAt worker)); [|done]. injection Ed as <-. split_and!; try done.
  - by rewrite Hc3.
  - by destruct (dm_deliveryToken message) as [[|]|]; destruct Hc4.
  - by exists r, h.
  - exists id, worker. split_and!; try done. rewrite Hc2. by destruct Hl as [_ (_ & ? & _)%scope_parts].
Qed.

End Command.

(** C18. The backend stays within the authority that the coordinator passes on. Whatever its dependencies answer, every call of
    the store is for the organisation, conversation, head, goal and worker of the receipt and command; a cancellation,
    reconciliation or delivery only follows the load of a worker in that scope, a cancellation only of one that has
    not ended and a delivery only of one that succeeded with a claimed message of its own; and the worker of every
    outcome is in that scope. The coordinator accepts the outcome of a spawn, a status or a cancellation as it is, and
    that of a reconciliation or a delivery if the dependencies answer in shape ([answers_ok]: digests that are SHA-256,
    event ids of 1 to 256 and reasons of at most 4096 characters) and a delivered message is named by a uuid. *)
Theorem backend_stays_in_scope value a c k : GovernedWorkerAuthorityReceiptSchema date_parse value = Some a ->
  Forall (call_in_scope a c k) (serve date_parse w c a k).1 /\
  forall o, (serve date_parse w c a k).2 = Ok o -> outcome_in_scope a c o.
Proof.
  intros Ha. assert (Ht : trim (ar_organizationId a) = ar_organizationId a).
  { unfold GovernedWorkerAuthorityReceiptSchema in Ha. destruct (BOUNDED_ID (ar_receiptId value)); [|done]. cbn [mbind option_bind] in Ha.
    destruct (BOUNDED_ID (ar_invocationId value)); [|done]. cbn [mbind option_bind] in Ha.
    destruct (BOUNDED_ID (ar_organizationId value)) as [o|] eqn:Eo; [|done]. cbn [mbind option_bind] in Ha.
    destruct (BOUNDED_ID (ar_agentId value)); [|done]. cbn [mbind option_bind] in Ha. destruct (BOUNDED_ID (ar_callId value)); [|done].
    cbn [mbind option_bind] in Ha. match type of Ha with (if ?b then _ else _) = _ => destruct b; [|done] end. injection Ha as <-. cbn [ar_organizationId].
    apply trimmed_again in Eo as [_ ->]. apply trim_idempotent. }
  change (sound (call_in_scope a c k) (outcome_in_scope a c) (serve date_parse w c a k)). unfold serve.
  assert (Hbad : sound (call_in_scope a c k) (outcome_in_scope a c) (throw IllTyped)) by by split; [constructor|].
  destruct (cm_operation c) eqn:Eop; destruct (cm_spawn c) as [[recipe input]|] eqn:Es; destruct (cm_workerId c) as [id|] eqn:Eid; destruct (cm_messageId c) as [m|] eqn:Em;
    try done; auto using spawn_sound, status_sound, cancel_sound, reconcile_sound, deliver_sound.
Qed.

End Backend.
End VoiceWorkerBackendProps.
