(* ===== verification/VoiceWorkersDemo.v ===== *)
(** * A research worker

    A worker that is spawned, under one key from two invocations of one tool call, and whose
    result is delivered; results that cannot be delivered; the witnesses of the theorems on voice workers. *)

From S2P Require Import Prelude JsValue JsText Canonical JsDate Graph Flow FlowValidate FlowRuntime ActionPolicy Conversation VoiceToolSchema VoiceWorkers VoiceWorkersProps VoiceWorkerCoordinator VoiceWorkerCoordinatorProps VoiceWorkerBackend VoiceWorkerBackendProps.
Import Conversation VoiceWorkers VoiceWorkersProps VoiceWorkerCoordinator VoiceWorkerCoordinatorProps VoiceWorkerBackend VoiceWorkerBackendProps.

Local Open Scope Z_scope.

Module VoiceWorkersDemo.

#[local] Existing Instance demo_sha256.

(** Formats on the texts used here. *)
#[local] Instance demo_formats : Formats := {|
  iso_datetime := fun s => Nat.eqb (length s) 24;
  uuid := fun s => Nat.eqb (length s) 36;
  url_parts := fun s =>
    if take 8 s =?s js "https://"
    then Some {| up_protocol := js "https:"; up_pathname := js "/"; up_search := []; up_hash := []; up_username := []; up_password := [] |}
    else None
|}.

(** Digits of an instant, as a number: in the order of time. *)
Definition demo_parse (s : jstr) : option Z :=
  Some (Z.of_N (fold_left (fun n c => if is_digit c then (n * 10 + (c - 48))%N else n) s 0%N)).

Definition hash_of (s : string) : jstr := @sha256 demo_sha256 (js s).
Definition conversation_id : jstr := js "0a1b2c3d-0000-4000-8000-000000000001".
Definition worker_id : jstr := js "0a1b2c3d-0000-4000-8000-000000000002".

Definition demo_manifest : VoiceWorkerCapabilityManifest :=
  {| cm_capabilities := [js "read_table"]; cm_networkOrigins := Some [js "https://example.com/"] |}.
Definition demo_input : VoiceWorkerInput :=
  {| wi_objective := js " Find the next flight. "; wi_context := Some [(js "city", JStr (js "Oslo"))]; wi_deliverable := js "A flight number"; wi_deadlineAt := None |}.
Definition manifest_hash : jstr := default [] (hashVoiceWorkerValue (manifest_json demo_manifest)).
Definition demo_authority : VoiceWorkerSpawnAuthority :=
  {| sa_conversationId := conversation_id; sa_organizationId := js "0a1b2c3d-0000-4000-8000-000000000003";
     sa_agentId := js "0a1b2c3d-0000-4000-8000-000000000004"; sa_agentVersion := 2; sa_source := FromConversation; sa_sourceCallId := None;
     sa_sourceWorkerId := None; sa_conversationHeadSha256 := hash_of "head"; sa_conversationRevision := 7; sa_goalId := js "rebook";
     sa_policyEpoch := 1; sa_factDependencies := [{| dp_key := js "city"; dp_revision := 1 |}]; sa_capabilityManifestSha256 := manifest_hash |}.

(** ** Spawn and delivery *)

Definition demo_spawn : result PrepareError PreparedSpawn := prepareVoiceWorkerSpawn demo_authority demo_input demo_manifest.
Definition demo_worker : AdapterWorker :=
  {| aw_id := worker_id; aw_conversationId := conversation_id; aw_authority := demo_authority; aw_objective := js "Find the next flight."; aw_resultSha256 := None |}.

Lemma prepared_spawn_is_an_event_witness : exists e, workerSpawnedConversationPayload demo_worker = Ok e /\ PayloadSchema e = true.
Proof.
  destruct demo_spawn as [p|] eqn:E; [|exfalso; by vm_compute in E].
  assert (Ho : Some (aw_objective demo_worker) = Some (wi_objective (ps_workerInput p))) by (revert E; vm_compute; by intros [= <-]).
  assert (Ha : aw_authority demo_worker = ps_authority p) by (revert E; vm_compute; by intros [= <-]).
  apply (prepared_spawn_is_an_event demo_authority demo_input demo_manifest p demo_worker); [exact E|exact Ha|by injection Ho|reflexivity|by vm_compute].
Defined.

Definition fact (key : string) (citations : list jstr) : VoiceWorkerFact :=
  {| vf_key := js key; vf_value := JStr (js "SK 123"); vf_confidence := num_of_Z 1; vf_citationIds := Some citations |}.
Definition citation (id : string) : VoiceWorkerCitation :=
  {| vc_id := js id; vc_uri := js "https://example.com/"; vc_title := None; vc_excerpt := None; vc_retrievedAt := js "2025-01-01T00:00:00.000Z" |}.
Definition result_of (facts : list VoiceWorkerFact) (citations : list VoiceWorkerCitation) : VoiceWorkerResult :=
  {| vr_facts := facts; vr_citations := citations; vr_proposedActions := []; vr_summary := js "SK 123 leaves at noon." |}.
Definition message_of (r : VoiceWorkerResult) : InboxMessage :=
  {| im_id := js "0a1b2c3d-0000-4000-8000-000000000005"; im_conversationId := conversation_id; im_workerId := worker_id; im_result := r;
     im_resultSha256 := default [] (hashVoiceWorkerValue (result_json r)) |}.

Definition demo_result : VoiceWorkerResult := result_of [fact "flight" [js "source-1"]] [citation "source-1"].

Lemma delivery_is_an_event_exactly_witness : exists e,
  workerResultConversationPayload demo_worker (message_of demo_result) = Ok e /\ PayloadSchema e = true.
Proof.
  destruct (workerResultConversationPayload demo_worker (message_of demo_result)) as [e|] eqn:E; [|exfalso; by vm_compute in E].
  exists e. split; [done|].
  assert (Hs : VoiceWorkerResultSchema (im_result (message_of demo_result)) = Some demo_result) by (vm_compute; reflexivity).
  assert (Hm : IdSchema (im_id (message_of demo_result)) = true) by (vm_compute; reflexivity).
  assert (Hw : IdSchema (aw_id demo_worker) = true) by (vm_compute; reflexivity).
  assert (Hl : (length (aw_id demo_worker) <= 121)%nat) by (apply Nat.leb_le; vm_compute; reflexivity).
  apply (proj2 (delivery_is_an_event_exactly demo_worker (message_of demo_result) e demo_result E Hs Hm Hw Hl)).
  split_and!; [apply Nat.leb_le; vm_compute; reflexivity|apply (bool_decide_unpack _); vm_compute; exact I|].
  apply Forall_singleton. split; [vm_compute; reflexivity|]. intros id Hid. injection Hid as <-. vm_compute. reflexivity.
Defined.

(** A result in schema, whose event the kernel refuses. *)
Definition undeliverable (r : VoiceWorkerResult) : bool :=
  match prepareVoiceWorkerResult r, workerResultConversationPayload demo_worker (message_of r) with
  | Ok _, Ok e => negb (PayloadSchema e)
  | _, _ => false
  end.

Definition digit_text (n : nat) : string := String (Ascii.ascii_of_nat (97 + n / 10)) (String (Ascii.ascii_of_nat (97 + n mod 10)) EmptyString).

(** A result with 33 facts, with two facts of one key, or whose first citation has a space in its identity,
    becomes no event. *)
Example valid_results_not_delivered :
  undeliverable (result_of ((fun n => fact (digit_text n) []) <$> seq 0 33) []) = true /\
  undeliverable (result_of [fact "flight" []; fact "flight" []] []) = true /\
  undeliverable (result_of [fact "flight" [js "source 1"]] [citation "source 1"]) = true.
Proof. by vm_compute. Qed.

(** ** Derived authority *)

Definition tool (name : string) (effect : VoiceToolSchema.ToolEffect) (target : option jstr) : CatalogTool :=
  {| ct_logical_name := js name; ct_effect := Some effect; ct_target := target |}.
Definition demo_catalog : list CatalogTool :=
  [tool "search_web" VoiceToolSchema.ReadEffect None; tool "refund" VoiceToolSchema.WriteEffect None; tool "lookup" VoiceToolSchema.ReadEffect (Some (js "crm_lookup"));
   tool "read_table" VoiceToolSchema.ReadEffect (Some (js "read_table"))].
Example derived_authority : deriveActiveReadOnlyWorkerManifest true demo_catalog [js "read_table"; js "refund"; js "lookup"; js "search_web"] =
  Ok {| cm_capabilities := [js "read_table"; js "search_web"]; cm_networkOrigins := Some [] |}.
Proof. by vm_compute. Qed.

(** ** The coordinator *)

Definition demo_recipe : GovernedWorkerRecipe :=
  {| gr_id := js "research"; gr_workerKind := js "research"; gr_capabilityManifest := demo_manifest; gr_prepares := false |}.
Definition registry : obj RegisteredGovernedWorkerRecipe := match GovernedWorkerRecipeRegistry [demo_recipe] with Ok r => r | Err _ => [] end.
Lemma registry_valid : GovernedWorkerRecipeRegistry [demo_recipe] = Ok registry.
Proof. by vm_compute. Qed.

Definition demo_invocation : Invocation :=
  {| in_scope := {| vs_callId := js "call"; vs_agentId := js "agent"; vs_orgId := js "org" |};
     in_context := {| vx_audience := FlowAction; vx_invocationId := Some (js "inv-1"); vx_idempotencyKey := Some (js "key-1");
                      vx_receiptId := Some (js "rcpt-1"); vx_runtimeDigest := Some (hash_of "runtime") |} |}.
Definition demo_receipt : GovernedWorkerAuthorityReceipt :=
  {| ar_receiptId := js "rcpt-1"; ar_invocationId := js "inv-1"; ar_runtimeDigest := hash_of "runtime"; ar_organizationId := js "org";
     ar_agentId := js "agent"; ar_agentVersion := 2; ar_callId := js "call"; ar_conversationId := conversation_id;
     ar_conversationHeadSha256 := hash_of "head"; ar_conversationRevision := 7; ar_goalId := js "rebook"; ar_policyEpoch := 1;
     ar_factDependencies := []; ar_allowedOperations := [Spawn; Cancel]; ar_allowedRecipeIds := [js "research"]; ar_allowedWorkerIds := None;
     ar_issuedAt := js "2025-01-01T00:00:00.000Z"; ar_expiresAt := js "2025-01-01T01:00:00.000Z" |}.
Definition demo_now : Z := 20250101003000000.
Definition demo_snapshot : GovernedWorkerSnapshot :=
  {| ws_id := worker_id; ws_conversationId := conversation_id; ws_organizationId := js "org"; ws_workerKind := js "research"; ws_status := Pending;
     ws_authoritySha256 := hash_of "authority"; ws_inputSha256 := hash_of "input"; ws_capabilityManifestSha256 := manifest_hash;
     ws_cancellationEpoch := 0; ws_claimedCancellationEpoch := None; ws_leaseExpiresAt := None; ws_dispatchStartedAt := None;
     ws_checkpoint := None; ws_resultSha256 := None; ws_settledAt := None |}.

Definition request : Request := SpawnRequest (js "research") demo_input.

(** The worker is spawned twice under one key; then its cancellation reuses the key. *)
Definition demo_events : list Event :=
  [Invoked request demo_invocation; Invoked request demo_invocation; AuthorityResolved 0 (Some demo_receipt) demo_now;
   AuthorityResolved 1 (Some demo_receipt) (demo_now + 1); EffectStarted 0; BackendAnswered 0 (Some (WorkerOutcome (Some demo_snapshot))) 1735689600000;
   JournalAnswered 1; Invoked (WorkerRequest CancelOf worker_id) demo_invocation; AuthorityResolved 2 (Some demo_receipt) (demo_now + 2)].
Definition demo_system : System := steps demo_parse registry demo_events initial.

Example demo_outcome :
  length (sy_calls demo_system) = 1%nat /\
  ((fun t => match tk_stage t with Finished (Ok r) => Ok (cr_replayed r) | Finished (Err e) => Err e | _ => Err EffectFailed end) <$> sy_tasks demo_system)
    = [Ok false; Ok true; Err KeyReused].
Proof. by vm_compute. Qed.

Lemma backend_called_on_authority_witness : length (sy_calls demo_system) = 1%nat /\
  NoDup ((fun call => (ar_conversationId (bl_authority call), bl_idempotencyKey call)) <$> sy_calls demo_system) /\
  forall call, call ∈ sy_calls demo_system -> exists t nowMs, sy_tasks demo_system !! bl_task call = Some t /\
    authorises demo_parse (bl_authority call) (bl_command call) (fr_invocation (tk_frame t)) nowMs.
Proof.
  split; [by vm_compute|]. destruct (backend_called_on_authority demo_parse [demo_recipe] registry demo_events registry_valid eq_refl) as [Hn Hc].
  split; [exact Hn|]. intros call (t & value & nowMs & Ht & _ & _ & _ & Ha)%Hc. exists t, nowMs. split; [exact Ht|exact Ha].
Defined.

Definition task_of (i : nat) : Task := nth i (sy_tasks demo_system) (finish (start_frame demo_invocation) BadArguments).
Definition result_at (i : nat) : option GovernedWorkerCommandResult := match tk_stage (task_of i) with Finished (Ok r) => Some r | _ => None end.

Definition demo_system_value : System := Eval vm_compute in demo_system.
Definition demo_command : Command := default (worker_command CancelOf worker_id) (fr_command (tk_frame (task_of 0))).
Definition demo_authority_hash : jstr := default [] (hashVoiceWorkerValue (authority_json demo_receipt)).
Definition demo_bound : BoundContext :=
  default {| bc_scope := in_scope demo_invocation; bc_invocationId := []; bc_idempotencyKey := []; bc_receiptId := []; bc_runtimeDigest := [] |}
    (fr_context (tk_frame (task_of 0))).

Lemma one_answer_per_key_witness : exists r r', result_at 0 = Some r /\ result_at 1 = Some r' /\ cr_value r = cr_value r' /\
  (cr_replayed r = true \/ cr_replayed r' = true).
Proof.
  assert (Hd : demo_system = demo_system_value) by (vm_compute; reflexivity).
  assert (H0 : exists r, tk_stage (task_of 0) = Finished (Ok r)) by (unfold task_of; rewrite Hd; eexists; reflexivity).
  assert (H1 : exists r, tk_stage (task_of 1) = Finished (Ok r)) by (unfold task_of; rewrite Hd; eexists; reflexivity).
  destruct H0 as [r E], H1 as [r' E']. exists r, r'. unfold result_at. rewrite E, E'. split; [reflexivity|]. split; [reflexivity|].
  assert (Hread : readable demo_command demo_receipt) by (split_and!; [apply val_okb_sound; vm_compute; reflexivity|vm_compute; reflexivity|apply val_okb_sound; vm_compute; reflexivity]).
  destruct (one_answer_per_key demo_parse [demo_recipe] registry demo_events 0 1 demo_command demo_command demo_bound demo_bound
              demo_receipt demo_receipt demo_authority_hash demo_authority_hash r r' registry_valid) as (Hv & Hr & _);
    [exists (task_of 0)|exists (task_of 1)|reflexivity|reflexivity|exact Hread|exact Hread|].
  1, 2: split_and!; (exact E || exact E' || (vm_compute; reflexivity)).
  split; [exact Hv|]. apply Hr. discriminate.
Defined.

(** ** The backend *)

Definition durable : DurableVoiceWorker :=
  {| dw_id := worker_id; dw_conversationId := conversation_id; dw_organizationId := js "org"; dw_sourceCallId := None; dw_workerKind := js "research";
     dw_authority := {| sa_conversationId := conversation_id; sa_organizationId := js "org"; sa_agentId := js "agent"; sa_agentVersion := 2;
       sa_source := FromVoiceCall; sa_sourceCallId := Some (js "call"); sa_sourceWorkerId := None; sa_conversationHeadSha256 := hash_of "head";
       sa_conversationRevision := 7; sa_goalId := js "rebook"; sa_policyEpoch := 1; sa_factDependencies := []; sa_capabilityManifestSha256 := manifest_hash |};
     dw_authoritySha256 := hash_of "authority"; dw_inputSha256 := hash_of "input"; dw_capabilityManifestSha256 := manifest_hash; dw_status := Succeeded;
     dw_leaseExpiresAt := None; dw_dispatchStartedAt := None; dw_cancellationEpoch := 0; dw_claimedCancellationEpoch := None; dw_checkpoint := None;
     dw_checkpointSha256 := None; dw_resultSha256 := Some (hash_of "result"); dw_settledAt := Some (js "2025-01-01T00:30:00.000Z") |}.
Definition message_id : jstr := js "0a1b2c3d-0000-4000-8000-000000000005".
Definition inbox : DurableConversationInboxMessage :=
  {| dm_id := message_id; dm_conversationId := conversation_id; dm_workerId := worker_id; dm_deliveryToken := Some (js "token");
     dm_kind := ResultKind demo_result (hash_of "result") |}.

(** A store whose conversation decides as given. *)
Definition store (decision : DeliveryDisposition) : World :=
  {| loadWorker := fun id _ _ => Some (if id =?s worker_id then Some durable else None);
     claimInboxMessage := fun id _ _ _ => Some (if id =?s message_id then Some inbox else None);
     reconcileWorker := fun _ _ _ => None; transitions_spawn := fun _ => None; transitions_cancel := fun _ _ => None;
     transitions_deliver := fun i => Some (Applied (js "worker-event-8") (hash_of "event") decision) |}.

Definition deliver_receipt : GovernedWorkerAuthorityReceipt :=
  {| ar_receiptId := js "rcpt-2"; ar_invocationId := js "inv-2"; ar_runtimeDigest := hash_of "runtime"; ar_organizationId := js "org";
     ar_agentId := js "agent"; ar_agentVersion := 2; ar_callId := js "call"; ar_conversationId := conversation_id;
     ar_conversationHeadSha256 := hash_of "head"; ar_conversationRevision := 7; ar_goalId := js "rebook"; ar_policyEpoch := 1;
     ar_factDependencies := []; ar_allowedOperations := [DeliverResult]; ar_allowedRecipeIds := []; ar_allowedWorkerIds := Some [worker_id];
     ar_issuedAt := js "2025-01-01T00:00:00.000Z"; ar_expiresAt := js "2025-01-01T01:00:00.000Z" |}.
Definition delivered (decision : DeliveryDisposition) : M OperationOutcome :=
  serve demo_parse (store decision) (delivery_command worker_id message_id) deliver_receipt (js "key-2").
Definition disposition_of (m : M OperationOutcome) : option DeliveryDisposition :=
  match m.2 with Ok (DeliveryOutcome _ d) => Some (rd_disposition d) | _ => None end.

Example delivery_calls : ((fun c => match c with CLoad _ _ _ => 1 | CClaim _ _ _ _ => 2 | CDeliver _ => 3 | _ => 4 end) <$> (delivered Accepted).1) = [1; 2; 3] /\
  disposition_of (delivered Accepted) = Some Accepted.
Proof. by vm_compute. Qed.

(** A result that the conversation has rejected, in an event that the store has committed, is
    reported as accepted. *)
Example rejected_result_reported_accepted : disposition_of (delivered Rejected) = Some Accepted.
Proof. by vm_compute. Qed.

Lemma store_answers_ok decision : answers_ok (store decision).
Proof.
  split; cbn [claimInboxMessage reconcileWorker transitions_deliver store].
  - intros m id org conversation message r h. destruct (m =?s message_id); intros [= <-]. cbn [dm_kind inbox].
    intros [= _ <-]. vm_compute. reflexivity.
  - discriminate.
  - intros i e h d [= <- <- _]. split; vm_compute; reflexivity.
  - discriminate.
Qed.

(** The delivery is accepted by the conversation, its calls are in scope and the coordinator accepts its outcome. *)
Lemma backend_stays_in_scope_witness : disposition_of (delivered Accepted) = Some Accepted /\
  Forall (call_in_scope (store Accepted) deliver_receipt (delivery_command worker_id message_id) (js "key-2")) (delivered Accepted).1 /\
  forall o, (delivered Accepted).2 = Ok o -> (forall s, worker_of o = Some s -> snapshot_in_scope deliver_receipt (delivery_command worker_id message_id) s) /\
    parse_outcome DeliverResult o = Some o.
Proof.
  split; [by vm_compute|]. assert (Ha : GovernedWorkerAuthorityReceiptSchema demo_parse deliver_receipt = Some deliver_receipt) by (vm_compute; reflexivity).
  destruct (backend_stays_in_scope demo_parse (store Accepted) deliver_receipt deliver_receipt (delivery_command worker_id message_id) (js "key-2") Ha) as [Hc Ho].
  split; [exact Hc|]. intros o E. destruct (Ho o E) as [Hs Hp]. split; [exact Hs|]. apply Hp. split; [apply store_answers_ok|].
  intros m [= <-]. vm_compute. reflexivity.
Defined.

End VoiceWorkersDemo.
